(* ===== verification/_CoqProject ===== *)
-Q . S2P
Prelude.v
JsString.v
JsNumber.v
JsValue.v
JsonText.v
NumberText.v
Canonical.v
CanonicalSpec.v
JsonRoundTrip.v
Utf8.v
ParsedJson.v
Views.v
DateTime.v
PersistenceJson.v
PersistenceJsonSpec.v
Events.v
EventsSpec.v
FileSystem.v
EventStores.v
EventLog.v
EventStoresSpec.v
EventStoresTheorems.v
SerialQueue.v
SerialQueueSpec.v
Checkpoints.v
CheckpointsSpec.v
CheckpointsTheorems.v
CheckpointList.v
Dag.v
SchemaValidation.v
GraphIR.v
Compiler.v
CompilerSpec.v
PatternShapes.v
JsonValues.v
PatternInternal.v
PatternSnapshot.v
Patterns.v
PatternGraph.v
PatternsSpec.v
PatternsTheorems.v
RuntimeTypes.v
Semaphore.v
Scheduler.v
SchedulerGraph.v
SchedulerTasks.v
SchedulerLive.v
SchedulerDeterminism.v
SchedulerSpec.v
SchedulerTheorems.v
PatternRuns.v
Primitives.v
PrimitivesSpec.v
Barrier.v
BarrierSpec.v
Router.v
RouterSpec.v
Stringify.v
Process.v
Disk.v
Fixtures.v
GraphReading.v
CliValidation.v
Visualize.v
Doctor.v
Init.v
Cli.v
Messages.v
VisualizeSpec.v
CliOutput.v
CliSpec.v
DoctorSpec.v
InitDisk.v
InitAtomic.v
CliWorkflow.v
InitSpec.v
McpLimits.v
McpTools.v
McpSpec.v
McpServer.v
