(* ===== verification/Prelude.v ===== *)
(** * Graph Engineering: a verification library

    This library models the TypeScript packages of the repository in Rocq and proves
    what they promise.  It follows the code function by function: a JavaScript string
    is a list of UTF-16 code units, a number is an IEEE double ([SpecFloat]), a caller's
    value lives in a heap of objects with property descriptors, a [Map] or [Set] is an
    insertion-ordered association list, a throwing function returns [result], and the
    asynchronous scheduler is a step relation over its atomic stretches.

    ** The parts of the program and their files

    The language (no source file of its own): [Prelude] (results, stable sorting,
    ordered maps, shared lemmas and automation), [JsString] (code units and code
    points), [JsNumber] (doubles, their printing and reading), [JsValue] (JSON trees;
    heaps, objects and descriptors), [JsonText] ([JSON.parse] and string quoting),
    [NumberText] (the text of a double reads back as that double), [JsonRoundTrip]
    (canonical text reads back as the tree), [Utf8] ([Buffer] and [TextDecoder],
    strict and with replacement), [Stringify] ([JSON.stringify]),
    [ParsedJson] (what [JSON.parse] can return).

    packages/core: [Canonical] is canonical.ts (capture of a caller's value through
    descriptors, canonical text, hashing with SHA-256 as a parameter); [CanonicalSpec]
    gives the relation [portable] - plain data whose integers are safe - and shows that
    capture decides it, on cyclic heaps too.  [SchemaValidation] is schema-validation.ts.  [GraphIR] is types.ts: the typed
    graph, the decoder of a document, and the theorem that structural validation
    accepts exactly the documents that decode within the schema's bounds.  [Compiler]
    is compiler.ts, every phase of [compileGraph]; [Dag] is the theory of levels and
    cycles; [CompilerSpec] shows that a document compiles exactly when it encodes a
    well-formed DAG, that the layers are the longest-path levels, and that the cycle
    diagnostic is exact.

    packages/runtime: [RuntimeTypes] is types.ts and json.ts (results, failures,
    snapshots).  [Semaphore] is [createAttemptSemaphore] of scheduler.ts, [Scheduler]
    the rest of it.  A state of [Scheduler] holds the results, the indegrees, the ready
    queue, the active tasks with the point where each is suspended, the semaphore, the
    attempt counter and the abort flag; [step] runs one stretch between two awaits,
    chosen by a label, so that a run is any sequence of labels: the timers, the
    executors and the microtask queue are the environment.  [SchedulerGraph] and
    [SchedulerTasks] are the invariants of the bookkeeping and of the tasks,
    [SchedulerLive] the termination measure and progress, [SchedulerDeterminism] the
    sequential reference evaluation, [SchedulerSpec] further invariants, and
    [SchedulerTheorems] the contract: limits, dependencies, termination, completeness,
    refinement of the reference, independence of schedule and concurrency (but for the
    observed maximum, and given enough attempts), exact propagation of failures, the status of the report, input binding.

    packages/primitives: [Primitives] is json.ts and errors.ts and the inspection of
    records; [Barrier] is barrier.ts, [Router] is router.ts.  [PrimitivesSpec] relates
    the JSON validator to the core's canonicalization; [BarrierSpec] and [RouterSpec]
    show that validation accepts exactly the inputs described without it, and what the
    decisions guarantee.

    packages/persistence: the package reads caller values, structured clones and parsed
    records with the same code; [Views] is the interface that code is written against.
    [DateTime] is datetime.ts; [PersistenceJson] is errors.ts, identifiers.ts and
    json.ts, with [PersistenceJsonSpec] relating them to JSON trees; [Events] is
    events.ts and store-validation.ts, with [EventsSpec] saying what a valid event is.
    [FileSystem] is the part of node:fs/promises and io.ts that the stores use, with a
    schedule that says which calls fail.  [EventStores] is memory-event-store.ts and
    jsonl-event-store.ts, [EventLog] the log that event-store.ts promises and the
    bytes of a log and of its prefixes; [EventStoresSpec] and [EventStoresTheorems]
    show that both stores refine the log and what a failing append leaves behind.
    [SerialQueue] is serial-queue.ts as a step relation over the settling of promises;
    [SerialQueueSpec] shows exclusion, serial order and completion, which is why the
    stores may model one operation at a time.  [Checkpoints] is checkpoints.ts and
    file-checkpoint-store.ts; [CheckpointsSpec], [CheckpointsTheorems] and
    [CheckpointList] show that accepted records are sealed, that a save is read back and
    is atomic under failures, and that listing is complete.

    packages/patterns: [PatternInternal] is internal.ts and errors.ts, [Patterns] is
    patterns.ts.  [PatternSnapshot] compares the package's snapshot of options with the
    core's capture: the snapshot has limits on depth and width, the capture on integers.  [JsonValues] is about the objects a detached tree
    is made of, which the package inspects again and submits to the core.
    [PatternGraph] says what the core reads from an assembled document, [PatternShapes] what
    the compiler makes of a graph with a rank, and that fans and unrolled loops have
    one; [PatternsSpec] puts the builders together and [PatternsTheorems]
    states their contract: built exactly when schema and policies admit the graph, with
    the documented layers, whatever the order of parallel items.  [PatternRuns] puts a
    built graph through the compiler into the scheduler: it runs as the pattern is drawn.

    packages/cli: [Process] gives the calls of a program to Node.js - streams, files,
    directories, imports - as a tree of calls and continuations, with two readings: the
    traces a program has under any environment ([exec], [always], [says]), and its run
    by a handler; [Disk] is such a handler, a disk of directories, files and links with
    a schedule of failures, and the rule of reasoning with a budget of failures
    ([under]).  [Cli] is cli.ts: parsing the arguments, every command, the
    envelopes of machine mode and the lines of human mode.  [CliValidation] is
    validation.ts and planner.ts, [Visualize] is visualize.ts, [Doctor] is doctor.ts,
    [Init] is init.ts.  [GraphReading] says what the decoder reads from a compiled
    document, [Messages] that the texts of a compilation are well-formed, [CliOutput]
    what each command prints.  [VisualizeSpec] reads a rendered diagram back
    with a reader of its own, of the syntax and of the labels,
    [CliSpec] is the contract of the arguments, of both modes and of the exit codes,
    [DoctorSpec] that of the doctor, [InitSpec] the contract of each call of init under
    any environment, and the window it leaves between a look and a removal.  [InitDisk] follows init on a disk, and [InitAtomic]
    states what it leaves there: all or nothing with at most one failing call, but for
    two failures, and the error that each disk leads to.  [CliWorkflow] runs one command
    after another: what init leaves, graph validate accepts.

    packages/mcp-server: [McpLimits] is limits.ts and constants.ts - the limits on the
    input, and the race of the worker, a timer and an abort signal as a fold over the
    events that arrive, with the proof that the race settles once; [McpTools] is tools.ts,
    schema.ts and compile-worker.ts; [McpSpec] shows that the results of the tools
    conform to their output schemas, that graph_plan gives the plan of the command
    line, and that the schema is read once.  [McpServer] is server.ts - the tools and the
    resource, as they are registered - and stdio.ts, the entry point and the shutdown; a
    state of [process] holds the promise of the schema, the requests that wait for it
    and the answers (or that a compilation has not settled yet), and a step is the arrival of a request or the end of the read, so
    that [server_interleavings] is about any overlapping of the requests.

    scripts: [Fixtures] is validate-fixtures.mjs, which guards the conformance fixtures
    with a canonical text of its own.  The text denotes the tree that the core's text
    denotes, and is the same text unless a key is an array index; the script, a program
    over the calls of [Process], succeeds exactly when the fixtures are what
    expected.json says.

    ** Interfaces

    The compiler meets the runtime in [config_ok]: [runGraph_config] discharges it from
    the compiler's theorems, and every theorem about runs assumes only it.  The
    semaphore meets the scheduler in [semaphore_ok] and its specification lemmas.  The
    primitives meet the core in [portable].  The stores meet their clients in the class
    [EventStore] with its laws [EventStoreLaws]; the theorems about clients are proved
    from the laws.  Values meet the persistence package in [view].  The output schemas of
    the MCP tools meet the schema library in the class [Zod], whose laws state what the
    constructors used accept; a checker is its instance.

    ** Fuel and bounds

    [captureValue] and [validateJson] spend one unit of fuel per object on the current
    path, so the size of the heap is enough ([captureValue_fuel]).  The loops of the
    compiler spend one unit per layer or per visited node, and [CompilerSpec] shows
    that the number of nodes suffices.  [launchReady] is given one unit per node and
    one more, and [launchReady_inv] shows that it empties the queue.  The JSON reader
    spends one unit per character.  Numbers keep their width: integers are read from
    doubles by [num_trunc], safe-integer checks are the code's, and the products of the
    barrier are shown to stay below 2^53.

    ** What is assumed

    SHA-256, the [**] operator, the clock, the source of temporary names and the
    engine's texts for some errors are parameters.  The checkpoint theorems assume of
    the digest that it is hexadecimal text and, where records are compared, that it is
    injective on the texts at hand; the theorems on failures assume only that a failing
    write leaves a prefix.  What a getter or a class prototype returns to a property
    read is a parameter of the views of caller values.

    ** What is not modelled

    [Object.freeze] has no effect on the immutable values of the model.  The scheduler
    reads the graph from the compiler's captured copy: a caller that mutates the graph
    object during a run is outside the model, and so is the real time of timers (a timer
    may fire at any moment after it is set).  The directories of
    the stores exist when they are needed.  The entry points of the command
    line and of the MCP server take the file system's [realpath] as a parameter.  Of the MCP
    server, the SDK's protocol is not modelled: how it finds the handler of a request,
    checks the arguments and writes the answer; handlers are modelled from the moment
    they are called.  Flags of the
    operating system behind the calls of [Process] (no-follow, modes) are not modelled,
    nor are two names of one entry of a disk.  The folders examples and tools and
    the other scripts hold programs that call the packages with fixed inputs or run npm
    and git and check what those print; they are not modelled. *)
From stdpp Require Export base list gmap sorting numbers strings relations.
From Stdlib Require Export ZArith Lia.

#[global] Set Default Goal Selector "!".

(** ** Fallible computations

    Code that throws is modelled by [result E A]: [Ok] for a normal return and
    [Err] for a thrown value.  The notation [x ← m; k] is stdpp's. *)
Inductive result (E A : Type) : Type :=
  | Ok (a : A)
  | Err (e : E).
Arguments Ok {E A} a.
Arguments Err {E A} e.

#[export] Instance result_ret E : MRet (result E) := λ A a, Ok a.
#[export] Instance result_bind E : MBind (result E) := λ A B f m,
  match m with Ok a => f a | Err e => Err e end.
#[export] Instance result_fmap E : FMap (result E) := λ A B f m,
  match m with Ok a => Ok (f a) | Err e => Err e end.

(** Evaluate [f] over a list from left to right, stopping at the first error. *)
Fixpoint traverse {E A B} (f : A → result E B) (l : list A) : result E (list B) :=
  match l with
  | [] => Ok []
  | x :: l' => y ← f x; ys ← traverse f l'; Ok (y :: ys)
  end.

(** [traverse] with the position of each element. *)
Fixpoint itraverse_from {E A B} (i : nat) (f : nat → A → result E B) (l : list A)
    : result E (list B) :=
  match l with
  | [] => Ok []
  | x :: l' => y ← f i x; ys ← itraverse_from (S i) f l'; Ok (y :: ys)
  end.
Definition itraverse {E A B} : (nat → A → result E B) → list A → result E (list B) :=
  itraverse_from 0.

(** ** Stable sorting by a comparator

    [Array.prototype.sort] is a stable sort; with a consistent comparator the
    result is determined, so insertion sort is as good as any algorithm. *)
Section sort_definitions.
Context {A : Type} (cmp : A → A → Z).

Fixpoint sort_insert (x : A) (l : list A) : list A :=
  match l with
  | [] => [x]
  | y :: l' => if (cmp x y <=? 0)%Z then x :: l else y :: sort_insert x l'
  end.

Definition sort_by (l : list A) : list A := foldr sort_insert [] l.

(** The order a comparator induces. *)
Definition cmp_le (x y : A) : Prop := (cmp x y ≤ 0)%Z.
End sort_definitions.

(** A comparator is consistent when it induces a total preorder. *)
Class Comparator {A : Type} (cmp : A → A → Z) : Prop := {
  comparator_total : ∀ x y, cmp_le cmp x y ∨ cmp_le cmp y x;
  comparator_trans : ∀ x y z, cmp_le cmp x y → cmp_le cmp y z → cmp_le cmp x z
}.

(** ** Insertion-ordered sets and maps

    A JavaScript [Set] or [Map] iterates in insertion order: a [Set] is modelled
    by a duplicate-free list, a [Map] by an association list. *)
Section ordered_collections.
Context {K : Type} `{EqDecision K}.

(** [set.add(x)] *)
Definition set_add (x : K) (s : list K) : list K :=
  if decide (x ∈ s) then s else s ++ [x].

(** [new Set(xs)], in iteration order *)
Definition set_of_list (xs : list K) : list K := foldl (λ s x, set_add x s) [] xs.

(** [map.get(k)] *)
Fixpoint map_get {V} (k : K) (m : list (K * V)) : option V :=
  match m with
  | [] => None
  | (k', v) :: m' => if decide (k = k') then Some v else map_get k m'
  end.

(** [map.has(k)] *)
Definition map_has {V} (k : K) (m : list (K * V)) : bool :=
  match map_get k m with Some _ => true | None => false end.

(** [map.set(k, v)]: an existing key keeps its position *)
Fixpoint map_set {V} (k : K) (v : V) (m : list (K * V)) : list (K * V) :=
  match m with
  | [] => [(k, v)]
  | (k', v') :: m' => if decide (k = k') then (k, v) :: m' else (k', v') :: map_set k v m'
  end.

(** [map.delete(k)] *)
Definition map_delete {V} (k : K) (m : list (K * V)) : list (K * V) := filter (λ p, p.1 ≠ k) m.

(** The sum of a quantity over the values of a map. *)
Definition map_sum {V} (f : V → Z) (m : list (K * V)) : Z := foldr (λ p z, (f p.2 + z)%Z) 0%Z m.
End ordered_collections.

(** ** Tactics *)

(** Split every boolean connective among the hypotheses and turn the boolean
    tests of [Z], [N] and [nat] into propositions. *)
Ltac bool_hyps :=
  repeat match goal with
  | H : (_ && _)%bool = true |- _ => apply andb_true_iff in H; destruct H
  | H : (_ || _)%bool = false |- _ => apply orb_false_iff in H; destruct H
  | H : negb _ = true |- _ => apply negb_true_iff in H
  | H : negb _ = false |- _ => apply negb_false_iff in H
  | H : (_ <=? _)%Z = true |- _ => apply Z.leb_le in H
  | H : (_ <=? _)%Z = false |- _ => apply Z.leb_gt in H
  | H : (_ <? _)%Z = true |- _ => apply Z.ltb_lt in H
  | H : (_ <? _)%Z = false |- _ => apply Z.ltb_ge in H
  | H : (_ =? _)%Z = true |- _ => apply Z.eqb_eq in H
  | H : (_ =? _)%Z = false |- _ => apply Z.eqb_neq in H
  | H : (_ <=? _)%N = true |- _ => apply N.leb_le in H
  | H : (_ <=? _)%N = false |- _ => apply N.leb_gt in H
  | H : (_ <? _)%N = true |- _ => apply N.ltb_lt in H
  | H : (_ <? _)%N = false |- _ => apply N.ltb_ge in H
  | H : (_ =? _)%N = true |- _ => apply N.eqb_eq in H
  | H : (_ =? _)%N = false |- _ => apply N.eqb_neq in H
  | H : (_ <=? _)%nat = true |- _ => apply Nat.leb_le in H
  | H : (_ <=? _)%nat = false |- _ => apply Nat.leb_gt in H
  | H : (_ <? _)%nat = true |- _ => apply Nat.ltb_lt in H
  | H : (_ <? _)%nat = false |- _ => apply Nat.ltb_ge in H
  | H : (_ =? _)%nat = true |- _ => apply Nat.eqb_eq in H
  | H : (_ =? _)%nat = false |- _ => apply Nat.eqb_neq in H
  end.

(** Case analysis on the first conditional of a hypothesis. *)
Tactic Notation "split_if" "in" hyp(H) "as" ident(E) :=
  match type of H with context [if ?b then _ else _] => destruct b eqn:E end.

(** Open the successful binds of a [result] computation. *)
Lemma bind_Ok {E A B} (f : A → result E B) (m : result E A) b :
  m ≫= f = Ok b ↔ ∃ a, m = Ok a ∧ f a = Ok b.
Proof. destruct m as [a|e]; [|by split; [|intros (? & ? & ?)]]. naive_solver. Qed.
Lemma fmap_Ok {E A B} (f : A → B) (m : result E A) b :
  f <$> m = Ok b ↔ ∃ a, m = Ok a ∧ f a = b.
Proof.
  destruct m as [a|e]; [|by split; [|intros (? & ? & ?)]]. unfold fmap, result_fmap. naive_solver.
Qed.

Ltac inv_ok :=
  repeat match goal with
  | H : mbind _ _ = Ok _ |- _ =>
      let a := fresh "a" in let E := fresh "E" in apply bind_Ok in H as (a & E & H)
  | H : fmap _ _ = Ok _ |- _ =>
      let a := fresh "a" in let E := fresh "E" in apply fmap_Ok in H as (a & E & H)
  | H : Ok _ = Ok _ |- _ => injection H as H; subst
  | H : mret _ = Ok _ |- _ => injection H as H; subst
  | H : Err _ = Ok _ |- _ => discriminate H
  end.

(** ** Lemmas on [result] *)
Lemma traverse_length {E A B} (f : A → result E B) l ys :
  traverse f l = Ok ys → length ys = length l.
Proof.
  revert ys. induction l as [|x l IH]; intros ys H; simpl in H; inv_ok; [done|].
  simpl. f_equal. eauto.
Qed.

Lemma traverse_Forall2 {E A B} (f : A → result E B) l ys :
  traverse f l = Ok ys ↔ Forall2 (λ x y, f x = Ok y) l ys.
Proof.
  split.
  - revert ys. induction l as [|x l IH]; intros ys H; simpl in H; inv_ok; constructor; eauto.
  - induction 1 as [|x y l ys Hx Hl IH]; simpl; [done|]. by rewrite Hx; simpl; rewrite IH.
Qed.

Lemma traverse_ext {E A B} (f g : A → result E B) l :
  (∀ x, x ∈ l → f x = g x) → traverse f l = traverse g l.
Proof.
  induction l as [|x l IH]; intros H; simpl; [done|].
  rewrite (H x) by left. destruct (g x); simpl; [|done]. rewrite IH; [done|].
  intros y Hy. apply H. by right.
Qed.

Lemma itraverse_from_lookup {E A B} (f : nat → A → result E B) k l ys :
  itraverse_from k f l = Ok ys →
  ∀ i x, l !! i = Some x → ∃ y, ys !! i = Some y ∧ f (k + i) x = Ok y.
Proof.
  revert k ys. induction l as [|x l IH]; intros k ys H i z Hz; simpl in H; inv_ok; [done|].
  destruct i as [|i]; simpl in *.
  - injection Hz as ->. rewrite Nat.add_0_r. eauto.
  - destruct (IH _ _ E1 _ _ Hz) as (y & ? & Hy). exists y. split; [done|].
    by rewrite Nat.add_succ_r.
Qed.

Lemma itraverse_from_length {E A B} (f : nat → A → result E B) k l ys :
  itraverse_from k f l = Ok ys → length ys = length l.
Proof.
  revert k ys. induction l as [|x l IH]; intros k ys H; simpl in H; inv_ok; [done|].
  simpl. f_equal. eauto.
Qed.

(** ** Lemmas on sorting *)
Section sort_lemmas.
Context {A : Type} (cmp : A → A → Z).

Lemma sort_insert_Permutation x l : sort_insert cmp x l ≡ₚ x :: l.
Proof.
  induction l as [|y l IH]; simpl; [done|].
  destruct (cmp x y <=? 0)%Z; [done|]. rewrite IH. apply Permutation_swap.
Qed.

Lemma sort_by_Permutation l : sort_by cmp l ≡ₚ l.
Proof.
  induction l as [|x l IH]; simpl; [done|].
  rewrite sort_insert_Permutation. by rewrite IH.
Qed.

Lemma elem_of_sort_by x l : x ∈ sort_by cmp l ↔ x ∈ l.
Proof. by rewrite sort_by_Permutation. Qed.

Lemma sort_by_length l : length (sort_by cmp l) = length l.
Proof. by rewrite sort_by_Permutation. Qed.

Lemma sort_by_sorted_id l : StronglySorted (cmp_le cmp) l → sort_by cmp l = l.
Proof.
  induction 1 as [|x l Hl IH Hx]; simpl; [done|]. rewrite IH.
  destruct l as [|y l]; simpl; [done|].
  apply Forall_cons in Hx as [Hxy _]. unfold cmp_le in Hxy.
  by rewrite (proj2 (Z.leb_le _ _) Hxy).
Qed.

Context `{!Comparator cmp}.

Lemma sort_insert_sorted x l :
  StronglySorted (cmp_le cmp) l → StronglySorted (cmp_le cmp) (sort_insert cmp x l).
Proof.
  induction 1 as [|y l Hl IH Hy]; simpl; [by repeat constructor|].
  destruct (cmp x y <=? 0)%Z eqn:E; bool_hyps.
  - constructor; [by constructor|]. constructor; [done|].
    eapply Forall_impl; [done|]. intros z Hz. by eapply comparator_trans.
  - constructor; [done|].
    rewrite sort_insert_Permutation. constructor; [|done].
    destruct (comparator_total (cmp := cmp) y x) as [|H]; [done|].
    unfold cmp_le in H. lia.
Qed.

Lemma sort_by_sorted l : StronglySorted (cmp_le cmp) (sort_by cmp l).
Proof. induction l; simpl; [constructor|]. by apply sort_insert_sorted. Qed.

(** The sorted arrangement of a multiset is unique as soon as the comparator
    distinguishes its distinct elements. *)
Lemma sort_by_unique l1 l2 :
  l1 ≡ₚ l2 →
  (∀ x y, x ∈ l1 → y ∈ l1 → cmp_le cmp x y → cmp_le cmp y x → x = y) →
  sort_by cmp l1 = sort_by cmp l2.
Proof.
  intros Hp Hanti. eapply (StronglySorted_unique_strong (cmp_le cmp)).
  - intros x y Hx Hy. rewrite elem_of_sort_by in Hx. rewrite elem_of_sort_by, <- Hp in Hy.
    by apply Hanti.
  - apply sort_by_sorted.
  - apply sort_by_sorted.
  - by rewrite !sort_by_Permutation.
Qed.

Lemma sort_by_idemp l : sort_by cmp (sort_by cmp l) = sort_by cmp l.
Proof. apply sort_by_sorted_id, sort_by_sorted. Qed.
End sort_lemmas.

(** Sorting commutes with a map that preserves comparisons. *)
Lemma sort_by_fmap {A B} (f : A → B) (cmpA : A → A → Z) (cmpB : B → B → Z) l :
  (∀ x y, cmpB (f x) (f y) = cmpA x y) → f <$> sort_by cmpA l = sort_by cmpB (f <$> l).
Proof.
  intros Hf.
  assert (Hins : ∀ x l, f <$> sort_insert cmpA x l = sort_insert cmpB (f x) (f <$> l)).
  { intros x k. induction k as [|y k IH]; csimpl; [done|]. rewrite Hf.
    destruct (cmpA x y <=? 0)%Z; csimpl; by rewrite ?IH. }
  induction l as [|x l IH]; [done|]. unfold sort_by in *. csimpl. by rewrite Hins, IH.
Qed.

Lemma filter_none {A} (P : A → Prop) `{!∀ x, Decision (P x)} (l : list A) :
  (∀ x, x ∈ l → ¬ P x) → filter P l = [].
Proof.
  induction l as [|x l IH]; intros HP; [done|]. rewrite filter_cons_False by (apply HP; left). apply IH. intros y Hy. apply HP. by right.
Qed.
Lemma filter_fmap {A B} (f : A → B) (P : B → Prop) `{!∀ x, Decision (P x)} (l : list A) :
  filter P (f <$> l) = f <$> filter (λ x, P (f x)) l.
Proof.
  induction l as [|x l IH]; [done|]. csimpl. rewrite !filter_cons, IH. by case_decide.
Qed.
Lemma filter_id {A} (P : A → Prop) `{∀ x, Decision (P x)} (l : list A) :
  (∀ x, x ∈ l → P x) → filter P l = l.
Proof.
  induction l as [|x l IH]; intros HP; [done|].
  rewrite filter_cons_True by (apply HP; left). f_equal. apply IH. intros y Hy. apply HP. by right.
Qed.

(** ** Lemmas on ordered sets and maps *)
Section ordered_lemmas.
Context {K : Type} `{EqDecision K}.

Lemma elem_of_set_add (x y : K) s : x ∈ set_add y s ↔ x = y ∨ x ∈ s.
Proof.
  unfold set_add. case_decide; [naive_solver|]. rewrite elem_of_app, list_elem_of_singleton. tauto.
Qed.

Lemma set_add_NoDup (x : K) s : NoDup s → NoDup (set_add x s).
Proof.
  unfold set_add. case_decide; [done|]. intros. apply NoDup_app. split_and!; [done| |].
  - intros y Hy ->%list_elem_of_singleton. done.
  - apply NoDup_singleton.
Qed.

Lemma foldl_set_add_spec (xs s : list K) :
  NoDup s → NoDup (foldl (λ s x, set_add x s) s xs) ∧
  ∀ x, x ∈ foldl (λ s x, set_add x s) s xs ↔ x ∈ s ∨ x ∈ xs.
Proof.
  revert s. induction xs as [|y xs IH]; intros s Hs; simpl; [set_solver|].
  destruct (IH (set_add y s) (set_add_NoDup _ _ Hs)) as [? Hx]. split; [done|].
  intros x. rewrite Hx, elem_of_set_add. set_solver.
Qed.

Lemma set_of_list_NoDup (xs : list K) : NoDup (set_of_list xs).
Proof. apply foldl_set_add_spec. constructor. Qed.

Lemma elem_of_set_of_list (x : K) xs : x ∈ set_of_list xs ↔ x ∈ xs.
Proof. unfold set_of_list. rewrite (proj2 (foldl_set_add_spec xs [] NoDup_nil_2)). set_solver. Qed.

(** A duplicate-free list is its own [Set]. *)
Lemma set_of_list_id (xs : list K) : NoDup xs → set_of_list xs = xs.
Proof.
  intros Hnd. unfold set_of_list. change xs with ([] ++ xs) in Hnd.
  change xs with ([] ++ xs) at 2. generalize (@nil K) Hnd. clear Hnd.
  induction xs as [|x xs IH]; intros s Hnd; simpl; [by rewrite app_nil_r|].
  assert (x ∉ s) as Hx.
  { apply NoDup_app in Hnd as (_ & Hd & _). intros Hin. apply (Hd _ Hin). left. }
  unfold set_add at 2. rewrite decide_False by done.
  rewrite IH; rewrite <- (assoc_L (++)); done.
Qed.

Context {V : Type}.
Implicit Types m : list (K * V).

Lemma map_get_Some_elem k v m : map_get k m = Some v → (k, v) ∈ m.
Proof.
  induction m as [|[k' v'] m IH]; simpl; [done|].
  intros Hget. case_decide; simplify_eq; [left|right; auto].
Qed.

Lemma map_get_None k m : map_get k m = None ↔ k ∉ m.*1.
Proof.
  induction m as [|[k' v'] m IH]; simpl; [set_solver|].
  case_decide; subst; [set_solver|]. rewrite IH. set_solver.
Qed.

Lemma map_get_NoDup k v m : NoDup m.*1 → (k, v) ∈ m → map_get k m = Some v.
Proof.
  induction m as [|[k' v'] m IH]; simpl; intros Hnd Hin; [by apply not_elem_of_nil in Hin|].
  apply NoDup_cons in Hnd as [Hk Hnd]. apply elem_of_cons in Hin as [Heq|Hin].
  - injection Heq as -> ->. by rewrite decide_True.
  - rewrite decide_False; [auto|]. intros ->. apply Hk. apply list_elem_of_fmap. by exists (k', v).
Qed.

Lemma map_has_true k m : map_has k m = true ↔ k ∈ m.*1.
Proof.
  unfold map_has. destruct (map_get k m) eqn:E.
  - apply map_get_Some_elem in E. split; [|done]. intros _. apply list_elem_of_fmap. by exists (k, v).
  - apply map_get_None in E. by split.
Qed.

Lemma map_has_false k m : map_has k m = false ↔ k ∉ m.*1.
Proof. rewrite <- map_has_true. by destruct (map_has k m). Qed.

Lemma map_set_absent k v m : k ∉ m.*1 → map_set k v m = m ++ [(k, v)].
Proof.
  induction m as [|[k' v'] m IH]; simpl; intros H; [done|].
  rewrite decide_False by set_solver. rewrite IH; [done|]. set_solver.
Qed.

Lemma map_get_set k v m k' :
  map_get k' (map_set k v m) = if decide (k' = k) then Some v else map_get k' m.
Proof.
  induction m as [|[k0 v0] m IH]; simpl.
  - by repeat case_decide.
  - destruct (decide (k = k0)); simpl; repeat case_decide; subst; try done; by rewrite IH, ?decide_True, ?decide_False.
Qed.

Lemma map_set_keys_elem k v m x : x ∈ (map_set k v m).*1 ↔ x = k ∨ x ∈ m.*1.
Proof.
  induction m as [|[k0 v0] m IH]; csimpl; [set_solver|].
  case_decide; csimpl; [subst; set_solver|]. rewrite !elem_of_cons, IH. naive_solver.
Qed.

Lemma map_set_present_keys k v m : k ∈ m.*1 → (map_set k v m).*1 = m.*1.
Proof.
  induction m as [|[k' w] m IH]; csimpl; [by intros ?%not_elem_of_nil|].
  intros Hk. case_decide; csimpl; [by subst|]. f_equal. apply IH. set_solver.
Qed.

Lemma map_set_NoDup k v m : NoDup m.*1 → NoDup (map_set k v m).*1.
Proof.
  intros Hm. destruct (decide (k ∈ m.*1)) as [Hk|Hk]; [by rewrite map_set_present_keys|].
  rewrite map_set_absent by done. rewrite fmap_app. apply NoDup_app.
  split_and!; [done| |apply NoDup_singleton]. intros x Hx ->%list_elem_of_singleton. done.
Qed.

Lemma map_get_Some_key k v m : map_get k m = Some v → k ∈ m.*1.
Proof. intros H. apply map_has_true. unfold map_has. by rewrite H. Qed.

Lemma map_get_elem_key k m : k ∈ m.*1 → ∃ v, map_get k m = Some v.
Proof. intros H%map_has_true. unfold map_has in H. destruct (map_get k m); [eauto|done]. Qed.

Lemma map_delete_keys k m : (map_delete k m).*1 = filter (.≠ k) m.*1.
Proof.
  unfold map_delete. induction m as [|[k' v] m IH]; [done|]. csimpl. rewrite !filter_cons. simpl.
  case_decide; csimpl; by rewrite IH.
Qed.

Lemma map_get_delete k k' m : map_get k' (map_delete k m) = if decide (k' = k) then None else map_get k' m.
Proof.
  unfold map_delete. induction m as [|[k0 v] m IH]; [by case_decide|]. rewrite filter_cons. simpl.
  repeat case_decide; simpl; repeat case_decide; subst; try done; by rewrite IH.
Qed.

(** What a key contributes to a sum. *)
Definition map_part (f : V → Z) (k : K) m : Z :=
  match map_get k m with Some v => f v | None => 0%Z end.

Lemma map_sum_set f k v m :
  NoDup m.*1 → map_sum f (map_set k v m) = (map_sum f m - map_part f k m + f v)%Z.
Proof.
  unfold map_sum, map_part. induction m as [|[k' w] m IH]; csimpl; intros Hnd; [lia|].
  apply NoDup_cons in Hnd as [Hk Hnd]. case_decide; simpl; [lia|]. rewrite IH by done. lia.
Qed.

Lemma map_sum_absent f k m : k ∉ m.*1 → map_sum f (map_delete k m) = map_sum f m.
Proof.
  intros Hk. unfold map_delete. rewrite filter_id; [done|]. intros [k' v] Hin Heq. simpl in Heq.
  subst k'. apply Hk. apply list_elem_of_fmap. by exists (k, v).
Qed.

Lemma map_sum_delete f k m :
  NoDup m.*1 → map_sum f (map_delete k m) = (map_sum f m - map_part f k m)%Z.
Proof.
  intros Hnd. induction m as [|[k' w] m IH]; [done|]. csimpl in Hnd.
  apply NoDup_cons in Hnd as [Hk Hnd]. unfold map_delete, map_part. rewrite filter_cons. simpl.
  destruct (decide (k = k')) as [->|Hne].
  - rewrite decide_False by auto. fold (map_delete k' m). rewrite map_sum_absent by done. lia.
  - rewrite decide_True by auto. simpl. fold (map_delete k m). rewrite IH by done. unfold map_part. lia.
Qed.

Lemma map_sum_nonneg f m : (∀ k v, (k, v) ∈ m → 0 ≤ f v)%Z → (0 ≤ map_sum f m)%Z.
Proof.
  induction m as [|[k v] m IH]; simpl; intros Hf; [lia|].
  pose proof (Hf k v ltac:(left)). specialize (IH (λ k v H, Hf k v ltac:(by right))). lia.
Qed.

Lemma map_part_le_sum f k m :
  NoDup m.*1 → (∀ k v, map_get k m = Some v → 0 ≤ f v)%Z → (map_part f k m ≤ map_sum f m)%Z.
Proof.
  intros Hnd Hf. assert (0 ≤ map_sum f (map_delete k m))%Z.
  { apply map_sum_nonneg. intros k' v Hin. apply (Hf k'). apply map_get_NoDup; [done|].
    unfold map_delete in Hin. by apply list_elem_of_filter in Hin as [_ Hin]. }
  rewrite map_sum_delete in H by done. lia.
Qed.

(** A sum over a map is the sum of the parts of its keys. *)
Lemma map_sum_part f m : NoDup m.*1 → map_sum f m = foldr (λ k z, (map_part f k m + z)%Z) 0%Z m.*1.
Proof.
  assert (∀ l, NoDup l.*1 → (∀ k v, (k, v) ∈ l → map_get k m = Some v) →
    map_sum f l = foldr (λ k z, (map_part f k m + z)%Z) 0%Z l.*1) as H.
  { intros l. induction l as [|[k v] l IH]; csimpl; intros Hnd Hl; [done|].
    apply NoDup_cons in Hnd as [_ Hnd]. rewrite IH by (done || intros; apply Hl; by right).
    unfold map_part at 2. rewrite (Hl k v) by left. done. }
  intros Hnd. apply (H m Hnd). intros k v Hin. by apply map_get_NoDup.
Qed.
End ordered_lemmas.

(** ** The library's automation *)
Create HintDb graph_engineering.
Create Rewrite HintDb graph_engineering.
#[export] Hint Resolve set_of_list_NoDup set_add_NoDup sort_by_sorted : graph_engineering.
#[export] Hint Rewrite @elem_of_set_of_list @elem_of_set_add @elem_of_sort_by
  using typeclasses eauto : graph_engineering.

(** ** Lemmas on lists *)
Lemma Forall2_split {A B C} (P : A → B → Prop) (Q : B → C → Prop) l k :
  Forall2 (λ x z, ∃ y, P x y ∧ Q y z) l k → ∃ m, Forall2 P l m ∧ Forall2 Q m k.
Proof.
  induction 1 as [|x z l k (y & Hp & Hq) _ (m & Hm1 & Hm2)]; [by exists []|].
  exists (y :: m). by split; constructor.
Qed.

Lemma Forall2_compose {A B C} (P : A → B → Prop) (Q : B → C → Prop) l m k :
  Forall2 P l m → Forall2 Q m k → Forall2 (λ x z, ∃ y, P x y ∧ Q y z) l k.
Proof.
  intros H. revert k. induction H as [|x y l m Hp _ IH]; intros k Hk;
    inversion Hk; subst; constructor; eauto.
Qed.

Lemma imap_zip {A B} (f : nat → A → B) (l : list A) :
  imap f l = zip_with f (seq 0 (length l)) l.
Proof.
  assert (H : ∀ k, imap (λ i, f (k + i)) l = zip_with f (seq k (length l)) l).
  { induction l as [|x l IH]; intros k; [done|]. simpl. rewrite Nat.add_0_r. f_equal.
    rewrite <- (IH (S k)). apply imap_ext. intros. simpl. f_equal. lia. }
  apply (H 0).
Qed.

Lemma StronglySorted_fmap_inv {A B} (f : A → B) (R1 : relation A) (R2 : relation B) l :
  (∀ x y, R2 (f x) (f y) → R1 x y) → StronglySorted R2 (f <$> l) → StronglySorted R1 l.
Proof.
  intros HR. induction l as [|x l IH]; csimpl; intros H; [constructor|].
  apply StronglySorted_inv in H as [Hs Hx]. constructor; [by apply IH|].
  rewrite Forall_fmap in Hx. eapply Forall_impl; [done|]. intros y. apply HR.
Qed.

Lemma StronglySorted_seq k n : StronglySorted lt (seq k n).
Proof.
  revert k. induction n as [|n IH]; intros k; simpl; constructor; [done|].
  apply Forall_forall. intros i Hi%elem_of_seq. lia.
Qed.

Lemma forallb_Forall {A} (f : A → bool) l : forallb f l = true ↔ Forall (λ x, f x = true) l.
Proof. induction l; simpl; [done|]. by rewrite andb_true_iff, Forall_cons, IHl. Qed.

(** A disjoint case distinction splits a count. *)
Lemma filter_length_split {A} (P Q R : A → Prop) `{∀ x, Decision (P x), ∀ x, Decision (Q x),
    ∀ x, Decision (R x)} (l : list A) :
  (∀ x, x ∈ l → (P x ↔ Q x ∨ R x)) → (∀ x, x ∈ l → Q x → R x → False) →
  length (filter P l) = length (filter Q l) + length (filter R l).
Proof.
  induction l as [|x l IH]; intros HP Hd; [done|].
  specialize (IH (λ y Hy, HP y (list_elem_of_further _ _ _ Hy)) (λ y Hy, Hd y (list_elem_of_further _ _ _ Hy))).
  specialize (HP x (list_elem_of_here _ _)). specialize (Hd x (list_elem_of_here _ _)).
  rewrite !filter_cons. destruct (decide (P x)), (decide (Q x)), (decide (R x)); simpl; try lia; tauto.
Qed.

Lemma list_filter_iff' {A} (P Q : A → Prop) `{∀ x, Decision (P x), ∀ x, Decision (Q x)} (l : list A) :
  (∀ x, x ∈ l → (P x ↔ Q x)) → filter P l = filter Q l.
Proof.
  induction l as [|x l IH]; intros H1; [done|]. rewrite !filter_cons.
  rewrite IH by (intros; apply H1; by right). specialize (H1 x (list_elem_of_here _ _)).
  do 2 case_decide; tauto || done.
Qed.

Lemma elem_of_concat {A} (x : A) ls : x ∈ concat ls ↔ ∃ l, x ∈ l ∧ l ∈ ls.
Proof.
  induction ls as [|l ls IH]; simpl.
  - split; [by intros ?%not_elem_of_nil|]. by intros (l & _ & ?%not_elem_of_nil).
  - rewrite elem_of_app, IH. set_solver.
Qed.

(** An invariant of a relation holds along its closure. *)
Lemma rtc_invariant {A} (R : relation A) (P : A → Prop) x y :
  (∀ x y, R x y → P x → P y) → rtc R x y → P x → P y.
Proof. intros HR. induction 1; eauto. Qed.
