(* ===== verification/JsString.v ===== *)
(** * JavaScript strings

    A JavaScript string is a sequence of UTF-16 code units; it is modelled by the
    list of the units' values.  This file has the operations the packages use:
    the code-point iterator of [Array.from], the code-point comparator that
    every package sorts with, JSON-pointer escaping and the identifier grammars. *)
From S2P Require Import Prelude.

Abbreviation jsstr := (list N).

(** ** Literals *)

(** An ASCII literal as a JavaScript string. *)
Definition js (s : string) : jsstr := Ascii.N_of_ascii <$> String.list_ascii_of_string s.

(** A literal in which apostrophes stand for double quotes. *)
Definition jsq (s : string) : jsstr := (λ c, if (c =? 39)%N then 34%N else c) <$> js s.

(** Decimal digits of a natural number, as [String(n)] prints an integer. *)
Fixpoint decimal_digits (fuel : nat) (n : N) (acc : jsstr) : jsstr :=
  match fuel with
  | 0%nat => acc
  | S fuel =>
      let acc := (48 + n `mod` 10)%N :: acc in
      if (n <? 10)%N then acc else decimal_digits fuel (n `div` 10)%N acc
  end.
Definition string_of_N (n : N) : jsstr := decimal_digits (S (N.to_nat (N.log2 n))) n [].
Definition string_of_nat (n : nat) : jsstr := string_of_N (N.of_nat n).
Definition string_of_Z (z : Z) : jsstr :=
  if (z <? 0)%Z then 45%N :: string_of_N (Z.to_N (- z)) else string_of_N (Z.to_N z).

(** ** Code units and code points *)

(** A UTF-16 code unit is below 2^16. *)
Definition str_wf (s : jsstr) : Prop := Forall (λ u, u < 65536)%N s.

Definition is_high_surrogate (u : N) : bool := (55296 <=? u)%N && (u <=? 56319)%N.
Definition is_low_surrogate (u : N) : bool := (56320 <=? u)%N && (u <=? 57343)%N.
Definition is_surrogate (u : N) : bool := (55296 <=? u)%N && (u <=? 57343)%N.

(** The code point of a surrogate pair. *)
Definition surrogate_pair (h l : N) : N := (65536 + (h - 55296) * 1024 + (l - 56320))%N.

(** [Array.from(s, c => c.codePointAt(0))]: a pair yields one code point, a lone
    surrogate yields itself. *)
Fixpoint code_points (s : jsstr) : list N :=
  match s with
  | [] => []
  | h :: t =>
      match t with
      | l :: t' =>
          if is_high_surrogate h && is_low_surrogate l
          then surrogate_pair h l :: code_points t'
          else h :: code_points t
      | [] => [h]
      end
  end.

(** The UTF-16 encoding of one code point. *)
Definition encode_point (c : N) : jsstr :=
  if (c <? 65536)%N then [c]
  else [(55296 + (c - 65536) `div` 1024)%N; (56320 + (c - 65536) `mod` 1024)%N].

(** ** The comparator *)

(** The loop of [compareUnicodeCodePoints] over two code-point arrays. *)
Fixpoint compare_points (left right : list N) : Z :=
  match left, right with
  | x :: left', y :: right' =>
      let difference := (Z.of_N x - Z.of_N y)%Z in
      if (difference =? 0)%Z then compare_points left' right' else difference
  | _, _ => (Z.of_nat (length left) - Z.of_nat (length right))%Z
  end.

Definition compareUnicodeCodePoints (left right : jsstr) : Z :=
  compare_points (code_points left) (code_points right).

(** ** String operations *)

(** [value.replaceAll("~", "~0").replaceAll("/", "~1")] *)
Definition replace_unit (u : N) (r s : jsstr) : jsstr :=
  s ≫= λ c, if (c =? u)%N then r else [c].
Definition pointerSegment (value : jsstr) : jsstr :=
  replace_unit 47 (js "~1") (replace_unit 126 (js "~0") value).

(** [xs.join(sep)] *)
Fixpoint join (sep : jsstr) (xs : list jsstr) : jsstr :=
  match xs with
  | [] => []
  | [x] => x
  | x :: xs' => x ++ sep ++ join sep xs'
  end.

(** The text before the first [u], and the text after it if there is one:
    [s.split(u)[0]] is the first of the two. *)
Fixpoint span_until (u : N) (s : jsstr) : jsstr * option jsstr :=
  match s with
  | [] => ([], None)
  | c :: s => if (c =? u)%N then ([], Some s) else let '(before, after) := span_until u s in (c :: before, after)
  end.

(** [s.startsWith(p)] *)
Fixpoint starts_with (p s : jsstr) : bool :=
  match p, s with
  | [], _ => true
  | a :: p', b :: s' => (a =? b)%N && starts_with p' s'
  | _ :: _, [] => false
  end.

(** [s.padStart(n, c)] *)
Definition pad_start (n : nat) (c : N) (s : jsstr) : jsstr := replicate (n - length s) c ++ s.

(** [text.split("\n")] *)
Fixpoint split_lines (text : jsstr) : list jsstr :=
  match text with
  | [] => [[]]
  | c :: text =>
      if (c =? 10)%N then [] :: split_lines text
      else match split_lines text with
           | line :: lines => (c :: line) :: lines
           | [] => [[c]]
           end
  end.

(** ** Character classes and identifier grammars *)
Definition is_digit (u : N) : bool := (48 <=? u)%N && (u <=? 57)%N.
Definition is_lower (u : N) : bool := (97 <=? u)%N && (u <=? 122)%N.
Definition is_upper (u : N) : bool := (65 <=? u)%N && (u <=? 90)%N.
Definition is_alpha (u : N) : bool := is_lower u || is_upper u.
Definition is_alnum (u : N) : bool := is_alpha u || is_digit u.
(** [[A-Za-z0-9._-]] *)
Definition is_ident_char (u : N) : bool :=
  is_alnum u || (u =? 46)%N || (u =? 95)%N || (u =? 45)%N.

(** A first character from [first], then up to [rest] characters from [tail]:
    the anchored regular expressions [^F T{0,rest}$]. *)
Definition matches_ident (first tail : N → bool) (rest : nat) (s : jsstr) : bool :=
  match s with
  | [] => false
  | c :: s' => first c && forallb tail s' && (length s' <=? rest)%nat
  end.

(** ** Lemmas *)
Lemma code_points_cons h t :
  code_points (h :: t) =
  match t with
  | l :: t' =>
      if is_high_surrogate h && is_low_surrogate l
      then surrogate_pair h l :: code_points t'
      else h :: code_points t
  | [] => [h]
  end.
Proof. done. Qed.

Lemma encode_surrogate_pair h l :
  is_high_surrogate h = true → is_low_surrogate l = true →
  encode_point (surrogate_pair h l) = [h; l].
Proof.
  unfold is_high_surrogate, is_low_surrogate, encode_point, surrogate_pair.
  intros Hh Hl. bool_hyps.
  rewrite (proj2 (N.ltb_ge _ _)) by lia.
  replace (65536 + (h - 55296) * 1024 + (l - 56320) - 65536)%N
    with ((h - 55296) * 1024 + (l - 56320))%N by lia.
  rewrite N.div_add_l by lia. rewrite (N.div_small (l - 56320)) by lia.
  rewrite (N.add_comm (_ * _) _), N.Div0.mod_add, (N.mod_small (l - 56320)) by lia.
  do 2 (f_equal; try lia).
Qed.

(** Re-encoding the code points of a string gives the string back. *)
Lemma encode_code_points s : str_wf s → code_points s ≫= encode_point = s.
Proof.
  assert (Hlen : ∀ n s, (length s ≤ n)%nat → str_wf s → code_points s ≫= encode_point = s).
  { clear s. intros n. induction n as [|n IH]; intros s Hn Hs;
      (destruct s as [|h t]; [done|]); [simpl in Hn; lia|].
    apply Forall_cons in Hs as [Hh Ht]. rewrite code_points_cons.
    assert (encode_point h = [h]) as Hench
      by (unfold encode_point; by rewrite (proj2 (N.ltb_lt _ _))).
    destruct t as [|l t]; [by simpl; rewrite Hench|].
    destruct (is_high_surrogate h && is_low_surrogate l) eqn:E.
    - bool_hyps. rewrite bind_cons, encode_surrogate_pair by done.
      apply Forall_cons in Ht as [_ Ht]. simpl in Hn. rewrite IH by (done || lia). done.
    - rewrite bind_cons, Hench. rewrite IH; [done| |done]. simpl in *. lia. }
  intros. by eapply Hlen.
Qed.

Lemma code_points_inj s t : str_wf s → str_wf t → code_points s = code_points t → s = t.
Proof.
  intros Hs Ht H. rewrite <- (encode_code_points s), <- (encode_code_points t) by done.
  by rewrite H.
Qed.

Lemma split_lines_clean s t : 10%N ∉ s → split_lines (s ++ 10%N :: t) = s :: split_lines t.
Proof.
  induction s as [|c s IH]; intros Hs; [done|]. apply not_elem_of_cons in Hs as [Hc Hs].
  cbn [app split_lines]. rewrite (proj2 (N.eqb_neq c 10)) by done. by rewrite IH.
Qed.

Lemma split_lines_last s : 10%N ∉ s → split_lines s = [s].
Proof.
  induction s as [|c s IH]; intros Hs; [done|]. apply not_elem_of_cons in Hs as [Hc Hs].
  cbn [split_lines]. rewrite (proj2 (N.eqb_neq c 10)) by done. by rewrite IH.
Qed.

Lemma split_lines_join lines :
  Forall (λ l, 10%N ∉ l) lines → lines ≠ [] → split_lines (join [10%N] lines ++ [10%N]) = lines ++ [[]].
Proof.
  intros H Hne. destruct H as [|l lines Hl H]; [done|]. revert l Hl Hne.
  induction H as [|l' lines Hl' H IH]; intros l Hl _.
  - cbn [join]. by rewrite split_lines_clean.
  - change (join [10%N] (l :: l' :: lines)) with (l ++ [10%N] ++ join [10%N] (l' :: lines)).
    rewrite <- !(assoc_L (++)). change ([10%N] ++ ?t) with (10%N :: t) at 1.
    rewrite split_lines_clean by done. by rewrite IH.
Qed.

Lemma compare_points_zero l r : compare_points l r = 0%Z ↔ l = r.
Proof.
  revert r. induction l as [|x l IH]; intros [|y r]; simpl; try (split; [lia|done]); [done|].
  destruct (Z.of_N x - Z.of_N y =? 0)%Z eqn:E; bool_hyps.
  - assert (x = y) as -> by lia. rewrite IH. split; [by intros ->|congruence].
  - split; [lia|]. intros [= -> _]. lia.
Qed.

Lemma compare_points_opp l r : compare_points r l = (- compare_points l r)%Z.
Proof.
  revert r. induction l as [|x l IH]; intros [|y r]; simpl; try lia.
  destruct (Z.of_N x - Z.of_N y =? 0)%Z eqn:E1, (Z.of_N y - Z.of_N x =? 0)%Z eqn:E2;
    bool_hyps; try lia. apply IH.
Qed.

Lemma compare_points_trans l m r :
  (compare_points l m ≤ 0 → compare_points m r ≤ 0 → compare_points l r ≤ 0)%Z.
Proof.
  revert m r. induction l as [|x l IH]; intros [|y m] [|z r]; simpl; try lia.
  repeat match goal with |- context[(?a - ?b =? 0)%Z] =>
    destruct (a - b =? 0)%Z eqn:?; bool_hyps end; try lia. apply IH.
Qed.

Lemma compare_code_points_opp s t :
  compareUnicodeCodePoints t s = (- compareUnicodeCodePoints s t)%Z.
Proof. apply compare_points_opp. Qed.

#[export] Instance code_point_comparator : Comparator compareUnicodeCodePoints.
Proof.
  split.
  - intros x y. unfold cmp_le. pose proof (compare_code_points_opp x y). lia.
  - intros x y z. apply compare_points_trans.
Qed.

(** The comparator separates distinct (well-formed) strings. *)
Lemma compare_code_points_antisym s t :
  str_wf s → str_wf t →
  cmp_le compareUnicodeCodePoints s t → cmp_le compareUnicodeCodePoints t s → s = t.
Proof.
  unfold cmp_le. intros Hs Ht H1 H2. rewrite compare_code_points_opp in H2.
  apply code_points_inj; [done..|]. apply compare_points_zero.
  unfold compareUnicodeCodePoints in *. lia.
Qed.

(** Comparing by a key inherits consistency. *)
#[export] Instance comparator_on {A B} (f : A → B) (cmp : B → B → Z) :
  Comparator cmp → Comparator (λ x y, cmp (f x) (f y)).
Proof.
  intros ?. split.
  - intros x y. apply (comparator_total (cmp := cmp)).
  - intros x y z. apply (comparator_trans (cmp := cmp)).
Qed.

Lemma js_wf s : str_wf (js s).
Proof.
  unfold str_wf, js. apply Forall_fmap, Forall_forall. intros c _. simpl.
  pose proof (Ascii.N_ascii_bounded c). lia.
Qed.
#[export] Hint Resolve js_wf : graph_engineering.

Lemma str_wf_app s t : str_wf (s ++ t) ↔ str_wf s ∧ str_wf t.
Proof. apply Forall_app. Qed.
