(* ===== verification/JsNumber.v ===== *)
(** * JavaScript numbers

    A number is an IEEE-754 double, in the representation of the Standard
    Library's [SpecFloat] (53-bit mantissa, exponents up to 1024).  The packages
    inspect numbers with [Number.isFinite], [Number.isInteger],
    [Number.isSafeInteger] and comparisons, all defined here on exact values;
    [JSON.stringify] needs the shortest decimal that reads back as the same
    double, and [JSON.parse] the correctly rounded double of a decimal. *)
From Stdlib Require Import SpecFloat.
From S2P Require Import Prelude JsString.

Abbreviation num := spec_float.

Definition MAX_SAFE_INTEGER : Z := 9007199254740991.

(** ** Exact values *)

(** The signed mantissa and the exponent of a finite number. *)
Definition num_parts (x : num) : option (Z * Z) :=
  match x with
  | S754_zero _ => Some (0, 0)%Z
  | S754_finite s m e => Some (cond_Zopp s (Zpos m), e)
  | S754_infinity _ | S754_nan => None
  end.

(** [Number.isFinite(x)] *)
Definition num_finite (x : num) : bool :=
  match num_parts x with Some _ => true | None => false end.

(** [Number.isInteger(x)] *)
Definition num_integer (x : num) : bool :=
  match num_parts x with
  | Some (m, e) => (0 <=? e)%Z || (m `mod` 2 ^ (- e) =? 0)%Z
  | None => false
  end.

(** The integer part of a finite number; the value of an integer one. *)
Definition num_trunc (x : num) : Z :=
  match num_parts x with
  | Some (m, e) => if (0 <=? e)%Z then (m * 2 ^ e)%Z else (m `div` 2 ^ (- e))%Z
  | None => 0%Z
  end.

(** [Number.isSafeInteger(x)] *)
Definition num_safe_integer (x : num) : bool :=
  num_integer x && (Z.abs (num_trunc x) <=? MAX_SAFE_INTEGER)%Z.

(** Compare two finite numbers after aligning their exponents. *)
Definition parts_ltb (x y : Z * Z) : bool :=
  let e := Z.min x.2 y.2 in (x.1 * 2 ^ (x.2 - e) <? y.1 * 2 ^ (y.2 - e))%Z.

(** [x < y] *)
Definition num_ltb (x y : num) : bool :=
  match num_parts x, num_parts y with
  | Some p, Some q => parts_ltb p q
  | _, _ =>
      match x, y with
      | S754_nan, _ | _, S754_nan => false
      | S754_infinity sx, S754_infinity sy => sx && negb sy
      | S754_infinity sx, _ => sx
      | _, S754_infinity sy => negb sy
      | _, _ => false
      end
  end.

(** [x <= y] and [x === y] *)
Definition num_eqb (x y : num) : bool :=
  match num_parts x, num_parts y with
  | Some p, Some q => negb (parts_ltb p q) && negb (parts_ltb q p)
  | _, _ =>
      match x, y with
      | S754_infinity sx, S754_infinity sy => Bool.eqb sx sy
      | _, _ => false
      end
  end.
Definition num_leb (x y : num) : bool := num_ltb x y || num_eqb x y.

(** [x === 0 ? 0 : x]: negative zero becomes positive zero *)
Definition num_unsign_zero (x : num) : num :=
  match x with S754_zero _ => S754_zero false | _ => x end.

(** ** Integers as doubles *)

(** The double of an integer: exact up to 53 bits, rounded to nearest even
    beyond. *)
Definition num_of_pos (s : bool) (p : positive) : num :=
  let d := Zpos (digits2_pos p) in
  if (d <=? 53)%Z then
    S754_finite s (N.iter (Z.to_N (53 - d)) xO p) (d - 53)
  else binary_round 53 1024 s p 0.
Definition num_of_Z (z : Z) : num :=
  match z with
  | Z0 => S754_zero false
  | Zpos p => num_of_pos false p
  | Zneg p => num_of_pos true p
  end.

(** ** Decimals and doubles *)

(** The double nearest to [s * 10^x] (ties to even), with the sign [neg]. *)
Definition round_decimal (neg : bool) (s : N) (x : Z) : num :=
  match s with
  | N0 => S754_zero neg
  | Npos p =>
      if (0 <=? x)%Z then
        match (Zpos p * 10 ^ x)%Z with
        | Zpos q => binary_round 53 1024 neg q 0
        | _ => S754_zero neg
        end
      else
        match (10 ^ (- x))%Z with
        | Zpos q =>
            let '(mz, ez, lz) := SFdiv_core_binary 53 1024 (Zpos p) 0 (Zpos q) 0 in
            binary_round_aux 53 1024 neg mz ez lz
        | _ => S754_nan
        end
  end.

(** Remove the trailing zeros of a decimal. *)
Fixpoint strip_zeros (fuel : nat) (s : N) (x : Z) : N * Z :=
  match fuel with
  | S fuel =>
      if (negb (s =? 0) && (s `mod` 10 =? 0))%N then strip_zeros fuel (s `div` 10)%N (x + 1) else (s, x)
  | 0%nat => (s, x)
  end.
Definition strip (s : N) (x : Z) : N * Z := strip_zeros (N.size_nat s) s x.

(** The double a decimal literal [digits * 10^x] denotes; it depends on the value
    of the decimal only. *)
Definition num_of_decimal (neg : bool) (s : N) (x : Z) : num :=
  let '(s, x) := strip s x in
  if (0 <=? x)%Z && (x <=? 15)%Z && (Z.of_N s * 10 ^ x <=? MAX_SAFE_INTEGER)%Z
  then match (Z.of_N s * 10 ^ x)%Z with Zpos p => num_of_pos neg p | _ => S754_zero neg end
  else round_decimal neg s x.

#[export] Instance num_eq_dec : EqDecision num.
Proof. solve_decision. Defined.

(** The decimal exponent [n] with [10^(n-1) <= p/q < 10^n]. *)
Fixpoint decimal_exponent (fuel : nat) (p q : Z) (n : Z) : Z :=
  match fuel with
  | 0%nat => n
  | S fuel =>
      if (q <=? p)%Z then decimal_exponent fuel p (q * 10) (n + 1)
      else if (p * 10 <? q)%Z then decimal_exponent fuel (p * 10) q (n - 1)
      else n
  end.

(** The [k]-digit decimals [s * 10^(n-k)] next to [p/q], nearest first. *)
Definition decimal_candidates (p q : Z) (n : Z) (k : Z) : list (N * Z) :=
  let '(a, b) := if (0 <=? k - n)%Z then (p * 10 ^ (k - n), q)%Z else (p, q * 10 ^ (n - k))%Z in
  let s := (a `div` b)%Z in
  let r := (a `mod` b)%Z in
  let lower := (Z.to_N s, (n - k)%Z) in
  let upper := (Z.to_N (s + 1), (n - k)%Z) in
  if (2 * r <? b)%Z || ((2 * r =? b)%Z && Z.even s) then [lower; upper] else [upper; lower].

(** The shortest decimal that rounds to the finite non-zero [x].  Seventeen digits
    are enough for every double; the fuel is what the exact decimal expansion may
    need, so that the search cannot fail ([shortest_decimal_reads_back]). *)
Fixpoint shortest_from (fuel : nat) (x : num) (neg : bool) (p q n k : Z) : N * Z :=
  let cands := decimal_candidates p q n k in
  match List.find (λ c, bool_decide (num_of_decimal neg c.1 c.2 = x)) cands, fuel with
  | Some c, _ => c
  | None, S fuel => shortest_from fuel x neg p q n (k + 1)
  | None, 0%nat => List.hd (0%N, 0%Z) cands
  end.
Definition shortest_decimal (x : num) : bool * (N * Z) :=
  match x with
  | S754_finite s m e =>
      let p := if (0 <=? e)%Z then (Zpos m * 2 ^ e)%Z else Zpos m in
      let q := if (0 <=? e)%Z then 1%Z else (2 ^ (- e))%Z in
      let n := decimal_exponent 800 p q 0 in
      (s, shortest_from 1900 x s p q n 1)
  | _ => (false, (0%N, 0%Z))
  end.

(** [Number::toString] for the digits [s] and decimal point position [n]. *)
Definition format_decimal (s : N) (x : Z) : jsstr :=
  let '(s, x) := strip s x in
  let digits := string_of_N s in
  let k := Z.of_nat (length digits) in
  let n := (x + k)%Z in
  let exponent :=
    js "e" ++ (if (0 <? n)%Z then js "+" else js "-") ++ string_of_Z (Z.abs (n - 1)) in
  if (k <=? n)%Z && (n <=? 21)%Z then digits ++ replicate (Z.to_nat (n - k)) 48%N
  else if (0 <? n)%Z && (n <=? 21)%Z then
    take (Z.to_nat n) digits ++ js "." ++ drop (Z.to_nat n) digits
  else if (-6 <? n)%Z && (n <=? 0)%Z then
    js "0." ++ replicate (Z.to_nat (- n)) 48%N ++ digits
  else if (k =? 1)%Z then digits ++ exponent
  else take 1 digits ++ js "." ++ drop 1 digits ++ exponent.

(** [JSON.stringify(x)] of a number *)
Definition string_of_num (x : num) : jsstr :=
  match x with
  | S754_nan | S754_infinity _ => js "null"
  | S754_zero _ => js "0"
  | S754_finite _ _ _ =>
      if num_safe_integer x then string_of_Z (num_trunc x)
      else let '(neg, (s, e)) := shortest_decimal x in
           (if neg then js "-" else []) ++ format_decimal s e
  end.

(** ** Lemmas *)
Lemma digits2_pos_bound p : (Zpos p < 2 ^ Zpos (digits2_pos p))%Z.
Proof.
  induction p as [p IH|p IH|]; simpl; [| |done];
    rewrite Pos2Z.inj_succ, Z.pow_succ_r by lia; lia.
Qed.

Lemma digits2_pos_lower p : (2 ^ (Zpos (digits2_pos p) - 1) <= Zpos p)%Z.
Proof.
  induction p as [p IH|p IH|]; simpl; [| |done];
    rewrite Pos2Z.inj_succ; unfold Z.succ; rewrite Z.add_simpl_r;
    replace (Z.pos (digits2_pos p)) with (Z.succ (Z.pos (digits2_pos p) - 1)) by lia;
    rewrite Z.pow_succ_r by lia; lia.
Qed.

Lemma iter_xO p n : Zpos (N.iter n xO p) = (Zpos p * 2 ^ Z.of_N n)%Z.
Proof.
  induction n as [|n IH] using N.peano_ind; [simpl; lia|].
  rewrite N.iter_succ, Pos2Z.inj_xO, IH, N2Z.inj_succ, Z.pow_succ_r; lia.
Qed.

Lemma num_of_pos_small s p :
  (Zpos p <= MAX_SAFE_INTEGER)%Z →
  ∃ m e, num_of_pos s p = S754_finite s m (- e)%Z ∧ (0 ≤ e)%Z ∧ Zpos m = (Zpos p * 2 ^ e)%Z.
Proof.
  intros Hp. unfold num_of_pos.
  assert (Zpos (digits2_pos p) <= 53)%Z as Hd.
  { destruct (Z.le_gt_cases (Zpos (digits2_pos p)) 53) as [|Hgt]; [done|].
    pose proof (digits2_pos_lower p). unfold MAX_SAFE_INTEGER in Hp.
    assert (2 ^ 53 <= 2 ^ (Zpos (digits2_pos p) - 1))%Z by (apply Z.pow_le_mono_r; lia). lia. }
  rewrite (proj2 (Z.leb_le _ _) Hd).
  exists (N.iter (Z.to_N (53 - Zpos (digits2_pos p))) xO p), (53 - Zpos (digits2_pos p))%Z.
  split_and!; [f_equal; lia|lia|]. rewrite iter_xO, Z2N.id; lia.
Qed.

Lemma cond_Zopp_spec s z : cond_Zopp s z = (if s then - z else z)%Z.
Proof. done. Qed.

(** An integer of at most 53 bits is its own double. *)
Lemma num_of_Z_parts z :
  (Z.abs z <= MAX_SAFE_INTEGER)%Z →
  ∃ m e, num_parts (num_of_Z z) = Some (m, - e)%Z ∧ (0 ≤ e)%Z ∧ m = (z * 2 ^ e)%Z.
Proof.
  intros Hz. destruct z as [|p|p]; simpl.
  - by exists 0%Z, 0%Z.
  - destruct (num_of_pos_small false p) as (m & e & -> & He & Hm); [done|].
    exists (Zpos m), e. done.
  - destruct (num_of_pos_small true p) as (m & e & -> & He & Hm); [done|].
    exists (Zneg m), e. split_and!; [done..|]. lia.
Qed.

Lemma num_of_Z_integer z :
  (Z.abs z <= MAX_SAFE_INTEGER)%Z → num_integer (num_of_Z z) = true.
Proof.
  intros Hz. destruct (num_of_Z_parts z Hz) as (m & e & Hp & He & ->).
  unfold num_integer. rewrite Hp, Z.opp_involutive. apply orb_true_iff. right.
  apply Z.eqb_eq, Z.mod_mul. lia.
Qed.

Lemma num_of_Z_trunc z :
  (Z.abs z <= MAX_SAFE_INTEGER)%Z → num_trunc (num_of_Z z) = z.
Proof.
  intros Hz. destruct (num_of_Z_parts z Hz) as (m & e & Hp & He & ->).
  unfold num_trunc. rewrite Hp, Z.opp_involutive.
  destruct (0 <=? - e)%Z eqn:E; bool_hyps.
  - assert (e = 0)%Z as -> by lia. simpl. lia.
  - apply Z.div_mul. lia.
Qed.

Lemma num_of_Z_safe z :
  (Z.abs z <= MAX_SAFE_INTEGER)%Z → num_safe_integer (num_of_Z z) = true.
Proof.
  intros Hz. unfold num_safe_integer. rewrite num_of_Z_integer, num_of_Z_trunc by done.
  simpl. by apply Z.leb_le.
Qed.

(** Comparisons of finite numbers do not depend on the alignment. *)
Lemma parts_ltb_scale m1 e1 m2 e2 k :
  (k ≤ e1)%Z → (k ≤ e2)%Z →
  parts_ltb (m1, e1) (m2, e2) = (m1 * 2 ^ (e1 - k) <? m2 * 2 ^ (e2 - k))%Z.
Proof.
  intros H1 H2. unfold parts_ltb. cbn [fst snd].
  set (e := Z.min e1 e2).
  assert (0 ≤ e - k)%Z by lia.
  replace (e1 - k)%Z with ((e1 - e) + (e - k))%Z by lia.
  replace (e2 - k)%Z with ((e2 - e) + (e - k))%Z by lia.
  rewrite !Z.pow_add_r, !Z.mul_assoc by lia.
  pose proof (Z.pow_pos_nonneg 2 (e - k)).
  apply eq_true_iff_eq. rewrite !Z.ltb_lt. nia.
Qed.

(** The value of an integer number at any scale below its exponent. *)
Lemma num_integer_parts x :
  num_integer x = true →
  ∃ m e, num_parts x = Some (m, e) ∧
    ∀ k, (k ≤ e)%Z → (k ≤ 0)%Z → (m * 2 ^ (e - k) = num_trunc x * 2 ^ (- k))%Z.
Proof.
  unfold num_integer, num_trunc. destruct (num_parts x) as [[m e]|]; [|done].
  intros H. exists m, e. split; [done|]. intros k Hk Hk0.
  destruct (0 <=? e)%Z eqn:E; bool_hyps; simpl in H.
  - rewrite <- Z.mul_assoc, <- Z.pow_add_r by lia. do 2 f_equal; lia.
  - bool_hyps. replace (- k)%Z with ((- e) + (e - k))%Z by lia.
    rewrite Z.pow_add_r, Z.mul_assoc by lia. f_equal.
    rewrite Z.mul_comm, <- Z_div_exact_2; [done|lia|done].
Qed.

Lemma num_ltb_integers x y :
  num_integer x = true → num_integer y = true →
  num_ltb x y = (num_trunc x <? num_trunc y)%Z.
Proof.
  intros Hx Hy.
  destruct (num_integer_parts x Hx) as (m1 & e1 & Hp1 & Hs1).
  destruct (num_integer_parts y Hy) as (m2 & e2 & Hp2 & Hs2).
  unfold num_ltb. rewrite Hp1, Hp2.
  set (k := Z.min 0 (Z.min e1 e2)).
  rewrite (parts_ltb_scale _ _ _ _ k), Hs1, Hs2 by lia.
  pose proof (Z.pow_pos_nonneg 2 (- k)).
  apply eq_true_iff_eq. rewrite !Z.ltb_lt. nia.
Qed.

Lemma num_safe_integer_integer x : num_safe_integer x = true → num_integer x = true.
Proof. unfold num_safe_integer. intros H. by bool_hyps. Qed.
Lemma num_safe_integer_bound x :
  num_safe_integer x = true → (Z.abs (num_trunc x) <= MAX_SAFE_INTEGER)%Z.
Proof. unfold num_safe_integer. intros H. by bool_hyps. Qed.
Lemma num_integer_finite x : num_integer x = true → num_finite x = true.
Proof. unfold num_integer, num_finite. by destruct (num_parts x) as [[]|]. Qed.

(** The code's integer tests [Number.isInteger(x) && x >= k] as a comparison. *)
Lemma num_ltb_const x k :
  num_integer x = true → (Z.abs k <= MAX_SAFE_INTEGER)%Z →
  num_ltb x (num_of_Z k) = (num_trunc x <? k)%Z.
Proof.
  intros Hx Hk. rewrite num_ltb_integers by (done || by apply num_of_Z_integer).
  by rewrite num_of_Z_trunc.
Qed.
Lemma num_gtb_const x k :
  num_integer x = true → (Z.abs k <= MAX_SAFE_INTEGER)%Z →
  num_ltb (num_of_Z k) x = (k <? num_trunc x)%Z.
Proof.
  intros Hx Hk. rewrite num_ltb_integers by (done || by apply num_of_Z_integer).
  by rewrite num_of_Z_trunc.
Qed.
