(* ===== verification/JsValue.v ===== *)
(** * JavaScript values

    Two layers of data.  [json] is a detached JSON tree: what [JSON.parse]
    returns and what the compiler captures.  [value] with a [heap] is what a
    caller hands over: primitives, and references to objects with property
    descriptors, prototypes, symbols, accessors, proxies and possibly cycles. *)
From S2P Require Import Prelude JsString JsNumber.

(** ** JSON trees

    An object lists its own properties in the order the language enumerates
    them ([OrdinaryOwnPropertyKeys]). *)
Inductive json : Type :=
  | JNull
  | JBool (b : bool)
  | JNum (n : num)
  | JStr (s : jsstr)
  | JArr (items : list json)
  | JObj (props : list (jsstr * json)).

(** The array index a property key denotes: a decimal numeral without leading
    zeros, below [2^32 - 1]. *)
Fixpoint parse_digits (acc : N) (s : jsstr) : option N :=
  match s with
  | [] => Some acc
  | c :: s' => if is_digit c then parse_digits (acc * 10 + (c - 48))%N s' else None
  end.
Definition array_index (k : jsstr) : option N :=
  match k with
  | [] => None
  | c :: rest =>
      if (length k <=? 10)%nat && is_digit c && (negb (c =? 48)%N || (length rest =? 0)%nat) then
        match parse_digits 0 k with
        | Some i => if (i <? 4294967295)%N then Some i else None
        | None => None
        end
      else None
  end.
Definition is_array_index (k : jsstr) : bool :=
  match array_index k with Some _ => true | None => false end.
Definition compare_index (k1 k2 : jsstr) : Z :=
  (Z.of_N (default 0%N (array_index k1)) - Z.of_N (default 0%N (array_index k2)))%Z.

(** [OrdinaryOwnPropertyKeys] of an object whose properties were created in the
    order of the list: array indices first, ascending, then the other keys. *)
Definition own_order {A} (props : list (jsstr * A)) : list (jsstr * A) :=
  sort_by (λ p q, compare_index p.1 q.1) (filter (λ p, is_array_index p.1 = true) props) ++
  filter (λ p, is_array_index p.1 = false) props.

(** [Object.hasOwn(o, k)], [o[k]] and [Object.keys(o)] of an own-property list. *)
Definition has_own {A} (k : jsstr) (props : list (jsstr * A)) : bool := map_has k props.
Definition get_own {A} (k : jsstr) (props : list (jsstr * A)) : option A := map_get k props.

(** ** Caller values *)

Abbreviation loc := positive.

Inductive value : Type :=
  | VUndefined
  | VNull
  | VBool (b : bool)
  | VNum (n : num)
  | VStr (s : jsstr)
  | VBigInt (z : Z)
  | VFunction
  | VSymbol
  | VObj (l : loc).

(** An own property: [Object.getOwnPropertyDescriptor]. *)
Inductive descriptor : Type :=
  | Data (v : value) (enumerable : bool)
  | Accessor (enumerable : bool).

Inductive prototype := ProtoObject | ProtoArray | ProtoNull | ProtoOther.
#[export] Instance prototype_eq_dec : EqDecision prototype.
Proof. solve_decision. Defined.

(** An object.  [o_props] lists the own string-keyed properties in
    [[OwnPropertyKeys]] order, without the [length] property every array has.
    A proxy reports what its traps answer; [o_throws] says that they throw. *)
Record object := Object {
  o_proxy : bool;
  o_throws : bool;
  o_array : bool;
  o_proto : prototype;
  o_symbols : nat;
  o_length : nat;
  o_props : list (jsstr * descriptor)
}.

Abbreviation heap := (gmap loc object).

Definition plain_object (props : list (jsstr * descriptor)) : object :=
  Object false false false ProtoObject 0 0 props.
Definition plain_array (items : list value) : object :=
  Object false false true ProtoArray 0 (length items)
    (imap (λ i v, (string_of_nat i, Data v true)) items).

(** The object a reference denotes. *)
Definition deref (h : heap) (l : loc) : object := default (plain_object []) (h !! l).

Definition key_length : jsstr := js "length".

(** [Object.getOwnPropertyNames(o)] *)
Definition own_names (o : object) : list jsstr :=
  (o_props o).*1 ++ (if o_array o then [key_length] else []).

(** [Object.getOwnPropertyDescriptor(o, k)]; an array's [length] is a
    non-enumerable data property. *)
Definition own_descriptor (o : object) (k : jsstr) : option descriptor :=
  if o_array o && bool_decide (k = key_length)
  then Some (Data (VNum (num_of_Z (Z.of_nat (o_length o)))) false)
  else map_get k (o_props o).

(** [typeof v] *)
Definition type_of (v : value) : jsstr :=
  match v with
  | VUndefined => js "undefined"
  | VNull | VObj _ => js "object"
  | VBool _ => js "boolean"
  | VNum _ => js "number"
  | VStr _ => js "string"
  | VBigInt _ => js "bigint"
  | VFunction => js "function"
  | VSymbol => js "symbol"
  end.

(** The ordinary objects that [JSON.parse] builds for a tree: the value, the
    objects and the next free location. *)
Fixpoint alloc_json (j : json) (next : loc) : value * list (loc * object) * loc :=
  match j with
  | JNull => (VNull, [], next)
  | JBool b => (VBool b, [], next)
  | JNum n => (VNum n, [], next)
  | JStr s => (VStr s, [], next)
  | JArr items =>
      let '(values, objects, next') :=
        (fix go (items : list json) (next : loc) : list value * list (loc * object) * loc :=
          match items with
          | [] => ([], [], next)
          | j :: items =>
              let '(v, os, next) := alloc_json j next in
              let '(vs, os', next) := go items next in (v :: vs, os ++ os', next)
          end) items (Pos.succ next) in
      (VObj next, (next, plain_array values) :: objects, next')
  | JObj props =>
      let '(entries, objects, next') :=
        (fix go (props : list (jsstr * json)) (next : loc)
            : list (jsstr * descriptor) * list (loc * object) * loc :=
          match props with
          | [] => ([], [], next)
          | (k, j) :: props =>
              let '(v, os, next) := alloc_json j next in
              let '(vs, os', next) := go props next in ((k, Data v true) :: vs, os ++ os', next)
          end) props (Pos.succ next) in
      (VObj next, (next, plain_object entries) :: objects, next')
  end.
Definition value_of_json (j : json) : heap * value :=
  let '(v, objects, _) := alloc_json j 1%positive in (list_to_map objects, v).

(** ** Well-formedness

    What the language guarantees of every heap: an object's own keys are
    distinct strings of code units. *)
Definition object_wf (o : object) : Prop :=
  NoDup (o_props o).*1 ∧ Forall str_wf (o_props o).*1 ∧
  (o_array o = true → key_length ∉ (o_props o).*1).
Definition heap_wf (h : heap) : Prop := ∀ l o, h !! l = Some o → object_wf o.

#[export] Instance object_wf_dec o : Decision (object_wf o).
Proof. unfold object_wf, str_wf. apply _. Defined.
#[export] Instance heap_wf_dec h : Decision (heap_wf h).
Proof. apply (decide (map_Forall (λ _ o, object_wf o) h)). Defined.

(** ** Induction on JSON trees *)
Section json_induction.
Variable P : json → Prop.
Hypothesis P_null : P JNull.
Hypothesis P_bool : ∀ b, P (JBool b).
Hypothesis P_num : ∀ n, P (JNum n).
Hypothesis P_str : ∀ s, P (JStr s).
Hypothesis P_arr : ∀ l, Forall P l → P (JArr l).
Hypothesis P_obj : ∀ m, Forall (λ p, P p.2) m → P (JObj m).

Fixpoint json_nested_ind (j : json) : P j :=
  match j with
  | JNull => P_null
  | JBool b => P_bool b
  | JNum n => P_num n
  | JStr s => P_str s
  | JArr l =>
      P_arr l ((fix go (l : list json) : Forall P l :=
        match l with
        | [] => Forall_nil_2 _
        | j :: l' => Forall_cons_2 _ _ _ (json_nested_ind j) (go l')
        end) l)
  | JObj m =>
      P_obj m ((fix go (m : list (jsstr * json)) : Forall (λ p, P p.2) m :=
        match m with
        | [] => Forall_nil_2 _
        | p :: m' => Forall_cons_2 _ _ _ (json_nested_ind p.2) (go m')
        end) m)
  end.
End json_induction.

(** Equality of JSON trees is decidable. *)
Fixpoint json_eqb (a b : json) : bool :=
  match a, b with
  | JNull, JNull => true
  | JBool x, JBool y => Bool.eqb x y
  | JNum x, JNum y => bool_decide (x = y)
  | JStr x, JStr y => bool_decide (x = y)
  | JArr x, JArr y =>
      (fix go (x y : list json) : bool :=
        match x, y with
        | [], [] => true
        | a :: x', b :: y' => json_eqb a b && go x' y'
        | _, _ => false
        end) x y
  | JObj x, JObj y =>
      (fix go (x y : list (jsstr * json)) : bool :=
        match x, y with
        | [], [] => true
        | (k, a) :: x', (k', b) :: y' => bool_decide (k = k') && json_eqb a b && go x' y'
        | _, _ => false
        end) x y
  | _, _ => false
  end.

Lemma json_eqb_eq a b : json_eqb a b = true ↔ a = b.
Proof.
  revert b. induction a as [|b1|n|s|l IH|m IH] using json_nested_ind; intros b; destruct b; simpl;
    try (split; [done|congruence]); try done.
  - rewrite eqb_true_iff. split; congruence.
  - rewrite bool_decide_eq_true. split; congruence.
  - rewrite bool_decide_eq_true. split; congruence.
  - revert items. induction IH as [|a l Ha Hl IHl]; intros [|b items]; try (split; [done|congruence]).
    rewrite andb_true_iff, Ha, IHl. split; [intros [-> [= ->]]; done|]. intros [= -> ->]. done.
  - revert props. induction IH as [|[k a] l Ha Hl IHl]; intros [|[k' b] props];
      try (split; [done|congruence]).
    rewrite !andb_true_iff, bool_decide_eq_true, Ha, IHl. simpl.
    split; [intros [[-> ->] [= ->]]; done|]. intros [= -> -> ->]. done.
Qed.

#[export] Instance json_eq_dec : EqDecision json.
Proof.
  refine (λ a b, match json_eqb a b as r return json_eqb a b = r → Decision (a = b) with
    | true => λ H, left (proj1 (json_eqb_eq a b) H)
    | false => λ H, right (λ Heq, _)
    end eq_refl).
  abstract (apply json_eqb_eq in Heq; congruence).
Defined.

(** ** Lemmas on property order *)
Lemma filter_split_Permutation {A} (f : A → bool) (l : list A) :
  filter (λ x, f x = true) l ++ filter (λ x, f x = false) l ≡ₚ l.
Proof.
  induction l as [|x l IH]; [done|].
  destruct (f x) eqn:E.
  - rewrite filter_cons_True, filter_cons_False by congruence. simpl. by rewrite IH.
  - rewrite filter_cons_False, filter_cons_True by congruence.
    rewrite <- Permutation_middle. by rewrite IH.
Qed.

Lemma own_order_Permutation {A} (m : list (jsstr * A)) : own_order m ≡ₚ m.
Proof. unfold own_order. rewrite sort_by_Permutation. apply (filter_split_Permutation (λ p, is_array_index p.1)). Qed.

Lemma own_order_keys {A} (m : list (jsstr * A)) : (own_order m).*1 ≡ₚ m.*1.
Proof. by rewrite own_order_Permutation. Qed.

(** ** Lemmas on integer keys *)

(** Let [lia] reason about division and remainder by constants. *)
#[local] Ltac Zify.zify_post_hook ::= Z.to_euclidean_division_equations.

Lemma parse_digits_app a xs ys :
  parse_digits a (xs ++ ys) =
  match parse_digits a xs with Some b => parse_digits b ys | None => None end.
Proof.
  revert a. induction xs as [|x xs IH]; intros a; simpl; [done|].
  destruct (is_digit x); [|done]. apply IH.
Qed.

Lemma decimal_digits_app fuel n acc : decimal_digits fuel n acc = decimal_digits fuel n [] ++ acc.
Proof.
  revert n acc. induction fuel as [|fuel IH]; intros n acc; simpl; [done|].
  destruct (n <? 10)%N; [done|].
  rewrite IH, (IH _ [_]), <- (assoc_L (++)). done.
Qed.

Lemma is_digit_mod n : is_digit (48 + n `mod` 10)%N = true.
Proof.
  unfold is_digit. pose proof (N.mod_lt n 10 ltac:(lia)). apply andb_true_iff. split; apply N.leb_le; lia.
Qed.

Lemma decimal_digits_spec fuel n :
  (n < 2 ^ N.of_nat fuel)%N → fuel ≠ 0 →
  parse_digits 0 (decimal_digits fuel n []) = Some n ∧
  Forall (λ c, is_digit c = true) (decimal_digits fuel n []) ∧
  decimal_digits fuel n [] ≠ [] ∧ (n ≠ 0%N → head (decimal_digits fuel n []) ≠ Some 48%N) ∧
  (n = 0%N → decimal_digits fuel n [] = [48%N]).
Proof.
  revert n. induction fuel as [|fuel IH]; intros n Hn Hf; [done|]. simpl.
  destruct (n <? 10)%N eqn:E; bool_hyps.
  - pose proof (is_digit_mod n) as Hd. simpl. rewrite Hd.
    rewrite (N.mod_small n 10) in * by done.
    split_and!; [f_equal; lia|by constructor|done| |by intros ->].
    intros Hz [= Heq]. lia.
  - destruct (decide (fuel = 0)) as [->|Hfuel]; [change (2 ^ N.of_nat 1)%N with 2%N in Hn; lia|].
    assert (n `div` 10 < 2 ^ N.of_nat fuel)%N as Hlt.
    { apply N.Div0.div_lt_upper_bound. rewrite Nat2N.inj_succ, N.pow_succ_r' in Hn. lia. }
    destruct (IH _ Hlt Hfuel) as (Hp & Hall & Hne & Hhd & _).
    rewrite decimal_digits_app. split_and!.
    + rewrite parse_digits_app, Hp. simpl. rewrite is_digit_mod.
      f_equal. pose proof (N.div_mod n 10 ltac:(lia)). lia.
    + apply Forall_app. split; [done|]. constructor; [|done]. apply is_digit_mod.
    + by destruct (decimal_digits fuel (n `div` 10) []).
    + intros _. destruct (decimal_digits fuel (n `div` 10) []); [done|]. apply Hhd.
      pose proof (N.div_str_pos n 10 ltac:(lia)). lia.
    + lia.
Qed.

Lemma string_of_N_spec n :
  parse_digits 0 (string_of_N n) = Some n ∧
  Forall (λ c, is_digit c = true) (string_of_N n) ∧
  string_of_N n ≠ [] ∧ (n ≠ 0%N → head (string_of_N n) ≠ Some 48%N) ∧
  (n = 0%N → string_of_N n = [48%N]).
Proof.
  unfold string_of_N. apply decimal_digits_spec; [|done].
  rewrite Nat2N.inj_succ, N2Nat.id.
  destruct (decide (n = 0%N)) as [->|]; [done|]. apply N.log2_spec. lia.
Qed.

Lemma parse_string_of_N n : parse_digits 0 (string_of_N n) = Some n.
Proof. apply string_of_N_spec. Qed.
#[export] Instance string_of_N_inj : Inj (=) (=) string_of_N.
Proof.
  intros n m H. pose proof (parse_string_of_N n) as Hn.
  rewrite H, parse_string_of_N in Hn. congruence.
Qed.
#[export] Instance string_of_nat_inj : Inj (=) (=) string_of_nat.
Proof. intros n m H. apply string_of_N_inj in H. lia. Qed.

Lemma is_digit_range c : is_digit c = true ↔ (48 ≤ c ≤ 57)%N.
Proof. unfold is_digit. rewrite andb_true_iff, !N.leb_le. done. Qed.

Lemma string_of_nat_not_length i : string_of_nat i ≠ key_length.
Proof.
  intros H. destruct (string_of_N_spec (N.of_nat i)) as (_ & Hd & _).
  fold (string_of_nat i) in Hd. rewrite H in Hd. by apply Forall_cons in Hd as [Hd _].
Qed.

Lemma string_of_N_wf n : str_wf (string_of_N n).
Proof.
  destruct (string_of_N_spec n) as (_ & Hd & _). eapply Forall_impl; [done|].
  intros c Hc. simpl in Hc. apply is_digit_range in Hc. lia.
Qed.

(** ** Lemmas on the heap *)
Lemma plain_object_wf : object_wf (plain_object []).
Proof. split; [constructor|]. split; [constructor|done]. Qed.

Lemma deref_wf h l : heap_wf h → object_wf (deref h l).
Proof.
  intros Hh. unfold deref. destruct (h !! l) eqn:E; [by eapply Hh|]. apply plain_object_wf.
Qed.

(** Two association lists with the same distinct keys and lookups are
    permutations of each other. *)
Lemma zip_Permutation {A} (m : list (jsstr * A)) ks vs :
  NoDup m.*1 → ks ≡ₚ m.*1 → Forall2 (λ k v, map_get k m = Some v) ks vs → m ≡ₚ zip ks vs.
Proof.
  intros Hnd Hks Hvs.
  assert ((zip ks vs).*1 = ks) as Hfst by (apply fst_zip; apply Forall2_length in Hvs; lia).
  apply NoDup_Permutation.
  - by eapply NoDup_fmap_1.
  - apply (NoDup_fmap_1 fst). rewrite Hfst. by rewrite Hks.
  - intros [k v]. split.
    + intros Hin. assert (k ∈ ks) as Hk.
      { rewrite Hks. apply list_elem_of_fmap. by exists (k, v). }
      apply list_elem_of_lookup in Hk as [i Hi].
      destruct (Forall2_lookup_l _ _ _ _ _ Hvs Hi) as (v' & Hv' & Hget).
      rewrite (map_get_NoDup k v m) in Hget by done. injection Hget as ->.
      apply list_elem_of_lookup. exists i. by rewrite lookup_zip_with, Hi, Hv'.
    + intros Hin. apply list_elem_of_lookup in Hin as [i Hi].
      rewrite lookup_zip_with in Hi. destruct (ks !! i) as [k'|] eqn:Hk; [|done]. simpl in Hi.
      destruct (vs !! i) as [v'|] eqn:Hv; [|done]. injection Hi as -> ->.
      apply map_get_Some_elem. by eapply (Forall2_lookup_lr _ _ _ _ _ _ Hvs).
Qed.
