(* ===== verification/JsonText.v ===== *)
(** * JSON text

    [JSON.stringify] of a string and [JSON.parse], on UTF-16 code units.  The
    parser is a recursive descent whose fuel is twice the length of the text;
    [None] is the [SyntaxError] the language throws. *)
From Stdlib Require Import SpecFloat.
From S2P Require Import Prelude JsString JsNumber JsValue.

(** ** Writing strings *)

Definition hex_digit (d : N) : N := if (d <? 10)%N then (48 + d)%N else (87 + d)%N.
Definition hex4 (u : N) : jsstr :=
  [hex_digit (u `div` 4096 `mod` 16); hex_digit (u `div` 256 `mod` 16);
   hex_digit (u `div` 16 `mod` 16); hex_digit (u `mod` 16)]%N.

(** A code unit inside a JSON string literal. *)
Definition quote_unit (u : N) : jsstr :=
  if (u =? 8)%N then [92; 98]%N
  else if (u =? 9)%N then [92; 116]%N
  else if (u =? 10)%N then [92; 110]%N
  else if (u =? 12)%N then [92; 102]%N
  else if (u =? 13)%N then [92; 114]%N
  else if (u =? 34)%N then [92; 34]%N
  else if (u =? 92)%N then [92; 92]%N
  else if (u <? 32)%N || is_surrogate u then [92; 117]%N ++ hex4 u
  else [u].

(** Well-formed [JSON.stringify]: a surrogate pair is copied, a lone surrogate
    is escaped. *)
Fixpoint quote_units (s : jsstr) : jsstr :=
  match s with
  | [] => []
  | h :: t =>
      match t with
      | l :: t' =>
          if is_high_surrogate h && is_low_surrogate l
          then h :: l :: quote_units t'
          else quote_unit h ++ quote_units t
      | [] => quote_unit h
      end
  end.
Definition quote_string (s : jsstr) : jsstr := [34%N] ++ quote_units s ++ [34%N].

(** ** Reading *)

Definition is_space (u : N) : bool := (u =? 32)%N || (u =? 9)%N || (u =? 10)%N || (u =? 13)%N.
Fixpoint skip_space (s : jsstr) : jsstr :=
  match s with
  | c :: s' => if is_space c then skip_space s' else s
  | [] => []
  end.

Definition hex_value (u : N) : option N :=
  if is_digit u then Some (u - 48)%N
  else if (97 <=? u)%N && (u <=? 102)%N then Some (u - 87)%N
  else if (65 <=? u)%N && (u <=? 70)%N then Some (u - 55)%N
  else None.

Definition unescape (u : N) : option N :=
  if (u =? 34)%N then Some 34%N
  else if (u =? 92)%N then Some 92%N
  else if (u =? 47)%N then Some 47%N
  else if (u =? 98)%N then Some 8%N
  else if (u =? 102)%N then Some 12%N
  else if (u =? 110)%N then Some 10%N
  else if (u =? 114)%N then Some 13%N
  else if (u =? 116)%N then Some 9%N
  else None.

(** The characters of a string literal after its opening quote, and the text
    after its closing quote. *)
Fixpoint parse_string (s : jsstr) : option (jsstr * jsstr) :=
  match s with
  | [] => None
  | c :: r =>
      if (c =? 34)%N then Some ([], r)
      else if (c =? 92)%N then
        match r with
        | [] => None
        | e :: r' =>
            if (e =? 117)%N then
              match r' with
              | a :: b :: c :: d :: r'' =>
                  match hex_value a, hex_value b, hex_value c, hex_value d with
                  | Some a, Some b, Some c, Some d =>
                      match parse_string r'' with
                      | Some (t, rest) => Some ((a * 4096 + b * 256 + c * 16 + d)%N :: t, rest)
                      | None => None
                      end
                  | _, _, _, _ => None
                  end
              | _ => None
              end
            else
              match unescape e, parse_string r' with
              | Some u, Some (t, rest) => Some (u :: t, rest)
              | _, _ => None
              end
        end
      else if (c <? 32)%N then None
      else match parse_string r with
           | Some (t, rest) => Some (c :: t, rest)
           | None => None
           end
  end.

(** The leading decimal digits of a text. *)
Fixpoint span_digits (s : jsstr) : jsstr * jsstr :=
  match s with
  | c :: r => if is_digit c then let '(d, rest) := span_digits r in (c :: d, rest) else ([], s)
  | [] => ([], [])
  end.
Definition digits_value (d : jsstr) : N := default 0%N (parse_digits 0 d).

(** The fraction and the exponent of a number literal. *)
Definition parse_fraction (s : jsstr) : option (jsstr * jsstr) :=
  match s with
  | 46%N :: r => let '(d, rest) := span_digits r in
                 match d with [] => None | _ => Some (d, rest) end
  | _ => Some ([], s)
  end.
Definition parse_exponent (s : jsstr) : option (Z * jsstr) :=
  match s with
  | c :: r =>
      if (c =? 101)%N || (c =? 69)%N then
        let '(sign, r) :=
          match r with
          | 43%N :: r' => (1%Z, r')
          | 45%N :: r' => ((-1)%Z, r')
          | _ => (1%Z, r)
          end in
        let '(d, rest) := span_digits r in
        match d with [] => None | _ => Some ((sign * Z.of_N (digits_value d))%Z, rest) end
      else Some (0%Z, s)
  | [] => Some (0%Z, s)
  end.

(** A number literal: sign, integer part without leading zeros, fraction,
    exponent. *)
Definition parse_number (s : jsstr) : option (num * jsstr) :=
  let '(neg, s) := match s with 45%N :: r => (true, r) | _ => (false, s) end in
  let '(int, s) := span_digits s in
  match int with
  | [] => None
  | c :: rest_int =>
      if (c =? 48)%N && negb (length rest_int =? 0)%nat then None
      else
        match parse_fraction s with
        | None => None
        | Some (frac, s) =>
            match parse_exponent s with
            | None => None
            | Some (e, s) =>
                Some (num_of_decimal neg (digits_value (int ++ frac)) (e - Z.of_nat (length frac)), s)
            end
        end
  end.

(** The properties of an object literal: a repeated key keeps its first position
    and its last value. *)
Definition object_of_members (ms : list (jsstr * json)) : json :=
  JObj (own_order (foldl (λ m p, map_set p.1 p.2 m) [] ms)).

Fixpoint parse_value (fuel : nat) (s : jsstr) {struct fuel} : option (json * jsstr) :=
  match fuel with
  | 0 => None
  | S fuel =>
      match skip_space s with
      | [] => None
      | c :: r =>
          if (c =? 34)%N then
            match parse_string r with Some (t, r) => Some (JStr t, r) | None => None end
          else if (c =? 91)%N then
            match skip_space r with
            | 93%N :: r' => Some (JArr [], r')
            | _ => match parse_items fuel r with Some (l, r) => Some (JArr l, r) | None => None end
            end
          else if (c =? 123)%N then
            match skip_space r with
            | 125%N :: r' => Some (JObj [], r')
            | _ => match parse_members fuel r with
                   | Some (ms, r) => Some (object_of_members ms, r)
                   | None => None
                   end
            end
          else if starts_with (js "null") (c :: r) then Some (JNull, drop 4 (c :: r))
          else if starts_with (js "true") (c :: r) then Some (JBool true, drop 4 (c :: r))
          else if starts_with (js "false") (c :: r) then Some (JBool false, drop 5 (c :: r))
          else match parse_number (c :: r) with Some (n, r) => Some (JNum n, r) | None => None end
      end
  end
with parse_items (fuel : nat) (s : jsstr) {struct fuel} : option (list json * jsstr) :=
  match fuel with
  | 0 => None
  | S fuel =>
      match parse_value fuel s with
      | None => None
      | Some (v, r) =>
          match skip_space r with
          | 44%N :: r' =>
              match parse_items fuel r' with Some (l, r) => Some (v :: l, r) | None => None end
          | 93%N :: r' => Some ([v], r')
          | _ => None
          end
      end
  end
with parse_members (fuel : nat) (s : jsstr) {struct fuel} : option (list (jsstr * json) * jsstr) :=
  match fuel with
  | 0 => None
  | S fuel =>
      match skip_space s with
      | 34%N :: r =>
          match parse_string r with
          | None => None
          | Some (k, r) =>
              match skip_space r with
              | 58%N :: r =>
                  match parse_value fuel r with
                  | None => None
                  | Some (v, r) =>
                      match skip_space r with
                      | 44%N :: r' =>
                          match parse_members fuel r' with
                          | Some (ms, r) => Some ((k, v) :: ms, r)
                          | None => None
                          end
                      | 125%N :: r' => Some ([(k, v)], r')
                      | _ => None
                      end
                  end
              | _ => None
              end
          end
      | _ => None
      end
  end.

(** [JSON.parse(text)] *)
Definition json_parse (text : jsstr) : option json :=
  match parse_value (2 * length text + 2) text with
  | Some (j, rest) => match skip_space rest with [] => Some j | _ => None end
  | None => None
  end.

(** ** String literals round-trip *)
Lemma hex_value_digit d : (d < 16)%N → hex_value (hex_digit d) = Some d.
Proof.
  intros H. unfold hex_digit, hex_value, is_digit.
  destruct (d <? 10)%N eqn:E; bool_hyps.
  - rewrite !(proj2 (N.leb_le _ _)) by lia. simpl. f_equal. lia.
  - rewrite (proj2 (N.leb_le 48 _)), (proj2 (N.leb_gt _ 57)) by lia.
    rewrite !(proj2 (N.leb_le _ _)) by lia. simpl. f_equal. lia.
Qed.

Lemma hex4_value u :
  (u < 65536)%N →
  (u `div` 4096 `mod` 16 * 4096 + u `div` 256 `mod` 16 * 256 + u `div` 16 `mod` 16 * 16 + u `mod` 16
   = u)%N.
Proof.
  intros H.
  pose proof (N.div_mod u 16). pose proof (N.div_mod (u `div` 16) 16).
  pose proof (N.div_mod (u `div` 16 `div` 16) 16).
  assert (u `div` 256 = u `div` 16 `div` 16)%N as -> by (by rewrite N.Div0.div_div).
  assert (u `div` 4096 = u `div` 16 `div` 16 `div` 16)%N as -> by (by rewrite !N.Div0.div_div).
  assert (u `div` 16 `div` 16 `div` 16 < 16)%N.
  { rewrite !N.Div0.div_div. apply N.Div0.div_lt_upper_bound. lia. }
  rewrite (N.mod_small (u `div` 16 `div` 16 `div` 16)) by done. lia.
Qed.

Lemma parse_quote_unit u s :
  (u < 65536)%N →
  parse_string (quote_unit u ++ s) =
  match parse_string s with Some (t, r) => Some (u :: t, r) | None => None end.
Proof.
  intros Hu. unfold quote_unit.
  repeat match goal with
  | |- context [if (u =? ?k)%N then _ else _] =>
      destruct (u =? k)%N eqn:?; bool_hyps; [subst u; simpl; by destruct (parse_string s) as [[]|]|]
  end.
  destruct ((u <? 32)%N || is_surrogate u) eqn:E.
  - simpl. unfold hex4. simpl.
    rewrite !hex_value_digit by (by apply N.mod_lt).
    rewrite hex4_value by done. done.
  - bool_hyps. simpl.
    rewrite (proj2 (N.eqb_neq u 34)), (proj2 (N.eqb_neq u 92)), (proj2 (N.ltb_ge u 32)) by done.
    done.
Qed.

Lemma parse_surrogate u s :
  is_surrogate u = true →
  parse_string (u :: s) =
  match parse_string s with Some (t, r) => Some (u :: t, r) | None => None end.
Proof.
  unfold is_surrogate. intros H. bool_hyps. simpl.
  rewrite (proj2 (N.eqb_neq u 34)), (proj2 (N.eqb_neq u 92)), (proj2 (N.ltb_ge u 32)) by lia.
  done.
Qed.

Lemma parse_quote_units s rest :
  str_wf s → parse_string (quote_units s ++ [34%N] ++ rest) = Some (s, rest).
Proof.
  assert (Hlen : ∀ n s, (length s ≤ n)%nat → str_wf s →
    parse_string (quote_units s ++ [34%N] ++ rest) = Some (s, rest)).
  { clear s. intros n. induction n as [|n IH]; intros s Hn Hs;
      (destruct s as [|h t]; [done|]); [simpl in Hn; lia|].
    apply Forall_cons in Hs as [Hh Ht].
    destruct t as [|l t]; [by simpl; rewrite parse_quote_unit|].
    change (quote_units (h :: l :: t)) with
      (if is_high_surrogate h && is_low_surrogate l
       then h :: l :: quote_units t else quote_unit h ++ quote_units (l :: t)).
    destruct (is_high_surrogate h && is_low_surrogate l) eqn:E.
    - unfold is_high_surrogate, is_low_surrogate in E. bool_hyps.
      apply Forall_cons in Ht as [_ Ht].
      rewrite <- !app_comm_cons, !parse_surrogate by (apply andb_true_iff; split; apply N.leb_le; lia).
      simpl in Hn. by rewrite IH by (done || lia).
    - rewrite <- (assoc_L (++)), parse_quote_unit by done.
      simpl in Hn. by rewrite IH by (done || simpl; lia). }
  intros. by eapply Hlen.
Qed.
