(* ===== verification/NumberText.v ===== *)
(** * Numbers and their text

    What [JSON.stringify] prints for a double, [JSON.parse] reads back as the same
    double.  The development goes through the exact value of a decimal: rounding
    is the identity on decimals that a double represents exactly, the search for
    the shortest decimal always ends with one that rounds to the number, and the
    layout of the printed digits denotes that decimal. *)
From Stdlib Require Import SpecFloat.
From S2P Require Import Prelude JsString JsNumber JsValue JsonText.

(** The doubles: mantissa and exponent within the format. *)
Definition num_ok (x : num) : Prop := valid_binary 53 1024 x = true.
#[export] Instance num_ok_dec x : Decision (num_ok x).
Proof. unfold num_ok. apply _. Defined.

(** ** Binary digits *)

Lemma digits2_pos_unique p d : (0 < d → 2 ^ (d - 1) <= Zpos p < 2 ^ d → Zpos (digits2_pos p) = d)%Z.
Proof.
  intros Hd [Hl Hu]. pose proof (digits2_pos_bound p). pose proof (digits2_pos_lower p).
  destruct (Z.lt_trichotomy (Zpos (digits2_pos p)) d) as [Hlt|[?|Hgt]]; [|done|].
  - assert (2 ^ Zpos (digits2_pos p) <= 2 ^ (d - 1))%Z by (apply Z.pow_le_mono_r; lia). lia.
  - assert (2 ^ d <= 2 ^ (Zpos (digits2_pos p) - 1))%Z by (apply Z.pow_le_mono_r; lia). lia.
Qed.

Lemma digits2_pos_shift p m k :
  (0 <= k → Zpos p = Zpos m * 2 ^ k → Zpos (digits2_pos p) = Zpos (digits2_pos m) + k)%Z.
Proof.
  intros Hk Hp. pose proof (digits2_pos_bound m). pose proof (digits2_pos_lower m).
  pose proof (Z.pow_pos_nonneg 2 k).
  apply digits2_pos_unique; [lia|].
  replace (Zpos (digits2_pos m) + k - 1)%Z with ((Zpos (digits2_pos m) - 1) + k)%Z by lia.
  rewrite !Z.pow_add_r by lia. nia.
Qed.

(** ** Rounding an exact value *)

Lemma iter_pos_add {A} (f : A → A) n x : SpecFloat.iter_pos f n x = Nat.iter (Pos.to_nat n) f x.
Proof.
  revert x. induction n as [n IH|n IH|]; intros x; cbn [SpecFloat.iter_pos]; rewrite ?IH; [| |done];
    rewrite <- Nat.iter_add; [rewrite <- Nat.iter_succ_r|]; f_equal; lia.
Qed.

(** Shifting out zeros keeps the record exact. *)
Lemma iter_shr_1 n m :
  Nat.iter n shr_1 {| shr_m := Zpos m * 2 ^ Z.of_nat n; shr_r := false; shr_s := false |} =
  {| shr_m := Zpos m; shr_r := false; shr_s := false |}.
Proof.
  induction n as [|n IH]; [by rewrite Z.mul_1_r|].
  rewrite Nat.iter_succ_r. rewrite <- IH. f_equal.
  rewrite Nat2Z.inj_succ, Z.pow_succ_r by lia.
  replace (Zpos m * (2 * 2 ^ Z.of_nat n))%Z with (2 * (Zpos m * 2 ^ Z.of_nat n))%Z by lia.
  pose proof (Z.pow_pos_nonneg 2 (Z.of_nat n)).
  by destruct (Zpos m * 2 ^ Z.of_nat n)%Z eqn:E; [lia| |lia].
Qed.

Lemma shr_exact m k e :
  (0 <= k)%Z →
  shr (shr_record_of_loc (Zpos m * 2 ^ k) loc_Exact) e k =
  ({| shr_m := Zpos m; shr_r := false; shr_s := false |}, e + k)%Z.
Proof.
  intros Hk. unfold shr, shr_record_of_loc. destruct k as [|k|]; [| |lia].
  - by rewrite Z.mul_1_r, Z.add_0_r.
  - rewrite iter_pos_add, <- (positive_nat_Z k), (iter_shr_1 (Pos.to_nat k) m). done.
Qed.

(** Rounding the exact value of a double gives the double. *)
Lemma binary_round_aux_exact s m e ex k :
  bounded 53 1024 m e = true → (0 <= k)%Z → ex = (e - k)%Z →
  binary_round_aux 53 1024 s (Zpos m * 2 ^ k) ex loc_Exact = S754_finite s m e.
Proof.
  unfold bounded, canonical_mantissa. intros Hb Hk ->. bool_hyps.
  assert (Hsame : shr_fexp 53 1024 (Zpos m) e loc_Exact =
    ({| shr_m := Zpos m; shr_r := false; shr_s := false |}, e)).
  { unfold shr_fexp, Zdigits2. rewrite H, Z.sub_diag. done. }
  unfold binary_round_aux, shr_fexp at 1.
  assert (Zdigits2 (Zpos m * 2 ^ k) = Zpos (digits2_pos m) + k)%Z as ->.
  { pose proof (Z.pow_pos_nonneg 2 k). destruct (Zpos m * 2 ^ k)%Z as [|p|] eqn:E; [lia| |lia].
    simpl. by apply digits2_pos_shift. }
  replace (Zpos (digits2_pos m) + k + (e - k))%Z with (Zpos (digits2_pos m) + e)%Z by lia.
  rewrite H. replace (e - (e - k))%Z with k by lia. rewrite shr_exact by done.
  cbn [loc_of_shr_record shr_m round_nearest_even].
  replace (e - k + k)%Z with e by lia. rewrite Hsame. cbn [shr_m].
  by rewrite (proj2 (Z.leb_le _ _)).
Qed.

Lemma fexp_monotone x y : (x ≤ y → fexp 53 1024 x ≤ fexp 53 1024 y)%Z.
Proof. unfold fexp. lia. Qed.

(** ** The exact value of a decimal *)

(** [s * 10^x = m * 2^e], without negative exponents. *)
Definition decimal_is (s x m e : Z) : Prop :=
  (s * 10 ^ Z.max 0 x * 2 ^ Z.max 0 (- e) = m * 2 ^ Z.max 0 e * 10 ^ Z.max 0 (- x))%Z.

Lemma iter_xO_pos p n : Zpos (Pos.iter xO p n) = (Zpos p * 2 ^ Zpos n)%Z.
Proof.
  induction n as [|n IH] using Pos.peano_ind; [simpl; lia|].
  rewrite Pos.iter_succ, Pos2Z.inj_xO, IH, Pos2Z.inj_succ, Z.pow_succ_r; lia.
Qed.

Lemma binary_round_exact s p m e :
  bounded 53 1024 m e = true → (Zpos p * 2 ^ Z.max 0 (- e) = Zpos m * 2 ^ Z.max 0 e)%Z →
  binary_round 53 1024 s p 0 = S754_finite s m e.
Proof.
  intros Hb Hv. pose proof Hb as Hb'. unfold bounded, canonical_mantissa in Hb'. bool_hyps.
  unfold binary_round, shl_align. rewrite Z.add_0_r, Z.sub_0_r.
  destruct (Z.lt_ge_cases e 0) as [He|He].
  - rewrite (Z.max_l 0 e), (Z.max_r 0 (- e)), Z.mul_1_r in Hv by lia.
    pose proof (digits2_pos_shift m p (- e) ltac:(lia) ltac:(lia)) as Hd.
    replace (Zpos (digits2_pos p)) with (Zpos (digits2_pos m) + e)%Z by lia. rewrite H.
    destruct e as [|e|e]; [lia..|].
    replace (Z.pos (Pos.iter xO p e)) with (Zpos m * 2 ^ 0)%Z.
    { by apply binary_round_aux_exact; [|lia|lia]. }
    rewrite Z.mul_1_r, <- Hv. symmetry. apply iter_xO_pos.
  - rewrite (Z.max_r 0 e), (Z.max_l 0 (- e)), Z.mul_1_r in Hv by lia.
    pose proof (digits2_pos_shift p m e ltac:(lia) Hv) as ->. rewrite H.
    destruct e as [|e|e]; [| |lia]; rewrite Hv; (apply binary_round_aux_exact; [done|lia|lia]).
Qed.

Lemma new_location_zero q : new_location q 0 = loc_Exact.
Proof. unfold new_location, new_location_even, new_location_odd. by destruct (Z.even q). Qed.

(** The quotient of two integers that is a double is computed exactly. *)
Lemma div_core_exact s p q m e :
  bounded 53 1024 m e = true →
  (Zpos p * 2 ^ Z.max 0 (- e) = Zpos m * 2 ^ Z.max 0 e * Zpos q)%Z →
  (let '(mz, ez, lz) := SFdiv_core_binary 53 1024 (Zpos p) 0 (Zpos q) 0 in
   binary_round_aux 53 1024 s mz ez lz) = S754_finite s m e.
Proof.
  intros Hb Hv. pose proof Hb as Hb'. unfold bounded, canonical_mantissa in Hb'. bool_hyps.
  unfold SFdiv_core_binary. rewrite !Z.add_0_r, Z.sub_0_r. simpl Zdigits2.
  set (e' := Z.min _ 0). rewrite Z.sub_0_l.
  assert (e' ≤ e)%Z as He'.
  { subst e'. etrans; [apply Z.le_min_l|]. rewrite <- H. apply fexp_monotone.
    destruct (Z.le_gt_cases (Zpos (digits2_pos p) - Zpos (digits2_pos q))
      (Zpos (digits2_pos m) + e)) as [|Hgt]; [done|exfalso].
    pose proof (digits2_pos_lower p). pose proof (digits2_pos_bound m). pose proof (digits2_pos_bound q).
    set (dp := Zpos (digits2_pos p)) in *. set (dq := Zpos (digits2_pos q)) in *.
    set (dm := Zpos (digits2_pos m)) in *.
    assert (2 ^ (dm + Z.max 0 e + dq) <= 2 ^ (dp - 1 + Z.max 0 (- e)))%Z as Hpow
      by (apply Z.pow_le_mono_r; lia).
    rewrite !Z.pow_add_r in Hpow by lia.
    pose proof (Z.pow_pos_nonneg 2 (Z.max 0 e)). pose proof (Z.pow_pos_nonneg 2 (Z.max 0 (- e))).
    assert (Zpos m * 2 ^ Z.max 0 e * Zpos q < 2 ^ dm * 2 ^ Z.max 0 e * 2 ^ dq)%Z.
    { apply Z.mul_lt_mono_nonneg; [lia| |lia|lia]. nia. }
    nia. }
  assert (match (- e')%Z with
    | Z0 => Zpos p | Zpos _ => Z.shiftl (Zpos p) (- e') | Zneg _ => 0%Z end =
    Zpos m * 2 ^ (e - e') * Zpos q)%Z as ->.
  { assert (e' ≤ 0)%Z as Hneg by (subst e'; lia).
    transitivity (Zpos p * 2 ^ (- e'))%Z.
    - destruct (- e')%Z eqn:E; [simpl; lia| |lia]. rewrite Z.shiftl_mul_pow2; lia.
    - apply (Z.mul_reg_r _ _ (2 ^ Z.max 0 (- e))); [pose proof (Z.pow_pos_nonneg 2 (Z.max 0 (- e))); lia|].
      transitivity (Zpos m * Zpos q * (2 ^ Z.max 0 e * 2 ^ (- e')))%Z; [nia|].
      transitivity (Zpos m * Zpos q * (2 ^ (e - e') * 2 ^ Z.max 0 (- e)))%Z; [|nia].
      f_equal. rewrite <- !Z.pow_add_r by lia. f_equal. lia. }
  pose proof (Z_div_mod (Zpos m * 2 ^ (e - e') * Zpos q) (Zpos q) ltac:(lia)) as Hdm.
  destruct (Z.div_eucl _ _) as [a b]. destruct Hdm as [Hab Hlt].
  assert (a = Zpos m * 2 ^ (e - e') ∧ b = 0)%Z as [-> ->].
  { clear -Hab Hlt. set (u := (Zpos m * 2 ^ (e - e'))%Z) in *. clearbody u.
    assert (u = a)%Z by nia. split; [done|]. nia. }
  rewrite new_location_zero. apply binary_round_aux_exact; [done|lia|lia].
Qed.

(** An integer that is a double is itself. *)
Lemma num_of_pos_exact s p m e :
  bounded 53 1024 m e = true → (Zpos p * 2 ^ Z.max 0 (- e) = Zpos m * 2 ^ Z.max 0 e)%Z →
  num_of_pos s p = S754_finite s m e.
Proof.
  intros Hb Hv. unfold num_of_pos. destruct (_ <=? 53)%Z eqn:Hd; [|by apply binary_round_exact].
  unfold bounded, canonical_mantissa in Hb. bool_hyps.
  assert (Zpos (digits2_pos p) = Zpos (digits2_pos m) + e)%Z as Hdig.
  { destruct (Z.lt_ge_cases e 0) as [He|He].
    - rewrite (Z.max_l 0 e), (Z.max_r 0 (- e)), Z.mul_1_r in Hv by lia.
      pose proof (digits2_pos_shift m p (- e) ltac:(lia) ltac:(lia)). lia.
    - rewrite (Z.max_r 0 e), (Z.max_l 0 (- e)), Z.mul_1_r in Hv by lia.
      by apply digits2_pos_shift. }
  assert (e = Zpos (digits2_pos p) - 53)%Z as ->.
  { rewrite Hdig, <- H at 1. unfold fexp, emin in *. lia. }
  f_equal. apply Pos2Z.inj. rewrite iter_xO, Z2N.id by lia.
  rewrite (Z.max_l 0 (Zpos (digits2_pos p) - 53)), Z.max_r, Z.mul_1_r in Hv by lia.
  rewrite <- Hv. f_equal. f_equal. lia.
Qed.

(** ** Stripping zeros *)

Lemma strip_zeros_spec fuel s x :
  s ≠ 0%N → (s < 2 ^ N.of_nat fuel)%N →
  ∃ j, (0 ≤ j)%Z ∧ (strip_zeros fuel s x).2 = (x + j)%Z ∧
    Z.of_N s = (Z.of_N (strip_zeros fuel s x).1 * 10 ^ j)%Z ∧
    ((strip_zeros fuel s x).1 `mod` 10 ≠ 0)%N.
Proof.
  revert s x. induction fuel as [|fuel IH]; intros s x Hs Hlt; [simpl in Hlt; lia|].
  cbn [strip_zeros]. destruct (negb (s =? 0)%N && (s `mod` 10 =? 0)%N) eqn:E.
  - bool_hyps. pose proof (N.div_mod s 10 ltac:(lia)) as Hdm. rewrite H0, N.add_0_r in Hdm.
    assert (s `div` 10 < 2 ^ N.of_nat fuel)%N as Hlt'.
    { rewrite Nat2N.inj_succ, N.pow_succ_r' in Hlt. lia. }
    destruct (IH (s `div` 10)%N (x + 1)%Z ltac:(lia) Hlt') as (j & Hj & Hx & Hv & Hm).
    exists (j + 1)%Z. rewrite Hx. split_and!; [lia|lia| |done].
    rewrite Z.pow_add_r by lia. lia.
  - exists 0%Z. cbn [fst snd]. split_and!; [lia..|].
    intros Hm. rewrite Hm, (proj2 (N.eqb_neq s 0)) in E by done. done.
Qed.

Lemma strip_spec s x :
  s ≠ 0%N →
  ∃ j, (0 ≤ j)%Z ∧ (strip s x).2 = (x + j)%Z ∧ Z.of_N s = (Z.of_N (strip s x).1 * 10 ^ j)%Z ∧
    ((strip s x).1 `mod` 10 ≠ 0)%N.
Proof.
  intros Hs. apply strip_zeros_spec; [done|].
  pose proof (N.size_gt s). replace (N.of_nat (N.size_nat s)) with (N.size s); [done|].
  destruct s as [|p]; [done|]. simpl. clear.
  induction p as [p IH|p IH|]; cbn [Pos.size Pos.size_nat]; [lia..|done].
Qed.

Lemma strip_unique a b i j :
  (a `mod` 10 ≠ 0)%N → (b `mod` 10 ≠ 0)%N → (0 ≤ i)%Z → (i ≤ j)%Z →
  (Z.of_N a * 10 ^ i = Z.of_N b * 10 ^ j)%Z → a = b ∧ i = j.
Proof.
  intros Ha Hb Hi Hij Hv.
  replace j with (i + (j - i))%Z in Hv by lia. rewrite Z.pow_add_r in Hv by lia.
  assert (Z.of_N a = Z.of_N b * 10 ^ (j - i))%Z as Hab.
  { pose proof (Z.pow_pos_nonneg 10 i). nia. }
  destruct (decide (j = i)) as [->|Hne]; [rewrite Z.sub_diag in Hab; split; lia|].
  exfalso. apply Ha. replace (j - i)%Z with (Z.succ (j - i - 1)) in Hab by lia.
  rewrite Z.pow_succ_r in Hab by lia.
  apply N2Z.inj. rewrite N2Z.inj_mod, Hab.
  replace (Z.of_N b * _)%Z with (Z.of_N b * 10 ^ (j - i - 1) * 10)%Z by lia. by apply Z.mod_mul.
Qed.

(** Two decimals of the same value strip to the same decimal. *)
Lemma strip_scale s x k : s ≠ 0%N → (0 ≤ k)%Z → strip (s * 10 ^ Z.to_N k)%N (x - k) = strip s x.
Proof.
  intros Hs Hk.
  assert (10 ^ Z.to_N k ≠ 0)%N as Hp by (apply N.pow_nonzero; lia).
  destruct (strip_spec s x Hs) as (i & Hi & Hx & Hv & Hm).
  destruct (strip_spec (s * 10 ^ Z.to_N k)%N (x - k) ltac:(lia)) as (j & Hj & Hy & Hw & Hn).
  rewrite N2Z.inj_mul, N2Z.inj_pow, Z2N.id, Hv, <- Z.mul_assoc, <- Z.pow_add_r in Hw by lia.
  destruct (strip s x) as [a y] eqn:Ea, (strip (s * _)%N _) as [b z] eqn:Eb. cbn [fst snd] in *. change (Z.of_N 10) with 10%Z in Hw.
  assert (a = b ∧ i + k = j)%Z as [-> <-].
  { destruct (Z.le_ge_cases (i + k) j); [apply strip_unique; try done; lia|].
    destruct (strip_unique b a j (i + k)); try done; lia. }
  subst. f_equal. lia.
Qed.

Lemma num_of_decimal_scale neg s x k :
  s ≠ 0%N → (0 ≤ k)%Z → num_of_decimal neg (s * 10 ^ Z.to_N k) (x - k) = num_of_decimal neg s x.
Proof. intros Hs Hk. unfold num_of_decimal. by rewrite strip_scale. Qed.

Lemma num_of_decimal_strip neg s x :
  s ≠ 0%N → num_of_decimal neg (strip s x).1 (strip s x).2 = num_of_decimal neg s x.
Proof.
  intros Hs. destruct (strip_spec s x Hs) as (j & Hj & -> & Hv & _).
  rewrite <- (num_of_decimal_scale neg _ (x + j) j); [|lia|done].
  f_equal; [|lia]. apply N2Z.inj. rewrite N2Z.inj_mul, N2Z.inj_pow, Z2N.id; lia.
Qed.

(** ** Decimals that a double represents *)

Lemma decimal_is_strip s t x j m e :
  (0 ≤ j)%Z → s = (t * 10 ^ j)%Z → decimal_is s x m e → decimal_is t (x + j) m e.
Proof.
  unfold decimal_is. intros Hj -> H.
  apply (Z.mul_reg_r _ _ (10 ^ Z.max 0 (- x))); [pose proof (Z.pow_pos_nonneg 10 (Z.max 0 (- x))); lia|].
  transitivity (t * 10 ^ j * 10 ^ Z.max 0 x * 2 ^ Z.max 0 (- e) * 10 ^ Z.max 0 (- (x + j)))%Z.
  - transitivity (t * 2 ^ Z.max 0 (- e) * (10 ^ Z.max 0 (x + j) * 10 ^ Z.max 0 (- x)))%Z; [ring|].
    transitivity (t * 2 ^ Z.max 0 (- e) * (10 ^ j * 10 ^ Z.max 0 x * 10 ^ Z.max 0 (- (x + j))))%Z; [|ring].
    f_equal. rewrite <- !Z.pow_add_r by lia. f_equal. lia.
  - rewrite H. ring.
Qed.

(** Reading a decimal that a double represents gives that double. *)
Lemma num_of_decimal_exact neg s x m e :
  bounded 53 1024 m e = true → decimal_is (Z.of_N s) x (Zpos m) e →
  num_of_decimal neg s x = S754_finite neg m e.
Proof.
  intros Hb Hv.
  assert (s ≠ 0%N) as Hs.
  { intros ->. unfold decimal_is in Hv.
    assert (0 < 2 ^ Z.max 0 e)%Z by (apply Z.pow_pos_nonneg; lia).
    assert (0 < 10 ^ Z.max 0 (- x))%Z by (apply Z.pow_pos_nonneg; lia). simpl in Hv. nia. }
  destruct (strip_spec s x Hs) as (j & Hj & Hx & Hsj & Hm).
  apply (decimal_is_strip _ _ _ _ _ _ Hj Hsj) in Hv. rewrite <- Hx in Hv.
  unfold num_of_decimal. destruct (strip s x) as [t y]. cbn [fst snd] in *.
  assert (t ≠ 0%N) by (by intros ->). destruct t as [|t]; [done|].
  unfold decimal_is in Hv. change (Z.of_N (N.pos t)) with (Zpos t) in *.
  destruct ((0 <=? y)%Z && (y <=? 15)%Z && (Zpos t * 10 ^ y <=? MAX_SAFE_INTEGER)%Z) eqn:E.
  - bool_hyps. rewrite (Z.max_r 0 y), (Z.max_l 0 (- y)), Z.mul_1_r in Hv by lia.
    pose proof (Z.pow_pos_nonneg 10 y).
    destruct (Zpos t * 10 ^ y)%Z as [|p|p] eqn:Ep; [lia| |lia]. by apply num_of_pos_exact.
  - clear E. unfold round_decimal. destruct (0 <=? y)%Z eqn:Ey; bool_hyps.
    + rewrite (Z.max_r 0 y), (Z.max_l 0 (- y)), Z.mul_1_r in Hv by lia.
      pose proof (Z.pow_pos_nonneg 10 y).
      destruct (Zpos t * 10 ^ y)%Z as [|p|p] eqn:Ep; [lia| |lia]. by apply binary_round_exact.
    + rewrite (Z.max_l 0 y), (Z.max_r 0 (- y)), Z.mul_1_r in Hv by lia.
      pose proof (Z.pow_pos_nonneg 10 (- y)).
      destruct (10 ^ (- y))%Z as [|p|p] eqn:Ep; [lia| |lia]. by apply div_core_exact.
Qed.

(** ** The search for the shortest decimal *)

Lemma shortest_from_reads fuel x neg p q n k j :
  (k ≤ j ≤ k + Z.of_nat fuel)%Z →
  Exists (λ c, num_of_decimal neg c.1 c.2 = x) (decimal_candidates p q n j) →
  num_of_decimal neg (shortest_from fuel x neg p q n k).1 (shortest_from fuel x neg p q n k).2 = x.
Proof.
  revert k. induction fuel as [|fuel IH]; intros k Hj Hex; cbn [shortest_from];
    (destruct (List.find _ _) as [c|] eqn:E;
      [apply find_some in E as [_ E]; by apply bool_decide_eq_true in E|]).
  - assert (j = k) as -> by lia. apply Exists_exists in Hex as (c & Hc & Heq).
    apply list_elem_of_In in Hc. pose proof (find_none _ _ E c Hc) as Hn. by apply bool_decide_eq_false in Hn.
  - apply IH; [|done]. destruct (decide (j = k)) as [->|]; [|lia].
    apply Exists_exists in Hex as (c & Hc & Heq).
    apply list_elem_of_In in Hc. pose proof (find_none _ _ E c Hc) as Hn. by apply bool_decide_eq_false in Hn.
Qed.

Lemma decimal_exponent_bound fuel p q n :
  (n - Z.of_nat fuel ≤ decimal_exponent fuel p q n ≤ n + Z.of_nat fuel)%Z.
Proof.
  revert p q n. induction fuel as [|fuel IH]; intros p q n; cbn [decimal_exponent]; [lia|].
  repeat case_match; [specialize (IH p (q * 10) (n + 1))%Z; lia| |lia].
  specialize (IH (p * 10) q (n - 1))%Z. lia.
Qed.

Lemma exact_quotient a b : (0 < b → a `mod` b = 0 → 2 * (a `mod` b) <? b = true)%Z.
Proof. intros Hb ->. apply Z.ltb_lt. lia. Qed.

(** With enough digits the candidate is the number itself. *)
Lemma candidate_exact m e n k :
  (0 ≤ k - n)%Z → (- e ≤ k - n)%Z →
  Exists (λ c, decimal_is (Z.of_N c.1) c.2 (Zpos m) e)
    (decimal_candidates (if (0 <=? e)%Z then Zpos m * 2 ^ e else Zpos m)
       (if (0 <=? e)%Z then 1 else 2 ^ (- e)) n k).
Proof.
  intros Hk Hke. unfold decimal_candidates.
  rewrite (proj2 (Z.leb_le _ _) Hk). set (t := (k - n)%Z) in *.
  pose proof (Z.pow_pos_nonneg 10 t). 
  destruct (0 <=? e)%Z eqn:He; bool_hyps.
  - rewrite Z.mod_1_r, Z.div_1_r. change (2 * 0 <? 1)%Z with true. cbn [orb].
    apply Exists_cons_hd. cbn [fst snd]. pose proof (Z.pow_pos_nonneg 2 e).
    rewrite Z2N.id by nia. unfold decimal_is.
    rewrite (Z.max_l 0 (n - k)), (Z.max_r 0 (- (n - k))), (Z.max_l 0 (- e)), (Z.max_r 0 e) by lia.
    replace (- (n - k))%Z with t by lia. ring.
  - assert (Hdiv : (Zpos m * 10 ^ t = Zpos m * 5 ^ t * 2 ^ (t + e) * 2 ^ (- e))%Z).
    { rewrite <- (Z.mul_assoc _ (2 ^ (t + e))), <- Z.pow_add_r by lia.
      replace (t + e + - e)%Z with t by lia. change 10%Z with (5 * 2)%Z. rewrite Z.pow_mul_l. ring. }
    pose proof (Z.pow_pos_nonneg 2 (- e)). pose proof (Z.pow_pos_nonneg 2 (t + e)).
    pose proof (Z.pow_pos_nonneg 5 t).
    rewrite exact_quotient by (rewrite ?Hdiv, ?Z.mod_mul; lia). cbn [orb].
    apply Exists_cons_hd. cbn [fst snd]. rewrite Hdiv, Z.div_mul by lia. rewrite Z2N.id by nia.
    unfold decimal_is.
    rewrite (Z.max_l 0 (n - k)), (Z.max_r 0 (- (n - k))), (Z.max_r 0 (- e)), (Z.max_l 0 e) by lia.
    replace (- (n - k))%Z with t by lia. rewrite Z.mul_1_r, Z.mul_1_r, <- Hdiv. done.
Qed.

(** The shortest decimal of a double reads back as the double. *)
Lemma shortest_decimal_reads_back s m e :
  num_ok (S754_finite s m e) →
  ∃ d y, shortest_decimal (S754_finite s m e) = (s, (d, y)) ∧
    num_of_decimal s d y = S754_finite s m e.
Proof.
  intros Hok. unfold num_ok, valid_binary in Hok. cbn [shortest_decimal].
  set (p := if (0 <=? e)%Z then _ else _). set (q := if (0 <=? e)%Z then 1%Z else _).
  set (n := decimal_exponent 800 p q 0).
  assert (-800 ≤ n ≤ 800)%Z as Hn by (pose proof (decimal_exponent_bound 800 p q 0); lia).
  assert (-1074 ≤ e)%Z as He.
  { unfold bounded, canonical_mantissa in Hok. bool_hyps. unfold fexp, emin in *. lia. }
  exists (shortest_from 1900 (S754_finite s m e) s p q n 1).1,
    (shortest_from 1900 (S754_finite s m e) s p q n 1).2.
  split; [by rewrite <- surjective_pairing|].
  apply shortest_from_reads with (j := Z.max 1 (n + Z.max 0 (- e))); [lia|].
  pose proof (candidate_exact m e n (Z.max 1 (n + Z.max 0 (- e))) ltac:(lia) ltac:(lia)) as Hc.
  eapply Exists_impl; [exact Hc|]. intros c Hcd. by apply num_of_decimal_exact.
Qed.

(** ** Digits in text *)

Definition digits (ds : jsstr) : Prop := Forall (λ c, is_digit c = true) ds.

(** A text that cannot continue a number literal. *)
Definition number_end (rest : jsstr) : Prop :=
  match rest with
  | c :: _ => is_digit c = false ∧ c ≠ 46%N ∧ c ≠ 101%N ∧ c ≠ 69%N
  | [] => True
  end.
Definition no_digit (rest : jsstr) : Prop :=
  match rest with c :: _ => is_digit c = false | [] => True end.

Lemma number_end_no_digit rest : number_end rest → no_digit rest.
Proof. destruct rest; simpl; tauto. Qed.

Lemma span_digits_app ds rest : digits ds → no_digit rest → span_digits (ds ++ rest) = (ds, rest).
Proof.
  intros Hds Hr. induction Hds as [|c ds Hc _ IH]; simpl.
  - destruct rest as [|c rest]; [done|]. simpl in *. by rewrite Hr.
  - by rewrite Hc, IH.
Qed.

Lemma string_of_N_digits n : digits (string_of_N n).
Proof. apply string_of_N_spec. Qed.
Lemma replicate_digits n : digits (replicate n 48%N).
Proof. apply Forall_replicate. done. Qed.
Lemma digits_app a b : digits (a ++ b) ↔ digits a ∧ digits b.
Proof. apply Forall_app. Qed.
#[local] Hint Resolve string_of_N_digits replicate_digits : graph_engineering.

Lemma parse_digits_zeros a n : parse_digits a (replicate n 48%N) = Some (a * 10 ^ N.of_nat n)%N.
Proof.
  revert a. induction n as [|n IH]; intros a; [simpl; f_equal; lia|].
  cbn [replicate parse_digits]. change (is_digit 48) with true. cbn [negb]. rewrite IH.
  f_equal. rewrite Nat2N.inj_succ, N.pow_succ_r'. lia.
Qed.

Lemma digits_value_string n : digits_value (string_of_N n) = n.
Proof. unfold digits_value. by rewrite parse_string_of_N. Qed.
Lemma digits_value_trailing n j :
  digits_value (string_of_N n ++ replicate j 48%N) = (n * 10 ^ N.of_nat j)%N.
Proof.
  unfold digits_value. by rewrite parse_digits_app, parse_string_of_N, parse_digits_zeros.
Qed.
Lemma digits_value_leading j ds : digits_value (replicate j 48%N ++ ds) = digits_value ds.
Proof. unfold digits_value. by rewrite parse_digits_app, parse_digits_zeros. Qed.

(** ** Reading a number literal *)

Definition fraction_text (frac : jsstr) : jsstr :=
  match frac with [] => [] | _ => 46%N :: frac end.

(** An integer part without a superfluous leading zero. *)
Definition integer_text (int : jsstr) : Prop :=
  digits int ∧ int ≠ [] ∧ (head int = Some 48%N → length int = 1%nat).

Lemma parse_fraction_text frac rest :
  digits frac → no_digit rest → (frac = [] → head rest ≠ Some 46%N) →
  parse_fraction (fraction_text frac ++ rest) = Some (frac, rest).
Proof.
  intros Hf Hr Hdot. destruct frac as [|c frac].
  - simpl. destruct rest as [|c rest]; [done|]. unfold parse_fraction. specialize (Hdot eq_refl).
    simpl in Hdot. repeat case_match; congruence.
  - unfold parse_fraction, fraction_text. cbn [app].
    change (c :: frac ++ rest) with ((c :: frac) ++ rest). by rewrite span_digits_app.
Qed.

Lemma parse_number_text (neg : bool) int frac ex e rest :
  integer_text int → digits frac → no_digit (ex ++ rest) → head (ex ++ rest) ≠ Some 46%N →
  parse_exponent (ex ++ rest) = Some (e, rest) →
  parse_number ((if neg then js "-" else []) ++ int ++ fraction_text frac ++ ex ++ rest) =
  Some (num_of_decimal neg (digits_value (int ++ frac)) (e - Z.of_nat (length frac)), rest).
Proof.
  intros (Hi & Hne & Hz) Hf Hend Hdot Hex. destruct int as [|c int]; [done|].
  assert (no_digit (fraction_text frac ++ ex ++ rest)) as Hnd by (by destruct frac).
  assert (is_digit c = true) as Hc by (by apply Forall_cons in Hi as [Hc _]).
  assert (c ≠ 45%N) as Hminus by (by intros ->).
  unfold parse_number. set (text := (if neg then js "-" else []) ++ _).
  assert ((match text with 45%N :: r => (true, r) | _ => (false, text) end) =
    (neg, (c :: int) ++ fraction_text frac ++ ex ++ rest)) as ->.
  { subst text. destruct neg; [done|]. cbn [app]. repeat case_match; congruence. }
  rewrite span_digits_app by done.
  assert ((c =? 48)%N && negb (length int =? 0)%nat = false) as ->.
  { destruct (c =? 48)%N eqn:E; [|done]. bool_hyps. subst c.
    specialize (Hz eq_refl). simpl in Hz. by destruct int. }
  rewrite parse_fraction_text by done. by rewrite Hex.
Qed.

Lemma parse_exponent_none rest : number_end rest → parse_exponent rest = Some (0%Z, rest).
Proof.
  destruct rest as [|c rest]; [done|]. intros (_ & _ & H1 & H2). unfold parse_exponent.
  by rewrite (proj2 (N.eqb_neq _ _) H1), (proj2 (N.eqb_neq _ _) H2).
Qed.

Lemma parse_exponent_digits d ds rest :
  digits (d :: ds) → number_end rest →
  parse_exponent (js "e+" ++ (d :: ds) ++ rest) = Some (Z.of_N (digits_value (d :: ds)), rest) ∧
  parse_exponent (js "e-" ++ (d :: ds) ++ rest) = Some (- Z.of_N (digits_value (d :: ds)), rest)%Z.
Proof.
  intros Hd Hr. pose proof (span_digits_app (d :: ds) rest Hd (number_end_no_digit _ Hr)) as Hs.
  unfold parse_exponent. split; change (js "e+") with [101; 43]%N; change (js "e-") with [101; 45]%N;
    cbn [app N.eqb Pos.eqb orb]; cbn [app] in Hs; rewrite Hs; do 2 f_equal; lia.
Qed.

(** The exponent part that [Number::toString] prints. *)
Lemma parse_exponent_text (n : Z) rest :
  number_end rest →
  parse_exponent ((js "e" ++ (if (0 <? n)%Z then js "+" else js "-") ++
    string_of_Z (Z.abs (n - 1))) ++ rest) = Some (n - 1, rest)%Z.
Proof.
  intros Hr. unfold string_of_Z. rewrite (proj2 (Z.ltb_ge (Z.abs (n - 1)) 0)) by lia.
  pose proof (string_of_N_digits (Z.to_N (Z.abs (n - 1)))) as Hd.
  pose proof (digits_value_string (Z.to_N (Z.abs (n - 1)))) as Hv.
  destruct (string_of_N (Z.to_N (Z.abs (n - 1)))) as [|d ds] eqn:E;
    [by apply string_of_N_spec in E|].
  destruct (parse_exponent_digits d ds rest Hd Hr) as [Hp Hm].
  rewrite Hv in Hp, Hm. destruct (0 <? n)%Z eqn:En; bool_hyps.
  - change ((js "e" ++ js "+" ++ d :: ds) ++ rest) with (js "e+" ++ (d :: ds) ++ rest).
    rewrite Hp. do 2 f_equal. lia.
  - change ((js "e" ++ js "-" ++ d :: ds) ++ rest) with (js "e-" ++ (d :: ds) ++ rest).
    rewrite Hm. do 2 f_equal. lia.
Qed.

(** ** Printed numbers read back *)

Lemma string_of_N_integer n : integer_text (string_of_N n).
Proof.
  destruct (string_of_N_spec n) as (_ & Hd & Hne & Hnz & Hz). split_and!; [done..|].
  intros Hh. destruct (decide (n = 0%N)) as [->|Hn]; [by rewrite Hz|]. by apply Hnz in Hh.
Qed.
Lemma string_of_N_head n : n ≠ 0%N → head (string_of_N n) ≠ Some 48%N.
Proof. apply string_of_N_spec. Qed.

Lemma integer_text_take ds i : digits ds → head ds ≠ Some 48%N → i ≠ 0%nat → ds ≠ [] → integer_text (take i ds).
Proof.
  intros Hd Hh Hi Hne. destruct ds as [|c ds]; [done|]. destruct i as [|i]; [done|].
  split_and!; [by apply Forall_take|done|]. simpl in *. congruence.
Qed.

Lemma number_end_dot rest : number_end rest → head rest ≠ Some 46%N.
Proof. destruct rest as [|c rest]; [done|]. simpl. intros (_ & Hc & _). congruence. Qed.

(** The text of the exponent part is not a digit or a dot. *)
Lemma exponent_head (n : Z) rest :
  let ex := js "e" ++ (if (0 <? n)%Z then js "+" else js "-") ++ string_of_Z (Z.abs (n - 1)) in
  no_digit (ex ++ rest) ∧ head (ex ++ rest) ≠ Some 46%N.
Proof. done. Qed.

Lemma parse_number_plain (neg : bool) int frac rest :
  integer_text int → digits frac → number_end rest →
  parse_number ((if neg then js "-" else []) ++ (int ++ fraction_text frac) ++ rest) =
  Some (num_of_decimal neg (digits_value (int ++ frac)) (- Z.of_nat (length frac)), rest).
Proof.
  intros Hi Hf Hr.
  pose proof (parse_number_text neg int frac [] 0 rest Hi Hf (number_end_no_digit _ Hr)
    (number_end_dot _ Hr) (parse_exponent_none _ Hr)) as H.
  rewrite Z.sub_0_l in H. rewrite <- H. cbn [app]. by rewrite <- !(assoc_L (++)).
Qed.

Lemma parse_number_exponent (neg : bool) int frac n rest :
  integer_text int → digits frac → number_end rest →
  parse_number ((if neg then js "-" else []) ++ (int ++ fraction_text frac ++
    js "e" ++ (if (0 <? n)%Z then js "+" else js "-") ++ string_of_Z (Z.abs (n - 1))) ++ rest) =
  Some (num_of_decimal neg (digits_value (int ++ frac)) (n - 1 - Z.of_nat (length frac)), rest).
Proof.
  intros Hi Hf Hr. destruct (exponent_head n rest) as [H1 H2].
  rewrite <- (parse_number_text neg int frac _ _ rest Hi Hf H1 H2 (parse_exponent_text n rest Hr)).
  by rewrite <- !(assoc_L (++)).
Qed.

(** The layouts of [Number::toString] denote the decimal they print. *)
Lemma parse_format_decimal (neg : bool) s x rest :
  s ≠ 0%N → number_end rest →
  parse_number ((if neg then js "-" else []) ++ format_decimal s x ++ rest) =
  Some (num_of_decimal neg s x, rest).
Proof.
  intros Hs Hr. rewrite <- num_of_decimal_strip by done. unfold format_decimal.
  destruct (strip_spec s x Hs) as (j & Hj & _ & Hv & Hm).
  destruct (strip s x) as [t y]. cbn [fst snd] in *.
  assert (t ≠ 0%N) as Ht by (by intros ->).
  pose proof (string_of_N_digits t) as Hd. pose proof (string_of_N_head t Ht) as Hh.
  pose proof (digits_value_string t) as Hval.
  assert (string_of_N t ≠ []) as Hne by apply string_of_N_spec.
  set (ds := string_of_N t) in *. set (k := Z.of_nat (length ds)). set (n := (y + k)%Z).
  assert (0 < k)%Z as Hk by (subst k; destruct ds; [done|simpl; lia]).
  assert (integer_text ds) as Hint by apply string_of_N_integer.
  clearbody ds.
  destruct ((k <=? n)%Z && (n <=? 21)%Z) eqn:E1; [|
  destruct ((0 <? n)%Z && (n <=? 21)%Z) eqn:E2; [|
  destruct ((-6 <? n)%Z && (n <=? 0)%Z) eqn:E3; [|
  destruct (k =? 1)%Z eqn:E4]]]; bool_hyps.
  - assert (integer_text (ds ++ replicate (Z.to_nat (n - k)) 48%N)) as Hi.
    { split_and!; [apply digits_app; auto with graph_engineering|by destruct ds|].
      destruct ds; simpl in *; congruence. }
    pose proof (parse_number_plain neg _ [] rest Hi (Forall_nil_2 _) Hr) as Hp.
    cbn [fraction_text] in Hp. rewrite !app_nil_r in Hp. rewrite Hp. do 2 f_equal.
    simpl Z.opp. rewrite <- (num_of_decimal_scale neg t y y) by lia.
    rewrite Z.sub_diag. f_equal.
    transitivity (t * 10 ^ N.of_nat (Z.to_nat (n - k)))%N; [|do 2 f_equal; lia].
    rewrite <- Hval. unfold digits_value.
    rewrite parse_digits_app.
    destruct (parse_digits 0 ds) as [v|] eqn:Ev; [|unfold digits_value in Hval; rewrite Ev in Hval; by subst t].
    by rewrite parse_digits_zeros.
  - assert (integer_text (take (Z.to_nat n) ds)) as Hi by (apply integer_text_take; [done..|lia|done]).
    destruct (drop (Z.to_nat n) ds) as [|c frac] eqn:Ef.
    { apply (f_equal length) in Ef. rewrite length_drop in Ef. simpl in Ef. lia. }
    assert (digits (c :: frac)) as Hf by (rewrite <- Ef; by apply Forall_drop).
    pose proof (parse_number_plain neg _ _ rest Hi Hf Hr) as Hp.
    assert (take (Z.to_nat n) ds ++ c :: frac = ds) as Hsplit by (rewrite <- Ef; apply take_drop).
    rewrite Hsplit, Hval in Hp. etrans; [exact Hp|]. do 3 f_equal.
    rewrite <- Ef, length_drop. lia.
  - change (js "0." ++ replicate (Z.to_nat (- n)) 48%N ++ ds) with
      ([48%N] ++ 46%N :: replicate (Z.to_nat (- n)) 48%N ++ ds).
    assert (digits (replicate (Z.to_nat (- n)) 48%N ++ ds)) as Hf
      by (apply digits_app; auto with graph_engineering).
    assert (length (replicate (Z.to_nat (- n)) 48%N ++ ds) = Z.to_nat (k - n)) as Hl
      by (rewrite length_app, length_replicate; lia).
    assert (digits_value ([48%N] ++ replicate (Z.to_nat (- n)) 48%N ++ ds) = t) as Hv'.
    { rewrite (digits_value_leading 1). by rewrite digits_value_leading. }
    destruct (replicate (Z.to_nat (- n)) 48%N ++ ds) as [|c frac] eqn:Ef; [simpl in Hl; lia|].
    change (46%N :: c :: frac) with (fraction_text (c :: frac)).
    rewrite parse_number_plain by (done || (split_and!; [by repeat constructor|done..])).
    rewrite Hv', Hl. do 3 f_equal. lia.
  - pose proof (parse_number_exponent neg ds [] n rest Hint (Forall_nil_2 _) Hr) as Hp.
    cbn [fraction_text app] in Hp. rewrite Hp, app_nil_r, Hval. do 3 f_equal. simpl length. lia.
  - destruct ds as [|c frac]; [done|]. cbn [take drop].
    destruct frac as [|c' frac]; [simpl in *; lia|].
    assert (digits (c' :: frac)) as Hf by (by apply Forall_cons in Hd as [_ Hd]).
    assert (integer_text [c]) as Hi by (split_and!; [by apply Forall_cons in Hd as [Hd _]; constructor|done..]).
    pose proof (parse_number_exponent neg [c] (c' :: frac) n rest Hi Hf Hr) as Hp.
    etrans; [exact Hp|]. change ([c] ++ c' :: frac) with (c :: c' :: frac). rewrite Hval.
    do 3 f_equal. simpl length in *. lia.
Qed.

Lemma string_of_Z_sign z :
  string_of_Z z = (if (z <? 0)%Z then js "-" else []) ++ string_of_N (Z.to_N (Z.abs z)).
Proof.
  unfold string_of_Z. destruct (z <? 0)%Z eqn:E; bool_hyps; cbn [app];
    [change (js "-") with [45%N]; cbn [app]; f_equal|]; do 2 f_equal; lia.
Qed.

(** A safe integer is printed exactly. *)
Lemma safe_integer_exact s m e :
  num_integer (S754_finite s m e) = true →
  decimal_is (Z.of_N (Z.to_N (Z.abs (num_trunc (S754_finite s m e))))) 0 (Zpos m) e ∧
  (num_trunc (S754_finite s m e) <? 0)%Z = s.
Proof.
  intros Hi. destruct (num_integer_parts _ Hi) as (m' & e' & [= <- <-] & Hs).
  specialize (Hs (Z.min 0 e) ltac:(lia) ltac:(lia)).
  replace (e - Z.min 0 e)%Z with (Z.max 0 e) in Hs by lia.
  replace (- Z.min 0 e)%Z with (Z.max 0 (- e)) in Hs by lia.
  set (z := num_trunc _) in *. clearbody z. unfold decimal_is. rewrite Z2N.id by lia.
  pose proof (Z.pow_pos_nonneg 2 (Z.max 0 (- e))). pose proof (Z.pow_pos_nonneg 2 (Z.max 0 e)).
  rewrite cond_Zopp_spec in Hs. simpl (10 ^ _)%Z. rewrite !Z.mul_1_r.
  destruct s; split.
  - assert (z < 0)%Z by nia. nia.
  - apply Z.ltb_lt. nia.
  - assert (0 < z)%Z by nia. nia.
  - apply Z.ltb_ge. nia.
Qed.

(** [JSON.parse] of the text of a number is the number; negative zero is printed
    as zero. *)
Lemma parse_string_of_num x rest :
  num_ok x → num_finite x = true → number_end rest →
  parse_number (string_of_num x ++ rest) = Some (num_unsign_zero x, rest).
Proof.
  intros Hok Hf Hr. destruct x as [s|s| |s m e]; [|done..|].
  - pose proof (parse_number_plain false [48%N] [] rest) as Hp. cbn [fraction_text] in Hp.
    apply Hp; [|constructor|done]. split_and!; [by repeat constructor|done..].
  - cbn [string_of_num num_unsign_zero]. destruct (num_safe_integer _) eqn:Es.
    + apply num_safe_integer_integer, safe_integer_exact in Es as [Hd Hs].
      rewrite string_of_Z_sign, Hs. set (n := Z.to_N _) in *.
      pose proof (parse_number_plain s _ [] rest (string_of_N_integer n) (Forall_nil_2 _) Hr) as Hp.
      cbn [fraction_text] in Hp. rewrite !app_nil_r in Hp. rewrite <- (assoc_L (++)).
      etrans; [exact Hp|]. rewrite digits_value_string. do 2 f_equal.
      by apply num_of_decimal_exact.
    + destruct (shortest_decimal_reads_back s m e Hok) as (d & y & -> & Hd).
      rewrite <- (assoc_L (++)). rewrite parse_format_decimal; [by rewrite Hd| |done].
      intros ->. unfold num_of_decimal in Hd.
      change (strip 0 y) with (0%N, y) in Hd. cbv beta iota in Hd.
      change (Z.of_N 0 * 10 ^ y)%Z with 0%Z in Hd. by case_match.
Qed.

(** The text of a finite number starts with a digit or a minus sign. *)
Lemma string_of_num_head x :
  num_finite x = true →
  ∃ c t, string_of_num x = c :: t ∧ (is_digit c = true ∨ c = 45%N).
Proof.
  assert (Hsign : ∀ (neg : bool) ds, digits (take 1 ds) → ds ≠ [] →
    ∃ c t, (if neg then js "-" else []) ++ ds = c :: t ∧ (is_digit c = true ∨ c = 45%N)).
  { intros neg ds Hd Hne. destruct neg; [by eexists _, _; split; [done|right]|].
    destruct ds as [|c ds]; [done|]. eexists _, _. split; [done|left].
    by apply Forall_cons in Hd as [Hd _]. }
  intros Hf. destruct x as [s|s| |s m e]; [by eexists _, _; split; [done|left]|done..|].
  cbn [string_of_num]. destruct (num_safe_integer _).
  - rewrite string_of_Z_sign. apply Hsign; [apply Forall_take, string_of_N_digits|].
    apply string_of_N_spec.
  - destruct (shortest_decimal _) as [neg [d y]].
    enough (digits (take 1 (format_decimal d y)) ∧ format_decimal d y ≠ []) as [? ?] by by apply Hsign.
    unfold format_decimal. destruct (strip d y) as [t z]. pose proof (string_of_N_digits t) as Hd.
    assert (string_of_N t ≠ []) as Hne by apply string_of_N_spec.
    destruct (string_of_N t) as [|c ds]; [done|]. apply Forall_cons in Hd as [Hc Hd].
    assert (digits [c]) as H1 by by constructor.
    repeat case_match; try (split; [by constructor|done]).
    all: destruct (Z.to_nat _) as [|i] eqn:Ei; [exfalso; bool_hyps; lia|done].
Qed.
