(* ===== verification/Canonical.v ===== *)
(** * Canonical JSON (packages/core/src/canonical.ts)

    [captureValue] inspects a caller's value through property descriptors and
    detaches it into a JSON tree; [serializeCaptured] prints the tree with its
    object keys sorted by code point.  The recursion of [captureValue] is fuelled:
    one unit per object on the current path, so the size of the heap is enough. *)
From Stdlib Require Import SpecFloat.
From S2P Require Import Prelude JsString JsNumber JsValue JsonText.

(** ** Errors *)

(** [OutOfFuel] is not an outcome of the program; [captureCanonicalJson_fuel]
    shows that it never occurs. *)
Inductive capture_error : Type :=
  | CanonicalizationError (message path : jsstr)
  | OutOfFuel.

(** [invalid(message, path)]: the constructor appends the path to the message *)
Definition invalid {A} (message path : jsstr) : result capture_error A :=
  Err (CanonicalizationError (message ++ js " at " ++ path) path).

Definition child (path segment : jsstr) : jsstr := path ++ js "/" ++ segment.

(** ** Capture *)

(** [dataDescriptor(value, key, path)] *)
Definition dataDescriptor (o : object) (key path : jsstr) : result capture_error value :=
  match own_descriptor o key with
  | None | Some (Accessor _) => invalid (js "Accessor properties are not supported") path
  | Some (Data v enumerable) =>
      if enumerable then Ok v
      else invalid (js "Non-enumerable properties are not portable JSON") path
  end.

(** [Number(name)], when it is an index of an array of this length and
    [String(index) === name] *)
Definition index_name (length : nat) (name : jsstr) : option nat :=
  match parse_digits 0 name with
  | Some i =>
      if (N.to_nat i <? length)%nat && bool_decide (string_of_N i = name)
      then Some (N.to_nat i) else None
  | None => None
  end.

(** The first loop of [captureArray]: the index names, or the first extra one *)
Fixpoint index_names (length : nat) (path : jsstr) (names : list jsstr)
    : result capture_error (list (nat * jsstr)) :=
  match names with
  | [] => Ok []
  | name :: names =>
      if bool_decide (name = key_length) then index_names length path names
      else match index_name length name with
      | None =>
          invalid (js "Extra array properties are not portable JSON")
            (child path (pointerSegment name))
      | Some i => rest ← index_names length path names; Ok ((i, name) :: rest)
      end
  end.

(** The second loop: how many names are consecutive from [expected] on *)
Fixpoint consecutive (expected : nat) (indices : list nat) : nat :=
  match indices with
  | i :: indices => if (i =? expected)%nat then consecutive (S expected) indices else expected
  | [] => expected
  end.

Definition compare_positions (p q : nat * jsstr) : Z := (Z.of_nat p.1 - Z.of_nat q.1)%Z.

Section capture_steps.
Context (capture : value → jsstr → list loc → result capture_error json).

Definition captureArray (o : object) (l : loc) (path : jsstr) (ancestors : list loc)
    : result capture_error json :=
  if negb (bool_decide (o_proto o = ProtoArray)) then
    invalid (js "Only ordinary arrays are supported") path
  else if (0 <? o_symbols o)%nat then
    invalid (js "Symbol keys are not valid JSON array keys") path
  else
    names ← index_names (o_length o) path (own_names o);
    let indexNames := sort_by compare_positions names in
    let expected := consecutive 0 indexNames.*1 in
    if negb (expected =? o_length o)%nat then
      invalid (js "Sparse arrays are not valid canonical JSON") (child path (string_of_nat expected))
    else
      captured ← traverse (λ name,
        v ← dataDescriptor o name (child path name);
        capture v (child path name) (l :: ancestors)) indexNames.*2;
      Ok (JArr captured).

Definition captureObject (o : object) (l : loc) (path : jsstr) (ancestors : list loc)
    : result capture_error json :=
  if negb (bool_decide (o_proto o = ProtoObject ∨ o_proto o = ProtoNull)) then
    invalid (js "Only plain JSON objects are supported") path
  else if (0 <? o_symbols o)%nat then
    invalid (js "Symbol keys are not valid JSON object keys") path
  else
    captured ← traverse (λ key,
      let childPath := child path (pointerSegment key) in
      v ← dataDescriptor o key childPath;
      j ← capture v childPath (l :: ancestors);
      Ok (key, j)) (sort_by compareUnicodeCodePoints (own_names o));
    Ok (JObj (own_order captured)).
End capture_steps.

Fixpoint captureValue (h : heap) (fuel : nat) (v : value) (path : jsstr) (ancestors : list loc)
    : result capture_error json :=
  match v with
  | VNull => Ok JNull
  | VStr s => Ok (JStr s)
  | VBool b => Ok (JBool b)
  | VNum n =>
      if negb (num_finite n) then invalid (js "Only finite JSON numbers are supported") path
      else if num_integer n && negb (num_safe_integer n) then
        invalid (js "JSON integers must be within the interoperable safe-integer range") path
      else Ok (JNum (num_unsign_zero n))
  | VUndefined | VBigInt _ | VFunction | VSymbol =>
      invalid (js "Unsupported JSON value " ++ type_of v) path
  | VObj l =>
      let o := deref h l in
      if o_proxy o then invalid (js "Proxy values are not supported") path
      else if bool_decide (l ∈ ancestors) then
        invalid (js "Cyclic values cannot be canonicalized") path
      else match fuel with
      | 0 => Err OutOfFuel
      | S fuel =>
          if o_array o then captureArray (captureValue h fuel) o l path ancestors
          else captureObject (captureValue h fuel) o l path ancestors
      end
  end.

(** ** Serialization *)

Definition compare_keys {A} (p q : jsstr * A) : Z := compareUnicodeCodePoints p.1 q.1.

Fixpoint serializeCaptured (j : json) : jsstr :=
  match j with
  | JNull => js "null"
  | JStr s => quote_string s
  | JBool b => if b then js "true" else js "false"
  | JNum n => string_of_num n
  | JArr items => js "[" ++ join (js ",") (map serializeCaptured items) ++ js "]"
  | JObj props =>
      js "{" ++
      join (js ",") ((λ p : jsstr * jsstr, quote_string p.1 ++ js ":" ++ p.2) <$>
        sort_by compare_keys (map (λ p, (p.1, serializeCaptured p.2)) props)) ++
      js "}"
  end.

(** [captureCanonicalJson(value)]: the captured tree and its canonical text *)
Definition captureCanonicalJson (h : heap) (v : value) : result capture_error (json * jsstr) :=
  captured ← captureValue h (S (size h)) v (js "#") [];
  Ok (captured, serializeCaptured captured).

(** [canonicalSerialize(value)] *)
Definition canonicalSerialize (h : heap) (v : value) : result capture_error jsstr :=
  snd <$> captureCanonicalJson h v.

(** [canonicalHash(value)], with the SHA-256 digest as a parameter *)
Definition canonicalHash (sha256 : jsstr → jsstr) (h : heap) (v : value)
    : result capture_error jsstr :=
  (λ c, sha256 c.2) <$> captureCanonicalJson h v.
