(* ===== verification/CanonicalSpec.v ===== *)
(** * What canonicalization promises

    [portable h v j] says, without an algorithm, that the caller value [v] is
    portable JSON and [j] its detached tree.  The theorems show that
    [captureCanonicalJson] terminates on every heap, cyclic ones included, and
    computes exactly this relation. *)
From Stdlib Require Import SpecFloat.
From S2P Require Import Prelude JsString JsNumber JsValue JsonText Canonical.

(** ** Specification *)

(** An ordinary dense array of enumerable data entries. *)
Definition array_of (o : object) (vs : list value) : Prop :=
  o_proxy o = false ∧ o_array o = true ∧ o_proto o = ProtoArray ∧ o_symbols o = 0 ∧
  o_length o = length vs ∧
  o_props o ≡ₚ zip (string_of_nat <$> seq 0 (length vs)) ((λ v, Data v true) <$> vs).

(** A plain object of enumerable data properties; [ps] lists them in code-point
    order of their keys. *)
Definition record_of (o : object) (ps : list (jsstr * value)) : Prop :=
  o_proxy o = false ∧ o_array o = false ∧ (o_proto o = ProtoObject ∨ o_proto o = ProtoNull) ∧
  o_symbols o = 0 ∧ StronglySorted (cmp_le compare_keys) ps ∧
  o_props o ≡ₚ zip ps.*1 ((λ v, Data v true) <$> ps.*2).

(** [v] is plain data, and [j] its detached tree; every number in it is a [number]. *)
Inductive plain_data (number : num → Prop) (h : heap) : value → json → Prop :=
  | data_null : plain_data number h VNull JNull
  | data_bool b : plain_data number h (VBool b) (JBool b)
  | data_str s : plain_data number h (VStr s) (JStr s)
  | data_num n :
      num_finite n = true → number n → plain_data number h (VNum n) (JNum (num_unsign_zero n))
  | data_arr l vs items :
      array_of (deref h l) vs → Forall2 (plain_data number h) vs items →
      plain_data number h (VObj l) (JArr items)
  | data_obj l ps js :
      record_of (deref h l) ps → Forall2 (plain_data number h) ps.*2 js →
      plain_data number h (VObj l) (JObj (own_order (zip ps.*1 js))).
Arguments data_arr {number} h l vs items.
Arguments data_obj {number} h l ps js.

(** Portable JSON: plain data whose integers are safe *)
Abbreviation safe_number := (λ n, num_integer n = true → num_safe_integer n = true).
Abbreviation portable := (plain_data safe_number).

(** The core accepts safe integers only. *)
Fixpoint interoperable_b (j : json) : bool :=
  match j with
  | JNum n => negb (num_integer n) || num_safe_integer n
  | JArr items => forallb interoperable_b items
  | JObj props => forallb (λ p, interoperable_b p.2) props
  | _ => true
  end.
Definition interoperable (j : json) : Prop := interoperable_b j = true.

Lemma interoperable_unsign n :
  interoperable (JNum (num_unsign_zero n)) ↔ (num_integer n = true → num_safe_integer n = true).
Proof.
  unfold interoperable. cbn [interoperable_b].
  replace (num_integer (num_unsign_zero n)) with (num_integer n) by (by destruct n).
  replace (num_safe_integer (num_unsign_zero n)) with (num_safe_integer n) by (by destruct n).
  destruct (num_integer n), (num_safe_integer n); naive_solver.
Qed.

Lemma interoperable_arr items : interoperable (JArr items) ↔ Forall interoperable items.
Proof. unfold interoperable. cbn [interoperable_b]. by rewrite forallb_Forall. Qed.

(** The number of nodes of a tree. *)
Fixpoint json_size (j : json) : nat :=
  match j with
  | JArr items => S (sum_list (map json_size items))
  | JObj props => S (sum_list (map (λ p, json_size p.2) props))
  | _ => 1
  end.

(** A heap that ordinary code builds: no proxies, and arrays are plain. *)
Definition ordinary (h : heap) : Prop :=
  ∀ l o, h !! l = Some o → o_proxy o = false ∧ o_throws o = false ∧ (o_array o = true → o_proto o = ProtoArray).

#[export] Instance ordinary_dec h : Decision (ordinary h).
Proof.
  apply (decide (map_Forall (λ _ o,
    o_proxy o = false ∧ o_throws o = false ∧ (o_array o = true → o_proto o = ProtoArray)) h)).
Defined.

Lemma ordinary_deref h l :
  ordinary h → o_proxy (deref h l) = false ∧ o_throws (deref h l) = false ∧
  (o_array (deref h l) = true → o_proto (deref h l) = ProtoArray).
Proof. intros H. unfold deref. destruct (h !! l) as [o|] eqn:E; simpl; [by apply (H l)|done]. Qed.

(** ** Lemmas on the loops of [captureArray] *)
Lemma index_name_Some len name i :
  index_name len name = Some i ↔ name = string_of_nat i ∧ i < len.
Proof.
  unfold index_name, string_of_nat. split.
  - destruct (parse_digits 0 name) as [n|] eqn:E; [|done].
    destruct ((N.to_nat n <? len)%nat && _) eqn:E2; [|done].
    intros [= <-]. bool_hyps. apply bool_decide_eq_true in H0. by rewrite N2Nat.id.
  - intros [-> Hi]. rewrite parse_string_of_N, Nat2N.id, bool_decide_eq_true_2 by done.
    by rewrite (proj2 (Nat.ltb_lt _ _)).
Qed.

Lemma index_names_spec len path names ps :
  index_names len path names = Ok ps ↔
  Forall (λ p, index_name len p.2 = Some p.1) ps ∧ ps.*2 = filter (.≠ key_length) names.
Proof.
  revert ps. induction names as [|name names IH]; intros ps; simpl.
  - split; [by intros [= <-]|]. intros [_ Hps]. by destruct ps.
  - case_bool_decide as Hk.
    { rewrite filter_cons_False by (by intros H). apply IH. }
    rewrite filter_cons_True by done. split.
    + destruct (index_name len name) as [i|] eqn:Hi; [|done]. intros H. inv_ok.
      apply IH in E as [Hall Hmap]. split; [by constructor|]. csimpl. by f_equal.
    + intros [Hall Hmap]. destruct ps as [|[i n] ps]; [done|]. csimpl in Hmap.
      injection Hmap as -> Hmap. apply Forall_cons in Hall as [Hi Hall]. simpl in Hi.
      rewrite Hi. by rewrite (proj2 (IH ps)).
Qed.

Lemma consecutive_seq k n ixs :
  k ≤ n → StronglySorted lt ixs → Forall (λ i, k ≤ i < n) ixs →
  consecutive k ixs = n → ixs = seq k (n - k).
Proof.
  revert k. induction ixs as [|i ixs IH]; intros k Hk Hsort Hall; simpl.
  - intros ->. by rewrite Nat.sub_diag.
  - apply StronglySorted_inv in Hsort as [Hsort Hlt]. apply Forall_cons in Hall as [Hi Hall].
    destruct (i =? k) eqn:E; bool_hyps; [|intros ->; lia]. subst i. intros Hc.
    replace (n - k) with (S (n - S k)) by lia. simpl. f_equal.
    apply IH; [lia|done| |done].
    apply Forall_forall. intros j Hj. rewrite Forall_forall in Hlt, Hall.
    specialize (Hlt j Hj). specialize (Hall j Hj). lia.
Qed.

Lemma consecutive_of_seq k m : consecutive k (seq k m) = k + m.
Proof.
  revert k. induction m as [|m IH]; intros k; simpl; [lia|].
  rewrite Nat.eqb_refl, IH. lia.
Qed.

#[export] Instance compare_positions_comparator : Comparator compare_positions.
Proof. split; unfold cmp_le, compare_positions; intros; lia. Qed.

Lemma sorted_positions_lt ps :
  StronglySorted (cmp_le compare_positions) ps → NoDup ps.*1 → StronglySorted lt ps.*1.
Proof.
  induction 1 as [|p ps Hs IH Hp]; csimpl; [constructor|]. intros Hnd.
  apply NoDup_cons in Hnd as [Hn Hnd]. constructor; [by apply IH|].
  apply Forall_fmap, Forall_forall. intros q Hq. simpl.
  rewrite Forall_forall in Hp. specialize (Hp q Hq). unfold cmp_le, compare_positions in Hp.
  assert (p.1 ≠ q.1); [|lia]. intros Heq. apply Hn. rewrite Heq. by apply list_elem_of_fmap_2.
Qed.

(** The names of a dense array, whatever order they are reported in. *)
Lemma array_names o ps path :
  object_wf o → o_array o = true → index_names (o_length o) path (own_names o) = Ok ps →
  consecutive 0 (sort_by compare_positions ps).*1 = o_length o →
  (sort_by compare_positions ps).*2 = string_of_nat <$> seq 0 (o_length o) ∧
  string_of_nat <$> seq 0 (o_length o) ≡ₚ (o_props o).*1.
Proof.
  intros (Hnd & _ & Hlen) Ha Hps Hc. specialize (Hlen Ha).
  apply index_names_spec in Hps as [Hall Hnames].
  assert (Hps2 : ps.*2 = (o_props o).*1).
  { rewrite Hnames. unfold own_names. rewrite Ha, filter_app, filter_cons_False, filter_nil, app_nil_r by auto.
    apply filter_id. intros k Hk ->. done. }
  assert (Hpos : ∀ p, p ∈ ps → p.2 = string_of_nat p.1 ∧ p.1 < o_length o).
  { intros p Hp. rewrite Forall_forall in Hall. by apply index_name_Some, Hall. }
  assert (Hmap : ps.*2 = string_of_nat <$> ps.*1).
  { rewrite <- list_fmap_compose. apply list_fmap_ext. intros i p Hp. simpl.
    apply Hpos. by eapply list_elem_of_lookup_2. }
  assert (NoDup ps.*1) as Hnd1.
  { apply (NoDup_fmap_1 string_of_nat). by rewrite <- Hmap, Hps2. }
  set (sp := sort_by compare_positions ps) in *.
  assert (Hperm : sp ≡ₚ ps) by apply sort_by_Permutation.
  assert (Hseq : sp.*1 = seq 0 (o_length o)).
  { rewrite <- (Nat.sub_0_r (o_length o)). apply consecutive_seq; [lia| | |done].
    - apply sorted_positions_lt; [apply sort_by_sorted, _|]. by rewrite Hperm.
    - apply Forall_fmap, Forall_forall. intros p Hp. rewrite Hperm in Hp. simpl.
      apply Hpos in Hp. lia. }
  assert (Hsp : sp.*2 = string_of_nat <$> sp.*1).
  { rewrite <- list_fmap_compose. apply list_fmap_ext. intros i p Hp. simpl.
    apply Hpos. rewrite <- Hperm. by eapply list_elem_of_lookup_2. }
  rewrite <- Hseq. split; [done|]. rewrite <- Hps2, <- Hsp. by rewrite Hperm.
Qed.

Lemma dataDescriptor_Ok o k path v :
  dataDescriptor o k path = Ok v ↔ own_descriptor o k = Some (Data v true).
Proof.
  unfold dataDescriptor. destruct (own_descriptor o k) as [[w []|]|];
    unfold invalid; split; congruence.
Qed.

Lemma own_descriptor_props o k :
  o_array o = false ∨ k ≠ key_length → own_descriptor o k = map_get k (o_props o).
Proof.
  intros H. unfold own_descriptor. destruct (o_array o) eqn:E; simpl; [|done].
  rewrite bool_decide_eq_false_2; [done|]. by destruct H.
Qed.

(** ** Soundness *)
Lemma captureArray_sound h (capture : value → jsstr → list loc → result capture_error json)
    l path ancestors j :
  heap_wf h → o_proxy (deref h l) = false → o_array (deref h l) = true →
  (∀ v p a j, capture v p a = Ok j → portable h v j) →
  captureArray capture (deref h l) l path ancestors = Ok j → portable h (VObj l) j.
Proof.
  intros Hh Hproxy Harr Hcap. pose proof (deref_wf h l Hh) as Hwf. revert Hwf Hproxy Harr.
  unfold captureArray. set (o := deref h l). intros Hwf Hproxy Harr.
  intros H. split_if in H as Hproto; [done|]. split_if in H as Hsym; [done|].
  inv_ok. cbv zeta in H. split_if in H as Hlen; [done|]. inv_ok. bool_hyps.
  apply bool_decide_eq_true in Hproto.
  destruct (array_names o a path Hwf Harr E) as [Hnames Hperm]; [done|].
  apply traverse_Forall2 in E0. rewrite Hnames in E0.
  assert (E1 : Forall2 (λ name j, ∃ v, map_get name (o_props o) = Some (Data v true) ∧ portable h v j)
    (string_of_nat <$> seq 0 (o_length o)) a0).
  { eapply Forall2_impl; [done|]. intros name y Hy. simpl in Hy. inv_ok.
    apply dataDescriptor_Ok in E1. exists a1. split; [|by eapply Hcap].
    rewrite <- E1. symmetry. apply own_descriptor_props. right.
    destruct (decide (name = key_length)) as [->|]; [|done].
    unfold own_descriptor in E1. by rewrite Harr, bool_decide_eq_true_2 in E1. }
  apply Forall2_split in E1 as (vs & Hget & Hp).
  assert (o_length o = length vs) as Hl.
  { apply Forall2_length in Hget. by rewrite length_fmap, length_seq in Hget. }
  apply (data_arr _ _ vs); [|done].
  unfold array_of. fold o. split_and!; try done; [lia|]. rewrite <- Hl. apply zip_Permutation; [apply Hwf|done|].
  apply Forall2_fmap_r. eapply Forall2_impl; [done|]. done.
Qed.

Lemma captureObject_sound h (capture : value → jsstr → list loc → result capture_error json)
    l path ancestors j :
  heap_wf h → o_proxy (deref h l) = false → o_array (deref h l) = false →
  (∀ v p a j, capture v p a = Ok j → portable h v j) →
  captureObject capture (deref h l) l path ancestors = Ok j → portable h (VObj l) j.
Proof.
  intros Hh Hproxy Harr Hcap. pose proof (deref_wf h l Hh) as Hwf. revert Hwf Hproxy Harr.
  unfold captureObject. set (o := deref h l). intros Hwf Hproxy Harr.
  intros H. split_if in H as Hproto; [done|]. split_if in H as Hsym; [done|].
  inv_ok. bool_hyps.
  apply bool_decide_eq_true in Hproto.
  set (ks := sort_by compareUnicodeCodePoints (own_names o)) in *.
  apply traverse_Forall2 in E.
  assert (E1 : Forall2 (λ k p, ∃ v, map_get k (o_props o) = Some (Data v true) ∧
      portable h v p.2) ks a).
  { eapply Forall2_impl; [done|]. intros k y Hy. simpl in Hy. inv_ok.
    apply dataDescriptor_Ok in E0. exists a0. rewrite own_descriptor_props in E0 by auto.
    split; [done|]. by eapply Hcap. }
  apply (Forall2_split _ (λ v p, portable h v p.2)) in E1 as (vs & Hget & Hp).
  assert (length ks = length vs) as Hlen by (by eapply Forall2_length).
  assert (a.*1 = ks) as Ha1.
  { clear -E. induction E as [|k p ks a Hp _ IH]; csimpl; [done|]. rewrite IH. inv_ok. done. }
  assert (Ha2 : Forall2 (portable h) vs a.*2).
  { apply Forall2_fmap_r. done. }
  assert (ks ≡ₚ (o_props o).*1) as Hks.
  { unfold ks, own_names. by rewrite sort_by_Permutation, Harr, app_nil_r. }
  assert (Hk1 : (zip ks vs).*1 = ks) by (apply fst_zip; lia).
  assert (Hk2 : (zip ks vs).*2 = vs) by (apply snd_zip; lia).
  assert (Ha : a = zip (zip ks vs).*1 a.*2).
  { rewrite Hk1, <- Ha1. symmetry. apply zip_fst_snd. }
  rewrite Ha. apply data_obj; [|by rewrite Hk2].
  unfold record_of. fold o. split_and!; try done; [lia| |].
  - apply (StronglySorted_fmap_inv fst _ (cmp_le compareUnicodeCodePoints)); [done|].
    rewrite Hk1. apply sort_by_sorted, _.
  - rewrite Hk1, Hk2. apply zip_Permutation; [apply Hwf|done|].
    apply Forall2_fmap_r. eapply Forall2_impl; [done|]. done.
Qed.

Lemma captureValue_sound h fuel v path ancestors j :
  heap_wf h → captureValue h fuel v path ancestors = Ok j → portable h v j.
Proof.
  intros Hh. revert v path ancestors j.
  induction fuel as [|fuel IH]; intros v path ancestors j; destruct v; simpl;
    try (intros H; inv_ok; by constructor); try done.
  all: try (intros H; destruct (negb (num_finite n)) eqn:?; [done|];
    destruct (num_integer n && negb (num_safe_integer n)) eqn:Hn; [done|]; inv_ok; bool_hyps;
    constructor; [done|]; intros Hi; rewrite Hi in Hn; simpl in Hn; by bool_hyps).
  all: destruct (o_proxy (deref h l)) eqn:Hproxy; [done|];
    case_bool_decide; [done|]; [..]; try done.
  destruct (o_array (deref h l)) eqn:Harr.
  - by apply captureArray_sound.
  - by apply captureObject_sound.
Qed.

(** ** The specification is functional *)
Lemma zip_data_lookup o ks vs :
  o_props o ≡ₚ zip ks ((λ v, Data v true) <$> vs) → NoDup (o_props o).*1 →
  length ks = length vs → Forall2 (λ k v, map_get k (o_props o) = Some (Data v true)) ks vs.
Proof.
  intros Hp Hnd Hlen. apply Forall2_same_length_lookup_2; [done|].
  intros i k v Hk Hv. apply map_get_NoDup; [done|]. rewrite Hp.
  apply list_elem_of_lookup. exists i. by rewrite lookup_zip_with, list_lookup_fmap, Hk, Hv.
Qed.

Lemma Forall2_functional {A B} (R : A → option B) l k1 k2 :
  Forall2 (λ x y, R x = Some y) l k1 → Forall2 (λ x y, R x = Some y) l k2 → k1 = k2.
Proof.
  intros H. revert k2. induction H as [|x y l k1 Hx _ IH]; intros k2 H2; inversion H2; [done|].
  subst. f_equal; [congruence|]. by apply IH.
Qed.

Lemma data_entries_functional o ks vs1 vs2 :
  Forall2 (λ k v, map_get k (o_props o) = Some (Data v true)) ks vs1 →
  Forall2 (λ k v, map_get k (o_props o) = Some (Data v true)) ks vs2 → vs1 = vs2.
Proof.
  intros H1 H2.
  set (entry := λ k, match map_get k (o_props o) with Some (Data v _) => Some v | _ => None end).
  assert (Hall : ∀ vs, Forall2 (λ k v, map_get k (o_props o) = Some (Data v true)) ks vs →
    Forall2 (λ k v, entry k = Some v) ks vs).
  { intros vs H. eapply Forall2_impl; [done|]. intros k v Hv. unfold entry. by rewrite Hv. }
  apply (Forall2_functional entry ks); by apply Hall.
Qed.

Lemma array_of_entries h l vs :
  heap_wf h → array_of (deref h l) vs →
  Forall2 (λ k v, map_get k (o_props (deref h l)) = Some (Data v true))
    (string_of_nat <$> seq 0 (length vs)) vs.
Proof.
  intros Hh (_ & _ & _ & _ & _ & Hp). apply zip_data_lookup; [done| |].
  - apply (deref_wf h l Hh).
  - by rewrite length_fmap, length_seq.
Qed.

Lemma record_of_entries h l ps :
  heap_wf h → record_of (deref h l) ps →
  Forall2 (λ k v, map_get k (o_props (deref h l)) = Some (Data v true)) ps.*1 ps.*2.
Proof.
  intros Hh (_ & _ & _ & _ & _ & Hp). apply zip_data_lookup; [done| |].
  - apply (deref_wf h l Hh).
  - by rewrite !length_fmap.
Qed.

(** The keys of a record in code-point order. *)
Lemma record_of_keys h l ps :
  heap_wf h → record_of (deref h l) ps →
  ps.*1 = sort_by compareUnicodeCodePoints (own_names (deref h l)).
Proof.
  intros Hh (_ & Harr & _ & _ & Hs & Hp).
  destruct (deref_wf h l Hh) as (Hnd & Hstr & _).
  assert (ps.*1 ≡ₚ (o_props (deref h l)).*1) as Hkeys.
  { rewrite Hp, fst_zip; [done|]. by rewrite !length_fmap. }
  rewrite <- (sort_by_sorted_id compareUnicodeCodePoints ps.*1).
  - apply sort_by_unique; [apply _| |].
    + unfold own_names. by rewrite Harr, app_nil_r.
    + intros x y Hx Hy. rewrite Hkeys in Hx, Hy. rewrite Forall_forall in Hstr.
      apply compare_code_points_antisym; auto.
  - apply (StronglySorted_fmap fst (cmp_le compare_keys)); done.
Qed.

Lemma plain_data_functional number h v j1 j2 :
  heap_wf h → plain_data number h v j1 → plain_data number h v j2 → j1 = j2.
Proof.
  intros Hh. revert v j2.
  assert (Hlist : ∀ (vs : list value) js1 js2,
    Forall (λ j1, ∀ v j2, plain_data number h v j1 → plain_data number h v j2 → j1 = j2) js1 →
    Forall2 (plain_data number h) vs js1 → Forall2 (plain_data number h) vs js2 → js1 = js2).
  { intros vs js1 js2 Hall H1. revert js2. induction H1 as [|v j vs js1 Hv _ IH];
      intros js2 H2; inversion H2; subst; [done|].
    apply Forall_cons in Hall as [Hj Hall]. f_equal; [by eapply Hj|]. by apply IH. }
  induction j1 as [|b|n|s|items IH|m IH] using json_nested_ind; intros v j2 H1 H2.
  1-4: inversion H1; subst; inversion H2; subst; done.
  - inversion H1 as [| | | |l vs ? Ha Hf|]; subst. inversion H2 as [| | | |? vs' ? Ha' Hf'|? ? ? Hr]; subst.
    + assert (vs = vs') as <-; [|f_equal; by eapply Hlist].
      pose proof (array_of_entries h l vs Hh Ha) as He.
      pose proof (array_of_entries h l vs' Hh Ha') as He'.
      assert (length vs = length vs') as Hlen.
      { destruct Ha as (_ & _ & _ & _ & Hl & _), Ha' as (_ & _ & _ & _ & Hl' & _). lia. }
      rewrite <- Hlen in He'. by eapply data_entries_functional.
    + destruct Ha as (_ & ? & _), Hr as (_ & ? & _). congruence.
  - inversion H1 as [| | | | |l ps js Hr Hf]; subst. inversion H2 as [| | | |? ? ? Ha|? ps' js' Hr' Hf']; subst.
    + destruct Ha as (_ & ? & _), Hr as (_ & ? & _). congruence.
    + assert (ps.*1 = ps'.*1) as Hk.
      { rewrite (record_of_keys h l ps), (record_of_keys h l ps'); done. }
      pose proof (record_of_entries h l ps Hh Hr) as He.
      pose proof (record_of_entries h l ps' Hh Hr') as He'. rewrite <- Hk in He'.
      assert (ps.*2 = ps'.*2) as Hv by (by eapply data_entries_functional).
      rewrite <- Hk. assert (js = js') as <-; [|done].
      rewrite own_order_Permutation in IH.
      assert (length ps.*1 = length js) as Hlen.
      { apply Forall2_length in Hf. rewrite !length_fmap in *. done. }
      assert (Forall (λ j1, ∀ v j2, plain_data number h v j1 → plain_data number h v j2 → j1 = j2) js) as IH'.
      { rewrite <- (snd_zip ps.*1 js) by lia. by apply Forall_fmap. }
      rewrite <- Hv in Hf'. by eapply Hlist.
Qed.

Lemma portable_functional h v j1 j2 : heap_wf h → portable h v j1 → portable h v j2 → j1 = j2.
Proof. apply plain_data_functional. Qed.

(** ** Completeness *)
Lemma json_size_child_arr j items : j ∈ items → json_size j < json_size (JArr items).
Proof.
  intros Hj. simpl. induction items as [|i items IH]; [by apply not_elem_of_nil in Hj|].
  apply elem_of_cons in Hj as [->|Hj]; simpl; [lia|]. specialize (IH Hj). lia.
Qed.

Lemma json_size_child_obj j ks js :
  length ks = length js → j ∈ js → json_size j < json_size (JObj (own_order (zip ks js))).
Proof.
  intros Hlen Hj. simpl. rewrite own_order_Permutation.
  assert (map (λ p : jsstr * json, json_size p.2) (zip ks js) = json_size <$> js) as ->.
  { change (map (λ p : jsstr * json, json_size p.2) (zip ks js)) with
      ((json_size ∘ snd) <$> zip ks js). rewrite list_fmap_compose, snd_zip; [done|lia]. }
  pose proof (json_size_child_arr j js Hj) as H. simpl in H. done.
Qed.

(** Ancestors denote strictly larger trees, so a portable value meets none. *)
Definition below (number : num → Prop) (h : heap) (ancestors : list loc) (j : json) : Prop :=
  ∀ a, a ∈ ancestors → ∃ ja, plain_data number h (VObj a) ja ∧ json_size j < json_size ja.

Lemma below_child number h l ancestors j ja :
  below number h ancestors ja → plain_data number h (VObj l) ja → json_size j < json_size ja →
  below number h (l :: ancestors) j.
Proof.
  intros Hb Hp Hj a Ha. apply elem_of_cons in Ha as [->|Ha]; [eauto|].
  destruct (Hb a Ha) as (jb & ? & ?). exists jb. split; [done|lia].
Qed.

Lemma below_not number h l ancestors j :
  heap_wf h → plain_data number h (VObj l) j → below number h ancestors j → l ∉ ancestors.
Proof.
  intros Hh Hp Hb Hin. destruct (Hb l Hin) as (ja & Hja & Hlt).
  rewrite (plain_data_functional number h (VObj l) j ja Hh) in Hlt by done. lia.
Qed.

Definition complete_or_fuel (r : result capture_error json) (j : json) : Prop :=
  r = Ok j ∨ r = Err OutOfFuel.

Lemma traverse_complete {A} (f : A → result capture_error json) l js :
  Forall2 (λ x j, complete_or_fuel (f x) j) l js →
  traverse f l = Ok js ∨ traverse f l = Err OutOfFuel.
Proof.
  induction 1 as [|x j l js [Hx|Hx] _ [IH|IH]]; simpl; rewrite ?Hx; simpl;
    rewrite ?IH; by auto.
Qed.

(** On a dense array the first loop returns every index, the second counts them
    all. *)
Lemma array_names_complete o vs path :
  object_wf o → array_of o vs →
  ∃ ps, index_names (o_length o) path (own_names o) = Ok ps ∧
    consecutive 0 (sort_by compare_positions ps).*1 = o_length o.
Proof.
  intros (Hnd & _ & Hlen) (_ & Ha & _ & _ & Hl & Hp). specialize (Hlen Ha).
  assert (Hkeys : (o_props o).*1 ≡ₚ string_of_nat <$> seq 0 (o_length o)).
  { rewrite Hp, fst_zip, Hl; [done|]. by rewrite !length_fmap, length_seq. }
  set (pos := λ name, default 0 (index_name (o_length o) name)).
  set (ps := (λ name, (pos name, name)) <$> (o_props o).*1).
  assert (Hpos : ∀ i, i < o_length o → pos (string_of_nat i) = i).
  { intros i Hi. unfold pos. by rewrite (proj2 (index_name_Some _ _ i)). }
  assert (Hfst : ps.*1 ≡ₚ seq 0 (o_length o)).
  { unfold ps. rewrite <- list_fmap_compose. rewrite Hkeys, <- list_fmap_compose.
    rewrite (list_fmap_ext _ id); [by rewrite list_fmap_id|].
    intros i x Hx. apply lookup_seq in Hx as [-> Hi]. simpl. by apply Hpos. }
  exists ps. split.
  - apply index_names_spec. split.
    + unfold ps. apply Forall_fmap, Forall_forall. intros k Hk. simpl.
      rewrite Hkeys in Hk. apply list_elem_of_fmap in Hk as (i & -> & Hi).
      apply elem_of_seq in Hi. rewrite Hpos by lia. apply index_name_Some. split; [done|lia].
    + unfold ps. rewrite <- list_fmap_compose, list_fmap_id.
      unfold own_names. rewrite Ha, filter_app, filter_cons_False, filter_nil, app_nil_r by auto.
      symmetry. apply filter_id. intros k Hk ->. done.
  - rewrite <- (Nat.add_0_l (o_length o)) at 1. rewrite <- (consecutive_of_seq 0 (o_length o)).
    f_equal. apply (StronglySorted_unique_strong lt); [lia|..].
    + apply sorted_positions_lt; [apply sort_by_sorted, _|].
      rewrite sort_by_Permutation, Hfst. apply NoDup_seq.
    + apply StronglySorted_seq.
    + by rewrite sort_by_Permutation, Hfst.
Qed.

Lemma captureArray_complete h (capture : value → jsstr → list loc → result capture_error json)
    l vs items path ancestors :
  heap_wf h → array_of (deref h l) vs →
  Forall2 (λ v j, ∀ p, complete_or_fuel (capture v p (l :: ancestors)) j) vs items →
  complete_or_fuel (captureArray capture (deref h l) l path ancestors) (JArr items).
Proof.
  intros Hh Ha Hitems. pose proof (deref_wf h l Hh) as Hwf.
  destruct (array_names_complete _ vs path Hwf Ha) as (ps & Hps & Hc).
  destruct Ha as (Hproxy & Harr & Hproto & Hsym & Hl & Hp).
  destruct (array_names _ ps path Hwf Harr Hps Hc) as [Hnames Hperm].
  unfold captureArray. rewrite bool_decide_eq_true_2, Hsym, Hps by done. simpl.
  rewrite Hc, Nat.eqb_refl, Hnames. simpl.
  pose proof (array_of_entries h l vs Hh (conj Hproxy (conj Harr (conj Hproto (conj Hsym (conj Hl Hp))))))
    as He.
  rewrite <- Hl in He.
  edestruct (traverse_complete (λ name : jsstr,
    v ← dataDescriptor (deref h l) name (child path name);
    capture v (child path name) (l :: ancestors))) as [->| ->]; [|by left|by right].
  assert (Hall := Forall2_compose _ _ _ _ _ He Hitems).
  eapply Forall2_impl; [done|]. intros name j (v & Hv & Hcap). simpl.
  assert (dataDescriptor (deref h l) name (child path name) = Ok v) as ->; [|simpl; by apply Hcap].
  apply dataDescriptor_Ok. rewrite own_descriptor_props; [done|]. right.
  intros ->. apply map_get_Some_elem in Hv. destruct Hwf as (_ & _ & Hk). apply (Hk Harr).
  apply list_elem_of_fmap. by eexists (_, _).
Qed.

Lemma captureObject_complete h (capture : value → jsstr → list loc → result capture_error json)
    l ps js path ancestors :
  heap_wf h → record_of (deref h l) ps →
  Forall2 (λ v j, ∀ p, complete_or_fuel (capture v p (l :: ancestors)) j) ps.*2 js →
  complete_or_fuel (captureObject capture (deref h l) l path ancestors)
    (JObj (own_order (zip ps.*1 js))).
Proof.
  intros Hh Hr Hjs.
  pose proof (record_of_keys h l ps Hh Hr) as Hk.
  pose proof (record_of_entries h l ps Hh Hr) as He.
  destruct Hr as (Hproxy & Harr & Hproto & Hsym & Hs & Hp).
  unfold captureObject. rewrite bool_decide_eq_true_2, Hsym by done. simpl. rewrite <- Hk.
  set (f := λ key : jsstr, _).
  assert (Hf : traverse f ps.*1 = Ok (zip ps.*1 js) ∨ traverse f ps.*1 = Err OutOfFuel).
  { assert (Hall := Forall2_compose _ _ _ _ _ He Hjs). clear -Hall Harr. revert Hall.
    generalize ps.*1. intros ks Hall.
    induction Hall as [|k j ks js (v & Hv & Hcap) _ IH]; simpl; [by left|].
    assert (f k = Ok (k, j) ∨ f k = Err OutOfFuel) as [-> | ->]; simpl; [|by destruct IH as [-> | ->]; auto|by right].
    unfold f. rewrite (proj2 (dataDescriptor_Ok _ _ _ v)); simpl.
    - destruct (Hcap (child path (pointerSegment k))) as [-> | ->]; auto.
    - rewrite own_descriptor_props; [done|by left]. }
  unfold complete_or_fuel. destruct Hf as [-> | ->]; auto.
Qed.

Lemma captureValue_complete h v j :
  heap_wf h → portable h v j → ∀ fuel path ancestors, below safe_number h ancestors j →
  complete_or_fuel (captureValue h fuel v path ancestors) j.
Proof.
  intros Hh. revert v.
  assert (Hsub : ∀ (vs : list value) js l fuel ancestors ja,
    Forall (λ j, ∀ v, portable h v j → ∀ fuel path ancestors, below safe_number h ancestors j →
      complete_or_fuel (captureValue h fuel v path ancestors) j) js →
    Forall2 (portable h) vs js → portable h (VObj l) ja → below safe_number h ancestors ja →
    (∀ j, j ∈ js → json_size j < json_size ja) →
    Forall2 (λ v j, ∀ p, complete_or_fuel (captureValue h fuel v p (l :: ancestors)) j) vs js).
  { intros vs js l fuel ancestors ja Hall Hf Hp Hb Hsize.
    apply Forall2_same_length_lookup_2; [by eapply Forall2_length|].
    intros i v j' Hv Hj p. assert (j' ∈ js) by (by eapply list_elem_of_lookup_2).
    rewrite Forall_forall in Hall. apply (Hall j'); [done| |].
    - by eapply (Forall2_lookup_lr _ _ _ _ _ _ Hf).
    - eapply below_child; eauto. }
  assert (Hanc : ∀ l ancestors j, portable h (VObj l) j → below safe_number h ancestors j → l ∉ ancestors)
    by (intros; by eapply below_not).
  induction j as [|b|n|s|items IH|m IH] using json_nested_ind;
    intros v Hp fuel path ancestors Hb;
    inversion Hp as [| | |n0 Hfin Hsafe|l vs items' Ha Hf|l ps js Hr Hf]; subst.
  1-2,4: left; by destruct fuel.
  - left. destruct fuel; simpl; rewrite Hfin; simpl;
      destruct (num_integer n0) eqn:Hi; simpl; by rewrite ?Hsafe.
  - assert (l ∉ ancestors) by (by eapply Hanc).
    destruct fuel as [|fuel]; simpl; pose proof Ha as (Hproxy & Harr & _);
      rewrite Hproxy, bool_decide_eq_false_2 by done; [by right|]. rewrite Harr.
    apply (captureArray_complete h _ _ vs); [done|done|].
    eapply Hsub; [done|done|done|done|]. intros. by apply json_size_child_arr.
  - assert (l ∉ ancestors) by (by eapply Hanc).
    destruct fuel as [|fuel]; simpl; pose proof Hr as (Hproxy & Harr & _);
      rewrite Hproxy, bool_decide_eq_false_2 by done; [by right|]. rewrite Harr.
    assert (length ps.*1 = length js) as Hlen.
    { apply Forall2_length in Hf. by rewrite !length_fmap in *. }
    apply captureObject_complete; [done|done|].
    eapply Hsub; [|done|done|done|].
    + rewrite own_order_Permutation in IH. rewrite <- (snd_zip ps.*1 js) by lia. by apply Forall_fmap.
    + intros. by apply json_size_child_obj.
Qed.

(** ** Fuel *)
Lemma traverse_no_fuel {A B} (f : A → result capture_error B) l :
  (∀ x, x ∈ l → f x ≠ Err OutOfFuel) → traverse f l ≠ Err OutOfFuel.
Proof.
  induction l as [|x l IH]; intros Hf; simpl; [done|].
  assert (f x ≠ Err OutOfFuel) by (apply Hf; left).
  destruct (f x); simpl; [|by intros [= ->]].
  assert (traverse f l ≠ Err OutOfFuel) by (apply IH; intros; apply Hf; by right).
  destruct (traverse f l); simpl; congruence.
Qed.

Lemma index_names_no_fuel len path names : index_names len path names ≠ Err OutOfFuel.
Proof.
  induction names as [|name names IH]; simpl; [done|]. case_bool_decide; [done|].
  destruct (index_name len name); [|done]. destruct (index_names len path names); simpl; congruence.
Qed.

Lemma dataDescriptor_no_fuel o k path : dataDescriptor o k path ≠ Err OutOfFuel.
Proof. unfold dataDescriptor. by destruct (own_descriptor o k) as [[v []|]|]. Qed.

(** The ancestors are distinct allocated objects, so there are at most as many
    as the heap has objects. *)
Lemma captureValue_fuel h fuel v path ancestors :
  NoDup ancestors → (∀ a, a ∈ ancestors → is_Some (h !! a)) →
  size h < fuel + length ancestors → captureValue h fuel v path ancestors ≠ Err OutOfFuel.
Proof.
  revert v path ancestors. induction fuel as [|fuel IH]; intros v path ancestors Hnd Ha Hsize.
  { exfalso. assert (length ancestors ≤ size h); [|lia].
    rewrite <- (size_dom (D := gset loc) h), <- (size_list_to_set (C := gset loc)) by done.
    apply subseteq_size. intros a Hin. apply elem_of_dom, Ha. by rewrite elem_of_list_to_set in Hin. }
  destruct v as [| | |n| | | | |l]; simpl; try done.
  { destruct (negb (num_finite n)); [done|]. by destruct (_ && _). }
  destruct (o_proxy (deref h l)); [done|]. case_bool_decide as Hl; [done|].
  assert (Hrec : ∀ v p, is_Some (h !! l) → captureValue h fuel v p (l :: ancestors) ≠ Err OutOfFuel).
  { intros v p Hsome. apply IH; [by constructor| |simpl; lia].
    intros a [->|?]%elem_of_cons; auto. }
  destruct (h !! l) as [o|] eqn:Ho.
  2: { unfold deref. rewrite Ho. done. }
  destruct (o_array (deref h l)).
  - unfold captureArray. destruct (negb _); [done|]. destruct (0 <? _); [done|].
    pose proof (index_names_no_fuel (o_length (deref h l)) path (own_names (deref h l))).
    destruct (index_names _ _ _) as [names|]; simpl; [|congruence].
    destruct (negb _); [done|].
    match goal with |- context [traverse ?g ?ks] =>
      assert (traverse g ks ≠ Err OutOfFuel); [|destruct (traverse g ks); simpl; congruence] end.
    apply traverse_no_fuel. intros k _.
    pose proof (dataDescriptor_no_fuel (deref h l) k (child path k)).
    destruct (dataDescriptor _ _ _); simpl; [|congruence]. by apply Hrec.
  - unfold captureObject. destruct (negb _); [done|]. destruct (0 <? _); [done|].
    match goal with |- context [traverse ?g ?ks] =>
      assert (traverse g ks ≠ Err OutOfFuel); [|destruct (traverse g ks); simpl; congruence] end.
    apply traverse_no_fuel. intros k _. cbv zeta.
    pose proof (dataDescriptor_no_fuel (deref h l) k (child path (pointerSegment k))).
    destruct (dataDescriptor _ _ _) as [w|]; simpl; [|congruence].
    pose proof (Hrec w (child path (pointerSegment k)) ltac:(eauto)).
    destruct (captureValue _ _ _ _ _); simpl; congruence.
Qed.

(** ** The contract of [captureCanonicalJson] *)

Lemma captureCanonicalJson_cases h v :
  heap_wf h →
  (∃ j, portable h v j ∧ captureCanonicalJson h v = Ok (j, serializeCaptured j)) ∨
  ((∃ message path, captureCanonicalJson h v = Err (CanonicalizationError message path)) ∧
   ∀ j, ¬ portable h v j).
Proof.
  intros Hh.
  pose proof (captureValue_fuel h (S (size h)) v (js "#") []) as Hfuel.
  assert (captureValue h (S (size h)) v (js "#") [] ≠ Err OutOfFuel) as Hne.
  { apply Hfuel; [constructor| |simpl; lia]. intros a Ha. by apply not_elem_of_nil in Ha. }
  unfold captureCanonicalJson.
  destruct (captureValue h (S (size h)) v (js "#") []) as [j|[message path|]] eqn:E; [| |done].
  - left. exists j. split; [|done]. by eapply captureValue_sound.
  - right. split; [by exists message, path|]. intros j Hp.
    destruct (captureValue_complete h v j Hh Hp (S (size h)) (js "#") []) as [H|H]; [|congruence..].
    intros a Ha. by apply not_elem_of_nil in Ha.
Qed.

(** C3. Canonicalization decides portability on every heap, cyclic ones
    included: it returns the detached tree and its canonical text exactly when the
    value is portable JSON, and otherwise throws a [CanonicalizationError]; it
    always terminates. *)
Theorem captureCanonicalJson_decides h v :
  heap_wf h →
  (∃ j, portable h v j ∧ captureCanonicalJson h v = Ok (j, serializeCaptured j)) ∨
  ((∃ message path, captureCanonicalJson h v = Err (CanonicalizationError message path)) ∧
   ∀ j, ¬ portable h v j).
Proof. apply captureCanonicalJson_cases. Qed.

(** A record with its keys out of order, and an array that contains itself. *)
Definition sample_heap : heap :=
  <[1%positive := plain_object [(js "b", Data (VObj 2) true); (js "a", Data (VStr (js "x")) true)]]>
  (<[2%positive := plain_array [VNull; VBool true]]>
  (<[3%positive := plain_array [VObj 3]]> ∅)).

Lemma captureCanonicalJson_decides_witness :
  heap_wf sample_heap ∧
  captureCanonicalJson sample_heap (VObj 1) =
    Ok (JObj [(js "a", JStr (js "x")); (js "b", JArr [JNull; JBool true])],
        [123;34;97;34;58;34;120;34;44;34;98;34;58]%N ++ js "[null,true]}") ∧
  ∀ j, ¬ portable sample_heap (VObj 3) j.
Proof.
  assert (heap_wf sample_heap) as Hh by (by apply (bool_decide_unpack _); vm_compute).
  split; [done|]. split; [vm_compute; reflexivity|].
  destruct (captureCanonicalJson_decides sample_heap (VObj 3) Hh) as [(j & _ & Hj)|[_ H]]; [|done].
  assert (captureCanonicalJson sample_heap (VObj 3) = invalid (js "Cyclic values cannot be canonicalized") (js "#/0")) as Hc
    by (vm_compute; reflexivity).
  rewrite Hc in Hj. discriminate Hj.
Defined.
