(* ===== verification/JsonRoundTrip.v ===== *)
(** * Canonical text reads back

    [JSON.parse] of the text [serializeCaptured] prints for a tree is the tree in
    canonical form: negative zeros unsigned, the properties of every object in the
    order the language gives to an object created in code-point order.  The text
    holds no control character, so that a line-oriented file may hold one record
    per line. *)
From Stdlib Require Import SpecFloat.
From S2P Require Import Prelude JsString JsNumber JsValue JsonText NumberText Canonical CanonicalSpec.

(** ** Trees the language can hold *)

(** Finite doubles, strings of code units, and distinct keys. *)
Fixpoint json_okb (j : json) : bool :=
  match j with
  | JNull | JBool _ => true
  | JNum n => bool_decide (num_ok n) && num_finite n
  | JStr s => bool_decide (Forall (λ u, u < 65536)%N s)
  | JArr items => forallb json_okb items
  | JObj props =>
      bool_decide (NoDup props.*1) && bool_decide (Forall (Forall (λ u, u < 65536)%N) props.*1) &&
      forallb (λ p, json_okb p.2) props
  end.
Definition json_ok (j : json) : Prop := json_okb j = true.
#[export] Instance json_ok_dec j : Decision (json_ok j).
Proof. unfold json_ok. apply _. Defined.

Fixpoint canonical_form (j : json) : json :=
  match j with
  | JNum n => JNum (num_unsign_zero n)
  | JArr items => JArr (map canonical_form items)
  | JObj props =>
      JObj (own_order (sort_by compare_keys (map (λ p, (p.1, canonical_form p.2)) props)))
  | _ => j
  end.

Lemma json_ok_arr items : json_ok (JArr items) ↔ Forall json_ok items.
Proof. unfold json_ok. simpl. apply forallb_Forall. Qed.

Lemma json_ok_obj props :
  json_ok (JObj props) ↔ NoDup props.*1 ∧ Forall str_wf props.*1 ∧ Forall (λ p, json_ok p.2) props.
Proof.
  unfold json_ok. cbn [json_okb]. rewrite !andb_true_iff, !bool_decide_eq_true, forallb_Forall.
  tauto.
Qed.

Lemma json_ok_str s : json_ok (JStr s) ↔ str_wf s.
Proof. unfold json_ok. simpl. apply bool_decide_eq_true. Qed.

Lemma json_ok_num n : json_ok (JNum n) ↔ num_ok n ∧ num_finite n = true.
Proof. unfold json_ok. cbn [json_okb]. by rewrite andb_true_iff, bool_decide_eq_true. Qed.

(** ** The first character of a value *)

Definition value_start (c : N) : Prop :=
  c ∈ [34; 91; 123; 110; 116; 102; 45]%N ∨ is_digit c = true.

Lemma value_start_facts c :
  value_start c → is_space c = false ∧ c ≠ 93%N ∧ c ≠ 125%N ∧ c ≠ 44%N.
Proof.
  intros [H|H].
  - apply list_elem_of_In in H. simpl in H.
    repeat match type of H with _ ∨ _ => destruct H as [<-|H] end; done.
  - apply is_digit_range in H. unfold is_space.
    rewrite !(proj2 (N.eqb_neq _ _)) by lia. split_and!; [done|lia..].
Qed.

Lemma skip_space_start c t : is_space c = false → skip_space (c :: t) = c :: t.
Proof. simpl. by intros ->. Qed.

Lemma not_close_bracket {A} c t (f : jsstr → A) d :
  c ≠ 93%N → match c :: t with 93%N :: r => f r | _ => d end = d.
Proof. intros. repeat case_match; congruence. Qed.
(** ** The object a text of distinct members denotes *)

Lemma foldl_map_set {A} (ms acc : list (jsstr * A)) :
  NoDup (acc ++ ms).*1 → foldl (λ m p, map_set p.1 p.2 m) acc ms = acc ++ ms.
Proof.
  revert acc. induction ms as [|[k v] ms IH]; intros acc Hnd; [by rewrite app_nil_r|].
  cbn [foldl fst snd]. rewrite map_set_absent.
  - rewrite IH by (by rewrite <- (assoc_L (++))). by rewrite <- (assoc_L (++)).
  - rewrite fmap_app in Hnd. apply NoDup_app in Hnd as (_ & Hd & _). intros Hk.
    apply (Hd k Hk). csimpl. constructor.
Qed.

Lemma object_of_distinct ms : NoDup ms.*1 → object_of_members ms = JObj (own_order ms).
Proof. intros Hnd. unfold object_of_members. by rewrite foldl_map_set. Qed.

(** ** Texts that read as a tree *)

(** The text starts a value and reads as the tree, given enough fuel. *)
Definition reads_as (text : jsstr) (j : json) : Prop :=
  (∃ c t, text = c :: t ∧ value_start c) ∧
  ∀ fuel rest, 2 * length text ≤ fuel → number_end rest → parse_value fuel (text ++ rest) = Some (j, rest).

Lemma reads_as_length text j : reads_as text j → 0 < length text.
Proof. intros [(c & t & -> & _) _]. simpl. lia. Qed.

(** White space between the tokens of a text *)
Definition blank (s : jsstr) : Prop := Forall (λ c, is_space c = true) s.
#[export] Instance blank_dec s : Decision (blank s).
Proof. unfold blank. apply _. Defined.

Lemma skip_blank pad t : blank pad → skip_space (pad ++ t) = skip_space t.
Proof. induction 1 as [|c pad Hc _ IH]; [done|]. cbn [app skip_space]. by rewrite Hc. Qed.
Lemma parse_value_blank fuel pad t : blank pad → parse_value fuel (pad ++ t) = parse_value fuel t.
Proof. intros Hp. destruct fuel as [|fuel]; [done|]. cbn [parse_value]. by rewrite skip_blank. Qed.
Lemma parse_members_blank fuel pad t : blank pad → parse_members fuel (pad ++ t) = parse_members fuel t.
Proof. intros Hp. destruct fuel as [|fuel]; [done|]. cbn [parse_members]. by rewrite skip_blank. Qed.
Lemma number_end_blank pad t : blank pad → number_end t → number_end (pad ++ t).
Proof.
  intros Hp Ht. destruct Hp as [|c pad Hc _]; [done|]. cbn [app number_end]. unfold is_digit.
  assert (c ∈ [32; 9; 10; 13]%N) as Hin by (unfold is_space in Hc; rewrite !orb_true_iff, !N.eqb_eq in Hc; set_solver).
  repeat (apply elem_of_cons in Hin as [->|Hin]; [by split_and!|]). by apply not_elem_of_nil in Hin.
Qed.

(** A member of an object literal, with white space before the value *)
Definition spaced_member (gap : jsstr) (p : jsstr * jsstr) : jsstr := quote_string p.1 ++ js ":" ++ gap ++ p.2.
Definition member (p : jsstr * jsstr) : jsstr := quote_string p.1 ++ js ":" ++ p.2.
Definition member_reads (t : jsstr * jsstr) (p : jsstr * json) : Prop :=
  t.1 = p.1 ∧ str_wf p.1 ∧ reads_as t.2 p.2.

Lemma join_head (P : N → Prop) x l : (∃ c t, x = c :: t ∧ P c) → ∃ c t, join (js ",") (x :: l) = c :: t ∧ P c.
Proof. intros (c & t & E & Hc). destruct l; cbn [join]; rewrite E; by eexists _, _. Qed.

Section layout.
Context (pad tail gap : jsstr) (pad_blank : blank pad) (tail_blank : blank tail) (gap_blank : blank gap).

Lemma parse_items_reads texts items fuel rest :
  texts ≠ [] → Forall2 reads_as texts items → 2 * length (join (js ",") (app pad <$> texts) ++ tail ++ js "]") ≤ fuel →
  parse_items fuel (join (js ",") (app pad <$> texts) ++ tail ++ js "]" ++ rest) = Some (items, rest).
Proof.
  intros Hne Hr. revert fuel Hne.
  induction Hr as [|text j texts items [_ Hj] Hr IH]; intros fuel Hne Hfuel; [done|].
  destruct fuel as [|fuel]; [rewrite !length_app in Hfuel; simpl in Hfuel; lia|].
  destruct texts as [|text' texts]; cbn [fmap list_fmap] in *.
  - apply Forall2_nil_inv_l in Hr as ->. cbn [join parse_items] in *.
    rewrite !length_app in Hfuel. simpl (length (js _)) in Hfuel. rewrite <- (assoc_L (++)), parse_value_blank by done.
    rewrite Hj; [|lia|by apply number_end_blank]. by rewrite skip_blank.
  - change (join (js ",") (?a :: ?b :: ?l)) with (a ++ js "," ++ join (js ",") (b :: l)) in *.
    rewrite <- !(assoc_L (++)) in *. rewrite !length_app in Hfuel. simpl (length (js _)) in Hfuel.
    cbn [parse_items]. rewrite parse_value_blank, Hj by (done || lia).
    change (skip_space (js "," ++ ?s)) with (44%N :: s). cbv iota beta.
    rewrite IH; [done|done|]. rewrite !length_app. simpl (length (js _)). lia.
Qed.

Lemma parse_member k text j f t :
  str_wf k → reads_as text j → 2 * length text ≤ f → number_end t →
  parse_members (S f) (pad ++ spaced_member gap (k, text) ++ t) =
  match skip_space t with
  | 44%N :: r' => match parse_members f r' with Some (ms, r) => Some ((k, j) :: ms, r) | None => None end
  | 125%N :: r' => Some ([(k, j)], r')
  | _ => None
  end.
Proof.
  intros Hk [_ Hj] Hf Ht. rewrite parse_members_blank by done. unfold spaced_member, quote_string. cbn [fst snd].
  rewrite <- !(assoc_L (++)). cbn [app parse_members].
  change (skip_space (34%N :: ?s)) with (34%N :: s). cbv iota beta.
  change (quote_units k ++ 34%N :: ?s) with (quote_units k ++ [34%N] ++ s).
  rewrite parse_quote_units by done.
  change (skip_space (js ":" ++ ?s)) with (58%N :: s). cbv iota beta. by rewrite parse_value_blank, Hj.
Qed.

Lemma parse_members_reads ts ms fuel rest :
  let texts := (λ t, pad ++ spaced_member gap t) <$> ts in
  ts ≠ [] → Forall2 member_reads ts ms → 2 * length (join (js ",") texts ++ tail ++ js "}") ≤ fuel →
  parse_members fuel (join (js ",") texts ++ tail ++ js "}" ++ rest) = Some (ms, rest).
Proof.
  cbv zeta. intros Hne Hr. revert fuel Hne.
  induction Hr as [|[k text] [k' j] ts ms (Hkk & Hk & Hj) Hr IH]; intros fuel Hne Hfuel; [done|].
  cbn [fst snd] in *. subst k'.
  destruct fuel as [|fuel]; [rewrite !length_app in Hfuel; simpl in Hfuel; lia|].
  assert (length text < length (spaced_member gap (k, text))).
  { unfold spaced_member. rewrite !length_app. cbn [fst snd]. simpl (length (js _)). lia. }
  destruct ts as [|t ts].
  - apply Forall2_nil_inv_l in Hr as ->. cbn [fmap list_fmap join] in *. rewrite !length_app in Hfuel.
    rewrite <- !(assoc_L (++)), (parse_member k text j); [by rewrite skip_blank|done|done|lia|by apply number_end_blank].
  - cbn [fmap list_fmap] in *. change (join (js ",") (?a :: ?b :: ?l)) with (a ++ js "," ++ join (js ",") (b :: l)) in *.
    rewrite <- !(assoc_L (++)) in *. rewrite !length_app in Hfuel. simpl (length (js _)) in Hfuel.
    rewrite (parse_member k text j) by (done || lia).
    change (skip_space (js "," ++ ?s)) with (44%N :: s). cbv iota beta.
    rewrite IH; [done|done|]. rewrite !length_app. simpl (length (js _)). lia.
Qed.

(** The text of an array and of an object, from the texts of their parts *)
Lemma reads_array_in texts items :
  Forall2 reads_as texts items → reads_as (js "[" ++ join (js ",") (app pad <$> texts) ++ tail ++ js "]") (JArr items).
Proof.
  intros Hr. split; [by eexists _, _; split; [reflexivity|left; apply (bool_decide_unpack _)]|].
  intros fuel rest Hfuel Hrest. rewrite !length_app in Hfuel. simpl (length (js _)) in Hfuel.
  destruct fuel as [|fuel]; [lia|]. rewrite <- !(assoc_L (++)). cbn [parse_value].
  change (skip_space (js "[" ++ ?s)) with (91%N :: s). cbn [N.eqb Pos.eqb].
  destruct Hr as [|text j texts items Hj Hr].
  { cbn [fmap list_fmap join app]. by rewrite skip_blank. }
  pose proof (parse_items_reads (text :: texts) (j :: items) fuel rest ltac:(done) ltac:(by constructor)) as Hp.
  rewrite !length_app in Hp. simpl (length (js _)) in Hp. specialize (Hp ltac:(lia)). rewrite Hp.
  replace (join (js ",") (app pad <$> text :: texts)) with (pad ++ join (js ",") (text :: (app pad <$> texts)))
    by (destruct texts; cbn [fmap list_fmap join]; by rewrite <- ?(assoc_L (++))).
  destruct (join_head value_start text (app pad <$> texts)) as (c & t & -> & Hc); [by destruct Hj|].
  rewrite <- (assoc_L (++)), skip_blank by done. cbn [app]. apply value_start_facts in Hc as (Hs & Hb & _).
  rewrite skip_space_start by done. by apply (not_close_bracket c _ (λ r', Some (JArr [], r'))).
Qed.

Lemma reads_object_in ts ms :
  NoDup ms.*1 → Forall2 member_reads ts ms →
  reads_as (js "{" ++ join (js ",") ((λ t, pad ++ spaced_member gap t) <$> ts) ++ tail ++ js "}") (JObj (own_order ms)).
Proof.
  intros Hnd Hr. split; [by eexists _, _; split; [reflexivity|left; apply (bool_decide_unpack _)]|].
  intros fuel rest Hfuel Hrest. rewrite !length_app in Hfuel. simpl (length (js _)) in Hfuel.
  destruct fuel as [|fuel]; [lia|]. rewrite <- !(assoc_L (++)). cbn [parse_value].
  change (skip_space (js "{" ++ ?s)) with (123%N :: s). cbn [N.eqb Pos.eqb].
  destruct ts as [|t ts].
  { apply Forall2_nil_inv_l in Hr as ->. cbn [fmap list_fmap join app]. by rewrite skip_blank. }
  pose proof (parse_members_reads (t :: ts) ms fuel rest ltac:(done) Hr) as Hp. cbv zeta in Hp.
  rewrite !length_app in Hp. simpl (length (js _)) in Hp. specialize (Hp ltac:(lia)). rewrite Hp.
  set (text := λ t, pad ++ spaced_member gap t).
  replace (join (js ",") (text <$> t :: ts)) with (pad ++ join (js ",") (spaced_member gap t :: (text <$> ts)))
    by (unfold text; destruct ts; cbn [fmap list_fmap join]; by rewrite <- ?(assoc_L (++))).
  destruct (join_head (λ c, c = 34%N) (spaced_member gap t) (text <$> ts)) as (c & t' & -> & ->); [by eexists _, _|].
  rewrite <- (assoc_L (++)), skip_blank by done. cbn [app]. rewrite skip_space_start by done.
  by rewrite object_of_distinct.
Qed.
End layout.

(** Without white space *)
Lemma reads_array texts items :
  Forall2 reads_as texts items → reads_as (js "[" ++ join (js ",") texts ++ js "]") (JArr items).
Proof.
  intros Hr. pose proof (reads_array_in [] [] ltac:(constructor) ltac:(constructor) _ _ Hr) as H.
  by rewrite list_fmap_id in H.
Qed.
Lemma reads_object ts ms :
  NoDup ms.*1 → Forall2 member_reads ts ms →
  reads_as (js "{" ++ join (js ",") (member <$> ts) ++ js "}") (JObj (own_order ms)).
Proof. intros Hnd Hr. by apply (reads_object_in [] [] []); [constructor..|done|]. Qed.

(** ** Every value reads back *)

Definition member_text (p : jsstr * json) : jsstr :=
  quote_string p.1 ++ js ":" ++ serializeCaptured p.2.

Lemma serialize_obj props :
  serializeCaptured (JObj props) =
  js "{" ++ join (js ",") (map member_text (sort_by compare_keys props)) ++ js "}".
Proof.
  cbn [serializeCaptured]. do 3 f_equal.
  change (map (λ p, (p.1, serializeCaptured p.2)) props) with
    ((λ p : jsstr * json, (p.1, serializeCaptured p.2)) <$> props).
  rewrite <- (sort_by_fmap _ compare_keys) by done.
  rewrite <- list_fmap_compose. done.
Qed.

Lemma starts_with_neq c t c' w : c ≠ c' → starts_with (c' :: w) (c :: t) = false.
Proof. intros H. simpl. by rewrite (proj2 (N.eqb_neq c' c)). Qed.

(** Literals and numbers are told apart by their first character. *)
Lemma parse_value_number fuel n rest :
  num_ok n → num_finite n = true → number_end rest →
  parse_value (S fuel) (string_of_num n ++ rest) = Some (JNum (num_unsign_zero n), rest).
Proof.
  intros Hok Hf Hr. pose proof (parse_string_of_num n rest Hok Hf Hr) as Hp.
  destruct (string_of_num_head n Hf) as (c & t & E & Hc). rewrite E in Hp |- *.
  assert (value_start c) as Hv by (destruct Hc as [Hc| ->]; [by right|left; by apply (bool_decide_unpack _)]).
  cbn [app parse_value].
  rewrite skip_space_start by (by apply value_start_facts).
  assert (c ≠ 34 ∧ c ≠ 91 ∧ c ≠ 123 ∧ c ≠ 110 ∧ c ≠ 116 ∧ c ≠ 102)%N as (H1&H2&H3&H4&H5&H6).
  { destruct Hc as [Hc| ->]; [|done]. apply is_digit_range in Hc. lia. }
  rewrite (proj2 (N.eqb_neq _ _) H1), (proj2 (N.eqb_neq _ _) H2), (proj2 (N.eqb_neq _ _) H3).
  change (js "null") with (110%N :: js "ull"). change (js "true") with (116%N :: js "rue").
  change (js "false") with (102%N :: js "alse").
  rewrite !starts_with_neq by done. cbn [app] in Hp. by rewrite Hp.
Qed.

Lemma reads_number n : num_ok n → num_finite n = true → reads_as (string_of_num n) (JNum (num_unsign_zero n)).
Proof.
  intros Hn Hf. destruct (string_of_num_head n Hf) as (c & t & E & Hc). split.
  - exists c, t. split; [done|]. destruct Hc as [Hc| ->]; [by right|left; by apply (bool_decide_unpack _)].
  - intros [|fuel] rest Hfuel Hr; [rewrite E in Hfuel; simpl in Hfuel; lia|by apply parse_value_number].
Qed.

Lemma reads_string s : str_wf s → reads_as (quote_string s) (JStr s).
Proof.
  intros Hs. split; [by eexists _, _; split; [reflexivity|left; apply (bool_decide_unpack _)]|].
  intros [|fuel] rest Hfuel _; [simpl in Hfuel; lia|].
  unfold quote_string. rewrite <- !(assoc_L (++)). cbn [app parse_value].
  change (skip_space (34%N :: ?s)) with (34%N :: s). cbn [N.eqb Pos.eqb].
  change (quote_units s ++ 34%N :: rest) with (quote_units s ++ [34%N] ++ rest).
  by rewrite parse_quote_units.
Qed.

Lemma reads_null : reads_as (js "null") JNull.
Proof. by split; [eexists _, _; split; [reflexivity|left; apply (bool_decide_unpack _)]|intros [|fuel] rest Hf; [simpl in Hf; lia|]]. Qed.
Lemma reads_bool (b : bool) : reads_as (if b then js "true" else js "false") (JBool b).
Proof.
  by destruct b; (split; [eexists _, _; split; [reflexivity|left; apply (bool_decide_unpack _)]|
    intros [|fuel] rest Hf; [simpl in Hf; lia|]]).
Qed.

Lemma Forall_mp {A} (P Q : A → Prop) l : Forall (λ x, P x → Q x) l → Forall P l → Forall Q l.
Proof. induction 1; intros; decompose_Forall; auto. Qed.

(** The members of an object, when the values of its properties read *)
Lemma members_read (f : json → jsstr) (g : json → json) (props : list (jsstr * json)) :
  Forall str_wf props.*1 → Forall (λ p, reads_as (f p.2) (g p.2)) props →
  Forall2 member_reads ((λ p, (p.1, f p.2)) <$> props) ((λ p, (p.1, g p.2)) <$> props).
Proof.
  intros Hk%Forall_fmap Hr. apply Forall2_fmap, Forall_Forall2_diag.
  induction Hr as [|p props Hp _ IH]; [constructor|]. apply Forall_cons in Hk as [Hk Hks].
  constructor; [by split_and!|by apply IH].
Qed.

Lemma all_reads j : json_ok j → reads_as (serializeCaptured j) (canonical_form j).
Proof.
  induction j as [|b|n|s|items IH|props IH] using json_nested_ind; intros Hok.
  - apply reads_null.
  - apply reads_bool.
  - apply json_ok_num in Hok as [Hn Hf]. by apply reads_number.
  - apply json_ok_str in Hok. by apply reads_string.
  - apply json_ok_arr in Hok. pose proof (Forall_mp _ _ _ IH Hok) as Hr.
    apply reads_array. apply Forall2_fmap, Forall_Forall2_diag. exact Hr.
  - apply json_ok_obj in Hok as (Hnd & Hwf & Hok). rewrite serialize_obj. cbn [canonical_form].
    change (map (λ p, (p.1, canonical_form p.2)) props) with
      ((λ p : jsstr * json, (p.1, canonical_form p.2)) <$> props).
    rewrite <- (sort_by_fmap _ compare_keys) by done.
    pose proof (sort_by_Permutation compare_keys props) as Hperm.
    pose proof (Forall_mp (λ p, json_ok p.2) (λ p, reads_as (serializeCaptured p.2) (canonical_form p.2)) _ IH Hok) as Hr.
    rewrite <- Hperm in Hr, Hwf. rewrite <- Hperm in Hnd.
    replace (map member_text (sort_by compare_keys props)) with
      (member <$> ((λ p : jsstr * json, (p.1, serializeCaptured p.2)) <$> sort_by compare_keys props))
      by (by rewrite <- list_fmap_compose).
    apply reads_object; [by rewrite <- list_fmap_compose|]. by apply members_read.
Qed.

Lemma serialize_head j :
  json_ok j → ∃ c t, serializeCaptured j = c :: t ∧ value_start c.
Proof. intros Hj. by destruct (all_reads j Hj). Qed.

(** A text that reads as a tree is parsed to it. *)
Lemma json_parse_reads text j : reads_as text j → json_parse text = Some j.
Proof.
  intros [_ H]. unfold json_parse. specialize (H (2 * length text + 2) [] ltac:(lia) I).
  rewrite app_nil_r in H. by rewrite H.
Qed.

(** The text of a tree reads back as its canonical form. *)
Lemma json_parse_serialize j : json_ok j → json_parse (serializeCaptured j) = Some (canonical_form j).
Proof. intros Hj. by apply json_parse_reads, all_reads. Qed.

(** ** Captured trees are canonical *)

(** The data a heap holds: doubles and strings of code units. *)
Definition value_okb (v : value) : bool :=
  match v with
  | VNum n => bool_decide (num_ok n)
  | VStr s => bool_decide (Forall (λ u, u < 65536)%N s)
  | _ => true
  end.
Definition object_data_okb (o : object) : bool :=
  forallb (λ p : jsstr * descriptor,
    match p.2 with Data v _ => value_okb v | Accessor _ => true end) (o_props o).
Definition heap_data_ok (h : heap) : Prop := ∀ l o, h !! l = Some o → object_data_okb o = true.
#[export] Instance heap_data_ok_dec h : Decision (heap_data_ok h).
Proof. apply (decide (map_Forall (λ _ o, object_data_okb o = true) h)). Defined.

Lemma deref_data_ok h l v vs (ks : list jsstr) :
  heap_data_ok h → o_props (deref h l) ≡ₚ zip ks ((λ v, Data v true) <$> vs) →
  length ks = length vs → v ∈ vs → value_okb v = true.
Proof.
  intros Hh Hp Hlen Hv. apply list_elem_of_lookup in Hv as [i Hi].
  destruct (lookup_lt_is_Some_2 ks i) as [k Hk]; [apply lookup_lt_Some in Hi; lia|].
  assert ((k, Data v true) ∈ o_props (deref h l)) as Hin.
  { rewrite Hp. apply list_elem_of_lookup. exists i.
    by rewrite lookup_zip_with, Hk, list_lookup_fmap, Hi. }
  unfold deref in Hin. destruct (h !! l) as [o|] eqn:E; [|by apply not_elem_of_nil in Hin].
  pose proof (Hh _ _ E) as Ho. unfold object_data_okb in Ho.
  rewrite forallb_Forall, Forall_forall in Ho. exact (Ho _ Hin).
Qed.

Lemma compare_keys_antisym {A} (m : list (jsstr * A)) p q :
  NoDup m.*1 → Forall str_wf m.*1 → p ∈ m → q ∈ m →
  cmp_le compare_keys p q → cmp_le compare_keys q p → p = q.
Proof.
  intros Hnd Hwf Hp Hq Hle Hge. rewrite Forall_forall in Hwf.
  destruct p as [k v], q as [k' v'].
  assert (k = k') as <-.
  { apply compare_code_points_antisym; [| |done|done]; apply Hwf, list_elem_of_fmap;
      [by exists (k, v)|by exists (k', v')]. }
  f_equal. pose proof (map_get_NoDup k v m Hnd Hp). pose proof (map_get_NoDup k v' m Hnd Hq). congruence.
Qed.

Lemma canonical_form_obj (m : list (jsstr * json)) :
  NoDup m.*1 → Forall str_wf m.*1 → StronglySorted (cmp_le compare_keys) m →
  Forall (λ p, canonical_form p.2 = p.2) m →
  canonical_form (JObj (own_order m)) = JObj (own_order m).
Proof.
  intros Hnd Hwf Hs Hid. cbn [canonical_form]. do 2 f_equal.
  rewrite <- (own_order_Permutation m) in Hid.
  replace (map (λ p, (p.1, canonical_form p.2)) (own_order m)) with (own_order m).
  - rewrite <- (sort_by_sorted_id compare_keys m Hs) at 2.
    apply sort_by_unique; [apply _|apply own_order_Permutation|].
    intros p q. rewrite (own_order_Permutation m). by apply compare_keys_antisym.
  - induction Hid as [|[k j] l Hj _ IH]; [done|]. cbn [map fst snd] in *. by rewrite Hj, <- IH.
Qed.

Lemma portable_items h vs js :
  Forall (λ j, ∀ v, value_okb v = true → portable h v j → json_ok j ∧ canonical_form j = j) js →
  Forall2 (portable h) vs js → (∀ v, v ∈ vs → value_okb v = true) →
  Forall json_ok js ∧ map canonical_form js = js.
Proof.
  intros IH H Hv. revert IH. induction H as [|v j vs js Hj _ IHl]; intros IH; [done|].
  apply Forall_cons in IH as [Hj' IH].
  destruct (Hj' v) as [H1 H2]; [apply Hv; constructor|done|].
  destruct IHl as [H3 H4]; [intros; apply Hv; by constructor|done|].
  split; [by constructor|]. cbn [map]. by rewrite H2, H4.
Qed.

(** A captured tree is in canonical form. *)
Lemma portable_canonical h v j :
  heap_wf h → heap_data_ok h → value_okb v = true → portable h v j →
  json_ok j ∧ canonical_form j = j.
Proof.
  intros Hh Hd. revert v. induction j as [|b|n|s|items IH|m IH] using json_nested_ind; intros v Hv Hp.
  - done.
  - done.
  - inversion Hp as [| | |n' Hf Hn| |]; subst. simpl in Hv. bool_hyps. apply bool_decide_eq_true in Hv.
    rewrite json_ok_num. by destruct n'.
  - inversion Hp; subst. simpl in Hv. apply bool_decide_eq_true in Hv. by rewrite json_ok_str.
  - inversion Hp as [| | | |l vs ? Ha Hf|]; subst. rewrite json_ok_arr.
    destruct Ha as (_ & _ & _ & _ & _ & Hprops).
    destruct (portable_items h vs items IH Hf) as [H1 H2].
    { intros v. eapply deref_data_ok; [done|done|]. by rewrite length_fmap, length_seq. }
    split; [done|]. cbn [canonical_form]. by rewrite H2.
  - inversion Hp as [| | | | |l ps js Hr Hf]; subst.
    pose proof (record_of_keys h l ps Hh Hr) as Hkeys.
    destruct Hr as (_ & Harr & _ & _ & Hs & Hprops).
    destruct (deref_wf h l Hh) as (Hnd & Hwf & _).
    assert (ps.*1 ≡ₚ (o_props (deref h l)).*1) as Hperm.
    { rewrite Hkeys, sort_by_Permutation. unfold own_names. by rewrite Harr, app_nil_r. }
    rewrite <- Hperm in Hnd, Hwf.
    assert (length ps.*1 = length js) as Hlen by (apply Forall2_length in Hf; rewrite !length_fmap in *; done).
    rewrite own_order_Permutation in IH.
    assert (Forall (λ j, ∀ v, value_okb v = true → portable h v j → json_ok j ∧ canonical_form j = j) js) as IH'.
    { rewrite <- (snd_zip ps.*1 js) by lia. by apply Forall_fmap. }
    destruct (portable_items h ps.*2 js IH' Hf) as [H1 H2].
    { intros v. eapply deref_data_ok; [done|done|]. by rewrite !length_fmap. }
    assert ((zip ps.*1 js).*1 = ps.*1) as Hfst by (apply fst_zip; lia).
    assert (Forall (λ p, json_ok p.2 ∧ canonical_form p.2 = p.2) (zip ps.*1 js)) as Hall.
    { apply (Forall_fmap snd (λ j, json_ok j ∧ canonical_form j = j)). rewrite snd_zip by lia.
      clear -H1 H2. induction H1 as [|j js Hj H1 IHj]; [constructor|].
      cbn [map] in H2. injection H2 as H2 H3. constructor; auto. }
    split.
    + apply json_ok_obj. rewrite own_order_keys, own_order_Permutation, Hfst. split_and!; [done..|].
      eapply Forall_impl; [exact Hall|]. by intros ? [? _].
    + apply canonical_form_obj; [by rewrite Hfst..| |].
      * apply (StronglySorted_fmap_inv fst (cmp_le compare_keys) (cmp_le compareUnicodeCodePoints)); [done|].
        rewrite Hfst. by apply (StronglySorted_fmap fst (cmp_le compare_keys)).
      * eapply Forall_impl; [exact Hall|]. by intros ? [_ ?].
Qed.

(** C19. Canonical text is lossless: reading the text that canonicalization returns
    gives back the tree it captured, for every portable value on every heap, so
    that two values with the same text have the same tree. *)
Theorem captureCanonicalJson_reads_back h v j text :
  heap_wf h → heap_data_ok h → value_okb v = true →
  captureCanonicalJson h v = Ok (j, text) →
  json_parse text = Some j ∧
  ∀ h' v' j', heap_wf h' → heap_data_ok h' → value_okb v' = true →
    captureCanonicalJson h' v' = Ok (j', text) → j' = j.
Proof.
  assert (Hread : ∀ h v j text, heap_wf h → heap_data_ok h → value_okb v = true →
    captureCanonicalJson h v = Ok (j, text) → json_parse text = Some j).
  { clear. intros h v j text Hh Hd Hv Hc.
    destruct (captureCanonicalJson_cases h v Hh) as [(j' & Hp & Hc')|[(m & p & Hc') _]];
      rewrite Hc' in Hc; [|done].
    injection Hc as -> <-. destruct (portable_canonical h v j Hh Hd Hv Hp) as [Hok Hcf].
    by rewrite json_parse_serialize, Hcf. }
  intros Hh Hd Hv Hc. split; [by eapply Hread|].
  intros h' v' j' Hh' Hd' Hv' Hc'.
  pose proof (Hread _ _ _ _ Hh Hd Hv Hc). pose proof (Hread _ _ _ _ Hh' Hd' Hv' Hc'). congruence.
Qed.

(** An object with a number that takes all seventeen digits, and an index key. *)
Definition number_heap : heap :=
  <[1%positive := plain_object
      [(js "7", Data (VNum (num_of_decimal true 30000000000000004 (-17))) true);
       (js "x", Data (VObj 2) true); (js "a", Data (VStr [10; 233; 55357; 56832]%N) true)]]>
  (<[2%positive := plain_array [VNum (num_of_decimal false 12 (-30)); VBool true]]> ∅).

Lemma captureCanonicalJson_reads_back_witness :
  captureCanonicalJson number_heap (VObj 1) =
    Ok (JObj [(js "7", JNum (num_of_decimal true 30000000000000004 (-17)));
              (js "a", JStr [10; 233; 55357; 56832]%N);
              (js "x", JArr [JNum (num_of_decimal false 12 (-30)); JBool true])],
        jsq "{'7':-0.30000000000000004,'a':'\n" ++ [233; 55357; 56832]%N ++ jsq "','x':[1.2e-29,true]}") ∧
  json_parse (jsq "{'7':-0.30000000000000004,'a':'\n" ++ [233; 55357; 56832]%N ++ jsq "','x':[1.2e-29,true]}") =
    Some (JObj [(js "7", JNum (num_of_decimal true 30000000000000004 (-17)));
              (js "a", JStr [10; 233; 55357; 56832]%N);
              (js "x", JArr [JNum (num_of_decimal false 12 (-30)); JBool true])]).
Proof.
  assert (heap_wf number_heap) as Hh by (apply (bool_decide_unpack _); vm_compute; exact I).
  assert (heap_data_ok number_heap) as Hd by (apply (bool_decide_unpack _); vm_compute; exact I).
  match goal with |- ?a ∧ _ => assert a as Hc by (vm_compute; reflexivity) end.
  split; [exact Hc|]. exact (proj1 (captureCanonicalJson_reads_back _ (VObj 1) _ _ Hh Hd eq_refl Hc)).
Defined.

(** ** Clean text

    Text without control characters and without lone surrogates. *)
Inductive clean : jsstr → Prop :=
  | clean_nil : clean []
  | clean_unit u t : (32 ≤ u < 65536)%N → is_surrogate u = false → clean t → clean (u :: t)
  | clean_pair h l t :
      is_high_surrogate h = true → is_low_surrogate l = true → clean t → clean (h :: l :: t).

Lemma clean_app s t : clean s → clean t → clean (s ++ t).
Proof. intros Hs Ht. induction Hs; cbn [app]; [done|by apply clean_unit|by apply clean_pair]. Qed.

Definition printable (s : jsstr) : Prop := Forall (λ u, 32 ≤ u < 127)%N s.

Lemma printable_clean s : printable s → clean s.
Proof.
  induction 1 as [|u s Hu _ IH]; [constructor|]. apply clean_unit; [lia| |done].
  unfold is_surrogate. rewrite (proj2 (N.leb_gt 55296 u)) by lia. done.
Qed.

Lemma printable_app s t : printable s → printable t → printable (s ++ t).
Proof. intros. by apply Forall_app. Qed.
Lemma digits_printable ds : digits ds → printable ds.
Proof. intros H. eapply Forall_impl; [exact H|]. intros c Hc. apply is_digit_range in Hc. lia. Qed.

Definition printable_b (s : jsstr) : bool := forallb (λ u, (32 <=? u)%N && (u <? 127)%N) s.
Lemma printable_lit s : printable_b s = true → printable s.
Proof.
  intros Hs. apply forallb_Forall in Hs. eapply Forall_impl; [exact Hs|].
  intros u Hu. cbv beta in Hu. bool_hyps. lia.
Qed.
Lemma clean_lit s : printable_b s = true → clean s.
Proof. intros. by apply printable_clean, printable_lit. Qed.

Lemma string_of_num_printable n : printable (string_of_num n).
Proof.
  assert (Hdig : ∀ n, printable (string_of_N n)) by (intros; apply digits_printable, string_of_N_digits).
  assert (Hzero : ∀ n, printable (replicate n 48%N)) by (intros; apply digits_printable, replicate_digits).
  assert (Hz : ∀ z, printable (string_of_Z z)).
  { intros z. rewrite string_of_Z_sign. apply printable_app; [|done].
    destruct (z <? 0)%Z; by apply printable_lit. }
  destruct n as [s|s| |s m e]; [by apply printable_lit..|]. cbn [string_of_num].
  destruct (num_safe_integer _); [apply Hz|].
  destruct (shortest_decimal _) as [neg [d y]]. unfold format_decimal.
  destruct (strip d y) as [t z].
  assert (Ht : ∀ n, printable (take n (string_of_N t))) by (intros; apply Forall_take, Hdig).
  assert (Hd : ∀ n, printable (drop n (string_of_N t))) by (intros; apply Forall_drop, Hdig).
  repeat case_match; repeat apply printable_app; auto; by apply printable_lit.
Qed.

Lemma quote_unit_clean u t : (u < 65536)%N → clean t → clean (quote_unit u ++ t).
Proof.
  intros Hu Ht. unfold quote_unit.
  repeat (case_match; [apply clean_app; [apply printable_clean; by repeat constructor|done]|]).
  destruct ((u <? 32)%N || is_surrogate u) eqn:E.
  - apply clean_app; [|done]. apply printable_clean. unfold hex4. cbn [app].
    assert (Hd : ∀ d, (d < 16)%N → (32 ≤ hex_digit d < 127)%N)
      by (intros d Hd; unfold hex_digit; destruct (d <? 10)%N eqn:?; bool_hyps; lia).
    do 2 (constructor; [lia|]). repeat constructor; by apply Hd, N.mod_lt.
  - bool_hyps. apply clean_unit; [lia|done|done].
Qed.

Lemma quote_units_clean s t : str_wf s → clean t → clean (quote_units s ++ t).
Proof.
  intros Hs Ht. assert (Hlen : ∀ n s, (length s ≤ n)%nat → str_wf s → clean (quote_units s ++ t)).
  { clear s Hs. intros n. induction n as [|n IH]; intros s Hn Hs;
      (destruct s as [|h s]; [done|]); [simpl in Hn; lia|].
    apply Forall_cons in Hs as [Hh Hs]. destruct s as [|l s]; [by apply quote_unit_clean|].
    change (quote_units (h :: l :: s)) with
      (if is_high_surrogate h && is_low_surrogate l
       then h :: l :: quote_units s else quote_unit h ++ quote_units (l :: s)).
    simpl in Hn. destruct (is_high_surrogate h && is_low_surrogate l) eqn:E.
    - bool_hyps. apply Forall_cons in Hs as [_ Hs]. apply clean_pair; [done..|]. apply IH; [lia|done].
    - rewrite <- (assoc_L (++)). apply quote_unit_clean; [done|]. apply IH; [simpl; lia|done]. }
  by eapply Hlen.
Qed.

Lemma quote_string_clean s : str_wf s → clean (quote_string s).
Proof.
  intros Hs. unfold quote_string. apply clean_unit; [lia|done|].
  apply quote_units_clean; [done|]. apply printable_clean. by repeat constructor.
Qed.

Lemma join_clean l : Forall clean l → clean (join (js ",") l).
Proof.
  intros H. induction H as [|s l Hs Hl IH]; [constructor|]. destruct l as [|s' l]; [done|].
  change (join (js ",") (s :: s' :: l)) with (s ++ js "," ++ join (js ",") (s' :: l)).
  repeat apply clean_app; [done| |done]. apply printable_clean. by repeat constructor.
Qed.

(** Canonical text is clean. *)
Lemma serialize_clean j : json_ok j → clean (serializeCaptured j).
Proof.
  induction j as [|b|n|s|items IH|props IH] using json_nested_ind; intros Hok.
  - by apply clean_lit.
  - by destruct b; apply clean_lit.
  - apply printable_clean, string_of_num_printable.
  - apply quote_string_clean. by apply json_ok_str.
  - apply json_ok_arr in Hok. cbn [serializeCaptured].
    repeat apply clean_app; [by apply clean_lit| |by apply clean_lit].
    apply join_clean, Forall_fmap. by eapply Forall_mp.
  - apply json_ok_obj in Hok as (_ & Hwf & Hok). rewrite serialize_obj.
    repeat apply clean_app; [by apply clean_lit| |by apply clean_lit].
    apply join_clean, Forall_fmap. rewrite sort_by_Permutation.
    pose proof (Forall_mp (λ p, json_ok p.2) (λ p, clean (serializeCaptured p.2)) _ IH Hok) as Hc.
    assert (Forall (λ p, str_wf p.1) props) as Hkeys by (revert Hwf; apply Forall_fmap).
    clear IH Hok Hwf. induction Hc as [|p l Hp Hc IH]; [constructor|].
    apply Forall_cons in Hkeys as [Hk Hkeys]. constructor; [|by apply IH].
    unfold member_text. apply clean_app; [by apply quote_string_clean|].
    apply clean_app; [by apply clean_lit|exact Hp].
Qed.

Lemma clean_no_newline s : clean s → 10%N ∉ s.
Proof.
  induction 1 as [|u t Hu Hs _ IH|h l t Hh Hl _ IH]; [by apply not_elem_of_nil|..].
  - rewrite elem_of_cons. intros [?|?]; [lia|done].
  - unfold is_high_surrogate, is_low_surrogate in *. bool_hyps.
    rewrite !elem_of_cons. intros [?|[?|?]]; [lia|lia|done].
Qed.

(** ** The canonical form *)

Lemma canonical_form_arr items : canonical_form (JArr items) = JArr (map canonical_form items).
Proof. done. Qed.

Lemma map_keys {A B} (f : A → B) (m : list (jsstr * A)) : ((λ p, (p.1, f p.2)) <$> m).*1 = m.*1.
Proof. by rewrite <- list_fmap_compose. Qed.

(** The canonical form of a tree is a tree. *)
Lemma canonical_form_ok j : json_ok j → json_ok (canonical_form j).
Proof.
  induction j as [|b|n|s|items IH|props IH] using json_nested_ind; intros Hok; try done.
  - apply json_ok_num in Hok. apply json_ok_num. by destruct n.
  - apply json_ok_arr in Hok. rewrite canonical_form_arr. apply json_ok_arr, Forall_fmap. by eapply Forall_mp.
  - apply json_ok_obj in Hok as (Hnd & Hwf & Hok). cbn [canonical_form].
    change (map ?f props) with (f <$> props). apply json_ok_obj.
    rewrite own_order_keys, own_order_Permutation, !sort_by_Permutation, !map_keys.
    split_and!; [done..|]. apply Forall_fmap.
    eapply Forall_impl; [exact (Forall_mp (λ p, json_ok p.2) (λ p, json_ok (canonical_form p.2)) _ IH Hok)|].
    done.
Qed.

Lemma canonical_form_idem j : json_ok j → canonical_form (canonical_form j) = canonical_form j.
Proof.
  induction j as [|b|n|s|items IH|props IH] using json_nested_ind; intros Hok; try done.
  - by destruct n.
  - apply json_ok_arr in Hok. rewrite !canonical_form_arr. f_equal.
    change (map ?f (map ?g items)) with (f <$> (g <$> items)). rewrite <- list_fmap_compose.
    apply list_fmap_ext. intros i x Hx. rewrite Forall_forall in IH, Hok.
    apply IH; [|apply Hok]; by eapply list_elem_of_lookup_2.
  - pose proof Hok as Hok'. apply json_ok_obj in Hok as (Hnd & Hwf & Hok).
    set (m := sort_by compare_keys ((λ p : jsstr * json, (p.1, canonical_form p.2)) <$> props)).
    change (canonical_form (JObj props)) with (JObj (own_order m)).
    assert (m.*1 ≡ₚ props.*1) as Hkeys by (unfold m; by rewrite sort_by_Permutation, map_keys).
    apply canonical_form_obj; [by rewrite Hkeys..|apply (sort_by_sorted compare_keys)|].
    unfold m. rewrite sort_by_Permutation. apply Forall_fmap.
    eapply Forall_impl; [exact (Forall_mp (λ p, json_ok p.2)
      (λ p, canonical_form (canonical_form p.2) = canonical_form p.2) _ IH Hok)|]. done.
Qed.

(** It prints the same text. *)
Lemma serialize_canonical j : json_ok j → serializeCaptured (canonical_form j) = serializeCaptured j.
Proof.
  induction j as [|b|n|s|items IH|props IH] using json_nested_ind; intros Hok; try done.
  - by destruct n.
  - apply json_ok_arr in Hok. rewrite canonical_form_arr. cbn [serializeCaptured]. do 3 f_equal.
    change (map ?f (map ?g items)) with (f <$> (g <$> items)). rewrite <- list_fmap_compose.
    apply list_fmap_ext. intros i x Hx. rewrite Forall_forall in IH, Hok.
    apply IH; [|apply Hok]; by eapply list_elem_of_lookup_2.
  - apply json_ok_obj in Hok as (Hnd & Hwf & Hok). cbn [canonical_form]. rewrite !serialize_obj.
    do 3 f_equal. change (map (λ p, (p.1, canonical_form p.2)) props) with
      ((λ p : jsstr * json, (p.1, canonical_form p.2)) <$> props).
    set (f := λ p : jsstr * json, (p.1, canonical_form p.2)).
    rewrite (sort_by_unique compare_keys _ (f <$> props)).
    + rewrite <- (sort_by_fmap f compare_keys) by done. change (map ?g ?l) with (g <$> l).
      rewrite <- list_fmap_compose. apply list_fmap_ext. intros i p Hp.
      assert (p ∈ props) as Hin by (rewrite <- elem_of_sort_by; by eapply list_elem_of_lookup_2).
      rewrite Forall_forall in IH, Hok. unfold compose, member_text. cbn [fst snd f].
      by rewrite (IH p Hin (Hok p Hin)).
    + by rewrite own_order_Permutation, sort_by_Permutation.
    + intros p q. apply compare_keys_antisym; rewrite own_order_keys, sort_by_Permutation; unfold f; by rewrite map_keys.
Qed.

(** ** The properties of a canonical object *)

Lemma get_own_permutation {A} k (m1 m2 : list (jsstr * A)) :
  NoDup m1.*1 → m1 ≡ₚ m2 → get_own k m1 = get_own k m2.
Proof.
  intros Hnd Hp. unfold get_own. pose proof Hnd as Hnd2. rewrite Hp in Hnd2.
  destruct (map_get k m1) as [v|] eqn:E.
  - apply map_get_Some_elem in E. rewrite Hp in E. symmetry. by apply map_get_NoDup.
  - apply map_get_None in E. rewrite Hp in E. symmetry. by apply map_get_None.
Qed.

Lemma get_own_map {A B} (f : A → B) k (m : list (jsstr * A)) :
  get_own k ((λ p, (p.1, f p.2)) <$> m) = f <$> get_own k m.
Proof.
  unfold get_own. induction m as [|[k' v] m IH]; [done|]. csimpl. by case_decide || (case_bool_decide; [done|]).
Qed.

Definition canonical_props (props : list (jsstr * json)) : list (jsstr * json) :=
  own_order (sort_by compare_keys (map (λ p, (p.1, canonical_form p.2)) props)).

Lemma canonical_props_perm props : canonical_props props ≡ₚ map (λ p, (p.1, canonical_form p.2)) props.
Proof. unfold canonical_props. by rewrite own_order_Permutation, sort_by_Permutation. Qed.

Lemma canonical_props_keys props : (canonical_props props).*1 ≡ₚ props.*1.
Proof.
  rewrite canonical_props_perm. change (map ?f props) with (f <$> props).
  by rewrite <- list_fmap_compose.
Qed.

Lemma get_own_canonical k props :
  NoDup props.*1 → get_own k (canonical_props props) = canonical_form <$> get_own k props.
Proof.
  intros Hnd. rewrite <- (get_own_map canonical_form). apply get_own_permutation.
  - by rewrite canonical_props_keys.
  - apply canonical_props_perm.
Qed.
