(* ===== verification/Utf8.v ===== *)
(** * UTF-8

    What [Buffer] and [TextDecoder] do between JavaScript strings and bytes.  The
    encoder replaces a lone surrogate by U+FFFD; the decoder is the fatal one,
    which rejects every ill-formed sequence and drops a leading byte order mark, or the
    one of [buffer.toString("utf8")], which never fails. *)
From S2P Require Import Prelude JsString JsNumber JsValue JsonText NumberText Canonical CanonicalSpec.
From S2P Require Import JsonRoundTrip.

(** ** Encoding *)

Definition utf8_point (c : N) : list N :=
  if (c <? 128)%N then [c]
  else if (c <? 2048)%N then [192 + c `div` 64; 128 + c `mod` 64]%N
  else if (c <? 65536)%N then [224 + c `div` 4096; 128 + c `div` 64 `mod` 64; 128 + c `mod` 64]%N
  else [240 + c `div` 262144; 128 + c `div` 4096 `mod` 64; 128 + c `div` 64 `mod` 64; 128 + c `mod` 64]%N.

Definition utf8_encode (s : jsstr) : list N :=
  code_points s ≫= λ c, utf8_point (if is_surrogate c then 65533%N else c).

(** ** Decoding *)

Definition is_continuation (b : N) : bool := (128 <=? b)%N && (b <=? 191)%N.

(** The code point at the head of the bytes, and the bytes after it. *)
Definition decode_point (bytes : list N) : option (N * list N) :=
  match bytes with
  | [] => None
  | b :: r =>
      if (b <? 128)%N then Some (b, r)
      else if (194 <=? b)%N && (b <=? 223)%N then
        match r with
        | c1 :: r => if is_continuation c1 then Some ((b - 192) * 64 + (c1 - 128), r)%N else None
        | _ => None
        end
      else if (224 <=? b)%N && (b <=? 239)%N then
        match r with
        | c1 :: c2 :: r =>
            let c := ((b - 224) * 4096 + (c1 - 128) * 64 + (c2 - 128))%N in
            if is_continuation c1 && is_continuation c2 && (2048 <=? c)%N && negb (is_surrogate c)
            then Some (c, r) else None
        | _ => None
        end
      else if (240 <=? b)%N && (b <=? 244)%N then
        match r with
        | c1 :: c2 :: c3 :: r =>
            let c := ((b - 240) * 262144 + (c1 - 128) * 4096 + (c2 - 128) * 64 + (c3 - 128))%N in
            if is_continuation c1 && is_continuation c2 && is_continuation c3 &&
               (65536 <=? c)%N && (c <? 1114112)%N
            then Some (c, r) else None
        | _ => None
        end
      else None
  end.

Fixpoint decode_points (fuel : nat) (bytes : list N) : option (list N) :=
  match fuel with
  | 0 => match bytes with [] => Some [] | _ => None end
  | S fuel =>
      match bytes with
      | [] => Some []
      | _ =>
          match decode_point bytes with
          | Some (c, r) => match decode_points fuel r with Some cs => Some (c :: cs) | None => None end
          | None => None
          end
      end
  end.

Definition byte_order_mark : N := 65279%N.

(** [new TextDecoder("utf-8", { fatal: true }).decode(bytes)]: a code point takes at
    least one byte, so the length of the bytes is enough fuel. *)
Definition utf8_decode (bytes : list N) : option jsstr :=
  match decode_points (length bytes) bytes with
  | Some cs =>
      let cs := match cs with c :: r => if (c =? byte_order_mark)%N then r else cs | [] => [] end in
      Some (cs ≫= encode_point)
  | None => None
  end.

(** ** Lemmas *)
#[local] Ltac Zify.zify_post_hook ::= Z.to_euclidean_division_equations.

Definition scalar (c : N) : Prop := (c < 1114112)%N ∧ is_surrogate c = false.

Lemma decode_utf8_point c r : scalar c → decode_point (utf8_point c ++ r) = Some (c, r).
Proof.
  intros [Hc Hs]. unfold utf8_point.
  destruct (c <? 128)%N eqn:E1; [cbn [app decode_point]; by rewrite E1|]. bool_hyps.
  destruct (c <? 2048)%N eqn:E2; bool_hyps.
  { cbn [app decode_point]. unfold is_continuation.
    rewrite (proj2 (N.ltb_ge _ _)) by lia.
    rewrite !(proj2 (N.leb_le _ _)) by lia. cbn [andb]. do 2 f_equal. lia. }
  destruct (c <? 65536)%N eqn:E3; bool_hyps.
  { cbn [app decode_point].
    rewrite (proj2 (N.ltb_ge _ _)), (proj2 (N.leb_le 194 _)), (proj2 (N.leb_gt _ 223)) by lia. cbn [andb].
    rewrite (proj2 (N.leb_le 224 _)), (proj2 (N.leb_le _ 239)) by lia. cbn [andb].
    assert ((224 + c `div` 4096 - 224) * 4096 + (128 + c `div` 64 `mod` 64 - 128) * 64 + (128 + c `mod` 64 - 128) = c)%N as -> by lia.
    unfold is_continuation. rewrite !(proj2 (N.leb_le _ _)) by lia. by rewrite Hs. }
  cbn [app decode_point].
  rewrite (proj2 (N.ltb_ge _ 128)), (proj2 (N.leb_le 194 _)), (proj2 (N.leb_gt _ 223)) by lia. cbn [andb].
  rewrite (proj2 (N.leb_le 224 _)), (proj2 (N.leb_gt _ 239)) by lia. cbn [andb].
  rewrite (proj2 (N.leb_le 240 _)), (proj2 (N.leb_le _ 244)) by lia. cbn [andb].
  assert ((240 + c `div` 262144 - 240) * 262144 + (128 + c `div` 4096 `mod` 64 - 128) * 4096 +
    (128 + c `div` 64 `mod` 64 - 128) * 64 + (128 + c `mod` 64 - 128) = c)%N as -> by lia.
  unfold is_continuation. rewrite !(proj2 (N.leb_le _ _)), (proj2 (N.ltb_lt _ _)) by lia. done.
Qed.

Lemma utf8_point_length c : (0 < length (utf8_point c))%nat.
Proof. unfold utf8_point. repeat case_match; simpl; lia. Qed.

Lemma decode_encoded_points cs fuel :
  Forall scalar cs → (length (cs ≫= utf8_point) ≤ fuel)%nat → decode_points fuel (cs ≫= utf8_point) = Some cs.
Proof.
  intros Hcs. revert fuel. induction Hcs as [|c cs Hc _ IH]; intros fuel Hf; [by destruct fuel|].
  rewrite bind_cons in *. rewrite length_app in Hf. pose proof (utf8_point_length c).
  destruct fuel as [|fuel]; [lia|]. cbn [decode_points].
  rewrite decode_utf8_point by done.
  destruct (utf8_point c ++ _) eqn:E; [apply (f_equal length) in E; rewrite length_app in E; simpl in E; lia|].
  by rewrite IH by lia.
Qed.

(** A string without lone surrogates. *)
Definition well_formed_utf16 (s : jsstr) : Prop := str_wf s ∧ Forall scalar (code_points s).

Lemma code_points_unit u t : is_surrogate u = false → code_points (u :: t) = u :: code_points t.
Proof.
  intros Hu. rewrite code_points_cons. destruct t as [|l t]; [done|].
  assert (is_high_surrogate u = false) as ->; [|done].
  unfold is_surrogate, is_high_surrogate in *. destruct (55296 <=? u)%N eqn:E1; [|done].
  bool_hyps. apply N.leb_gt in Hu. apply N.leb_gt. lia.
Qed.

Lemma code_points_pair h l t :
  is_high_surrogate h = true → is_low_surrogate l = true →
  code_points (h :: l :: t) = surrogate_pair h l :: code_points t.
Proof. intros Hh Hl. by rewrite code_points_cons, Hh, Hl. Qed.

(** Clean text ends at a code point boundary. *)
Lemma code_points_clean_app s t : clean s → code_points (s ++ t) = code_points s ++ code_points t.
Proof.
  induction 1 as [|u s Hu Hs _ IH|h l s Hh Hl _ IH]; [done|..]; cbn [app].
  - by rewrite !code_points_unit, IH.
  - by rewrite !code_points_pair, IH.
Qed.

Lemma clean_points s : clean s → Forall scalar (code_points s).
Proof.
  induction 1 as [|u t Hu Hs _ IH|h l t Hh Hl _ IH]; [constructor|..].
  - rewrite code_points_unit by done. constructor; [|done]. split; [lia|done].
  - rewrite code_points_pair by done. constructor; [|done].
    unfold is_high_surrogate, is_low_surrogate, is_surrogate, scalar, surrogate_pair in *. bool_hyps.
    split; [lia|]. unfold is_surrogate. rewrite (proj2 (N.leb_gt _ 57343)) by lia. apply andb_false_r.
Qed.

Lemma clean_wf s : clean s → str_wf s.
Proof.
  induction 1 as [|u t Hu Hs _ IH|h l t Hh Hl _ IH]; [constructor|by constructor; [lia|]|].
  unfold is_high_surrogate, is_low_surrogate in *. bool_hyps. do 2 (constructor; [lia|]). done.
Qed.

Lemma clean_utf16 s : clean s → well_formed_utf16 s.
Proof. intros Hs. split; [by apply clean_wf|by apply clean_points]. Qed.

Lemma utf8_encode_points s : Forall scalar (code_points s) → utf8_encode s = code_points s ≫= utf8_point.
Proof.
  intros Hs. unfold utf8_encode.
  induction Hs as [|c cs [_ Hc] _ IH]; [done|]. rewrite !bind_cons, Hc. by f_equal.
Qed.

Lemma utf8_encode_clean_app s t : clean s → utf8_encode (s ++ t) = utf8_encode s ++ utf8_encode t.
Proof. intros Hs. unfold utf8_encode. by rewrite code_points_clean_app, bind_app. Qed.

Lemma utf8_encode_printable s : printable s → utf8_encode s = s.
Proof.
  induction 1 as [|u s Hu _ IH]; [done|]. unfold utf8_encode in *.
  assert (is_surrogate u = false) as Hsu
    by (unfold is_surrogate; by rewrite (proj2 (N.leb_gt 55296 u)) by lia).
  rewrite code_points_unit, bind_cons, IH, Hsu by done.
  unfold utf8_point. by rewrite (proj2 (N.ltb_lt u 128)) by lia.
Qed.

(** ** The round trip *)

Definition scrub (c : N) : N := if is_surrogate c then 65533%N else c.
Definition drop_bom (cs : list N) : list N :=
  match cs with c :: r => if (c =? byte_order_mark)%N then r else cs | [] => [] end.

Lemma code_points_bound s : str_wf s → Forall (λ c, c < 1114112)%N (code_points s).
Proof.
  assert (Hlen : ∀ n s, (length s ≤ n)%nat → str_wf s → Forall (λ c, c < 1114112)%N (code_points s)).
  { clear s. intros n. induction n as [|n IH]; intros s Hn Hs;
      (destruct s as [|h t]; [constructor|]); [simpl in Hn; lia|].
    apply Forall_cons in Hs as [Hh Ht]. rewrite code_points_cons. simpl in Hn.
    destruct t as [|l t]; [constructor; [lia|constructor]|].
    destruct (is_high_surrogate h && is_low_surrogate l) eqn:E.
    - apply Forall_cons in Ht as [Hl Ht]. constructor; [|apply IH; [simpl in Hn; lia|done]].
      unfold surrogate_pair, is_high_surrogate, is_low_surrogate in *. bool_hyps. lia.
    - constructor; [lia|]. apply IH; [lia|done]. }
  intros. by eapply Hlen.
Qed.

Lemma utf8_decode_scrubbed s :
  str_wf s →
  utf8_decode (utf8_encode s) = Some (drop_bom (scrub <$> code_points s) ≫= encode_point).
Proof.
  intros Hs. apply code_points_bound in Hs.
  assert (utf8_encode s = (scrub <$> code_points s) ≫= utf8_point) as ->.
  { unfold utf8_encode. induction (code_points s) as [|c cs IH]; [done|].
    apply Forall_cons in Hs as [_ Hs]. csimpl. by rewrite IH. }
  unfold utf8_decode. rewrite decode_encoded_points; [done| |done].
  apply Forall_fmap. eapply Forall_impl; [exact Hs|]. intros c Hc. unfold compose, scrub, scalar.
  destruct (is_surrogate c) eqn:E; [done|]. by rewrite E.
Qed.

Lemma scrub_same cs :
  (scrub <$> cs) ≫= encode_point = cs ≫= encode_point → Forall (λ c, is_surrogate c = false) cs.
Proof.
  induction cs as [|c cs IH]; [constructor|]. csimpl. intros H.
  assert (encode_point (scrub c) = encode_point c ∧ (scrub <$> cs) ≫= encode_point = cs ≫= encode_point)
    as [Hc Hcs].
  { apply app_inj_1; [|done]. unfold encode_point, scrub.
    destruct (is_surrogate c) eqn:E; [|done]. unfold is_surrogate in E. bool_hyps.
    by rewrite !(proj2 (N.ltb_lt _ _)) by lia. }
  constructor; [|by apply IH]. unfold scrub in Hc. destruct (is_surrogate c) eqn:E; [|done].
  pose proof E as E'. unfold is_surrogate in E'. bool_hyps. unfold encode_point in Hc.
  rewrite !(proj2 (N.ltb_lt _ _)) in Hc by lia. injection Hc as <-. done.
Qed.

Lemma drop_bom_bind cs :
  head cs = Some byte_order_mark → drop_bom cs ≫= encode_point ≠ cs ≫= encode_point.
Proof.
  destruct cs as [|c cs]; [done|]. intros [= ->]. cbn [drop_bom]. rewrite N.eqb_refl, bind_cons.
  intros H. apply (f_equal length) in H. rewrite length_app in H. simpl in H. lia.
Qed.

Lemma drop_bom_id cs : head cs ≠ Some byte_order_mark → drop_bom cs = cs.
Proof.
  destruct cs as [|c cs]; [done|]. intros H. cbn [drop_bom].
  destruct (c =? byte_order_mark)%N eqn:E; bool_hyps; [|done]. by subst.
Qed.

Lemma utf8_round_trip_iff s :
  str_wf s →
  utf8_decode (utf8_encode s) = Some s ↔
  well_formed_utf16 s ∧ head (code_points s) ≠ Some byte_order_mark.
Proof.
  intros Hs. rewrite utf8_decode_scrubbed by done.
  pose proof (encode_code_points s Hs) as Henc. pose proof (code_points_bound s Hs) as Hb.
  assert (Hhead : head (scrub <$> code_points s) = Some byte_order_mark ↔
    head (code_points s) = Some byte_order_mark).
  { destruct (code_points s) as [|c cs]; [done|]. simpl. unfold scrub.
    destruct (is_surrogate c) eqn:E; [|done]. split; [done|]. intros [= ->]. done. }
  split.
  - intros [= H]. rewrite <- Henc in H at 2.
    destruct (decide (head (code_points s) = Some byte_order_mark)) as [Hbom|Hbom].
    + exfalso. apply Hhead in Hbom. apply (f_equal length) in H.
      assert (length ((scrub <$> code_points s) ≫= encode_point) = length (code_points s ≫= encode_point)) as Hl.
      { clear. induction (code_points s) as [|c cs IH]; [done|]. csimpl. rewrite !length_app, IH. f_equal.
        unfold scrub. destruct (is_surrogate c) eqn:E; [|done]. unfold is_surrogate in E. bool_hyps.
        unfold encode_point. by rewrite !(proj2 (N.ltb_lt _ _)) by lia. }
      destruct (scrub <$> code_points s) as [|c cs]; [done|]. injection Hbom as ->.
      cbn [drop_bom] in H. rewrite N.eqb_refl in H. rewrite bind_cons, length_app in Hl.
      simpl in Hl. lia.
    + split; [|done]. rewrite drop_bom_id in H by (by rewrite Hhead). apply scrub_same in H.
      split; [done|]. clear -H Hb. induction H as [|c cs Hc _ IH]; [constructor|].
      apply Forall_cons in Hb as [Hb1 Hb]. constructor; [by split|by apply IH].
  - intros [[_ Hsc] Hbom]. rewrite drop_bom_id by (by rewrite Hhead). rewrite <- Henc at 2. do 2 f_equal.
    clear -Hsc. induction Hsc as [|c cs [_ Hc] _ IH]; [done|]. csimpl. rewrite IH. unfold scrub. by rewrite Hc.
Qed.

Lemma utf8_round_trip s :
  well_formed_utf16 s → head (code_points s) ≠ Some byte_order_mark →
  utf8_decode (utf8_encode s) = Some s.
Proof. intros Hs Hbom. apply utf8_round_trip_iff; [apply Hs|done]. Qed.

(** ** Reading bytes as text without failing

    [buffer.toString("utf8")] and [readFile(path, "utf8")]: the decoder of the
    WHATWG standard, which replaces every maximal ill-formed sequence by U+FFFD and
    keeps a byte order mark.  It is the left inverse of the encoder on the texts
    that the encoder does not change. *)
#[local] Ltac Zify.zify_post_hook ::= Z.to_euclidean_division_equations.

Definition replacement : N := 65533%N.

(** The decoder between two bytes: at the start of a character, or with [needed]
    continuation bytes to come, of which the next lies between two bounds. *)
Inductive decoder :=
  | Start
  | Within (needed : nat) (point lower upper : N).

(** A byte at the start of a character: the points it completes and the next state *)
Definition first_byte (b : N) : list N * decoder :=
  if (b <? 128)%N then ([b], Start)
  else if (194 <=? b)%N && (b <=? 223)%N then ([], Within 1 (b - 192) 128 191)
  else if (224 <=? b)%N && (b <=? 239)%N then
    ([], Within 2 (b - 224) (if (b =? 224)%N then 160 else 128) (if (b =? 237)%N then 159 else 191))
  else if (240 <=? b)%N && (b <=? 244)%N then
    ([], Within 3 (b - 240) (if (b =? 240)%N then 144 else 128) (if (b =? 244)%N then 143 else 191))
  else ([replacement], Start).

Definition next_byte (d : decoder) (b : N) : list N * decoder :=
  match d with
  | Start => first_byte b
  | Within needed point lower upper =>
      if (lower <=? b)%N && (b <=? upper)%N then
        let point := (point * 64 + (b - 128))%N in
        match needed with
        | 0 | 1 => ([point], Start)
        | S needed => ([], Within needed point 128 191)
        end
      else let '(points, d) := first_byte b in (replacement :: points, d)
  end.

Fixpoint lossy_points (d : decoder) (bytes : list N) : list N :=
  match bytes with
  | [] => match d with Start => [] | Within _ _ _ _ => [replacement] end
  | b :: bytes => let '(points, d) := next_byte d b in points ++ lossy_points d bytes
  end.

(** [Buffer.from(bytes).toString("utf8")] *)
Definition utf8_text (bytes : list N) : jsstr := lossy_points Start bytes ≫= encode_point.

(** ** The bytes of a character *)

Lemma next_byte_within n point lower upper b :
  (lower ≤ b ≤ upper)%N →
  next_byte (Within (S n) point lower upper) b =
  match n with
  | 0 => ([point * 64 + (b - 128)]%N, Start)
  | S _ => ([], Within n (point * 64 + (b - 128))%N 128 191)
  end.
Proof.
  intros [Hl Hu]. cbn [next_byte].
  rewrite (proj2 (N.leb_le _ _) Hl), (proj2 (N.leb_le _ _) Hu). by destruct n.
Qed.

Lemma lossy_point c rest : scalar c → lossy_points Start (utf8_point c ++ rest) = c :: lossy_points Start rest.
Proof.
  intros [Hc Hs]. unfold is_surrogate in Hs. unfold utf8_point.
  destruct (c <? 128)%N eqn:E1; [cbn [app lossy_points next_byte]; unfold first_byte; by rewrite E1|]. bool_hyps.
  destruct (c <? 2048)%N eqn:E2; [|destruct (c <? 65536)%N eqn:E3]; bool_hyps; cbn [app lossy_points].
  - change (next_byte Start ?b) with (first_byte b). unfold first_byte.
    rewrite (proj2 (N.ltb_ge _ 128)), (proj2 (N.leb_le 194 _)), (proj2 (N.leb_le _ 223)) by lia.
    cbn [app andb lossy_points]. rewrite next_byte_within by lia. cbn [app]. f_equal. lia.
  - change (next_byte Start ?b) with (first_byte b). unfold first_byte.
    rewrite (proj2 (N.ltb_ge _ 128)), (proj2 (N.leb_gt _ 223)), andb_false_r by lia.
    rewrite (proj2 (N.leb_le 224 _)), (proj2 (N.leb_le _ 239)) by lia. cbn [app andb lossy_points].
    rewrite next_byte_within.
    2: { apply andb_false_iff in Hs. rewrite !N.leb_gt in Hs.
         destruct (_ =? 224)%N eqn:Ea, (_ =? 237)%N eqn:Eb; bool_hyps; lia. }
    cbn [app lossy_points]. rewrite next_byte_within by lia. cbn [app]. f_equal. lia.
  - change (next_byte Start ?b) with (first_byte b). unfold first_byte.
    rewrite (proj2 (N.ltb_ge _ 128)), (proj2 (N.leb_gt _ 223)), andb_false_r by lia.
    rewrite (proj2 (N.leb_gt _ 239)), andb_false_r by lia.
    rewrite (proj2 (N.leb_le 240 _)), (proj2 (N.leb_le _ 244)) by lia. cbn [app andb lossy_points].
    rewrite next_byte_within by (destruct (_ =? 240)%N eqn:Ea, (_ =? 244)%N eqn:Eb; bool_hyps; lia).
    cbn [app lossy_points]. rewrite next_byte_within by lia. cbn [app lossy_points].
    rewrite next_byte_within by lia. cbn [app]. f_equal. lia.
Qed.

Lemma lossy_encoded cs : Forall scalar cs → lossy_points Start (cs ≫= utf8_point) = cs.
Proof.
  induction 1 as [|c cs Hc _ IH]; [done|]. rewrite bind_cons, lossy_point by done. by rewrite IH.
Qed.

(** What is written is read. *)
Lemma utf8_text_encode s : well_formed_utf16 s → utf8_text (utf8_encode s) = s.
Proof.
  intros [Hs Hp]. unfold utf8_text. rewrite utf8_encode_points, lossy_encoded by done. by apply encode_code_points.
Qed.

(** Whatever the bytes, the text is a string of the language. *)
Lemma encode_point_wf c : (c < 1114112)%N → str_wf (encode_point c).
Proof.
  intros Hc. unfold encode_point. destruct (c <? 65536)%N eqn:E; bool_hyps; repeat constructor; lia.
Qed.

(** The points a decoder can end with: below 0x110000 and not among the surrogates *)
Definition lowest (needed : nat) (point lower : N) : N :=
  (point * 64 ^ N.of_nat needed + (lower - 128) * 64 ^ N.of_nat (needed - 1))%N.
Definition highest (needed : nat) (point upper : N) : N :=
  (point * 64 ^ N.of_nat needed + (upper - 128) * 64 ^ N.of_nat (needed - 1) + 64 ^ N.of_nat (needed - 1))%N.
Definition decoder_ok (d : decoder) : Prop :=
  match d with
  | Start => True
  | Within needed point lower upper =>
      (128 ≤ lower)%N ∧ (upper ≤ 191)%N ∧ 0 < needed ≤ 3 ∧ (highest needed point upper ≤ 1114112)%N ∧
      (highest needed point upper ≤ 55296 ∨ 57344 ≤ lowest needed point lower)%N
  end.

Lemma scalar_below c : (c < 55296 ∨ 57344 ≤ c < 1114112)%N → scalar c.
Proof.
  intros Hc. split; [lia|]. unfold is_surrogate. apply andb_false_iff. rewrite !N.leb_gt. lia.
Qed.

Lemma first_byte_ok b : (b < 256)%N → Forall scalar (first_byte b).1 ∧ decoder_ok (first_byte b).2.
Proof.
  intros Hb. unfold first_byte, decoder_ok, highest, lowest.
  destruct (b <? 128)%N eqn:E1; [simpl; split; [constructor; [apply scalar_below; bool_hyps; lia|done]|done]|].
  destruct ((194 <=? b)%N && (b <=? 223)%N) eqn:E2; [bool_hyps; simpl; split; [done|]; lia|].
  destruct ((224 <=? b)%N && (b <=? 239)%N) eqn:E3.
  { bool_hyps. cbn [fst snd]. split; [done|]. change (N.of_nat 2) with 2%N. change (N.of_nat (2 - 1)) with 1%N.
    destruct (b =? 224)%N eqn:?, (b =? 237)%N eqn:?; bool_hyps; lia. }
  destruct ((240 <=? b)%N && (b <=? 244)%N) eqn:E4; [|simpl; split; [|done]; by repeat constructor].
  bool_hyps. cbn [fst snd]. split; [done|]. change (N.of_nat 3) with 3%N. change (N.of_nat (3 - 1)) with 2%N.
  destruct (b =? 240)%N eqn:?, (b =? 244)%N eqn:?; bool_hyps; lia.
Qed.

Lemma within_ok needed point lower upper b :
  decoder_ok (Within (S needed) point lower upper) → (lower ≤ b ≤ upper)%N →
  match needed with
  | 0 => scalar (point * 64 + (b - 128))
  | _ => decoder_ok (Within needed (point * 64 + (b - 128)) 128 191)
  end.
Proof.
  intros (Hl & Hu & Hn & Hp & Hs) Hb. unfold highest, lowest in *. destruct needed as [|needed].
  - apply scalar_below. simpl in *. lia.
  - unfold decoder_ok, highest, lowest. replace (S (S needed) - 1) with (S needed) in * by lia.
    replace (S needed - 1) with needed by lia.
    rewrite !Nat2N.inj_succ, !N.pow_succ_r' in *.
    pose proof (N.pow_nonzero 64 (N.of_nat needed) ltac:(done)). set (q := (64 ^ N.of_nat needed)%N) in *.
    split_and!; [lia..| |].
    + nia.
    + destruct Hs; [left|right]; nia.
Qed.

Lemma next_byte_ok d b :
  (b < 256)%N → decoder_ok d → Forall scalar (next_byte d b).1 ∧ decoder_ok (next_byte d b).2.
Proof.
  intros Hb Hd. destruct d as [|needed point lower upper]; [by apply first_byte_ok|].
  destruct ((lower <=? b)%N && (b <=? upper)%N) eqn:E.
  - assert (lower ≤ b ≤ upper)%N as Hr by (bool_hyps; lia). destruct needed as [|needed]; [by destruct Hd as (_ & _ & ? & _); lia|].
    rewrite next_byte_within by done. pose proof (within_ok _ _ _ _ _ Hd Hr) as H.
    destruct needed; [split; [by apply Forall_singleton|done]|split; [constructor|done]].
  - cbn [next_byte]. rewrite E. pose proof (first_byte_ok b Hb) as [H1 H2]. destruct (first_byte b) as [points d'].
    split; [by constructor|done].
Qed.

Lemma lossy_points_scalar d bytes :
  Forall (λ b, b < 256)%N bytes → decoder_ok d → Forall scalar (lossy_points d bytes).
Proof.
  intros Hb. revert d. induction Hb as [|b bytes Hb _ IH]; intros d Hd; cbn [lossy_points].
  - destruct d; by repeat constructor.
  - destruct (next_byte_ok d b Hb Hd) as [H1 H2]. destruct (next_byte d b) as [points d'].
    apply Forall_app. split; [done|by apply IH].
Qed.

Lemma code_points_encode c s : scalar c → code_points (encode_point c ++ s) = c :: code_points s.
Proof.
  intros [Hc Hs]. unfold encode_point. destruct (c <? 65536)%N eqn:E; bool_hyps; cbn [app]; [by apply code_points_unit|].
  rewrite code_points_pair; [|unfold is_high_surrogate, is_low_surrogate; apply andb_true_iff; rewrite !N.leb_le; lia..].
  f_equal. unfold surrogate_pair. lia.
Qed.
(** Whatever the bytes, the text has no lone surrogate. *)
Lemma utf8_text_utf16 bytes : Forall (λ b, b < 256)%N bytes → well_formed_utf16 (utf8_text bytes).
Proof.
  intros Hb. unfold utf8_text. induction (lossy_points_scalar Start bytes Hb I) as [|c cs Hc _ [IH1 IH2]]; [split; constructor|].
  rewrite bind_cons. split.
  - apply Forall_app. split; [apply encode_point_wf; by destruct Hc|done].
  - rewrite code_points_encode by done. by constructor.
Qed.

Lemma utf8_text_wf bytes : Forall (λ b, b < 256)%N bytes → str_wf (utf8_text bytes).
Proof. intros Hb. by destruct (utf8_text_utf16 bytes Hb). Qed.
