(* ===== verification/ParsedJson.v ===== *)
(** * What JSON.parse returns

    A parsed tree has distinct keys, strings of code units and doubles, which may be
    infinite: [JSON.parse] reads 1e999 as [Infinity].  A tree without such numbers is
    a tree of the JSON data model.  First: rounding returns a canonical mantissa
    whatever it is given, so that the numbers [JSON.parse] computes, and the conversions
    of integers, are doubles of the format. *)
From Stdlib Require Import SpecFloat.
From S2P Require Import Prelude JsString JsNumber JsValue JsonText NumberText JsonRoundTrip.
From S2P Require Import Prelude JsString JsNumber JsValue JsonText NumberText Canonical JsonRoundTrip.
#[local] Arguments js : simpl never.

(** * Every number of a parsed text is a double *)

(** ** Digits *)

Lemma Zdigits2_bounds m : (0 < m → 0 < Zdigits2 m ∧ 2 ^ (Zdigits2 m - 1) <= m < 2 ^ Zdigits2 m)%Z.
Proof.
  destruct m as [|p|]; [lia| |lia]. intros _. cbn [Zdigits2].
  pose proof (digits2_pos_bound p). pose proof (digits2_pos_lower p). lia.
Qed.

Lemma Zdigits2_unique m d : (0 < m → 0 < d → 2 ^ (d - 1) <= m < 2 ^ d → Zdigits2 m = d)%Z.
Proof. intros Hm Hd H. destruct m as [|p|]; [lia| |lia]. cbn [Zdigits2]. by apply digits2_pos_unique. Qed.

Lemma Zdigits2_nonneg m : (0 ≤ Zdigits2 m)%Z.
Proof. destruct m; simpl; lia. Qed.

Lemma Zdigits2_mono m m' : (0 < m → m ≤ m' → Zdigits2 m ≤ Zdigits2 m')%Z.
Proof.
  intros Hm Hle. destruct (Zdigits2_bounds m Hm) as (_ & Hl & _). destruct (Zdigits2_bounds m') as (_ & _ & Hu); [lia|].
  destruct (Z.le_gt_cases (Zdigits2 m) (Zdigits2 m')) as [|Hgt]; [done|exfalso].
  assert (2 ^ Zdigits2 m' <= 2 ^ (Zdigits2 m - 1))%Z by (apply Z.pow_le_mono_r; lia). lia.
Qed.

(** Dropping the last [n] of more than [n] digits *)
Lemma Zdigits2_div m n : (0 < m → 0 <= n < Zdigits2 m → 0 < m / 2 ^ n ∧ Zdigits2 (m / 2 ^ n) = Zdigits2 m - n)%Z.
Proof.
  intros Hm [Hn Hlt]. destruct (Zdigits2_bounds m Hm) as (_ & Hl & Hu). pose proof (Z.pow_pos_nonneg 2 n).
  assert (2 ^ (Zdigits2 m - n - 1) <= m / 2 ^ n)%Z.
  { apply Z.div_le_lower_bound; [lia|]. rewrite <- Z.pow_add_r by lia.
    by replace (n + (Zdigits2 m - n - 1))%Z with (Zdigits2 m - 1)%Z by lia. }
  assert (m / 2 ^ n < 2 ^ (Zdigits2 m - n))%Z.
  { apply Z.div_lt_upper_bound; [lia|]. rewrite <- Z.pow_add_r by lia.
    by replace (n + (Zdigits2 m - n))%Z with (Zdigits2 m) by lia. }
  pose proof (Z.pow_pos_nonneg 2 (Zdigits2 m - n - 1)).
  split; [lia|]. apply Zdigits2_unique; lia.
Qed.

Lemma Zdigits2_div_small m n : (0 <= m → Zdigits2 m <= n → m / 2 ^ n = 0)%Z.
Proof.
  intros Hm Hle. destruct (Z.eq_dec m 0) as [->|Hne]; [apply Z.div_0_l; pose proof (Z.pow_pos_nonneg 2 n); simpl in *; lia|].
  destruct (Zdigits2_bounds m) as (Hd & _ & Hu); [lia|]. apply Z.div_small. split; [done|].
  assert (2 ^ Zdigits2 m <= 2 ^ n)%Z by (apply Z.pow_le_mono_r; lia). lia.
Qed.

(** ** Shifting and rounding *)

Lemma shr_1_m r : (0 <= shr_m r → shr_m (shr_1 r) = shr_m r / 2)%Z.
Proof.
  destruct r as [m b s]. cbn [shr_m]. intros Hm. destruct m as [|[p|p|]|p]; simpl; [done| | |done|lia].
  - rewrite Pos2Z.inj_xI. apply (Z.div_unique _ 2 _ 1); lia.
  - rewrite Pos2Z.inj_xO. apply (Z.div_unique _ 2 _ 0); lia.
Qed.

Lemma iter_shr_1_m n r : (0 <= shr_m r → shr_m (Nat.iter n shr_1 r) = shr_m r / 2 ^ Z.of_nat n)%Z.
Proof.
  intros Hm. induction n as [|n IH]; [by rewrite Z.div_1_r|]. rewrite Nat.iter_succ, shr_1_m.
  - rewrite IH, Nat2Z.inj_succ, Z.pow_succ_r by lia. rewrite Z.mul_comm, Z.div_div; [done| |lia]. pose proof (Z.pow_pos_nonneg 2 (Z.of_nat n)). lia.
  - rewrite IH. apply Z.div_pos; [done|]. pose proof (Z.pow_pos_nonneg 2 (Z.of_nat n)). lia.
Qed.

Lemma shr_record_m m l : shr_m (shr_record_of_loc m l) = m.
Proof. by destruct l as [|[]]. Qed.

Abbreviation FE := (fexp 53 1024).

Lemma fexp_value x : FE x = Z.max (x - 53) (-1074).
Proof. done. Qed.

(** The shift to the exponent of the format *)
Lemma shr_fexp_spec m e l :
  (0 <= m → e <= FE (Zdigits2 m + e) →
   shr_m (shr_fexp 53 1024 m e l).1 = m / 2 ^ (FE (Zdigits2 m + e) - e) ∧
   (shr_fexp 53 1024 m e l).2 = FE (Zdigits2 m + e))%Z.
Proof.
  intros Hm He. unfold shr_fexp. set (n := (FE (Zdigits2 m + e) - e)%Z).
  unfold shr. destruct n as [|k|k] eqn:En; [| |lia]; cbn [fst snd].
  - rewrite shr_record_m. split; [by rewrite Z.div_1_r|lia].
  - rewrite iter_pos_add, iter_shr_1_m, shr_record_m by (by rewrite shr_record_m).
    rewrite positive_nat_Z. split; [done|lia].
Qed.

(** A mantissa whose digits fit the exponent *)
Lemma canonical_bounded m e : (FE (Zpos (digits2_pos m) + e) = e → e <= 971 → bounded 53 1024 m e = true)%Z.
Proof.
  intros H1 H2. unfold bounded, canonical_mantissa. apply andb_true_intro. split; [by apply Z.eqb_eq|].
  by apply Z.leb_le.
Qed.

Lemma binary_round_aux_ok s m e l : (0 <= m → e <= FE (Zdigits2 m + e) → num_ok (binary_round_aux 53 1024 s m e l))%Z.
Proof.
  intros Hm He. unfold binary_round_aux.
  destruct (shr_fexp_spec m e l Hm He) as [Hm1 He1].
  destruct (shr_fexp 53 1024 m e l) as [mrs e1]. cbn [fst snd] in *.
  set (m2 := round_nearest_even _ _).
  assert (0 ≤ shr_m mrs)%Z as Hpos.
  { rewrite Hm1. apply Z.div_pos; [done|]. apply Z.pow_pos_nonneg; lia. }
  assert (m2 = shr_m mrs ∨ m2 = shr_m mrs + 1)%Z as Hm2.
  { unfold m2, round_nearest_even. repeat case_match; lia. }
  assert (Hd : (Zdigits2 m <= FE (Zdigits2 m + e) - e ∧ shr_m mrs = 0 ∧ e1 = -1074 ∨
    0 < shr_m mrs ∧ Zdigits2 (shr_m mrs) + e1 = Zdigits2 m + e)%Z).
  { destruct (Z.le_gt_cases (Zdigits2 m) (FE (Zdigits2 m + e) - e)) as [Hle|Hgt].
    - left. split; [done|]. rewrite Hm1, Zdigits2_div_small by done. split; [done|].
      rewrite He1. rewrite fexp_value in *. lia.
    - right. destruct (Z.eq_dec m 0) as [->|Hne]; [change (Zdigits2 0) with 0%Z in *; rewrite fexp_value in *; lia|].
      destruct (Zdigits2_div m (FE (Zdigits2 m + e) - e)) as [H1 H2]; [lia|lia|].
      rewrite Hm1. split; [done|]. rewrite H2. lia. }
  assert (e1 <= FE (Zdigits2 m2 + e1))%Z as He2.
  { destruct Hd as [(Hle & Hz & ->)|(Hp & Heq)]; [rewrite fexp_value; lia|].
    rewrite He1 at 1. rewrite <- Heq. apply fexp_monotone.
    pose proof (Zdigits2_mono (shr_m mrs) m2). lia. }
  destruct (shr_fexp_spec m2 e1 loc_Exact ltac:(lia) He2) as [Hm3 He3].
  destruct (shr_fexp 53 1024 m2 e1 loc_Exact) as [mrs2 e2]. cbn [fst snd] in *.
  destruct (shr_m mrs2) as [|p|p] eqn:Ep; [done| |done].
  destruct (e2 <=? 1024 - 53)%Z eqn:Ee; [|done]. bool_hyps.
  apply canonical_bounded; [|lia]. change (Zpos (digits2_pos p)) with (Zdigits2 (Zpos p)).
  rewrite Hm3, He3. set (n := (FE (Zdigits2 m2 + e1) - e1)%Z) in *.
  assert (n < Zdigits2 m2)%Z as Hn.
  { destruct (Z.le_gt_cases (Zdigits2 m2) n) as [Hle|]; [|done]. rewrite Zdigits2_div_small in Hm3 by lia. lia. }
  destruct (Zdigits2_div m2 n) as [_ ->]; [pose proof (Zdigits2_nonneg m2); destruct m2; simpl in *; lia|lia|].
  f_equal. lia.
Qed.

Lemma num_ok_finite s m e : bounded 53 1024 m e = true → num_ok (S754_finite s m e).
Proof. done. Qed.

Lemma binary_round_ok s p e : num_ok (binary_round 53 1024 s p e).
Proof.
  unfold binary_round, shl_align.
  destruct (FE (Zpos (digits2_pos p) + e) - e)%Z as [|n|n] eqn:En.
  - apply binary_round_aux_ok; [lia|]. cbn [Zdigits2]. lia.
  - apply binary_round_aux_ok; [lia|]. cbn [Zdigits2]. lia.
  - apply binary_round_aux_ok; [lia|]. cbn [Zdigits2].
    rewrite (digits2_pos_shift (Pos.iter xO p n) p (Zpos n)) by (lia || apply iter_xO_pos).
    rewrite !fexp_value in *. lia.
Qed.

Lemma num_of_pos_ok s p : num_ok (num_of_pos s p).
Proof.
  unfold num_of_pos. destruct (Zpos (digits2_pos p) <=? 53)%Z eqn:E; [|apply binary_round_ok].
  bool_hyps. apply num_ok_finite, canonical_bounded; [|lia].
  rewrite (digits2_pos_shift _ p (53 - Zpos (digits2_pos p))).
  - rewrite fexp_value. lia.
  - lia.
  - rewrite iter_xO. f_equal. f_equal. lia.
Qed.

Lemma num_of_Z_ok z : num_ok (num_of_Z z).
Proof. destruct z; [done|apply num_of_pos_ok..]. Qed.

Lemma div_core_ok s p q :
  num_ok (let '(mz, ez, lz) := SFdiv_core_binary 53 1024 (Zpos p) 0 (Zpos q) 0 in
          binary_round_aux 53 1024 s mz ez lz).
Proof.
  unfold SFdiv_core_binary. rewrite !Z.add_0_r, Z.sub_0_r. cbn [Zdigits2].
  set (e' := Z.min _ 0). rewrite Z.sub_0_l.
  assert (match (- e')%Z with
    | Z0 => Zpos p | Zpos _ => Z.shiftl (Zpos p) (- e') | Zneg _ => 0%Z end = Zpos p * 2 ^ (- e'))%Z as ->.
  { destruct (- e')%Z as [|n|n] eqn:E; [lia|by rewrite Z.shiftl_mul_pow2|unfold e' in E; lia]. }
  pose proof (Z_div_mod (Zpos p * 2 ^ (- e')) (Zpos q) ltac:(lia)) as Hdiv.
  destruct (Z.div_eucl (Zpos p * 2 ^ (- e')) (Zpos q)) as [quo r] eqn:Eq.
  pose proof (Z.pow_pos_nonneg 2 (- e')). destruct Hdiv as [Hdiv Hr].
  assert (0 ≤ quo)%Z as Hquo by nia.
  apply binary_round_aux_ok; [done|].
  assert (e' ≤ FE (Zpos (digits2_pos p) - Zpos (digits2_pos q)))%Z as He by (unfold e'; lia).
  etrans; [exact He|]. apply fexp_monotone.
  destruct (Z.le_gt_cases (Zpos (digits2_pos p) - e' - Zpos (digits2_pos q)) 0) as [Hle|Hgt].
  { pose proof (Zdigits2_nonneg quo). lia. }
  assert (2 ^ (Zpos (digits2_pos p) - e' - Zpos (digits2_pos q) - 1) <= quo)%Z as Hlow.
  { pose proof (digits2_pos_lower p) as Hp. pose proof (digits2_pos_bound q) as Hq.
    set (a := (Zpos (digits2_pos p) - e' - Zpos (digits2_pos q) - 1)%Z) in *.
    assert (2 ^ a * 2 ^ Zpos (digits2_pos q) = 2 ^ (Zpos (digits2_pos p) - 1) * 2 ^ (- e'))%Z as Hpow.
    { rewrite <- !Z.pow_add_r by (unfold e' in *; lia). f_equal. unfold a. lia. }
    assert (2 ^ a * Zpos q < (quo + 1) * Zpos q)%Z; [|nia].
    assert (0 < 2 ^ a)%Z by (apply Z.pow_pos_nonneg; lia). nia. }
  pose proof (Z.pow_pos_nonneg 2 (Zpos (digits2_pos p) - e' - Zpos (digits2_pos q) - 1)).
  pose proof (Zdigits2_mono (2 ^ (Zpos (digits2_pos p) - e' - Zpos (digits2_pos q) - 1)) quo ltac:(lia) Hlow) as Hd.
  rewrite (Zdigits2_unique (2 ^ _) (Zpos (digits2_pos p) - e' - Zpos (digits2_pos q))) in Hd; [lia|lia|lia|].
  split; [lia|]. apply Z.pow_lt_mono_r; lia.
Qed.

Lemma num_of_decimal_ok neg s x : num_ok (num_of_decimal neg s x).
Proof.
  unfold num_of_decimal. destruct (strip s x) as [t z].
  destruct (_ && _); [by destruct (_ * _)%Z; [|apply num_of_pos_ok|]|]. unfold round_decimal.
  destruct t as [|p]; [done|]. destruct (0 <=? z)%Z.
  - by destruct (_ * _)%Z; [|apply binary_round_ok|].
  - by destruct (10 ^ _)%Z; [|apply div_core_ok|].
Qed.

Fixpoint parsed_okb (j : json) : bool :=
  match j with
  | JNull | JBool _ => true
  | JNum n => bool_decide (num_ok n)
  | JStr s => bool_decide (Forall (λ u, u < 65536)%N s)
  | JArr items => forallb parsed_okb items
  | JObj props =>
      bool_decide (NoDup props.*1) && bool_decide (Forall (Forall (λ u, u < 65536)%N) props.*1) &&
      forallb (λ p, parsed_okb p.2) props
  end.
Definition parsed_ok (j : json) : Prop := parsed_okb j = true.
#[export] Instance parsed_ok_dec j : Decision (parsed_ok j).
Proof. unfold parsed_ok. apply _. Defined.

Lemma parsed_ok_arr items : parsed_ok (JArr items) ↔ Forall parsed_ok items.
Proof. unfold parsed_ok. simpl. apply forallb_Forall. Qed.
Lemma parsed_ok_obj props :
  parsed_ok (JObj props) ↔ NoDup props.*1 ∧ Forall str_wf props.*1 ∧ Forall (λ p, parsed_ok p.2) props.
Proof.
  unfold parsed_ok. cbn [parsed_okb]. rewrite !andb_true_iff, !bool_decide_eq_true, forallb_Forall. tauto.
Qed.
Lemma parsed_ok_str s : parsed_ok (JStr s) ↔ str_wf s.
Proof. unfold parsed_ok. simpl. apply bool_decide_eq_true. Qed.
Lemma parsed_ok_num n : parsed_ok (JNum n) ↔ num_ok n.
Proof. unfold parsed_ok. cbn [parsed_okb]. apply bool_decide_eq_true. Qed.

Lemma json_ok_parsed j : json_ok j → parsed_ok j.
Proof.
  induction j as [|b|n|s|items IH|props IH] using json_nested_ind; intros Hok; try done.
  - apply json_ok_num in Hok as [Hn _]. by apply parsed_ok_num.
  - apply json_ok_arr in Hok. apply parsed_ok_arr. exact (Forall_mp _ _ _ IH Hok).
  - apply json_ok_obj in Hok as (Hnd & Hwf & Hok). apply parsed_ok_obj. split_and!; [done..|].
    exact (Forall_mp (λ p, json_ok p.2) (λ p, parsed_ok p.2) _ IH Hok).
Qed.

(** ** The parser *)

Lemma hex_value_bound u d : hex_value u = Some d → (d < 16)%N.
Proof.
  unfold hex_value, is_digit. repeat case_match; intros [= <-]; bool_hyps; lia.
Qed.

Lemma unescape_bound u d : unescape u = Some d → (d < 65536)%N.
Proof. unfold unescape. repeat case_match; intros [= <-]; lia. Qed.

(** A parser of a prefix leaves a text of code units. *)
Lemma parse_string_wf s t rest : str_wf s → parse_string s = Some (t, rest) → str_wf t ∧ str_wf rest.
Proof.
  assert (Hlen : ∀ n s, length s ≤ n → str_wf s → ∀ t rest, parse_string s = Some (t, rest) → str_wf t ∧ str_wf rest).
  { clear. intros n. induction n as [|n IH]; intros s Hn Hs t rest H; (destruct s as [|c s]; [done|]);
      [simpl in Hn; lia|]. simpl in Hn. apply Forall_cons in Hs as [Hc Hs]. cbn [parse_string] in H.
    destruct (c =? 34)%N; [injection H as <- <-; split; [constructor|done]|].
    destruct (c =? 92)%N.
    - destruct s as [|e s]; [done|]. simpl in Hn. apply Forall_cons in Hs as [He Hs]. destruct (e =? 117)%N.
      + do 4 (destruct s as [|? s]; [done|]; apply Forall_cons in Hs as [? Hs]). simpl in Hn.
        destruct (hex_value _) eqn:E1; [|done]. destruct (hex_value _) eqn:E2 in H; [|done].
        destruct (hex_value _) eqn:E3 in H; [|done]. destruct (hex_value _) eqn:E4 in H; [|done].
        destruct (parse_string s) as [[t' r']|] eqn:E; [|done]. injection H as <- <-.
        apply IH in E as [Ht Hr]; [|lia|done]. apply hex_value_bound in E1, E2, E3, E4.
        split; [constructor; [lia|done]|done].
      + destruct (unescape e) as [u|] eqn:Eu; [|done]. destruct (parse_string s) as [[t' r']|] eqn:E; [|done].
        injection H as <- <-. apply IH in E as [Ht Hr]; [|lia|done]. apply unescape_bound in Eu.
        split; [by constructor|done].
    - destruct (c <? 32)%N; [done|]. destruct (parse_string s) as [[t' r']|] eqn:E; [|done].
      injection H as <- <-. apply IH in E as [Ht Hr]; [|lia|done]. split; [by constructor|done]. }
  intros. by eapply Hlen.
Qed.

Lemma skip_space_wf s : str_wf s → str_wf (skip_space s).
Proof. induction 1 as [|c s Hc Hs IH]; simpl; [constructor|]. destruct (is_space c); [done|by constructor]. Qed.

Lemma span_digits_wf s : str_wf s → str_wf (span_digits s).2.
Proof.
  induction 1 as [|c s Hc Hs IH]; simpl; [constructor|]. destruct (is_digit c); [|by constructor].
  by destruct (span_digits s).
Qed.

Lemma parse_fraction_wf s f rest : str_wf s → parse_fraction s = Some (f, rest) → str_wf rest.
Proof.
  intros Hs H. unfold parse_fraction in H.
  assert (∀ r, str_wf r → (let '(d, rest) := span_digits r in match d with [] => None | _ => Some (d, rest) end) = Some (f, rest) → str_wf rest) as Hd.
  { intros r Hr Hd. pose proof (span_digits_wf r Hr) as Hw. destruct (span_digits r) as [[|d ds] rest']; [done|].
    by injection Hd as <- <-. }
  destruct s as [|c s]; [injection H as <- <-; constructor|]. pose proof Hs as [_ Hs']%Forall_cons.
  repeat first [by injection H as <- <-|by eapply Hd|case_match].
Qed.

Lemma parse_exponent_wf s e rest : str_wf s → parse_exponent s = Some (e, rest) → str_wf rest.
Proof.
  intros Hs H. unfold parse_exponent in H. destruct s as [|c s]; [by injection H as <- <-|].
  destruct ((c =? 101)%N || (c =? 69)%N); [|by injection H as <- <-].
  apply Forall_cons in Hs as [_ Hs].
  match type of H with (let '(_, _) := ?m in _) = _ => destruct m as [sign r] eqn:E end.
  assert (str_wf r) as Hr.
  { destruct s as [|c' s']; [by simplify_eq|]. pose proof Hs as [_ Hs']%Forall_cons. repeat case_match; by simplify_eq. }
  rename H into Hd.
  pose proof (span_digits_wf r Hr) as Hw. destruct (span_digits r) as [[|d ds] rest']; [done|]. by injection Hd as <- <-.
Qed.

Lemma parse_number_wf s n rest : str_wf s → parse_number s = Some (n, rest) → num_ok n ∧ str_wf rest.
Proof.
  intros Hs H. unfold parse_number in H.
  match type of H with (let '(_, _) := ?m in _) = _ => destruct m as [neg r] eqn:E end.
  assert (str_wf r) as Hr.
  { destruct s as [|c' s']; [by simplify_eq|]. pose proof Hs as [_ Hs']%Forall_cons. repeat case_match; by simplify_eq. }
  rename H into Hd.
  pose proof (span_digits_wf r Hr) as Hw. destruct (span_digits r) as [int r1]. destruct int as [|c int]; [done|].
  destruct (_ && _); [done|]. destruct (parse_fraction r1) as [[frac r2]|] eqn:Ef; [|done].
  destruct (parse_exponent r2) as [[e r3]|] eqn:Ee; [|done]. injection Hd as <- <-.
  split; [apply num_of_decimal_ok|]. eapply parse_exponent_wf; [|exact Ee]. by eapply parse_fraction_wf.
Qed.

Lemma own_order_wf {A} (P : jsstr * A → Prop) m : Forall P (own_order m) ↔ Forall P m.
Proof. by rewrite own_order_Permutation. Qed.

Lemma object_of_members_ok ms :
  Forall (λ p, str_wf p.1 ∧ parsed_ok p.2) ms → parsed_ok (object_of_members ms).
Proof.
  intros Hms. unfold object_of_members.
  assert (H : ∀ acc, NoDup acc.*1 → Forall (λ p, str_wf p.1 ∧ parsed_ok p.2) acc →
    NoDup (foldl (λ m p, map_set p.1 p.2 m) acc ms).*1 ∧
    Forall (λ p, str_wf p.1 ∧ parsed_ok p.2) (foldl (λ m p, map_set p.1 p.2 m) acc ms)).
  { induction Hms as [|[k j] ms Hp _ IH]; intros acc Hnd Hacc; [done|]. cbn [foldl]. apply IH.
    - by apply map_set_NoDup.
    - apply Forall_forall. intros [x jx] Hx.
      apply (map_get_NoDup x jx) in Hx; [|by apply map_set_NoDup]. cbn [fst snd] in Hx. rewrite map_get_set in Hx.
      case_decide as Hk; [injection Hx as <-; by subst|]. apply map_get_Some_elem in Hx.
      rewrite Forall_forall in Hacc. exact (Hacc _ Hx). }
  destruct (H [] (NoDup_nil_2) (Forall_nil_2 _)) as [Hnd Hall]. apply parsed_ok_obj.
  rewrite own_order_keys, own_order_wf. split_and!; [done| |].
  - apply Forall_fmap. eapply Forall_impl; [exact Hall|]. by intros ? [].
  - eapply Forall_impl; [exact Hall|]. by intros ? [].
Qed.

Lemma parse_ok fuel :
  (∀ s j rest, str_wf s → parse_value fuel s = Some (j, rest) → parsed_ok j ∧ str_wf rest) ∧
  (∀ s l rest, str_wf s → parse_items fuel s = Some (l, rest) → Forall parsed_ok l ∧ str_wf rest) ∧
  (∀ s ms rest, str_wf s → parse_members fuel s = Some (ms, rest) →
    Forall (λ p, str_wf p.1 ∧ parsed_ok p.2) ms ∧ str_wf rest).
Proof.
  induction fuel as [|fuel (IHv & IHi & IHm)]; [done|]. split_and!.
  - intros s j rest Hs H. cbn [parse_value] in H. pose proof (skip_space_wf s Hs) as Hsk.
    destruct (skip_space s) as [|c r] eqn:E; [done|]. pose proof Hsk as [Hc Hr]%Forall_cons.
    destruct (c =? 34)%N.
    { destruct (parse_string r) as [[t r']|] eqn:Ep; [|done]. injection H as <- <-.
      apply parse_string_wf in Ep as [? ?]; [|done]. split; [by apply parsed_ok_str|done]. }
    destruct (c =? 91)%N.
    { assert (Hi : match parse_items fuel r with Some (l, r) => Some (JArr l, r) | None => None end = Some (j, rest) →
        parsed_ok j ∧ str_wf rest).
      { destruct (parse_items fuel r) as [[l r']|] eqn:Ep; [|done]. intros [= <- <-].
        apply IHi in Ep as [? ?]; [|done]. split; [by apply parsed_ok_arr|done]. }
      pose proof (skip_space_wf r Hr) as Hsk'. destruct (skip_space r) as [|d r']; [by apply Hi|].
      apply Forall_cons in Hsk' as [_ Hr']. repeat first [by apply Hi|by injection H as <- <-|case_match]. }
    destruct (c =? 123)%N.
    { assert (Hi : match parse_members fuel r with Some (ms, r) => Some (object_of_members ms, r) | None => None end = Some (j, rest) →
        parsed_ok j ∧ str_wf rest).
      { destruct (parse_members fuel r) as [[l r']|] eqn:Ep; [|done]. intros [= <- <-].
        apply IHm in Ep as [? ?]; [|done]. split; [by apply object_of_members_ok|done]. }
      pose proof (skip_space_wf r Hr) as Hsk'. destruct (skip_space r) as [|d r']; [by apply Hi|].
      apply Forall_cons in Hsk' as [_ Hr']. repeat first [by apply Hi|by injection H as <- <-|case_match]. }
    destruct (starts_with (js "null") (c :: r)); [injection H as <- <-; split; [done|by apply Forall_drop]|].
    destruct (starts_with (js "true") (c :: r)); [injection H as <- <-; split; [done|by apply Forall_drop]|].
    destruct (starts_with (js "false") (c :: r)); [injection H as <- <-; split; [done|by apply Forall_drop]|].
    destruct (parse_number (c :: r)) as [[n r']|] eqn:Ep; [|done]. injection H as <- <-.
    apply parse_number_wf in Ep as [? ?]; [|done]. split; [by apply parsed_ok_num|done].
  - intros s l rest Hs H. cbn [parse_items] in H. destruct (parse_value fuel s) as [[v r]|] eqn:Ev; [|done].
    apply IHv in Ev as [Hv Hr]; [|done]. apply skip_space_wf in Hr.
    destruct (skip_space r) as [|c r']; [done|]. apply Forall_cons in Hr as [_ Hr].
    repeat (case_match; try done); simplify_eq;
      (try match goal with E : parse_items _ _ = _ |- _ => apply IHi in E as [? ?]; [|done] end);
      (split; [by constructor|done]).
  - intros s ms rest Hs H. cbn [parse_members] in H. apply skip_space_wf in Hs.
    destruct (skip_space s) as [|c r]; [done|]. apply Forall_cons in Hs as [_ Hr].
    assert (c = 34%N) as -> by (repeat first [done|congruence|case_match]).
    destruct (parse_string r) as [[k r1]|] eqn:Ek; [|done].
    apply parse_string_wf in Ek as [Hk Hr1]; [|done]. apply skip_space_wf in Hr1.
    destruct (skip_space r1) as [|c1 r2]; [done|]. apply Forall_cons in Hr1 as [_ Hr2].
    assert (c1 = 58%N) as -> by (repeat first [done|congruence|case_match]).
    destruct (parse_value fuel r2) as [[v r3]|] eqn:Ev; [|done].
    apply IHv in Ev as [Hv Hr3]; [|done]. apply skip_space_wf in Hr3.
    destruct (skip_space r3) as [|c3 r4]; [done|]. apply Forall_cons in Hr3 as [_ Hr4].
    repeat (case_match; try done); simplify_eq;
      (try match goal with E : parse_members _ _ = _ |- _ => apply IHm in E as [? ?]; [|done] end);
      (split; [by constructor|done]).
Qed.

Lemma json_parse_ok text j : str_wf text → json_parse text = Some j → parsed_ok j.
Proof.
  intros Ht H. unfold json_parse in H. destruct (parse_value _ text) as [[j' rest]|] eqn:E; [|done].
  apply (proj1 (parse_ok _)) in E as [Hj _]; [|done]. destruct (skip_space rest); [|done]. by injection H as <-.
Qed.
