(* ===== verification/Views.v ===== *)
(** * Views of values

    The persistence package reads three kinds of values with the same code: what a
    caller hands over, the copy that [structuredClone] makes of it, and the tree
    that [JSON.parse] returns.  A [view] is what that code can see of a value at
    one step; a function [V → view V] is the interface its model is written
    against, and each kind of value implements it. *)
From S2P Require Import Prelude JsString JsNumber JsValue Canonical.

(** An object: its identity for [WeakSet]; whether its traps throw; for an array
    ([Array.isArray]) its entries, holes included; whether its prototype is
    [Object.prototype] or [null]; the number of own symbols; the own string keys
    that are enumerable ([Object.keys]) and those that are not; the values of
    reading properties, with [None] for [undefined]; the length of an array is
    that of its entries. *)
Record object_view (V : Type) : Type := ObjectView {
  w_id : option loc;
  w_throws : bool;
  w_items : option (list (option V));
  w_plain : bool;
  w_symbols : nat;
  w_keys : list jsstr;
  w_hidden : list jsstr;
  w_get : jsstr → option V
}.

(** What one step of inspection shows.  [WOther] is a value of a type that JSON
    does not have, with the name [typeof] gives it. *)
Inductive view (V : Type) : Type :=
  | WUndefined
  | WNull
  | WBool (b : bool)
  | WNum (n : num)
  | WStr (s : jsstr)
  | WOther (type : jsstr)
  | WObject (o : object_view V).
Arguments WUndefined {V}.
Arguments WNull {V}.
Arguments WBool {V} b.
Arguments WNum {V} n.
Arguments WStr {V} s.
Arguments WOther {V} type.
Arguments WObject {V} o.
Arguments ObjectView {V}.
Arguments w_id {V} o.
Arguments w_throws {V} o.
Arguments w_items {V} o.
Arguments w_plain {V} o.
Arguments w_symbols {V} o.
Arguments w_keys {V} o.
Arguments w_hidden {V} o.
Arguments w_get {V} o.

(** ** Trees of [JSON.parse] *)

Definition json_view (j : json) : view json :=
  match j with
  | JNull => WNull
  | JBool b => WBool b
  | JNum n => WNum n
  | JStr s => WStr s
  | JArr items =>
      WObject (ObjectView None false (Some (Some <$> items)) false 0
        (string_of_nat <$> seq 0 (length items)) [key_length]
        (λ k, match index_name (length items) k with Some i => items !! i | None => None end))
  | JObj props => WObject (ObjectView None false None true 0 props.*1 [] (λ k, get_own k props))
  end.

(** How deep objects are nested in a tree. *)
Fixpoint json_depth (j : json) : nat :=
  match j with
  | JArr items => S (foldr Nat.max 0 (map json_depth items))
  | JObj props => S (foldr Nat.max 0 (map (λ p, json_depth p.2) props))
  | _ => 0
  end.

(** ** Caller values *)

Section heap_views.
(** [outside l k] is what reading the property [k] of the object [l] gives when it
    is not an own data property: what a getter returns, or what a class prototype
    holds. *)
Context (h : heap) (outside : loc → jsstr → value).

(** [o[k]], for the keys the package reads, none of which the standard prototypes
    have *)
Definition read_property (l : loc) (k : jsstr) : value :=
  let o := deref h l in
  match own_descriptor o k with
  | Some (Data v _) => v
  | Some (Accessor _) => outside l k
  | None => if bool_decide (o_proto o = ProtoOther) then outside l k else VUndefined
  end.

Definition is_enumerable (d : descriptor) : bool :=
  match d with Data _ e | Accessor e => e end.
Definition enumerable_keys (o : object) : list jsstr :=
  (filter (λ p : jsstr * descriptor, is_enumerable p.2 = true) (o_props o)).*1.
Definition hidden_keys (o : object) : list jsstr :=
  filter (λ k, k ∉ enumerable_keys o) (own_names o).

(** The entries of an array among the keys it has, [None] for a hole. *)
Definition array_items (l : loc) (keys : list jsstr) : list (option value) :=
  (λ i, let k := string_of_nat i in if bool_decide (k ∈ keys) then Some (read_property l k) else None)
    <$> seq 0 (o_length (deref h l)).

Definition primitive_view (v : value) (of_object : loc → view value) : view value :=
  match v with
  | VUndefined => WUndefined
  | VNull => WNull
  | VBool b => WBool b
  | VNum n => WNum n
  | VStr s => WStr s
  | VBigInt _ | VFunction | VSymbol => WOther (type_of v)
  | VObj l => of_object l
  end.

Definition heap_view (v : value) : view value :=
  primitive_view v (λ l,
    let o := deref h l in
    WObject (ObjectView (Some l) (o_throws o)
      (if o_array o then Some (array_items l (o_props o).*1) else None)
      (bool_decide (o_proto o = ProtoObject ∨ o_proto o = ProtoNull)) (o_symbols o)
      (enumerable_keys o) (hidden_keys o) (λ k, Some (read_property l k)))).

(** ** [structuredClone] *)

(** The copy keeps the enumerable own properties and the graph of references; it
    forgets prototypes, symbols and hidden properties. *)
Definition clone_view (v : value) : view value :=
  primitive_view v (λ l,
    let o := deref h l in
    WObject (ObjectView (Some l) false
      (if o_array o then Some (array_items l (enumerable_keys o)) else None)
      (negb (o_array o)) 0 (enumerable_keys o) (if o_array o then [key_length] else [])
      (λ k, if bool_decide (k ∈ enumerable_keys o) then Some (read_property l k) else None))).

(** [structuredClone] throws on functions, symbols and proxies, wherever it
    reaches them; [seen] are the objects already copied. *)
Fixpoint cloneable (fuel : nat) (work : list value) (seen : list loc) : bool :=
  match fuel with
  | 0 => true
  | S fuel =>
      match work with
      | [] => true
      | v :: work =>
          match v with
          | VFunction | VSymbol => false
          | VObj l =>
              let o := deref h l in
              if o_proxy o then false
              else if bool_decide (l ∈ seen) then cloneable fuel work seen
              else cloneable fuel ((read_property l <$> enumerable_keys o) ++ work) (l :: seen)
          | _ => cloneable fuel work seen
          end
      end
  end.

(** Every object is expanded once, so the properties of the heap bound the work. *)
Definition clone_fuel (roots : nat) : nat :=
  S roots + map_fold (λ _ o n, length (o_props o) + n) 0 h.
End heap_views.

(** ** Readers

    The values a function can read: how one step looks, and how deep objects may be
    nested before an object repeats. *)
Record reader (V : Type) := Reader { look : V → view V; depth : V → nat }.
Arguments Reader {V}.
Arguments look {V} r.
Arguments depth {V} r.

Definition json_reader : reader json := Reader json_view json_depth.
Definition heap_reader (h : heap) (outside : loc → jsstr → value) : reader value :=
  Reader (heap_view h outside) (λ _, S (size h)).
Definition clone_reader (h : heap) (outside : loc → jsstr → value) : reader value :=
  Reader (clone_view h outside) (λ _, S (size h)).

(** [value[key]] *)
Definition get {V} (r : reader V) (o : object_view V) (key : jsstr) : view V :=
  match w_get o key with Some v => look r v | None => WUndefined end.
(** [Object.hasOwn(value, key)] *)
Definition view_has {V} (o : object_view V) (key : jsstr) : bool :=
  bool_decide (key ∈ w_keys o) || bool_decide (key ∈ w_hidden o).

(** ** The fuel of [cloneable] *)

(** What is left to expand: the properties of the objects not yet copied. *)
Definition unexpanded (h : heap) (seen : list loc) : nat :=
  map_fold (λ _ o n, length (o_props o) + n) 0 (filter (λ p, p.1 ∉ seen) h).

Lemma unexpanded_expand h seen l :
  l ∉ seen → unexpanded h (l :: seen) + length (o_props (deref h l)) = unexpanded h seen.
Proof.
  intros Hl. unfold unexpanded, deref.
  destruct (h !! l) as [o|] eqn:E; simpl.
  - assert (filter (λ p : loc * object, p.1 ∉ seen) h =
      <[l := o]> (filter (λ p : loc * object, p.1 ∉ l :: seen) h)) as ->.
    { apply map_eq. intros k. destruct (decide (k = l)) as [->|Hk].
      - rewrite lookup_insert_eq. by apply map_lookup_filter_Some.
      - rewrite lookup_insert_ne by done. apply option_eq. intros x.
        rewrite !map_lookup_filter_Some. simpl. rewrite not_elem_of_cons. naive_solver. }
    rewrite map_fold_insert_L; [lia|intros; lia|].
    apply map_lookup_filter_None. right. intros x _ Hn. apply Hn. simpl. constructor.
  - rewrite Nat.add_0_r. f_equal. apply map_filter_ext. intros k x Hk. simpl.
    rewrite not_elem_of_cons. split; [naive_solver|]. intros H. split; [|done]. congruence.
Qed.

Lemma enumerable_keys_length o : length (enumerable_keys o) ≤ length (o_props o).
Proof. unfold enumerable_keys. rewrite length_fmap. apply length_filter. Qed.

(** More fuel than the bound does not change the answer. *)
Lemma cloneable_fuel h outside fuel extra work seen :
  length work + unexpanded h seen < fuel →
  cloneable h outside (fuel + extra) work seen = cloneable h outside fuel work seen.
Proof.
  revert work seen. induction fuel as [|fuel IH]; intros work seen Hlt; [lia|].
  cbn [Nat.add cloneable]. destruct work as [|v work]; [done|]. simpl in Hlt.
  destruct v as [| | | | | | | |l]; try (apply IH; lia); [done|done|].
  destruct (o_proxy _); [done|]. case_bool_decide as Hl; [apply IH; lia|].
  apply IH. rewrite length_app, length_fmap.
  pose proof (unexpanded_expand h seen l Hl). pose proof (enumerable_keys_length (deref h l)). lia.
Qed.
