(* ===== verification/DateTime.v ===== *)
(** * Timestamps (packages/persistence/src/datetime.ts)

    The regular expression is read from left to right into the fields it captures;
    the calendar conditions are the code's.  [toISOString] is the language's, on
    the UTC fields of a [Date]. *)
From S2P Require Import Prelude JsString JsNumber JsValue Views.

(** ** Calendar *)

Definition leapYear (year : Z) : bool :=
  (year `mod` 4 =? 0)%Z && (negb (year `mod` 100 =? 0)%Z || (year `mod` 400 =? 0)%Z).
Definition daysInMonth (year month : Z) : Z :=
  if (month =? 2)%Z then (if leapYear year then 29 else 28)%Z
  else if bool_decide (month ∈ [4; 6; 9; 11]%Z) then 30%Z else 31%Z.

(** ** The expression *)

(** [\d{n}]: the number, and the rest *)
Fixpoint digits_n (n : nat) (acc : N) (s : jsstr) : option (Z * jsstr) :=
  match n with
  | 0 => Some (Z.of_N acc, s)
  | S n =>
      match s with
      | c :: s => if is_digit c then digits_n n (acc * 10 + (c - 48))%N s else None
      | [] => None
      end
  end.
Definition expect (c : N) (s : jsstr) : option jsstr :=
  match s with u :: s => if (u =? c)%N then Some s else None | [] => None end.

Fixpoint skip_digits (s : jsstr) : jsstr :=
  match s with c :: s' => if is_digit c then skip_digits s' else s | [] => [] end.
(** [(?:\.\d+)?] *)
Definition fraction (s : jsstr) : option jsstr :=
  match s with
  | dot :: r =>
      if (dot =? 46)%N then
        match r with
        | c :: r => if is_digit c then Some (skip_digits r) else None
        | [] => None
        end
      else Some s
  | [] => Some s
  end.

(** [(?:Z|([+-])(\d{2}):(\d{2}))$] *)
Definition offset (s : jsstr) : option (Z * Z) :=
  match s with
  | c :: r =>
      if (c =? 90)%N then match r with [] => Some (0, 0)%Z | _ => None end
      else if (c =? 43)%N || (c =? 45)%N then
        '(hour, r) ← digits_n 2 0 r; r ← expect 58 r; '(minute, r) ← digits_n 2 0 r;
        match r with [] => Some (hour, minute) | _ => None end
      else None
  | [] => None
  end.

Record timestamp := Timestamp {
  t_year : Z; t_month : Z; t_day : Z; t_hour : Z; t_minute : Z; t_second : Z;
  t_offset : Z * Z
}.

Definition RFC3339 (s : jsstr) : option timestamp :=
  '(year, s) ← digits_n 4 0 s; s ← expect 45 s;
  '(month, s) ← digits_n 2 0 s; s ← expect 45 s;
  '(day, s) ← digits_n 2 0 s; s ← expect 84 s;
  '(hour, s) ← digits_n 2 0 s; s ← expect 58 s;
  '(minute, s) ← digits_n 2 0 s; s ← expect 58 s;
  '(second, s) ← digits_n 2 0 s;
  s ← fraction s; offset ← offset s;
  Some (Timestamp year month day hour minute second offset).

Definition within (lo hi z : Z) : bool := (lo <=? z)%Z && (z <=? hi)%Z.

(** The conditions after the match *)
Definition timestamp_ok (t : timestamp) : bool :=
  (1 <=? t_year t)%Z && within 1 12 (t_month t) &&
  within 1 (daysInMonth (t_year t) (t_month t)) (t_day t) &&
  within 0 23 (t_hour t) && within 0 59 (t_minute t) && within 0 59 (t_second t) &&
  within 0 23 (t_offset t).1 && within 0 59 (t_offset t).2.

Definition strict_rfc3339 (s : jsstr) : bool :=
  match RFC3339 s with Some t => timestamp_ok t | None => false end.

(** [isStrictRfc3339(value)] *)
Definition isStrictRfc3339 {V} (value : view V) : bool :=
  match value with WStr s => strict_rfc3339 s | _ => false end.

(** ** Printing *)

(** [n] written with [k] digits *)
Fixpoint padded (k : nat) (n : N) : jsstr :=
  match k with
  | 0 => []
  | S k => padded k (n `div` 10)%N ++ [48 + n `mod` 10]%N
  end.
Definition padded_Z (k : nat) (z : Z) : jsstr := padded k (Z.to_N z).

(** The UTC fields of a [Date]. *)
Record date := Date {
  d_year : Z; d_month : Z; d_day : Z; d_hour : Z; d_minute : Z; d_second : Z; d_ms : Z
}.

(** [date.toISOString()] *)
Definition iso_year (year : Z) : jsstr :=
  if within 0 9999 year then padded_Z 4 year
  else (if (year <? 0)%Z then js "-" else js "+") ++ padded_Z 6 (Z.abs year).
Definition toISOString (d : date) : jsstr :=
  iso_year (d_year d) ++ js "-" ++ padded_Z 2 (d_month d) ++ js "-" ++ padded_Z 2 (d_day d) ++
  js "T" ++ padded_Z 2 (d_hour d) ++ js ":" ++ padded_Z 2 (d_minute d) ++ js ":" ++
  padded_Z 2 (d_second d) ++ js "." ++ padded_Z 3 (d_ms d) ++ js "Z".

(** What the language guarantees of a [Date]'s fields. *)
Definition date_ok (d : date) : bool :=
  within 1 12 (d_month d) && within 1 (daysInMonth (d_year d) (d_month d)) (d_day d) &&
  within 0 23 (d_hour d) && within 0 59 (d_minute d) && within 0 59 (d_second d) &&
  within 0 999 (d_ms d).

(** ** Lemmas *)
Lemma digits_n_padded k n acc s :
  (n < 10 ^ N.of_nat k)%N →
  digits_n k acc (padded k n ++ s) = Some (Z.of_N (acc * 10 ^ N.of_nat k + n), s).
Proof.
  assert (Hgen : ∀ k j n acc s, (n < 10 ^ N.of_nat k)%N →
    digits_n (k + j) acc (padded k n ++ s) = digits_n j (acc * 10 ^ N.of_nat k + n) s).
  { clear. induction k as [|k IH]; intros j n acc s Hn.
    - simpl in *. f_equal. lia.
    - rewrite Nat2N.inj_succ, N.pow_succ_r' in Hn.
      cbn [padded]. rewrite <- (assoc_L (++)). replace (S k + j)%nat with (k + S j)%nat by lia.
      rewrite IH by (apply N.Div0.div_lt_upper_bound; lia). cbn [digits_n app].
      pose proof (N.mod_lt n 10 ltac:(lia)).
      rewrite is_digit_mod. f_equal.
      rewrite Nat2N.inj_succ, N.pow_succ_r'. pose proof (N.div_mod n 10 ltac:(lia)).
      rewrite (N.add_comm 48), N.add_sub. nia. }
  intros Hn. rewrite <- (Nat.add_0_r k) at 1. by rewrite Hgen.
Qed.

Lemma digits_n_padded_Z k z s :
  (0 <= z < 10 ^ Z.of_nat k)%Z → digits_n k 0 (padded_Z k z ++ s) = Some (z, s).
Proof.
  intros Hz. unfold padded_Z. rewrite digits_n_padded.
  - do 2 f_equal. lia.
  - apply N2Z.inj_lt. rewrite Z2N.id, N2Z.inj_pow, nat_N_Z by lia. lia.
Qed.

Lemma within_iff lo hi z : within lo hi z = true ↔ (lo <= z <= hi)%Z.
Proof. unfold within. rewrite andb_true_iff, !Z.leb_le. lia. Qed.

Lemma daysInMonth_bound y m : (28 <= daysInMonth y m <= 31)%Z.
Proof. unfold daysInMonth. repeat case_match; lia. Qed.

Lemma skip_digits_padded k n s : skip_digits (padded k n ++ s) = skip_digits s.
Proof.
  revert n s. induction k as [|k IH]; intros n s; [done|]. cbn [padded].
  rewrite <- (assoc_L (++)), IH. cbn [app skip_digits]. pose proof (N.mod_lt n 10 ltac:(lia)).
  by rewrite is_digit_mod.
Qed.

Lemma fraction_padded k n s :
  k ≠ 0%nat → fraction (js "." ++ padded k n ++ s) = Some (skip_digits s).
Proof.
  intros Hk. change (js "." ++ padded k n ++ s) with (46%N :: padded k n ++ s). cbn [fraction N.eqb Pos.eqb].
  pose proof (skip_digits_padded k n s) as Hs.
  assert (∃ c t, padded k n ++ s = c :: t ∧ is_digit c = true) as (c & t & E & Hc).
  { destruct k as [|k]; [done|]. clear. revert n s. induction k as [|k IH]; intros n s; cbn [padded].
    - eexists _, _. split; [done|]. apply is_digit_mod.
    - rewrite <- (assoc_L (++)). apply IH. }
  rewrite E in Hs |- *. rewrite Hc. cbn [skip_digits] in Hs. by rewrite Hc in Hs; rewrite Hs.
Qed.

(** A date of the years 1 to 9999 prints as a strict timestamp. *)
Lemma toISOString_parses d :
  date_ok d = true → within 0 9999 (d_year d) = true →
  RFC3339 (toISOString d) =
    Some (Timestamp (d_year d) (d_month d) (d_day d) (d_hour d) (d_minute d) (d_second d) (0, 0)%Z).
Proof.
  intros Hd Hy. unfold date_ok in Hd. bool_hyps. unfold RFC3339, toISOString, iso_year. rewrite Hy.
  pose proof (daysInMonth_bound (d_year d) (d_month d)).
  repeat match goal with H : within _ _ _ = true |- _ => apply within_iff in H end.
  assert (Hexpect : ∀ c t, expect c (c :: t) = Some t) by (intros; cbn; by rewrite N.eqb_refl).
  change (js "T" ++ ?t) with (84%N :: t).
  repeat change (js "-" ++ ?t) with (45%N :: t). repeat change (js ":" ++ ?t) with (58%N :: t).
  do 5 (rewrite digits_n_padded_Z by (simpl; lia); cbn [mbind option_bind];
    rewrite Hexpect; cbn [mbind option_bind]).
  rewrite digits_n_padded_Z by (simpl; lia). cbn [mbind option_bind].
  unfold padded_Z. by rewrite fraction_padded.
Qed.

(** ** What the expression accepts *)

Lemma digits_n_inv_gen k acc s z r :
  digits_n k acc s = Some (z, r) →
  ∃ n, (n < 10 ^ N.of_nat k)%N ∧ z = Z.of_N (acc * 10 ^ N.of_nat k + n) ∧ s = padded k n ++ r.
Proof.
  revert acc s. induction k as [|k IH]; intros acc s H.
  - injection H as <- <-. exists 0%N. split_and!; [done|simpl; lia|done].
  - cbn [digits_n] in H. destruct s as [|c s]; [done|]. destruct (is_digit c) eqn:Hc; [|done].
    apply is_digit_range in Hc. apply IH in H as (n & Hn & -> & ->).
    rewrite Nat2N.inj_succ, N.pow_succ_r'. set (p := (10 ^ N.of_nat k)%N) in *.
    exists ((c - 48) * p + n)%N. split_and!; [nia|f_equal; nia|].
    assert (Hpad : ∀ k d n, (d < 10)%N → (n < 10 ^ N.of_nat k)%N →
      padded (S k) (d * 10 ^ N.of_nat k + n) = (48 + d)%N :: padded k n).
    { clear. induction k as [|k IH]; intros d n Hd Hn.
      - simpl in Hn. assert (n = 0%N) as -> by lia. cbn [padded app].
        rewrite N.mul_1_r, N.add_0_r, N.mod_small by done. done.
      - rewrite Nat2N.inj_succ, N.pow_succ_r' in Hn |- *. set (p := (10 ^ N.of_nat k)%N) in *.
        cbn [padded] in IH |- *.
        assert ((d * (10 * p) + n) `div` 10 = d * p + n `div` 10)%N as Hdiv.
        { replace (d * (10 * p) + n)%N with (n + (d * p) * 10)%N by lia.
          rewrite N.div_add by lia. lia. }
        assert ((d * (10 * p) + n) `mod` 10 = n `mod` 10)%N as ->.
        { replace (d * (10 * p) + n)%N with (n + (d * p) * 10)%N by lia. apply N.Div0.mod_add. }
        rewrite Hdiv, IH by (try done; apply N.Div0.div_lt_upper_bound; lia). done. }
    pose proof (Hpad k (c - 48)%N n ltac:(lia) Hn) as Hp. fold p in Hp. rewrite Hp.
    rewrite <- app_comm_cons. f_equal. lia.
Qed.

Lemma digits_n_inv k s z r :
  digits_n k 0 s = Some (z, r) → (0 <= z < 10 ^ Z.of_nat k)%Z ∧ s = padded_Z k z ++ r.
Proof.
  intros H. apply digits_n_inv_gen in H as (n & Hn & -> & ->). rewrite N.mul_0_l, N.add_0_l.
  unfold padded_Z. rewrite N2Z.id. split; [|done].
  apply N2Z.inj_lt in Hn. rewrite N2Z.inj_pow, nat_N_Z in Hn. lia.
Qed.

Lemma expect_inv c s r : expect c s = Some r → s = c :: r.
Proof.
  destruct s as [|u s]; [done|]. simpl. destruct (u =? c)%N eqn:E; [|done]. bool_hyps.
  intros [= <-]. by subst.
Qed.

(** A fraction of a second and a zone, as text. *)
Definition fraction_text (f : jsstr) : Prop :=
  f = [] ∨ ∃ ds, f = 46%N :: ds ∧ ds ≠ [] ∧ Forall (λ c, is_digit c = true) ds.
Definition zone_text (z : jsstr) (o : Z * Z) : Prop :=
  (z = js "Z" ∧ o = (0, 0)%Z) ∨
  ∃ sign, sign ∈ [43; 45]%N ∧ z = sign :: padded_Z 2 o.1 ++ js ":" ++ padded_Z 2 o.2.

Lemma offset_inv s o : offset s = Some o → zone_text s o.
Proof.
  destruct s as [|c r]; [done|]. cbn [offset]. destruct (c =? 90)%N eqn:E; bool_hyps.
  { subst c. destruct r; [|done]. intros [= <-]. by left. }
  destruct ((c =? 43)%N || (c =? 45)%N) eqn:E2; [|done]. intros H.
  apply bind_Some in H as ([hour r1] & H1 & H). apply bind_Some in H as (r2 & H2 & H).
  apply bind_Some in H as ([minute r3] & H3 & H). destruct r3; [|done]. injection H as <-.
  apply digits_n_inv in H1 as [_ ->]. apply expect_inv in H2 as ->. apply digits_n_inv in H3 as [_ ->].
  right. exists c. split.
  - apply orb_true_iff in E2 as [?|?]; bool_hyps; subst; [left|right; left].
  - cbn [fst snd]. by rewrite app_nil_r.
Qed.

Lemma fraction_inv s r : fraction s = Some r → ∃ f, fraction_text f ∧ s = f ++ r.
Proof.
  assert (Hskip : ∀ s, ∃ ds, Forall (λ c, is_digit c = true) ds ∧ s = ds ++ skip_digits s).
  { clear. induction s as [|c s (ds & Hds & E)]; [by exists []|]. cbn [skip_digits].
    destruct (is_digit c) eqn:Hc; [|by exists []].
    exists (c :: ds). split; [by constructor|]. cbn [app]. by f_equal. }
  destruct s as [|dot t]; [intros [= <-]; exists []; by split; [left|]|].
  cbn [fraction]. destruct (dot =? 46)%N eqn:E; bool_hyps.
  - subst dot. destruct t as [|c t]; [done|]. destruct (is_digit c) eqn:Hc; [|done]. intros [= <-].
    destruct (Hskip t) as (ds & Hds & Et). exists (46%N :: c :: ds). split.
    + right. exists (c :: ds). split_and!; [done|done|by constructor].
    + cbn [app]. by rewrite <- Et.
  - intros [= <-]. exists []. by split; [left|].
Qed.

Lemma zone_no_digit z o c t : zone_text z o → z = c :: t → is_digit c = false ∧ c ≠ 46%N.
Proof.
  intros [[-> _]|(sign & Hs & ->)] [= <- <-]; [done|].
  apply list_elem_of_In in Hs. simpl in Hs. by destruct Hs as [<-|[<-|[]]].
Qed.

Lemma fraction_zone f z o : fraction_text f → zone_text z o → fraction (f ++ z) = Some z.
Proof.
  intros Hf Hz.
  assert (∃ c t, z = c :: t ∧ is_digit c = false ∧ c ≠ 46%N) as (c & t & -> & Hc & Hdot).
  { destruct z as [|c t]; [by destruct Hz as [[? _]|(? & _ & ?)]|].
    exists c, t. split; [done|]. by eapply zone_no_digit. }
  destruct Hf as [->|(ds & -> & Hne & Hds)].
  - cbn [app fraction]. by rewrite (proj2 (N.eqb_neq _ _) Hdot).
  - destruct ds as [|d ds]; [done|]. apply Forall_cons in Hds as [Hd Hds].
    cbn [app fraction N.eqb Pos.eqb]. rewrite Hd. f_equal. clear Hne Hd d.
    induction Hds as [|d ds Hd _ IH]; cbn [app skip_digits]; [by rewrite Hc|by rewrite Hd].
Qed.

Lemma offset_zone z o :
  zone_text z o → within 0 23 o.1 = true → within 0 59 o.2 = true → offset z = Some o.
Proof.
  intros [[-> ->]|(sign & Hs & ->)] H1 H2; [done|]. apply within_iff in H1, H2.
  assert (sign = 43 ∨ sign = 45)%N as Hsign.
  { apply list_elem_of_In in Hs. simpl in Hs. naive_solver. }
  cbn [offset]. rewrite (proj2 (N.eqb_neq _ _)) by lia.
  assert ((sign =? 43)%N || (sign =? 45)%N = true) as -> by (by destruct Hsign as [-> | ->]).
  rewrite digits_n_padded_Z by (simpl; lia). cbn [mbind option_bind].
  change (expect 58 (js ":" ++ ?t)) with (Some t). cbn [mbind option_bind].
  pose proof (digits_n_padded_Z 2 o.2 [] ltac:(simpl; lia)) as Hm. rewrite app_nil_r in Hm.
  rewrite Hm. cbn [mbind option_bind]. by destruct o.
Qed.

(** The text of a timestamp. *)
Definition timestamp_text (t : timestamp) (f z : jsstr) : jsstr :=
  padded_Z 4 (t_year t) ++ js "-" ++ padded_Z 2 (t_month t) ++ js "-" ++ padded_Z 2 (t_day t) ++
  js "T" ++ padded_Z 2 (t_hour t) ++ js ":" ++ padded_Z 2 (t_minute t) ++ js ":" ++
  padded_Z 2 (t_second t) ++ f ++ z.
Definition is_timestamp (s : jsstr) (t : timestamp) : Prop :=
  (0 <= t_year t <= 9999)%Z ∧ timestamp_ok t = true ∧
  ∃ f z, fraction_text f ∧ zone_text z (t_offset t) ∧ s = timestamp_text t f z.

Lemma strict_rfc3339_iff s : strict_rfc3339 s = true ↔ ∃ t, is_timestamp s t.
Proof.
  unfold strict_rfc3339, is_timestamp, timestamp_text. split.
  - destruct (RFC3339 s) as [t|] eqn:E; [|done]. intros Hok. exists t. unfold RFC3339 in E.
    repeat match goal with
    | H : _ ≫= _ = Some _ |- _ => apply bind_Some in H as (? & ? & H)
    | p : _ * _ |- _ => destruct p
    end.
    injection E as <-.
    repeat match goal with
    | H : digits_n _ _ _ = Some _ |- _ => apply digits_n_inv in H as [? ->]
    | H : expect _ _ = Some _ |- _ => apply expect_inv in H as ->
    | H : fraction _ = Some _ |- _ => apply fraction_inv in H as (? & ? & ->)
    | H : offset _ = Some _ |- _ => apply offset_inv in H
    end.
    cbn [t_year t_month t_day t_hour t_minute t_second t_offset].
    split; [simpl in *; lia|]. split; [done|]. by eexists _, _.
  - intros (t & Hy & Hok & f & z & Hf & Hz & ->). pose proof Hok as Hok'. unfold timestamp_ok in Hok'.
    bool_hyps. pose proof (daysInMonth_bound (t_year t) (t_month t)).
    match goal with H1 : within 0 23 (t_offset t).1 = true, H2 : within 0 59 (t_offset t).2 = true |- _ =>
      pose proof (offset_zone z _ Hz H1 H2) as Ho; clear H1 H2 end.
    repeat match goal with H : within _ _ _ = true |- _ => apply within_iff in H end.
    assert (Hexpect : ∀ c t, expect c (c :: t) = Some t) by (intros; cbn; by rewrite N.eqb_refl).
    unfold RFC3339. change (js "T" ++ ?t) with (84%N :: t).
    repeat change (js "-" ++ ?t) with (45%N :: t). repeat change (js ":" ++ ?t) with (58%N :: t).
    do 5 (rewrite digits_n_padded_Z by (simpl; lia); cbn [mbind option_bind];
      rewrite Hexpect; cbn [mbind option_bind]).
    rewrite digits_n_padded_Z by (simpl; lia). cbn [mbind option_bind].
    rewrite (fraction_zone f z _ Hf Hz). cbn [mbind option_bind]. rewrite Ho. by destruct t.
Qed.

(** [isStrictRfc3339] accepts exactly the texts of timestamps: a four-digit year
    from 1, a month, a day of that month, a time of day, an optional fraction and a
    zone, each field within its range. *)
Theorem isStrictRfc3339_accepts {V} (value : view V) :
  isStrictRfc3339 value = true ↔ ∃ s t, value = WStr s ∧ is_timestamp s t.
Proof.
  unfold isStrictRfc3339. split.
  - destruct value; try done. intros H. apply strict_rfc3339_iff in H as [t Ht]. by exists s, t.
  - intros (s & t & -> & Ht). apply strict_rfc3339_iff. by exists t.
Qed.

(** The text of a [Date] is accepted in the years 1 to 9999 only. *)
Lemma toISOString_strict d :
  date_ok d = true → strict_rfc3339 (toISOString d) = within 1 9999 (d_year d).
Proof.
  intros Hd. unfold strict_rfc3339. destruct (within 0 9999 (d_year d)) eqn:Hy.
  - rewrite toISOString_parses by done. unfold date_ok in Hd. bool_hyps.
    unfold timestamp_ok. cbn [t_year t_month t_day t_hour t_minute t_second t_offset].
    repeat match goal with H : within _ _ _ = true |- context [within ?a ?b ?c] =>
      rewrite (proj2 (within_iff a b c)) by (by apply within_iff) end.
    apply within_iff in Hy. unfold within. cbn [fst snd].
    destruct (1 <=? d_year d)%Z eqn:E; bool_hyps; cbn; [symmetry; apply Z.leb_le|]; done || lia.
  - assert (within 1 9999 (d_year d) = false) as ->.
    { apply not_true_iff_false. intros H. apply within_iff in H.
      apply not_true_iff_false in Hy. apply Hy, within_iff. lia. }
    unfold toISOString, iso_year. rewrite Hy. by destruct (d_year d <? 0)%Z.
Qed.
