(* ===== verification/PersistenceJson.v ===== *)
(** * Errors, identifiers and JSON of the persistence package

    packages/persistence/src/errors.ts, identifiers.ts and json.ts.  The JSON
    functions are written against the views of [Views], since the package applies
    them to caller values, to structured clones and to parsed records. *)
From S2P Require Import Prelude JsString JsNumber JsValue JsonText Canonical Views Utf8.

(** ** Errors (errors.ts) *)

Inductive PersistenceErrorCode :=
  | PERSISTENCE_VALIDATION | UNSAFE_IDENTIFIER | VERSION_CONFLICT | CORRUPT_EVENT_LOG
  | CORRUPT_CHECKPOINT | PERSISTENCE_IO.

Record ValidationIssue := { issue_path : jsstr; issue_message : jsstr }.

(** The classes of [PersistenceError], with the arguments of their constructors;
    the caller value in an [UnsafeIdentifierError] and the cause of a
    [PersistenceIoError] are not kept. *)
Inductive PersistenceError :=
  | PersistenceValidationError (message : jsstr) (issues : list ValidationIssue)
  | UnsafeIdentifierError (identifierKind : jsstr)
  | VersionConflictError (runId : jsstr) (expectedVersion actualVersion : Z)
  | CorruptEventLogError (runId reason : jsstr) (line : option nat)
  | CorruptCheckpointError (runId checkpointId reason : jsstr)
  | PersistenceIoError (operation path : jsstr).

Definition error_code (e : PersistenceError) : PersistenceErrorCode :=
  match e with
  | PersistenceValidationError _ _ => PERSISTENCE_VALIDATION
  | UnsafeIdentifierError _ => UNSAFE_IDENTIFIER
  | VersionConflictError _ _ _ => VERSION_CONFLICT
  | CorruptEventLogError _ _ _ => CORRUPT_EVENT_LOG
  | CorruptCheckpointError _ _ _ => CORRUPT_CHECKPOINT
  | PersistenceIoError _ _ => PERSISTENCE_IO
  end.

Definition error_message (e : PersistenceError) : jsstr :=
  match e with
  | PersistenceValidationError message _ => message
  | UnsafeIdentifierError kind => kind ++ js " is not a safe persistence identifier"
  | VersionConflictError runId expected actual =>
      js "Event stream '" ++ runId ++ js "' expected version " ++ string_of_Z expected ++
      js ", but is at " ++ string_of_Z actual
  | CorruptEventLogError runId reason _ => js "Event log '" ++ runId ++ js "' is corrupt: " ++ reason
  | CorruptCheckpointError runId checkpointId reason =>
      js "Checkpoint '" ++ runId ++ js "/" ++ checkpointId ++ js "' is corrupt: " ++ reason
  | PersistenceIoError operation _ => js "Persistence " ++ operation ++ js " failed"
  end.

(** What an operation of the package may throw: its own errors, an error of the
    file system with its code, or another error of the language (a trap of the
    caller, a [SyntaxError], a [RangeError]).  [OutOfFuel] is not an outcome of the
    program. *)
Inductive exn :=
  | Persistence (e : PersistenceError)
  | Errno (code : jsstr)
  | Thrown
  | OutOfFuel.

#[export] Instance issue_eq_dec : EqDecision ValidationIssue.
Proof. solve_decision. Defined.
#[export] Instance error_eq_dec : EqDecision PersistenceError.
Proof. solve_decision. Defined.
#[export] Instance exn_eq_dec : EqDecision exn.
Proof. solve_decision. Defined.

Definition issue (path message : jsstr) : ValidationIssue :=
  {| issue_path := path; issue_message := message |}.
(** [if (issues.length > 0) throw new PersistenceValidationError(message, issues)] *)
Definition reject (message : jsstr) (issues : list ValidationIssue) : result exn unit :=
  match issues with [] => Ok tt | _ => Err (Persistence (PersistenceValidationError message issues)) end.
(** [if (c) issues.push({ path, message })] *)
Definition push_if (c : bool) (path message : jsstr) : list ValidationIssue :=
  if c then [issue path message] else [].

(** ** Identifiers (identifiers.ts) *)

Definition SAFE_IDENTIFIER (s : jsstr) : bool := matches_ident is_alnum is_ident_char 127 s.
Definition safe_identifier (s : jsstr) : bool :=
  SAFE_IDENTIFIER s && negb (bool_decide (s = js ".")) && negb (bool_decide (s = js "..")).

(** [assertSafeIdentifier(value, kind)]: the string it asserts the value to be *)
Definition assertSafeIdentifier {V} (value : view V) (kind : jsstr) : result exn jsstr :=
  match value with
  | WStr s => if safe_identifier s then Ok s else Err (Persistence (UnsafeIdentifierError kind))
  | _ => Err (Persistence (UnsafeIdentifierError kind))
  end.

(** [identifierHash(value)], with the SHA-256 digest of bytes as a parameter *)
Definition identifierHash (sha256 : list N → jsstr) (value : jsstr) : jsstr := sha256 (utf8_encode value).

(** ** JSON values (json.ts) *)

(** [key.replaceAll("~", "~0").replaceAll("/", "~1")] under a path *)
Definition key_path (path key : jsstr) : jsstr := path ++ js "/" ++ pointerSegment key.
Definition index_path (path : jsstr) (index : nat) : jsstr := path ++ js "/" ++ string_of_nat index.

Definition concat_results {A} (f : A → result exn (list ValidationIssue)) (l : list A)
    : result exn (list ValidationIssue) :=
  foldr (λ x acc, a ← f x; b ← acc; Ok (a ++ b)) (Ok []) l.

(** [concat_results] with the position of the element *)
Definition iconcat_results {A} (f : nat → A → result exn (list ValidationIssue)) (l : list A)
    : result exn (list ValidationIssue) :=
  concat_results (λ p, f p.1 p.2) (imap (λ i x, (i, x)) l).

Section json.
Context {V : Type} (r : reader V).

(** [validateJson]: the issues it pushes; [ancestors] are the objects on the
    current path, and the fuel is one unit for each of them. *)
Fixpoint validateJson (safeIntegersOnly : bool) (fuel : nat) (v : view V) (path : jsstr)
    (ancestors : list (option loc)) : result exn (list ValidationIssue) :=
  match v with
  | WNull | WStr _ | WBool _ => Ok []
  | WNum n =>
      if negb (num_finite n) then Ok [issue path (js "expected a finite JSON number")]
      else if safeIntegersOnly && negb (num_safe_integer n) then
        Ok [issue path (js "checkpoint numbers must be safe integers")]
      else Ok []
  | WUndefined => Ok [issue path (js "unsupported JSON value undefined")]
  | WOther type => Ok [issue path (js "unsupported JSON value " ++ type)]
  | WObject o =>
      if bool_decide (is_Some (w_id o) ∧ w_id o ∈ ancestors) then
        Ok [issue path (js "cyclic values are not JSON")]
      else if w_throws o then Err Thrown
      else match fuel with
      | 0 => Err OutOfFuel
      | S fuel =>
          match w_items o with
          | Some items =>
              iconcat_results (λ index item,
                match item with
                | None => Ok [issue (index_path path index) (js "sparse arrays are not JSON")]
                | Some v => validateJson safeIntegersOnly fuel (look r v) (index_path path index)
                              (w_id o :: ancestors)
                end) items
          | None =>
              if negb (w_plain o) then Ok [issue path (js "expected a plain JSON object")]
              else
                rest ← concat_results (λ key,
                  validateJson safeIntegersOnly fuel (get r o key) (key_path path key)
                    (w_id o :: ancestors)) (w_keys o);
                Ok (push_if (0 <? w_symbols o)%nat path (js "symbol object keys are not JSON") ++ rest)
          end
      end
  end.

(** [jsonValidationIssues(value, path, options)] of a property of an object or of
    the value itself; [fuel] is the depth of the value *)
Definition jsonValidationIssues (safeIntegersOnly : bool) (fuel : nat) (v : view V) (path : jsstr)
    : result exn (list ValidationIssue) := validateJson safeIntegersOnly fuel v path [].

(** [canonical(value)] *)
Fixpoint canonical (fuel : nat) (v : view V) : result exn jsstr :=
  match v with
  | WNull => Ok (js "null")
  | WStr s => Ok (quote_string s)
  | WBool b => Ok (if b then js "true" else js "false")
  | WNum n => Ok (string_of_num n)
  | WUndefined => Err Thrown
  | WOther _ => Ok (js "{}")
  | WObject o =>
      match fuel with
      | 0 => Err OutOfFuel
      | S fuel =>
          match w_items o with
          | Some items =>
              texts ← traverse (λ item : option V,
                match item with Some v => canonical fuel (look r v) | None => Ok [] end) items;
              Ok (js "[" ++ join (js ",") texts ++ js "]")
          | None =>
              texts ← traverse (λ key, text ← canonical fuel (get r o key);
                Ok (quote_string key ++ js ":" ++ text)) (sort_by compareUnicodeCodePoints (w_keys o));
              Ok (js "{" ++ join (js ",") texts ++ js "}")
          end
      end
  end.

(** [canonicalJson(value)] *)
Definition canonicalJson (fuel : nat) (v : view V) : result exn jsstr :=
  issues ← jsonValidationIssues false fuel v (js "#");
  _ ← reject (js "Value is not canonical JSON") issues;
  canonical fuel v.

(** [contentHash(value)] *)
Definition contentHash (sha256 : list N → jsstr) (fuel : nat) (v : view V) : result exn jsstr :=
  text ← canonicalJson fuel v; Ok (sha256 (utf8_encode text)).

(** [JSON.parse(text)] *)
Definition parse_json (text : jsstr) : result exn json :=
  match json_parse text with Some j => Ok j | None => Err Thrown end.

(** [cloneJson(value)] *)
Definition cloneJson (fuel : nat) (v : view V) : result exn json :=
  text ← canonicalJson fuel v; parse_json text.
End json.

#[global] Arguments validateJson : simpl never.
#[global] Arguments canonical : simpl never.
