(* ===== verification/PersistenceJsonSpec.v ===== *)
(** * What the JSON functions of the persistence package promise

    [tree r v j] says, without an algorithm, that the view [v] shows the JSON tree
    [j].  A value without issues shows a tree; its canonical text is that of the
    tree, and [cloneJson] returns the tree in canonical form.  The promises are
    proved against an interface that both structured clones and parsed records
    implement. *)
From S2P Require Import Prelude JsString JsNumber JsValue JsonText NumberText Canonical CanonicalSpec.
From S2P Require Import JsonRoundTrip Views Utf8 PersistenceJson.

(** ** Trees *)

Inductive tree {V} (r : reader V) : view V → json → Prop :=
  | tree_null : tree r WNull JNull
  | tree_bool b : tree r (WBool b) (JBool b)
  | tree_str s : tree r (WStr s) (JStr s)
  | tree_num n : num_finite n = true → tree r (WNum n) (JNum n)
  | tree_arr o items js :
      w_items o = Some (Some <$> items) → Forall2 (λ v j, tree r (look r v) j) items js →
      tree r (WObject o) (JArr js)
  | tree_obj o js :
      w_items o = None → w_plain o = true → w_symbols o = 0%nat →
      Forall2 (λ k j, tree r (get r o k) j) (w_keys o) js →
      tree r (WObject o) (JObj (zip (w_keys o) js)).

(** ** The interface of detached values

    Values of doubles and strings of code units, whose plain objects have distinct
    keys and no other property. *)
Class Detached {V} (r : reader V) (P : V → Prop) : Prop := {
  detached_num v n : P v → look r v = WNum n → num_ok n;
  detached_str v s : P v → look r v = WStr s → str_wf s;
  detached_keys v o : P v → look r v = WObject o → w_items o = None →
    NoDup (w_keys o) ∧ Forall str_wf (w_keys o);
  detached_property v o k x : P v → look r v = WObject o → w_get o k = Some x → P x;
  detached_item v o items x : P v → look r v = WObject o → w_items o = Some items → Some x ∈ items → P x;
  detached_closed v o k : P v → look r v = WObject o → w_items o = None → k ∉ w_keys o → w_get o k = None;
  detached_visible v o : P v → look r v = WObject o → w_items o = None → w_hidden o = [];
  detached_total v sio path :
    P v → ∃ issues, validateJson r sio (depth r v) (look r v) path [] = Ok issues
}.

(** ** Collecting issues *)

Lemma concat_results_nil {A} (f : A → result exn (list ValidationIssue)) l :
  concat_results f l = Ok [] ↔ Forall (λ x, f x = Ok []) l.
Proof.
  induction l as [|x l IH]; [by split|]. cbn [concat_results foldr]. fold (concat_results f l).
  rewrite Forall_cons, <- IH. split.
  - destruct (f x) as [a|]; [|done]. destruct (concat_results f l) as [b|]; [|done].
    cbn [mbind result_bind]. intros [= H]. by apply app_eq_nil in H as [-> ->].
  - intros [-> ->]. done.
Qed.

Lemma iconcat_results_nil {A} (f : nat → A → result exn (list ValidationIssue)) l :
  iconcat_results f l = Ok [] ↔ ∀ i x, l !! i = Some x → f i x = Ok [].
Proof.
  unfold iconcat_results. rewrite concat_results_nil, Forall_lookup. split.
  - intros H i x Hx. apply (H i (i, x)). by rewrite list_lookup_imap, Hx.
  - intros H i [j x]. rewrite list_lookup_imap. destruct (l !! i) as [y|] eqn:E; [|done].
    intros [= <- <-]. by apply H.
Qed.

Lemma concat_results_total {A} (f : A → result exn (list ValidationIssue)) l :
  (∀ x, x ∈ l → ∃ issues, f x = Ok issues) → ∃ issues, concat_results f l = Ok issues.
Proof.
  induction l as [|x l IH]; intros H; [by exists []|]. cbn [concat_results foldr]. fold (concat_results f l).
  destruct (H x) as [a Ha]; [constructor|]. destruct IH as [b Hb]; [intros y ?; apply H; by constructor|].
  exists (a ++ b). by rewrite Ha, Hb.
Qed.

Lemma iconcat_results_total {A} (f : nat → A → result exn (list ValidationIssue)) l :
  (∀ i x, l !! i = Some x → ∃ issues, f i x = Ok issues) → ∃ issues, iconcat_results f l = Ok issues.
Proof.
  intros H. apply concat_results_total. intros [i x] Hx. apply list_elem_of_lookup in Hx as [k Hk].
  rewrite list_lookup_imap in Hk. destruct (l !! k) as [y|] eqn:E; [|done]. injection Hk as <- <-. by apply H.
Qed.

Lemma validateJson_primitive {V} (r : reader V) sio fuel v path ancestors :
  (∀ o, v ≠ WObject o) → ∃ issues, validateJson r sio fuel v path ancestors = Ok issues.
Proof.
  intros Hv. destruct v as [| |b|n|s|t|o]; try (by destruct fuel; eexists); [|by destruct (Hv o)].
  destruct fuel; unfold validateJson; destruct (negb _); try by eexists.
  all: destruct (_ && _); by eexists.
Qed.

(** ** Parsed records are detached *)

Lemma json_depth_item j items : j ∈ items → json_depth j < json_depth (JArr items).
Proof.
  intros Hj. cbn [json_depth]. induction Hj as [|j' items Hj IH]; cbn [map foldr]; lia.
Qed.
Lemma json_depth_member p props : p ∈ props → json_depth p.2 < json_depth (JObj props).
Proof.
  intros Hp. cbn [json_depth]. induction Hp as [|p' props Hp IH]; cbn [map foldr]; lia.
Qed.

Lemma json_get props k :
  get json_reader (ObjectView None false None true 0 props.*1 [] (λ k, get_own k props)) k =
  match get_own k props with Some j => json_view j | None => WUndefined end.
Proof. done. Qed.

Lemma validateJson_json_total sio fuel j path ancestors :
  json_depth j ≤ fuel → ∃ issues, validateJson json_reader sio fuel (json_view j) path ancestors = Ok issues.
Proof.
  revert fuel path ancestors.
  induction j as [|b|n|s|items IH|props IH] using json_nested_ind; intros fuel path ancestors Hd;
    try (apply validateJson_primitive; by intros o); (destruct fuel as [|fuel]; [simpl in Hd; lia|]);
    unfold validateJson; fold (@validateJson json json_reader);
    cbn [json_view w_id w_throws w_items w_plain w_keys w_symbols negb];
    rewrite bool_decide_eq_false_2 by (by intros [[? ?] _]).
  - apply iconcat_results_total. intros i x Hx. rewrite list_lookup_fmap in Hx.
    destruct (items !! i) as [j|] eqn:Ej; [|done]. injection Hx as <-.
    assert (j ∈ items) as Hin by by eapply list_elem_of_lookup_2.
    rewrite Forall_forall in IH. apply IH; [done|]. pose proof (json_depth_item j items Hin). lia.
  - match goal with |- context [concat_results ?f ?l] => destruct (concat_results_total f l) as [rest Hrest] end.
    + intros k Hk. rewrite json_get. unfold get_own. apply map_get_elem_key in Hk as [j Hj]. rewrite Hj.
      apply map_get_Some_elem in Hj as Hin. rewrite Forall_forall in IH. apply (IH (k, j) Hin).
      pose proof (json_depth_member (k, j) props Hin). simpl in *. lia.
    + rewrite Hrest. by eexists.
Qed.


#[export] Instance json_detached : Detached json_reader json_ok.
Proof.
  split; cbn [look json_reader].
  - intros [] m Hok [= <-]. by apply json_ok_num in Hok as [? _].
  - intros [] t Hok [= <-]. by apply json_ok_str in Hok.
  - intros [] o Hok [= <-]; [done|]. intros _. by apply json_ok_obj in Hok as (? & ? & _).
  - intros [] o k x Hok [= <-]; cbn [w_get].
    + destruct (index_name _ k); [|done]. intros Hx. apply json_ok_arr in Hok. by eapply Forall_lookup_1.
    + intros Hx. apply json_ok_obj in Hok as (_ & _ & Hok).
      apply map_get_Some_elem in Hx. rewrite Forall_forall in Hok. by apply (Hok _ Hx).
  - intros [] o l x Hok [= <-]; [|done]. cbn [w_items]. intros [= <-] Hx.
    apply list_elem_of_fmap in Hx as (y & [= ->] & Hy).
    apply json_ok_arr in Hok. rewrite Forall_forall in Hok. by apply Hok.
  - intros [] o k Hok [= <-]; [done|]. intros _. cbn [w_get w_keys]. unfold get_own. apply map_get_None.
  - by intros [] o Hok [= <-].
  - intros v sio path _. by apply validateJson_json_total.
Qed.

(** ** Structured clones are detached *)

Section clones.
Context (h : heap) (outside : loc → jsstr → value).
Hypothesis heap_ok : heap_wf h.
Hypothesis data_ok : heap_data_ok h.
Hypothesis outside_ok : ∀ l k, value_okb (outside l k) = true.

Lemma enumerable_key_props o k : k ∈ enumerable_keys o → k ∈ (o_props o).*1.
Proof.
  unfold enumerable_keys. rewrite !list_elem_of_fmap. intros (p & -> & Hp).
  apply list_elem_of_filter in Hp as [_ Hp]. by exists p.
Qed.

Lemma read_property_ok l k :
  k ∈ enumerable_keys (deref h l) → value_okb (read_property h outside l k) = true.
Proof using heap_ok data_ok outside_ok.
  intros Hk%enumerable_key_props. unfold read_property, own_descriptor.
  destruct (deref_wf h l heap_ok) as (_ & _ & Hlen).
  assert (o_array (deref h l) && bool_decide (k = key_length) = false) as ->.
  { destruct (o_array (deref h l)); [|done]. apply bool_decide_eq_false. intros ->. by apply Hlen. }
  unfold deref in *. destruct (h !! l) as [o|] eqn:Ho; [|by apply not_elem_of_nil in Hk]. simpl in *.
  apply map_get_elem_key in Hk as [[v e|e] E]; rewrite E; [|apply outside_ok].
  pose proof (data_ok _ _ Ho) as Hd. unfold object_data_okb in Hd.
  rewrite forallb_Forall, Forall_forall in Hd. apply map_get_Some_elem in E. exact (Hd _ E).
Qed.

Lemma clone_object_view v o :
  clone_view h outside v = WObject o → ∃ l, v = VObj l ∧ clone_view h outside (VObj l) = WObject o.
Proof. destruct v; try done. intros H. by eexists. Qed.

(** The objects on the path are distinct objects of the heap, so their number
    bounds the depth. *)
Lemma clone_validate_total sio fuel v path (ancestors : list loc) :
  NoDup ancestors → (∀ a, a ∈ ancestors → is_Some (h !! a)) → size h < fuel + length ancestors →
  ∃ issues, validateJson (clone_reader h outside) sio fuel (clone_view h outside v) path (Some <$> ancestors) = Ok issues.
Proof using Type.
  revert v path ancestors. induction fuel as [|fuel IH]; intros v path ancestors Hnd Ha Hsize.
  { exfalso. assert (length ancestors ≤ size h); [|lia].
    rewrite <- (size_dom (D := gset loc) h), <- (size_list_to_set (C := gset loc)) by done.
    apply subseteq_size. intros a Hin. apply elem_of_dom, Ha. by rewrite elem_of_list_to_set in Hin. }
  destruct v as [| | | | | | | |l]; try (apply validateJson_primitive; by intros o).
  unfold validateJson; fold (@validateJson value (clone_reader h outside)).
  cbn [clone_view primitive_view w_id w_throws w_items w_plain w_keys w_symbols].
  case_bool_decide as Hl; [by eexists|].
  assert (l ∉ ancestors) as Hfresh.
  { intros Hin. apply Hl. split; [done|]. by apply list_elem_of_fmap_2. }
  assert (Hrec : ∀ v p, is_Some (h !! l) → ∃ issues,
    validateJson (clone_reader h outside) sio fuel (clone_view h outside v) p (Some l :: (Some <$> ancestors)) = Ok issues).
  { intros v p Hsome. apply (IH v p (l :: ancestors)); [by constructor| |simpl; lia].
    intros a [->|?]%elem_of_cons; auto. }
  destruct (h !! l) as [o|] eqn:Ho; unfold deref; rewrite Ho; cbn [default from_option id].
  2: { by eexists. }
  destruct (o_array o).
  - apply iconcat_results_total. intros i [x|] _; [|by eexists]. by apply Hrec.
  - cbn [negb]. match goal with |- context [concat_results ?f ?l] =>
      destruct (concat_results_total f l) as [rest Hrest]; [|rewrite Hrest; by eexists] end.
    intros k _. unfold get. cbn [w_get]. case_bool_decide; [by apply Hrec|].
    apply validateJson_primitive. by intros o'.
Qed.

#[export] Instance clone_detached : Detached (clone_reader h outside) (λ v, value_okb v = true).
Proof using heap_ok data_ok outside_ok.
  split; cbn [look clone_reader].
  - intros v n Hv. destruct v; try done. intros [= <-]. by apply bool_decide_eq_true in Hv.
  - intros v s Hv. destruct v; try done. intros [= <-]. by apply bool_decide_eq_true in Hv.
  - intros v o _ Ho _. apply clone_object_view in Ho as (l & _ & [= <-]). cbn [w_keys].
    destruct (deref_wf h l heap_ok) as (Hnd & Hwf & _). unfold enumerable_keys. split.
    + eapply sublist_NoDup; [exact Hnd|]. apply fmap_sublist, sublist_filter.
    + rewrite Forall_forall in *. intros k Hk. by apply Hwf, enumerable_key_props.
  - intros v o k x _ Ho. apply clone_object_view in Ho as (l & _ & [= <-]). cbn [w_get].
    case_bool_decide; [|done]. intros [= <-]. by apply read_property_ok.
  - intros v o items x _ Ho. apply clone_object_view in Ho as (l & _ & [= <-]). cbn [w_items].
    destruct (o_array _); [|done]. intros [= <-] Hx. unfold array_items in Hx.
    apply list_elem_of_fmap in Hx as (i & Hi & _). case_bool_decide; [|done]. injection Hi as ->.
    by apply read_property_ok.
  - intros v o k _ Ho _ Hk. apply clone_object_view in Ho as (l & _ & [= <-]). cbn [w_get w_keys] in *.
    by rewrite bool_decide_eq_false_2.
  - intros v o _ Ho. apply clone_object_view in Ho as (l & _ & [= <-]). cbn [w_items w_hidden].
    by destruct (o_array _).
  - intros v sio path _. apply (clone_validate_total sio (S (size h)) v path []); [constructor| |simpl; lia].
    intros a Ha. by apply not_elem_of_nil in Ha.
Qed.
End clones.

(** ** Values without issues *)

Lemma reject_Ok message issues u : reject message issues = Ok u ↔ issues = [].
Proof. destruct issues, u; by split. Qed.

Section trees.
Context {V : Type} (r : reader V) (P : V → Prop) `{!Detached r P}.

(** What shows the tree [j] and prints as [j] prints. *)
Definition shows (fuel : nat) (v : view V) (j : json) : Prop :=
  tree r v j ∧ json_ok j ∧ canonical r fuel v = Ok (serializeCaptured j).

Lemma shows_items fuel items js :
  Forall2 (λ v j, shows fuel (look r v) j) items js →
  Forall2 (λ v j, tree r (look r v) j) items js ∧ Forall json_ok js ∧
  traverse (λ item : option V, match item with Some v => canonical r fuel (look r v) | None => Ok [] end)
    (Some <$> items) = Ok (map serializeCaptured js).
Proof.
  induction 1 as [|v j items js (Ht & Hok & Hc) _ (IH1 & IH2 & IH3)]; [done|].
  split_and!; [by constructor..|]. csimpl. rewrite Hc. cbn [mbind result_bind]. by rewrite IH3.
Qed.

Lemma traverse_sorted {A} (f : jsstr → result exn A) ks xs :
  Forall2 (λ k x, f k = Ok x) ks xs →
  traverse f (sort_by compareUnicodeCodePoints ks) =
  Ok ((λ p : jsstr * A, p.2) <$> sort_by compare_keys (zip ks xs)).
Proof.
  intros H.
  assert (Forall (λ p : jsstr * A, f p.1 = Ok p.2) (sort_by compare_keys (zip ks xs))) as Hall.
  { rewrite sort_by_Permutation. induction H; by constructor. }
  assert (sort_by compareUnicodeCodePoints ks = fst <$> sort_by compare_keys (zip ks xs)) as ->.
  { rewrite (sort_by_fmap fst compare_keys compareUnicodeCodePoints) by done. f_equal.
    symmetry. apply fst_zip. apply Forall2_length in H. lia. }
  induction Hall as [|p l Hp _ IH]; [done|]. csimpl. rewrite Hp. cbn [mbind result_bind].
  by rewrite IH.
Qed.

Lemma shows_members fuel o js :
  NoDup (w_keys o) → Forall str_wf (w_keys o) → w_items o = None → w_plain o = true → w_symbols o = 0%nat →
  Forall2 (λ k j, shows fuel (get r o k) j) (w_keys o) js →
  shows (S fuel) (WObject o) (JObj (zip (w_keys o) js)).
Proof.
  intros Hnd Hwf Hitems Hplain Hsym H.
  assert (length (w_keys o) = length js) as Hlen by by eapply Forall2_length.
  split_and!.
  - constructor; [done..|]. eapply Forall2_impl; [exact H|]. by intros ? ? [? _].
  - apply json_ok_obj. rewrite fst_zip by lia. split_and!; [done..|].
    apply (Forall_fmap snd json_ok). rewrite snd_zip by lia.
    clear -H. induction H as [|k j ks js (_ & Hok & _) _ IH]; by constructor.
  - unfold canonical; fold (@canonical V r). rewrite Hitems.
    rewrite (traverse_sorted _ _ ((λ p : jsstr * json, member_text p) <$> zip (w_keys o) js)).
    + cbn [mbind result_bind]. rewrite serialize_obj. do 4 f_equal.
      assert (sort_by compare_keys (zip (w_keys o) ((λ p, member_text p) <$> zip (w_keys o) js)) =
        (λ p : jsstr * json, (p.1, member_text p)) <$> sort_by compare_keys (zip (w_keys o) js)) as ->.
      { rewrite (sort_by_fmap _ compare_keys compare_keys) by done. f_equal.
        clear -Hlen. revert Hlen. generalize (w_keys o). intros ks. revert js.
        induction ks as [|k ks IH]; intros [|j js]; simpl; try done. intros [= Hl]. by rewrite IH. }
      by rewrite <- list_fmap_compose.
    + clear Hnd Hwf Hlen Hitems Hplain Hsym. induction H as [|k j ks js (_ & _ & Hc) _ IH]; [constructor|].
      csimpl. constructor; [|done]. by rewrite Hc.
Qed.

(** A value without issues shows a tree, and prints like it. *)
Lemma validateJson_shows fuel v path ancestors :
  P v → validateJson r false fuel (look r v) path ancestors = Ok [] →
  ∃ j, shows fuel (look r v) j.
Proof.
  revert v path ancestors. induction fuel as [|fuel IH]; intros v path ancestors HP H.
  { destruct (look r v) as [| |b|n|s|t|o] eqn:E; unfold validateJson in H; try done.
    - by exists JNull; split_and!; [constructor|..].
    - by exists (JBool b); split_and!; [constructor|..].
    - destruct (num_finite n) eqn:Hf; [|done]. exists (JNum n).
      split_and!; [by constructor|by apply json_ok_num; split; [eapply detached_num|]|done].
    - exists (JStr s). split_and!; [by constructor|by apply json_ok_str; eapply detached_str|done].
    - case_bool_decide; [done|]. by destruct (w_throws o). }
  destruct (look r v) as [| |b|n|s|t|o] eqn:E; unfold validateJson in H; fold (@validateJson V r) in H; try done.
  - by exists JNull; split_and!; [constructor|..].
  - by exists (JBool b); split_and!; [constructor|..].
  - destruct (num_finite n) eqn:Hf; [|done]. exists (JNum n).
    split_and!; [by constructor|by apply json_ok_num; split; [eapply detached_num|]|done].
  - exists (JStr s). split_and!; [by constructor|by apply json_ok_str; eapply detached_str|done].
  - case_bool_decide; [done|]. destruct (w_throws o); [done|].
    destruct (w_items o) as [items|] eqn:Eitems.
    + rewrite iconcat_results_nil in H.
      assert (∃ vs js, items = Some <$> vs ∧ Forall2 (λ v j, shows fuel (look r v) j) vs js)
        as (vs & js & -> & Hjs).
      { assert (∀ x, Some x ∈ items → P x) as HPs by (intros; by eapply detached_item).
        assert (∀ i x, items !! i = Some x → ∃ v, x = Some v ∧ ∃ j, shows fuel (look r v) j) as Hs.
        { intros i x Hx. specialize (H i x Hx). destruct x as [x|]; [|done].
          exists x. split; [done|]. eapply IH; [|exact H]. apply HPs. by eapply list_elem_of_lookup_2. }
        clear -Hs. induction items as [|x items IHi]; [by exists [], []|].
        destruct (Hs 0 x eq_refl) as (v & -> & j & Hj).
        destruct IHi as (vs & js & -> & Hjs); [intros i; apply (Hs (S i))|].
        exists (v :: vs), (j :: js). by split; [|constructor]. }
      destruct (shows_items fuel vs js Hjs) as (H1 & H2 & H3).
      exists (JArr js). split_and!; [by eapply tree_arr|by apply json_ok_arr|].
      unfold canonical; fold (@canonical V r). rewrite Eitems, H3. done.
    + destruct (w_plain o) eqn:Eplain; [|done]. simpl negb in H. cbv iota in H.
      destruct (concat_results _ _) as [rest|] eqn:Er; [|done]. cbn [mbind result_bind] in H.
      injection H as H. apply app_eq_nil in H as [Hsym ->]. unfold push_if in Hsym.
      destruct (0 <? w_symbols o) eqn:Es; [done|]. apply Nat.ltb_ge in Es.
      rewrite concat_results_nil in Er.
      destruct (detached_keys v o HP E Eitems) as [Hnd Hwf].
      assert (∃ js, Forall2 (λ k j, shows fuel (get r o k) j) (w_keys o) js) as [js Hjs].
      { assert (∀ k, k ∈ w_keys o → ∃ j, shows fuel (get r o k) j) as Hs.
        { rewrite Forall_forall in Er. intros k Hk. specialize (Er k Hk). unfold get in *.
          destruct (w_get o k) as [x|] eqn:Ex; [|by destruct fuel].
          eapply IH; [|exact Er]. by eapply detached_property. }
        clear -Hs. induction (w_keys o) as [|k ks IHk]; [by exists []|].
        destruct (Hs k) as [j Hj]; [constructor|].
        destruct IHk as [js Hjs]; [intros k' ?; apply Hs; by constructor|].
        exists (j :: js). by constructor. }
      exists (JObj (zip (w_keys o) js)). apply shows_members; [done..|lia|done].
Qed.
End trees.

(** ** Parsed records have no issues *)

(** Every number of a tree is a safe integer. *)
Fixpoint safe_numbers (j : json) : bool :=
  match j with
  | JNum n => num_safe_integer n
  | JArr items => forallb safe_numbers items
  | JObj props => forallb (λ p, safe_numbers p.2) props
  | _ => true
  end.

Lemma validateJson_json sio fuel j path ancestors :
  json_ok j → (sio = true → safe_numbers j = true) → json_depth j ≤ fuel →
  validateJson json_reader sio fuel (json_view j) path ancestors = Ok [].
Proof.
  revert fuel path ancestors.
  induction j as [|b|n|s|items IH|props IH] using json_nested_ind; intros fuel path ancestors Hok Hsafe Hd.
  - by destruct fuel.
  - by destruct fuel.
  - apply json_ok_num in Hok as [_ Hf].
    assert (sio && negb (num_safe_integer n) = false) as Hs.
    { destruct sio; [|done]. specialize (Hsafe eq_refl). cbn [safe_numbers] in Hsafe. by rewrite Hsafe. }
    destruct fuel; unfold validateJson; cbn [json_view]; by rewrite Hf, Hs.
  - by destruct fuel.
  - destruct fuel as [|fuel]; [simpl in Hd; lia|]. apply json_ok_arr in Hok.
    unfold validateJson; fold (@validateJson json json_reader). cbn [json_view w_id w_throws w_items].
    rewrite bool_decide_eq_false_2 by (by intros [[? ?] _]).
    apply iconcat_results_nil. intros i x Hx. rewrite list_lookup_fmap in Hx.
    destruct (items !! i) as [j|] eqn:Ej; [|done]. injection Hx as <-.
    assert (j ∈ items) as Hin by by eapply list_elem_of_lookup_2.
    rewrite Forall_forall in IH, Hok. apply IH; [done|by apply Hok| |].
    + intros Hs. specialize (Hsafe Hs). cbn [safe_numbers] in Hsafe.
      rewrite forallb_Forall, Forall_forall in Hsafe. by apply Hsafe.
    + pose proof (json_depth_item j items Hin). lia.
  - destruct fuel as [|fuel]; [simpl in Hd; lia|]. apply json_ok_obj in Hok as (Hnd & _ & Hok).
    unfold validateJson; fold (@validateJson json json_reader).
    cbn [json_view w_id w_throws w_items w_plain w_keys w_symbols negb Nat.ltb Nat.leb push_if app].
    rewrite bool_decide_eq_false_2 by (by intros [[? ?] _]).
    match goal with |- context [concat_results ?f ?l] => assert (concat_results f l = Ok []) as -> end; [|done].
    apply concat_results_nil, Forall_forall. intros k Hk. rewrite json_get.
    apply map_get_elem_key in Hk as [j Hj]. unfold get_own. rewrite Hj.
    apply map_get_Some_elem in Hj as Hin.
    rewrite Forall_forall in IH, Hok. apply (IH (k, j) Hin); [by apply (Hok (k, j))| |].
    + intros Hs. specialize (Hsafe Hs). cbn [safe_numbers] in Hsafe.
      rewrite forallb_Forall, Forall_forall in Hsafe. by apply (Hsafe (k, j)).
    + pose proof (json_depth_member (k, j) props Hin). simpl in *. lia.
Qed.

(** A parsed record shows itself. *)
Lemma json_shows_self j j' : json_ok j → tree json_reader (json_view j) j' → j' = j.
Proof.
  revert j'. induction j as [|b|n|s|items IH|props IH] using json_nested_ind; intros j' Hok Ht;
    inversion Ht as [| | | |o vs js Hitems Hjs|o js Hitems Hplain Hsym Hjs]; subst; try done.
  - injection Hitems as Hitems. apply json_ok_arr in Hok. f_equal.
    assert (vs = items) as ->.
    { clear -Hitems. revert items Hitems. induction vs as [|v vs IH]; intros [|i items]; try done.
      csimpl. intros [= -> H]. by rewrite (IH items). }
    clear Ht Hitems. induction Hjs as [|v j items js Hj _ IHj]; [done|].
    apply Forall_cons in IH as [IH1 IH]. apply Forall_cons in Hok as [Hok1 Hok]. f_equal; auto.
  - apply json_ok_obj in Hok as (Hnd & _ & Hok). f_equal.
    assert (Forall2 (λ k j, get_own k props = Some j) props.*1 js) as Hf.
    { cbn [w_keys] in Hjs. rewrite Forall_forall in IH, Hok.
      apply Forall2_same_length_lookup. split; [by eapply Forall2_length|].
      intros i k j Hk Hj. pose proof (Forall2_lookup_lr _ _ _ _ _ _ Hjs Hk Hj) as Hkj.
      cbn beta in Hkj. rewrite json_get in Hkj.
      assert (k ∈ props.*1) as Hin by by eapply list_elem_of_lookup_2.
      apply map_get_elem_key in Hin as [j0 Hj0]. unfold get_own in *. rewrite Hj0 in Hkj |- *.
      apply map_get_Some_elem in Hj0. f_equal. symmetry. apply (IH (k, j0) Hj0); [by apply (Hok (k, j0))|done]. }
    cbn [w_keys]. clear -Hf Hnd.
    assert (Forall2 (λ k j, get_own k props = Some j) props.*1 props.*2) as Hg.
    { apply Forall2_fmap, Forall_Forall2_diag, Forall_forall. intros [k j] Hp. by apply map_get_NoDup. }
    assert (js = props.*2) as ->; [|apply zip_fst_snd].
    clear Hnd. revert js Hf. induction Hg as [|k j ks js' Hk _ IH]; intros js Hf; inversion Hf; subst; [done|].
    f_equal; [congruence|]. by apply IH.
Qed.

(** ** [cloneJson] *)

Lemma reject_nil message : reject message [] = Ok tt.
Proof. done. Qed.

Lemma canonicalJson_shows {V} (r : reader V) fuel v j :
  validateJson r false fuel v (js "#") [] = Ok [] → shows r fuel v j →
  canonicalJson r fuel v = Ok (serializeCaptured j).
Proof.
  intros Hv (_ & _ & Hc). unfold canonicalJson, jsonValidationIssues. rewrite Hv.
  cbn [mbind result_bind]. rewrite reject_nil. exact Hc.
Qed.

Lemma parse_json_serialize j : json_ok j → parse_json (serializeCaptured j) = Ok (canonical_form j).
Proof. intros Hj. unfold parse_json. by rewrite json_parse_serialize. Qed.

Lemma cloneJson_shows {V} (r : reader V) fuel v j :
  validateJson r false fuel v (js "#") [] = Ok [] → shows r fuel v j →
  cloneJson r fuel v = Ok (canonical_form j).
Proof.
  intros Hv Hs. unfold cloneJson. rewrite (canonicalJson_shows _ _ _ _ Hv Hs). cbn [mbind result_bind].
  apply parse_json_serialize, Hs.
Qed.
