(* ===== verification/Events.v ===== *)
(** * Graph events (packages/persistence/src/events.ts, store-validation.ts)

    The envelope that every persisted event has, and the checks an append or a read
    request goes through.  Events are read through views, so that the same
    definitions apply to caller values, structured clones and parsed records. *)
From S2P Require Import Prelude JsString JsNumber JsValue JsonText Canonical Views DateTime.
From S2P Require Import PersistenceJson.

(** ** The envelope *)

Definition GRAPH_EVENT_API_VERSION : jsstr := js "graphengineering.reacher-z.github.io/events/v1alpha1".

Definition GRAPH_EVENT_TYPES : list jsstr := js <$>
  ["RunCreated"; "RunStarted"; "RunPaused"; "RunResumed"; "GraphPatched"; "NodeScheduled"; "NodeStarted";
   "NodeAttemptFailed"; "NodeRetried"; "NodeSucceeded"; "EdgeEmitted"; "BarrierSatisfied"; "RouteSelected";
   "VerificationRecorded"; "BudgetUpdated"; "ArtifactCreated"; "HumanInputRequested"; "HumanInputReceived";
   "RunCancelled"; "RunFailed"; "RunSucceeded"].

Definition EVENT_KEYS : list jsstr := js <$>
  ["apiVersion"; "eventId"; "type"; "timestamp"; "runId"; "graphRevision"; "sequence"; "traceId"; "spanId";
   "parentSpanId"; "nodeId"; "edgeId"; "attempt"; "payloadHash"; "artifactRef"; "redacted"; "data"].
Definition REQUIRED_KEYS : list jsstr := js <$>
  ["apiVersion"; "eventId"; "type"; "timestamp"; "runId"; "graphRevision"; "sequence"; "data"].
Definition OPTIONAL_STRINGS : list jsstr := js <$>
  ["traceId"; "spanId"; "parentSpanId"; "nodeId"; "edgeId"; "payloadHash"; "artifactRef"].

(** [isRecord(value)] *)
Definition isRecord {V} (v : view V) : option (object_view V) :=
  match v with
  | WObject o => match w_items o with None => Some o | Some _ => None end
  | _ => None
  end.

(** [Number.isSafeInteger(v) && v >= k] *)
Definition safe_integer_from {V} (k : Z) (v : view V) : bool :=
  match v with WNum n => num_safe_integer n && negb (num_ltb n (num_of_Z k)) | _ => false end.
(** [v === s] for a string, [typeof v === "string" && v.length > 0],
    [v !== undefined && typeof v !== "string"] *)
Definition is_string {V} (s : jsstr) (v : view V) : bool :=
  match v with WStr t => bool_decide (t = s) | _ => false end.
Definition nonempty_string {V} (v : view V) : bool :=
  match v with WStr s => negb (length s =? 0)%nat | _ => false end.
Definition string_or_undefined {V} (v : view V) : bool :=
  match v with WStr _ | WUndefined => true | _ => false end.

(** [v !== undefined && f(v)] *)
Definition defined_and {V} (f : view V → bool) (v : view V) : bool :=
  match v with WUndefined => false | _ => f v end.

Definition field (key : jsstr) : jsstr := js "#/" ++ key.

Section events.
Context {V : Type} (r : reader V).

(** The issues of [validateGraphEvent] before those of [jsonValidationIssues] *)
Definition envelope_issues (o : object_view V) : list ValidationIssue :=
  (filter (λ key, key ∉ EVENT_KEYS) (w_keys o) ≫= λ key, [issue (field key) (js "unknown property")]) ++
  (filter (λ key, view_has o key = false) REQUIRED_KEYS ≫=
     λ key, [issue (field key) (js "required property is missing")]) ++
  push_if (negb (is_string GRAPH_EVENT_API_VERSION (get r o (js "apiVersion"))))
    (js "#/apiVersion") (js "expected " ++ GRAPH_EVENT_API_VERSION) ++
  push_if (negb (nonempty_string (get r o (js "eventId")))) (js "#/eventId") (js "expected a non-empty string") ++
  push_if (negb (match get r o (js "type") with WStr s => bool_decide (s ∈ GRAPH_EVENT_TYPES) | _ => false end))
    (js "#/type") (js "unknown event type") ++
  push_if (negb (isStrictRfc3339 (get r o (js "timestamp")))) (js "#/timestamp") (js "expected an RFC 3339 date-time") ++
  push_if (negb (nonempty_string (get r o (js "runId")))) (js "#/runId") (js "expected a non-empty string") ++
  push_if (negb (safe_integer_from 1 (get r o (js "graphRevision")))) (js "#/graphRevision")
    (js "expected a safe integer >= 1") ++
  push_if (negb (safe_integer_from 0 (get r o (js "sequence")))) (js "#/sequence")
    (js "expected a safe integer >= 0") ++
  (filter (λ key, string_or_undefined (get r o key) = false) OPTIONAL_STRINGS ≫=
     λ key, [issue (field key) (js "expected a string")]) ++
  push_if (defined_and (λ v, negb (safe_integer_from 1 v)) (get r o (js "attempt")))
    (js "#/attempt") (js "expected a safe integer >= 1") ++
  push_if (match get r o (js "redacted") with WUndefined | WBool _ => false | _ => true end)
    (js "#/redacted") (js "expected a boolean") ++
  push_if (match isRecord (get r o (js "data")) with Some _ => false | None => true end)
    (js "#/data") (js "expected an object").

(** [validateGraphEvent(value)]: its issues, none when the value is valid *)
Definition validateGraphEvent (fuel : nat) (value : view V) : result exn (list ValidationIssue) :=
  match isRecord value with
  | None => Ok [issue (js "#") (js "expected an event object")]
  | Some o =>
      if w_throws o then Err Thrown
      else
        rest ← jsonValidationIssues r false fuel value (js "#");
        Ok (envelope_issues o ++ rest)
  end.

(** [assertGraphEvent(value)] *)
Definition assertGraphEvent (fuel : nat) (value : view V) : result exn unit :=
  issues ← validateGraphEvent fuel value;
  reject (js "Graph event does not match the v1alpha1 envelope") issues.

(** The properties of a valid event that the stores read *)
Definition event_runId (v : view V) : jsstr :=
  match isRecord v with
  | Some o => match get r o (js "runId") with WStr s => s | _ => [] end
  | None => []
  end.
Definition event_sequence (v : view V) : Z :=
  match isRecord v with
  | Some o => match get r o (js "sequence") with WNum n => num_trunc n | _ => (-1)%Z end
  | None => (-1)%Z
  end.
End events.

(** ** Requests (store-validation.ts) *)

(** [validateReadRequest(runId, fromSequence)]: the arguments it lets through *)
Definition validateReadRequest {V} (runId fromSequence : view V) : result exn (jsstr * Z) :=
  run ← assertSafeIdentifier runId (js "runId");
  match fromSequence with
  | WNum n =>
      if safe_integer_from 0 fromSequence then Ok (run, num_trunc n)
      else Err (Persistence (PersistenceValidationError (js "fromSequence must be a non-negative safe integer")
        [issue (js "#/fromSequence") (js "expected a safe integer >= 0")]))
  | _ => Err (Persistence (PersistenceValidationError (js "fromSequence must be a non-negative safe integer")
        [issue (js "#/fromSequence") (js "expected a safe integer >= 0")]))
  end.

(** What an append request is reduced to: the run, the expected version, and the
    events with the way to read them, [None] for a hole. *)
Record append_request := AppendRequest {
  a_runId : jsstr;
  a_expected : Z;
  a_reader : reader value;
  a_events : list (option value)
}.

Definition request_error : jsstr := js "Event append request is invalid".

(** [prepareAppendRequest(runId, expectedVersion, events)] on the caller's heap *)
Definition prepareAppendRequest (h : heap) (outside : loc → jsstr → value) (runId expectedVersion events : value)
    : result exn append_request :=
  let r := heap_reader h outside in
  run ← assertSafeIdentifier (look r runId) (js "runId");
  let version := look r expectedVersion in
  let items := match look r events with WObject o => w_items o | _ => None end in
  _ ← reject request_error
    (push_if (negb (safe_integer_from (-1) version)) (js "#/expectedVersion") (js "expected a safe integer >= -1") ++
     push_if (match items with Some _ => false | None => true end) (js "#/events") (js "expected an event array"));
  let expected := match version with WNum n => num_trunc n | _ => 0%Z end in
  if cloneable h outside (clone_fuel h 1) [events] [] then
    let cloned := match clone_view h outside events with WObject o => default [] (w_items o) | _ => [] end in
    Ok (AppendRequest run expected (clone_reader h outside) cloned)
  else
    if match look r events with WObject o => w_throws o | _ => false end then Err Thrown
    else Ok (AppendRequest run expected r (default [] items)).

(** [path.slice(1)] *)
Definition slice1 (path : jsstr) : jsstr := drop 1 path.
Definition event_path (index : nat) : jsstr := js "#/events/" ++ string_of_nat index.

(** The view of an entry of an array; a hole reads as [undefined] *)
Definition entry_view {V} (r : reader V) (e : option V) : view V :=
  match e with Some v => look r v | None => WUndefined end.
Definition entry_depth {V} (r : reader V) (e : option V) : nat :=
  match e with Some v => depth r v | None => 0 end.

(** One iteration of the loop of [validateAppendEvents] *)
Definition append_event_issues {V} (r : reader V) (runId : jsstr) (expectedVersion : Z) (index : nat)
    (event : option V) : result exn (list ValidationIssue) :=
  let v := entry_view r event in
  issues ← validateGraphEvent r (entry_depth r event) v;
  match issues with
  | [] =>
      let expectedSequence := (expectedVersion + 1 + Z.of_nat index)%Z in
      Ok (push_if (negb (bool_decide (event_runId r v = runId))) (event_path index ++ js "/runId")
            (js "must match append runId") ++
          push_if (negb (event_sequence r v =? expectedSequence)%Z) (event_path index ++ js "/sequence")
            (js "expected contiguous sequence " ++ string_of_Z expectedSequence))
  | _ => Ok ((λ i, issue (event_path index ++ slice1 (issue_path i)) (issue_message i)) <$> issues)
  end.

(** [validateAppendEvents(runId, expectedVersion, events)] *)
Definition validateAppendEvents {V} (r : reader V) (runId : jsstr) (expectedVersion : Z)
    (events : list (option V)) : result exn unit :=
  issues ← iconcat_results (append_event_issues r runId expectedVersion) events;
  reject request_error issues.
