(* ===== verification/EventsSpec.v ===== *)
(** * The event envelope

    [graph_event props] states what the fields of a valid event are.  The validator
    accepts a parsed record exactly when it has such fields, and a detached caller
    value only when the tree it shows has; the fields survive the canonical text. *)
From S2P Require Import Prelude JsString JsNumber JsValue JsonText NumberText Canonical CanonicalSpec.
From S2P Require Import JsonRoundTrip Views DateTime PersistenceJson PersistenceJsonSpec Events.

(** ** Specification *)

Definition safe_from (k : Z) (n : num) : Prop := num_safe_integer n = true ∧ (k <= num_trunc n)%Z.

Definition has_string (props : list (jsstr * json)) (k : string) (Q : jsstr → Prop) : Prop :=
  ∃ s, get_own (js k) props = Some (JStr s) ∧ Q s.
Definition has_integer (props : list (jsstr * json)) (k : string) (from : Z) : Prop :=
  ∃ n, get_own (js k) props = Some (JNum n) ∧ safe_from from n.

Record graph_event (props : list (jsstr * json)) : Prop := {
  ge_keys : ∀ k, k ∈ props.*1 → k ∈ EVENT_KEYS;
  ge_version : has_string props "apiVersion" (.= GRAPH_EVENT_API_VERSION);
  ge_id : has_string props "eventId" (.≠ []);
  ge_type : has_string props "type" (.∈ GRAPH_EVENT_TYPES);
  ge_timestamp : has_string props "timestamp" (λ s, ∃ t, is_timestamp s t);
  ge_run : has_string props "runId" (.≠ []);
  ge_revision : has_integer props "graphRevision" 1;
  ge_sequence : has_integer props "sequence" 0;
  ge_strings : ∀ k j, k ∈ OPTIONAL_STRINGS → get_own k props = Some j → ∃ s, j = JStr s;
  ge_attempt : ∀ j, get_own (js "attempt") props = Some j → ∃ n, j = JNum n ∧ safe_from 1 n;
  ge_redacted : ∀ j, get_own (js "redacted") props = Some j → ∃ b, j = JBool b;
  ge_data : ∃ data, get_own (js "data") props = Some (JObj data)
}.

(** ** Lemmas on the checks *)

Lemma push_if_nil c path message : push_if c path message = [] ↔ c = false.
Proof. by destruct c. Qed.

Lemma filter_bind_nil {A} (Q : A → Prop) `{∀ x, Decision (Q x)} (f : A → ValidationIssue) l :
  (filter Q l ≫= λ x, [f x]) = [] ↔ ∀ x, x ∈ l → ¬ Q x.
Proof.
  induction l as [|x l IH]; [split; [intros _ x Hx; by apply not_elem_of_nil in Hx|done]|].
  destruct (decide (Q x)) as [Hq|Hq].
  - rewrite filter_cons_True by done. split; [done|]. intros Hn. destruct (Hn x); [constructor|done].
  - rewrite filter_cons_False by done. rewrite IH. split.
    + intros Hn y [->|Hy]%elem_of_cons; auto.
    + intros Hn y Hy. apply Hn. by constructor.
Qed.

Lemma safe_integer_from_num {V} k n :
  (Z.abs k <= MAX_SAFE_INTEGER)%Z → safe_integer_from k (@WNum V n) = true ↔ safe_from k n.
Proof.
  intros Hk. unfold safe_integer_from, safe_from. rewrite andb_true_iff.
  split; intros [Hs Hl]; (split; [done|]).
  - rewrite num_ltb_const in Hl by (done || by apply num_safe_integer_integer).
    apply negb_true_iff, Z.ltb_ge in Hl. done.
  - rewrite num_ltb_const by (done || by apply num_safe_integer_integer).
    by apply negb_true_iff, Z.ltb_ge.
Qed.

(** A field of a record and the property of the tree it shows. *)
Definition field_shows {V} (r : reader V) (v : view V) (j : option json) : Prop :=
  match j with Some j => tree r v j | None => v = WUndefined end.

Section fields.
Context {V : Type} (r : reader V) (v : view V) (j : option json) (Hv : field_shows r v j).

Lemma field_is_string s : is_string s v = true ↔ j = Some (JStr s).
Proof using Hv.
  unfold field_shows in Hv. destruct j as [j'|]; [|by subst].
  inversion Hv; subst; try done. simpl. rewrite bool_decide_eq_true. naive_solver.
Qed.
Lemma field_string (Q : jsstr → Prop) (f : jsstr → bool) :
  (∀ s, f s = true ↔ Q s) →
  (match v with WStr s => f s | _ => false end) = true ↔ ∃ s, j = Some (JStr s) ∧ Q s.
Proof using Hv.
  intros Hf. unfold field_shows in Hv. destruct j as [j'|]; [|subst; naive_solver].
  inversion Hv; subst; naive_solver.
Qed.
Lemma field_integer k :
  (Z.abs k <= MAX_SAFE_INTEGER)%Z →
  safe_integer_from k v = true ↔ ∃ n, j = Some (JNum n) ∧ safe_from k n.
Proof using Hv.
  intros Hk. unfold field_shows in Hv. destruct j as [j'|]; [|subst; naive_solver].
  inversion Hv; subst; try (simpl; naive_solver). rewrite safe_integer_from_num by done. naive_solver.
Qed.
Lemma field_optional_string : string_or_undefined v = true ↔ ∀ j', j = Some j' → ∃ s, j' = JStr s.
Proof using Hv.
  unfold field_shows in Hv. destruct j as [j'|]; [|subst; naive_solver].
  inversion Hv; subst; simpl; split; try naive_solver; intros Hq; by destruct (Hq _ eq_refl).
Qed.
Lemma field_optional_integer k :
  (Z.abs k <= MAX_SAFE_INTEGER)%Z →
  defined_and (λ v, negb (safe_integer_from k v)) v = false ↔
  ∀ j', j = Some j' → ∃ n, j' = JNum n ∧ safe_from k n.
Proof using Hv.
  intros Hk. unfold field_shows in Hv. destruct j as [j'|]; [|subst; naive_solver].
  inversion Hv; subst; cbn [defined_and]; rewrite ?negb_false_iff, ?safe_integer_from_num by done;
    split; try done; try (intros Hq; by destruct (Hq _ eq_refl) as (? & ? & _)).
  - intros Hq ? [= <-]. eauto.
  - intros Hq. by destruct (Hq _ eq_refl) as (? & [= <-] & ?).
Qed.
Lemma field_optional_boolean :
  (match v with WUndefined | WBool _ => false | _ => true end) = false ↔
  ∀ j', j = Some j' → ∃ b, j' = JBool b.
Proof using Hv.
  unfold field_shows in Hv. destruct j as [j'|]; [|subst; naive_solver].
  inversion Hv; subst; simpl; split; try naive_solver; intros Hq; by destruct (Hq _ eq_refl).
Qed.
Lemma field_record : is_Some (isRecord v) ↔ ∃ data, j = Some (JObj data).
Proof using Hv.
  unfold field_shows in Hv. destruct j as [j'|]; [|subst; split; [by intros [? ?]|naive_solver]].
  inversion Hv as [| | | |o items js Hi Hjs|o js Hi]; subst; simpl;
    try (split; [by intros [? ?]|naive_solver]); rewrite Hi; simpl; [split; [by intros [? ?]|naive_solver]|].
  split; [eauto|done].
Qed.
End fields.

(** ** The envelope *)

Lemma nonempty_string_match {V} (v : view V) :
  nonempty_string v = match v with WStr s => negb (length s =? 0)%nat | _ => false end.
Proof. done. Qed.
Lemma nonempty_true (s : jsstr) : negb (length s =? 0)%nat = true ↔ s ≠ [].
Proof. by destruct s. Qed.

Lemma envelope_issues_nil {V} (r : reader V) (o : object_view V) (props : list (jsstr * json)) :
  w_keys o = props.*1 → w_hidden o = [] →
  (∀ k, field_shows r (get r o k) (get_own k props)) →
  envelope_issues r o = [] ↔ graph_event props.
Proof.
  intros Hkeys Hhidden Hf.
  assert (Hhas : ∀ k, view_has o k = true ↔ is_Some (get_own k props)).
  { intros k. unfold view_has. rewrite Hkeys, Hhidden, orb_true_iff, !bool_decide_eq_true.
    unfold get_own. rewrite elem_of_nil. split.
    - intros [Hk|[]]. apply map_get_elem_key in Hk as [v Hv]. by exists v.
    - intros [v Hv]. left. by eapply map_get_Some_key. }
  assert (∀ {A} (a b : list A), a ++ b = [] ↔ a = [] ∧ b = []) as Happ.
  { intros A a b. split; [apply app_eq_nil|by intros [-> ->]]. }
  unfold envelope_issues. rewrite !Happ, !filter_bind_nil, !push_if_nil, !negb_false_iff.
  rewrite (field_is_string r _ _ (Hf (js "apiVersion"))), !nonempty_string_match.
  rewrite (field_string r _ _ (Hf (js "eventId")) (.≠ []) _ nonempty_true).
  rewrite (field_string r _ _ (Hf (js "runId")) (.≠ []) _ nonempty_true).
  rewrite (field_string r _ _ (Hf (js "type")) (.∈ GRAPH_EVENT_TYPES) (λ s, bool_decide (s ∈ GRAPH_EVENT_TYPES)) (λ s, bool_decide_eq_true _)).
  unfold isStrictRfc3339.
  rewrite (field_string r _ _ (Hf (js "timestamp")) _ _ strict_rfc3339_iff).
  rewrite (field_integer r _ _ (Hf (js "graphRevision")) 1), (field_integer r _ _ (Hf (js "sequence")) 0) by done.
  rewrite (field_optional_integer r _ _ (Hf (js "attempt")) 1) by done.
  rewrite (field_optional_boolean r _ _ (Hf (js "redacted"))), Hkeys.
  assert (match isRecord (get r o (js "data")) with Some _ => false | None => true end = false ↔
    ∃ data, get_own (js "data") props = Some (JObj data)) as ->.
  { rewrite <- (field_record r _ _ (Hf (js "data"))). destruct (isRecord _); split; try done; by intros [? ?]. }
  assert ((∀ k, k ∈ OPTIONAL_STRINGS → string_or_undefined (get r o k) ≠ false) ↔
    ∀ k j, k ∈ OPTIONAL_STRINGS → get_own k props = Some j → ∃ s, j = JStr s) as ->.
  { split.
    - intros H k j Hk. apply (proj1 (field_optional_string r _ _ (Hf k))). by apply not_false_iff_true, H.
    - intros H k Hk. apply not_false_iff_true, (field_optional_string r _ _ (Hf k)). intros j. by apply H. }
  unfold GRAPH_EVENT_TYPES, has_string, has_integer. split.
  - intros (H1 & _ & H3 & H4 & H5 & H6 & H7 & H8 & H9 & H10 & H11 & H12 & H13).
    split; try done; [|by exists GRAPH_EVENT_API_VERSION].
    intros k Hk. apply dec_stable. by apply H1.
  - intros [H1 (s & H2 & ->) H3 H4 H5 H6 H7 H8 H9 H10 H11 H12].
    split_and!; try done; [intros k Hk Hn; by apply Hn, H1|].
    intros k Hk. apply not_false_iff_true, Hhas.
    unfold has_string, has_integer in *.
    apply list_elem_of_In in Hk. cbn in Hk.
    repeat match type of Hk with _ ∨ _ => destruct Hk as [<-|Hk] end; [..|done]; naive_solver.
Qed.

(** ** Valid events *)

Lemma tree_fields {V} (r : reader V) P `{!Detached r P} v o js :
  P v → look r v = WObject o → w_items o = None → NoDup (w_keys o) →
  Forall2 (λ k j, tree r (get r o k) j) (w_keys o) js →
  ∀ k, field_shows r (get r o k) (get_own k (zip (w_keys o) js)).
Proof.
  intros HP Hv Hitems Hnd Hjs k. unfold field_shows, get_own.
  assert ((zip (w_keys o) js).*1 = w_keys o) as Hfst by (apply fst_zip; apply Forall2_length in Hjs; lia).
  destruct (map_get k (zip (w_keys o) js)) as [j|] eqn:E.
  - apply map_get_Some_elem in E. apply list_elem_of_lookup in E as [i Hi].
    rewrite lookup_zip_with in Hi.
    destruct (w_keys o !! i) as [k'|] eqn:Hk; [|done]. simpl in Hi.
    destruct (js !! i) as [j'|] eqn:Hj; [|done]. injection Hi as -> ->.
    exact (Forall2_lookup_lr _ _ _ _ _ _ Hjs Hk Hj).
  - apply map_get_None in E. rewrite Hfst in E. unfold get.
    by rewrite (detached_closed v o k HP Hv Hitems E).
Qed.

(** What the stores read of an event. *)
Definition props_runId (props : list (jsstr * json)) : jsstr :=
  match get_own (js "runId") props with Some (JStr s) => s | _ => [] end.
Definition props_sequence (props : list (jsstr * json)) : Z :=
  match get_own (js "sequence") props with Some (JNum n) => num_trunc n | _ => (-1)%Z end.

Lemma event_fields {V} (r : reader V) v o props :
  isRecord v = Some o → (∀ k, field_shows r (get r o k) (get_own k props)) →
  graph_event props →
  event_runId r v = props_runId props ∧ event_sequence r v = props_sequence props.
Proof.
  intros Hv Hf [_ _ _ _ _ (s & Hs & _) _ (n & Hn & _) _ _ _ _].
  unfold event_runId, event_sequence, props_runId, props_sequence. rewrite Hv, Hs, Hn.
  pose proof (Hf (js "runId")) as H1. pose proof (Hf (js "sequence")) as H2.
  rewrite Hs in H1. rewrite Hn in H2. by inversion H1; inversion H2.
Qed.

(** An accepted value shows an event. *)
Lemma validateGraphEvent_shows {V} (r : reader V) P `{!Detached r P} fuel v :
  P v → validateGraphEvent r fuel (look r v) = Ok [] →
  ∃ props, shows r fuel (look r v) (JObj props) ∧ graph_event props ∧
    validateJson r false fuel (look r v) (js "#") [] = Ok [] ∧
    event_runId r (look r v) = props_runId props ∧ event_sequence r (look r v) = props_sequence props.
Proof.
  intros HP. unfold validateGraphEvent. destruct (isRecord (look r v)) as [o|] eqn:Hrec; [|done].
  destruct (w_throws o); [done|].
  destruct (jsonValidationIssues r false fuel (look r v) (js "#")) as [rest|] eqn:Ej; [|done].
  cbn [mbind result_bind]. intros [= H]. apply app_eq_nil in H as [Henv ->].
  assert (look r v = WObject o ∧ w_items o = None) as [Hv Hitems].
  { unfold isRecord in Hrec. destruct (look r v) as [| | | | | |o']; try done.
    destruct (w_items o') eqn:?; [done|]. by injection Hrec as ->. }
  destruct (validateJson_shows r P fuel v _ _ HP Ej) as [j Hj].
  pose proof Hj as (Ht & _). rewrite Hv in Ht.
  inversion Ht as [| | | |o' items js Hi Hjs|o' js Hi Hplain Hsym Hjs]; subst; [congruence|].
  destruct (detached_keys v o HP Hv Hitems) as [Hnd _].
  assert ((zip (w_keys o) js).*1 = w_keys o) as Hfst by (apply fst_zip; apply Forall2_length in Hjs; lia).
  pose proof (tree_fields r P v o js HP Hv Hitems Hnd Hjs) as Hf.
  assert (graph_event (zip (w_keys o) js)) as Hge.
  { apply (envelope_issues_nil r o); [done|by eapply detached_visible|done|done]. }
  exists (zip (w_keys o) js). split; [done|]. split; [done|]. split; [exact Ej|].
  by apply (event_fields r _ o).
Qed.

(** The validator always returns. *)
Lemma validateGraphEvent_total {V} (r : reader V) P `{!Detached r P} v :
  P v → ∃ issues, validateGraphEvent r (depth r v) (look r v) = Ok issues.
Proof.
  intros HP. unfold validateGraphEvent. destruct (isRecord (look r v)) as [o|] eqn:Hrec; [|by eexists].
  assert (look r v = WObject o) as Hv.
  { unfold isRecord in Hrec. destruct (look r v) as [| | | | | |o']; try done.
    destruct (w_items o'); [done|]. by injection Hrec as ->. }
  destruct (detached_total v false (js "#") HP) as [issues Hi].
  destruct (w_throws o) eqn:Ht.
  - exfalso. rewrite Hv in Hi. destruct (depth r v); unfold validateJson in Hi;
      rewrite bool_decide_eq_false_2, Ht in Hi by (intros [_ H]; by apply not_elem_of_nil in H); done.
  - unfold jsonValidationIssues. rewrite Hi. by eexists.
Qed.

(** ** Parsed records *)

Lemma json_field_shows props k :
  json_ok (JObj props) →
  field_shows json_reader (get json_reader (ObjectView None false None true 0 props.*1 [] (λ k, get_own k props)) k)
    (get_own k props).
Proof.
  intros Hok. rewrite json_get. destruct (get_own k props) as [j|] eqn:E; [|done]. simpl.
  apply json_ok_obj in Hok as (_ & _ & Hok). rewrite Forall_forall in Hok.
  apply map_get_Some_elem in E. specialize (Hok _ E). simpl in Hok.
  destruct (validateJson_shows json_reader json_ok (json_depth j) j (js "#") [] Hok) as [j' (Ht & _)].
  { by apply validateJson_json. }
  simpl in Ht. pose proof (json_shows_self _ _ Hok Ht) as ->. exact Ht.
Qed.

Lemma validateGraphEvent_json j :
  json_ok j →
  validateGraphEvent json_reader (json_depth j) (json_view j) = Ok [] ↔
  ∃ props, j = JObj props ∧ graph_event props.
Proof.
  intros Hok. split.
  - intros H. destruct (validateGraphEvent_shows json_reader json_ok (json_depth j) j Hok H)
      as (props & (Ht & _) & Hge & _). exists props. split; [|done].
    symmetry. by apply json_shows_self.
  - intros (props & -> & Hge). unfold validateGraphEvent. cbn [isRecord json_view w_items w_throws].
    unfold jsonValidationIssues. change (WObject _) with (json_view (JObj props)).
    rewrite validateJson_json by done. cbn [mbind result_bind].
    pose proof (proj2 (envelope_issues_nil json_reader
      (ObjectView None false None true 0 props.*1 [] (λ k, get_own k props)) props
      eq_refl eq_refl (λ k, json_field_shows props k Hok)) Hge) as He.
    by rewrite He.
Qed.

(** ** Canonical events *)

Lemma safe_from_unsign k n : safe_from k n → safe_from k (num_unsign_zero n).
Proof. unfold safe_from. by destruct n. Qed.

Lemma canonical_graph_event props : NoDup props.*1 → graph_event props → graph_event (canonical_props props).
Proof.
  intros Hnd.
  assert (Hget : ∀ k, get_own k (canonical_props props) = canonical_form <$> get_own k props)
    by (intros; by apply get_own_canonical).
  intros [H1 (s2 & H2 & Q2) (s3 & H3 & Q3) (s4 & H4 & Q4) (s5 & H5 & Q5) (s6 & H6 & Q6) (n7 & H7 & Q7)
    (n8 & H8 & Q8) H9 H10 H11 (d & H12)].
  split; unfold has_string, has_integer.
  - intros k Hk. apply H1. by rewrite canonical_props_keys in Hk.
  - exists s2. by rewrite Hget, H2.
  - exists s3. by rewrite Hget, H3.
  - exists s4. by rewrite Hget, H4.
  - exists s5. by rewrite Hget, H5.
  - exists s6. by rewrite Hget, H6.
  - exists (num_unsign_zero n7). rewrite Hget, H7. split; [done|by apply safe_from_unsign].
  - exists (num_unsign_zero n8). rewrite Hget, H8. split; [done|by apply safe_from_unsign].
  - intros k j Hk. rewrite Hget. destruct (get_own k props) as [j0|] eqn:E; [|done].
    destruct (H9 k j0 Hk E) as [s ->]. intros [= <-]. by exists s.
  - intros j. rewrite Hget. destruct (get_own (js "attempt") props) as [j0|] eqn:E; [|done].
    destruct (H10 j0 eq_refl) as (n & -> & Hn). intros [= <-]. exists (num_unsign_zero n).
    split; [done|by apply safe_from_unsign].
  - intros j. rewrite Hget. destruct (get_own (js "redacted") props) as [j0|] eqn:E; [|done].
    destruct (H11 j0 eq_refl) as (b & ->). intros [= <-]. by exists b.
  - rewrite Hget, H12. by eexists.
Qed.

Lemma canonical_event_fields props :
  NoDup props.*1 →
  props_runId (canonical_props props) = props_runId props ∧
  props_sequence (canonical_props props) = props_sequence props.
Proof.
  intros Hnd. unfold props_runId, props_sequence. rewrite !get_own_canonical by done. split.
  - by destruct (get_own _ props) as [[]|].
  - destruct (get_own _ props) as [[| |n| | |]|]; try done. by destruct n.
Qed.

(** The validator of events decides the envelope.  On a record parsed from JSON
    it always ends, and it finds no issue exactly when the record is an object whose
    fields are those of an event: the fixed version, a known type, a timestamp that
    denotes an instant, safe integers in range, optional fields of their type, and
    nothing else. *)
Theorem validateGraphEvent_decides j :
  json_ok j →
  ∃ issues, validateGraphEvent json_reader (json_depth j) (json_view j) = Ok issues ∧
    (issues = [] ↔ ∃ props, j = JObj props ∧ graph_event props).
Proof.
  intros Hj. destruct (validateGraphEvent_total json_reader json_ok j Hj) as [issues Hi].
  exists issues. split; [done|]. rewrite <- validateGraphEvent_json by done. cbn [depth look json_reader] in Hi.
  rewrite Hi. split; [by intros ->|by intros [= ->]].
Qed.

(** An event with every optional field, and one without a graph revision. *)
Definition full_record : json := default JNull (json_parse (jsq "{'apiVersion':'graphengineering.reacher-z.github.io/events/v1alpha1','eventId':'e','type':'NodeRetried','timestamp':'2000-02-29T00:00:00+14:00','runId':'r','graphRevision':1,'sequence':9007199254740991,'traceId':'','spanId':'','parentSpanId':'','nodeId':'n','edgeId':'','attempt':1,'payloadHash':'','artifactRef':'','redacted':false,'data':{}}")).
Definition partial_record : json := default JNull (json_parse (jsq "{'apiVersion':'graphengineering.reacher-z.github.io/events/v1alpha1','eventId':'e','type':'NodeRetried','timestamp':'2000-02-29T00:00:00+14:00','runId':'r','sequence':0,'data':[]}")).

Lemma validateGraphEvent_decides_witness :
  (∃ props, full_record = JObj props ∧ graph_event props) ∧
  ¬ (∃ props, partial_record = JObj props ∧ graph_event props).
Proof.
  assert (json_ok full_record) as Ha by (vm_compute; reflexivity).
  assert (json_ok partial_record) as Hb by (vm_compute; reflexivity).
  destruct (validateGraphEvent_decides _ Ha) as (issues & Hi & H1).
  destruct (validateGraphEvent_decides _ Hb) as (issues' & Hi' & H2).
  split.
  - apply H1. assert (@Ok exn _ issues = Ok []) as [= ->]; [rewrite <- Hi; vm_compute; reflexivity|reflexivity].
  - rewrite <- H2. intros ->.
    assert (match validateGraphEvent json_reader (json_depth partial_record) (json_view partial_record) with
      Ok [] => false | _ => true end = true) as Hc by (vm_compute; reflexivity).
    rewrite Hi' in Hc. discriminate Hc.
Defined.
