(* ===== verification/FileSystem.v ===== *)
(** * The file system

    The calls of node:fs/promises that the stores make, on a state that maps paths
    to bytes.  A schedule of faults says which calls fail: each call consumes one
    entry, a failing write leaves a prefix of its bytes behind, and a call past the
    end of the schedule succeeds.  Directories are not represented: a file that is
    absent and a directory that is absent give the same error. *)
From S2P Require Import Prelude JsString JsNumber JsValue Views PersistenceJson.

Record fault := Fault { fault_code : jsstr; fault_written : nat }.
Record fs := Fs { files : gmap jsstr (list N); faults : list (option fault) }.

(** ** Asynchronous functions

    An [io] is the body of an asynchronous function between the file system and its
    outcome: a value, or what it throws. *)
Definition io (A : Type) : Type := fs → result exn A * fs.

#[export] Instance io_ret : MRet io := λ A a w, (Ok a, w).
#[export] Instance io_bind : MBind io := λ A B f m w,
  match m w with (Ok a, w') => f a w' | (Err e, w') => (Err e, w') end.

Definition throw {A} (e : exn) : io A := λ w, (Err e, w).
Definition lift {A} (r : result exn A) : io A := λ w, (r, w).
(** [try { m } catch (error) { handler(error) }] *)
Definition try_catch {A} (m : io A) (handler : exn → io A) : io A := λ w,
  match m w with (Err e, w') => handler e w' | ok => ok end.
(** [try { m } finally { f }]: an error of [f] replaces the outcome of [m] *)
Definition try_finally {A} (m : io A) (f : io unit) : io A := λ w,
  let '(r, w') := m w in
  match f w' with (Ok _, w'') => (r, w'') | (Err e, w'') => (Err e, w'') end.

(** [isErrno(error, code)] (io.ts) *)
Definition isErrno (e : exn) (code : jsstr) : bool :=
  match e with Errno c => bool_decide (c = code) | _ => false end.
Definition ENOENT : jsstr := js "ENOENT".
Definition EEXIST : jsstr := js "EEXIST".

(** ** System calls *)

(** The fault of the next call, if it has one. *)
Definition next_fault : io (option fault) := λ w,
  match faults w with
  | [] => (Ok None, w)
  | f :: fs => (Ok f, Fs (files w) fs)
  end.
(** A call without an effect of its own when it fails. *)
Definition syscall {A} (call : io A) : io A :=
  f ← next_fault; match f with Some f => throw (Errno (fault_code f)) | None => call end.

Definition put (path : jsstr) (bytes : list N) : io unit := λ w,
  (Ok tt, Fs (<[path := bytes]> (files w)) (faults w)).
Definition remove (path : jsstr) : io unit := λ w, (Ok tt, Fs (delete path (files w)) (faults w)).
Definition contents (path : jsstr) : io (option (list N)) := λ w, (Ok (files w !! path), w).

Definition mkdir : io unit := syscall (mret tt).
Definition readFile (path : jsstr) : io (list N) := syscall (
  b ← contents path; match b with Some bytes => mret bytes | None => throw (Errno ENOENT) end).
Definition stat (path : jsstr) : io unit := syscall (
  b ← contents path; match b with Some _ => mret tt | None => throw (Errno ENOENT) end).
(** [open(path, "a")], [open(path, "wx")] *)
Definition open_append (path : jsstr) : io unit := syscall (
  b ← contents path; match b with Some _ => mret tt | None => put path [] end).
Definition open_exclusive (path : jsstr) : io unit := syscall (
  b ← contents path; match b with Some _ => throw (Errno EEXIST) | None => put path [] end).
(** [handle.writeFile(data)] on a handle positioned at the end of the file *)
Definition write (path : jsstr) (data : list N) : io unit :=
  f ← next_fault; b ← contents path;
  let old := default [] b in
  match f with
  | None => put path (old ++ data)
  | Some f => _ ← put path (old ++ take (fault_written f) data); throw (Errno (fault_code f))
  end.
(** [handle.sync()], [handle.close()] *)
Definition sync : io unit := syscall (mret tt).
Definition close : io unit := syscall (mret tt).
(** [rename(from, to)], [unlink(path)] *)
Definition rename (source target : jsstr) : io unit := syscall (
  b ← contents source;
  match b with Some bytes => _ ← remove source; put target bytes | None => throw (Errno ENOENT) end).
Definition unlink (path : jsstr) : io unit := syscall (
  b ← contents path; match b with Some _ => remove path | None => throw (Errno ENOENT) end).

(** [syncDirectory(path)] (io.ts) *)
Definition syncDirectory : io unit := _ ← syscall (mret tt); try_finally sync close.

(** The parts of a path that the stores build: [join(directory, name)] of a
    normalized absolute directory and a single name. *)
Definition join_path (directory name : jsstr) : jsstr :=
  if bool_decide (last directory = Some 47%N) then directory ++ name else directory ++ js "/" ++ name.

(** What a file system guarantees of its errors: a call on a present file does not
    report it absent. *)
Definition faults_ok (w : fs) : Prop := Forall (λ f, ∀ g, f = Some g → fault_code g ≠ ENOENT) (faults w).
Definition no_faults (w : fs) : Prop := faults w = [].

(** ** Running asynchronous functions *)

Lemma io_bind_Ok {A B} (m : io A) (f : A → io B) w a w' : m w = (Ok a, w') → (m ≫= f) w = f a w'.
Proof. unfold mbind, io_bind. by intros ->. Qed.
Lemma io_bind_Err {A B} (m : io A) (f : A → io B) w e w' : m w = (Err e, w') → (m ≫= f) w = (Err e, w').
Proof. unfold mbind, io_bind. by intros ->. Qed.
Lemma try_catch_Ok {A} (m : io A) h w a w' : m w = (Ok a, w') → try_catch m h w = (Ok a, w').
Proof. unfold try_catch. by intros ->. Qed.
Lemma try_catch_Err {A} (m : io A) h w e w' : m w = (Err e, w') → try_catch m h w = h e w'.
Proof. unfold try_catch. by intros ->. Qed.
Lemma try_finally_Ok {A} (m : io A) f w r w' u w'' :
  m w = (r, w') → f w' = (Ok u, w'') → try_finally m f w = (r, w'').
Proof. unfold try_finally. by intros -> ->. Qed.

(** Inversions *)
Lemma io_bind_inv {A B} (m : io A) (f : A → io B) w r w'' :
  (m ≫= f) w = (r, w'') →
  (∃ a w', m w = (Ok a, w') ∧ f a w' = (r, w'')) ∨ (∃ e, m w = (Err e, w'') ∧ r = Err e).
Proof.
  unfold mbind, io_bind. destruct (m w) as [[a|e] w'].
  - intros H. left. by exists a, w'.
  - intros [= <- <-]. right. by exists e.
Qed.
Lemma try_catch_inv {A} (m : io A) h w r w'' :
  try_catch m h w = (r, w'') →
  (∃ a, m w = (Ok a, w'') ∧ r = Ok a) ∨ (∃ e w', m w = (Err e, w') ∧ h e w' = (r, w'')).
Proof.
  unfold try_catch. destruct (m w) as [[a|e] w'].
  - intros [= <- <-]. left. by exists a.
  - intros H. right. by exists e, w'.
Qed.

(** Calls without pending faults *)
Section quiet.
Context (f : gmap jsstr (list N)).
Abbreviation quiet := (Fs f []).

Lemma mkdir_quiet : mkdir quiet = (Ok tt, quiet).
Proof. done. Qed.
Lemma sync_quiet : sync quiet = (Ok tt, quiet).
Proof. done. Qed.
Lemma close_quiet : close quiet = (Ok tt, quiet).
Proof. done. Qed.
Lemma syncDirectory_quiet : syncDirectory quiet = (Ok tt, quiet).
Proof. done. Qed.
Lemma readFile_quiet path :
  readFile path quiet = (match f !! path with Some b => Ok b | None => Err (Errno ENOENT) end, quiet).
Proof. unfold readFile, syscall, mbind, io_bind, contents. cbn. by destruct (f !! path). Qed.
Lemma stat_quiet path :
  stat path quiet = (match f !! path with Some b => Ok tt | None => Err (Errno ENOENT) end, quiet).
Proof. unfold stat, syscall, mbind, io_bind, contents. cbn. by destruct (f !! path). Qed.
Lemma open_append_quiet path :
  open_append path quiet =
  (Ok tt, Fs (match f !! path with Some _ => f | None => <[path := []]> f end) []).
Proof. unfold open_append, syscall, mbind, io_bind, contents. cbn. by destruct (f !! path). Qed.
Lemma open_exclusive_quiet path :
  f !! path = None → open_exclusive path quiet = (Ok tt, Fs (<[path := []]> f) []).
Proof. intros H. unfold open_exclusive, syscall, mbind, io_bind, contents. cbn. by rewrite H. Qed.
Lemma write_quiet path data :
  write path data quiet = (Ok tt, Fs (<[path := default [] (f !! path) ++ data]> f) []).
Proof. done. Qed.
Lemma rename_quiet a b bytes :
  f !! a = Some bytes → rename a b quiet = (Ok tt, Fs (<[b := bytes]> (delete a f)) []).
Proof. intros H. unfold rename, syscall, mbind, io_bind, contents. cbn. by rewrite H. Qed.
End quiet.


(** ** Hoare triples

    What a function does to the file system, whatever the faults. *)
Definition triple {A} (P : fs → Prop) (m : io A) (Q : result exn A → fs → Prop) : Prop :=
  ∀ w, P w → Q (m w).1 (m w).2.

Lemma triple_ret {A} P (a : A) Q : (∀ w, P w → Q (Ok a) w) → triple P (mret a) Q.
Proof. intros H w Hw. by apply H. Qed.
Lemma triple_throw {A} P e (Q : result exn A → fs → Prop) : (∀ w, P w → Q (Err e) w) → triple P (throw e) Q.
Proof. intros H w Hw. by apply H. Qed.
Lemma triple_lift {A} P (r : result exn A) Q : (∀ w, P w → Q r w) → triple P (lift r) Q.
Proof. intros H w Hw. by apply H. Qed.

Lemma triple_bind {A B} P (m : io A) (f : A → io B) R Q :
  triple P m (λ r w, match r with Ok a => R a w | Err e => Q (Err e) w end) →
  (∀ a, triple (R a) (f a) Q) → triple P (m ≫= f) Q.
Proof.
  intros Hm Hf w Hw. specialize (Hm w Hw). unfold mbind, io_bind.
  destruct (m w) as [[a|e] w']; [by apply Hf|done].
Qed.

Lemma triple_try_catch {A} P (m : io A) h R Q :
  triple P m (λ r w, match r with Ok a => Q (Ok a) w | Err e => R e w end) →
  (∀ e, triple (R e) (h e) Q) → triple P (try_catch m h) Q.
Proof.
  intros Hm Hh w Hw. specialize (Hm w Hw). unfold try_catch.
  destruct (m w) as [[a|e] w']; [done|by apply Hh].
Qed.

Lemma triple_try_finally {A} P (m : io A) f R Q :
  triple P m R →
  (∀ r, triple (R r) f (λ u w, Q (match u with Ok _ => r | Err e => Err e end) w)) →
  triple P (try_finally m f) Q.
Proof.
  intros Hm Hf w Hw. specialize (Hm w Hw). unfold try_finally.
  destruct (m w) as [r w']. specialize (Hf r w' Hm). by destruct (f w') as [[u|e] w''].
Qed.

Lemma triple_conseq {A} (P P' : fs → Prop) (m : io A) (Q Q' : result exn A → fs → Prop) :
  triple P' m Q' → (∀ w, P w → P' w) → (∀ r w, Q' r w → Q r w) → triple P m Q.
Proof. intros Hm HP HQ w Hw. by apply HQ, Hm, HP. Qed.

(** Properties of the files that no fault can change. *)
Section file_states.
Context (P : gmap jsstr (list N) → Prop).
Definition on_files (w : fs) : Prop := P (files w) ∧ faults_ok w.

Lemma next_fault_triple :
  triple on_files next_fault (λ r w, on_files w ∧
    match r with Ok f => ∀ g, f = Some g → fault_code g ≠ ENOENT | Err _ => False end).
Proof.
  intros [f [|x l]] [HP Hf]; cbn; [by split|]. apply Forall_cons in Hf as [Hx Hl]. by split.
Qed.

Lemma syscall_triple {A} (call : io A) Q :
  triple on_files call Q → (∀ code w, code ≠ ENOENT → on_files w → Q (Err (Errno code)) w) →
  triple on_files (syscall call) Q.
Proof.
  intros Hc Hf w Hw. pose proof (next_fault_triple w Hw) as Hn. unfold syscall, mbind, io_bind.
  destruct (next_fault w) as [[f|e] w']; [|by destruct Hn]. destruct Hn as [Hw' Hg].
  destruct f as [g|]; [|by apply Hc]. apply Hf; [by apply Hg|done].
Qed.

(** A call that only looks. *)
Lemma quiet_call_triple : triple on_files (syscall (mret tt)) (λ _ w, on_files w).
Proof. apply syscall_triple; [by apply triple_ret|done]. Qed.
Lemma syncDirectory_triple : triple on_files syncDirectory (λ _ w, on_files w).
Proof.
  unfold syncDirectory.
  apply (triple_bind _ _ _ (λ _ w, on_files w)).
  - eapply triple_conseq; [apply quiet_call_triple|done|by intros [] w Hw].
  - intros a. apply (triple_try_finally _ _ _ (λ _ w, on_files w)); [apply quiet_call_triple|].
    intros r. eapply triple_conseq; [apply quiet_call_triple|done|by intros [] w Hw].
Qed.
Lemma stat_triple path : triple on_files (stat path) (λ _ w, on_files w).
Proof.
  apply syscall_triple; [|done]. intros w Hw. unfold mbind, io_bind, contents. cbn.
  by destruct (files w !! path).
Qed.
Lemma readFile_triple path :
  triple on_files (readFile path) (λ r w, on_files w ∧
    match r with
    | Ok b => files w !! path = Some b
    | Err e => isErrno e ENOENT = true → files w !! path = None
    end).
Proof.
  apply syscall_triple.
  - intros w Hw. unfold mbind, io_bind, contents, mret, io_ret, throw.
    destruct (files w !! path) eqn:E; (split; [exact Hw|]); [exact E|intros _; exact E].
  - intros code w Hc Hw. split; [done|]. unfold isErrno. intros H. destruct Hc. by apply bool_decide_eq_true in H.
Qed.
End file_states.
