(* ===== verification/EventStores.v ===== *)
(** * Event stores (packages/persistence/src/memory-event-store.ts, jsonl-event-store.ts)

    A store keeps one stream of events per run and appends with optimistic
    concurrency.  The memory store keeps lists of events; the JSON Lines store keeps
    the bytes of one file per run.  An operation runs alone on its run's file, which
    [SerialQueue] establishes. *)
From S2P Require Import Prelude JsString JsNumber JsValue JsonText Canonical Views Utf8 PersistenceJson.
From S2P Require Import Events FileSystem.

Definition conflict (runId : jsstr) (expected actual : Z) : exn :=
  Persistence (VersionConflictError runId expected actual).

(** The events of a request after validation, detached from the caller: [cloneJson]
    of each of them. *)
Definition clone_events {V} (r : reader V) (events : list (option V)) : result exn (list json) :=
  traverse (λ e, cloneJson r (entry_depth r e) (entry_view r e)) events.

(** [.filter((event) => event.sequence >= fromSequence).map((event) => cloneJson(event))] *)
Definition events_from (fromSequence : Z) (stream : list json) : result exn (list json) :=
  traverse (λ e, cloneJson json_reader (json_depth e) (json_view e))
    (filter (λ e, (fromSequence <= event_sequence json_reader (json_view e))%Z) stream).

(** ** The memory store *)

Definition memory_store : Type := gmap jsstr (list json).

Definition memory_append (streams : memory_store) (q : append_request) : result exn Z * memory_store :=
  let stream := default [] (streams !! a_runId q) in
  let actualVersion := (Z.of_nat (length stream) - 1)%Z in
  if negb (actualVersion =? a_expected q)%Z then
    (Err (conflict (a_runId q) (a_expected q) actualVersion), streams)
  else
    match validateAppendEvents (a_reader q) (a_runId q) (a_expected q) (a_events q) with
    | Err e => (Err e, streams)
    | Ok _ =>
        if (length (a_events q) =? 0)%nat then (Ok actualVersion, streams)
        else
          match clone_events (a_reader q) (a_events q) with
          | Err e => (Err e, streams)
          | Ok new =>
              (Ok (Z.of_nat (length (stream ++ new)) - 1)%Z, <[a_runId q := stream ++ new]> streams)
          end
    end.

(** [append(runId, expectedVersion, events)] *)
Definition MemoryEventStore_append (streams : memory_store) (h : heap) (outside : loc → jsstr → value)
    (runId expectedVersion events : value) : result exn Z * memory_store :=
  match prepareAppendRequest h outside runId expectedVersion events with
  | Err e => (Err e, streams)
  | Ok q => memory_append streams q
  end.

(** [read(runId, fromSequence)]: the events it yields *)
Definition MemoryEventStore_read {V} (streams : memory_store) (runId fromSequence : view V)
    : result exn (list json) :=
  '(run, from) ← validateReadRequest runId fromSequence;
  events_from from (default [] (streams !! run)).

(** [version(runId)] *)
Definition MemoryEventStore_version {V} (streams : memory_store) (runId : view V) : result exn Z :=
  run ← assertSafeIdentifier runId (js "runId");
  Ok (Z.of_nat (length (default [] (streams !! run))) - 1)%Z.

(** ** The JSON Lines store *)

Definition corrupt_log (runId reason : jsstr) (line : option nat) : exn :=
  Persistence (CorruptEventLogError runId reason line).

(** One record of a log *)
Definition parse_record (runId : jsstr) (index : nat) (line : jsstr) : result exn json :=
  let lineNumber := Some (index + 1)%nat in
  if (length line =? 0)%nat then Err (corrupt_log runId (js "blank record") lineNumber)
  else match json_parse line with
  | None => Err (corrupt_log runId (js "record is not JSON") lineNumber)
  | Some value =>
      match assertGraphEvent json_reader (json_depth value) (json_view value) with
      | Err OutOfFuel => Err OutOfFuel
      | Err (Persistence e) => Err (corrupt_log runId (error_message e) lineNumber)
      | Err _ => Err (corrupt_log runId (js "record does not match event schema") lineNumber)
      | Ok _ =>
          if negb (bool_decide (event_runId json_reader (json_view value) = runId)) then
            Err (corrupt_log runId (js "record runId does not match file") lineNumber)
          else
            let sequence := event_sequence json_reader (json_view value) in
            if negb (sequence =? Z.of_nat index)%Z then
              Err (corrupt_log runId (js "expected sequence " ++ string_of_nat index ++ js ", found " ++
                     string_of_Z sequence) lineNumber)
            else Ok value
      end
  end.

(** The events in the bytes of a log *)
Definition parse_log (runId : jsstr) (bytes : list N) : result exn (list json) :=
  match bytes with
  | [] => Err (corrupt_log runId (js "empty event log file") None)
  | _ =>
      match utf8_decode bytes with
      | None => Err (corrupt_log runId (js "invalid UTF-8") None)
      | Some text =>
          if negb (bool_decide (last text = Some 10%N)) then
            Err (corrupt_log runId (js "truncated final record") None)
          else itraverse (parse_record runId) (split_lines (take (length text - 1) text))
      end
  end.

(** [if (error instanceof PersistenceError) throw error; throw new PersistenceIoError(...)] *)
Definition wrap_error (operation path : jsstr) (e : exn) : exn :=
  match e with
  | Persistence e => Persistence e
  | OutOfFuel => OutOfFuel
  | _ => Persistence (PersistenceIoError operation path)
  end.

Section jsonl.
(** The digest of SHA-256, and the events directory of the store. *)
Context (sha256 : list N → jsstr) (eventsDirectory : jsstr).

(** [pathForRun(runId)] of a safe identifier *)
Definition pathForRun (runId : jsstr) : jsstr :=
  join_path eventsDirectory (identifierHash sha256 runId ++ js ".jsonl").

(** [#load(runId)] *)
Definition load (runId : jsstr) : io (list json) :=
  let path := pathForRun runId in
  bytes ← try_catch (b ← readFile path; mret (Some b)) (λ e,
    if isErrno e ENOENT then mret None
    else throw (Persistence (PersistenceIoError (js "read event log") path)));
  match bytes with
  | None => mret []
  | Some bytes => lift (parse_log runId bytes)
  end.

(** The text of the records an append writes *)
Definition serialize_events {V} (r : reader V) (events : list (option V)) : result exn jsstr :=
  texts ← traverse (λ e, canonicalJson r (entry_depth r e) (entry_view r e)) events;
  Ok (join [10%N] texts ++ [10%N]).

(** Writing the records at the end of the file, which may have to be created *)
Definition append_records (path : jsstr) (text : result exn jsstr) : io unit :=
  existed ← try_catch (_ ← stat path; mret true) (λ e,
    if isErrno e ENOENT then mret false else throw e);
  serialized ← lift text;
  _ ← open_append path;
  _ ← try_finally (_ ← write path (utf8_encode serialized); sync) close;
  if existed : bool then mret tt else syncDirectory.

(** The operation [append] runs in the queue of the file *)
Definition jsonl_append (q : append_request) : io Z :=
  let path := pathForRun (a_runId q) in
  try_catch (
    _ ← mkdir;
    existing ← load (a_runId q);
    let actualVersion := (Z.of_nat (length existing) - 1)%Z in
    if negb (actualVersion =? a_expected q)%Z then
      throw (conflict (a_runId q) (a_expected q) actualVersion)
    else
      _ ← lift (validateAppendEvents (a_reader q) (a_runId q) (a_expected q) (a_events q));
      if (length (a_events q) =? 0)%nat then mret actualVersion
      else
        _ ← append_records path (serialize_events (a_reader q) (a_events q));
        mret (a_expected q + Z.of_nat (length (a_events q)))%Z)
    (λ e, throw (wrap_error (js "append event log") path e)).

(** [append(runId, expectedVersion, events)] *)
Definition JsonlEventStore_append (h : heap) (outside : loc → jsstr → value)
    (runId expectedVersion events : value) : io Z :=
  q ← lift (prepareAppendRequest h outside runId expectedVersion events);
  jsonl_append q.

(** [read(runId, fromSequence)]: the events it yields *)
Definition jsonl_read (run : jsstr) (from : Z) : io (list json) :=
  try_catch (stream ← load run; lift (events_from from stream))
    (λ e, throw (wrap_error (js "read event log") (pathForRun run) e)).
Definition JsonlEventStore_read {V} (runId fromSequence : view V) : io (list json) :=
  '(run, from) ← lift (validateReadRequest runId fromSequence);
  jsonl_read run from.
End jsonl.

(** The constructor's check of its options: the events directory, with the
    resolution of a relative directory as a parameter. *)
Definition JsonlEventStore {V} (r : reader V) (resolve : jsstr → jsstr) (options : view V) : result exn jsstr :=
  let failure := Err (Persistence (PersistenceValidationError (js "JsonlEventStore directory is invalid")
    [issue (js "#/directory") (js "expected a non-empty string")])) in
  match options with
  | WObject o =>
      match get r o (js "directory") with
      | WStr s => if (length s =? 0)%nat then failure else Ok (join_path (resolve s) (js "events"))
      | _ => failure
      end
  | _ => failure
  end.
