(* ===== verification/EventLog.v ===== *)
(** * The event log: specification of the stores, and its file

    The log is what the contract of event-store.ts promises: a stream of events per
    run, numbered from zero, that grows at its end only, when the caller names its
    last version.  [validated] is the outcome of checking and detaching the events
    of a request.  The file of a stream is the UTF-8 encoding of one line of canonical
    text per event: loading it gives the stream back, and loading a prefix of it gives a
    prefix of the stream or an error, never other events. *)
From S2P Require Import Prelude JsString JsNumber JsValue JsonText NumberText Canonical CanonicalSpec JsonRoundTrip Views Utf8.
From S2P Require Import PersistenceJson PersistenceJsonSpec Events EventsSpec FileSystem EventStores.

(** ** Streams *)

(** The [n]-th event of a run, in canonical form. *)
Definition stored (run : jsstr) (n : Z) (e : json) : Prop :=
  ∃ props, e = JObj props ∧ json_ok e ∧ canonical_form e = e ∧ graph_event props ∧
    props_runId props = run ∧ props_sequence props = n.

(** Consecutive events from [first] on. *)
Definition stream_from (run : jsstr) (first : Z) (stream : list json) : Prop :=
  ∀ i e, stream !! i = Some e → stored run (first + Z.of_nat i) e.

Definition event_log : Type := gmap jsstr (list json).
Definition stream_of (L : event_log) (run : jsstr) : list json := default [] (L !! run).
(** Every stream starts at zero, without gaps. *)
Definition log_ok (L : event_log) : Prop := ∀ run, stream_from run 0 (stream_of L run).
(** The version of a stream: its last sequence number, -1 for an empty one. *)
Definition version (L : event_log) (run : jsstr) : Z := (Z.of_nat (length (stream_of L run)) - 1)%Z.

(** ** Operations *)

Definition validated (q : append_request) : result exn (list json) :=
  _ ← validateAppendEvents (a_reader q) (a_runId q) (a_expected q) (a_events q);
  clone_events (a_reader q) (a_events q).

Definition log_append (L : event_log) (q : append_request) : result exn Z * event_log :=
  let run := a_runId q in
  if negb (version L run =? a_expected q)%Z then
    (Err (conflict run (a_expected q) (version L run)), L)
  else
    match validated q with
    | Err e => (Err e, L)
    | Ok [] => (Ok (version L run), L)
    | Ok new => (Ok (version L run + Z.of_nat (length new))%Z, <[run := stream_of L run ++ new]> L)
    end.

Definition log_read (L : event_log) (run : jsstr) (from : Z) : list json :=
  drop (Z.to_nat from) (stream_of L run).

(** ** Requests *)

(** The events of the request are detached from the caller. *)
Definition request_ok (q : append_request) : Prop :=
  safe_identifier (a_runId q) = true ∧ (-1 <= a_expected q)%Z ∧
  ∃ P, Detached (a_reader q) P ∧ ∀ v, Some v ∈ a_events q → P v.

Section requests.
Context (h : heap) (outside : loc → jsstr → value).
Hypothesis heap_ok : heap_wf h.
Hypothesis data_ok : heap_data_ok h.
Hypothesis outside_ok : ∀ l k, value_okb (outside l k) = true.

Lemma assertSafeIdentifier_Ok {V} (v : view V) kind s :
  assertSafeIdentifier v kind = Ok s ↔ v = WStr s ∧ safe_identifier s = true.
Proof.
  unfold assertSafeIdentifier. split.
  - destruct v; try done. destruct (safe_identifier _) eqn:E; [|done]. by intros [= <-].
  - intros [-> ->]. done.
Qed.

(** A request whose events can be cloned is detached. *)
Lemma prepareAppendRequest_ok runId expectedVersion events q :
  cloneable h outside (clone_fuel h 1) [events] [] = true → value_okb events = true →
  prepareAppendRequest h outside runId expectedVersion events = Ok q → request_ok q.
Proof using heap_ok data_ok outside_ok.
  intros Hclone Hev H. unfold prepareAppendRequest in H.
  destruct (assertSafeIdentifier _ _) as [run|] eqn:Erun; [|done]. cbn [mbind result_bind] in H.
  apply assertSafeIdentifier_Ok in Erun as [_ Hrun].
  destruct (reject _ _) as [u|] eqn:Er; [|done]. cbn [mbind result_bind] in H.
  apply reject_Ok in Er. apply app_eq_nil in Er as [Hver _]. rewrite push_if_nil in Hver.
  apply negb_false_iff in Hver. rewrite Hclone in H. injection H as <-.
  split; [done|]. split.
  - cbn [a_expected]. unfold safe_integer_from in Hver.
    destruct (look (heap_reader h outside) expectedVersion) as [| | |n| | |] eqn:En; try done.
    cbn [look heap_reader] in En. rewrite En.
    apply andb_true_iff in Hver as [Hs Hl].
    rewrite num_ltb_const in Hl by (done || by apply num_safe_integer_integer).
    by apply negb_true_iff, Z.ltb_ge in Hl.
  - exists (λ v, value_okb v = true). cbn [a_reader a_events].
    pose proof (clone_detached h outside heap_ok data_ok outside_ok) as Hd. split; [done|].
    intros v Hv. destruct (clone_view h outside events) as [| | | | | |o] eqn:Eo;
      try (by apply not_elem_of_nil in Hv).
    destruct (w_items o) as [items|] eqn:Ei; [|by apply not_elem_of_nil in Hv].
    exact (@detached_item _ _ _ Hd events o items v Hev Eo Ei Hv).
Qed.
End requests.

(** ** Validated events *)

Lemma append_event_issues_nil {V} (r : reader V) run expected i e :
  append_event_issues r run expected i e = Ok [] ↔
  validateGraphEvent r (entry_depth r e) (entry_view r e) = Ok [] ∧
  event_runId r (entry_view r e) = run ∧
  event_sequence r (entry_view r e) = (expected + 1 + Z.of_nat i)%Z.
Proof.
  unfold append_event_issues. destruct (validateGraphEvent _ _ _) as [[|x issues]|]; cbn [mbind result_bind].
  - split.
    + intros [= H]. apply app_eq_nil in H as [H1 H2]. rewrite push_if_nil in H1, H2.
      apply negb_false_iff, bool_decide_eq_true in H1. apply negb_false_iff, Z.eqb_eq in H2. done.
    + intros (_ & -> & ->). rewrite bool_decide_eq_true_2, Z.eqb_refl by done. done.
  - split; [done|]. by intros [? _].
  - split; [done|]. by intros [? _].
Qed.

Lemma validateAppendEvents_Ok {V} (r : reader V) run expected events u :
  validateAppendEvents r run expected events = Ok u ↔
  ∀ i e, events !! i = Some e → append_event_issues r run expected i e = Ok [].
Proof.
  unfold validateAppendEvents. rewrite <- iconcat_results_nil.
  destruct (iconcat_results _ _) as [issues|]; cbn [mbind result_bind]; [|done].
  rewrite reject_Ok. split; [by intros ->|by intros [= ->]].
Qed.

(** Validation ends with a verdict: it never fails otherwise on detached events. *)
Lemma validateAppendEvents_total q :
  request_ok q →
  validateAppendEvents (a_reader q) (a_runId q) (a_expected q) (a_events q) = Ok tt ∨
  ∃ issues, issues ≠ [] ∧ validateAppendEvents (a_reader q) (a_runId q) (a_expected q) (a_events q) =
    Err (Persistence (PersistenceValidationError request_error issues)).
Proof.
  intros (_ & _ & P & Hd & HP). unfold validateAppendEvents.
  match goal with |- context [iconcat_results ?f ?l] =>
    destruct (iconcat_results_total f l) as [issues Hi]; [|rewrite Hi] end.
  - intros i e He. unfold append_event_issues.
    assert (∃ issues, validateGraphEvent (a_reader q) (entry_depth (a_reader q) e)
      (entry_view (a_reader q) e) = Ok issues) as [issues Hi].
    { destruct e as [v|]; [|by eexists]. apply (validateGraphEvent_total _ P). apply HP.
      by eapply list_elem_of_lookup_2. }
    rewrite Hi. cbn [mbind result_bind]. destruct issues; by eexists.
  - cbn [mbind result_bind]. destruct issues as [|i issues]; [by left|]. right. by exists (i :: issues).
Qed.

(** One accepted event: what it is stored as, and the text of its record. *)
Lemma accepted_event {V} (r : reader V) P `{!Detached r P} run expected i e :
  (∀ v, e = Some v → P v) → append_event_issues r run expected i e = Ok [] →
  ∃ j, stored run (expected + 1 + Z.of_nat i) j ∧
    cloneJson r (entry_depth r e) (entry_view r e) = Ok j ∧
    canonicalJson r (entry_depth r e) (entry_view r e) = Ok (serializeCaptured j).
Proof.
  intros HP H. apply append_event_issues_nil in H as (Hv & Hrun & Hseq).
  destruct e as [v|]; [|done]. cbn [entry_view entry_depth] in *.
  destruct (validateGraphEvent_shows r P _ v (HP v eq_refl) Hv)
    as (props & Hs & Hge & Hj & Hr & Hn).
  pose proof Hs as (_ & Hok & _). pose proof Hok as Hok'. apply json_ok_obj in Hok' as (Hnd & _).
  exists (canonical_form (JObj props)). split_and!.
  - exists (canonical_props props). change (canonical_form (JObj props)) with (JObj (canonical_props props)).
    destruct (canonical_event_fields props Hnd) as [-> ->].
    split_and!; [done|by apply (canonical_form_ok (JObj props))|by apply (canonical_form_idem (JObj props))| |congruence..].
    by apply canonical_graph_event.
  - by apply cloneJson_shows.
  - rewrite serialize_canonical by done. by apply canonicalJson_shows.
Qed.

Lemma accepted_events q :
  request_ok q → validateAppendEvents (a_reader q) (a_runId q) (a_expected q) (a_events q) = Ok tt →
  ∃ new, clone_events (a_reader q) (a_events q) = Ok new ∧ length new = length (a_events q) ∧
    stream_from (a_runId q) (a_expected q + 1) new ∧
    traverse (λ e, canonicalJson (a_reader q) (entry_depth (a_reader q) e) (entry_view (a_reader q) e))
      (a_events q) = Ok (map serializeCaptured new).
Proof.
  intros (_ & _ & P & Hd & HP) Hv. rewrite validateAppendEvents_Ok in Hv.
  destruct q as [run expected r events]. cbn [a_runId a_expected a_reader a_events] in *.
  unfold clone_events, stream_from.
  assert (∀ i e, events !! i = Some e → ∃ j, stored run (expected + 1 + Z.of_nat i) j ∧
    cloneJson r (entry_depth r e) (entry_view r e) = Ok j ∧
    canonicalJson r (entry_depth r e) (entry_view r e) = Ok (serializeCaptured j)) as Hall.
  { intros i e He. eapply accepted_event; [exact Hd| |by apply Hv].
    intros v ->. apply HP. by eapply list_elem_of_lookup_2. }
  clear Hv HP. revert Hall. generalize (expected + 1)%Z. clear expected.
  induction events as [|e events IH]; intros k Hall; [by exists []|].
  destruct (Hall 0%nat e eq_refl) as (j & Hj & Hc & Ht).
  destruct (IH (k + 1)%Z) as (new & Hnew & Hlen & Hst & Htxt).
  { intros i e' He'. destruct (Hall (S i) e' He') as (j' & Hj' & ?). exists j'.
    split; [|done]. replace (k + 1 + Z.of_nat i)%Z with (k + Z.of_nat (S i))%Z by lia. done. }
  exists (j :: new). cbn [traverse]. rewrite Hc, Ht. cbn [mbind result_bind]. rewrite Hnew, Htxt.
  split_and!; [done|simpl; lia| |done].
  intros [|i] e' He'; [by injection He' as <-|].
  replace (k + Z.of_nat (S i))%Z with (k + 1 + Z.of_nat i)%Z by lia. by apply Hst.
Qed.

Lemma validated_Ok q new :
  request_ok q → validated q = Ok new →
  length new = length (a_events q) ∧ stream_from (a_runId q) (a_expected q + 1) new ∧
  serialize_events (a_reader q) (a_events q) = Ok (join [10%N] (map serializeCaptured new) ++ [10%N]).
Proof.
  intros Hq H. unfold validated in H.
  destruct (validateAppendEvents _ _ _ _) as [[]|] eqn:Ev; [|done]. cbn [mbind result_bind] in H.
  destruct (accepted_events q Hq Ev) as (new' & Hc & Hlen & Hst & Ht).
  rewrite Hc in H. injection H as <-. split_and!; [done..|].
  unfold serialize_events. by rewrite Ht.
Qed.

Lemma validated_total q :
  request_ok q →
  (∃ new, validated q = Ok new) ∨
  ∃ issues, issues ≠ [] ∧ validated q = Err (Persistence (PersistenceValidationError request_error issues)).
Proof.
  intros Hq. unfold validated. destruct (validateAppendEvents_total q Hq) as [Hv|(issues & Hne & Hv)];
    rewrite Hv; cbn [mbind result_bind].
  - left. destruct (accepted_events q Hq Hv) as (new & Hc & _). by exists new.
  - right. by exists issues.
Qed.

(** ** The invariant of the log *)

Lemma stream_from_app run k a b :
  stream_from run k a → stream_from run (k + Z.of_nat (length a)) b → stream_from run k (a ++ b).
Proof.
  intros Ha Hb i e He. apply lookup_app_Some in He as [He|[Hle He]]; [by apply Ha|].
  apply Hb in He. by replace (k + Z.of_nat (length a) + Z.of_nat (i - length a))%Z
    with (k + Z.of_nat i)%Z in He by lia.
Qed.

Lemma stream_of_insert (L : gmap jsstr (list json)) run s run' :
  stream_of (<[run := s]> L) run' = if decide (run' = run) then s else stream_of L run'.
Proof.
  unfold stream_of, event_log in *. case_decide as H; [subst; by rewrite lookup_insert_eq|].
  by rewrite lookup_insert_ne.
Qed.

Lemma log_append_ok L q : request_ok q → log_ok L → log_ok (log_append L q).2.
Proof.
  intros Hq HL. unfold log_append. destruct (version L (a_runId q) =? a_expected q)%Z eqn:Ev; [|done].
  apply Z.eqb_eq in Ev. cbn [negb]. destruct (validated q) as [new|] eqn:En; [|done].
  destruct (validated_Ok q new Hq En) as (_ & Hst & _).
  destruct new as [|e new]; [done|]. cbn [snd]. intros run. rewrite stream_of_insert.
  case_decide as Hr; [subst|apply HL]. apply stream_from_app; [apply HL|].
  unfold version in Ev. by replace (0 + Z.of_nat (length (stream_of L (a_runId q))))%Z
    with (a_expected q + 1)%Z by lia.
Qed.

(** The last event of a stream carries its version. *)
Lemma log_version L run e :
  log_ok L → last (stream_of L run) = Some e → stored run (version L run) e.
Proof.
  intros HL Hl.
  assert (0 < length (stream_of L run)) as Hlen by (destruct (stream_of L run); [done|simpl; lia]).
  rewrite last_lookup in Hl. apply HL in Hl. unfold version.
  by replace (Z.of_nat (length (stream_of L run)) - 1)%Z with
    (0 + Z.of_nat (Nat.pred (length (stream_of L run))))%Z by lia.
Qed.

(** * The file of a log *)

(** ** The text of a stream *)

Definition record_text (e : json) : jsstr := serializeCaptured e ++ [10%N].
Definition log_text (stream : list json) : jsstr := concat (map record_text stream).
Definition log_bytes (stream : list json) : list N := utf8_encode (log_text stream).

Definition stored_all (stream : list json) : Prop := Forall json_ok stream.

Lemma stream_from_ok run k stream : stream_from run k stream → stored_all stream.
Proof.
  intros H. apply Forall_lookup. intros i e He. by destruct (H i e He) as (? & _ & ? & _).
Qed.

Lemma join_log_text stream :
  stream ≠ [] → join [10%N] (map serializeCaptured stream) ++ [10%N] = log_text stream.
Proof.
  induction stream as [|e stream IH]; [done|]. intros _. destruct stream as [|e' stream].
  - unfold log_text, record_text. cbn [map join concat]. by rewrite app_nil_r.
  - change (join [10%N] (map serializeCaptured (e :: e' :: stream))) with
      (serializeCaptured e ++ [10%N] ++ join [10%N] (map serializeCaptured (e' :: stream))).
    rewrite <- !(assoc_L (++)), IH by done. unfold log_text, record_text. cbn [map concat].
    by rewrite <- !(assoc_L (++)).
Qed.

Lemma log_text_app a b : log_text (a ++ b) = log_text a ++ log_text b.
Proof. unfold log_text. by rewrite map_app, concat_app. Qed.

(** ** The bytes of a stream *)

Lemma utf8_encode_newline t : utf8_encode (10%N :: t) = 10%N :: utf8_encode t.
Proof. unfold utf8_encode. by rewrite code_points_unit. Qed.

Lemma record_bytes e t :
  json_ok e → utf8_encode (record_text e ++ t) = utf8_encode (serializeCaptured e) ++ 10%N :: utf8_encode t.
Proof.
  intros He. unfold record_text. rewrite <- (assoc_L (++)), utf8_encode_clean_app by by apply serialize_clean.
  cbn [app]. by rewrite utf8_encode_newline.
Qed.

Lemma log_bytes_cons e stream :
  json_ok e → log_bytes (e :: stream) = (utf8_encode (serializeCaptured e) ++ [10%N]) ++ log_bytes stream.
Proof.
  intros He. unfold log_bytes, log_text. cbn [map concat]. rewrite record_bytes by done.
  by rewrite <- (assoc_L (++)).
Qed.

Lemma log_bytes_app a b : stored_all a → log_bytes (a ++ b) = log_bytes a ++ log_bytes b.
Proof.
  induction 1 as [|e a He _ IH]; [done|]. cbn [app]. rewrite !log_bytes_cons, IH by done.
  by rewrite (assoc_L (++)).
Qed.

Lemma log_utf16 stream : stored_all stream → well_formed_utf16 (log_text stream).
Proof.
  induction 1 as [|e stream He _ IH]; [by split; constructor|]. destruct IH as [IH1 IH2].
  pose proof (serialize_clean e He) as Hc. unfold log_text, record_text. cbn [map concat].
  rewrite <- (assoc_L (++)). change ([10%N] ++ ?t) with (10%N :: t). split.
  - apply Forall_app. split; [by apply clean_wf|]. by constructor.
  - rewrite code_points_clean_app by done. apply Forall_app. split; [by apply clean_points|].
    rewrite code_points_unit by done. constructor; [done|exact IH2].
Qed.

Lemma log_text_head e stream :
  (∃ props, e = JObj props) → head (code_points (log_text (e :: stream))) ≠ Some byte_order_mark.
Proof.
  intros (props & ->). unfold log_text, record_text. cbn [map concat]. rewrite serialize_obj.
  change (js "{" ++ ?s) with (123%N :: s). rewrite <- !(assoc_L (++)). cbn [app].
  by rewrite code_points_unit.
Qed.

Lemma log_decode run k stream :
  stream_from run k stream → utf8_decode (log_bytes stream) = Some (log_text stream).
Proof.
  intros Hs. apply utf8_round_trip; [apply log_utf16; by eapply stream_from_ok|].
  destruct stream as [|e stream]; [done|]. apply log_text_head.
  destruct (Hs 0%nat e eq_refl) as (props & -> & _). by exists props.
Qed.

(** ** The lines of a log *)

Lemma log_lines stream :
  stored_all stream → stream ≠ [] →
  split_lines (take (length (log_text stream) - 1) (log_text stream)) = map serializeCaptured stream.
Proof.
  intros Hs Hne. rewrite <- join_log_text by done.
  rewrite length_app. simpl (length [10%N]). rewrite Nat.add_sub, take_app_length.
  induction Hs as [|e stream He Hs IH]; [done|].
  pose proof (clean_no_newline _ (serialize_clean e He)) as Hn.
  destruct stream as [|e' stream]; [by apply split_lines_last|].
  change (join [10%N] (map serializeCaptured (e :: e' :: stream))) with
    (serializeCaptured e ++ 10%N :: join [10%N] (map serializeCaptured (e' :: stream))).
  by rewrite split_lines_clean, IH by done.
Qed.

Lemma log_text_last stream : stream ≠ [] → last (log_text stream) = Some 10%N.
Proof. intros Hne. rewrite <- join_log_text by done. apply last_snoc. Qed.

(** ** Loading *)

Lemma event_fields_json e props :
  e = JObj props → json_ok e → graph_event props →
  event_runId json_reader (json_view e) = props_runId props ∧
  event_sequence json_reader (json_view e) = props_sequence props.
Proof.
  intros -> Hok Hge.
  apply (event_fields json_reader (json_view (JObj props))
    (ObjectView None false None true 0 props.*1 [] (λ k, get_own k props))); [done| |done].
  intros k. by apply json_field_shows.
Qed.

Lemma parse_record_stored run i e :
  stored run (Z.of_nat i) e → parse_record run i (serializeCaptured e) = Ok e.
Proof.
  intros (props & -> & Hok & Hcf & Hge & Hrun & Hseq). unfold parse_record.
  destruct (serialize_head _ Hok) as (c & t & Ehead & _).
  destruct (length _ =? 0)%nat eqn:El; [apply Nat.eqb_eq in El; rewrite Ehead in El; done|].
  rewrite json_parse_serialize, Hcf by done.
  unfold assertGraphEvent. rewrite (proj2 (validateGraphEvent_json _ Hok)) by eauto.
  cbn [mbind result_bind reject].
  destruct (event_fields_json _ props eq_refl Hok Hge) as [-> ->].
  rewrite bool_decide_eq_true_2 by done. cbn [negb]. by rewrite Hseq, Z.eqb_refl.
Qed.

Lemma itraverse_from_ok {A B} (f : nat → A → result exn B) k l ys :
  length l = length ys → (∀ i x y, l !! i = Some x → ys !! i = Some y → f (k + i)%nat x = Ok y) →
  itraverse_from k f l = Ok ys.
Proof.
  revert k ys. induction l as [|x l IH]; intros k [|y ys] Hlen Hf; try done.
  cbn [itraverse_from]. rewrite <- (Nat.add_0_r k) at 1. rewrite (Hf 0%nat x y) by done.
  cbn [mbind result_bind]. rewrite (IH (S k) ys); [done|by injection Hlen|].
  intros i x' y' Hx Hy. replace (S k + i)%nat with (k + S i)%nat by lia. by apply Hf.
Qed.

(** The file of a stream loads as the stream. *)
Lemma parse_log_stream run stream :
  stream_from run 0 stream → stream ≠ [] → parse_log run (log_bytes stream) = Ok stream.
Proof.
  intros Hs Hne. pose proof (stream_from_ok _ _ _ Hs) as Hok. unfold parse_log.
  destruct (log_bytes stream) as [|b bytes] eqn:Eb.
  { destruct stream as [|e stream]; [done|]. apply Forall_cons in Hok as [He _].
    rewrite log_bytes_cons in Eb by done. apply (f_equal length) in Eb.
    rewrite !length_app in Eb. simpl in Eb. lia. }
  rewrite <- Eb, (log_decode run 0) by done.
  rewrite log_text_last, bool_decide_eq_true_2 by done. cbn [negb]. rewrite log_lines by done.
  apply itraverse_from_ok; [by rewrite length_map|].
  intros i line e Hline He. change (map ?f stream) with (f <$> stream) in Hline.
  rewrite list_lookup_fmap, He in Hline. injection Hline as <-. apply parse_record_stored.
  exact (Hs i e He).
Qed.

(** ** Prefixes of a log *)

Lemma clean_points_printable s : clean s → Forall (λ c, 32 ≤ c)%N (code_points s).
Proof.
  induction 1 as [|u t Hu Hs _ IH|h l t Hh Hl _ IH]; [constructor|..].
  - rewrite code_points_unit by done. constructor; [lia|done].
  - rewrite code_points_pair by done. constructor; [|done]. unfold surrogate_pair. lia.
Qed.

Lemma utf8_point_bytes c : (32 ≤ c)%N → 10%N ∉ utf8_point c.
Proof.
  intros Hc Hin. apply list_elem_of_In in Hin. unfold utf8_point in Hin.
  repeat case_match; simpl in Hin;
    repeat match type of Hin with _ ∨ _ => destruct Hin as [Hin|Hin] end; try done;
    first [lia | revert Hin; match goal with |- (_ + ?x)%N = _ → _ => generalize x; lia end].
Qed.

Lemma clean_bytes_no_newline s : clean s → 10%N ∉ utf8_encode s.
Proof.
  intros Hs. rewrite utf8_encode_points by by apply clean_points.
  apply clean_points_printable in Hs. rewrite list_elem_of_bind. intros (c & Hin & Hc).
  rewrite Forall_forall in Hs. by apply (utf8_point_bytes c); [apply Hs|].
Qed.

Lemma decode_point_inv bytes c r :
  decode_point bytes = Some (c, r) → ∃ pre, bytes = pre ++ r ∧ pre ≠ [] ∧ (c < 128 → pre = [c])%N.
Proof.
  unfold decode_point. destruct bytes as [|b bytes]; [done|].
  destruct (b <? 128)%N eqn:Eb.
  { intros [= <- <-]. by exists [b]. }
  destruct ((194 <=? b)%N && (b <=? 223)%N) eqn:E2.
  { destruct bytes as [|c1 bytes]; [done|]. destruct (is_continuation c1); [|done].
    intros [= <- <-]. exists [b; c1]. split_and!; [done..|]. intros Hlt. exfalso. bool_hyps. lia. }
  destruct ((224 <=? b)%N && (b <=? 239)%N) eqn:E3.
  { destruct bytes as [|c1 [|c2 bytes]]; [done..|]. cbv zeta.
    match goal with |- context [if ?b then _ else _] => destruct b eqn:E; [|done] end.
    intros [= <- <-]. exists [b; c1; c2]. split_and!; [done..|].
    intros Hlt. exfalso. repeat (apply andb_true_iff in E as [E ?]). bool_hyps. lia. }
  destruct ((240 <=? b)%N && (b <=? 244)%N) eqn:E4; [|done].
  destruct bytes as [|c1 [|c2 [|c3 bytes]]]; [done..|]. cbv zeta.
  match goal with |- context [if ?b then _ else _] => destruct b eqn:E; [|done] end.
  intros [= <- <-]. exists [b; c1; c2; c3]. split_and!; [done..|].
  intros Hlt. exfalso. repeat (apply andb_true_iff in E as [E ?]). bool_hyps. lia.
Qed.

Lemma decode_points_last fuel bytes cs :
  decode_points fuel bytes = Some cs → last cs = Some 10%N → last bytes = Some 10%N.
Proof.
  revert bytes cs. induction fuel as [|fuel IH]; intros bytes cs; cbn [decode_points].
  { by destruct bytes; [intros [= <-]|]. }
  destruct bytes as [|b bytes]; [by intros [= <-]|].
  destruct (decode_point (b :: bytes)) as [[c r]|] eqn:Ec; [|done].
  destruct (decode_points fuel r) as [cs'|] eqn:Er; [|done]. intros [= <-] Hl.
  apply decode_point_inv in Ec as (pre & -> & _ & Hpre).
  destruct cs' as [|c' cs'].
  - injection Hl as ->. rewrite (Hpre ltac:(lia)).
    assert (r = []) as ->; [|done].
    destruct fuel; cbn [decode_points] in Er; destruct r as [|b' r]; try done.
    destruct (decode_point (b' :: r)) as [[]|]; [|done]. by destruct (decode_points fuel _).
  - rewrite last_cons_cons in Hl. specialize (IH r (c' :: cs') Er Hl). by rewrite last_app, IH.
Qed.

Lemma encode_point_last c : last (encode_point c) = Some 10%N → c = 10%N.
Proof.
  unfold encode_point. destruct (c <? 65536)%N; [by intros [= ->]|]. intros [= H]. revert H.
  generalize ((c - 65536) `mod` 1024)%N. lia.
Qed.

Lemma utf8_decode_last bytes text :
  utf8_decode bytes = Some text → last text = Some 10%N → last bytes = Some 10%N.
Proof.
  unfold utf8_decode. destruct (decode_points _ _) as [cs|] eqn:E; [|done]. intros [= <-] Hl.
  eapply decode_points_last; [exact E|].
  change (last (drop_bom cs ≫= encode_point) = Some 10%N) in Hl.
  assert (last (drop_bom cs) = Some 10%N) as Hd.
  { destruct (drop_bom cs) as [|c l _] using rev_ind; [done|].
    rewrite bind_app, last_app in Hl. rewrite last_snoc. f_equal. apply encode_point_last.
    destruct (last ([c] ≫= encode_point)) as [u|] eqn:Eu.
    - cbn in Eu. rewrite app_nil_r in Eu. congruence.
    - exfalso. cbn in Eu. rewrite app_nil_r in Eu. unfold encode_point in Eu. by destruct (c <? 65536)%N. }
  destruct cs as [|c cs]; [done|]. cbn [drop_bom] in Hd.
  destruct (c =? byte_order_mark)%N; [|done]. destruct cs; [done|]. by rewrite last_cons_cons.
Qed.

(** A prefix that ends with a newline is a whole number of records. *)
Lemma log_prefix stream k :
  stored_all stream → last (take k (log_bytes stream)) = Some 10%N →
  ∃ i, take k (log_bytes stream) = log_bytes (take i stream).
Proof.
  intros Hs. revert k. induction Hs as [|e stream He Hs IH]; intros k Hl; [exists 0%nat; apply take_nil|].
  rewrite log_bytes_cons in * by done. set (E := utf8_encode (serializeCaptured e)) in *.
  pose proof (clean_bytes_no_newline _ (serialize_clean e He)) as Hn. fold E in Hn.
  rewrite <- (assoc_L (++)) in *.
  destruct (Nat.le_gt_cases k (length E)) as [Hk|Hk].
  { exfalso. rewrite take_app_le in Hl by done. apply Hn.
    rewrite last_lookup in Hl. apply lookup_take_Some in Hl as [Hl _].
    by eapply list_elem_of_lookup_2. }
  rewrite take_app_ge in * by lia.
  destruct (k - length E)%nat as [|m] eqn:Em; [lia|].
  change (take (S m) ([10%N] ++ log_bytes stream)) with (10%N :: take m (log_bytes stream)) in *.
  destruct (decide (take m (log_bytes stream) = [])) as [Hm|Hm].
  { exists 1%nat. rewrite Hm. change (take 1 (e :: stream)) with (e :: take 0 stream).
    rewrite log_bytes_cons by done. by rewrite <- (assoc_L (++)). }
  destruct (IH m) as [i Hi].
  { rewrite last_app in Hl. destruct (take m (log_bytes stream)) as [|b l] eqn:Eb; [done|].
    rewrite last_cons_cons in Hl. by destruct (last (b :: l)) eqn:?; [|rewrite last_None in *]. }
  exists (S i). cbn [take]. rewrite log_bytes_cons by done. rewrite Hi. by rewrite <- (assoc_L (++)).
Qed.

Lemma stream_from_take run k stream i : stream_from run k stream → stream_from run k (take i stream).
Proof.
  intros H j e He. apply H. apply lookup_take_Some in He as [He _]. done.
Qed.

(** A prefix of a log loads as a prefix of its stream, or is reported corrupt. *)
Lemma parse_log_prefix run stream k :
  stream_from run 0 stream →
  (∃ i, parse_log run (take k (log_bytes stream)) = Ok (take i stream)) ∨
  ∃ reason line, parse_log run (take k (log_bytes stream)) = Err (corrupt_log run reason line).
Proof.
  intros Hs. pose proof (stream_from_ok _ _ _ Hs) as Hok.
  destruct (take k (log_bytes stream)) as [|b bytes] eqn:Eb; [right; by eexists _, _|].
  unfold parse_log. destruct (utf8_decode (b :: bytes)) as [text|] eqn:Et; [|right; by eexists _, _].
  case_bool_decide as Hl; [|right; by eexists _, _]. cbn [negb]. left.
  pose proof (utf8_decode_last _ _ Et Hl) as Hlast. rewrite <- Eb in Hlast.
  destruct (log_prefix stream k Hok Hlast) as [i Hi]. exists i.
  assert (take i stream ≠ []) as Hne.
  { intros E. rewrite E in Hi. rewrite Eb in Hi. done. }
  pose proof (parse_log_stream run _ (stream_from_take _ _ _ i Hs) Hne) as Hp.
  rewrite <- Hi, Eb in Hp. unfold parse_log in Hp. rewrite Et in Hp.
  by rewrite bool_decide_eq_true_2 in Hp.
Qed.

(** What a partial append leaves behind. *)
Lemma parse_log_append run stream new k :
  stream_from run 0 (stream ++ new) →
  (∃ j, parse_log run (log_bytes stream ++ take k (log_bytes new)) = Ok (stream ++ take j new)) ∨
  ∃ reason line, parse_log run (log_bytes stream ++ take k (log_bytes new)) =
    Err (corrupt_log run reason line).
Proof.
  intros Hs. pose proof (stream_from_ok _ _ _ Hs) as Hok. apply Forall_app in Hok as [Hok1 Hok2].
  set (bytes := log_bytes stream ++ take k (log_bytes new)).
  destruct bytes as [|b l] eqn:Eb; [right; by eexists _, _|].
  unfold parse_log. destruct (utf8_decode (b :: l)) as [text|] eqn:Et; [|right; by eexists _, _].
  case_bool_decide as Hl; [|right; by eexists _, _]. cbn [negb]. left.
  pose proof (utf8_decode_last _ _ Et Hl) as Hlast. rewrite <- Eb in Hlast. unfold bytes in Hlast.
  assert (∃ j, take k (log_bytes new) = log_bytes (take j new)) as [j Hj].
  { rewrite last_app in Hlast. destruct (last (take k (log_bytes new))) as [u|] eqn:El.
    - injection Hlast as ->. by apply log_prefix.
    - apply last_None in El. exists 0%nat. by rewrite El. }
  exists j.
  assert (stream_from run 0 (stream ++ take j new)) as Hs'.
  { intros i e He. apply Hs. destruct (decide (i < length stream)%nat).
    - rewrite lookup_app_l in He |- * by done. done.
    - rewrite lookup_app_r in He |- * by lia. by apply lookup_take_Some in He as [He _]. }
  assert (stream ++ take j new ≠ []) as Hne.
  { intros E. unfold bytes in Eb. apply app_eq_nil in E as [-> E]. rewrite Hj, E in Eb. done. }
  pose proof (parse_log_stream run _ Hs' Hne) as Hp.
  rewrite log_bytes_app, <- Hj in Hp by done. fold bytes in Hp. rewrite Eb in Hp. unfold parse_log in Hp.
  rewrite Et in Hp. by rewrite bool_decide_eq_true_2 in Hp.
Qed.

(** ** One event *)

(** An accepted event survives the file.  Whatever way the caller's value is read,
    an event without issues has canonical text; the bytes of that text decode to it,
    it parses, and what it parses to is again an event without issues, of the same
    run and with the same sequence number. *)
Theorem event_text_round_trip {V} (r : reader V) P `{!Detached r P} v :
  P v → validateGraphEvent r (depth r v) (look r v) = Ok [] →
  ∃ text j, canonicalJson r (depth r v) (look r v) = Ok text ∧
    utf8_decode (utf8_encode text) = Some text ∧ json_parse text = Some j ∧
    validateGraphEvent json_reader (json_depth j) (json_view j) = Ok [] ∧
    event_runId json_reader (json_view j) = event_runId r (look r v) ∧
    event_sequence json_reader (json_view j) = event_sequence r (look r v).
Proof.
  intros HP Hv. destruct (validateGraphEvent_shows r P _ v HP Hv) as (props & Hs & Hge & Hj & Hr & Hn).
  pose proof Hs as (_ & Hok & _). pose proof (proj1 (json_ok_obj props) Hok) as (Hnd & _).
  exists (serializeCaptured (JObj props)), (JObj (canonical_props props)).
  assert (json_ok (JObj (canonical_props props))) as Hok' by exact (canonical_form_ok _ Hok).
  pose proof (canonical_graph_event props Hnd Hge) as Hge'. split_and!.
  - by apply canonicalJson_shows.
  - apply utf8_round_trip; [by split; [apply clean_wf|apply clean_points]; apply serialize_clean|].
    rewrite serialize_obj. change (js "{" ++ ?s) with (123%N :: s). by rewrite code_points_unit.
  - by rewrite json_parse_serialize.
  - apply validateGraphEvent_json; [done|]. by exists (canonical_props props).
  - destruct (event_fields_json _ _ eq_refl Hok' Hge') as [-> _].
    destruct (canonical_event_fields props Hnd) as [-> _]. by rewrite Hr.
  - destruct (event_fields_json _ _ eq_refl Hok' Hge') as [_ ->].
    destruct (canonical_event_fields props Hnd) as [_ ->]. by rewrite Hn.
Qed.

(** A caller's event with its keys in no particular order, and a negative zero. *)
Definition caller_heap : heap :=
  <[1%positive := plain_object
    [(js "data", Data (VObj 2) true); (js "sequence", Data (VNum (SpecFloat.S754_zero true)) true);
     (js "apiVersion", Data (VStr GRAPH_EVENT_API_VERSION) true);
     (js "eventId", Data (VStr [233; 55357; 56832]%N) true); (js "type", Data (VStr (js "NodeStarted")) true);
     (js "timestamp", Data (VStr (js "2024-12-31T23:59:59.25-08:00")) true);
     (js "runId", Data (VStr (js "r")) true); (js "graphRevision", Data (VNum (num_of_Z 3)) true)]]>
  (<[2%positive := plain_object [(js "k", Data (VNum (num_of_decimal true 15 (-3))) true)]]> ∅).

Lemma event_text_round_trip_witness :
  let r := clone_reader caller_heap (λ _ _, VUndefined) in
  validateGraphEvent r (depth r (VObj 1)) (look r (VObj 1)) = Ok [] ∧
  ∃ text j, canonicalJson r (depth r (VObj 1)) (look r (VObj 1)) = Ok text ∧ json_parse text = Some j ∧
    event_sequence json_reader (json_view j) = 0%Z.
Proof.
  assert (heap_wf caller_heap) as Hh by (apply (bool_decide_unpack _); vm_compute; exact I).
  assert (heap_data_ok caller_heap) as Hd by (apply (bool_decide_unpack _); vm_compute; exact I).
  pose proof (clone_detached caller_heap (λ _ _, VUndefined) Hh Hd (λ _ _, eq_refl)) as Hdet.
  cbv zeta. match goal with |- ?a ∧ _ => assert a as Hv by (vm_compute; reflexivity) end.
  destruct (@event_text_round_trip _ _ _ Hdet (VObj 1) eq_refl Hv) as (text & j & H1 & _ & H2 & _ & _ & H3).
  split; [exact Hv|]. exists text, j. split; [exact H1|]. split; [exact H2|].
  rewrite H3. vm_compute; reflexivity.
Defined.
