(* ===== verification/EventStoresSpec.v ===== *)
(** * The event stores implement the event log

    [EventStore] is the interface of event-store.ts and [EventStoreLaws] what it
    promises, relative to the log of [EventLog].  The memory store and, when the
    file system does not fail, the JSON Lines store keep the promise; so a client
    cannot tell them apart.  When calls fail, an append leaves whole records, or a
    file that loading reports corrupt, and never touches an event already stored. *)
From S2P Require Import Prelude JsString JsNumber JsValue JsonText Canonical CanonicalSpec JsonRoundTrip.
From S2P Require Import Views Utf8 PersistenceJson PersistenceJsonSpec Events EventsSpec FileSystem.
From S2P Require Import EventStores EventLog.

(** ** The interface *)

Class EventStore (S : Type) := {
  es_append : append_request → S → result exn Z * S;
  es_read : jsstr → Z → S → result exn (list json) * S
}.

Class EventStoreLaws (S : Type) `{EventStore S} (represents : event_log → S → Prop) : Prop := {
  law_log L s : represents L s → log_ok L;
  law_append L s q :
    represents L s → request_ok q →
    (es_append q s).1 = (log_append L q).1 ∧ represents (log_append L q).2 (es_append q s).2;
  law_read L s run from :
    represents L s → safe_identifier run = true → (0 <= from)%Z →
    (es_read run from s).1 = Ok (log_read L run from) ∧ represents L (es_read run from s).2
}.

(** ** Reading a stored stream *)

Lemma cloneJson_stored e : json_ok e → canonical_form e = e →
  cloneJson json_reader (json_depth e) (json_view e) = Ok e.
Proof.
  intros Hok Hcf.
  assert (validateJson json_reader false (json_depth e) (json_view e) (js "#") [] = Ok []) as Hv
    by by apply validateJson_json.
  destruct (validateJson_shows json_reader json_ok _ e _ _ Hok Hv) as [j Hj].
  rewrite (cloneJson_shows _ _ _ j Hv Hj). destruct Hj as (Ht & _).
  by rewrite (json_shows_self e j Hok Ht), Hcf.
Qed.

Lemma stored_sequence run n e : stored run n e → event_sequence json_reader (json_view e) = n.
Proof.
  intros (props & -> & Hok & _ & Hge & _ & <-).
  by apply (event_fields_json (JObj props) props eq_refl Hok Hge).
Qed.

Lemma traverse_id {A} (f : A → result exn A) l : Forall (λ x, f x = Ok x) l → traverse f l = Ok l.
Proof. induction 1 as [|x l Hx _ IH]; [done|]. cbn [traverse]. rewrite Hx. cbn [mbind result_bind]. by rewrite IH. Qed.

Lemma filter_consecutive run k from stream :
  stream_from run k stream →
  filter (λ e, (from <= event_sequence json_reader (json_view e))%Z) stream =
  drop (Z.to_nat (from - k)) stream.
Proof.
  revert k. induction stream as [|e stream IH]; intros k Hs; [by rewrite drop_nil|].
  pose proof (stored_sequence _ _ _ (Hs 0%nat e eq_refl)) as He.
  assert (stream_from run (k + 1) stream) as Hs'.
  { intros i e' He'. replace (k + 1 + Z.of_nat i)%Z with (k + Z.of_nat (S i))%Z by lia. by apply Hs. }
  destruct (decide (from <= k)%Z) as [Hle|Hgt].
  - rewrite filter_cons_True by lia. rewrite (IH (k + 1)%Z Hs').
    replace (Z.to_nat (from - k)) with 0%nat by lia.
    by replace (Z.to_nat (from - (k + 1))) with 0%nat by lia.
  - rewrite filter_cons_False by lia. rewrite (IH (k + 1)%Z Hs').
    by replace (Z.to_nat (from - k)) with (S (Z.to_nat (from - (k + 1)))) by lia.
Qed.

Lemma events_from_stream run from stream :
  stream_from run 0 stream → (0 <= from)%Z → events_from from stream = Ok (drop (Z.to_nat from) stream).
Proof.
  intros Hs Hf. unfold events_from. rewrite (filter_consecutive run 0) by done. rewrite Z.sub_0_r.
  apply traverse_id, Forall_drop, Forall_lookup. intros i e He.
  destruct (Hs i e He) as (props & -> & Hok & Hcf & _). by apply cloneJson_stored.
Qed.

(** ** The memory store *)

Definition memory_event_store : EventStore memory_store := {|
  es_append q s := memory_append s q;
  es_read run from s := (events_from from (default [] (s !! run)), s)
|}.

Definition memory_represents (L : event_log) (s : memory_store) : Prop := s = L ∧ log_ok L.

Lemma clone_events_length {V} (r : reader V) events new :
  clone_events r events = Ok new → length new = length events.
Proof. intros H. by apply traverse_length in H. Qed.

Lemma memory_append_log L q : memory_append L q = log_append L q.
Proof.
  unfold memory_append, log_append, validated. fold (stream_of L (a_runId q)). fold (version L (a_runId q)).
  destruct (negb _); [done|]. destruct (validateAppendEvents _ _ _ _) as [u|]; [|done].
  cbn [mbind result_bind].
  destruct (a_events q) as [|e events] eqn:Ee; [done|]. cbn [length Nat.eqb].
  destruct (clone_events _ _) as [new|] eqn:Ec; [|done].
  apply clone_events_length in Ec. destruct new as [|j new]; [done|].
  do 2 f_equal. change (default [] (L !! a_runId q)) with (stream_of L (a_runId q)).
  unfold version. rewrite length_app. lia.
Qed.

Lemma memory_laws : @EventStoreLaws memory_store memory_event_store memory_represents.
Proof.
  split.
  - by intros L s [_ HL].
  - intros L s q [-> HL] Hq. cbn [es_append memory_event_store]. rewrite memory_append_log.
    split; [done|]. split; [done|]. by apply log_append_ok.
  - intros L s run from [-> HL] Hrun Hf. cbn [es_read memory_event_store fst snd]. split; [|done].
    apply (events_from_stream run); [apply HL|done].
Qed.

(** ** The JSON Lines store on a file system that does not fail *)

Section jsonl.
Context (sha256 : list N → jsstr) (directory : jsstr).

(** The digests of the identifiers in use do not collide. *)
Definition collision_free : Prop :=
  ∀ r1 r2, safe_identifier r1 = true → safe_identifier r2 = true →
    identifierHash sha256 r1 = identifierHash sha256 r2 → r1 = r2.

Definition jsonl_event_store : EventStore fs := {|
  es_append q w := jsonl_append sha256 directory q w;
  es_read run from w := jsonl_read sha256 directory run from w
|}.

(** The file of a stream. *)
Definition stream_file (stream : list json) : option (list N) :=
  match stream with [] => None | _ => Some (log_bytes stream) end.

Definition files_represent (L : event_log) (w : fs) : Prop :=
  ∀ run, safe_identifier run = true →
    files w !! pathForRun sha256 directory run = stream_file (stream_of L run).
Definition jsonl_represents (L : event_log) (w : fs) : Prop :=
  log_ok L ∧ no_faults w ∧ files_represent L w.

Lemma pathForRun_inj r1 r2 :
  collision_free → safe_identifier r1 = true → safe_identifier r2 = true →
  pathForRun sha256 directory r1 = pathForRun sha256 directory r2 → r1 = r2.
Proof.
  intros Hcf H1 H2. unfold pathForRun, join_path. intros H. apply Hcf; [done..|].
  by case_bool_decide; simplify_list_eq.
Qed.

Lemma load_stream L f run :
  log_ok L → files_represent L (Fs f []) → safe_identifier run = true →
  load sha256 directory run (Fs f []) = (Ok (stream_of L run), Fs f []).
Proof.
  intros HL Hf Hrun. specialize (Hf run Hrun). cbn [files] in Hf. unfold load.
  pose proof (readFile_quiet f (pathForRun sha256 directory run)) as Hr. rewrite Hf in Hr.
  destruct (stream_of L run) as [|e stream] eqn:Es; cbn [stream_file] in Hr.
  - rewrite (io_bind_Ok _ _ _ None (Fs f [])); [done|].
    by rewrite (try_catch_Err _ _ _ (Errno ENOENT) (Fs f [])) by (by apply io_bind_Err).
  - rewrite (io_bind_Ok _ _ _ (Some (log_bytes (e :: stream))) (Fs f []));
      [|apply try_catch_Ok; by rewrite (io_bind_Ok _ _ _ _ _ Hr)].
    cbv beta iota. unfold lift. rewrite (parse_log_stream run (e :: stream)); [done| |done].
    rewrite <- Es. apply HL.
Qed.

Lemma append_records_quiet f path text :
  ∃ f', append_records path (Ok text) (Fs f []) = (Ok tt, Fs f' []) ∧
    f' !! path = Some (default [] (f !! path) ++ utf8_encode text) ∧ ∀ p, p ≠ path → f' !! p = f !! p.
Proof.
  unfold append_records. set (bytes := utf8_encode text). pose proof (stat_quiet f path) as Hs. pose proof (open_append_quiet f path) as Ho.
  destruct (f !! path) as [b|] eqn:Ef.
  - exists (<[path := b ++ bytes]> f). split_and!.
    + rewrite (io_bind_Ok _ _ _ true (Fs f []));
        [|apply try_catch_Ok; by rewrite (io_bind_Ok _ _ _ _ _ Hs)].
      rewrite (io_bind_Ok (lift (Ok text)) _ _ text (Fs f [])) by done.
      rewrite (io_bind_Ok _ _ _ _ _ Ho).
      rewrite (io_bind_Ok _ _ _ tt (Fs (<[path := b ++ bytes]> f) [])); [done|].
      eapply try_finally_Ok; [|apply close_quiet].
      rewrite (io_bind_Ok _ _ _ _ _ (write_quiet f path bytes)). by rewrite Ef.
    + by rewrite lookup_insert_eq.
    + intros p Hp. by rewrite lookup_insert_ne.
  - exists (<[path := bytes]> (<[path := []]> f)). split_and!.
    + rewrite (io_bind_Ok _ _ _ false (Fs f []));
        [|by rewrite (try_catch_Err _ _ _ (Errno ENOENT) (Fs f [])) by (by apply io_bind_Err)].
      rewrite (io_bind_Ok (lift (Ok text)) _ _ text (Fs f [])) by done.
      rewrite (io_bind_Ok _ _ _ _ _ Ho).
      rewrite (io_bind_Ok _ _ _ tt (Fs (<[path := bytes]> (<[path := []]> f)) [])); [apply syncDirectory_quiet|].
      eapply try_finally_Ok; [|apply close_quiet].
      rewrite (io_bind_Ok _ _ _ _ _ (write_quiet _ path bytes)). by rewrite lookup_insert_eq.
    + by rewrite lookup_insert_eq.
    + intros p Hp. by rewrite !lookup_insert_ne.
Qed.

(** An append on a quiet file system *)
Lemma jsonl_append_quiet L f q :
  collision_free → log_ok L → files_represent L (Fs f []) → request_ok q →
  ∃ f', jsonl_append sha256 directory q (Fs f []) = ((log_append L q).1, Fs f' []) ∧
    files_represent (log_append L q).2 (Fs f' []).
Proof.
  intros Hcf HL Hf Hq. pose proof Hq as (Hrun & _). unfold jsonl_append, log_append.
  set (path := pathForRun sha256 directory (a_runId q)).
  set (body := λ existing : list json, _).
  assert (Hstart : (_ ← mkdir; existing ← load sha256 directory (a_runId q); body existing) (Fs f []) =
    body (stream_of L (a_runId q)) (Fs f [])).
  { rewrite (io_bind_Ok _ _ _ _ _ (mkdir_quiet f)).
    by rewrite (io_bind_Ok _ _ _ _ _ (load_stream L f _ HL Hf Hrun)). }
  assert (Hfail : ∀ e w, body (stream_of L (a_runId q)) (Fs f []) = (Err (Persistence e), w) →
    try_catch (_ ← mkdir; existing ← load sha256 directory (a_runId q); body existing)
      (λ e, throw (wrap_error (js "append event log") path e)) (Fs f []) = (Err (Persistence e), w)).
  { intros e w He. rewrite <- Hstart in He. by rewrite (try_catch_Err _ _ _ _ _ He). }
  assert (Hbody : body (stream_of L (a_runId q)) (Fs f []) =
    (if negb (version L (a_runId q) =? a_expected q)%Z then
      throw (conflict (a_runId q) (a_expected q) (version L (a_runId q)))
    else
      _ ← lift (validateAppendEvents (a_reader q) (a_runId q) (a_expected q) (a_events q));
      if (length (a_events q) =? 0)%nat then mret (version L (a_runId q))
      else
        _ ← append_records path (serialize_events (a_reader q) (a_events q));
        mret (a_expected q + Z.of_nat (length (a_events q)))%Z) (Fs f [])) by done.
  clearbody body. destruct (version L (a_runId q) =? a_expected q)%Z eqn:Ev; cbn [negb] in *.
  2: { exists f. split; [|done]. by apply Hfail. }
  apply Z.eqb_eq in Ev.
  destruct (validated_total q Hq) as [(new & Hnew)|(issues & _ & Hnew)]; rewrite Hnew.
  2: { exists f. split; [|done]. unfold validated in Hnew.
    destruct (validateAppendEvents_total q Hq) as [Hv|(issues' & _ & Hv)]; rewrite Hv in Hnew, Hbody.
    - destruct (accepted_events q Hq Hv) as (new & Hc & _). cbn [mbind result_bind] in Hnew. congruence.
    - apply Hfail. rewrite Hbody. cbn [mbind result_bind] in Hnew. injection Hnew as <-. done. }
  destruct (validated_Ok q new Hq Hnew) as (Hlen & Hst & Hser). rewrite Hser, <- Hlen in Hbody.
  unfold validated in Hnew. destruct (validateAppendEvents _ _ _ _) as [[]|] eqn:Hv; [|done].
  rewrite (io_bind_Ok (lift (Ok tt)) _ _ tt (Fs f [])) in Hbody by done.
  destruct new as [|e new].
  { exists f. split; [|done]. apply try_catch_Ok. etrans; [exact Hstart|]. exact Hbody. }
  cbn [length Nat.eqb] in Hbody. rewrite join_log_text in Hbody by done.
  destruct (append_records_quiet f path (log_text (e :: new))) as (f' & Hw & Hpath & Hother).
  rewrite (io_bind_Ok _ _ _ _ _ Hw) in Hbody. exists f'. split.
  - apply try_catch_Ok. etrans; [exact Hstart|]. rewrite Hbody. unfold mret, io_ret. by rewrite Ev.
  - intros run Hr. cbn [files fst snd]. rewrite stream_of_insert. case_decide as Hrr.
    + subst run. fold path. rewrite Hpath. specialize (Hf _ Hrun). cbn [files] in Hf. fold path in Hf.
      rewrite Hf. pose proof (stream_from_ok _ _ _ (HL (a_runId q))) as Hok.
      destruct (stream_of L (a_runId q)) as [|e' stream]; cbn [stream_file default].
      * done.
      * rewrite <- app_comm_cons. cbn [stream_file]. rewrite app_comm_cons, log_bytes_app by done. done.
    + rewrite Hother; [by apply Hf|]. intros Heq. apply Hrr. by eapply pathForRun_inj.
Qed.

Lemma jsonl_read_quiet L f run from :
  log_ok L → files_represent L (Fs f []) → safe_identifier run = true → (0 <= from)%Z →
  jsonl_read sha256 directory run from (Fs f []) = (Ok (log_read L run from), Fs f []).
Proof.
  intros HL Hf Hrun Hfrom. unfold jsonl_read. apply try_catch_Ok.
  rewrite (io_bind_Ok _ _ _ _ _ (load_stream L f run HL Hf Hrun)).
  unfold lift. rewrite (events_from_stream run) by (done || apply HL). done.
Qed.

Lemma jsonl_laws : collision_free → @EventStoreLaws fs jsonl_event_store jsonl_represents.
Proof.
  intros Hcf. split.
  - by intros L w [HL _].
  - intros L [f fl] q (HL & Hq & Hf) Hreq. unfold no_faults in Hq. cbn [faults] in Hq. subst fl.
    destruct (jsonl_append_quiet L f q Hcf HL Hf Hreq) as (f' & Happ & Hf').
    cbn [es_append jsonl_event_store]. rewrite Happ. split; [done|].
    split; [by apply log_append_ok|]. by split.
  - intros L [f fl] run from (HL & Hq & Hf) Hrun Hfrom. unfold no_faults in Hq. cbn [faults] in Hq. subst fl.
    cbn [es_read jsonl_event_store]. rewrite (jsonl_read_quiet L f) by done. by split.
Qed.

(** ** When calls fail *)

(** The files [f] after an append to [path] that wrote some of its bytes, or all. *)
Definition grown (f0 : gmap jsstr (list N)) (path : jsstr) (bytes : list N) (f : gmap jsstr (list N)) : Prop :=
  (∀ p, p ≠ path → f !! p = f0 !! p) ∧
  (f !! path = f0 !! path ∨ ∃ k, f !! path = Some (default [] (f0 !! path) ++ take k bytes)).
Definition full (f0 : gmap jsstr (list N)) (path : jsstr) (bytes : list N) (f : gmap jsstr (list N)) : Prop :=
  (∀ p, p ≠ path → f !! p = f0 !! p) ∧ f !! path = Some (default [] (f0 !! path) ++ bytes).

Lemma full_grown f0 path bytes f : full f0 path bytes f → grown f0 path bytes f.
Proof.
  intros [H1 H2]. split; [done|]. right. exists (length bytes). by rewrite firstn_all.
Qed.
Lemma grown_refl f path bytes : grown f path bytes f.
Proof. split; [done|by left]. Qed.

(** Before anything is written: the file may have been created. *)
Definition opened (f0 : gmap jsstr (list N)) (path : jsstr) (f : gmap jsstr (list N)) : Prop :=
  (∀ p, p ≠ path → f !! p = f0 !! p) ∧ f !! path = Some (default [] (f0 !! path)).

Lemma opened_grown f0 path bytes f : opened f0 path f → grown f0 path bytes f.
Proof. intros [H1 H2]. split; [done|]. right. exists 0%nat. by rewrite H2, app_nil_r. Qed.

Lemma open_append_triple f0 path :
  triple (on_files (.= f0)) (open_append path)
    (λ r w, match r with Ok _ => on_files (opened f0 path) w | Err _ => on_files (.= f0) w end).
Proof.
  apply syscall_triple; [|done]. intros w [<- Hf]. unfold mbind, io_bind, contents, put, mret, io_ret.
  destruct (files w !! path) as [b|] eqn:E; (split; [|exact Hf]); cbn [files snd].
  - split; [done|]. by rewrite E.
  - split; [|by rewrite lookup_insert_eq, E]. intros p Hp. by rewrite lookup_insert_ne.
Qed.

Lemma write_triple f0 path data :
  triple (on_files (opened f0 path)) (write path data)
    (λ r w, match r with
      | Ok _ => on_files (full f0 path data) w
      | Err _ => on_files (grown f0 path data) w end).
Proof.
  intros w Hw. pose proof (next_fault_triple _ w Hw) as Hn. unfold write, mbind, io_bind.
  destruct (next_fault w) as [[f|e] w']; [|by destruct Hn]. cbn [fst snd] in Hn.
  destruct Hn as [[[Ho Hp] Hf] _]. unfold contents. rewrite Hp. cbn [default from_option id].
  destruct f as [f|]; cbn [put throw fst snd]; (split; [|exact Hf]); cbn [files].
  - split; [intros p Hpp; rewrite lookup_insert_ne by done; by apply Ho|]. right.
    exists (fault_written f). by rewrite lookup_insert_eq.
  - split; [intros p Hpp; rewrite lookup_insert_ne by done; by apply Ho|]. by rewrite lookup_insert_eq.
Qed.

Lemma append_records_triple f0 path text :
  triple (on_files (.= f0)) (append_records path (Ok text))
    (λ r w, match r with
      | Ok _ => on_files (full f0 path (utf8_encode text)) w
      | Err _ => on_files (grown f0 path (utf8_encode text)) w end).
Proof.
  set (bytes := utf8_encode text).
  assert (Hsame : ∀ w, on_files (.= f0) w → on_files (grown f0 path bytes) w)
    by (intros w [<- Hf]; split; [apply grown_refl|done]).
  assert (Hfull : ∀ w, on_files (full f0 path bytes) w → on_files (grown f0 path bytes) w)
    by (intros w [Hw Hf]; split; [by apply full_grown|done]).
  unfold append_records. apply (triple_bind _ _ _ (λ _, on_files (.= f0))).
  { apply (triple_try_catch _ _ _ (λ _, on_files (.= f0))).
    - apply (triple_bind _ (stat path) _ (λ _, on_files (.= f0))); [|by intros a; apply triple_ret].
      eapply triple_conseq; [apply (stat_triple (.= f0))|done|by intros [] w Hw].
    - intros e. destruct (isErrno e ENOENT); [by apply triple_ret|]. apply triple_throw. auto. }
  intros existed. apply (triple_bind _ _ _ (λ t w, t = text ∧ on_files (.= f0) w));
    [by apply triple_lift|]. intros t w [-> Hw]. revert w Hw.
  change (triple (on_files (.= f0)) (_ ← open_append path;
    _ ← try_finally (_ ← write path bytes; sync) close;
    if existed : bool then mret tt else syncDirectory)
    (λ r w, match r with Ok _ => on_files (full f0 path bytes) w | Err _ => on_files (grown f0 path bytes) w end)).
  apply (triple_bind _ _ _ (λ _, on_files (opened f0 path))).
  { eapply triple_conseq; [apply open_append_triple|done|]. intros [] w Hw; auto. }
  intros _u. apply (triple_bind _ _ _ (λ _, on_files (full f0 path bytes))).
  - apply (triple_try_finally _ _ _ (λ r w, match r with
      | Ok _ => on_files (full f0 path bytes) w | Err _ => on_files (grown f0 path bytes) w end)).
    + apply (triple_bind _ _ _ (λ _, on_files (full f0 path bytes)));
        [eapply triple_conseq; [apply write_triple|done|by intros [] w Hw]|].
      intros _u'. eapply triple_conseq; [apply (quiet_call_triple (full f0 path bytes))|done|]. intros [] w Hw; auto.
    + intros r. destruct r as [u|e];
        [eapply triple_conseq; [apply (quiet_call_triple (full f0 path bytes))|done|]
        |eapply triple_conseq; [apply (quiet_call_triple (grown f0 path bytes))|done|]]; intros [] w Hw; auto.
  - intros _u'. destruct existed; [by apply triple_ret|].
    eapply triple_conseq; [apply (syncDirectory_triple (full f0 path bytes))|done|]. intros [] w Hw; auto.
Qed.

(** Whatever fails, a load that returns gives the stream. *)
Lemma load_triple L f0 run :
  log_ok L → files_represent L (Fs f0 []) → safe_identifier run = true →
  triple (on_files (.= f0)) (load sha256 directory run)
    (λ r w, on_files (.= f0) w ∧ ∀ s, r = Ok s → s = stream_of L run).
Proof.
  intros HL Hf Hrun. specialize (Hf run Hrun). cbn [files] in Hf.
  set (path := pathForRun sha256 directory run) in *.
  unfold load. fold path.
  apply (triple_bind _ _ _ (λ b w, on_files (.= f0) w ∧ b = f0 !! path)).
  - apply (triple_try_catch _ _ _ (λ e w, on_files (.= f0) w ∧ (isErrno e ENOENT = true → f0 !! path = None))).
    + apply (triple_bind _ (readFile path) _ (λ b w, on_files (.= f0) w ∧ f0 !! path = Some b)).
      * eapply triple_conseq; [apply (readFile_triple (.= f0))|done|].
        intros [b|e] w [Hw Hb]; (split; [done|]); destruct Hw as [<- _]; done.
      * intros b w [Hw Hb]. by split.
    + intros e. destruct (isErrno e ENOENT).
      * intros w [Hw Hn]. split; [done|]. by rewrite Hn.
      * intros w [Hw _]. by split.
  - intros b w [Hw ->]. rewrite Hf. destruct (stream_of L run) as [|e stream] eqn:Es; cbn [stream_file].
    + split; [done|]. by intros s [= <-].
    + split; [done|]. unfold lift. cbn [fst]. rewrite (parse_log_stream run (e :: stream)); [|by rewrite <- Es|done].
      by intros s [= <-].
Qed.

(** What an append may leave in the file system, and what its success means. *)
Definition append_outcome (L : event_log) (f0 : gmap jsstr (list N)) (q : append_request)
    (r : result exn Z) (w : fs) : Prop :=
  let path := pathForRun sha256 directory (a_runId q) in
  ∃ new, (new = [] ∨ version L (a_runId q) = a_expected q ∧ validated q = Ok new) ∧
    grown f0 path (log_bytes new) (files w) ∧
    ∀ v, r = Ok v → r = (log_append L q).1 ∧ validated q = Ok new ∧
      (new = [] ∧ files w = f0 ∨ new ≠ [] ∧ full f0 path (log_bytes new) (files w)).

Lemma jsonl_append_triple L f0 q :
  log_ok L → files_represent L (Fs f0 []) → request_ok q →
  triple (on_files (.= f0)) (jsonl_append sha256 directory q) (append_outcome L f0 q).
Proof.
  intros HL Hf Hq. pose proof Hq as (Hrun & _). unfold jsonl_append.
  set (path := pathForRun sha256 directory (a_runId q)).
  assert (Hnone : ∀ e w, on_files (.= f0) w → append_outcome L f0 q (Err e) w).
  { intros e w [<- _]. exists []. split; [by left|]. split; [apply grown_refl|done]. }
  apply (triple_try_catch _ _ _ (λ _, append_outcome L f0 q (Err OutOfFuel))).
  2: { intros e w (new & Hnew & Hg & _). exists new. by split_and!. }
  apply (triple_bind _ mkdir _ (λ _, on_files (.= f0))).
  { eapply triple_conseq; [apply (quiet_call_triple (.= f0))|done|]. intros [] w Hw; auto. }
  intros _u. apply (triple_bind _ (load sha256 directory (a_runId q)) _
    (λ s w, on_files (.= f0) w ∧ s = stream_of L (a_runId q))).
  { eapply triple_conseq; [by apply (load_triple L f0)|done|]. intros [s|e] w [Hw Hs]; auto. }
  intros existing w [Hw ->]. fold (version L (a_runId q)).
  destruct (version L (a_runId q) =? a_expected q)%Z eqn:Ev; cbn [negb]; [|by apply Hnone].
  pose proof Ev as Ev'. apply Z.eqb_eq in Ev'.
  destruct (validateAppendEvents_total q Hq) as [Hv|(issues & _ & Hv)]; rewrite Hv; [|by apply Hnone].
  destruct (accepted_events q Hq Hv) as (new & Hc & Hlen & Hst & _).
  assert (validated q = Ok new) as Hnew by (unfold validated; by rewrite Hv).
  destruct (validated_Ok q new Hq Hnew) as (_ & _ & Hser). rewrite Hser, <- Hlen.
  assert (Hlog : ∀ v, v = (version L (a_runId q) + Z.of_nat (length new))%Z → Ok v = (log_append L q).1).
  { intros v ->. unfold log_append. rewrite Ev, Hnew. cbn [negb]. destruct new; [|done]. cbn. f_equal. lia. }
  rewrite (io_bind_Ok (lift (Ok tt)) _ _ tt w) by done.
  destruct new as [|e new].
  { cbn [length Nat.eqb]. destruct Hw as [Hw _]. exists []. split; [by left|].
    unfold mret, io_ret. cbn [fst snd]. rewrite Hw. split; [apply grown_refl|]. intros v [= <-].
    split; [apply Hlog; rewrite Ev'; cbn [length]; lia|]. split; [done|]. by left. }
  cbn [length Nat.eqb]. rewrite join_log_text by done. revert w Hw.
  apply (triple_bind (on_files (.= f0)) (append_records path (Ok (log_text (e :: new)))) _
    (λ _ w, on_files (full f0 path (log_bytes (e :: new))) w)
    (λ r w, match r with
      | Ok v => append_outcome L f0 q (Ok v) w
      | Err _ => append_outcome L f0 q (Err OutOfFuel) w end)).
  - eapply triple_conseq; [apply append_records_triple|done|].
    intros [u|er] w Hw; [done|]. exists (e :: new). split; [by right|]. split; [apply Hw|done].
  - intros _u' w [Hw _]. exists (e :: new). split; [by right|]. split; [by apply full_grown|].
    intros v [= <-]. split; [apply Hlog; rewrite Ev'; cbn [length]; lia|]. split; [done|]. by right.
Qed.

(** Loading after the failures have passed. *)
Definition reload (f : gmap jsstr (list N)) (run : jsstr) : result exn (list json) :=
  (load sha256 directory run (Fs f [])).1.

Lemma reload_file f run :
  reload f run = match f !! pathForRun sha256 directory run with None => Ok [] | Some b => parse_log run b end.
Proof.
  unfold reload, load. pose proof (readFile_quiet f (pathForRun sha256 directory run)) as Hr.
  destruct (f !! pathForRun sha256 directory run) as [b|].
  - rewrite (io_bind_Ok _ _ _ (Some b) (Fs f [])); [done|]. apply try_catch_Ok. by rewrite (io_bind_Ok _ _ _ _ _ Hr).
  - rewrite (io_bind_Ok _ _ _ None (Fs f [])); [done|].
    by rewrite (try_catch_Err _ _ _ (Errno ENOENT) (Fs f [])) by (by apply io_bind_Err).
Qed.
End jsonl.
