(* ===== verification/EventStoresTheorems.v ===== *)
(** * What a client of the event stores can rely on

    The theorems about clients are proved against [EventStoreLaws] and instantiated
    with the memory store and the JSON Lines store; the last one says what an append
    leaves behind when the file system fails. *)
From S2P Require Import Prelude JsString JsNumber JsValue JsonText Canonical CanonicalSpec JsonRoundTrip.
From S2P Require Import Views Utf8 PersistenceJson PersistenceJsonSpec Events EventsSpec FileSystem.
From S2P Require Import EventStores EventLog EventStoresSpec.

(** ** Clients *)

(** A call of the interface, with the heap its arguments live in. *)
Inductive store_call :=
  | Append (h : heap) (outside : loc → jsstr → value) (runId expectedVersion events : value)
  | Read (runId fromSequence : view value).

Inductive outcome :=
  | Appended (r : result exn Z)
  | Yielded (r : result exn (list json)).

(** The arguments of a call are data that [structuredClone] can copy. *)
Definition call_ok (c : store_call) : Prop :=
  match c with
  | Append h outside _ _ events =>
      heap_wf h ∧ heap_data_ok h ∧ (∀ l k, value_okb (outside l k) = true) ∧
      value_okb events = true ∧ cloneable h outside (clone_fuel h 1) [events] [] = true
  | Read _ _ => True
  end.

Definition serve {S} `{EventStore S} (c : store_call) (s : S) : outcome * S :=
  match c with
  | Append h outside runId expectedVersion events =>
      match prepareAppendRequest h outside runId expectedVersion events with
      | Err e => (Appended (Err e), s)
      | Ok q => let '(r, s) := es_append q s in (Appended r, s)
      end
  | Read runId fromSequence =>
      match validateReadRequest runId fromSequence with
      | Err e => (Yielded (Err e), s)
      | Ok (run, from) => let '(r, s) := es_read run from s in (Yielded r, s)
      end
  end.

Fixpoint session {S} `{EventStore S} (calls : list store_call) (s : S) : list outcome * S :=
  match calls with
  | [] => ([], s)
  | c :: calls =>
      let '(o, s) := serve c s in
      let '(os, s) := session calls s in (o :: os, s)
  end.

(** The same calls on the specification. *)
Definition log_event_store : EventStore event_log := {|
  es_append q L := log_append L q;
  es_read run from L := (Ok (log_read L run from), L)
|}.
Definition log_serve := @serve event_log log_event_store.
Definition log_session := @session event_log log_event_store.
Definition memory_serve := @serve memory_store memory_event_store.
Definition memory_session := @session memory_store memory_event_store.
Definition jsonl_serve (sha256 : list N → jsstr) (directory : jsstr) :=
  @serve fs (jsonl_event_store sha256 directory).
Definition jsonl_session (sha256 : list N → jsstr) (directory : jsstr) :=
  @session fs (jsonl_event_store sha256 directory).

Lemma validateReadRequest_Ok {V} (runId fromSequence : view V) run from :
  validateReadRequest runId fromSequence = Ok (run, from) → safe_identifier run = true ∧ (0 <= from)%Z.
Proof.
  unfold validateReadRequest. destruct (assertSafeIdentifier _ _) as [run'|] eqn:Er; [|done].
  apply assertSafeIdentifier_Ok in Er as [_ Hrun]. cbn [mbind result_bind].
  destruct fromSequence as [| | |n| | |]; try done.
  destruct (safe_integer_from _ _) eqn:Es; [|done]. intros [= <- <-]. split; [done|].
  unfold safe_integer_from in Es. apply andb_true_iff in Es as [Hs Hl].
  rewrite num_ltb_const in Hl by (done || by apply num_safe_integer_integer).
  by apply negb_true_iff, Z.ltb_ge in Hl.
Qed.

Section client.
Context {S : Type} `{EventStoreLaws S represents}.

Lemma serve_log c L s :
  represents L s → call_ok c →
  (serve c s).1 = (log_serve c L).1 ∧ represents (log_serve c L).2 (serve c s).2.
Proof.
  intros Hr Hc. unfold log_serve. destruct c as [h outside runId version events|runId from]; cbn [serve].
  - destruct (prepareAppendRequest _ _ _ _ _) as [q|] eqn:Eq; [|done].
    destruct Hc as (Hwf & Hd & Ho & Hv & Hcl).
    pose proof (prepareAppendRequest_ok h outside Hwf Hd Ho _ _ _ q Hcl Hv Eq) as Hq.
    destruct (law_append L s q Hr Hq) as [H1 H2].
    cbn [es_append log_event_store] in *.
    destruct (es_append q s) as [r s'], (log_append L q) as [r' L']. cbn [fst snd] in *. by subst.
  - destruct (validateReadRequest runId from) as [[run n]|] eqn:Er; [|done].
    apply validateReadRequest_Ok in Er as [Hrun Hn].
    destruct (law_read L s run n Hr Hrun Hn) as [H1 H2].
    destruct (es_read run n s) as [r s']. cbn [fst snd es_read log_event_store] in *. by subst.
Qed.

Lemma session_log calls L s :
  represents L s → Forall call_ok calls →
  (session calls s).1 = (log_session calls L).1 ∧ represents (log_session calls L).2 (session calls s).2.
Proof.
  unfold log_session.
  intros Hr Hc. revert L s Hr. induction Hc as [|c calls Hc Hcs IH]; intros L s Hr; [done|].
  cbn [session]. destruct (serve_log c L s Hr Hc) as [H1 H2].
  unfold log_serve in *. destruct (serve c s) as [o s'], (@serve _ log_event_store c L) as [o' L']. cbn [fst snd] in *. subst.
  destruct (IH L' s' H2) as [H3 H4].
  destruct (session calls s') as [os s''], (@session _ log_event_store calls L') as [os' L'']. cbn [fst snd] in *. by subst.
Qed.

(** An append a store accepts, and what is read from it afterwards *)
Lemma append_then_read L s q new :
  represents L s → request_ok q → version L (a_runId q) = a_expected q → validated q = Ok new →
  (es_append q s).1 = Ok (a_expected q + Z.of_nat (length new))%Z ∧
  (es_read (a_runId q) (a_expected q + 1) (es_append q s).2).1 = Ok new.
Proof.
  intros Hr Hq Hv Hnew. destruct (law_append L s q Hr Hq) as [H1 H2]. rewrite H1.
  pose proof Hq as (Hrun & Hexp & _).
  assert (0 <= a_expected q + 1)%Z as Hfrom by lia.
  destruct (law_read _ _ _ _ H2 Hrun Hfrom) as [H3 _]. rewrite H3. clear H1 H2 H3.
  unfold log_append, log_read. rewrite Hv, Z.eqb_refl, Hnew. cbn [negb].
  unfold version in Hv. destruct new as [|e new]; cbn [fst snd].
  - split; [f_equal; simpl; lia|]. rewrite drop_ge by lia. done.
  - split; [done|]. rewrite stream_of_insert, decide_True by done.
    replace (Z.to_nat (a_expected q + 1)) with (length (stream_of L (a_runId q))) by lia.
    by rewrite drop_app_length.
Qed.

(** A second append with the version the first one consumed *)
Lemma append_twice L s q q' new :
  represents L s → request_ok q → request_ok q' → validated q = Ok new → new ≠ [] →
  version L (a_runId q) = a_expected q →
  a_runId q' = a_runId q → a_expected q' = a_expected q →
  (es_append q' (es_append q s).2).1 =
    Err (conflict (a_runId q) (a_expected q) (a_expected q + Z.of_nat (length new))).
Proof.
  intros Hr Hq Hq' Hnew Hne Hv Erun Eexp. destruct (law_append L s q Hr Hq) as [_ H2].
  destruct (law_append _ _ q' H2 Hq') as [H3 _]. rewrite H3. unfold log_append at 1.
  assert (version (log_append L q).2 (a_runId q) = (a_expected q + Z.of_nat (length new))%Z) as Hv'.
  { unfold log_append. rewrite Hv, Z.eqb_refl, Hnew. cbn [negb]. destruct new as [|e new]; [done|].
    cbn [snd]. unfold version in *. rewrite stream_of_insert, decide_True, length_app by done. lia. }
  rewrite Erun, Hv', Eexp. destruct (Z.eqb_spec (a_expected q + Z.of_nat (length new)) (a_expected q)) as [E|E];
    [|done]. destruct new; [done|]. simpl in E. lia.
Qed.
End client.

(** ** The stores *)

(** What a call on a store is, in the names of the packages. *)
Lemma serve_memory h outside runId version events (s : memory_store) :
  memory_serve (Append h outside runId version events) s =
    let '(r, s') := MemoryEventStore_append s h outside runId version events in (Appended r, s').
Proof. unfold memory_serve. cbn [serve]. unfold MemoryEventStore_append. by destruct (prepareAppendRequest _ _ _ _ _). Qed.
Lemma serve_jsonl sha256 directory h outside runId version events (w : fs) :
  jsonl_serve sha256 directory (Append h outside runId version events) w =
    let '(r, w') := JsonlEventStore_append sha256 directory h outside runId version events w in (Appended r, w').
Proof.
  unfold jsonl_serve. cbn [serve]. unfold JsonlEventStore_append. destruct (prepareAppendRequest _ _ _ _ _); [|done].
  by rewrite (io_bind_Ok (lift _) _ _ _ w) by done.
Qed.
Lemma serve_jsonl_read sha256 directory runId from (w : fs) :
  jsonl_serve sha256 directory (Read runId from) w =
    let '(r, w') := JsonlEventStore_read sha256 directory runId from w in (Yielded r, w').
Proof.
  unfold jsonl_serve. cbn [serve]. unfold JsonlEventStore_read. destruct (validateReadRequest _ _) as [[run n]|]; [|done].
  by rewrite (io_bind_Ok (lift _) _ _ (run, n) w) by done.
Qed.
Lemma serve_memory_read runId from (s : memory_store) :
  memory_serve (Read runId from) s = (Yielded (MemoryEventStore_read s runId from), s).
Proof. unfold memory_serve. cbn [serve]. unfold MemoryEventStore_read. by destruct (validateReadRequest _ _) as [[run n]|]. Qed.

Lemma empty_log_ok : log_ok ∅.
Proof. intros run i e. unfold stream_of, event_log. by rewrite lookup_empty. Qed.
Lemma empty_files sha256 directory : files_represent sha256 directory ∅ (Fs ∅ []).
Proof. intros run Hrun. unfold stream_of, event_log. by rewrite !lookup_empty. Qed.

(** *** A sample caller *)

Definition sample_run : jsstr := js "run-1".
Definition sample_event (sequence : Z) : object := plain_object
  [(js "sequence", Data (VNum (num_of_Z sequence)) true);
   (js "apiVersion", Data (VStr GRAPH_EVENT_API_VERSION) true);
   (js "eventId", Data (VStr (js "e")) true);
   (js "type", Data (VStr (js "RunStarted")) true);
   (js "timestamp", Data (VStr (js "2024-02-29T23:59:59.5Z")) true);
   (js "runId", Data (VStr sample_run) true);
   (js "graphRevision", Data (VNum (num_of_Z 1)) true);
   (js "data", Data (VObj 3) true)].
Definition sample_heap : heap :=
  <[1%positive := plain_array [VObj 2; VObj 4]]>
  (<[2%positive := sample_event 0]>
  (<[4%positive := sample_event 1]>
  (<[3%positive := plain_object [(js "z", Data VNull true); (js "a", Data (VBool true) true)]]> ∅))).
Definition nowhere (l : loc) (k : jsstr) : value := VUndefined.
Definition sample_append : store_call :=
  Append sample_heap nowhere (VStr sample_run) (VNum (num_of_Z (-1))) (VObj 1).
Definition sample_read : store_call := Read (WStr sample_run) (WNum (num_of_Z 1)).

Lemma sample_append_ok : call_ok sample_append.
Proof.
  split_and!; [by apply (bool_decide_unpack _); vm_compute..|done|done|by vm_compute].
Qed.

(** *** The contract of event-store.ts *)

(** C17. The two stores keep the contract of the event log.  For every sequence of
    appends and reads of callers with copyable data, starting empty, the memory
    store and the JSON Lines store on a file system without failures give the
    outcomes of the log: versions, conflicts, validation issues and events read
    back from the bytes of the files are the same. *)
Theorem event_stores_implement_log sha256 directory calls :
  collision_free sha256 → Forall call_ok calls →
  (memory_session calls ∅).1 = (log_session calls ∅).1 ∧
  (jsonl_session sha256 directory calls (Fs ∅ [])).1 = (log_session calls ∅).1.
Proof.
  intros Hcf Hc. split.
  - apply (@session_log _ memory_event_store memory_represents memory_laws calls ∅ ∅); [|done].
    split; [done|apply empty_log_ok].
  - apply (@session_log fs (jsonl_event_store sha256 directory) (jsonl_represents sha256 directory)
      (jsonl_laws sha256 directory Hcf) calls ∅ (Fs ∅ [])); [|done].
    split_and!; [apply empty_log_ok|done|apply empty_files].
Qed.

(** A digest without collisions, for the examples. *)
Definition plain_digest (bytes : list N) : jsstr := bytes.

Lemma safe_identifier_printable s : safe_identifier s = true → printable s.
Proof.
  unfold safe_identifier, SAFE_IDENTIFIER. intros H. apply andb_true_iff in H as [H _].
  apply andb_true_iff in H as [H _]. revert H. unfold matches_ident.
  destruct s as [|c s]; [done|]. intros H. bool_hyps.
  assert (∀ c, is_ident_char c = true → (32 ≤ c < 127)%N) as Hc.
  { intros u. unfold is_ident_char, is_alnum, is_alpha, is_lower, is_upper, is_digit. intros Hu.
    repeat first [apply orb_true_iff in Hu as [Hu|Hu] | apply andb_true_iff in Hu as [? Hu]]; bool_hyps; lia. }
  apply Forall_cons. split.
  - apply Hc. unfold is_ident_char. by match goal with H : is_alnum c = true |- _ => rewrite H end.
  - apply Forall_forall. intros u Hu. apply Hc.
    match goal with H : forallb _ _ = true |- _ => rewrite forallb_forall in H; apply H end.
    by apply list_elem_of_In.
Qed.
Lemma plain_digest_collision_free : collision_free plain_digest.
Proof.
  intros r1 r2 H1 H2. unfold identifierHash, plain_digest.
  by rewrite !utf8_encode_printable by by apply safe_identifier_printable.
Qed.

Lemma event_stores_implement_log_witness :
  (memory_session [sample_append; sample_append; sample_read] ∅).1 =
    (jsonl_session plain_digest (js "/d") [sample_append; sample_append; sample_read] (Fs ∅ [])).1 ∧
  (λ o, match o with Yielded (Ok l) => length l | _ => 0%nat end) <$>
    (log_session [sample_append; sample_append; sample_read] ∅).1 = [0; 0; 1]%nat.
Proof.
  assert (Forall call_ok [sample_append; sample_append; sample_read]) as Hc
    by (do 2 (apply Forall_cons_2; [exact sample_append_ok|]); by apply Forall_singleton).
  pose proof (event_stores_implement_log plain_digest (js "/d") _ plain_digest_collision_free Hc) as [H1 H2].
  split; [by rewrite H1, H2|vm_compute; reflexivity].
Defined.

(** *** Streams *)

Lemma log_append_prefix L q run : stream_of L run `prefix_of` stream_of (log_append L q).2 run.
Proof.
  unfold log_append. destruct (negb _); [done|]. destruct (validated q) as [[|e new]|]; [done| |done].
  cbn [snd]. rewrite stream_of_insert. case_decide as H; [subst; by eexists|done].
Qed.

Lemma log_session_prefix calls L run : stream_of L run `prefix_of` stream_of (log_session calls L).2 run.
Proof.
  revert L. induction calls as [|c calls IH]; intros L; [done|].
  unfold log_session in *. cbn [session].
  assert (stream_of L run `prefix_of` stream_of (@serve _ log_event_store c L).2 run) as Hc.
  { destruct c as [h outside runId version events|runId from]; cbn [serve].
    - destruct (prepareAppendRequest _ _ _ _ _) as [q|]; [|done]. cbn [es_append log_event_store].
      pose proof (log_append_prefix L q run). by destruct (log_append L q).
    - by destruct (validateReadRequest runId from) as [[? ?]|]. }
  destruct (@serve _ log_event_store c L) as [o L']. specialize (IH L').
  destruct (@session _ log_event_store calls L') as [os L'']. cbn [snd] in *. by etrans.
Qed.

Lemma log_session_ok calls L : log_ok L → Forall call_ok calls → log_ok (log_session calls L).2.
Proof.
  intros HL Hc. eapply (@session_log _ memory_event_store _ memory_laws calls L L); [by split|done].
Qed.

Lemma memory_session_state calls L :
  log_ok L → Forall call_ok calls → (memory_session calls L).2 = (log_session calls L).2.
Proof.
  intros HL Hc. eapply (@session_log _ memory_event_store _ memory_laws calls L L); [by split|done].
Qed.

(** The invariant of the memory store.  After any calls, the stream of a run is
    numbered from zero without gaps and holds valid events of that run in canonical
    form; [version] gives the sequence of its last event; and later calls only add
    events at its end. *)
Theorem memory_streams_grow calls more run :
  Forall call_ok calls → Forall call_ok more → safe_identifier run = true →
  let store := (memory_session calls ∅).2 in
  let stream := default [] (store !! run) in
  stream_from run 0 stream ∧
  MemoryEventStore_version store (WStr run : view value) =
    Ok (match last stream with Some e => event_sequence json_reader (json_view e) | None => -1 end)%Z ∧
  stream `prefix_of` default [] ((memory_session more store).2 !! run).
Proof.
  intros Hc Hm Hrun store stream.
  pose proof (log_session_ok calls ∅ empty_log_ok Hc) as HL.
  assert (store = (log_session calls ∅).2) as Hs by by apply memory_session_state, Hc; apply empty_log_ok.
  unfold stream. clear stream. rewrite Hs. clearbody store. clear Hs store. generalize dependent ((log_session calls ∅).2).
  intros L HL. change (default [] (L !! run)) with (stream_of L run). split; [apply HL|]. split.
  - unfold MemoryEventStore_version, assertSafeIdentifier. rewrite Hrun. cbn [mbind result_bind].
    change (default [] (L !! run)) with (stream_of L run).
    destruct (last (stream_of L run)) as [e|] eqn:El; f_equal.
    + by rewrite (stored_sequence _ _ _ (log_version L run e HL El)).
    + apply last_None in El. by rewrite El.
  - rewrite memory_session_state by done. apply log_session_prefix.
Qed.

Lemma memory_streams_grow_witness :
  let store := (memory_session [sample_append] ∅).2 in
  length (default [] (store !! sample_run)) = 2%nat ∧
  MemoryEventStore_version store (WStr sample_run : view value) = Ok 1%Z.
Proof.
  assert (Forall call_ok [sample_append]) as Hc by (apply Forall_singleton; exact sample_append_ok).
  pose proof (memory_streams_grow [sample_append] [sample_append] sample_run Hc Hc eq_refl) as (_ & Hv & _).
  split; [vm_compute; reflexivity|]. cbv zeta in Hv. etrans; [exact Hv|]. vm_compute; reflexivity.
Defined.

(** Appended events are read back from the bytes of the file as they were
    validated, in canonical form, and of two appends that name the same version
    only the first one that adds events succeeds: the second is refused with the
    version the first one made. *)
Theorem jsonl_append_then_read sha256 directory L f0 q new :
  collision_free sha256 → log_ok L → files_represent sha256 directory L (Fs f0 []) → request_ok q →
  version L (a_runId q) = a_expected q → validated q = Ok new → new ≠ [] →
  let '(r, w) := jsonl_append sha256 directory q (Fs f0 []) in
  r = Ok (a_expected q + Z.of_nat (length new))%Z ∧
  (jsonl_read sha256 directory (a_runId q) (a_expected q + 1) w).1 = Ok new ∧
  ∀ q', request_ok q' → a_runId q' = a_runId q → a_expected q' = a_expected q →
    (jsonl_append sha256 directory q' w).1 =
      Err (conflict (a_runId q) (a_expected q) (a_expected q + Z.of_nat (length new))).
Proof.
  intros Hcf HL Hf Hq Hv Hnew Hne.
  pose proof (jsonl_laws sha256 directory Hcf) as Hlaws.
  assert (jsonl_represents sha256 directory L (Fs f0 [])) as Hr by done.
  destruct (@append_then_read _ _ _ Hlaws L _ q new Hr Hq Hv Hnew) as [H1 H2].
  assert (∀ q', request_ok q' → a_runId q' = a_runId q → a_expected q' = a_expected q →
    (jsonl_append sha256 directory q' (jsonl_append sha256 directory q (Fs f0 [])).2).1 =
      Err (conflict (a_runId q) (a_expected q) (a_expected q + Z.of_nat (length new)))) as H3.
  { intros q' Hq' Erun Eexp. exact (@append_twice _ _ _ Hlaws L _ q q' new Hr Hq Hq' Hnew Hne Hv Erun Eexp). }
  cbn [es_append es_read jsonl_event_store] in H1, H2.
  by destruct (jsonl_append sha256 directory q (Fs f0 [])) as [r w].
Qed.

Definition sample_request : append_request :=
  AppendRequest sample_run (-1) (clone_reader sample_heap nowhere) [Some (VObj 2); Some (VObj 4)].
Lemma sample_request_ok : request_ok sample_request.
Proof.
  destruct sample_append_ok as (Hwf & Hd & Ho & Hv & Hcl).
  by apply (prepareAppendRequest_ok sample_heap nowhere Hwf Hd Ho (VStr sample_run) (VNum (num_of_Z (-1))) (VObj 1)).
Qed.
Definition sample_stored : list json := match validated sample_request with Ok new => new | Err _ => [] end.

Lemma jsonl_append_then_read_witness :
  let w := (jsonl_append plain_digest (js "/d") sample_request (Fs ∅ [])).2 in
  length sample_stored = 2%nat ∧
  (jsonl_read plain_digest (js "/d") sample_run 0 w).1 = Ok sample_stored ∧
  (jsonl_append plain_digest (js "/d") sample_request w).1 = Err (conflict sample_run (-1) 1).
Proof.
  assert (validated sample_request = Ok sample_stored) as Hnew by (vm_compute; reflexivity).
  assert (length sample_stored = 2%nat) as Hlen by (vm_compute; reflexivity).
  assert (sample_stored ≠ []) as Hne by (intros E; rewrite E in Hlen; discriminate).
  pose proof (jsonl_append_then_read plain_digest (js "/d") ∅ ∅ sample_request sample_stored
    plain_digest_collision_free empty_log_ok (empty_files _ _) sample_request_ok eq_refl Hnew Hne) as H.
  destruct (jsonl_append plain_digest (js "/d") sample_request (Fs ∅ [])) as [r w].
  destruct H as (_ & H1 & H2). split; [exact Hlen|]. split; [exact H1|].
  etrans; [exact (H2 sample_request sample_request_ok eq_refl eq_refl)|]. rewrite Hlen. reflexivity.
Defined.

(** *** Failures *)

Section failures.
Context (sha256 : list N → jsstr) (directory : jsstr).

Lemma reload_stream f run stream :
  stream_from run 0 stream → f !! pathForRun sha256 directory run = stream_file stream →
  reload sha256 directory f run = Ok stream.
Proof.
  intros Hs Hf. rewrite reload_file, Hf. destruct stream as [|e stream]; [done|].
  by apply parse_log_stream.
Qed.

Lemma stream_file_bytes stream : default [] (stream_file stream) = log_bytes stream.
Proof. by destruct stream. Qed.

Lemma grown_reload f0 f run stream new :
  stream_from run 0 (stream ++ new) → f0 !! pathForRun sha256 directory run = stream_file stream →
  grown f0 (pathForRun sha256 directory run) (log_bytes new) f →
  (∃ j, reload sha256 directory f run = Ok (stream ++ take j new)) ∨
  ∃ reason line, reload sha256 directory f run = Err (corrupt_log run reason line).
Proof.
  intros Hs Hf0 [_ Hf]. rewrite Hf0, stream_file_bytes in Hf. destruct Hf as [Hf|[k Hf]].
  - left. exists 0%nat. rewrite take_0, app_nil_r. apply reload_stream; [|done].
    intros i e He. apply Hs. by apply lookup_app_l_Some.
  - rewrite reload_file, Hf. by apply parse_log_append.
Qed.

Lemma stream_from_prefix run k a b : stream_from run k b → a `prefix_of` b → stream_from run k a.
Proof. intros Hb [rest ->] i e He. apply Hb. by apply lookup_app_l_Some. Qed.

(** The stream after the append, with the events that were validated. *)
Lemma log_append_stream L q new :
  new = [] ∨ version L (a_runId q) = a_expected q ∧ validated q = Ok new →
  ∃ rest, stream_of (log_append L q).2 (a_runId q) = (stream_of L (a_runId q) ++ new) ++ rest.
Proof.
  intros [->|[Hv Hnew]].
  - destruct (log_append_prefix L q (a_runId q)) as [rest E]. exists rest. by rewrite app_nil_r.
  - exists []. unfold log_append. rewrite Hv, Z.eqb_refl, Hnew. cbn [negb].
    destruct new as [|e new]; [by rewrite !app_nil_r|]. cbn [snd].
    by rewrite stream_of_insert, decide_True, app_nil_r.
Qed.

Lemma append_outcome_Ok L f0 q v new f :
  collision_free sha256 → safe_identifier (a_runId q) = true →
  log_ok (log_append L q).2 → files_represent sha256 directory L (Fs f0 []) →
  Ok v = (log_append L q).1 → validated q = Ok new →
  (new = [] ∧ f = f0 ∨ new ≠ [] ∧ full f0 (pathForRun sha256 directory (a_runId q)) (log_bytes new) f) →
  files_represent sha256 directory (log_append L q).2 (Fs f []).
Proof.
  intros Hcf Hrun HL Hf Hr Hnew Hfull run Hsafe. cbn [files].
  pose proof (stream_from_ok _ _ _ (HL (a_runId q))) as Hok.
  unfold log_append in *. destruct (version L (a_runId q) =? a_expected q)%Z; [|done].
  cbn [negb] in *. rewrite Hnew in *. destruct Hfull as [[-> ->]|[Hne [Hother Hpath]]]; [by apply Hf|].
  destruct new as [|e new]; [done|]. cbn [snd] in *. rewrite stream_of_insert in *.
  rewrite decide_True in Hok by done. apply Forall_app in Hok as [Hok _]. case_decide as Hrr.
  - subst run. rewrite Hpath, Hf, stream_file_bytes, <- log_bytes_app by done.
    by destruct (stream_of L (a_runId q)).
  - rewrite Hother; [by apply Hf|]. intros E. by apply Hrr, (pathForRun_inj sha256 directory).
Qed.
End failures.

(** C18. An append that fails half-way loses nothing.  Whatever calls of the file
    system fail, and whatever part of the bytes a failing write leaves behind: the
    other runs load unchanged; the run loads as its old events followed by some of
    the new ones, or is reported corrupt; and an append that returns a version has
    written every event. *)
Theorem jsonl_append_survives_failures sha256 directory L f0 failures q :
  collision_free sha256 → log_ok L → files_represent sha256 directory L (Fs f0 []) → request_ok q →
  faults_ok (Fs f0 failures) →
  let '(r, w) := jsonl_append sha256 directory q (Fs f0 failures) in
  let after := (log_append L q).2 in
  (∀ run, safe_identifier run = true → run ≠ a_runId q →
    reload sha256 directory (files w) run = Ok (stream_of L run)) ∧
  ((∃ j, (length (stream_of L (a_runId q)) <= j)%nat ∧
      reload sha256 directory (files w) (a_runId q) = Ok (take j (stream_of after (a_runId q)))) ∨
   ∃ reason line, reload sha256 directory (files w) (a_runId q) = Err (corrupt_log (a_runId q) reason line)) ∧
  (∀ v, r = Ok v → r = (log_append L q).1 ∧ files_represent sha256 directory after (Fs (files w) [])).
Proof.
  intros Hcf HL Hf Hq Hfaults.
  pose proof (jsonl_append_triple sha256 directory L f0 q HL Hf Hq (Fs f0 failures) (conj eq_refl Hfaults)) as H.
  destruct (jsonl_append sha256 directory q (Fs f0 failures)) as [r w]. cbn [fst snd] in H. cbv zeta.
  destruct H as (new & Hnew & Hg & Hok). split_and!.
  - intros run Hr Hne. apply reload_stream; [apply HL|]. destruct Hg as [Hother _].
    rewrite Hother; [by apply Hf|]. intros E. by apply Hne, (pathForRun_inj sha256 directory); [..|apply Hq|].
  - destruct (log_append_stream L q new Hnew) as [rest E].
    pose proof (log_append_ok L q Hq HL (a_runId q)) as Hs. rewrite E in *.
    eapply stream_from_prefix in Hs; [|by eexists].
    destruct (grown_reload sha256 directory f0 (files w) (a_runId q) _ new Hs) as [[j Hj]|Hc];
      [apply Hf, Hq|exact Hg| |by right].
    left. exists (length (stream_of L (a_runId q)) + Nat.min j (length new))%nat. split; [lia|].
    rewrite Hj. f_equal. rewrite <- (assoc_L (++)), take_app_add, take_app_le by lia.
    by rewrite <- take_take, firstn_all.
  - intros v ->. destruct (Hok v eq_refl) as (Hr & Hval & Hfull). split; [done|].
    eapply append_outcome_Ok; [done|apply Hq|by apply log_append_ok|done..].
Qed.

Lemma jsonl_append_survives_failures_witness :
  let failures := [None; None; None; None; Some (Fault (js "ENOSPC") 215)] in
  let w := (jsonl_append plain_digest (js "/d") sample_request (Fs ∅ failures)).2 in
  reload plain_digest (js "/d") (files w) sample_run = Ok (take 1 sample_stored) ∧
  ((∃ j, reload plain_digest (js "/d") (files w) sample_run =
     Ok (take j (stream_of (log_append ∅ sample_request).2 sample_run))) ∨
   ∃ reason line, reload plain_digest (js "/d") (files w) sample_run = Err (corrupt_log sample_run reason line)).
Proof.
  split; [vm_compute; reflexivity|].
  assert (faults_ok (Fs ∅ [None; None; None; None; Some (Fault (js "ENOSPC") 215)])) as Hf
    by (repeat constructor; naive_solver).
  pose proof (jsonl_append_survives_failures plain_digest (js "/d") ∅ ∅ _ sample_request
    plain_digest_collision_free empty_log_ok (empty_files _ _) sample_request_ok Hf) as H.
  cbv zeta. destruct (jsonl_append _ _ _ _) as [r w]. destruct H as (_ & [(j & _ & Hj)|Hc] & _).
  - left. exists j. exact Hj.
  - right. exact Hc.
Defined.
