(* ===== verification/SerialQueue.v ===== *)
(** * The serial queue (packages/persistence/src/serial-queue.ts)

    The stores run their operations through a queue that lets the operations of one
    key run one after the other.  The queue is a step relation over the moments at
    which promises settle: a call chains its operation to the tail of its key, the
    operation starts when that tail is resolved, and the caller resumes, and cleans
    up, after its operation has settled.  Everything between two events is one
    synchronous stretch of the source; no order is assumed between events that are
    both possible. *)
From stdpp Require Import functions.
From S2P Require Import Prelude.

Section queue.
(** Keys, the state that the operations of a key share, and what an operation
    settles with: a value or a rejection. *)
Context {K : Type} `{Countable K} {St R : Type}.

(** An asynchronous operation: it settles, or it acts on the state of its key and
    awaits before it goes on. *)
Inductive op :=
  | Settle (r : R)
  | Act (f : St → St) (rest : St → op).

(** Running an operation alone. *)
Fixpoint run_op (o : op) (s : St) : R * St :=
  match o with
  | Settle r => (r, s)
  | Act f rest => run_op (rest s) (f s)
  end.

Inductive phase :=
  | Waiting
  | Running (o : op)
  | Settled (r : R).

(** A call of [run]: the tail it found, the progress of [result], whether [tail] has
    resolved, and whether the caller has been resumed. *)
Record task := Task {
  t_key : K;
  t_op : op;
  t_previous : option nat;
  t_phase : phase;
  t_tail : bool;
  t_returned : bool
}.

(** [#tails], where a tail is named by the call that made it, the calls so far, and
    the state the operations of each key work on. *)
Record queue := Queue {
  tails : gmap K nat;
  tasks : list task;
  states : K → St
}.

Definition empty_queue (init : K → St) : queue := Queue ∅ [] init.

Definition settled (t : task) : bool := match t_phase t with Settled _ => true | _ => false end.
Definition started (t : task) : bool := match t_phase t with Waiting => false | _ => true end.

Definition set_phase (p : phase) (t : task) : task :=
  Task (t_key t) (t_op t) (t_previous t) p (t_tail t) (t_returned t).
Definition set_tail (t : task) : task :=
  Task (t_key t) (t_op t) (t_previous t) (t_phase t) true (t_returned t).
Definition set_returned (t : task) : task :=
  Task (t_key t) (t_op t) (t_previous t) (t_phase t) (t_tail t) true.

Definition with_task (i : nat) (t : task) (q : queue) : queue :=
  Queue (tails q) (<[i := t]> (tasks q)) (states q).
Definition with_state (k : K) (s : St) (q : queue) : queue :=
  Queue (tails q) (tasks q) (<[k := s]> (states q)).

(** [run(key, operation)] up to its first [await] *)
Definition run (key : K) (operation : op) (q : queue) : queue :=
  Queue (<[key := length (tasks q)]> (tails q))
    (tasks q ++ [Task key operation (tails q !! key) Waiting false false]) (states q).

(** [previous.catch(() => undefined)] has resolved *)
Definition previous_resolved (q : queue) (t : task) : bool :=
  match t_previous t with
  | None => true
  | Some j => match tasks q !! j with Some t' => t_tail t' | None => false end
  end.

(** [.then(operation)]: the operation starts *)
Definition start (i : nat) (q : queue) : option queue :=
  t ← tasks q !! i;
  match t_phase t with
  | Waiting => if previous_resolved q t then Some (with_task i (set_phase (Running (t_op t)) t) q) else None
  | _ => None
  end.

(** The operation takes a step *)
Definition work (i : nat) (q : queue) : option queue :=
  t ← tasks q !! i;
  match t_phase t with
  | Running (Settle r) => Some (with_task i (set_phase (Settled r) t) q)
  | Running (Act f rest) =>
      let s := states q (t_key t) in
      Some (with_state (t_key t) (f s) (with_task i (set_phase (Running (rest s)) t) q))
  | _ => None
  end.

(** [result.then(() => undefined, () => undefined)]: the tail resolves *)
Definition resolve_tail (i : nat) (q : queue) : option queue :=
  t ← tasks q !! i;
  if settled t && negb (t_tail t) then Some (with_task i (set_tail t) q) else None.

(** [return await result] with its [finally] block *)
Definition return_result (i : nat) (q : queue) : option queue :=
  t ← tasks q !! i;
  if settled t && negb (t_returned t) then
    let q' := with_task i (set_returned t) q in
    Some (if bool_decide (tails q !! t_key t = Some i)
          then Queue (delete (t_key t) (tails q')) (tasks q') (states q') else q')
  else None.

(** ** Histories *)

Inductive event :=
  | Call (key : K) (operation : op)
  | Start (i : nat)
  | Work (i : nat)
  | Tail (i : nat)
  | Return (i : nat).

Definition step (e : event) (q : queue) : option queue :=
  match e with
  | Call key operation => Some (run key operation q)
  | Start i => start i q
  | Work i => work i q
  | Tail i => resolve_tail i q
  | Return i => return_result i q
  end.

Fixpoint steps (es : list event) (q : queue) : option queue :=
  match es with
  | [] => Some q
  | e :: es => q' ← step e q; steps es q'
  end.

(** The calls of a history, in order. *)
Definition calls (es : list event) : list (K * op) :=
  es ≫= λ e, match e with Call key operation => [(key, operation)] | _ => [] end.

Definition internal (e : event) : bool := match e with Call _ _ => false | _ => true end.

(** ** One operation after the other *)

Definition serial_step (k : K) (s : St) (c : K * op) : St :=
  if decide (c.1 = k) then (run_op c.2 s).2 else s.
(** The state of a key after calls, from [s]. *)
Definition serial (k : K) (s : St) (cs : list (K * op)) : St := foldl (serial_step k) s cs.
End queue.

Arguments op : clear implicits.
Arguments task : clear implicits.
Arguments queue _ {_ _} _ _.
Arguments event : clear implicits.
Arguments phase : clear implicits.
