(* ===== verification/SerialQueueSpec.v ===== *)
(** * The serial queue: order, exclusion, progress

    Three facts about every history of the queue.  The operations of a key run one at
    a time, in the order of their calls, so that a caller can read an operation of the
    stores as one atomic step.  Their effects and results are those of running them
    one after the other.  And once no call arrives, every history ends, with every
    caller resumed and no key remembered. *)
From stdpp Require Import functions.
From S2P Require Import Prelude SerialQueue.

Section spec.
Context {K : Type} `{Countable K} {St R : Type} (init : K → St).
Implicit Types (q : queue K St R) (t : task K St R) (k : K).

Definition reachable es q : Prop := steps es (empty_queue init) = Some q.

Definition task_at q (i : nat) t : Prop := tasks q !! i = Some t.

Lemma settled_started t : settled t = true → started t = true.
Proof. unfold settled, started. by destruct (t_phase t). Qed.

(** ** The order of the operations of a key *)

Record order_inv q : Prop := {
  oi_tail k i : tails q !! k = Some i →
    ∃ t, task_at q i t ∧ t_key t = k ∧ t_returned t = false ∧
      ∀ j t', task_at q j t' → t_key t' = k → j ≤ i;
  oi_free k : tails q !! k = None → ∀ j t, task_at q j t → t_key t = k → settled t = true;
  oi_previous i t j : task_at q i t → t_previous t = Some j →
    j < i ∧ ∃ t', task_at q j t' ∧ t_key t' = t_key t ∧
      ∀ m tm, j < m → m < i → task_at q m tm → t_key tm ≠ t_key t;
  oi_first i t : task_at q i t → t_previous t = None →
    ∀ j t', j < i → task_at q j t' → t_key t' = t_key t → settled t' = true;
  oi_fifo i t : task_at q i t → started t = true →
    ∀ j t', j < i → task_at q j t' → t_key t' = t_key t → settled t' = true;
  oi_flags i t : task_at q i t → t_tail t || t_returned t = true → settled t = true
}.

(** A change of one task that does not take it back. *)
Record advances t t' : Prop := {
  adv_key : t_key t' = t_key t;
  adv_op : t_op t' = t_op t;
  adv_previous : t_previous t' = t_previous t;
  adv_settled : settled t = true → settled t' = true
}.

Section update.
Context (q : queue K St R) (i : nat) (t t' : task K St R).
Hypothesis at_i : task_at q i t.
Hypothesis adv : advances t t'.
Context (ts : gmap K nat) (st : K → St).
Let q' : queue K St R := Queue ts (<[i := t']> (tasks q)) st.

Lemma update_old j u : task_at q' j u →
  ∃ u0, task_at q j u0 ∧ advances u0 u ∧ (j = i ∧ u0 = t ∧ u = t' ∨ j ≠ i ∧ u = u0).
Proof using at_i adv.
  unfold task_at, q'. cbn [tasks]. intros Hu. apply list_lookup_insert_Some in Hu as [(-> & -> & _)|[Hj Hu]].
  - exists t. split_and!; [done..|]. by left.
  - exists u. split_and!; [done|by split|]. by right.
Qed.

Lemma update_new j u0 : task_at q j u0 →
  ∃ u, task_at q' j u ∧ advances u0 u ∧ (j = i ∧ u0 = t ∧ u = t' ∨ j ≠ i ∧ u = u0).
Proof using at_i adv.
  unfold task_at, q'. cbn [tasks]. intros Hu. destruct (decide (j = i)) as [->|Hj].
  - pose proof at_i as E. unfold task_at in E. rewrite Hu in E. injection E as ->. exists t'.
    rewrite list_lookup_insert_eq by by eapply lookup_lt_Some. split_and!; [done..|]. by left.
  - exists u0. rewrite list_lookup_insert_ne by done. split_and!; [done|by split|]. by right.
Qed.

(** The order survives the change when an operation only starts in its turn, and the
    tail of a key is only forgotten when it has settled. *)
Lemma update_order :
  order_inv q →
  (started t' = true → ∀ j u, j < i → task_at q j u → t_key u = t_key t → settled u = true) →
  (t_tail t' || t_returned t' = true → settled t' = true) →
  (∀ k j, ts !! k = Some j → tails q !! k = Some j ∧ (j = i → t_returned t' = false)) →
  (∀ k, ts !! k = None → tails q !! k = None ∨ k = t_key t ∧ tails q !! k = Some i ∧ settled t = true) →
  order_inv q'.
Proof using at_i adv.
  intros [Ht Hf Hp H1 Hfifo Hfl] Hstart Hflags Hts Hdel. split.
  - intros k j Hj. destruct (Hts k j Hj) as [Hj' Hr]. destruct (Ht k j Hj') as (u0 & Hu0 & Hk & Hret & Hlast).
    destruct (update_new j u0 Hu0) as (u & Hu & Ha & Hcase). exists u. split; [done|].
    split; [by rewrite (adv_key _ _ Ha)|]. split; [destruct Hcase as [(-> & _ & ->)|[_ ->]]; [by apply Hr|done]|].
    intros m w Hw Hwk. destruct (update_old m w Hw) as (w0 & Hw0 & Haw & _).
    apply (Hlast m w0 Hw0). by rewrite <- (adv_key _ _ Haw).
  - intros k Hk j u Hu Huk. destruct (update_old j u Hu) as (u0 & Hu0 & Ha & _).
    rewrite (adv_key _ _ Ha) in Huk. apply (adv_settled _ _ Ha).
    destruct (Hdel k Hk) as [Hn|(-> & Hi & Hs)]; [by eapply Hf|].
    destruct (Ht _ _ Hi) as (t0 & _ & _ & _ & Hlast). specialize (Hlast j u0 Hu0 Huk).
    destruct (decide (j = i)) as [->|]; [unfold task_at in *; congruence|].
    eapply (Hfifo i t at_i); [by apply settled_started| |done|done]. lia.
  - intros j u m Hu Hm. destruct (update_old j u Hu) as (u0 & Hu0 & Ha & _).
    rewrite (adv_previous _ _ Ha) in Hm. destruct (Hp j u0 m Hu0 Hm) as (Hlt & w0 & Hw0 & Hwk & Hnone).
    split; [done|]. destruct (update_new m w0 Hw0) as (w & Hw & Haw & _). exists w. split; [done|].
    rewrite (adv_key _ _ Haw), (adv_key _ _ Ha). split; [done|].
    intros n x Hn1 Hn2 Hx. destruct (update_old n x Hx) as (x0 & Hx0 & Hax & _).
    rewrite (adv_key _ _ Hax). by eapply Hnone.
  - intros j u Hu Hn m w Hm Hw Hk. destruct (update_old j u Hu) as (u0 & Hu0 & Ha & _).
    destruct (update_old m w Hw) as (w0 & Hw0 & Haw & _). apply (adv_settled _ _ Haw).
    rewrite (adv_key _ _ Ha), (adv_key _ _ Haw) in Hk. rewrite (adv_previous _ _ Ha) in Hn. by apply (H1 j u0 Hu0 Hn m w0).
  - intros j u Hu Hs m w Hm Hw Hk. destruct (update_old j u Hu) as (u0 & Hu0 & Ha & Hcase).
    destruct (update_old m w Hw) as (w0 & Hw0 & Haw & _). apply (adv_settled _ _ Haw).
    rewrite (adv_key _ _ Ha), (adv_key _ _ Haw) in Hk.
    destruct Hcase as [(-> & -> & ->)|[_ ->]]; [by apply (Hstart Hs m w0)|by apply (Hfifo j u0 Hu0 Hs m w0)].
  - intros j u Hu Hfl'. destruct (update_old j u Hu) as (u0 & Hu0 & Ha & [(_ & _ & ->)|[_ ->]]);
      [by apply Hflags|by eapply Hfl].
Qed.
End update.

(** ** Every step keeps the order *)

Lemma run_order key operation q : order_inv q → order_inv (run key operation q).
Proof.
  intros [Ht Hf Hp H1 Hfifo Hfl]. set (n := length (tasks q)).
  set (new := Task key operation (tails q !! key) Waiting false false).
  assert (∀ i t, task_at (run key operation q) i t → task_at q i t ∧ i < n ∨ i = n ∧ t = new) as Hat.
  { intros i t Hi. unfold task_at, run in *. cbn [tasks] in Hi. apply lookup_snoc_Some in Hi as [[Hlt Hi]|[-> <-]]; auto. }
  assert (∀ i t, task_at q i t → task_at (run key operation q) i t ∧ i < n) as Hold.
  { intros i t Hi. pose proof (lookup_lt_Some _ _ _ Hi). split; [|done]. by apply lookup_app_l_Some. }
  assert (task_at (run key operation q) n new) as Hnew by by apply list_lookup_middle.
  split.
  - intros k i. cbn [tails run]. rewrite lookup_insert_Some. intros [[<- <-]|[Hk Hi]].
    + exists new. split_and!; [done..|]. intros j t Hj _. apply Hat in Hj as [[_ ?]|[-> _]]; lia.
    + destruct (Ht k i Hi) as (t & Hti & Htk & Hr & Hlast). exists t. apply Hold in Hti as [? _].
      split_and!; [done..|]. intros j t' Hj Hjk. apply Hat in Hj as [[Hj _]|[_ ->]]; [by eapply Hlast|done].
  - intros k. cbn [tails run]. rewrite lookup_insert_None. intros [Hk Hne] j t Hj Hjk.
    apply Hat in Hj as [[Hj _]|[_ ->]]; [by eapply Hf|done].
  - intros i t j Hi Hj. apply Hat in Hi as [[Hi Hlt]|[-> ->]].
    + destruct (Hp i t j Hi Hj) as (Hji & t' & Ht' & Hk & Hnone). split; [done|]. exists t'.
      split; [by apply Hold|]. split; [done|]. intros m tm Hm1 Hm2 Hm.
      apply Hat in Hm as [[Hm _]|[-> _]]; [by eapply Hnone|lia].
    + destruct (Ht key j Hj) as (t & Htj & Htk & _ & Hlast). destruct (Hold j t Htj) as [Htj' Hlt].
      split; [done|]. exists t. split; [done|]. split; [done|]. intros m tm Hm1 Hm2 Hm Hmk.
      apply Hat in Hm as [[Hm _]|[-> _]]; [|lia]. specialize (Hlast m tm Hm Hmk). lia.
  - intros i t Hi Hn j t' Hj Hj' Hk. apply Hat in Hi as [[Hi Hlt]|[-> ->]].
    + apply Hat in Hj' as [[Hj' _]|[-> _]]; [by apply (H1 i t Hi Hn j t')|lia].
    + apply Hat in Hj' as [[Hj' _]|[-> _]]; [by apply (Hf key Hn j t')|lia].
  - intros i t Hi Hs j t' Hj Hj' Hk. apply Hat in Hi as [[Hi Hlt]|[_ ->]]; [|done].
    apply Hat in Hj' as [[Hj' _]|[-> _]]; [by apply (Hfifo i t Hi Hs j t')|lia].
  - intros i t Hi Hfl'. apply Hat in Hi as [[Hi _]|[_ ->]]; [by eapply Hfl|done].
Qed.

(** What an internal step does to the task it is about. *)
Lemma internal_step e q q' :
  internal e = true → step e q = Some q' →
  ∃ i t t' ts st, task_at q i t ∧ q' = Queue ts (<[i := t']> (tasks q)) st ∧ advances t t' ∧
    match e with
    | Call _ _ => False
    | Start j => j = i ∧ ts = tails q ∧ st = states q ∧ t_phase t = Waiting ∧
        previous_resolved q t = true ∧ t' = set_phase (Running (t_op t)) t
    | Work j => j = i ∧ ts = tails q ∧
        ((∃ r, t_phase t = Running (Settle r) ∧ t' = set_phase (Settled r) t ∧ st = states q) ∨
         ∃ f rest, t_phase t = Running (Act f rest) ∧
           t' = set_phase (Running (rest (states q (t_key t)))) t ∧
           st = <[t_key t := f (states q (t_key t))]> (states q))
    | Tail j => j = i ∧ ts = tails q ∧ st = states q ∧ settled t = true ∧ t_tail t = false ∧ t' = set_tail t
    | Return j => j = i ∧ st = states q ∧ settled t = true ∧ t_returned t = false ∧ t' = set_returned t ∧
        (tails q !! t_key t = Some i ∧ ts = delete (t_key t) (tails q) ∨
         tails q !! t_key t ≠ Some i ∧ ts = tails q)
    end.
Proof.
  destruct e as [key operation|i|i|i|i]; [done|..]; intros _ Hs; cbn [step] in Hs;
    unfold start, work, resolve_tail, return_result in Hs;
    destruct (tasks q !! i) as [t|] eqn:Hi; try done; cbn [mbind option_bind] in Hs; exists i, t.
  - destruct (t_phase t) eqn:Ep; try done. destruct (previous_resolved q t) eqn:Er; [|done]. injection Hs as <-.
    eexists _, _, _. split_and!; try done. split; try done. unfold settled. by rewrite Ep.
  - destruct (t_phase t) as [|[r|f rest]|] eqn:Ep; try done; injection Hs as <-; eexists _, _, _.
    + split_and!; try done. left. by exists r.
    + split_and!; try done; [split; try done; unfold settled; by rewrite Ep|]. right. by exists f, rest.
  - destruct (settled t && negb (t_tail t)) eqn:E; [|done]. injection Hs as <-. bool_hyps.
    eexists _, _, _. by split_and!.
  - destruct (settled t && negb (t_returned t)) eqn:E; [|done]. bool_hyps.
    case_bool_decide as Ht; injection Hs as <-.
    + eexists _, (delete _ _), _. split_and!; try done. by left.
    + eexists _, _, _. split_and!; try done. by right.
Qed.

(** An operation whose previous tail has resolved comes after all earlier ones. *)
Lemma start_in_turn q i t : order_inv q → task_at q i t → previous_resolved q t = true →
  ∀ j u, j < i → task_at q j u → t_key u = t_key t → settled u = true.
Proof.
  intros Hinv Hi Hr j u Hj Hu Hk. unfold previous_resolved in Hr.
  destruct (t_previous t) as [p|] eqn:Ep; [|by apply (oi_first q Hinv i t Hi Ep j u)].
  destruct (oi_previous q Hinv i t p Hi Ep) as (Hp & w & Hw & Hwk & Hnone).
  unfold task_at in Hw. rewrite Hw in Hr.
  assert (settled w = true) as Hs by (apply (oi_flags q Hinv p w Hw); by rewrite Hr).
  destruct (Nat.lt_trichotomy j p) as [Hlt|[->|Hgt]].
  - apply (oi_fifo q Hinv p w Hw (settled_started _ Hs) j u Hlt Hu). congruence.
  - unfold task_at in *. congruence.
  - by destruct (Hnone j u Hgt Hj Hu).
Qed.

Lemma step_order e q q' : step e q = Some q' → order_inv q → order_inv q'.
Proof.
  intros Hs Hinv. destruct (internal e) eqn:Ee.
  2: { destruct e; try done. injection Hs as <-. by apply run_order. }
  destruct (internal_step e q q' Ee Hs) as (i & t & t' & ts & st & Hi & -> & Hadv & He).
  pose proof (oi_flags q Hinv i t Hi) as Hfl. pose proof (oi_fifo q Hinv i t Hi) as Hfifo.
  assert (∀ k, tails q !! k = Some i → t_returned t = false) as Hret.
  { intros k Hk. destruct (oi_tail q Hinv k i Hk) as (u & Hu & _ & Hr & _). unfold task_at in *. congruence. }
  assert (started t' = true → ∀ j u, j < i → task_at q j u → t_key u = t_key t → settled u = true) as Hstart.
  { intros _. destruct (started t) eqn:Est; [by apply Hfifo|]. destruct e as [|j|j|j|j]; [done|..].
    - apply (start_in_turn q i t Hinv Hi). apply He.
    - exfalso. unfold started in Est. destruct He as (_ & _ & [(r & E & _)|(f & rest & E & _)]); by rewrite E in Est.
    - destruct He as (_ & _ & _ & E & _). apply settled_started in E. congruence.
    - destruct He as (_ & _ & E & _). apply settled_started in E. congruence. }
  assert (t_tail t' || t_returned t' = true → settled t' = true) as Hflags.
  { intros Hf. apply (adv_settled _ _ Hadv). destruct e as [|j|j|j|j]; [done|..]; [|..|apply He|apply He];
      apply Hfl; [|destruct He as (_ & _ & [(r & _ & -> & _)|(f & rest & _ & -> & _)])]; try done.
    destruct He as (_ & _ & _ & _ & _ & ->). done. }
  assert (ts = tails q → t_returned t' = t_returned t → order_inv (Queue ts (<[i := t']> (tasks q)) st)) as Hsame.
  { intros -> Hr. apply (update_order q i t t' Hi Hadv); [done..| |by left].
    intros k j Hj. split; [done|]. intros ->. rewrite Hr. by eapply Hret. }
  destruct e as [|j|j|j|j]; [done|..].
  - apply Hsame; [apply He|]. destruct He as (_ & _ & _ & _ & _ & ->). done.
  - apply Hsame; [apply He|]. by destruct He as (_ & _ & [(r & _ & -> & _)|(f & rest & _ & -> & _)]).
  - apply Hsame; [apply He|]. by destruct He as (_ & _ & _ & _ & _ & ->).
  - destruct He as (_ & _ & Hset & _ & _ & Hts).
    apply (update_order q i t t' Hi Hadv); [done..| |].
    + intros k m Hj. destruct Hts as [[Ht ->]|[Ht ->]].
      * apply lookup_delete_Some in Hj as [Hk Hj]. split; [done|]. intros ->.
        destruct (oi_tail q Hinv k i Hj) as (u & Hu & Huk & _). unfold task_at in *. congruence.
      * split; [done|]. intros ->. destruct (oi_tail q Hinv k i Hj) as (u & Hu & Huk & _).
        unfold task_at in *. congruence.
    + intros k Hk. destruct Hts as [[Ht ->]|[Ht ->]]; [|by left].
      apply lookup_delete_None in Hk as [<-|Hk]; [by right|by left].
Qed.

Lemma reachable_ind (I : queue K St R → Prop) :
  I (empty_queue init) → (∀ e q q', step e q = Some q' → I q → I q') →
  ∀ es q, reachable es q → I q.
Proof.
  intros H0 Hstep es. unfold reachable. generalize dependent (empty_queue (St:=St) (R:=R) init).
  induction es as [|e es IH]; intros q0 H0 q; [by intros [= <-]|].
  cbn [steps]. destruct (step e q0) as [q1|] eqn:E; [|done]. apply IH. by eapply Hstep.
Qed.

Lemma empty_order : order_inv (empty_queue init).
Proof.
  split; unfold task_at; cbn [empty_queue tasks tails].
  - intros k i. by rewrite lookup_empty.
  - intros k _ j t. by rewrite lookup_nil.
  - intros i t j. by rewrite lookup_nil.
  - intros i t. by rewrite lookup_nil.
  - intros i t. by rewrite lookup_nil.
  - intros i t. by rewrite lookup_nil.
Qed.

Lemma reachable_order es q : reachable es q → order_inv q.
Proof. apply (reachable_ind order_inv empty_order step_order). Qed.

(** ** The effects of the operations of a key *)

Definition calls_of q : list (K * op St R) := (λ t, (t_key t, t_op t)) <$> tasks q.
(** The state of a key before the [i]-th call, had the calls run one by one. *)
Definition before q (i : nat) k : St := serial k (init k) (take i (calls_of q)).

Record value_inv q : Prop := {
  vi_task i t : task_at q i t →
    match t_phase t with
    | Waiting => True
    | Running o => run_op o (states q (t_key t)) = run_op (t_op t) (before q i (t_key t))
    | Settled r => (run_op (t_op t) (before q i (t_key t))).1 = r
    end;
  vi_state k i :
    (∀ j t, task_at q j t → t_key t = k → (j < i → settled t = true) ∧ (i ≤ j → started t = false)) →
    states q k = before q i k
}.

Lemma before_S q i t k : task_at q i t →
  before q (S i) k = if decide (t_key t = k) then (run_op (t_op t) (before q i k)).2 else before q i k.
Proof.
  intros Hi. unfold before, serial. rewrite (take_S_r _ _ (t_key t, t_op t)).
  - by rewrite foldl_snoc.
  - unfold calls_of. by rewrite list_lookup_fmap, Hi.
Qed.

Lemma before_past q i k : length (tasks q) ≤ i → before q i k = before q (length (tasks q)) k.
Proof. intros Hi. unfold before. rewrite !take_ge; [done|..]; unfold calls_of; rewrite length_fmap; lia. Qed.

Lemma before_skip q i j k :
  i ≤ j → (∀ m t, i ≤ m → m < j → task_at q m t → t_key t ≠ k) → before q j k = before q i k.
Proof.
  induction 1 as [|j Hij IH]; intros Hskip; [done|].
  destruct (tasks q !! j) as [t|] eqn:Ej.
  - rewrite (before_S q j t k Ej), decide_False by (by eapply (Hskip j t); [lia|lia|]).
    apply IH. intros m u Hm1 Hm2. apply Hskip; lia.
  - apply lookup_ge_None in Ej. rewrite before_past by lia. rewrite <- (before_past q j) by lia.
    apply IH. intros m u Hm1 Hm2. apply Hskip; lia.
Qed.

Lemma run_values key operation q : value_inv q → value_inv (run key operation q).
Proof.
  intros [Ht Hst]. set (new := Task key operation (tails q !! key) Waiting false false).
  assert (∀ i t, task_at q i t → task_at (run key operation q) i t) as Hold
    by (intros i t Hi; by apply lookup_app_l_Some).
  assert (task_at (run key operation q) (length (tasks q)) new) as Hnew by by apply list_lookup_middle.
  assert (∀ i k, i ≤ length (tasks q) → before (run key operation q) i k = before q i k) as Hbefore.
  { intros i k Hi. unfold before, calls_of. cbn [run tasks].
    by rewrite fmap_app, take_app_le by by rewrite length_fmap. }
  split.
  - intros i t Hi. unfold task_at, run in Hi. cbn [tasks] in Hi. apply lookup_snoc_Some in Hi as [[Hlt Hi]|[_ <-]]; [|done].
    rewrite Hbefore by lia. apply (Ht i t Hi).
  - intros k i Hk. cbn [states run]. destruct (decide (i ≤ length (tasks q))) as [Hi|Hi].
    + rewrite Hbefore by done. apply Hst. intros j t Hj. by apply Hk, Hold.
    + rewrite (before_skip (run key operation q) (length (tasks q)) i k); [|lia|].
      * rewrite Hbefore by done. apply Hst. intros j t Hj Hjk. destruct (Hk j t (Hold j t Hj) Hjk) as [H1 _].
        split; [intros _; apply H1|]; apply lookup_lt_Some in Hj; lia.
      * intros m t Hm1 Hm2 Hm Hmk. destruct (Hk m t Hm Hmk) as [H1 _]. specialize (H1 Hm2).
        unfold task_at, run in Hm. cbn [tasks] in Hm.
        apply lookup_snoc_Some in Hm as [[Hlt _]|[_ <-]]; [lia|done].
Qed.

(** At most one operation of a key is running. *)
Definition is_running t : bool := started t && negb (settled t).

Lemma exclusive q i j t u : order_inv q → task_at q i t → task_at q j u →
  is_running t = true → is_running u = true → t_key t = t_key u → i = j.
Proof.
  unfold is_running. intros Hinv Hi Hj Ht Hu Hk. bool_hyps. destruct (Nat.lt_trichotomy i j) as [Hlt|[->|Hlt]]; [|done|].
  - pose proof (oi_fifo q Hinv j u Hj ltac:(done) i t Hlt Hi Hk). congruence.
  - pose proof (oi_fifo q Hinv i t Hi ltac:(done) j u Hlt Hj ltac:(done)). congruence.
Qed.

Lemma running_phase t o : t_phase t = Running o → is_running t = true ∧ started t = true ∧ settled t = false.
Proof. unfold is_running, started, settled. by intros ->. Qed.

Lemma update_calls q i t t' ts st : task_at q i t → advances t t' →
  ∀ j k, before (Queue ts (<[i := t']> (tasks q)) st) j k = before q j k.
Proof.
  intros Hi Ha j k. unfold before, calls_of. cbn [tasks]. rewrite list_fmap_insert, list_insert_id; [done|].
  rewrite list_lookup_fmap, Hi. cbn. by rewrite (adv_key _ _ Ha), (adv_op _ _ Ha).
Qed.

Lemma internal_task_values e q q' i t :
  internal e = true → step e q = Some q' → order_inv q → value_inv q →
  task_at q' i t →
  match t_phase t with
  | Waiting => True
  | Running o => run_op o (states q' (t_key t)) = run_op (t_op t) (before q' i (t_key t))
  | Settled r => (run_op (t_op t) (before q' i (t_key t))).1 = r
  end.
Proof.
  intros Ee Hs Hinv [Ht Hst] Hit.
  destruct (internal_step e q q' Ee Hs) as (j & u & u' & ts & st & Hj & -> & Hadv & He).
  rewrite (update_calls q j u u' ts st Hj Hadv). cbn [states].
  destruct (update_old q j u u' Hj Hadv ts st i t Hit) as (t0 & Ht0 & _ & Hcase).
  pose proof (Ht i t0 Ht0) as Hv. destruct Hcase as [(-> & -> & ->)|[Hne ->]].
  - destruct e as [|m|m|m|m]; [done|..].
    + destruct He as (_ & _ & -> & Hw & Hr & ->). cbn. f_equal. apply Hst. intros n w Hn Hk. split.
      * intros Hlt. by apply (start_in_turn q j u Hinv Hj Hr n w).
      * intros Hle. destruct (started w) eqn:Ew; [exfalso|done].
        destruct (decide (n = j)) as [->|Hnj]; [unfold task_at, started in *; rewrite Hn in Hj; injection Hj as ->; by rewrite Hw in Ew|].
        assert (settled u = true) as Hsu by (apply (oi_fifo q Hinv n w Hn Ew j u); [lia|done..]).
        unfold settled in Hsu. by rewrite Hw in Hsu.
    + destruct He as (_ & _ & [(r & Hp & -> & ->)|(f & rest & Hp & -> & ->)]); rewrite Hp in Hv; cbn.
      * by rewrite <- Hv.
      * rewrite fn_lookup_insert. exact Hv.
    + by destruct He as (_ & _ & -> & _ & _ & ->).
    + by destruct He as (_ & -> & _ & _ & -> & _).
  - destruct (t_phase t0) as [|o|r] eqn:Ep; [done| |done].
    destruct (running_phase _ _ Ep) as (Hrun & _). rewrite <- Hv. f_equal.
    destruct e as [|m|m|m|m]; [done|..]; [by destruct He as (_ & _ & -> & _)| |
      by destruct He as (_ & _ & -> & _)|by destruct He as (_ & -> & _)].
    destruct He as (_ & _ & [(r & _ & _ & ->)|(f & rest & Hp & _ & ->)]); [done|].
    destruct (decide (t_key t0 = t_key u)) as [Hk|Hk]; [|by rewrite fn_lookup_insert_ne].
    destruct Hne. apply (exclusive q i j t0 u Hinv Ht0 Hj Hrun); [|done]. by eapply running_phase.
Qed.
Lemma internal_state e q q' k i :
  internal e = true → step e q = Some q' → order_inv q → value_inv q →
  (∀ j t, task_at q' j t → t_key t = k → (j < i → settled t = true) ∧ (i ≤ j → started t = false)) →
  states q' k = before q' i k.
Proof.
  intros Ee Hs Hinv [Ht Hst] Hk.
  destruct (internal_step e q q' Ee Hs) as (j & u & u' & ts & st & Hj & -> & Hadv & He).
  rewrite (update_calls q j u u' ts st Hj Hadv). cbn [states].
  assert (∀ n w, task_at q n w → n ≠ j → t_key w = k →
    (n < i → settled w = true) ∧ (i ≤ n → started w = false)) as Hother.
  { intros n w Hn Hne. apply Hk. unfold task_at in *. cbn [tasks]. by rewrite list_lookup_insert_ne. }
  assert (t_key u = k → (j < i → settled u' = true) ∧ (i ≤ j → started u' = false)) as Hself.
  { intros Hu. apply Hk; [|by rewrite (adv_key _ _ Hadv)]. apply list_lookup_insert_eq. by eapply lookup_lt_Some. }
  assert ((t_key u = k → (j < i → settled u = true) ∧ (i ≤ j → started u = false)) → states q k = before q i k) as Hsame.
  { intros Hu. apply Hst. intros n w Hn Hw. destruct (decide (n = j)) as [->|Hne]; [|by apply Hother].
    unfold task_at in *. rewrite Hn in Hj. injection Hj as ->. by apply Hu. }
  assert (settled u' = false → started u' = true → t_key u ≠ k) as Hidle.
  { intros H1 H2 Hu. destruct (Hself Hu) as [H3 H4]. destruct (decide (j < i)) as [|Hge];
      [rewrite H3 in H1 by done; done|]. rewrite H4 in H2 by lia. done. }
  destruct e as [|m|m|m|m]; [done|..].
  - destruct He as (_ & _ & -> & _ & _ & ->). apply Hsame. intros Hu. by destruct Hidle.
  - destruct He as (_ & _ & [(r & Hp & -> & ->)|(f & rest & Hp & -> & ->)]).
    + destruct (decide (t_key u = k)) as [Hu|Hu]; [|by apply Hsame]. destruct (Hself Hu) as [_ Hlt].
      assert (j < i) as Hji by (destruct (decide (j < i)); [done|]; discriminate Hlt; lia).
      pose proof (Ht j u Hj) as Hv. rewrite Hp in Hv. rewrite (before_skip q (S j) i k); [|lia|].
      * rewrite (before_S q j u k Hj), decide_True by done. subst k. by rewrite <- Hv.
      * intros n w Hn1 Hn2 Hn Hw. destruct (Hother n w Hn ltac:(lia) Hw) as [Hsw _].
        assert (settled u = true) as Hsu.
        { apply (oi_fifo q Hinv n w Hn (settled_started _ (Hsw ltac:(lia))) j u); [lia|done|congruence]. }
        by rewrite (proj2 (proj2 (running_phase _ _ Hp))) in Hsu.
    + assert (t_key u ≠ k) as Hu by by apply Hidle. rewrite fn_lookup_insert_ne by done. by apply Hsame.
  - destruct He as (_ & _ & -> & _ & _ & ->). by apply Hsame.
  - destruct He as (_ & -> & _ & _ & -> & _). by apply Hsame.
Qed.

Lemma step_values e q q' : step e q = Some q' → order_inv q ∧ value_inv q → order_inv q' ∧ value_inv q'.
Proof.
  intros Hs [Hinv Hv]. split; [by eapply step_order|]. destruct (internal e) eqn:Ee.
  - split; [intros i t; by eapply internal_task_values|intros k i; by eapply internal_state].
  - destruct e; try done. injection Hs as <-. by apply run_values.
Qed.

Lemma reachable_values es q : reachable es q → order_inv q ∧ value_inv q.
Proof.
  apply (reachable_ind (λ q, order_inv q ∧ value_inv q)); [|by apply step_values].
  split; [apply empty_order|]. split.
  - intros i t. unfold task_at. cbn. by rewrite lookup_nil.
  - intros k i _. unfold before. cbn. by rewrite take_nil.
Qed.

(** The tasks are the calls of the history. *)
Lemma steps_calls es q0 q : steps es q0 = Some q → calls_of q = calls_of q0 ++ calls es.
Proof.
  revert q0. induction es as [|e es IH]; intros q0; cbn [steps].
  { intros [= ->]. by rewrite app_nil_r. }
  destruct (step e q0) as [q1|] eqn:E; [|done]. intros Hs. rewrite (IH q1 Hs).
  destruct (internal e) eqn:Ee.
  - destruct (internal_step e q0 q1 Ee E) as (i & t & t' & ts & st & Hi & -> & Ha & _).
    assert (calls (e :: es) = calls es) as -> by by destruct e.
    f_equal. unfold calls_of. cbn [tasks]. rewrite list_fmap_insert, list_insert_id; [done|].
    rewrite list_lookup_fmap, Hi. cbn. by rewrite (adv_key _ _ Ha), (adv_op _ _ Ha).
  - destruct e; try done. injection E as <-. unfold calls_of, run. cbn [tasks].
    by rewrite fmap_app, <- (assoc_L (++)).
Qed.

(** ** Progress *)

(** What one internal step does to a task. *)
Inductive task_step t : task K St R → Prop :=
  | ts_start : t_phase t = Waiting → task_step t (set_phase (Running (t_op t)) t)
  | ts_act f rest s : t_phase t = Running (Act f rest) → task_step t (set_phase (Running (rest s)) t)
  | ts_settle r : t_phase t = Running (Settle r) → task_step t (set_phase (Settled r) t)
  | ts_tail : settled t = true → t_tail t = false → task_step t (set_tail t)
  | ts_return : settled t = true → t_returned t = false → task_step t (set_returned t).

Lemma settled_acc t : settled t = true → Acc (flip task_step) t.
Proof.
  assert (∀ n t, (if t_tail t then 0 else 1) + (if t_returned t then 0 else 1) < n → settled t = true →
    Acc (flip task_step) t) as Hall; [|intros Ht; by apply (Hall 3 t); [destruct (t_tail t), (t_returned t); lia|]].
  clear t. induction n as [|n IH]; intros t Hn Ht; [lia|]. constructor. intros t' Hs.
  unfold settled in Ht. destruct Hs as [E|f rest s E|r E|_ E|_ E]; [by rewrite E in Ht..| |].
  - apply IH; [|done]. cbn. rewrite E in Hn. lia.
  - apply IH; [|done]. cbn. rewrite E in Hn. lia.
Qed.

Lemma task_acc t : Acc (flip task_step) t.
Proof.
  assert (∀ (o : op St R) t, t_phase t = Running o → Acc (flip task_step) t) as Hrun.
  { induction o as [r|f rest IH]; intros u Hu; constructor; intros u' Hs;
      destruct Hs as [E|f' rest' s E|r' E|E _|E _];
      try (unfold settled in E; rewrite Hu in E; discriminate E);
      rewrite Hu in E; try discriminate E.
    - by apply settled_acc.
    - injection E as -> ->. by apply (IH s). }
  destruct (t_phase t) as [|o|r] eqn:E; [|by eapply Hrun|apply settled_acc; unfold settled; by rewrite E].
  constructor. intros t' Hs. destruct Hs as [E'|f rest s E'|r E'|E' _|E' _];
    try (unfold settled in E'; rewrite E in E'; discriminate E'); try (rewrite E in E'; discriminate E').
  by apply (Hrun (t_op t)).
Qed.

(** One task of a list steps. *)
Inductive list_step : list (task K St R) → list (task K St R) → Prop :=
  | ls_head t t' l : task_step t t' → list_step (t :: l) (t' :: l)
  | ls_tail t l l' : list_step l l' → list_step (t :: l) (t :: l').

Lemma list_step_insert l i t t' : l !! i = Some t → task_step t t' → list_step l (<[i := t']> l).
Proof.
  revert i. induction l as [|u l IH]; intros [|i]; cbn; try done.
  - intros [= ->]. by constructor.
  - intros Hi Hs. constructor. by apply IH.
Qed.

Lemma list_acc l : Acc (flip list_step) l.
Proof.
  induction l as [|t l IHl]; [constructor; intros l' Hs; inversion Hs|].
  revert l IHl. induction (task_acc t) as [t _ IHt]. intros l Hl.
  induction Hl as [l Hl IHl]. constructor. intros l' Hs. unfold flip in Hs. inversion Hs as [? t' ? Ht|? ? l2 Ht]; subst.
  - apply IHt; [done|]. by constructor.
  - by apply IHl.
Qed.

Definition internal_succ q' q : Prop := ∃ e, internal e = true ∧ step e q = Some q'.

Lemma internal_list_step q q' : internal_succ q' q → list_step (tasks q) (tasks q').
Proof.
  intros (e & Ee & Hs). destruct (internal_step e q q' Ee Hs) as (i & t & t' & ts & st & Hi & -> & _ & He).
  cbn [tasks]. apply list_step_insert with t; [exact Hi|]. destruct e as [|j|j|j|j]; [done|..].
  - destruct He as (_ & _ & _ & Hp & _ & ->). by constructor.
  - destruct He as (_ & _ & [(r & Hp & -> & _)|(f & rest & Hp & -> & _)]); by econstructor.
  - destruct He as (_ & _ & _ & Hp & Ht & ->). by constructor.
  - destruct He as (_ & _ & Hp & Ht & -> & _). by constructor.
Qed.

Lemma internal_acc q : Acc internal_succ q.
Proof.
  remember (tasks q) as l eqn:El. revert q El. induction (list_acc l) as [l _ IH]. intros q ->.
  constructor. intros q' Hs. eapply IH; [by apply internal_list_step|done].
Qed.

(** Everything has happened to a call. *)
Definition finished t : bool := settled t && t_tail t && t_returned t.

Lemma progress q : order_inv q →
  (∃ q', internal_succ q' q) ∨ (∀ i t, task_at q i t → finished t = true) ∧ tails q = ∅.
Proof.
  intros Hinv. assert (∀ i, (∃ q', internal_succ q' q) ∨ ∀ j t, j < i → task_at q j t → finished t = true) as Hall.
  { induction i as [|i [IH|IH]]; [right; intros; lia|by left|].
    destruct (tasks q !! i) as [t|] eqn:Hi; [|right; intros j u Hj Hu;
      apply (IH j u); [|done]; apply lookup_lt_Some in Hu; apply lookup_ge_None in Hi; lia].
    destruct (finished t) eqn:Ef.
    { right. intros j u Hj Hu. destruct (decide (j = i)) as [->|]; [unfold task_at in Hu; congruence|].
      apply (IH j u); [lia|done]. }
    left. unfold finished in Ef. destruct (t_phase t) as [|[r|f rest]|r] eqn:Ep.
    - eexists _, (Start i). split; [done|]. cbn. unfold start. rewrite Hi. cbn. rewrite Ep.
      assert (previous_resolved q t = true) as ->; [|done]. unfold previous_resolved.
      destruct (t_previous t) as [p|] eqn:Epr; [|done].
      destruct (oi_previous q Hinv i t p Hi Epr) as (Hp & w & Hw & _). rewrite Hw.
      pose proof (IH p w Hp Hw) as Hfin. unfold finished in Hfin. by bool_hyps.
    - eexists _, (Work i). split; [done|]. cbn. unfold work. rewrite Hi. cbn. by rewrite Ep.
    - eexists _, (Work i). split; [done|]. cbn. unfold work. rewrite Hi. cbn. by rewrite Ep.
    - assert (settled t = true) as Hs by (unfold settled; by rewrite Ep). rewrite Hs in Ef.
      destruct (t_tail t) eqn:Et.
      + eexists _, (Return i). split; [done|]. cbn. unfold return_result. rewrite Hi. cbn.
        rewrite Hs. cbn in Ef. by rewrite Ef.
      + eexists _, (Tail i). split; [done|]. cbn. unfold resolve_tail. rewrite Hi. cbn. by rewrite Hs, Et. }
  destruct (Hall (length (tasks q))) as [?|Hfin]; [by left|]. right.
  assert (∀ i t, task_at q i t → finished t = true) as Hfin'
    by (intros i t Hi; apply (Hfin i t); [by eapply lookup_lt_Some|done]).
  split; [done|]. apply map_empty. intros k. destruct (tails q !! k) as [i|] eqn:Ek; [|done].
  destruct (oi_tail q Hinv k i Ek) as (t & Ht & _ & Hr & _). specialize (Hfin' i t Ht).
  unfold finished in Hfin'. rewrite Hr in Hfin'. by rewrite andb_false_r in Hfin'.
Qed.

Lemma internal_completes es q : reachable es q →
  ∃ es' q', forallb internal es' = true ∧ steps es' q = Some q' ∧ reachable (es ++ es') q' ∧
    (∀ i t, task_at q' i t → finished t = true) ∧ tails q' = ∅.
Proof.
  intros Hq. revert es Hq. induction (internal_acc q) as [q _ IH]. intros es Hq.
  destruct (progress q (reachable_order es q Hq)) as [[q1 Hq1]|Hfin].
  - pose proof Hq1 as (e & Ee & Hs).
    assert (∀ es q0, steps es q0 = Some q → steps (es ++ [e]) q0 = Some q1) as Hsnoc.
    { clear -Hs. induction es as [|e' es IHe]; intros q0; cbn [steps app].
      - intros [= ->]. by rewrite Hs.
      - destruct (step e' q0) as [q'|]; [|done]. apply IHe. }
    destruct (IH q1 Hq1 (es ++ [e])) as (es' & q' & H1 & H2 & H3 & H4); [by apply Hsnoc|].
    exists (e :: es'), q'. split_and!; [cbn; by rewrite Ee|cbn; by rewrite Hs| |apply H4..].
    by rewrite <- (assoc_L (++)) in H3.
  - exists [], q. rewrite app_nil_r. split_and!; [done|done|done|apply Hfin..].
Qed.

(** ** The promises of the queue *)

(** C20. Mutual exclusion and order.  In every history, whatever order the promises
    settle in, at most one operation of a key is running, and when an operation has
    started every earlier call of its key has settled. *)
Theorem serial_queue_exclusive es q :
  reachable es q →
  (∀ i j t u, task_at q i t → task_at q j u → is_running t = true → is_running u = true →
     t_key t = t_key u → i = j) ∧
  (∀ i j t u, task_at q i t → task_at q j u → t_key t = t_key u → j < i → started t = true →
     settled u = true).
Proof.
  intros Hq. pose proof (reachable_order es q Hq) as Hinv. split.
  - intros i j t u. by apply exclusive.
  - intros i j t u Hi Hj Hk Hlt Hs. by apply (oi_fifo q Hinv i t Hi Hs j u).
Qed.

(** C21. The queue is a serialization.  A call that has settled has the result of its
    operation run after the earlier calls of its key, one by one; and a key whose
    calls have all settled has the state that running them one by one leaves. *)
Theorem serial_queue_serializes es q :
  reachable es q →
  (∀ i k o, calls es !! i = Some (k, o) → ∃ t, task_at q i t ∧ t_key t = k ∧
     ∀ r, t_phase t = Settled r → r = (run_op o (serial k (init k) (take i (calls es)))).1) ∧
  (∀ k, (∀ i t, task_at q i t → t_key t = k → settled t = true) →
     states q k = serial k (init k) (calls es)).
Proof.
  intros Hq. destruct (reachable_values es q Hq) as [_ [Ht Hst]].
  pose proof (steps_calls es (empty_queue init) q Hq) as Hc. cbn in Hc. split.
  - intros i k o Hi. rewrite <- Hc in Hi. unfold calls_of in Hi. rewrite list_lookup_fmap in Hi.
    destruct (tasks q !! i) as [t|] eqn:Et; [|done]. injection Hi as <- <-. exists t. split_and!; [done..|].
    intros r Hr. specialize (Ht i t Et). rewrite Hr in Ht. rewrite <- Hc. by symmetry.
  - intros k Hk. rewrite (Hst k (length (tasks q))).
    + unfold before. rewrite <- Hc, take_ge; [done|]. unfold calls_of. by rewrite length_fmap.
    + intros j t Hj Hjk. split; [intros _; by eapply Hk|]. apply lookup_lt_Some in Hj. lia.
Qed.

(** No call waits for ever.  Once no call arrives, every history ends, whatever
    the order of events; until then some event is possible; and at the end every
    caller has been resumed with a result, and no key is left in the map. *)
Theorem serial_queue_completes es q :
  reachable es q →
  Acc internal_succ q ∧
  ((∃ q', internal_succ q' q) ∨
   (∀ i t, task_at q i t → t_returned t = true ∧ ∃ r, t_phase t = Settled r) ∧ tails q = ∅) ∧
  ∃ es' q', forallb internal es' = true ∧ steps es' q = Some q' ∧
    (∀ i t, task_at q' i t → t_returned t = true) ∧ tails q' = ∅.
Proof.
  intros Hq. split; [apply internal_acc|].
  assert (∀ t, finished t = true → t_returned t = true ∧ ∃ r, t_phase t = Settled r) as Hfin.
  { intros t Ht. unfold finished, settled in Ht. bool_hyps. split; [done|]. destruct (t_phase t); naive_solver. }
  split.
  - destruct (progress q (reachable_order es q Hq)) as [?|[Ht Hn]]; [by left|]. right.
    split; [|done]. intros i t Hi. by eapply Hfin, Ht.
  - destruct (internal_completes es q Hq) as (es' & q' & H1 & H2 & _ & H3 & H4).
    exists es', q'. split_and!; [done..|intros i t Hi; by eapply Hfin, H3|done].
Qed.
End spec.

(** Two calls of one key, the first of which acts, around a call of another key. *)
Definition sample_history : list (event nat (list nat) nat) :=
  [Call 7 (Act (λ s, s ++ [1]) (λ s, Act (λ s, s ++ [2]) (λ s, Settle (length s))));
   Call 8 (Settle 5); Start 0; Work 0;
   Call 7 (Act (λ s, s ++ [3]) (λ s, Settle (sum_list s)));
   Start 1; Work 1; Work 0; Return 1; Work 0; Tail 0; Start 2; Work 2; Return 0; Work 2].

Lemma forallb_Forall_settled (ts : list (task nat (list nat) nat)) :
  forallb settled ts = true → Forall (λ t, settled t = true) ts.
Proof. rewrite forallb_forall, Forall_forall. intros Ht t Hin. by apply Ht, list_elem_of_In. Qed.

Definition sample_start : queue nat (list nat) nat := empty_queue (λ _, []).
Definition sample_queue (n : nat) : queue nat (list nat) nat :=
  default sample_start (steps (take n sample_history) sample_start).

Lemma sample_history_reachable n :
  bool_decide (is_Some (steps (take n sample_history) sample_start)) = true →
  reachable (λ _, []) (take n sample_history) (sample_queue n).
Proof.
  intros Hs. apply bool_decide_eq_true in Hs as [q Hq]. unfold reachable, sample_queue.
  change (empty_queue (λ _, [])) with sample_start. by rewrite Hq.
Qed.

Lemma serial_queue_exclusive_witness :
  (is_running <$> tasks (sample_queue 14)) = [false; false; true] ∧
  ∀ t u, task_at (sample_queue 14) 2 t → task_at (sample_queue 14) 0 u → t_key t = t_key u →
    started t = true → settled u = true.
Proof.
  split; [vm_compute; reflexivity|]. intros t u Ht Hu Hk.
  apply (proj2 (serial_queue_exclusive (λ _, []) _ _ (sample_history_reachable 14 eq_refl)) 2 0 t u Ht Hu Hk). lia.
Defined.

Lemma serial_queue_serializes_witness :
  states (sample_queue 15) 7 = serial 7 [] (calls (take 15 sample_history)) ∧
  states (sample_queue 15) 7 = [1; 2; 3] ∧
  (settled <$> tasks (sample_queue 15)) = [true; true; true].
Proof.
  split; [|split; vm_compute; reflexivity].
  apply (proj2 (serial_queue_serializes (λ _, []) _ _ (sample_history_reachable 15 eq_refl)) 7).
  intros i t Hi _. assert (Forall (λ t, settled t = true) (tasks (sample_queue 15))) as Hall
    by (apply forallb_Forall_settled; vm_compute; reflexivity).
  rewrite Forall_lookup in Hall. by apply (Hall i).
Defined.

Lemma serial_queue_completes_witness :
  bool_decide (tails (sample_queue 7) = ∅) = false ∧
  ∃ es' q', steps es' (sample_queue 7) = Some q' ∧ tails q' = ∅.
Proof.
  split; [vm_compute; reflexivity|].
  destruct (serial_queue_completes (λ _, []) _ _ (sample_history_reachable 7 eq_refl)) as (_ & _ & es' & q' & _ & H1 & _ & H2).
  exists es', q'. split; [exact H1|exact H2].
Defined.
