(* ===== verification/Checkpoints.v ===== *)
(** * Checkpoints (packages/persistence/src/checkpoints.ts, file-checkpoint-store.ts)

    A checkpoint is a record of one file, named after its identifiers and sealed with
    the hash of its body.  Saving writes a temporary file and renames it; loading and
    listing check the envelope, the name and the hash.  An operation runs alone on its
    run's directory, which [SerialQueueSpec] establishes. *)
From S2P Require Import Prelude JsString JsNumber JsValue JsonText Canonical Views Utf8 DateTime.
From S2P Require Import PersistenceJson Events FileSystem EventStores.

Definition CHECKPOINT_API_VERSION : jsstr := js "graphengineering.reacher-z.github.io/checkpoints/v1alpha1".

Definition CHECKPOINT_KEYS : list jsstr := js <$>
  ["apiVersion"; "runId"; "checkpointId"; "sequence"; "createdAt"; "state"; "contentHash"].
Definition CHECKPOINT_INPUT_KEYS : list jsstr := js <$> ["runId"; "checkpointId"; "sequence"; "createdAt"; "state"].

(** [/^[a-f0-9]{64}$/] *)
Definition SHA256 (s : jsstr) : bool :=
  (length s =? 64)%nat && forallb (λ c, is_digit c || ((97 <=? c)%N && (c <=? 102)%N)) s.

(** [CheckpointBody] and [StoredCheckpoint] *)
Record checkpoint_body := CheckpointBody {
  cb_runId : jsstr;
  cb_checkpointId : jsstr;
  cb_sequence : num;
  cb_createdAt : jsstr;
  cb_state : json
}.

Definition body_props (b : checkpoint_body) : list (jsstr * json) :=
  [(js "apiVersion", JStr CHECKPOINT_API_VERSION); (js "runId", JStr (cb_runId b));
   (js "checkpointId", JStr (cb_checkpointId b)); (js "sequence", JNum (cb_sequence b));
   (js "createdAt", JStr (cb_createdAt b)); (js "state", cb_state b)].
(** [{ ...body, contentHash }] *)
Definition stored_checkpoint (b : checkpoint_body) (hash : jsstr) : json :=
  JObj (body_props b ++ [(js "contentHash", JStr hash)]).

Definition corrupt_checkpoint (runId checkpointId reason : jsstr) : exn :=
  Persistence (CorruptCheckpointError runId checkpointId reason).

Definition input_error : jsstr := js "Checkpoint input is invalid".
Definition is_text {V} (v : view V) : bool := match v with WStr _ => true | _ => false end.

(** ** Input *)

(** [CheckpointInput], detached *)
Record checkpoint_input := CheckpointInput {
  ci_runId : jsstr;
  ci_checkpointId : jsstr;
  ci_sequence : num;
  ci_createdAt : option jsstr;
  ci_state : json
}.

Section input.
Context {V : Type} (r : reader V).

(** The issues of [validateCheckpointInput] before those of the state *)
Definition input_issues (o : object_view V) : list ValidationIssue :=
  (filter (λ key, key ∉ CHECKPOINT_INPUT_KEYS) (w_keys o) ≫= λ key, [issue (field key) (js "unknown property")]) ++
  push_if (negb (is_text (get r o (js "runId")))) (js "#/runId") (js "expected a string") ++
  push_if (negb (is_text (get r o (js "checkpointId")))) (js "#/checkpointId") (js "expected a string") ++
  push_if (negb (safe_integer_from 0 (get r o (js "sequence")))) (js "#/sequence")
    (js "expected a safe integer >= 0") ++
  push_if (defined_and (λ v, negb (isStrictRfc3339 v)) (get r o (js "createdAt"))) (js "#/createdAt")
    (js "expected an RFC 3339 date-time").

(** [validateCheckpointInput(checkpoint)]: the object it asserts the value to be *)
Definition validateCheckpointInput (fuel : nat) (checkpoint : view V) : result exn (object_view V) :=
  match isRecord checkpoint with
  | None => Err (Persistence (PersistenceValidationError input_error
      [issue (js "#") (js "expected a checkpoint object")]))
  | Some o =>
      if w_throws o then Err Thrown
      else
        rest ← jsonValidationIssues r true fuel (get r o (js "state")) (js "#/state");
        _ ← reject input_error (input_issues o ++ rest);
        _ ← assertSafeIdentifier (get r o (js "runId")) (js "runId");
        _ ← assertSafeIdentifier (get r o (js "checkpointId")) (js "checkpointId");
        Ok o
  end.

Definition text_of (v : view V) : jsstr := match v with WStr s => s | _ => [] end.
Definition number_of (v : view V) : num := match v with WNum n => n | _ => SpecFloat.S754_nan end.

(** The [snapshot] of [save] *)
Definition input_snapshot (fuel : nat) (o : object_view V) : result exn checkpoint_input :=
  state ← cloneJson r fuel (get r o (js "state"));
  Ok (CheckpointInput (text_of (get r o (js "runId"))) (text_of (get r o (js "checkpointId")))
    (number_of (get r o (js "sequence")))
    (match get r o (js "createdAt") with WStr s => Some s | _ => None end) state).
End input.

(** ** The store *)

Section store.
(** The digest of SHA-256 and the root directory of the store. *)
Context (sha256 : list N → jsstr) (rootDirectory : jsstr).

(** [contentHash(body)] of a tree *)
Definition tree_hash (j : json) : result exn jsstr := contentHash json_reader sha256 (json_depth j) (json_view j).

(** [#runDirectory(runId)], [pathForCheckpoint(runId, checkpointId)] of safe identifiers *)
Definition runDirectory (runId : jsstr) : jsstr := join_path rootDirectory (identifierHash sha256 runId).
Definition suffix : jsstr := js ".checkpoint.json".
Definition checkpoint_name (checkpointId : jsstr) : jsstr := identifierHash sha256 checkpointId ++ suffix.
Definition pathForCheckpoint (runId checkpointId : jsstr) : jsstr :=
  join_path (runDirectory runId) (checkpoint_name checkpointId).

(** [bodyOf(checkpoint)] of a parsed record *)
Definition bodyOf (props : list (jsstr * json)) : json :=
  JObj ((λ k, (js k, default JNull (get_own (js k) props))) <$>
    ["apiVersion"; "runId"; "checkpointId"; "sequence"; "createdAt"; "state"]%string).

Definition ends_with_newline (text : jsstr) : bool := bool_decide (last text = Some 10%N).
Definition string_field (props : list (jsstr * json)) (k : string) : option jsstr :=
  match get_own (js k) props with Some (JStr s) => Some s | _ => None end.

(** The condition on the fields of a record *)
Definition envelope_matches (props : list (jsstr * json)) : bool :=
  bool_decide (string_field props "apiVersion" = Some CHECKPOINT_API_VERSION) &&
  bool_decide (is_Some (string_field props "runId")) &&
  bool_decide (is_Some (string_field props "checkpointId")) &&
  match get_own (js "sequence") props with
  | Some (JNum n) => safe_integer_from 0 (WNum n : view json) | _ => false end &&
  match string_field props "createdAt" with Some s => strict_rfc3339 s | None => false end &&
  match string_field props "contentHash" with Some s => SHA256 s | None => false end.

(** [#parse] from the parsed object on *)
Definition parse_envelope (expectedRunId : jsstr) (expectedCheckpointId : option jsstr) (sourceName : jsstr)
    (props : list (jsstr * json)) : result exn json :=
  let checkpointId := match string_field props "checkpointId" with
    | Some s => s | None => default sourceName expectedCheckpointId end in
  let corrupt reason := Err (corrupt_checkpoint expectedRunId checkpointId reason) in
  let runId := default [] (string_field props "runId") in
  if negb (forallb (λ key, bool_decide (key ∈ CHECKPOINT_KEYS)) props.*1) ||
     negb (forallb (λ key, bool_decide (key ∈ props.*1)) CHECKPOINT_KEYS) then
    corrupt (js "invalid checkpoint envelope fields")
  else if negb (envelope_matches props) then corrupt (js "checkpoint envelope does not match v1alpha1")
  else if negb (safe_identifier runId && safe_identifier checkpointId) then
    corrupt (js "checkpoint contains unsafe identifiers")
  else if negb (bool_decide (runId = expectedRunId)) then
    corrupt (js "runId does not match checkpoint directory")
  else if match expectedCheckpointId with Some e => negb (bool_decide (checkpointId = e)) | None => false end then
    Err (corrupt_checkpoint expectedRunId (default [] expectedCheckpointId) (js "checkpointId does not match file"))
  else if negb (bool_decide (checkpoint_name checkpointId = sourceName)) then
    corrupt (js "checkpoint filename does not match checkpointId")
  else
    let value := JObj props in
    let state := default JNull (get_own (js "state") props) in
    issues ← jsonValidationIssues json_reader true (json_depth value) (json_view state) (js "#/state");
    match issues with
    | i :: _ => corrupt (issue_message i)
    | [] =>
        hash ← tree_hash (bodyOf props);
        if negb (bool_decide (string_field props "contentHash" = Some hash)) then corrupt (js "content hash mismatch")
        else Ok value
    end.

(** [#parse(bytes, expectedRunId, expectedCheckpointId, sourceName)] *)
Definition parse (bytes : list N) (expectedRunId : jsstr) (expectedCheckpointId : option jsstr)
    (sourceName : jsstr) : result exn json :=
  let corrupt reason :=
    Err (corrupt_checkpoint expectedRunId (default sourceName expectedCheckpointId) reason) in
  match utf8_decode bytes with
  | None => corrupt (js "invalid UTF-8")
  | Some text =>
      if negb (ends_with_newline text) then corrupt (js "truncated record")
      else match json_parse (take (length text - 1) text) with
      | None => corrupt (js "record is not JSON")
      | Some (JObj props) => parse_envelope expectedRunId expectedCheckpointId sourceName props
      | Some _ => corrupt (js "expected an object")
      end
  end.

(** [#loadPath(path, runId, checkpointId, sourceName)] *)
Definition loadPath (path runId : jsstr) (checkpointId : option jsstr) (sourceName : jsstr) : io (option json) :=
  try_catch (bytes ← readFile path; value ← lift (parse bytes runId checkpointId sourceName); mret (Some value))
    (λ e, if isErrno e ENOENT then mret None else throw (wrap_error (js "read checkpoint") path e)).

(** What [save] writes into the new file *)
Definition write_checkpoint (path : jsstr) (checkpoint : json) : io unit :=
  text ← lift (canonicalJson json_reader (json_depth checkpoint) (json_view checkpoint));
  _ ← write path (utf8_encode (text ++ [10%N]));
  sync.

(** The operation that [save] runs in the queue of the run's directory.  [now] is
    what the clock gives, [None] when [toISOString] throws; [unique] is the process
    number and random UUID of the temporary name. *)
Definition save_snapshot (now : option date) (unique : jsstr) (c : checkpoint_input) : io json :=
  let directory := runDirectory (ci_runId c) in
  let path := pathForCheckpoint (ci_runId c) (ci_checkpointId c) in
  let fail e := throw (wrap_error (js "save checkpoint") path e) in
  match match ci_createdAt c with Some s => Some s | None => toISOString <$> now end with
  | None => fail Thrown
  | Some createdAt =>
      let body := CheckpointBody (ci_runId c) (ci_checkpointId c) (ci_sequence c) createdAt (ci_state c) in
      match tree_hash (JObj (body_props body)) with
      | Err e => fail e
      | Ok hash =>
          let checkpoint := stored_checkpoint body hash in
          let temporary := join_path directory
            (js "." ++ identifierHash sha256 (ci_checkpointId c) ++ js "." ++ unique ++ js ".tmp") in
          try_catch (
            _ ← mkdir;
            _ ← open_exclusive temporary;
            _ ← try_finally (write_checkpoint temporary checkpoint) close;
            _ ← rename temporary path;
            _ ← syncDirectory;
            lift (cloneJson json_reader (json_depth checkpoint) (json_view checkpoint)))
            (λ e, _ ← try_catch (unlink temporary) (λ _, mret tt); fail e)
      end
  end.

(** [save(input)] *)
Definition save {V} (r : reader V) (fuel : nat) (now : option date) (unique : jsstr) (input : view V) : io json :=
  o ← lift (validateCheckpointInput r fuel input);
  snapshot ← lift (input_snapshot r fuel o);
  save_snapshot now unique snapshot.

(** [load(runId, checkpointId)] *)
Definition load_checkpoint {V} (runId checkpointId : view V) : io (option json) :=
  run ← lift (assertSafeIdentifier runId (js "runId"));
  id ← lift (assertSafeIdentifier checkpointId (js "checkpointId"));
  loaded ← loadPath (pathForCheckpoint run id) run (Some id) (checkpoint_name id);
  match loaded with
  | None => mret None
  | Some value => v ← lift (cloneJson json_reader (json_depth value) (json_view value)); mret (Some v)
  end.

(** ** Listing *)

Fixpoint strip_prefix (prefix s : jsstr) : option jsstr :=
  match prefix, s with
  | [], _ => Some s
  | p :: prefix, c :: s => if (p =? c)%N then strip_prefix prefix s else None
  | _ :: _, [] => None
  end.

(** The name of a path that is an entry of the directory *)
Definition entry_name (directory path : jsstr) : option jsstr :=
  match strip_prefix (join_path directory []) path with
  | Some name => if bool_decide (47%N ∈ name) || bool_decide (name = []) then None else Some name
  | None => None
  end.
Definition has_suffix (name : jsstr) : bool :=
  (length suffix <=? length name)%nat &&
  bool_decide (drop (length name - length suffix) name = suffix).

(** [readdir(directory)]: the files in it, in some order; a directory without files
    may be absent, which the caller does not distinguish *)
Definition readdir (directory : jsstr) : io (list jsstr) := syscall (λ w,
  (Ok (omap (entry_name directory) (map_to_list (files w)).*1), w)).

(** [left.sequence - right.sequence || compareUnicodeCodePoints(...)] *)
Definition checkpoint_sequence (j : json) : Z :=
  match j with
  | JObj props => match get_own (js "sequence") props with Some (JNum n) => num_trunc n | _ => 0%Z end
  | _ => 0%Z
  end.
Definition checkpoint_id (j : json) : jsstr :=
  match j with JObj props => default [] (string_field props "checkpointId") | _ => [] end.
Definition compare_checkpoints (left right : json) : Z :=
  let difference := (checkpoint_sequence left - checkpoint_sequence right)%Z in
  if (difference =? 0)%Z then compareUnicodeCodePoints (checkpoint_id left) (checkpoint_id right) else difference.

(** [checkpointSummary(checkpoint)] *)
Definition checkpointSummary (j : json) : json :=
  match j with
  | JObj props => JObj ((λ k, (js k, default JNull (get_own (js k) props))) <$>
      ["apiVersion"; "runId"; "checkpointId"; "sequence"; "createdAt"; "contentHash"]%string)
  | _ => j
  end.

(** The loop of [list] *)
Fixpoint load_all (directory runId : jsstr) (names : list jsstr) : io (list json) :=
  match names with
  | [] => mret []
  | name :: names =>
      loaded ← loadPath (join_path directory name) runId None name;
      rest ← load_all directory runId names;
      mret (match loaded with Some c => c :: rest | None => rest end)
  end.

(** [list(runId)] *)
Definition list_checkpoints {V} (runId : view V) : io (list json) :=
  run ← lift (assertSafeIdentifier runId (js "runId"));
  let directory := runDirectory run in
  names ← try_catch (names ← readdir directory; mret (filter (λ name, has_suffix name = true) names))
    (λ e, if isErrno e ENOENT then mret []
          else throw (Persistence (PersistenceIoError (js "list checkpoints") directory)));
  checkpoints ← load_all directory run (sort_by compareUnicodeCodePoints names);
  mret (checkpointSummary <$> sort_by compare_checkpoints checkpoints).
End store.

(** The constructor's check of its options; [now] is a parameter of [save]. *)
Definition FileCheckpointStore {V} (r : reader V) (resolve : jsstr → jsstr) (options : view V) : result exn jsstr :=
  let failure := Err (Persistence (PersistenceValidationError (js "FileCheckpointStore directory is invalid")
    [issue (js "#/directory") (js "expected a non-empty string")])) in
  match options with
  | WObject o =>
      match get r o (js "directory") with
      | WStr s => if (length s =? 0)%nat then failure else Ok (join_path (resolve s) (js "checkpoints"))
      | _ => failure
      end
  | _ => failure
  end.
