(* ===== verification/CheckpointsSpec.v ===== *)
(** * Checkpoints: sealed records

    A record that the store writes is read back, and a record that the store accepts
    is sealed: its envelope, its name and its hash agree. *)
From S2P Require Import Prelude JsString JsNumber JsValue JsonText NumberText Canonical CanonicalSpec.
From S2P Require Import JsonRoundTrip Views Utf8 DateTime PersistenceJson PersistenceJsonSpec Events.
From S2P Require Import EventsSpec FileSystem EventStores EventLog EventStoresSpec.
From S2P Require Import EventStoresTheorems Checkpoints.

(** ** Trees under the tools of json.ts *)

Lemma validateJson_self sio j fuel path : json_ok j → (sio = true → safe_numbers j = true) → json_depth j ≤ fuel →
  validateJson json_reader sio fuel (json_view j) path [] = Ok [].
Proof. intros. by apply validateJson_json. Qed.

Lemma tree_shows j : json_ok j → shows json_reader (json_depth j) (json_view j) j.
Proof.
  intros Hok. destruct (validateJson_shows json_reader json_ok (json_depth j) j (js "#") [] Hok) as [j' Hj].
  { by apply validateJson_self. }
  pose proof Hj as (Ht & _). cbn [look json_reader] in *. by rewrite (json_shows_self j j' Hok Ht) in Hj.
Qed.

Lemma canonicalJson_tree j : json_ok j →
  canonicalJson json_reader (json_depth j) (json_view j) = Ok (serializeCaptured j).
Proof. intros Hok. apply canonicalJson_shows; [by apply validateJson_self|by apply tree_shows]. Qed.

Lemma cloneJson_tree j : json_ok j →
  cloneJson json_reader (json_depth j) (json_view j) = Ok (canonical_form j).
Proof. intros Hok. apply cloneJson_shows; [by apply validateJson_self|by apply tree_shows]. Qed.

Lemma tree_hash_ok sha256 j : json_ok j → tree_hash sha256 j = Ok (sha256 (utf8_encode (serializeCaptured j))).
Proof. intros Hok. unfold tree_hash, contentHash. by rewrite canonicalJson_tree. Qed.

(** The stricter check of numbers implies the plain one. *)
Lemma validateJson_unsafe {V} (r : reader V) fuel v path path' ancestors :
  validateJson r true fuel v path ancestors = Ok [] → validateJson r false fuel v path' ancestors = Ok [].
Proof.
  revert v path path' ancestors. induction fuel as [|fuel IH]; intros v path path' ancestors.
  { destruct v as [| |b|n|s|t|o]; unfold validateJson; try done.
    - destruct (negb (num_finite n)); [done|]. by destruct (true && negb (num_safe_integer n)).
    - case_bool_decide; [done|]. by destruct (w_throws o). }
  destruct v as [| |b|n|s|t|o]; unfold validateJson; fold (@validateJson V); try done.
  - destruct (negb (num_finite n)); [done|]. by destruct (true && negb (num_safe_integer n)).
  - case_bool_decide; [done|]. destruct (w_throws o); [done|]. destruct (w_items o) as [items|].
    + rewrite !iconcat_results_nil. intros Hall i [x|] Hx; [|by specialize (Hall i None Hx)].
      eapply IH, (Hall i (Some x) Hx).
    + destruct (negb (w_plain o)); [done|]. destruct (concat_results _ _) as [rest|] eqn:E; [|done].
      cbn [mbind result_bind]. intros [= Hr]. apply app_eq_nil in Hr as [Hsym ->].
      apply push_if_nil in Hsym. rewrite Hsym. apply concat_results_nil in E.
      match goal with |- context [concat_results ?f ?l] => assert (concat_results f l = Ok []) as -> end; [|done].
      apply concat_results_nil. eapply Forall_impl; [exact E|]. intros k. apply IH.
Qed.

(** The numbers it lets through are safe integers. *)
Lemma validateJson_safe {V} (r : reader V) fuel v path ancestors j :
  validateJson r true fuel v path ancestors = Ok [] → tree r v j → safe_numbers j = true.
Proof.
  revert v path ancestors j. induction fuel as [|fuel IH]; intros v path ancestors j.
  { destruct v as [| |b|n|s|t|o]; unfold validateJson; intros Hv Ht; inversion Ht; subst; try done.
    - destruct (num_finite n); [|done]. cbn [safe_numbers]. by destruct (num_safe_integer n).
    - revert Hv. case_bool_decide; [done|]. by destruct (w_throws o).
    - revert Hv. case_bool_decide; [done|]. by destruct (w_throws o). }
  destruct v as [| |b|n|s|t|o]; unfold validateJson; fold (@validateJson V); intros Hv Ht.
  all: inversion Ht as [| | |? ? |? items js Hitems Hjs|? js Hitems Hplain Hsym Hjs]; subst; try done.
  - destruct (num_finite n); [|done]. cbn [safe_numbers]. by destruct (num_safe_integer n).
  - revert Hv. case_bool_decide; [done|]. destruct (w_throws o); [done|]. rewrite Hitems.
    rewrite iconcat_results_nil. intros Hall. cbn [safe_numbers]. apply forallb_Forall, Forall_lookup.
    intros i j Hj. destruct (Forall2_lookup_r _ _ _ _ _ Hjs Hj) as (x & Hx & Htx).
    eapply IH; [|exact Htx]. apply (Hall i (Some x)). by rewrite list_lookup_fmap, Hx.
  - revert Hv. case_bool_decide; [done|]. destruct (w_throws o); [done|]. rewrite Hitems, Hplain. cbn [negb].
    destruct (concat_results _ _) as [rest|] eqn:E; [|done]. cbn [mbind result_bind].
    intros [= Hr]. apply app_eq_nil in Hr as [_ ->]. apply concat_results_nil in E.
    cbn [safe_numbers]. apply forallb_Forall, Forall_lookup. intros i [k j] Hj.
    rewrite lookup_zip_with in Hj. destruct (w_keys o !! i) as [k'|] eqn:Hk; [|done]. cbn in Hj.
    destruct (js !! i) as [j'|] eqn:Hj'; [|done]. injection Hj as -> ->. cbn [snd].
    pose proof (Forall2_lookup_lr _ _ _ _ _ _ Hjs Hk Hj') as Htj.
    rewrite Forall_forall in E. eapply IH; [|exact Htj]. apply E. by eapply list_elem_of_lookup_2.
Qed.

(** ** Bodies *)

(** What a body has been checked for. *)
Record body_ok (b : checkpoint_body) : Prop := {
  bo_run : safe_identifier (cb_runId b) = true;
  bo_id : safe_identifier (cb_checkpointId b) = true;
  bo_sequence : num_ok (cb_sequence b) ∧ safe_from 0 (cb_sequence b);
  bo_created : str_wf (cb_createdAt b);
  bo_state : json_ok (cb_state b) ∧ safe_numbers (cb_state b) = true
}.

(** The body that reading its text gives back. *)
Definition read_body (b : checkpoint_body) : checkpoint_body :=
  CheckpointBody (cb_runId b) (cb_checkpointId b) (num_unsign_zero (cb_sequence b)) (cb_createdAt b)
    (canonical_form (cb_state b)).

Lemma safe_finite n k : safe_from k n → num_finite n = true.
Proof.
  intros [Hn _]. apply num_safe_integer_integer in Hn. unfold num_integer in Hn. unfold num_finite.
  by destruct (num_parts n).
Qed.

Lemma safe_identifier_wf s : safe_identifier s = true → str_wf s.
Proof.
  intros Hs. apply safe_identifier_printable in Hs. eapply Forall_impl; [exact Hs|]. intros u. cbn. lia.
Qed.

Lemma json_okb_lit (s : string) : bool_decide (str_wf (js s)) = true → json_ok (JStr (js s)).
Proof. intros Hs. apply json_ok_str. by apply bool_decide_eq_true in Hs. Qed.

Lemma body_props_ok b hash : body_ok b → str_wf hash →
  json_ok (JObj (body_props b)) ∧ json_ok (stored_checkpoint b hash).
Proof.
  intros [Hr Hi [Hn Hs] Hc [Hst _]] Hh.
  assert (Forall (λ p, json_ok p.2) (body_props b ++ [(js "contentHash", JStr hash)])) as Hall.
  { repeat (apply Forall_cons_2; [|]); [by apply json_okb_lit; vm_compute|..|constructor]; cbn [snd].
    - by apply json_ok_str, safe_identifier_wf.
    - by apply json_ok_str, safe_identifier_wf.
    - apply json_ok_num. split; [done|]. by eapply safe_finite.
    - by apply json_ok_str.
    - done.
    - by apply json_ok_str. }
  split; apply json_ok_obj; (split_and!; [by apply (bool_decide_unpack _); vm_compute..|]).
  - by apply Forall_app in Hall as [Hall _].
  - done.
Qed.

Lemma canonical_form_safe j : safe_numbers j = true → safe_numbers (canonical_form j) = true.
Proof.
  induction j as [|b|n|s|items IH|props IH] using json_nested_ind; intros Hs; try done.
  - cbn [canonical_form safe_numbers] in *. by destruct n.
  - cbn [canonical_form safe_numbers] in *. rewrite forallb_Forall in *. apply Forall_fmap.
    exact (Forall_mp _ _ _ IH Hs).
  - cbn [canonical_form safe_numbers] in *. rewrite forallb_Forall in *.
    rewrite own_order_Permutation, sort_by_Permutation.
    apply (Forall_fmap (λ p : jsstr * json, (p.1, canonical_form p.2))).
    exact (Forall_mp (λ p, safe_numbers p.2 = true) (λ p, safe_numbers (canonical_form p.2) = true) _ IH Hs).
Qed.

Lemma read_body_ok b : body_ok b → body_ok (read_body b).
Proof.
  intros [Hr Hi [Hn Hs] Hc [Hst Hsafe]]. split; cbn [read_body cb_runId cb_checkpointId cb_sequence cb_createdAt cb_state];
    [done..| |done|].
  - split; [by destruct (cb_sequence b)|by apply safe_from_unsign].
  - split; [by apply canonical_form_ok|by apply canonical_form_safe].
Qed.

Lemma read_body_props b : body_props (read_body b) = (λ p, (p.1, canonical_form p.2)) <$> body_props b.
Proof. done. Qed.

Lemma read_body_canonical b : body_ok b →
  canonical_form (JObj (body_props (read_body b))) = canonical_form (JObj (body_props b)).
Proof.
  intros Hb. cbn [canonical_form]. do 3 f_equal. unfold body_props, read_body.
  cbn [map fst snd cb_runId cb_checkpointId cb_sequence cb_createdAt cb_state canonical_form].
  rewrite canonical_form_idem by apply Hb. by destruct (cb_sequence b).
Qed.

Lemma read_body_text b : body_ok b →
  serializeCaptured (JObj (body_props (read_body b))) = serializeCaptured (JObj (body_props b)).
Proof.
  intros Hb. rewrite <- serialize_canonical by by apply (body_props_ok (read_body b) []); [apply read_body_ok|constructor].
  rewrite read_body_canonical by done. apply serialize_canonical. by apply (body_props_ok b []); [|constructor].
Qed.

(** ** Records *)

Lemma record_decode props : json_ok (JObj props) →
  utf8_decode (utf8_encode (record_text (JObj props))) = Some (record_text (JObj props)).
Proof.
  intros Hok. assert (record_text (JObj props) = log_text [JObj props]) as -> by (unfold log_text; cbn [map concat]; by rewrite app_nil_r).
  apply utf8_round_trip; [apply log_utf16; by constructor|]. apply log_text_head. by exists props.
Qed.

Section seal.
Context (sha256 : list N → jsstr).

(** [contentHash(body)] *)
Definition seal (b : checkpoint_body) : jsstr := sha256 (utf8_encode (serializeCaptured (JObj (body_props b)))).
Definition sealed (b : checkpoint_body) : json := stored_checkpoint b (seal b).
Definition sealed_bytes (b : checkpoint_body) : list N := utf8_encode (record_text (sealed b)).

(** Digests are written with 64 hexadecimal digits. *)
Definition hexadecimal : Prop := ∀ bytes, SHA256 (sha256 bytes) = true.

Lemma SHA256_wf s : SHA256 s = true → str_wf s.
Proof.
  unfold SHA256, is_digit. intros Hs. bool_hyps.
  match goal with H : forallb _ _ = true |- _ => rewrite forallb_Forall in H; eapply Forall_impl; [exact H|] end.
  intros c Hc. cbn in Hc. apply orb_true_iff in Hc as [Hc|Hc]; bool_hyps; lia.
Qed.

(** What a record must be to be accepted. *)
Record record_ok (run id : jsstr) (props : list (jsstr * json)) (b : checkpoint_body) : Prop := {
  ro_keys : props.*1 ≡ₚ CHECKPOINT_KEYS;
  ro_fields : ∀ k j, (k, j) ∈ body_props b → get_own k props = Some j;
  ro_hash : get_own (js "contentHash") props = Some (JStr (seal b));
  ro_body : body_ok b;
  ro_created : strict_rfc3339 (cb_createdAt b) = true;
  ro_names : cb_runId b = run ∧ cb_checkpointId b = id
}.

Lemma record_bodyOf run id props b : record_ok run id props b → bodyOf props = JObj (body_props b).
Proof.
  intros Hr. unfold bodyOf. f_equal. unfold body_props. cbn [fmap list_fmap].
  pose proof (ro_fields _ _ _ _ Hr) as Hf.
  repeat match goal with |- (js ?k, default JNull (get_own (js ?k) props)) :: _ = (js ?k, ?j) :: _ =>
    rewrite (Hf (js k) j) by (unfold body_props; set_solver); f_equal end.
Qed.

Lemma string_field_Some props k s : string_field props k = Some s ↔ get_own (js k) props = Some (JStr s).
Proof.
  unfold string_field. destruct (get_own (js k) props) as [[]|]; split; intros E; try done; congruence.
Qed.

Lemma keys_match (props : list (jsstr * json)) : NoDup props.*1 →
  forallb (λ key, bool_decide (key ∈ CHECKPOINT_KEYS)) props.*1 &&
  forallb (λ key, bool_decide (key ∈ props.*1)) CHECKPOINT_KEYS = true ↔ props.*1 ≡ₚ CHECKPOINT_KEYS.
Proof.
  intros Hnd. rewrite andb_true_iff, !forallb_forall. split.
  - intros [H1 H2]. apply NoDup_Permutation; [done|by apply (bool_decide_unpack _); vm_compute|].
    intros k. split; intros Hk; apply list_elem_of_In in Hk.
    + specialize (H1 k Hk). by apply bool_decide_eq_true in H1.
    + specialize (H2 k Hk). by apply bool_decide_eq_true in H2.
  - intros Hp. split; intros k Hk; apply list_elem_of_In in Hk; apply bool_decide_eq_true; [by rewrite <- Hp|by rewrite Hp].
Qed.

Lemma safe_integer_from_view k n : safe_integer_from k (WNum n : view json) = true → (k = 0)%Z → safe_from 0 n.
Proof.
  intros Hs ->. unfold safe_integer_from in Hs. apply andb_true_iff in Hs as [H1 H2]. split; [done|].
  rewrite num_ltb_const in H2 by (done || by apply num_safe_integer_integer). by apply negb_true_iff, Z.ltb_ge in H2.
Qed.
Lemma safe_from_view n : safe_from 0 n → safe_integer_from 0 (WNum n : view json) = true.
Proof.
  intros [H1 H2]. unfold safe_integer_from. rewrite H1.
  rewrite num_ltb_const by (done || by apply num_safe_integer_integer). by apply negb_true_iff, Z.ltb_ge.
Qed.

Lemma envelope_matches_iff props :
  envelope_matches props = true ↔ ∃ run id n created hash,
    get_own (js "apiVersion") props = Some (JStr CHECKPOINT_API_VERSION) ∧
    get_own (js "runId") props = Some (JStr run) ∧ get_own (js "checkpointId") props = Some (JStr id) ∧
    get_own (js "sequence") props = Some (JNum n) ∧ safe_from 0 n ∧
    get_own (js "createdAt") props = Some (JStr created) ∧ strict_rfc3339 created = true ∧
    get_own (js "contentHash") props = Some (JStr hash) ∧ SHA256 hash = true.
Proof.
  unfold envelope_matches. rewrite !andb_true_iff, !bool_decide_eq_true. split.
  - intros [[[[[Hv [run Hr]] [id Hi]] Hn] Hc] Hh].
    destruct (string_field props "createdAt") as [created|] eqn:Ec; [|done].
    destruct (string_field props "contentHash") as [hash|] eqn:Eh; [|done].
    destruct (get_own (js "sequence") props) as [[| |n| | |]|]; try done.
    apply string_field_Some in Hv, Hr, Hi, Ec, Eh.
    exists run, id, n, created, hash. split_and!; [done|done|done|done|by eapply safe_integer_from_view|done..].
  - intros (run & id & n & created & hash & Hv & Hr & Hi & Hn & Hs & Hc & Hc' & Hh & Hh').
    apply string_field_Some in Hv, Hr, Hi, Hc, Hh. rewrite Hv, Hr, Hi, Hc, Hh, Hn.
    split_and!; [done|by eexists|by eexists|by apply safe_from_view|done..].
Qed.

Lemma tree_hash_body b : body_ok b → tree_hash sha256 (JObj (body_props b)) = Ok (seal b).
Proof. intros Hb. apply tree_hash_ok. by apply (body_props_ok b []); [|constructor]. Qed.

Lemma get_own_elem k (props : list (jsstr * json)) j : get_own k props = Some j → (k, j) ∈ props.
Proof. apply map_get_Some_elem. Qed.

Lemma get_own_NoDup (props : list (jsstr * json)) k j : NoDup props.*1 → (k, j) ∈ props → get_own k props = Some j.
Proof. apply map_get_NoDup. Qed.

(** A record that is accepted, with the name of the file or without. *)
Lemma parse_envelope_ok run expected id props b :
  hexadecimal → json_ok (JObj props) → record_ok run id props b → expected = None ∨ expected = Some id →
  parse_envelope sha256 run expected (checkpoint_name sha256 id) props = Ok (JObj props).
Proof.
  intros Hhex Hok Hr He. pose proof (record_bodyOf _ _ _ _ Hr) as Hbody.
  destruct Hr as [Hkeys Hf Hh Hb Hc [Hrun Hid]]. pose proof Hb as [Hsr Hsi [_ Hseq] _ [Hst Hsafe]].
  assert (∀ k j, (js k, j) ∈ body_props b → get_own (js k) props = Some j) as Hf' by auto.
  assert (string_field props "runId" = Some run) as Hr1
    by (apply string_field_Some, Hf; rewrite <- Hrun; unfold body_props; set_solver).
  assert (string_field props "checkpointId" = Some id) as Hi1
    by (apply string_field_Some, Hf; rewrite <- Hid; unfold body_props; set_solver).
  assert (get_own (js "state") props = Some (cb_state b)) as Hs1 by (apply Hf; unfold body_props; set_solver).
  unfold parse_envelope. rewrite Hr1, Hi1. cbn [default].
  pose proof (proj1 (json_ok_obj props) Hok) as (Hnd & _).
  pose proof (proj2 (keys_match props Hnd) Hkeys) as Hk. apply andb_true_iff in Hk as [-> ->]. cbn [negb orb].
  assert (envelope_matches props = true) as ->.
  { apply envelope_matches_iff. exists run, id, (cb_sequence b), (cb_createdAt b), (seal b).
    split_and!; try done; [..|by apply Hhex]; apply Hf; unfold body_props; set_solver. }
  rewrite Hrun in Hsr. rewrite Hid in Hsi. cbn [negb from_option Datatypes.id]. rewrite Hsr, Hsi. cbn [negb andb].
  rewrite bool_decide_eq_true_2 by done. cbn [negb].
  assert ((match expected with Some e => negb (bool_decide (id = e)) | None => false end) = false) as ->.
  { destruct He as [->| ->]; [done|]. by rewrite bool_decide_eq_true_2. }
  rewrite bool_decide_eq_true_2 by done. cbn [negb]. rewrite Hs1. cbn [default from_option].
  unfold jsonValidationIssues.
  rewrite (validateJson_self true (cb_state b) (json_depth (JObj props))); [|done|done|].
  2: { apply Nat.lt_le_incl. apply (json_depth_member (js "state", cb_state b)). by apply get_own_elem. }
  cbn [mbind result_bind]. rewrite Hbody, tree_hash_body by done. cbn [mbind result_bind].
  rewrite bool_decide_eq_true_2; [done|]. by apply string_field_Some.
Qed.

Lemma parse_envelope_inv run expected name props v :
  json_ok (JObj props) →
  parse_envelope sha256 run expected name props = Ok v →
  v = JObj props ∧ ∃ id b, record_ok run id props b ∧ name = checkpoint_name sha256 id ∧
    (expected = None ∨ expected = Some id).
Proof.
  intros Hok. pose proof (proj1 (json_ok_obj props) Hok) as (Hnd & _ & Hall). unfold parse_envelope.
  destruct (negb (forallb _ props.*1) || _) eqn:Ek; [done|]. apply orb_false_iff in Ek as [Ek1 Ek2].
  apply negb_false_iff in Ek1, Ek2.
  pose proof (proj1 (keys_match props Hnd) (proj2 (andb_true_iff _ _) (conj Ek1 Ek2))) as Hkeys.
  destruct (envelope_matches props) eqn:Em; [|done]. cbn [negb].
  apply envelope_matches_iff in Em as (r & id & n & created & hash & Hv & Hr & Hi & Hn & Hs & Hc & Hc' & Hh & Hh').
  pose proof (proj2 (string_field_Some _ _ _) Hr) as Hr1. pose proof (proj2 (string_field_Some _ _ _) Hi) as Hi1.
  rewrite Hr1, Hi1. cbn [default from_option Datatypes.id].
  destruct (safe_identifier r) eqn:Er; [|done]. destruct (safe_identifier id) eqn:Ei; [|done]. cbn [andb negb].
  case_bool_decide as Hrun; [|done]. cbn [negb]. subst r.
  destruct (match expected with Some e => _ | None => _ end) eqn:Ee; [done|].
  case_bool_decide as Hname; [|done]. cbn [negb].
  assert (js "state" ∈ props.*1) as Hin by (rewrite Hkeys; by apply (bool_decide_unpack _); vm_compute).
  apply map_get_elem_key in Hin as [state Hst]. change (map_get _ props) with (get_own (js "state") props) in Hst.
  rewrite Hst. cbn [default from_option Datatypes.id].
  apply map_get_Some_elem in Hst as Hin. rewrite Forall_forall in Hall. pose proof (Hall _ Hin) as Hsok. cbn [snd] in Hsok.
  destruct (jsonValidationIssues _ _ _ _ _) as [[|i issues]|] eqn:Ev; [|done..]. cbn [mbind result_bind].
  set (b := CheckpointBody run id n created state).
  assert (body_ok b) as Hb.
  { split; cbn; try done.
    - split; [|done]. apply get_own_elem, Hall in Hn. cbn [snd] in Hn. by apply json_ok_num in Hn as [Hn _].
    - apply get_own_elem, Hall in Hc. cbn [snd] in Hc. by apply json_ok_str in Hc.
    - split; [done|]. eapply validateJson_safe; [exact Ev|]. exact (proj1 (tree_shows state Hsok)). }
  assert (bodyOf props = JObj (body_props b)) as ->.
  { unfold bodyOf. cbn [fmap list_fmap]. by rewrite Hv, Hr, Hi, Hn, Hc, Hst. }
  rewrite tree_hash_body by done. cbn [mbind result_bind]. case_bool_decide as Hhash; [|done].
  intros [= <-]. split; [done|]. exists id, b. split_and!; [|done|].
  - split; [done| | |done|done|done].
    + intros k j Hk. unfold body_props in Hk. cbn in Hk. repeat (apply elem_of_cons in Hk as [[= -> ->]|Hk]; [done|]).
      by apply not_elem_of_nil in Hk.
    + by apply string_field_Some in Hhash.
  - destruct expected as [e|]; [|by left]. right. apply negb_false_iff, bool_decide_eq_true in Ee. by rewrite Ee.
Qed.
(** ** What is written is read back *)

Lemma seal_read_body b : body_ok b → seal (read_body b) = seal b.
Proof. intros Hb. unfold seal. by rewrite read_body_text. Qed.

Lemma sealed_record b : hexadecimal → body_ok b → strict_rfc3339 (cb_createdAt b) = true →
  record_ok (cb_runId b) (cb_checkpointId b)
    (canonical_props (body_props b ++ [(js "contentHash", JStr (seal b))])) (read_body b).
Proof.
  intros Hhex Hb Hc. assert (str_wf (seal b)) as Hwf by apply SHA256_wf, Hhex.
  destruct (body_props_ok b _ Hb Hwf) as [_ Hok]. apply json_ok_obj in Hok as (Hnd & _).
  split; [by rewrite canonical_props_keys| | |by apply read_body_ok|done|done].
  - intros k j Hk. rewrite get_own_canonical by done. rewrite read_body_props in Hk.
    apply list_elem_of_fmap in Hk as ([k0 j0] & [= -> ->] & Hk).
    rewrite (get_own_NoDup _ k0 j0 Hnd); [done|]. apply elem_of_app. by left.
  - rewrite get_own_canonical by done. rewrite (get_own_NoDup _ _ (JStr (seal b)) Hnd); [by rewrite seal_read_body|].
    apply elem_of_app. right. by apply list_elem_of_singleton.
Qed.

Lemma parse_sealed b expected :
  hexadecimal → body_ok b → strict_rfc3339 (cb_createdAt b) = true →
  expected = None ∨ expected = Some (cb_checkpointId b) →
  parse sha256 (sealed_bytes b) (cb_runId b) expected (checkpoint_name sha256 (cb_checkpointId b)) =
    Ok (canonical_form (sealed b)).
Proof.
  intros Hhex Hb Hc He. assert (str_wf (seal b)) as Hwf by apply SHA256_wf, Hhex.
  destruct (body_props_ok b _ Hb Hwf) as [_ Hok]. unfold parse, sealed_bytes, sealed, stored_checkpoint, seal.
  rewrite record_decode by exact Hok. unfold record_text, ends_with_newline. rewrite last_snoc, bool_decide_eq_true_2 by done.
  cbn [negb]. rewrite length_app, Nat.add_sub, take_app_length.
  rewrite json_parse_serialize by exact Hok. change (canonical_form (JObj ?p)) with (JObj (canonical_props p)).
  apply (parse_envelope_ok _ _ _ _ (read_body b) Hhex); [|by apply sealed_record|done].
  by apply (canonical_form_ok (JObj _)).
Qed.
(** A record is accepted exactly when it is sealed.  On a parsed record whose
    numbers are finite, the checks of [load] pass exactly for the records with the
    seven fields of the envelope, safe identifiers that match the request, a sequence
    number, a valid time, a state of safe integers and the hash of the body; what is
    returned is the record itself. *)
Theorem parse_envelope_decides run id props v :
  hexadecimal → json_ok (JObj props) →
  parse_envelope sha256 run (Some id) (checkpoint_name sha256 id) props = Ok v ↔
  v = JObj props ∧ ∃ b, record_ok run id props b.
Proof.
  intros Hhex Hok. split.
  - intros Hv. destruct (parse_envelope_inv _ _ _ _ _ Hok Hv) as (-> & id' & b & Hr & _ & [He|He]); [done|].
    injection He as <-. split; [done|by exists b].
  - intros [-> [b Hr]]. apply (parse_envelope_ok run (Some id) id props b); auto.
Qed.
End seal.

(** *** A sample checkpoint *)

(** A digest of 64 digits, for the examples. *)
Definition zero_digest (bytes : list N) : jsstr := replicate 64 48%N.
Lemma zero_digest_hexadecimal : hexadecimal zero_digest.
Proof. intros bytes. vm_compute. reflexivity. Qed.

Definition sample_body : checkpoint_body :=
  CheckpointBody (js "run-1") (js "first") (num_of_Z 12) (js "2024-02-29T23:59:59Z")
    (JObj [(js "b", JArr [JNum (num_of_Z 1); JNull]); (js "a", JStr (js "x"))]).
Definition sample_props : list (jsstr * json) :=
  canonical_props (body_props sample_body ++ [(js "contentHash", JStr (seal zero_digest sample_body))]).

Lemma parse_envelope_decides_witness :
  json_ok (JObj sample_props) ∧ ∃ b, record_ok zero_digest (js "run-1") (js "first") sample_props b.
Proof.
  assert (json_ok (JObj sample_props)) as Hok by (vm_compute; reflexivity).
  split; [exact Hok|].
  apply (parse_envelope_decides zero_digest (js "run-1") (js "first") sample_props (JObj sample_props)
    zero_digest_hexadecimal Hok). vm_compute; reflexivity.
Defined.
