(* ===== verification/CheckpointsTheorems.v ===== *)
(** * The checkpoint store

    What [save] leaves in the file system, with and without failures, and what
    [load] makes of it. *)
From S2P Require Import Prelude JsString JsNumber JsValue JsonText NumberText Canonical CanonicalSpec.
From S2P Require Import JsonRoundTrip Views Utf8 DateTime PersistenceJson PersistenceJsonSpec Events.
From S2P Require Import EventsSpec FileSystem EventStores EventLog EventStoresSpec.
From S2P Require Import EventStoresTheorems Checkpoints CheckpointsSpec.

(** ** Accepted input *)

Record snapshot_ok (c : checkpoint_input) : Prop := {
  so_run : safe_identifier (ci_runId c) = true;
  so_id : safe_identifier (ci_checkpointId c) = true;
  so_sequence : num_ok (ci_sequence c) ∧ safe_from 0 (ci_sequence c);
  so_created : ∀ s, ci_createdAt c = Some s → str_wf s ∧ strict_rfc3339 s = true;
  so_state : json_ok (ci_state c) ∧ canonical_form (ci_state c) = ci_state c ∧ safe_numbers (ci_state c) = true
}.

Lemma input_snapshot_ok {V} (r : reader V) P `{!Detached r P} v o :
  P v → validateCheckpointInput r (depth r v) (look r v) = Ok o →
  ∃ c, input_snapshot r (depth r v) o = Ok c ∧ snapshot_ok c.
Proof.
  intros HP. unfold validateCheckpointInput. destruct (isRecord (look r v)) as [o'|] eqn:Hrec; [|done].
  assert (look r v = WObject o') as Hv.
  { unfold isRecord in Hrec. destruct (look r v) as [| | | | | |o0]; try done. destruct (w_items o0); congruence. }
  destruct (w_throws o'); [done|].
  destruct (jsonValidationIssues r true _ _ _) as [rest|] eqn:Ej; [|done]. cbn [mbind result_bind].
  destruct (reject _ _) as [u|] eqn:Er; [|done]. cbn [mbind result_bind].
  apply reject_Ok, app_eq_nil in Er as [Hi ->]. unfold input_issues in Hi.
  rewrite !app_nil, !push_if_nil in Hi. destruct Hi as (_ & _ & _ & Hseq & Hcreated).
  destruct (assertSafeIdentifier (get r o' (js "runId")) _) as [run|] eqn:E1; [|done]. cbn [mbind result_bind].
  destruct (assertSafeIdentifier (get r o' (js "checkpointId")) _) as [id|] eqn:E2; [|done]. cbn [mbind result_bind].
  intros [= <-]. apply assertSafeIdentifier_Ok in E1 as [E1 Hr], E2 as [E2 Hid].
  assert (∀ k x, w_get o' k = Some x → P x) as Hprop by (intros k x Hx; by eapply (detached_property v o' k)).
  assert (∃ x, w_get o' (js "state") = Some x) as [x Hx].
  { unfold get in Ej. destruct (w_get o' (js "state")) as [x|]; [by exists x|]. by destruct (depth r v). }
  assert (get r o' (js "state") = look r x) as Hgx by (unfold get; by rewrite Hx). rewrite Hgx in Ej.
  pose proof (validateJson_unsafe r _ _ _ (js "#") _ Ej) as Ej'.
  destruct (validateJson_shows r P _ x _ _ (Hprop _ _ Hx) Ej') as [j Hj].
  pose proof Hj as (Ht & Hok & _).
  unfold input_snapshot. rewrite Hgx, (cloneJson_shows r _ _ j Ej' Hj). cbn [mbind result_bind].
  eexists. split; [done|]. rewrite E1, E2. split; cbn [ci_runId ci_checkpointId ci_sequence ci_createdAt ci_state text_of].
  - done.
  - done.
  - apply negb_false_iff in Hseq. destruct (get r o' (js "sequence")) as [| | |n| | |] eqn:En; try done.
    split; [|by eapply safe_integer_from_view]. unfold get in En.
    destruct (w_get o' (js "sequence")) as [y|] eqn:Ey; [|done]. exact (@detached_num _ r P _ y n (Hprop _ y Ey) En).
  - intros s. unfold get in *. destruct (w_get o' (js "createdAt")) as [y|] eqn:Ey; [|done].
    destruct (look r y) as [| | | |s'| |] eqn:El; try done. intros [= ->]. split; [exact (@detached_str _ r P _ y s (Hprop _ y Ey) El)|].
    by apply negb_false_iff in Hcreated.
  - split_and!; [by apply canonical_form_ok|by apply canonical_form_idem|]. apply canonical_form_safe.
    by eapply validateJson_safe.
Qed.

(** The text of the time of a checkpoint, and its body. *)
Definition created_at (now : option date) (c : checkpoint_input) : option jsstr :=
  match ci_createdAt c with Some s => Some s | None => toISOString <$> now end.
Definition body_of (c : checkpoint_input) (createdAt : jsstr) : checkpoint_body :=
  CheckpointBody (ci_runId c) (ci_checkpointId c) (ci_sequence c) createdAt (ci_state c).

Lemma body_of_ok c s : snapshot_ok c → str_wf s → body_ok (body_of c s).
Proof. intros [Hr Hi Hs _ (Hok & _ & Hsafe)] Hwf. by split. Qed.

Lemma padded_wf k n : str_wf (padded k n).
Proof.
  revert n. induction k as [|k IH]; intros n; cbn [padded]; [constructor|]. apply Forall_app. split; [apply IH|].
  apply Forall_singleton. pose proof (N.mod_upper_bound n 10 ltac:(done)). lia.
Qed.

Lemma toISOString_wf d : str_wf (toISOString d).
Proof.
  assert (∀ a b, str_wf a → str_wf b → str_wf (a ++ b)) as Happ by (intros; by apply Forall_app).
  assert (∀ c : string, bool_decide (str_wf (js c)) = true → str_wf (js c)) as Hlit
    by (intros c Hc; by apply bool_decide_eq_true in Hc).
  assert (str_wf (iso_year (d_year d))) as Hy.
  { unfold iso_year. destruct (within _ _ _); [apply padded_wf|]. apply Happ; [|apply padded_wf].
    destruct (d_year d <? 0)%Z; by apply Hlit. }
  unfold toISOString. repeat (apply Happ; [apply Hy || apply padded_wf || by apply Hlit|]). by apply Hlit.
Qed.

Lemma created_at_wf now c s : snapshot_ok c → created_at now c = Some s → str_wf s.
Proof.
  intros Hc. unfold created_at. destruct (ci_createdAt c) as [s'|] eqn:E.
  - intros [= ->]. by apply (so_created c Hc).
  - destruct now as [d|]; [|done]. intros [= <-]. apply toISOString_wf.
Qed.

(** The times that are accepted when a checkpoint is loaded. *)
Lemma created_at_strict now c s : snapshot_ok c → created_at now c = Some s →
  (∀ d, now = Some d → date_ok d = true ∧ (1 <= d_year d <= 9999)%Z) → strict_rfc3339 s = true.
Proof.
  intros Hc. unfold created_at. destruct (ci_createdAt c) as [s'|] eqn:E.
  - intros [= ->] _. by apply (so_created c Hc).
  - destruct now as [d|]; [|done]. intros [= <-] Hd. destruct (Hd d eq_refl) as [Hd1 Hd2].
    rewrite toISOString_strict by done. by apply within_iff.
Qed.

Section store.
Context (sha256 : list N → jsstr) (root : jsstr).
Hypothesis hex : hexadecimal sha256.

Abbreviation path_of c := (pathForCheckpoint sha256 root (ci_runId c) (ci_checkpointId c)).
(** The temporary file of a save. *)
Definition temporary (unique : jsstr) (c : checkpoint_input) : jsstr :=
  join_path (runDirectory sha256 root (ci_runId c))
    (js "." ++ identifierHash sha256 (ci_checkpointId c) ++ js "." ++ unique ++ js ".tmp").

Lemma join_path_inj directory a b : join_path directory a = join_path directory b → a = b.
Proof. unfold join_path. intros E. by case_bool_decide; simplify_list_eq. Qed.

(** No digest starts with a period. *)
Lemma digest_head s t rest : identifierHash sha256 s ++ t ≠ 46%N :: rest.
Proof using hex.
  pose proof (hex (utf8_encode s)) as Hs. unfold identifierHash. intros E.
  destruct (sha256 (utf8_encode s)) as [|c d]; [done|]. injection E as -> _.
  unfold SHA256 in Hs. by apply andb_true_iff in Hs as [_ Hs].
Qed.

Lemma join_path_open d name : last d ≠ Some 47%N → join_path d name = d ++ js "/" ++ name.
Proof. intros Hd. unfold join_path. by rewrite bool_decide_eq_false_2. Qed.

(** The directories of runs have paths of one length, which end in a digit. *)
Lemma runDirectory_path run : ∃ h, length h = 64%nat ∧
  ∀ name, join_path (runDirectory sha256 root run) name =
    (if bool_decide (last root = Some 47%N) then root else root ++ js "/") ++ h ++ js "/" ++ name.
Proof using hex.
  pose proof (hex (utf8_encode run)) as Hs. unfold runDirectory, identifierHash. set (h := sha256 (utf8_encode run)) in *.
  exists h. unfold SHA256 in Hs. apply andb_true_iff in Hs as [Hlen Hs]. apply Nat.eqb_eq in Hlen.
  split; [done|]. intros name.
  rewrite (join_path_open (join_path root h)).
  - unfold join_path. case_bool_decide; by rewrite <- !(assoc_L (++)).
  - assert (∀ a, last (a ++ h) ≠ Some 47%N) as Hlast.
    { intros a. rewrite last_app. destruct (last h) as [u|] eqn:El; [|apply last_None in El; by rewrite El in Hlen].
      intros [= ->]. rewrite forallb_forall in Hs. rewrite last_lookup in El.
      apply list_elem_of_lookup_2, list_elem_of_In, Hs in El. done. }
    unfold join_path. case_bool_decide; [apply Hlast|]. rewrite (assoc_L (++)). apply Hlast.
Qed.

Lemma temporary_fresh unique c run id :
  temporary unique c ≠ pathForCheckpoint sha256 root run id.
Proof using hex.
  unfold temporary, pathForCheckpoint. destruct (runDirectory_path (ci_runId c)) as (h1 & Hl1 & ->).
  destruct (runDirectory_path run) as (h2 & Hl2 & ->). intros E. apply app_inv_head in E.
  apply app_inj_1 in E as [_ E]; [|congruence]. apply app_inv_head in E. symmetry in E. exact (digest_head _ _ _ E).
Qed.

(** The operation after the values have been computed. *)
Definition write_steps (temp path : jsstr) (checkpoint : json) : io json :=
  try_catch (
    _ ← mkdir;
    _ ← open_exclusive temp;
    _ ← try_finally (write_checkpoint temp checkpoint) close;
    _ ← rename temp path;
    _ ← syncDirectory;
    lift (cloneJson json_reader (json_depth checkpoint) (json_view checkpoint)))
    (λ e, _ ← try_catch (unlink temp) (λ _, mret tt); throw (wrap_error (js "save checkpoint") path e)).

Lemma save_snapshot_steps now unique c s :
  snapshot_ok c → created_at now c = Some s →
  save_snapshot sha256 root now unique c =
    write_steps (temporary unique c) (path_of c) (sealed sha256 (body_of c s)).
Proof.
  intros Hc Hs. unfold save_snapshot. fold (created_at now c). rewrite Hs. fold (body_of c s).
  rewrite tree_hash_body by exact (body_of_ok c s Hc (created_at_wf now c s Hc Hs)). done.
Qed.

Lemma write_checkpoint_text temp j :
  json_ok j → write_checkpoint temp j = (_ ← write temp (utf8_encode (record_text j)); sync).
Proof. intros Hj. unfold write_checkpoint. by rewrite canonicalJson_tree. Qed.

Lemma sealed_ok b : body_ok b → json_ok (sealed sha256 b).
Proof using hex. intros Hb. apply body_props_ok; [done|]. by apply SHA256_wf, hex. Qed.

(** Saving on a file system that does not fail *)
Lemma write_steps_quiet f temp path b :
  body_ok b → f !! temp = None → temp ≠ path →
  write_steps temp path (sealed sha256 b) (Fs f []) =
    (Ok (canonical_form (sealed sha256 b)), Fs (<[path := sealed_bytes sha256 b]> f) []).
Proof using hex.
  intros Hb Hf Hne. unfold write_steps. apply try_catch_Ok.
  rewrite (io_bind_Ok _ _ _ _ _ (mkdir_quiet f)).
  rewrite (io_bind_Ok _ _ _ _ _ (open_exclusive_quiet f temp Hf)).
  rewrite (io_bind_Ok _ _ _ tt (Fs (<[temp := sealed_bytes sha256 b]> f) [])).
  2: { eapply try_finally_Ok; [|apply close_quiet]. rewrite write_checkpoint_text by by apply sealed_ok.
    rewrite (io_bind_Ok _ _ _ _ _ (write_quiet _ temp _)). by rewrite lookup_insert_eq, insert_insert_eq. }
  rewrite (io_bind_Ok _ _ _ _ _ (rename_quiet _ temp path (sealed_bytes sha256 b) (lookup_insert_eq _ _ _))).
  rewrite (io_bind_Ok _ _ _ _ _ (syncDirectory_quiet _)).
  unfold lift. rewrite cloneJson_tree by by apply sealed_ok. do 2 f_equal. by rewrite delete_insert_id.
Qed.
Lemma load_checkpoint_file f run id bytes :
  safe_identifier run = true → safe_identifier id = true →
  f !! pathForCheckpoint sha256 root run id = Some bytes →
  load_checkpoint sha256 root (WStr run : view value) (WStr id : view value) (Fs f []) =
    (value ← parse sha256 bytes run (Some id) (checkpoint_name sha256 id);
     v ← cloneJson json_reader (json_depth value) (json_view value); Ok (Some v), Fs f []) ∨
  ∃ e, parse sha256 bytes run (Some id) (checkpoint_name sha256 id) = Err e.
Proof.
  intros Hr Hi Hf. destruct (parse _ _ _ _ _) as [value|e] eqn:Ep; [left|right; by exists e].
  unfold load_checkpoint, assertSafeIdentifier. rewrite Hr, Hi.
  rewrite (io_bind_Ok (lift (Ok run)) _ _ run (Fs f [])) by done.
  rewrite (io_bind_Ok (lift (Ok id)) _ _ id (Fs f [])) by done.
  pose proof (readFile_quiet f (pathForCheckpoint sha256 root run id)) as Hread. rewrite Hf in Hread.
  rewrite (io_bind_Ok _ _ _ (Some value) (Fs f [])).
  2: { apply try_catch_Ok. rewrite (io_bind_Ok _ _ _ _ _ Hread). unfold lift.
    rewrite Ep. done. }
  cbn [mbind result_bind]. unfold lift, mbind, io_bind. by destruct (cloneJson _ _ _).
Qed.

(** Loading a corrupt record *)
Lemma load_corrupt f run id e :
  safe_identifier run = true → safe_identifier id = true →
  (∃ bytes, f !! pathForCheckpoint sha256 root run id = Some bytes ∧
    parse sha256 bytes run (Some id) (checkpoint_name sha256 id) = Err (Persistence e)) →
  (load_checkpoint sha256 root (WStr run : view value) (WStr id : view value) (Fs f [])).1 = Err (Persistence e).
Proof.
  intros Hr Hi (bytes & Hf & Hp). unfold load_checkpoint, assertSafeIdentifier. rewrite Hr, Hi.
  rewrite (io_bind_Ok (lift (Ok run)) _ _ run (Fs f [])) by done.
  rewrite (io_bind_Ok (lift (Ok id)) _ _ id (Fs f [])) by done.
  pose proof (readFile_quiet f (pathForCheckpoint sha256 root run id)) as Hread. rewrite Hf in Hread.
  rewrite (io_bind_Err _ _ _ (Persistence e) (Fs f [])); [done|]. unfold loadPath.
  rewrite (try_catch_Err _ _ _ (Persistence e) (Fs f [])); [done|].
  rewrite (io_bind_Ok _ _ _ _ _ Hread). apply io_bind_Err. unfold lift. by rewrite Hp.
Qed.

Lemma load_sealed f b :
  body_ok b → strict_rfc3339 (cb_createdAt b) = true →
  f !! pathForCheckpoint sha256 root (cb_runId b) (cb_checkpointId b) = Some (sealed_bytes sha256 b) →
  load_checkpoint sha256 root (WStr (cb_runId b) : view value) (WStr (cb_checkpointId b) : view value) (Fs f []) =
    (Ok (Some (canonical_form (sealed sha256 b))), Fs f []).
Proof using hex.
  intros Hb Hc Hf. pose proof Hb as [Hr Hi _ _ _].
  pose proof (parse_sealed sha256 b (Some (cb_checkpointId b)) hex Hb Hc (or_intror eq_refl)) as Hp.
  destruct (load_checkpoint_file f _ _ _ Hr Hi Hf) as [->|[e He]]; [|congruence].
  rewrite Hp. cbn [mbind result_bind]. pose proof (sealed_ok b Hb) as Hok.
  rewrite cloneJson_tree by by apply canonical_form_ok. cbn [mbind result_bind]. by rewrite canonical_form_idem.
Qed.

(** What [save] runs for an accepted input and a clock in range. *)
Lemma save_steps {V} (r : reader V) P `{!Detached r P} v o d unique :
  P v → validateCheckpointInput r (depth r v) (look r v) = Ok o →
  date_ok d = true → (1 <= d_year d <= 9999)%Z →
  ∃ c s, input_snapshot r (depth r v) o = Ok c ∧ canonical_form (ci_state c) = ci_state c ∧
    created_at (Some d) c = Some s ∧ body_ok (body_of c s) ∧ strict_rfc3339 s = true ∧
    ∀ w, save sha256 root r (depth r v) (Some d) unique (look r v) w =
      write_steps (temporary unique c) (path_of c) (sealed sha256 (body_of c s)) w.
Proof.
  intros HP Ho Hd Hy. destruct (input_snapshot_ok r P v o HP Ho) as (c & Hc & Hok).
  assert (∃ s, created_at (Some d) c = Some s) as [s Hs] by (unfold created_at; destruct (ci_createdAt c); by eexists).
  exists c, s. split_and!; [done|apply (so_state c Hok)|done| | |].
  - exact (body_of_ok c s Hok (created_at_wf _ _ _ Hok Hs)).
  - eapply created_at_strict; [exact Hok|exact Hs|]. by intros d' [= <-].
  - intros w. unfold save. rewrite Ho. rewrite (io_bind_Ok (lift (Ok o)) _ _ o w) by done.
    rewrite Hc. rewrite (io_bind_Ok (lift (Ok c)) _ _ c w) by done. by rewrite (save_snapshot_steps _ _ _ s).
Qed.

(** C22. A saved checkpoint is loaded again.  On a file system that does not fail, for
    every accepted input and a clock in the years 1 to 9999: [save] succeeds, [load]
    returns what it returned, a record of that run and identifier sealed by its hash,
    with the caller's state; and no other file changes. *)
Theorem save_then_load {V} (r : reader V) P `{!Detached r P} v o d unique f :
  P v → validateCheckpointInput r (depth r v) (look r v) = Ok o →
  date_ok d = true → (1 <= d_year d <= 9999)%Z → (∀ c, f !! temporary unique c = None) →
  ∃ c props f' b,
    input_snapshot r (depth r v) o = Ok c ∧
    record_ok sha256 (ci_runId c) (ci_checkpointId c) props b ∧ cb_state b = ci_state c ∧
    save sha256 root r (depth r v) (Some d) unique (look r v) (Fs f []) = (Ok (JObj props), Fs f' []) ∧
    load_checkpoint sha256 root (WStr (ci_runId c) : view value) (WStr (ci_checkpointId c) : view value) (Fs f' []) =
      (Ok (Some (JObj props)), Fs f' []) ∧
    ∀ p, p ≠ path_of c → f' !! p = f !! p.
Proof using hex.
  intros HP Ho Hd Hy Hfresh. destruct (save_steps r P v o d unique HP Ho Hd Hy) as (c & s & Hc & Hst & _ & Hb & Hstrict & Hsave).
  pose proof (write_steps_quiet f (temporary unique c) (path_of c) _ Hb (Hfresh c) (temporary_fresh unique c _ _)) as Hw.
  exists c, (canonical_props (body_props (body_of c s) ++ [(js "contentHash", JStr (seal sha256 (body_of c s)))])),
    (<[path_of c := sealed_bytes sha256 (body_of c s)]> f), (read_body (body_of c s)).
  split_and!; [done|exact (sealed_record sha256 (body_of c s) hex Hb Hstrict)|exact Hst| | |].
  - by rewrite Hsave.
  - apply (load_sealed _ (body_of c s) Hb Hstrict). by rewrite lookup_insert_eq.
  - intros p Hp. by rewrite lookup_insert_ne.
Qed.
(** ** When calls fail *)

(** Only the temporary file has changed; it holds [bytes]. *)
Definition others (f0 : gmap jsstr (list N)) (temp : jsstr) (f : gmap jsstr (list N)) : Prop :=
  ∀ p, p ≠ temp → f !! p = f0 !! p.
Definition holds (f0 : gmap jsstr (list N)) (temp : jsstr) (bytes : list N) (f : gmap jsstr (list N)) : Prop :=
  others f0 temp f ∧ f !! temp = Some bytes.
(** The new record is in place. *)
Definition replaced (f0 : gmap jsstr (list N)) (temp path : jsstr) (bytes : list N) (f : gmap jsstr (list N)) : Prop :=
  f !! path = Some bytes ∧ ∀ p, p ≠ temp → p ≠ path → f !! p = f0 !! p.
(** What may be left: the old record or the new one. *)
Definition old_or_new (f0 : gmap jsstr (list N)) (temp path : jsstr) (bytes : list N) (f : gmap jsstr (list N)) : Prop :=
  others f0 temp f ∨ replaced f0 temp path bytes f.

Lemma open_exclusive_triple f0 temp :
  f0 !! temp = None →
  triple (on_files (.= f0)) (open_exclusive temp)
    (λ r w, match r with Ok _ => on_files (holds f0 temp []) w | Err _ => on_files (others f0 temp) w end).
Proof.
  intros Hn. apply syscall_triple.
  - intros w [<- Hf]. unfold mbind, io_bind, contents, put. rewrite Hn. cbn. split; [|exact Hf]. cbn [files]. split.
    + intros p Hp. by rewrite lookup_insert_ne.
    + by rewrite lookup_insert_eq.
  - intros code w _ [<- Hf]. by split.
Qed.

Lemma write_temp_triple f0 temp data :
  triple (on_files (holds f0 temp [])) (write temp data)
    (λ r w, match r with Ok _ => on_files (holds f0 temp data) w | Err _ => on_files (others f0 temp) w end).
Proof.
  intros w Hw. pose proof (next_fault_triple _ w Hw) as Hn. unfold write, mbind, io_bind.
  destruct (next_fault w) as [[f|e] w']; [|by destruct Hn]. cbn [fst snd] in Hn.
  destruct Hn as [[[Ho Hp] Hf] _]. unfold contents. rewrite Hp. cbn [default from_option Datatypes.id app].
  destruct f as [f|]; cbn [put throw fst snd]; (split; [|exact Hf]); cbn [files].
  - intros p Hpp. rewrite lookup_insert_ne by done. by apply Ho.
  - split; [|by rewrite lookup_insert_eq]. intros p Hpp. rewrite lookup_insert_ne by done. by apply Ho.
Qed.

Lemma rename_triple f0 temp path bytes :
  temp ≠ path →
  triple (on_files (holds f0 temp bytes)) (rename temp path)
    (λ r w, match r with
      | Ok _ => on_files (λ f, replaced f0 temp path bytes f ∧ f !! temp = None) w
      | Err _ => on_files (others f0 temp) w end).
Proof.
  intros Hne. apply syscall_triple.
  - intros w [[Ho Hb] Hf]. unfold mbind, io_bind, contents. rewrite Hb. cbn. split; [|exact Hf]. cbn [files].
    split; [split|].
    + by rewrite lookup_insert_eq.
    + intros p Hp1 Hp2. rewrite lookup_insert_ne, lookup_delete_ne by done. by apply Ho.
    + by rewrite lookup_insert_ne, lookup_delete_eq.
  - intros code w _ [[Ho _] Hf]. by split.
Qed.

Lemma unlink_triple f0 temp path bytes :
  temp ≠ path →
  triple (on_files (old_or_new f0 temp path bytes)) (unlink temp)
    (λ _ w, on_files (old_or_new f0 temp path bytes) w).
Proof.
  intros Hne. apply syscall_triple; [|by intros]. intros w [Ho Hf]. unfold mbind, io_bind, contents.
  destruct (files w !! temp); cbn; [|done]. split; [|exact Hf]. cbn [files].
  destruct Ho as [Ho|[Hp Ho]]; [left|right].
  - intros p Hp. rewrite lookup_delete_ne by done. by apply Ho.
  - split; [by rewrite lookup_delete_ne|]. intros p Hp1 Hp2. rewrite lookup_delete_ne by done. by apply Ho.
Qed.

Lemma on_files_conseq (P Q : gmap jsstr (list N) → Prop) w : (∀ f, P f → Q f) → on_files P w → on_files Q w.
Proof. intros Hpq [Hp Hf]. split; [by apply Hpq|done]. Qed.

Lemma write_checkpoint_triple f0 temp b :
  body_ok b →
  triple (on_files (holds f0 temp [])) (try_finally (write_checkpoint temp (sealed sha256 b)) close)
    (λ r w, match r with
      | Ok _ => on_files (holds f0 temp (sealed_bytes sha256 b)) w | Err _ => on_files (others f0 temp) w end).
Proof using hex.
  intros Hb. rewrite write_checkpoint_text by by apply sealed_ok. fold (sealed_bytes sha256 b).
  apply (triple_try_finally _ _ _ (λ r w, match r with
    | Ok _ => on_files (holds f0 temp (sealed_bytes sha256 b)) w | Err _ => on_files (others f0 temp) w end)).
  - apply (triple_bind _ _ _ (λ _, on_files (holds f0 temp (sealed_bytes sha256 b)))).
    + eapply triple_conseq; [apply (write_temp_triple f0)|done|by intros [] w Hw].
    + intros _u. eapply triple_conseq; [apply (quiet_call_triple (holds f0 temp (sealed_bytes sha256 b)))|done|].
      intros [] w Hw; [done|]. revert Hw. apply on_files_conseq. by intros f [Hf _].
  - intros [u|e]; (eapply triple_conseq; [apply quiet_call_triple|done|]); intros [] w Hw; try done.
    revert Hw. apply on_files_conseq. by intros f [Hf _].
Qed.

Lemma write_steps_triple f0 temp path b :
  body_ok b → f0 !! temp = None → temp ≠ path →
  triple (on_files (.= f0)) (write_steps temp path (sealed sha256 b))
    (λ r w, on_files (old_or_new f0 temp path (sealed_bytes sha256 b)) w ∧
      ∀ v, r = Ok v →
        v = canonical_form (sealed sha256 b) ∧ replaced f0 temp path (sealed_bytes sha256 b) (files w) ∧
        files w !! temp = None).
Proof using hex.
  intros Hb Hn Hne. set (bytes := sealed_bytes sha256 b).
  set (O := on_files (old_or_new f0 temp path bytes)).
  assert (∀ w, on_files (others f0 temp) w → O w) as Hold by (intros w; apply on_files_conseq; by left).
  set (P := on_files (λ f, replaced f0 temp path bytes f ∧ f !! temp = None)).
  assert (∀ w, P w → O w) as Hnew by (intros w; apply on_files_conseq; intros f [Hf _]; by right).
  unfold write_steps. apply (triple_try_catch _ _ _ (λ _, O)).
  2: { intros e. apply (triple_bind _ _ _ (λ _, O)).
    - apply (triple_try_catch _ _ _ (λ _, O)); [|by intros e'; apply triple_ret].
      eapply triple_conseq; [by apply (unlink_triple f0 temp path bytes)|done|]. intros [] w Hw; [done|exact Hw].
    - intros _u. apply triple_throw. intros w Hw. by split. }
  apply (triple_bind _ mkdir _ (λ _, on_files (.= f0))).
  { eapply triple_conseq; [apply (quiet_call_triple (.= f0))|done|]. intros [] w Hw; [done|].
    apply Hold. revert Hw. apply on_files_conseq. by intros f ->. }
  intros _u. apply (triple_bind _ _ _ (λ _, on_files (holds f0 temp []))).
  { eapply triple_conseq; [by apply (open_exclusive_triple f0)|done|]. intros [] w Hw; [done|by apply Hold]. }
  intros _u'. apply (triple_bind _ _ _ (λ _, on_files (holds f0 temp bytes))).
  { eapply triple_conseq; [by apply (write_checkpoint_triple f0)|done|]. intros [] w Hw; [done|by apply Hold]. }
  intros _u2. apply (triple_bind _ _ _ (λ _, P)).
  { eapply triple_conseq; [by apply (rename_triple f0 temp path bytes)|done|]. intros [] w Hw; [done|by apply Hold]. }
  intros _u3. apply (triple_bind _ _ _ (λ _, P)).
  { eapply triple_conseq; [apply (syncDirectory_triple (λ f, replaced f0 temp path bytes f ∧ f !! temp = None))|done|].
    intros [] w Hw; [exact Hw|by apply Hnew]. }
  intros _u4 w Hw. unfold lift. cbn [fst snd]. rewrite cloneJson_tree by by apply sealed_ok.
  split; [by apply Hnew|]. intros v [= <-]. split; [done|apply Hw].
Qed.
(** Loading after the failures have passed. *)
Definition reload_checkpoint (f : gmap jsstr (list N)) (run id : jsstr) : result exn (option json) :=
  (load_checkpoint sha256 root (WStr run : view value) (WStr id : view value) (Fs f [])).1.

Lemma reload_same f f' run id :
  f !! pathForCheckpoint sha256 root run id = f' !! pathForCheckpoint sha256 root run id →
  reload_checkpoint f run id = reload_checkpoint f' run id.
Proof.
  intros Hp. unfold reload_checkpoint, load_checkpoint, loadPath, assertSafeIdentifier, lift, mbind, io_bind, try_catch.
  destruct (safe_identifier run); [|done]. destruct (safe_identifier id); [|done].
  rewrite !readFile_quiet, Hp. destruct (f' !! _) as [bytes|]; [|done].
  destruct (parse _ _ _ _ _) as [value|e]; unfold mret, io_ret, throw; cbv beta iota; cbn [fst snd].
  - by destruct (cloneJson json_reader (json_depth value) (json_view value)).
  - destruct (isErrno e ENOENT); [done|]. by destruct e.
Qed.

(** C23. A save that fails half-way damages nothing.  Whatever calls of the file system
    fail, and whatever part of the bytes a failing write leaves behind, every checkpoint
    loads afterwards as it did before, except that the one being saved may load as the
    new record: a record of its run and identifier, sealed by its hash, with the
    caller's state and sequence and the caller's time, or the clock's.  When [save]
    returns, it returns that record, the record loads, and the temporary file is gone. *)
Theorem save_survives_failures {V} (r : reader V) P `{!Detached r P} v o d unique f0 failures :
  P v → validateCheckpointInput r (depth r v) (look r v) = Ok o →
  date_ok d = true → (1 <= d_year d <= 9999)%Z → (∀ c, f0 !! temporary unique c = None) →
  faults_ok (Fs f0 failures) →
  ∃ c props b, input_snapshot r (depth r v) o = Ok c ∧
    record_ok sha256 (ci_runId c) (ci_checkpointId c) props b ∧
    cb_state b = ci_state c ∧ cb_sequence b = num_unsign_zero (ci_sequence c) ∧
    created_at (Some d) c = Some (cb_createdAt b) ∧
    let '(res, w) := save sha256 root r (depth r v) (Some d) unique (look r v) (Fs f0 failures) in
    (∀ run id, reload_checkpoint (files w) run id = reload_checkpoint f0 run id ∨
       pathForCheckpoint sha256 root run id = path_of c ∧
       reload_checkpoint (files w) (ci_runId c) (ci_checkpointId c) = Ok (Some (JObj props))) ∧
    (∀ v', res = Ok v' → v' = JObj props ∧
       reload_checkpoint (files w) (ci_runId c) (ci_checkpointId c) = Ok (Some v') ∧
       files w !! temporary unique c = None).
Proof using hex.
  intros HP Ho Hd Hy Hfresh Hfaults.
  destruct (save_steps r P v o d unique HP Ho Hd Hy) as (c & s & Hc & Hst & Hcreated & Hb & Hstrict & Hsave).
  exists c, (canonical_props (body_props (body_of c s) ++ [(js "contentHash", JStr (seal sha256 (body_of c s)))])),
    (read_body (body_of c s)).
  split_and!; [done|exact (sealed_record sha256 (body_of c s) hex Hb Hstrict)|exact Hst|done|done|].
  set (record := JObj (canonical_props _)). change record with (canonical_form (sealed sha256 (body_of c s))). clear record.
  pose proof (write_steps_triple f0 (temporary unique c) (path_of c) _ Hb (Hfresh c) (temporary_fresh unique c _ _)
    (Fs f0 failures) (conj eq_refl Hfaults)) as Hw.
  rewrite Hsave.
  destruct (write_steps _ _ _ _) as [res w]. cbn [fst snd] in Hw. destruct Hw as [[Hon _] Hres].
  assert (∀ f, replaced f0 (temporary unique c) (path_of c) (sealed_bytes sha256 (body_of c s)) f →
    reload_checkpoint f (ci_runId c) (ci_checkpointId c) = Ok (Some (canonical_form (sealed sha256 (body_of c s))))) as Hnew.
  { intros f [Hf _]. exact (f_equal fst (load_sealed f (body_of c s) Hb Hstrict Hf)). }
  split.
  - intros run id. destruct (decide (pathForCheckpoint sha256 root run id = path_of c)) as [Hp|Hp].
    + destruct Hon as [Hon|Hon]; [left|right; split; [done|by apply Hnew]].
      apply reload_same, Hon. intros E. symmetry in E. rewrite Hp in E. by eapply temporary_fresh in E.
    + left. apply reload_same. assert (pathForCheckpoint sha256 root run id ≠ temporary unique c) as Ht.
      { intros E. symmetry in E. by eapply temporary_fresh in E. }
      destruct Hon as [Hon|[_ Hon]]; by apply Hon.
  - intros v' Hv'. destruct (Hres v' Hv') as (-> & H1 & H2). split_and!; [done|by apply Hnew|done].
Qed.
(** ** A clock out of range *)

Lemma parse_not_strict b :
  body_ok b → strict_rfc3339 (cb_createdAt b) = false →
  parse sha256 (sealed_bytes sha256 b) (cb_runId b) (Some (cb_checkpointId b)) (checkpoint_name sha256 (cb_checkpointId b)) =
    Err (corrupt_checkpoint (cb_runId b) (cb_checkpointId b) (js "checkpoint envelope does not match v1alpha1")).
Proof using hex.
  intros Hb Hc. pose proof (sealed_ok b Hb) as Hok. pose proof (canonical_form_ok _ Hok) as Hok'.
  unfold parse, sealed_bytes, sealed, stored_checkpoint in *.
  rewrite record_decode by exact Hok. unfold record_text, ends_with_newline. rewrite last_snoc, bool_decide_eq_true_2 by done.
  cbn [negb]. rewrite length_app, Nat.add_sub, take_app_length.
  rewrite json_parse_serialize by exact Hok. change (canonical_form (JObj ?p)) with (JObj (canonical_props p)) in *.
  set (fields := body_props b ++ [(js "contentHash", JStr (seal sha256 b))]) in *.
  pose proof (proj1 (json_ok_obj _) Hok) as (Hnd & _). pose proof (proj1 (json_ok_obj _) Hok') as (Hnd' & _).
  assert (∀ k j, (k, j) ∈ fields → get_own k (canonical_props fields) = Some (canonical_form j)) as Hget
    by (intros k j Hk; rewrite get_own_canonical, (get_own_NoDup _ k j) by done; done).
  assert (string_field (canonical_props fields) "checkpointId" = Some (cb_checkpointId b)) as Hi
    by (apply string_field_Some, (Hget _ (JStr (cb_checkpointId b))); unfold fields, body_props; set_solver).
  unfold parse_envelope. rewrite Hi.
  assert ((canonical_props fields).*1 ≡ₚ CHECKPOINT_KEYS) as Hkeys by by rewrite canonical_props_keys.
  apply keys_match in Hkeys; [|done]. apply andb_true_iff in Hkeys as [-> ->]. cbn [negb orb].
  destruct (envelope_matches _) eqn:Em; [|done].
  apply envelope_matches_iff in Em as (? & ? & ? & created & ? & _ & _ & _ & _ & _ & Hcr & Hcr' & _).
  rewrite (Hget (js "createdAt") (JStr (cb_createdAt b))) in Hcr by (unfold fields, body_props; set_solver).
  injection Hcr as <-. congruence.
Qed.

(** [save] does not check its own clock.  When the caller gives no time and the
    clock is before the year 1 or after 9999, [save] succeeds, and the checkpoint it
    has written cannot be loaded: its own record is reported corrupt. *)
Theorem save_out_of_range {V} (r : reader V) P `{!Detached r P} v o c d unique f :
  P v → validateCheckpointInput r (depth r v) (look r v) = Ok o →
  input_snapshot r (depth r v) o = Ok c → ci_createdAt c = None →
  date_ok d = true → ¬ (1 <= d_year d <= 9999)%Z → f !! temporary unique c = None →
  let '(res, w) := save sha256 root r (depth r v) (Some d) unique (look r v) (Fs f []) in
  (∃ saved, res = Ok saved) ∧
  (load_checkpoint sha256 root (WStr (ci_runId c) : view value) (WStr (ci_checkpointId c) : view value) w).1 =
    Err (corrupt_checkpoint (ci_runId c) (ci_checkpointId c) (js "checkpoint envelope does not match v1alpha1")).
Proof using hex.
  intros HP Ho Hc Hnone Hd Hy Hfresh. destruct (input_snapshot_ok r P v o HP Ho) as (c' & Hc' & Hok).
  assert (c' = c) as -> by congruence.
  assert (created_at (Some d) c = Some (toISOString d)) as Hs by (unfold created_at; by rewrite Hnone).
  pose proof (body_of_ok c _ Hok (created_at_wf _ _ _ Hok Hs)) as Hb.
  assert (strict_rfc3339 (toISOString d) = false) as Hstrict.
  { rewrite toISOString_strict by done. apply not_true_iff_false. intros E. by apply within_iff in E. }
  pose proof (parse_not_strict (body_of c (toISOString d)) Hb Hstrict) as Hp.
  unfold save. rewrite Ho. rewrite (io_bind_Ok (lift (Ok o)) _ _ o (Fs f [])) by done.
  rewrite Hc. rewrite (io_bind_Ok (lift (Ok c)) _ _ c (Fs f [])) by done.
  rewrite (save_snapshot_steps _ _ _ _ Hok Hs).
  rewrite (write_steps_quiet f _ _ _ Hb Hfresh (temporary_fresh unique c _ _)). split; [by eexists|].
  apply load_corrupt; [apply Hok..|]. rewrite lookup_insert_eq. by eexists.
Qed.
End store.

(** *** A sample input *)

Definition sample_input : json := default JNull (json_parse (jsq
  "{'runId':'run-1','checkpointId':'first','sequence':12,'state':{'b':[1,null],'a':'x'}}")).
Definition sample_object : object_view json :=
  match validateCheckpointInput json_reader (json_depth sample_input) (json_view sample_input) with
  | Ok o => o | Err _ => ObjectView None false None true 0 [] [] (λ _, None) end.
Definition sample_snapshot : checkpoint_input :=
  match input_snapshot json_reader (json_depth sample_input) sample_object with
  | Ok c => c | Err _ => CheckpointInput [] [] (num_of_Z 0) None JNull end.
Definition sample_date (year : Z) : date := Date year 2 28 12 0 0 5.

Lemma sample_accepted :
  json_ok sample_input ∧
  validateCheckpointInput json_reader (depth json_reader sample_input) (look json_reader sample_input) = Ok sample_object.
Proof. split; [vm_compute; reflexivity|]. vm_compute. reflexivity. Qed.

Lemma save_then_load_witness :
  ∃ c props f', input_snapshot json_reader (json_depth sample_input) sample_object = Ok c ∧
    load_checkpoint zero_digest (js "/c") (WStr (ci_runId c) : view value) (WStr (ci_checkpointId c) : view value)
      (Fs f' []) = (Ok (Some (JObj props)), Fs f' []).
Proof.
  destruct sample_accepted as [Hok Ho].
  destruct (save_then_load zero_digest (js "/c") zero_digest_hexadecimal json_reader json_ok sample_input sample_object
    (sample_date 2024) (js "1.u") ∅ Hok Ho eq_refl ltac:(vm_compute; split; discriminate) (λ c, lookup_empty _))
    as (c & props & f' & b & Hc & _ & _ & _ & Hl & _).
  exists c, props, f'. split; [exact Hc|exact Hl].
Defined.

Lemma save_survives_failures_witness :
  let failures := [None; None; Some (Fault (js "ENOSPC") 7); None; Some (Fault (js "EIO") 0)] in
  let '(res, w) := save zero_digest (js "/c") json_reader (json_depth sample_input) (Some (sample_date 2024)) (js "1.u")
    (json_view sample_input) (Fs ∅ failures) in
  size (files w) = 1%nat ∧
  (∀ v, res = Ok v → files w !! temporary zero_digest (js "/c") (js "1.u") sample_snapshot = None).
Proof.
  destruct sample_accepted as [Hok Ho].
  assert (faults_ok (Fs ∅ [None; None; Some (Fault (js "ENOSPC") 7); None; Some (Fault (js "EIO") 0)])) as Hf
    by (repeat constructor; naive_solver).
  destruct (save_survives_failures zero_digest (js "/c") zero_digest_hexadecimal json_reader json_ok sample_input
    sample_object (sample_date 2024) (js "1.u") ∅ _ Hok Ho eq_refl ltac:(vm_compute; split; discriminate)
    (λ c, lookup_empty _) Hf) as (c & props & b & Hc & _ & _ & _ & _ & H).
  assert (input_snapshot json_reader (depth json_reader sample_input) sample_object = Ok sample_snapshot) as Hc'
    by (vm_compute; reflexivity).
  rewrite Hc' in Hc. injection Hc as <-. cbv zeta.
  match goal with |- let '(_, _) := ?m in _ => assert (size (files m.2) = 1%nat) as Hsize by (vm_compute; reflexivity) end.
  cbn [depth look json_reader] in H. destruct (save _ _ _ _ _ _ _ _) as [res w]. split; [exact Hsize|].
  intros v Hv. exact (proj2 (proj2 (proj2 H v Hv))).
Defined.

Lemma save_out_of_range_witness :
  let '(res, w) := save zero_digest (js "/c") json_reader (json_depth sample_input) (Some (sample_date 10000)) (js "1.u")
    (json_view sample_input) (Fs ∅ []) in
  (∃ saved, res = Ok saved) ∧
  (load_checkpoint zero_digest (js "/c") (WStr (js "run-1") : view value) (WStr (js "first") : view value) w).1 =
    Err (corrupt_checkpoint (js "run-1") (js "first") (js "checkpoint envelope does not match v1alpha1")).
Proof.
  destruct sample_accepted as [Hok Ho].
  assert (input_snapshot json_reader (depth json_reader sample_input) sample_object = Ok sample_snapshot) as Hc
    by (vm_compute; reflexivity).
  exact (save_out_of_range zero_digest (js "/c") zero_digest_hexadecimal json_reader json_ok sample_input sample_object
    sample_snapshot (sample_date 10000) (js "1.u") ∅ Hok Ho Hc eq_refl eq_refl ltac:(vm_compute; intros [_ H]; exact (H eq_refl))
    (lookup_empty _)).
Defined.
