(* ===== verification/CheckpointList.v ===== *)
(** * Listing checkpoints

    [list] reads every record of a run's directory and sorts by sequence, then by
    identifier. *)
From S2P Require Import Prelude JsString JsNumber JsValue JsonText NumberText Canonical CanonicalSpec.
From S2P Require Import JsonRoundTrip Views Utf8 DateTime PersistenceJson PersistenceJsonSpec Events.
From S2P Require Import EventsSpec FileSystem EventStores EventLog EventStoresSpec.
From S2P Require Import EventStoresTheorems Checkpoints CheckpointsSpec CheckpointsTheorems.

#[export] Instance checkpoint_comparator : Comparator compare_checkpoints.
Proof.
  split.
  - intros x y. unfold cmp_le, compare_checkpoints.
    destruct (comparator_total (cmp:=compareUnicodeCodePoints) (checkpoint_id x) (checkpoint_id y)) as [Hc|Hc];
      unfold cmp_le in Hc; destruct (Z.eqb_spec (checkpoint_sequence x - checkpoint_sequence y) 0);
      destruct (Z.eqb_spec (checkpoint_sequence y - checkpoint_sequence x) 0); lia.
  - intros x y z. unfold cmp_le, compare_checkpoints.
    pose proof (comparator_trans (cmp:=compareUnicodeCodePoints) (checkpoint_id x) (checkpoint_id y) (checkpoint_id z)) as Ht.
    unfold cmp_le in Ht. destruct (Z.eqb_spec (checkpoint_sequence x - checkpoint_sequence y) 0);
      destruct (Z.eqb_spec (checkpoint_sequence y - checkpoint_sequence z) 0);
      destruct (Z.eqb_spec (checkpoint_sequence x - checkpoint_sequence z) 0); lia.
Qed.

Lemma strip_prefix_Some p s t : strip_prefix p s = Some t ↔ s = p ++ t.
Proof.
  revert s. induction p as [|c p IH]; intros s; cbn [strip_prefix].
  - split; [by intros [= ->]|by intros ->].
  - destruct s as [|d s]; [by split|]. destruct (N.eqb_spec c d) as [->|Hne].
    + rewrite IH. split; [by intros ->|by intros [= ->]].
    + split; [done|]. by intros [= ? ?].
Qed.

(** The names of files. *)
Definition file_name (name : jsstr) : Prop := 47%N ∉ name ∧ name ≠ [].

Lemma entry_name_Some directory path name :
  entry_name directory path = Some name ↔ path = join_path directory name ∧ file_name name.
Proof.
  assert (∀ name, join_path directory [] ++ name = join_path directory name) as Hj.
  { intros n. unfold join_path. case_bool_decide; [by rewrite app_nil_r|by rewrite <- !(assoc_L (++))]. }
  unfold entry_name, file_name. destruct (strip_prefix _ _) as [n|] eqn:E.
  - apply strip_prefix_Some in E as ->. rewrite Hj. split.
    + case_bool_decide; [done|]. case_bool_decide; [done|]. by intros [= ->].
    + intros [Hn [H1 H2]]. apply join_path_inj in Hn as ->. by rewrite !bool_decide_eq_false_2.
  - split; [done|]. intros [-> _]. assert (strip_prefix (join_path directory []) (join_path directory name) = Some name)
      by (apply strip_prefix_Some; by rewrite Hj). congruence.
Qed.

Section listing.
Context (sha256 : list N → jsstr) (root run : jsstr) (f : gmap jsstr (list N)).
Hypothesis hex : hexadecimal sha256.
Hypothesis run_safe : safe_identifier run = true.

Abbreviation directory := (runDirectory sha256 root run).

(** The records of the run that list: a name, its bytes, and what they parse to. *)
Definition record_at (name : jsstr) (v : json) : Prop :=
  file_name name ∧ has_suffix name = true ∧
  ∃ bytes, f !! join_path directory name = Some bytes ∧ parse sha256 bytes run None name = Ok v.
Definition listable : Prop :=
  ∀ name bytes, file_name name → has_suffix name = true → f !! join_path directory name = Some bytes →
    ∃ v, parse sha256 bytes run None name = Ok v.

Lemma readdir_quiet :
  ∃ names, readdir directory (Fs f []) = (Ok names, Fs f []) ∧
    ∀ name, name ∈ names ↔ file_name name ∧ is_Some (f !! join_path directory name).
Proof.
  eexists. split; [done|]. cbn [files]. intros name. rewrite list_elem_of_omap. split.
  - intros (path & Hp & Hn). apply entry_name_Some in Hn as [-> Hn]. split; [done|].
    apply list_elem_of_fmap in Hp as ([p b] & -> & Hp). apply elem_of_map_to_list in Hp. by eexists.
  - intros [Hn [b Hb]]. exists (join_path directory name). split; [|by apply entry_name_Some].
    apply list_elem_of_fmap. exists (join_path directory name, b). split; [done|]. by apply elem_of_map_to_list.
Qed.

Lemma load_all_quiet names :
  (∀ name, name ∈ names → ∃ v, record_at name v) →
  ∃ cs, load_all sha256 directory run names (Fs f []) = (Ok cs, Fs f []) ∧
    Forall2 record_at names cs.
Proof.
  induction names as [|name names IH]; intros Hall; [by exists []|].
  destruct (Hall name) as [v Hv]; [by left|]. destruct IH as (cs & Hcs & Hf); [intros n Hn; apply Hall; by right|].
  exists (v :: cs). split; [|by constructor]. cbn [load_all].
  pose proof Hv as (_ & _ & bytes & Hb & Hp).
  pose proof (readFile_quiet f (join_path directory name)) as Hread. rewrite Hb in Hread.
  rewrite (io_bind_Ok _ _ _ (Some v) (Fs f [])).
  - by rewrite (io_bind_Ok _ _ _ _ _ Hcs).
  - unfold loadPath. apply try_catch_Ok. rewrite (io_bind_Ok _ _ _ _ _ Hread). unfold lift. by rewrite Hp.
Qed.
(** A record is accepted with its identifier when it is accepted without. *)
Lemma parse_envelope_named props v name :
  parse_envelope sha256 run None name props = Ok v ↔
  ∃ id, safe_identifier id = true ∧ name = checkpoint_name sha256 id ∧
    parse_envelope sha256 run (Some id) name props = Ok v.
Proof.
  unfold parse_envelope. destruct (negb (forallb _ props.*1) || _); [split; [done|by intros (? & ? & ? & ?)]|].
  destruct (envelope_matches props) eqn:Em; cbn [negb]; [|split; [done|by intros (? & ? & ? & ?)]].
  apply envelope_matches_iff in Em as (r & id & n & created & hash & _ & _ & Hi & _).
  apply string_field_Some in Hi. rewrite Hi. cbn [default from_option Datatypes.id].
  destruct (safe_identifier (default [] _)); cbn [andb negb]; [|split; [done|by intros (? & ? & ? & ?)]].
  destruct (safe_identifier id) eqn:Es; cbn [negb]; [|split; [done|by intros (? & ? & ? & ?)]].
  destruct (negb (bool_decide (default [] _ = run))); [split; [done|by intros (? & ? & ? & ?)]|].
  split.
  - intros Hv. exists id. split; [done|]. revert Hv. case_bool_decide as Hn; cbn [negb]; [|done]. intros Hv.
    split; [done|]. rewrite bool_decide_eq_true_2 by done. exact Hv.
  - intros (id' & _ & _ & Hv). revert Hv. case_bool_decide as Hid; cbn [negb]; [|done]. done.
Qed.

Lemma parse_named bytes name v :
  parse sha256 bytes run None name = Ok v ↔
  ∃ id, safe_identifier id = true ∧ name = checkpoint_name sha256 id ∧ parse sha256 bytes run (Some id) name = Ok v.
Proof.
  unfold parse. destruct (utf8_decode bytes) as [text|]; [|split; [done|by intros (? & ? & ? & ?)]].
  destruct (negb (ends_with_newline text)); [split; [done|by intros (? & ? & ? & ?)]|].
  destruct (json_parse _) as [[| | | | |props]|]; try (split; [done|by intros (? & ? & ? & ?)]).
  apply parse_envelope_named.
Qed.

Lemma checkpoint_name_file id : file_name (checkpoint_name sha256 id) ∧ has_suffix (checkpoint_name sha256 id) = true.
Proof using hex.
  pose proof (hex (utf8_encode id)) as Hs. unfold checkpoint_name, identifierHash. set (h := sha256 (utf8_encode id)) in *.
  unfold SHA256 in Hs. apply andb_true_iff in Hs as [Hlen Hs]. apply Nat.eqb_eq in Hlen. split; [split|].
  - rewrite not_elem_of_app. split; [|by apply (bool_decide_unpack _); vm_compute].
    intros Hin. rewrite forallb_forall in Hs. by apply list_elem_of_In, Hs in Hin.
  - intros E. apply app_eq_nil in E as [E _]. by rewrite E in Hlen.
  - unfold has_suffix. rewrite length_app, Nat.add_sub, drop_app_length.
    rewrite (proj2 (Nat.leb_le _ _)) by lia. by rewrite bool_decide_eq_true_2.
Qed.

(** [list] is complete and ordered.  When every record in the run's directory is
    valid, [list] returns a summary of exactly the checkpoints of the run that [load]
    finds, sorted by sequence and then by identifier, and changes nothing. *)
Theorem list_checkpoints_complete :
  listable →
  ∃ cs, list_checkpoints sha256 root (WStr run : view value) (Fs f []) = (Ok (checkpointSummary <$> cs), Fs f []) ∧
    StronglySorted (cmp_le compare_checkpoints) cs ∧
    ∀ v, v ∈ cs ↔ ∃ id bytes, safe_identifier id = true ∧ f !! pathForCheckpoint sha256 root run id = Some bytes ∧
      parse sha256 bytes run (Some id) (checkpoint_name sha256 id) = Ok v.
Proof using hex run_safe.
  intros Hl. destruct readdir_quiet as (names & Hread & Hnames).
  set (chosen := sort_by compareUnicodeCodePoints (filter (λ name, has_suffix name = true) names)).
  assert (∀ name, name ∈ chosen ↔ file_name name ∧ has_suffix name = true ∧ is_Some (f !! join_path directory name)) as Hchosen.
  { intros name. unfold chosen. rewrite elem_of_sort_by, list_elem_of_filter, Hnames. tauto. }
  destruct (load_all_quiet chosen) as (cs & Hcs & Hrec).
  { intros name Hn. apply Hchosen in Hn as (H1 & H2 & bytes & Hb). destruct (Hl name bytes H1 H2 Hb) as [v Hv].
    exists v. split_and!; [done..|]. by exists bytes. }
  exists (sort_by compare_checkpoints cs). split_and!.
  - unfold list_checkpoints, assertSafeIdentifier. rewrite run_safe.
    rewrite (io_bind_Ok (lift (Ok run)) _ _ run (Fs f [])) by done.
    rewrite (io_bind_Ok _ _ _ (filter (λ name, has_suffix name = true) names) (Fs f [])).
    + fold chosen. by rewrite (io_bind_Ok _ _ _ _ _ Hcs).
    + apply try_catch_Ok. by rewrite (io_bind_Ok _ _ _ _ _ Hread).
  - apply sort_by_sorted; apply _.
  - intros v. rewrite elem_of_sort_by. split.
    + intros Hv. apply list_elem_of_lookup in Hv as [i Hi]. destruct (Forall2_lookup_r _ _ _ _ _ Hrec Hi) as (name & _ & Hr).
      destruct Hr as (_ & _ & bytes & Hb & Hp). apply parse_named in Hp as (id & Hid & -> & Hp). by exists id, bytes.
    + intros (id & bytes & Hid & Hb & Hp). destruct (checkpoint_name_file id) as [H1 H2].
      assert (checkpoint_name sha256 id ∈ chosen) as Hin by (apply Hchosen; split_and!; [done..|by exists bytes]).
      apply list_elem_of_lookup in Hin as [i Hi]. destruct (Forall2_lookup_l _ _ _ _ _ Hrec Hi) as (v' & Hv' & Hr).
      destruct Hr as (_ & _ & bytes' & Hb' & Hp'). apply list_elem_of_lookup_2 in Hv'.
      assert (parse sha256 bytes run None (checkpoint_name sha256 id) = Ok v) as Hn by (apply parse_named; by exists id).
      unfold pathForCheckpoint in Hb. congruence.
Qed.
End listing.

(** One valid record beside a file that is not a checkpoint. *)
Definition sample_files : gmap jsstr (list N) :=
  <[pathForCheckpoint zero_digest (js "/c") (js "run-1") (js "first") := sealed_bytes zero_digest sample_body]>
  (<[join_path (runDirectory zero_digest (js "/c") (js "run-1")) (js "note.txt") := [104%N]]> ∅).

Lemma sample_listable : listable zero_digest (js "/c") (js "run-1") sample_files.
Proof.
  intros name bytes _ Hsuffix Hb. unfold sample_files in Hb.
  apply lookup_insert_Some in Hb as [[Hn <-]|[_ Hb]].
  - unfold pathForCheckpoint in Hn. apply join_path_inj in Hn as <-.
    assert (is_Some (match parse zero_digest (sealed_bytes zero_digest sample_body) (js "run-1") None
      (checkpoint_name zero_digest (js "first")) with Ok v => Some v | Err _ => None end)) as [v Hv]
      by (vm_compute; eexists; reflexivity).
    destruct (parse _ _ _ _ _) as [v'|]; [by exists v'|done].
  - apply lookup_insert_Some in Hb as [[Hn _]|[_ Hb]]; [|by rewrite lookup_empty in Hb].
    apply join_path_inj in Hn as <-. vm_compute in Hsuffix. discriminate.
Qed.

Lemma list_checkpoints_complete_witness :
  ∃ cs, list_checkpoints zero_digest (js "/c") (WStr (js "run-1") : view value) (Fs sample_files []) =
      (Ok (checkpointSummary <$> cs), Fs sample_files []) ∧
    StronglySorted (cmp_le compare_checkpoints) cs.
Proof.
  destruct (list_checkpoints_complete zero_digest (js "/c") (js "run-1") sample_files zero_digest_hexadecimal eq_refl
    sample_listable) as (cs & Hl & Hs & _).
  exists cs. split; [exact Hl|exact Hs].
Defined.
