(* ===== verification/Dag.v ===== *)
(** * Finite directed graphs

    The vocabulary in which the compiler and the scheduler are specified: edges as
    a list of pairs, chains (paths counted by their number of edges), cycles, and
    levels by longest incoming chain. *)
From S2P Require Import Prelude.

Section graph.
Context {V : Type} `{EqDecision V} (ids : list V) (E : list (V * V)).

Definition edge (u v : V) : Prop := (u, v) ∈ E.

(** A path of [k] edges ends in [v]. *)
Fixpoint chain (k : nat) (v : V) : Prop :=
  match k with 0 => True | S k => ∃ u, edge u v ∧ chain k u end.

(** No vertex lies on a cycle. *)
Definition acyclic : Prop := ∀ v, ¬ tc edge v v.

(** All edges join declared vertices. *)
Definition closed : Prop := ∀ u v, edge u v → u ∈ ids ∧ v ∈ ids.

#[export] Instance edge_dec u v : Decision (edge u v).
Proof. unfold edge. apply _. Defined.

#[export] Instance chain_dec k v : Decision (chain k v).
Proof.
  revert v. induction k as [|k IH]; intros v; simpl; [apply _|].
  refine (cast_if (decide (Exists (λ e : V * V, e.2 = v ∧ chain k e.1) E))).
  - abstract (apply Exists_exists in e as ([u w] & Hin & Hw & Hu); simpl in *; subst; by exists u).
  - abstract (intros (u & Hu & Hk); apply n, Exists_exists; by exists (u, v)).
Defined.

(** The vertices whose longest incoming chain has exactly [k] edges. *)
Definition level (k : nat) : list V := filter (λ v, chain k v ∧ ¬ chain (S k) v) ids.

(** ** Chains *)
Lemma chain_S k v : chain (S k) v → chain k v.
Proof.
  revert v. induction k as [|k IH]; intros v; [done|].
  intros (u & Hu & Hc). exists u. split; [done|]. by apply IH.
Qed.

Lemma chain_le j k v : j ≤ k → chain k v → chain j v.
Proof. induction 1 as [|k _ IH]; [done|]. intros Hc. apply IH. by apply chain_S. Qed.

Lemma tc_last u v : tc edge u v → ∃ w, rtc edge u w ∧ edge w v.
Proof.
  induction 1 as [u v H|u w v H _ (x & Hx & Hxv)]; [by exists u|].
  exists x. split; [by eapply rtc_l|done].
Qed.

(** Everything a cycle reaches has arbitrarily long incoming chains. *)
Lemma chain_cycle u v k : tc edge u u → rtc edge u v → chain k v.
Proof.
  intros Hcycle. revert v. induction k as [|k IH]; intros v Hv; [done|].
  destruct (tc_last u v) as (w & Huw & Hwv); [by eapply tc_rtc_r|].
  exists w. split; [done|]. by apply IH.
Qed.

(** The vertices of a path, last one first. *)
Inductive path_to : V → list V → Prop :=
  | path_start v : path_to v [v]
  | path_step u v p : edge u v → path_to u p → path_to v (v :: p).

Lemma chain_path k v : chain k v → ∃ p, path_to v p ∧ length p = S k.
Proof.
  revert v. induction k as [|k IH]; intros v; simpl.
  - intros _. exists [v]. split; [constructor|done].
  - intros (u & Hu & Hc). destruct (IH u Hc) as (p & Hp & Hlen).
    exists (v :: p). split; [by econstructor|]. simpl. by rewrite Hlen.
Qed.

Lemma path_rtc v p w : path_to v p → w ∈ p → rtc edge w v.
Proof.
  induction 1 as [v|u v p Hu _ IH].
  - intros ->%list_elem_of_singleton. done.
  - intros [->|Hw]%elem_of_cons; [done|]. eapply rtc_r; [by apply IH|done].
Qed.

(** A path that repeats a vertex goes around a cycle. *)
Lemma path_repeat v p : path_to v p → ¬ NoDup p → ∃ u, tc edge u u ∧ rtc edge u v.
Proof.
  induction 1 as [v|u v p Hu Hp IH]; intros Hnd.
  - destruct Hnd. apply NoDup_singleton.
  - destruct (decide (v ∈ p)) as [Hv|Hv].
    + exists v. split; [|done]. eapply tc_rtc_l; [by eapply path_rtc|by apply tc_once].
    + destruct IH as (w & Hw & Hwu); [|exists w; split; [done|by eapply rtc_r]].
      intros Hnd'. apply Hnd. by constructor.
Qed.

Lemma path_subseteq v p : closed → v ∈ ids → path_to v p → p ⊆ ids.
Proof.
  intros Hc Hv Hp. revert Hv. induction Hp as [v|u v p Hu _ IH]; intros Hv w.
  - by intros ->%list_elem_of_singleton.
  - intros [->|Hw]%elem_of_cons; [done|]. apply IH; [|done]. by edestruct Hc.
Qed.

Lemma chain_length v :
  closed → v ∈ ids → chain (length ids) v → ∃ u, tc edge u u ∧ rtc edge u v.
Proof.
  intros Hc Hv Hchain. destruct (chain_path _ _ Hchain) as (p & Hp & Hlen).
  eapply path_repeat; [done|]. intros Hnd.
  assert (length p ≤ length ids); [|lia].
  apply submseteq_length, NoDup_submseteq; [done|]. intros w. by apply (path_subseteq v).
Qed.

Lemma chain_all v k : closed → v ∈ ids → chain (length ids) v → chain k v.
Proof. intros Hc Hv H. apply chain_length in H as (u & ? & ?); [|done..]. by eapply chain_cycle. Qed.

(** The edge relation is acyclic when chains are bounded. *)
Lemma acyclic_chain k : closed → (∀ v, v ∈ ids → ¬ chain k v) → acyclic.
Proof.
  intros Hc Hk v Hv. destruct (tc_last v v Hv) as (w & _ & Hw).
  apply (Hk v); [by edestruct Hc|]. by eapply chain_cycle.
Qed.

Lemma acyclic_bound v : closed → acyclic → v ∈ ids → ¬ chain (length ids) v.
Proof. intros Hc Ha Hv H. apply chain_length in H as (u & Hu & _); [|done..]. by apply (Ha u). Qed.

(** ** Levels *)
Lemma elem_of_level k v : v ∈ level k ↔ v ∈ ids ∧ chain k v ∧ ¬ chain (S k) v.
Proof. unfold level. rewrite list_elem_of_filter. tauto. Qed.

Lemma level_NoDup k : NoDup ids → NoDup (level k).
Proof. apply NoDup_filter. Qed.

Lemma level_unique i j v : v ∈ level i → v ∈ level j → i = j.
Proof.
  rewrite !elem_of_level. intros (_ & Hi & Hi') (_ & Hj & Hj').
  destruct (decide (i < j)); [destruct Hi'; by eapply chain_le|].
  destruct (decide (j < i)); [destruct Hj'; by eapply chain_le|]. lia.
Qed.

(** An edge leads to a strictly later level. *)
Lemma level_edge i j u v : edge u v → u ∈ level i → v ∈ level j → i < j.
Proof.
  rewrite !elem_of_level. intros He (_ & Hi & _) (_ & _ & Hj).
  destruct (decide (i < j)); [done|]. destruct Hj. exists u. split; [done|].
  eapply chain_le; [|done]. lia.
Qed.

(** A level feeds the next one. *)
Lemma level_pred k v : closed → v ∈ level (S k) → ∃ u, edge u v ∧ u ∈ level k.
Proof.
  intros Hc. rewrite elem_of_level. intros (_ & (u & Hu & Hk) & Hn).
  exists u. split; [done|]. apply elem_of_level. split; [by edestruct Hc|]. split; [done|].
  intros Hk'. apply Hn. by exists u.
Qed.

Lemma level_below i k : closed → level i = [] → i ≤ k → level k = [].
Proof.
  intros Hc Hi. induction 1 as [|k _ IH]; [done|].
  destruct (level (S k)) as [|v l] eqn:El; [done|].
  destruct (level_pred k v Hc) as (u & _ & Hu); [rewrite El; left|]. by rewrite IH in Hu; apply not_elem_of_nil in Hu.
Qed.

(** When no vertex has its longest chain at [k], every chain of length [k] extends
    to any length. *)
Lemma level_nil_chain k v : closed → level k = [] → v ∈ ids → chain k v → chain (S k) v.
Proof.
  intros Hc Hk Hv Hkv. destruct (decide (chain (S k) v)) as [|Hn]; [done|].
  assert (v ∈ level k) as H by (by apply elem_of_level). by rewrite Hk in H; apply not_elem_of_nil in H.
Qed.

Lemma level_nil_cycle k v :
  closed → level k = [] → v ∈ ids → chain k v → ∃ u, tc edge u u ∧ rtc edge u v.
Proof.
  intros Hc Hk Hv Hkv. apply chain_length; [done..|].
  assert (∀ j, k ≤ j → chain j v) as H; [|].
  { induction 1 as [|j Hj IH]; [done|]. apply level_nil_chain; [done| |done..]. by eapply level_below. }
  destruct (decide (k ≤ length ids)); [by apply H|]. eapply chain_le; [|done]. lia.
Qed.

(** The level after the longest path is empty. *)
Lemma level_length : closed → level (length ids) = [].
Proof.
  intros Hc. destruct (level (length ids)) as [|v l] eqn:El; [done|]. exfalso.
  assert (v ∈ level (length ids)) as Hv by (rewrite El; left).
  apply elem_of_level in Hv as (Hv & Hk & Hn). apply Hn. by apply chain_all.
Qed.

Lemma level_chain_bound k v :
  v ∈ ids → ¬ chain k v → ∃ i, i < k ∧ v ∈ level i.
Proof.
  intros Hv. induction k as [|k IH]; intros Hk; [by destruct Hk|].
  destruct (decide (chain k v)) as [Hc|Hc].
  - exists k. split; [lia|]. by apply elem_of_level.
  - destruct (IH Hc) as (i & ? & ?). exists i. split; [lia|done].
Qed.

(** Bounded chains: the levels partition the vertices. *)
Lemma levels_Permutation d :
  NoDup ids → (∀ v, v ∈ ids → ¬ chain d v) → concat (level <$> seq 0 d) ≡ₚ ids.
Proof.
  intros Hnd Hd. apply NoDup_Permutation; [|done|].
  - assert (∀ k n, NoDup (concat (level <$> seq k n))) as H; [|apply H].
    intros k n. revert k. induction n as [|n IH]; intros k; csimpl; [constructor|].
    apply NoDup_app. split_and!; [by apply level_NoDup| |apply IH].
    intros v Hv Hin. apply elem_of_concat in Hin as (l & Hvl & Hl).
    apply list_elem_of_fmap in Hl as (i & -> & Hi). apply elem_of_seq in Hi.
    pose proof (level_unique _ _ _ Hv Hvl). lia.
  - intros v. rewrite elem_of_concat. split.
    + intros (l & Hv & Hl). apply list_elem_of_fmap in Hl as (i & -> & _). by apply elem_of_level in Hv as [? _].
    + intros Hv. destruct (level_chain_bound d v Hv) as (i & Hi & Hvi); [by apply Hd|].
      exists (level i). split; [done|]. apply list_elem_of_fmap. exists i. split; [done|]. apply elem_of_seq. lia.
Qed.

(** ** Counting edges *)

(** The edges into [v] from sources that still have a chain of length [k]. *)
Definition pending (k : nat) (v : V) : nat := length (filter (λ e : V * V, e.2 = v ∧ chain k e.1) E).

Lemma pending_zero k v : pending k v = 0 ↔ ¬ chain (S k) v.
Proof.
  unfold pending. split.
  - intros H (u & Hu & Hk). apply length_zero_iff_nil in H.
    assert ((u, v) ∈ filter (λ e : V * V, e.2 = v ∧ chain k e.1) E) as Hin
      by (by apply list_elem_of_filter).
    rewrite H in Hin. by apply not_elem_of_nil in Hin.
  - intros Hn. apply length_zero_iff_nil. apply elem_of_nil_inv. intros [u w] H.
    apply list_elem_of_filter in H as [[Hw Hk] Hin]. simpl in *. subst. apply Hn. by exists u.
Qed.

Lemma pending_split k v :
  closed →
  pending k v = pending (S k) v + length (filter (λ e : V * V, e.2 = v ∧ e.1 ∈ level k) E).
Proof.
  intros Hc. apply filter_length_split.
  - intros [u w] He. rewrite elem_of_level. pose proof (proj1 (Hc u w He)).
    pose proof (chain_S k u). cbn [fst snd]. destruct (decide (chain (S k) u)); tauto.
  - intros [u w] He [_ H1] [_ H2]. apply elem_of_level in H2 as (_ & _ & H2). done.
Qed.
End graph.
