(* ===== verification/SchemaValidation.v ===== *)
(** * Structural validation (packages/core/src/schema-validation.ts)

    [validateGraphDocument] collects every issue of a detached document, in the
    order in which the code pushes them; each validator returns the issues it
    appends.  An own property of a detached document is never [undefined], so
    [value.k !== undefined] is the presence of [k]. *)
From Stdlib Require Import SpecFloat.
From S2P Require Import Prelude JsString JsNumber JsValue.

(** ** Constants *)
Definition GRAPH_KEYS : list jsstr :=
  [js "apiVersion"; js "kind"; js "metadata"; js "inputSchema"; js "outputSchema";
   js "stateSchema"; js "entrypoints"; js "outputs"; js "nodes"; js "edges"; js "policies"].
Definition NODE_KEYS : list jsstr :=
  [js "id"; js "kind"; js "inputSchema"; js "outputSchema"; js "config"; js "retry";
   js "timeoutMs"; js "cache"; js "resources"; js "isolation"; js "sideEffects"].
Definition EDGE_KEYS : list jsstr :=
  [js "id"; js "from"; js "to"; js "map"; js "condition"; js "mode"; js "schema"].
Definition ENDPOINT_KEYS : list jsstr := [js "node"; js "port"].
Definition METADATA_KEYS : list jsstr := [js "name"; js "version"; js "description"; js "labels"].
Definition RETRY_KEYS : list jsstr :=
  [js "maxAttempts"; js "initialDelayMs"; js "maxDelayMs"; js "backoffMultiplier"; js "jitter"].
Definition NODE_KINDS : list jsstr :=
  [js "agent"; js "model"; js "tool"; js "transform"; js "subgraph"; js "router"; js "barrier";
   js "validator"; js "human"].
Definition EDGE_MODES : list jsstr := [js "value"; js "stream"; js "artifact-ref"].
Definition SIDE_EFFECT_MODES : list jsstr := [js "none"; js "idempotent"; js "non-idempotent"].
Definition API_VERSION : jsstr := js "graphengineering.reacher-z.github.io/v1alpha1".

(** [/^[A-Za-z][A-Za-z0-9_.-]{0,127}$/] *)
Definition IDENTIFIER : jsstr → bool := matches_ident is_alpha is_ident_char 127.
(** [/^[a-z][a-z0-9-]{0,62}$/] *)
Definition GRAPH_NAME : jsstr → bool :=
  matches_ident is_lower (λ c, is_lower c || is_digit c || (c =? 45)%N) 62.

(** ** Tests on a value *)

(** [record(value)]: the own properties of a non-array object *)
Definition record (value : json) : option (list (jsstr * json)) :=
  match value with JObj props => Some props | _ => None end.
Definition is_record (value : json) : bool :=
  match record value with Some _ => true | None => false end.

(** A test on an own property that may be absent: [value.k !== undefined && bad] *)
Definition optional (props : list (jsstr * json)) (k : jsstr) (ok : json → bool) : bool :=
  match get_own k props with Some v => ok v | None => true end.
(** The same with an absent property failing the test. *)
Definition mandatory (props : list (jsstr * json)) (k : jsstr) (ok : json → bool) : bool :=
  match get_own k props with Some v => ok v | None => false end.

Definition is_string (v : json) : bool := match v with JStr _ => true | _ => false end.
Definition is_boolean (v : json) : bool := match v with JBool _ => true | _ => false end.
Definition is_nonempty_string (v : json) : bool :=
  match v with JStr s => negb (length s =? 0)%nat | _ => false end.
Definition is_string_in (l : list jsstr) (v : json) : bool :=
  match v with JStr s => bool_decide (s ∈ l) | _ => false end.
Definition is_string_matching (re : jsstr → bool) (v : json) : bool :=
  match v with JStr s => re s | _ => false end.
(** [Number.isInteger(v) && v >= lo] *)
Definition is_integer_from (lo : Z) (v : json) : bool :=
  match v with JNum n => num_integer n && negb (num_ltb n (num_of_Z lo)) | _ => false end.
(** [... && v <= hi] *)
Definition is_integer_between (lo hi : Z) (v : json) : bool :=
  match v with
  | JNum n => num_integer n && negb (num_ltb n (num_of_Z lo)) && negb (num_ltb (num_of_Z hi) n)
  | _ => false
  end.
(** [typeof v === "number" && v >= lo] *)
Definition is_number_from (lo : Z) (v : json) : bool :=
  match v with JNum n => negb (num_ltb n (num_of_Z lo)) | _ => false end.
Definition is_finite_number_from (lo : Z) (v : json) : bool :=
  match v with JNum n => num_finite n && negb (num_ltb n (num_of_Z lo)) | _ => false end.

(** The issue pushed when a test fails. *)
Definition issue_unless (ok : bool) (issue : jsstr) : list jsstr := if ok then [] else [issue].

(** ** Validators *)

Definition unknownKeys (value : list (jsstr * json)) (allowed : list jsstr) (path : jsstr)
    : list jsstr :=
  value.*1 ≫= λ key, issue_unless (bool_decide (key ∈ allowed)) (path ++ js "/" ++ key ++ js ": unknown property").

Definition required (value : list (jsstr * json)) (keys : list jsstr) (path : jsstr) : list jsstr :=
  keys ≫= λ key,
    issue_unless (has_own key value) (path ++ js "/" ++ key ++ js ": required property is missing").

(** The callers hand [None] for a missing property ([undefined]). *)
Definition validateEndpoint (value : option json) (path : jsstr) : list jsstr :=
  match value ≫= record with
  | None => [path ++ js ": expected an endpoint object"]
  | Some value =>
      unknownKeys value ENDPOINT_KEYS path ++
      required value [js "node"] path ++
      issue_unless (mandatory value (js "node") is_nonempty_string)
        (path ++ js "/node: expected a non-empty string") ++
      issue_unless (optional value (js "port") is_nonempty_string)
        (path ++ js "/port: expected a non-empty string")
  end.

Definition is_string_map (v : json) : bool :=
  match record v with Some labels => forallb is_string labels.*2 | None => false end.

Definition validateMetadata (value : option json) : list jsstr :=
  match value ≫= record with
  | None => [js "#/metadata: expected an object"]
  | Some value =>
      unknownKeys value METADATA_KEYS (js "#/metadata") ++
      required value [js "name"; js "version"] (js "#/metadata") ++
      issue_unless (mandatory value (js "name") (is_string_matching GRAPH_NAME))
        (js "#/metadata/name: invalid graph name") ++
      issue_unless (mandatory value (js "version") is_nonempty_string)
        (js "#/metadata/version: expected a non-empty string") ++
      issue_unless (optional value (js "description") is_string)
        (js "#/metadata/description: expected a string") ++
      issue_unless (optional value (js "labels") is_string_map)
        (js "#/metadata/labels: expected a string map")
  end.

(** The retry policy of a node; [path] is the node's. *)
Definition validateRetry (retry : json) (path : jsstr) : list jsstr :=
  match record retry with
  | None => [path ++ js "/retry: expected an object"]
  | Some retry =>
      unknownKeys retry RETRY_KEYS (path ++ js "/retry") ++
      issue_unless (optional retry (js "maxAttempts") (is_integer_between 1 100))
        (path ++ js "/retry/maxAttempts: expected an integer from 1 to 100") ++
      ([js "initialDelayMs"; js "maxDelayMs"] ≫= λ name,
        issue_unless (optional retry name (is_integer_from 0))
          (path ++ js "/retry/" ++ name ++ js ": expected a non-negative integer")) ++
      issue_unless (optional retry (js "backoffMultiplier") (is_number_from 1))
        (path ++ js "/retry/backoffMultiplier: expected a number >= 1") ++
      issue_unless (optional retry (js "jitter") is_boolean)
        (path ++ js "/retry/jitter: expected a boolean")
  end.

Definition validateNode (index : nat) (value : json) : list jsstr :=
  let path := js "#/nodes/" ++ string_of_nat index in
  match record value with
  | None => [path ++ js ": expected an object"]
  | Some value =>
      unknownKeys value NODE_KEYS path ++
      required value [js "id"; js "kind"; js "inputSchema"; js "outputSchema"; js "config"] path ++
      issue_unless (mandatory value (js "id") (is_string_matching IDENTIFIER))
        (path ++ js "/id: invalid node id") ++
      issue_unless (mandatory value (js "kind") (is_string_in NODE_KINDS))
        (path ++ js "/kind: invalid node kind") ++
      issue_unless (mandatory value (js "inputSchema") is_record)
        (path ++ js "/inputSchema: expected an object") ++
      issue_unless (mandatory value (js "outputSchema") is_record)
        (path ++ js "/outputSchema: expected an object") ++
      issue_unless (optional value (js "timeoutMs") (is_integer_from 1))
        (path ++ js "/timeoutMs: expected a positive integer") ++
      issue_unless (optional value (js "sideEffects") (is_string_in SIDE_EFFECT_MODES))
        (path ++ js "/sideEffects: invalid mode") ++
      ([js "cache"; js "resources"; js "isolation"] ≫= λ key,
        issue_unless (optional value key is_record) (path ++ js "/" ++ key ++ js ": expected an object")) ++
      match get_own (js "retry") value with
      | Some retry => validateRetry retry path
      | None => []
      end
  end.

Definition validateEdge (index : nat) (value : json) : list jsstr :=
  let path := js "#/edges/" ++ string_of_nat index in
  match record value with
  | None => [path ++ js ": expected an object"]
  | Some value =>
      unknownKeys value EDGE_KEYS path ++
      required value [js "id"; js "from"; js "to"] path ++
      issue_unless (mandatory value (js "id") (is_string_matching IDENTIFIER))
        (path ++ js "/id: invalid edge id") ++
      validateEndpoint (get_own (js "from") value) (path ++ js "/from") ++
      validateEndpoint (get_own (js "to") value) (path ++ js "/to") ++
      issue_unless (optional value (js "mode") (is_string_in EDGE_MODES))
        (path ++ js "/mode: invalid edge mode") ++
      ([js "map"; js "condition"; js "schema"] ≫= λ key,
        issue_unless (optional value key is_record) (path ++ js "/" ++ key ++ js ": expected an object"))
  end.

(** ** The document *)

(** Equality of a [Set]'s members: strings, numbers, booleans and [null] by
    value, the distinct objects and arrays of a document by identity. *)
Definition same_member (a b : json) : bool :=
  match a, b with
  | JNull, JNull => true
  | JBool x, JBool y => Bool.eqb x y
  | JNum x, JNum y => num_eqb x y
  | JStr x, JStr y => bool_decide (x = y)
  | _, _ => false
  end.
(** [new Set(items).size] *)
Definition set_size (items : list json) : nat :=
  length (foldl (λ seen item, if existsb (same_member item) seen then seen else seen ++ [item]) [] items).

Definition validateEntrypoints (value : option json) : list jsstr :=
  match value with
  | Some (JArr ((_ :: _) as items)) =>
      issue_unless (forallb is_nonempty_string items)
        (js "#/entrypoints: every item must be a non-empty string") ++
      issue_unless (set_size items =? length items)%nat (js "#/entrypoints: items must be unique")
  | _ => [js "#/entrypoints: expected a non-empty array"]
  end.

Definition validateOutputs (value : option json) : list jsstr :=
  match value ≫= record with
  | None | Some [] => [js "#/outputs: expected a non-empty endpoint map"]
  | Some outputs =>
      outputs ≫= λ p, validateEndpoint (Some p.2) (js "#/outputs/" ++ p.1)
  end.

Definition validatePolicies (value : json) : list jsstr :=
  match record value with
  | None => [js "#/policies: expected an object"]
  | Some policies =>
      ([js "maxConcurrency"; js "maxDepth"; js "maxFanOut"; js "maxTotalAttempts";
        js "maxDurationMs"] ≫= λ key,
        issue_unless (optional policies key (is_integer_from 1))
          (js "#/policies/" ++ key ++ js ": expected a positive integer")) ++
      issue_unless (optional policies (js "maxDynamicNodes") (is_integer_from 0))
        (js "#/policies/maxDynamicNodes: expected a non-negative integer") ++
      issue_unless (optional policies (js "maxCostUsd") (is_finite_number_from 0))
        (js "#/policies/maxCostUsd: expected a non-negative finite number")
  end.

(** [array.forEach((item, index) => validate(item, index, issues))] *)
Definition validateItems (value : option json) (validate : nat → json → list jsstr)
    (issue : jsstr) : list jsstr :=
  match value with
  | Some (JArr items) => concat (imap validate items)
  | _ => [issue]
  end.

Definition validateGraphDocument (value : json) : list jsstr :=
  match record value with
  | None => [js "#: expected a Graph object"]
  | Some value =>
      unknownKeys value GRAPH_KEYS (js "#") ++
      required value
        [js "apiVersion"; js "kind"; js "metadata"; js "inputSchema"; js "outputSchema";
         js "entrypoints"; js "outputs"; js "nodes"; js "edges"] (js "#") ++
      issue_unless (mandatory value (js "apiVersion") (is_string_in [API_VERSION]))
        (js "#/apiVersion: unsupported version") ++
      issue_unless (mandatory value (js "kind") (is_string_in [js "Graph"]))
        (js "#/kind: expected 'Graph'") ++
      validateMetadata (get_own (js "metadata") value) ++
      issue_unless (mandatory value (js "inputSchema") is_record)
        (js "#/inputSchema: expected an object") ++
      issue_unless (mandatory value (js "outputSchema") is_record)
        (js "#/outputSchema: expected an object") ++
      issue_unless (optional value (js "stateSchema") is_record)
        (js "#/stateSchema: expected an object") ++
      validateEntrypoints (get_own (js "entrypoints") value) ++
      validateOutputs (get_own (js "outputs") value) ++
      validateItems (get_own (js "nodes") value) validateNode (js "#/nodes: expected an array") ++
      validateItems (get_own (js "edges") value) validateEdge (js "#/edges: expected an array") ++
      match get_own (js "policies") value with
      | Some policies => validatePolicies policies
      | None => []
      end
  end.
