(* ===== verification/GraphIR.v ===== *)
(** * The graph IR (packages/core/src/types.ts)

    The typed view of a Graph document, its decoder, and the contract of the
    structural validator: a document has no issues exactly when it is the
    encoding of a well-formed [GraphSpec]. *)
From Stdlib Require Import SpecFloat.
From S2P Require Import Prelude JsString JsNumber JsValue SchemaValidation.

(** ** Types *)

(** A [JsonSchema] is an object without further structure. *)
Abbreviation JsonSchema := (list (jsstr * json)).

Inductive NodeKind :=
  | Agent | Model | Tool | Transform | Subgraph | Router | Barrier | Validator | Human.
Inductive EdgeMode := ValueMode | StreamMode | ArtifactRefMode.
Inductive SideEffectMode := NoSideEffects | Idempotent | NonIdempotent.

Record GraphMetadata := {
  metadata_name : jsstr;
  metadata_version : jsstr;
  metadata_description : option jsstr;
  metadata_labels : option (list (jsstr * jsstr))
}.

Record Endpoint := { endpoint_node : jsstr; endpoint_port : option jsstr }.

Record RetryPolicy := {
  retry_maxAttempts : option Z;
  retry_initialDelayMs : option Z;
  retry_maxDelayMs : option Z;
  retry_backoffMultiplier : option num;
  retry_jitter : option bool
}.

Record NodeSpec := {
  node_id : jsstr;
  node_kind : NodeKind;
  node_inputSchema : JsonSchema;
  node_outputSchema : JsonSchema;
  node_config : json;
  node_retry : option RetryPolicy;
  node_timeoutMs : option Z;
  node_cache : option JsonSchema;
  node_resources : option JsonSchema;
  node_isolation : option JsonSchema;
  node_sideEffects : option SideEffectMode
}.

Record EdgeSpec := {
  edge_id : jsstr;
  edge_from : Endpoint;
  edge_to : Endpoint;
  edge_map : option JsonSchema;
  edge_condition : option JsonSchema;
  edge_mode : option EdgeMode;
  edge_schema : option JsonSchema
}.

Record GraphPolicies := {
  policy_maxConcurrency : option Z;
  policy_maxDynamicNodes : option Z;
  policy_maxDepth : option Z;
  policy_maxFanOut : option Z;
  policy_maxTotalAttempts : option Z;
  policy_maxDurationMs : option Z;
  policy_maxCostUsd : option num
}.

Record GraphSpec := {
  graph_metadata : GraphMetadata;
  graph_inputSchema : JsonSchema;
  graph_outputSchema : JsonSchema;
  graph_stateSchema : option JsonSchema;
  graph_entrypoints : list jsstr;
  graph_outputs : list (jsstr * Endpoint);
  graph_nodes : list NodeSpec;
  graph_edges : list EdgeSpec;
  graph_policies : option GraphPolicies
}.

#[export] Instance NodeKind_eq_dec : EqDecision NodeKind.
Proof. solve_decision. Defined.
#[export] Instance EdgeMode_eq_dec : EqDecision EdgeMode.
Proof. solve_decision. Defined.
#[export] Instance SideEffectMode_eq_dec : EqDecision SideEffectMode.
Proof. solve_decision. Defined.
#[export] Instance Endpoint_eq_dec : EqDecision Endpoint.
Proof. solve_decision. Defined.

(** ** Decoding *)

Definition NODE_KIND_TABLE : list (jsstr * NodeKind) :=
  zip NODE_KINDS [Agent; Model; Tool; Transform; Subgraph; Router; Barrier; Validator; Human].
Definition EDGE_MODE_TABLE : list (jsstr * EdgeMode) :=
  zip EDGE_MODES [ValueMode; StreamMode; ArtifactRefMode].
Definition SIDE_EFFECT_TABLE : list (jsstr * SideEffectMode) :=
  zip SIDE_EFFECT_MODES [NoSideEffects; Idempotent; NonIdempotent].

Definition as_string (v : json) : option jsstr := match v with JStr s => Some s | _ => None end.
Definition as_bool (v : json) : option bool := match v with JBool b => Some b | _ => None end.
Definition as_num (v : json) : option num := match v with JNum n => Some n | _ => None end.
Definition as_integer (v : json) : option Z :=
  match v with JNum n => if num_integer n then Some (num_trunc n) else None | _ => None end.
Definition as_enum {A} (table : list (jsstr * A)) (v : json) : option A :=
  s ← as_string v; map_get s table.
Definition as_array (v : json) : option (list json) := match v with JArr l => Some l | _ => None end.
Definition as_map {A} (dec : json → option A) (v : json) : option (list (jsstr * A)) :=
  props ← record v; mapM (λ p : jsstr * json, x ← dec p.2; Some (p.1, x)) props.

(** A record whose keys are all known. *)
Definition as_record (allowed : list jsstr) (v : json) : option (list (jsstr * json)) :=
  props ← record v; if forallb (λ k, bool_decide (k ∈ allowed)) props.*1 then Some props else None.

Definition field {A} (k : jsstr) (dec : json → option A) (props : list (jsstr * json)) : option A :=
  v ← get_own k props; dec v.
Definition opt_field {A} (k : jsstr) (dec : json → option A) (props : list (jsstr * json))
    : option (option A) :=
  match get_own k props with Some v => x ← dec v; Some (Some x) | None => Some None end.

Definition metadata_of_json (v : json) : option GraphMetadata :=
  props ← as_record METADATA_KEYS v;
  name ← field (js "name") as_string props;
  version ← field (js "version") as_string props;
  description ← opt_field (js "description") as_string props;
  labels ← opt_field (js "labels") (as_map as_string) props;
  Some (Build_GraphMetadata name version description labels).

Definition endpoint_of_json (v : json) : option Endpoint :=
  props ← as_record ENDPOINT_KEYS v;
  node ← field (js "node") as_string props;
  port ← opt_field (js "port") as_string props;
  Some (Build_Endpoint node port).

Definition retry_of_json (v : json) : option RetryPolicy :=
  props ← as_record RETRY_KEYS v;
  maxAttempts ← opt_field (js "maxAttempts") as_integer props;
  initialDelayMs ← opt_field (js "initialDelayMs") as_integer props;
  maxDelayMs ← opt_field (js "maxDelayMs") as_integer props;
  backoffMultiplier ← opt_field (js "backoffMultiplier") as_num props;
  jitter ← opt_field (js "jitter") as_bool props;
  Some (Build_RetryPolicy maxAttempts initialDelayMs maxDelayMs backoffMultiplier jitter).

Definition node_of_json (v : json) : option NodeSpec :=
  props ← as_record NODE_KEYS v;
  id ← field (js "id") as_string props;
  kind ← field (js "kind") (as_enum NODE_KIND_TABLE) props;
  inputSchema ← field (js "inputSchema") record props;
  outputSchema ← field (js "outputSchema") record props;
  config ← field (js "config") Some props;
  retry ← opt_field (js "retry") retry_of_json props;
  timeoutMs ← opt_field (js "timeoutMs") as_integer props;
  cache ← opt_field (js "cache") record props;
  resources ← opt_field (js "resources") record props;
  isolation ← opt_field (js "isolation") record props;
  sideEffects ← opt_field (js "sideEffects") (as_enum SIDE_EFFECT_TABLE) props;
  Some (Build_NodeSpec id kind inputSchema outputSchema config retry timeoutMs cache resources
          isolation sideEffects).

Definition edge_of_json (v : json) : option EdgeSpec :=
  props ← as_record EDGE_KEYS v;
  id ← field (js "id") as_string props;
  from ← field (js "from") endpoint_of_json props;
  to ← field (js "to") endpoint_of_json props;
  map ← opt_field (js "map") record props;
  condition ← opt_field (js "condition") record props;
  mode ← opt_field (js "mode") (as_enum EDGE_MODE_TABLE) props;
  schema ← opt_field (js "schema") record props;
  Some (Build_EdgeSpec id from to map condition mode schema).

(** The policies keep unknown properties, which the program ignores. *)
Definition policies_of_json (v : json) : option GraphPolicies :=
  props ← record v;
  maxConcurrency ← opt_field (js "maxConcurrency") as_integer props;
  maxDynamicNodes ← opt_field (js "maxDynamicNodes") as_integer props;
  maxDepth ← opt_field (js "maxDepth") as_integer props;
  maxFanOut ← opt_field (js "maxFanOut") as_integer props;
  maxTotalAttempts ← opt_field (js "maxTotalAttempts") as_integer props;
  maxDurationMs ← opt_field (js "maxDurationMs") as_integer props;
  maxCostUsd ← opt_field (js "maxCostUsd") as_num props;
  Some (Build_GraphPolicies maxConcurrency maxDynamicNodes maxDepth maxFanOut maxTotalAttempts
          maxDurationMs maxCostUsd).

(** The fixed value of [apiVersion] and of [kind]. *)
Definition as_constant (s : jsstr) (v : json) : option unit :=
  if decide (v = JStr s) then Some tt else None.

Definition graph_of_json (v : json) : option GraphSpec :=
  props ← as_record GRAPH_KEYS v;
  _ ← field (js "apiVersion") (as_constant API_VERSION) props;
  _ ← field (js "kind") (as_constant (js "Graph")) props;
  metadata ← field (js "metadata") metadata_of_json props;
  inputSchema ← field (js "inputSchema") record props;
  outputSchema ← field (js "outputSchema") record props;
  stateSchema ← opt_field (js "stateSchema") record props;
  entrypoints ← field (js "entrypoints") (λ v, as_array v ≫= mapM as_string) props;
  outputs ← field (js "outputs") (as_map endpoint_of_json) props;
  nodes ← field (js "nodes") (λ v, as_array v ≫= mapM node_of_json) props;
  edges ← field (js "edges") (λ v, as_array v ≫= mapM edge_of_json) props;
  policies ← opt_field (js "policies") policies_of_json props;
  Some (Build_GraphSpec metadata inputSchema outputSchema stateSchema entrypoints outputs nodes
          edges policies).

(** ** Well-formed graphs: what the JSON schema demands beyond the types *)

(** A constraint on an optional field. *)
Definition when_present {A} (P : A → Prop) (o : option A) : Prop :=
  match o with Some x => P x | None => True end.

(** [lo <= x] for a finite number *)
Definition num_at_least (lo : Z) (x : num) : Prop := num_ltb x (num_of_Z lo) = false.

Definition metadata_ok (m : GraphMetadata) : Prop :=
  GRAPH_NAME (metadata_name m) = true ∧ metadata_version m ≠ [].
Definition endpoint_ok (e : Endpoint) : Prop :=
  endpoint_node e ≠ [] ∧ when_present (.≠ []) (endpoint_port e).
Definition retry_ok (r : RetryPolicy) : Prop :=
  when_present (λ n, 1 ≤ n ≤ 100)%Z (retry_maxAttempts r) ∧
  when_present (λ n, 0 ≤ n)%Z (retry_initialDelayMs r) ∧
  when_present (λ n, 0 ≤ n)%Z (retry_maxDelayMs r) ∧
  when_present (num_at_least 1) (retry_backoffMultiplier r).
Definition node_ok (n : NodeSpec) : Prop :=
  IDENTIFIER (node_id n) = true ∧
  when_present retry_ok (node_retry n) ∧
  when_present (λ t, 1 ≤ t)%Z (node_timeoutMs n).
Definition edge_ok (e : EdgeSpec) : Prop :=
  IDENTIFIER (edge_id e) = true ∧ endpoint_ok (edge_from e) ∧ endpoint_ok (edge_to e).
Definition policies_ok (p : GraphPolicies) : Prop :=
  when_present (λ n, 1 ≤ n)%Z (policy_maxConcurrency p) ∧
  when_present (λ n, 0 ≤ n)%Z (policy_maxDynamicNodes p) ∧
  when_present (λ n, 1 ≤ n)%Z (policy_maxDepth p) ∧
  when_present (λ n, 1 ≤ n)%Z (policy_maxFanOut p) ∧
  when_present (λ n, 1 ≤ n)%Z (policy_maxTotalAttempts p) ∧
  when_present (λ n, 1 ≤ n)%Z (policy_maxDurationMs p) ∧
  when_present (λ c, num_finite c = true ∧ num_at_least 0 c) (policy_maxCostUsd p).

Definition graph_ok (g : GraphSpec) : Prop :=
  metadata_ok (graph_metadata g) ∧
  graph_entrypoints g ≠ [] ∧ Forall (.≠ []) (graph_entrypoints g) ∧ NoDup (graph_entrypoints g) ∧
  graph_outputs g ≠ [] ∧ Forall (λ p, endpoint_ok p.2) (graph_outputs g) ∧
  Forall node_ok (graph_nodes g) ∧ Forall edge_ok (graph_edges g) ∧
  when_present policies_ok (graph_policies g).

(** ** Lemmas: a test and its decoder *)
#[local] Arguments field : simpl never.
#[local] Arguments opt_field : simpl never.
#[local] Arguments js : simpl never.

(** [test] accepts exactly the values that [dec] decodes to something good. *)
Class Decides {A} (test : json → bool) (dec : json → option A) (good : A → Prop) : Prop :=
  decides v : test v = true ↔ ∃ x, dec v = Some x ∧ good x.

(** The same for a validator that reports issues. *)
Definition validates {A} (validate : json → list jsstr) (dec : json → option A) (good : A → Prop) : Prop :=
  ∀ v, validate v = [] ↔ ∃ x, dec v = Some x ∧ good x.

Lemma issue_unless_nil ok issue : issue_unless ok issue = [] ↔ ok = true.
Proof. by destruct ok. Qed.

Lemma bind_nil {A B} (f : A → list B) l : l ≫= f = [] ↔ Forall (λ x, f x = []) l.
Proof.
  induction l as [|x l IH]; csimpl; [done|]. rewrite app_nil, IH, Forall_cons. done.
Qed.

Lemma mandatory_decides {A} test (dec : json → option A) good `{!Decides test dec good} k props :
  mandatory props k test = true ↔ ∃ x, field k dec props = Some x ∧ good x.
Proof.
  unfold mandatory, field. destruct (get_own k props) as [v|]; simpl; [apply decides|].
  split; [done|]. by intros (x & ? & ?).
Qed.

Lemma optional_decides {A} test (dec : json → option A) good `{!Decides test dec good} k props :
  optional props k test = true ↔ ∃ o, opt_field k dec props = Some o ∧ when_present good o.
Proof.
  unfold optional, opt_field. destruct (get_own k props) as [v|]; simpl.
  - rewrite (decides (Decides := _) v). split.
    + intros (x & -> & Hx). by exists (Some x).
    + intros (o & Ho & Hgood). destruct (dec v) as [x|]; [|done]. injection Ho as <-. by exists x.
  - split; [|done]. intros _. by exists None.
Qed.

Lemma validates_optional {A} validate (dec : json → option A) good k props :
  validates validate dec good →
  (match get_own k props with Some v => validate v | None => [] end = []) ↔
  ∃ o, opt_field k dec props = Some o ∧ when_present good o.
Proof.
  intros Hv. unfold opt_field. destruct (get_own k props) as [v|].
  - rewrite (Hv v). split.
    + intros (x & -> & Hx). by exists (Some x).
    + intros (o & Ho & Hgood). destruct (dec v) as [x|]; [|done]. injection Ho as <-. by exists x.
  - split; [|done]. intros _. by exists None.
Qed.

Lemma required_nil props keys path :
  required props keys path = [] ↔ Forall (λ k, has_own k props = true) keys.
Proof.
  unfold required. rewrite bind_nil. apply Forall_iff. intros k. apply issue_unless_nil.
Qed.

Lemma field_has_own {A} k (dec : json → option A) props x :
  field k dec props = Some x → has_own k props = true.
Proof. unfold field, has_own, map_has, get_own. by destruct (map_get k props). Qed.

Lemma field_present k props : has_own k props = true → ∃ x, field k Some props = Some x.
Proof.
  unfold field, has_own, map_has, get_own. destruct (map_get k props) as [v|]; [|done].
  by exists v.
Qed.

Lemma unknownKeys_nil props allowed path :
  unknownKeys props allowed path = [] ↔
  forallb (λ k, bool_decide (k ∈ allowed)) props.*1 = true.
Proof.
  unfold unknownKeys. rewrite bind_nil, forallb_Forall. apply Forall_iff.
  intros k. apply issue_unless_nil.
Qed.

Lemma as_record_Some allowed v props :
  as_record allowed v = Some props ↔
  record v = Some props ∧ forallb (λ k, bool_decide (k ∈ allowed)) props.*1 = true.
Proof.
  unfold as_record. destruct (record v) as [p|]; simpl; [|split; [done|by intros [? _]]].
  destruct (forallb _ p.*1) eqn:E.
  - split; [by intros [= <-]|by intros [[= <-] _]].
  - split; [done|]. intros [[= <-] H]. congruence.
Qed.

(** ** The tests of the schema *)
#[export] Typeclasses Opaque is_string is_boolean is_nonempty_string is_string_in
  is_string_matching is_record is_integer_from is_integer_between is_number_from
  is_finite_number_from is_string_map.

#[export] Instance decides_string : Decides is_string as_string (λ _, True).
Proof. intros []; simpl; naive_solver. Qed.
#[export] Instance decides_boolean : Decides is_boolean as_bool (λ _, True).
Proof. intros []; simpl; naive_solver. Qed.
#[export] Instance decides_nonempty : Decides is_nonempty_string as_string (.≠ []).
Proof.
  intros [| | |s| |]; simpl; try naive_solver. destruct s; simpl; naive_solver.
Qed.
#[export] Instance decides_matching re :
  Decides (is_string_matching re) as_string (λ s, re s = true).
Proof. intros []; simpl; naive_solver. Qed.
#[export] Instance decides_record : Decides is_record record (λ _, True).
Proof. intros []; simpl; unfold is_record; simpl; naive_solver. Qed.
#[export] Instance decides_constant s : Decides (is_string_in [s]) (as_constant s) (λ _, True).
Proof.
  intros v. unfold as_constant. destruct (decide (v = JStr s)) as [->|Hne].
  - simpl. rewrite bool_decide_eq_true, list_elem_of_singleton. naive_solver.
  - destruct v; simpl; try naive_solver.
    rewrite bool_decide_eq_true, list_elem_of_singleton. naive_solver.
Qed.

Lemma decides_table {A} (names : list jsstr) (values : list A) :
  length names = length values →
  Decides (is_string_in names) (as_enum (zip names values)) (λ _, True).
Proof.
  intros Hlen v. unfold as_enum. destruct v as [| | |s| |]; simpl; try naive_solver.
  rewrite bool_decide_eq_true, <- (fst_zip names values) at 1 by lia.
  rewrite <- map_has_true. unfold map_has. destruct (map_get s (zip names values)); naive_solver.
Qed.
#[export] Instance decides_node_kind :
  Decides (is_string_in NODE_KINDS) (as_enum NODE_KIND_TABLE) (λ _, True).
Proof. by apply decides_table. Qed.
#[export] Instance decides_edge_mode :
  Decides (is_string_in EDGE_MODES) (as_enum EDGE_MODE_TABLE) (λ _, True).
Proof. by apply decides_table. Qed.
#[export] Instance decides_side_effects :
  Decides (is_string_in SIDE_EFFECT_MODES) (as_enum SIDE_EFFECT_TABLE) (λ _, True).
Proof. by apply decides_table. Qed.

Lemma decides_integer_from lo :
  (Z.abs lo ≤ MAX_SAFE_INTEGER)%Z →
  Decides (is_integer_from lo) as_integer (λ z, lo ≤ z)%Z.
Proof.
  intros Hlo [| |n| | |]; simpl; try naive_solver.
  destruct (num_integer n) eqn:E; simpl; [|naive_solver].
  rewrite num_ltb_const by done. rewrite negb_true_iff, Z.ltb_ge. naive_solver.
Qed.
#[export] Instance decides_positive : Decides (is_integer_from 1) as_integer (λ z, 1 ≤ z)%Z.
Proof. by apply decides_integer_from. Qed.
#[export] Instance decides_natural : Decides (is_integer_from 0) as_integer (λ z, 0 ≤ z)%Z.
Proof. by apply decides_integer_from. Qed.
#[export] Instance decides_attempts :
  Decides (is_integer_between 1 100) as_integer (λ z, 1 ≤ z ≤ 100)%Z.
Proof.
  intros [| |n| | |]; cbn [is_integer_between as_integer]; try naive_solver.
  destruct (num_integer n) eqn:E; cbn [andb]; [|naive_solver].
  rewrite num_ltb_const, num_gtb_const by done.
  rewrite andb_true_iff, !negb_true_iff, !Z.ltb_ge. naive_solver.
Qed.
#[export] Instance decides_number_from lo : Decides (is_number_from lo) as_num (num_at_least lo).
Proof. intros []; simpl; unfold num_at_least; rewrite ?negb_true_iff; naive_solver. Qed.
#[export] Instance decides_finite_from lo :
  Decides (is_finite_number_from lo) as_num (λ c, num_finite c = true ∧ num_at_least lo c).
Proof.
  intros []; simpl; unfold num_at_least; rewrite ?andb_true_iff, ?negb_true_iff; naive_solver.
Qed.

Lemma mapM_good {A} (dec : json → option A) (good : A → Prop) l :
  Forall (λ v, ∃ x, dec v = Some x ∧ good x) l ↔ ∃ xs, mapM dec l = Some xs ∧ Forall good xs.
Proof.
  split.
  - induction 1 as [|v l (x & Hx & Hgood) _ (xs & Hxs & Hall)]; [by exists []|].
    exists (x :: xs). simpl. rewrite Hx. simpl. rewrite Hxs. split; [done|by constructor].
  - intros (xs & Hxs & Hall). apply mapM_Some in Hxs.
    induction Hxs as [|v x l xs Hv _ IH]; [constructor|].
    apply Forall_cons in Hall as [? ?]. constructor; eauto.
Qed.

Lemma as_map_good {A} (dec : json → option A) (good : A → Prop) (m : list (jsstr * json)) :
  Forall (λ p, ∃ x, dec p.2 = Some x ∧ good x) m ↔
  ∃ xs, mapM (λ p : jsstr * json, x ← dec p.2; Some (p.1, x)) m = Some xs ∧
        Forall (λ p, good p.2) xs.
Proof.
  split.
  - induction 1 as [|v l (x & Hx & Hgood) _ (xs & Hxs & Hall)]; [by exists []|].
    exists ((v.1, x) :: xs). simpl. rewrite Hx. simpl. rewrite Hxs. split; [done|by constructor].
  - intros (xs & Hxs & Hall). apply mapM_Some in Hxs.
    induction Hxs as [|v x l xs Hv _ IH]; [constructor|].
    apply Forall_cons in Hall as [? ?]. apply bind_Some in Hv as (y & Hy & [= <-]).
    constructor; eauto.
Qed.

#[export] Instance decides_string_map : Decides is_string_map (as_map as_string) (λ _, True).
Proof.
  intros v. unfold is_string_map, as_map. destruct (record v) as [m|]; simpl; [|naive_solver].
  rewrite forallb_Forall, Forall_fmap.
  transitivity (Forall (λ p : jsstr * json, ∃ x, as_string p.2 = Some x ∧ True) m).
  - apply Forall_iff. intros p. apply decides_string.
  - rewrite (as_map_good as_string (λ _, True)). split; intros (xs & ? & ?); eauto.
    exists xs. split; [done|]. by apply Forall_true.
Qed.

(** ** The validators *)

(** Turn every test among the hypotheses into its decoded field. *)
Ltac decode_hyps :=
  repeat match goal with
  | H : _ ∧ _ |- _ => destruct H
  | H : ∃ _, _ |- _ => destruct H
  | H : _ ++ _ = [] |- _ => apply app_nil in H
  | H : issue_unless _ _ = [] |- _ => apply issue_unless_nil in H
  | H : unknownKeys _ _ _ = [] |- _ => apply unknownKeys_nil in H
  | H : mandatory ?p ?k ?t = true |- _ =>
      destruct (proj1 (mandatory_decides t _ _ k p) H) as (? & ? & ?); clear H
  | H : optional ?p ?k ?t = true |- _ =>
      destruct (proj1 (optional_decides t _ _ k p) H) as (? & ? & ?); clear H
  | H : required _ _ _ = [] |- _ => apply required_nil in H
  | H : mbind _ (_ :: _) = [] |- _ => apply bind_nil in H
  | H : Forall _ (_ :: _) |- _ => apply Forall_cons in H
  | H : Forall _ [] |- _ => clear H
  end.

(** Run a decoder whose record and fields are known. *)
Ltac decode_goal :=
  eexists; split;
  [repeat match goal with H : ?x = Some _ |- mbind _ ?x = _ =>
     rewrite H; cbn [mbind option_bind] end; reflexivity|].

(** Split a successful decoder into its fields. *)
Ltac decode_inv H :=
  repeat (apply bind_Some in H as (? & ? & H)); injection H as <-; simpl in *.

(** A field without a constraint. *)
Lemma when_present_trivial {A} (o : option A) : when_present (λ _, True) o.
Proof. by destruct o. Qed.
#[local] Hint Resolve when_present_trivial : graph_engineering.

(** Prove that a validator reports nothing from the decoded fields. *)
Ltac decoded :=
  repeat match goal with
  | H : _ ∧ _ |- _ => destruct H
  | |- _ ∧ _ => split
  | |- _ ++ _ = [] => apply app_nil
  | |- issue_unless _ _ = [] => apply issue_unless_nil
  | |- unknownKeys _ _ _ = [] => apply unknownKeys_nil; assumption
  | |- mandatory ?p ?k ?t = true =>
      apply (proj2 (mandatory_decides t _ _ k p)); eexists; split; [eassumption|]
  | |- optional ?p ?k ?t = true =>
      apply (proj2 (optional_decides t _ _ k p)); eexists; split; [eassumption|]
  | |- mbind _ (_ :: _) = [] => apply bind_nil
  | |- Forall _ (_ :: _) => apply Forall_cons
  | |- Forall _ [] => constructor
  | |- required _ _ _ = [] => apply required_nil
  | |- has_own _ _ = true => eapply field_has_own; eassumption
  | |- _ => done
  | |- _ => solve [auto with graph_engineering]
  end.

(** A validator of a record with known keys, from its body. *)
Lemma record_validates {A} (body : list (jsstr * json) → list jsstr) (dec : list (jsstr * json) → option A)
    (good : A → Prop) allowed issue issues v :
  (∀ props, body props = [] ↔
     forallb (λ k, bool_decide (k ∈ allowed)) props.*1 = true ∧ ∃ x, dec props = Some x ∧ good x) →
  match record v with None => issue :: issues | Some props => body props end = [] ↔
  ∃ x, (as_record allowed v ≫= dec) = Some x ∧ good x.
Proof.
  intros Hbody. unfold as_record. destruct (record v) as [props|]; simpl.
  - rewrite Hbody. destruct (forallb _ props.*1); simpl; naive_solver.
  - split; [done|]. by intros (x & ? & ?).
Qed.

Lemma open_record_validates {A} (body : list (jsstr * json) → list jsstr)
    (dec : list (jsstr * json) → option A) (good : A → Prop) issue issues v :
  (∀ props, body props = [] ↔ ∃ x, dec props = Some x ∧ good x) →
  match record v with None => issue :: issues | Some props => body props end = [] ↔
  ∃ x, (record v ≫= dec) = Some x ∧ good x.
Proof.
  intros Hbody. destruct (record v) as [props|]; simpl; [apply Hbody|].
  split; [done|]. by intros (x & ? & ?).
Qed.

Ltac record_validator :=
  apply record_validates; intros props; split;
  [ intros H; decode_hyps; split; [done|]; decode_goal; simpl; decoded
  | intros (Hknown & x & H & Hok); decode_inv H; decoded ].

Lemma validateEndpoint_nil path :
  validates (λ v, validateEndpoint (Some v) path) endpoint_of_json endpoint_ok.
Proof. intros v. unfold endpoint_ok. record_validator. Qed.

Lemma validateMetadata_nil : validates (λ v, validateMetadata (Some v)) metadata_of_json metadata_ok.
Proof. intros v. unfold metadata_ok. record_validator. Qed.

Lemma validateRetry_nil path : validates (λ v, validateRetry v path) retry_of_json retry_ok.
Proof. intros v. unfold retry_ok. record_validator. Qed.

(** A part that is itself validated. *)
Lemma validates_field {A} (validate : option json → list jsstr) (dec : json → option A) good k props :
  validates (λ v, validate (Some v)) dec good → validate None ≠ [] →
  validate (get_own k props) = [] ↔ ∃ x, field k dec props = Some x ∧ good x.
Proof.
  intros Hv Hnone. unfold field. destruct (get_own k props) as [v|]; simpl; [apply Hv|].
  split; [done|]. by intros (x & ? & ?).
Qed.

Lemma validates_items {A} (validate : nat → json → list jsstr) (dec : json → option A) good k props issue :
  (∀ i, validates (validate i) dec good) →
  validateItems (get_own k props) validate issue = [] ↔
  ∃ xs, field k (λ v, as_array v ≫= mapM dec) props = Some xs ∧ Forall good xs.
Proof.
  intros Hv. unfold validateItems, field.
  destruct (get_own k props) as [[| | | |items|]|]; simpl; try (split; [done|by intros (x & ? & ?)]).
  rewrite <- mapM_good. clear -Hv.
  assert (∀ n, concat (imap (λ i, validate (n + i)) items) = [] ↔
               Forall (λ v, ∃ x, dec v = Some x ∧ good x) items) as H; [|apply (H 0)].
  induction items as [|v items IH]; intros n; simpl; [done|].
  rewrite app_nil, Nat.add_0_r, (Hv n v), Forall_cons. f_equiv.
  rewrite <- (IH (S n)). rewrite (imap_ext _ (λ i, validate (S n + i)) items); [done|].
  intros i x _. simpl. by rewrite Nat.add_succ_r.
Qed.

Lemma validateNode_nil i : validates (validateNode i) node_of_json node_ok.
Proof.
  intros v. unfold validateNode, node_ok.
  pose proof (λ path props, validates_optional _ _ _ (js "retry") props (validateRetry_nil path)) as Hretry.
  apply record_validates. intros props. split.
  - intros H. decode_hyps.
    match goal with H : match _ with _ => _ end = [] |- _ => apply Hretry in H end. decode_hyps.
    match goal with H : has_own (js "config") _ = true |- _ => apply field_present in H as [? ?] end.
    split; [done|]. decode_goal. simpl. decoded.
  - intros (Hknown & x & H & Hok). decode_inv H. decoded. apply Hretry. eauto.
Qed.

Lemma validateEdge_nil i : validates (validateEdge i) edge_of_json edge_ok.
Proof.
  intros v. unfold validateEdge, edge_ok.
  pose proof (λ k props path, validates_field (λ o, validateEndpoint o path) _ _ k props
    (validateEndpoint_nil path) ltac:(done)) as Hendpoint.
  apply record_validates. intros props. split.
  - intros H. decode_hyps.
    repeat match goal with H : validateEndpoint (get_own _ _) _ = [] |- _ => apply Hendpoint in H end.
    decode_hyps. split; [done|]. decode_goal. simpl. decoded.
  - intros (Hknown & x & H & Hok). decode_inv H. decoded; apply Hendpoint; eauto.
Qed.

Lemma validatePolicies_nil : validates validatePolicies policies_of_json policies_ok.
Proof.
  intros v. unfold validatePolicies, policies_ok. apply open_record_validates. intros props. split.
  - intros H. decode_hyps. decode_goal. simpl. decoded.
  - intros (x & H & Hok). decode_inv H. decoded.
Qed.

(** *** Entrypoints *)
Lemma set_size_strings (ss : list jsstr) : set_size (JStr <$> ss) = length (set_of_list ss).
Proof.
  unfold set_size, set_of_list.
  assert (∀ seen, foldl (λ seen item, if existsb (same_member item) seen then seen else seen ++ [item])
      (JStr <$> seen) (JStr <$> ss) = JStr <$> foldl (λ s x, set_add x s) seen ss) as H.
  { induction ss as [|s ss IH]; intros seen; csimpl; [done|].
    assert (existsb (same_member (JStr s)) (JStr <$> seen) = bool_decide (s ∈ seen)) as ->.
    { clear. induction seen as [|t seen IH]; csimpl; [done|]. rewrite IH.
      apply eq_true_iff_eq. rewrite orb_true_iff, !bool_decide_eq_true, elem_of_cons. done. }
    unfold set_add at 2. case_bool_decide; [by rewrite decide_True|].
    rewrite decide_False by done. rewrite <- IH. by rewrite fmap_app. }
  specialize (H []). simpl in H. rewrite H. by rewrite length_fmap.
Qed.

Lemma set_of_list_length_NoDup {A} `{EqDecision A} (xs : list A) :
  length (set_of_list xs) = length xs ↔ NoDup xs.
Proof.
  split.
  - intros Hlen. assert (set_of_list xs ≡ₚ xs) as <-; [|apply set_of_list_NoDup].
    apply submseteq_length_Permutation; [|lia].
    apply NoDup_submseteq; [apply set_of_list_NoDup|]. intros x. by rewrite elem_of_set_of_list.
  - intros. by rewrite set_of_list_id.
Qed.

Lemma mapM_as_string items es : mapM as_string items = Some es ↔ items = JStr <$> es.
Proof.
  split.
  - intros Hes. apply mapM_Some in Hes. induction Hes as [|v s l ss Hv _ IH]; [done|].
    csimpl. rewrite IH. by destruct v; simplify_eq/=.
  - intros ->. by apply mapM_fmap_Some.
Qed.

Lemma validateEntrypoints_nil k props :
  validateEntrypoints (get_own k props) = [] ↔
  ∃ es, field k (λ v, as_array v ≫= mapM as_string) props = Some es ∧
    es ≠ [] ∧ Forall (.≠ []) es ∧ NoDup es.
Proof.
  unfold validateEntrypoints, field.
  destruct (get_own k props) as [[| | | |items|]|]; simpl;
    try (split; [destruct items; done|by intros (x & ? & ?)]);
    try (split; [done|by intros (x & ? & ?)]).
  split.
  - destruct items as [|i items]; [done|]. intros H. decode_hyps.
    apply forallb_Forall in H.
    rewrite (Forall_iff _ _ (λ v, ∃ x, as_string v = Some x ∧ x ≠ [])) in H by (intros; apply decides).
    apply mapM_good in H as (es & Hes & Hall). exists es. split_and!; [done| |done|].
    + intros ->. by apply mapM_as_string in Hes.
    + pose proof (proj1 (mapM_as_string _ _) Hes) as Heq. rewrite Heq, set_size_strings, length_fmap in H0. bool_hyps. by apply set_of_list_length_NoDup.
  - intros (es & Hes & Hne & Hall & Hnd).
    apply mapM_as_string in Hes as ->. destruct es as [|e es]; [done|]. csimpl. rewrite <- fmap_cons.
    apply app_nil. split; apply issue_unless_nil.
    + apply Forall_cons in Hall as [He Hall]. apply andb_true_iff. split; [by destruct e|].
      apply forallb_Forall, Forall_fmap. eapply Forall_impl; [done|]. intros s Hs. simpl. by destruct s.
    + rewrite set_size_strings. apply Nat.eqb_eq. rewrite length_fmap.
      by apply (set_of_list_length_NoDup (e :: es)).
Qed.

Lemma validateOutputs_nil k props :
  validateOutputs (get_own k props) = [] ↔
  ∃ os, field k (as_map endpoint_of_json) props = Some os ∧
    os ≠ [] ∧ Forall (λ p, endpoint_ok p.2) os.
Proof.
  unfold validateOutputs, field, as_map. destruct (get_own k props) as [v|]; cbn [mbind option_bind].
  2: { split; [done|]. by intros (x & ? & ?). }
  destruct (record v) as [m|]; cbn [mbind option_bind]; [|split; [done|by intros (x & ? & ?)]].
  pose proof (as_map_good endpoint_of_json endpoint_ok m) as Hgood.
  rewrite <- (Forall_iff _ m _ (λ p, validateEndpoint_nil (js "#/outputs/" ++ p.1) p.2)) in Hgood.
  destruct m as [|p m].
  - split; [done|]. by intros (os & [= <-] & ? & _).
  - rewrite bind_nil, Hgood. split.
    + intros (os & H & Hok). exists os. split_and!; [done| |done]. intros ->.
      apply mapM_Some, Forall2_nil_inv_r in H. done.
    + intros (os & H & _ & Hok). by exists os.
Qed.

(** ** The document *)
Lemma validateGraphDocument_nil :
  validates validateGraphDocument graph_of_json graph_ok.
Proof.
  intros v. unfold validateGraphDocument, graph_ok.
  pose proof (λ k props issue, validates_items validateNode _ _ k props issue validateNode_nil) as Hnodes.
  pose proof (λ k props issue, validates_items validateEdge _ _ k props issue validateEdge_nil) as Hedges.
  pose proof (λ k props, validates_field validateMetadata _ _ k props
    validateMetadata_nil ltac:(done)) as Hmeta.
  pose proof (λ k props, validates_optional _ _ _ k props validatePolicies_nil) as Hpol.
  apply record_validates. intros props. split.
  - intros H. decode_hyps.
    repeat match goal with
    | H : match _ with _ => _ end = [] |- _ => apply Hpol in H
    | H : validateMetadata (get_own _ _) = [] |- _ => apply Hmeta in H
    | H : validateItems _ validateNode _ = [] |- _ => apply Hnodes in H
    | H : validateItems _ validateEdge _ = [] |- _ => apply Hedges in H
    | H : validateEntrypoints _ = [] |- _ => apply validateEntrypoints_nil in H
    | H : validateOutputs _ = [] |- _ => apply validateOutputs_nil in H
    end.
    decode_hyps.
    split; [done|]. decode_goal. simpl. decoded.
  - intros (Hknown & x & H & Hok). decode_inv H. decoded.
    + apply Hmeta. eauto.
    + apply validateEntrypoints_nil. eauto.
    + apply validateOutputs_nil. eauto.
    + apply Hnodes. eauto.
    + apply Hedges. eauto.
    + apply Hpol. eauto.
Qed.

(** C4. The structural validator reports no issue exactly for the documents that
    encode a typed graph whose identifiers, bounds and uniqueness constraints are
    those of the v1alpha1 schema, unknown properties included. *)
Theorem validateGraphDocument_accepts v :
  validateGraphDocument v = [] ↔ ∃ g, graph_of_json v = Some g ∧ graph_ok g.
Proof. apply validateGraphDocument_nil. Qed.
