(* ===== verification/Compiler.v ===== *)
(** * The graph compiler (packages/core/src/compiler.ts)

    [compileGraph] captures the caller's document, validates its structure, and
    analyses the graph: identities, references, topological layers (Kahn's
    algorithm), entrypoints, reachability and the fan-out and depth policies.
    The two loops are fuelled: a layer per node, and a queue entry per entrypoint
    and edge. *)
From S2P Require Import Prelude JsString JsNumber JsValue Canonical SchemaValidation GraphIR.

(** ** Diagnostics *)

Inductive DiagnosticSeverity := SeverityError | SeverityWarning.

Inductive DiagnosticCode :=
  | GE1001_DUPLICATE_NODE
  | GE1002_DUPLICATE_EDGE
  | GE1003_MISSING_SOURCE
  | GE1004_MISSING_TARGET
  | GE1005_CYCLE
  | GE1006_UNREACHABLE_NODE
  | GE1007_INVALID_GRAPH
  | GE1008_MISSING_ENTRYPOINT
  | GE1009_MISSING_OUTPUT
  | GE1010_ENTRYPOINT_HAS_INCOMING
  | GE1101_MAX_FAN_OUT
  | GE1102_MAX_DEPTH.

(** The codes are strings. *)
Definition code_text (c : DiagnosticCode) : jsstr :=
  match c with
  | GE1001_DUPLICATE_NODE => js "GE1001_DUPLICATE_NODE"
  | GE1002_DUPLICATE_EDGE => js "GE1002_DUPLICATE_EDGE"
  | GE1003_MISSING_SOURCE => js "GE1003_MISSING_SOURCE"
  | GE1004_MISSING_TARGET => js "GE1004_MISSING_TARGET"
  | GE1005_CYCLE => js "GE1005_CYCLE"
  | GE1006_UNREACHABLE_NODE => js "GE1006_UNREACHABLE_NODE"
  | GE1007_INVALID_GRAPH => js "GE1007_INVALID_GRAPH"
  | GE1008_MISSING_ENTRYPOINT => js "GE1008_MISSING_ENTRYPOINT"
  | GE1009_MISSING_OUTPUT => js "GE1009_MISSING_OUTPUT"
  | GE1010_ENTRYPOINT_HAS_INCOMING => js "GE1010_ENTRYPOINT_HAS_INCOMING"
  | GE1101_MAX_FAN_OUT => js "GE1101_MAX_FAN_OUT"
  | GE1102_MAX_DEPTH => js "GE1102_MAX_DEPTH"
  end.

Definition severity_text (s : DiagnosticSeverity) : jsstr :=
  match s with SeverityError => js "error" | SeverityWarning => js "warning" end.

Record CompilerDiagnostic := {
  code : DiagnosticCode;
  severity : DiagnosticSeverity;
  message : jsstr;
  diagnostic_path : option jsstr;
  nodeIds : option (list jsstr);
  edgeId : option jsstr
}.

Record CompilationResult := {
  valid : bool;
  graphHash : option jsstr;
  canonicalGraph : option jsstr;
  entrypoints : list jsstr;
  topologicalLayers : list (list jsstr);
  diagnostics : list CompilerDiagnostic
}.

#[export] Instance DiagnosticSeverity_eq_dec : EqDecision DiagnosticSeverity.
Proof. solve_decision. Defined.
#[export] Instance DiagnosticCode_eq_dec : EqDecision DiagnosticCode.
Proof. solve_decision. Defined.

Definition diagnostic (code : DiagnosticCode) (message : jsstr) (path : option jsstr)
    (nodeIds : option (list jsstr)) (edgeId : option jsstr) : CompilerDiagnostic :=
  Build_CompilerDiagnostic code SeverityError message path nodeIds edgeId.

(** A result without an analysed graph. *)
Definition invalid_result (message : jsstr) : CompilationResult :=
  Build_CompilationResult false None None [] [] [diagnostic GE1007_INVALID_GRAPH message None None None].

(** ** Identities and references *)

(** The loop that fills [nodesById]: a duplicate keeps the first node. *)
Fixpoint index_nodes (index : nat) (nodes : list NodeSpec) (nodesById : list (jsstr * NodeSpec))
    (diagnostics : list CompilerDiagnostic) : list (jsstr * NodeSpec) * list CompilerDiagnostic :=
  match nodes with
  | [] => (nodesById, diagnostics)
  | node :: nodes =>
      if map_has (node_id node) nodesById then
        index_nodes (S index) nodes nodesById
          (diagnostics ++
            [diagnostic GE1001_DUPLICATE_NODE
               (js "Node id '" ++ node_id node ++ js "' is declared more than once")
               (Some (js "#/nodes/" ++ string_of_nat index ++ js "/id")) (Some [node_id node]) None])
      else index_nodes (S index) nodes (map_set (node_id node) node nodesById) diagnostics
  end.

(** The diagnostics of one edge; [seen] are the edge ids before it. *)
Definition edge_diagnostics (nodesById : list (jsstr * NodeSpec)) (seen : list jsstr) (index : nat)
    (edge : EdgeSpec) : list CompilerDiagnostic :=
  let id := edge_id edge in
  let source := endpoint_node (edge_from edge) in
  let target := endpoint_node (edge_to edge) in
  (if bool_decide (id ∈ seen) then
     [diagnostic GE1002_DUPLICATE_EDGE (js "Edge id '" ++ id ++ js "' is declared more than once")
        (Some (js "#/edges/" ++ string_of_nat index ++ js "/id")) None (Some id)]
   else []) ++
  (if map_has source nodesById then [] else
     [diagnostic GE1003_MISSING_SOURCE
        (js "Edge '" ++ id ++ js "' references missing source '" ++ source ++ js "'")
        (Some (js "#/edges/" ++ string_of_nat index ++ js "/from/node")) (Some [source]) (Some id)]) ++
  (if map_has target nodesById then [] else
     [diagnostic GE1004_MISSING_TARGET
        (js "Edge '" ++ id ++ js "' references missing target '" ++ target ++ js "'")
        (Some (js "#/edges/" ++ string_of_nat index ++ js "/to/node")) (Some [target]) (Some id)]).

(** The loop over the edges: [validEdges] and the diagnostics. *)
Fixpoint check_edges (nodesById : list (jsstr * NodeSpec)) (seen : list jsstr) (index : nat)
    (edges : list EdgeSpec) : list EdgeSpec * list CompilerDiagnostic :=
  match edges with
  | [] => ([], [])
  | edge :: edges =>
      let '(validEdges, diagnostics) :=
        check_edges nodesById (set_add (edge_id edge) seen) (S index) edges in
      (if map_has (endpoint_node (edge_from edge)) nodesById &&
          map_has (endpoint_node (edge_to edge)) nodesById
       then edge :: validEdges else validEdges,
       edge_diagnostics nodesById seen index edge ++ diagnostics)
  end.

Definition check_entrypoints (nodesById : list (jsstr * NodeSpec)) (entrypoints : list jsstr)
    : list CompilerDiagnostic :=
  concat (imap (λ index entrypoint,
    if map_has entrypoint nodesById then [] else
      [diagnostic GE1008_MISSING_ENTRYPOINT
         (js "Entrypoint '" ++ entrypoint ++ js "' does not name a node")
         (Some (js "#/entrypoints/" ++ string_of_nat index)) (Some [entrypoint]) None]) entrypoints).

Definition check_outputs (nodesById : list (jsstr * NodeSpec)) (outputs : list (jsstr * Endpoint))
    : list CompilerDiagnostic :=
  sort_by compare_keys outputs ≫= λ p,
    if map_has (endpoint_node p.2) nodesById then [] else
      [diagnostic GE1009_MISSING_OUTPUT
         (js "Output '" ++ p.1 ++ js "' references missing node '" ++ endpoint_node p.2 ++ js "'")
         (Some (js "#/outputs/" ++ p.1 ++ js "/node")) (Some [endpoint_node p.2]) None].

(** ** Layers *)

(** [adjacency.get(id) ?? []], [inDegree.get(id) ?? 0] *)
Definition targets_of (adjacency : list (jsstr * list jsstr)) (id : jsstr) : list jsstr :=
  default [] (map_get id adjacency).
Definition degree_of (inDegree : list (jsstr * Z)) (id : jsstr) : Z :=
  default 0%Z (map_get id inDegree).

Definition build_adjacency (ids : list jsstr) (edges : list EdgeSpec) : list (jsstr * list jsstr) :=
  foldl (λ adjacency edge,
    let source := endpoint_node (edge_from edge) in
    match map_get source adjacency with
    | Some targets => map_set source (targets ++ [endpoint_node (edge_to edge)]) adjacency
    | None => adjacency
    end)
    ((λ id, (id, [])) <$> ids) edges.
Definition build_inDegree (ids : list jsstr) (edges : list EdgeSpec) : list (jsstr * Z) :=
  foldl (λ inDegree edge,
    let target := endpoint_node (edge_to edge) in
    map_set target (degree_of inDegree target + 1)%Z inDegree)
    ((λ id, (id, 0%Z)) <$> ids) edges.

Definition compareNodes (declarationIndex : list (jsstr * nat)) (left right : jsstr) : Z :=
  let index id := default MAX_SAFE_INTEGER (Z.of_nat <$> map_get id declarationIndex) in
  let difference := (index left - index right)%Z in
  if (difference =? 0)%Z then compareUnicodeCodePoints left right else difference.

(** The loop body for one target: decrement its degree, and put it in the next
    layer when it reaches zero. *)
Definition release (st : list (jsstr * Z) * list jsstr) (target : jsstr)
    : list (jsstr * Z) * list jsstr :=
  let '(inDegree, nextLayer) := st in
  let nextDegree := (degree_of inDegree target - 1)%Z in
  (map_set target nextDegree inDegree,
   if (nextDegree =? 0)%Z then set_add target nextLayer else nextLayer).

(** One iteration of the [while] loop. *)
Definition next_layer (adjacency : list (jsstr * list jsstr)) (inDegree : list (jsstr * Z))
    (currentLayer : list jsstr) : list (jsstr * Z) * list jsstr :=
  foldl (λ st nodeId, foldl release st (targets_of adjacency nodeId)) (inDegree, []) currentLayer.

(** The [while] loop: the layers and the processed nodes. *)
Fixpoint layer_loop (fuel : nat) (adjacency : list (jsstr * list jsstr))
    (compare : jsstr → jsstr → Z) (inDegree : list (jsstr * Z)) (currentLayer processed : list jsstr)
    : list (list jsstr) * list jsstr :=
  match fuel with
  | 0 => ([], processed)
  | S fuel =>
      match currentLayer with
      | [] => ([], processed)
      | _ =>
          let '(inDegree, nextLayer) := next_layer adjacency inDegree currentLayer in
          let '(layers, processed) :=
            layer_loop fuel adjacency compare inDegree (sort_by compare nextLayer)
              (foldl (λ s x, set_add x s) processed currentLayer) in
          (currentLayer :: layers, processed)
      end
  end.

(** ** Reachability *)

Fixpoint reach_loop (fuel : nat) (adjacency : list (jsstr * list jsstr)) (queue reachable : list jsstr)
    : list jsstr :=
  match fuel with
  | 0 => reachable
  | S fuel =>
      match queue with
      | [] => reachable
      | nodeId :: queue =>
          if bool_decide (nodeId ∈ reachable) then reach_loop fuel adjacency queue reachable
          else
            let reachable := set_add nodeId reachable in
            reach_loop fuel adjacency
              (queue ++ filter (.∉ reachable) (targets_of adjacency nodeId)) reachable
      end
  end.

(** ** Analysis of an acyclic graph *)

Definition incoming_diagnostics (entrypoints : list jsstr) (validEdges : list EdgeSpec)
    : list CompilerDiagnostic :=
  concat (imap (λ index entrypoint,
    if existsb (λ edge, bool_decide (endpoint_node (edge_to edge) = entrypoint)) validEdges then
      [diagnostic GE1010_ENTRYPOINT_HAS_INCOMING
         (js "Entrypoint '" ++ entrypoint ++ js "' cannot have incoming edges")
         (Some (js "#/entrypoints/" ++ string_of_nat index)) (Some [entrypoint]) None]
    else []) entrypoints).

Definition unreachable_diagnostics (ids reachable : list jsstr) : list CompilerDiagnostic :=
  (λ nodeId, diagnostic GE1006_UNREACHABLE_NODE
    (js "Node '" ++ nodeId ++ js "' is not reachable from an entrypoint") None (Some [nodeId]) None)
  <$> filter (.∉ reachable) ids.

Definition fan_out_diagnostics (maxFanOut : option Z) (ids : list jsstr)
    (adjacency : list (jsstr * list jsstr)) : list CompilerDiagnostic :=
  match maxFanOut with
  | None => []
  | Some maxFanOut => ids ≫= λ nodeId,
      let count := length (targets_of adjacency nodeId) in
      if (maxFanOut <? Z.of_nat count)%Z then
        [diagnostic GE1101_MAX_FAN_OUT
           (js "Node '" ++ nodeId ++ js "' fan-out " ++ string_of_nat count ++
            js " exceeds policy " ++ string_of_Z maxFanOut) None (Some [nodeId]) None]
      else []
  end.

Definition depth_diagnostics (maxDepth : option Z) (depth : nat) : list CompilerDiagnostic :=
  match maxDepth with
  | None => []
  | Some maxDepth =>
      if (maxDepth <? Z.of_nat depth)%Z then
        [diagnostic GE1102_MAX_DEPTH
           (js "Graph depth " ++ string_of_nat depth ++ js " exceeds policy " ++ string_of_Z maxDepth)
           None None None]
      else []
  end.

(** ** [compileGraph] *)

(** The analysis of a decoded graph. *)
Definition compile_graph (graph : GraphSpec) (graphHash canonicalGraph : option jsstr)
    : CompilationResult :=
  let '(nodesById, duplicates) := index_nodes 0 (graph_nodes graph) [] [] in
  let ids := nodesById.*1 in
  let '(validEdges, edge_issues) := check_edges nodesById [] 0 (graph_edges graph) in
  let entrypoints := set_of_list (graph_entrypoints graph) in
  let structural :=
    duplicates ++ edge_issues ++ check_entrypoints nodesById (graph_entrypoints graph) ++
    check_outputs nodesById (graph_outputs graph) in
  if (0 <? length structural)%nat then
    Build_CompilationResult false graphHash canonicalGraph entrypoints [] structural
  else
    let declarationIndex := imap (λ index id, (id, index)) ids in
    let compare := compareNodes declarationIndex in
    let adjacency :=
      (λ p : jsstr * list jsstr, (p.1, sort_by compare p.2)) <$> build_adjacency ids validEdges in
    let inDegree := build_inDegree ids validEdges in
    let roots := filter (λ id, degree_of inDegree id = 0%Z) ids in
    let '(topologicalLayers, processed) :=
      layer_loop (S (length ids)) adjacency compare inDegree roots [] in
    let cycleNodes := filter (.∉ processed) ids in
    if (0 <? length cycleNodes)%nat then
      Build_CompilationResult false graphHash canonicalGraph entrypoints topologicalLayers
        [diagnostic GE1005_CYCLE (js "Graph contains a cycle involving: " ++ join (js ", ") cycleNodes)
           None (Some cycleNodes) None]
    else
      let queue := filter (λ id, map_has id nodesById = true) entrypoints in
      let reachable :=
        reach_loop (S (length queue + length validEdges)) adjacency queue [] in
      let policies := graph_policies graph in
      let issues :=
        incoming_diagnostics (graph_entrypoints graph) validEdges ++
        unreachable_diagnostics ids reachable ++
        fan_out_diagnostics (policies ≫= policy_maxFanOut) ids adjacency ++
        depth_diagnostics (policies ≫= policy_maxDepth) (length topologicalLayers) in
      Build_CompilationResult (forallb (λ item, bool_decide (severity item ≠ SeverityError)) issues)
        graphHash canonicalGraph entrypoints topologicalLayers issues.

Section compile.
Context (hashCanonicalSerialization : jsstr → jsstr).

Definition compileGraph (h : heap) (document : value) : CompilationResult :=
  match captureCanonicalJson h document with
  | Err (CanonicalizationError message _) => invalid_result message
  | Err OutOfFuel => invalid_result (js "Graph input could not be inspected safely")
  | Ok (captured, serialized) =>
      match validateGraphDocument captured, graph_of_json captured with
      | [], Some graph =>
          compile_graph graph (Some (hashCanonicalSerialization serialized)) (Some serialized)
      | [], None => invalid_result (js "Graph validation could not be completed safely")
      | schemaIssues, _ => invalid_result (join (js "; ") schemaIssues)
      end
  end.
End compile.
