(* ===== verification/CompilerSpec.v ===== *)
(** * What the compiler promises

    The compiler's loops compute the graph notions of [Dag]: its layers are the
    levels of the edge relation, its cycle diagnostic lists the vertices that a
    cycle reaches, its reachability loop is the reflexive-transitive closure from
    the entrypoints, and a graph compiles without diagnostics exactly when it is
    a well-formed DAG. *)
From S2P Require Import Prelude JsString JsNumber JsValue JsonText Canonical CanonicalSpec.
From S2P Require Import Dag SchemaValidation GraphIR Compiler.

(** ** Specification *)

Definition edge_source (e : EdgeSpec) : jsstr := endpoint_node (edge_from e).
Definition edge_target (e : EdgeSpec) : jsstr := endpoint_node (edge_to e).
Definition edge_pairs (edges : list EdgeSpec) : list (jsstr * jsstr) :=
  (λ e, (edge_source e, edge_target e)) <$> edges.
Definition graph_ids (g : GraphSpec) : list jsstr := node_id <$> graph_nodes g.
Definition graph_pairs (g : GraphSpec) : list (jsstr * jsstr) := edge_pairs (graph_edges g).

(** Identities are unique and every reference names a node. *)
Record references_ok (g : GraphSpec) : Prop := {
  ids_unique : NoDup (graph_ids g);
  edge_ids_unique : NoDup (edge_id <$> graph_edges g);
  edges_closed : closed (graph_ids g) (graph_pairs g);
  entrypoints_declared : Forall (.∈ graph_ids g) (graph_entrypoints g);
  outputs_declared : Forall (λ p, endpoint_node p.2 ∈ graph_ids g) (graph_outputs g)
}.

(** A well-formed DAG within its policies. *)
Record well_formed (g : GraphSpec) : Prop := {
  wf_references : references_ok g;
  wf_acyclic : acyclic (graph_pairs g);
  wf_roots : ∀ u v, v ∈ graph_entrypoints g → ¬ edge (graph_pairs g) u v;
  wf_reachable : ∀ v, v ∈ graph_ids g →
    ∃ u, u ∈ graph_entrypoints g ∧ rtc (edge (graph_pairs g)) u v;
  wf_fan_out : ∀ m v, graph_policies g ≫= policy_maxFanOut = Some m → v ∈ graph_ids g →
    (Z.of_nat (length (filter (λ e : jsstr * jsstr, e.1 = v) (graph_pairs g))) ≤ m)%Z;
  wf_depth : ∀ m v, graph_policies g ≫= policy_maxDepth = Some m → v ∈ graph_ids g →
    ¬ chain (graph_pairs g) (Z.to_nat m) v
}.

(** ** Identities and references *)
Lemma index_nodes_spec i nodes m0 d0 m d :
  index_nodes i nodes m0 d0 = (m, d) → NoDup m0.*1 →
  (d = [] ↔ d0 = [] ∧ NoDup (m0.*1 ++ (node_id <$> nodes))) ∧
  (d = [] → m.*1 = m0.*1 ++ (node_id <$> nodes)).
Proof.
  revert i m0 d0. induction nodes as [|n nodes IH]; intros i m0 d0 H Hnd; csimpl in *.
  - injection H as <- <-. rewrite app_nil_r. naive_solver.
  - destruct (map_has (node_id n) m0) eqn:Hn.
    + apply map_has_true in Hn. destruct (IH _ _ _ H Hnd) as [H1 _].
      assert (d ≠ []) as Hd by (intros E; apply H1 in E as [E _]; by apply app_nil in E as [_ E]).
      split; [|done]. split; [done|]. intros [_ Hc]. apply NoDup_app in Hc as (_ & Hc & _).
      destruct (Hc _ Hn). left.
    + apply map_has_false in Hn. rewrite map_set_absent in H by done.
      destruct (IH _ _ _ H) as [H1 H2].
      { rewrite fmap_app. apply NoDup_app. split_and!; [done| |apply NoDup_singleton].
        intros x Hx ->%list_elem_of_singleton. done. }
      rewrite fmap_app, <- (assoc_L (++)) in H1, H2. done.
Qed.

Lemma edge_diagnostics_nil ids seen i e :
  edge_diagnostics ids seen i e = [] ↔
  edge_id e ∉ seen ∧ edge_source e ∈ ids.*1 ∧ edge_target e ∈ ids.*1.
Proof.
  unfold edge_diagnostics. fold (edge_source e) (edge_target e). rewrite !app_nil.
  rewrite <- !map_has_true. case_bool_decide; destruct (map_has (edge_source e) ids),
    (map_has (edge_target e) ids); naive_solver.
Qed.

Lemma check_edges_spec ids seen i edges ve d :
  check_edges ids seen i edges = (ve, d) → NoDup seen →
  (d = [] ↔ NoDup (seen ++ (edge_id <$> edges)) ∧
    Forall (λ e, edge_source e ∈ ids.*1 ∧ edge_target e ∈ ids.*1) edges) ∧
  (d = [] → ve = edges).
Proof.
  revert seen i ve d. induction edges as [|e edges IH]; intros seen i ve d H Hnd; simpl in *.
  - injection H as <- <-. rewrite app_nil_r. naive_solver.
  - destruct (check_edges ids (set_add (edge_id e) seen) (S i) edges) as [ve' d'] eqn:E.
    injection H as <- <-. rewrite app_nil, edge_diagnostics_nil.
    destruct (IH _ _ _ _ E) as [H1 H2]; [by apply set_add_NoDup|].
    rewrite Forall_cons, H1. unfold set_add. split.
    + case_decide as Hs.
      * split; [tauto|]. intros [Hn _]. apply NoDup_app in Hn as (_ & Hn & _).
        destruct (Hn _ Hs). left.
      * rewrite <- (assoc_L (++)). tauto.
    + intros ((_ & Hs & Ht) & Hd). rewrite <- H1 in Hd. apply map_has_true in Hs, Ht.
      unfold edge_source, edge_target in *. rewrite Hs, Ht. simpl. f_equal. auto.
Qed.

Lemma concat_imap_nil {A B} (f : nat → A → list B) (P : A → Prop) l :
  (∀ i x, f i x = [] ↔ P x) → concat (imap f l) = [] ↔ Forall P l.
Proof.
  revert f. induction l as [|x l IH]; intros f Hf; simpl; [done|].
  rewrite app_nil, Hf, Forall_cons, IH; [done|]. intros. apply Hf.
Qed.

Lemma check_entrypoints_nil ids es : check_entrypoints ids es = [] ↔ Forall (.∈ ids.*1) es.
Proof.
  apply concat_imap_nil. intros i x. rewrite <- map_has_true. by destruct (map_has x ids).
Qed.

Lemma check_outputs_nil ids os :
  check_outputs ids os = [] ↔ Forall (λ p, endpoint_node p.2 ∈ ids.*1) os.
Proof.
  unfold check_outputs. rewrite bind_nil. rewrite sort_by_Permutation. apply Forall_iff. intros p.
  rewrite <- map_has_true. by destruct (map_has (endpoint_node p.2) ids).
Qed.

Lemma closed_edges ids edges :
  Forall (λ e, edge_source e ∈ ids ∧ edge_target e ∈ ids) edges ↔ closed ids (edge_pairs edges).
Proof.
  unfold closed, edge, edge_pairs. rewrite Forall_forall. split.
  - intros H u v He. apply list_elem_of_fmap in He as (e & [= -> ->] & He). by apply H.
  - intros H e He. apply H. apply list_elem_of_fmap. by exists e.
Qed.

(** ** Adjacency and degrees *)
#[local] Arguments edge_pairs : simpl never.
Lemma edge_pairs_cons e edges :
  edge_pairs (e :: edges) = (edge_source e, edge_target e) :: edge_pairs edges.
Proof. done. Qed.

Definition out_targets (pairs : list (jsstr * jsstr)) (v : jsstr) : list jsstr :=
  (filter (λ e : jsstr * jsstr, e.1 = v) pairs).*2.
Definition in_degree (pairs : list (jsstr * jsstr)) (v : jsstr) : nat :=
  length (filter (λ e : jsstr * jsstr, e.2 = v) pairs).

Lemma targets_of_map_set adj k ts v :
  targets_of (map_set k ts adj) v = if decide (v = k) then ts else targets_of adj v.
Proof. unfold targets_of. rewrite map_get_set. by case_decide. Qed.

Lemma build_adjacency_spec ids edges v :
  closed ids (edge_pairs edges) → v ∈ ids →
  targets_of (build_adjacency ids edges) v = out_targets (edge_pairs edges) v.
Proof.
  intros Hc%closed_edges Hv. unfold build_adjacency.
  assert (∀ adj, ids ⊆ adj.*1 →
    targets_of (foldl (λ adjacency edge,
      let source := endpoint_node (edge_from edge) in
      match map_get source adjacency with
      | Some targets => map_set source (targets ++ [endpoint_node (edge_to edge)]) adjacency
      | None => adjacency
      end) adj edges) v = targets_of adj v ++ out_targets (edge_pairs edges) v) as H.
  { induction Hc as [|e edges [Hs _] _ IH]; intros adj Hids; simpl.
    - unfold out_targets. simpl. by rewrite app_nil_r.
    - pose proof (proj2 (map_has_true _ adj) (Hids _ Hs)) as Hhas. unfold map_has in Hhas.
      destruct (map_get (edge_source e) adj) as [ts|] eqn:Hget; [|done].
      unfold edge_source in Hget. rewrite Hget.
      rewrite IH by (rewrite map_set_present_keys by auto; done). rewrite targets_of_map_set.
      unfold out_targets. rewrite edge_pairs_cons, filter_cons. simpl.
      fold (edge_source e) (edge_target e).
      destruct (decide (v = edge_source e)) as [->|Hne].
      + rewrite decide_True by done. unfold targets_of. unfold edge_source. rewrite Hget. simpl.
        by rewrite <- (assoc_L (++)).
      + by rewrite decide_False by done. }
  rewrite H.
  - assert (∀ l, targets_of ((λ id, (id, [])) <$> l) v = []) as ->; [|done].
    { unfold targets_of. intros l. induction l as [|x l IH]; csimpl; [done|]. by case_decide. }
  - by rewrite <- list_fmap_compose, list_fmap_id.
Qed.

Lemma targets_of_sorted (sort : list jsstr → list jsstr) adj v :
  sort [] = [] →
  targets_of ((λ p : jsstr * list jsstr, (p.1, sort p.2)) <$> adj) v = sort (targets_of adj v).
Proof.
  intros Hs. unfold targets_of. induction adj as [|[k ts] adj IH]; csimpl; [done|].
  by case_decide.
Qed.

Lemma degree_of_map_set deg k d v :
  degree_of (map_set k d deg) v = if decide (v = k) then d else degree_of deg v.
Proof. unfold degree_of. rewrite map_get_set. by case_decide. Qed.

Lemma build_inDegree_spec ids edges v :
  degree_of (build_inDegree ids edges) v = Z.of_nat (in_degree (edge_pairs edges) v).
Proof.
  unfold build_inDegree, in_degree.
  assert (∀ deg, degree_of (foldl (λ inDegree edge,
      let target := endpoint_node (edge_to edge) in
      map_set target (degree_of inDegree target + 1)%Z inDegree) deg edges) v =
    (degree_of deg v + Z.of_nat (length (filter (λ e : jsstr * jsstr, e.2 = v) (edge_pairs edges))))%Z)
    as H.
  { induction edges as [|e edges IH]; intros deg; [simpl; lia|]. cbn [foldl].
    rewrite IH. cbv zeta. rewrite degree_of_map_set. rewrite edge_pairs_cons, filter_cons. simpl. fold (edge_target e).
    destruct (decide (v = edge_target e)) as [->|Hne].
    - rewrite decide_True by done. simpl. fold (edge_target e). lia.
    - by rewrite decide_False by done. }
  rewrite H.
  assert (∀ l, degree_of ((λ id, (id, 0%Z)) <$> l) v = 0%Z) as ->; [|lia].
  unfold degree_of. intros l. induction l as [|x l IH]; csimpl; [done|]. by case_decide.
Qed.

(** ** One layer *)

(** How often a value occurs. *)
Definition occurrences (v : jsstr) (l : list jsstr) : nat := length (filter (.= v) l).

Lemma occurrences_app v l k : occurrences v (l ++ k) = occurrences v l + occurrences v k.
Proof. unfold occurrences. by rewrite filter_app, length_app. Qed.

Lemma occurrences_Permutation v l k : l ≡ₚ k → occurrences v l = occurrences v k.
Proof. unfold occurrences. by intros ->. Qed.

Lemma release_spec ts deg acc deg' acc' :
  foldl release (deg, acc) ts = (deg', acc') → NoDup acc →
  (∀ v, degree_of deg' v = degree_of deg v - Z.of_nat (occurrences v ts))%Z ∧ NoDup acc' ∧
  (∀ v, v ∈ acc' ↔ v ∈ acc ∨ (0 < degree_of deg v ≤ Z.of_nat (occurrences v ts)))%Z.
Proof.
  revert deg acc. induction ts as [|t ts IH]; intros deg acc H Hnd; simpl in H.
  - injection H as <- <-. unfold occurrences. simpl. split_and!; [lia|done|].
    intros v. split; [by left|]. intros [?|?]; [done|lia].
  - apply IH in H as (Hdeg & Hnd' & Hacc).
    2: { destruct (degree_of deg t - 1 =? 0)%Z; [by apply set_add_NoDup|done]. }
    assert (∀ v, occurrences v (t :: ts) =
      (if decide (v = t) then 1 else 0) + occurrences v ts) as Hocc.
    { intros v. unfold occurrences. rewrite filter_cons.
      destruct (decide (t = v)), (decide (v = t)); simpl; congruence || lia. }
    split_and!; [|done|]; intros v; rewrite ?Hdeg, ?Hacc, Hocc, degree_of_map_set.
    + destruct (decide (v = t)) as [->|]; lia.
    + destruct (degree_of deg t - 1 =? 0)%Z eqn:E; bool_hyps; rewrite ?elem_of_set_add;
        destruct (decide (v = t)) as [->|]; naive_solver lia.
Qed.

Lemma next_layer_foldl adj deg layer :
  next_layer adj deg layer = foldl release (deg, []) (layer ≫= targets_of adj).
Proof.
  unfold next_layer. generalize (deg, @nil jsstr). induction layer as [|v layer IH]; intros st; csimpl; [done|].
  by rewrite foldl_app, IH.
Qed.

(** The edges from a set of sources, counted by target. *)
Lemma occurrences_targets (pairs : list (jsstr * jsstr)) layer v :
  NoDup layer →
  occurrences v (layer ≫= out_targets pairs) =
  length (filter (λ e : jsstr * jsstr, e.2 = v ∧ e.1 ∈ layer) pairs).
Proof.
  induction 1 as [|u layer Hu _ IH]; csimpl.
  - unfold occurrences. simpl. symmetry. apply length_zero_iff_nil, elem_of_nil_inv.
    intros e He. apply list_elem_of_filter in He as [[_ He] _]. by apply not_elem_of_nil in He.
  - rewrite occurrences_app, IH.
    rewrite (filter_length_split (λ e : jsstr * jsstr, e.2 = v ∧ e.1 ∈ u :: layer) (λ e : jsstr * jsstr, e.2 = v ∧ e.1 = u)
      (λ e : jsstr * jsstr, e.2 = v ∧ e.1 ∈ layer) pairs).
    + f_equal. unfold occurrences, out_targets. clear.
      induction pairs as [|[a b] pairs IH]; [done|]. rewrite !filter_cons. simpl.
      destruct (decide (a = u)); csimpl.
      * rewrite filter_cons. destruct (decide (b = v)); [rewrite decide_True by done; simpl; by rewrite IH|].
        by rewrite decide_False by tauto.
      * by rewrite decide_False by tauto.
    + intros e _. rewrite elem_of_cons. tauto.
    + intros e _ [_ ->] [_ ?]. done.
Qed.

(** ** Declaration order *)
Definition declaration_index (ids : list jsstr) : list (jsstr * nat) :=
  imap (λ index id, (id, index)) ids.

#[export] Instance compareNodes_comparator decl : Comparator (compareNodes decl).
Proof.
  split; unfold cmp_le, compareNodes; cbv zeta.
  - intros x y. pose proof (comparator_total (cmp := compareUnicodeCodePoints) x y).
    unfold cmp_le in *. repeat match goal with |- context [(?a - ?b =? 0)%Z] =>
      destruct (a - b =? 0)%Z eqn:?; bool_hyps end; lia.
  - intros x y z. pose proof (comparator_trans (cmp := compareUnicodeCodePoints) x y z).
    unfold cmp_le in *. repeat match goal with |- context [(?a - ?b =? 0)%Z] =>
      destruct (a - b =? 0)%Z eqn:?; bool_hyps end; lia.
Qed.

Lemma map_get_index ids i v :
  NoDup ids → ids !! i = Some v → map_get v (declaration_index ids) = Some i.
Proof.
  intros Hnd Hi. apply map_get_NoDup.
  - assert ((declaration_index ids).*1 = ids) as ->; [|done].
    apply list_eq. intros j. unfold declaration_index. rewrite list_lookup_fmap, list_lookup_imap.
    by destruct (ids !! j).
  - apply list_elem_of_lookup. exists i. unfold declaration_index. by rewrite list_lookup_imap, Hi.
Qed.

Lemma compareNodes_index ids i j u v :
  NoDup ids → ids !! i = Some u → ids !! j = Some v → i ≠ j →
  compareNodes (declaration_index ids) u v = (Z.of_nat i - Z.of_nat j)%Z.
Proof.
  intros Hnd Hi Hj Hne. unfold compareNodes.
  rewrite (map_get_index ids i u), (map_get_index ids j v) by done. simpl.
  destruct (Z.of_nat i - Z.of_nat j =? 0)%Z eqn:E; bool_hyps; [lia|done].
Qed.

Lemma declared_sorted ids :
  NoDup ids → StronglySorted (cmp_le (compareNodes (declaration_index ids))) ids.
Proof.
  intros Hnd.
  assert (∀ k l, (∀ i v, l !! i = Some v → ids !! (k + i) = Some v) →
    StronglySorted (cmp_le (compareNodes (declaration_index ids))) l) as H.
  { intros k l. revert k. induction l as [|u l IH]; intros k Hl; constructor.
    - apply (IH (S k)). intros i v Hv. specialize (Hl (S i) v Hv). by rewrite Nat.add_succ_r in Hl.
    - apply Forall_lookup. intros i v Hv. unfold cmp_le.
      rewrite (compareNodes_index ids (k + 0) (k + S i)); [lia|done|by apply Hl|by apply Hl|lia]. }
  by apply (H 0).
Qed.

Lemma StronglySorted_filter {A} (R : relation A) (P : A → Prop) `{∀ x, Decision (P x)} l :
  StronglySorted R l → StronglySorted R (filter P l).
Proof.
  induction 1 as [|x l _ IH Hx]; [constructor|]. rewrite filter_cons.
  case_decide; [|done]. constructor; [done|]. rewrite Forall_forall in Hx.
  apply Forall_forall. intros y Hy. apply list_elem_of_filter in Hy as [_ Hy]. auto.
Qed.

(** Sorting puts any enumeration of a subset in declaration order. *)
Lemma sort_declared ids (P : jsstr → Prop) `{∀ v, Decision (P v)} l :
  NoDup ids → NoDup l → (∀ v, v ∈ l ↔ v ∈ ids ∧ P v) →
  sort_by (compareNodes (declaration_index ids)) l = filter P ids.
Proof.
  intros Hnd Hl Hin.
  rewrite <- (sort_by_sorted_id (compareNodes (declaration_index ids)) (filter P ids)).
  - apply sort_by_unique; [apply _| |].
    + apply NoDup_Permutation; [done|by apply NoDup_filter|].
      intros v. rewrite Hin, list_elem_of_filter. tauto.
    + intros x y [Hx _]%Hin [Hy _]%Hin.
      apply list_elem_of_lookup in Hx as [i Hi]. apply list_elem_of_lookup in Hy as [j Hj].
      unfold cmp_le. destruct (decide (i = j)) as [->|Hne]; [congruence|].
      rewrite (compareNodes_index ids i j), (compareNodes_index ids j i) by auto. lia.
  - by apply StronglySorted_filter, declared_sorted.
Qed.

(** ** The layers are the levels *)
Section layers.
Context (ids : list jsstr) (pairs : list (jsstr * jsstr)).
Context (adjacency : list (jsstr * list jsstr)).
Hypothesis ids_nodup : NoDup ids.
Hypothesis pairs_closed : closed ids pairs.
Hypothesis adjacency_spec : ∀ v, v ∈ ids → targets_of adjacency v ≡ₚ out_targets pairs v.

Lemma layer_targets layer v :
  layer ⊆ ids → occurrences v (layer ≫= targets_of adjacency) = occurrences v (layer ≫= out_targets pairs).
Proof.
  intros Hl. apply occurrences_Permutation. induction layer as [|u layer IH]; csimpl; [done|].
  rewrite adjacency_spec by (apply Hl; left). rewrite IH; [done|].
  intros w Hw. apply Hl. by right.
Qed.

(** One iteration of the loop goes from a level to the next. *)
Lemma next_layer_level k deg deg' next :
  (∀ v, degree_of deg v = Z.of_nat (pending pairs k v)) →
  next_layer adjacency deg (level ids pairs k) = (deg', next) →
  (∀ v, degree_of deg' v = Z.of_nat (pending pairs (S k) v)) ∧
  sort_by (compareNodes (declaration_index ids)) next = level ids pairs (S k).
Proof.
  intros Hdeg. rewrite next_layer_foldl. intros H.
  apply release_spec in H as (Hdeg' & Hnd & Hnext); [|constructor].
  assert (∀ v, pending pairs k v = pending pairs (S k) v +
    occurrences v (level ids pairs k ≫= targets_of adjacency)) as Hsplit.
  { intros v. rewrite layer_targets by (intros u Hu; apply elem_of_level in Hu; tauto).
    rewrite occurrences_targets by (by apply level_NoDup). by apply pending_split. }
  split.
  - intros v. rewrite Hdeg', Hdeg. specialize (Hsplit v). lia.
  - unfold level. apply sort_declared; [done..|]. intros v. rewrite Hnext, Hdeg.
    specialize (Hsplit v). pose proof (pending_zero pairs (S k) v) as Hz.
    pose proof (pending_zero pairs k v) as Hz'.
    destruct (decide (chain pairs (S k) v)) as [Hc|Hc].
    + assert (v ∈ ids) by (destruct Hc as (u & Hu & _); by apply (pairs_closed u v)).
      destruct (decide (chain pairs (S (S k)) v)).
      * split; [|tauto]. intros [?%not_elem_of_nil|?]; [done|]. exfalso.
        assert (pending pairs (S k) v ≠ 0) by tauto. lia.
      * split; [tauto|]. intros _. right.
        assert (pending pairs (S k) v = 0) by tauto.
        assert (pending pairs k v ≠ 0) by tauto. lia.
    + split; [|tauto]. intros [?%not_elem_of_nil|?]; [done|]. exfalso.
      assert (pending pairs k v = 0) by tauto. lia.
Qed.

Lemma layer_loop_spec fuel k deg processed layers processed' :
  k + fuel = S (length ids) →
  (∀ v, degree_of deg v = Z.of_nat (pending pairs k v)) →
  (∀ v, v ∈ processed ↔ v ∈ ids ∧ ¬ chain pairs k v) →
  layer_loop fuel adjacency (compareNodes (declaration_index ids)) deg (level ids pairs k) processed
    = (layers, processed') →
  k ≤ length ids →
  ∃ d, k ≤ d ≤ length ids ∧ layers = level ids pairs <$> seq k (d - k) ∧
    (∀ i, k ≤ i < d → level ids pairs i ≠ []) ∧ level ids pairs d = [] ∧
    (∀ v, v ∈ processed' ↔ v ∈ ids ∧ ¬ chain pairs d v).
Proof.
  revert k deg processed layers processed'.
  induction fuel as [|fuel IH]; intros k deg processed layers processed' Hf Hdeg Hp H Hk; [lia|].
  cbn [layer_loop] in H. destruct (level ids pairs k) as [|u us] eqn:Hl.
  { injection H as <- <-. exists k. rewrite Nat.sub_diag. split_and!; [lia..|done| |done|done]. lia. }
  rewrite <- Hl in H.
  destruct (next_layer adjacency deg (level ids pairs k)) as [deg' next] eqn:Hnext.
  destruct (next_layer_level k deg deg' next Hdeg Hnext) as [Hdeg' Hsort].
  rewrite Hsort in H.
  destruct (layer_loop fuel adjacency _ deg' (level ids pairs (S k)) _) as [layers0 p0] eqn:Hloop.
  injection H as <- <-.
  assert (S k ≤ length ids) as Hk'.
  { destruct (decide (k = length ids)) as [->|]; [|lia].
    rewrite level_length in Hl by done. done. }
  apply IH in Hloop as (d & Hd & -> & Hne & Hnil & Hp0); [|lia|done| |done].
  - exists d. split_and!; [lia..| | |done|done].
    + replace (d - k) with (S (d - S k)) by lia. done.
    + intros i Hi. destruct (decide (i = k)) as [->|]; [by rewrite Hl|]. apply Hne. lia.
  - intros v.
    assert (∀ l s, v ∈ foldl (λ s x, set_add x s) s l ↔ v ∈ s ∨ v ∈ l) as ->.
    { intros l. induction l as [|x l IHl]; intros s; simpl; [set_solver|].
      rewrite IHl, elem_of_set_add. set_solver. }
    rewrite Hp, elem_of_level. pose proof (chain_S pairs k v).
    destruct (decide (chain pairs k v)); tauto.
Qed.
End layers.

(** ** The reachability loop *)
Section reachability.
Context (ids : list jsstr) (pairs : list (jsstr * jsstr)).
Context (adjacency : list (jsstr * list jsstr)) (roots : list jsstr).
Hypothesis pairs_closed : closed ids pairs.
Hypothesis adjacency_spec : ∀ v, v ∈ ids → targets_of adjacency v ≡ₚ out_targets pairs v.

Definition from_roots (v : jsstr) : Prop := ∃ u, u ∈ roots ∧ rtc (edge pairs) u v.

Lemma elem_of_out_targets u v : v ∈ out_targets pairs u ↔ edge pairs u v.
Proof.
  unfold out_targets, edge. rewrite list_elem_of_fmap. split.
  - intros ([a b] & -> & H). by apply list_elem_of_filter in H as [<- H].
  - intros H. exists (u, v). split; [done|]. by apply list_elem_of_filter.
Qed.

(** The edges whose source has not been expanded. *)
Definition unexpanded (reachable : list jsstr) : nat :=
  length (filter (λ e : jsstr * jsstr, e.1 ∉ reachable) pairs).

Lemma unexpanded_add v reachable :
  v ∉ reachable →
  unexpanded reachable = unexpanded (set_add v reachable) + length (out_targets pairs v).
Proof.
  intros Hv. unfold unexpanded, out_targets. rewrite length_fmap.
  apply filter_length_split; intros e _; rewrite elem_of_set_add.
  - destruct (decide (e.1 = v)) as [->|]; tauto.
  - tauto.
Qed.

Lemma reach_loop_spec fuel queue reachable :
  queue ⊆ ids → (∀ v, v ∈ queue ∨ v ∈ reachable → from_roots v) →
  (∀ v, v ∈ roots → v ∈ queue ∨ v ∈ reachable) →
  (∀ u v, u ∈ reachable → edge pairs u v → v ∈ queue ∨ v ∈ reachable) →
  length queue + unexpanded reachable < fuel →
  ∀ v, v ∈ reach_loop fuel adjacency queue reachable ↔ from_roots v.
Proof.
  revert queue reachable. induction fuel as [|fuel IH]; intros queue reachable Hq Hsound Hroots Hclosed Hfuel;
    [lia|].
  destruct queue as [|n queue]; simpl.
  - intros v. split; [intros ?; apply Hsound; by right|].
    intros (u & Hu & Huv). destruct (Hroots u Hu) as [?%not_elem_of_nil|Hu']; [done|]. clear Hu.
    induction Huv as [u|u w v Huw _ IHr]; [done|]. apply IHr.
    by destruct (Hclosed u w Hu' Huw) as [?%not_elem_of_nil|].
  - simpl in Hfuel. case_bool_decide as Hn.
    + apply IH; [set_solver|set_solver| | |lia].
      * intros v Hv. destruct (Hroots v Hv) as [[->|?]%elem_of_cons|?]; auto.
      * intros u v Hu Huv. destruct (Hclosed u v Hu Huv) as [[->|?]%elem_of_cons|?]; auto.
    + assert (n ∈ ids) as Hnid by (apply Hq; left).
      assert (∀ v, v ∈ targets_of adjacency n ↔ edge pairs n v) as Htargets.
      { intros v. by rewrite (adjacency_spec n Hnid), elem_of_out_targets. }
      apply IH.
      * intros v [Hv|Hv]%elem_of_app; [set_solver|]. apply list_elem_of_filter in Hv as [_ Hv].
        apply Htargets in Hv. by apply (pairs_closed n v).
      * intros v. rewrite elem_of_app, list_elem_of_filter, elem_of_set_add, Htargets.
        intros [[Hv|[_ Hv]]|[->|Hv]]; [set_solver| |set_solver|set_solver].
        destruct (Hsound n) as (u & Hu & Hun); [set_solver|]. exists u. split; [done|]. by eapply rtc_r.
      * intros v Hv. rewrite elem_of_app, elem_of_set_add. destruct (Hroots v Hv); set_solver.
      * intros u v. rewrite elem_of_app, list_elem_of_filter, !elem_of_set_add, Htargets.
        intros [->|Hu] Huv; [destruct (decide (v = n ∨ v ∈ reachable)); tauto|].
        destruct (Hclosed u v Hu Huv); set_solver.
      * rewrite length_app. rewrite (unexpanded_add n reachable Hn) in Hfuel.
        rewrite <- (Permutation_length (adjacency_spec n Hnid)) in Hfuel.
        pose proof (length_filter (.∉ set_add n reachable) (targets_of adjacency n)). lia.
Qed.
End reachability.

(** ** The analysis of a graph *)

(** The result of a graph whose references are sound, by the notions of [Dag]. *)
Definition analysed (g : GraphSpec) (hash canonical : option jsstr) (r : CompilationResult)
    (depth : nat) : Prop :=
  let ids := graph_ids g in
  let pairs := graph_pairs g in
  let layers := level ids pairs <$> seq 0 depth in
  let cycleNodes := filter (λ v, chain pairs depth v) ids in
  depth ≤ length ids ∧ (∀ i, i < depth → level ids pairs i ≠ []) ∧ level ids pairs depth = [] ∧
  (cycleNodes ≠ [] ∧
   r = Build_CompilationResult false hash canonical (set_of_list (graph_entrypoints g)) layers
     [diagnostic GE1005_CYCLE (js "Graph contains a cycle involving: " ++ join (js ", ") cycleNodes)
        None (Some cycleNodes) None] ∨
   cycleNodes = [] ∧ ∃ adjacency reachable,
     (∀ v, v ∈ ids → targets_of adjacency v ≡ₚ out_targets pairs v) ∧
     (∀ v, v ∈ reachable ↔ from_roots pairs (graph_entrypoints g) v) ∧
     let issues :=
       incoming_diagnostics (graph_entrypoints g) (graph_edges g) ++
       unreachable_diagnostics ids reachable ++
       fan_out_diagnostics (graph_policies g ≫= policy_maxFanOut) ids adjacency ++
       depth_diagnostics (graph_policies g ≫= policy_maxDepth) depth in
     r = Build_CompilationResult (forallb (λ item, bool_decide (severity item ≠ SeverityError)) issues)
       hash canonical (set_of_list (graph_entrypoints g)) layers issues).

Lemma sort_nil cmp : sort_by cmp (@nil jsstr) = [].
Proof. done. Qed.

(** The layer loop from the initial degrees. *)
Lemma compile_layers ids edges layers processed :
  NoDup ids → closed ids (edge_pairs edges) →
  let compare := compareNodes (declaration_index ids) in
  let adjacency :=
    (λ p : jsstr * list jsstr, (p.1, sort_by compare p.2)) <$> build_adjacency ids edges in
  let inDegree := build_inDegree ids edges in
  layer_loop (S (length ids)) adjacency compare inDegree
    (filter (λ id, degree_of inDegree id = 0%Z) ids) [] = (layers, processed) →
  (∀ v, v ∈ ids → targets_of adjacency v ≡ₚ out_targets (edge_pairs edges) v) ∧
  ∃ d, d ≤ length ids ∧ layers = level ids (edge_pairs edges) <$> seq 0 d ∧
    (∀ i, i < d → level ids (edge_pairs edges) i ≠ []) ∧ level ids (edge_pairs edges) d = [] ∧
    (∀ v, v ∈ processed ↔ v ∈ ids ∧ ¬ chain (edge_pairs edges) d v).
Proof.
  intros Hnd Hc compare adjacency inDegree Hloop.
  assert (∀ v, v ∈ ids → targets_of adjacency v ≡ₚ out_targets (edge_pairs edges) v) as Hadj.
  { intros v Hv. unfold adjacency. rewrite targets_of_sorted by apply sort_nil.
    rewrite sort_by_Permutation. by rewrite build_adjacency_spec. }
  split; [done|].
  assert (∀ v, degree_of inDegree v = Z.of_nat (pending (edge_pairs edges) 0 v)) as Hdeg.
  { intros v. unfold inDegree. rewrite build_inDegree_spec. unfold in_degree, pending. do 2 f_equal.
    apply list_filter_iff. intros e. simpl. tauto. }
  assert (filter (λ id, degree_of inDegree id = 0%Z) ids = level ids (edge_pairs edges) 0) as Hroots.
  { apply list_filter_iff. intros v. rewrite Hdeg.
    rewrite <- (pending_zero (edge_pairs edges) 0 v). simpl. lia. }
  rewrite Hroots in Hloop.
  eapply layer_loop_spec in Hloop as (d & ? & -> & Hne & ? & Hp); try done; [|set_solver|lia].
  exists d. rewrite Nat.sub_0_r. split_and!; [lia|done| |done|done]. intros i Hi. apply Hne. lia.
Qed.

Lemma references_ok_iff g nodesById duplicates validEdges edge_issues :
  index_nodes 0 (graph_nodes g) [] [] = (nodesById, duplicates) →
  check_edges nodesById [] 0 (graph_edges g) = (validEdges, edge_issues) →
  (duplicates ++ edge_issues ++ check_entrypoints nodesById (graph_entrypoints g) ++
   check_outputs nodesById (graph_outputs g) = [] ↔ references_ok g) ∧
  (references_ok g → nodesById.*1 = graph_ids g ∧ validEdges = graph_edges g).
Proof.
  intros Hn He. apply index_nodes_spec in Hn as [Hn Hids]; [|constructor].
  apply check_edges_spec in He as [He Hve]; [|constructor]. csimpl in *.
  fold (graph_ids g) in Hn, Hids. rewrite closed_edges in He.
  assert (duplicates ++ edge_issues ++ check_entrypoints nodesById (graph_entrypoints g) ++
    check_outputs nodesById (graph_outputs g) = [] ↔ references_ok g) as Hiff.
  { rewrite !app_nil, check_entrypoints_nil, check_outputs_nil, Hn, He. split.
    - intros ([_ Hnd] & [? ?] & ? & ?). rewrite Hids in * by (by apply Hn). by split.
    - intros [Hnd ? ? ? ?]. rewrite Hids by (by apply Hn). done. }
  split; [done|]. intros Href%Hiff. rewrite !app_nil in Href. destruct Href as (? & ? & _). auto.
Qed.

Lemma compile_graph_cases g hash canonical :
  let r := compile_graph g hash canonical in
  (¬ references_ok g ∧ valid r = false ∧ topologicalLayers r = [] ∧ diagnostics r ≠ []) ∨
  (references_ok g ∧ ∃ depth, analysed g hash canonical r depth).
Proof.
  unfold compile_graph.
  destruct (index_nodes 0 (graph_nodes g) [] []) as [nodesById duplicates] eqn:Hn.
  destruct (check_edges nodesById [] 0 (graph_edges g)) as [validEdges edge_issues] eqn:He.
  destruct (references_ok_iff g _ _ _ _ Hn He) as [Hiff Hok]. cbv zeta.
  set (structural := duplicates ++ _) in *.
  destruct (0 <? length structural) eqn:Hs; bool_hyps.
  { left. simpl. assert (structural ≠ []) by (intros H; rewrite H in Hs; simpl in Hs; lia).
    split_and!; [tauto|done..]. }
  right. assert (references_ok g) as Href by (apply Hiff, length_zero_iff_nil; lia).
  split; [done|]. destruct (Hok Href) as [Hids ->]. rewrite Hids. clear Hiff Hs.
  destruct (layer_loop _ _ _ _ _ _) as [layers processed] eqn:Hloop.
  destruct Href as [Hnd _ Hclosed Hentry _].
  destruct (compile_layers _ _ _ _ Hnd Hclosed Hloop) as (Hadj & d & Hd & -> & Hne & Hnil & Hp).
  fold (graph_pairs g) in *. exists d. unfold analysed. split_and!; [done..|].
  assert (filter (.∉ processed) (graph_ids g) = filter (λ v, chain (graph_pairs g) d v) (graph_ids g)) as ->.
  { apply list_filter_iff'. intros v Hv. rewrite Hp. destruct (decide (chain (graph_pairs g) d v)); tauto. }
  destruct (0 <? length (filter (λ v, chain (graph_pairs g) d v) (graph_ids g))) eqn:Hcyc; bool_hyps.
  { left. split; [|done]. intros H. rewrite H in Hcyc. simpl in Hcyc. lia. }
  right. split; [apply length_zero_iff_nil; lia|].
  set (queue := filter (λ id, map_has id nodesById = true) (set_of_list (graph_entrypoints g))).
  rewrite length_fmap, length_seq.
  refine (ex_intro _ _ (ex_intro _ _ (conj Hadj (conj _ eq_refl)))). fold queue.
  assert (∀ v, v ∈ queue ↔ v ∈ graph_entrypoints g) as Hqueue.
  { intros v. unfold queue. rewrite list_elem_of_filter, elem_of_set_of_list, map_has_true, Hids.
    rewrite Forall_forall in Hentry. naive_solver. }
  eapply (reach_loop_spec (graph_ids g)); [done..| | | | |].
  - intros v Hv%Hqueue. rewrite Forall_forall in Hentry. auto.
  - intros v [Hv%Hqueue|?%not_elem_of_nil]; [|done]. exists v. done.
  - intros v Hv. left. by apply Hqueue.
  - intros u v ?%not_elem_of_nil. done.
  - unfold unexpanded. rewrite filter_id by (intros; set_solver).
    unfold graph_pairs, edge_pairs. rewrite length_fmap. lia.
Qed.

(** ** The diagnostics *)
Lemma existsb_edge_to edges v :
  existsb (λ e, bool_decide (endpoint_node (edge_to e) = v)) edges = true ↔
  ∃ u, edge (edge_pairs edges) u v.
Proof.
  rewrite existsb_exists. unfold edge, edge_pairs. split.
  - intros (e & He & Hv%bool_decide_eq_true). exists (edge_source e). apply list_elem_of_fmap.
    exists e. split; [by rewrite <- Hv|]. by apply list_elem_of_In.
  - intros (u & He). apply list_elem_of_fmap in He as (e & [= -> ->] & He).
    exists e. split; [by apply list_elem_of_In|]. by apply bool_decide_eq_true.
Qed.

Lemma incoming_nil es edges :
  incoming_diagnostics es edges = [] ↔ ∀ u v, v ∈ es → ¬ edge (edge_pairs edges) u v.
Proof.
  unfold incoming_diagnostics. rewrite (concat_imap_nil _ (λ v, ∀ u, ¬ edge (edge_pairs edges) u v)).
  - rewrite Forall_forall. naive_solver.
  - intros i v. pose proof (existsb_edge_to edges v) as H. destruct (existsb _ edges).
    + split; [done|]. intros Hn. destruct (proj1 H eq_refl) as [u Hu]. by destruct (Hn u).
    + split; [|done]. intros _ u Hu. assert (false = true); [|done]. apply H. by exists u.
Qed.

Lemma unreachable_nil ids reachable :
  unreachable_diagnostics ids reachable = [] ↔ ∀ v, v ∈ ids → v ∈ reachable.
Proof.
  unfold unreachable_diagnostics. split.
  - intros H v Hv. apply fmap_nil_inv in H. destruct (decide (v ∈ reachable)) as [|Hn]; [done|].
    assert (v ∈ filter (.∉ reachable) ids) as Hin by (by apply list_elem_of_filter).
    rewrite H in Hin. by apply not_elem_of_nil in Hin.
  - intros H. rewrite (elem_of_nil_inv (filter (.∉ reachable) ids)); [done|].
    intros v Hv. apply list_elem_of_filter in Hv as [Hn Hv]. auto.
Qed.

Lemma fan_out_nil m ids adjacency pairs :
  (∀ v, v ∈ ids → targets_of adjacency v ≡ₚ out_targets pairs v) →
  fan_out_diagnostics m ids adjacency = [] ↔
  ∀ k v, m = Some k → v ∈ ids →
    (Z.of_nat (length (filter (λ e : jsstr * jsstr, e.1 = v) pairs)) ≤ k)%Z.
Proof.
  intros Hadj. unfold fan_out_diagnostics. destruct m as [k|]; [|naive_solver].
  assert (∀ v, v ∈ ids →
    length (targets_of adjacency v) = length (filter (λ e : jsstr * jsstr, e.1 = v) pairs)) as Hlen.
  { intros v Hv. rewrite (Hadj v Hv). unfold out_targets. by rewrite length_fmap. }
  rewrite bind_nil, Forall_forall. split.
  - intros H k' v [= <-] Hv. specialize (H v Hv). rewrite Hlen in H by done.
    destruct (k <? _)%Z eqn:E in H; [done|]. bool_hyps. lia.
  - intros H v Hv. specialize (H k v eq_refl Hv). rewrite Hlen by done.
    destruct (k <? _)%Z eqn:E; [|done]. bool_hyps. lia.
Qed.

Lemma depth_nil m depth :
  depth_diagnostics m depth = [] ↔ when_present (λ k, Z.of_nat depth ≤ k)%Z m.
Proof.
  unfold depth_diagnostics. destruct m as [k|]; simpl; [|done].
  destruct (k <? Z.of_nat depth)%Z eqn:E; bool_hyps; split; done || lia.
Qed.

Lemma analysis_codes es edges ids reachable fan adjacency max depth :
  let issues := incoming_diagnostics es edges ++ unreachable_diagnostics ids reachable ++
    fan_out_diagnostics fan ids adjacency ++ depth_diagnostics max depth in
  Forall (λ d, severity d = SeverityError ∧ code d ≠ GE1005_CYCLE) issues.
Proof.
  cbv zeta. rewrite !Forall_app. split_and!.
  - apply Forall_concat. apply Forall_forall. intros l Hl. apply elem_of_lookup_imap in Hl as (i & v & -> & _).
    destruct (existsb _ edges); by repeat constructor.
  - unfold unreachable_diagnostics. apply Forall_fmap, Forall_forall. done.
  - unfold fan_out_diagnostics. destruct fan; [|constructor]. apply Forall_bind, Forall_forall.
    intros v _. simpl. case_match; by repeat constructor.
  - unfold depth_diagnostics. destruct max; [|constructor]. case_match; by repeat constructor.
Qed.

Lemma analysis_errors es edges ids reachable fan adjacency max depth :
  let issues := incoming_diagnostics es edges ++ unreachable_diagnostics ids reachable ++
    fan_out_diagnostics fan ids adjacency ++ depth_diagnostics max depth in
  Forall (λ d, severity d = SeverityError) issues.
Proof. cbv zeta. eapply Forall_impl; [apply analysis_codes|]. by intros x [? _]. Qed.

Lemma no_errors issues :
  Forall (λ d, severity d = SeverityError) issues →
  forallb (λ item, bool_decide (severity item ≠ SeverityError)) issues = true ↔ issues = [].
Proof.
  destruct 1 as [|d issues Hd _]; simpl; [done|]. rewrite Hd. done.
Qed.

(** A bounded graph has no chain as long as its bound. *)
Lemma depth_chain (ids : list jsstr) pairs depth k :
  closed ids pairs → (∀ i, i < depth → level ids pairs i ≠ []) →
  filter (λ v, chain pairs depth v) ids = [] →
  depth ≤ k ↔ ∀ v, v ∈ ids → ¬ chain pairs k v.
Proof.
  intros Hc Hne Hnil. split.
  - intros Hk v Hv Hchain. assert (v ∈ filter (λ v, chain pairs depth v) ids) as Hin.
    { apply list_elem_of_filter. split; [by eapply chain_le|done]. }
    rewrite Hnil in Hin. by apply not_elem_of_nil in Hin.
  - intros Hk. destruct (decide (depth ≤ k)) as [|Hgt]; [done|]. destruct (Hne k); [lia|].
    apply elem_of_nil_inv. intros v Hv. apply elem_of_level in Hv as (Hv & Hchain & _). by apply (Hk v).
Qed.

Lemma compile_graph_valid_iff g hash canonical :
  when_present policies_ok (graph_policies g) →
  valid (compile_graph g hash canonical) = true ↔ well_formed g.
Proof.
  intros Hpol. destruct (compile_graph_cases g hash canonical) as [(Hn & Hv & _)|(Href & d & Ha)].
  { rewrite Hv. split; [done|]. intros []; done. }
  pose proof (edges_closed g Href) as Hc.
  destruct Ha as (_ & Hne & Hnil & [[Hcyc ->]|(Hcyc & adjacency & reachable & Hadj & Hreach & ->)]); simpl.
  - split; [done|]. intros Hwf. destruct Hcyc. apply elem_of_nil_inv.
    intros v [Hv Hin]%list_elem_of_filter.
    destruct (level_nil_cycle _ _ _ _ Hc Hnil Hin Hv) as (u & Hu & _). by apply (wf_acyclic g Hwf u).
  - rewrite no_errors by apply analysis_errors.
    rewrite !app_nil, incoming_nil, unreachable_nil, (fan_out_nil _ _ _ (graph_pairs g)), depth_nil by done.
    fold (graph_pairs g).
    assert (acyclic (graph_pairs g)) as Hacyc.
    { apply (acyclic_chain (graph_ids g) _ d Hc). by apply (depth_chain _ _ d d Hc Hne Hcyc). }
    assert (when_present (λ k, Z.of_nat d ≤ k)%Z (graph_policies g ≫= policy_maxDepth) ↔
      ∀ m v, graph_policies g ≫= policy_maxDepth = Some m → v ∈ graph_ids g →
        ¬ chain (graph_pairs g) (Z.to_nat m) v) as ->.
    { destruct (graph_policies g) as [p|]; simpl; [|naive_solver].
      destruct Hpol as (_ & _ & Hdepth & _). destruct (policy_maxDepth p) as [m|]; simpl in *; [|naive_solver].
      pose proof (depth_chain _ _ _ (Z.to_nat m) Hc Hne Hcyc) as Hd. split.
      - intros Hm k v [= <-]. apply Hd. lia.
      - intros H. assert (d ≤ Z.to_nat m); [|lia]. apply Hd. intros v. by apply H. }
    assert ((∀ v, v ∈ graph_ids g → v ∈ reachable) ↔ ∀ v, v ∈ graph_ids g →
      from_roots (graph_pairs g) (graph_entrypoints g) v) as -> by (by setoid_rewrite Hreach).
    split; [intros (? & ? & ? & ?); by split|intros []; done].
Qed.

(** [compileGraph] of a portable, valid document is the analysis of its graph. *)
Lemma compileGraph_unfold hash h v :
  heap_wf h →
  (∃ j g, portable h v j ∧ graph_of_json j = Some g ∧ graph_ok g ∧
     compileGraph hash h v =
       compile_graph g (Some (hash (serializeCaptured j))) (Some (serializeCaptured j))) ∨
  (valid (compileGraph hash h v) = false ∧ topologicalLayers (compileGraph hash h v) = [] ∧
   ∀ j g, portable h v j → graph_of_json j = Some g → ¬ graph_ok g).
Proof.
  intros Hh. unfold compileGraph.
  destruct (captureCanonicalJson_cases h v Hh) as [(j & Hj & ->)|[(message & path & ->) Hn]].
  2: { right. split_and!; [done..|]. intros j g Hj. by destruct (Hn j). }
  destruct (validateGraphDocument j) as [|issue issues] eqn:Hissues.
  - apply validateGraphDocument_nil in Hissues as (g & Hg & Hok). left. exists j, g. by rewrite Hg.
  - right. split_and!; [done..|]. intros j' g Hj' Hg Hok.
    assert (j' = j) as -> by (by eapply portable_functional).
    assert (validateGraphDocument j = []); [|congruence].
    apply validateGraphDocument_nil. by exists g.
Qed.

(** Soundness of references can be computed. *)
Lemma references_check g :
  (let '(nodesById, duplicates) := index_nodes 0 (graph_nodes g) [] [] in
   duplicates ++ snd (check_edges nodesById [] 0 (graph_edges g)) ++
   check_entrypoints nodesById (graph_entrypoints g) ++ check_outputs nodesById (graph_outputs g)) = [] →
  references_ok g.
Proof.
  destruct (index_nodes 0 (graph_nodes g) [] []) as [n d] eqn:Hn.
  destruct (check_edges n [] 0 (graph_edges g)) as [ve e] eqn:He.
  apply (references_ok_iff g _ _ _ _ Hn He).
Qed.

(** ** Sample graphs *)

Definition sample_node (id : string) : json :=
  JObj [(js "id", JStr (js id)); (js "kind", JStr (js "tool")); (js "inputSchema", JObj []);
        (js "outputSchema", JObj []); (js "config", JNull)].
Definition sample_edge (id source target : string) : json :=
  JObj [(js "id", JStr (js id)); (js "from", JObj [(js "node", JStr (js source))]);
        (js "to", JObj [(js "node", JStr (js target))])].
Definition sample_document (nodes edges : list json) : json :=
  JObj [(js "apiVersion", JStr API_VERSION); (js "kind", JStr (js "Graph"));
        (js "metadata", JObj [(js "name", JStr (js "sample")); (js "version", JStr (js "1.0.0"))]);
        (js "inputSchema", JObj []); (js "outputSchema", JObj []);
        (js "entrypoints", JArr [JStr (js "a")]);
        (js "outputs", JObj [(js "result", JObj [(js "node", JStr (js "d"))])]);
        (js "nodes", JArr nodes); (js "edges", JArr edges);
        (js "policies", JObj [(js "maxDepth", JNum (num_of_Z 3)); (js "maxFanOut", JNum (num_of_Z 2))])].

(** A diamond whose sink is declared second. *)
Definition diamond_document : json :=
  sample_document [sample_node "a"; sample_node "d"; sample_node "b"; sample_node "c"]
    [sample_edge "e1" "a" "b"; sample_edge "e2" "a" "c"; sample_edge "e3" "b" "d"; sample_edge "e4" "c" "d"].
(** The same with an edge back from the sink. *)
Definition cyclic_document : json :=
  sample_document [sample_node "a"; sample_node "d"; sample_node "b"]
    [sample_edge "e1" "a" "b"; sample_edge "e2" "b" "d"; sample_edge "e3" "d" "b"].
Definition graph_of (document : json) : GraphSpec :=
  default (Build_GraphSpec (Build_GraphMetadata [] [] None None) [] [] None [] [] [] [] None)
    (graph_of_json document).
Definition diamond : heap * value := value_of_json diamond_document.

(** ** The compiler's contract *)

(** C1. A document compiles to a valid result exactly when it is the portable
    encoding of a graph that satisfies the schema and is a well-formed DAG: unique
    identities, sound references, no cycle, entrypoints without incoming edges that
    reach every node, fan-out and depth within the policies. *)
Theorem compileGraph_valid hash h v :
  heap_wf h →
  valid (compileGraph hash h v) = true ↔
  ∃ j g, portable h v j ∧ graph_of_json j = Some g ∧ graph_ok g ∧ well_formed g.
Proof.
  intros Hh. destruct (compileGraph_unfold hash h v Hh) as [(j & g & Hj & Hg & Hok & ->)|(Hv & _ & Hn)].
  - assert (when_present policies_ok (graph_policies g)) as Hpol.
    { unfold graph_ok in Hok. tauto. }
    rewrite compile_graph_valid_iff by done. split; [intros; by exists j, g|].
    intros (j' & g' & Hj' & Hg' & _ & Hwf). rewrite (portable_functional h v j' j Hh) in Hg' by done.
    congruence.
  - rewrite Hv. split; [done|]. intros (j & g & Hj & Hg & Hok & _). by destruct (Hn j g).
Qed.

Lemma compileGraph_valid_witness :
  heap_wf diamond.1 ∧ valid (compileGraph id diamond.1 diamond.2) = true ∧
  ∃ j g, portable diamond.1 diamond.2 j ∧ graph_of_json j = Some g ∧ graph_ok g ∧ well_formed g.
Proof.
  assert (heap_wf diamond.1) as Hh by (by apply (bool_decide_unpack _); vm_compute).
  assert (valid (compileGraph id diamond.1 diamond.2) = true) as Hv by (vm_compute; reflexivity).
  split; [done|]. split; [done|]. by apply (compileGraph_valid id diamond.1 diamond.2 Hh).
Defined.

(** C2. The layers of a valid graph are its levels by longest incoming path: they
    are non-empty, list every node exactly once, each layer in declaration order,
    and every edge leads to a strictly later layer. *)
Theorem compileGraph_layers hash h v :
  heap_wf h → valid (compileGraph hash h v) = true →
  ∃ j g depth, portable h v j ∧ graph_of_json j = Some g ∧
    graphHash (compileGraph hash h v) = Some (hash (serializeCaptured j)) ∧
    let layers := topologicalLayers (compileGraph hash h v) in
    layers = level (graph_ids g) (graph_pairs g) <$> seq 0 depth ∧
    Forall (.≠ []) layers ∧ concat layers ≡ₚ graph_ids g ∧
    ∀ i j l k x y, layers !! i = Some l → layers !! j = Some k → x ∈ l → y ∈ k →
      edge (graph_pairs g) x y → i < j.
Proof.
  intros Hh. destruct (compileGraph_unfold hash h v Hh) as [(j & g & Hj & Hg & Hok & ->)|(Hv & _)].
  2: { by rewrite Hv. }
  destruct (compile_graph_cases g (Some (hash (serializeCaptured j))) (Some (serializeCaptured j)))
    as [(_ & Hv & _)|(Href & d & Ha)]; [by rewrite Hv|].
  destruct Ha as (_ & Hne & _ & [[_ ->]|(Hcyc & adjacency & reachable & _ & _ & ->)]); [done|]. simpl.
  intros _. exists j, g, d. split_and!; [done..| | |].
  - apply Forall_fmap, Forall_forall. intros i [_ Hi]%elem_of_seq. apply Hne. lia.
  - apply levels_Permutation; [apply Href|]. intros w Hw Hc.
    assert (w ∈ filter (λ v, chain (graph_pairs g) d v) (graph_ids g)) as Hin by (by apply list_elem_of_filter).
    rewrite Hcyc in Hin. by apply not_elem_of_nil in Hin.
  - intros i k l l' x y Hl Hl' Hx Hy He.
    rewrite list_lookup_fmap in Hl, Hl'. apply fmap_Some in Hl as (i' & Hi & ->).
    apply fmap_Some in Hl' as (k' & Hk & ->). apply lookup_seq in Hi as [-> _], Hk as [-> _].
    by eapply level_edge.
Qed.

Lemma compileGraph_layers_witness :
  topologicalLayers (compileGraph id diamond.1 diamond.2) =
    [[js "a"]; [js "b"; js "c"]; [js "d"]] ∧
  ∃ j g depth, portable diamond.1 diamond.2 j ∧ graph_of_json j = Some g ∧
    topologicalLayers (compileGraph id diamond.1 diamond.2) =
      level (graph_ids g) (graph_pairs g) <$> seq 0 depth.
Proof.
  assert (heap_wf diamond.1) as Hh by (by apply (bool_decide_unpack _); vm_compute).
  assert (valid (compileGraph id diamond.1 diamond.2) = true) as Hv by (vm_compute; reflexivity).
  split; [vm_compute; reflexivity|].
  destruct (compileGraph_layers id diamond.1 diamond.2 Hh Hv) as (j & g & d & Hj & Hg & _ & H & _).
  exists j, g, d. split; [exact Hj|]. split; [exact Hg|exact H].
Defined.

(** The cycle diagnostic is exact: on a graph with sound references it is
    reported exactly when the graph has a cycle, alone, and it lists the nodes that
    lie on or are reached from a cycle, in declaration order. *)
Theorem compile_graph_cycle g hash canonical :
  references_ok g →
  let r := compile_graph g hash canonical in
  ((∃ d, d ∈ diagnostics r ∧ code d = GE1005_CYCLE) ↔ ¬ acyclic (graph_pairs g)) ∧
  ∀ d, d ∈ diagnostics r → code d = GE1005_CYCLE →
    diagnostics r = [d] ∧ valid r = false ∧
    ∃ P : jsstr → bool, nodeIds d = Some (filter P (graph_ids g)) ∧
      ∀ v, v ∈ graph_ids g →
        (P v ↔ ∃ u, tc (edge (graph_pairs g)) u u ∧ rtc (edge (graph_pairs g)) u v).
Proof.
  intros Href. pose proof (edges_closed g Href) as Hc.
  destruct (compile_graph_cases g hash canonical) as [(Hn & _)|(_ & d & Ha)]; [done|].
  destruct Ha as (_ & Hne & Hnil & [[Hcyc ->]|(Hcyc & adjacency & reachable & _ & _ & ->)]); simpl.
  - set (dg := diagnostic _ _ _ _ _). split.
    + split; [|intros _; exists dg; split; [left|done]]. intros _ Ha. apply Hcyc. apply elem_of_nil_inv.
      intros v [Hv Hin]%list_elem_of_filter.
      destruct (level_nil_cycle _ _ _ _ Hc Hnil Hin Hv) as (u & Hu & _). by apply (Ha u).
    + intros d' ->%list_elem_of_singleton _. split_and!; [done..|].
      exists (λ v, bool_decide (chain (graph_pairs g) d v)). split.
      * simpl. f_equal. apply list_filter_iff. intros v. by rewrite bool_decide_spec.
      * intros v Hv. rewrite bool_decide_spec. split; [by apply level_nil_cycle with (ids := graph_ids g)|].
        intros (u & Hu & Huv). by eapply chain_cycle.
  - assert (acyclic (graph_pairs g)) as Hacyc.
    { apply (acyclic_chain (graph_ids g) _ d Hc). by apply (depth_chain _ _ d d Hc Hne Hcyc). }
    pose proof (analysis_codes (graph_entrypoints g) (graph_edges g) (graph_ids g) reachable
      (graph_policies g ≫= policy_maxFanOut) adjacency (graph_policies g ≫= policy_maxDepth) d) as Hcodes.
    rewrite Forall_forall in Hcodes. split; [|intros d' Hd' Hd; by destruct (Hcodes d' Hd')].
    split; [|done]. intros (d' & Hd' & Hd). by destruct (Hcodes d' Hd').
Qed.

Lemma compile_graph_cycle_witness :
  references_ok (graph_of cyclic_document) ∧ ¬ acyclic (graph_pairs (graph_of cyclic_document)) ∧
  (nodeIds <$> diagnostics (compile_graph (graph_of cyclic_document) None None)) =
    [Some [js "d"; js "b"]].
Proof.
  assert (references_ok (graph_of cyclic_document)) as Href
    by (apply references_check; vm_compute; reflexivity).
  split; [done|]. split; [|vm_compute; reflexivity].
  apply (compile_graph_cycle _ None None Href).
  eexists. split; [vm_compute; left|reflexivity].
Defined.
