(* ===== verification/PatternShapes.v ===== *)
(** * The shapes of the patterns

    A fan leads from one vertex to others in parallel and on to a last one; a chain
    visits its vertices one after the other and may skip ahead.  Both are graphs with
    a rank: the distance from the entry, or the position in the chain.  A rank that
    grows along every edge, and that every vertex reaches from the rank just below, is
    the level of the vertex; with a single entrypoint the verdict of the compiler is a
    comparison of two numbers with the policies, and its layers are the ranks. *)
From S2P Require Import Prelude JsString JsNumber JsValue Dag GraphIR Compiler CompilerSpec.
From S2P Require Import Prelude JsString JsNumber JsValue Canonical Dag GraphIR Compiler CompilerSpec.

(** * Ranked graphs *)

Lemma list_filter_iff_in {A} (P Q : A → Prop) `{!∀ x, Decision (P x), !∀ x, Decision (Q x)} (l : list A) :
  (∀ x, x ∈ l → P x ↔ Q x) → filter P l = filter Q l.
Proof.
  induction l as [|x l IH]; intros Heq; [done|]. rewrite !filter_cons, IH by (intros; apply Heq; by right).
  specialize (Heq x ltac:(left)). destruct (decide (P x)), (decide (Q x)); done || tauto.
Qed.

Section ranks.
Context {V : Type} `{EqDecision V} (ids : list V) (E : list (V * V)) (rank : V → nat).

(** The rank is the length of a longest incoming chain. *)
Record ranked : Prop := {
  ranked_closed : closed ids E;
  ranked_edge : ∀ u v, edge E u v → rank u < rank v;
  ranked_pred : ∀ v k, v ∈ ids → rank v = S k → ∃ u, edge E u v ∧ rank u = k
}.

Hypothesis Hr : ranked.

Lemma ranked_chain k v : v ∈ ids → chain E k v ↔ k ≤ rank v.
Proof using Hr.
  revert v. induction k as [|k IH]; intros v Hv; simpl; [split; [lia|done]|]. split.
  - intros (u & Hu & Hc). destruct (ranked_closed Hr u v Hu) as [Hin _]. apply IH in Hc; [|done].
    pose proof (ranked_edge Hr u v Hu). lia.
  - intros Hk. destruct (rank v) as [|r] eqn:Er; [lia|].
    destruct (ranked_pred Hr v r Hv Er) as (u & Hu & <-). exists u. split; [done|].
    apply IH; [by apply (ranked_closed Hr u v)|lia].
Qed.

Lemma ranked_level k : level ids E k = filter (λ v, rank v = k) ids.
Proof using Hr.
  unfold level. apply list_filter_iff_in. intros v Hv. rewrite !ranked_chain by done. lia.
Qed.

Lemma ranked_inhabited v k : v ∈ ids → k ≤ rank v → ∃ u, u ∈ ids ∧ rank u = k.
Proof using Hr.
  remember (rank v) as r eqn:Er. revert v Er. induction r as [|r IH]; intros v Er Hv Hk.
  - exists v. split; [done|lia].
  - destruct (decide (k = S r)) as [->|]; [by exists v|].
    destruct (ranked_pred Hr v r Hv) as (u & Hu & <-); [done|].
    apply (IH u); [done|by apply (ranked_closed Hr u v)|lia].
Qed.

Lemma ranked_acyclic : acyclic E.
Proof using Hr.
  assert (∀ u v, tc (edge E) u v → rank u < rank v) as H.
  { induction 1 as [u v Huv|u w v Huw _ IH]; [by apply ranked_edge|]. apply (ranked_edge Hr) in Huw. lia. }
  intros v Hv. specialize (H v v Hv). lia.
Qed.

Lemma ranked_reachable entry v :
  (∀ u, u ∈ ids → rank u = 0 → u = entry) → v ∈ ids → rtc (edge E) entry v.
Proof using Hr.
  intros H0. remember (rank v) as k eqn:Ek. revert v Ek.
  induction k as [|k IH]; intros v Ek Hv; [by rewrite (H0 v)|].
  destruct (ranked_pred Hr v k Hv) as (u & Hu & <-); [done|].
  eapply rtc_r; [|exact Hu]. apply IH; [done|]. by apply (ranked_closed Hr u v).
Qed.

(** Chains have at most [top] edges, and some has that many. *)
Lemma ranked_depth top k :
  (∀ v, v ∈ ids → rank v ≤ top) → (∃ v, v ∈ ids ∧ rank v = top) →
  (∀ v, v ∈ ids → ¬ chain E k v) ↔ top < k.
Proof using Hr.
  intros Hle (w & Hw & Hw'). split.
  - intros H. specialize (H w Hw). rewrite ranked_chain in H by done. lia.
  - intros Hk v Hv. rewrite ranked_chain by done. specialize (Hle v Hv). lia.
Qed.
End ranks.

(** ** The compiler on ranked graphs *)

(** The edges that leave a vertex *)
Definition out_degree (pairs : list (jsstr * jsstr)) (v : jsstr) : nat :=
  length (filter (λ e : jsstr * jsstr, e.1 = v) pairs).

(** The structure of a graph whose vertices have ranks up to [top] and at most
    [fan] outgoing edges, with one entrypoint *)
Record laid_out (g : GraphSpec) (rank : jsstr → nat) (entry : jsstr) (top fan : nat) : Prop := {
  laid_ids : NoDup (graph_ids g);
  laid_edge_ids : NoDup (edge_id <$> graph_edges g);
  laid_ranked : ranked (graph_ids g) (graph_pairs g) rank;
  laid_entrypoints : graph_entrypoints g = [entry];
  laid_outputs : Forall (λ p, endpoint_node p.2 ∈ graph_ids g) (graph_outputs g);
  laid_entry : entry ∈ graph_ids g ∧ rank entry = 0;
  laid_root : ∀ u, u ∈ graph_ids g → rank u = 0 → u = entry;
  laid_below : ∀ v, v ∈ graph_ids g → rank v ≤ top;
  laid_top : ∃ v, v ∈ graph_ids g ∧ rank v = top;
  laid_fan : ∀ v, v ∈ graph_ids g → out_degree (graph_pairs g) v ≤ fan;
  laid_widest : ∃ v, v ∈ graph_ids g ∧ out_degree (graph_pairs g) v = fan
}.

(** The policies allow this many outgoing edges and this many layers. *)
Definition policies_allow (g : GraphSpec) (fan depth : nat) : Prop :=
  when_present (λ m, Z.of_nat fan ≤ m)%Z (graph_policies g ≫= policy_maxFanOut) ∧
  when_present (λ m, Z.of_nat depth ≤ m)%Z (graph_policies g ≫= policy_maxDepth).

Section laid.
Context (g : GraphSpec) (rank : jsstr → nat) (entry : jsstr) (top fan : nat).
Hypothesis Hl : laid_out g rank entry top fan.
Hypothesis Hpol : when_present policies_ok (graph_policies g).

Lemma laid_well_formed : well_formed g ↔ policies_allow g fan (S top).
Proof using Hl Hpol.
  destruct Hl as [Hids Heids Hr He Ho [Hin H0] Hroot Hbelow Htop Hfan Hwide].
  assert ((∀ m v, graph_policies g ≫= policy_maxFanOut = Some m → v ∈ graph_ids g →
    (Z.of_nat (out_degree (graph_pairs g) v) ≤ m)%Z) ↔
    when_present (λ m, Z.of_nat fan ≤ m)%Z (graph_policies g ≫= policy_maxFanOut)) as Hf.
  { destruct (graph_policies g ≫= policy_maxFanOut) as [m|]; simpl; [|naive_solver]. split.
    - intros H. destruct Hwide as (v & Hv & <-). by apply (H m v).
    - intros Hm k v [= <-] Hv. specialize (Hfan v Hv). lia. }
  assert ((∀ m v, graph_policies g ≫= policy_maxDepth = Some m → v ∈ graph_ids g →
    ¬ chain (graph_pairs g) (Z.to_nat m) v) ↔
    when_present (λ m, Z.of_nat (S top) ≤ m)%Z (graph_policies g ≫= policy_maxDepth)) as Hd.
  { destruct (graph_policies g) as [p|]; simpl; [|naive_solver].
    destruct Hpol as (_ & _ & Hmax & _). destruct (policy_maxDepth p) as [m|]; simpl in *; [|naive_solver].
    pose proof (ranked_depth _ _ rank Hr top (Z.to_nat m) Hbelow Htop) as Hd. split.
    - intros H. assert (top < Z.to_nat m); [|lia]. apply Hd. intros v. by apply H.
    - intros H k v [= <-]. revert v. apply Hd. lia. }
  split.
  - intros [_ _ _ _ Hwf Hwd]. split; [by apply Hf|by apply Hd].
  - intros [Hpf Hpd]. split; [| | | |by apply Hf|by apply Hd].
    + split; [done|done|apply Hr| |done]. rewrite He. by constructor.
    + by eapply ranked_acyclic.
    + rewrite He. intros u v ->%list_elem_of_singleton Hu. apply (ranked_edge _ _ _ Hr) in Hu. lia.
    + intros v Hv. exists entry. rewrite He. split; [by left|]. by eapply ranked_reachable.
Qed.

Lemma laid_layers hash canonical :
  valid (compile_graph g hash canonical) = true →
  topologicalLayers (compile_graph g hash canonical) =
    (λ k, filter (λ v, rank v = k) (graph_ids g)) <$> seq 0 (S top).
Proof using Hl.
  intros Hv. destruct Hl as [_ _ Hr _ _ _ _ Hbelow (w & Hw & Htop) _ _].
  destruct (compile_graph_cases g hash canonical) as [(_ & Hn & _)|(_ & d & _ & Hne & Hnil & Ha)]; [congruence|].
  assert (topologicalLayers (compile_graph g hash canonical) = level (graph_ids g) (graph_pairs g) <$> seq 0 d) as ->.
  { by destruct Ha as [[_ ->]|(_ & adjacency & reachable & _ & _ & ->)]. }
  assert (d = S top) as ->.
  { rewrite (ranked_level _ _ rank Hr) in Hnil.
    assert (∀ k, k < d → k ≤ top) as Hk.
    { intros k Hk. destruct (decide (k ≤ top)) as [|Hgt]; [done|]. destruct (Hne k Hk).
      rewrite (ranked_level _ _ rank Hr). apply elem_of_nil_inv.
      intros v [<- Hin]%list_elem_of_filter. specialize (Hbelow v Hin). lia. }
    assert (top < d) as Hd; [|destruct d as [|d]; [lia|specialize (Hk d ltac:(lia)); lia]].
    destruct (decide (top < d)) as [|Hge]; [done|].
    destruct (ranked_inhabited _ _ rank Hr w d Hw) as (v & Hin & Hvd); [lia|].
    assert (v ∈ filter (λ v, rank v = d) (graph_ids g)) as Hf by (by apply list_elem_of_filter).
    rewrite Hnil in Hf. by apply not_elem_of_nil in Hf. }
  apply list_fmap_ext. intros i k _. by apply ranked_level.
Qed.
End laid.

(** What [laid_out] asks of vertices and edges *)
Record shape (ids : list jsstr) (pairs : list (jsstr * jsstr)) (rank : jsstr → nat)
    (entry exit : jsstr) (top fan : nat) : Prop := {
  shape_ids : NoDup ids;
  shape_ranked : ranked ids pairs rank;
  shape_entry : entry ∈ ids ∧ rank entry = 0;
  shape_exit : exit ∈ ids;
  shape_root : ∀ u, u ∈ ids → rank u = 0 → u = entry;
  shape_below : ∀ v, v ∈ ids → rank v ≤ top;
  shape_top : ∃ v, v ∈ ids ∧ rank v = top;
  shape_fan : ∀ v, v ∈ ids → out_degree pairs v ≤ fan;
  shape_widest : ∃ v, v ∈ ids ∧ out_degree pairs v = fan
}.

Lemma out_degree_app pairs pairs' v : out_degree (pairs ++ pairs') v = out_degree pairs v + out_degree pairs' v.
Proof. unfold out_degree. by rewrite filter_app, length_app. Qed.

Lemma out_degree_cons p pairs v : out_degree (p :: pairs) v = (if decide (p.1 = v) then 1 else 0) + out_degree pairs v.
Proof. unfold out_degree. rewrite filter_cons. by destruct (decide (p.1 = v)). Qed.

(** Nothing leaves a vertex that is no source. *)
Lemma out_degree_none pairs v : v ∉ pairs.*1 → out_degree pairs v = 0.
Proof.
  intros Hv. induction pairs as [|p pairs IH]; [done|]. csimpl in Hv. apply not_elem_of_cons in Hv as [Hp Hv].
  rewrite out_degree_cons, decide_False by congruence. auto.
Qed.

(** ** Fans *)

Section fan.
Context (e x : jsstr) (ws : list jsstr).
Hypothesis Hnd : NoDup (e :: ws ++ [x]).
Hypothesis Hne : ws ≠ [].

Definition fan_pairs : list (jsstr * jsstr) := ((λ w, (e, w)) <$> ws) ++ ((λ w, (w, x)) <$> ws).
Definition fan_rank (v : jsstr) : nat := if decide (v = e) then 0 else if decide (v = x) then 2 else 1.

Lemma fan_distinct : e ≠ x ∧ e ∉ ws ∧ x ∉ ws ∧ NoDup ws.
Proof using Hnd.
  apply NoDup_cons in Hnd as [He H]. apply NoDup_app in H as (H1 & H2 & _).
  rewrite elem_of_app, list_elem_of_singleton in He. split_and!; [tauto|tauto| |done].
  intros Hx. apply (H2 x Hx). left.
Qed.

Lemma fan_rank_entry : fan_rank e = 0.
Proof. unfold fan_rank. by rewrite decide_True. Qed.
Lemma fan_rank_exit : fan_rank x = 2.
Proof using Hnd. unfold fan_rank. destruct fan_distinct as (? & _). by rewrite decide_False, decide_True. Qed.
Lemma fan_rank_item w : w ∈ ws → fan_rank w = 1.
Proof using Hnd.
  intros Hw. unfold fan_rank. destruct fan_distinct as (_ & ? & ? & _). by rewrite !decide_False by congruence.
Qed.

Lemma elem_of_fan_pairs u v : (u, v) ∈ fan_pairs ↔ (u = e ∧ v ∈ ws) ∨ (u ∈ ws ∧ v = x).
Proof. unfold fan_pairs. rewrite elem_of_app, !list_elem_of_fmap. naive_solver. Qed.

Lemma elem_of_fan v : v ∈ e :: ws ++ [x] ↔ v = e ∨ v ∈ ws ∨ v = x.
Proof. by rewrite elem_of_cons, elem_of_app, list_elem_of_singleton. Qed.

Lemma fan_ranked : ranked (e :: ws ++ [x]) fan_pairs fan_rank.
Proof using Hnd Hne.
  split.
  - intros u v H%elem_of_fan_pairs. rewrite !elem_of_fan. naive_solver.
  - intros u v [[-> Hv]|[Hu ->]]%elem_of_fan_pairs.
    + rewrite fan_rank_entry, (fan_rank_item v) by done. lia.
    + rewrite (fan_rank_item u), fan_rank_exit by done. lia.
  - intros v k Hv Hk. unfold edge. apply elem_of_fan in Hv as [->|[Hv| ->]].
    + by rewrite fan_rank_entry in Hk.
    + rewrite fan_rank_item in Hk by done. injection Hk as <-. exists e.
      rewrite elem_of_fan_pairs, fan_rank_entry. auto.
    + rewrite fan_rank_exit in Hk. injection Hk as <-. assert (∃ w, w ∈ ws) as [w Hw].
      { destruct ws as [|w l]; [done|]. exists w. left. }
      exists w. rewrite elem_of_fan_pairs, fan_rank_item by done. auto.
Qed.

Lemma out_degree_from_entry v : out_degree ((λ w, (e, w)) <$> ws) v = if decide (e = v) then length ws else 0.
Proof using.
  clear Hnd Hne. induction ws as [|w l IH]; csimpl; [by case_decide|]. rewrite out_degree_cons, IH. simpl. by case_decide.
Qed.

Lemma out_degree_to_exit v : NoDup ws → out_degree ((λ w, (w, x)) <$> ws) v = if decide (v ∈ ws) then 1 else 0.
Proof using.
  clear Hnd Hne. induction ws as [|w l IH]; csimpl; [done|]. intros [Hw Hl]%NoDup_cons.
  rewrite out_degree_cons, IH by done. simpl. destruct (decide (w = v)) as [->|Hwv].
  - rewrite decide_False, decide_True by (done || left). done.
  - destruct (decide (v ∈ l)); [rewrite decide_True by (by right); done|].
    rewrite decide_False; [done|]. by intros [?|?]%elem_of_cons.
Qed.

Lemma fan_shape : shape (e :: ws ++ [x]) fan_pairs fan_rank e x 2 (length ws).
Proof using Hnd Hne.
  destruct fan_distinct as (Hex & He & Hx & Hws).
  assert (∀ v, out_degree fan_pairs v = (if decide (e = v) then length ws else 0) + (if decide (v ∈ ws) then 1 else 0)) as Hout.
  { intros v. unfold fan_pairs. by rewrite out_degree_app, out_degree_from_entry, out_degree_to_exit. }
  assert (0 < length ws) by (destruct ws; [done|simpl; lia]).
  split; [done|apply fan_ranked|split; [left|apply fan_rank_entry]|by apply elem_of_fan; auto| | | | |].
  - intros u. unfold fan_rank. repeat case_decide; done.
  - intros v _. unfold fan_rank. repeat case_decide; lia.
  - exists x. split; [apply elem_of_fan; auto|apply fan_rank_exit].
  - intros v _. rewrite Hout. repeat case_decide; subst; done || lia.
  - exists e. split; [left|]. rewrite Hout, decide_True, decide_False by done. lia.
Qed.

Lemma fan_layers : (λ k, filter (λ v, fan_rank v = k) (e :: ws ++ [x])) <$> seq 0 3 = [[e]; ws; [x]].
Proof using Hnd.
  assert (∀ k, filter (λ v, fan_rank v = k) ws = if decide (k = 1) then ws else []) as Hws.
  { intros k. case_decide as Hk.
    - apply filter_id. subst. apply fan_rank_item.
    - apply elem_of_nil_inv. intros v [<- Hv]%list_elem_of_filter. by rewrite fan_rank_item in Hk. }
  csimpl. rewrite !filter_cons, !filter_app, !Hws, !filter_cons, !filter_nil, fan_rank_entry, fan_rank_exit.
  repeat (case_decide; try lia). by rewrite !app_nil_r.
Qed.
End fan.

(** ** Chains *)

(** The position of a vertex *)
Fixpoint position (v : jsstr) (ids : list jsstr) : nat :=
  match ids with [] => 0 | w :: ids => if decide (v = w) then 0 else S (position v ids) end.

Lemma position_lookup ids i v : NoDup ids → ids !! i = Some v → position v ids = i.
Proof.
  revert i. induction ids as [|w ids IH]; intros i Hnd Hi; [done|]. apply NoDup_cons in Hnd as [Hw Hnd].
  destruct i as [|i]; simpl in *; [injection Hi as ->; by rewrite decide_True|].
  rewrite decide_False; [by rewrite (IH i)|]. intros ->. apply Hw. by eapply list_elem_of_lookup_2.
Qed.

Lemma position_elem ids v : v ∈ ids → ids !! position v ids = Some v.
Proof.
  induction ids as [|w ids IH]; [by intros ?%not_elem_of_nil|]. intros Hv. simpl. case_decide; [by subst|].
  simpl. apply IH. by apply elem_of_cons in Hv as [?|?].
Qed.

(** All edges lead ahead, and each vertex is joined to the next. *)
Record chained (ids : list jsstr) (pairs : list (jsstr * jsstr)) : Prop := {
  chained_ahead : ∀ u v, (u, v) ∈ pairs → ∃ i j, i < j ∧ ids !! i = Some u ∧ ids !! j = Some v;
  chained_next : ∀ i u v, ids !! i = Some u → ids !! S i = Some v → (u, v) ∈ pairs
}.

Section chain.
Context (ids : list jsstr) (pairs : list (jsstr * jsstr)).
Hypothesis Hnd : NoDup ids.
Hypothesis Hc : chained ids pairs.

Lemma chain_ranked : ranked ids pairs (λ v, position v ids).
Proof using Hnd Hc.
  split.
  - intros u v (i & j & _ & Hi & Hj)%(chained_ahead _ _ Hc). split; by eapply list_elem_of_lookup_2.
  - intros u v (i & j & Hij & Hi & Hj)%(chained_ahead _ _ Hc).
    by rewrite (position_lookup ids i u), (position_lookup ids j v).
  - intros v k Hv Hk. apply position_elem in Hv. rewrite Hk in Hv.
    destruct (lookup_lt_is_Some_2 ids k) as [u Hu]; [apply lookup_lt_Some in Hv; lia|].
    exists u. split; [by apply (chained_next _ _ Hc k)|by apply position_lookup].
Qed.

Lemma chain_shape entry exit n fan :
  ids !! 0 = Some entry → ids !! n = Some exit → length ids = S n →
  (∀ v, v ∈ ids → out_degree pairs v ≤ fan) → (∃ v, v ∈ ids ∧ out_degree pairs v = fan) →
  shape ids pairs (λ v, position v ids) entry exit n fan.
Proof using Hnd Hc.
  intros He Hx Hlen Hfan Hwide. split; [done|apply chain_ranked| | | | | |done|done].
  - split; [by eapply list_elem_of_lookup_2|by apply position_lookup].
  - by eapply list_elem_of_lookup_2.
  - intros u Hu H0. apply position_elem in Hu. rewrite H0 in Hu. congruence.
  - intros v Hv%position_elem%lookup_lt_Some. lia.
  - exists exit. split; [by eapply list_elem_of_lookup_2|by apply position_lookup].
Qed.

Lemma chain_layers : (λ k, filter (λ v, position v ids = k) ids) <$> seq 0 (length ids) = (λ v, [v]) <$> ids.
Proof using Hnd.
  clear Hc. apply list_eq. intros i. rewrite !list_lookup_fmap. destruct (ids !! i) as [v|] eqn:E; simpl.
  - rewrite lookup_seq_lt by (by eapply lookup_lt_Some). simpl. f_equal.
    apply Permutation_singleton_r, NoDup_Permutation; [by apply NoDup_filter|apply NoDup_singleton|].
    intros w. rewrite list_elem_of_filter, list_elem_of_singleton. split.
    + intros [<- Hw%position_elem]. congruence.
    + intros ->. split; [by apply position_lookup|by eapply list_elem_of_lookup_2].
  - by rewrite lookup_seq_ge by (by apply lookup_ge_None).
Qed.
End chain.

(** ** Loops *)

(** An unrolled loop: per round a finder and a checker, and at the end [z], to which
    every checker leads. *)
Section loop.
Context (z : jsstr).

Fixpoint round_ids (rounds : list (jsstr * jsstr)) : list jsstr :=
  match rounds with [] => [z] | (f, c) :: rest => f :: c :: round_ids rest end.
Fixpoint round_pairs (rounds : list (jsstr * jsstr)) : list (jsstr * jsstr) :=
  match rounds with
  | [] => []
  | (f, c) :: rest =>
      (f, c) :: (c, z) :: match rest with [] => [] | (f', _) :: _ => (c, f') :: round_pairs rest end
  end.

Lemma round_ids_length rounds : length (round_ids rounds) = S (2 * length rounds).
Proof. induction rounds as [|[f c] rest IH]; [done|]. cbn [round_ids length]. lia. Qed.

Lemma round_ids_last rounds : round_ids rounds !! (2 * length rounds) = Some z.
Proof.
  induction rounds as [|[f c] rest IH]; [done|]. cbn [round_ids length].
  by replace (2 * S (length rest)) with (S (S (2 * length rest))) by lia.
Qed.

(** The pairs of a loop with its first round apart *)
Lemma round_pairs_cons f c rest u v :
  (u, v) ∈ round_pairs ((f, c) :: rest) ↔
    (u = f ∧ v = c) ∨ (u = c ∧ v = z) ∨ (u = c ∧ rest ≠ [] ∧ round_ids rest !! 0 = Some v) ∨ (u, v) ∈ round_pairs rest.
Proof.
  cbn [round_pairs]. rewrite !elem_of_cons. destruct rest as [|[f' c'] rest].
  - cbn [round_pairs]. pose proof (not_elem_of_nil (u, v)). naive_solver.
  - rewrite elem_of_cons. cbn [round_ids lookup list_lookup]. naive_solver.
Qed.

Lemma round_chained rounds : chained (round_ids rounds) (round_pairs rounds).
Proof.
  induction rounds as [|[f c] rest [Hahead Hnext]]; split.
  - by intros u v ?%not_elem_of_nil.
  - intros [|i] u v Hi Hj; [done|]. done.
  - intros u v [[-> ->]|[[-> ->]|[(-> & _ & Hv)|Huv]]]%round_pairs_cons.
    + exists 0, 1. split; [lia|done].
    + exists 1, (S (S (2 * length rest))). split; [lia|]. split; [done|]. apply round_ids_last.
    + exists 1, 2. split; [lia|]. split; [done|exact Hv].
    + destruct (Hahead u v Huv) as (i & j & Hij & Hi & Hj). exists (S (S i)), (S (S j)). split; [lia|done].
  - intros [|[|i]] u v Hi Hj; apply round_pairs_cons; cbn [round_ids lookup list_lookup] in Hi, Hj.
    + left. by injection Hi as <-; injection Hj as <-.
    + injection Hi as <-. right. destruct rest as [|p rest]; [left; by injection Hj as <-|]. right. by left.
    + do 3 right. by apply (Hnext i).
Qed.

Lemma round_sources rounds v : v ∉ round_ids rounds → out_degree (round_pairs rounds) v = 0.
Proof.
  intros Hv. apply out_degree_none. intros ([u w] & -> & Hin)%list_elem_of_fmap.
  destruct (chained_ahead _ _ (round_chained rounds) u w Hin) as (i & _ & _ & Hi & _).
  apply Hv. by eapply list_elem_of_lookup_2.
Qed.

Lemma round_degree_cons f c rest v :
  out_degree (round_pairs ((f, c) :: rest)) v =
    (if decide (f = v) then 1 else 0) + (if decide (c = v) then Nat.min (S (length rest)) 2 else 0) +
    out_degree (round_pairs rest) v.
Proof.
  cbn [round_pairs]. rewrite !out_degree_cons. destruct rest as [|[f' c'] rest]; simpl (length _); cbn [fst].
  - change (out_degree [] v) with 0. change (out_degree (round_pairs []) v) with 0. repeat case_decide; lia.
  - rewrite out_degree_cons. cbn [fst]. repeat case_decide; lia.
Qed.

Lemma round_degree rounds v : NoDup (round_ids rounds) → out_degree (round_pairs rounds) v ≤ Nat.min (length rounds) 2.
Proof.
  induction rounds as [|[f c] rest IH]; [done|]. cbn [round_ids]. intros [Hf [Hc Hnd]%NoDup_cons]%NoDup_cons.
  apply not_elem_of_cons in Hf as [Hfc Hf]. rewrite round_degree_cons. specialize (IH Hnd). simpl (length _).
  destruct (decide (f = v)) as [->|], (decide (c = v)) as [->|]; [done| | |lia].
  - rewrite round_sources by done. lia.
  - rewrite round_sources by done. lia.
Qed.

Lemma loop_shape f c rest :
  let rounds := (f, c) :: rest in
  NoDup (round_ids rounds) →
  shape (round_ids rounds) (round_pairs rounds) (λ v, position v (round_ids rounds)) f z
    (2 * length rounds) (Nat.min (length rounds) 2).
Proof.
  intros rounds Hnd. apply chain_shape; [done|apply round_chained|done|apply round_ids_last|apply round_ids_length| |].
  - intros v _. by apply round_degree.
  - exists c. split; [right; left|]. unfold rounds in *. cbn [round_ids] in Hnd.
    apply NoDup_cons in Hnd as [Hf [Hc Hnd]%NoDup_cons]. apply not_elem_of_cons in Hf as [Hfc Hf].
    rewrite round_degree_cons, round_sources, decide_False, decide_True by done. simpl (length _). lia.
Qed.
End loop.
