(* ===== verification/JsonValues.v ===== *)
(** * The objects of a detached tree

    [value_of_json] allocates ordinary objects for a JSON tree.  [represents] says
    that a value of a heap is such an allocation; what is captured from it is the
    tree in canonical form. *)
From S2P Require Import Prelude JsString JsNumber JsValue Canonical CanonicalSpec JsonRoundTrip ParsedJson.

Inductive represents (h : heap) : value → json → Prop :=
  | represents_null : represents h VNull JNull
  | represents_bool b : represents h (VBool b) (JBool b)
  | represents_num n : represents h (VNum n) (JNum n)
  | represents_str s : represents h (VStr s) (JStr s)
  | represents_arr l vs items :
      h !! l = Some (plain_array vs) → Forall2 (represents h) vs items → represents h (VObj l) (JArr items)
  | represents_obj l vs props :
      h !! l = Some (plain_object (zip props.*1 ((λ v, Data v true) <$> vs))) →
      Forall2 (represents h) vs props.*2 → represents h (VObj l) (JObj props).

(** ** Allocation *)

(** The loops of [alloc_json] *)
Fixpoint alloc_items (items : list json) (next : loc) : list value * list (loc * object) * loc :=
  match items with
  | [] => ([], [], next)
  | j :: items =>
      let '(v, os, next) := alloc_json j next in
      let '(vs, os', next) := alloc_items items next in (v :: vs, os ++ os', next)
  end.

Lemma alloc_json_arr items next :
  alloc_json (JArr items) next =
  let '(values, objects, next') := alloc_items items (Pos.succ next) in
  (VObj next, (next, plain_array values) :: objects, next').
Proof. done. Qed.

Lemma alloc_json_obj props next :
  alloc_json (JObj props) next =
  let '(values, objects, next') := alloc_items props.*2 (Pos.succ next) in
  (VObj next, (next, plain_object (zip props.*1 ((λ v, Data v true) <$> values))) :: objects, next').
Proof.
  cbn [alloc_json]. set (go := fix go (props : list (jsstr * json)) (next : loc) := _).
  assert (∀ next, go props next =
    let '(values, objects, next') := alloc_items props.*2 next in
    (zip props.*1 ((λ v, Data v true) <$> values), objects, next')) as H.
  { induction props as [|[k j] props IH]; intros n; [done|]. csimpl. cbn [go alloc_items].
    destruct (alloc_json j n) as [[v os] n']. rewrite IH.
    by destruct (alloc_items props.*2 n') as [[vs os'] n'']. }
  rewrite H. by destruct (alloc_items _ _) as [[vs os] n'].
Qed.

(** Allocation uses the locations from [n] to [n'], each once. *)
Definition fresh_objects (n n' : loc) (os : list (loc * object)) : Prop :=
  (n ≤ n')%positive ∧ Forall (λ p, n ≤ p.1 < n')%positive os ∧ NoDup os.*1.
Definition holds (h : heap) (os : list (loc * object)) : Prop := Forall (λ p, h !! p.1 = Some p.2) os.
Definition object_ok (o : object) : Prop := object_wf o ∧ object_data_okb o = true.

Record allocates (j : json) (n : loc) (v : value) (os : list (loc * object)) (n' : loc) : Prop := {
  allocates_fresh : fresh_objects n n' os;
  allocates_value : ∀ h, holds h os → represents h v j;
  allocates_ok : parsed_ok j → value_okb v = true ∧ Forall (λ p, object_ok p.2) os
}.

Lemma fresh_objects_app n n1 n2 os1 os2 :
  fresh_objects n n1 os1 → fresh_objects n1 n2 os2 → fresh_objects n n2 (os1 ++ os2).
Proof.
  intros (H1 & A1 & N1) (H2 & A2 & N2). split; [lia|]. split.
  - apply Forall_app. split; (eapply Forall_impl; [eassumption|]); simpl; lia.
  - rewrite fmap_app. apply NoDup_app. split_and!; [done| |done].
    intros l Hl1 Hl2. apply list_elem_of_fmap in Hl1 as (p & -> & Hp), Hl2 as (q & E & Hq).
    rewrite Forall_forall in A1, A2. specialize (A1 p Hp). specialize (A2 q Hq). simpl in *. lia.
Qed.

Lemma fresh_objects_cons n n' o os : fresh_objects (Pos.succ n) n' os → fresh_objects n n' ((n, o) :: os).
Proof.
  intros H. apply (fresh_objects_app n (Pos.succ n) n' [(n, o)]); [|done]. split_and!; [lia| |].
  - constructor; [simpl; lia|constructor].
  - apply NoDup_singleton.
Qed.

Lemma alloc_items_spec items next :
  Forall (λ j, ∀ n, let '(v, os, n') := alloc_json j n in allocates j n v os n') items →
  let '(vs, os, next') := alloc_items items next in
  fresh_objects next next' os ∧ length vs = length items ∧
  (∀ h, holds h os → Forall2 (represents h) vs items) ∧
  (Forall parsed_ok items → Forall (λ v, value_okb v = true) vs ∧ Forall (λ p, object_ok p.2) os).
Proof.
  intros Hall. revert next. induction Hall as [|j items Hj _ IH]; intros next; cbn [alloc_items].
  - split_and!; [|done|by constructor|by constructor]. split_and!; [lia|constructor|constructor].
  - specialize (Hj next). destruct (alloc_json j next) as [[v os] n1]. destruct Hj as [Hf Hv Hok].
    specialize (IH n1). destruct (alloc_items items n1) as [[vs os'] n2]. destruct IH as (Hf' & Hl & Hv' & Hok').
    split_and!; [by eapply fresh_objects_app|simpl; lia| |].
    + intros h [H1 H2]%Forall_app. constructor; auto.
    + intros [H1 H2]%Forall_cons. destruct (Hok H1), (Hok' H2). split; [by constructor|by apply Forall_app].
Qed.

Lemma plain_array_ok vs : Forall (λ v, value_okb v = true) vs → object_ok (plain_array vs).
Proof.
  intros Hvs. assert (Hkeys : (o_props (plain_array vs)).*1 = string_of_nat <$> seq 0 (length vs)).
  { simpl. rewrite fmap_imap. apply list_eq. intros i. rewrite list_lookup_imap, list_lookup_fmap.
    destruct (vs !! i) as [v|] eqn:E; simpl.
    - apply lookup_lt_Some in E. by rewrite lookup_seq_lt.
    - apply lookup_ge_None in E. by rewrite lookup_seq_ge. }
  split.
  - unfold object_wf. rewrite Hkeys. split_and!.
    + apply (NoDup_fmap_2 string_of_nat); apply NoDup_seq.
    + apply Forall_fmap, Forall_true. intros i. apply string_of_N_wf.
    + intros _ (i & Hi & _)%list_elem_of_fmap. by eapply string_of_nat_not_length.
  - unfold object_data_okb. apply forallb_Forall, Forall_lookup. simpl. intros i p Hp.
    rewrite list_lookup_imap in Hp. apply fmap_Some in Hp as (v & Hv & ->).
    exact (Forall_lookup_1 _ _ _ _ Hvs Hv).
Qed.

Lemma plain_object_ok props vs :
  length vs = length props → NoDup props → Forall str_wf props → Forall (λ v, value_okb v = true) vs →
  object_ok (plain_object (zip props ((λ v, Data v true) <$> vs))).
Proof.
  intros Hl Hnd Hwf Hvs. split.
  - unfold object_wf. simpl. rewrite fst_zip by (rewrite length_fmap; lia). done.
  - unfold object_data_okb. apply forallb_Forall, Forall_lookup. simpl. intros i p Hp.
    rewrite lookup_zip_with in Hp. apply bind_Some in Hp as (k & _ & Hp).
    rewrite list_lookup_fmap in Hp. apply bind_Some in Hp as (d & Hd & [= <-]).
    apply fmap_Some in Hd as (v & Hv & ->). exact (Forall_lookup_1 _ _ _ _ Hvs Hv).
Qed.

Lemma alloc_json_spec j n : let '(v, os, n') := alloc_json j n in allocates j n v os n'.
Proof.
  revert n. induction j as [|b|x|s|items IH|props IH] using json_nested_ind; intros n.
  1-4: split; [split_and!; [simpl; lia|constructor|constructor]|constructor|].
  - by constructor.
  - by constructor.
  - intros Hx%parsed_ok_num. split; [by apply bool_decide_eq_true|constructor].
  - intros Hs%parsed_ok_str. split; [by apply bool_decide_eq_true|constructor].
  - rewrite alloc_json_arr. pose proof (alloc_items_spec items (Pos.succ n) IH) as H.
    destruct (alloc_items items (Pos.succ n)) as [[vs os] n']. destruct H as (Hf & _ & Hv & Hok).
    split; [by apply fresh_objects_cons| |].
    + intros h [Hl H]%Forall_cons. econstructor; [exact Hl|auto].
    + intros Hj%parsed_ok_arr. destruct (Hok Hj). split; [done|]. constructor; [|done]. by apply plain_array_ok.
  - rewrite alloc_json_obj. pose proof (alloc_items_spec props.*2 (Pos.succ n) (proj2 (Forall_fmap _ _ _) IH)) as H.
    destruct (alloc_items props.*2 (Pos.succ n)) as [[vs os] n']. destruct H as (Hf & Hl & Hv & Hok).
    split; [by apply fresh_objects_cons| |].
    + intros h [Ho H]%Forall_cons. econstructor; [exact Ho|auto].
    + intros (Hnd & Hwf & Hj)%parsed_ok_obj. destruct Hok; [by apply Forall_fmap|]. split; [done|].
      constructor; [|done]. apply plain_object_ok; [|done..]. rewrite Hl. by rewrite !length_fmap.
Qed.

(** The value of a tree represents it, in a heap as the language guarantees. *)
Lemma value_of_json_spec j :
  let '(h, v) := value_of_json j in
  represents h v j ∧ (parsed_ok j → heap_wf h ∧ heap_data_ok h ∧ value_okb v = true).
Proof.
  unfold value_of_json. pose proof (alloc_json_spec j 1) as H.
  destruct (alloc_json j 1) as [[v os] n']. destruct H as [(_ & _ & Hnd) Hv Hok]. split.
  - apply Hv, Forall_forall. intros [l o] Hp. by apply elem_of_list_to_map_1.
  - intros Hj. destruct (Hok Hj) as [Hval Hos]. rewrite Forall_forall in Hos.
    split_and!; [| |done]; intros l o Hl; apply elem_of_list_to_map_2 in Hl; by apply (Hos (l, o)).
Qed.

(** ** Capture *)

Lemma represented_items h vs items items' :
  Forall (λ j, ∀ v j', represents h v j → portable h v j' → j' = canonical_form j) items →
  Forall2 (represents h) vs items → Forall2 (portable h) vs items' → items' = canonical_form <$> items.
Proof.
  intros IH Hr. revert items' IH. induction Hr as [|v j vs items Hv _ IHr]; intros items' IH Hp; inversion Hp; subst; [done|].
  apply Forall_cons in IH as [Hj IH]. csimpl. f_equal; [by eapply Hj|by apply IHr].
Qed.

(** An entry of an object with distinct keys, found by its key *)
Lemma deref_entry h l k v :
  heap_wf h → (k, Data v true) ∈ o_props (deref h l) → map_get k (o_props (deref h l)) = Some (Data v true).
Proof. intros Hh. apply map_get_NoDup, (deref_wf h l Hh). Qed.

Lemma plain_array_entries h l vs vs' :
  heap_wf h → h !! l = Some (plain_array vs) → array_of (deref h l) vs' → vs' = vs.
Proof.
  intros Hh Hl Ha. pose proof (array_of_entries h l vs' Hh Ha) as He.
  assert (deref h l = plain_array vs) as Hd by (unfold deref; by rewrite Hl).
  destruct Ha as (_ & _ & _ & _ & Hlen & _). rewrite Hd in Hlen. simpl in Hlen.
  apply (data_entries_functional (deref h l) (string_of_nat <$> seq 0 (length vs'))); [done|].
  apply Forall2_same_length_lookup_2; [by rewrite length_fmap, length_seq|].
  intros i k v Hk Hv. apply deref_entry; [done|]. rewrite Hd. simpl.
  rewrite list_lookup_fmap in Hk. apply fmap_Some in Hk as (n & Hn & ->). apply lookup_seq in Hn as [-> _].
  apply list_elem_of_lookup. exists i. by rewrite list_lookup_imap, Hv.
Qed.

(** The properties of an object with their values, in the order of the keys *)
Definition compare_triples (s t : (jsstr * json) * value) : Z := compareUnicodeCodePoints s.1.1 t.1.1.

Lemma plain_object_entries h l (props : list (jsstr * json)) vs ps :
  heap_wf h → length vs = length props →
  h !! l = Some (plain_object (zip props.*1 ((λ v, Data v true) <$> vs))) → record_of (deref h l) ps →
  let triples := sort_by compare_triples (zip props vs) in
  ps.*1 = (λ t, t.1.1) <$> triples ∧ ps.*2 = snd <$> triples.
Proof.
  intros Hh Hlen Hl Hr. cbv zeta. set (triples := sort_by _ _).
  assert (deref h l = plain_object (zip props.*1 ((λ v, Data v true) <$> vs))) as Hd by (unfold deref; by rewrite Hl).
  assert (ps.*1 = (λ t, t.1.1) <$> triples) as Hk.
  { rewrite (record_of_keys h l ps Hh Hr), Hd. unfold own_names. cbn [o_array o_props plain_object].
    rewrite app_nil_r, fst_zip by (rewrite !length_fmap; lia).
    unfold triples. rewrite (sort_by_fmap (λ t : (jsstr * json) * value, t.1.1) compare_triples compareUnicodeCodePoints) by done.
    f_equal. rewrite <- (fst_zip props vs) at 1 by lia. by rewrite <- list_fmap_compose. }
  split; [done|]. apply (data_entries_functional (deref h l) ps.*1); [by apply record_of_entries|].
  rewrite Hk. apply Forall2_fmap, Forall_Forall2_diag, Forall_forall. intros [[k j] v] Ht. simpl.
  unfold triples in Ht. rewrite elem_of_sort_by in Ht. apply deref_entry; [done|]. rewrite Hd. simpl.
  apply list_elem_of_lookup in Ht as [i Hi]. rewrite lookup_zip_with in Hi.
  apply list_elem_of_lookup. exists i. rewrite lookup_zip_with, !list_lookup_fmap.
  destruct (props !! i) as [p|]; [|done]. simpl in *. destruct (vs !! i); [|done]. by injection Hi as -> ->.
Qed.

(** What is captured from the objects of a tree is the tree in canonical form. *)
Lemma represents_portable h v j j' : heap_wf h → represents h v j → portable h v j' → j' = canonical_form j.
Proof.
  intros Hh. revert v j'. induction j as [|b|n|s|items IH|props IH] using json_nested_ind; intros v j' Hr Hp.
  1-4: inversion Hr; subst; by inversion Hp.
  - inversion Hr as [| | | |l vs ? Hl Hv|]; subst.
    inversion Hp as [| | | |? vs' items' Ha Hv'|? ps js (_ & Hn & _) _]; subst.
    2: { unfold deref in Hn. by rewrite Hl in Hn. }
    rewrite (plain_array_entries h l vs vs') in Hv' by done. cbn [canonical_form]. f_equal.
    by eapply represented_items.
  - inversion Hr as [| | | | |l vs ? Hl Hv]; subst.
    inversion Hp as [| | | |? vs' items' (_ & Hn & _) _|? ps js Hrec Hv']; subst.
    1: { unfold deref in Hn. by rewrite Hl in Hn. }
    pose proof (Forall2_length _ _ _ Hv) as Hlen. rewrite length_fmap in Hlen.
    destruct (plain_object_entries h l props vs ps Hh Hlen Hl Hrec) as [Hk Hval]. rewrite Hval in Hv'.
    set (triples := sort_by compare_triples (zip props vs)) in *.
    assert (js = canonical_form <$> ((λ t, t.1.2) <$> triples)) as ->.
    { eapply represented_items; [| |exact Hv'].
      - apply Forall_fmap, Forall_forall. intros [p v] Ht. unfold triples in Ht. rewrite elem_of_sort_by in Ht.
        apply elem_of_zip_l in Ht. rewrite Forall_forall in IH. exact (IH p Ht).
      - apply Forall2_fmap, Forall_Forall2_diag, Forall_forall. intros t Ht. unfold triples in Ht.
        rewrite elem_of_sort_by in Ht. apply list_elem_of_lookup in Ht as [i Hi]. rewrite lookup_zip_with in Hi.
        destruct (props !! i) as [p|] eqn:Ep; [|done]. simpl in Hi. destruct (vs !! i) as [w|] eqn:Ew; [|done].
        injection Hi as <-. apply (Forall2_lookup_lr _ _ _ _ _ _ Hv Ew). by rewrite list_lookup_fmap, Ep. }
    cbn [canonical_form]. do 2 f_equal. rewrite Hk.
    transitivity ((λ t : (jsstr * json) * value, (t.1.1, canonical_form t.1.2)) <$> triples).
    { clear. induction triples as [|t ts IHt]; [done|]. csimpl. by rewrite IHt. }
    unfold triples. rewrite (sort_by_fmap _ compare_triples compare_keys) by done. f_equal.
    change (map ?f props) with (f <$> props). rewrite <- (fst_zip props vs) at 2 by lia.
    by rewrite <- list_fmap_compose.
Qed.

(** Only trees of the data model have a canonical form in it. *)
Lemma canonical_form_ok_inv j : json_ok (canonical_form j) → json_ok j.
Proof.
  induction j as [|b|n|s|items IH|props IH] using json_nested_ind; intros Hok; try done.
  - apply json_ok_num in Hok. apply json_ok_num. by destruct n.
  - rewrite canonical_form_arr in Hok. change (map ?f items) with (f <$> items) in Hok.
    apply json_ok_arr in Hok. apply (Forall_fmap canonical_form json_ok) in Hok. apply json_ok_arr.
    exact (Forall_mp _ _ _ IH Hok).
  - cbn [canonical_form] in Hok. change (map ?f props) with (f <$> props) in Hok. apply json_ok_obj in Hok as (Hnd & Hwf & Hok).
    rewrite own_order_keys, sort_by_Permutation, map_keys in Hnd, Hwf.
    rewrite own_order_Permutation, sort_by_Permutation in Hok.
    apply (Forall_fmap (λ p : jsstr * json, (p.1, canonical_form p.2)) (λ p, json_ok p.2)) in Hok.
    apply json_ok_obj. split_and!; [done..|]. exact (Forall_mp (λ p, json_ok (canonical_form p.2)) (λ p, json_ok p.2) _ IH Hok).
Qed.

Lemma plain_array_portable h l vs : h !! l = Some (plain_array vs) → array_of (deref h l) vs.
Proof.
  intros Hl. unfold deref. rewrite Hl. unfold array_of. cbn [plain_array o_proxy o_array o_proto o_symbols o_length o_props default id].
  split_and!; [done..|]. apply reflexive_eq. apply list_eq. intros i. rewrite list_lookup_imap, lookup_zip_with, !list_lookup_fmap.
  destruct (vs !! i) as [v|] eqn:E; simpl.
  - apply lookup_lt_Some in E as Hi. rewrite lookup_seq_lt by done. done.
  - apply lookup_ge_None in E as Hi. by rewrite lookup_seq_ge.
Qed.

(** The triples of an object's properties with their values *)
Lemma plain_object_portable h l (props : list (jsstr * json)) vs :
  length vs = length props → h !! l = Some (plain_object (zip props.*1 ((λ v, Data v true) <$> vs))) →
  record_of (deref h l) ((λ t, (t.1.1, t.2)) <$> sort_by compare_triples (zip props vs)).
Proof.
  intros Hlen Hl. unfold deref. rewrite Hl. unfold record_of. cbn [plain_object o_proxy o_array o_proto o_symbols o_props default id].
  split_and!; [done|done|by left|done| |].
  - rewrite (sort_by_fmap (λ t : (jsstr * json) * value, (t.1.1, t.2)) compare_triples compare_keys) by done.
    apply (sort_by_sorted compare_keys).
  - assert (∀ ps : list (jsstr * value), zip ps.*1 ((λ v, Data v true) <$> ps.*2) = (λ p, (p.1, Data p.2 true)) <$> ps) as Hz.
    { induction ps as [|p ps IH]; [done|]. csimpl. by rewrite IH. }
    rewrite Hz, <- list_fmap_compose, sort_by_Permutation. apply reflexive_eq.
    clear Hl Hz. revert vs Hlen. induction props as [|p props IH]; intros [|v vs] Hlen; [done..|].
    csimpl. f_equal. apply IH. simpl in Hlen. lia.
Qed.

(** A tree of finite, interoperable numbers is captured as its canonical form. *)
Lemma json_portable h v j : represents h v j → json_ok j → interoperable j → portable h v (canonical_form j).
Proof.
  revert v. induction j as [|b|n|s|items IH|props IH] using json_nested_ind; intros v Hr Hok Hi.
  1,2,4: inversion Hr; subst; constructor.
  - inversion Hr; subst. apply json_ok_num in Hok as [_ Hf]. constructor; [done|].
    unfold interoperable in Hi. cbn [interoperable_b] in Hi. destruct (num_integer n); [by intros _|done].
  - inversion Hr as [| | | |l vs ? Hl Hv|]; subst. apply json_ok_arr in Hok. apply interoperable_arr in Hi.
    rewrite canonical_form_arr. apply (data_arr h l vs); [by apply plain_array_portable|].
    apply Forall2_fmap_r. clear Hr Hl. induction Hv as [|v j vs items Hv _ IHv]; [constructor|].
    apply Forall_cons in IH as [Hj IH]. apply Forall_cons in Hok as [Hok Hoks]. apply Forall_cons in Hi as [Hi His].
    constructor; [by apply Hj|by apply IHv].
  - inversion Hr as [| | | | |l vs ? Hl Hv]; subst. apply json_ok_obj in Hok as (_ & _ & Hok).
    unfold interoperable in Hi. cbn [interoperable_b] in Hi. rewrite forallb_Forall in Hi.
    pose proof (Forall2_length _ _ _ Hv) as Hlen. rewrite length_fmap in Hlen.
    pose proof (plain_object_portable h l props vs Hlen Hl) as Hrec. set (ts := sort_by compare_triples (zip props vs)) in *.
    assert (canonical_form (JObj props) =
      JObj (own_order (zip ((λ t, (t.1.1, t.2)) <$> ts).*1 ((λ t, canonical_form t.1.2) <$> ts)))) as ->.
    { cbn [canonical_form]. do 2 f_equal. change (map ?f props) with (f <$> props).
      assert (∀ ts : list ((jsstr * json) * value),
        zip ((λ t, (t.1.1, t.2)) <$> ts).*1 ((λ t, canonical_form t.1.2) <$> ts) = (λ t, (t.1.1, canonical_form t.1.2)) <$> ts) as ->.
      { induction ts0 as [|t ts0 IH0]; [done|]. csimpl. by rewrite <- IH0. }
      unfold ts. rewrite (sort_by_fmap (λ t : (jsstr * json) * value, (t.1.1, canonical_form t.1.2)) compare_triples compare_keys) by done.
      f_equal. rewrite <- (fst_zip props vs) at 1 by lia. by rewrite <- list_fmap_compose. }
    apply (data_obj h l _ _ Hrec). rewrite <- list_fmap_compose. apply Forall2_fmap, Forall_Forall2_diag, Forall_forall.
    intros t Ht. unfold ts in Ht. rewrite elem_of_sort_by in Ht.
    pose proof (elem_of_zip_l t.1 t.2 props vs) as Hin. rewrite <- surjective_pairing in Hin. specialize (Hin Ht).
    rewrite Forall_forall in IH, Hok, Hi. cbn [compose snd]. apply (IH t.1 Hin); [|by apply Hok|by apply Hi].
    apply list_elem_of_lookup in Ht as [i Ht]. rewrite lookup_zip_with in Ht.
    destruct (props !! i) as [p|] eqn:Ep; [|done]. simpl in Ht. destruct (vs !! i) as [w|] eqn:Ew; [|done].
    injection Ht as <-. apply (Forall2_lookup_lr _ _ _ _ _ _ Hv Ew). by rewrite list_lookup_fmap, Ep.
Qed.

(** Captured trees are interoperable. *)
Lemma portable_interoperable h v j : portable h v j → interoperable j.
Proof.
  revert v. induction j as [|b|n|s|items IH|props IH] using json_nested_ind; intros v Hp; try done.
  - inversion Hp; subst. by apply interoperable_unsign.
  - inversion Hp; subst. apply interoperable_arr. clear Hp. match goal with H : array_of _ _ |- _ => clear H end.
    match goal with H : Forall2 _ _ _ |- _ => induction H as [|v' j vs items Hv _ IHv] end; [constructor|].
    apply Forall_cons in IH as [Hj IH]. constructor; [by eapply Hj|by apply IHv].
  - inversion Hp as [| | | | |l ps js Hrec Hv]; subst. unfold interoperable. cbn [interoperable_b]. rewrite forallb_Forall.
    apply Forall_forall. intros p Hin. rewrite Forall_forall in IH. pose proof Hin as Hin'.
    rewrite own_order_Permutation in Hin'. destruct p as [k j]. apply elem_of_zip_r in Hin'.
    apply list_elem_of_lookup in Hin' as [i Hi]. destruct (Forall2_lookup_r _ _ _ _ _ Hv Hi) as (w & _ & Hw).
    exact (IH (k, j) Hin w Hw).
Qed.

Lemma interoperable_canonical j : interoperable (canonical_form j) ↔ interoperable j.
Proof.
  induction j as [|b|n|s|items IH|props IH] using json_nested_ind; try done.
  - cbn [canonical_form]. rewrite interoperable_unsign. unfold interoperable. cbn [interoperable_b].
    destruct (num_integer n), (num_safe_integer n); naive_solver.
  - rewrite canonical_form_arr, !interoperable_arr. change (map ?f items) with (f <$> items). rewrite Forall_fmap.
    induction IH as [|j items Hj _ IH]; [done|]. rewrite !Forall_cons. unfold compose. by rewrite Hj, IH.
  - unfold interoperable. cbn [canonical_form interoperable_b]. rewrite !forallb_Forall, own_order_Permutation, sort_by_Permutation.
    change (map ?f props) with (f <$> props). rewrite Forall_fmap.
    induction IH as [|p props Hp _ IH]; [done|]. rewrite !Forall_cons, IH. unfold compose. cbn [snd].
    unfold interoperable in Hp. by rewrite Hp.
Qed.

(** What a parsed document is captured as *)
Lemma captured_document j :
  parsed_ok j → let '(h, v) := value_of_json j in
  heap_wf h ∧ ∀ j', portable h v j' ↔ json_ok j ∧ interoperable j ∧ j' = canonical_form j.
Proof.
  intros Hj. pose proof (value_of_json_spec j) as Hspec. destruct (value_of_json j) as [h v].
  destruct Hspec as [Hr Hok]. destruct (Hok Hj) as (Hh & Hd & Hv). split; [done|]. intros j'. split.
  - intros Hp. pose proof (represents_portable h v j j' Hh Hr Hp) as ->. split_and!; [| |done].
    + apply canonical_form_ok_inv. by eapply portable_canonical.
    + apply interoperable_canonical. by eapply portable_interoperable.
  - intros (Hjok & Hi & ->). by apply json_portable.
Qed.
