(* ===== verification/PatternInternal.v ===== *)
(** * Building blocks of the patterns (packages/patterns/src/internal.ts, errors.ts)

    The options of a pattern are detached from the caller's objects without running
    getters, checked, and assembled into a graph that the core compiler must accept.
    A parsed record is the list of its properties; [value_of_json] gives the objects
    a detached tree is made of, where the package inspects its own copies again. *)
From S2P Require Import Prelude JsString JsNumber JsValue Canonical SchemaValidation Compiler.

(** ** Errors *)

Inductive PatternErrorCode :=
  | GE_PATTERN_INVALID_INPUT
  | GE_PATTERN_UNKNOWN_FIELD
  | GE_PATTERN_INVALID_IDENTIFIER
  | GE_PATTERN_EMPTY_COLLECTION
  | GE_PATTERN_TOO_MANY_ITEMS
  | GE_PATTERN_DUPLICATE_KEY
  | GE_PATTERN_DUPLICATE_NODE_ID
  | GE_PATTERN_INVALID_MAX_ROUNDS
  | GE_PATTERN_ROUND_COUNT_MISMATCH
  | GE_PATTERN_RESERVED_LABEL_CONFLICT
  | GE_PATTERN_CORE_REJECTED.
#[export] Instance PatternErrorCode_eq_dec : EqDecision PatternErrorCode.
Proof. solve_decision. Defined.

(** What a pattern throws: its own error, or what a trap of a caller's proxy threw. *)
Inductive pattern_error :=
  | PatternInputError (code : PatternErrorCode) (message path : jsstr)
  | TrapError.

Abbreviation checked := (result pattern_error).

(** [throw new PatternInputError(code, message, path)]: the constructor appends the path *)
Definition reject {A} (code : PatternErrorCode) (message path : jsstr) : checked A :=
  Err (PatternInputError code (message ++ js " at " ++ path) path).

(** ** Constants *)

Definition KEY_IDENTIFIER : jsstr → bool := matches_ident is_alpha is_ident_char 63.
Definition NODE_IDENTIFIER_source : jsstr := js "^[A-Za-z][A-Za-z0-9_.-]{0,127}$".
Definition KEY_IDENTIFIER_source : jsstr := js "^[A-Za-z][A-Za-z0-9_.-]{0,63}$".
Definition GRAPH_NAME_source : jsstr := js "^[a-z][a-z0-9-]{0,62}$".
Definition RESERVED_KEYS : list jsstr := [js "__proto__"; js "constructor"; js "prototype"].
Definition MAX_DEPTH : nat := 100.
Definition MAX_ARRAY_LENGTH : N := 10000.
Definition MAX_PATTERN_ITEMS : nat := 100.
Definition PATTERN_LABEL : jsstr := js "graphengineering.reacher-z.github.io/pattern".
Definition CAPABILITY_LABEL : jsstr := js "graphengineering.reacher-z.github.io/runtime-capability".

Inductive PatternKind := Diamond | RoutedBranches | VerifiedFanout | LoopUntilDry.
Definition kind_text (kind : PatternKind) : jsstr :=
  match kind with
  | Diamond => js "diamond"
  | RoutedBranches => js "routed-branches"
  | VerifiedFanout => js "verified-fanout"
  | LoopUntilDry => js "loop-until-dry"
  end.

Record PatternIdentity := { identity_pattern : jsstr; identity_capability : jsstr }.

(** [childPath(path, key)] *)
Definition childPath (path key : jsstr) : jsstr := child path (pointerSegment key).

(** [invalidInput(message, path)] *)
Definition invalidInput {A} (message path : jsstr) : checked A := reject GE_PATTERN_INVALID_INPUT message path.

(** ** Snapshots *)

(** [Object.keys(Object.getOwnPropertyDescriptors(o))] *)
Definition descriptor_keys (o : object) : list jsstr := (own_order ((λ k, (k, ())) <$> own_names o)).*1.

(** The value of a data property that JSON may hold, or the rejection *)
Definition readable (d : descriptor) (path : jsstr) : checked value :=
  match d with
  | Accessor _ => invalidInput (js "accessor properties are not accepted") path
  | Data v enumerable =>
      if enumerable then Ok v
      else invalidInput (js "non-enumerable values are not portable JSON") path
  end.

Section snapshot_steps.
Context (snapshot : value → jsstr → list loc → checked json).

(** The loop that rejects the properties of an array that are not indices *)
Fixpoint check_indices (length : nat) (path : jsstr) (keys : list jsstr) : checked () :=
  match keys with
  | [] => Ok ()
  | key :: keys =>
      if bool_decide (key = key_length) then check_indices length path keys
      else match index_name length key with
      | None =>
          invalidInput (js "array property '" ++ key ++ js "' is not a portable JSON index") (childPath path key)
      | Some _ => check_indices length path keys
      end
  end.

Definition cloneArray (o : object) (path : jsstr) (ancestors : list loc) : checked json :=
  if (MAX_ARRAY_LENGTH <? N.of_nat (o_length o))%N then
    invalidInput (js "array length exceeds " ++ string_of_N MAX_ARRAY_LENGTH) path
  else if (0 <? o_symbols o)%nat then invalidInput (js "symbol properties are not portable JSON") path
  else
    _ ← check_indices (o_length o) path (descriptor_keys o);
    items ← traverse (λ index,
      let key := string_of_nat index in
      match own_descriptor o key with
      | None => invalidInput (js "sparse arrays are not portable JSON") (childPath path key)
      | Some d => v ← readable d (childPath path key); snapshot v (childPath path key) ancestors
      end) (seq 0 (o_length o));
    Ok (JArr items).

Definition cloneRecord (o : object) (path : jsstr) (ancestors : list loc) : checked json :=
  if (0 <? o_symbols o)%nat then invalidInput (js "symbol properties are not portable JSON") path
  else
    let keys := sort_by compareUnicodeCodePoints (descriptor_keys o) in
    if (MAX_ARRAY_LENGTH <? N.of_nat (length keys))%N then
      invalidInput (js "object property count exceeds " ++ string_of_N MAX_ARRAY_LENGTH) path
    else
      entries ← traverse (λ key,
        let location := childPath path key in
        match own_descriptor o key with
        | None => Ok []
        | Some d => v ← readable d location; j ← snapshot v location ancestors; Ok [(key, j)]
        end) keys;
      Ok (JObj (own_order (concat entries))).
End snapshot_steps.

(** [snapshotValue]; [levels] is [MAX_DEPTH + 1 - depth], so that it is zero when
    [depth > MAX_DEPTH]. *)
Fixpoint snapshotValue (h : heap) (levels : nat) (v : value) (path : jsstr) (ancestors : list loc) : checked json :=
  match levels with
  | 0 => invalidInput (js "nesting exceeds " ++ string_of_nat MAX_DEPTH ++ js " levels") path
  | S levels =>
      match v with
      | VNull => Ok JNull
      | VStr s => Ok (JStr s)
      | VBool b => Ok (JBool b)
      | VNum n =>
          if negb (num_finite n) then invalidInput (js "numbers must be finite") path
          else Ok (JNum (num_unsign_zero n))
      | VUndefined | VBigInt _ | VFunction | VSymbol =>
          invalidInput (js "unsupported portable JSON value '" ++ type_of v ++ js "'") path
      | VObj l =>
          let o := deref h l in
          if bool_decide (l ∈ ancestors) then invalidInput (js "cyclic values are not portable JSON") path
          else if o_throws o then Err TrapError
          else if negb (if o_array o then bool_decide (o_proto o = ProtoArray)
                        else bool_decide (o_proto o = ProtoObject ∨ o_proto o = ProtoNull)) then
            invalidInput (js "only plain objects and arrays are portable JSON") path
          else if o_array o then cloneArray (snapshotValue h levels) o path (l :: ancestors)
          else cloneRecord (snapshotValue h levels) o path (l :: ancestors)
      end
  end.

(** [portableSnapshot(value, path)] *)
Definition portableSnapshot (h : heap) (v : value) (path : jsstr) : checked json :=
  snapshotValue h (S MAX_DEPTH) v path [].

(** [portableSnapshot] of a value that was detached before *)
Definition snapshot_again (j : json) (path : jsstr) : checked json :=
  let '(h, v) := value_of_json j in portableSnapshot h v path.

(** ** Records

    Reading a property that is absent gives [undefined], here [None]. *)

(** [expectRecord(value, path)] *)
Definition expectRecord (value : option json) (path : jsstr) : checked (list (jsstr * json)) :=
  match value with
  | Some (JObj props) => Ok props
  | _ => invalidInput (js "expected an object") path
  end.

(** The loop over [Object.keys(value)] that looks for a field outside [allowed] *)
Fixpoint known_fields (what : jsstr) (allowed : list jsstr) (path : jsstr) (keys : list jsstr) : checked () :=
  match keys with
  | [] => Ok ()
  | key :: keys =>
      if bool_decide (key ∈ allowed) then known_fields what allowed path keys
      else reject GE_PATTERN_UNKNOWN_FIELD
        (js "unknown pattern " ++ what ++ js " '" ++ key ++ js "'") (childPath path key)
  end.

(** [snapshotOptions(value, allowedFields)] *)
Definition snapshotOptions (h : heap) (v : value) (allowedFields : list jsstr) : checked (list (jsstr * json)) :=
  j ← portableSnapshot h v (js "#");
  snapshot ← expectRecord (Some j) (js "#");
  _ ← known_fields (js "option") allowedFields (js "#") snapshot.*1;
  Ok snapshot.

(** [assertEntryFields(value, allowed, path)] *)
Definition assertEntryFields (value : list (jsstr * json)) (allowed : list jsstr) (path : jsstr) : checked () :=
  known_fields (js "entry field") allowed path value.*1.

(** [safeKey(value, path, description)] *)
Definition safeKey (value : option json) (path description : jsstr) : checked jsstr :=
  let rejected := reject GE_PATTERN_INVALID_IDENTIFIER
    (description ++ js " must match " ++ KEY_IDENTIFIER_source ++ js " and not be a reserved object key") path in
  match value with
  | Some (JStr s) => if KEY_IDENTIFIER s && negb (bool_decide (s ∈ RESERVED_KEYS)) then Ok s else rejected
  | _ => rejected
  end.

(** ** Nodes *)

(** A parsed node: a record whose [id] is an identifier *)
Abbreviation node := (list (jsstr * json)).

(** [node.id] *)
Definition id_of (n : node) : jsstr := match get_own (js "id") n with Some (JStr s) => s | _ => [] end.

(** [parseNode(value, path)] *)
Definition parseNode (value : option json) (path : jsstr) : checked node :=
  node ← expectRecord value path;
  if match get_own (js "id") node with Some (JStr s) => IDENTIFIER s | _ => false end then Ok node
  else reject GE_PATTERN_INVALID_IDENTIFIER (js "node id must match " ++ NODE_IDENTIFIER_source)
         (childPath path (js "id")).

Record ParsedKeyedNode := { keyed_key : jsstr; keyed_node : node; keyed_path : jsstr }.

Definition duplicate_key {A} (what key path : jsstr) : checked A :=
  reject GE_PATTERN_DUPLICATE_KEY (js "duplicate " ++ what ++ js " '" ++ key ++ js "'") path.

(** The callback of [value.map], with the keys it has seen *)
Fixpoint parse_items (path : jsstr) (index : nat) (keys : list jsstr) (items : list json)
    : checked (list ParsedKeyedNode) :=
  match items with
  | [] => Ok []
  | item :: items =>
      let itemPath := childPath path (string_of_nat index) in
      entry ← expectRecord (Some item) itemPath;
      _ ← assertEntryFields entry [js "key"; js "node"] itemPath;
      key ← safeKey (get_own (js "key") entry) (childPath itemPath (js "key")) (js "item key");
      if bool_decide (key ∈ keys) then duplicate_key (js "item key") key (childPath itemPath (js "key"))
      else
        let nodePath := childPath itemPath (js "node") in
        node ← parseNode (get_own (js "node") entry) nodePath;
        rest ← parse_items path (S index) (set_add key keys) items;
        Ok (Build_ParsedKeyedNode key node nodePath :: rest)
  end.

Definition compare_keyed (left right : ParsedKeyedNode) : Z :=
  compareUnicodeCodePoints (keyed_key left) (keyed_key right).

(** The checks on a collection before its items are read; [what] and [some] name
    an item in the messages. *)
Definition collection (value : option json) (path what some : jsstr) : checked (list json) :=
  match value with
  | Some (JArr items) =>
      if (length items =? 0)%nat then
        reject GE_PATTERN_EMPTY_COLLECTION (js "at least one " ++ what ++ js " is required") path
      else if (MAX_PATTERN_ITEMS <? length items)%nat then
        reject GE_PATTERN_TOO_MANY_ITEMS
          (js "at most " ++ string_of_nat MAX_PATTERN_ITEMS ++ js " " ++ some ++ js " are allowed") path
      else Ok items
  | _ => invalidInput (js "expected an array") path
  end.

(** [parseKeyedNodes(value, path)] *)
Definition parseKeyedNodes (value : option json) (path : jsstr) : checked (list ParsedKeyedNode) :=
  items ← collection value path (js "item") (js "items");
  parsed ← parse_items path 0 [] items;
  Ok (sort_by compare_keyed parsed).

(** [assertUniqueNodeIds(nodes)], with the identifiers it has seen *)
Fixpoint unique_from (seen : list jsstr) (nodes : list (node * jsstr)) : checked () :=
  match nodes with
  | [] => Ok ()
  | (n, path) :: nodes =>
      if bool_decide (id_of n ∈ seen) then
        reject GE_PATTERN_DUPLICATE_NODE_ID (js "duplicate caller node id '" ++ id_of n ++ js "'")
          (childPath path (js "id"))
      else unique_from (set_add (id_of n) seen) nodes
  end.
Definition assertUniqueNodeIds : list (node * jsstr) → checked () := unique_from [].

(** ** The graph *)

(** The loop that writes the reserved labels *)
Fixpoint reserve_labels (required : list (jsstr * jsstr)) (labels : list (jsstr * json))
    : checked (list (jsstr * json)) :=
  match required with
  | [] => Ok labels
  | (key, expected) :: required =>
      if has_own key labels && negb (bool_decide (get_own key labels = Some (JStr expected))) then
        reject GE_PATTERN_RESERVED_LABEL_CONFLICT
          (js "reserved label '" ++ key ++ js "' must equal '" ++ expected ++ js "'")
          (childPath (js "#/metadata/labels") key)
      else reserve_labels required (map_set key (JStr expected) labels)
  end.

(** [metadataWithIdentity(value, identity)] *)
Definition metadataWithIdentity (value : option json) (identity : PatternIdentity) : checked json :=
  metadata ← expectRecord value (js "#/metadata");
  if negb match get_own (js "name") metadata with Some (JStr s) => GRAPH_NAME s | _ => false end then
    reject GE_PATTERN_INVALID_IDENTIFIER (js "graph metadata.name must match " ++ GRAPH_NAME_source)
      (js "#/metadata/name")
  else
    labels ← match get_own (js "labels") metadata with
             | None => Ok []
             | Some labels => expectRecord (Some labels) (js "#/metadata/labels")
             end;
    labels ← reserve_labels
      [(PATTERN_LABEL, identity_pattern identity); (CAPABILITY_LABEL, identity_capability identity)] labels;
    labels ← snapshot_again (JObj labels) (js "#/metadata/labels");
    snapshot_again (JObj (map_set (js "labels") labels metadata)) (js "#/metadata").

(** [optionalRecord(value, path)] *)
Definition optionalRecord (value : option json) (path : jsstr) : checked (option json) :=
  match value with
  | None => Ok None
  | Some value => props ← expectRecord (Some value) path; Ok (Some (JObj props))
  end.

(** [...(value === undefined ? {} : { key: value })] *)
Definition spread (key : jsstr) (value : option json) : list (jsstr * json) :=
  match value with Some j => [(key, j)] | None => [] end.

(** The object literal of [buildGraph], after the checks of the options *)
Definition assemble (options : list (jsstr * json)) (identity : PatternIdentity) (entrypoint exit : jsstr)
    (nodes : list node) (edges : list json) : checked json :=
  outputKey ← match get_own (js "outputKey") options with
              | None => Ok (js "result")
              | key => safeKey key (js "#/outputKey") (js "output key")
              end;
  let any_object := JObj [(js "type", JStr (js "object"))] in
  inputSchema ← optionalRecord (get_own (js "inputSchema") options) (js "#/inputSchema");
  outputSchema ← optionalRecord (get_own (js "outputSchema") options) (js "#/outputSchema");
  stateSchema ← optionalRecord (get_own (js "stateSchema") options) (js "#/stateSchema");
  policies ← optionalRecord (get_own (js "policies") options) (js "#/policies");
  metadata ← metadataWithIdentity (get_own (js "metadata") options) identity;
  Ok (JObj (
    [(js "apiVersion", JStr API_VERSION); (js "kind", JStr (js "Graph")); (js "metadata", metadata);
     (js "inputSchema", default any_object inputSchema); (js "outputSchema", default any_object outputSchema)] ++
    spread (js "stateSchema") stateSchema ++
    [(js "entrypoints", JArr [JStr entrypoint]);
     (js "outputs", JObj [(outputKey, JObj [(js "node", JStr exit)])]);
     (js "nodes", JArr (JObj <$> nodes)); (js "edges", JArr edges)] ++
    spread (js "policies") policies)).

(** The graph the core accepts, or the rejection; the hash is the compiler's parameter *)
Definition compiled (hash : jsstr → jsstr) (graph : json) : checked json :=
  let '(h, v) := value_of_json graph in
  let compilation := compileGraph hash h v in
  if valid compilation then Ok graph
  else
    let details := join (js "; ")
      ((λ item, code_text (code item) ++ js ": " ++ message item) <$> diagnostics compilation) in
    reject GE_PATTERN_CORE_REJECTED
      (js "canonical core rejected constructed graph (" ++
       (if (length details =? 0)%nat then js "unknown diagnostic" else details) ++ js ")") (js "#").

(** [buildGraph(options, identity, entrypoint, exit, nodes, edges)] *)
Definition buildGraph (hash : jsstr → jsstr) (options : list (jsstr * json)) (identity : PatternIdentity)
    (entrypoint exit : jsstr) (nodes : list node) (edges : list json) : checked json :=
  graph ← assemble options identity entrypoint exit nodes edges;
  compiled hash graph.

(** [edgeId(pattern, index)] *)
Definition edgeId (pattern : PatternKind) (index : nat) : jsstr :=
  js "ge-" ++ kind_text pattern ++ js "-" ++ pad_start 4 48 (string_of_nat index).

Definition BASE_FIELDS : list jsstr :=
  [js "metadata"; js "inputSchema"; js "outputSchema"; js "stateSchema"; js "outputKey"; js "policies"].

(** [fields(...patternFields)] *)
Definition fields (patternFields : list jsstr) : list jsstr := set_of_list (BASE_FIELDS ++ patternFields).
