(* ===== verification/PatternSnapshot.v ===== *)
(** * Snapshots of pattern options

    [portableSnapshot] is a second implementation of the capture of a caller's value.
    It accepts the plain data that is within its limits on depth and width, the core's
    canonicalization the plain data whose integers are safe; both detach the same tree. *)
From S2P Require Import Prelude JsString JsNumber JsValue Canonical CanonicalSpec JsonRoundTrip.
From S2P Require Import SchemaValidation Compiler JsonValues PatternInternal.

(** ** Limits *)

(** At most [levels] levels, and arrays and objects of bounded width *)
Fixpoint fits (levels : nat) (j : json) : bool :=
  match levels with
  | 0 => false
  | S levels =>
      match j with
      | JArr items => (N.of_nat (length items) <=? MAX_ARRAY_LENGTH)%N && forallb (fits levels) items
      | JObj props => (N.of_nat (length props) <=? MAX_ARRAY_LENGTH)%N && forallb (λ p, fits levels p.2) props
      | _ => true
      end
  end.
Definition within_limits (j : json) : Prop := fits (S MAX_DEPTH) j = true.

(** ** One object *)

Lemma descriptor_keys_perm o : descriptor_keys o ≡ₚ own_names o.
Proof. unfold descriptor_keys. rewrite own_order_keys, <- list_fmap_compose. by rewrite list_fmap_id. Qed.

Lemma own_names_props o : own_names o ≡ₚ (if o_array o then [key_length] else []) ++ (o_props o).*1.
Proof. unfold own_names. by rewrite Permutation_app_comm. Qed.

Lemma sorted_keys o :
  object_wf o → o_array o = false →
  sort_by compareUnicodeCodePoints (descriptor_keys o) = sort_by compareUnicodeCodePoints (own_names o) ∧
  sort_by compareUnicodeCodePoints (own_names o) ≡ₚ (o_props o).*1.
Proof.
  intros (Hnd & Hwf & _) Harr.
  assert (own_names o = (o_props o).*1) as Hn by (unfold own_names; by rewrite Harr, app_nil_r).
  split; [|by rewrite sort_by_Permutation, Hn].
  apply sort_by_unique; [apply _|apply descriptor_keys_perm|].
  intros k k'. rewrite !descriptor_keys_perm, Hn. rewrite Forall_forall in Hwf.
  intros. apply compare_code_points_antisym; auto.
Qed.

Lemma check_indices_Ok len path keys :
  check_indices len path keys = Ok () ↔ Forall (λ k, k = key_length ∨ ∃ i, k = string_of_nat i ∧ i < len) keys.
Proof.
  induction keys as [|key keys IH]; cbn [check_indices]; [split; [by constructor|done]|].
  rewrite Forall_cons. case_bool_decide as Hk; [rewrite IH; naive_solver|].
  destruct (index_name len key) as [i|] eqn:E.
  - apply index_name_Some in E. rewrite IH. naive_solver.
  - split; [done|]. intros [[?|(i & Hi)] _]; [done|]. apply index_name_Some in Hi. congruence.
Qed.

Lemma readable_Ok d path v : readable d path = Ok v ↔ d = Data v true.
Proof. unfold readable, invalidInput, reject. destruct d as [w []|]; split; congruence. Qed.

(** What the clone of an array shows of its entries *)
Lemma cloneArray_Ok snapshot o path ancestors j :
  object_wf o → o_array o = true →
  cloneArray snapshot o path ancestors = Ok j →
  ∃ vs items, j = JArr items ∧ (N.of_nat (length items) <= MAX_ARRAY_LENGTH)%N ∧
    o_symbols o = 0 ∧ o_length o = length vs ∧
    o_props o ≡ₚ zip (string_of_nat <$> seq 0 (length vs)) ((λ v, Data v true) <$> vs) ∧
    Forall2 (λ v j, ∃ p, snapshot v p ancestors = Ok j) vs items.
Proof.
  intros (Hnd & _ & Hlen) Harr H. unfold cloneArray in H. specialize (Hlen Harr).
  split_if in H as Hmax; [done|]. split_if in H as Hsym; [done|]. inv_ok. bool_hyps.
  destruct a. apply check_indices_Ok in E. rewrite descriptor_keys_perm, own_names_props, Harr in E.
  apply Forall_app in E as [_ E]. apply traverse_Forall2 in E0.
  assert (E1 : Forall2 (λ i j, ∃ v, map_get (string_of_nat i) (o_props o) = Some (Data v true) ∧
    ∃ p, snapshot v p ancestors = Ok j) (seq 0 (o_length o)) a0).
  { eapply Forall2_impl; [exact E0|]. intros i y Hy. cbv beta zeta in Hy.
    rewrite own_descriptor_props in Hy by (right; apply string_of_nat_not_length).
    destruct (map_get _ _) as [d|] eqn:Hd; [|done]. inv_ok. apply readable_Ok in E1 as ->. eauto. }
  apply Forall2_split in E1 as (vs & Hget & Hsnap). exists vs, a0.
  pose proof (Forall2_length _ _ _ Hget) as Hl. rewrite length_seq in Hl.
  pose proof (Forall2_length _ _ _ Hsnap).
  split_and!; [done|lia|lia|done| |done]. rewrite <- Hl.
  apply zip_Permutation; [done| |by rewrite Forall2_fmap_l, Forall2_fmap_r].
  apply NoDup_Permutation; [apply (NoDup_fmap_2 string_of_nat), NoDup_seq|done|]. intros k. split.
  - intros (i & -> & Hi)%list_elem_of_fmap. apply list_elem_of_lookup in Hi as [n Hi].
    destruct (Forall2_lookup_l _ _ _ _ _ Hget Hi) as (v & _ & Hv).
    apply map_get_Some_elem in Hv. by apply (list_elem_of_fmap_2 fst) in Hv.
  - intros Hk. rewrite Forall_forall in E. destruct (E k Hk) as [->|(i & -> & Hi)]; [done|].
    apply list_elem_of_fmap. exists i. split; [done|]. apply elem_of_seq. lia.
Qed.

Lemma concat_singletons {A B} (Q : A → B → Prop) ks a :
  Forall2 (λ k ps, ∃ j, ps = [(k, j)] ∧ Q k j) ks a → ∃ js, concat a = zip ks js ∧ Forall2 Q ks js.
Proof.
  induction 1 as [|k ps ks a (j & -> & Hj) _ (js & E & IH)]; [by exists []|].
  exists (j :: js). split; [simpl; by rewrite E|by constructor].
Qed.

(** What the clone of a record shows of its properties *)
Lemma cloneRecord_Ok snapshot o path ancestors j :
  object_wf o → o_array o = false →
  cloneRecord snapshot o path ancestors = Ok j →
  let ks := sort_by compareUnicodeCodePoints (own_names o) in
  ∃ vs js, j = JObj (own_order (zip ks js)) ∧ (N.of_nat (length js) <= MAX_ARRAY_LENGTH)%N ∧
    o_symbols o = 0 ∧ length ks = length vs ∧
    o_props o ≡ₚ zip ks ((λ v, Data v true) <$> vs) ∧
    Forall2 (λ v j, ∃ p, snapshot v p ancestors = Ok j) vs js.
Proof.
  intros Hwf Harr H. unfold cloneRecord in H. destruct (sorted_keys o Hwf Harr) as [Hks Hperm].
  rewrite Hks in H. clear Hks. cbv zeta. set (ks := sort_by _ (own_names o)) in *.
  split_if in H as Hsym; [done|]. split_if in H as Hmax; [done|]. inv_ok. bool_hyps.
  apply traverse_Forall2 in E.
  assert (E1 : Forall2 (λ k ps, ∃ j, ps = [(k, j)] ∧
    ∃ v, map_get k (o_props o) = Some (Data v true) ∧ ∃ p, snapshot v p ancestors = Ok j) ks a).
  { apply Forall2_same_length_lookup_2; [by eapply Forall2_length|]. intros i k ps Hk Hps.
    pose proof (Forall2_lookup_lr _ _ _ _ _ _ E Hk Hps) as Hy. cbv beta zeta in Hy.
    rewrite own_descriptor_props in Hy by auto.
    assert (k ∈ (o_props o).*1) as Hin by (rewrite <- Hperm; by eapply list_elem_of_lookup_2).
    destruct (map_get k _) as [d|] eqn:Hd; [|by apply map_get_None in Hd].
    inv_ok. apply readable_Ok in E0 as ->. eauto 6. }
  apply concat_singletons in E1 as (js & -> & E1).
  apply Forall2_split in E1 as (vs & Hget & Hjs).
  pose proof (Forall2_length _ _ _ Hget). pose proof (Forall2_length _ _ _ Hjs).
  exists vs, js. split_and!; [done|lia|lia|done| |done].
  apply zip_Permutation; [apply Hwf|done|]. by rewrite Forall2_fmap_r.
Qed.

(** ** Soundness *)

Lemma Forall2_children {A B} (P : B → Prop) (R : A → B → Prop) l k :
  Forall2 (λ x y, P y ∧ R x y) l k → Forall P k ∧ Forall2 R l k.
Proof. induction 1 as [|x y l k [Hy HR] _ [IH1 IH2]]; [by repeat constructor|]. split; by constructor. Qed.

Lemma fits_arr levels items :
  fits (S levels) (JArr items) = true ↔
  (N.of_nat (length items) <= MAX_ARRAY_LENGTH)%N ∧ Forall (λ j, fits levels j = true) items.
Proof. cbn [fits]. by rewrite andb_true_iff, N.leb_le, forallb_Forall. Qed.

Lemma Forall_zip_snd {A B} (P : B → Prop) (ks : list A) js :
  length ks = length js → Forall (λ p, P p.2) (zip ks js) ↔ Forall P js.
Proof. intros Hl. rewrite <- (Forall_fmap snd P). by rewrite snd_zip by lia. Qed.

Lemma fits_obj levels (ks : list jsstr) (js : list json) :
  length ks = length js →
  fits (S levels) (JObj (own_order (zip ks js))) = true ↔
  (N.of_nat (length js) <= MAX_ARRAY_LENGTH)%N ∧ Forall (λ j, fits levels j = true) js.
Proof.
  intros Hl. cbn [fits]. rewrite andb_true_iff, N.leb_le, forallb_Forall.
  rewrite !own_order_Permutation, length_zip_with_l_eq by done.
  rewrite (Forall_zip_snd (λ j, fits levels j = true)) by done. by rewrite Hl.
Qed.

Lemma interoperable_obj ks js :
  length ks = length js → interoperable (JObj (own_order (zip ks js))) ↔ Forall interoperable js.
Proof.
  intros Hl. unfold interoperable. cbn [interoperable_b]. rewrite forallb_Forall, own_order_Permutation.
  by rewrite (Forall_zip_snd (λ j, interoperable_b j = true)).
Qed.

(** Plain data with the numbers that a snapshot takes: all finite ones *)
Abbreviation snapshot_data := (plain_data (λ _, True)).

Lemma plain_data_change (P Q : num → Prop) (R : json → Prop) h :
  (∀ n, R (JNum (num_unsign_zero n)) → P n → Q n) → (∀ items, R (JArr items) → Forall R items) →
  (∀ ks js, length ks = length js → R (JObj (own_order (zip ks js))) → Forall R js) →
  ∀ v j, plain_data P h v j → R j → plain_data Q h v j.
Proof.
  intros Hn Ha Ho.
  assert (∀ (vs : list value) items, Forall (λ j, ∀ v, plain_data P h v j → R j → plain_data Q h v j) items →
    Forall2 (plain_data P h) vs items → Forall R items → Forall2 (plain_data Q h) vs items) as Hlist.
  { intros vs items IH H. induction H as [|v j vs items Hv _ IHl]; intros HR; constructor; inversion IH; inversion HR; auto. }
  intros v j. revert v. induction j as [|b|n|s|items IH|props IH] using json_nested_ind; intros v H HR;
    inversion H as [| | | |l vs ? Hl Hv|l ps js Hl Hv]; subst; try by constructor.
  - constructor; auto.
  - apply (data_arr h l vs); auto.
  - apply (data_obj h l ps js); [done|]. pose proof (Forall2_length _ _ _ Hv) as Hlen. rewrite length_fmap in Hlen.
    apply Hlist; [|done|by eapply Ho; [|exact HR]; rewrite length_fmap].
    rewrite own_order_Permutation in IH. rewrite <- (snd_zip ps.*1 js) by (rewrite length_fmap; lia). by apply Forall_fmap.
Qed.

(** The core takes the same data, as far as integers are safe. *)
Lemma portable_snapshot h v j : portable h v j ↔ snapshot_data h v j ∧ interoperable j.
Proof.
  split.
  - intros H. split; [|by eapply portable_interoperable].
    eapply (plain_data_change _ _ (λ _, True)); [..|exact H|]; try done; intros; by apply Forall_true.
  - intros [H Hi]. eapply (plain_data_change _ _ interoperable); [..|exact H|exact Hi].
    + intros n Hn _. by apply interoperable_unsign.
    + intros items. apply interoperable_arr.
    + intros ks js Hl. by apply interoperable_obj.
Qed.

(** A snapshot is a tree within the limits, the tree of the value. *)
Lemma snapshotValue_sound h levels v path ancestors j :
  heap_wf h → ordinary h → snapshotValue h levels v path ancestors = Ok j →
  fits levels j = true ∧ snapshot_data h v j.
Proof.
  intros Hh Hord. revert v path ancestors j.
  induction levels as [|levels IH]; intros v path ancestors j H; [done|]. cbn [snapshotValue] in H.
  destruct v as [| |b|n|s| | | |l]; try done; inv_ok; try (split; [done|by constructor]).
  - split_if in H as Hfin; [done|]. inv_ok. bool_hyps. split; [done|]. by constructor.
  - cbv zeta in H. destruct (ordinary_deref h l Hord) as (Hproxy & Hthrows & Harray).
    pose proof (deref_wf h l Hh) as Hwf. rewrite Hthrows in H.
    split_if in H as Hcyc; [done|]. split_if in H as Hproto; [done|]. apply negb_false_iff in Hproto.
    destruct (o_array (deref h l)) eqn:Harr.
    + apply cloneArray_Ok in H as (vs & items & -> & Hmax & Hsym & Hlen & Hprops & Hitems); [|done..].
      assert (Forall2 (λ v j, fits levels j = true ∧ snapshot_data h v j) vs items) as Hall.
      { eapply Forall2_impl; [exact Hitems|]. intros v j [p Hp]. by eapply IH. }
      apply Forall2_children in Hall as [Hfits Hdata]. rewrite fits_arr.
      split; [done|]. apply (data_arr _ _ vs); [|done].
      by split_and!; auto.
    + apply cloneRecord_Ok in H as (vs & js & -> & Hmax & Hsym & Hlen & Hprops & Hjs); [|done..].
      assert (Forall2 (λ v j, fits levels j = true ∧ snapshot_data h v j) vs js) as Hall.
      { eapply Forall2_impl; [exact Hjs|]. intros v j [p Hp]. by eapply IH. }
      pose proof (Forall2_length _ _ _ Hjs).
      apply Forall2_children in Hall as [Hfits Hdata]. rewrite fits_obj by lia.
      split; [done|]. set (ks := sort_by _ _) in *.
      rewrite <- (fst_zip ks vs) by lia. apply data_obj; [|by rewrite snd_zip by lia].
      unfold record_of. rewrite fst_zip, snd_zip by lia. split_and!; try done.
      * by apply bool_decide_eq_true in Hproto.
      * apply (StronglySorted_fmap_inv fst _ (cmp_le compareUnicodeCodePoints)); [done|].
        rewrite fst_zip by lia. apply sort_by_sorted, _.
Qed.

(** A snapshot is a tree of distinct keys, strings of code units and doubles. *)
Lemma snapshotValue_json_ok h levels v path ancestors j :
  heap_wf h → heap_data_ok h → value_okb v = true → snapshotValue h levels v path ancestors = Ok j → json_ok j.
Proof.
  intros Hh Hd. revert v path ancestors j.
  induction levels as [|levels IH]; intros v path ancestors j Hv H; [done|]. cbn [snapshotValue] in H.
  destruct v as [| |b|n|s| | | |l]; try done; inv_ok; try done.
  - split_if in H as Hfin; [done|]. inv_ok. apply json_ok_num. simpl in Hv. apply bool_decide_eq_true in Hv.
    apply negb_false_iff in Hfin. by destruct n.
  - cbv zeta in H. pose proof (deref_wf h l Hh) as Hwf.
    split_if in H as Hcyc; [done|]. split_if in H as Hthrows; [done|]. split_if in H as Hproto; [done|].
    destruct (o_array (deref h l)) eqn:Harr.
    + apply cloneArray_Ok in H as (vs & items & -> & _ & _ & _ & Hprops & Hitems); [|done..].
      apply json_ok_arr, Forall_lookup. intros i j Hj.
      destruct (Forall2_lookup_r _ _ _ _ _ Hitems Hj) as (v & Hv' & p & Hp).
      eapply IH; [|exact Hp]. eapply (deref_data_ok h l v vs); [done|exact Hprops| |by eapply list_elem_of_lookup_2].
      by rewrite length_fmap, length_seq.
    + apply cloneRecord_Ok in H as (vs & js & -> & _ & _ & Hlen & Hprops & Hjs); [|done..].
      pose proof (Forall2_length _ _ _ Hjs). destruct (sorted_keys _ Hwf Harr) as [_ Hperm].
      apply json_ok_obj. rewrite own_order_keys, own_order_Permutation, fst_zip by lia.
      split_and!; [rewrite Hperm; apply Hwf..|]. rewrite Forall_zip_snd by lia.
      apply Forall_lookup. intros i j Hj.
      destruct (Forall2_lookup_r _ _ _ _ _ Hjs Hj) as (v & Hv' & p & Hp).
      eapply IH; [|exact Hp]. eapply (deref_data_ok h l v vs); [done|exact Hprops|done|by eapply list_elem_of_lookup_2].
Qed.

(** ** Completeness *)

Lemma cloneArray_complete snapshot h l vs items path ancestors :
  heap_wf h → array_of (deref h l) vs → (N.of_nat (length items) <= MAX_ARRAY_LENGTH)%N →
  Forall2 (λ v j, ∀ p, snapshot v p ancestors = Ok j) vs items →
  cloneArray snapshot (deref h l) path ancestors = Ok (JArr items).
Proof.
  intros Hh Ha Hmax Hitems. pose proof (array_of_entries h l vs Hh Ha) as He.
  destruct Ha as (_ & Harr & _ & Hsym & Hlen & Hprops). unfold cloneArray. set (o := deref h l) in *.
  pose proof (Forall2_length _ _ _ Hitems) as Hl. rewrite Hlen, Hl.
  rewrite (proj2 (N.ltb_ge _ _) Hmax), Hsym. cbn [Nat.ltb Nat.leb]. rewrite <- Hl.
  assert (check_indices (length vs) path (descriptor_keys o) = Ok ()) as ->.
  { apply check_indices_Ok. rewrite descriptor_keys_perm, own_names_props, Harr.
    apply Forall_app. split; [by constructor; [left|]|].
    rewrite Hprops, fst_zip by (rewrite !length_fmap, length_seq; lia).
    apply Forall_fmap, Forall_forall. intros i Hi%elem_of_seq. right. exists i. split; [done|lia]. }
  cbn [mbind result_bind].
  rewrite (proj2 (traverse_Forall2 _ _ items)); [done|].
  apply Forall2_fmap_l in He. eapply Forall2_impl; [exact (Forall2_compose _ _ _ _ _ He Hitems)|].
  intros i j (v & Hv & Hj). cbv beta zeta. rewrite own_descriptor_props by (right; apply string_of_nat_not_length).
  rewrite Hv. simpl. apply Hj.
Qed.

Lemma cloneRecord_complete snapshot h l ps js path ancestors :
  heap_wf h → record_of (deref h l) ps → (N.of_nat (length js) <= MAX_ARRAY_LENGTH)%N →
  Forall2 (λ v j, ∀ p, snapshot v p ancestors = Ok j) ps.*2 js →
  cloneRecord snapshot (deref h l) path ancestors = Ok (JObj (own_order (zip ps.*1 js))).
Proof.
  intros Hh Hr Hmax Hjs. pose proof (record_of_entries h l ps Hh Hr) as He.
  pose proof (record_of_keys h l ps Hh Hr) as Hk. destruct Hr as (_ & Harr & _ & Hsym & _ & _).
  unfold cloneRecord. destruct (sorted_keys _ (deref_wf h l Hh) Harr) as [-> _]. rewrite <- Hk, Hsym.
  pose proof (Forall2_length _ _ _ Hjs) as Hl. rewrite length_fmap in Hl.
  cbv zeta. rewrite length_fmap, Hl, (proj2 (N.ltb_ge _ _) Hmax). cbn [Nat.ltb Nat.leb].
  rewrite (proj2 (traverse_Forall2 _ _ ((λ p, [p]) <$> zip ps.*1 js))).
  - cbn [mbind result_bind]. do 3 f_equal. induction (zip ps.*1 js) as [|p l' IH]; [done|]. csimpl. by rewrite IH.
  - pose proof (Forall2_compose _ _ _ _ _ He Hjs) as Hall. apply Forall2_fmap_r.
    rewrite <- (zip_fst_snd (zip ps.*1 js)) at 1.
    clear -Hall Harr. induction Hall as [|k j ks js (v & Hv & Hj) _ IH]; [constructor|]. constructor; [|exact IH].
    cbv beta zeta. rewrite own_descriptor_props, Hv by auto. simpl. by rewrite Hj.
Qed.

Lemma snapshotValue_complete h v j :
  heap_wf h → ordinary h → snapshot_data h v j → ∀ levels path ancestors, below (λ _, True) h ancestors j →
  fits levels j = true → snapshotValue h levels v path ancestors = Ok j.
Proof.
  intros Hh Hord. revert v.
  assert (Hsub : ∀ (vs : list value) js l levels ancestors ja,
    Forall (λ j, ∀ v, snapshot_data h v j → ∀ levels path ancestors, below (λ _, True) h ancestors j →
      fits levels j = true → snapshotValue h levels v path ancestors = Ok j) js →
    Forall2 (snapshot_data h) vs js → snapshot_data h (VObj l) ja → below (λ _, True) h ancestors ja →
    (∀ j, j ∈ js → json_size j < json_size ja) → Forall (λ j, fits levels j = true) js →
    Forall2 (λ v j, ∀ p, snapshotValue h levels v p (l :: ancestors) = Ok j) vs js).
  { intros vs js l levels ancestors ja Hall Hf Hp Hb Hsize Hfits.
    apply Forall2_same_length_lookup_2; [by eapply Forall2_length|].
    intros i v j' Hv Hj p. assert (j' ∈ js) as Hin by (by eapply list_elem_of_lookup_2).
    rewrite Forall_forall in Hall, Hfits. apply (Hall j'); [done| | |by apply Hfits].
    - by eapply (Forall2_lookup_lr _ _ _ _ _ _ Hf).
    - eapply below_child; eauto. }
  assert (Hanc : ∀ l ancestors j, snapshot_data h (VObj l) j → below (λ _, True) h ancestors j → l ∉ ancestors)
    by (intros; by eapply below_not).
  induction j as [|b|n|s|items IH|m IH] using json_nested_ind;
    intros v Hp levels path ancestors Hb Hfits;
    inversion Hp as [| | |n0 Hfin Hsafe|l vs items' Ha Hf|l ps js Hr Hf]; subst;
    (destruct levels as [|levels]; [done|]); cbn [snapshotValue]; try done.
  - by rewrite Hfin.
  - assert (l ∉ ancestors) by (by eapply Hanc). destruct (ordinary_deref h l Hord) as (_ & Hthrows & _).
    pose proof Ha as (_ & Harr & Hproto & _). apply fits_arr in Hfits as [Hmax Hfits].
    rewrite bool_decide_eq_false_2, Hthrows, Harr, Hproto by done. cbn [negb bool_decide].
    apply (cloneArray_complete _ _ _ vs); [done..|].
    eapply Hsub; [done|done|done|done| |done]. intros. by apply json_size_child_arr.
  - assert (l ∉ ancestors) by (by eapply Hanc). destruct (ordinary_deref h l Hord) as (_ & Hthrows & _).
    assert (length ps.*1 = length js) as Hlen.
    { apply Forall2_length in Hf. by rewrite !length_fmap in *. }
    pose proof Hr as (_ & Harr & Hproto & _). apply fits_obj in Hfits as [Hmax Hfits]; [|done].
    rewrite (bool_decide_eq_false_2 (l ∈ ancestors)), Hthrows, Harr, (bool_decide_eq_true_2 _ Hproto) by done.
    cbn [negb]. apply cloneRecord_complete; [done..|].
    eapply Hsub; [|done|done|done| |done].
    + rewrite own_order_Permutation in IH. by apply (Forall_zip_snd (λ j, ∀ v, snapshot_data h v j → ∀ levels path ancestors,
        below (λ _, True) h ancestors j → fits levels j = true → snapshotValue h levels v path ancestors = Ok j)) in IH.
    + intros. by apply json_size_child_obj.
Qed.

(** C24. The snapshot of options against the capture of the core.  On ordinary heaps,
    cyclic or not, [portableSnapshot] returns exactly the tree of plain data - null,
    booleans, strings, finite numbers, dense arrays and plain objects of enumerable data
    properties - that is within its limits on depth and width.  The core captures the
    same trees without these limits, but only when every integer is safe.  So where the
    limits hold and the integers are safe the two agree, and nowhere else. *)
Theorem portableSnapshot_agrees h v path j :
  heap_wf h → ordinary h →
  (portableSnapshot h v path = Ok j ↔ snapshot_data h v j ∧ within_limits j) ∧
  (captureCanonicalJson h v = Ok (j, serializeCaptured j) ↔ snapshot_data h v j ∧ interoperable j).
Proof.
  intros Hh Hord. split.
  - unfold portableSnapshot, within_limits. split.
    + intros Hs. apply snapshotValue_sound in Hs as [Hfits Hp]; done.
    + intros [Hp Hfits]. apply snapshotValue_complete; [done..| |done]. intros a Ha. by apply not_elem_of_nil in Ha.
  - rewrite <- portable_snapshot. destruct (captureCanonicalJson_cases h v Hh) as [(j' & Hj & ->)|[(m & p & ->) Hn]].
    + split; [by intros [= <-]|]. intros Hp. by rewrite (portable_functional h v j' j Hh Hj Hp).
    + split; [done|]. intros Hp. by destruct (Hn j).
Qed.

(** An object that shows one array twice; the snapshot has two copies. *)
Definition shared_heap : heap :=
  <[1%positive := plain_object [(js "b", Data (VObj 2) true); (js "a", Data (VObj 2) true)]]>
  (<[2%positive := plain_array [VNum (num_of_decimal true 0 0); VStr (js "x")]]> ∅).
Definition shared_tree : json :=
  let copy := JArr [JNum (num_of_Z 0); JStr (js "x")] in JObj [(js "a", copy); (js "b", copy)].

(** 2^53 is an integer that only the snapshot takes. *)
Definition unsafe_integer : num := num_of_Z 9007199254740992.

Lemma portableSnapshot_agrees_witness :
  (portableSnapshot shared_heap (VObj 1) (js "#") = Ok shared_tree ∧
   captureCanonicalJson shared_heap (VObj 1) = Ok (shared_tree, serializeCaptured shared_tree)) ∧
  portableSnapshot ∅ (VNum unsafe_integer) (js "#") = Ok (JNum unsafe_integer) ∧
  captureCanonicalJson ∅ (VNum unsafe_integer) ≠ Ok (JNum unsafe_integer, serializeCaptured (JNum unsafe_integer)).
Proof.
  assert (heap_wf shared_heap) as Hh by (apply (bool_decide_unpack _); vm_compute; exact I).
  assert (ordinary shared_heap) as Hord by (apply (bool_decide_unpack _); vm_compute; exact I).
  assert (heap_wf ∅) as Hh' by (apply (bool_decide_unpack _); vm_compute; exact I).
  assert (ordinary ∅) as Hord' by (apply (bool_decide_unpack _); vm_compute; exact I).
  destruct (portableSnapshot_agrees shared_heap (VObj 1) (js "#") shared_tree Hh Hord) as [Hs Hc].
  assert (portableSnapshot shared_heap (VObj 1) (js "#") = Ok shared_tree) as E by (vm_compute; reflexivity).
  split; [split; [exact E|]|split].
  - apply Hc. split; [exact (proj1 (proj1 Hs E))|vm_compute; reflexivity].
  - apply (portableSnapshot_agrees ∅ (VNum unsafe_integer) (js "#") (JNum unsafe_integer) Hh' Hord').
    split; [exact (data_num (λ _, True) ∅ unsafe_integer eq_refl I)|vm_compute; reflexivity].
  - intros H. apply (portableSnapshot_agrees ∅ (VNum unsafe_integer) (js "#") (JNum unsafe_integer) Hh' Hord') in H as [_ H].
    vm_compute in H. discriminate H.
Defined.
