(* ===== verification/Patterns.v ===== *)
(** * Graph patterns (packages/patterns/src/patterns.ts)

    Four builders turn options into graphs: a diamond, routed branches, a verified
    fan-out and an unrolled loop.  Each checks its options, lays out nodes and edges,
    and hands them to [buildGraph]. *)
From S2P Require Import Prelude JsString JsNumber JsValue Canonical SchemaValidation Compiler.
From S2P Require Import PatternInternal.

Definition ANNOTATION_API_VERSION : jsstr :=
  js "graphengineering.reacher-z.github.io/pattern-conditions/v1alpha1".

Definition IDENTITIES (kind : PatternKind) : PatternIdentity :=
  match kind with
  | Diamond => Build_PatternIdentity (js "diamond/v1alpha1") (js "dag/v1alpha1")
  | RoutedBranches =>
      Build_PatternIdentity (js "routed-branches/v1alpha1") (js "edge-condition-routing/v1alpha1")
  | VerifiedFanout => Build_PatternIdentity (js "verified-fanout/v1alpha1") (js "dag/v1alpha1")
  | LoopUntilDry =>
      Build_PatternIdentity (js "loop-until-dry/v1alpha1") (js "edge-condition-routing-and-early-stop/v1alpha1")
  end.

(** [edge(pattern, index, from, to, options)] *)
Definition edge (pattern : PatternKind) (index : nat) (from to : jsstr) (port : option jsstr)
    (condition : option json) : json :=
  JObj ([(js "id", JStr (edgeId pattern index)); (js "from", JObj [(js "node", JStr from)]);
         (js "to", JObj ((js "node", JStr to) :: spread (js "port") (JStr <$> port)));
         (js "mode", JStr (js "value"))] ++
        spread (js "condition") condition).

(** The nodes of keyed entries, with the paths that errors name *)
Definition refs (items : list ParsedKeyedNode) : list (node * jsstr) :=
  (λ item, (keyed_node item, keyed_path item)) <$> items.

Section builders.
(** The digest of the canonical text, as in the compiler. *)
Context (hash : jsstr → jsstr).

(** What a builder does with the snapshot of its options *)
Section with_options.
Context (input : list (jsstr * json)).

Definition diamond_graph : checked json :=
  split ← parseNode (get_own (js "split") input) (js "#/split");
  workers ← parseKeyedNodes (get_own (js "workers") input) (js "#/workers");
  merge ← parseNode (get_own (js "merge") input) (js "#/merge");
  _ ← assertUniqueNodeIds ([(split, js "#/split")] ++ refs workers ++ [(merge, js "#/merge")]);
  let edges :=
    imap (λ i worker, edge Diamond (1 + i) (id_of split) (id_of (keyed_node worker)) None None) workers ++
    imap (λ i worker,
      edge Diamond (1 + length workers + i) (id_of (keyed_node worker)) (id_of merge)
        (Some (keyed_key worker)) None) workers in
  buildGraph hash input (IDENTITIES Diamond) (id_of split) (id_of merge)
    ([split] ++ (keyed_node <$> workers) ++ [merge]) edges.

Definition route_equals (key : jsstr) : json :=
  JObj [(js "apiVersion", JStr ANNOTATION_API_VERSION); (js "kind", JStr (js "RouteEquals"));
        (js "routeKey", JStr key)].

Definition routed_graph : checked json :=
  classify ← parseNode (get_own (js "classify") input) (js "#/classify");
  branches ← parseKeyedNodes (get_own (js "branches") input) (js "#/branches");
  merge ← parseNode (get_own (js "merge") input) (js "#/merge");
  _ ← assertUniqueNodeIds ([(classify, js "#/classify")] ++ refs branches ++ [(merge, js "#/merge")]);
  let edges :=
    imap (λ i branch,
      edge RoutedBranches (1 + i) (id_of classify) (id_of (keyed_node branch)) None
        (Some (route_equals (keyed_key branch)))) branches ++
    imap (λ i branch,
      edge RoutedBranches (1 + length branches + i) (id_of (keyed_node branch)) (id_of merge)
        (Some (keyed_key branch)) None) branches in
  buildGraph hash input (IDENTITIES RoutedBranches) (id_of classify) (id_of merge)
    ([classify] ++ (keyed_node <$> branches) ++ [merge]) edges.

Definition verified_graph : checked json :=
  work ← parseNode (get_own (js "work") input) (js "#/work");
  verifiers ← parseKeyedNodes (get_own (js "verifiers") input) (js "#/verifiers");
  adjudicate ← parseNode (get_own (js "adjudicate") input) (js "#/adjudicate");
  _ ← assertUniqueNodeIds ([(work, js "#/work")] ++ refs verifiers ++ [(adjudicate, js "#/adjudicate")]);
  let edges :=
    imap (λ i verifier, edge VerifiedFanout (1 + i) (id_of work) (id_of (keyed_node verifier)) None None) verifiers ++
    imap (λ i verifier,
      edge VerifiedFanout (1 + length verifiers + i) (id_of (keyed_node verifier)) (id_of adjudicate)
        (Some (keyed_key verifier)) None) verifiers in
  buildGraph hash input (IDENTITIES VerifiedFanout) (id_of work) (id_of adjudicate)
    ([work] ++ (keyed_node <$> verifiers) ++ [adjudicate]) edges.

(** *** Loops *)

Record ParsedRound := { round_key : jsstr; round_find : node; round_checkDry : node }.

(** The callback of [parseRounds], with the keys it has seen *)
Fixpoint parse_rounds (index : nat) (keys : list jsstr) (items : list json) : checked (list ParsedRound) :=
  match items with
  | [] => Ok []
  | item :: items =>
      let itemPath := js "#/rounds/" ++ string_of_nat index in
      round ← expectRecord (Some item) itemPath;
      _ ← assertEntryFields round [js "key"; js "find"; js "checkDry"] itemPath;
      key ← safeKey (get_own (js "key") round) (itemPath ++ js "/key") (js "round key");
      if bool_decide (key ∈ keys) then duplicate_key (js "round key") key (itemPath ++ js "/key")
      else
        find ← parseNode (get_own (js "find") round) (itemPath ++ js "/find");
        checkDry ← parseNode (get_own (js "checkDry") round) (itemPath ++ js "/checkDry");
        rest ← parse_rounds (S index) (set_add key keys) items;
        Ok (Build_ParsedRound key find checkDry :: rest)
  end.

Definition parseRounds (value : option json) : checked (list ParsedRound) :=
  items ← collection value (js "#/rounds") (js "round") (js "rounds");
  parse_rounds 0 [] items.

(** [typeof maxRounds === "number"], a safe integer from 1 to [MAX_PATTERN_ITEMS] *)
Definition parse_maxRounds (value : option json) : checked num :=
  let rejected := reject GE_PATTERN_INVALID_MAX_ROUNDS
    (js "maxRounds must be an integer from 1 through " ++ string_of_nat MAX_PATTERN_ITEMS) (js "#/maxRounds") in
  match value with
  | Some (JNum n) =>
      if num_safe_integer n && negb (num_ltb n (num_of_Z 1)) && negb (num_ltb (num_of_Z (Z.of_nat MAX_PATTERN_ITEMS)) n)
      then Ok n else rejected
  | _ => rejected
  end.

Definition loop_condition (kind : jsstr) (maxRounds : num) (index : nat) (key : jsstr) : json :=
  JObj [(js "apiVersion", JStr ANNOTATION_API_VERSION); (js "kind", JStr kind); (js "maxRounds", JNum maxRounds);
        (js "round", JNum (num_of_Z (Z.of_nat (index + 1)))); (js "roundKey", JStr key)].

(** The loop over the rounds from [index] on; the next edge has the number [edgeIndex] *)
Fixpoint loop_edges (maxRounds : num) (finalize : jsstr) (index edgeIndex : nat) (rounds : list ParsedRound)
    : list json :=
  match rounds with
  | [] => []
  | round :: rest =>
      let verdict := match rest with [] => js "LoopVerdictAtBound" | _ => js "LoopDryVerdict" end in
      [edge LoopUntilDry edgeIndex (id_of (round_find round)) (id_of (round_checkDry round))
         (Some (js "items")) None;
       edge LoopUntilDry (edgeIndex + 1) (id_of (round_checkDry round)) finalize (Some (round_key round))
         (Some (loop_condition verdict maxRounds index (round_key round)))] ++
      match rest with
      | [] => []
      | next :: _ =>
          edge LoopUntilDry (edgeIndex + 2) (id_of (round_checkDry round)) (id_of (round_find next))
            (Some (js "previousVerdict"))
            (Some (loop_condition (js "LoopContinue") maxRounds index (round_key round))) ::
          loop_edges maxRounds finalize (S index) (edgeIndex + 3) rest
      end
  end.

Definition round_refs (rounds : list ParsedRound) : list (node * jsstr) :=
  concat (imap (λ index round,
    [(round_find round, js "#/rounds/" ++ string_of_nat index ++ js "/find");
     (round_checkDry round, js "#/rounds/" ++ string_of_nat index ++ js "/checkDry")]) rounds).

Definition loop_graph : checked json :=
  maxRounds ← parse_maxRounds (get_own (js "maxRounds") input);
  rounds ← parseRounds (get_own (js "rounds") input);
  if negb (num_eqb (num_of_Z (Z.of_nat (length rounds))) maxRounds) then
    reject GE_PATTERN_ROUND_COUNT_MISMATCH
      (js "rounds.length " ++ string_of_nat (length rounds) ++ js " must equal maxRounds " ++ string_of_num maxRounds)
      (js "#/rounds")
  else
    finalize ← parseNode (get_own (js "finalize") input) (js "#/finalize");
    _ ← assertUniqueNodeIds (round_refs rounds ++ [(finalize, js "#/finalize")]);
    buildGraph hash input (IDENTITIES LoopUntilDry) (match rounds with r :: _ => id_of (round_find r) | [] => [] end)
      (id_of finalize) ((rounds ≫= λ round, [round_find round; round_checkDry round]) ++ [finalize])
      (loop_edges maxRounds (id_of finalize) 0 1 rounds).
End with_options.

(** ** The exported functions *)

Definition diamond (h : heap) (options : value) : checked json :=
  input ← snapshotOptions h options (fields [js "split"; js "workers"; js "merge"]);
  diamond_graph input.

Definition routedBranches (h : heap) (options : value) : checked json :=
  input ← snapshotOptions h options (fields [js "classify"; js "branches"; js "merge"]);
  routed_graph input.

Definition verifiedFanout (h : heap) (options : value) : checked json :=
  input ← snapshotOptions h options (fields [js "work"; js "verifiers"; js "adjudicate"]);
  verified_graph input.

Definition loopUntilDry (h : heap) (options : value) : checked json :=
  input ← snapshotOptions h options (fields [js "maxRounds"; js "rounds"; js "finalize"]);
  loop_graph input.
End builders.
