(* ===== verification/PatternGraph.v ===== *)
(** * The graph a pattern assembles

    The core reads the assembled document back as a typed graph: its nodes are the
    parsed nodes in order, its edges the links the builder wrote, its entrypoint and
    output the nodes the builder named.  A [link] is an edge before it is written. *)
From S2P Require Import Prelude JsString JsNumber JsValue Canonical CanonicalSpec NumberText.
From S2P Require Import JsonRoundTrip ParsedJson JsonValues SchemaValidation GraphIR Compiler CompilerSpec.
From S2P Require Import PatternInternal PatternSnapshot Patterns.
#[local] Arguments js : simpl never.

(** ** Well-formed trees *)

Create HintDb patterns.

(** A literal of the source *)
Lemma str_wf_lit s : forallb (λ u, (u <? 65536)%N) s = true → str_wf s.
Proof. rewrite forallb_Forall. intros H. eapply Forall_impl; [exact H|]. intros u Hu. cbv beta in Hu. by bool_hyps. Qed.
#[local] Hint Extern 1 (str_wf (js _)) => (apply str_wf_lit; vm_compute; reflexivity) : patterns.
#[local] Hint Extern 1 (str_wf API_VERSION) => (apply str_wf_lit; vm_compute; reflexivity) : patterns.
#[local] Hint Extern 1 (str_wf PATTERN_LABEL) => (apply str_wf_lit; vm_compute; reflexivity) : patterns.
#[local] Hint Extern 1 (str_wf CAPABILITY_LABEL) => (apply str_wf_lit; vm_compute; reflexivity) : patterns.
#[local] Hint Extern 1 (str_wf ANNOTATION_API_VERSION) => (apply str_wf_lit; vm_compute; reflexivity) : patterns.

Lemma json_ok_JStr s : str_wf s → json_ok (JStr s).
Proof. apply json_ok_str. Qed.
Lemma json_ok_JArr items : Forall json_ok items → json_ok (JArr items).
Proof. apply json_ok_arr. Qed.

(** An object with the keys of the source *)
Lemma json_ok_record keys props :
  props.*1 = keys → bool_decide (NoDup keys) && forallb (forallb (λ u, (u <? 65536)%N)) keys = true →
  Forall json_ok props.*2 → json_ok (JObj props).
Proof.
  intros <- H Hj. bool_hyps. apply bool_decide_eq_true in H. apply json_ok_obj. split_and!; [done| |by apply (Forall_fmap snd json_ok)].
  rewrite forallb_Forall in H0. eapply Forall_impl; [exact H0|]. intros k. apply str_wf_lit.
Qed.
Ltac json_record :=
  eapply json_ok_record; [reflexivity|vm_compute; reflexivity|]; csimpl; repeat apply Forall_cons_2; try apply Forall_nil_2.

Lemma json_ok_get_own k props j : json_ok (JObj props) → get_own k props = Some j → json_ok j.
Proof.
  intros (_ & _ & Hall)%json_ok_obj Hk. apply map_get_Some_elem in Hk.
  rewrite Forall_forall in Hall. exact (Hall _ Hk).
Qed.

Lemma json_ok_map_set k j props : json_ok (JObj props) → str_wf k → json_ok j → json_ok (JObj (map_set k j props)).
Proof.
  intros (Hnd & Hwf & Hall)%json_ok_obj Hk Hj. apply json_ok_obj. split_and!; [by apply map_set_NoDup| |].
  - rewrite Forall_forall in Hwf. apply Forall_forall. intros x [->|Hx]%map_set_keys_elem; [done|auto].
  - apply Forall_forall. intros [x jx] Hx. rewrite Forall_forall in Hall.
    apply (map_get_NoDup x jx) in Hx; [|by apply map_set_NoDup]. rewrite map_get_set in Hx.
    case_decide; [by injection Hx as <-|]. apply map_get_Some_elem in Hx. exact (Hall _ Hx).
Qed.

(** ** What the checks return *)

Lemma expectRecord_Ok v path props : expectRecord v path = Ok props ↔ v = Some (JObj props).
Proof. unfold expectRecord, invalidInput, reject. split; [|by intros ->]. destruct v as [[]|]; congruence. Qed.

Lemma safeKey_Ok v path d k : safeKey v path d = Ok k → v = Some (JStr k) ∧ KEY_IDENTIFIER k = true ∧ k ∉ RESERVED_KEYS.
Proof.
  unfold safeKey, reject. intros H. destruct v as [[| | |s| |]|]; try done.
  split_if in H as Hs; [|done]. inv_ok. bool_hyps. by apply bool_decide_eq_false in H0.
Qed.

(** A parsed node: a tree with an identifier *)
Definition node_spec (n : node) : Prop := json_ok (JObj n) ∧ ∃ s, get_own (js "id") n = Some (JStr s).

Lemma id_of_Some n : node_spec n → get_own (js "id") n = Some (JStr (id_of n)) ∧ str_wf (id_of n).
Proof.
  intros [Hn [s Hs]]. unfold id_of. rewrite Hs. split; [done|]. apply json_ok_str. by eapply json_ok_get_own.
Qed.

Lemma parseNode_Ok v path n : parseNode v path = Ok n → (∀ j, v = Some j → json_ok j) → node_spec n.
Proof.
  unfold parseNode, reject. intros H Hv. inv_ok. apply expectRecord_Ok in E as ->.
  destruct (get_own (js "id") a) as [[| | |s| |]|] eqn:Hid; try done.
  destruct (IDENTIFIER s); [|done]. inv_ok. split; [by apply Hv|by exists s].
Qed.

Lemma parseNode_get_own input k path n :
  json_ok (JObj input) → parseNode (get_own k input) path = Ok n → node_spec n.
Proof. intros Hin Hn. eapply parseNode_Ok; [exact Hn|]. intros j. by apply json_ok_get_own. Qed.

Lemma snapshot_again_ok j path j' : json_ok j → snapshot_again j path = Ok j' → json_ok j'.
Proof.
  unfold snapshot_again, portableSnapshot. intros Hj H. pose proof (value_of_json_spec j) as Hspec.
  destruct (value_of_json j) as [h v]. destruct Hspec as [_ Hspec]. destruct (Hspec (json_ok_parsed _ Hj)) as (Hh & Hd & Hv).
  by eapply snapshotValue_json_ok.
Qed.

Lemma reserve_labels_ok required labels labels' :
  Forall (λ p, str_wf p.1 ∧ str_wf p.2) required → json_ok (JObj labels) →
  reserve_labels required labels = Ok labels' → json_ok (JObj labels').
Proof.
  intros Hall. revert labels. induction Hall as [|[k v] required [Hk Hv] _ IH]; intros labels Hl H; cbn [reserve_labels] in H.
  - by inv_ok.
  - split_if in H as Hc; [done|]. apply (IH _ (json_ok_map_set _ _ _ Hl Hk (json_ok_JStr _ Hv)) H).
Qed.

Lemma identity_wf kind : str_wf (identity_pattern (IDENTITIES kind)) ∧ str_wf (identity_capability (IDENTITIES kind)).
Proof. destruct kind; split; apply str_wf_lit; vm_compute; reflexivity. Qed.

Lemma metadataWithIdentity_ok input k kind j :
  json_ok (JObj input) → metadataWithIdentity (get_own k input) (IDENTITIES kind) = Ok j → json_ok j.
Proof.
  intros Hin H. unfold metadataWithIdentity in H. inv_ok. apply expectRecord_Ok in E.
  apply json_ok_get_own in E; [|done]. split_if in H as Hn; [done|]. inv_ok.
  assert (json_ok (JObj a0)) as Ha0.
  { destruct (get_own (js "labels") a) as [l|] eqn:Hl; [|by inv_ok].
    apply expectRecord_Ok in E0 as [= ->]. by eapply json_ok_get_own. }
  apply reserve_labels_ok in E1; [| |done].
  - apply snapshot_again_ok in E2; [|done]. eapply snapshot_again_ok; [|exact H].
    apply json_ok_map_set; auto with patterns.
  - destruct (identity_wf kind). repeat constructor; simpl; auto with patterns.
Qed.

Lemma optionalRecord_ok input k path j :
  json_ok (JObj input) → optionalRecord (get_own k input) path = Ok (Some j) → json_ok j.
Proof.
  intros Hin H. unfold optionalRecord in H. destruct (get_own k input) as [v|] eqn:E; [|done].
  inv_ok. apply expectRecord_Ok in E0 as [= ->]. by eapply json_ok_get_own.
Qed.

(** ** The document *)

(** What [assemble] writes, field by field *)
Definition document (graph : json) (entrypoint exit : jsstr) (nodes : list node) (edges : list json) : Prop :=
  ∃ props key, graph = JObj props ∧ NoDup props.*1 ∧
    get_own (js "entrypoints") props = Some (JArr [JStr entrypoint]) ∧
    get_own (js "outputs") props = Some (JObj [(key, JObj [(js "node", JStr exit)])]) ∧
    get_own (js "nodes") props = Some (JArr (JObj <$> nodes)) ∧
    get_own (js "edges") props = Some (JArr edges).

Lemma KEY_IDENTIFIER_wf k : KEY_IDENTIFIER k = true → str_wf k.
Proof.
  unfold KEY_IDENTIFIER, matches_ident. destruct k as [|c k]; [done|]. intros H. bool_hyps.
  assert (∀ u, is_ident_char u = true → (u < 65536)%N) as Hu.
  { intros u Hu. unfold is_ident_char, is_alnum, is_alpha, is_lower, is_upper, is_digit in Hu.
    rewrite !orb_true_iff, !andb_true_iff, !N.leb_le, ?N.eqb_eq in Hu. lia. }
  constructor.
  - apply Hu. unfold is_ident_char, is_alnum. by rewrite H.
  - rewrite forallb_Forall in H1. eapply Forall_impl; [exact H1|done].
Qed.

Lemma assemble_Ok input kind entrypoint exit nodes edges graph :
  assemble input (IDENTITIES kind) entrypoint exit nodes edges = Ok graph →
  document graph entrypoint exit nodes edges ∧
  (json_ok (JObj input) → str_wf entrypoint → str_wf exit → Forall node_spec nodes → Forall json_ok edges → json_ok graph).
Proof.
  intros H. unfold assemble in H. inv_ok. split.
  - eexists _, a. split; [reflexivity|]. destruct a2, a3; (split; [apply (bool_decide_unpack _); vm_compute; exact I|done]).
  - intros Hin He Hx Hn Hedges.
    assert (str_wf a) as Ha.
    { destruct (get_own (js "outputKey") input) as [v|]; [|inv_ok; auto with patterns].
      apply safeKey_Ok in E as (_ & Hk & _). by apply KEY_IDENTIFIER_wf. }
    assert (∀ k path o, optionalRecord (get_own k input) path = Ok o → when_present json_ok o) as Hopt.
    { intros k path [j|] Hj; [by eapply optionalRecord_ok|done]. }
    apply Hopt in E0, E1, E2, E3. apply metadataWithIdentity_ok in E4; [|done].
    assert (∀ o, when_present json_ok o → json_ok (default (JObj [(js "type", JStr (js "object"))]) o)) as Hdef.
    { intros [j|] Hj; [done|]. json_record. apply json_ok_JStr. auto with patterns. }
    assert (json_ok (JArr (JObj <$> nodes))).
    { apply json_ok_JArr, Forall_fmap. eapply Forall_impl; [exact Hn|]. by intros n [? _]. }
    assert (json_ok (JObj [(a, JObj [(js "node", JStr exit)])])).
    { apply json_ok_obj. split_and!; [apply NoDup_singleton|by repeat constructor|]. constructor; [|constructor].
      simpl. json_record. by apply json_ok_JStr. }
    destruct a2, a3; json_record; auto using json_ok_JArr, json_ok_JStr, Forall_cons_2, Forall_nil_2 with patterns.
Qed.

(** ** Edges *)

(** An edge before it is written, without its number *)
Record link := Link { link_from : jsstr; link_to : jsstr; link_port : option jsstr; link_condition : option json }.
Definition link_pair (l : link) : jsstr * jsstr := (link_from l, link_to l).

(** The edges of the links, numbered from [n] *)
Definition write_from (kind : PatternKind) (n : nat) (links : list link) : list json :=
  imap (λ i l, edge kind (n + i) (link_from l) (link_to l) (link_port l) (link_condition l)) links.

Definition link_ok (l : link) : Prop :=
  str_wf (link_from l) ∧ str_wf (link_to l) ∧ when_present str_wf (link_port l) ∧
  when_present json_ok (link_condition l).

Lemma edgeId_wf kind i : str_wf (edgeId kind i).
Proof.
  unfold edgeId, pad_start, str_wf. rewrite !Forall_app. split_and!; [| | |apply Forall_replicate; lia|apply string_of_N_wf].
  - apply str_wf_lit; vm_compute; reflexivity.
  - destruct kind; apply str_wf_lit; vm_compute; reflexivity.
  - apply str_wf_lit; vm_compute; reflexivity.
Qed.

#[export] Instance edgeId_inj kind : Inj (=) (=) (edgeId kind).
Proof.
  intros i j H. unfold edgeId in H. do 3 apply app_inv_head in H.
  assert (∀ k s, parse_digits 0 (replicate k 48%N ++ s) = parse_digits 0 s) as Hp.
  { intros k s. induction k as [|k IH]; [done|]. exact IH. }
  unfold pad_start in H. apply (f_equal (parse_digits 0)) in H. rewrite !Hp in H.
  unfold string_of_nat in H. rewrite !parse_string_of_N in H. injection H as H. lia.
Qed.

Lemma edge_json_ok kind i l :
  link_ok l → json_ok (edge kind i (link_from l) (link_to l) (link_port l) (link_condition l)).
Proof.
  intros (Hf & Ht & Hp & Hc). pose proof (edgeId_wf kind i).
  assert (json_ok (JObj [(js "node", JStr (link_from l))])) by (json_record; by apply json_ok_JStr).
  assert (json_ok (JObj ((js "node", JStr (link_to l)) :: spread (js "port") (JStr <$> link_port l)))).
  { destruct (link_port l); json_record; by apply json_ok_JStr. }
  unfold edge. destruct (link_condition l); json_record; auto using json_ok_JStr with patterns.
Qed.

Lemma write_from_ok kind n links : Forall link_ok links → Forall json_ok (write_from kind n links).
Proof.
  intros Hl. apply Forall_lookup. intros i e He. unfold write_from in He. rewrite list_lookup_imap in He.
  apply fmap_Some in He as (l & Hi & ->). apply edge_json_ok. exact (Forall_lookup_1 _ _ _ _ Hl Hi).
Qed.

(** ** Reading the document back *)

Lemma canonical_get props k j :
  NoDup props.*1 → get_own k props = Some j → get_own k (canonical_props props) = Some (canonical_form j).
Proof. intros Hnd Hk. by rewrite get_own_canonical, Hk. Qed.

Lemma field_at {A} {k} {dec : json → option A} {props j} : get_own k props = Some j → field k dec props = dec j.
Proof. unfold field. by intros ->. Qed.

Lemma as_record_obj allowed v props : as_record allowed v = Some props → v = JObj props.
Proof. unfold as_record. destruct v; simpl; try done. intros H. by case_match; simplify_eq. Qed.

Lemma endpoint_fields v e :
  endpoint_of_json v = Some e → ∃ props, v = JObj props ∧ field (js "node") as_string props = Some (endpoint_node e) ∧
    opt_field (js "port") as_string props = Some (endpoint_port e).
Proof.
  unfold endpoint_of_json. intros H. simplify_option_eq. eexists. split; [by eapply as_record_obj|done].
Qed.

Lemma edge_fields v e :
  edge_of_json v = Some e → ∃ props, v = JObj props ∧ field (js "id") as_string props = Some (edge_id e) ∧
    field (js "from") endpoint_of_json props = Some (edge_from e) ∧
    field (js "to") endpoint_of_json props = Some (edge_to e).
Proof.
  unfold edge_of_json. intros H. simplify_option_eq. eexists. split; [by eapply as_record_obj|done].
Qed.

Lemma node_fields v n : node_of_json v = Some n → ∃ props, v = JObj props ∧ field (js "id") as_string props = Some (node_id n).
Proof.
  unfold node_of_json. intros H. simplify_option_eq. eexists. split; [by eapply as_record_obj|done].
Qed.

Lemma graph_fields v g :
  graph_of_json v = Some g → ∃ props, v = JObj props ∧
    field (js "entrypoints") (λ v, as_array v ≫= mapM as_string) props = Some (graph_entrypoints g) ∧
    field (js "outputs") (as_map endpoint_of_json) props = Some (graph_outputs g) ∧
    field (js "nodes") (λ v, as_array v ≫= mapM node_of_json) props = Some (graph_nodes g) ∧
    field (js "edges") (λ v, as_array v ≫= mapM edge_of_json) props = Some (graph_edges g).
Proof.
  unfold graph_of_json. intros H. simplify_option_eq. eexists. split; [by eapply as_record_obj|done].
Qed.

(** An edge that carries the whole output of a link's source to its port *)
Definition edge_of_link (l : link) (e : EdgeSpec) : Prop :=
  edge_source e = link_from l ∧ edge_target e = link_to l ∧
  endpoint_port (edge_from e) = None ∧ endpoint_port (edge_to e) = link_port l.

Lemma decode_edge kind i from to port condition e :
  edge_of_json (canonical_form (edge kind i from to port condition)) = Some e →
  edge_id e = edgeId kind i ∧ edge_of_link (Link from to port condition) e.
Proof.
  unfold edge. change (canonical_form (JObj ?p)) with (JObj (canonical_props p)).
  set (target := (js "node", JStr to) :: spread (js "port") (JStr <$> port)).
  assert (NoDup target.*1) as Ht by (destruct port; apply (bool_decide_unpack _); vm_compute; exact I).
  set (props := _ ++ _). assert (NoDup props.*1) as Hp by (destruct condition; apply (bool_decide_unpack _); vm_compute; exact I).
  assert (get_own (js "id") (canonical_props props) = Some (JStr (edgeId kind i))) as Hid by (by apply (canonical_get props _ (JStr _))).
  assert (get_own (js "from") (canonical_props props) = Some (JObj (canonical_props [(js "node", JStr from)]))) as Hfrom
    by (by apply (canonical_get props _ (JObj _))).
  assert (get_own (js "to") (canonical_props props) = Some (JObj (canonical_props target))) as Hto
    by (by apply (canonical_get props _ (JObj _))).
  intros H. apply edge_fields in H as (? & [= <-] & Fid & Ff & Ft).
  rewrite (field_at Hid) in Fid. rewrite (field_at Hfrom) in Ff. rewrite (field_at Hto) in Ft.
  unfold edge_of_link, edge_source, edge_target.
  apply endpoint_fields in Ff as (? & [= <-] & Ff & Pf), Ft as (? & [= <-] & Ft & Pt).
  rewrite (field_at (canonical_get [(js "node", JStr from)] (js "node") (JStr from) (NoDup_singleton _) eq_refl)) in Ff.
  rewrite (field_at (canonical_get target (js "node") (JStr to) Ht eq_refl)) in Ft. unfold opt_field in Pf, Pt.
  rewrite get_own_canonical in Pf by apply NoDup_singleton. rewrite get_own_canonical in Pt by done.
  destruct port; simpl in *; naive_solver.
Qed.

Lemma decode_edges kind n links es :
  mapM edge_of_json (canonical_form <$> write_from kind n links) = Some es →
  edge_pairs es = link_pair <$> links ∧ edge_id <$> es = edgeId kind <$> seq n (length links) ∧
  Forall2 edge_of_link links es.
Proof.
  unfold write_from. intros H. apply mapM_Some in H. apply Forall2_fmap_l in H. revert n es H.
  induction links as [|l links IH]; intros n es H; csimpl in *.
  - apply Forall2_nil_inv_l in H as ->. done.
  - apply Forall2_cons_inv_l in H as (e & es' & He & Hes & ->).
    rewrite (imap_ext _ (λ i l, edge kind (S n + i) (link_from l) (link_to l) (link_port l) (link_condition l))) in Hes
      by (intros; simpl; by rewrite Nat.add_succ_r).
    apply IH in Hes as (Hp & Hi & Hl). apply decode_edge in He as (Hid & He). csimpl.
    rewrite Hp, Hi, Hid, Nat.add_0_r. split_and!; [|done|by constructor]. destruct He as (-> & -> & _). done.
Qed.

Lemma decode_nodes nodes ns :
  Forall node_spec nodes → mapM node_of_json (canonical_form <$> (JObj <$> nodes)) = Some ns →
  node_id <$> ns = id_of <$> nodes.
Proof.
  intros Hn H. apply mapM_Some in H. rewrite <- list_fmap_compose in H. apply Forall2_fmap_l in H.
  induction H as [|n n' nodes ns Hdec _ IH]; [done|]. apply Forall_cons in Hn as [Hn Hns]. csimpl.
  rewrite IH by done. f_equal. apply node_fields in Hdec as (? & [= <-] & Hid).
  pose proof (proj1 (id_of_Some n Hn)) as Hget. destruct Hn as [(Hnd & _)%json_ok_obj _].
  rewrite (field_at (canonical_get _ _ _ Hnd Hget)) in Hid. simpl in Hid. congruence.
Qed.

Lemma canonical_single k j : canonical_props [(k, j)] = [(k, canonical_form j)].
Proof. apply Permutation_singleton_r, canonical_props_perm. Qed.

(** The typed graph that the core reads from a document *)
Lemma decode_document graph entrypoint exit nodes kind links h v j g :
  document graph entrypoint exit nodes (write_from kind 1 links) → Forall node_spec nodes →
  heap_wf h → represents h v graph → portable h v j → graph_of_json j = Some g →
  graph_ids g = id_of <$> nodes ∧ graph_pairs g = link_pair <$> links ∧
  edge_id <$> graph_edges g = edgeId kind <$> seq 1 (length links) ∧
  graph_entrypoints g = [entrypoint] ∧ (λ p, endpoint_node p.2) <$> graph_outputs g = [exit] ∧
  Forall2 edge_of_link links (graph_edges g).
Proof.
  intros (props & key & -> & Hnd & He & Ho & Hn & Hedges) Hnodes Hh Hr Hp Hg.
  rewrite (represents_portable h v _ j Hh Hr Hp) in Hg.
  apply graph_fields in Hg as (? & [= <-] & Fe & Fo & Fn & Fedges).
  rewrite (field_at (canonical_get _ _ _ Hnd He)) in Fe. rewrite (field_at (canonical_get _ _ _ Hnd Ho)) in Fo.
  rewrite (field_at (canonical_get _ _ _ Hnd Hn)) in Fn. rewrite (field_at (canonical_get _ _ _ Hnd Hedges)) in Fedges.
  cbn [canonical_form as_array mbind option_bind] in Fn, Fedges.
  apply decode_edges in Fedges as (Hpairs & Hids & Hlinks). apply decode_nodes in Fn; [|done].
  split_and!; [exact Fn|exact Hpairs|exact Hids|by injection Fe as <-| |exact Hlinks].
  change (canonical_form (JObj ?p)) with (JObj (canonical_props p)) in Fo.
  rewrite canonical_single in Fo. unfold as_map in Fo. cbn [record mbind option_bind mapM fst snd] in Fo.
  destruct (endpoint_of_json _) as [e|] eqn:Ee; [|done]. injection Fo as <-. csimpl.
  change (canonical_form (JObj ?p)) with (JObj (canonical_props p)) in Ee.
  rewrite canonical_single in Ee. apply endpoint_fields in Ee as (? & [= <-] & [= ->] & _). done.
Qed.
