(* ===== verification/PatternsSpec.v ===== *)
(** * The builders, step by step

    Every builder parses its options into parts, writes a document from them, and
    submits it to the core.  The parts satisfy what the checks promise; the core's
    verdict on the document depends on the schema and the policies only. *)
From S2P Require Import Prelude JsString JsNumber JsValue Canonical CanonicalSpec NumberText.
From S2P Require Import JsonRoundTrip ParsedJson JsonValues SchemaValidation Dag GraphIR Compiler CompilerSpec.
From S2P Require Import PatternShapes PatternInternal PatternSnapshot Patterns PatternGraph.
#[local] Arguments js : simpl never.

(** ** Parsing *)

Lemma collection_Ok v path what some items :
  collection v path what some = Ok items → v = Some (JArr items) ∧ 0 < length items ≤ 100.
Proof.
  unfold collection, invalidInput, reject. intros H. destruct v as [[| | | |l|]|]; try done.
  split_if in H as H0; [done|]. split_if in H as H1; [done|]. inv_ok. bool_hyps.
  unfold MAX_PATTERN_ITEMS in *. split; [done|lia].
Qed.

Lemma collection_accepts items path what some :
  0 < length items ≤ 100 → collection (Some (JArr items)) path what some = Ok items.
Proof.
  intros Hlen. unfold collection, MAX_PATTERN_ITEMS.
  by rewrite (proj2 (Nat.eqb_neq _ _)), (proj2 (Nat.ltb_ge _ _)) by lia.
Qed.

(** What an accepted entry is *)
Definition keyed_spec (p : ParsedKeyedNode) : Prop :=
  node_spec (keyed_node p) ∧ KEY_IDENTIFIER (keyed_key p) = true ∧ keyed_key p ∉ RESERVED_KEYS.

Lemma parse_items_Ok path i keys items ps :
  Forall json_ok items → parse_items path i keys items = Ok ps →
  Forall keyed_spec ps ∧ NoDup (keyed_key <$> ps) ∧ (∀ k, k ∈ keyed_key <$> ps → k ∉ keys) ∧ length ps = length items.
Proof.
  intros Hj. revert i keys ps. induction Hj as [|item items Hitem _ IH]; intros i keys ps H; cbn [parse_items] in H.
  - inv_ok. split_and!; [constructor|constructor|by intros k ?%not_elem_of_nil|done].
  - inv_ok. apply expectRecord_Ok in E as [= ->]. apply safeKey_Ok in E1 as (_ & Hkey & Hres).
    case_bool_decide as Hin; [done|]. inv_ok. apply parseNode_get_own in E; [|done].
    apply IH in E1 as (Hall & Hnd & Hnew & Hlen). csimpl. split_and!.
    + by constructor.
    + constructor; [|done]. intros Hk. apply (Hnew _ Hk). apply elem_of_set_add. auto.
    + intros k [->|Hk]%elem_of_cons; [done|]. intros Hk'. apply (Hnew _ Hk). apply elem_of_set_add. auto.
    + by f_equal.
Qed.

#[export] Instance compare_keyed_comparator : Comparator compare_keyed.
Proof. split; unfold cmp_le, compare_keyed; intros; [apply comparator_total|by eapply comparator_trans]. Qed.

Lemma parseKeyedNodes_Ok input k path ps :
  json_ok (JObj input) → parseKeyedNodes (get_own k input) path = Ok ps →
  Forall keyed_spec ps ∧ NoDup (keyed_key <$> ps) ∧ StronglySorted (cmp_le compare_keyed) ps ∧ 0 < length ps ≤ 100.
Proof.
  intros Hin H. unfold parseKeyedNodes in H. inv_ok. apply collection_Ok in E as [Hget Hlen].
  apply json_ok_get_own in Hget; [|done]. apply json_ok_arr in Hget.
  apply parse_items_Ok in E0 as (Hall & Hnd & _ & Hl); [|done].
  split_and!; [by rewrite sort_by_Permutation|by rewrite sort_by_Permutation|apply sort_by_sorted, _| |];
    rewrite sort_by_length; lia.
Qed.

Lemma unique_from_Ok seen nodes :
  unique_from seen nodes = Ok () ↔ NoDup (id_of <$> nodes.*1) ∧ ∀ i, i ∈ id_of <$> nodes.*1 → i ∉ seen.
Proof.
  revert seen. induction nodes as [|[n path] nodes IH]; intros seen; cbn [unique_from].
  - split; [|done]. intros _. split; [constructor|by intros i ?%not_elem_of_nil].
  - case_bool_decide as Hin; csimpl; [split; [done|]|].
    + intros [_ H]. by destruct (H (id_of n) ltac:(left)).
    + rewrite IH, NoDup_cons. setoid_rewrite elem_of_set_add. setoid_rewrite elem_of_cons. naive_solver.
Qed.

Lemma assertUniqueNodeIds_Ok nodes u : assertUniqueNodeIds nodes = Ok u → NoDup (id_of <$> nodes.*1).
Proof. destruct u. intros H. by apply unique_from_Ok in H as [? _]. Qed.

Lemma refs_nodes items : (refs items).*1 = keyed_node <$> items.
Proof. unfold refs. by rewrite <- list_fmap_compose. Qed.

(** ** Fans: split, branches or verifiers, merge *)

Definition fan_names (kind : PatternKind) : string * string * string :=
  match kind with
  | Diamond | LoopUntilDry => ("split", "workers", "merge")
  | RoutedBranches => ("classify", "branches", "merge")
  | VerifiedFanout => ("work", "verifiers", "adjudicate")
  end%string.
Definition fan_condition (kind : PatternKind) (key : jsstr) : option json :=
  match kind with RoutedBranches => Some (route_equals key) | _ => None end.

(** The parts of a fan *)
Record fan_parts := FanParts { fan_entry : node; fan_items : list ParsedKeyedNode; fan_exit : node }.

Definition fan_inputs (kind : PatternKind) (input : list (jsstr * json)) : checked fan_parts :=
  let '(entry_name, items_name, exit_name) := fan_names kind in
  entry ← parseNode (get_own (js entry_name) input) (js "#/" ++ js entry_name);
  items ← parseKeyedNodes (get_own (js items_name) input) (js "#/" ++ js items_name);
  exit ← parseNode (get_own (js exit_name) input) (js "#/" ++ js exit_name);
  _ ← assertUniqueNodeIds
    ([(entry, js "#/" ++ js entry_name)] ++ refs items ++ [(exit, js "#/" ++ js exit_name)]);
  Ok (FanParts entry items exit).

Definition fan_links (kind : PatternKind) (p : fan_parts) : list link :=
  ((λ item, Link (id_of (fan_entry p)) (id_of (keyed_node item)) None (fan_condition kind (keyed_key item)))
    <$> fan_items p) ++
  ((λ item, Link (id_of (keyed_node item)) (id_of (fan_exit p)) (Some (keyed_key item)) None) <$> fan_items p).
Definition fan_nodes (p : fan_parts) : list node := fan_entry p :: (keyed_node <$> fan_items p) ++ [fan_exit p].

Definition fan_document (kind : PatternKind) (input : list (jsstr * json)) (p : fan_parts) : checked json :=
  assemble input (IDENTITIES kind) (id_of (fan_entry p)) (id_of (fan_exit p)) (fan_nodes p)
    (write_from kind 1 (fan_links kind p)).

(** The builder of a kind *)
Definition pattern_graph (hash : jsstr → jsstr) (kind : PatternKind) : list (jsstr * json) → checked json :=
  match kind with
  | Diamond => diamond_graph hash
  | RoutedBranches => routed_graph hash
  | VerifiedFanout => verified_graph hash
  | LoopUntilDry => loop_graph hash
  end.

Lemma fan_edges_written kind p :
  imap (λ i item, edge kind (1 + i) (id_of (fan_entry p)) (id_of (keyed_node item)) None
    (fan_condition kind (keyed_key item))) (fan_items p) ++
  imap (λ i item, edge kind (1 + length (fan_items p) + i) (id_of (keyed_node item)) (id_of (fan_exit p))
    (Some (keyed_key item)) None) (fan_items p) = write_from kind 1 (fan_links kind p).
Proof.
  unfold write_from, fan_links. rewrite imap_app, !imap_fmap, length_fmap. f_equal.
Qed.

(** Paths are written in one piece in the source. *)
Ltac join_path name := let path := eval vm_compute in ("#/" ++ name)%string in change (js "#/" ++ js name) with (js path).

(** The first check of two equal sequences of checks *)
Ltac next_check := match goal with |- mbind _ ?m = _ => destruct m as [?|?]; [cbn [mbind result_bind]|done] end.

Lemma fan_graph_steps hash kind input :
  kind ≠ LoopUntilDry →
  pattern_graph hash kind input =
    (p ← fan_inputs kind input; graph ← fan_document kind input p; compiled hash graph).
Proof.
  intros Hk. unfold fan_inputs.
  destruct kind; [| | |done]; cbn [pattern_graph fan_names]; unfold diamond_graph, routed_graph, verified_graph;
    [join_path "split"%string; join_path "workers"%string; join_path "merge"%string
    |join_path "classify"%string; join_path "branches"%string; join_path "merge"%string
    |join_path "work"%string; join_path "verifiers"%string; join_path "adjudicate"%string];
    do 4 next_check;
    unfold buildGraph, fan_document;
    [rewrite <- (fan_edges_written Diamond)|rewrite <- (fan_edges_written RoutedBranches)|
     rewrite <- (fan_edges_written VerifiedFanout)]; done.
Qed.

(** What the checks establish of the parts *)
Record fan_spec (p : fan_parts) : Prop := {
  fan_spec_nodes : Forall node_spec (fan_nodes p);
  fan_spec_ids : NoDup (id_of <$> fan_nodes p);
  fan_spec_items : Forall keyed_spec (fan_items p);
  fan_spec_keys : NoDup (keyed_key <$> fan_items p);
  fan_spec_sorted : StronglySorted (cmp_le compare_keyed) (fan_items p);
  fan_spec_count : 0 < length (fan_items p) ≤ 100
}.

Lemma fan_inputs_Ok kind input p : json_ok (JObj input) → fan_inputs kind input = Ok p → fan_spec p.
Proof.
  intros Hin H. unfold fan_inputs in H. destruct (fan_names kind) as [[entry_name items_name] exit_name]. inv_ok.
  apply parseNode_get_own in E, E1; [|done..].
  apply parseKeyedNodes_Ok in E0 as (Hall & Hnd & Hs & Hl); [|done].
  apply assertUniqueNodeIds_Ok in E2. rewrite !fmap_app, refs_nodes in E2.
  split; cbn [fan_nodes fan_items fan_entry fan_exit]; try done.
  - unfold fan_nodes. constructor; [done|]. apply Forall_app. split; [|by constructor].
    apply Forall_fmap. eapply Forall_impl; [exact Hall|]. by intros ? [? _].
  - unfold fan_nodes. csimpl. by rewrite fmap_app.
Qed.

Lemma fan_pairs_links kind p :
  link_pair <$> fan_links kind p =
    fan_pairs (id_of (fan_entry p)) (id_of (fan_exit p)) (id_of <$> (keyed_node <$> fan_items p)).
Proof. unfold fan_links, fan_pairs. rewrite fmap_app, <- !list_fmap_compose. done. Qed.

Lemma fan_ids p :
  id_of <$> fan_nodes p = id_of (fan_entry p) :: (id_of <$> (keyed_node <$> fan_items p)) ++ [id_of (fan_exit p)].
Proof. unfold fan_nodes. csimpl. by rewrite fmap_app. Qed.

(** ** The verdict of the core *)

(** The typed graph that the core reads from a document *)
Definition core_reads (graph : json) (g : GraphSpec) : Prop :=
  let '(h, v) := value_of_json graph in ∃ j, portable h v j ∧ graph_of_json j = Some g ∧ graph_ok g.
Definition core_result (hash : jsstr → jsstr) (graph : json) : CompilationResult :=
  let '(h, v) := value_of_json graph in compileGraph hash h v.

(** A builder returns the document or reports that the core rejects it. *)
Lemma compiled_cases hash graph :
  if valid (core_result hash graph) then compiled hash graph = Ok graph
  else ∃ message, compiled hash graph = Err (PatternInputError GE_PATTERN_CORE_REJECTED message (js "#")).
Proof.
  unfold core_result, compiled. destruct (value_of_json graph) as [h v].
  destruct (valid _); [done|]. unfold reject. eauto.
Qed.

Section verdict.
Context (hash : jsstr → jsstr) (graph : json) (kind : PatternKind).
Context (entry exit : jsstr) (nodes : list node) (links : list link) (rank : jsstr → nat) (top fan : nat).
Hypothesis Hdoc : document graph entry exit nodes (write_from kind 1 links).
Hypothesis Hnodes : Forall node_spec nodes.
Hypothesis Hok : json_ok graph.
Hypothesis Hshape : shape (id_of <$> nodes) (link_pair <$> links) rank entry exit top fan.

(** The graph that the core reads has the shape of the links. *)
Lemma core_reads_laid_out g :
  core_reads graph g →
  laid_out g rank entry top fan ∧ when_present policies_ok (graph_policies g) ∧ graph_ids g = id_of <$> nodes.
Proof using All.
  unfold core_reads. pose proof (value_of_json_spec graph) as Hspec. destruct (value_of_json graph) as [h v].
  destruct Hspec as [Hr Hwf]. destruct (Hwf (json_ok_parsed _ Hok)) as (Hh & _). intros (j & Hp & Hg & Hgok).
  destruct (decode_document graph entry exit nodes kind links h v j g Hdoc Hnodes Hh Hr Hp Hg)
    as (Hids & Hpairs & Heids & Hentry & Hout & _).
  destruct Hshape as [Hnd Hranked [Hin H0] Hx Hroot Hbelow Htop Hfan Hwide].
  split; [|split; [by unfold graph_ok in Hgok; tauto|done]].
  split; rewrite ?Hids, ?Hpairs; try done.
  - rewrite Heids. apply (NoDup_fmap_2 (edgeId kind)), NoDup_seq.
  - apply (Forall_fmap (λ p : jsstr * Endpoint, endpoint_node p.2) (.∈ id_of <$> nodes)). rewrite Hout. by constructor.
Qed.

Lemma core_verdict :
  (valid (core_result hash graph) = true ↔ ∃ g, core_reads graph g ∧ policies_allow g fan (S top)) ∧
  (valid (core_result hash graph) = true →
   topologicalLayers (core_result hash graph) =
     (λ k, filter (λ v, rank v = k) (id_of <$> nodes)) <$> seq 0 (S top)).
Proof using All.
  pose proof core_reads_laid_out as Hlaid. revert Hlaid.
  pose proof (value_of_json_spec graph) as Hspec. unfold core_reads, core_result.
  destruct (value_of_json graph) as [h v]. destruct Hspec as [Hr Hwf]. destruct (Hwf (json_ok_parsed _ Hok)) as (Hh & _). intros Hlaid.
  destruct (compileGraph_unfold hash h v Hh) as [(j & g & Hj & Hg & Hgok & ->)|(Hv & _ & Hn)].
  - destruct (Hlaid g) as (Hl & Hpol & Hids); [by exists j|].
    rewrite compile_graph_valid_iff, (laid_well_formed g rank entry top fan) by done. split.
    + split; [intros Hp; exists g; by split; [exists j|]|]. intros (g' & (j' & Hj' & Hg' & _) & Hp').
      rewrite (portable_functional h v j' j) in Hg' by done. congruence.
    + intros Hp. rewrite <- Hids. apply (laid_layers g rank entry top fan Hl).
      apply compile_graph_valid_iff; [done|]. by apply (laid_well_formed g rank entry top fan).
  - rewrite Hv. split; [|done]. split; [done|]. intros (g & (j & Hj & Hg & Hgok) & _). by destruct (Hn j g).
Qed.
End verdict.

(** ** Loops *)

Record loop_parts := LoopParts { loop_maxRounds : num; loop_rounds : list ParsedRound; loop_finalize : node }.

Definition loop_inputs (input : list (jsstr * json)) : checked loop_parts :=
  maxRounds ← parse_maxRounds (get_own (js "maxRounds") input);
  rounds ← parseRounds (get_own (js "rounds") input);
  if negb (num_eqb (num_of_Z (Z.of_nat (length rounds))) maxRounds) then
    reject GE_PATTERN_ROUND_COUNT_MISMATCH
      (js "rounds.length " ++ string_of_nat (length rounds) ++ js " must equal maxRounds " ++ string_of_num maxRounds)
      (js "#/rounds")
  else
    finalize ← parseNode (get_own (js "finalize") input) (js "#/finalize");
    _ ← assertUniqueNodeIds (round_refs rounds ++ [(finalize, js "#/finalize")]);
    Ok (LoopParts maxRounds rounds finalize).

(** The finders and checkers in the order of the rounds *)
Definition round_nodes (rounds : list ParsedRound) : list node :=
  rounds ≫= λ round, [round_find round; round_checkDry round].
Definition loop_nodes (p : loop_parts) : list node := round_nodes (loop_rounds p) ++ [loop_finalize p].
Definition loop_entry (p : loop_parts) : jsstr :=
  match loop_rounds p with r :: _ => id_of (round_find r) | [] => [] end.

Fixpoint loop_links (maxRounds : num) (finalize : jsstr) (index : nat) (rounds : list ParsedRound) : list link :=
  match rounds with
  | [] => []
  | round :: rest =>
      let verdict := match rest with [] => js "LoopVerdictAtBound" | _ => js "LoopDryVerdict" end in
      [Link (id_of (round_find round)) (id_of (round_checkDry round)) (Some (js "items")) None;
       Link (id_of (round_checkDry round)) finalize (Some (round_key round))
         (Some (loop_condition verdict maxRounds index (round_key round)))] ++
      match rest with
      | [] => []
      | next :: _ =>
          Link (id_of (round_checkDry round)) (id_of (round_find next)) (Some (js "previousVerdict"))
            (Some (loop_condition (js "LoopContinue") maxRounds index (round_key round))) ::
          loop_links maxRounds finalize (S index) rest
      end
  end.

Definition loop_document (input : list (jsstr * json)) (p : loop_parts) : checked json :=
  assemble input (IDENTITIES LoopUntilDry) (loop_entry p) (id_of (loop_finalize p)) (loop_nodes p)
    (write_from LoopUntilDry 1 (loop_links (loop_maxRounds p) (id_of (loop_finalize p)) 0 (loop_rounds p))).

Lemma write_from_cons kind n l links :
  write_from kind n (l :: links) =
    edge kind n (link_from l) (link_to l) (link_port l) (link_condition l) :: write_from kind (S n) links.
Proof.
  unfold write_from. csimpl. rewrite Nat.add_0_r. f_equal. apply imap_ext. intros i x _. simpl. by rewrite Nat.add_succ_r.
Qed.

Lemma loop_edges_written maxRounds finalize index n rounds :
  loop_edges maxRounds finalize index n rounds =
    write_from LoopUntilDry n (loop_links maxRounds finalize index rounds).
Proof.
  revert index n. induction rounds as [|round rest IH]; intros index n; [done|].
  cbn [loop_edges loop_links]. cbv zeta. cbn [app]. rewrite !write_from_cons.
  replace (n + 1) with (S n) by lia. f_equal. f_equal. destruct rest as [|next rest]; [done|].
  rewrite write_from_cons, IH. replace (n + 2) with (S (S n)) by lia. by replace (n + 3) with (S (S (S n))) by lia.
Qed.

Lemma loop_graph_steps hash input :
  loop_graph hash input = (p ← loop_inputs input; graph ← loop_document input p; compiled hash graph).
Proof.
  unfold loop_graph, loop_inputs. do 2 next_check. destruct (negb _); [done|]. do 2 next_check.
  unfold buildGraph, loop_document. by rewrite loop_edges_written.
Qed.

Definition round_spec (r : ParsedRound) : Prop :=
  node_spec (round_find r) ∧ node_spec (round_checkDry r) ∧ KEY_IDENTIFIER (round_key r) = true ∧
  round_key r ∉ RESERVED_KEYS.

Lemma parse_rounds_Ok i keys items rs :
  Forall json_ok items → parse_rounds i keys items = Ok rs →
  Forall round_spec rs ∧ NoDup (round_key <$> rs) ∧ (∀ k, k ∈ round_key <$> rs → k ∉ keys) ∧ length rs = length items.
Proof.
  intros Hj. revert i keys rs. induction Hj as [|item items Hitem _ IH]; intros i keys rs H; cbn [parse_rounds] in H.
  - inv_ok. split_and!; [constructor|constructor|by intros k ?%not_elem_of_nil|done].
  - inv_ok. apply expectRecord_Ok in E as [= ->]. apply safeKey_Ok in E1 as (_ & Hkey & Hres).
    case_bool_decide as Hin; [done|]. inv_ok. apply parseNode_get_own in E, E1; [|done..].
    apply IH in E2 as (Hall & Hnd & Hnew & Hlen). csimpl. split_and!.
    + by constructor.
    + constructor; [|done]. intros Hk. apply (Hnew _ Hk). apply elem_of_set_add. auto.
    + intros k [->|Hk]%elem_of_cons; [done|]. intros Hk'. apply (Hnew _ Hk). apply elem_of_set_add. auto.
    + by f_equal.
Qed.

Lemma parse_maxRounds_Ok v n :
  parse_maxRounds v = Ok n → v = Some (JNum n) ∧ num_safe_integer n = true.
Proof.
  unfold parse_maxRounds, reject. intros H. destruct v as [[| |x| | |]|]; try done.
  split_if in H as Hn; [|done]. inv_ok. by bool_hyps.
Qed.

Lemma paired_nodes (find check : nat → jsstr) rounds :
  (concat (imap (λ i r, [(round_find r, find i); (round_checkDry r, check i)]) rounds)).*1 = round_nodes rounds.
Proof.
  revert find check. induction rounds as [|r rounds IH]; intros find check; [done|].
  cbn [imap concat app fmap list_fmap fst]. unfold round_nodes in *. cbn [mbind list_bind app]. do 2 f_equal.
  apply (IH (find ∘ S) (check ∘ S)).
Qed.

Lemma round_refs_nodes rounds : (round_refs rounds).*1 = round_nodes rounds.
Proof.
  apply (paired_nodes (λ i, js "#/rounds/" ++ string_of_nat i ++ js "/find")
    (λ i, js "#/rounds/" ++ string_of_nat i ++ js "/checkDry")).
Qed.

(** What the checks establish of a loop *)
Record loop_spec (p : loop_parts) : Prop := {
  loop_spec_nodes : Forall node_spec (loop_nodes p);
  loop_spec_ids : NoDup (id_of <$> loop_nodes p);
  loop_spec_rounds : Forall round_spec (loop_rounds p);
  loop_spec_keys : NoDup (round_key <$> loop_rounds p);
  loop_spec_count : 0 < length (loop_rounds p) ≤ 100;
  loop_spec_bound : num_eqb (num_of_Z (Z.of_nat (length (loop_rounds p)))) (loop_maxRounds p) = true;
  loop_spec_number : json_ok (JNum (loop_maxRounds p))
}.

Lemma loop_inputs_Ok input p : json_ok (JObj input) → loop_inputs input = Ok p → loop_spec p.
Proof.
  intros Hin H. unfold loop_inputs, parseRounds in H. inv_ok. apply parse_maxRounds_Ok in E as [Hmax _].
  apply json_ok_get_own in Hmax; [|done].
  apply collection_Ok in E1 as [Hget Hlen]. apply json_ok_get_own in Hget; [|done]. apply json_ok_arr in Hget.
  apply parse_rounds_Ok in E0 as (Hall & Hnd & _ & Hl); [|done].
  split_if in H as Hcount; [done|]. apply negb_false_iff in Hcount.
  apply bind_Ok in H as (finalize & Hf & H). apply bind_Ok in H as (u & Hu & H). injection H as <-.
  apply parseNode_get_own in Hf; [|done].
  apply assertUniqueNodeIds_Ok in Hu. rewrite fmap_app, round_refs_nodes in Hu.
  split; cbn [loop_rounds loop_finalize loop_maxRounds]; try done; [|lia].
  apply Forall_app. split; [|by constructor]. unfold round_nodes.
  apply Forall_bind. eapply Forall_impl; [exact Hall|]. intros r (Hfind & Hcheck & _). apply Forall_cons_2; [done|by apply Forall_singleton].
Qed.

(** The identifiers of a loop, round by round *)
Definition round_names (rounds : list ParsedRound) : list (jsstr * jsstr) :=
  (λ r, (id_of (round_find r), id_of (round_checkDry r))) <$> rounds.

Lemma loop_ids p : id_of <$> loop_nodes p = round_ids (id_of (loop_finalize p)) (round_names (loop_rounds p)).
Proof.
  unfold loop_nodes, round_nodes, round_names. induction (loop_rounds p) as [|r rounds IH]; [done|].
  csimpl. do 2 f_equal. exact IH.
Qed.

Lemma loop_pairs n z index rounds :
  link_pair <$> loop_links n z index rounds = round_pairs z (round_names rounds).
Proof.
  revert index. induction rounds as [|r rest IH]; intros index; [done|].
  cbn [loop_links round_names fmap list_fmap round_pairs app]. csimpl. do 2 f_equal.
  destruct rest as [|next rest]; [done|]. csimpl. f_equal. apply IH.
Qed.

Lemma round_number_ok i : i < 100 → json_ok (JNum (num_of_Z (Z.of_nat (i + 1)))).
Proof.
  intros Hi. apply json_ok_num.
  assert (Forall (λ i, num_ok (num_of_Z (Z.of_nat (i + 1))) ∧ num_finite (num_of_Z (Z.of_nat (i + 1))) = true) (seq 0 100)) as H.
  { apply (bool_decide_unpack _). vm_compute. exact I. }
  rewrite Forall_forall in H. apply H, elem_of_seq. lia.
Qed.

Lemma loop_condition_ok kind n index key :
  str_wf kind → json_ok (JNum n) → index < 100 → str_wf key → json_ok (loop_condition kind n index key).
Proof.
  intros. unfold loop_condition. json_record; auto using json_ok_JStr, round_number_ok.
  apply json_ok_JStr, str_wf_lit. vm_compute. reflexivity.
Qed.

Lemma loop_links_ok n z index rounds :
  json_ok (JNum n) → str_wf z → Forall round_spec rounds → index + length rounds ≤ 100 →
  Forall link_ok (loop_links n z index rounds).
Proof.
  intros Hn Hz Hr. revert index. induction Hr as [|r rest (Hf & Hc & Hk & _) Hrest IH]; intros index Hi; [constructor|].
  simpl (length _) in Hi. apply KEY_IDENTIFIER_wf in Hk.
  pose proof (proj2 (id_of_Some _ Hf)). pose proof (proj2 (id_of_Some _ Hc)).
  assert (∀ kind, str_wf kind → json_ok (loop_condition kind n index (round_key r))) as Hcond.
  { intros kind Hkind. apply loop_condition_ok; [done|done|lia|done]. }
  cbn [loop_links app]. repeat apply Forall_cons_2.
  - split_and!; [done|done| |done]. apply str_wf_lit. vm_compute. reflexivity.
  - split_and!; [done|done|done|]. apply Hcond. destruct rest; apply str_wf_lit; vm_compute; reflexivity.
  - destruct rest as [|next rest]; [constructor|]. apply Forall_cons_2; [|apply IH; lia].
    apply Forall_cons in Hrest as [(Hf' & _) _]. split_and!; [done|by apply id_of_Some| |].
    + apply str_wf_lit. vm_compute. reflexivity.
    + apply Hcond, str_wf_lit. vm_compute. reflexivity.
Qed.

Lemma fan_links_ok kind p : fan_spec p → Forall link_ok (fan_links kind p).
Proof.
  intros [Hn _ Hitems _ _ _]. unfold fan_nodes in Hn. apply Forall_cons in Hn as [He Hn].
  apply Forall_app in Hn as [_ Hx]. apply Forall_cons in Hx as [Hx _]. apply id_of_Some in He as [_ He], Hx as [_ Hx].
  unfold fan_links. apply Forall_app. split; apply Forall_fmap; (eapply Forall_impl; [exact Hitems|]);
    intros i (Hi & Hk & _); apply id_of_Some in Hi as [_ Hi]; apply KEY_IDENTIFIER_wf in Hk; split_and!; try done.
  destruct kind; try done. simpl. unfold route_equals. json_record; apply json_ok_JStr; try done;
    apply str_wf_lit; vm_compute; reflexivity.
Qed.
