(* ===== verification/PatternsTheorems.v ===== *)
(** * What the patterns promise

    A builder returns its document exactly when the schema and the policies admit it:
    the topology it lays out is always a DAG that flows from its entrypoint to its
    exit.  The layers are the ones the documentation draws, and the order in which
    parallel items are listed does not matter. *)
From S2P Require Import Prelude JsString JsNumber JsValue Canonical CanonicalSpec JsonRoundTrip.
From S2P Require Import JsonValues SchemaValidation Dag GraphIR Compiler CompilerSpec PatternShapes.
From S2P Require Import PatternShapes PatternInternal PatternSnapshot Patterns PatternGraph PatternsSpec.
#[local] Arguments js : simpl never.

(** ** The exported builders *)

Definition build (hash : jsstr → jsstr) (kind : PatternKind) : heap → value → checked json :=
  match kind with
  | Diamond => diamond hash
  | RoutedBranches => routedBranches hash
  | VerifiedFanout => verifiedFanout hash
  | LoopUntilDry => loopUntilDry hash
  end.
Definition pattern_fields (kind : PatternKind) : list jsstr :=
  fields match kind with
         | Diamond => [js "split"; js "workers"; js "merge"]
         | RoutedBranches => [js "classify"; js "branches"; js "merge"]
         | VerifiedFanout => [js "work"; js "verifiers"; js "adjudicate"]
         | LoopUntilDry => [js "maxRounds"; js "rounds"; js "finalize"]
         end.

Lemma build_steps hash kind h options :
  build hash kind h options =
    (input ← snapshotOptions h options (pattern_fields kind); pattern_graph hash kind input).
Proof. by destruct kind. Qed.

Lemma snapshotOptions_ok h options allowed input :
  heap_wf h → heap_data_ok h → value_okb options = true →
  snapshotOptions h options allowed = Ok input → json_ok (JObj input).
Proof.
  intros Hh Hd Hv H. unfold snapshotOptions in H. inv_ok. apply expectRecord_Ok in E0 as [= ->].
  by eapply snapshotValue_json_ok.
Qed.

(** A builder whose document is submitted returns it or reports the rejection. *)
Lemma submitted hash graph built :
  built = compiled hash graph →
  (built = Ok graph ↔ valid (core_result hash graph) = true) ∧
  (built = Ok graph ∨ ∃ message, built = Err (PatternInputError GE_PATTERN_CORE_REJECTED message (js "#"))).
Proof.
  intros ->. pose proof (compiled_cases hash graph) as H. destruct (valid (core_result hash graph)).
  - rewrite H. split; [done|by left].
  - destruct H as [message ->]. split; [done|]. right. by exists message.
Qed.

(** ** Sample options *)

Definition sample_metadata : json := JObj [(js "name", JStr (js "sample")); (js "version", JStr (js "1.0.0"))].
Definition sample_item (key id : string) : json :=
  JObj [(js "key", JStr (js key)); (js "node", sample_node id)].
Definition sample_round (key find check : string) : json :=
  JObj [(js "key", JStr (js key)); (js "find", sample_node find); (js "checkDry", sample_node check)].
(** A diamond with two workers, as wide and as deep as its policies allow *)
Definition fan_options (workers : list json) : json :=
  JObj [(js "metadata", sample_metadata); (js "split", sample_node "s"); (js "merge", sample_node "m");
        (js "workers", JArr workers);
        (js "policies", JObj [(js "maxFanOut", JNum (num_of_Z 2)); (js "maxDepth", JNum (num_of_Z 3))])].
Definition sample_workers : list json := [sample_item "zeta" "w1"; sample_item "alpha" "w2"].
Definition loop_options : json :=
  JObj [(js "metadata", sample_metadata); (js "finalize", sample_node "end"); (js "maxRounds", JNum (num_of_Z 2));
        (js "rounds", JArr [sample_round "first" "f1" "c1"; sample_round "second" "f2" "c2"])].

Definition value_or {A} (d : A) (r : checked A) : A := match r with Ok a => a | Err _ => d end.
Definition options_heap (j : json) : heap := (value_of_json j).1.
Definition options_value (j : json) : value := (value_of_json j).2.
Definition input_of (kind : PatternKind) (j : json) : list (jsstr * json) :=
  value_or [] (snapshotOptions (options_heap j) (options_value j) (pattern_fields kind)).
Definition sample_items : list json :=
  match get_own (js "workers") (input_of Diamond (fan_options sample_workers)) with Some (JArr l) => l | _ => [] end.
Definition sample_fan : fan_parts :=
  value_or (FanParts [] [] []) (fan_inputs Diamond (input_of Diamond (fan_options sample_workers))).
Definition sample_fan_graph : json :=
  value_or JNull (fan_document Diamond (input_of Diamond (fan_options sample_workers)) sample_fan).
Definition sample_loop : loop_parts :=
  value_or (LoopParts (num_of_Z 0) [] []) (loop_inputs (input_of LoopUntilDry loop_options)).
Definition sample_loop_graph : json := value_or JNull (loop_document (input_of LoopUntilDry loop_options) sample_loop).


(** ** Fans *)

Lemma fan_verdict hash kind input p graph :
  fan_spec p → json_ok (JObj input) → fan_document kind input p = Ok graph →
  let items := id_of <$> (keyed_node <$> fan_items p) in
  (valid (core_result hash graph) = true ↔ ∃ g, core_reads graph g ∧ policies_allow g (length items) 3) ∧
  (valid (core_result hash graph) = true →
     topologicalLayers (core_result hash graph) = [[id_of (fan_entry p)]; items; [id_of (fan_exit p)]]).
Proof.
  intros Hs Hin Hg items. destruct (assemble_Ok _ _ _ _ _ _ _ Hg) as [Hdoc Hok].
  pose proof (fan_links_ok kind p Hs) as Hlinks. destruct Hs as [Hn Hids _ _ _ Hcount].
  assert (items ≠ []) as Hne.
  { unfold items. destruct (fan_items p); [simpl in Hcount; lia|done]. }
  pose proof Hids as Hids'. rewrite fan_ids in Hids'. fold items in Hids'.
  pose proof (fan_shape _ _ items Hids' Hne) as Hshape.
  pose proof (fan_layers _ _ items Hids') as Hlayers.
  unfold items in Hshape, Hlayers. rewrite <- (fan_pairs_links kind), <- fan_ids in Hshape. rewrite <- fan_ids in Hlayers.
  assert (json_ok graph) as Hj.
  { unfold fan_nodes in Hn. pose proof Hn as [He Hx]%Forall_cons. apply Forall_app in Hx as [_ [Hx _]%Forall_cons].
    apply id_of_Some in He as [_ He], Hx as [_ Hx]. apply Hok; [done..|]. by apply write_from_ok. }
  pose proof (core_verdict hash graph kind _ _ _ _ _ _ _ Hdoc Hn Hj Hshape) as [Hv Hl].
  split; [exact Hv|]. intros H. by rewrite Hl.
Qed.

(** C38. A fan whose options parse is built exactly when the core's schema admits the
    document, every node may have as many successors as there are items, and three
    layers are allowed; otherwise the core's rejection is reported.  The layers are
    the entry, the items in the order of their keys, and the exit. *)
Theorem fan_pattern_compiles hash kind h options input p graph :
  kind ≠ LoopUntilDry → heap_wf h → heap_data_ok h → value_okb options = true →
  snapshotOptions h options (pattern_fields kind) = Ok input →
  fan_inputs kind input = Ok p → fan_document kind input p = Ok graph →
  let built := build hash kind h options in
  let items := id_of <$> (keyed_node <$> fan_items p) in
  (built = Ok graph ↔ ∃ g, core_reads graph g ∧ policies_allow g (length items) 3) ∧
  (built = Ok graph ∨ ∃ message, built = Err (PatternInputError GE_PATTERN_CORE_REJECTED message (js "#"))) ∧
  (built = Ok graph →
     topologicalLayers (core_result hash graph) = [[id_of (fan_entry p)]; items; [id_of (fan_exit p)]]) ∧
  StronglySorted (cmp_le compareUnicodeCodePoints) (keyed_key <$> fan_items p).
Proof.
  intros Hkind Hh Hd Hv Hin Hp Hg built items.
  assert (json_ok (JObj input)) as Hok by (by eapply snapshotOptions_ok).
  pose proof (fan_inputs_Ok kind input p Hok Hp) as Hs.
  destruct (fan_verdict hash kind input p graph Hs Hok Hg) as [Hiff Hlayers].
  destruct (submitted hash graph built) as [Hbuilt Hcases].
  { unfold built. rewrite build_steps, Hin. cbn [mbind result_bind].
    rewrite fan_graph_steps, Hp by done. cbn [mbind result_bind]. by rewrite Hg. }
  rewrite Hbuilt. split_and!; [exact Hiff|by rewrite <- Hbuilt|exact Hlayers|].
  apply (StronglySorted_fmap keyed_key (cmp_le compare_keyed)); [done|apply Hs].
Qed.

Lemma fan_pattern_compiles_witness :
  build id Diamond (options_heap (fan_options sample_workers)) (options_value (fan_options sample_workers)) =
    Ok sample_fan_graph ∧
  topologicalLayers (core_result id sample_fan_graph) = [[js "s"]; [js "w2"; js "w1"]; [js "m"]] ∧
  ∃ g, core_reads sample_fan_graph g ∧ policies_allow g 2 3.
Proof.
  set (j := fan_options sample_workers).
  assert (heap_wf (options_heap j)) as Hh by (apply (bool_decide_unpack _); vm_compute; exact I).
  assert (heap_data_ok (options_heap j)) as Hd by (apply (bool_decide_unpack _); vm_compute; exact I).
  assert (build id Diamond (options_heap j) (options_value j) = Ok sample_fan_graph) as Hb by (vm_compute; reflexivity).
  destruct (fan_pattern_compiles id Diamond (options_heap j) (options_value j) (input_of Diamond j) sample_fan
    sample_fan_graph ltac:(discriminate) Hh Hd ltac:(vm_compute; reflexivity) ltac:(vm_compute; reflexivity)
    ltac:(vm_compute; reflexivity) ltac:(vm_compute; reflexivity)) as (Hiff & _ & Hlayers & _).
  split; [exact Hb|]. split.
  - rewrite (Hlayers Hb). vm_compute. reflexivity.
  - destruct (proj1 Hiff Hb) as (g & Hg & Hp). exists g. split; [exact Hg|exact Hp].
Defined.

(** ** Loops *)

Lemma loop_verdict hash input p graph :
  loop_spec p → json_ok (JObj input) → loop_document input p = Ok graph →
  let rounds := length (loop_rounds p) in
  (valid (core_result hash graph) = true ↔
     ∃ g, core_reads graph g ∧ policies_allow g (Nat.min rounds 2) (2 * rounds + 1)) ∧
  (valid (core_result hash graph) = true →
     topologicalLayers (core_result hash graph) = (λ n, [id_of n]) <$> loop_nodes p).
Proof.
  intros [Hn Hids Hrs _ Hcount _ Hnum] Hin Hg rounds. destruct (assemble_Ok _ _ _ _ _ _ _ Hg) as [Hdoc Hok].
  set (z := id_of (loop_finalize p)) in *. set (links := loop_links _ _ _ _) in *.
  assert (str_wf z) as Hz.
  { pose proof Hn as Hlast. unfold loop_nodes in Hlast. apply Forall_app in Hlast as [_ [Hz _]%Forall_cons].
    by apply id_of_Some. }
  assert (shape (id_of <$> loop_nodes p) (link_pair <$> links)
    (λ v, position v (id_of <$> loop_nodes p)) (loop_entry p) z (2 * rounds) (Nat.min rounds 2)) as Hshape.
  { unfold links, z. rewrite loop_pairs, loop_ids. unfold loop_entry, rounds. rewrite loop_ids in Hids.
    rewrite <- (length_fmap (λ r, (id_of (round_find r), id_of (round_checkDry r))) (loop_rounds p)).
    destruct (loop_rounds p) as [|r rest]; [simpl in Hcount; lia|].
    by apply (loop_shape _ (id_of (round_find r)) (id_of (round_checkDry r)) (round_names rest)). }
  assert (str_wf (loop_entry p)) as He.
  { unfold loop_entry. destruct (loop_rounds p) as [|r rest]; [constructor|].
    apply Forall_cons in Hrs as [[Hf _] _]. by apply id_of_Some. }
  assert (json_ok graph) as Hj.
  { apply Hok; [done..|]. apply write_from_ok, loop_links_ok; [done..|lia]. }
  pose proof (core_verdict hash graph LoopUntilDry _ _ _ _ _ _ _ Hdoc Hn Hj Hshape) as [Hv Hl].
  rewrite <- (Nat.add_1_r (2 * rounds)) in Hv. split; [exact Hv|]. intros H. rewrite (Hl H), (list_fmap_compose id_of (λ v, [v])).
  rewrite <- (chain_layers (id_of <$> loop_nodes p)) by done. do 2 f_equal.
  rewrite loop_ids, round_ids_length. unfold round_names. by rewrite length_fmap.
Qed.

(** C39. A loop whose options parse is built exactly when the core's schema admits the
    document, a node may have two successors (one, for a single round), and there may
    be two layers per round and one more; otherwise the core's rejection is reported.
    The layers are the finders and checkers one by one, in the order of the rounds,
    and the final node: every round follows the one before. *)
Theorem loop_pattern_compiles hash h options input p graph :
  heap_wf h → heap_data_ok h → value_okb options = true →
  snapshotOptions h options (pattern_fields LoopUntilDry) = Ok input →
  loop_inputs input = Ok p → loop_document input p = Ok graph →
  let built := build hash LoopUntilDry h options in
  let rounds := length (loop_rounds p) in
  (built = Ok graph ↔ ∃ g, core_reads graph g ∧ policies_allow g (Nat.min rounds 2) (2 * rounds + 1)) ∧
  (built = Ok graph ∨ ∃ message, built = Err (PatternInputError GE_PATTERN_CORE_REJECTED message (js "#"))) ∧
  (built = Ok graph → topologicalLayers (core_result hash graph) = (λ n, [id_of n]) <$> loop_nodes p).
Proof.
  intros Hh Hd Hv Hin Hp Hg built rounds.
  assert (json_ok (JObj input)) as Hok by (by eapply snapshotOptions_ok).
  pose proof (loop_inputs_Ok input p Hok Hp) as Hs.
  destruct (loop_verdict hash input p graph Hs Hok Hg) as [Hiff Hlayers].
  destruct (submitted hash graph built) as [Hbuilt Hcases].
  { unfold built. rewrite build_steps, Hin. cbn [mbind result_bind pattern_graph].
    rewrite loop_graph_steps, Hp. cbn [mbind result_bind]. by rewrite Hg. }
  rewrite Hbuilt. split_and!; [exact Hiff|by rewrite <- Hbuilt|exact Hlayers].
Qed.

Lemma loop_pattern_compiles_witness :
  build id LoopUntilDry (options_heap loop_options) (options_value loop_options) = Ok sample_loop_graph ∧
  topologicalLayers (core_result id sample_loop_graph) = [[js "f1"]; [js "c1"]; [js "f2"]; [js "c2"]; [js "end"]].
Proof.
  assert (heap_wf (options_heap loop_options)) as Hh by (apply (bool_decide_unpack _); vm_compute; exact I).
  assert (heap_data_ok (options_heap loop_options)) as Hd by (apply (bool_decide_unpack _); vm_compute; exact I).
  assert (build id LoopUntilDry (options_heap loop_options) (options_value loop_options) = Ok sample_loop_graph) as Hb
    by (vm_compute; reflexivity).
  destruct (loop_pattern_compiles id (options_heap loop_options) (options_value loop_options)
    (input_of LoopUntilDry loop_options) sample_loop sample_loop_graph Hh Hd ltac:(vm_compute; reflexivity)
    ltac:(vm_compute; reflexivity) ltac:(vm_compute; reflexivity) ltac:(vm_compute; reflexivity)) as (_ & _ & Hlayers).
  split; [exact Hb|]. rewrite (Hlayers Hb). vm_compute. reflexivity.
Defined.

(** ** The order of parallel items *)

Lemma known_fields_Ok what allowed path keys : known_fields what allowed path keys = Ok () ↔ Forall (.∈ allowed) keys.
Proof.
  induction keys as [|k keys IH]; cbn [known_fields]; [split; [by constructor|done]|].
  rewrite Forall_cons. case_bool_decide; [rewrite IH; naive_solver|]. unfold reject. naive_solver.
Qed.

Lemma safeKey_iff v path d k :
  safeKey v path d = Ok k ↔ v = Some (JStr k) ∧ KEY_IDENTIFIER k = true ∧ k ∉ RESERVED_KEYS.
Proof.
  split; [apply safeKey_Ok|]. intros (-> & Hk & Hr). unfold safeKey. by rewrite Hk, bool_decide_eq_false_2.
Qed.

(** A record with a legal identifier *)
Definition identified (n : node) : Prop := ∃ s, get_own (js "id") n = Some (JStr s) ∧ IDENTIFIER s = true.

Lemma parseNode_iff v path n : parseNode v path = Ok n ↔ v = Some (JObj n) ∧ identified n.
Proof.
  unfold parseNode, identified, reject. rewrite bind_Ok. split.
  - intros (a & ->%expectRecord_Ok & H).
    destruct (get_own (js "id") a) as [[| | |s| |]|] eqn:E; try done. destruct (IDENTIFIER s) eqn:Es; [|done].
    inv_ok. eauto.
  - intros (-> & s & Hs & Hi). exists n. split; [by apply expectRecord_Ok|]. by rewrite Hs, Hi.
Qed.

(** What an entry of a collection says, wherever it is listed *)
Definition reads_entry (item : json) (e : jsstr * node) : Prop :=
  ∃ entry, item = JObj entry ∧ Forall (.∈ [js "key"; js "node"]) entry.*1 ∧
    (get_own (js "key") entry = Some (JStr e.1) ∧ KEY_IDENTIFIER e.1 = true ∧ e.1 ∉ RESERVED_KEYS) ∧
    get_own (js "node") entry = Some (JObj e.2) ∧ identified e.2.
Definition entry_of (p : ParsedKeyedNode) : jsstr * node := (keyed_key p, keyed_node p).

Lemma parse_items_iff path i keys items es :
  (∃ ps, parse_items path i keys items = Ok ps ∧ entry_of <$> ps = es) ↔
  Forall2 reads_entry items es ∧ NoDup es.*1 ∧ ∀ k, k ∈ es.*1 → k ∉ keys.
Proof.
  revert i keys es. induction items as [|item items IH]; intros i keys es; cbn [parse_items]; split.
  - intros (ps & [= <-] & <-). split; [constructor|]. split; [constructor|]. by intros k ?%not_elem_of_nil.
  - intros (->%Forall2_nil_inv_l & _). by exists [].
  - intros (ps & H & <-). inv_ok. apply expectRecord_Ok in E as [= ->]. destruct a0.
    apply known_fields_Ok in E0. apply safeKey_iff in E1. case_bool_decide as Hin; [done|]. inv_ok.
    apply parseNode_iff in E as [E Hid].
    destruct (proj1 (IH (S i) (set_add a1 keys) (entry_of <$> a2))) as (Hall & Hnd & Hnew); [eauto|].
    csimpl. split; [constructor; [|done]; by exists a|]. split.
    + constructor; [|done]. intros Hk. apply (Hnew _ Hk), elem_of_set_add. auto.
    + intros k [->|Hk]%elem_of_cons; [done|]. intros Hk'. apply (Hnew _ Hk), elem_of_set_add. auto.
  - intros (Hall & Hnd & Hnew). apply Forall2_cons_inv_l in Hall as ([k n] & es' & Hr & Hall & ->).
    destruct Hr as (entry & -> & Hknown & Hkey & Hnode). csimpl in *. apply NoDup_cons in Hnd as [Hk Hnd].
    destruct (proj2 (IH (S i) (set_add k keys) es')) as (ps & Hps & <-).
    { split_and!; [done|done|]. intros k' Hk' [->|Hin]%elem_of_set_add; [done|]. by apply (Hnew k' ltac:(by right)). }
    eexists (Build_ParsedKeyedNode k n _ :: ps). split; [|done].
    unfold assertEntryFields. rewrite (proj2 (known_fields_Ok _ _ _ _) Hknown). cbn [mbind result_bind expectRecord].
    rewrite (proj2 (safeKey_iff _ _ _ k) Hkey). cbn [mbind result_bind].
    rewrite bool_decide_eq_false_2 by (by apply Hnew; left).
    rewrite (proj2 (parseNode_iff _ _ n) Hnode). cbn [mbind result_bind]. by rewrite Hps.
Qed.

Lemma Forall2_reordered {A B} (R : A → B → Prop) l l' k :
  l ≡ₚ l' → Forall2 R l k → ∃ k', k ≡ₚ k' ∧ Forall2 R l' k'.
Proof.
  intros Hp. revert k. induction Hp as [|x l l' _ IH|x y l|l1 l2 l3 _ IH1 _ IH2]; intros k Hk.
  - by exists k.
  - apply Forall2_cons_inv_l in Hk as (z & k0 & Hz & Hk & ->). destruct (IH k0 Hk) as (k' & Hp & Hk').
    exists (z :: k'). split; [by rewrite Hp|by constructor].
  - apply Forall2_cons_inv_l in Hk as (z & k0 & Hz & Hk & ->). apply Forall2_cons_inv_l in Hk as (w & k1 & Hw & Hk & ->).
    exists (w :: z :: k1). split; [apply Permutation_swap|by repeat constructor].
  - destruct (IH1 k Hk) as (k' & Hp & Hk'). destruct (IH2 k' Hk') as (k'' & Hp' & Hk'').
    exists k''. split; [by etrans|done].
Qed.

(** The parsed collection depends on the set of its items. *)
Lemma parseKeyedNodes_reordered items items' path ps :
  Forall json_ok items → items ≡ₚ items' →
  parseKeyedNodes (Some (JArr items)) path = Ok ps →
  ∃ ps', parseKeyedNodes (Some (JArr items')) path = Ok ps' ∧ entry_of <$> ps' = entry_of <$> ps.
Proof.
  intros Hj Hp H. unfold parseKeyedNodes in *. inv_ok. pose proof E as [[= <-] Hlen]%collection_Ok.
  pose proof (parse_items_Ok _ _ _ _ _ Hj E0) as (Hspec & Hnd & _).
  destruct (proj1 (parse_items_iff path 0 [] items (entry_of <$> a0))) as (Hall & Hkeys & _); [eauto|].
  destruct (Forall2_reordered _ _ _ _ Hp Hall) as (es' & Hes & Hall').
  destruct (proj2 (parse_items_iff path 0 [] items' es')) as (ps' & Hps' & <-).
  { split_and!; [done|by rewrite <- Hes|]. by intros k _ ?%not_elem_of_nil. }
  exists (sort_by compare_keyed ps'). split.
  - rewrite collection_accepts by (by rewrite <- Hp). cbn [mbind result_bind]. by rewrite Hps'.
  - rewrite !(sort_by_fmap entry_of compare_keyed compare_keys) by done. symmetry.
    apply sort_by_unique; [apply _|done|]. intros p q. apply compare_keys_antisym; [done|].
    rewrite <- list_fmap_compose. apply Forall_fmap. eapply Forall_impl; [exact Hspec|].
    intros x (_ & Hk & _). by apply KEY_IDENTIFIER_wf.
Qed.

Lemma assertUniqueNodeIds_iff nodes : assertUniqueNodeIds nodes = Ok () ↔ NoDup (id_of <$> nodes.*1).
Proof.
  unfold assertUniqueNodeIds. rewrite unique_from_Ok. split; [tauto|]. intros H. split; [done|].
  by intros i _ ?%not_elem_of_nil.
Qed.

Definition items_name (kind : PatternKind) : jsstr := js (snd (fst (fan_names kind))).

(** Options that differ in the order of the items only parse to the same parts, up to
    the positions that errors would name. *)
Lemma fan_inputs_reordered kind input items items' p :
  kind ≠ LoopUntilDry → json_ok (JObj input) → get_own (items_name kind) input = Some (JArr items) →
  items ≡ₚ items' → fan_inputs kind input = Ok p →
  ∃ p', fan_inputs kind (map_set (items_name kind) (JArr items') input) = Ok p' ∧
    fan_entry p' = fan_entry p ∧ fan_exit p' = fan_exit p ∧ entry_of <$> fan_items p' = entry_of <$> fan_items p.
Proof.
  intros Hkind Hin Hitems Hperm H. unfold fan_inputs in *.
  assert (∀ k, get_own k (map_set (items_name kind) (JArr items') input) =
    if decide (k = items_name kind) then Some (JArr items') else get_own k input) as Hget
    by (intros k; apply map_get_set).
  pose proof (json_ok_get_own _ _ _ Hin Hitems) as Hj. apply json_ok_arr in Hj.
  assert ((js (fst (fst (fan_names kind))) ≠ items_name kind) ∧ js (snd (fan_names kind)) ≠ items_name kind) as [Hn1 Hn2]
    by (by destruct kind; split; vm_compute).
  unfold items_name in *. destruct (fan_names kind) as [[entry_name name] exit_name]. cbn [fst snd] in *.
  inv_ok. rewrite Hitems in E0.
  destruct (parseKeyedNodes_reordered _ _ _ _ Hj Hperm E0) as (items1 & Hp1 & Heq).
  assert (keyed_node <$> items1 = keyed_node <$> a0) as Hnodes.
  { change keyed_node with (snd ∘ entry_of). by rewrite !list_fmap_compose, Heq. }
  exists (FanParts a items1 a1). split; [|done].
  rewrite (Hget (js entry_name)), decide_False by done. rewrite (Hget (js exit_name)), decide_False by done.
  rewrite (Hget (js name)), decide_True by done. rewrite E, Hp1, E1. cbn [mbind result_bind].
  rewrite (proj2 (assertUniqueNodeIds_iff _)); [done|]. destruct a2. apply assertUniqueNodeIds_iff in E2.
  rewrite !fmap_app, refs_nodes, Hnodes in *. exact E2.
Qed.

(** The document depends on the parts, and on options other than the items. *)
Lemma fan_document_reordered kind input p' p items' :
  fan_entry p' = fan_entry p → fan_exit p' = fan_exit p → entry_of <$> fan_items p' = entry_of <$> fan_items p →
  fan_document kind (map_set (items_name kind) (JArr items') input) p' = fan_document kind input p.
Proof.
  intros He Hx Heq.
  assert (fan_nodes p' = fan_nodes p) as Hnodes.
  { unfold fan_nodes. rewrite He, Hx. change keyed_node with (snd ∘ entry_of). by rewrite !list_fmap_compose, Heq. }
  assert (fan_links kind p' = fan_links kind p) as Hlinks.
  { unfold fan_links. rewrite He, Hx. f_equal.
    - change (λ item, Link ?a (id_of (keyed_node item)) None (fan_condition kind (keyed_key item))) with
        ((λ e : jsstr * node, Link a (id_of e.2) None (fan_condition kind e.1)) ∘ entry_of).
      by rewrite !list_fmap_compose, Heq.
    - change (λ item, Link (id_of (keyed_node item)) ?a (Some (keyed_key item)) None) with
        ((λ e : jsstr * node, Link (id_of e.2) a (Some e.1) None) ∘ entry_of).
      by rewrite !list_fmap_compose, Heq. }
  unfold fan_document. rewrite He, Hx, Hnodes, Hlinks. unfold assemble, get_own.
  rewrite !map_get_set, !decide_False by (by destruct kind; vm_compute). done.
Qed.

(** C40. The order in which parallel items are listed does not matter: options that
    list the workers, branches or verifiers in another order give the same graph. *)
Theorem pattern_order_irrelevant hash kind h options input h' options' items items' graph :
  kind ≠ LoopUntilDry → heap_wf h → heap_data_ok h → value_okb options = true →
  snapshotOptions h options (pattern_fields kind) = Ok input →
  get_own (items_name kind) input = Some (JArr items) → items ≡ₚ items' →
  snapshotOptions h' options' (pattern_fields kind) = Ok (map_set (items_name kind) (JArr items') input) →
  build hash kind h options = Ok graph → build hash kind h' options' = Ok graph.
Proof.
  intros Hkind Hh Hd Hv Hin Hitems Hperm Hin'. assert (json_ok (JObj input)) as Hok by (by eapply snapshotOptions_ok).
  rewrite !build_steps, Hin, Hin'. cbn [mbind result_bind]. rewrite !fan_graph_steps by done. intros H. inv_ok.
  destruct (fan_inputs_reordered kind input items items' a Hkind Hok Hitems Hperm E) as (p' & -> & He & Hx & Heq).
  cbn [mbind result_bind]. rewrite (fan_document_reordered kind input p' a items') by done. by rewrite E0.
Qed.

Lemma pattern_order_irrelevant_witness :
  build id Diamond (options_heap (fan_options (reverse sample_workers)))
    (options_value (fan_options (reverse sample_workers))) = Ok sample_fan_graph.
Proof.
  apply (pattern_order_irrelevant id Diamond (options_heap (fan_options sample_workers))
    (options_value (fan_options sample_workers)) (input_of Diamond (fan_options sample_workers)) _ _
    sample_items (reverse sample_items)).
  - discriminate.
  - apply (bool_decide_unpack _); vm_compute; exact I.
  - apply (bool_decide_unpack _); vm_compute; exact I.
  - vm_compute; reflexivity.
  - vm_compute; reflexivity.
  - vm_compute; reflexivity.
  - symmetry. apply reverse_Permutation.
  - vm_compute; reflexivity.
  - vm_compute; reflexivity.
Defined.
