(* ===== verification/RuntimeTypes.v ===== *)
(** * Runtime values and failures (packages/runtime/src/types.ts, json.ts)

    The results that [runGraph] reports, the errors an executor may throw, and
    [snapshotJson], which detaches a caller's value by printing and parsing its
    canonical text. *)
From Stdlib Require Import SpecFloat.
From S2P Require Import Prelude JsString JsNumber JsValue JsonText Canonical GraphIR Compiler.

(** ** Results *)
Inductive NodeRunStatus := NodeSucceeded | NodeFailed | NodeSkipped.
Inductive GraphRunStatus := RunSucceeded | RunFailed | RunCancelled.

Inductive RuntimeFailureCode :=
  | EXECUTOR_NOT_FOUND
  | NODE_EXECUTION_FAILED
  | NODE_TIMEOUT
  | NODE_CANCELLED
  | INVALID_OUTPUT
  | UPSTREAM_FAILED
  | INPUT_BINDING_FAILED
  | ATTEMPT_BUDGET_EXHAUSTED.

Record NodeRunFailure := {
  failure_code : RuntimeFailureCode;
  failure_message : jsstr;
  failure_nodeId : jsstr;
  failure_attempt : Z;
  failure_retryable : bool;
  failure_causeName : option jsstr;
  failure_upstreamNodeIds : option (list jsstr)
}.

Record OutputRunFailure := {
  output_message : jsstr;
  output_name : jsstr;
  output_nodeId : jsstr;
  output_port : option jsstr
}.

Inductive GraphRunFailure :=
  | CompilationRunFailure (d : CompilerDiagnostic)
  | ExecutionRunFailure (f : NodeRunFailure)
  | OutputBindingFailure (f : OutputRunFailure).

Record NodeRunResult := {
  nodeId : jsstr;
  sequence : nat;
  status : NodeRunStatus;
  attempts : Z;
  input : option json;
  output : option json;
  failure : option NodeRunFailure
}.

Record GraphRunResult := {
  run_status : GraphRunStatus;
  run_graphHash : option jsstr;
  run_output : option (list (jsstr * json));
  run_nodes : list NodeRunResult;
  run_failures : list GraphRunFailure;
  run_maxObservedConcurrency : Z;
  run_totalAttempts : Z
}.

#[export] Instance NodeRunStatus_eq_dec : EqDecision NodeRunStatus.
Proof. solve_decision. Defined.
#[export] Instance GraphRunStatus_eq_dec : EqDecision GraphRunStatus.
Proof. solve_decision. Defined.
#[export] Instance RuntimeFailureCode_eq_dec : EqDecision RuntimeFailureCode.
Proof. solve_decision. Defined.
#[export] Instance NodeRunFailure_eq_dec : EqDecision NodeRunFailure.
Proof. solve_decision. Defined.

(** ** Thrown values *)

(** What can be observed of a thrown value: the name and message of an [Error],
    a string, or the [typeof] of anything else. *)
Inductive thrown :=
  | ThrownError (name message : jsstr)
  | ThrownString (s : jsstr)
  | ThrownOther (type : jsstr).

Definition errorName (error : thrown) : jsstr :=
  match error with
  | ThrownError name _ => name
  | ThrownString _ => js "string"
  | ThrownOther type => type
  end.

Definition errorMessage (error : thrown) : jsstr :=
  match error with
  | ThrownError _ message => message
  | ThrownString s => s
  | ThrownOther _ => js "Node executor threw a non-Error value"
  end.

(** ** Snapshots *)

(** [assertPortableNumbers] *)
Fixpoint portable_numbers (value : json) : bool :=
  match value with
  | JNum n => negb (num_integer n && negb (num_safe_integer n))
  | JArr items => forallb portable_numbers items
  | JObj props => forallb (λ p, portable_numbers p.2) props
  | _ => true
  end.

(** The snapshot of a captured tree: its canonical text, parsed again. *)
Definition snapshot_tree (captured : json) : result thrown json :=
  match json_parse (serializeCaptured captured) with
  | Some snapshot =>
      if portable_numbers snapshot then Ok snapshot
      else Err (ThrownError (js "TypeError")
                  (js "JSON integers must be within the interoperable safe-integer range"))
  | None => Err (ThrownError (js "SyntaxError") (js "Unexpected token in JSON"))
  end.

Definition snapshotJson (h : heap) (value : value) : result thrown json :=
  match captureCanonicalJson h value with
  | Ok (captured, _) => snapshot_tree captured
  | Err (CanonicalizationError message _) => Err (ThrownError (js "CanonicalizationError") message)
  | Err OutOfFuel => Err (ThrownError (js "RangeError") (js "Maximum call stack size exceeded"))
  end.

(** [snapshotGraphInput] and [snapshotExecutorOutput] replace the error. *)
Definition snapshotGraphInput (h : heap) (input : value) : result thrown json :=
  match snapshotJson h input with
  | Ok j => Ok j
  | Err _ => Err (ThrownError (js "TypeError") (js "graph input must be a portable finite JSON value"))
  end.
Definition snapshotExecutorOutput (h : heap) (output : value) : result thrown json :=
  match snapshotJson h output with
  | Ok j => Ok j
  | Err _ => Err (ThrownError (js "InvalidOutputError")
                    (js "Node executor returned a value that is not portable finite JSON"))
  end.
