(* ===== verification/Semaphore.v ===== *)
(** * The attempt semaphore (packages/runtime/src/scheduler.ts)

    [createAttemptSemaphore] bounds the number of attempts that run at the same
    time.  A waiter is identified by its node: a node has at most one pending
    acquisition.  An abort cancels the waiters in place; they stay in the queue
    until a release skips them. *)
From S2P Require Import Prelude JsString.

(** ** State and operations *)

Record SemaphoreWaiter := { waiter_node : jsstr; cancelled : bool }.

Record semaphore := {
  running : Z;
  observed : Z;
  waiters : list SemaphoreWaiter
}.

Definition new_semaphore : semaphore := Build_semaphore 0 0 [].

(** [running += 1; onRunningChange(running)] *)
Definition start (s : semaphore) : semaphore :=
  Build_semaphore (running s + 1) (Z.max (observed s) (running s + 1)) (waiters s).

Inductive acquisition := Grant | Enqueue | Reject.

(** [acquireAttemptSlot(signal)] *)
Definition acquire (limit : Z) (aborted : bool) (node : jsstr) (s : semaphore)
    : acquisition * semaphore :=
  if aborted then (Reject, s)
  else if (running s <? limit)%Z then (Grant, start s)
  else (Enqueue, Build_semaphore (running s) (observed s)
                   (waiters s ++ [Build_SemaphoreWaiter node false])).

(** The [while] loop of a release: the first waiter that is not cancelled. *)
Fixpoint next_waiter (ws : list SemaphoreWaiter) : option jsstr * list SemaphoreWaiter :=
  match ws with
  | [] => (None, [])
  | w :: ws => if cancelled w then next_waiter ws else (Some (waiter_node w), ws)
  end.

(** The release of a slot: the node that is granted it next, if any. *)
Definition release_slot (s : semaphore) : option jsstr * semaphore :=
  let s := Build_semaphore (running s - 1) (Z.max (observed s) (running s - 1)) (waiters s) in
  let '(granted, ws) := next_waiter (waiters s) in
  let s := Build_semaphore (running s) (observed s) ws in
  (granted, match granted with Some _ => start s | None => s end).

(** The waiters' [onAbort] listeners. *)
Definition abort_waiters (s : semaphore) : semaphore :=
  Build_semaphore (running s) (observed s)
    ((λ w, Build_SemaphoreWaiter (waiter_node w) true) <$> waiters s).

(** The nodes that still wait. *)
Definition live_nodes (ws : list SemaphoreWaiter) : list jsstr :=
  waiter_node <$> filter (λ w, cancelled w = false) ws.
Definition live (s : semaphore) : list jsstr := live_nodes (waiters s).

(** ** Invariant *)

(** At most [limit] slots are out, the high-water mark is between the two, and
    nobody waits while a slot is free. *)
Record semaphore_ok (limit : Z) (s : semaphore) : Prop := {
  running_bounds : (0 ≤ running s ≤ limit)%Z;
  observed_bounds : (running s ≤ observed s ≤ limit)%Z;
  full_when_waiting : live s ≠ [] → running s = limit
}.

(** ** Lemmas *)
Lemma new_semaphore_ok limit : (0 ≤ limit)%Z → semaphore_ok limit new_semaphore.
Proof. intros. split; simpl; lia || done. Qed.

Lemma acquire_spec limit aborted node s r s' :
  semaphore_ok limit s → acquire limit aborted node s = (r, s') →
  semaphore_ok limit s' ∧
  match r with
  | Reject => aborted = true ∧ s' = s
  | Grant => aborted = false ∧ live s' = live s ∧ running s' = (running s + 1)%Z
  | Enqueue => aborted = false ∧ live s' = live s ++ [node] ∧ running s' = running s
  end.
Proof.
  intros [Hr Ho Hf] H. unfold acquire in H.
  destruct aborted; [injection H as <- <-; by split|].
  destruct (running s <? limit)%Z eqn:E; injection H as <- <-; bool_hyps.
  - split; [|done]. split; simpl; [lia|lia|]. intros Hl. specialize (Hf Hl). lia.
  - assert (live (Build_semaphore (running s) (observed s) (waiters s ++ [Build_SemaphoreWaiter node false]))
      = live s ++ [node]) as Hlive.
    { unfold live, live_nodes. simpl. by rewrite filter_app, fmap_app. }
    split; [|done]. split; simpl; lia.
Qed.

Lemma next_waiter_spec ws :
  let '(granted, ws') := next_waiter ws in
  match granted with
  | Some n => live_nodes ws = n :: live_nodes ws'
  | None => live_nodes ws = [] ∧ ws' = []
  end.
Proof.
  unfold live_nodes. induction ws as [|w ws IH]; simpl; [done|]. rewrite filter_cons.
  destruct (cancelled w) eqn:E; [by rewrite decide_False by done|by rewrite decide_True].
Qed.

Lemma release_slot_spec limit s granted s' :
  semaphore_ok limit s → (0 < running s)%Z → release_slot s = (granted, s') →
  semaphore_ok limit s' ∧
  match granted with
  | Some n => live s = n :: live s' ∧ running s' = running s
  | None => live s = [] ∧ live s' = [] ∧ running s' = (running s - 1)%Z
  end.
Proof.
  intros [Hr Ho Hf] Hpos H. unfold release_slot in H. cbv zeta in H. simpl in H.
  pose proof (next_waiter_spec (waiters s)) as Hn. fold (live s) in Hn.
  destruct (next_waiter (waiters s)) as [[n|] ws] eqn:E; injection H as <- <-.
  - assert (running s = limit) as Hlim by (apply Hf; by rewrite Hn).
    split; [|split; [done|simpl; lia]]. split; simpl; lia.
  - destruct Hn as [Hn ->]. split; [|split_and!; done]. split; simpl; [lia|lia|done].
Qed.

Lemma abort_waiters_spec limit s :
  semaphore_ok limit s →
  semaphore_ok limit (abort_waiters s) ∧ live (abort_waiters s) = [] ∧
  running (abort_waiters s) = running s.
Proof.
  intros [Hr Ho Hf].
  assert (live (abort_waiters s) = []) as Hlive.
  { unfold live, live_nodes, abort_waiters. simpl. rewrite (elem_of_nil_inv (filter _ _)); [done|].
    intros w Hw. apply list_elem_of_filter in Hw as [Hc Hw].
    apply list_elem_of_fmap in Hw as (w' & -> & _). done. }
  split; [|done]. split; [done|done|]. by rewrite Hlive.
Qed.
