(* ===== verification/Scheduler.v ===== *)
(** * The graph scheduler (packages/runtime/src/scheduler.ts)

    [runGraph] is an asynchronous function: between two awaits its code runs
    without interruption, so a run is a sequence of such atomic stretches.  The
    state below is what they share; [step] performs one stretch, chosen by a label:
    an abort of the caller's signal, the continuation of one node's [executeNode]
    after an [await], or the main loop's continuation after [Promise.race].  The
    order in which the stretches run is not fixed: whatever the timers, the
    executors and the microtask queue decide is one of the label sequences.

    The executors are the environment: a label carries what one attempt did. *)
From Stdlib Require Import SpecFloat.
From S2P Require Import Prelude JsString JsNumber JsValue JsonText Canonical.
From S2P Require Import SchemaValidation GraphIR Compiler RuntimeTypes Semaphore.

(** ** Options and configuration *)

Definition positiveInteger (value : option Z) (fallback : Z) : Z :=
  match value with Some z => if (0 <? z)%Z then z else fallback | None => fallback end.

(** [Number.isInteger(value)] of a number an option holds. *)
Definition integer_option (value : option num) : option Z :=
  n ← value; if num_integer n then Some (num_trunc n) else None.

Definition resolveConcurrency (graph : GraphSpec) (requested : option num) : Z :=
  let policy := positiveInteger (graph_policies graph ≫= policy_maxConcurrency) 4 in
  let desired := positiveInteger (integer_option requested) policy in
  Z.min desired policy.

(** Which function runs a node.  [options.nodeExecutors?.[nodeId]] is an ordinary
    property read, which also finds what the options object inherits from
    [Object.prototype]. *)
Inductive executor_ref :=
  | NodeExecutor (id : jsstr)
  | InheritedMember (name : jsstr)
  | KindExecutor (kind : NodeKind)
  | IdentityExecutor.

Record SchedulerOptions := {
  nodeExecutors : option (list jsstr);
  executors : option (list NodeKind);
  option_concurrency : option num;
  signal_aborted : bool
}.

(** The function-valued members of [Object.prototype]. *)
Definition OBJECT_PROTOTYPE : list jsstr :=
  [js "constructor"; js "hasOwnProperty"; js "isPrototypeOf"; js "propertyIsEnumerable";
   js "toLocaleString"; js "toString"; js "valueOf"; js "__defineGetter__"; js "__defineSetter__";
   js "__lookupGetter__"; js "__lookupSetter__"].

Definition select_executor (options : SchedulerOptions) (node : NodeSpec) : option executor_ref :=
  let inherited :=
    match nodeExecutors options with
    | Some own =>
        if bool_decide (node_id node ∈ own) then Some (NodeExecutor (node_id node))
        else if bool_decide (node_id node ∈ OBJECT_PROTOTYPE) then Some (InheritedMember (node_id node))
        else None
    | None => None
    end in
  match inherited with
  | Some e => Some e
  | None =>
      if bool_decide (node_kind node ∈ default [] (executors options))
      then Some (KindExecutor (node_kind node))
      else if bool_decide (node_kind node = Transform ∨ node_kind node = Barrier)
      then Some IdentityExecutor else None
  end.

(** What a run is given: the compiled graph and its topological order, the
    snapshot of the input, the choice of executors, the limits, the abort reason,
    and the engine's [**] operator and read-only message. *)
Record run_config := {
  cfg_graph : GraphSpec;
  cfg_order : list jsstr;
  cfg_input : json;
  cfg_executor : NodeSpec → option executor_ref;
  cfg_concurrency : Z;
  cfg_attemptLimit : Z;
  cfg_reason : thrown;
  cfg_power : num → num → num;
  cfg_readonly : jsstr → jsstr
}.

(** ** Failures *)

Definition runtimeFailure (nodeId : jsstr) (code : RuntimeFailureCode) (message : jsstr) (attempt : Z)
    (retryable : bool) (causeName : option jsstr) (upstreamNodeIds : option (list jsstr))
    : NodeRunFailure :=
  Build_NodeRunFailure code message nodeId attempt retryable causeName upstreamNodeIds.

Definition cancelled_failure (nodeId : jsstr) (attempt : Z) : NodeRunFailure :=
  runtimeFailure nodeId NODE_CANCELLED (js "Node '" ++ nodeId ++ js "' was cancelled") attempt false None None.

Definition kind_name (kind : NodeKind) : jsstr :=
  match kind with
  | Agent => js "agent" | Model => js "model" | Tool => js "tool" | Transform => js "transform"
  | Subgraph => js "subgraph" | Router => js "router" | Barrier => js "barrier"
  | Validator => js "validator" | Human => js "human"
  end.

(** ** Binding inputs and outputs *)

(** The own property [k] of a JSON value: of an object, or of an array, whose
    items and length are own properties. *)
Definition json_own (v : json) (k : jsstr) : option json :=
  match v with
  | JObj props => get_own k props
  | JArr items =>
      if decide (k = key_length) then Some (JNum (num_of_Z (Z.of_nat (length items))))
      else i ← index_name (length items) k; items !! i
  | _ => None
  end.

(** [endpointValue(endpoint, value)], [value] being the output of a node that
    succeeded *)
Definition endpointValue (endpoint : Endpoint) (value : json) : result thrown json :=
  match endpoint_port endpoint with
  | None => Ok value
  | Some port =>
      match json_own value port with
      | Some v => Ok v
      | None => Err (ThrownError (js "Error")
          (js "Output from '" ++ endpoint_node endpoint ++ js "' does not contain port '" ++ port ++ js "'"))
      end
  end.

(** An object under construction: its own properties in creation order and its
    prototype, which an assignment to [__proto__] replaces. *)
Inductive record_proto := ObjectPrototype | NullPrototype | ValuePrototype (v : json).
Record open_record := { own_props : list (jsstr * json); proto : record_proto }.
Definition empty_record : open_record := Build_open_record [] ObjectPrototype.

Section binding.
Context (readonly : jsstr → jsstr).

(** [input[key] = value]: an own property is overwritten; otherwise the setter of
    [__proto__] or a read-only inherited property (snapshots are frozen) takes the
    assignment; otherwise an own property is created. *)
Definition assign_property (o : open_record) (key : jsstr) (value : json) : result thrown open_record :=
  let create := Ok (Build_open_record (map_set key value (own_props o)) (proto o)) in
  if has_own key (own_props o) then create
  else match proto o with
  | NullPrototype => create
  | ValuePrototype p =>
      if match json_own p key with Some _ => true | None => false end
      then Err (ThrownError (js "TypeError") (readonly key))
      else if decide (key = js "__proto__") then
        Ok (Build_open_record (own_props o)
             (match value with JNull => NullPrototype | JObj _ | JArr _ => ValuePrototype value | _ => proto o end))
      else create
  | ObjectPrototype =>
      if decide (key = js "__proto__") then
        Ok (Build_open_record (own_props o)
             (match value with JNull => NullPrototype | JObj _ | JArr _ => ValuePrototype value | _ => proto o end))
      else create
  end.

(** [snapshotJson(input)] of the record: its values are snapshots, so the capture
    can only fail on the prototype. *)
Definition snapshot_record (o : open_record) : result thrown json :=
  match proto o with
  | ValuePrototype _ =>
      Err (ThrownError (js "CanonicalizationError") (js "Only plain JSON objects are supported at #"))
  | _ => snapshot_tree (JObj (own_order (own_props o)))
  end.

Definition edge_key (edge : EdgeSpec) : jsstr :=
  default (endpoint_node (edge_from edge)) (endpoint_port (edge_to edge)).

(** One iteration of the loop of [bindNodeInput]. *)
Definition bind_edge (nodeId : jsstr) (outputs : jsstr → option json) (o : open_record)
    (edge : EdgeSpec) : result thrown open_record :=
  let key := edge_key edge in
  if has_own key (own_props o) then
    Err (ThrownError (js "Error")
      (js "Node '" ++ nodeId ++ js "' receives more than one value for input key '" ++ key ++ js "'"))
  else
    v ← endpointValue (edge_from edge) (default JNull (outputs (endpoint_node (edge_from edge))));
    assign_property o key v.

Fixpoint bind_edges (nodeId : jsstr) (outputs : jsstr → option json) (o : open_record)
    (incoming : list EdgeSpec) : result thrown open_record :=
  match incoming with
  | [] => Ok o
  | edge :: incoming => o ← bind_edge nodeId outputs o edge; bind_edges nodeId outputs o incoming
  end.

(** [bindNodeInput(node, incoming, graphInput, results)] *)
Definition bindNodeInput (nodeId : jsstr) (incoming : list EdgeSpec) (graphInput : json)
    (outputs : jsstr → option json) : result thrown json :=
  match incoming with
  | [] => Ok graphInput
  | _ => o ← bind_edges nodeId outputs empty_record incoming; snapshot_record o
  end.
End binding.

(** ** Retry delays *)

(** [Math.max] and [Math.min] *)
Definition is_nan (x : num) : bool := match x with S754_nan => true | _ => false end.
Definition num_max (x y : num) : num :=
  if is_nan x || is_nan y then S754_nan else if num_ltb x y then y else x.
Definition num_min (x y : num) : num :=
  if is_nan x || is_nan y then S754_nan else if num_ltb y x then y else x.

(** [retryDelay(node, failedAttempt)]; [power] is the [**] operator. *)
Definition retryDelay (power : num → num → num) (node : NodeSpec) (failedAttempt : Z) : num :=
  let zero := num_of_Z 0 in
  let retry := node_retry node in
  let initial := num_max zero (default zero (num_of_Z <$> (retry ≫= retry_initialDelayMs))) in
  let multiplier := num_max (num_of_Z 1) (default (num_of_Z 1) (retry ≫= retry_backoffMultiplier)) in
  let maximum := num_max initial (default initial (num_of_Z <$> (retry ≫= retry_maxDelayMs))) in
  num_min maximum
    (SFmul 53 1024 initial (power multiplier (num_of_Z (Z.max 0 (failedAttempt - 1))))).

(** ** One attempt *)

(** What the executor and the timer of one attempt did: nothing, because the run
    was already aborted; a value; the identity executor's input; a throw, before
    or after the timer fired; or the timer alone. *)
Inductive attempt_event :=
  | NotStarted
  | Returned (h : heap) (v : value)
  | ReturnedInput
  | Threw (error : thrown) (timedOut : bool)
  | TimerFired.

Inductive AttemptOutcome :=
  | AttemptSucceeded (output : json)
  | AttemptFailed (code : RuntimeFailureCode) (error : thrown).

(** [executeAttempt]; [cancelled] tells whether the run was aborted when the
    outcome was decided. *)
Definition executeAttempt (reason : thrown) (attempt_input : json) (cancelled : bool)
    (event : attempt_event) : AttemptOutcome :=
  let snapshot (r : result thrown json) :=
    if cancelled then AttemptFailed NODE_CANCELLED reason
    else match r with
         | Ok output => AttemptSucceeded output
         | Err _ => AttemptFailed INVALID_OUTPUT
             (ThrownError (js "InvalidOutputError")
                (js "Node executor returned a value that is not portable finite JSON"))
         end in
  match event with
  | NotStarted => AttemptFailed NODE_CANCELLED reason
  | Returned h v => snapshot (snapshotExecutorOutput h v)
  | ReturnedInput => snapshot (snapshot_tree attempt_input)
  | Threw error timedOut =>
      AttemptFailed
        (if cancelled && negb timedOut then NODE_CANCELLED
         else if timedOut then NODE_TIMEOUT else NODE_EXECUTION_FAILED) error
  | TimerFired => AttemptFailed NODE_TIMEOUT (ThrownError (js "Error") (js "Node timed out"))
  end.

(** Which events an attempt can produce. *)
Definition event_allowed (node : NodeSpec) (executor : executor_ref) (called : bool)
    (event : attempt_event) : bool :=
  match event with
  | NotStarted => negb called
  | ReturnedInput => called && match executor with IdentityExecutor => true | _ => false end
  | Returned _ _ => called && match executor with IdentityExecutor => false | _ => true end
  | Threw _ timedOut =>
      called && match executor with IdentityExecutor => false | _ => true end &&
      (negb timedOut || match node_timeoutMs node with Some _ => true | None => false end)
  | TimerFired =>
      called && match executor with IdentityExecutor => false | _ => true end &&
      match node_timeoutMs node with Some _ => true | None => false end
  end.

(** The failure of an attempt. *)
Definition attempt_failure (node : NodeSpec) (code : RuntimeFailureCode) (error : thrown)
    (attempts : Z) (mayRetry : bool) : NodeRunFailure :=
  runtimeFailure (node_id node) code
    (match code with
     | NODE_TIMEOUT =>
         js "Node '" ++ node_id node ++ js "' timed out after " ++
         match node_timeoutMs node with Some ms => string_of_Z ms | None => js "undefined" end ++ js "ms"
     | NODE_CANCELLED => js "Node '" ++ node_id node ++ js "' was cancelled"
     | INVALID_OUTPUT =>
         js "Node '" ++ node_id node ++ js "' returned a value that is not portable finite JSON"
     | _ => js "Node '" ++ node_id node ++ js "' failed: " ++ errorMessage error
     end) attempts mayRetry (Some (errorName error)) None.

(** ** State *)

(** The locals of [executeNode] across an [await]. *)
Record progress := { done_attempts : Z; lastFailure : option NodeRunFailure }.

(** Where one [executeNode] is suspended. *)
Inductive task_state :=
  | Waiting (p : progress)                     (** in the semaphore's queue *)
  | Granted (p : progress)                     (** holds a slot, attempt not begun *)
  | Rejected (p : progress)                    (** its acquisition was rejected *)
  | Executing (attempts : Z) (called : bool)   (** holds a slot, attempt running *)
  | Delaying (p : progress) (listening : bool) (** before a retry *)
  | DelayRejected (p : progress)
  | Settled (r : NodeRunResult).

Record task := { task_input : json; task_executor : option executor_ref; task_at : task_state }.

Record run_state := {
  results : list (jsstr * NodeRunResult);
  remaining : list (jsstr * Z);
  ready : list jsstr;
  active : list (jsstr * task);
  slots : semaphore;
  totalAttempts : Z;
  aborted : bool;
  finished : bool
}.

Definition with_active (s : run_state) (a : list (jsstr * task)) : run_state :=
  Build_run_state (results s) (remaining s) (ready s) a (slots s) (totalAttempts s) (aborted s) (finished s).
Definition with_slots (s : run_state) (sl : semaphore) : run_state :=
  Build_run_state (results s) (remaining s) (ready s) (active s) sl (totalAttempts s) (aborted s) (finished s).
Definition with_ready (s : run_state) (r : list jsstr) : run_state :=
  Build_run_state (results s) (remaining s) r (active s) (slots s) (totalAttempts s) (aborted s) (finished s).

(** Suspend the task of a node somewhere else. *)
Definition set_task (id : jsstr) (t : task) (at_ : task_state) (s : run_state) : run_state :=
  with_active s (map_set id (Build_task (task_input t) (task_executor t) at_) (active s)).

Section run.
Context (cfg : run_config).
Let graph := cfg_graph cfg.

Definition sequence_index : list (jsstr * nat) := imap (λ index id, (id, index)) (cfg_order cfg).
Definition sequence_of (id : jsstr) : nat := default 0 (map_get id sequence_index).
Definition compareReady : jsstr → jsstr → Z := compareNodes sequence_index.

Definition compare_edge_ids (left right : EdgeSpec) : Z :=
  compareUnicodeCodePoints (edge_id left) (edge_id right).
Definition incoming (id : jsstr) : list EdgeSpec :=
  sort_by compare_edge_ids (filter (λ e, endpoint_node (edge_to e) = id) (graph_edges graph)).
Definition outgoing (id : jsstr) : list EdgeSpec :=
  sort_by compare_edge_ids (filter (λ e, endpoint_node (edge_from e) = id) (graph_edges graph)).
Definition find_node (id : jsstr) : option NodeSpec :=
  map_get id ((λ n, (node_id n, n)) <$> graph_nodes graph).
Definition max_attempts (node : NodeSpec) : Z := positiveInteger (node_retry node ≫= retry_maxAttempts) 1.

Definition node_result (id : jsstr) (st : NodeRunStatus) (n : Z) (inp out : option json)
    (f : option NodeRunFailure) : NodeRunResult :=
  Build_NodeRunResult id (sequence_of id) st n inp out f.
Definition failed_result (id : jsstr) (t : task) (n : Z) (f : option NodeRunFailure) : NodeRunResult :=
  node_result id NodeFailed n (Some (task_input t)) None f.

(** ** [executeNode] *)

(** [acquireAttemptSlot(signal)], at the head of an iteration *)
Definition acquire_slot (id : jsstr) (t : task) (p : progress) (s : run_state) : run_state :=
  let '(r, sl) := acquire (cfg_concurrency cfg) (aborted s) id (slots s) in
  set_task id t (match r with Grant => Granted p | Enqueue => Waiting p | Reject => Rejected p end)
    (with_slots s sl).

(** [while (attempts < maxAttempts)] *)
Definition loop_head (node : NodeSpec) (t : task) (p : progress) (s : run_state) : run_state :=
  if (done_attempts p <? max_attempts node)%Z then acquire_slot (node_id node) t p s
  else set_task (node_id node) t
         (Settled (failed_result (node_id node) t (done_attempts p) (lastFailure p))) s.

(** [releaseAttemptSlot()]: the next waiter is granted the slot. *)
Definition release (s : run_state) : run_state :=
  let '(granted, sl) := release_slot (slots s) in
  let s := with_slots s sl in
  match granted with
  | Some id =>
      match map_get id (active s) with
      | Some t => match task_at t with Waiting p => set_task id t (Granted p) s | _ => s end
      | None => s
      end
  | None => s
  end.

(** After the slot was granted: claim an attempt from the run's budget and start
    it. *)
Definition begin_attempt (node : NodeSpec) (t : task) (p : progress) (s : run_state) : run_state :=
  let id := node_id node in
  if (cfg_attemptLimit cfg <=? totalAttempts s)%Z then
    let failure :=
      match lastFailure p with
      | Some f => runtimeFailure (failure_nodeId f) (failure_code f) (failure_message f) (failure_attempt f)
                    false (failure_causeName f) (failure_upstreamNodeIds f)
      | None =>
          runtimeFailure id ATTEMPT_BUDGET_EXHAUSTED
            (js "Run attempt budget was exhausted before node '" ++ id ++ js "' could start")
            (done_attempts p) false None None
      end in
    set_task id t (Settled (failed_result id t (done_attempts p) (Some failure))) (release s)
  else
    let s := Build_run_state (results s) (remaining s) (ready s) (active s) (slots s)
               (totalAttempts s + 1) (aborted s) (finished s) in
    set_task id t (Executing (done_attempts p + 1) (negb (aborted s))) s.

(** After the attempt: release the slot, then return, retry after a delay, or fall
    through to the loop's test. *)
Definition end_attempt (node : NodeSpec) (t : task) (n : Z) (outcome : AttemptOutcome) (s : run_state)
    : run_state :=
  let id := node_id node in
  let s := release s in
  match outcome with
  | AttemptSucceeded value =>
      set_task id t (Settled (node_result id NodeSucceeded n (Some (task_input t)) (Some value) None)) s
  | AttemptFailed code error =>
      let mayRetry := (n <? max_attempts node)%Z && negb (bool_decide (code = NODE_CANCELLED)) in
      let p := Build_progress n (Some (attempt_failure node code error n mayRetry)) in
      if mayRetry then
        let milliseconds := retryDelay (cfg_power cfg) node n in
        set_task id t (Delaying p (negb (num_leb milliseconds (num_of_Z 0)) && negb (aborted s))) s
      else loop_head node t p s
  end.

(** The start of [executeNode], up to its first [await]. *)
Definition executeNode (node : NodeSpec) (inp : json) (s : run_state) : run_state :=
  let id := node_id node in
  let executor := cfg_executor cfg node in
  let t := Build_task inp executor (Waiting (Build_progress 0 None)) in
  match executor with
  | None =>
      set_task id t
        (Settled (failed_result id t 0
          (Some (runtimeFailure id EXECUTOR_NOT_FOUND
            (js "No executor is registered for node '" ++ id ++ js "' (kind '" ++
             kind_name (node_kind node) ++ js "')") 0 false None None)))) s
  | Some _ => loop_head node t (Build_progress 0 None) s
  end.

(** ** The main loop *)

(** [settle(nodeId, result)] *)
Definition settle (id : jsstr) (r : NodeRunResult) (s : run_state) : run_state :=
  let '(remaining', ready') :=
    foldl (λ st edge,
      let target := endpoint_node (edge_to edge) in
      let next := (degree_of st.1 target - 1)%Z in
      (map_set target next st.1, if (next =? 0)%Z then st.2 ++ [target] else st.2))
      (remaining s, ready s) (outgoing id) in
  Build_run_state (map_set id r (results s)) remaining' (sort_by compareReady ready') (active s)
    (slots s) (totalAttempts s) (aborted s) (finished s).

Definition succeeded (s : run_state) (id : jsstr) : bool :=
  match map_get id (results s) with
  | Some r => bool_decide (status r = NodeSucceeded)
  | None => false
  end.
Definition output_of (s : run_state) (id : jsstr) : option json := map_get id (results s) ≫= output.

Definition failed_upstream (s : run_state) (id : jsstr) : list jsstr :=
  sort_by compareUnicodeCodePoints
    (set_of_list (filter (λ u, succeeded s u = false) ((λ e, endpoint_node (edge_from e)) <$> incoming id))).

(** One iteration of [launchReady], for the node shifted from [ready]. *)
Definition launch (id : jsstr) (s : run_state) : run_state :=
  let failedUpstream := failed_upstream s id in
  if aborted s || (0 <? length failedUpstream)%nat then
    let failure :=
      if aborted s then
        runtimeFailure id NODE_CANCELLED
          (js "Node '" ++ id ++ js "' did not start because the run was cancelled") 0 false None None
      else
        runtimeFailure id UPSTREAM_FAILED
          (js "Node '" ++ id ++ js "' did not start because upstream nodes failed: " ++
           join (js ", ") failedUpstream) 0 false None (Some failedUpstream) in
    settle id (node_result id NodeSkipped 0 None None (Some failure)) s
  else
    match bindNodeInput (cfg_readonly cfg) id (incoming id) (cfg_input cfg) (output_of s) with
    | Err error =>
        settle id
          (node_result id NodeFailed 0 None None
            (Some (runtimeFailure id INPUT_BINDING_FAILED
              (js "Could not bind input for node '" ++ id ++ js "': " ++ errorMessage error) 0 false
              (Some (errorName error)) None))) s
    | Ok inp =>
        match find_node id with
        | Some node => executeNode node inp s
        | None => s
        end
    end.

(** [launchReady()]: a node is shifted at most once in a run. *)
Fixpoint launchReady (fuel : nat) (s : run_state) : run_state :=
  match fuel with
  | 0 => s
  | S fuel =>
      match ready s with
      | [] => s
      | id :: rest => launchReady fuel (launch id (with_ready s rest))
      end
  end.

(** The test of the main loop, up to [Promise.race]. *)
Definition enter_loop (s : run_state) : run_state :=
  let stop s :=
    Build_run_state (results s) (remaining s) (ready s) (active s) (slots s) (totalAttempts s)
      (aborted s) true in
  if (length (results s) <? length (graph_nodes graph))%nat then
    let s := launchReady (S (length (graph_nodes graph))) s in
    if (length (active s) =? 0)%nat then stop s else s
  else stop s.

(** The state before the first iteration. *)
Definition initial_state (signal_aborted : bool) : run_state :=
  let ids := node_id <$> graph_nodes graph in
  let remaining := build_inDegree ids (graph_edges graph) in
  Build_run_state [] remaining
    (sort_by compareReady (filter (λ id, degree_of remaining id = 0%Z) (cfg_order cfg)))
    [] new_semaphore 0 signal_aborted false.

(** ** Steps *)

Inductive label :=
  | Abort
  | Resume (id : jsstr)
  | AttemptDone (id : jsstr) (cancelled : bool) (event : attempt_event)
  | Complete (id : jsstr).

(** The abort listeners: waiters and listening delays are rejected. *)
Definition abort_task (t : task) : task :=
  Build_task (task_input t) (task_executor t)
    (match task_at t with
     | Waiting p => Rejected p
     | Delaying p true => DelayRejected p
     | st => st
     end).

Definition step (l : label) (s : run_state) : option run_state :=
  if finished s then None else
  match l with
  | Abort =>
      if aborted s then None
      else Some (Build_run_state (results s) (remaining s) (ready s) (prod_map id abort_task <$> active s)
                   (abort_waiters (slots s)) (totalAttempts s) true false)
  | Resume id =>
      t ← map_get id (active s); node ← find_node id;
      match task_at t with
      | Granted p => Some (begin_attempt node t p s)
      | Rejected p =>
          Some (set_task id t
            (Settled (failed_result id t (done_attempts p) (Some (cancelled_failure id (done_attempts p))))) s)
      | Delaying p _ => Some (loop_head node t p s)
      | DelayRejected p =>
          Some (set_task id t
            (Settled (failed_result id t (done_attempts p) (Some (cancelled_failure id (done_attempts p))))) s)
      | _ => None
      end
  | AttemptDone id cancelled event =>
      t ← map_get id (active s); node ← find_node id;
      match task_at t, task_executor t with
      | Executing n called, Some executor =>
          if event_allowed node executor called event && (negb cancelled || aborted s)
          then Some (end_attempt node t n
                 (executeAttempt (cfg_reason cfg) (task_input t) cancelled event) s)
          else None
      | _, _ => None
      end
  | Complete id =>
      t ← map_get id (active s);
      match task_at t with
      | Settled r => Some (enter_loop (settle id r (with_active s (map_delete id (active s)))))
      | _ => None
      end
  end.

(** A run: any sequence of steps from the state the main loop first waits in. *)
Definition run_start (signal_aborted : bool) : run_state := enter_loop (initial_state signal_aborted).
Definition run_step (s s' : run_state) : Prop := ∃ l, step l s = Some s'.
Definition reachable (signal_aborted : bool) (s : run_state) : Prop :=
  rtc run_step (run_start signal_aborted) s.

(** Run a given schedule. *)
Fixpoint run_labels (ls : list label) (s : run_state) : option run_state :=
  match ls with [] => Some s | l :: ls => s ← step l s; run_labels ls s end.

(** ** The report *)

(** The loop over the graph's outputs. *)
Definition bind_output (s : run_state) (st : open_record * bool * list GraphRunFailure)
    (p : jsstr * Endpoint) : open_record * bool * list GraphRunFailure :=
  let '(out, complete, failures) := st in
  let '(name, endpoint) := p in
  if succeeded s (endpoint_node endpoint) then
    match (v ← endpointValue endpoint (default JNull (output_of s (endpoint_node endpoint)));
           assign_property (cfg_readonly cfg) out name v) with
    | Ok out => (out, complete, failures)
    | Err error =>
        (out, false, failures ++
          [OutputBindingFailure (Build_OutputRunFailure
            (js "Could not bind graph output '" ++ name ++ js "': " ++ errorMessage error)
            name (endpoint_node endpoint) (endpoint_port endpoint))])
    end
  else (out, false, failures).

(** What [runGraph] returns once the main loop has stopped. *)
Definition run_report (graphHash : option jsstr) (s : run_state) : GraphRunResult :=
  let nodeResults := omap (λ id, map_get id (results s)) (cfg_order cfg) in
  let node_failures := omap (λ r, ExecutionRunFailure <$> failure r) nodeResults in
  let '(out, outputsComplete, failures) :=
    foldl (bind_output s) (empty_record, true, node_failures) (sort_by compare_keys (graph_outputs graph)) in
  let ok := negb (aborted s) && (length failures =? 0)%nat && outputsComplete in
  Build_GraphRunResult
    (if aborted s then RunCancelled else if ok then RunSucceeded else RunFailed)
    graphHash (if outputsComplete then Some (own_order (own_props out)) else None)
    nodeResults failures (observed (slots s)) (totalAttempts s).
End run.

(** ** [runGraph] *)

Inductive run_setup :=
  | SetupThrew (error : thrown)
  | SetupReported (r : GraphRunResult)
  | SetupRun (graphHash : option jsstr) (cfg : run_config) (signal_aborted : bool).

(** The report of a graph that does not compile. *)
Definition compile_report (compilation : CompilationResult) : GraphRunResult :=
  Build_GraphRunResult RunFailed (graphHash compilation) None []
    (CompilationRunFailure <$> filter (λ d, severity d = SeverityError) (diagnostics compilation)) 0 0.

Section setup.
Context (hashCanonicalSerialization : jsstr → jsstr) (reason : thrown).
Context (power : num → num → num) (readonly : jsstr → jsstr).

(** The part of [runGraph] before the main loop: the input is snapshot, the graph
    compiled; an invalid graph is reported without running anything. *)
Definition runGraph (h : heap) (graph input : value) (options : SchedulerOptions) : run_setup :=
  match snapshotGraphInput h input with
  | Err error => SetupThrew error
  | Ok graphInput =>
      let compilation := compileGraph hashCanonicalSerialization h graph in
      match captureCanonicalJson h graph ≫= λ c, Ok (graph_of_json c.1) with
      | Ok (Some spec) =>
          if valid compilation then
            SetupRun (graphHash compilation)
              (Build_run_config spec (concat (topologicalLayers compilation)) graphInput
                (select_executor options) (resolveConcurrency spec (option_concurrency options))
                (positiveInteger (graph_policies spec ≫= policy_maxTotalAttempts) MAX_SAFE_INTEGER)
                reason power readonly)
              (signal_aborted options)
          else SetupReported (compile_report compilation)
      | _ => SetupReported (compile_report compilation)
      end
  end.
End setup.
