(* ===== verification/SchedulerGraph.v ===== *)
(** * The scheduler's graph bookkeeping

    [remaining] counts the unsettled predecessors of a node, [ready] holds the
    nodes whose predecessors have all settled: every node is in exactly one of
    [results], [active] and [ready], or waits for a predecessor.  The invariant is
    stated with a list of nodes in limbo, for the moments in which a node has left
    one of the three and not yet entered another. *)
From S2P Require Import Prelude JsString JsNumber JsValue Dag Canonical SchemaValidation GraphIR.
From S2P Require Import Compiler CompilerSpec RuntimeTypes Semaphore Scheduler.

(** ** Configurations *)

(** What [runGraph] guarantees of a configuration it runs. *)
Record config_ok (cfg : run_config) : Prop := {
  co_ids : NoDup (graph_ids (cfg_graph cfg));
  co_closed : closed (graph_ids (cfg_graph cfg)) (graph_pairs (cfg_graph cfg));
  co_order : cfg_order cfg ≡ₚ graph_ids (cfg_graph cfg);
  co_topological : ∀ i j u v, cfg_order cfg !! i = Some u → cfg_order cfg !! j = Some v →
    edge (graph_pairs (cfg_graph cfg)) u v → i < j;
  co_concurrency : (1 ≤ cfg_concurrency cfg)%Z;
  co_limit : (1 ≤ cfg_attemptLimit cfg)%Z
}.

Section graph_invariant.
Context (cfg : run_config) (cfg_good : config_ok cfg).
Abbreviation ids := (graph_ids (cfg_graph cfg)).
Abbreviation pairs := (graph_pairs (cfg_graph cfg)).

(** ** Incoming and outgoing edges *)
Lemma elem_of_sources id u :
  u ∈ ((λ e, endpoint_node (edge_from e)) <$> incoming cfg id) ↔ edge pairs u id.
Proof.
  unfold incoming, edge, graph_pairs, edge_pairs. rewrite sort_by_Permutation, !list_elem_of_fmap. split.
  - intros (e & -> & He). apply list_elem_of_filter in He as [Ht He].
    exists e. split; [|done]. unfold edge_source, edge_target. by rewrite Ht.
  - intros (e & [= -> ->] & He). exists e. split; [done|]. by apply list_elem_of_filter.
Qed.

Lemma outgoing_targets id :
  (λ e, endpoint_node (edge_to e)) <$> outgoing cfg id ≡ₚ out_targets pairs id.
Proof.
  unfold outgoing. rewrite sort_by_Permutation. unfold out_targets, graph_pairs, edge_pairs.
  unfold edge_source, edge_target. induction (graph_edges (cfg_graph cfg)) as [|e es IH]; [done|].
  rewrite fmap_cons, !filter_cons. simpl. case_decide; csimpl; [|done]. by rewrite IH.
Qed.

Lemma find_node_Some id : id ∈ ids ↔ ∃ node, find_node cfg id = Some node ∧ node_id node = id.
Proof.
  unfold find_node. split.
  - intros Hid. assert (id ∈ ((λ n, (node_id n, n)) <$> graph_nodes (cfg_graph cfg)).*1) as Hk.
    { by rewrite <- list_fmap_compose. }
    apply map_get_elem_key in Hk as [n Hn]. exists n. split; [done|].
    apply map_get_Some_elem in Hn. apply list_elem_of_fmap in Hn as (m & [= -> ->] & _). done.
  - intros (n & Hn & <-). apply map_get_Some_elem in Hn.
    apply list_elem_of_fmap in Hn as (m & [= _ ->] & Hm). apply list_elem_of_fmap. by exists m.
Qed.

(** ** The invariant *)

(** The edges into [v] whose source has not settled. *)
Definition open_edges (s : run_state) (v : jsstr) : nat :=
  length (filter (λ e : jsstr * jsstr, e.2 = v ∧ e.1 ∉ (results s).*1) pairs).

(** The nodes that have become ready. *)
Definition placed (limbo : list jsstr) (s : run_state) : list jsstr :=
  limbo ++ (results s).*1 ++ (active s).*1 ++ ready s.

Record graph_inv (limbo : list jsstr) (s : run_state) : Prop := {
  gi_nodup : NoDup (placed limbo s);
  gi_ids : ∀ v, v ∈ placed limbo s → v ∈ ids;
  gi_remaining : ∀ v, degree_of (remaining s) v = Z.of_nat (open_edges s v);
  gi_ready : ∀ v, v ∈ ids → open_edges s v = 0 → v ∈ placed limbo s;
  gi_preds : ∀ v, v ∈ placed limbo s → open_edges s v = 0;
  gi_active : ∀ u v, v ∈ (active s).*1 → edge pairs u v → succeeded s u = true
}.

Lemma open_edges_zero s v : open_edges s v = 0 ↔ ∀ u, edge pairs u v → u ∈ (results s).*1.
Proof.
  unfold open_edges. split.
  - intros H u Hu. apply length_zero_iff_nil in H. destruct (decide (u ∈ (results s).*1)) as [|Hn]; [done|].
    assert ((u, v) ∈ filter (λ e : jsstr * jsstr, e.2 = v ∧ e.1 ∉ (results s).*1) pairs) as Hin
      by (by apply list_elem_of_filter).
    rewrite H in Hin. by apply not_elem_of_nil in Hin.
  - intros H. apply length_zero_iff_nil, elem_of_nil_inv. intros [u w] He.
    apply list_elem_of_filter in He as [[Hw Hu] He]. simpl in *. subst. by apply Hu, H.
Qed.

(** A result more closes the edges that leave its node. *)
Lemma open_edges_settle s s' id v :
  (∀ x, x ∈ (results s').*1 ↔ x = id ∨ x ∈ (results s).*1) → id ∉ (results s).*1 →
  open_edges s v = open_edges s' v + occurrences v (out_targets pairs id).
Proof.
  intros Hr Hid. unfold open_edges.
  assert (occurrences v (out_targets pairs id) =
    length (filter (λ e : jsstr * jsstr, e.2 = v ∧ e.1 = id) pairs)) as ->.
  { pose proof (occurrences_targets pairs [id] v (NoDup_singleton id)) as H. csimpl in H.
    rewrite app_nil_r in H. rewrite H. f_equal. apply list_filter_iff. intros e.
    by rewrite list_elem_of_singleton. }
  apply filter_length_split; intros e _; rewrite Hr.
  - destruct (decide (e.1 = id)) as [->|]; tauto.
  - tauto.
Qed.

Lemma settle_fold es deg rdy deg' rdy' :
  foldl (λ st edge,
    let target := endpoint_node (edge_to edge) in
    let next := (degree_of st.1 target - 1)%Z in
    (map_set target next st.1, if (next =? 0)%Z then st.2 ++ [target] else st.2)) (deg, rdy) es
    = (deg', rdy') →
  NoDup rdy → (∀ v, v ∈ rdy → degree_of deg v ≤ 0)%Z →
  let ts := (λ e, endpoint_node (edge_to e)) <$> es in
  (∀ v, degree_of deg' v = degree_of deg v - Z.of_nat (occurrences v ts))%Z ∧ NoDup rdy' ∧
  (∀ v, v ∈ rdy' ↔ v ∈ rdy ∨ (0 < degree_of deg v ≤ Z.of_nat (occurrences v ts)))%Z.
Proof.
  revert deg rdy. induction es as [|e es IH]; intros deg rdy H Hnd Hdeg; cbn [foldl] in H.
  - injection H as <- <-. unfold occurrences. simpl. split_and!; [lia|done|].
    intros v. split; [by left|]. intros [?|?]; [done|lia].
  - cbv zeta in H. cbn [fst snd] in H. set (t := endpoint_node (edge_to e)) in *.
    assert (∀ v, occurrences v ((λ e, endpoint_node (edge_to e)) <$> e :: es) =
      (if decide (v = t) then 1 else 0) + occurrences v ((λ e, endpoint_node (edge_to e)) <$> es)) as Hocc.
    { intros v. unfold occurrences. csimpl. rewrite filter_cons. fold t.
      destruct (decide (t = v)), (decide (v = t)); simpl; congruence || lia. }
    apply IH in H as (Hdeg' & Hnd' & Hrdy); clear IH.
    + cbv zeta. split_and!; [|done|]; intros v; rewrite ?Hdeg', ?Hrdy, Hocc, degree_of_map_set.
      * destruct (decide (v = t)) as [->|]; lia.
      * specialize (Hdeg v). destruct (degree_of deg t - 1 =? 0)%Z eqn:E; bool_hyps;
          rewrite ?elem_of_app, ?list_elem_of_singleton; destruct (decide (v = t)) as [->|]; naive_solver lia.
    + destruct (degree_of deg t - 1 =? 0)%Z eqn:E; bool_hyps; [|done]. apply NoDup_app.
      split_and!; [done| |apply NoDup_singleton]. intros v Hv ->%list_elem_of_singleton.
      specialize (Hdeg t Hv). lia.
    + intros v Hv. rewrite degree_of_map_set. specialize (Hdeg v).
      destruct (degree_of deg t - 1 =? 0)%Z eqn:E; bool_hyps;
        rewrite ?elem_of_app, ?list_elem_of_singleton in Hv; destruct (decide (v = t)) as [->|];
        naive_solver lia.
Qed.

Lemma succeeded_map_set s s' id r u :
  results s' = map_set id r (results s) → u ≠ id → succeeded s' u = succeeded s u.
Proof. intros Hr Hne. unfold succeeded. rewrite Hr, map_get_set. by rewrite decide_False. Qed.

(** [settle] moves a node from limbo to the results. *)
Lemma settle_inv id r s : graph_inv [id] s → graph_inv [] (settle cfg id r s).
Proof.
  intros [Hnd Hids Hrem Hready Hpreds Hact].
  assert (id ∉ (results s).*1 ∧ id ∉ (active s).*1 ∧ id ∉ ready s) as (Hid1 & Hid2 & Hid3).
  { unfold placed in Hnd. simpl in Hnd. apply NoDup_cons in Hnd as [Hn _]. set_solver. }
  unfold settle. destruct (foldl _ _ _) as [rem' rdy'] eqn:Hf.
  set (s' := Build_run_state _ _ _ _ _ _ _ _).
  assert (∀ x, x ∈ (results s').*1 ↔ x = id ∨ x ∈ (results s).*1) as Hr by apply map_set_keys_elem.
  assert (NoDup (ready s)) as Hndr.
  { unfold placed in Hnd. rewrite !NoDup_app in Hnd. tauto. }
  apply settle_fold in Hf as (Hdeg & Hnd' & Hrdy); [|done|].
  2: { intros v Hv. rewrite Hrem, Hpreds; [lia|]. unfold placed. set_solver. }
  assert (∀ v, open_edges s v = open_edges s' v + occurrences v (out_targets pairs id)) as Hopen.
  { intros v. by apply open_edges_settle. }
  assert (∀ v, occurrences v ((λ e, endpoint_node (edge_to e)) <$> outgoing cfg id) =
    occurrences v (out_targets pairs id)) as Hocc.
  { intros v. apply occurrences_Permutation, outgoing_targets. }
  assert (∀ v, v ∈ ready s' ↔ v ∈ ready s ∨ (open_edges s' v = 0 ∧ 0 < open_edges s v)) as Hrdy'.
  { intros v. simpl. rewrite elem_of_sort_by, Hrdy, Hocc, Hrem. specialize (Hopen v). naive_solver lia. }
  assert (∀ v, v ∈ placed [] s' ↔ v ∈ placed [id] s ∨ (open_edges s' v = 0 ∧ 0 < open_edges s v)) as Hpl.
  { intros v. unfold placed. rewrite !elem_of_app, Hr, Hrdy', list_elem_of_singleton. simpl.
    pose proof (not_elem_of_nil v). tauto. }
  split.
  - unfold placed in *. simpl. rewrite map_set_absent, fmap_app by done. simpl.
    assert ((results s).*1 ++ [id] ≡ₚ [id] ++ (results s).*1) as -> by apply Permutation_app_comm.
    rewrite sort_by_Permutation. rewrite <- (assoc_L (++)). rewrite !NoDup_app in Hnd.
    rewrite !NoDup_app. destruct Hnd as (? & Hd1 & ? & Hd2 & ? & Hd3 & ?).
    assert (∀ v, v ∈ [id] ∨ v ∈ (results s).*1 ∨ v ∈ (active s).*1 → v ∉ rdy') as Hfresh.
    { intros v Hv Hin. assert (v ∈ ready s') as Hin' by (simpl; by rewrite elem_of_sort_by).
      apply Hrdy' in Hin' as [Hin'|[_ Hlt]].
      - destruct Hv as [Hv|[Hv|Hv]]; [eapply Hd1|eapply Hd2|eapply Hd3]; try done; set_solver.
      - rewrite Hpreds in Hlt; [lia|]. unfold placed. set_solver. }
    split_and!; try done; intros v Hv; rewrite ?not_elem_of_app.
    + specialize (Hd1 v Hv). rewrite !not_elem_of_app in Hd1. split_and!; [tauto..|]. apply Hfresh. tauto.
    + specialize (Hd2 v Hv). rewrite not_elem_of_app in Hd2. split; [tauto|]. apply Hfresh. tauto.
    + apply Hfresh. tauto.
  - intros v [Hv|[Hz Hlt]]%Hpl; [by apply Hids|]. unfold open_edges in Hlt.
    destruct (filter _ pairs) as [|[u w] l] eqn:El; [simpl in Hlt; lia|].
    assert ((u, w) ∈ filter (λ e : jsstr * jsstr, e.2 = v ∧ e.1 ∉ (results s).*1) pairs) as Hin
      by (rewrite El; left).
    apply list_elem_of_filter in Hin as [[<- _] Hin]. by apply (co_closed _ cfg_good u w).
  - intros v. simpl. rewrite Hdeg, Hocc, Hrem. specialize (Hopen v). lia.
  - intros v Hv Hz. apply Hpl. destruct (decide (open_edges s v = 0)); [left; by apply Hready|right; lia].
  - intros v [Hv|[Hz _]]%Hpl; [|done]. specialize (Hpreds v Hv). specialize (Hopen v). lia.
  - intros u v Hv Hu. rewrite (succeeded_map_set s s' id r); [by eapply Hact|done|]. intros ->.
    assert (open_edges s v = 0) as Hz by (apply Hpreds; unfold placed; set_solver).
    by apply (proj1 (open_edges_zero s v) Hz) in Hu.
Qed.

(** ** Steps that keep the bookkeeping *)
Definition same_graph (s s' : run_state) : Prop :=
  results s' = results s ∧ remaining s' = remaining s ∧ ready s' = ready s ∧
  (active s').*1 = (active s).*1.

Lemma same_graph_refl s : same_graph s s.
Proof. done. Qed.
Lemma same_graph_trans s1 s2 s3 : same_graph s1 s2 → same_graph s2 s3 → same_graph s1 s3.
Proof. unfold same_graph. intros (-> & -> & -> & ->) (-> & -> & -> & ->). done. Qed.

Lemma same_graph_inv limbo s s' : same_graph s s' → graph_inv limbo s → graph_inv limbo s'.
Proof.
  intros (Hr & Hrem & Hrdy & Hk) [Hnd Hids Hdeg Hready Hpreds Hact].
  assert (placed limbo s' = placed limbo s) as Hp by (unfold placed; by rewrite Hr, Hk, Hrdy).
  assert (∀ v, open_edges s' v = open_edges s v) as Ho by (intros v; unfold open_edges; by rewrite Hr).
  split; rewrite ?Hp; try done.
  - intros v. by rewrite Hrem, Ho.
  - intros v. rewrite Ho. apply Hready.
  - intros v. rewrite Ho. apply Hpreds.
  - intros u v. unfold succeeded. rewrite Hr, Hk. apply Hact.
Qed.

Lemma set_task_same id t st s : id ∈ (active s).*1 → same_graph s (set_task id t st s).
Proof. intros Hid. split_and!; try done. simpl. by apply map_set_present_keys. Qed.

Lemma release_same s : same_graph s (release s).
Proof.
  unfold release. destruct (release_slot (slots s)) as [[id|] sl]; [|done]. simpl.
  destruct (map_get id (active s)) as [t|] eqn:E; [|done]. apply map_get_Some_key in E.
  destruct (task_at t); try done. eapply same_graph_trans; [|by apply set_task_same]. done.
Qed.

(** Acquiring a slot and the loop head set the task of the node, new or not. *)
Lemma loop_head_shape node t p s :
  ∃ st sl, loop_head cfg node t p s = set_task (node_id node) t st (with_slots s sl).
Proof.
  unfold loop_head, acquire_slot. destruct (_ <? _)%Z; [destruct (acquire _ _ _ _); by eexists _, _|].
  eexists (Settled _), (slots s). unfold set_task, with_active, with_slots. simpl. reflexivity.
Qed.

Lemma loop_head_same node t p s :
  node_id node ∈ (active s).*1 → same_graph s (loop_head cfg node t p s).
Proof.
  intros Hid. destruct (loop_head_shape node t p s) as (st & sl & ->).
  eapply same_graph_trans; [|by apply set_task_same]. done.
Qed.

Lemma begin_attempt_same node t p s :
  node_id node ∈ (active s).*1 → same_graph s (begin_attempt cfg node t p s).
Proof.
  intros Hid. unfold begin_attempt. destruct (_ <=? _)%Z.
  - pose proof (release_same s) as Hr. eapply same_graph_trans; [done|]. apply set_task_same.
    by destruct Hr as (_ & _ & _ & ->).
  - by apply (set_task_same (node_id node) t _ (Build_run_state _ _ _ _ _ _ _ _)).
Qed.

Lemma end_attempt_same node t n o s :
  node_id node ∈ (active s).*1 → same_graph s (end_attempt cfg node t n o s).
Proof.
  intros Hid. pose proof (release_same s) as Hr. unfold end_attempt.
  assert (node_id node ∈ (active (release s)).*1) as Hid' by (by destruct Hr as (_ & _ & _ & ->)).
  destruct o as [v|code e]; [|destruct (_ && _)];
    (eapply same_graph_trans; [exact Hr|]); [by apply set_task_same..|by apply loop_head_same].
Qed.

(** [executeNode] makes its node active. *)
Lemma executeNode_shape node inp s :
  ∃ st sl, executeNode cfg node inp s =
    set_task (node_id node) (Build_task inp (cfg_executor cfg node) st) st (with_slots s sl).
Proof.
  unfold executeNode. destruct (cfg_executor cfg node) as [e|] eqn:E.
  - destruct (loop_head_shape node (Build_task inp (Some e) (Waiting (Build_progress 0 None)))
      (Build_progress 0 None) s) as (st & sl & ->). by exists st, sl.
  - eexists (Settled _), (slots s). unfold set_task, with_active, with_slots. simpl. reflexivity.
Qed.

Lemma executeNode_inv node inp s :
  graph_inv [node_id node] s → (∀ u, edge pairs u (node_id node) → succeeded s u = true) →
  graph_inv [] (executeNode cfg node inp s) ∧
  results (executeNode cfg node inp s) = results s ∧
  length (active (executeNode cfg node inp s)) = S (length (active s)).
Proof.
  intros [Hnd Hids Hdeg Hready Hpreds Hact] Hsucc.
  destruct (executeNode_shape node inp s) as (st & sl & ->). set (id := node_id node) in *.
  assert (id ∉ (active s).*1) as Hid.
  { unfold placed in Hnd. simpl in Hnd. apply NoDup_cons in Hnd as [Hn _]. set_solver. }
  unfold set_task, with_active, with_slots. simpl. rewrite map_set_absent by done.
  set (s' := Build_run_state _ _ _ _ _ _ _ _).
  assert (placed [] s' ≡ₚ placed [id] s) as Hp.
  { unfold placed. simpl. rewrite fmap_app. simpl. rewrite <- (assoc_L (++)). simpl.
    rewrite <- Permutation_middle. by rewrite <- Permutation_middle. }
  split; [|split; [done|rewrite length_app; simpl; lia]]. split.
  - by rewrite Hp.
  - intros v. rewrite Hp. apply Hids.
  - exact Hdeg.
  - intros v. rewrite Hp. apply Hready.
  - intros v. rewrite Hp. apply Hpreds.
  - intros u v Hv Hu. unfold s' in Hv. simpl in Hv. rewrite fmap_app, elem_of_app in Hv.
    destruct Hv as [Hv|Hv]; [by eapply Hact|]. apply list_elem_of_singleton in Hv as ->. by apply Hsucc.
Qed.

(** ** [launchReady] *)
Lemma failed_upstream_nil s id :
  failed_upstream cfg s id = [] → ∀ u, edge pairs u id → succeeded s u = true.
Proof.
  intros H u Hu. destruct (succeeded s u) eqn:E; [done|]. exfalso.
  assert (u ∈ failed_upstream cfg s id) as Hin.
  { unfold failed_upstream. rewrite elem_of_sort_by, elem_of_set_of_list, list_elem_of_filter.
    split; [done|]. by apply elem_of_sources. }
  rewrite H in Hin. by apply not_elem_of_nil in Hin.
Qed.

Lemma settle_length id r s : id ∉ (results s).*1 →
  length (results (settle cfg id r s)) = S (length (results s)) ∧
  active (settle cfg id r s) = active s.
Proof.
  intros Hid. unfold settle. destruct (foldl _ _ _) as [rem' rdy']. simpl.
  rewrite map_set_absent, length_app by done. simpl. split; [lia|done].
Qed.

Lemma shift_ready id rest s :
  graph_inv [] s → ready s = id :: rest → graph_inv [id] (with_ready s rest).
Proof.
  intros [Hnd Hids Hdeg Hready Hpreds Hact] Hr.
  assert (placed [id] (with_ready s rest) ≡ₚ placed [] s) as Hp.
  { unfold placed. simpl. rewrite Hr. by rewrite !Permutation_middle. }
  split; [by rewrite Hp|intros v; rewrite Hp; auto|exact Hdeg| | |exact Hact]; intros v; rewrite Hp;
    [apply Hready|apply Hpreds].
Qed.

(** The nodes a state has settled or launched. *)
Definition launched (s : run_state) : nat := length (results s) + length (active s).

Lemma launch_inv id rest s :
  graph_inv [] s → ready s = id :: rest →
  let s' := launch cfg id (with_ready s rest) in graph_inv [] s' ∧ launched s' = S (launched s).
Proof.
  intros Hinv Hr. pose proof (shift_ready id rest s Hinv Hr) as Hlimbo.
  assert (id ∉ (results (with_ready s rest)).*1) as Hid.
  { pose proof (gi_nodup _ _ Hlimbo) as Hnd. unfold placed in Hnd. simpl in Hnd.
    apply NoDup_cons in Hnd as [Hn _]. simpl. set_solver. }
  assert (∀ r, let s' := settle cfg id r (with_ready s rest) in
    graph_inv [] s' ∧ launched s' = S (launched s)) as Hsettle.
  { intros r. split; [by apply settle_inv|]. unfold launched.
    destruct (settle_length id r _ Hid) as [-> ->]. simpl. lia. }
  cbv zeta. unfold launch. destruct (_ || _) eqn:E; [apply Hsettle|]. bool_hyps.
  destruct (bindNodeInput _ _ _ _ _) as [inp|error]; [|apply Hsettle].
  assert (id ∈ ids) as Hin by (eapply (gi_ids _ _ Hlimbo); unfold placed; set_solver).
  apply find_node_Some in Hin as (node & -> & <-).
  destruct (executeNode_inv node inp _ Hlimbo) as (H1 & H2 & H3).
  - apply failed_upstream_nil, length_zero_iff_nil. lia.
  - split; [done|]. unfold launched. rewrite H2, H3. simpl. lia.
Qed.

Lemma launchReady_inv fuel s :
  graph_inv [] s → length ids < fuel + launched s →
  graph_inv [] (launchReady cfg fuel s) ∧ ready (launchReady cfg fuel s) = [].
Proof.
  revert s. induction fuel as [|fuel IH]; intros s Hinv Hfuel.
  - exfalso. assert (launched s ≤ length ids); [|lia].
    unfold launched. rewrite <- (length_fmap fst (results s)), <- (length_fmap fst (active s)), <- length_app.
    apply submseteq_length, NoDup_submseteq.
    + pose proof (gi_nodup _ _ Hinv) as Hnd. unfold placed in Hnd. simpl in Hnd.
      rewrite (assoc_L (++)) in Hnd. by apply NoDup_app in Hnd as [Hnd _].
    + intros v Hv. apply (gi_ids _ _ Hinv). unfold placed. set_solver.
  - simpl. destruct (ready s) as [|id rest] eqn:Hr; [done|].
    destruct (launch_inv id rest s Hinv Hr) as [H1 H2]. apply IH; [done|lia].
Qed.

(** Only the main loop stops a run. *)
Lemma settle_finished id r s : finished (settle cfg id r s) = finished s.
Proof. unfold settle. by destruct (foldl _ _ _). Qed.

Lemma launch_finished id s : finished (launch cfg id s) = finished s.
Proof.
  unfold launch. destruct (_ || _); [by rewrite settle_finished|].
  destruct (bindNodeInput _ _ _ _ _); [|by rewrite settle_finished].
  destruct (find_node _ _) as [node|]; [|done].
  by destruct (executeNode_shape node a s) as (st & sl & ->).
Qed.

Lemma launchReady_finished fuel s : finished (launchReady cfg fuel s) = finished s.
Proof.
  revert s. induction fuel as [|fuel IH]; intros s; simpl; [done|].
  destruct (ready s) as [|id rest]; [done|]. by rewrite IH, launch_finished.
Qed.

(** ** The main loop *)

(** When nothing is ready or active, everything has settled. *)
Lemma all_settled s : graph_inv [] s → ready s = [] → active s = [] → (results s).*1 ≡ₚ ids.
Proof.
  intros [Hnd Hids _ Hready _ _] Hr Ha. unfold placed in *. simpl in *. rewrite Hr, Ha, app_nil_r in *.
  apply NoDup_Permutation; [done|apply (co_ids _ cfg_good)|]. intros v. split; [apply Hids|].
  intros Hv. rewrite <- (co_order _ cfg_good) in Hv. apply list_elem_of_lookup in Hv as [i Hi].
  revert v Hi. induction (lt_wf i) as [i _ IH]. intros v Hi.
  apply Hready.
  - rewrite <- (co_order _ cfg_good). by eapply list_elem_of_lookup_2.
  - apply open_edges_zero. intros u Hu.
    assert (u ∈ cfg_order cfg) as Hin.
    { rewrite (co_order _ cfg_good). by apply (co_closed _ cfg_good u v). }
    apply list_elem_of_lookup in Hin as [j Hj]. apply (IH j); [|done].
    by eapply (co_topological _ cfg_good).
Qed.

(** At an [await] of the main loop every ready node has been launched and a task
    is pending; when the loop has stopped, every node has a result. *)
Record loop_inv (s : run_state) : Prop := {
  li_graph : graph_inv [] s;
  li_waiting : finished s = false → ready s = [] ∧ active s ≠ [];
  li_stopped : finished s = true → (results s).*1 ≡ₚ ids
}.

Lemma enter_loop_inv s : graph_inv [] s → finished s = false → loop_inv (enter_loop cfg s).
Proof.
  intros Hinv Hfin. unfold enter_loop.
  assert (length ids = length (graph_nodes (cfg_graph cfg))) as Hlen by apply length_fmap.
  destruct (_ <? _) eqn:E; bool_hyps.
  - destruct (launchReady_inv (S (length (graph_nodes (cfg_graph cfg)))) s Hinv) as [H1 H2]; [lia|].
    destruct (length _ =? 0) eqn:E2; bool_hyps.
    + split; [eapply same_graph_inv; [|exact H1]; done|done|]. intros _. simpl. apply all_settled; [done..|].
      by apply length_zero_iff_nil.
    + split; [done| |].
      * intros _. split; [done|]. intros H. rewrite H in E2. done.
      * rewrite launchReady_finished, Hfin. done.
  - split; [eapply same_graph_inv; [|exact Hinv]; done|done|]. intros _. simpl.
    destruct Hinv as [Hnd Hids _ _ _ _]. unfold placed in *. simpl in *.
    apply submseteq_length_Permutation; [|rewrite Hlen, length_fmap; done].
    apply NoDup_submseteq; [by apply NoDup_app in Hnd as [? _]|]. intros v Hv. apply Hids. set_solver.
Qed.

(** ** Steps *)
Lemma find_node_id id node : find_node cfg id = Some node → node_id node = id.
Proof.
  intros Hn. apply map_get_Some_elem in Hn. apply list_elem_of_fmap in Hn as (m & [= -> ->] & _). done.
Qed.

Lemma delete_limbo id s :
  graph_inv [] s → id ∈ (active s).*1 → graph_inv [id] (with_active s (map_delete id (active s))).
Proof.
  intros [Hnd Hids Hdeg Hready Hpreds Hact] Hid.
  assert (NoDup (active s).*1) as Hnda.
  { unfold placed in Hnd. simpl in Hnd. rewrite !NoDup_app in Hnd. tauto. }
  assert ((active s).*1 ≡ₚ id :: (map_delete id (active s)).*1) as Hperm.
  { apply NoDup_Permutation; [done| |].
    - apply NoDup_cons. rewrite map_delete_keys, list_elem_of_filter. split; [tauto|by apply NoDup_filter].
    - intros v. rewrite elem_of_cons, map_delete_keys, list_elem_of_filter.
      destruct (decide (v = id)) as [->|]; tauto. }
  assert (placed [id] (with_active s (map_delete id (active s))) ≡ₚ placed [] s) as Hp.
  { unfold placed. simpl. rewrite Hperm. simpl. by rewrite Permutation_middle. }
  split; [by rewrite Hp|intros v; rewrite Hp; auto|exact Hdeg| | |]; try intros v; rewrite ?Hp.
  - apply Hready.
  - apply Hpreds.
  - intros w Hw. apply Hact. rewrite Hperm. by right.
Qed.

Lemma abort_same s :
  same_graph s (Build_run_state (results s) (remaining s) (ready s) (prod_map id abort_task <$> active s)
    (abort_waiters (slots s)) (totalAttempts s) true false).
Proof. split_and!; try done. simpl. by rewrite <- list_fmap_compose. Qed.

Lemma set_task_finished id t st s : finished (set_task id t st s) = finished s.
Proof. done. Qed.
Lemma release_finished s : finished (release s) = finished s.
Proof.
  unfold release. destruct (release_slot (slots s)) as [[id|] sl]; [|done]. simpl.
  destruct (map_get id (active s)) as [t|]; [|done]. by destruct (task_at t).
Qed.
Lemma loop_head_finished node t p s : finished (loop_head cfg node t p s) = finished s.
Proof. by destruct (loop_head_shape node t p s) as (st & sl & ->). Qed.

(** The steps of the tasks leave the bookkeeping alone. *)
Lemma task_step_same l s s' :
  step cfg l s = Some s' → (∀ id, l ≠ Complete id) → same_graph s s' ∧ finished s' = false.
Proof.
  unfold step. intros H Hl. destruct (finished s) eqn:Hfin; [done|].
  destruct l as [|id|id c ev|id]; [| | |by destruct (Hl id)].
  - destruct (aborted s); [done|]. injection H as <-. split; [apply abort_same|done].
  - apply bind_Some in H as (t & Ht & H). apply bind_Some in H as (node & Hn & H).
    apply find_node_id in Hn. apply map_get_Some_key in Ht. rewrite <- Hn in Ht.
    destruct (task_at t) as [p|p|p|n called|p b|p|r]; simplify_eq/=.
    + split; [by apply begin_attempt_same|]. unfold begin_attempt.
      destruct (_ <=? _)%Z; [by rewrite set_task_finished, release_finished|done].
    + split; [by apply set_task_same|done].
    + split; [by apply loop_head_same|by rewrite loop_head_finished].
    + split; [by apply set_task_same|done].
  - apply bind_Some in H as (t & Ht & H). apply bind_Some in H as (node & Hn & H).
    apply find_node_id in Hn. apply map_get_Some_key in Ht. rewrite <- Hn in Ht.
    destruct (task_at t) as [p|p|p|n called|p b|p|r]; try done.
    destruct (task_executor t) as [e|]; [|done]. destruct (_ && _); [|done]. injection H as <-.
    split; [by apply end_attempt_same|]. unfold end_attempt.
    destruct (executeAttempt _ _ _ _); [|destruct (_ && _)];
      by rewrite ?set_task_finished, ?loop_head_finished, release_finished.
Qed.

Lemma step_loop_inv l s s' : loop_inv s → step cfg l s = Some s' → loop_inv s'.
Proof.
  intros [Hinv Hw Hs] H.
  assert ((∃ id, l = Complete id) ∨ (∀ id, l ≠ Complete id)) as [[id ->]|Hl]
    by (destruct l; [right|right|right|left]; eauto; done).
  - unfold step in H. destruct (finished s) eqn:Hfin; [done|].
    apply bind_Some in H as (t & Ht & H). destruct (task_at t); try done. injection H as <-.
    apply enter_loop_inv; [|by rewrite settle_finished]. apply settle_inv, delete_limbo; [done|].
    by apply map_get_Some_key in Ht.
  - destruct (task_step_same l s s' H) as [Hsame Hf]; [done|].
    assert (finished s = false) as Hfin.
    { unfold step in H. by destruct (finished s). }
    split; [by eapply same_graph_inv| |by rewrite Hf].
    intros _. destruct (Hw Hfin) as [Hr Ha]. destruct Hsame as (_ & _ & -> & Hk). split; [done|].
    intros Ha'. rewrite Ha' in Hk. by destruct (active s).
Qed.

Lemma initial_inv ab : graph_inv [] (initial_state cfg ab).
Proof.
  assert (∀ v, degree_of (remaining (initial_state cfg ab)) v =
    Z.of_nat (open_edges (initial_state cfg ab) v)) as Hdeg.
  { intros v. simpl. rewrite build_inDegree_spec. unfold in_degree, open_edges. simpl. do 2 f_equal.
    apply list_filter_iff. intros e. pose proof (not_elem_of_nil e.1). tauto. }
  assert (∀ v, v ∈ placed [] (initial_state cfg ab) ↔
    v ∈ ids ∧ open_edges (initial_state cfg ab) v = 0) as Hp.
  { intros v. specialize (Hdeg v). unfold placed. simpl in *.
    rewrite elem_of_sort_by, list_elem_of_filter, Hdeg, (co_order _ cfg_good). split; intros []; split; lia || done. }
  split.
  - unfold placed. simpl. rewrite sort_by_Permutation. apply NoDup_filter.
    rewrite (co_order _ cfg_good). apply (co_ids _ cfg_good).
  - intros v Hv. by apply Hp.
  - done.
  - intros v Hv Hz. by apply Hp.
  - intros v Hv. by apply Hp.
  - intros u v Hv. by apply not_elem_of_nil in Hv.
Qed.

Lemma reachable_loop_inv ab s : reachable cfg ab s → loop_inv s.
Proof.
  intros H. eapply rtc_invariant; [|exact H|apply enter_loop_inv; [apply initial_inv|done]].
  intros x y [l Hl] Hx. by eapply step_loop_inv.
Qed.

(** Results are never changed. *)
Lemma settle_results id r s v r' :
  id ∉ (results s).*1 → map_get v (results s) = Some r' → map_get v (results (settle cfg id r s)) = Some r'.
Proof.
  intros Hid Hv. unfold settle. destruct (foldl _ _ _). simpl. rewrite map_get_set.
  rewrite decide_False; [done|]. intros ->. by apply map_get_Some_key in Hv.
Qed.
End graph_invariant.
