(* ===== verification/SchedulerTasks.v ===== *)
(** * The scheduler's tasks

    The invariant of the suspended [executeNode] calls: who holds a slot, who
    waits for one, how many attempts each has made, and what a result may say. *)
From S2P Require Import Prelude JsString JsNumber JsValue Dag Canonical SchemaValidation GraphIR.
From S2P Require Import Compiler CompilerSpec RuntimeTypes Semaphore Scheduler SchedulerGraph.

(** ** What a task holds *)
Definition holds (t : task) : Z :=
  match task_at t with Granted _ | Executing _ _ => 1 | _ => 0 end.
Definition is_waiting (t : task) : bool :=
  match task_at t with Waiting _ => true | _ => false end.
Definition task_attempts (t : task) : Z :=
  match task_at t with
  | Waiting p | Granted p | Rejected p | Delaying p _ | DelayRejected p => done_attempts p
  | Executing n _ => n
  | Settled r => attempts r
  end.

Section tasks.
Context (cfg : run_config) (cfg_good : config_ok cfg).

(** ** The slots

    [owe] is the number of slots that were just released by tasks whose entry
    still shows them. *)
Record slots_ok (owe : Z) (ab : bool) (sl : semaphore) (act : list (jsstr * task)) : Prop := {
  so_sem : semaphore_ok (cfg_concurrency cfg) sl;
  so_running : (running sl + owe)%Z = map_sum holds act;
  so_nodup : NoDup (live sl);
  so_live : ∀ v, v ∈ live sl ↔ ∃ t, map_get v act = Some t ∧ is_waiting t = true;
  so_aborted : ab = true → live sl = [];
  so_keys : NoDup act.*1
}.

Lemma holds_range t : (0 ≤ holds t ≤ 1)%Z.
Proof. unfold holds. destruct (task_at t); lia. Qed.

(** The entry of a node that is not in the queue. *)
Definition not_waiting (id : jsstr) (act : list (jsstr * task)) : Prop :=
  ∀ t, map_get id act = Some t → is_waiting t = false.

Lemma live_set act id t1 v :
  not_waiting id act → is_waiting t1 = false →
  (∃ t, map_get v (map_set id t1 act) = Some t ∧ is_waiting t = true) ↔
  (∃ t, map_get v act = Some t ∧ is_waiting t = true).
Proof.
  intros Hid H1. setoid_rewrite map_get_set. destruct (decide (v = id)) as [->|]; [|done].
  split; intros (t & Ht & Hw).
  - congruence.
  - specialize (Hid t Ht). congruence.
Qed.

Lemma set_slots_ok owe ab sl act id t1 :
  slots_ok owe ab sl act → not_waiting id act → is_waiting t1 = false →
  slots_ok (owe - map_part holds id act + holds t1) ab sl (map_set id t1 act).
Proof.
  intros [Hsem Hrun Hnd Hlive Hab Hk] Hid H1. split; try done.
  - rewrite map_sum_set by done. lia.
  - intros v. rewrite live_set by done. apply Hlive.
  - by apply map_set_NoDup.
Qed.

Lemma acquire_slots_ok ab sl act id inp exec p r sl' :
  slots_ok (map_part holds id act) ab sl act → not_waiting id act →
  acquire (cfg_concurrency cfg) ab id sl = (r, sl') →
  slots_ok 0 ab sl'
    (map_set id (Build_task inp exec
      (match r with Grant => Granted p | Enqueue => Waiting p | Reject => Rejected p end)) act).
Proof.
  intros Hok Hid H. pose proof Hok as [Hsem Hrun Hnd Hlive Hab Hk].
  destruct (acquire_spec _ _ _ _ _ _ Hsem H) as [Hsem' Hr]. destruct r.
  - destruct Hr as (-> & Hl & Hrun'). split; try done.
    + rewrite map_sum_set by done. cbn [holds task_at]. lia.
    + by rewrite Hl.
    + intros v. rewrite live_set by done. rewrite Hl. apply Hlive.
    + by apply map_set_NoDup.
  - destruct Hr as (-> & Hl & Hrun').
    assert (id ∉ live sl) as Hn.
    { intros Hin. apply Hlive in Hin as (t & Ht & Hw). specialize (Hid t Ht). congruence. }
    split; try done.
    + rewrite map_sum_set by done. cbn [holds task_at]. lia.
    + rewrite Hl. apply NoDup_app. split_and!; [done| |apply NoDup_singleton].
      intros v Hv ->%list_elem_of_singleton. done.
    + intros v. rewrite Hl, elem_of_app, list_elem_of_singleton, Hlive. setoid_rewrite map_get_set.
      destruct (decide (v = id)) as [->|Hne].
      * split; [|by right]. intros _. eexists. split; [done|]. done.
      * split; [intros [?|?]; done|by left].
    + by apply map_set_NoDup.
  - destruct Hr as (-> & ->).
    pose proof (set_slots_ok _ _ _ _ id (Build_task inp exec (Rejected p)) Hok Hid eq_refl) as H'.
    cbn [holds task_at] in H'. by rewrite Z.sub_diag in H'.
Qed.

(** The release by one holder; the next waiter's entry becomes [Granted]. *)
Lemma release_slots_ok s id t :
  slots_ok 0 (aborted s) (slots s) (active s) → map_get id (active s) = Some t → holds t = 1%Z →
  slots_ok 1 (aborted s) (slots (release s)) (active (release s)) ∧
  map_get id (active (release s)) = Some t.
Proof.
  intros Hok Ht Hh. pose proof Hok as [Hsem Hrun Hnd Hlive Hab Hk].
  assert (0 < running (slots s))%Z as Hpos.
  { pose proof (map_part_le_sum holds id (active s) Hk (λ _ v _, proj1 (holds_range v))) as Hle.
    unfold map_part in Hle. rewrite Ht in Hle. lia. }
  unfold release. destruct (release_slot (slots s)) as [granted sl] eqn:Hrel.
  destruct (release_slot_spec _ _ _ _ Hsem Hpos Hrel) as [Hsem' Hg]. destruct granted as [n|]; simpl.
  - destruct Hg as [Hl Hrun']. assert (n ∈ live (slots s)) as Hn by (rewrite Hl; left).
    apply Hlive in Hn as (tn & Htn & Hwn). rewrite Htn.
    destruct (task_at tn) as [p| | | | | |] eqn:Hat; try (unfold is_waiting in Hwn; rewrite Hat in Hwn; done).
    assert (n ≠ id) as Hne.
    { intros ->. rewrite Ht in Htn. injection Htn as <-. unfold holds in Hh. rewrite Hat in Hh. done. }
    simpl. split; [|by rewrite map_get_set, decide_False].
    rewrite Hl in Hnd. apply NoDup_cons in Hnd as [Hn Hnd]. split; try done.
    + rewrite map_sum_set by done. unfold map_part. rewrite Htn. assert (holds tn = 0%Z) as -> by (unfold holds; by rewrite Hat). cbn [holds task_at]. lia.
    + intros v. setoid_rewrite map_get_set. destruct (decide (v = n)) as [->|Hvn].
      * split; [done|]. intros (t' & [= <-] & Hw). done.
      * rewrite <- Hlive, Hl, elem_of_cons. tauto.
    + intros Ha. specialize (Hab Ha). rewrite Hl in Hab. done.
    + by apply map_set_NoDup.
  - destruct Hg as (Hl & Hl' & Hrun'). split; [|done]. split; try done.
    + lia.
    + rewrite Hl'. constructor.
    + intros v. by rewrite Hl', <- Hl, Hlive.
Qed.

Lemma abort_slots_ok sl act :
  slots_ok 0 false sl act → slots_ok 0 true (abort_waiters sl) (prod_map id abort_task <$> act).
Proof.
  intros [Hsem Hrun Hnd Hlive Hab Hk].
  destruct (abort_waiters_spec _ _ Hsem) as (Hsem' & Hl & Hr).
  assert (∀ t, holds (abort_task t) = holds t ∧ is_waiting (abort_task t) = false) as Habort.
  { intros t. unfold holds, is_waiting, abort_task. simpl. by destruct (task_at t) as [| | | |? []| |]. }
  assert (∀ v, map_get v (prod_map id abort_task <$> act) = abort_task <$> map_get v act) as Hget.
  { intros v. clear. induction act as [|[k t] act IH]; [done|]. csimpl. by case_decide. }
  split; try done.
  - rewrite Hr, Hrun. clear -Habort. induction act as [|[k t] act IH]; [done|].
    rewrite fmap_cons. change (holds t + map_sum holds act = holds (abort_task t) +
      map_sum holds (prod_map id abort_task <$> act))%Z.
    destruct (Habort t) as [-> _]. by rewrite <- IH.
  - rewrite Hl. constructor.
  - intros v. rewrite Hl, Hget. split; [by intros ?%not_elem_of_nil|].
    intros (t & Ht & Hw). apply fmap_Some in Ht as (t' & _ & ->). by rewrite (proj2 (Habort t')) in Hw.
  - by rewrite <- list_fmap_compose.
Qed.

Lemma delete_slots_ok ab sl act id t :
  slots_ok 0 ab sl act → map_get id act = Some t → holds t = 0%Z → is_waiting t = false →
  slots_ok 0 ab sl (map_delete id act).
Proof.
  intros [Hsem Hrun Hnd Hlive Hab Hk] Ht Hh Hw. split; try done.
  - rewrite map_sum_delete by done. unfold map_part. rewrite Ht. lia.
  - intros v. rewrite Hlive. setoid_rewrite map_get_delete. destruct (decide (v = id)) as [->|]; [|done].
    split; [intros (t' & Ht' & Hw')|intros (t' & ? & _)]; congruence.
  - rewrite map_delete_keys. by apply NoDup_filter.
Qed.

(** ** Attempts and results *)

(** What a node's result may say. *)
Definition result_ok (id : jsstr) (r : NodeRunResult) : Prop :=
  nodeId r = id ∧ sequence r = sequence_of cfg id ∧
  ∃ node, find_node cfg id = Some node ∧ (0 ≤ attempts r ≤ max_attempts node)%Z ∧
  match status r with
  | NodeSucceeded => failure r = None ∧ (1 ≤ attempts r)%Z ∧ is_Some (output r)
  | NodeFailed => is_Some (failure r) ∧ output r = None
  | NodeSkipped => is_Some (failure r) ∧ output r = None ∧ attempts r = 0%Z
  end.

Definition progress_ok (node : NodeSpec) (p : progress) : Prop :=
  (0 ≤ done_attempts p ≤ max_attempts node)%Z ∧
  ((0 < done_attempts p)%Z → is_Some (lastFailure p)).

Definition task_ok (id : jsstr) (t : task) : Prop :=
  ∃ node, find_node cfg id = Some node ∧ task_executor t = cfg_executor cfg node ∧
  match task_at t with
  | Waiting p | Granted p | Rejected p =>
      progress_ok node p ∧ (done_attempts p < max_attempts node)%Z ∧ is_Some (task_executor t)
  | Delaying p _ | DelayRejected p =>
      progress_ok node p ∧ (1 ≤ done_attempts p < max_attempts node)%Z ∧ is_Some (task_executor t)
  | Executing n _ => (1 ≤ n ≤ max_attempts node)%Z ∧ is_Some (task_executor t)
  | Settled r => result_ok id r ∧ status r ≠ NodeSkipped
  end.

Record task_inv (owe : Z) (s : run_state) : Prop := {
  ti_slots : slots_ok owe (aborted s) (slots s) (active s);
  ti_total : totalAttempts s = (map_sum attempts (results s) + map_sum task_attempts (active s))%Z;
  ti_limit : (totalAttempts s ≤ cfg_attemptLimit cfg)%Z;
  ti_tasks : ∀ id t, map_get id (active s) = Some t → task_ok id t;
  ti_results : ∀ id r, map_get id (results s) = Some r → result_ok id r;
  ti_keys : NoDup (results s).*1
}.

Lemma max_attempts_pos node : (1 ≤ max_attempts node)%Z.
Proof.
  unfold max_attempts, positiveInteger. destruct (node_retry node ≫= retry_maxAttempts) as [z|]; [|lia].
  destruct (0 <? z)%Z eqn:E; bool_hyps; lia.
Qed.

Lemma find_node_self id node : find_node cfg id = Some node → find_node cfg (node_id node) = Some node.
Proof. intros H. by rewrite (find_node_id cfg id node H). Qed.

(** A task that ends with a failure. *)
Lemma failed_task_ok id node inp e t n f :
  find_node cfg id = Some node → e = cfg_executor cfg node → (0 ≤ n ≤ max_attempts node)%Z → is_Some f →
  task_ok id (Build_task inp e (Settled (failed_result cfg id t n f))).
Proof. intros Hn He Hr Hf. exists node. split_and!; [done..|]. split; [|done]. split_and!; [done..|]. by exists node. Qed.

(** Suspending a task elsewhere, when the run's total moves with its attempts. *)
Lemma set_task_inv owe s s' id t t1 :
  task_inv owe s → map_get id (active s) = Some t → is_waiting t = false → is_waiting t1 = false →
  task_ok id t1 → active s' = active s → results s' = results s → slots s' = slots s →
  aborted s' = aborted s → totalAttempts s' = (totalAttempts s - task_attempts t + task_attempts t1)%Z →
  (totalAttempts s' ≤ cfg_attemptLimit cfg)%Z →
  task_inv (owe - holds t + holds t1) (with_active s' (map_set id t1 (active s'))).
Proof.
  intros [Hsl Htot Hlim Htasks Hres Hk] Ht Hw Hw1 Hok Ha Hr Hs Hab Htot' Hlim'.
  pose proof (so_keys _ _ _ _ Hsl) as Hka.
  split; simpl; rewrite ?Ha, ?Hr, ?Hs, ?Hab; try done.
  - assert (holds t = map_part holds id (active s)) as -> by (unfold map_part; by rewrite Ht).
    apply set_slots_ok; [done| |done]. intros t' Ht'. congruence.
  - rewrite map_sum_set by done. unfold map_part. rewrite Ht. lia.
  - intros v t'. rewrite map_get_set. destruct (decide (v = id)) as [->|]; [intros [= <-]; done|auto].
Qed.

(** A settled or rejected task. *)
Lemma finish_task_inv owe s id t st :
  task_inv owe s → map_get id (active s) = Some t → is_waiting t = false →
  let t1 := Build_task (task_input t) (task_executor t) st in
  is_waiting t1 = false → holds t1 = 0%Z → task_attempts t1 = task_attempts t → task_ok id t1 →
  owe = holds t → task_inv 0 (set_task id t st s).
Proof.
  intros Hinv Ht Hw t1 Hw1 Hh Hatt Hok ->.
  replace 0%Z with (holds t - holds t + holds t1)%Z by lia.
  apply (set_task_inv _ s s id t t1 Hinv Ht Hw Hw1 Hok); try done; [lia|apply Hinv].
Qed.

Lemma release_inv s id t :
  task_inv 0 s → map_get id (active s) = Some t → holds t = 1%Z →
  task_inv 1 (release s) ∧ map_get id (active (release s)) = Some t ∧
  totalAttempts (release s) = totalAttempts s ∧ aborted (release s) = aborted s.
Proof.
  intros Hinv Ht Hh. pose proof Hinv as [Hsl Htot Hlim Htasks Hres Hk].
  destruct (release_slots_ok s id t Hsl Ht Hh) as [Hsl' Ht'].
  assert (aborted (release s) = aborted s ∧ totalAttempts (release s) = totalAttempts s ∧
    results (release s) = results s ∧
    ((∃ n tn p, map_get n (active s) = Some tn ∧ task_at tn = Waiting p ∧
       active (release s) = map_set n (Build_task (task_input tn) (task_executor tn) (Granted p)) (active s)) ∨
     active (release s) = active s)) as (Hab & Htot' & Hres' & Hact).
  { unfold release. destruct (release_slot (slots s)) as [[n|] sl]; [|by auto]. simpl.
    destruct (map_get n (active s)) as [tn|] eqn:Hn; [|by auto].
    destruct (task_at tn) as [p| | | | | |] eqn:Hp; split_and!; try done; [|by right..].
    left. by exists n, tn, p. }
  split; [|done]. split; rewrite ?Hab, ?Hres', ?Htot'; try done.
  - destruct Hact as [(n & tn & p & Hn & Hp & ->)| ->]; [|done].
    rewrite map_sum_set by apply Hsl. unfold map_part. rewrite Hn.
    assert (task_attempts tn = done_attempts p) as -> by (unfold task_attempts; by rewrite Hp).
    cbn [task_attempts task_at]. lia.
  - intros v t'. destruct Hact as [(n & tn & p & Hn & Hp & ->)| ->]; [|apply Htasks].
    rewrite map_get_set. destruct (decide (v = n)) as [->|]; [|apply Htasks]. intros [= <-].
    destruct (Htasks n tn Hn) as (node & Hnode & He & Hok). rewrite Hp in Hok. by exists node.
Qed.

(** The loop head: the task goes for a slot, or returns its last failure. *)
Lemma loop_head_inv s id node t p :
  task_inv (map_part holds id (active s)) s → find_node cfg id = Some node →
  not_waiting id (active s) → task_executor t = cfg_executor cfg node → is_Some (task_executor t) →
  progress_ok node p → map_part task_attempts id (active s) = done_attempts p →
  task_inv 0 (loop_head cfg node t p s).
Proof.
  intros [Hsl Htot Hlim Htasks Hres Hk] Hnode Hw He Hsome [Hp Hlast] Hatt.
  pose proof (find_node_id cfg id node Hnode) as Hid. unfold loop_head, acquire_slot. rewrite Hid.
  pose proof (so_keys _ _ _ _ Hsl) as Hka.
  destruct (done_attempts p <? max_attempts node)%Z eqn:E; bool_hyps.
  - destruct (acquire (cfg_concurrency cfg) (aborted s) id (slots s)) as [r sl] eqn:Hacq.
    pose proof (acquire_slots_ok _ _ _ id (task_input t) (task_executor t) p _ _ Hsl Hw Hacq) as Hsl'.
    split; simpl; try done.
    + rewrite map_sum_set by done. rewrite Htot, Hatt.
      assert (∀ i e, task_attempts (Build_task i e (match r with Grant => Granted p | Enqueue => Waiting p
        | Reject => Rejected p end)) = done_attempts p) as -> by (intros; by destruct r). lia.
    + intros v t'. rewrite map_get_set. destruct (decide (v = id)) as [->|]; [|apply Htasks].
      intros [= <-]. exists node. split_and!; [done..|]. simpl. by destruct r.
  - split; simpl; try done.
    + set (t1 := Build_task _ _ _). pose proof (set_slots_ok _ _ _ _ id t1 Hsl Hw eq_refl) as Hsl'.
      cbn [holds task_at t1] in Hsl'. by rewrite Z.sub_diag in Hsl'.
    + rewrite map_sum_set by done. rewrite Htot, Hatt. cbn [task_attempts task_at attempts failed_result node_result]. lia.
    + intros v t'. rewrite map_get_set. destruct (decide (v = id)) as [->|]; [|apply Htasks].
      intros [= <-]. apply (failed_task_ok id node); [done|done|lia|]. apply Hlast.
      pose proof (max_attempts_pos node). lia.
Qed.

Lemma begin_attempt_inv s id node t p :
  task_inv 0 s → map_get id (active s) = Some t → find_node cfg id = Some node → task_at t = Granted p →
  task_inv 0 (begin_attempt cfg node t p s).
Proof.
  intros Hinv Ht Hnode Hat. pose proof (ti_tasks _ _ Hinv id t Ht) as (node' & Hn' & He & Hok).
  rewrite Hnode in Hn'. injection Hn' as <-. rewrite Hat in Hok. destruct Hok as ([Hp Hlast] & Hlt & Hsome).
  assert (holds t = 1%Z) as Hh by (unfold holds; by rewrite Hat).
  assert (is_waiting t = false) as Hw by (unfold is_waiting; by rewrite Hat).
  assert (task_attempts t = done_attempts p) as Hatt by (unfold task_attempts; by rewrite Hat).
  pose proof (find_node_id cfg id node Hnode) as Hid.
  unfold begin_attempt. rewrite Hid. destruct (cfg_attemptLimit cfg <=? totalAttempts s)%Z eqn:E; bool_hyps.
  - destruct (release_inv s id t Hinv Ht Hh) as (Hinv' & Ht' & _).
    apply (finish_task_inv 1); try done.
    apply (failed_task_ok id node); [done|done|lia|]. by destruct (lastFailure p).
  - set (s' := Build_run_state _ _ _ _ _ _ _ _).
    set (t1 := Build_task (task_input t) (task_executor t) (Executing (done_attempts p + 1) (negb (aborted s')))).
    assert (task_inv (0 - holds t + holds t1) (with_active s' (map_set id t1 (active s')))) as H.
    { apply (set_task_inv 0 s s' id t t1); try done; simpl.
      - exists node. split_and!; [done..|]. simpl. split; [lia|done].
      - rewrite Hatt. cbn [task_attempts task_at t1]. lia.
      - lia. }
    rewrite Hh in H. exact H.
Qed.

Lemma not_waiting_task s id t :
  map_get id (active s) = Some t → is_waiting t = false → not_waiting id (active s).
Proof. intros Ht Hw t' Ht'. congruence. Qed.

Lemma end_attempt_inv s id node t n called outcome :
  task_inv 0 s → map_get id (active s) = Some t → find_node cfg id = Some node →
  task_at t = Executing n called → task_inv 0 (end_attempt cfg node t n outcome s).
Proof.
  intros Hinv Ht Hnode Hat. pose proof (ti_tasks _ _ Hinv id t Ht) as (node' & Hn' & He & Hok).
  rewrite Hnode in Hn'. injection Hn' as <-. rewrite Hat in Hok. destruct Hok as (Hn & Hsome).
  assert (holds t = 1%Z) as Hh by (unfold holds; by rewrite Hat).
  assert (is_waiting t = false) as Hw by (unfold is_waiting; by rewrite Hat).
  assert (task_attempts t = n) as Hatt by (unfold task_attempts; by rewrite Hat).
  pose proof (find_node_id cfg id node Hnode) as Hid.
  destruct (release_inv s id t Hinv Ht Hh) as (Hinv' & Ht' & _ & _).
  unfold end_attempt. rewrite Hid. destruct outcome as [v|code error].
  - apply (finish_task_inv 1); try done.
    exists node. split_and!; [done..|]. simpl. split; [|done]. split_and!; [done..|]. exists node. simpl.
    split_and!; try done; try lia; by exists v.
  - destruct (_ && _) eqn:E.
    + bool_hyps. apply (finish_task_inv 1); try done. exists node. split_and!; [done..|]. simpl.
      split_and!; [split; simpl; [lia|done]|lia|lia|done].
    + apply (loop_head_inv _ id); try done.
      * unfold map_part. by rewrite Ht', Hh.
      * by eapply not_waiting_task.
      * split; simpl; [lia|done].
      * unfold map_part. by rewrite Ht'.
Qed.

Lemma executeNode_task_inv s id node inp :
  task_inv 0 s → id ∉ (active s).*1 → find_node cfg id = Some node →
  task_inv 0 (executeNode cfg node inp s).
Proof.
  intros Hinv Hid Hnode. pose proof (find_node_id cfg id node Hnode) as Hn.
  assert (map_get id (active s) = None) as Hnone by (by apply map_get_None).
  unfold executeNode. destruct (cfg_executor cfg node) as [e|] eqn:He.
  - apply (loop_head_inv _ id); simpl; try done.
    + unfold map_part. by rewrite Hnone.
    + intros t Ht. congruence.
    + pose proof (max_attempts_pos node). split; simpl; [lia|lia].
    + unfold map_part. by rewrite Hnone.
  - rewrite Hn. destruct Hinv as [Hsl Htot Hlim Htasks Hres Hk]. split; simpl; try done.
    + set (t1 := Build_task _ _ _).
      pose proof (set_slots_ok 0 _ _ _ id t1 Hsl ltac:(intros t Ht; congruence) eq_refl) as H.
      unfold map_part in H. by rewrite Hnone in H.
    + rewrite map_sum_set by apply Hsl. unfold map_part. rewrite Hnone, Htot. cbn [task_attempts task_at attempts failed_result node_result]. lia.
    + intros v t. rewrite map_get_set. destruct (decide (v = id)) as [->|]; [|apply Htasks]. intros [= <-].
      pose proof (max_attempts_pos node). by apply (failed_task_ok id node); [|symmetry|lia|].
Qed.

(** ** Settling *)
Lemma settle_fields id r s :
  let s' := settle cfg id r s in
  results s' = map_set id r (results s) ∧ active s' = active s ∧ slots s' = slots s ∧
  totalAttempts s' = totalAttempts s ∧ aborted s' = aborted s.
Proof. unfold settle. by destruct (foldl _ _ _). Qed.

Lemma skip_inv s id r :
  task_inv 0 s → result_ok id r → attempts r = 0%Z → id ∉ (results s).*1 →
  task_inv 0 (settle cfg id r s).
Proof.
  intros [Hsl Htot Hlim Htasks Hres Hk] Hok Hr Hid.
  destruct (settle_fields id r s) as (H1 & H2 & H3 & H4 & H5).
  split; rewrite ?H1, ?H2, ?H3, ?H4, ?H5; try done.
  - rewrite map_sum_set by done. unfold map_part. rewrite (proj2 (map_get_None _ _) Hid). lia.
  - intros v r'. rewrite map_get_set. destruct (decide (v = id)) as [->|]; [congruence|apply Hres].
  - by apply map_set_NoDup.
Qed.

Lemma complete_inv s id t r :
  task_inv 0 s → map_get id (active s) = Some t → task_at t = Settled r → id ∉ (results s).*1 →
  task_inv 0 (settle cfg id r (with_active s (map_delete id (active s)))).
Proof.
  intros [Hsl Htot Hlim Htasks Hres Hk] Ht Hat Hid.
  destruct (Htasks id t Ht) as (node & _ & _ & Hok). rewrite Hat in Hok. destruct Hok as [Hok _].
  destruct (settle_fields id r (with_active s (map_delete id (active s)))) as (H1 & H2 & H3 & H4 & H5).
  split; rewrite ?H1, ?H2, ?H3, ?H4, ?H5; simpl; try done.
  - apply (delete_slots_ok _ _ _ _ t); try done; unfold holds, is_waiting; by rewrite Hat.
  - rewrite map_sum_set, map_sum_delete by (done || apply Hsl). unfold map_part.
    rewrite (proj2 (map_get_None _ _) Hid), Ht. unfold task_attempts at 2. rewrite Hat. lia.
  - intros v t'. rewrite map_get_delete. case_decide; [done|apply Htasks].
  - intros v r'. rewrite map_get_set. destruct (decide (v = id)) as [->|]; [congruence|apply Hres].
  - by apply map_set_NoDup.
Qed.

Lemma node_result_ok id st n inp out f node :
  find_node cfg id = Some node → n = 0%Z → is_Some f → out = None → st ≠ NodeSucceeded →
  result_ok id (node_result cfg id st n inp out f).
Proof.
  intros Hnode -> Hf -> Hst. split_and!; [done..|]. exists node. pose proof (max_attempts_pos node).
  simpl. destruct st; [done|split_and!; lia || done..].
Qed.

Lemma launch_task_inv s id rest :
  graph_inv cfg [] s → task_inv 0 s → ready s = id :: rest →
  task_inv 0 (launch cfg id (with_ready s rest)).
Proof.
  intros Hg Hinv Hr. pose proof (shift_ready cfg id rest s Hg Hr) as Hlimbo.
  pose proof (gi_nodup _ _ _ Hlimbo) as Hnd. unfold placed in Hnd. simpl in Hnd.
  apply NoDup_cons in Hnd as [Hn _]. rewrite !not_elem_of_app in Hn. destruct Hn as (Hn1 & Hn2 & _).
  assert (id ∈ graph_ids (cfg_graph cfg)) as Hin.
  { eapply (gi_ids _ _ _ Hlimbo). unfold placed. set_solver. }
  apply find_node_Some in Hin as (node & Hnode & _).
  assert (task_inv 0 (with_ready s rest)) as Hinv' by (by destruct Hinv).
  unfold launch. destruct (_ || _).
  - apply skip_inv; [done| |done|done].
    eapply node_result_ok; [done|done|by eexists|done|done].
  - destruct (bindNodeInput _ _ _ _ _) as [inp|error].
    + rewrite Hnode. by apply (executeNode_task_inv _ id).
    + apply skip_inv; [done| |done|done]. eapply node_result_ok; [done|done|by eexists|done|done].
Qed.

Lemma launchReady_task_inv fuel s :
  graph_inv cfg [] s → task_inv 0 s → task_inv 0 (launchReady cfg fuel s).
Proof.
  revert s. induction fuel as [|fuel IH]; intros s Hg Hinv; simpl; [done|].
  destruct (ready s) as [|id rest] eqn:Hr; [done|].
  apply IH; [by apply launch_inv|by apply launch_task_inv].
Qed.

Lemma enter_loop_task_inv s : graph_inv cfg [] s → task_inv 0 s → task_inv 0 (enter_loop cfg s).
Proof.
  intros Hg Hinv. unfold enter_loop. destruct (_ <? _).
  - pose proof (launchReady_task_inv (S (length (graph_nodes (cfg_graph cfg)))) s Hg Hinv) as H.
    destruct (_ =? 0); [by destruct H|done].
  - by destruct Hinv.
Qed.

Lemma initial_task_inv ab : task_inv 0 (initial_state cfg ab).
Proof.
  pose proof (co_concurrency _ cfg_good). pose proof (co_limit _ cfg_good).
  split; simpl; try done; try lia; [|constructor].
  split; simpl; try done; [apply new_semaphore_ok; lia|constructor| |constructor].
  intros v. split; [by intros ?%not_elem_of_nil|by intros (? & ? & _)].
Qed.

Lemma abort_task_ok id t : task_ok id t → task_ok id (abort_task t).
Proof.
  intros (node & Hnode & He & Hok). exists node. split_and!; [done..|]. unfold abort_task. simpl.
  by destruct (task_at t) as [| | | |? []| |].
Qed.

Lemma step_task_inv l s s' :
  loop_inv cfg s → task_inv 0 s → step cfg l s = Some s' → task_inv 0 s'.
Proof.
  intros Hloop Hinv H. unfold step in H. destruct (finished s); [done|].
  destruct l as [|id|id c ev|id].
  - destruct (aborted s) eqn:Hab; [done|]. injection H as <-.
    destruct Hinv as [Hsl Htot Hlim Htasks Hres Hk]. split; simpl; try done.
    + apply abort_slots_ok. by rewrite <- Hab.
    + rewrite Htot. f_equal. clear. induction (active s) as [|[k t] act IH]; [done|]. rewrite fmap_cons.
      change (task_attempts t + map_sum task_attempts act = task_attempts (abort_task t) +
        map_sum task_attempts (prod_map id abort_task <$> act))%Z. rewrite <- IH. f_equal.
      unfold task_attempts, abort_task. simpl. by destruct (task_at t) as [| | | |? []| |].
    + intros v t Ht. assert (∃ t', map_get v (active s) = Some t' ∧ t = abort_task t') as (t' & Ht' & ->).
      { clear -Ht. induction (active s) as [|[k t0] act IH]; [done|]. csimpl in *. case_decide; [naive_solver|auto]. }
      by apply abort_task_ok, Htasks.
  - apply bind_Some in H as (t & Ht & H). apply bind_Some in H as (node & Hn & H).
    pose proof (ti_tasks _ _ Hinv id t Ht) as (node' & Hn' & He & Hok).
    rewrite Hn in Hn'. injection Hn' as <-.
    destruct (task_at t) as [p|p|p|n called|p b|p|r] eqn:Hat; simplify_eq/=.
    + by apply (begin_attempt_inv s id).
    + destruct Hok as ([Hp _] & Hlt & Hsome). apply (finish_task_inv 0 s id t); try done;
        unfold holds, is_waiting, task_attempts; rewrite ?Hat; try done.
      apply (failed_task_ok id node); [done|done|lia|done].
    + destruct Hok as (Hp & Hlt & Hsome). apply (loop_head_inv s id); try done; unfold map_part; rewrite ?Ht;
        unfold holds, task_attempts; rewrite ?Hat; try done.
      eapply not_waiting_task; [done|]. unfold is_waiting. by rewrite Hat.
    + destruct Hok as ([Hp _] & Hlt & Hsome). apply (finish_task_inv 0 s id t); try done;
        unfold holds, is_waiting, task_attempts; rewrite ?Hat; try done.
      apply (failed_task_ok id node); [done|done|lia|done].
  - apply bind_Some in H as (t & Ht & H). apply bind_Some in H as (node & Hn & H).
    destruct (task_at t) as [p|p|p|n called|p b|p|r] eqn:Hat; try done.
    destruct (task_executor t) as [e|]; [|done]. destruct (_ && _); [|done]. injection H as <-.
    by eapply end_attempt_inv.
  - apply bind_Some in H as (t & Ht & H). destruct (task_at t) as [| | | | | |r] eqn:Hat; try done.
    injection H as <-. pose proof (li_graph _ _ Hloop) as Hg.
    pose proof (map_get_Some_key _ _ _ Ht) as Hk.
    apply enter_loop_task_inv.
    + by apply settle_inv, delete_limbo.
    + apply (complete_inv s id t); try done. intros Hin.
      pose proof (gi_nodup _ _ _ Hg) as Hnd. unfold placed in Hnd. simpl in Hnd.
      apply NoDup_app in Hnd as (_ & Hd & _). apply (Hd id Hin). rewrite elem_of_app. by left.
Qed.

Lemma reachable_inv ab s : reachable cfg ab s → loop_inv cfg s ∧ task_inv 0 s.
Proof.
  intros H. eapply (rtc_invariant _ (λ s, loop_inv cfg s ∧ task_inv 0 s)); [|exact H|].
  - intros x y [l Hl] [Hx1 Hx2]. split; [by eapply step_loop_inv|by eapply step_task_inv].
  - split; [apply enter_loop_inv; [done|by apply initial_inv|done]|].
    apply enter_loop_task_inv; [by apply initial_inv|apply initial_task_inv].
Qed.
End tasks.
