(* ===== verification/SchedulerLive.v ===== *)
(** * The scheduler terminates and does not get stuck

    Every step lowers a measure of the work that is left: five units for each
    attempt a node may still make, and a few for the stages of its current one.
    While the run has not stopped, some task can always move. *)
From S2P Require Import Prelude JsString JsNumber JsValue Dag Canonical SchemaValidation GraphIR.
From S2P Require Import Compiler CompilerSpec RuntimeTypes Semaphore Scheduler SchedulerGraph.
From S2P Require Import SchedulerTasks.

(** ** The measure *)

(** The work left in a task of a node with [m] attempts. *)
Definition task_weight (m : Z) (t : task) : Z :=
  match task_at t with
  | Waiting p => 5 * (m - done_attempts p) + 3
  | Granted p => 5 * (m - done_attempts p) + 2
  | Rejected p | DelayRejected p => 5 * (m - done_attempts p) + 1
  | Executing n _ => 5 * (m - n) + 6
  | Delaying p _ => 5 * (m - done_attempts p) + 4
  | Settled _ => 1
  end.

Definition node_budget (cfg : run_config) (id : jsstr) : Z :=
  match find_node cfg id with Some node => max_attempts node | None => 1 end.

Definition node_weight (cfg : run_config) (s : run_state) (id : jsstr) : Z :=
  if bool_decide (id ∈ (results s).*1) then 0
  else match map_get id (active s) with
       | Some t => task_weight (node_budget cfg id) t
       | None => 5 * node_budget cfg id + 4
       end.

Definition sum_over {A} (f : A → Z) (l : list A) : Z := foldr (λ x z, f x + z)%Z 0%Z l.

Definition run_weight (cfg : run_config) (s : run_state) : Z :=
  sum_over (node_weight cfg s) (graph_ids (cfg_graph cfg)) + (if aborted s then 0 else 1).

(** The number of steps a run may take. *)
Definition step_bound (cfg : run_config) : Z :=
  sum_over (λ id, 5 * node_budget cfg id + 4)%Z (graph_ids (cfg_graph cfg)) + 1.

Lemma sum_over_le {A} (f g : A → Z) l :
  (∀ x, x ∈ l → f x ≤ g x)%Z → (sum_over f l ≤ sum_over g l)%Z.
Proof.
  induction l as [|x l IH]; simpl; intros H; [lia|].
  pose proof (H x ltac:(left)). specialize (IH (λ y Hy, H y ltac:(by right))). lia.
Qed.

Lemma sum_over_lt {A} (f g : A → Z) l y :
  (∀ x, x ∈ l → f x ≤ g x)%Z → y ∈ l → (f y < g y)%Z → (sum_over f l < sum_over g l)%Z.
Proof.
  induction l as [|x l IH]; simpl; intros H Hy Hlt; [by apply not_elem_of_nil in Hy|].
  pose proof (H x ltac:(left)). assert (∀ z, z ∈ l → f z ≤ g z)%Z as Hl by (intros z Hz; apply H; by right).
  apply elem_of_cons in Hy as [->|Hy]; [pose proof (sum_over_le f g l Hl); lia|].
  specialize (IH Hl Hy Hlt). lia.
Qed.

Section live.
Context (cfg : run_config) (cfg_good : config_ok cfg).

(** ** Work never grows *)
Definition weight_le (s s' : run_state) : Prop := ∀ v, (node_weight cfg s' v ≤ node_weight cfg s v)%Z.

Lemma weight_le_trans s1 s2 s3 : weight_le s1 s2 → weight_le s2 s3 → weight_le s1 s3.
Proof. intros H1 H2 v. specialize (H1 v). specialize (H2 v). lia. Qed.

Lemma node_budget_pos id : (1 ≤ node_budget cfg id)%Z.
Proof. unfold node_budget. destruct (find_node cfg id); [apply max_attempts_pos|lia]. Qed.

Lemma node_weight_ext s s' v :
  results s' = results s → map_get v (active s') = map_get v (active s) →
  node_weight cfg s' v = node_weight cfg s v.
Proof. unfold node_weight. by intros -> ->. Qed.

(** Replacing a task by one with no more work. *)
Lemma set_task_weight s id t st :
  id ∉ (results s).*1 →
  (task_weight (node_budget cfg id) (Build_task (task_input t) (task_executor t) st) ≤ node_weight cfg s id)%Z →
  weight_le s (set_task id t st s) ∧
  node_weight cfg (set_task id t st s) id =
    task_weight (node_budget cfg id) (Build_task (task_input t) (task_executor t) st).
Proof.
  intros Hid Hw.
  assert (node_weight cfg (set_task id t st s) id =
    task_weight (node_budget cfg id) (Build_task (task_input t) (task_executor t) st)) as Heq.
  { unfold node_weight, set_task. simpl. rewrite bool_decide_eq_false_2 by done.
    by rewrite map_get_set, decide_True. }
  split; [|done]. intros v. destruct (decide (v = id)) as [->|Hne]; [by rewrite Heq|].
  rewrite (node_weight_ext s); [done|done|]. simpl. by rewrite map_get_set, decide_False.
Qed.

Lemma release_weight s : weight_le s (release s).
Proof.
  unfold release. destruct (release_slot (slots s)) as [[id|] sl]; [|intros v; unfold node_weight; simpl; lia].
  simpl. destruct (map_get id (active s)) as [t|] eqn:Ht; [|intros v; unfold node_weight; simpl; lia].
  destruct (task_at t) as [p| | | | | |] eqn:Hat; try (intros v; unfold node_weight; simpl; lia).
  intros v. unfold node_weight, set_task. simpl. case_bool_decide; [lia|]. rewrite map_get_set.
  destruct (decide (v = id)) as [->|]; [|lia]. rewrite Ht. unfold task_weight. simpl. rewrite Hat. lia.
Qed.

(** The loop head leaves a task with at most the work of a waiter. *)
Lemma loop_head_weight s id node t p :
  find_node cfg id = Some node → id ∉ (results s).*1 → (done_attempts p ≤ max_attempts node)%Z →
  (5 * (max_attempts node - done_attempts p) + 3 ≤ node_weight cfg s id)%Z →
  weight_le s (loop_head cfg node t p s) ∧
  (node_weight cfg (loop_head cfg node t p s) id ≤ 5 * (max_attempts node - done_attempts p) + 3)%Z.
Proof.
  intros Hnode Hid Hp Hw. pose proof (find_node_id cfg id node Hnode) as Hn.
  assert (node_budget cfg id = max_attempts node) as Hb by (unfold node_budget; by rewrite Hnode).
  unfold loop_head, acquire_slot. rewrite Hn. destruct (_ <? _)%Z eqn:E; bool_hyps.
  - destruct (acquire _ _ _ _) as [r sl].
    assert (weight_le s (with_slots s sl)) as H0 by (intros v; unfold node_weight; simpl; lia).
    set (st := match r with Grant => _ | Enqueue => _ | Reject => _ end).
    assert (task_weight (node_budget cfg id) (Build_task (task_input t) (task_executor t) st) ≤
      5 * (max_attempts node - done_attempts p) + 3)%Z as Hst.
    { rewrite Hb. unfold task_weight, st. simpl. destruct r; lia. }
    destruct (set_task_weight (with_slots s sl) id t st) as [H1 H2]; [done| |].
    { unfold node_weight in *. simpl in *. lia. }
    split; [exact (weight_le_trans _ _ _ H0 H1)|lia].
  - set (st := Settled _). destruct (set_task_weight s id t st) as [H1 H2]; [done|unfold task_weight; simpl; lia|].
    split; [done|]. rewrite H2. unfold task_weight. simpl. lia.
Qed.

(** ** The main loop's work *)
Lemma node_weight_nonneg s : task_inv cfg 0 s → ∀ v, (0 ≤ node_weight cfg s v)%Z.
Proof.
  intros Hinv v. unfold node_weight. case_bool_decide; [lia|]. pose proof (node_budget_pos v).
  destruct (map_get v (active s)) as [t|] eqn:Ht; [|lia].
  destruct (ti_tasks _ _ _ Hinv v t Ht) as (node & Hn & _ & Hok). unfold node_budget. rewrite Hn.
  unfold task_weight. unfold progress_ok in Hok. destruct (task_at t); lia.
Qed.

Lemma settle_weight s id r :
  (0 ≤ node_weight cfg s id)%Z →
  weight_le s (settle cfg id r s) ∧ node_weight cfg (settle cfg id r s) id = 0%Z.
Proof.
  intros Hw. destruct (settle_fields cfg id r s) as (H1 & H2 & _).
  assert (node_weight cfg (settle cfg id r s) id = 0%Z) as Hz.
  { unfold node_weight. rewrite H1. rewrite bool_decide_eq_true_2; [done|]. apply map_set_keys_elem. by left. }
  split; [|done]. intros v. destruct (decide (v = id)) as [->|Hne]; [lia|].
  unfold node_weight. rewrite H1, H2.
  assert (bool_decide (v ∈ (map_set id r (results s)).*1) = bool_decide (v ∈ (results s).*1)) as ->; [|done].
  apply bool_decide_ext. rewrite map_set_keys_elem. tauto.
Qed.

Lemma executeNode_weight s id node inp :
  find_node cfg id = Some node → id ∉ (results s).*1 → id ∉ (active s).*1 →
  weight_le s (executeNode cfg node inp s).
Proof.
  intros Hnode Hid Hact. pose proof (find_node_id cfg id node Hnode) as Hn.
  assert (node_budget cfg id = max_attempts node) as Hb by (unfold node_budget; by rewrite Hnode).
  assert (node_weight cfg s id = 5 * max_attempts node + 4)%Z as Hw.
  { unfold node_weight. rewrite bool_decide_eq_false_2 by done.
    by rewrite (proj2 (map_get_None _ _) Hact), Hb. }
  pose proof (max_attempts_pos node). unfold executeNode. destruct (cfg_executor cfg node).
  - apply (loop_head_weight s id); try done; simpl; lia.
  - rewrite Hn. apply set_task_weight; [done|]. unfold task_weight. simpl. lia.
Qed.

Lemma launch_weight s id rest :
  graph_inv cfg [] s → ready s = id :: rest → weight_le s (launch cfg id (with_ready s rest)).
Proof.
  intros Hg Hr. pose proof (shift_ready cfg id rest s Hg Hr) as Hlimbo.
  pose proof (gi_nodup _ _ _ Hlimbo) as Hnd. unfold placed in Hnd. simpl in Hnd.
  apply NoDup_cons in Hnd as [Hn _]. rewrite !not_elem_of_app in Hn. destruct Hn as (Hn1 & Hn2 & _).
  assert (id ∈ graph_ids (cfg_graph cfg)) as Hin.
  { eapply (gi_ids _ _ _ Hlimbo). unfold placed. set_solver. }
  apply find_node_Some in Hin as (node & Hnode & _).
  assert (weight_le s (with_ready s rest)) as H0 by (intros v; unfold node_weight; simpl; lia).
  eapply weight_le_trans; [exact H0|].
  assert (0 ≤ node_weight cfg (with_ready s rest) id)%Z as Hnn.
  { unfold node_weight. simpl. rewrite (proj2 (map_get_None _ _) Hn2). pose proof (node_budget_pos id).
    case_bool_decide; lia. }
  unfold launch. destruct (_ || _); [by apply settle_weight|].
  destruct (bindNodeInput _ _ _ _ _) as [inp|]; [|by apply settle_weight].
  rewrite Hnode. by apply (executeNode_weight _ id).
Qed.

Lemma launchReady_weight fuel s : graph_inv cfg [] s → weight_le s (launchReady cfg fuel s).
Proof.
  revert s. induction fuel as [|fuel IH]; intros s Hg; simpl; [intros v; lia|].
  destruct (ready s) as [|id rest] eqn:Hr; [intros v; lia|].
  eapply weight_le_trans; [by apply launch_weight|]. apply IH. by apply launch_inv.
Qed.

Lemma enter_loop_weight s : graph_inv cfg [] s → weight_le s (enter_loop cfg s).
Proof.
  intros Hg. unfold enter_loop. destruct (_ <? _); [|intros v; unfold node_weight; simpl; lia].
  pose proof (launchReady_weight (S (length (graph_nodes (cfg_graph cfg)))) s Hg) as H.
  destruct (_ =? 0); [|done]. intros v. specialize (H v). unfold node_weight in *. simpl in *. lia.
Qed.

(** ** Every step does some work *)
Lemma abort_weight s s' :
  results s' = results s → active s' = prod_map id abort_task <$> active s → weight_le s s'.
Proof.
  intros Hr Ha v. unfold node_weight. rewrite Hr, Ha. case_bool_decide; [lia|].
  assert (map_get v (prod_map id abort_task <$> active s) = abort_task <$> map_get v (active s)) as ->.
  { clear. induction (active s) as [|[k t] act IH]; [done|]. csimpl. by case_decide. }
  destruct (map_get v (active s)) as [t|]; simpl; [|lia].
  unfold task_weight, abort_task. simpl. destruct (task_at t) as [| | | |? []| |]; lia.
Qed.

Lemma active_weight s id t :
  id ∉ (results s).*1 → map_get id (active s) = Some t →
  node_weight cfg s id = task_weight (node_budget cfg id) t.
Proof. intros Hid Ht. unfold node_weight. by rewrite bool_decide_eq_false_2, Ht. Qed.

Lemma active_unsettled s id t :
  graph_inv cfg [] s → map_get id (active s) = Some t → id ∉ (results s).*1.
Proof.
  intros Hg Ht%map_get_Some_key Hin. pose proof (gi_nodup _ _ _ Hg) as Hnd. unfold placed in Hnd.
  simpl in Hnd. apply NoDup_app in Hnd as (_ & Hd & _). apply (Hd id Hin). rewrite elem_of_app. by left.
Qed.

(** Replacing a task by one with strictly less work. *)
Lemma set_task_less s0 s id t st :
  weight_le s0 s → id ∉ (results s).*1 → node_weight cfg s id = node_weight cfg s0 id →
  (task_weight (node_budget cfg id) (Build_task (task_input t) (task_executor t) st) <
     node_weight cfg s0 id)%Z →
  weight_le s0 (set_task id t st s) ∧ (node_weight cfg (set_task id t st s) id < node_weight cfg s0 id)%Z.
Proof.
  intros H0 Hid Heq Hlt. destruct (set_task_weight s id t st Hid) as [H1 H2]; [lia|].
  split; [exact (weight_le_trans _ _ _ H0 H1)|lia].
Qed.

Definition works (s s' : run_state) (id : jsstr) : Prop :=
  weight_le s s' ∧ (node_weight cfg s' id < node_weight cfg s id)%Z.

Lemma end_attempt_works s id node t n called outcome :
  task_inv cfg 0 s → id ∉ (results s).*1 → map_get id (active s) = Some t →
  find_node cfg id = Some node → task_at t = Executing n called → (n ≤ max_attempts node)%Z →
  works s (end_attempt cfg node t n outcome s) id.
Proof.
  intros Hinv Hid Ht Hnode Hat Hn. pose proof (find_node_id cfg id node Hnode) as Hnid.
  assert (node_budget cfg id = max_attempts node) as Hb by (unfold node_budget; by rewrite Hnode).
  assert (holds t = 1%Z) as Hh by (unfold holds; by rewrite Hat).
  destruct (release_inv cfg s id t Hinv Ht Hh) as (_ & Ht' & _ & _).
  assert (id ∉ (results (release s)).*1) as Hid' by (by destruct (release_same s) as (-> & _)).
  assert (node_weight cfg s id = 5 * (max_attempts node - n) + 6)%Z as Hw.
  { rewrite (active_weight s id t), Hb by done. unfold task_weight. by rewrite Hat. }
  assert (node_weight cfg (release s) id = node_weight cfg s id) as Hwr.
  { by rewrite (active_weight s id t), (active_weight (release s) id t). }
  unfold end_attempt. rewrite Hnid. destruct outcome as [v|code error]; [|destruct (_ && _) eqn:E].
  - apply set_task_less; [apply release_weight|done|done|]. unfold task_weight. simpl. lia.
  - bool_hyps. apply set_task_less; [apply release_weight|done|done|]. rewrite Hw, Hb. unfold task_weight. simpl. lia.
  - set (p := Build_progress n _).
    destruct (loop_head_weight (release s) id node t p Hnode Hid') as [H1 H2]; [done|simpl; lia|].
    split; [exact (weight_le_trans _ _ _ (release_weight s) H1)|]. simpl in H2. lia.
Qed.

Lemma begin_attempt_works s id node t p :
  task_inv cfg 0 s → id ∉ (results s).*1 → map_get id (active s) = Some t →
  find_node cfg id = Some node → task_at t = Granted p → (done_attempts p < max_attempts node)%Z →
  works s (begin_attempt cfg node t p s) id.
Proof.
  intros Hinv Hid Ht Hnode Hat Hn. pose proof (find_node_id cfg id node Hnode) as Hnid.
  assert (node_budget cfg id = max_attempts node) as Hb by (unfold node_budget; by rewrite Hnode).
  assert (holds t = 1%Z) as Hh by (unfold holds; by rewrite Hat).
  destruct (release_inv cfg s id t Hinv Ht Hh) as (_ & Ht' & _ & _).
  assert (id ∉ (results (release s)).*1) as Hid' by (by destruct (release_same s) as (-> & _)).
  assert (node_weight cfg s id = 5 * (max_attempts node - done_attempts p) + 2)%Z as Hw.
  { rewrite (active_weight s id t), Hb by done. unfold task_weight. by rewrite Hat. }
  unfold begin_attempt. rewrite Hnid. destruct (_ <=? _)%Z.
  - apply set_task_less; [apply release_weight|done| |unfold task_weight; simpl; lia].
    by rewrite (active_weight s id t), (active_weight (release s) id t).
  - apply set_task_less; [intros v; unfold node_weight; simpl; lia|done|done|].
    rewrite Hw, Hb. unfold task_weight. simpl. lia.
Qed.

Lemma complete_works s id t r :
  graph_inv cfg [] s → map_get id (active s) = Some t → task_at t = Settled r →
  works s (enter_loop cfg (settle cfg id r (with_active s (map_delete id (active s))))) id.
Proof.
  intros Hg Ht Hat. pose proof (active_unsettled s id t Hg Ht) as Hid.
  set (s1 := with_active s (map_delete id (active s))).
  destruct (settle_fields cfg id r s1) as (H1 & H2 & _).
  assert (node_weight cfg (settle cfg id r s1) id = 0%Z) as Hz.
  { unfold node_weight. rewrite H1. rewrite bool_decide_eq_true_2; [done|]. apply map_set_keys_elem. by left. }
  assert (node_weight cfg s id = 1%Z) as Hw.
  { rewrite (active_weight s id t) by done. unfold task_weight. by rewrite Hat. }
  assert (weight_le s (settle cfg id r s1)) as Hle.
  { intros v. destruct (decide (v = id)) as [->|Hne]; [lia|]. unfold node_weight. rewrite H1, H2. simpl.
    rewrite map_get_delete, decide_False by done.
    assert (bool_decide (v ∈ (map_set id r (results s)).*1) = bool_decide (v ∈ (results s).*1)) as ->; [|done].
    apply bool_decide_ext. rewrite map_set_keys_elem. tauto. }
  pose proof (enter_loop_weight (settle cfg id r s1)) as He.
  assert (weight_le (settle cfg id r s1) (enter_loop cfg (settle cfg id r s1))) as Hle2.
  { apply He. apply settle_inv; [done|]. apply delete_limbo; [done|]. by apply map_get_Some_key in Ht. }
  split; [exact (weight_le_trans _ _ _ Hle Hle2)|]. specialize (Hle2 id). lia.
Qed.

(** *** The abort flag *)
Lemma settle_aborted id r s : aborted (settle cfg id r s) = aborted s.
Proof. apply settle_fields. Qed.

Lemma launchReady_aborted fuel s : aborted (launchReady cfg fuel s) = aborted s.
Proof.
  revert s. induction fuel as [|fuel IH]; intros s; simpl; [done|].
  destruct (ready s) as [|id rest]; [done|]. rewrite IH. unfold launch.
  destruct (_ || _); [by rewrite settle_aborted|].
  destruct (bindNodeInput _ _ _ _ _) as [inp|]; [|by rewrite settle_aborted].
  destruct (find_node _ _) as [node|]; [|done].
  by destruct (executeNode_shape cfg node inp (with_ready s rest)) as (st & sl & ->).
Qed.

Lemma enter_loop_aborted s : aborted (enter_loop cfg s) = aborted s.
Proof.
  unfold enter_loop. destruct (_ <? _); [|done].
  rewrite <- (launchReady_aborted (S (length (graph_nodes (cfg_graph cfg)))) s). by destruct (_ =? 0).
Qed.

Lemma release_aborted s : aborted (release s) = aborted s.
Proof.
  unfold release. destruct (release_slot (slots s)) as [[id|] sl]; [|done]. simpl.
  destruct (map_get id (active s)) as [t|]; [|done]. by destruct (task_at t).
Qed.

Lemma loop_head_aborted node t p s : aborted (loop_head cfg node t p s) = aborted s.
Proof. by destruct (loop_head_shape cfg node t p s) as (st & sl & ->). Qed.

Lemma step_aborted l s s' :
  step cfg l s = Some s' → aborted s' = match l with Abort => true | _ => aborted s end.
Proof.
  unfold step. intros H. destruct (finished s); [done|]. destruct l as [|id|id c ev|id].
  - destruct (aborted s); [done|]. by injection H as <-.
  - apply bind_Some in H as (t & Ht & H). apply bind_Some in H as (node & Hn & H).
    destruct (task_at t) as [p|p|p|n called|p b|p|r]; simplify_eq/=; try done.
    + unfold begin_attempt. destruct (_ <=? _)%Z; [apply release_aborted|done].
    + apply loop_head_aborted.
  - apply bind_Some in H as (t & Ht & H). apply bind_Some in H as (node & Hn & H).
    destruct (task_at t); try done. destruct (task_executor t); [|done]. destruct (_ && _); [|done].
    injection H as <-. unfold end_attempt. destruct (executeAttempt _ _ _ _); [apply release_aborted|].
    destruct (_ && _); [apply release_aborted|]. by rewrite loop_head_aborted, release_aborted.
  - apply bind_Some in H as (t & Ht & H). destruct (task_at t); try done. injection H as <-.
    by rewrite enter_loop_aborted, settle_aborted.
Qed.

(** ** The measure decreases *)
Lemma works_weight s s' id :
  works s s' id → id ∈ graph_ids (cfg_graph cfg) → aborted s' = aborted s →
  (run_weight cfg s' < run_weight cfg s)%Z.
Proof.
  intros [Hle Hlt] Hid Hab. unfold run_weight. rewrite Hab.
  pose proof (sum_over_lt (node_weight cfg s') (node_weight cfg s) (graph_ids (cfg_graph cfg)) id
    (λ v _, Hle v) Hid Hlt). lia.
Qed.

Lemma step_weight l s s' :
  loop_inv cfg s → task_inv cfg 0 s → step cfg l s = Some s' →
  (run_weight cfg s' < run_weight cfg s)%Z.
Proof.
  intros Hloop Hinv H. pose proof (step_aborted l s s' H) as Hab.
  pose proof (li_graph _ _ Hloop) as Hg.
  unfold step in H. destruct (finished s); [done|]. destruct l as [|id|id c ev|id].
  - destruct (aborted s) eqn:Ha; [done|]. injection H as <-. unfold run_weight. rewrite Hab, Ha.
    pose proof (sum_over_le _ _ (graph_ids (cfg_graph cfg))
      (λ v _, abort_weight s (Build_run_state (results s) (remaining s) (ready s)
        (prod_map id abort_task <$> active s) (abort_waiters (slots s)) (totalAttempts s) true false)
        eq_refl eq_refl v)). lia.
  - apply bind_Some in H as (t & Ht & H). apply bind_Some in H as (node & Hn & H).
    assert (id ∈ graph_ids (cfg_graph cfg)) as Hid.
    { apply find_node_Some. exists node. split; [done|by eapply find_node_id]. }
    pose proof (active_unsettled s id t Hg Ht) as Hr.
    apply (works_weight s s' id); [|done|done].
    pose proof (ti_tasks _ _ _ Hinv id t Ht) as (node' & Hn' & He & Hok).
    rewrite Hn in Hn'. injection Hn' as <-.
    assert (node_budget cfg id = max_attempts node) as Hb by (unfold node_budget; by rewrite Hn).
    pose proof (active_weight s id t Hr Ht) as Hw.
    destruct (task_at t) as [p|p|p|n called|p b|p|r] eqn:Hat; simplify_eq/=.
    + destruct Hok as (_ & Hlt & _). by apply begin_attempt_works.
    + destruct Hok as (_ & Hlt & _). apply set_task_less; [intros v; lia|done|done|].
      rewrite Hw, Hb. unfold task_weight. rewrite Hat. simpl. lia.
    + destruct Hok as (_ & Hlt & _). unfold task_weight in Hw. rewrite Hat, Hb in Hw.
      destruct (loop_head_weight s id node t p Hn Hr) as [H1 H2]; [lia|lia|]. split; [done|lia].
    + destruct Hok as (_ & Hlt & _). apply set_task_less; [intros v; lia|done|done|].
      rewrite Hw, Hb. unfold task_weight. rewrite Hat. simpl. lia.
  - apply bind_Some in H as (t & Ht & H). apply bind_Some in H as (node & Hn & H).
    assert (id ∈ graph_ids (cfg_graph cfg)) as Hid.
    { apply find_node_Some. exists node. split; [done|by eapply find_node_id]. }
    apply (works_weight s s' id); [|done|done].
    pose proof (ti_tasks _ _ _ Hinv id t Ht) as (node' & Hn' & He & Hok).
    rewrite Hn in Hn'. injection Hn' as <-.
    destruct (task_at t) as [p|p|p|n called|p b|p|r] eqn:Hat; try done.
    destruct (task_executor t) as [e|]; [|done]. destruct (_ && _); [|done]. injection H as <-.
    eapply end_attempt_works; try done; [by eapply active_unsettled|lia].
  - apply bind_Some in H as (t & Ht & H). destruct (task_at t) as [| | | | | |r] eqn:Hat; try done.
    injection H as <-. apply (works_weight s _ id); [by eapply complete_works| |done].
    apply (gi_ids _ _ _ Hg). unfold placed. rewrite !elem_of_app. right. right. left.
    by apply map_get_Some_key in Ht.
Qed.

Lemma run_weight_nonneg s : task_inv cfg 0 s → (0 ≤ run_weight cfg s)%Z.
Proof.
  intros Hinv. unfold run_weight.
  assert (0 ≤ sum_over (node_weight cfg s) (graph_ids (cfg_graph cfg)))%Z; [|destruct (aborted s); lia].
  induction (graph_ids (cfg_graph cfg)) as [|v l IH]; simpl; [lia|].
  pose proof (node_weight_nonneg s Hinv v). lia.
Qed.

(** A run from any good state has at most as many steps as its weight. *)
Lemma run_length ls s s' :
  loop_inv cfg s → task_inv cfg 0 s → run_labels cfg ls s = Some s' →
  (Z.of_nat (length ls) + run_weight cfg s' ≤ run_weight cfg s)%Z ∧ loop_inv cfg s' ∧ task_inv cfg 0 s'.
Proof.
  revert s. induction ls as [|l ls IH]; intros s Hloop Hinv H; simpl in H.
  - injection H as <-. simpl. split_and!; [lia|done|done].
  - apply bind_Some in H as (s1 & Hl & H). pose proof (step_weight l s s1 Hloop Hinv Hl).
    destruct (IH s1) as (H1 & H2 & H3); [by eapply step_loop_inv|by eapply step_task_inv|done|].
    split_and!; [simpl; lia|done|done].
Qed.

Lemma start_weight ab : (run_weight cfg (run_start cfg ab) ≤ step_bound cfg)%Z.
Proof.
  assert (weight_le (initial_state cfg ab) (run_start cfg ab)) as Hle
    by (apply enter_loop_weight; by apply initial_inv).
  unfold run_weight, step_bound.
  pose proof (sum_over_le _ _ (graph_ids (cfg_graph cfg)) (λ v _, Hle v)).
  destruct (aborted _); unfold node_weight in *; simpl in *; lia.
Qed.

(** ** Progress *)

(** A task that is not queued can be resumed, finished or completed. *)
Lemma task_can_move s id t :
  finished s = false → task_inv cfg 0 s → map_get id (active s) = Some t → is_waiting t = false →
  ∃ l s', l ≠ Abort ∧ step cfg l s = Some s'.
Proof.
  intros Hf Hinv Ht Hw. destruct (ti_tasks _ _ _ Hinv id t Ht) as (node & Hn & He & Hok).
  assert (∀ l, step cfg l s = step cfg l s) as _ by done.
  destruct (task_at t) as [p|p|p|n called|p b|p|r] eqn:Hat.
  - unfold is_waiting in Hw. by rewrite Hat in Hw.
  - eexists (Resume id), _. split; [done|]. unfold step. rewrite Hf, Ht, Hn. simpl. by rewrite Hat.
  - eexists (Resume id), _. split; [done|]. unfold step. rewrite Hf, Ht, Hn. simpl. by rewrite Hat.
  - destruct Hok as [_ [e Hexec]].
    set (ev := if called then match e with IdentityExecutor => ReturnedInput | _ => Returned ∅ VNull end
               else NotStarted).
    eexists (AttemptDone id false ev), _. split; [done|]. unfold step. rewrite Hf, Ht, Hn. simpl.
    rewrite Hat, Hexec.
    assert (event_allowed node e called ev = true) as -> by (unfold ev; by destruct called, e). done.
  - eexists (Resume id), _. split; [done|]. unfold step. rewrite Hf, Ht, Hn. simpl. by rewrite Hat.
  - eexists (Resume id), _. split; [done|]. unfold step. rewrite Hf, Ht, Hn. simpl. by rewrite Hat.
  - eexists (Complete id), _. split; [done|]. unfold step. rewrite Hf, Ht. simpl. by rewrite Hat.
Qed.

Lemma can_move s :
  loop_inv cfg s → task_inv cfg 0 s → finished s = false → ∃ l s', l ≠ Abort ∧ step cfg l s = Some s'.
Proof.
  intros Hloop Hinv Hf. pose proof (ti_slots _ _ _ Hinv) as [Hsem Hrun Hnd Hlive Hab Hk].
  destruct (li_waiting _ _ Hloop Hf) as [_ Hne].
  destruct (decide (Exists (λ p, is_waiting p.2 = false) (active s))) as [Hex|Hall].
  - apply Exists_exists in Hex as ([id t] & Hin & Hw). eapply (task_can_move s id t); try done.
    by apply map_get_NoDup.
  - exfalso. apply not_Exists_Forall in Hall; [|apply _]. rewrite Forall_forall in Hall.
    destruct (active s) as [|[id t] act] eqn:Hact; [done|].
    assert (is_waiting t = true) as Hwt.
    { destruct (is_waiting t) eqn:E; [done|]. exfalso. by apply (Hall (id, t)); [left|]. }
    assert (id ∈ live (slots s)) as Hl.
    { apply Hlive. exists t. simpl. by rewrite decide_True. }
    assert (running (slots s) = cfg_concurrency cfg) as Hfull.
    { apply (full_when_waiting _ _ Hsem). intros H. rewrite H in Hl. by apply not_elem_of_nil in Hl. }
    pose proof (co_concurrency _ cfg_good).
    assert (∀ m : list (jsstr * task), (∀ p, p ∈ m → is_waiting p.2 = true) → map_sum holds m = 0%Z) as Hz.
    { induction m as [|[k t'] m IH]; intros Hm; [done|]. unfold map_sum in *. simpl. rewrite IH.
      - specialize (Hm (k, t') ltac:(left)). unfold holds. simpl in Hm. unfold is_waiting in Hm.
        destruct (task_at t'); done.
      - intros p Hp. apply Hm. by right. }
    rewrite Hz in Hrun; [lia|]. intros p Hp. specialize (Hall p Hp). simpl in Hall.
    by destruct (is_waiting p.2).
Qed.
End live.
