(* ===== verification/SchedulerDeterminism.v ===== *)
(** * The scheduler's results do not depend on the schedule

    [reference] evaluates the graph one node after the other, in topological
    order, without queues, slots or interleaving.  In every run that is not
    aborted and whose attempt budget is not short, whatever the concurrency and
    the order in which attempts finish, each node ends with its reference result. *)
From S2P Require Import Prelude JsString JsNumber JsValue Dag Canonical SchemaValidation GraphIR.
From S2P Require Import Compiler CompilerSpec RuntimeTypes Semaphore Scheduler SchedulerGraph.
From S2P Require Import SchedulerTasks SchedulerLive.

(** ** The reference evaluation *)

(** A state that only has results. *)
Definition results_state (res : list (jsstr * NodeRunResult)) : run_state :=
  Build_run_state res [] [] [] new_semaphore 0 false false.

(** What the executors do, as a function of the node, its input and the attempt. *)
Abbreviation environment := (executor_ref → NodeSpec → json → Z → attempt_event).

Section reference.
Context (cfg : run_config) (env : environment).

(** The attempts of a node after [n] failed ones. *)
Fixpoint reference_attempts (fuel : nat) (node : NodeSpec) (e : executor_ref) (inp : json) (n : Z)
    (last : option NodeRunFailure) : NodeRunResult :=
  match fuel with
  | 0 => node_result cfg (node_id node) NodeFailed n (Some inp) None last
  | S fuel =>
      match executeAttempt (cfg_reason cfg) inp false (env e node inp (n + 1)) with
      | AttemptSucceeded v =>
          node_result cfg (node_id node) NodeSucceeded (n + 1) (Some inp) (Some v) None
      | AttemptFailed code error =>
          reference_attempts fuel node e inp (n + 1)
            (Some (attempt_failure node code error (n + 1) (n + 1 <? max_attempts node)%Z))
      end
  end.

(** The result of a node whose predecessors have the results [res]. *)
Definition reference_node (res : list (jsstr * NodeRunResult)) (id : jsstr) : NodeRunResult :=
  let failedUpstream := failed_upstream cfg (results_state res) id in
  if (0 <? length failedUpstream)%nat then
    node_result cfg id NodeSkipped 0 None None
      (Some (runtimeFailure id UPSTREAM_FAILED
        (js "Node '" ++ id ++ js "' did not start because upstream nodes failed: " ++
         join (js ", ") failedUpstream) 0 false None (Some failedUpstream)))
  else
    match bindNodeInput (cfg_readonly cfg) id (incoming cfg id) (cfg_input cfg)
            (output_of (results_state res)) with
    | Err error =>
        node_result cfg id NodeFailed 0 None None
          (Some (runtimeFailure id INPUT_BINDING_FAILED
            (js "Could not bind input for node '" ++ id ++ js "': " ++ errorMessage error) 0 false
            (Some (errorName error)) None))
    | Ok inp =>
        match find_node cfg id with
        | None => node_result cfg id NodeFailed 0 None None None
        | Some node =>
            match cfg_executor cfg node with
            | None =>
                node_result cfg id NodeFailed 0 (Some inp) None
                  (Some (runtimeFailure id EXECUTOR_NOT_FOUND
                    (js "No executor is registered for node '" ++ id ++ js "' (kind '" ++
                     kind_name (node_kind node) ++ js "')") 0 false None None))
            | Some e => reference_attempts (Z.to_nat (max_attempts node)) node e inp 0 None
            end
        end
    end.

(** Node after node, in the compiled order. *)
Definition reference : list (jsstr * NodeRunResult) :=
  foldl (λ res id, map_set id (reference_node res id) res) [] (cfg_order cfg).

(** ** Runs in the environment *)

(** A label the environment produces: no abort, and attempts end as it says. *)
Definition env_label (l : label) (s : run_state) : Prop :=
  match l with
  | Abort => False
  | AttemptDone id cancelled event =>
      cancelled = false ∧ ∃ t node e n called, map_get id (active s) = Some t ∧
        find_node cfg id = Some node ∧ task_executor t = Some e ∧ task_at t = Executing n called ∧
        event = env e node (task_input t) n
  | _ => True
  end.
Definition env_step (s s' : run_state) : Prop := ∃ l, env_label l s ∧ step cfg l s = Some s'.
End reference.

(** ** The reference results *)
Section reference_lemmas.
Context (cfg : run_config) (cfg_good : config_ok cfg) (env : environment).
Abbreviation ids := (graph_ids (cfg_graph cfg)).
Abbreviation pairs := (graph_pairs (cfg_graph cfg)).

(** Binding looks only at the sources of the incoming edges. *)
Lemma bind_edges_ext ro id f g o es :
  (∀ e, e ∈ es → f (endpoint_node (edge_from e)) = g (endpoint_node (edge_from e))) →
  bind_edges ro id f o es = bind_edges ro id g o es.
Proof.
  revert o. induction es as [|e es IH]; intros o H; simpl; [done|].
  assert (bind_edge ro id f o e = bind_edge ro id g o e) as ->.
  { unfold bind_edge. by rewrite (H e) by left. }
  destruct (bind_edge ro id g o e) as [o'|]; simpl; [|done]. apply IH. intros e' He'. apply H. by right.
Qed.

Lemma incoming_source id e :
  e ∈ incoming cfg id → edge pairs (endpoint_node (edge_from e)) id.
Proof. intros He. apply elem_of_sources. apply list_elem_of_fmap. by exists e. Qed.

(** States with the same results for the predecessors of a node treat it alike. *)
Definition agree_on_sources (s s' : run_state) (id : jsstr) : Prop :=
  ∀ u, edge pairs u id → map_get u (results s) = map_get u (results s').

Lemma failed_upstream_ext s s' id :
  agree_on_sources s s' id → failed_upstream cfg s id = failed_upstream cfg s' id.
Proof.
  intros H. unfold failed_upstream. do 2 f_equal. apply list_filter_iff'. intros u Hu.
  apply elem_of_sources in Hu. unfold succeeded. by rewrite (H u).
Qed.

Lemma bindNodeInput_ext s s' id :
  agree_on_sources s s' id →
  bindNodeInput (cfg_readonly cfg) id (incoming cfg id) (cfg_input cfg) (output_of s) =
  bindNodeInput (cfg_readonly cfg) id (incoming cfg id) (cfg_input cfg) (output_of s').
Proof.
  intros H. unfold bindNodeInput. rewrite (bind_edges_ext _ id (output_of s) (output_of s')); [done|].
  intros e He. unfold output_of. by rewrite (H _ (incoming_source id e He)).
Qed.

Lemma reference_node_ext res res' id :
  agree_on_sources (results_state res) (results_state res') id →
  reference_node cfg env res id = reference_node cfg env res' id.
Proof.
  intros H. unfold reference_node.
  by rewrite (failed_upstream_ext _ _ id H), (bindNodeInput_ext _ _ id H).
Qed.

(** The fold over a prefix of the order. *)
Definition reference_prefix (k : nat) : list (jsstr * NodeRunResult) :=
  foldl (λ res id, map_set id (reference_node cfg env res id) res) [] (take k (cfg_order cfg)).

Lemma reference_prefix_S k id :
  cfg_order cfg !! k = Some id →
  reference_prefix (S k) = map_set id (reference_node cfg env (reference_prefix k) id) (reference_prefix k).
Proof. intros Hk. unfold reference_prefix. by rewrite (take_S_r _ _ id), foldl_app. Qed.

Lemma order_unique i j v : cfg_order cfg !! i = Some v → cfg_order cfg !! j = Some v → i = j.
Proof.
  intros Hi Hj. eapply NoDup_lookup; [|done|done]. rewrite (co_order _ cfg_good). apply (co_ids _ cfg_good).
Qed.

(** Later nodes do not change earlier results. *)
Lemma reference_prefix_stable i k v :
  cfg_order cfg !! i = Some v → i < k → map_get v (reference_prefix k) = map_get v (reference_prefix (S i)).
Proof.
  intros Hi Hk. induction Hk as [|k Hk IH]; [done|].
  destruct (cfg_order cfg !! k) as [w|] eqn:Hw.
  - rewrite (reference_prefix_S k w Hw), map_get_set. rewrite decide_False; [done|].
    intros ->. pose proof (order_unique i k w Hi Hw). lia.
  - assert (reference_prefix (S k) = reference_prefix k) as ->; [|exact IH].
    unfold reference_prefix. apply lookup_ge_None_1 in Hw. by rewrite !take_ge by lia.
Qed.

Lemma reference_get id :
  id ∈ ids → map_get id (reference cfg env) = Some (reference_node cfg env (reference cfg env) id).
Proof.
  intros Hid. rewrite <- (co_order _ cfg_good) in Hid. apply list_elem_of_lookup in Hid as [i Hi].
  pose proof (lookup_lt_Some _ _ _ Hi) as Hlt.
  assert (reference cfg env = reference_prefix (length (cfg_order cfg))) as Href.
  { unfold reference, reference_prefix. by rewrite take_ge by lia. }
  rewrite Href at 1. rewrite (reference_prefix_stable i) by done.
  rewrite (reference_prefix_S i id Hi), map_get_set, decide_True by done. f_equal.
  apply reference_node_ext. intros u Hu. simpl.
  assert (u ∈ cfg_order cfg) as Hin.
  { rewrite (co_order _ cfg_good). by apply (co_closed _ cfg_good u id). }
  apply list_elem_of_lookup in Hin as [j Hj].
  pose proof (co_topological _ cfg_good j i u id Hj Hi Hu).
  pose proof (lookup_lt_Some _ _ _ Hj). rewrite Href.
  by rewrite (reference_prefix_stable j i u), (reference_prefix_stable j (length (cfg_order cfg)) u).
Qed.
End reference_lemmas.

(** ** The run follows the reference *)
Section determinism.
Context (cfg : run_config) (cfg_good : config_ok cfg) (env : environment).
Hypothesis env_allowed : ∀ node e inp n,
  cfg_executor cfg node = Some e → event_allowed node e true (env e node inp n) = true.
Hypothesis budget_ample :
  (sum_over (node_budget cfg) (graph_ids (cfg_graph cfg)) ≤ cfg_attemptLimit cfg)%Z.
Abbreviation ids := (graph_ids (cfg_graph cfg)).
Let ref (id : jsstr) : NodeRunResult := reference_node cfg env (reference cfg env) id.

(** A task is on the way to its node's reference result. *)
Definition task_follows (id : jsstr) (t : task) : Prop :=
  ∃ node, find_node cfg id = Some node ∧
  match task_at t with
  | Waiting p | Granted p | Delaying p _ =>
      ∃ e, task_executor t = Some e ∧
      ref id = reference_attempts cfg env (Z.to_nat (max_attempts node - done_attempts p)) node e
                 (task_input t) (done_attempts p) (lastFailure p)
  | Executing n called =>
      called = true ∧ ∃ e last, task_executor t = Some e ∧
      ref id = reference_attempts cfg env (S (Z.to_nat (max_attempts node - n))) node e
                 (task_input t) (n - 1) last
  | Rejected _ | DelayRejected _ => False
  | Settled r => r = ref id
  end.

Record follows (s : run_state) : Prop := {
  fo_running : aborted s = false;
  fo_results : ∀ id r, map_get id (results s) = Some r → r = ref id;
  fo_tasks : ∀ id t, map_get id (active s) = Some t → task_follows id t
}.

Lemma follows_set_task s id t st :
  follows s → task_follows id (Build_task (task_input t) (task_executor t) st) →
  follows (set_task id t st s).
Proof.
  intros [Hab Hr Ht] Hf. split; [done|done|]. intros v t'. simpl. rewrite map_get_set.
  destruct (decide (v = id)) as [->|]; [by intros [= <-]|apply Ht].
Qed.

Lemma follows_with_slots s sl : follows s → follows (with_slots s sl).
Proof. intros [Hab Hr Ht]. by split. Qed.

Lemma follows_release s : follows s → follows (release s).
Proof.
  intros Hf. unfold release. destruct (release_slot (slots s)) as [[id|] sl]; [|by apply follows_with_slots].
  simpl. destruct (map_get id (active s)) as [t|] eqn:Ht; [|by apply follows_with_slots].
  destruct (task_at t) as [p| | | | | |] eqn:Hat; try by apply follows_with_slots.
  apply follows_set_task; [by apply follows_with_slots|].
  destruct (fo_tasks _ Hf id t Ht) as (node & Hn & Hok). rewrite Hat in Hok. by exists node.
Qed.

Lemma follows_loop_head s id node t p e :
  follows s → find_node cfg id = Some node → task_executor t = Some e →
  ref id = reference_attempts cfg env (Z.to_nat (max_attempts node - done_attempts p)) node e
             (task_input t) (done_attempts p) (lastFailure p) →
  follows (loop_head cfg node t p s).
Proof.
  intros Hf Hn He Href. pose proof (find_node_id cfg id node Hn) as Hid.
  unfold loop_head, acquire_slot. rewrite Hid. destruct (_ <? _)%Z eqn:E; bool_hyps.
  - rewrite (fo_running _ Hf). unfold acquire. destruct (running (slots s) <? cfg_concurrency cfg)%Z;
      (apply follows_set_task; [by apply follows_with_slots|]); exists node; (split; [done|]); by exists e.
  - apply follows_set_task; [done|]. exists node. split; [done|]. simpl. rewrite Href.
    replace (Z.to_nat (max_attempts node - done_attempts p)) with 0 by lia. simpl. by rewrite Hid.
Qed.

(** Without an abort an attempt is never reported as cancelled. *)
Lemma not_cancelled node e inp n code error :
  cfg_executor cfg node = Some e →
  executeAttempt (cfg_reason cfg) inp false (env e node inp n) = AttemptFailed code error →
  code ≠ NODE_CANCELLED.
Proof.
  intros He. specialize (env_allowed node e inp n He).
  destruct (env e node inp n) as [|h v| |error' []|]; simpl in *; try done; intros H.
  - case_match; congruence.
  - case_match; congruence.
  - congruence.
  - congruence.
  - congruence.
Qed.

Lemma follows_end_attempt s id node t n e :
  follows s → task_inv cfg 0 s → map_get id (active s) = Some t → find_node cfg id = Some node →
  task_executor t = Some e → task_at t = Executing n true →
  follows (end_attempt cfg node t n
    (executeAttempt (cfg_reason cfg) (task_input t) false (env e node (task_input t) n)) s).
Proof.
  intros Hf Hinv Ht Hn He Hat. pose proof (find_node_id cfg id node Hn) as Hid.
  destruct (ti_tasks _ _ _ Hinv id t Ht) as (node' & Hn' & Hexec & Hok).
  rewrite Hn in Hn'. injection Hn' as <-. rewrite Hat in Hok. destruct Hok as [Hrange _].
  destruct (fo_tasks _ Hf id t Ht) as (node' & Hn' & Hfol). rewrite Hn in Hn'. injection Hn' as <-.
  rewrite Hat in Hfol. destruct Hfol as (_ & e' & last & He' & Href). rewrite He in He'. injection He' as <-.
  cbn [reference_attempts] in Href. rewrite Z.sub_add in Href.
  pose proof (follows_release s Hf) as Hrel. unfold end_attempt. rewrite Hid.
  destruct (executeAttempt _ _ _ _) as [v|code error] eqn:Hout.
  - apply follows_set_task; [done|]. exists node. split; [done|]. simpl. by rewrite Href, Hid.
  - assert (code ≠ NODE_CANCELLED) as Hcode by (eapply not_cancelled; [|exact Hout]; congruence).
    rewrite (bool_decide_eq_false_2 (code = NODE_CANCELLED)), andb_true_r by done.
    destruct (n <? max_attempts node)%Z eqn:E; bool_hyps.
    + apply follows_set_task; [done|]. exists node. split; [done|]. simpl. by exists e.
    + by apply (follows_loop_head _ id _ _ _ e).
Qed.

(** ** The budget is never short *)
Lemma sum_parts {A} (f : A → Z) (m : list (jsstr * A)) :
  NoDup m.*1 → (∀ v, v ∈ m.*1 → v ∈ ids) → map_sum f m = sum_over (λ v, map_part f v m) ids.
Proof.
  intros Hnd Hids. rewrite map_sum_part by done. fold (sum_over (λ v, map_part f v m) m.*1).
  assert (∀ l k, l ≡ₚ k → sum_over (λ v, map_part f v m) l = sum_over (λ v, map_part f v m) k) as Hperm.
  { unfold sum_over. induction 1; simpl; lia. }
  rewrite (Hperm ids (filter (.∈ m.*1) ids ++ filter (.∉ m.*1) ids)).
  2: { clear. induction ids as [|v l IH]; [done|]. rewrite !filter_cons.
       destruct (decide (v ∈ m.*1)) as [Hv|Hv].
       - rewrite decide_False by tauto. simpl. by rewrite IH at 1.
       - rewrite decide_True by done. by rewrite <- Permutation_middle, <- IH. }
  rewrite (Hperm m.*1 (filter (.∈ m.*1) ids)).
  2: { apply NoDup_Permutation; [done|apply NoDup_filter, cfg_good|].
       intros v. rewrite list_elem_of_filter. naive_solver. }
  assert (sum_over (λ v, map_part f v m) (filter (.∉ m.*1) ids) = 0%Z) as Hz.
  { assert (∀ l, (∀ v, v ∈ l → v ∉ m.*1) → sum_over (λ v, map_part f v m) l = 0%Z) as H.
    { unfold sum_over. induction l as [|v l IH]; intros Hl; simpl; [done|].
      rewrite IH by (intros w Hw; apply Hl; by right). unfold map_part.
      by rewrite (proj2 (map_get_None v m) (Hl v ltac:(left))). }
    apply H. intros v Hv. by apply list_elem_of_filter in Hv as [Hv _]. }
  assert (∀ l k, sum_over (λ v, map_part f v m) (l ++ k) =
    sum_over (λ v, map_part f v m) l + sum_over (λ v, map_part f v m) k)%Z as Happ.
  { unfold sum_over. induction l as [|v l IH]; intros k; simpl; [lia|]. rewrite IH. lia. }
  rewrite Happ, Hz. lia.
Qed.

Lemma budget_left s id node t p :
  graph_inv cfg [] s → task_inv cfg 0 s → map_get id (active s) = Some t → find_node cfg id = Some node →
  task_at t = Granted p → (done_attempts p < max_attempts node)%Z →
  (totalAttempts s < cfg_attemptLimit cfg)%Z.
Proof.
  intros Hg Hinv Ht Hn Hat Hp. rewrite (ti_total _ _ _ Hinv).
  assert (∀ v, v ∈ placed [] s → v ∈ ids) as Hids by apply Hg.
  rewrite (sum_parts attempts), (sum_parts task_attempts).
  2: { apply (ti_slots _ _ _ Hinv). }
  2: { intros v Hv. apply Hids. unfold placed. rewrite !elem_of_app. tauto. }
  2: { apply (ti_keys _ _ _ Hinv). }
  2: { intros v Hv. apply Hids. unfold placed. rewrite !elem_of_app. tauto. }
  assert (∀ l (f g : jsstr → Z), sum_over f l + sum_over g l = sum_over (λ v, f v + g v) l)%Z as Hadd.
  { intros l f g. unfold sum_over. induction l as [|v l IH]; simpl; lia. }
  rewrite Hadd. eapply Z.lt_le_trans; [|exact budget_ample].
  pose proof (active_unsettled cfg s id t Hg Ht) as Hid.
  apply (sum_over_lt _ _ ids id).
  - intros v Hv. unfold map_part, node_budget.
    destruct (map_get v (results s)) as [r|] eqn:Hr.
    + destruct (ti_results _ _ _ Hinv v r Hr) as (_ & _ & n & -> & Hb & _).
      destruct (map_get v (active s)) as [t'|] eqn:Ht'; [|lia].
      exfalso. apply (active_unsettled cfg s v t' Hg Ht'). by eapply map_get_Some_key.
    + destruct (map_get v (active s)) as [t'|] eqn:Ht'.
      * destruct (ti_tasks _ _ _ Hinv v t' Ht') as (n & Hnv & _ & Hok). rewrite Hnv. unfold task_attempts.
        unfold progress_ok in Hok. destruct (task_at t'); try lia.
        destruct Hok as ((_ & _ & n' & Hn' & Hb & _) & _). assert (n' = n) by congruence. subst. lia.
      * destruct (find_node cfg v); [|lia]. pose proof (max_attempts_pos n). lia.
  - apply Hg. unfold placed. rewrite !elem_of_app. right. right. left. by eapply map_get_Some_key.
  - unfold map_part, node_budget. rewrite Hn, Ht, (proj2 (map_get_None _ _) Hid).
    unfold task_attempts. rewrite Hat. lia.
Qed.

(** ** Launching follows the reference *)
Lemma follows_settle s id r : follows s → r = ref id → follows (settle cfg id r s).
Proof.
  intros [Hab Hr Ht] ->. destruct (settle_fields cfg id (ref id) s) as (H1 & H2 & _ & _ & H5).
  split; rewrite ?H1, ?H2, ?H5; [done| |done]. intros v r'. rewrite map_get_set.
  destruct (decide (v = id)) as [->|]; [congruence|apply Hr].
Qed.

Lemma follows_sources s id :
  graph_inv cfg [] s → follows s → id ∈ placed [] s →
  agree_on_sources cfg s (results_state (reference cfg env)) id.
Proof.
  intros Hg Hf Hid u Hu. simpl.
  rewrite (reference_get cfg cfg_good env u) by (by apply (co_closed _ cfg_good u id)).
  pose proof (proj1 (open_edges_zero cfg s id) (gi_preds _ _ _ Hg id Hid) u Hu) as Hin.
  apply map_get_elem_key in Hin as [r Hr]. rewrite Hr. f_equal. by apply (fo_results s Hf).
Qed.

Lemma follows_launch s id rest :
  graph_inv cfg [] s → follows s → ready s = id :: rest → follows (launch cfg id (with_ready s rest)).
Proof.
  intros Hg Hf Hr. set (s1 := with_ready s rest).
  assert (follows s1) as Hf1 by (destruct Hf; by split).
  assert (id ∈ placed [] s) as Hpl by (unfold placed; rewrite Hr; set_solver).
  assert (agree_on_sources cfg s1 (results_state (reference cfg env)) id) as Hagree
    by (exact (follows_sources s id Hg Hf Hpl)).
  pose proof (gi_ids _ _ _ Hg id Hpl) as Hin. apply find_node_Some in Hin as (node & Hnode & Hnid).
  assert (ref id = reference_node cfg env (reference cfg env) id) as Href by done.
  unfold reference_node in Href. unfold launch. rewrite (fo_running _ Hf1). simpl.
  rewrite (failed_upstream_ext cfg s1 _ id Hagree).
  rewrite (bindNodeInput_ext cfg s1 _ id Hagree).
  destruct (0 <? _) eqn:E; [by apply follows_settle|].
  destruct (bindNodeInput _ _ _ _ _) as [inp|error]; [|by apply follows_settle].
  rewrite Hnode in Href |- *. unfold executeNode. destruct (cfg_executor cfg node) as [e|] eqn:He.
  - apply (follows_loop_head _ id _ _ _ e); try done. simpl. rewrite Z.sub_0_r. exact Href.
  - apply follows_set_task; [done|]. exists node. rewrite Hnid. split; [done|]. simpl. by rewrite Href.
Qed.

Lemma follows_launchReady fuel s :
  graph_inv cfg [] s → follows s → follows (launchReady cfg fuel s).
Proof.
  revert s. induction fuel as [|fuel IH]; intros s Hg Hf; simpl; [done|].
  destruct (ready s) as [|id rest] eqn:Hr; [done|].
  apply IH; [by apply launch_inv|by apply follows_launch].
Qed.

Lemma follows_enter_loop s : graph_inv cfg [] s → follows s → follows (enter_loop cfg s).
Proof.
  intros Hg Hf. unfold enter_loop. destruct (_ <? _); [|destruct Hf; by split].
  pose proof (follows_launchReady (S (length (graph_nodes (cfg_graph cfg)))) s Hg Hf) as H.
  destruct (_ =? 0); [|done]. destruct H. by split.
Qed.

(** ** Every step follows the reference *)
Lemma follows_step s s' :
  loop_inv cfg s → task_inv cfg 0 s → follows s → env_step cfg env s s' → follows s'.
Proof.
  intros Hloop Hinv Hf [l [Hl H]]. pose proof (li_graph _ _ Hloop) as Hg.
  unfold step in H. destruct (finished s); [done|]. destruct l as [|id|id c ev|id]; [done|..].
  - apply bind_Some in H as (t & Ht & H). apply bind_Some in H as (node & Hn & H).
    pose proof (find_node_id cfg id node Hn) as Hid.
    destruct (fo_tasks _ Hf id t Ht) as (node' & Hn' & Hfol). rewrite Hn in Hn'. injection Hn' as <-.
    destruct (ti_tasks _ _ _ Hinv id t Ht) as (node' & Hn' & _ & Hok). rewrite Hn in Hn'. injection Hn' as <-.
    destruct (task_at t) as [p|p|p|n called|p b|p|r] eqn:Hat; simplify_eq/=.
    + destruct Hok as (_ & Hlt & _). pose proof (budget_left s _ node t p Hg Hinv Ht Hn Hat Hlt) as Hb.
      unfold begin_attempt. rewrite (proj2 (Z.leb_gt _ _) Hb).
      apply follows_set_task; [destruct Hf; by split|]. destruct Hfol as (e & He & Href).
      exists node. split; [done|]. cbn [task_at task_input task_executor aborted]. rewrite (fo_running _ Hf). split; [done|].
      exists e, (lastFailure p). split; [done|]. rewrite Href, Z.add_simpl_r.
      replace (S (Z.to_nat (max_attempts node - (done_attempts p + 1))))
        with (Z.to_nat (max_attempts node - done_attempts p)) by lia. done.
    + done.
    + destruct Hfol as (e & He & Href). by apply (follows_loop_head _ (node_id node) _ _ _ e).
    + done.
  - destruct Hl as (-> & t' & node' & e & n & called & Ht' & Hn' & He & Hat & ->).
    rewrite Ht', Hn' in H. simpl in H. rewrite Hat, He in H. destruct (_ && _) eqn:Hallowed; [|done].
    injection H as <-. destruct (fo_tasks _ Hf id t' Ht') as (node & Hn & Hfol).
    rewrite Hat in Hfol. destruct Hfol as (-> & _). by apply (follows_end_attempt s id).
  - apply bind_Some in H as (t & Ht & H). destruct (task_at t) as [| | | | | |r] eqn:Hat; try done.
    injection H as <-. destruct (fo_tasks _ Hf id t Ht) as (node & Hn & Hfol). rewrite Hat in Hfol.
    apply follows_enter_loop.
    + apply settle_inv; [done|]. apply delete_limbo; [done|]. by eapply map_get_Some_key.
    + apply follows_settle; [|done]. destruct Hf as [Hab Hr Htasks]. split; [done|done|].
      intros v t'. simpl. rewrite map_get_delete. case_decide; [done|apply Htasks].
Qed.

Lemma env_run_follows s :
  rtc (env_step cfg env) (run_start cfg false) s → loop_inv cfg s ∧ task_inv cfg 0 s ∧ follows s.
Proof.
  intros H. eapply (rtc_invariant _ (λ s, loop_inv cfg s ∧ task_inv cfg 0 s ∧ follows s)); [|exact H|].
  - intros x y Hxy (H1 & H2 & H3). pose proof Hxy as (l & _ & Hl).
    split_and!; [by eapply step_loop_inv|by eapply step_task_inv|by eapply follows_step].
  - destruct (reachable_inv cfg cfg_good false (run_start cfg false)) as [H1 H2]; [apply rtc_refl|].
    split_and!; [done..|]. apply follows_enter_loop; [by apply initial_inv|]. by split.
Qed.

(** A run that has stopped has exactly the reference results. *)
Lemma finished_reference s :
  rtc (env_step cfg env) (run_start cfg false) s → finished s = true →
  ∀ id, map_get id (results s) = map_get id (reference cfg env) ∧
        (id ∈ ids → map_get id (results s) = Some (ref id)).
Proof.
  intros H Hfin. destruct (env_run_follows s H) as (Hloop & _ & Hf).
  pose proof (li_stopped _ _ Hloop Hfin) as Hkeys.
  assert (∀ id, id ∈ ids → map_get id (results s) = Some (ref id)) as Hids.
  { intros id Hid. rewrite <- Hkeys in Hid. apply map_get_elem_key in Hid as [r Hr]. rewrite Hr. f_equal.
    by apply (fo_results _ Hf). }
  intros id. split; [|apply Hids]. destruct (decide (id ∈ ids)) as [Hid|Hid].
  - by rewrite (Hids id Hid), (reference_get cfg cfg_good env id Hid).
  - rewrite (proj2 (map_get_None id (results s))) by (by rewrite Hkeys). symmetry. apply map_get_None.
    intros Hin. apply Hid. rewrite <- (co_order _ cfg_good).
    assert (∀ l res, id ∈ (foldl (λ res id, map_set id (reference_node cfg env res id) res) res l).*1 →
      id ∈ l ∨ id ∈ res.*1) as Hkeys'.
    { induction l as [|v l IH]; intros res Hv; simpl in Hv; [by right|].
      apply IH in Hv as [Hv|Hv]; [left; by right|]. apply map_set_keys_elem in Hv as [->|Hv]; [left; left|by right]. }
    apply Hkeys' in Hin as [Hin|Hin]; [done|]. by apply not_elem_of_nil in Hin.
Qed.
End determinism.

(** ** The report *)

(** The report only reads the results, the abort flag and the counters. *)
Lemma run_report_ext cfg hash s s' :
  (∀ id, map_get id (results s) = map_get id (results s')) → aborted s = aborted s' →
  let r := run_report cfg hash s in
  let r' := run_report cfg hash s' in
  run_status r = run_status r' ∧ run_output r = run_output r' ∧ run_nodes r = run_nodes r' ∧
  run_failures r = run_failures r'.
Proof.
  intros Hres Hab. unfold run_report.
  assert (omap (λ id, map_get id (results s)) (cfg_order cfg) =
    omap (λ id, map_get id (results s')) (cfg_order cfg)) as ->.
  { induction (cfg_order cfg) as [|id l IH]; [done|]. csimpl. by rewrite (Hres id), IH. }
  assert (∀ l st, foldl (bind_output cfg s) st l = foldl (bind_output cfg s') st l) as ->.
  { induction l as [|[name e] l IH]; intros st; [done|]. cbn [foldl]. rewrite IH. f_equal.
    unfold bind_output, succeeded, output_of. by rewrite (Hres (endpoint_node e)). }
  rewrite Hab. by destruct (foldl _ _ _) as [[out complete] failures].
Qed.
