(* ===== verification/SchedulerSpec.v ===== *)
(** * What the scheduler promises

    The theorems about [runGraph]: it runs only sound configurations, respects its
    limits and the dependencies at every moment of every interleaving, always
    terminates with one result per node, skips exactly the nodes whose upstream
    failed, and reports results that do not depend on the schedule. *)
From Stdlib Require Import SpecFloat.
From S2P Require Import Prelude JsString JsNumber JsValue JsonText Dag Canonical CanonicalSpec.
From S2P Require Import SchemaValidation GraphIR Compiler CompilerSpec RuntimeTypes Semaphore.
From S2P Require Import Scheduler SchedulerGraph SchedulerTasks SchedulerLive SchedulerDeterminism.

(** ** Configurations that [runGraph] runs *)

Lemma positiveInteger_pos v d : (1 ≤ d)%Z → (1 ≤ positiveInteger v d)%Z.
Proof. intros Hd. unfold positiveInteger. destruct v as [z|]; [|done]. destruct (0 <? z)%Z eqn:E; bool_hyps; lia. Qed.

Lemma resolveConcurrency_pos g r : (1 ≤ resolveConcurrency g r)%Z.
Proof.
  unfold resolveConcurrency. pose proof (positiveInteger_pos (graph_policies g ≫= policy_maxConcurrency) 4).
  pose proof (positiveInteger_pos (integer_option r) (positiveInteger (graph_policies g ≫= policy_maxConcurrency) 4)).
  lia.
Qed.

(** The flattened levels are a topological order. *)
Lemma levels_topological (ids : list jsstr) pairs k n i j u v :
  concat (level ids pairs <$> seq k n) !! i = Some u → concat (level ids pairs <$> seq k n) !! j = Some v →
  edge pairs u v → i < j.
Proof.
  revert k i j. induction n as [|n IH]; intros k i j Hi Hj He; [done|]. csimpl in *.
  assert (∀ x m, x ∈ concat (level ids pairs <$> seq (S k) n) → x ∈ level ids pairs m → k < m) as Hlater.
  { intros x m Hx Hm. apply elem_of_concat in Hx as (l & Hx & Hl).
    apply list_elem_of_fmap in Hl as (m' & -> & Hm'). apply elem_of_seq in Hm'.
    pose proof (level_unique _ _ _ _ _ Hx Hm). lia. }
  assert (∀ x, x ∈ concat (level ids pairs <$> seq (S k) n) → ∃ m, x ∈ level ids pairs m) as Hlev.
  { intros x Hx. apply elem_of_concat in Hx as (l & Hx & Hl).
    apply list_elem_of_fmap in Hl as (m' & -> & _). by exists m'. }
  destruct (decide (i < length (level ids pairs k))) as [Hil|Hil];
    destruct (decide (j < length (level ids pairs k))) as [Hjl|Hjl].
  - rewrite lookup_app_l in Hi, Hj by done. apply list_elem_of_lookup_2 in Hi, Hj.
    pose proof (level_edge _ _ _ _ _ _ He Hi Hj). lia.
  - lia.
  - rewrite lookup_app_r in Hi by lia. rewrite lookup_app_l in Hj by done.
    apply list_elem_of_lookup_2 in Hi, Hj. destruct (Hlev u Hi) as [m Hm].
    pose proof (Hlater u m Hi Hm). pose proof (level_edge _ _ _ _ _ _ He Hm Hj). lia.
  - rewrite lookup_app_r in Hi, Hj by lia. pose proof (IH _ _ _ Hi Hj He). lia.
Qed.

Section setup.
Context (hash : jsstr → jsstr) (reason : thrown) (power : num → num → num) (readonly : jsstr → jsstr).

Lemma runGraph_config h graph input options graphHash cfg ab :
  heap_wf h →
  runGraph hash reason power readonly h graph input options = SetupRun graphHash cfg ab →
  config_ok cfg ∧ well_formed (cfg_graph cfg) ∧ graph_ok (cfg_graph cfg) ∧
  valid (compileGraph hash h graph) = true ∧
  cfg_order cfg = concat (topologicalLayers (compileGraph hash h graph)).
Proof.
  intros Hh H. unfold runGraph in H. destruct (snapshotGraphInput h input) as [inp|]; [|done].
  unfold captureCanonicalJson in H at 1.
  destruct (captureValue h (S (size h)) graph (js "#") []) as [j|e] eqn:Hcap; [|done]. simpl in H.
  destruct (graph_of_json j) as [g|] eqn:Hg; [|done].
  destruct (valid (compileGraph hash h graph)) eqn:Hv; [|done]. injection H as <- <- <-. simpl.
  assert (portable h graph j) as Hj by (by eapply captureValue_sound).
  destruct (compileGraph_unfold hash h graph Hh) as [(j' & g' & Hj' & Hg' & Hok & Hc)|(Hf & _)]; [|congruence].
  assert (j' = j) as -> by (by eapply portable_functional). assert (g' = g) as -> by congruence.
  rewrite Hc in Hv |- *.
  assert (when_present policies_ok (graph_policies g)) as Hpol by (unfold graph_ok in Hok; tauto).
  pose proof (proj1 (compile_graph_valid_iff _ _ _ Hpol) Hv) as Hwf.
  destruct (compile_graph_cases g (Some (hash (serializeCaptured j))) (Some (serializeCaptured j)))
    as [(_ & Hv' & _)|(Href & d & Ha)]; [congruence|].
  destruct Ha as (_ & Hne & _ & [[_ Hr]|(Hcyc & adjacency & reachable' & _ & _ & Hr)]);
    rewrite Hr in Hv |- *; [done|]. simpl.
  split_and!; [|done..]. destruct Href as [Hids _ Hclosed _ _]. split; simpl; try done.
  - apply levels_Permutation; [done|]. intros w Hw Hc'.
    assert (w ∈ filter (λ v, chain (graph_pairs g) d v) (graph_ids g)) as Hin by (by apply list_elem_of_filter).
    rewrite Hcyc in Hin. by apply not_elem_of_nil in Hin.
  - intros i k u v. apply levels_topological.
  - apply resolveConcurrency_pos.
  - by apply positiveInteger_pos.
Qed.
End setup.

(** ** Skipped nodes *)
Section skipping.
Context (cfg : run_config) (cfg_good : config_ok cfg).

(** A node with an upstream that did not succeed ends skipped. *)
Definition skips (s : run_state) : Prop :=
  ∀ u v r, map_get v (results s) = Some r → edge (graph_pairs (cfg_graph cfg)) u v →
    succeeded s u = false → status r = NodeSkipped.

Lemma settle_succeeded s id r u :
  u ≠ id → succeeded (settle cfg id r s) u = succeeded s u.
Proof.
  intros Hne. destruct (settle_fields cfg id r s) as (H1 & _). unfold succeeded. by rewrite H1, map_get_set, decide_False.
Qed.

(** Settling a node keeps the rule when the node obeys it. *)
Lemma skips_settle s id r :
  graph_inv cfg [id] s → skips s →
  (∀ u, edge (graph_pairs (cfg_graph cfg)) u id → succeeded s u = false → status r = NodeSkipped) →
  skips (settle cfg id r s).
Proof.
  intros Hg Hs Hr u v r' Hv Hu. destruct (settle_fields cfg id r s) as (H1 & _).
  assert (id ∉ (results s).*1) as Hid.
  { pose proof (gi_nodup _ _ _ Hg) as Hnd. unfold placed in Hnd. simpl in Hnd.
    apply NoDup_cons in Hnd as [Hn _]. set_solver. }
  assert (v ∈ placed [id] s → u ≠ id) as Hne.
  { intros Hpl ->. pose proof (gi_preds _ _ _ Hg v Hpl) as Hz.
    by apply (proj1 (open_edges_zero cfg s v) Hz) in Hu. }
  rewrite H1, map_get_set in Hv. destruct (decide (v = id)) as [->|Hvid].
  - injection Hv as <-. rewrite settle_succeeded by (apply Hne; unfold placed; set_solver). by apply Hr.
  - rewrite settle_succeeded; [by eapply Hs|]. apply Hne. apply map_get_Some_key in Hv. unfold placed. set_solver.
Qed.

Lemma skips_results s s' : results s' = results s → skips s → skips s'.
Proof. unfold skips, succeeded. by intros ->. Qed.

Lemma skips_launch s id rest :
  graph_inv cfg [] s → skips s → ready s = id :: rest → skips (launch cfg id (with_ready s rest)).
Proof.
  intros Hg Hs Hr. pose proof (shift_ready cfg id rest s Hg Hr) as Hlimbo.
  unfold launch. destruct (_ || _) eqn:E; [by apply skips_settle|]. bool_hyps.
  assert (∀ u, edge (graph_pairs (cfg_graph cfg)) u id → succeeded (with_ready s rest) u = true) as Hall
    by (apply failed_upstream_nil, length_zero_iff_nil; lia).
  destruct (bindNodeInput _ _ _ _ _) as [inp|error].
  - destruct (find_node cfg id) as [node|]; [|done].
    destruct (executeNode_shape cfg node inp (with_ready s rest)) as (st & sl & ->).
    by eapply skips_results.
  - apply skips_settle; [done|done|]. intros u Hu Hf. rewrite Hall in Hf by done. done.
Qed.

Lemma skips_enter_loop s : graph_inv cfg [] s → skips s → skips (enter_loop cfg s).
Proof.
  intros Hg Hs. unfold enter_loop. destruct (_ <? _); [|by eapply skips_results].
  assert (∀ fuel s, graph_inv cfg [] s → skips s → skips (launchReady cfg fuel s)) as H.
  { clear -cfg_good. induction fuel as [|fuel IH]; intros s Hg Hs; simpl; [done|].
    destruct (ready s) as [|id rest] eqn:Hr; [done|].
    apply IH; [by apply launch_inv|by apply skips_launch]. }
  specialize (H (S (length (graph_nodes (cfg_graph cfg)))) s Hg Hs). destruct (_ =? 0); [|done].
  by eapply skips_results.
Qed.

Lemma skips_step l s s' : loop_inv cfg s → skips s → step cfg l s = Some s' → skips s'.
Proof.
  intros Hloop Hs H. pose proof (li_graph _ _ Hloop) as Hg.
  assert ((∃ id, l = Complete id) ∨ (∀ id, l ≠ Complete id)) as [[id ->]|Hl]
    by (destruct l; [right|right|right|left]; eauto; done).
  - unfold step in H. destruct (finished s); [done|]. apply bind_Some in H as (t & Ht & H).
    destruct (task_at t) as [| | | | | |r] eqn:Hat; try done. injection H as <-.
    pose proof (map_get_Some_key _ _ _ Ht) as Hk.
    pose proof (delete_limbo cfg id s Hg Hk) as Hlimbo.
    apply skips_enter_loop; [by apply settle_inv|].
    apply skips_settle; [done|by eapply skips_results|]. intros u Hu Hf.
    assert (succeeded s u = true) as Htrue by (by eapply (gi_active _ _ _ Hg)).
    unfold succeeded in *. simpl in Hf. congruence.
  - destruct (task_step_same cfg l s s' H Hl) as [(Hr & _) _]. by eapply skips_results.
Qed.

Lemma reachable_skips ab s : reachable cfg ab s → skips s.
Proof.
  intros H. eapply (rtc_invariant _ (λ s, loop_inv cfg s ∧ skips s)); [|exact H|].
  - intros x y [l Hl] [Hx1 Hx2]. split; [by eapply step_loop_inv|by eapply skips_step].
  - assert (graph_inv cfg [] (initial_state cfg ab)) as Hg by (by apply initial_inv).
    split; [by apply enter_loop_inv|]. apply skips_enter_loop; [done|]. by intros u v r Hv.
Qed.
(** Why a node is skipped: the run was aborted, or the nodes it names failed. *)
Definition skip_reason (s : run_state) (id : jsstr) (r : NodeRunResult) : Prop :=
  status r = NodeSkipped → ∃ f, failure r = Some f ∧
    ((failure_code f = NODE_CANCELLED ∧ aborted s = true) ∨
     (failure_code f = UPSTREAM_FAILED ∧ failed_upstream cfg s id ≠ [] ∧
      failure_upstreamNodeIds f = Some (failed_upstream cfg s id))).

Lemma skip_reason_ext s s' id r :
  agree_on_sources cfg s s' id → (aborted s = true → aborted s' = true) →
  skip_reason s id r → skip_reason s' id r.
Proof.
  intros Ha Hab H Hst. destruct (H Hst) as (f & Hf & Hwhy). exists f. split; [done|].
  rewrite <- (failed_upstream_ext cfg s s' id Ha). naive_solver.
Qed.

Definition skips_justified (s : run_state) : Prop :=
  ∀ id r, map_get id (results s) = Some r → skip_reason s id r.

Lemma justified_same s s' :
  results s' = results s → (aborted s = true → aborted s' = true) → skips_justified s → skips_justified s'.
Proof.
  intros Hr Hab H id r Hid. rewrite Hr in Hid. eapply skip_reason_ext; [|done|by apply H].
  intros u _. by rewrite Hr.
Qed.

(** Settling a node leaves the sources of the settled nodes alone. *)
Lemma settle_agrees s id r v :
  graph_inv cfg [id] s → v ∈ placed [id] s → agree_on_sources cfg s (settle cfg id r s) v.
Proof.
  intros Hg Hv u Hu. destruct (settle_fields cfg id r s) as (H1 & _). rewrite H1, map_get_set, decide_False; [done|].
  intros ->. pose proof (gi_nodup _ _ _ Hg) as Hnd. unfold placed in Hnd. simpl in Hnd.
  apply NoDup_cons in Hnd as [Hn _]. apply Hn. rewrite elem_of_app. left.
  apply (proj1 (open_edges_zero cfg s v) (gi_preds _ _ _ Hg v Hv)). done.
Qed.

Lemma justified_settle s id r :
  graph_inv cfg [id] s → skips_justified s → skip_reason s id r → skips_justified (settle cfg id r s).
Proof.
  intros Hg Hs Hr v r' Hv. destruct (settle_fields cfg id r s) as (H1 & _ & _ & _ & H5).
  assert (v ∈ placed [id] s → skip_reason s v r' → skip_reason (settle cfg id r s) v r') as Hkeep.
  { intros Hpl. apply skip_reason_ext; [by apply settle_agrees|by rewrite H5]. }
  rewrite H1, map_get_set in Hv. destruct (decide (v = id)) as [->|].
  - injection Hv as <-. apply Hkeep; [|done]. unfold placed. set_solver.
  - apply Hkeep; [|by apply Hs]. apply map_get_Some_key in Hv. unfold placed. set_solver.
Qed.

Lemma justified_launch s id rest :
  graph_inv cfg [] s → skips_justified s → ready s = id :: rest →
  skips_justified (launch cfg id (with_ready s rest)).
Proof.
  intros Hg Hs Hr. pose proof (shift_ready cfg id rest s Hg Hr) as Hlimbo.
  unfold launch. destruct (aborted (with_ready s rest)) eqn:Hab; [|destruct (0 <? _) eqn:E]; simpl.
  - apply justified_settle; [done|done|]. intros _. eexists. split; [done|]. by left.
  - apply justified_settle; [done|done|]. intros _. eexists. split; [done|]. right.
    split_and!; [done| |done]. intros Hnil. rewrite Hnil in E. done.
  - destruct (bindNodeInput _ _ _ _ _) as [inp|error]; [|by apply justified_settle].
    destruct (find_node cfg id) as [node|]; [|done].
    destruct (executeNode_shape cfg node inp (with_ready s rest)) as (st & sl & ->).
    by apply (justified_same s).
Qed.

Lemma justified_enter_loop s : graph_inv cfg [] s → skips_justified s → skips_justified (enter_loop cfg s).
Proof.
  intros Hg Hs. unfold enter_loop. destruct (_ <? _); [|by apply (justified_same s)].
  assert (∀ fuel s, graph_inv cfg [] s → skips_justified s → skips_justified (launchReady cfg fuel s)) as H.
  { clear -cfg_good. induction fuel as [|fuel IH]; intros s Hg Hs; simpl; [done|].
    destruct (ready s) as [|id rest] eqn:Hr; [done|].
    apply IH; [by apply launch_inv|by apply justified_launch]. }
  specialize (H (S (length (graph_nodes (cfg_graph cfg)))) s Hg Hs). destruct (_ =? 0); [|done].
  by eapply justified_same.
Qed.

Lemma justified_step l s s' :
  loop_inv cfg s → task_inv cfg 0 s → skips_justified s → step cfg l s = Some s' → skips_justified s'.
Proof.
  intros Hloop Hinv Hs H. pose proof (li_graph _ _ Hloop) as Hg. pose proof (step_aborted cfg l s s' H) as Hab.
  assert ((∃ id, l = Complete id) ∨ (∀ id, l ≠ Complete id)) as [[id ->]|Hl]
    by (destruct l; [right|right|right|left]; eauto; done).
  - unfold step in H. destruct (finished s); [done|]. apply bind_Some in H as (t & Ht & H).
    destruct (ti_tasks _ _ _ Hinv id t Ht) as (node & _ & _ & Hok).
    destruct (task_at t) as [| | | | | |r] eqn:Hat; try done. injection H as <-. destruct Hok as [_ Hns].
    pose proof (map_get_Some_key _ _ _ Ht) as Hk. pose proof (delete_limbo cfg id s Hg Hk) as Hlimbo.
    apply justified_enter_loop; [by apply settle_inv|].
    apply justified_settle; [done| |by intros ?]. by apply (justified_same s).
  - destruct (task_step_same cfg l s s' H Hl) as [(Hr & _) _]. apply (justified_same s); [done| |done].
    rewrite Hab. by destruct l.
Qed.

Lemma reachable_justified ab s : reachable cfg ab s → skips_justified s.
Proof.
  intros H. eapply (rtc_invariant _ (λ s, loop_inv cfg s ∧ task_inv cfg 0 s ∧ skips_justified s)); [|exact H|].
  - intros x y [l Hl] (Hx1 & Hx2 & Hx3).
    split_and!; [by eapply step_loop_inv|by eapply step_task_inv|by eapply justified_step].
  - assert (graph_inv cfg [] (initial_state cfg ab)) as Hg by (by apply initial_inv).
    destruct (reachable_inv cfg cfg_good ab (run_start cfg ab)) as [H1 H2]; [apply rtc_refl|].
    split_and!; [done..|]. apply justified_enter_loop; [done|]. by intros v r Hv.
Qed.
End skipping.

(** ** Results are final *)
Section final.
Context (cfg : run_config) (cfg_good : config_ok cfg).

Definition extends (s s' : run_state) : Prop :=
  ∀ id r, map_get id (results s) = Some r → map_get id (results s') = Some r.

Lemma extends_settle s id r : graph_inv cfg [id] s → extends s (settle cfg id r s).
Proof.
  intros Hg v r'. apply settle_results. pose proof (gi_nodup _ _ _ Hg) as Hnd. unfold placed in Hnd.
  simpl in Hnd. apply NoDup_cons in Hnd as [Hn _]. set_solver.
Qed.

Lemma extends_launch s id rest :
  graph_inv cfg [] s → ready s = id :: rest → extends s (launch cfg id (with_ready s rest)).
Proof.
  intros Hg Hr. pose proof (shift_ready cfg id rest s Hg Hr) as Hlimbo.
  unfold launch. destruct (_ || _); [by apply (extends_settle (with_ready s rest))|].
  destruct (bindNodeInput _ _ _ _ _); [|by apply (extends_settle (with_ready s rest))].
  destruct (find_node _ _) as [node|]; [|by intros v r].
  destruct (executeNode_shape cfg node a (with_ready s rest)) as (st & sl & ->). by intros v r.
Qed.

Lemma extends_launchReady fuel s : graph_inv cfg [] s → extends s (launchReady cfg fuel s).
Proof.
  revert s. induction fuel as [|fuel IH]; intros s Hg; simpl; [by intros v r|].
  destruct (ready s) as [|id rest] eqn:Hr; [by intros v r|].
  intros v r Hv. apply IH; [by apply launch_inv|by apply extends_launch].
Qed.

Lemma extends_step l s s' : loop_inv cfg s → step cfg l s = Some s' → extends s s'.
Proof.
  intros Hloop H. pose proof (li_graph _ _ Hloop) as Hg.
  assert ((∃ id, l = Complete id) ∨ (∀ id, l ≠ Complete id)) as [[id ->]|Hl]
    by (destruct l; [right|right|right|left]; eauto; done).
  - unfold step in H. destruct (finished s); [done|]. apply bind_Some in H as (t & Ht & H).
    destruct (task_at t) as [| | | | | |r] eqn:Hat; try done. injection H as <-.
    pose proof (delete_limbo cfg id s Hg (map_get_Some_key _ _ _ Ht)) as Hlimbo.
    intros v r' Hv. apply (extends_settle _ id r Hlimbo) in Hv.
    pose proof (extends_launchReady (S (length (graph_nodes (cfg_graph cfg)))) _
      (settle_inv cfg cfg_good id r _ Hlimbo) v r' Hv) as Hv'.
    unfold enter_loop. destruct (_ <? _); [|done]. by destruct (_ =? 0).
  - destruct (task_step_same cfg l s s' H Hl) as [(Hr & _) _]. intros v r. by rewrite Hr.
Qed.

Lemma extends_run s s' : loop_inv cfg s → rtc (run_step cfg) s s' → extends s s'.
Proof.
  intros Hloop H. revert Hloop. induction H as [s|s s1 s' [l Hl] _ IH]; intros Hloop; [by intros v r|].
  intros v r Hv. apply IH; [by eapply step_loop_inv|]. by eapply extends_step.
Qed.
End final.

(** ** The final report *)
Lemma report_nodes cfg hash s :
  (∀ id, id ∈ cfg_order cfg → is_Some (map_get id (results s))) →
  (∀ id r, map_get id (results s) = Some r → nodeId r = id) →
  nodeId <$> run_nodes (run_report cfg hash s) = cfg_order cfg.
Proof.
  intros Hsome Hid. unfold run_report.
  assert (nodeId <$> omap (λ id, map_get id (results s)) (cfg_order cfg) = cfg_order cfg) as Heq.
  { induction (cfg_order cfg) as [|id l IH]; [done|]. csimpl.
    destruct (Hsome id) as [r Hr]; [left|]. rewrite Hr. csimpl. rewrite (Hid id r Hr). f_equal.
    apply IH. intros id' Hin. apply Hsome. by right. }
  by destruct (foldl _ _ _) as [[out complete] failures].
Qed.
