(* ===== verification/SchedulerTheorems.v ===== *)
(** * The scheduler's contract

    What [runGraph] promises, proved for every interleaving of its atomic
    stretches: the theorems are about [runGraph] itself, about [reachable] states
    (any sequence of steps) and about the report of a run that has stopped. *)
From Stdlib Require Import SpecFloat.
From S2P Require Import Prelude JsString JsNumber JsValue JsonText Dag Canonical CanonicalSpec.
From S2P Require Import SchemaValidation GraphIR Compiler CompilerSpec RuntimeTypes Semaphore.
From S2P Require Import Scheduler SchedulerGraph SchedulerTasks SchedulerLive SchedulerDeterminism.
From S2P Require Import SchedulerSpec.

(** ** A sample run *)

Definition sample_options : SchedulerOptions :=
  Build_SchedulerOptions (Some [js "a"; js "b"; js "c"; js "d"]) None (Some (num_of_Z 2)) false.
Definition sample_setup (input : heap * value) : run_setup :=
  runGraph id (ThrownString (js "abort")) (λ x _, x) (λ key, key)
    diamond.1 diamond.2 input.2 sample_options.
Definition sample_config : run_config :=
  match sample_setup (∅, VNull) with
  | SetupRun _ cfg _ => cfg
  | _ => Build_run_config (graph_of JNull) [] JNull (λ _, None) 1 1 (ThrownString []) (λ x _, x) (λ x, x)
  end.
Definition with_concurrency (cfg : run_config) (c : Z) : run_config :=
  Build_run_config (cfg_graph cfg) (cfg_order cfg) (cfg_input cfg) (cfg_executor cfg) c
    (cfg_attemptLimit cfg) (cfg_reason cfg) (cfg_power cfg) (cfg_readonly cfg).

(** Every executor returns [null], and the identity executor its input. *)
Definition sample_env : environment := λ e _ _ _,
  match e with IdentityExecutor => ReturnedInput | _ => Returned ∅ VNull end.
Definition run_node (id : string) : list label :=
  [Resume (js id); AttemptDone (js id) false (Returned ∅ VNull); Complete (js id)].
(** The last two nodes of a layer may finish in any order. *)
Definition sample_schedule : list label :=
  run_node "a" ++ run_node "c" ++ run_node "b" ++ run_node "d".
(** The sample run after [n] of its steps. *)
Definition sample_state (cfg : run_config) (n : nat) : run_state :=
  default (run_start cfg false) (run_labels cfg (take n sample_schedule) (run_start cfg false)).

Lemma sample_config_ok : config_ok sample_config.
Proof.
  assert (heap_wf diamond.1) as Hh by (by apply (bool_decide_unpack _); vm_compute).
  destruct (sample_setup (∅, VNull)) as [e|r|gh cfg ab] eqn:E.
  - assert (match sample_setup (∅, VNull) with SetupRun _ _ _ => true | _ => false end = true)
      as H by (vm_compute; reflexivity). by rewrite E in H.
  - assert (match sample_setup (∅, VNull) with SetupRun _ _ _ => true | _ => false end = true)
      as H by (vm_compute; reflexivity). by rewrite E in H.
  - assert (sample_config = cfg) as -> by (unfold sample_config; by rewrite E).
    unfold sample_setup in E. by apply runGraph_config in E as (H & _).
Qed.

(** A schedule that runs reaches its state. *)
Lemma run_labels_reachable cfg ls s s' : run_labels cfg ls s = Some s' → rtc (run_step cfg) s s'.
Proof.
  revert s. induction ls as [|l ls IH]; intros s H; simpl in H; [by injection H as ->|].
  apply bind_Some in H as (s1 & Hl & H). eapply rtc_l; [by exists l|by apply IH].
Qed.
Lemma sample_reachable n : is_Some (run_labels sample_config (take n sample_schedule) (run_start sample_config false)) →
  reachable sample_config false (sample_state sample_config n).
Proof. intros [s Hs]. unfold sample_state. rewrite Hs. by eapply run_labels_reachable. Qed.

(** ** Before the run *)

(** [runGraph] runs exactly the valid graphs.  It throws only when the input is
    not portable JSON, and reports an invalid compilation without running a node;
    otherwise the graph it runs is the well-formed graph of the document, in the
    compiler's topological order, with a concurrency between one and the policy. *)
Theorem runGraph_setup hash reason power readonly h graph input options :
  heap_wf h →
  let compilation := compileGraph hash h graph in
  match runGraph hash reason power readonly h graph input options with
  | SetupThrew _ => ∃ e, snapshotJson h input = Err e
  | SetupReported r => valid compilation = false ∧ r = compile_report compilation
  | SetupRun hash' cfg ab =>
      valid compilation = true ∧ hash' = graphHash compilation ∧ ab = signal_aborted options ∧
      (∃ j, portable h graph j ∧ graph_of_json j = Some (cfg_graph cfg)) ∧
      well_formed (cfg_graph cfg) ∧ config_ok cfg ∧
      cfg_order cfg = concat (topologicalLayers compilation) ∧
      snapshotJson h input = Ok (cfg_input cfg) ∧
      (1 ≤ cfg_concurrency cfg ≤
        positiveInteger (graph_policies (cfg_graph cfg) ≫= policy_maxConcurrency) 4)%Z
  end.
Proof.
  intros Hh compilation.
  destruct (runGraph hash reason power readonly h graph input options) as [e|r|gh cfg ab] eqn:E.
  - unfold runGraph, snapshotGraphInput in E. destruct (snapshotJson h input) as [j|e'] eqn:Hs; [|by exists e'].
    repeat case_match; done.
  - assert (valid compilation = false ∧ SetupReported (compile_report compilation) = SetupReported r)
      as [Hv [= <-]]; [|done].
    unfold runGraph in E. destruct (snapshotGraphInput h input) as [inp|]; [|done]. fold compilation in E.
    destruct (captureCanonicalJson_cases h graph Hh) as [(j & Hj & Hc)|[(m & p & Hc) Hn]]; rewrite Hc in E.
    + simpl in E. destruct (graph_of_json j) as [g|] eqn:Hg; [by destruct (valid compilation)|].
      split; [|done]. destruct (compileGraph_unfold hash h graph Hh) as [(j' & g' & Hj' & Hg' & _)|(Hv & _)]; [|done].
      rewrite (portable_functional h graph j' j) in Hg' by done. congruence.
    + split; [|done]. destruct (compileGraph_unfold hash h graph Hh) as [(j' & g' & Hj' & _)|(Hv & _)]; [|done].
      by destruct (Hn j').
  - pose proof (runGraph_config _ _ _ _ _ _ _ _ _ _ _ Hh E) as (Hok & Hwf & _ & Hv & Hord).
    unfold runGraph, snapshotGraphInput in E. destruct (snapshotJson h input) as [inp|] eqn:Hs; [|done].
    fold compilation in E, Hv, Hord. rewrite Hv in E.
    destruct (captureCanonicalJson_cases h graph Hh) as [(j & Hj & Hc)|[(m & p & Hc) _]]; rewrite Hc in E; [|done].
    simpl in E. destruct (graph_of_json j) as [g|] eqn:Hg; [|done]. injection E as <- <- <-.
    split_and!; try done; [by exists j|apply (co_concurrency _ Hok)|]. simpl. unfold resolveConcurrency. lia.
Qed.

Lemma runGraph_setup_witness :
  heap_wf diamond.1 ∧
  valid (compileGraph id diamond.1 diamond.2) = true ∧
  match sample_setup (∅, VNull) with
  | SetupRun _ cfg ab => config_ok cfg ∧ cfg_concurrency cfg = 2%Z ∧ ab = false
  | _ => False
  end.
Proof.
  assert (heap_wf diamond.1) as Hh by (by apply (bool_decide_unpack _); vm_compute).
  split; [exact Hh|]. split; [vm_compute; reflexivity|].
  pose proof (runGraph_setup id (ThrownString (js "abort")) (λ x _, x) (λ key, key)
    diamond.1 diamond.2 VNull sample_options Hh) as H.
  assert (match sample_setup (∅, VNull) with SetupRun _ cfg _ => cfg_concurrency cfg = 2%Z | _ => False end) as Hc
    by (vm_compute; reflexivity).
  unfold sample_setup in *. cbn [snd] in *. cbv zeta in H.
  destruct (runGraph _ _ _ _ _ _ _ _) as [e|r|gh cfg ab]; [destruct Hc|destruct Hc|].
  destruct H as (_ & _ & -> & _ & _ & Hok & _). split; [exact Hok|]. split; [exact Hc|reflexivity].
Defined.

(** ** During the run *)

(** C5. At every moment of every interleaving the number of slots that are out is the
    number of tasks that hold one, it never exceeds the concurrency, a task waits
    only while all slots are out, and the attempts made stay within the run's budget
    and each node's own. *)
Theorem scheduler_limits cfg ab s :
  config_ok cfg → reachable cfg ab s →
  running (slots s) = map_sum holds (active s) ∧
  (0 ≤ running (slots s) ≤ observed (slots s) ≤ cfg_concurrency cfg)%Z ∧
  ((∃ id t, map_get id (active s) = Some t ∧ is_waiting t = true) → running (slots s) = cfg_concurrency cfg) ∧
  totalAttempts s = (map_sum attempts (results s) + map_sum task_attempts (active s))%Z ∧
  (totalAttempts s ≤ cfg_attemptLimit cfg)%Z ∧
  (∀ id r node, map_get id (results s) = Some r → find_node cfg id = Some node →
     attempts r ≤ max_attempts node)%Z ∧
  (∀ id t node, map_get id (active s) = Some t → find_node cfg id = Some node →
     task_attempts t ≤ max_attempts node)%Z.
Proof.
  intros Hok Hr. destruct (reachable_inv cfg Hok ab s Hr) as [_ [[[Hsem Hobs Hfull] Hrun _ Hlive _ _] Htot Hlim Htasks Hres _]].
  split_and!; try lia; try done.
  - intros (id & t & Ht & Hw). apply Hfull. intros Hnil.
    assert (id ∈ live (slots s)) as Hin by (apply Hlive; by exists t). rewrite Hnil in Hin. by apply not_elem_of_nil in Hin.
  - intros id r node Hid Hn. destruct (Hres id r Hid) as (_ & _ & n & Hn' & Hb & _). assert (n = node) as <- by congruence. lia.
  - intros id t node Hid Hn. destruct (Htasks id t Hid) as (n & Hn' & _ & Hb).
    assert (n = node) as <- by congruence. unfold task_attempts, progress_ok in *.
    destruct (task_at t) as [| | | | | |r]; try lia. destruct Hb as [(_ & _ & m & Hm & Hb & _) _].
    assert (m = n) as -> by congruence. lia.
Qed.

Lemma scheduler_limits_witness :
  let s := sample_state sample_config 4 in
  reachable sample_config false s ∧ running (slots s) = 2%Z ∧
  running (slots s) = map_sum holds (active s) ∧ (running (slots s) ≤ cfg_concurrency sample_config)%Z.
Proof.
  intros s. assert (reachable sample_config false s) as Hr
    by (apply sample_reachable; vm_compute; by eexists).
  split; [exact Hr|]. split; [vm_compute; reflexivity|].
  destruct (scheduler_limits sample_config false s sample_config_ok Hr) as (H & Hb & _).
  split; [exact H|]. lia.
Defined.

(** C6. Dependencies are respected: a node is active, or has run, only if every node
    it depends on has succeeded before; a node that is decided without running had all
    its dependencies decided; and no node is ever scheduled twice. *)
Theorem scheduler_order cfg ab s :
  config_ok cfg → reachable cfg ab s →
  (∀ u v t, map_get v (active s) = Some t → edge (graph_pairs (cfg_graph cfg)) u v →
     ∃ r, map_get u (results s) = Some r ∧ status r = NodeSucceeded) ∧
  (∀ u v r, map_get v (results s) = Some r → edge (graph_pairs (cfg_graph cfg)) u v →
     ∃ r', map_get u (results s) = Some r' ∧ (status r ≠ NodeSkipped → status r' = NodeSucceeded)) ∧
  NoDup ((results s).*1 ++ (active s).*1 ++ ready s) ∧
  (∀ id, id ∈ (results s).*1 ++ (active s).*1 ++ ready s → id ∈ graph_ids (cfg_graph cfg)).
Proof.
  intros Hok Hr. destruct (reachable_inv cfg Hok ab s Hr) as [[Hg _ _] Hinv].
  pose proof (reachable_skips cfg Hok ab s Hr) as Hskips.
  split_and!.
  - intros u v t Ht%map_get_Some_key Hu. pose proof (gi_active _ _ _ Hg u v Ht Hu) as Hs. unfold succeeded in Hs.
    destruct (map_get u (results s)) as [r|]; [|done]. exists r. split; [done|]. by apply bool_decide_eq_true_1 in Hs.
  - intros u v r Hv Hu. assert (v ∈ placed [] s) as Hpl.
    { unfold placed. rewrite !elem_of_app. right. left. by eapply map_get_Some_key. }
    pose proof (proj1 (open_edges_zero cfg s v) (gi_preds _ _ _ Hg v Hpl) u Hu) as Hin.
    apply map_get_elem_key in Hin as [r' Hr']. exists r'. split; [done|]. intros Hns.
    destruct (decide (status r' = NodeSucceeded)) as [|Hne]; [done|]. destruct Hns. apply (Hskips u v r Hv Hu).
    unfold succeeded. by rewrite Hr', bool_decide_eq_false_2.
  - apply Hg.
  - apply Hg.
Qed.

Lemma scheduler_order_witness :
  let s := sample_state sample_config 9 in
  reachable sample_config false s ∧ is_Some (map_get (js "d") (active s)) ∧
  ∃ r, map_get (js "c") (results s) = Some r ∧ status r = NodeSucceeded.
Proof.
  intros s. assert (reachable sample_config false s) as Hr
    by (apply sample_reachable; vm_compute; by eexists).
  split; [exact Hr|].
  assert (is_Some (map_get (js "d") (active s))) as [t Ht] by (vm_compute; by eexists).
  split; [by exists t|].
  apply (proj1 (scheduler_order sample_config false s sample_config_ok Hr) (js "c") (js "d") t Ht).
  apply (bool_decide_unpack _). vm_compute. exact I.
Defined.

(** ** The end of the run *)

(** A run that has stopped has no active task. *)
Lemma stopped_idle cfg s :
  graph_inv cfg [] s → (results s).*1 ≡ₚ graph_ids (cfg_graph cfg) → active s = [].
Proof.
  intros Hg Hstop. destruct (active s) as [|[k t] act] eqn:E; [done|]. exfalso.
  pose proof (gi_nodup _ _ _ Hg) as Hnd. pose proof (gi_ids _ _ _ Hg k) as Hk.
  unfold placed in Hnd, Hk. rewrite E in Hnd, Hk. simpl in Hnd, Hk.
  apply NoDup_app in Hnd as (_ & Hd & _). apply (Hd k); [|left]. rewrite Hstop. apply Hk. set_solver.
Qed.

Lemma stopped_total cfg ab hash s :
  config_ok cfg → reachable cfg ab s → finished s = true →
  run_totalAttempts (run_report cfg hash s) =
    sum_over (λ v, map_part attempts v (results s)) (graph_ids (cfg_graph cfg)).
Proof.
  intros Hok Hr Hf. destruct (reachable_inv cfg Hok ab s Hr) as [[Hg _ Hstop] Hinv]. specialize (Hstop Hf).
  unfold run_report. destruct (foldl _ _ _) as [[? ?] ?]. simpl.
  rewrite (ti_total _ _ _ Hinv), (stopped_idle cfg s Hg Hstop). simpl.
  rewrite (sum_parts cfg Hok (λ _ _ _ _, NotStarted) attempts); [lia|apply Hinv|]. intros v. by rewrite Hstop.
Qed.

(** From a good state some schedule without an abort finishes the run. *)
Lemma finishing_schedule cfg s :
  config_ok cfg → loop_inv cfg s → task_inv cfg 0 s →
  ∃ ls s', Forall (.≠ Abort) ls ∧ run_labels cfg ls s = Some s' ∧ finished s' = true.
Proof.
  intros Hok. remember (Z.to_nat (run_weight cfg s)) as n eqn:Hn. revert s Hn.
  induction (lt_wf n) as [n _ IH]. intros s -> Hloop Hinv.
  destruct (finished s) eqn:Hf; [by exists [], s|].
  destruct (can_move cfg Hok s Hloop Hinv Hf) as (l & s1 & Hl & Hs1).
  pose proof (step_weight cfg Hok l s s1 Hloop Hinv Hs1) as Hw.
  assert (task_inv cfg 0 s1) as Hinv1 by (by eapply step_task_inv).
  pose proof (run_weight_nonneg cfg s1 Hinv1).
  destruct (IH (Z.to_nat (run_weight cfg s1)) ltac:(lia) s1 eq_refl) as (ls & s' & Hls & Hrun & Hfin);
    [by eapply step_loop_inv|done|].
  exists (l :: ls), s'. split_and!; [by constructor| |done]. simpl. by rewrite Hs1.
Qed.

(** C7. The scheduler terminates and never deadlocks: no schedule is longer than a
    bound computed from the graph's retry limits; a run that has not stopped has an
    enabled step other than an abort, so every schedule can be completed. *)
Theorem scheduler_terminates cfg ab ls s :
  config_ok cfg → run_labels cfg ls (run_start cfg ab) = Some s →
  (Z.of_nat (length ls) ≤ step_bound cfg)%Z ∧
  (finished s = false → ∃ l s', l ≠ Abort ∧ step cfg l s = Some s') ∧
  (finished s = true → ∀ l, step cfg l s = None) ∧
  ∃ ls' s', Forall (.≠ Abort) ls' ∧ run_labels cfg (ls ++ ls') (run_start cfg ab) = Some s' ∧ finished s' = true.
Proof.
  intros Hok Hrun.
  destruct (reachable_inv cfg Hok ab (run_start cfg ab)) as [Hl0 Hi0]; [apply rtc_refl|].
  destruct (run_length cfg Hok ls _ s Hl0 Hi0 Hrun) as (Hlen & Hloop & Hinv).
  pose proof (start_weight cfg Hok ab). pose proof (run_weight_nonneg cfg s Hinv).
  split_and!; [lia|by apply can_move| |].
  - intros Hf l. unfold step. by rewrite Hf.
  - destruct (finishing_schedule cfg s Hok Hloop Hinv) as (ls' & s' & Hls & Hrun' & Hf).
    exists ls', s'. split_and!; [done| |done]. clear -Hrun Hrun'. revert Hrun. generalize (run_start cfg ab).
    induction ls as [|l ls IH]; intros s0 Hrun; simpl in *; [by injection Hrun as ->|].
    destruct (step cfg l s0); simpl in *; [by apply IH|done].
Qed.

Lemma scheduler_terminates_witness :
  config_ok sample_config ∧ step_bound sample_config = 37%Z ∧
  ∃ ls' s', run_labels sample_config (take 5 sample_schedule ++ ls') (run_start sample_config false) = Some s' ∧
    finished s' = true.
Proof.
  split; [exact sample_config_ok|]. split; [vm_compute; reflexivity|].
  assert (is_Some (run_labels sample_config (take 5 sample_schedule) (run_start sample_config false))) as [s Hs]
    by (vm_compute; by eexists).
  destruct (scheduler_terminates sample_config false _ s sample_config_ok Hs) as (_ & _ & _ & ls' & s' & _ & H & Hf).
  exists ls', s'. split; [exact H|exact Hf].
Defined.

(** C8. When the run stops, every node of the graph has exactly one result, reported
    in topological order; a success has an output and no failure, any other result a
    failure and no output, a skipped node made no attempt; and the results seen at
    any earlier moment are the ones reported. *)
Theorem scheduler_complete cfg ab hash s s' :
  config_ok cfg → reachable cfg ab s → rtc (run_step cfg) s s' → finished s' = true →
  active s' = [] ∧
  nodeId <$> run_nodes (run_report cfg hash s') = cfg_order cfg ∧ cfg_order cfg ≡ₚ graph_ids (cfg_graph cfg) ∧
  Forall (λ r, result_ok cfg (nodeId r) r) (run_nodes (run_report cfg hash s')) ∧
  run_totalAttempts (run_report cfg hash s') = map_sum attempts (results s') ∧
  ∀ id r, map_get id (results s) = Some r → map_get id (results s') = Some r ∧ r ∈ run_nodes (run_report cfg hash s').
Proof.
  intros Hok Hr Hss Hf. destruct (reachable_inv cfg Hok ab s Hr) as [Hloop _].
  destruct (reachable_inv cfg Hok ab s') as [[Hg _ Hstop] Hinv]; [unfold reachable in *; by etrans|].
  specialize (Hstop Hf). pose proof (ti_results _ _ _ Hinv) as Hres.
  pose proof (stopped_idle cfg s' Hg Hstop) as Ha.
  assert (run_nodes (run_report cfg hash s') = omap (λ id, map_get id (results s')) (cfg_order cfg)) as Hn
    by (unfold run_report; by destruct (foldl _ _ _) as [[? ?] ?]).
  split_and!; [done| |apply Hok| | |].
  - apply report_nodes.
    + intros id Hid. apply map_get_elem_key. by rewrite Hstop, <- (co_order _ Hok).
    + intros id r Hid. by apply Hres.
  - rewrite Hn. apply Forall_forall. intros r (id & _ & Hid)%list_elem_of_omap.
    pose proof (Hres id r Hid) as Hrok. by rewrite (proj1 Hrok).
  - unfold run_report. destruct (foldl _ _ _) as [[? ?] ?]. simpl. rewrite (ti_total _ _ _ Hinv), Ha. simpl. lia.
  - intros id r Hid. assert (map_get id (results s') = Some r) as Hid' by (by eapply extends_run).
    split; [done|]. rewrite Hn. apply list_elem_of_omap. exists id. split; [|done].
    rewrite (co_order _ Hok), <- Hstop. by eapply map_get_Some_key.
Qed.

Lemma scheduler_complete_witness :
  let s := sample_state sample_config 12 in
  finished s = true ∧
  nodeId <$> run_nodes (run_report sample_config None s) = [js "a"; js "b"; js "c"; js "d"] ∧
  run_totalAttempts (run_report sample_config None s) = map_sum attempts (results s).
Proof.
  intros s. assert (reachable sample_config false s) as Hr
    by (apply sample_reachable; vm_compute; by eexists).
  assert (finished s = true) as Hf by (vm_compute; reflexivity).
  split; [exact Hf|].
  destruct (scheduler_complete sample_config false None s s sample_config_ok Hr (rtc_refl _ s) Hf)
    as (_ & Hn & _ & _ & Ht & _).
  split; [|exact Ht]. rewrite Hn. vm_compute. reflexivity.
Defined.

(** ** Skipped nodes *)

(** C12. Failures propagate exactly downstream: a decided node with a dependency that
    did not succeed is skipped; and a skipped node says why, which is either the
    abort of the run or precisely the sorted list of its dependencies that did not
    succeed, which is then not empty. *)
Theorem scheduler_skips cfg ab s v r :
  config_ok cfg → reachable cfg ab s → map_get v (results s) = Some r →
  (∀ u, edge (graph_pairs (cfg_graph cfg)) u v → succeeded s u = false → status r = NodeSkipped) ∧
  (status r = NodeSkipped → ∃ f, failure r = Some f ∧
     ((failure_code f = NODE_CANCELLED ∧ aborted s = true) ∨
      (failure_code f = UPSTREAM_FAILED ∧ ∃ us, failure_upstreamNodeIds f = Some us ∧ us ≠ [] ∧
        us = sort_by compareUnicodeCodePoints us ∧
        ∀ u, u ∈ us ↔ edge (graph_pairs (cfg_graph cfg)) u v ∧ succeeded s u = false))).
Proof.
  intros Hok Hr Hv. split; [intros u; by eapply reachable_skips|]. intros Hs.
  destruct (reachable_justified cfg Hok ab s Hr v r Hv Hs) as (f & Hf & [Hc|(Hc & Hne & Hus)]); exists f; split; try done.
  - by left.
  - right. split; [done|]. exists (failed_upstream cfg s v). split_and!; [done|done| |].
    + symmetry. apply sort_by_idemp, _.
    + intros u. unfold failed_upstream. rewrite elem_of_sort_by, elem_of_set_of_list, list_elem_of_filter, elem_of_sources.
      tauto.
Qed.

(** The sample run in which the first node throws. *)
Definition failing_schedule : list label :=
  [Resume (js "a"); AttemptDone (js "a") false (Threw (ThrownString (js "boom")) false); Complete (js "a")].
Definition failing_state : run_state :=
  default (run_start sample_config false)
    (run_labels sample_config failing_schedule (run_start sample_config false)).
Lemma failing_reachable : reachable sample_config false failing_state.
Proof.
  assert (is_Some (run_labels sample_config failing_schedule (run_start sample_config false))) as [s Hs]
    by (vm_compute; by eexists).
  unfold failing_state. rewrite Hs. by eapply run_labels_reachable.
Qed.

Lemma scheduler_skips_witness :
  finished failing_state = true ∧
  ∃ r f, map_get (js "d") (results failing_state) = Some r ∧ status r = NodeSkipped ∧ failure r = Some f ∧
    failure_upstreamNodeIds f = Some [js "b"; js "c"].
Proof.
  split; [vm_compute; reflexivity|].
  assert ((λ r, (status r, failure_code <$> failure r, failure r ≫= failure_upstreamNodeIds)) <$>
            map_get (js "d") (results failing_state) =
          Some (NodeSkipped, Some UPSTREAM_FAILED, Some [js "b"; js "c"])) as E by (vm_compute; reflexivity).
  destruct (map_get (js "d") (results failing_state)) as [r|] eqn:Hr; [|discriminate E]. injection E as Hs Hc Hu.
  destruct (proj2 (scheduler_skips sample_config false failing_state (js "d") r sample_config_ok failing_reachable Hr) Hs)
    as (f & Hf & _).
  exists r, f. split; [reflexivity|]. split; [exact Hs|]. split; [exact Hf|]. rewrite Hf in Hu. exact Hu.
Defined.

(** ** Independence of the schedule *)

Lemma with_concurrency_ok cfg c : (1 ≤ c)%Z → config_ok cfg → config_ok (with_concurrency cfg c).
Proof. intros Hc [H1 H2 H3 H4 _ H6]. by split. Qed.

Lemma env_run_reachable cfg env s s' : rtc (env_step cfg env) s s' → rtc (run_step cfg) s s'.
Proof. induction 1 as [|? ? ? (l & _ & Hl)]; [done|]. eapply rtc_l; [by exists l|done]. Qed.

(** Runs whose configurations agree on the reference results report the same. *)
Lemma same_report cfg cfg' hash s s' :
  config_ok cfg → config_ok cfg' → cfg_graph cfg' = cfg_graph cfg → cfg_order cfg' = cfg_order cfg →
  cfg_readonly cfg' = cfg_readonly cfg →
  reachable cfg false s → reachable cfg' false s' → finished s = true → finished s' = true →
  aborted s = aborted s' → (∀ id, map_get id (results s) = map_get id (results s')) →
  let r := run_report cfg hash s in let r' := run_report cfg' hash s' in
  run_status r = run_status r' ∧ run_output r = run_output r' ∧ run_nodes r = run_nodes r' ∧
  run_failures r = run_failures r' ∧ run_totalAttempts r = run_totalAttempts r'.
Proof.
  intros Hok Hok' Hg Ho Hro Hr Hr' Hf Hf' Hab Hres.
  destruct (run_report_ext cfg hash s s' Hres Hab) as (H1 & H2 & H3 & H4).
  assert (run_report cfg' hash s' = run_report cfg hash s') as Heq.
  { unfold run_report, bind_output. by rewrite Hg, Ho, Hro. }
  rewrite Heq. split_and!; [done..|]. rewrite (stopped_total cfg false hash s) by done.
  rewrite <- Heq, (stopped_total cfg' false hash s'), Hg by done. unfold sum_over, map_part.
  induction (graph_ids (cfg_graph cfg)) as [|v l IH]; simpl; [done|]. by rewrite IH, Hres.
Qed.

(** C9. The scheduler refines sequential evaluation: when the executors' outcomes are
    a function of the node, its input and the attempt number, the run is not aborted
    and its budget covers the nodes' attempts, then every complete interleaving
    reports for each node, in topological order, the result of evaluating the nodes
    one after the other. *)
Theorem scheduler_refines_reference cfg (env : environment) hash s :
  config_ok cfg →
  (∀ node e inp n, cfg_executor cfg node = Some e → event_allowed node e true (env e node inp n) = true) →
  (sum_over (node_budget cfg) (graph_ids (cfg_graph cfg)) ≤ cfg_attemptLimit cfg)%Z →
  rtc (env_step cfg env) (run_start cfg false) s → finished s = true →
  run_nodes (run_report cfg hash s) = reference_node cfg env (reference cfg env) <$> cfg_order cfg ∧
  (∀ id, map_get id (results s) = map_get id (reference cfg env)).
Proof.
  intros Hok Hallow Hbudget Hrun Hf. pose proof (finished_reference cfg Hok env Hallow Hbudget s Hrun Hf) as Href.
  split; [|intros id; apply Href].
  assert (run_nodes (run_report cfg hash s) = omap (λ id, map_get id (results s)) (cfg_order cfg)) as ->
    by (unfold run_report; by destruct (foldl _ _ _) as [[? ?] ?]).
  assert (∀ id, id ∈ cfg_order cfg → map_get id (results s) = Some (reference_node cfg env (reference cfg env) id)) as H.
  { intros id Hid. apply Href. by rewrite <- (co_order _ Hok). }
  induction (cfg_order cfg) as [|id l IH]; [done|]. csimpl. rewrite (H id) by left. f_equal. apply IH.
  intros v Hv. apply H. by right.
Qed.

(** The sample schedule is a run in the sample environment. *)
Definition null_label (l : label) : bool :=
  match l with
  | Abort => false
  | AttemptDone _ false (Returned h VNull) => bool_decide (h = ∅)
  | AttemptDone _ _ _ => false
  | _ => true
  end.
Lemma null_run cfg ls s0 s :
  Forall (λ l, null_label l = true) ls → run_labels cfg ls s0 = Some s → rtc (env_step cfg sample_env) s0 s.
Proof.
  revert s0. induction ls as [|l ls IH]; intros s0 Hls H; simpl in H; [by injection H as ->|].
  apply Forall_cons in Hls as [Hl Hls]. apply bind_Some in H as (s1 & Hs1 & H).
  eapply rtc_l; [|by apply IH]. exists l. split; [|done].
  destruct l as [|id|id [] [|h []| | |]|id]; try done. apply bool_decide_eq_true_1 in Hl as ->.
  split; [done|]. unfold step in Hs1. destruct (finished s0); [done|].
  apply bind_Some in Hs1 as (t & Ht & Hs1). apply bind_Some in Hs1 as (node & Hn & Hs1).
  destruct (task_at t) as [| | |n called| | |] eqn:Hat; try done. destruct (task_executor t) as [e|] eqn:He; [|done].
  destruct e; [| | |by rewrite andb_comm in Hs1; destruct called]; by eexists t, node, _, n, called.
Qed.
Lemma sample_null : Forall (λ l, null_label l = true) sample_schedule.
Proof. by repeat constructor. Qed.

Lemma sample_env_allowed cfg node e inp n :
  cfg_executor cfg node = Some e → event_allowed node e true (sample_env e node inp n) = true.
Proof. by destruct e. Qed.

Lemma scheduler_refines_reference_witness :
  let s := sample_state sample_config 12 in
  finished s = true ∧
  run_nodes (run_report sample_config None s) =
    reference_node sample_config sample_env (reference sample_config sample_env) <$> cfg_order sample_config.
Proof.
  intros s. assert (finished s = true) as Hf by (vm_compute; reflexivity). split; [exact Hf|].
  assert (is_Some (run_labels sample_config (take 12 sample_schedule) (run_start sample_config false))) as [s' Hs']
    by (vm_compute; by eexists).
  assert (s = s') as Hs by (unfold s, sample_state; rewrite Hs'; reflexivity).
  apply (scheduler_refines_reference sample_config sample_env None s sample_config_ok (sample_env_allowed sample_config)).
  - vm_compute. discriminate.
  - rewrite Hs. apply (null_run _ _ _ _ (Forall_take _ 12 _ sample_null) Hs').
  - exact Hf.
Defined.

Lemma report_graphHash cfg hash s : run_graphHash (run_report cfg hash s) = hash.
Proof. unfold run_report. cbv zeta. by destruct (foldl _ _ _) as [[??] ?]. Qed.
Lemma report_observed cfg ab hash s :
  config_ok cfg → reachable cfg ab s →
  (0 ≤ run_maxObservedConcurrency (run_report cfg hash s) ≤ cfg_concurrency cfg)%Z.
Proof.
  intros Hok Hr. destruct (reachable_inv cfg Hok ab s Hr) as [_ [[[Hsem Hobs _] _ _ _ _ _] _ _ _ _ _]].
  unfold run_report. cbv zeta. destruct (foldl _ _ _) as [[??] ?]. cbn [run_maxObservedConcurrency]. lia.
Qed.

(** C10. The outcome does not depend on the schedule or on the concurrency.  Take two
    complete runs of one graph, under any two concurrency limits, that nobody aborts, in
    an environment where the outcome of an attempt depends only on its node, its input
    and its number, and with an attempt budget that covers the retries of every node
    (when it does not, which node gets the last attempt is a race).  Their reports agree
    in every field but [maxObservedConcurrency], and that stays within the limit of its
    own run. *)
Theorem scheduler_schedule_independent cfg c (env : environment) hash s s' :
  config_ok cfg → (1 ≤ c)%Z →
  (∀ node e inp n, cfg_executor cfg node = Some e → event_allowed node e true (env e node inp n) = true) →
  (sum_over (node_budget cfg) (graph_ids (cfg_graph cfg)) ≤ cfg_attemptLimit cfg)%Z →
  rtc (env_step cfg env) (run_start cfg false) s → finished s = true →
  rtc (env_step (with_concurrency cfg c) env) (run_start (with_concurrency cfg c) false) s' → finished s' = true →
  let r := run_report cfg hash s in
  let r' := run_report (with_concurrency cfg c) hash s' in
  (run_status r = run_status r' ∧ run_output r = run_output r' ∧ run_nodes r = run_nodes r' ∧
   run_failures r = run_failures r' ∧ run_totalAttempts r = run_totalAttempts r') ∧
  run_graphHash r = run_graphHash r' ∧
  (0 ≤ run_maxObservedConcurrency r ≤ cfg_concurrency cfg)%Z ∧ (0 ≤ run_maxObservedConcurrency r' ≤ c)%Z.
Proof.
  intros Hok Hc Hallow Hbudget Hrun Hf Hrun' Hf'. pose proof (with_concurrency_ok cfg c Hc Hok) as Hok'.
  split; [|rewrite !report_graphHash; split; [done|];
    split; [apply (report_observed cfg false)|apply (report_observed (with_concurrency cfg c) false)]; by try eapply env_run_reachable].
  pose proof (finished_reference cfg Hok env Hallow Hbudget s Hrun Hf) as Href.
  pose proof (finished_reference (with_concurrency cfg c) Hok' env Hallow Hbudget s' Hrun' Hf') as Href'.
  apply same_report; try done.
  - by eapply env_run_reachable.
  - by eapply env_run_reachable.
  - destruct (env_run_follows cfg Hok env Hallow Hbudget s Hrun) as (_ & _ & [-> _ _]).
    by destruct (env_run_follows (with_concurrency cfg c) Hok' env Hallow Hbudget s' Hrun') as (_ & _ & [-> _ _]).
  - intros id. destruct (Href id) as [-> _]. by destruct (Href' id) as [-> _].
Qed.

(** With two slots and with one, and the middle layer in either order. *)
Definition serial_schedule : list label :=
  run_node "a" ++ run_node "b" ++ run_node "c" ++ run_node "d".
Lemma serial_null : Forall (λ l, null_label l = true) serial_schedule.
Proof. by repeat constructor. Qed.
Lemma scheduler_schedule_independent_witness :
  match run_labels sample_config sample_schedule (run_start sample_config false),
        run_labels (with_concurrency sample_config 1) serial_schedule (run_start (with_concurrency sample_config 1) false) with
  | Some s, Some s' =>
      finished s = true ∧ finished s' = true ∧
      run_nodes (run_report sample_config None s) = run_nodes (run_report (with_concurrency sample_config 1) None s') ∧
      run_maxObservedConcurrency (run_report sample_config None s) = 2%Z ∧
      run_maxObservedConcurrency (run_report (with_concurrency sample_config 1) None s') = 1%Z
  | _, _ => False
  end.
Proof.
  assert (match run_labels sample_config sample_schedule (run_start sample_config false),
        run_labels (with_concurrency sample_config 1) serial_schedule (run_start (with_concurrency sample_config 1) false) with
  | Some s, Some s' =>
      finished s = true ∧ finished s' = true ∧
      run_maxObservedConcurrency (run_report sample_config None s) = 2%Z ∧
      run_maxObservedConcurrency (run_report (with_concurrency sample_config 1) None s') = 1%Z
  | _, _ => False end) as H by (vm_compute; repeat split).
  destruct (run_labels sample_config sample_schedule (run_start sample_config false)) as [s|] eqn:E1; [|exact H].
  destruct (run_labels (with_concurrency sample_config 1) serial_schedule _) as [s'|] eqn:E2; [|exact H].
  destruct H as (Hf & Hf' & Hm & Hm'). split; [exact Hf|]. split; [exact Hf'|]. split; [|split; [exact Hm|exact Hm']].
  apply (scheduler_schedule_independent sample_config 1 sample_env None s s' sample_config_ok ltac:(lia) (sample_env_allowed sample_config)).
  - vm_compute. discriminate.
  - apply (null_run _ _ _ _ sample_null E1).
  - exact Hf.
  - apply (null_run _ _ _ _ serial_null E2).
  - exact Hf'.
Defined.

(** ** The report *)

(** Binding the outputs adds a failure only together with clearing the flag. *)
Lemma bind_outputs cfg s l out complete fs :
  let '(_, complete', fs') := foldl (bind_output cfg s) (out, complete, fs) l in
  (complete = false → complete' = false) ∧ ∃ extra, fs' = fs ++ extra ∧ (complete' = true → extra = []).
Proof.
  revert out complete fs. induction l as [|[name e] l IH]; intros out complete fs; cbn [foldl].
  { split; [done|]. exists []. by rewrite app_nil_r. }
  destruct (bind_output cfg s (out, complete, fs) (name, e)) as [[out1 c1] fs1] eqn:E.
  assert ((complete = false → c1 = false) ∧ ∃ extra, fs1 = fs ++ extra ∧ (c1 = true → extra = [])) as (H1 & x1 & -> & H2).
  { unfold bind_output in E. destruct (succeeded s (endpoint_node e)).
    - destruct (_ ≫= _) as [out2|error]; injection E as <- <- <-; (split; [done|]).
      + exists []. by rewrite app_nil_r.
      + by eexists.
    - injection E as <- <- <-. split; [done|]. exists []. by rewrite app_nil_r. }
  specialize (IH out1 c1 (fs ++ x1)). destruct (foldl _ _ _) as [[out' c'] fs'].
  destruct IH as (H3 & x2 & -> & H4). split; [naive_solver|]. exists (x1 ++ x2). rewrite app_assoc.
  split; [done|]. intros Hc. rewrite (H4 Hc), app_nil_r. apply H2. destruct c1; [done|]. by rewrite H3 in Hc.
Qed.

(** The status of a report is what its contents say: cancelled exactly when the
    run was aborted; succeeded exactly when it was not, every node succeeded and every
    graph output is bound; a report that is not cancelled and has an output but did
    not succeed has the failures of its nodes. *)
Theorem report_status cfg ab hash s :
  config_ok cfg → reachable cfg ab s → finished s = true →
  let r := run_report cfg hash s in
  (run_status r = RunCancelled ↔ aborted s = true) ∧
  (run_status r = RunSucceeded ↔
     aborted s = false ∧ Forall (λ n, status n = NodeSucceeded) (run_nodes r) ∧ is_Some (run_output r)) ∧
  (run_status r = RunSucceeded → run_failures r = []) ∧
  (∀ n f, n ∈ run_nodes r → failure n = Some f → ExecutionRunFailure f ∈ run_failures r).
Proof.
  intros Hok Hr Hf. destruct (reachable_inv cfg Hok ab s Hr) as [_ Hinv]. pose proof (ti_results _ _ _ Hinv) as Hres.
  intros r. subst r. unfold run_report.
  set (nodes := omap (λ id, map_get id (results s)) (cfg_order cfg)).
  set (fails := omap (λ r, ExecutionRunFailure <$> failure r) nodes).
  pose proof (bind_outputs cfg s (sort_by compare_keys (graph_outputs (cfg_graph cfg))) empty_record true fails) as Hb.
  destruct (foldl _ _ _) as [[out complete] failures]. destruct Hb as (_ & extra & -> & Hextra). simpl.
  assert (fails = [] ↔ Forall (λ n, status n = NodeSucceeded) nodes) as Hfails.
  { rewrite Forall_forall. unfold fails. split.
    - intros Hnil n Hn. assert (failure n = None) as Hnone.
      { destruct (failure n) as [f|] eqn:Hfn; [|done]. exfalso.
        assert (ExecutionRunFailure f ∈ omap (λ r, ExecutionRunFailure <$> failure r) nodes) as Hin.
        { apply list_elem_of_omap. exists n. by rewrite Hfn. }
        rewrite Hnil in Hin. by apply not_elem_of_nil in Hin. }
      apply list_elem_of_omap in Hn as (id & _ & Hid). destruct (Hres id n Hid) as (_ & _ & node & _ & _ & Hst).
      destruct (status n); [done|..]; destruct Hst as [[f Hst] _]; congruence.
    - intros Hall. apply elem_of_nil_inv. intros x (n & Hn & Hx)%list_elem_of_omap.
      specialize (Hall n Hn). apply list_elem_of_omap in Hn as (id & _ & Hid).
      destruct (Hres id n Hid) as (_ & _ & node & _ & _ & Hst). rewrite Hall in Hst.
      destruct Hst as [Hst _]. by rewrite Hst in Hx. }
  split_and!.
  - destruct (aborted s); [done|]. by destruct (_ && _).
  - rewrite <- Hfails. destruct (aborted s); simpl; [naive_solver|].
    destruct complete; simpl.
    + rewrite (Hextra eq_refl), app_nil_r. destruct fails; simpl; naive_solver.
    + rewrite andb_false_r. split; [done|]. by intros (_ & _ & [? ?]).
  - destruct (aborted s); [done|]. destruct (length _ =? 0) eqn:E; [|done]. bool_hyps. intros _.
    by apply length_zero_iff_nil.
  - intros n f Hn Hfn. rewrite elem_of_app. left. apply list_elem_of_omap. exists n. by rewrite Hfn.
Qed.

Lemma report_status_witness :
  let s := failing_state in
  finished s = true ∧ run_status (run_report sample_config None s) = RunFailed ∧
  ¬ Forall (λ n, status n = NodeSucceeded) (run_nodes (run_report sample_config None s)) ∧
  (∀ n f, n ∈ run_nodes (run_report sample_config None s) → failure n = Some f →
     ExecutionRunFailure f ∈ run_failures (run_report sample_config None s)).
Proof.
  intros s. assert (finished s = true) as Hf by (vm_compute; reflexivity). split; [exact Hf|].
  split; [vm_compute; reflexivity|].
  destruct (report_status sample_config false None s sample_config_ok failing_reachable Hf) as (_ & _ & _ & H).
  split; [|exact H]. intros Hall.
  assert (status <$> run_nodes (run_report sample_config None failing_state) =
    [NodeFailed; NodeSkipped; NodeSkipped; NodeSkipped]) as E by (vm_compute; reflexivity).
  fold s in E. destruct (run_nodes (run_report sample_config None s)) as [|n ns]; [discriminate E|].
  apply Forall_inv in Hall. injection E as E _. rewrite E in Hall. discriminate Hall.
Defined.

(** ** Binding inputs *)

(** The loop of [bindNodeInput] succeeds exactly when every source value is there
    and no key is used twice. *)
Lemma bind_edges_iff ro id outputs o es o' :
  proto o = ObjectPrototype → Forall (λ e, edge_key e ≠ js "__proto__") es →
  bind_edges ro id outputs o es = Ok o' ↔
  NoDup (edge_key <$> es) ∧ (∀ k, k ∈ edge_key <$> es → k ∉ (own_props o).*1) ∧
  ∃ vs, Forall2 (λ e v, endpointValue (edge_from e)
                          (default JNull (outputs (endpoint_node (edge_from e)))) = Ok v) es vs ∧
    o' = Build_open_record (own_props o ++ zip (edge_key <$> es) vs) ObjectPrototype.
Proof.
  revert o. induction es as [|e es IH]; intros o Hp Hk; simpl.
  { split.
    - intros [= <-]. split_and!; [constructor|set_solver|]. exists []. split; [done|].
      rewrite app_nil_r. destruct o; simpl in *. by rewrite Hp.
    - intros (_ & _ & vs & Hvs%Forall2_nil_inv_l & ->). subst. simpl. rewrite app_nil_r.
      destruct o; simpl in *. by rewrite Hp. }
  apply Forall_cons in Hk as [Hke Hk]. unfold bind_edge at 1. unfold has_own.
  destruct (map_has (edge_key e) (own_props o)) eqn:Hhas.
  { split; [done|]. intros (_ & Hn & _). exfalso. apply (Hn (edge_key e)); [left|].
    apply map_has_true in Hhas. done. }
  assert (edge_key e ∉ (own_props o).*1) as Hfresh by (intros Hin; apply map_has_true in Hin; congruence).
  destruct (endpointValue _ _) as [v|err] eqn:Hv; simpl.
  2: { split; [done|]. intros (_ & _ & vs & Hvs & _). apply Forall2_cons_inv_l in Hvs as (v & vs' & Hv' & _). congruence. }
  unfold assign_property, has_own. rewrite Hhas, Hp, decide_False by done. simpl.
  rewrite IH by done. simpl. rewrite (map_set_absent _ _ _ Hfresh), fmap_app. simpl. split.
  - intros (Hnd & Hn & vs & Hvs & ->). split_and!.
    + apply NoDup_cons. split; [|done]. intros Hin. apply (Hn _ Hin). set_solver.
    + intros k [->|Hin]%elem_of_cons; [done|]. intros Hin'. apply (Hn k Hin). set_solver.
    + exists (v :: vs). split; [by constructor|]. by rewrite <- app_assoc.
  - intros (Hnd & Hn & vs & Hvs & ->). apply NoDup_cons in Hnd as [Hnin Hnd].
    apply Forall2_cons_inv_l in Hvs as (v' & vs' & Hv' & Hvs & ->). assert (v' = v) as -> by congruence.
    split_and!; [done| |].
    + intros k Hin. rewrite elem_of_app. intros [Hin'| ->%list_elem_of_singleton]; [|done].
      apply (Hn k); [by right|done].
    + exists vs'. split; [done|]. by rewrite <- app_assoc.
Qed.

(** The input of a node: without incoming edges it is the graph's input; otherwise
    it is the snapshot of the record that maps the key of each edge (its target port,
    or else its source node) to the value it carries, and binding fails exactly when
    a port is missing in its source's output or two edges share a key. *)
Theorem bindNodeInput_spec ro id es inp outputs j :
  Forall (λ e, edge_key e ≠ js "__proto__") es →
  bindNodeInput ro id es inp outputs = Ok j ↔
  (es = [] ∧ j = inp) ∨
  (es ≠ [] ∧ NoDup (edge_key <$> es) ∧
   ∃ vs, Forall2 (λ e v, let output := default JNull (outputs (endpoint_node (edge_from e))) in
             match endpoint_port (edge_from e) with
             | None => v = output
             | Some port => json_own output port = Some v
             end) es vs ∧
     snapshot_tree (JObj (own_order (zip (edge_key <$> es) vs))) = Ok j).
Proof.
  intros Hk. unfold bindNodeInput. destruct es as [|e es]; [naive_solver|].
  assert (∀ vs, Forall2 (λ e v, endpointValue (edge_from e) (default JNull (outputs (endpoint_node (edge_from e)))) = Ok v)
      (e :: es) vs ↔
    Forall2 (λ e v, let output := default JNull (outputs (endpoint_node (edge_from e))) in
             match endpoint_port (edge_from e) with
             | None => v = output
             | Some port => json_own output port = Some v
             end) (e :: es) vs) as Hval.
  { intros vs. split; intros H; eapply Forall2_impl; [exact H| |exact H|]; intros x y; unfold endpointValue;
      cbv zeta; destruct (endpoint_port _); [case_match; naive_solver|naive_solver|intros ->; done|naive_solver]. }
  setoid_rewrite <- Hval. clear Hval.
  destruct (bind_edges ro id outputs empty_record (e :: es)) as [o|err] eqn:Hb; simpl.
  - apply bind_edges_iff in Hb as (Hnd & _ & vs & Hvs & ->); [|done|done]. simpl. split.
    + intros Hs. right. split; [done|]. split; [done|]. by exists vs.
    + intros [[? _]|(_ & _ & vs' & Hvs' & Hs)]; [done|]. assert (vs' = vs) as ->; [|done].
      clear -Hvs Hvs'. revert vs Hvs. induction Hvs'; intros vs Hvs; inversion Hvs; [done|]. f_equal; [congruence|auto].
  - split; [done|]. intros [[? _]|(_ & Hnd & vs & Hvs & _)]; [done|].
    assert (bind_edges ro id outputs empty_record (e :: es) =
      Ok (Build_open_record (zip (edge_key <$> e :: es) vs) ObjectPrototype)) as Hok; [|congruence].
    apply bind_edges_iff; [done|done|]. split_and!; [done|set_solver|]. by exists vs.
Qed.

(** Two edges into one node: from [b], and from port [x] of [c] to port [y]. *)
Definition two_edges : list EdgeSpec :=
  [Build_EdgeSpec (js "e1") (Build_Endpoint (js "b") None) (Build_Endpoint (js "d") None) None None None None;
   Build_EdgeSpec (js "e2") (Build_Endpoint (js "c") (Some (js "x"))) (Build_Endpoint (js "d") (Some (js "y")))
     None None None None].
Definition two_outputs (id : jsstr) : option json :=
  if decide (id = js "c") then Some (JObj [(js "x", JBool true)]) else Some JNull.
Lemma bindNodeInput_spec_witness :
  NoDup (edge_key <$> two_edges) ∧
  bindNodeInput id (js "d") two_edges JNull two_outputs = Ok (JObj [(js "b", JNull); (js "y", JBool true)]).
Proof.
  assert (NoDup (edge_key <$> two_edges)) as Hnd by (apply (bool_decide_unpack _); vm_compute; exact I).
  split; [exact Hnd|]. apply bindNodeInput_spec.
  - apply (bool_decide_unpack _); vm_compute; exact I.
  - right. split; [discriminate|]. split; [exact Hnd|]. exists [JNull; JBool true].
    split; [|vm_compute; reflexivity].
    constructor; [reflexivity|]. constructor; [vm_compute; reflexivity|constructor].
Defined.

(** ** Divergences *)

(** A port named [__proto__] sets the prototype of the record instead of a property:
    a primitive value is lost, an object makes the binding fail. *)
Definition proto_edge : EdgeSpec :=
  Build_EdgeSpec (js "e") (Build_Endpoint (js "a") None) (Build_Endpoint (js "b") (Some (js "__proto__")))
    None None None None.
Lemma proto_port_lost ro :
  bindNodeInput ro (js "b") [proto_edge] JNull (λ _, Some (JBool true)) = Ok (JObj []) ∧
  bindNodeInput ro (js "b") [proto_edge] JNull (λ _, Some (JObj [])) =
    Err (ThrownError (js "CanonicalizationError") (js "Only plain JSON objects are supported at #")).
Proof. split; vm_compute; reflexivity. Qed.

(** A node named like a member of [Object.prototype] runs that member when a
    [nodeExecutors] object without it is given, even before its kind's executor. *)
Lemma inherited_executor node own kinds c ab :
  node_id node ∈ OBJECT_PROTOTYPE → node_id node ∉ own →
  select_executor (Build_SchedulerOptions (Some own) kinds c ab) node = Some (InheritedMember (node_id node)).
Proof.
  intros Hin Hout. unfold select_executor. cbn [nodeExecutors]. by rewrite bool_decide_eq_false_2, bool_decide_eq_true_2.
Qed.

(** With no initial delay and a multiplier whose power overflows the delay is not a
    number. *)
Lemma retryDelay_nan power node n :
  (node_retry node ≫= retry_initialDelayMs) = None → (node_retry node ≫= retry_maxDelayMs) = None →
  (∀ x y, power x y = S754_infinity false) → retryDelay power node n = S754_nan.
Proof. intros Hi Hm Hp. unfold retryDelay. rewrite Hi, Hm, Hp. reflexivity. Qed.
