(* ===== verification/PatternRuns.v ===== *)
(** * Running the graph of a pattern

    The builders of the patterns package and the scheduler of the runtime meet in the
    document: a graph that [diamond], [routedBranches] or [verifiedFanout] returned, run
    by [runGraph].  Every item receives the output of the entry under the entry's
    identifier, the exit receives the outputs of the items under their keys, and the run
    returns the output of the exit under the output key. *)
From S2P Require Import Prelude JsString JsNumber JsValue JsonText Dag Canonical CanonicalSpec NumberText JsonRoundTrip.
From S2P Require Import ParsedJson JsonValues SchemaValidation GraphIR Compiler CompilerSpec RuntimeTypes Semaphore.
From S2P Require Import Scheduler SchedulerGraph SchedulerTasks SchedulerLive SchedulerDeterminism SchedulerSpec SchedulerTheorems.
From S2P Require Import PatternShapes PatternInternal PatternSnapshot Patterns PatternGraph PatternsSpec PatternsTheorems.
#[local] Arguments js : simpl never.

(** ** Values that pass between nodes *)

Definition snapshot_ok (j : json) : Prop := json_ok j ∧ interoperable j.
#[export] Instance snapshot_ok_dec j : Decision (snapshot_ok j).
Proof. unfold snapshot_ok, interoperable. apply _. Defined.

Lemma portable_numbers_interoperable j : portable_numbers j = interoperable_b j.
Proof.
  induction j as [|b|n|s|items IH|props IH] using json_nested_ind; try done.
  - cbn [portable_numbers interoperable_b]. by destruct (num_integer n), (num_safe_integer n).
  - cbn [portable_numbers interoperable_b]. induction IH as [|j l Hj _ IHl]; [done|]. cbn [forallb]. by rewrite Hj, IHl.
  - cbn [portable_numbers interoperable_b]. induction IH as [|p l Hp _ IHl]; [done|]. cbn [forallb]. by rewrite Hp, IHl.
Qed.

Lemma snapshot_tree_ok j : snapshot_ok j → snapshot_tree j = Ok (canonical_form j).
Proof.
  intros [Hok Hi]. unfold snapshot_tree. rewrite json_parse_serialize, portable_numbers_interoperable by done.
  apply interoperable_canonical in Hi. unfold interoperable in Hi. by rewrite Hi.
Qed.
Lemma snapshot_ok_canonical j : snapshot_ok j → snapshot_ok (canonical_form j).
Proof. intros [Hok Hi]. split; [by apply canonical_form_ok|by apply interoperable_canonical]. Qed.

(** An object of snapshots *)
Lemma snapshot_ok_obj props :
  NoDup props.*1 → Forall str_wf props.*1 → Forall (λ p, snapshot_ok p.2) props → snapshot_ok (JObj props).
Proof.
  intros Hnd Hwf Hall. split.
  - apply json_ok_obj. split_and!; [done..|]. eapply Forall_impl; [exact Hall|]. by intros p [].
  - unfold interoperable. cbn [interoperable_b]. apply forallb_Forall. eapply Forall_impl; [exact Hall|]. by intros p [].
Qed.

(** The order in which properties were created does not show. *)
Lemma canonical_props_permuted (props props' : list (jsstr * json)) :
  NoDup props.*1 → Forall str_wf props.*1 → props ≡ₚ props' → canonical_props props = canonical_props props'.
Proof.
  intros Hnd Hwf Hp. unfold canonical_props. f_equal. change (map ?f ?l) with (f <$> l).
  apply sort_by_unique; [apply _|by rewrite Hp|]. intros p q. apply compare_keys_antisym; by rewrite map_keys.
Qed.

(** ** Binding inputs *)

(** The properties that the edges into a node bind *)
Definition bound (outputs : jsstr → option json) (es : list EdgeSpec) : list (jsstr * json) :=
  (λ e, (edge_key e, default JNull (outputs (edge_source e)))) <$> es.

Lemma bind_edges_fresh ro nodeId outputs es o :
  proto o = ObjectPrototype → Forall (λ e, endpoint_port (edge_from e) = None) es →
  NoDup ((own_props o).*1 ++ (edge_key <$> es)) → js "__proto__" ∉ edge_key <$> es →
  bind_edges ro nodeId outputs o es = Ok (Build_open_record (own_props o ++ bound outputs es) ObjectPrototype).
Proof.
  revert o. induction es as [|e es IH]; intros [props pr] Hpr Hports Hnd Hproto; cbn [own_props proto] in *; subst pr.
  - cbn [bind_edges bound fmap list_fmap]. by rewrite app_nil_r.
  - apply Forall_cons in Hports as [Hport Hports]. cbn [fmap list_fmap] in Hnd, Hproto.
    apply not_elem_of_cons in Hproto as [Hkey Hproto].
    assert (edge_key e ∉ props.*1) as Hfresh.
    { apply NoDup_app in Hnd as (_ & Hd & _). intros Hin. apply (Hd _ Hin). left. }
    assert (has_own (edge_key e) props = false) as Hown.
    { unfold has_own, map_has. apply map_get_None in Hfresh. by rewrite Hfresh. }
    cbn [bind_edges]. unfold bind_edge. cbn [own_props]. rewrite Hown. unfold endpointValue. rewrite Hport.
    cbn [mbind result_bind]. unfold assign_property. cbn [own_props proto]. rewrite Hown.
    destruct (decide (edge_key e = js "__proto__")) as [E|_]; [by destruct Hkey|]. cbn [mbind result_bind].
    rewrite map_set_absent, IH; cbn [own_props proto]; try done.
    + by rewrite <- (assoc_L (++)).
    + rewrite fmap_app, <- (assoc_L (++)). exact Hnd.
Qed.

Lemma bind_input ro nodeId es es' graphInput outputs :
  es ≡ₚ es' → es' ≠ [] → Forall (λ e, endpoint_port (edge_from e) = None) es' → NoDup (edge_key <$> es') →
  js "__proto__" ∉ edge_key <$> es' → Forall str_wf (edge_key <$> es') →
  Forall (λ p, snapshot_ok p.2) (bound outputs es') →
  bindNodeInput ro nodeId es graphInput outputs = Ok (JObj (canonical_props (bound outputs es'))).
Proof.
  intros Hperm Hne Hports Hnd Hproto Hwf Hvalues. unfold bindNodeInput.
  assert ((bound outputs es').*1 = edge_key <$> es') as Hkeys by (unfold bound; by rewrite <- list_fmap_compose).
  assert (bound outputs es' ≡ₚ bound outputs es) as Hbound by (unfold bound; by rewrite Hperm).
  destruct es as [|e es]; [apply Permutation_nil_l in Hperm; by destruct Hne|].
  rewrite (bind_edges_fresh ro nodeId outputs (e :: es) empty_record); [|done|by rewrite Hperm|by rewrite Hperm|by rewrite Hperm].
  cbn [mbind result_bind own_props empty_record app]. unfold snapshot_record. cbn [proto own_props].
  rewrite snapshot_tree_ok.
  - change (canonical_form (JObj ?l)) with (JObj (canonical_props l)). do 2 f_equal. symmetry.
    apply canonical_props_permuted; [by rewrite Hkeys..|]. by rewrite own_order_Permutation.
  - apply snapshot_ok_obj; rewrite ?own_order_keys, ?own_order_Permutation, <- ?Hbound, ?Hkeys; done.
Qed.

(** ** Nodes that succeed *)

(** What [snapshotJson] returns *)
Lemma snapshotJson_ok h v j : heap_wf h → heap_data_ok h → value_okb v = true → snapshotJson h v = Ok j → snapshot_ok j.
Proof.
  intros Hh Hd Hv H. unfold snapshotJson in H. destruct (captureCanonicalJson_cases h v Hh) as [(j' & Hp & E)|[(m & q & E) _]];
    rewrite E in H; [|done].
  destruct (portable_canonical h v j' Hh Hd Hv Hp) as [Hok _]. pose proof (portable_interoperable h v j' Hp) as Hi.
  rewrite snapshot_tree_ok in H by done. injection H as <-. by apply snapshot_ok_canonical.
Qed.

(** Every node has an executor, which returns a value at its first attempt: [out id inp] for
    the node [id] with the input [inp]. *)
Record serves (cfg : run_config) (env : environment) (out : jsstr → json → json) : Prop := {
  serves_executor : ∀ node, node ∈ graph_nodes (cfg_graph cfg) → is_Some (cfg_executor cfg node);
  serves_allowed : ∀ node e inp n, cfg_executor cfg node = Some e → event_allowed node e true (env e node inp n) = true;
  serves_attempt : ∀ node e inp, node ∈ graph_nodes (cfg_graph cfg) → cfg_executor cfg node = Some e → snapshot_ok inp →
    executeAttempt (cfg_reason cfg) inp false (env e node inp 1%Z) = AttemptSucceeded (out (node_id node) inp);
  serves_output : ∀ id inp, snapshot_ok inp → snapshot_ok (out id inp)
}.

Section nodes.
Context (cfg : run_config) (cfg_good : config_ok cfg) (env : environment) (out : jsstr → json → json).
Hypothesis Hserves : serves cfg env out.
Abbreviation ref := (reference cfg env).
Abbreviation outputs := (output_of (results_state ref)).

(** The node ran once, with this input, and succeeded. *)
Definition ran (id : jsstr) (inp : json) : Prop :=
  snapshot_ok inp ∧
  map_get id ref = Some (node_result cfg id NodeSucceeded 1 (Some inp) (Some (out id inp)) None).

Lemma ran_succeeded id inp : ran id inp → succeeded (results_state ref) id = true.
Proof. intros [_ H]. unfold succeeded. cbn [results results_state]. by rewrite H. Qed.
Lemma ran_output id inp : ran id inp → outputs id = Some (out id inp).
Proof. intros [_ H]. unfold output_of. cbn [results results_state]. by rewrite H. Qed.

Lemma no_failed_upstream s id :
  (∀ u, Dag.edge (graph_pairs (cfg_graph cfg)) u id → succeeded s u = true) → failed_upstream cfg s id = [].
Proof.
  intros H. destruct (failed_upstream cfg s id) as [|u l] eqn:E; [done|]. exfalso.
  assert (u ∈ failed_upstream cfg s id) as Hu by (rewrite E; left). unfold failed_upstream in Hu.
  rewrite elem_of_sort_by, elem_of_set_of_list, list_elem_of_filter in Hu. destruct Hu as [Hf Hu].
  apply (elem_of_sources cfg) in Hu. rewrite (H u Hu) in Hf. done.
Qed.

Lemma node_runs id inp :
  id ∈ graph_ids (cfg_graph cfg) → (∀ u, Dag.edge (graph_pairs (cfg_graph cfg)) u id → ∃ i, ran u i) →
  bindNodeInput (cfg_readonly cfg) id (incoming cfg id) (cfg_input cfg) outputs = Ok inp → snapshot_ok inp → ran id inp.
Proof.
  intros Hid Hsources Hbind Hinp. split; [done|]. rewrite (reference_get cfg cfg_good env id Hid). f_equal. unfold reference_node.
  rewrite no_failed_upstream by (intros u Hu; destruct (Hsources u Hu) as [i Hi]; by eapply ran_succeeded).
  cbn [length Nat.ltb Nat.leb]. rewrite Hbind. apply (find_node_Some cfg) in Hid as (node & Hnode & <-). rewrite Hnode.
  assert (node ∈ graph_nodes (cfg_graph cfg)) as Hin.
  { unfold find_node in Hnode. apply map_get_Some_elem, list_elem_of_fmap in Hnode as (n & [= _ ->] & ?). done. }
  destruct (serves_executor _ _ _ Hserves node Hin) as [e He]. rewrite He.
  assert (1 ≤ max_attempts node)%Z as Hmax by (by apply positiveInteger_pos).
  destruct (Z.to_nat (max_attempts node)) as [|fuel] eqn:Ef; [lia|]. cbn [reference_attempts].
  change (0 + 1)%Z with 1%Z. by rewrite (serves_attempt _ _ _ Hserves node e inp Hin He Hinp).
Qed.
End nodes.

(** ** What flows into a node *)

Definition link_key (l : link) : jsstr := default (link_from l) (link_port l).
Definition link_bound (outputs : jsstr → option json) (links : list link) : list (jsstr * json) :=
  (λ l, (link_key l, default JNull (outputs (link_from l)))) <$> links.
Definition links_into (id : jsstr) (links : list link) : list link := filter (λ l, link_to l = id) links.

Lemma edges_into id links es outputs :
  Forall2 edge_of_link links es →
  let es' := filter (λ e, endpoint_node (edge_to e) = id) es in
  Forall (λ e, endpoint_port (edge_from e) = None) es' ∧
  edge_key <$> es' = link_key <$> links_into id links ∧ bound outputs es' = link_bound outputs (links_into id links).
Proof.
  unfold links_into. induction 1 as [|l e links es (Hs & Ht & Hf & Hp) _ (IH1 & IH2 & IH3)]; [done|]. cbv zeta in *.
  rewrite !filter_cons. unfold edge_target in Ht. rewrite Ht. case_decide; [|done]. csimpl. split_and!; [by constructor|..].
  - rewrite IH2. f_equal. unfold edge_key, link_key. rewrite Hp. unfold edge_source in Hs. by rewrite Hs.
  - unfold bound, link_bound in *. csimpl. rewrite IH3. f_equal. unfold edge_key, link_key. rewrite Hp, Hs.
    unfold edge_source in Hs. by rewrite Hs.
Qed.

Lemma link_edges links es u v :
  Forall2 edge_of_link links es → Dag.edge (edge_pairs es) u v ↔ ∃ l, l ∈ links_into v links ∧ link_from l = u.
Proof.
  unfold Dag.edge, edge_pairs, links_into. setoid_rewrite list_elem_of_filter.
  induction 1 as [|l e links es (Hs & Ht & _) _ IH].
  - split; [by intros ?%not_elem_of_nil|]. by intros (l & (_ & ?%not_elem_of_nil) & _).
  - csimpl. rewrite elem_of_cons, IH, Hs, Ht. setoid_rewrite elem_of_cons. split.
    + intros [[= -> ->]|(l' & [? ?] & ?)]; [exists l|exists l']; auto.
    + intros (l' & [Hv [->|Hl']] & Hu); [left; congruence|right; by exists l'].
Qed.

Lemma filter_unique {A B} `{!EqDecision B} (f : A → B) (l : list A) x :
  NoDup (f <$> l) → x ∈ l → filter (λ y, f y = f x) l = [x].
Proof.
  induction l as [|y l IH]; intros Hnd Hx; [by apply not_elem_of_nil in Hx|]. csimpl in Hnd. apply NoDup_cons in Hnd as [Hy Hnd].
  rewrite filter_cons. apply elem_of_cons in Hx as [->|Hx].
  - rewrite decide_True by done. f_equal. apply filter_none. intros z Hz E.
    apply Hy. rewrite <- E. by apply list_elem_of_fmap_2.
  - rewrite decide_False; [by apply IH|]. intros E. apply Hy. rewrite E. by apply list_elem_of_fmap_2.
Qed.

Section fan_links.
Context (kind : PatternKind) (p : fan_parts) (Hspec : fan_spec p).
Abbreviation entry := (id_of (fan_entry p)).
Abbreviation exit := (id_of (fan_exit p)).
Abbreviation item_id i := (id_of (keyed_node i)).

Lemma fan_ids_distinct : entry ≠ exit ∧ NoDup ((λ i, item_id i) <$> fan_items p) ∧
  ∀ i, i ∈ fan_items p → item_id i ≠ entry ∧ item_id i ≠ exit.
Proof.
  pose proof (fan_spec_ids _ Hspec) as Hnd. rewrite fan_ids, <- list_fmap_compose in Hnd.
  apply NoDup_cons in Hnd as [He Hnd]. apply NoDup_app in Hnd as (Hi & Hx & _). rewrite elem_of_app in He.
  split_and!; [intros E; apply He; right; rewrite E; left|exact Hi|].
  intros i Hin. assert (item_id i ∈ (id_of ∘ keyed_node <$> fan_items p)) as Hin' by (by apply (list_elem_of_fmap_2 (id_of ∘ keyed_node))).
  split; intros E; rewrite E in Hin'; [apply He; by left|]. apply (Hx _ Hin'). left.
Qed.

Lemma into_entry : links_into entry (fan_links kind p) = [].
Proof.
  destruct fan_ids_distinct as (Hne & _ & Hi). unfold links_into, fan_links. rewrite filter_app, !filter_fmap.
  rewrite !filter_none; [done| |]; intros i Hin; [by apply not_eq_sym|by apply Hi].
Qed.
Lemma into_item i :
  i ∈ fan_items p → links_into (item_id i) (fan_links kind p) = [Link entry (item_id i) None (fan_condition kind (keyed_key i))].
Proof.
  destruct fan_ids_distinct as (Hne & Hnd & Hi). intros Hin. unfold links_into, fan_links. rewrite filter_app, !filter_fmap.
  cbn [link_to]. rewrite (filter_unique (λ j, item_id j)), filter_none; [done| |done..].
  intros j _ E. by apply (Hi i).
Qed.
Lemma into_exit :
  links_into exit (fan_links kind p) = (λ i, Link (item_id i) exit (Some (keyed_key i)) None) <$> fan_items p.
Proof.
  destruct fan_ids_distinct as (Hne & Hnd & Hi). unfold links_into, fan_links. rewrite filter_app, !filter_fmap. cbn [link_to].
  rewrite filter_none, filter_id; [done|done|]. intros j Hj. by apply Hi.
Qed.
End fan_links.

(** ** The run of a fan *)

Section fan_run.
Context (cfg : run_config) (cfg_good : config_ok cfg) (env : environment) (out : jsstr → json → json).
Hypothesis Hserves : serves cfg env out.
Hypothesis Hinput : snapshot_ok (cfg_input cfg).
Context (kind : PatternKind) (p : fan_parts) (Hspec : fan_spec p).
Hypothesis Hids : graph_ids (cfg_graph cfg) = id_of <$> fan_nodes p.
Hypothesis Hproto : js "__proto__" ∉ graph_ids (cfg_graph cfg).
Hypothesis Hlinks : Forall2 edge_of_link (fan_links kind p) (graph_edges (cfg_graph cfg)).
Abbreviation entry := (id_of (fan_entry p)).
Abbreviation exit := (id_of (fan_exit p)).
Abbreviation item_id i := (id_of (keyed_node i)).
Abbreviation outputs := (output_of (results_state (reference cfg env))).
Abbreviation ran := (ran cfg env out).

(** What each node receives and returns *)
Definition entry_output : json := out entry (cfg_input cfg).
Definition item_input : json := JObj (canonical_props [(entry, entry_output)]).
Definition item_output (i : ParsedKeyedNode) : json := out (item_id i) item_input.
Definition exit_input : json := JObj (canonical_props ((λ i, (keyed_key i, item_output i)) <$> fan_items p)).
Definition exit_output : json := out exit exit_input.

Lemma fan_edge_pairs u v :
  Dag.edge (graph_pairs (cfg_graph cfg)) u v ↔ ∃ l, l ∈ links_into v (fan_links kind p) ∧ link_from l = u.
Proof using Hlinks. by apply link_edges. Qed.

Lemma fan_binds id ls :
  links_into id (fan_links kind p) = ls → ls ≠ [] → NoDup (link_key <$> ls) → js "__proto__" ∉ link_key <$> ls →
  Forall str_wf (link_key <$> ls) → Forall (λ q, snapshot_ok q.2) (link_bound outputs ls) →
  bindNodeInput (cfg_readonly cfg) id (incoming cfg id) (cfg_input cfg) outputs = Ok (JObj (canonical_props (link_bound outputs ls))).
Proof using Hlinks.
  intros <- Hne Hnd Hp Hwf Hvalues. destruct (edges_into id _ _ outputs Hlinks) as (Hports & Hkeys & Hbound).
  rewrite <- Hkeys in Hnd, Hp, Hwf. rewrite <- Hbound in Hvalues |- *.
  apply bind_input; try done; [apply sort_by_Permutation|].
  intros E. rewrite E in Hkeys. by destruct (links_into id (fan_links kind p)).
Qed.

Lemma entry_runs : ran entry (cfg_input cfg).
Proof using All.
  apply (node_runs cfg cfg_good env out Hserves).
  - rewrite Hids, fan_ids. left.
  - intros u (l & Hl & _)%fan_edge_pairs. rewrite into_entry in Hl by done. by apply not_elem_of_nil in Hl.
  - assert (incoming cfg entry = []) as ->; [|done].
    destruct (edges_into entry _ _ outputs Hlinks) as (_ & Hkeys & _). rewrite into_entry in Hkeys by done.
    unfold incoming. apply fmap_nil_inv in Hkeys. by rewrite Hkeys.
  - done.
Qed.

Lemma item_runs i : i ∈ fan_items p → ran (item_id i) item_input.
Proof using All.
  intros Hi. pose proof (into_item kind p Hspec i Hi) as Hinto.
  assert (str_wf entry ∧ js "__proto__" ≠ entry) as [Hwf Hne].
  { pose proof (fan_spec_nodes _ Hspec) as Hn. unfold fan_nodes in Hn. apply Forall_cons in Hn as [He _]. apply id_of_Some in He as [_ He].
    split; [done|]. intros E. apply Hproto. rewrite Hids, fan_ids, E. left. }
  assert (link_bound outputs [Link entry (item_id i) None (fan_condition kind (keyed_key i))] = [(entry, entry_output)]) as Hb.
  { unfold link_bound. cbn [fmap list_fmap link_from link_key link_port]. by rewrite (ran_output cfg env out _ _ entry_runs). }
  assert (snapshot_ok entry_output) as Hout by (by apply (serves_output _ _ _ Hserves)).
  assert (snapshot_ok (JObj [(entry, entry_output)])) as Hobj
    by (apply snapshot_ok_obj; csimpl; [apply NoDup_singleton|apply Forall_cons_2; [done|apply Forall_nil_2]..]).
  apply (node_runs cfg cfg_good env out Hserves).
  - rewrite Hids, fan_ids. right. apply elem_of_app. left. by apply list_elem_of_fmap_2, list_elem_of_fmap_2.
  - intros u (l & Hl & <-)%fan_edge_pairs. rewrite Hinto in Hl. apply list_elem_of_singleton in Hl as ->. eexists. exact entry_runs.
  - rewrite (fan_binds _ _ Hinto); rewrite ?Hb; try done; cbn [fmap list_fmap link_key link_port link_from].
    + apply NoDup_singleton.
    + by rewrite list_elem_of_singleton.
    + apply Forall_cons_2; [done|apply Forall_nil_2].
    + apply Forall_cons_2; [done|apply Forall_nil_2].
  - by apply (snapshot_ok_canonical (JObj _)).
Qed.

Lemma exit_runs : ran exit exit_input.
Proof using All.
  pose proof (into_exit kind p Hspec) as Hinto. set (ls := _ <$> fan_items p) in Hinto.
  assert (link_key <$> ls = keyed_key <$> fan_items p) as Hkeys by (unfold ls; by rewrite <- list_fmap_compose).
  assert (link_bound outputs ls = (λ i, (keyed_key i, item_output i)) <$> fan_items p) as Hb.
  { unfold ls, link_bound. rewrite <- list_fmap_compose. apply list_fmap_ext. intros k i Hi. unfold compose. cbn [link_from link_key link_port default].
    f_equal. apply list_elem_of_lookup_2 in Hi. by rewrite (ran_output cfg env out _ _ (item_runs i Hi)). }
  assert (Forall str_wf (keyed_key <$> fan_items p) ∧ js "__proto__" ∉ keyed_key <$> fan_items p) as [Hwf Hp].
  { pose proof (fan_spec_items _ Hspec) as Hi. split.
    - apply Forall_fmap. eapply Forall_impl; [exact Hi|]. intros i (_ & Hk & _). by apply KEY_IDENTIFIER_wf.
    - intros (i & E & Hin)%list_elem_of_fmap. rewrite Forall_forall in Hi. destruct (Hi i Hin) as (_ & _ & Hr). apply Hr. rewrite <- E. left. }
  assert (Forall (λ q, snapshot_ok q.2) ((λ i, (keyed_key i, item_output i)) <$> fan_items p)) as Hvalues.
  { apply Forall_fmap, Forall_forall. intros i Hi. apply (serves_output _ _ _ Hserves). by destruct (item_runs i Hi). }
  apply (node_runs cfg cfg_good env out Hserves).
  - rewrite Hids, fan_ids. right. apply elem_of_app. right. left.
  - intros u (l & Hl & <-)%fan_edge_pairs. rewrite Hinto in Hl. apply list_elem_of_fmap in Hl as (i & -> & Hi).
    eexists. by apply item_runs.
  - rewrite (fan_binds _ _ Hinto); rewrite ?Hb, ?Hkeys; try done.
    + unfold ls. pose proof (fan_spec_count _ Hspec). by destruct (fan_items p); [cbn in *; lia|].
    + apply Hspec.
  - apply (snapshot_ok_canonical (JObj _)), snapshot_ok_obj; rewrite <- ?list_fmap_compose; try done. apply Hspec.
Qed.
End fan_run.

(** ** The output *)

(** The name under which a pattern returns the output of its exit *)
Definition output_key (input : list (jsstr * json)) : jsstr :=
  match get_own (js "outputKey") input with Some (JStr key) => key | _ => js "result" end.

Lemma assemble_outputs input identity entrypoint exit nodes edges graph :
  assemble input identity entrypoint exit nodes edges = Ok graph →
  output_key input ≠ js "__proto__" ∧
  ∃ props, graph = JObj props ∧ NoDup props.*1 ∧
    get_own (js "outputs") props = Some (JObj [(output_key input, JObj [(js "node", JStr exit)])]).
Proof.
  intros H. unfold assemble in H. inv_ok.
  assert (output_key input = a ∧ a ∉ RESERVED_KEYS) as [Hkey Hres].
  { unfold output_key. destruct (get_own (js "outputKey") input) as [v|].
    - apply safeKey_Ok in E as ([= ->] & _ & ?). done.
    - inv_ok. split; [done|]. apply (bool_decide_unpack _). vm_compute. exact I. }
  rewrite Hkey. split; [intros ->; apply Hres; left|].
  eexists. split; [reflexivity|]. destruct a2, a3; (split; [apply (bool_decide_unpack _); vm_compute; exact I|done]).
Qed.

Lemma decode_outputs props key exit g :
  NoDup props.*1 → get_own (js "outputs") props = Some (JObj [(key, JObj [(js "node", JStr exit)])]) →
  graph_of_json (canonical_form (JObj props)) = Some g → graph_outputs g = [(key, Build_Endpoint exit None)].
Proof.
  intros Hnd Ho Hg. apply graph_fields in Hg as (? & [= <-] & _ & Fo & _).
  change (canonical_form (JObj ?p)) with (JObj (canonical_props p)) in *.
  rewrite (field_at (canonical_get _ _ _ Hnd Ho)) in Fo. change (canonical_form (JObj ?p)) with (JObj (canonical_props p)) in Fo.
  rewrite canonical_single in Fo. unfold as_map in Fo. cbn [record mbind option_bind mapM fst snd] in Fo.
  destruct (endpoint_of_json _) as [[n port]|] eqn:Ee; [|done]. injection Fo as <-.
  change (canonical_form (JObj ?p)) with (JObj (canonical_props p)) in Ee.
  rewrite canonical_single in Ee. by apply endpoint_fields in Ee as (? & [= <-] & [= <-] & [= <-]).
Qed.

(** A run in which every node succeeded at its first attempt *)
Lemma report_success cfg hash s key exit v :
  (∀ id, id ∈ cfg_order cfg → ∃ inp o, map_get id (results s) = Some (node_result cfg id NodeSucceeded 1 (Some inp) (Some o) None)) →
  aborted s = false → graph_outputs (cfg_graph cfg) = [(key, Build_Endpoint exit None)] → key ≠ js "__proto__" →
  succeeded s exit = true → output_of s exit = Some v →
  let r := run_report cfg hash s in
  run_status r = RunSucceeded ∧ run_output r = Some [(key, v)] ∧ run_failures r = [] ∧
  nodeId <$> run_nodes r = cfg_order cfg ∧
  Forall (λ n, status n = NodeSucceeded ∧ attempts n = 1%Z) (run_nodes r).
Proof.
  intros Hnodes Hab Hout Hkey Hs Hv. cbv zeta. unfold run_report. rewrite Hout.
  set (nodes := omap _ (cfg_order cfg)).
  assert (nodeId <$> nodes = cfg_order cfg ∧ Forall (λ n, status n = NodeSucceeded ∧ attempts n = 1%Z) nodes ∧
    omap (λ r, ExecutionRunFailure <$> failure r) nodes = []) as (H1 & H2 & H3).
  { unfold nodes. clear Hout nodes. induction (cfg_order cfg) as [|id l IH]; [by split_and!|].
    destruct (Hnodes id) as (inp & o & E); [left|]. cbn [omap list_omap]. rewrite E. csimpl.
    destruct IH as (-> & IH2 & ->); [intros id' Hid'; apply Hnodes; by right|]. split_and!; [done|by constructor|done]. }
  rewrite H3. change (sort_by compare_keys [?x]) with [x]. cbn [foldl]. unfold bind_output. cbn [endpoint_node].
  rewrite Hs, Hv. unfold endpointValue. cbn [endpoint_port default mbind result_bind].
  unfold assign_property. cbn [has_own map_has own_props empty_record proto]. cbn -[own_order].
  rewrite decide_False by done. rewrite Hab. cbn -[own_order].
  assert (own_order [(key, v)] = [(key, v)]) as -> by apply Permutation_singleton_r, own_order_Permutation. by split_and!.
Qed.

(** What [runGraph] makes of the document of a fan *)
Lemma fan_config hash reason power readonly h gv iv opts gh cfg kind input p graph :
  fan_spec p → fan_document kind input p = Ok graph →
  heap_wf h → heap_data_ok h → value_okb iv = true → represents h gv graph →
  runGraph hash reason power readonly h gv iv opts = SetupRun gh cfg false →
  config_ok cfg ∧ snapshot_ok (cfg_input cfg) ∧
  graph_ids (cfg_graph cfg) = id_of <$> fan_nodes p ∧ js "__proto__" ∉ graph_ids (cfg_graph cfg) ∧
  Forall2 edge_of_link (fan_links kind p) (graph_edges (cfg_graph cfg)) ∧
  graph_outputs (cfg_graph cfg) = [(output_key input, Build_Endpoint (id_of (fan_exit p)) None)] ∧
  output_key input ≠ js "__proto__".
Proof.
  intros Hspec Hg Hh Hd Hiv Hrep Hrun.
  destruct (runGraph_config _ _ _ _ _ _ _ _ _ _ _ Hh Hrun) as (Hcfg & _ & Hgok & _).
  unfold runGraph in Hrun. destruct (snapshotGraphInput h iv) as [inp|] eqn:Hin; [|done].
  destruct (captureCanonicalJson_cases h gv Hh) as [(j & Hp & E)|[(m & q & E) _]]; rewrite E in Hrun; [|done].
  cbn [mbind result_bind fst] in Hrun. destruct (graph_of_json j) as [g|] eqn:Hdec; [|done].
  destruct (valid _); [|done]. injection Hrun as <- <- _. cbn [cfg_graph cfg_input] in *.
  destruct (assemble_Ok _ _ _ _ _ _ _ Hg) as [Hdoc _].
  destruct (decode_document graph _ _ _ kind _ h gv j g Hdoc (fan_spec_nodes _ Hspec) Hh Hrep Hp Hdec)
    as (Hids & _ & _ & _ & _ & Hlinks).
  destruct (assemble_outputs _ _ _ _ _ _ _ Hg) as (Hkey & props & -> & Hnd & Hout).
  rewrite (represents_portable h gv _ j Hh Hrep Hp) in Hdec. pose proof (decode_outputs _ _ _ _ Hnd Hout Hdec) as Houts.
  split_and!; try done.
  - unfold snapshotGraphInput in Hin. destruct (snapshotJson h iv) as [inp'|] eqn:Es; [|done]. injection Hin as ->.
    by eapply snapshotJson_ok.
  - intros Hid. unfold graph_ids in Hid. apply list_elem_of_fmap in Hid as (n & En & Hn).
    unfold graph_ok in Hgok. destruct Hgok as (_ & _ & _ & _ & _ & _ & Hnodes & _). rewrite Forall_forall in Hnodes.
    destruct (Hnodes n Hn) as (Hident & _). rewrite <- En in Hident. discriminate.
Qed.

Lemma built_document hash kind h options input p graph :
  kind ≠ LoopUntilDry → snapshotOptions h options (pattern_fields kind) = Ok input → fan_inputs kind input = Ok p →
  build hash kind h options = Ok graph → fan_document kind input p = Ok graph.
Proof.
  intros Hkind Hin Hp. rewrite build_steps, Hin. cbn [mbind result_bind]. rewrite fan_graph_steps, Hp by done.
  cbn [mbind result_bind]. destruct (fan_document kind input p) as [g|]; [|done]. cbn [mbind result_bind]. unfold compiled, reject.
  destruct (value_of_json g) as [h' v']. by destruct (valid _).
Qed.

(** The nodes of a fan are those that [entry_runs], [item_runs] and [exit_runs] speak of. *)
Lemma fan_all_ran cfg env out kind p :
  config_ok cfg → serves cfg env out → snapshot_ok (cfg_input cfg) → fan_spec p →
  graph_ids (cfg_graph cfg) = id_of <$> fan_nodes p → js "__proto__" ∉ graph_ids (cfg_graph cfg) →
  Forall2 edge_of_link (fan_links kind p) (graph_edges (cfg_graph cfg)) →
  ∀ id, id ∈ graph_ids (cfg_graph cfg) → ∃ inp, ran cfg env out id inp.
Proof.
  intros Hcfg Hserves Hinput Hspec Hids Hproto Hlinks id. rewrite Hids, fan_ids, elem_of_fan.
  intros [->|[Hi| ->]].
  - eexists. by eapply entry_runs.
  - apply list_elem_of_fmap in Hi as (n & -> & Hi). apply list_elem_of_fmap in Hi as (i & -> & Hi).
    eexists. by eapply item_runs.
  - eexists. by eapply exit_runs.
Qed.

Lemma sum_over_ones {A} (f : A → Z) l : (∀ x, x ∈ l → f x = 1%Z) → sum_over f l = Z.of_nat (length l).
Proof.
  induction l as [|x l IH]; intros H; [done|]. change (sum_over f (x :: l)) with (f x + sum_over f l)%Z.
  rewrite H by left. rewrite IH by (intros y Hy; apply H; by right). cbn [length]. lia.
Qed.


(** ** Executors that compute a function *)

(** The executor of a node returns [f id inp] at every attempt. *)
Definition returning (f : jsstr → json → json) : environment := λ e node inp _,
  match e with
  | IdentityExecutor => ReturnedInput
  | _ => let '(h, v) := value_of_json (f (node_id node) inp) in Returned h v
  end.

Lemma returned_snapshot reason inp j :
  snapshot_ok j →
  executeAttempt reason inp false (let '(h, v) := value_of_json j in Returned h v) = AttemptSucceeded (canonical_form j).
Proof.
  intros Hj. pose proof (captured_document j (json_ok_parsed _ (proj1 Hj))) as Hcap. destruct (value_of_json j) as [h v].
  destruct Hcap as [Hh Hport]. cbn [executeAttempt]. unfold snapshotExecutorOutput, snapshotJson.
  destruct (captureCanonicalJson_cases h v Hh) as [(j' & Hp & ->)|[_ Hn]].
  - apply Hport in Hp as (_ & _ & ->). rewrite snapshot_tree_ok by (by apply snapshot_ok_canonical).
    by rewrite canonical_form_idem by apply Hj.
  - destruct (Hn (canonical_form j)). apply Hport. by destruct Hj.
Qed.

(** The node has an executor of its own. *)
Definition has_executor (cfg : run_config) (node : NodeSpec) : bool :=
  match cfg_executor cfg node with Some IdentityExecutor | None => false | Some _ => true end.

Lemma serves_returning cfg f :
  forallb (has_executor cfg) (graph_nodes (cfg_graph cfg)) = true →
  (∀ id inp, snapshot_ok inp → snapshot_ok (f id inp)) →
  serves cfg (returning f) (λ id inp, canonical_form (f id inp)).
Proof.
  intros Hex Hf. rewrite forallb_Forall, Forall_forall in Hex. unfold has_executor in Hex. split.
  - intros node Hn. specialize (Hex node Hn). by destruct (cfg_executor cfg node).
  - intros node e inp n _. unfold returning. destruct e; [| | |done]; by destruct (value_of_json _).
  - intros node e inp Hn He Hinp. specialize (Hex node Hn). rewrite He in Hex.
    unfold returning. destruct e; [| | |done]; by apply returned_snapshot, Hf.
  - intros id inp Hinp. by apply snapshot_ok_canonical, Hf.
Qed.

(** The next stretch of a node, as the environment decides it *)
Definition next_label (cfg : run_config) (env : environment) (id : jsstr) (s : run_state) : option label :=
  t ← map_get id (active s);
  match task_at t with
  | Granted _ => Some (Resume id)
  | Executing n _ =>
      node ← find_node cfg id; e ← task_executor t; Some (AttemptDone id false (env e node (task_input t) n))
  | Settled _ => Some (Complete id)
  | _ => None
  end.
Fixpoint run_nodes_of (cfg : run_config) (env : environment) (ids : list jsstr) (s : run_state) : option run_state :=
  match ids with
  | [] => Some s
  | id :: ids => l ← next_label cfg env id s; s ← step cfg l s; run_nodes_of cfg env ids s
  end.

Lemma run_nodes_steps cfg env ids s s' : run_nodes_of cfg env ids s = Some s' → rtc (env_step cfg env) s s'.
Proof.
  revert s. induction ids as [|id ids IH]; intros s H; cbn [run_nodes_of] in H; [by injection H as ->|].
  apply bind_Some in H as (l & Hl & H). apply bind_Some in H as (s1 & Hs & H).
  eapply rtc_l; [|by apply IH]. exists l. split; [|done]. unfold next_label in Hl.
  apply bind_Some in Hl as (t & Ht & Hl). destruct (task_at t) as [| | |n called| | |] eqn:Hat; try done; try by injection Hl as <-.
  apply bind_Some in Hl as (node & Hn & Hl). apply bind_Some in Hl as (e & He & [= <-]).
  split; [done|]. by exists t, node, e, n, called.
Qed.

(** ** A sample *)

Definition fan_run_setup : run_setup :=
  runGraph id (ThrownString (js "abort")) (λ x _, x) (λ key, key) (options_heap sample_fan_graph)
    (options_value sample_fan_graph) VNull
    (Build_SchedulerOptions (Some [js "s"; js "w1"; js "w2"; js "m"]) None (Some (num_of_Z 2)) false).
(** Every node returns its name with its input. *)
Definition named_input (id : jsstr) (inp : json) : json := JArr (if decide (str_wf id) then [JStr id; inp] else [inp]).
Lemma named_input_ok id inp : snapshot_ok inp → snapshot_ok (named_input id inp).
Proof.
  intros [Hok Hi]. unfold named_input. split; [apply json_ok_arr|apply interoperable_arr]; case_decide;
    repeat apply Forall_cons_2; try apply Forall_nil_2; try done. by apply json_ok_str.
Qed.
Definition fan_run_config : run_config := match fan_run_setup with SetupRun _ cfg _ => cfg | _ => sample_config end.
Definition fan_run_ids : list jsstr :=
  js <$> ["s"; "s"; "s"; "w1"; "w2"; "w2"; "w1"; "w1"; "w2"; "m"; "m"; "m"]%string.

