(* ===== verification/Primitives.v ===== *)
(** * Validation in the primitives package (packages/primitives/src)

    The primitives inspect a caller's value without executing its code: they look at
    own property descriptors and collect issues.  A validator here is an
    [inspection]: the issues it pushed, and its result, or nothing when a proxy trap
    of the caller threw. *)
From S2P Require Import Prelude JsString JsNumber JsValue Canonical.

(** ** Issues (errors.ts) *)

Inductive PrimitiveValidationIssueCode :=
  | TYPE | REQUIRED | UNKNOWN_FIELD | UNSAFE_ID | DUPLICATE_ID | INVALID_STATUS
  | STATUS_VALUE_MISMATCH | INVALID_JSON | INVALID_POLICY | DUPLICATE_SELECTION
  | INVALID_CONFIDENCE | CONFIDENCE_CONFIGURATION.

Record PrimitiveValidationIssue := {
  issue_path : jsstr;
  issue_code : PrimitiveValidationIssueCode;
  issue_message : jsstr
}.

Record PrimitiveValidationError := {
  error_message : jsstr;
  error_issues : list PrimitiveValidationIssue
}.

#[export] Instance issue_code_eq_dec : EqDecision PrimitiveValidationIssueCode.
Proof. solve_decision. Defined.

(** ** Inspections *)

Definition inspection (A : Type) : Type := list PrimitiveValidationIssue * option A.

#[export] Instance inspection_ret : MRet inspection := λ A a, ([], Some a).
#[export] Instance inspection_bind : MBind inspection := λ A B f m,
  match m.2 with
  | Some a => let r := f a in (m.1 ++ r.1, r.2)
  | None => (m.1, None)
  end.

(** [issues.push({ path, code, message })] *)
Definition addIssue (path : jsstr) (code : PrimitiveValidationIssueCode) (message : jsstr) : inspection unit :=
  ([Build_PrimitiveValidationIssue path code message], Some tt).

(** A reflective operation on an object, which runs the traps of a proxy. *)
Definition touch (o : object) : inspection unit := ([], if o_throws o then None else Some tt).

(** [if (c) m] *)
Definition when (c : bool) (m : inspection unit) : inspection unit := if c then m else mret tt.

(** [for (const x of l) f(x)] *)
Fixpoint for_each {A} (f : A → inspection unit) (l : list A) : inspection unit :=
  match l with [] => mret tt | x :: l => f x;; for_each f l end.

(** ** JSON values (json.ts) *)

(** The own names of an array without [length], in code point order. *)
Definition sorted_names (o : object) : list jsstr :=
  sort_by compareUnicodeCodePoints (filter (.≠ key_length) (own_names o)).

(** The loop that separates index names from extra ones, which [extra] reports. *)
Fixpoint split_names (extra : jsstr → inspection unit) (length : nat) (names : list jsstr)
    : inspection (list (nat * jsstr)) :=
  match names with
  | [] => mret []
  | name :: names =>
      match index_name length name with
      | None => extra name;; split_names extra length names
      | Some i => rest ← split_names extra length names; mret ((i, name) :: rest)
      end
  end.

Definition issue (path message : jsstr) : inspection unit := addIssue path INVALID_JSON message.

Section json_steps.
Context (validate : value → jsstr → list loc → inspection unit).

(** One array entry or property. *)
Definition validate_entry (o : object) (key childPath accessor hidden : jsstr) (ancestors : list loc)
    : inspection unit :=
  match own_descriptor o key with
  | None | Some (Accessor _) => issue childPath accessor
  | Some (Data v enumerable) =>
      if negb enumerable then issue childPath hidden else validate v childPath ancestors
  end.

Definition validate_array (o : object) (path : jsstr) (ancestors : list loc) : inspection unit :=
  indexNames ← split_names (λ name, issue (child path (pointerSegment name)) (js "extra array properties are not JSON"))
                 (o_length o) (sorted_names o);
  when (negb (length indexNames =? o_length o)%nat) (issue path (js "sparse arrays are not JSON"));;
  for_each (λ name, validate_entry o name (child path name) (js "accessor array entries are not JSON")
              (js "non-enumerable array entries are not portable JSON") ancestors)
    (sort_by compare_positions indexNames).*2.

Definition validate_object (o : object) (path : jsstr) (ancestors : list loc) : inspection unit :=
  for_each (λ key, validate_entry o key (child path (pointerSegment key)) (js "accessor properties are not JSON")
              (js "non-enumerable properties are not portable JSON") ancestors)
    (sort_by compareUnicodeCodePoints (own_names o)).
End json_steps.

(** [validateJson]; the fuel is one unit per object on the current path, and a call
    without fuel fails like an exhausted stack. *)
Fixpoint validateJson (h : heap) (fuel : nat) (v : value) (path : jsstr) (ancestors : list loc) : inspection unit :=
  match v with
  | VNull | VStr _ | VBool _ => mret tt
  | VNum n =>
      if negb (num_finite n) then issue path (js "expected a finite JSON number")
      else if num_integer n && negb (num_safe_integer n) then
        issue path (js "JSON integers must be within " ++ [177%N] ++ js "(2^53-1)")
      else mret tt
  | VUndefined | VBigInt _ | VFunction | VSymbol =>
      issue path (js "unsupported JSON value " ++ type_of v)
  | VObj l =>
      let o := deref h l in
      if bool_decide (l ∈ ancestors) then issue path (js "cyclic values are not JSON")
      else
        touch o;;
        if negb (o_array o) && negb (bool_decide (o_proto o = ProtoObject ∨ o_proto o = ProtoNull)) then
          issue path (js "expected a plain JSON object")
        else
          when (0 <? o_symbols o)%nat (issue path (js "symbol keys are not JSON"));;
          match fuel with
          | 0 => ([], None)
          | S fuel =>
              if o_array o then validate_array (validateJson h fuel) o path (l :: ancestors)
              else validate_object (validateJson h fuel) o path (l :: ancestors)
          end
  end.

(** [appendJsonIssues(value, path, issues)] *)
Definition appendJsonIssues (h : heap) (v : value) (path : jsstr) : inspection unit :=
  let '(issues, r) := validateJson h (S (size h)) v path [] in
  match r with
  | Some _ => (issues, Some tt)
  | None =>
      (issues ++ [Build_PrimitiveValidationIssue path INVALID_JSON
                    (js "value could not be inspected without executing caller code")], Some tt)
  end.

(** ** Reading records

    barrier.ts and router.ts each have a copy of these helpers. *)

(** [isPlainRecord(value)]: the record, if it is one *)
Definition isPlainRecord (h : heap) (v : value) : inspection (option object) :=
  match v with
  | VObj l =>
      let o := deref h l in
      if o_array o then mret None
      else touch o;; mret (if bool_decide (o_proto o = ProtoObject ∨ o_proto o = ProtoNull) then Some o else None)
  | _ => mret None
  end.

(** [OwnDataProperty] *)
Inductive property := Absent | Unreadable | Readable (v : value).

Definition ownDataProperty (record : object) (key path : jsstr) (code : PrimitiveValidationIssueCode)
    (message : jsstr) : inspection property :=
  match own_descriptor record key with
  | None => mret Absent
  | Some (Data v true) => mret (Readable v)
  | Some _ => addIssue path code message;; mret Unreadable
  end.

Definition unknownFields (record : object) (allowed : list jsstr) (path : jsstr) : inspection unit :=
  for_each (λ key, when (negb (bool_decide (key ∈ allowed)))
                     (addIssue (child path (pointerSegment key)) UNKNOWN_FIELD (js "unknown field")))
    (sort_by compareUnicodeCodePoints (own_names record));;
  when (0 <? o_symbols record)%nat (addIssue path UNKNOWN_FIELD (js "symbol fields are not supported")).
