(* ===== verification/PrimitivesSpec.v ===== *)
(** * What the JSON validator of the primitives accepts

    An inspection is quiet when it pushed no issue and did not throw.  On ordinary
    heaps (no proxies, no arrays with a foreign prototype) the validator is quiet
    exactly on the values that core's canonicalization accepts. *)
From S2P Require Import Prelude JsString JsNumber JsValue Canonical CanonicalSpec Primitives.

(** ** Quiet inspections *)
Abbreviation quiet m a := (m = ([], Some a)).

Lemma bind_quiet {A B} (m : inspection A) (f : A → inspection B) b :
  quiet (m ≫= f) b ↔ ∃ a, quiet m a ∧ quiet (f a) b.
Proof.
  unfold mbind, inspection_bind. destruct m as [w [a|]]; simpl.
  - split.
    + intros [= [-> Hw]%app_nil Hb]. exists a. split; [done|]. destruct (f a) as [w' r]. simpl in *. congruence.
    + intros (a' & [= -> ->] & H). by rewrite H.
  - split; [done|]. by intros (? & ? & _).
Qed.

Lemma ret_quiet {A} (a b : A) : quiet (mret a : inspection A) b ↔ a = b.
Proof. unfold mret, inspection_ret. naive_solver. Qed.

Lemma addIssue_quiet p c m u : quiet (addIssue p c m) u ↔ False.
Proof. done. Qed.

Lemma issue_quiet p m u : quiet (issue p m) u ↔ False.
Proof. done. Qed.

Lemma touch_quiet o u : quiet (touch o) u ↔ o_throws o = false.
Proof. unfold touch. destruct u, (o_throws o); naive_solver. Qed.

Lemma when_quiet c p k m u : quiet (when c (addIssue p k m)) u ↔ c = false.
Proof. destruct c, u; naive_solver. Qed.

Lemma for_each_quiet {A} (f : A → inspection unit) l u :
  quiet (for_each f l) u ↔ ∀ x, x ∈ l → quiet (f x) tt.
Proof.
  destruct u. induction l as [|x l IH]; simpl.
  - split; [|done]. intros _ x Hx. by apply not_elem_of_nil in Hx.
  - rewrite bind_quiet. setoid_rewrite IH. split.
    + intros ([] & Hx & Hl) y [->|Hy]%elem_of_cons; auto.
    + intros H. exists tt. split; [apply H; left|]. intros y Hy. apply H. by right.
Qed.

Lemma split_names_quiet extra len names ps :
  (∀ name u, ¬ quiet (extra name) u) →
  quiet (split_names extra len names) ps ↔ Forall (λ p, index_name len p.2 = Some p.1) ps ∧ ps.*2 = names.
Proof.
  intros Hextra. revert ps. induction names as [|name names IH]; intros ps; simpl.
  - rewrite ret_quiet. split; [by intros <-|]. intros [_ Hps]. by destruct ps.
  - destruct (index_name len name) as [i|] eqn:Hi; rewrite bind_quiet.
    + setoid_rewrite IH. setoid_rewrite ret_quiet. split.
      * intros (ps' & [H1 H2] & <-). csimpl. split; [by constructor|by f_equal].
      * intros [H1 H2]. destruct ps as [|[j n] ps]; [done|]. csimpl in H2. injection H2 as -> H2.
        apply Forall_cons in H1 as [Hj H1]. simpl in Hj. exists ps. split; [done|]. congruence.
    + split; [by intros (u & Hu & _); destruct (Hextra name u)|].
      intros [H1 H2]. destruct ps as [|[j n] ps]; [done|]. csimpl in H2. injection H2 as -> H2.
      apply Forall_cons in H1 as [Hj _]. simpl in Hj. congruence.
Qed.

(** ** Dense arrays *)

(** Distinct indices below the length count up to it exactly when they are dense. *)
Lemma consecutive_length len ps :
  NoDup ps.*2 → Forall (λ p, index_name len p.2 = Some p.1) ps →
  consecutive 0 (sort_by compare_positions ps).*1 = len ↔ length ps = len.
Proof.
  intros Hnd Hall.
  assert (NoDup ps.*1) as Hnd1.
  { apply (NoDup_fmap_1 string_of_nat). assert (string_of_nat <$> ps.*1 = ps.*2) as ->; [|done].
    rewrite <- list_fmap_compose. apply list_fmap_ext. intros i p Hp. simpl. symmetry.
    rewrite Forall_forall in Hall. apply list_elem_of_lookup_2 in Hp.
    by apply Hall, index_name_Some in Hp as [Hp _]. }
  assert (Forall (λ i, i < len) ps.*1) as Hlt.
  { apply Forall_fmap. eapply Forall_impl; [exact Hall|]. intros p Hp. by apply index_name_Some in Hp as [_ ?]. }
  set (sp := sort_by compare_positions ps). assert (sp ≡ₚ ps) as Hperm by apply sort_by_Permutation.
  assert (StronglySorted lt sp.*1) as Hsort.
  { apply sorted_positions_lt; [apply sort_by_sorted, _|]. by rewrite Hperm. }
  assert (∀ i, i ∈ ps.*1 → i < len) as Hin by (by apply Forall_forall).
  rewrite <- Hperm in Hlt. split.
  - intros Hc. assert (sp.*1 = seq 0 (len - 0)) as Hseq.
    { apply consecutive_seq; [lia|done| |done]. eapply Forall_impl; [exact Hlt|]. intros; simpl in *; lia. }
    rewrite <- Hperm, <- (length_fmap fst sp), Hseq, length_seq. lia.
  - intros Hl. assert (sp.*1 = seq 0 len) as ->; [|apply (consecutive_of_seq 0)].
    apply (StronglySorted_unique_strong lt); [lia|done|apply StronglySorted_seq|].
    rewrite Hperm. apply submseteq_length_Permutation.
    + apply NoDup_submseteq; [done|]. intros i Hi%Hin. apply elem_of_seq. lia.
    + rewrite length_seq, length_fmap. lia.
Qed.

Lemma sorted_names_perm o : object_wf o → o_array o = true → sorted_names o ≡ₚ (o_props o).*1.
Proof.
  intros (_ & _ & Hlen) Ha. specialize (Hlen Ha). unfold sorted_names, own_names. rewrite sort_by_Permutation, Ha.
  rewrite filter_app, filter_cons_False, filter_nil, app_nil_r by auto.
  rewrite filter_id; [done|]. by intros k Hk ->.
Qed.

Lemma index_all len names names' ps :
  names ≡ₚ names' → Forall (λ p, index_name len p.2 = Some p.1) ps → ps.*2 = names →
  ∃ ps', Forall (λ p, index_name len p.2 = Some p.1) ps' ∧ ps'.*2 = names'.
Proof.
  intros Hperm Hall <-. exists ((λ name, (default 0 (index_name len name), name)) <$> names'). split.
  - apply Forall_fmap, Forall_forall. intros name Hn. rewrite <- Hperm in Hn. simpl.
    apply list_elem_of_fmap in Hn as (p & -> & Hp). rewrite Forall_forall in Hall. by rewrite (Hall p Hp).
  - rewrite <- list_fmap_compose. apply list_fmap_id.
Qed.

Lemma traverse_exists {E A B} (f : A → result E B) l :
  (∃ ys, traverse f l = Ok ys) ↔ ∀ x, x ∈ l → ∃ y, f x = Ok y.
Proof.
  setoid_rewrite traverse_Forall2. split.
  - intros [ys H] x (i & Hi)%list_elem_of_lookup. apply Forall2_lookup_l with (1 := H) in Hi as (y & _ & Hy). eauto.
  - induction l as [|x l IH]; intros H; [by exists []|].
    destruct (H x ltac:(left)) as [y Hy]. destruct IH as [ys Hys]; [intros z Hz; apply H; by right|].
    exists (y :: ys). by constructor.
Qed.

(** ** Agreement with the core *)


Lemma validate_entry_quiet validate o key childPath a b ancestors u :
  quiet (validate_entry validate o key childPath a b ancestors) u ↔
  ∃ v, own_descriptor o key = Some (Data v true) ∧ quiet (validate v childPath ancestors) u.
Proof.
  unfold validate_entry. destruct (own_descriptor o key) as [[v []|]|]; simpl; split; try naive_solver.
Qed.

Section agreement.
Context (h : heap) (Hwf : heap_wf h).
Context (validate : value → jsstr → list loc → inspection unit).
Context (capture : value → jsstr → list loc → result capture_error json).
Context (Hagree : ∀ v p p' a, quiet (validate v p a) tt ↔ ∃ j, capture v p' a = Ok j).

Lemma entry_agrees o key childPath p' a b ancestors :
  quiet (validate_entry validate o key childPath a b ancestors) tt ↔
  ∃ j, (v ← dataDescriptor o key p'; capture v p' ancestors) = Ok j.
Proof.
  rewrite validate_entry_quiet. split.
  - intros (v & Hv & Hq). apply (Hagree _ _ p') in Hq as [j Hj]. exists j.
    by rewrite (proj2 (dataDescriptor_Ok o key p' v) Hv).
  - intros [j Hj]. apply bind_Ok in Hj as (v & Hv%dataDescriptor_Ok & Hj). exists v. split; [done|].
    apply (Hagree _ _ p'). by exists j.
Qed.

Lemma array_agrees l path p' ancestors :
  o_array (deref h l) = true → o_proto (deref h l) = ProtoArray → o_symbols (deref h l) = 0 →
  quiet (validate_array validate (deref h l) path (l :: ancestors)) tt ↔
  ∃ j, captureArray capture (deref h l) l p' ancestors = Ok j.
Proof.
  intros Harr Hproto Hsym. pose proof (deref_wf h l Hwf) as Ho. set (o := deref h l) in *.
  pose proof (sorted_names_perm o Ho Harr) as Hsorted.
  assert (filter (.≠ key_length) (own_names o) ≡ₚ (o_props o).*1) as Hnames.
  { unfold sorted_names in Hsorted. by rewrite sort_by_Permutation in Hsorted. }
  assert (∀ ps, ps.*2 ≡ₚ (o_props o).*1 → Forall (λ p, index_name (o_length o) p.2 = Some p.1) ps →
    (length ps = o_length o ↔ consecutive 0 (sort_by compare_positions ps).*1 = o_length o)) as Hdense.
  { intros ps Hp Hall. symmetry. apply consecutive_length; [|done]. rewrite Hp. apply Ho. }
  unfold validate_array, captureArray. rewrite Hproto, Hsym, bind_quiet. simpl. split.
  - intros (ps & Hps & Hrest). apply split_names_quiet in Hps as [Hall Hsplit]; [|done].
    apply bind_quiet in Hrest as ([] & Hlen%when_quiet & Heach). bool_hyps.
    destruct (index_all (o_length o) (sorted_names o) (filter (.≠ key_length) (own_names o)) ps ltac:(by rewrite Hsorted) Hall Hsplit)
      as (ps' & Hall' & Hsplit').
    rewrite (proj2 (index_names_spec _ _ _ ps') (conj Hall' Hsplit')). simpl.
    rewrite (proj1 (Hdense ps' ltac:(by rewrite Hsplit') Hall')).
    2: { rewrite <- (length_fmap snd ps'), Hsplit', Hnames, <- Hsorted, <- Hsplit, length_fmap. done. }
    rewrite Nat.eqb_refl. simpl.
    match goal with |- context [traverse ?f ?ks] => destruct (proj2 (traverse_exists f ks)) as [js Hjs] end.
    { intros name Hn. eapply entry_agrees. rewrite for_each_quiet in Heach. apply Heach.
      rewrite sort_by_Permutation, Hsplit, Hsorted, <- Hnames, <- Hsplit'. by rewrite sort_by_Permutation in Hn. }
    rewrite Hjs. by eexists.
  - intros [j Hj]. inv_ok. cbv zeta in Hj. split_if in Hj as Hlen; [done|]. inv_ok. bool_hyps.
    apply index_names_spec in E as [Hall Hsplit].
    destruct (index_all (o_length o) (filter (.≠ key_length) (own_names o)) (sorted_names o) a ltac:(by rewrite Hsorted) Hall Hsplit) as (ps & Hall' & Hsplit').
    exists ps. split; [by apply split_names_quiet|]. apply bind_quiet. exists tt. split.
    + apply when_quiet, negb_false_iff, Nat.eqb_eq.
      rewrite <- (length_fmap snd ps), Hsplit', Hsorted, <- Hnames, <- Hsplit, length_fmap.
      apply Hdense; [by rewrite Hsplit|done|done].
    + apply for_each_quiet. intros name Hn. eapply entry_agrees.
      apply (proj1 (traverse_exists _ _) (ex_intro _ _ E0)).
      rewrite sort_by_Permutation, Hsplit, Hnames, <- Hsorted, <- Hsplit'. by rewrite sort_by_Permutation in Hn.
Qed.

Lemma object_agrees l path p' ancestors :
  o_proto (deref h l) = ProtoObject ∨ o_proto (deref h l) = ProtoNull → o_symbols (deref h l) = 0 →
  quiet (validate_object validate (deref h l) path (l :: ancestors)) tt ↔
  ∃ j, captureObject capture (deref h l) l p' ancestors = Ok j.
Proof.
  intros Hproto Hsym. set (o := deref h l) in *. unfold validate_object, captureObject.
  rewrite bool_decide_eq_true_2, Hsym, for_each_quiet by done. simpl. split.
  - intros Heach.
    match goal with |- context [traverse ?f ?ks] => destruct (proj2 (traverse_exists f ks)) as [js Hjs] end.
    { intros key Hk. specialize (Heach key Hk). apply (entry_agrees _ _ _ (child p' (pointerSegment key))) in Heach as [j Hj].
      apply bind_Ok in Hj as (v & Hv & Hj). exists (key, j). cbv zeta. rewrite Hv. simpl. by rewrite Hj. }
    rewrite Hjs. by eexists.
  - intros [j Hj] key Hk. inv_ok.
    destruct (proj1 (traverse_exists _ _) (ex_intro _ _ E) key Hk) as [kj Hkj]. cbv zeta in Hkj.
    apply bind_Ok in Hkj as (v & Hv & Hkj). apply bind_Ok in Hkj as (j & Hj & _).
    apply (entry_agrees _ _ _ (child p' (pointerSegment key))). exists j. by rewrite Hv.
Qed.
End agreement.

Lemma validateJson_agrees h fuel v p p' ancestors :
  heap_wf h → ordinary h →
  quiet (validateJson h fuel v p ancestors) tt ↔ ∃ j, captureValue h fuel v p' ancestors = Ok j.
Proof.
  intros Hwf Hord. revert v p p' ancestors. induction fuel as [|fuel IH]; intros v p p' ancestors;
    (destruct v as [| |b|n|s| | | |l]; simpl;
       first [by split; [by eexists|] | by split; [|intros [? ?]] | idtac]).
  1,3: (destruct (num_finite n); simpl; [destruct (_ && _); simpl|]; split; try done; (by eexists || by intros [? ?])).
  all: destruct (ordinary_deref h l Hord) as (Hproxy & Hthrows & Hproto); rewrite Hproxy;
    destruct (bool_decide (l ∈ ancestors)); [split; [done|by intros [? ?]]|];
    rewrite bind_quiet; setoid_rewrite touch_quiet; rewrite Hthrows.
  - split; [|by intros [? ?]]. intros ([] & _ & H). destruct (_ && _); [done|].
    by apply bind_quiet in H as (? & _ & H).
  - assert (∀ P : Prop, (∃ a : unit, false = false ∧ P) ↔ P) as Hunit by (intros P; split; [by intros (_ & _ & ?)|by exists tt]).
    rewrite Hunit. destruct (o_array (deref h l)) eqn:Harr; simpl.
    + rewrite bind_quiet. setoid_rewrite when_quiet. destruct (0 <? _) eqn:Hsym; bool_hyps.
      * split; [by intros (? & ? & _)|]. intros [j Hj]. unfold captureArray in Hj.
        rewrite (Hproto eq_refl), (proj2 (Nat.ltb_lt _ _) Hsym) in Hj. done.
      * rewrite Hunit. apply array_agrees; auto; lia.
    + destruct (bool_decide _) eqn:Hp; simpl.
      * apply bool_decide_eq_true_1 in Hp.
        rewrite bind_quiet. setoid_rewrite when_quiet. destruct (0 <? _) eqn:Hsym; bool_hyps.
        -- split; [by intros (? & ? & _)|]. intros [j Hj]. unfold captureObject in Hj.
           rewrite bool_decide_eq_true_2, (proj2 (Nat.ltb_lt _ _) Hsym) in Hj by done. done.
        -- rewrite Hunit. apply object_agrees; auto; lia.
      * split; [done|]. intros [j Hj]. unfold captureObject in Hj. by rewrite Hp in Hj.
Qed.

(** ** Scanning a dense array *)

(** The entries of a dense array of length [n]. *)
Definition dense_entries (n : nat) : list (nat * jsstr) := (λ i, (i, string_of_nat i)) <$> seq 0 n.

Lemma dense_sorted len ps :
  NoDup ps.*2 → Forall (λ p, index_name len p.2 = Some p.1) ps →
  consecutive 0 (sort_by compare_positions ps).*1 = len → sort_by compare_positions ps = dense_entries len.
Proof.
  intros Hnd Hall Hc. set (sp := sort_by compare_positions ps) in *.
  assert (sp ≡ₚ ps) as Hperm by apply sort_by_Permutation.
  assert (∀ p, p ∈ sp → p.2 = string_of_nat p.1 ∧ p.1 < len) as Hpos.
  { intros p Hp. rewrite Hperm in Hp. rewrite Forall_forall in Hall. by apply index_name_Some, Hall. }
  assert (sp = (λ i, (i, string_of_nat i)) <$> sp.*1) as Hsp.
  { rewrite <- list_fmap_compose. rewrite <- (list_fmap_id sp) at 1. apply list_fmap_ext. intros i p Hp. simpl.
    destruct (Hpos p) as [<- _]; [by eapply list_elem_of_lookup_2|]. by destruct p. }
  assert (NoDup sp.*1) as Hnd1.
  { apply (NoDup_fmap_1 string_of_nat). rewrite <- Hperm, Hsp, <- list_fmap_compose in Hnd. exact Hnd. }
  rewrite Hsp. unfold dense_entries. f_equal. rewrite <- (Nat.sub_0_r len).
  apply consecutive_seq; [lia| | |done].
  - apply sorted_positions_lt; [apply sort_by_sorted, _|done].
  - apply Forall_fmap, Forall_forall. intros p Hp. simpl. destruct (Hpos p Hp). lia.
Qed.

Lemma scan_array o extra (Q : list (nat * jsstr) → Prop) :
  object_wf o → o_array o = true → (∀ name u, ¬ quiet (extra name) u) →
  (∃ ps, quiet (split_names extra (o_length o) (sorted_names o)) ps ∧
     consecutive 0 (sort_by compare_positions ps).*1 = o_length o ∧ Q (sort_by compare_positions ps)) ↔
  string_of_nat <$> seq 0 (o_length o) ≡ₚ (o_props o).*1 ∧ Q (dense_entries (o_length o)).
Proof.
  intros Ho Ha Hextra. pose proof (sorted_names_perm o Ho Ha) as Hsorted.
  assert (NoDup (sorted_names o)) as Hnd by (rewrite Hsorted; apply Ho). split.
  - intros (ps & Hps & Hc & HQ). apply split_names_quiet in Hps as [Hall Hsplit]; [|done].
    rewrite <- Hsplit in Hnd. rewrite (dense_sorted _ _ Hnd Hall Hc) in HQ. split; [|done].
    rewrite <- Hsorted, <- Hsplit, <- (sort_by_Permutation compare_positions ps), (dense_sorted _ _ Hnd Hall Hc).
    unfold dense_entries. by rewrite <- list_fmap_compose.
  - intros [Hperm HQ].
    destruct (index_all (o_length o) (string_of_nat <$> seq 0 (o_length o)) (sorted_names o) (dense_entries (o_length o)))
      as (ps & Hall & Hsplit); [by rewrite Hperm, Hsorted| | |].
    { apply Forall_fmap, Forall_forall. intros i Hi%elem_of_seq. simpl. apply index_name_Some. split; [done|lia]. }
    { unfold dense_entries. by rewrite <- list_fmap_compose. }
    assert (consecutive 0 (sort_by compare_positions ps).*1 = o_length o) as Hc.
    { apply consecutive_length; [by rewrite Hsplit|done|].
      rewrite <- (length_fmap snd ps), Hsplit, Hsorted, <- Hperm, length_fmap, length_seq. done. }
    exists ps. split; [by apply split_names_quiet|]. split; [done|].
    rewrite (dense_sorted (o_length o)); [done|by rewrite Hsplit|done|done].
Qed.

(** The issue that stands for a throw is an issue. *)
Lemma appendJsonIssues_quiet h v path :
  quiet (appendJsonIssues h v path) tt ↔ quiet (validateJson h (S (size h)) v path []) tt.
Proof.
  unfold appendJsonIssues. destruct (validateJson _ _ _ _ _) as [issues [[]|]]; [done|].
  split; [|done]. intros [= H]. by destruct issues.
Qed.

Lemma appendJsonIssues_portable h v path :
  heap_wf h → ordinary h → quiet (appendJsonIssues h v path) tt ↔ ∃ j, portable h v j.
Proof.
  intros Hwf Hord. rewrite appendJsonIssues_quiet, (validateJson_agrees h _ v path (js "#")) by done.
  destruct (captureCanonicalJson_cases h v Hwf) as [(j & Hj & Hc)|[(m & p & Hc) Hn]];
    unfold captureCanonicalJson in Hc; destruct (captureValue _ _ _ _ _) as [j'|e]; simpl in Hc; try done.
  - split; intros _; eauto.
  - split; [by intros [? ?]|]. intros [j Hj]. by destruct (Hn j).
Qed.

(** The primitives accept as a JSON value exactly what the core can canonicalize:
    on an ordinary heap, cyclic or not, [appendJsonIssues] finds no issue exactly
    when the value is portable JSON, and the core then captures it. *)
Theorem appendJsonIssues_agrees h v path :
  heap_wf h → ordinary h →
  (appendJsonIssues h v path = ([], Some tt) ↔ ∃ j, portable h v j) ∧
  (appendJsonIssues h v path = ([], Some tt) ↔ ∃ j s, captureCanonicalJson h v = Ok (j, s)).
Proof.
  intros Hwf Hord. rewrite appendJsonIssues_portable by done. split; [done|].
  destruct (captureCanonicalJson_cases h v Hwf) as [(j & Hj & ->)|[(m & p & ->) Hn]].
  - split; intros _; eauto.
  - split; [intros [j Hj]; by destruct (Hn j)|by intros (? & ? & ?)].
Qed.

Lemma appendJsonIssues_agrees_witness :
  heap_wf sample_heap ∧ ordinary sample_heap ∧
  appendJsonIssues sample_heap (VObj 1) (js "#") = ([], Some tt) ∧
  (∃ j, portable sample_heap (VObj 1) j) ∧ ¬ ∃ j, portable sample_heap (VObj 3) j.
Proof.
  assert (heap_wf sample_heap) as Hwf by (apply (bool_decide_unpack _); vm_compute; exact I).
  assert (ordinary sample_heap) as Hord by (apply (bool_decide_unpack _); vm_compute; exact I).
  assert (appendJsonIssues sample_heap (VObj 1) (js "#") = ([], Some tt)) as H1 by (vm_compute; reflexivity).
  assert (appendJsonIssues sample_heap (VObj 3) (js "#") ≠ ([], Some tt)) as H3 by (vm_compute; discriminate).
  split; [exact Hwf|]. split; [exact Hord|]. split; [exact H1|]. split.
  - apply (proj1 (appendJsonIssues_agrees sample_heap (VObj 1) (js "#") Hwf Hord)), H1.
  - intros Hj. apply H3, (proj1 (appendJsonIssues_agrees sample_heap (VObj 3) (js "#") Hwf Hord)), Hj.
Defined.

(** ** Records *)

(** [v] is a plain object with only these own keys. *)
Definition plain_record (h : heap) (v : value) (o : object) : Prop :=
  ∃ l, v = VObj l ∧ o = deref h l ∧ o_array o = false ∧ o_throws o = false ∧
    (o_proto o = ProtoObject ∨ o_proto o = ProtoNull).
Definition only_fields (o : object) (allowed : list jsstr) : Prop :=
  (∀ k, k ∈ own_names o → k ∈ allowed) ∧ o_symbols o = 0.
Definition data_field (o : object) (k : jsstr) (v : value) : Prop := own_descriptor o k = Some (Data v true).

Lemma isPlainRecord_quiet h v r :
  quiet (isPlainRecord h v) r →
  match r with Some o => plain_record h v o | None => ∀ o, ¬ plain_record h v o end.
Proof.
  unfold isPlainRecord. intros H.
  destruct v as [| | | | | | | |l];
    try (apply ret_quiet in H as <-; intros o (l & Hl & _); discriminate Hl).
  destruct (o_array (deref h l)) eqn:Ha.
  { apply ret_quiet in H as <-. intros o (l' & [= <-] & -> & Ha' & _). congruence. }
  apply bind_quiet in H as ([] & Ht%touch_quiet & Hr).
  apply (proj1 (ret_quiet _ _)) in Hr as <-. case_bool_decide as Hp.
  - exists l. by split_and!.
  - intros o (l' & [= <-] & -> & _ & _ & Hp'). done.
Qed.

Lemma isPlainRecord_plain h v o : plain_record h v o → quiet (isPlainRecord h v) (Some o).
Proof.
  intros (l & -> & -> & Ha & Ht & Hp). unfold isPlainRecord. rewrite Ha. apply bind_quiet. exists tt.
  split; [by apply touch_quiet|]. by rewrite bool_decide_eq_true_2.
Qed.

Lemma unknownFields_quiet o allowed path u :
  quiet (unknownFields o allowed path) u ↔ only_fields o allowed.
Proof.
  unfold unknownFields, only_fields. rewrite bind_quiet. setoid_rewrite for_each_quiet. setoid_rewrite when_quiet.
  split.
  - intros ([] & Hk & Hs). bool_hyps. split; [|lia]. intros k Hin. specialize (Hk k).
    rewrite elem_of_sort_by in Hk. specialize (Hk Hin). apply negb_false_iff, bool_decide_eq_true_1 in Hk. done.
  - intros [Hk Hs]. exists tt. split; [|rewrite Hs; done]. intros k Hin. rewrite elem_of_sort_by in Hin.
    rewrite bool_decide_eq_true_2 by auto. done.
Qed.

Lemma ownDataProperty_quiet o k path code m r :
  quiet (ownDataProperty o k path code m) r ↔
  (own_descriptor o k = None ∧ r = Absent) ∨ ∃ v, data_field o k v ∧ r = Readable v.
Proof.
  unfold ownDataProperty, data_field. destruct (own_descriptor o k) as [[v []|]|]; rewrite ?ret_quiet;
    try (rewrite bind_quiet; setoid_rewrite addIssue_quiet); naive_solver.
Qed.

(** Two inspections in a row. *)
Lemma pair_quiet {A B} (m : inspection A) (n : inspection B) x :
  quiet (a ← m; b ← n; mret (a, b)) x ↔ quiet m x.1 ∧ quiet n x.2.
Proof.
  destruct x as [a b]. rewrite bind_quiet. setoid_rewrite bind_quiet. setoid_rewrite ret_quiet. simpl. split.
  - by intros (a' & Ha & b' & Hb & [= -> ->]).
  - intros [Ha Hb]. exists a. split; [done|]. by exists b.
Qed.
