(* ===== verification/Barrier.v ===== *)
(** * The settled barrier (packages/primitives/src/barrier.ts)

    [evaluateSettledBarrier] validates a list of settled items and a policy and
    decides whether enough items succeeded.  All issues are collected before any is
    thrown. *)
From S2P Require Import Prelude JsString JsNumber JsValue Canonical Primitives.

(** ** Data *)

Inductive SettledStatus := Succeeded | Failed | Missing | TimedOut.
#[export] Instance SettledStatus_eq_dec : EqDecision SettledStatus.
Proof. solve_decision. Defined.

Inductive SettledBarrierPolicy :=
  | AllPolicy
  | MinimumPolicy (minimum : Z)
  | PercentagePolicy (basisPoints : Z).

Inductive SettledBarrierReasonCode :=
  | NO_ITEMS | ALL_SUCCEEDED | ALL_NOT_SUCCEEDED | MINIMUM_MET | MINIMUM_NOT_MET
  | MINIMUM_EXCEEDS_TOTAL | PERCENTAGE_MET | PERCENTAGE_NOT_MET.

Record SettledBarrierResult := {
  satisfied : bool;
  reasonCode : SettledBarrierReasonCode;
  total : Z;
  succeeded : Z;
  failed : Z;
  missing : Z;
  timedOut : Z;
  acceptedIds : list jsstr;
  failedIds : list jsstr;
  missingIds : list jsstr;
  timedOutIds : list jsstr
}.

Record ValidatedItem := { item_id : jsstr; item_status : SettledStatus }.

(** [/^[A-Za-z0-9][A-Za-z0-9._-]{0,127}$/] *)
Definition SAFE_ID (s : jsstr) : bool := matches_ident is_alnum is_ident_char 127 s.

Definition ITEM_FIELDS : list jsstr := [js "id"; js "status"; js "value"].

(** [STATUSES.has(s)] *)
Definition status_of (s : jsstr) : option SettledStatus :=
  if decide (s = js "succeeded") then Some Succeeded
  else if decide (s = js "failed") then Some Failed
  else if decide (s = js "missing") then Some Missing
  else if decide (s = js "timed_out") then Some TimedOut else None.
Definition status_name (s : SettledStatus) : jsstr :=
  match s with
  | Succeeded => js "succeeded" | Failed => js "failed" | Missing => js "missing" | TimedOut => js "timed_out"
  end.

(** ** Items *)

(** The id of an item, and the ids seen so far. *)
Definition validate_id (item : object) (path : jsstr) (seenIds : list jsstr)
    : inspection (option jsstr * list jsstr) :=
  let path := child path (js "id") in
  idProperty ← ownDataProperty item (js "id") path TYPE (js "id must be an enumerable data field");
  match idProperty with
  | Absent => addIssue path REQUIRED (js "id is required");; mret (None, seenIds)
  | Unreadable => mret (None, seenIds)
  | Readable v =>
      let invalid := addIssue path UNSAFE_ID (js "expected a safe identifier");; mret (None, seenIds) in
      match v with
      | VStr id =>
          if negb (SAFE_ID id) || bool_decide (id = js ".") || bool_decide (id = js "..") then invalid
          else if bool_decide (id ∈ seenIds) then
            addIssue path DUPLICATE_ID (js "duplicate id '" ++ id ++ js "'");; mret (Some id, seenIds)
          else mret (Some id, set_add id seenIds)
      | _ => invalid
      end
  end.

Definition validate_status (item : object) (path : jsstr) : inspection (option SettledStatus) :=
  let path := child path (js "status") in
  statusProperty ← ownDataProperty item (js "status") path TYPE (js "status must be an enumerable data field");
  match statusProperty with
  | Absent => addIssue path REQUIRED (js "status is required");; mret None
  | Unreadable => mret None
  | Readable v =>
      match (match v with VStr s => status_of s | _ => None end) with
      | Some status => mret (Some status)
      | None => addIssue path INVALID_STATUS (js "unknown settled status");; mret None
      end
  end.

Definition validate_value (h : heap) (item : object) (path : jsstr) (status : option SettledStatus) : inspection unit :=
  let path := child path (js "value") in
  let valueDescriptor := own_descriptor item (js "value") in
  match status with
  | None => mret tt
  | Some Succeeded =>
      match valueDescriptor with
      | None => addIssue path STATUS_VALUE_MISMATCH (js "succeeded items require a value")
      | Some (Data v true) => appendJsonIssues h v path
      | Some _ => addIssue path INVALID_JSON (js "value must be an enumerable data field")
      end
  | Some status =>
      when (match valueDescriptor with Some _ => true | None => false end)
        (addIssue path STATUS_VALUE_MISMATCH (status_name status ++ js " items must not contain a value"))
  end.

(** One iteration of the loop over the index names. *)
Definition validate_item (h : heap) (array : object) (index : nat) (name : jsstr)
    (st : list ValidatedItem * list jsstr) : inspection (list ValidatedItem * list jsstr) :=
  let '(validated, seenIds) := st in
  let path := js "#/items/" ++ string_of_nat index in
  match own_descriptor array name with
  | Some (Data item true) =>
      record ← isPlainRecord h item;
      match record with
      | None => addIssue path TYPE (js "expected a plain item object");; mret st
      | Some record =>
          unknownFields record ITEM_FIELDS path;;
          '(id, seenIds) ← validate_id record path seenIds;
          status ← validate_status record path;
          validate_value h record path status;;
          mret (match id, status with
                | Some id, Some status => (validated ++ [Build_ValidatedItem id status], seenIds)
                | _, _ => (validated, seenIds)
                end)
      end
  | _ => addIssue path TYPE (js "expected an enumerable item data entry");; mret st
  end.

Fixpoint validate_entries (h : heap) (array : object) (indexNames : list (nat * jsstr))
    (st : list ValidatedItem * list jsstr) : inspection (list ValidatedItem * list jsstr) :=
  match indexNames with
  | [] => mret st
  | (index, name) :: indexNames => st ← validate_item h array index name st; validate_entries h array indexNames st
  end.

Definition validateItems (h : heap) (v : value) : inspection (list ValidatedItem) :=
  let not_array := addIssue (js "#/items") TYPE (js "expected an item array");; mret [] in
  match v with
  | VObj l =>
      let o := deref h l in
      if negb (o_array o) then not_array
      else
        touch o;;
        names ← split_names (λ name, addIssue (js "#/items/" ++ pointerSegment name) UNKNOWN_FIELD (js "unknown array field"))
                  (o_length o) (sorted_names o);
        let indexNames := sort_by compare_positions names in
        when (0 <? o_symbols o)%nat (addIssue (js "#/items") UNKNOWN_FIELD (js "symbol fields are not supported"));;
        let expectedIndex := consecutive 0 indexNames.*1 in
        when (negb (expectedIndex =? o_length o)%nat)
          (addIssue (js "#/items/" ++ string_of_nat expectedIndex) TYPE (js "sparse item slots are not supported"));;
        st ← validate_entries h o indexNames ([], []); mret st.1
  | _ => not_array
  end.

(** ** Policies *)

(** A policy number between [lo] and [hi]. *)
Definition policy_integer (value : object) (key : jsstr) (lo : Z) (hi : option Z) (bounds : jsstr) : inspection (option Z) :=
  let path := js "#/policy/" ++ key in
  match own_descriptor value key with
  | None => addIssue path REQUIRED (key ++ js " is required");; mret None
  | Some (Data v true) =>
      match v with
      | VNum n =>
          if negb (num_safe_integer n) || (num_trunc n <? lo)%Z ||
             match hi with Some hi => (hi <? num_trunc n)%Z | None => false end
          then addIssue path INVALID_POLICY (key ++ js " must be a safe integer " ++ bounds);; mret None
          else mret (Some (num_trunc n))
      | _ => addIssue path INVALID_POLICY (key ++ js " must be a safe integer " ++ bounds);; mret None
      end
  | Some _ => addIssue path INVALID_POLICY (key ++ js " must be an enumerable data field");; mret None
  end.

Definition validatePolicy (h : heap) (v : value) : inspection SettledBarrierPolicy :=
  let path := js "#/policy" in
  record ← isPlainRecord h v;
  match record with
  | None => addIssue path TYPE (js "expected a plain policy object");; mret AllPolicy
  | Some value =>
      let kindDescriptor := own_descriptor value (js "kind") in
      let kind := match kindDescriptor with Some (Data (VStr s) _) => Some s | _ => None end in
      let allowed :=
        if bool_decide (kind = Some (js "minimum")) then [js "kind"; js "minimum"]
        else if bool_decide (kind = Some (js "percentage")) then [js "kind"; js "basisPoints"]
        else [js "kind"] in
      unknownFields value allowed path;;
      match kindDescriptor with
      | None => addIssue (child path (js "kind")) REQUIRED (js "policy kind is required");; mret AllPolicy
      | Some (Data _ true) =>
          if bool_decide (kind = Some (js "all")) then mret AllPolicy
          else if bool_decide (kind = Some (js "minimum")) then
            minimum ← policy_integer value (js "minimum") 1 None (js ">= 1");
            mret (MinimumPolicy (default 1%Z minimum))
          else if bool_decide (kind = Some (js "percentage")) then
            basisPoints ← policy_integer value (js "basisPoints") 1 (Some 10000%Z) (js "in [1, 10000]");
            mret (PercentagePolicy (default 1%Z basisPoints))
          else addIssue (child path (js "kind")) INVALID_POLICY (js "unknown barrier policy kind");; mret AllPolicy
      | Some _ =>
          addIssue (child path (js "kind")) INVALID_POLICY (js "policy kind must be an enumerable data field");;
          mret AllPolicy
      end
  end.

(** ** Evaluation *)

Definition reason (total succeeded : Z) (policy : SettledBarrierPolicy) : bool * SettledBarrierReasonCode :=
  if (total =? 0)%Z then (false, NO_ITEMS)
  else match policy with
  | AllPolicy => if (succeeded =? total)%Z then (true, ALL_SUCCEEDED) else (false, ALL_NOT_SUCCEEDED)
  | MinimumPolicy minimum =>
      if (total <? minimum)%Z then (false, MINIMUM_EXCEEDS_TOTAL)
      else if (minimum <=? succeeded)%Z then (true, MINIMUM_MET) else (false, MINIMUM_NOT_MET)
  | PercentagePolicy basisPoints =>
      if (total * basisPoints <=? succeeded * 10000)%Z then (true, PERCENTAGE_MET) else (false, PERCENTAGE_NOT_MET)
  end.

(** The ids of the items with a status, in item order. *)
Definition ids_with (st : SettledStatus) (items : list ValidatedItem) : list jsstr :=
  item_id <$> filter (λ i, item_status i = st) items.

Definition barrier_result (items : list ValidatedItem) (policy : SettledBarrierPolicy) : SettledBarrierResult :=
  let accepted := ids_with Succeeded items in
  let failed := ids_with Failed items in
  let missing := ids_with Missing items in
  let timedOut := ids_with TimedOut items in
  let count (l : list jsstr) := Z.of_nat (length l) in
  let outcome := reason (Z.of_nat (length items)) (count accepted) policy in
  Build_SettledBarrierResult outcome.1 outcome.2 (Z.of_nat (length items)) (count accepted) (count failed)
    (count missing) (count timedOut) accepted failed missing timedOut.

(** [evaluateSettledBarrier(items, policy)] *)
Definition evaluateSettledBarrier (h : heap) (itemsValue policyValue : value)
    : result PrimitiveValidationError SettledBarrierResult :=
  let '(issues, outcome) :=
    (items ← validateItems h itemsValue; policy ← validatePolicy h policyValue; mret (items, policy)) in
  match outcome with
  | Some (items, policy) =>
      match issues with
      | [] => Ok (barrier_result items policy)
      | _ => Err (Build_PrimitiveValidationError (js "Settled barrier input is invalid") issues)
      end
  | None =>
      Err (Build_PrimitiveValidationError (js "Settled barrier input is invalid")
        [Build_PrimitiveValidationIssue (js "#") TYPE (js "barrier input could not be inspected safely")])
  end.
