(* ===== verification/BarrierSpec.v ===== *)
(** * What the settled barrier promises

    [settled_items] and [policy_of] describe the inputs the barrier accepts, without
    reference to the validator; the theorems say that validation accepts exactly
    those, and what the result says about the accepted items. *)
From S2P Require Import Prelude JsString JsNumber JsValue Canonical CanonicalSpec Primitives.
From S2P Require Import PrimitivesSpec Barrier.

(** ** Items *)

Definition safe_id (id : jsstr) : Prop := SAFE_ID id = true ∧ id ≠ js "." ∧ id ≠ js "..".

(** A settled item: a plain record of a safe id, a status and, exactly when it
    succeeded, a portable JSON value. *)
Definition settled_item (h : heap) (v : value) (i : ValidatedItem) : Prop :=
  ∃ o, plain_record h v o ∧ only_fields o ITEM_FIELDS ∧
    data_field o (js "id") (VStr (item_id i)) ∧ safe_id (item_id i) ∧
    data_field o (js "status") (VStr (status_name (item_status i))) ∧
    (if decide (item_status i = Succeeded)
     then ∃ w j, data_field o (js "value") w ∧ portable h w j
     else own_descriptor o (js "value") = None).

(** The whole argument: a dense array of settled items with distinct ids. *)
Definition settled_items (h : heap) (v : value) (items : list ValidatedItem) : Prop :=
  ∃ l vs, v = VObj l ∧ array_of (deref h l) vs ∧ Forall2 (settled_item h) vs items ∧ NoDup (item_id <$> items).

Lemma validate_id_quiet o path seen r :
  quiet (validate_id o path seen) r ↔
  ∃ id, data_field o (js "id") (VStr id) ∧ safe_id id ∧ id ∉ seen ∧ r = (Some id, seen ++ [id]).
Proof.
  unfold validate_id. rewrite bind_quiet. setoid_rewrite ownDataProperty_quiet. split.
  - intros (p & [[Hn ->]|(v & Hv & ->)] & H).
    + by apply bind_quiet in H as (? & ? & _).
    + destruct v; try by apply bind_quiet in H as (? & ? & _).
      destruct (negb (SAFE_ID s) || _ || _) eqn:E; [by apply bind_quiet in H as (? & ? & _)|]. bool_hyps.
      rewrite bool_decide_eq_false in *. case_bool_decide as Hs; [by apply bind_quiet in H as (? & ? & _)|].
      apply ret_quiet in H as <-. exists s. unfold set_add. by rewrite decide_False.
  - intros (id & Hd & (H1 & H2 & H3) & Hs & ->). exists (Readable (VStr id)). split; [right; by exists (VStr id)|].
    rewrite H1, !bool_decide_eq_false_2 by done. simpl. apply ret_quiet. unfold set_add. by rewrite decide_False.
Qed.

Lemma status_of_name s st : status_of s = Some st ↔ s = status_name st.
Proof.
  unfold status_of. split.
  - repeat case_decide; intros [= <-]; done.
  - intros ->. by destruct st.
Qed.

Lemma validate_status_quiet o path r :
  quiet (validate_status o path) r ↔
  ∃ st, data_field o (js "status") (VStr (status_name st)) ∧ r = Some st.
Proof.
  unfold validate_status. rewrite bind_quiet. setoid_rewrite ownDataProperty_quiet. split.
  - intros (p & [[Hn ->]|(v & Hv & ->)] & H).
    + by apply bind_quiet in H as (? & ? & _).
    + destruct (match v with VStr s => status_of s | _ => None end) as [st|] eqn:E.
      * apply ret_quiet in H as <-. exists st. destruct v; try done. apply status_of_name in E as ->. done.
      * by apply bind_quiet in H as (? & ? & _).
  - intros (st & Hd & ->). exists (Readable (VStr (status_name st))). split; [right; by eexists|].
    by rewrite (proj2 (status_of_name _ st) eq_refl).
Qed.

Section items.
Context (h : heap) (Hwf : heap_wf h) (Hord : ordinary h).

Lemma validate_value_quiet o path st u :
  quiet (validate_value h o path (Some st)) u ↔
  if decide (st = Succeeded) then ∃ w j, data_field o (js "value") w ∧ portable h w j
  else own_descriptor o (js "value") = None.
Proof.
  unfold validate_value, data_field. destruct u. case_decide as Hst; [subst st|].
  - destruct (own_descriptor o (js "value")) as [[w []|]|]; [rewrite appendJsonIssues_portable by done|..];
      rewrite ?addIssue_quiet; naive_solver.
  - destruct st; [done|..]; rewrite when_quiet; by destruct (own_descriptor o (js "value")).
Qed.

Lemma validate_item_quiet array index name st st' :
  quiet (validate_item h array index name st) st' ↔
  ∃ v i, data_field array name v ∧ settled_item h v i ∧ item_id i ∉ st.2 ∧
    st' = (st.1 ++ [i], st.2 ++ [item_id i]).
Proof.
  destruct st as [validated seen]. unfold validate_item, data_field at 1. split.
  - destruct (own_descriptor array name) as [[v []|]|] eqn:Hd; intros H;
      try by apply bind_quiet in H as (? & ? & _).
    apply bind_quiet in H as (r & Hr%isPlainRecord_quiet & H).
    destruct r as [o|]; [|by apply bind_quiet in H as (? & ? & _)].
    apply bind_quiet in H as (u & Hu%unknownFields_quiet & H).
    apply bind_quiet in H as ([id seen'] & Hid & H). apply validate_id_quiet in Hid as (id' & Hid & Hsafe & Hnew & [= -> ->]).
    apply bind_quiet in H as (sto & Hst%validate_status_quiet & H). destruct Hst as (st & Hst & ->).
    apply bind_quiet in H as (u' & Hv%validate_value_quiet & H). apply ret_quiet in H as <-.
    exists v, (Build_ValidatedItem id' st). split; [done|]. split; [|done]. by exists o.
  - intros (v & i & Hd & (o & Hrec & Hf & Hid & Hsafe & Hst & Hv) & Hnew & ->). rewrite Hd.
    apply bind_quiet. exists (Some o). split; [by apply isPlainRecord_plain|].
    apply bind_quiet. exists tt. split; [by apply unknownFields_quiet|].
    apply bind_quiet. exists (Some (item_id i), seen ++ [item_id i]). split; [apply validate_id_quiet; by exists (item_id i)|].
    apply bind_quiet. exists (Some (item_status i)). split; [apply validate_status_quiet; by exists (item_status i)|].
    apply bind_quiet. exists tt. split; [by apply validate_value_quiet|]. apply ret_quiet. by destruct i.
Qed.

#[local] Arguments validate_item : simpl never.

Lemma validate_entries_quiet array entries st st' :
  NoDup st.2 →
  quiet (validate_entries h array entries st) st' ↔
  ∃ vs items, Forall2 (data_field array) entries.*2 vs ∧ Forall2 (settled_item h) vs items ∧
    NoDup (st.2 ++ (item_id <$> items)) ∧ st' = (st.1 ++ items, st.2 ++ (item_id <$> items)).
Proof.
  revert st. induction entries as [|[index name] entries IH]; intros [validated seen] Hnd; csimpl.
  - rewrite ret_quiet. split.
    + intros <-. exists [], []. simpl. rewrite !app_nil_r. by repeat constructor.
    + intros (vs & items & Hvs & Hi & _ & ->). apply Forall2_nil_inv_l in Hvs as ->.
      apply Forall2_nil_inv_l in Hi as ->. simpl. by rewrite !app_nil_r.
  - rewrite bind_quiet. setoid_rewrite validate_item_quiet. simpl in *. split.
    + intros (st & (v & i & Hd & Hi & Hnew & ->) & H). apply IH in H; simpl.
      2: { apply NoDup_app. split_and!; [done| |apply NoDup_singleton]. set_solver. }
      destruct H as (vs & items & Hvs & His & Hnd' & ->). simpl in *. exists (v :: vs), (i :: items).
      rewrite <- !app_assoc in *. simpl in *. split_and!; [by constructor|by constructor|done|done].
    + intros (vs & items & Hvs & His & Hnd' & ->).
      apply Forall2_cons_inv_l in Hvs as (v & vs' & Hv & Hvs & ->).
      apply Forall2_cons_inv_l in His as (i & items' & Hi & His & ->). csimpl in Hnd'.
      exists (validated ++ [i], seen ++ [item_id i]). split.
      * exists v, i. split_and!; [done|done| |done]. apply NoDup_app in Hnd' as (_ & Hd & _).
        intros Hin. apply (Hd _ Hin). left.
      * apply IH; simpl.
        -- change (NoDup (seen ++ [item_id i] ++ (item_id <$> items'))) in Hnd'.
           rewrite app_assoc, NoDup_app in Hnd'. tauto.
        -- exists vs', items'. rewrite <- !app_assoc. by split_and!.
Qed.
End items.

(** The validator of the items accepts exactly the settled items. *)
Lemma validateItems_quiet h v items :
  heap_wf h → ordinary h → quiet (validateItems h v) items ↔ settled_items h v items.
Proof.
  intros Hwf Hord. unfold validateItems, settled_items.
  destruct v as [| | | | | | | |l];
    try (split; [by intros (? & ? & _)%bind_quiet|by intros (? & ? & ? & _)]).
  destruct (ordinary_deref h l Hord) as (Hproxy & Hthrows & Hproto).
  pose proof (deref_wf h l Hwf) as Ho. set (o := deref h l) in *. destruct (o_array o) eqn:Ha; simpl.
  2: { split; [by intros (? & ? & _)%bind_quiet|]. intros (l' & vs & [= <-] & (_ & Ha' & _) & _). fold o in Ha'. congruence. }
  set (Q := λ entries : list (nat * jsstr), ∃ vs, Forall2 (data_field o) entries.*2 vs ∧
    Forall2 (settled_item h) vs items ∧ NoDup (item_id <$> items)).
  transitivity (o_symbols o = 0 ∧ ∃ ps, quiet (split_names (λ name, addIssue (js "#/items/" ++ pointerSegment name)
      UNKNOWN_FIELD (js "unknown array field")) (o_length o) (sorted_names o)) ps ∧
      consecutive 0 (sort_by compare_positions ps).*1 = o_length o ∧ Q (sort_by compare_positions ps)).
  - rewrite bind_quiet. setoid_rewrite touch_quiet. split.
    + intros (_ & _ & H). apply bind_quiet in H as (ps & Hps & H).
      apply bind_quiet in H as (? & Hsym%when_quiet & H). apply bind_quiet in H as (? & Hlen%when_quiet & H).
      apply bind_quiet in H as (st & Hst & H). apply ret_quiet in H as <-. bool_hyps. split; [lia|].
      exists ps. split; [done|]. split; [done|].
      apply validate_entries_quiet in Hst as (vs & its & Hvs & Hits & Hnd & ->); [|done|done|constructor].
      by exists vs.
    + intros (Hsym & ps & Hps & Hlen & vs & Hvs & Hits & Hnd). exists tt. split; [done|].
      apply bind_quiet. exists ps. split; [done|]. rewrite Hsym, Hlen, Nat.eqb_refl. simpl.
      apply bind_quiet. exists tt. split; [done|]. apply bind_quiet. exists tt. split; [done|].
      apply bind_quiet. exists (items, item_id <$> items). split; [|done].
      apply validate_entries_quiet; [done|done|constructor|]. by exists vs, items.
  - rewrite (scan_array o _ Q Ho Ha) by done. unfold Q, dense_entries. rewrite <- list_fmap_compose. split.
    + intros (Hsym & Hperm & vs & Hvs & Hits & Hnd). exists l, vs. split; [done|]. split; [|done].
      assert (o_length o = length vs) as Hl by (apply Forall2_length in Hvs; by rewrite length_fmap, length_seq in Hvs).
      unfold array_of. fold o. split_and!; try done; [by apply Hproto|].
      rewrite <- Hl. apply zip_Permutation; [apply Ho|done|]. apply Forall2_fmap_r. eapply Forall2_impl; [exact Hvs|].
      intros k v Hk. simpl. unfold data_field in Hk. rewrite own_descriptor_props in Hk; [done|]. right. intros ->.
      unfold own_descriptor in Hk. by rewrite Ha, bool_decide_eq_true_2 in Hk.
    + intros (l' & vs & [= <-] & Harr & Hits & Hnd). pose proof (array_of_entries h l vs Hwf Harr) as He.
      fold o in Harr, He. pose proof Harr as (_ & _ & _ & Hsym & Hl & Hp). split; [done|]. split.
      * rewrite Hp, fst_zip, Hl; [done|]. by rewrite !length_fmap, length_seq.
      * exists vs. split; [|done]. rewrite Hl. eapply Forall2_impl; [exact He|]. intros k v Hk. unfold data_field.
        rewrite own_descriptor_props; [done|]. right. intros ->. destruct Ho as (_ & _ & Hlen). apply (Hlen Ha).
        by eapply map_get_Some_key.
Qed.

(** ** Policies *)

Definition policy_number (o : object) (k : jsstr) (m : Z) : Prop :=
  ∃ n, data_field o k (VNum n) ∧ num_safe_integer n = true ∧ num_trunc n = m.

(** A barrier policy: a plain record of its kind and the number the kind needs. *)
Definition policy_of (h : heap) (v : value) (p : SettledBarrierPolicy) : Prop :=
  ∃ o, plain_record h v o ∧
  match p with
  | AllPolicy => only_fields o [js "kind"] ∧ data_field o (js "kind") (VStr (js "all"))
  | MinimumPolicy m =>
      only_fields o [js "kind"; js "minimum"] ∧ data_field o (js "kind") (VStr (js "minimum")) ∧
      policy_number o (js "minimum") m ∧ (1 ≤ m)%Z
  | PercentagePolicy b =>
      only_fields o [js "kind"; js "basisPoints"] ∧ data_field o (js "kind") (VStr (js "percentage")) ∧
      policy_number o (js "basisPoints") b ∧ (1 ≤ b ≤ 10000)%Z
  end.

Lemma policy_integer_quiet o k lo hi bounds r :
  quiet (policy_integer o k lo hi bounds) r ↔
  ∃ m, r = Some m ∧ policy_number o k m ∧ (lo ≤ m)%Z ∧ match hi with Some hi => (m ≤ hi)%Z | None => True end.
Proof.
  unfold policy_integer, policy_number, data_field. split.
  - destruct (own_descriptor o k) as [[v []|]|]; intros H; try by apply bind_quiet in H as (? & ? & _).
    destruct v as [| | |n| | | | |]; try by apply bind_quiet in H as (? & ? & _).
    destruct (_ || _) eqn:E; [by apply bind_quiet in H as (? & ? & _)|]. apply ret_quiet in H as <-. bool_hyps.
    exists (num_trunc n). split; [done|]. split; [by exists n|]. split; [lia|]. destruct hi; bool_hyps; [lia|done].
  - intros (m & -> & (n & -> & Hs & <-) & Hlo & Hhi). rewrite Hs. simpl.
    rewrite (proj2 (Z.ltb_ge _ _)) by done. simpl.
    destruct hi as [hi|]; [rewrite (proj2 (Z.ltb_ge _ _)) by done|]; done.
Qed.

(** The validator of the policy accepts exactly the policies. *)
Lemma barrier_policy_quiet h v p : quiet (validatePolicy h v) p ↔ policy_of h v p.
Proof.
  unfold validatePolicy, policy_of. split.
  - intros (r & Hr%isPlainRecord_quiet & H)%bind_quiet.
    destruct r as [o|]; [|by apply bind_quiet in H as (? & ? & _)]. exists o. split; [done|].
    apply bind_quiet in H as (u & Hf%unknownFields_quiet & H). unfold data_field.
    destruct (own_descriptor o (js "kind")) as [[k []|]|] eqn:Hk; try by apply bind_quiet in H as (? & ? & _).
    destruct k as [| | | |s| | | |]; try by apply bind_quiet in H as (? & ? & _).
    destruct (decide (s = js "all")) as [->|Hall]; [|destruct (decide (s = js "minimum")) as [->|Hmin];
      [|destruct (decide (s = js "percentage")) as [->|Hper]]].
    + rewrite !bool_decide_eq_false_2 in Hf by (vm_compute; discriminate).
      rewrite bool_decide_eq_true_2 in H by done. by apply ret_quiet in H as <-.
    + rewrite bool_decide_eq_true_2 in Hf by done. rewrite bool_decide_eq_false_2 in H by (vm_compute; discriminate).
      rewrite bool_decide_eq_true_2 in H by done.
      apply bind_quiet in H as (r & (m & -> & Hm & Hlo & _)%policy_integer_quiet & H). by apply ret_quiet in H as <-.
    + rewrite bool_decide_eq_false_2, bool_decide_eq_true_2 in Hf by (done || (vm_compute; discriminate)).
      rewrite !bool_decide_eq_false_2 in H by (vm_compute; discriminate). rewrite bool_decide_eq_true_2 in H by done.
      apply bind_quiet in H as (r & (m & -> & Hm & Hlo & Hhi)%policy_integer_quiet & H). by apply ret_quiet in H as <-.
    + rewrite !bool_decide_eq_false_2 in H by congruence. by apply bind_quiet in H as (? & ? & _).
  - intros (o & Hrec & H). apply bind_quiet. exists (Some o). split; [by apply isPlainRecord_plain|].
    unfold data_field in H. destruct p as [|m|b].
    + destruct H as [Hf Hk]. rewrite Hk. apply bind_quiet. exists tt. split; [by apply unknownFields_quiet|done].
    + destruct H as (Hf & Hk & Hm & Hlo). rewrite Hk. apply bind_quiet. exists tt. split; [by apply unknownFields_quiet|].
      rewrite bool_decide_eq_false_2, bool_decide_eq_true_2 by done.
      apply bind_quiet. exists (Some m). split; [|done]. apply policy_integer_quiet. by exists m.
    + destruct H as (Hf & Hk & Hm & Hlo). rewrite Hk. apply bind_quiet. exists tt. split; [by apply unknownFields_quiet|].
      rewrite !bool_decide_eq_false_2, bool_decide_eq_true_2 by done.
      apply bind_quiet. exists (Some b). split; [|done]. apply policy_integer_quiet. exists b. tauto.
Qed.

(** ** The contract *)

(** Objects that [JSON.parse] builds, for the witness. *)
Definition sample_item (id status : string) (rest : list (jsstr * json)) : json :=
  JObj ([(js "id", JStr (js id)); (js "status", JStr (js status))] ++ rest).
Definition sample_barrier : heap * value :=
  value_of_json (JArr
    [JArr [sample_item "b" "succeeded" [(js "value", JNum (num_of_Z 1))]; sample_item "a" "timed_out" []];
     JObj [(js "kind", JStr (js "percentage")); (js "basisPoints", JNum (num_of_Z 5000))]]).
Definition sample_argument (i : nat) : value :=
  match sample_barrier.2 with
  | VObj l => match own_descriptor (deref sample_barrier.1 l) (string_of_nat i) with Some (Data v _) => v | _ => VNull end
  | _ => VNull
  end.



Lemma ids_with_length st items :
  Z.of_nat (length (ids_with st items)) = Z.of_nat (length (filter (λ i, item_status i = st) items)).
Proof. unfold ids_with. by rewrite length_fmap. Qed.

(** C14. The decision of the barrier.  The four id lists partition the items; the
    barrier is satisfied exactly when there are items and the policy's threshold is
    met (every item succeeded; at least the minimum; at least the percentage, by cross
    multiplication); the reason says which case applied; the products stay exact in
    double precision for every array a program can hold; and more successes never
    turn a satisfied barrier into an unsatisfied one. *)
Theorem barrier_decision items policy :
  (Z.of_nat (length items) < 2 ^ 32)%Z → (∀ b, policy = PercentagePolicy b → 1 ≤ b ≤ 10000)%Z →
  let r := barrier_result items policy in
  acceptedIds r ++ failedIds r ++ missingIds r ++ timedOutIds r ≡ₚ item_id <$> items ∧
  (total r = succeeded r + failed r + missing r + timedOut r)%Z ∧
  (satisfied r = true ↔ (0 < total r)%Z ∧
     match policy with
     | AllPolicy => Forall (λ i, item_status i = Succeeded) items
     | MinimumPolicy m => (m ≤ succeeded r)%Z
     | PercentagePolicy b => (total r * b ≤ succeeded r * 10000)%Z
     end) ∧
  (satisfied r = true ↔ reasonCode r = match policy with
     | AllPolicy => ALL_SUCCEEDED | MinimumPolicy _ => MINIMUM_MET | PercentagePolicy _ => PERCENTAGE_MET end) ∧
  (∀ b, policy = PercentagePolicy b →
     succeeded r * 10000 ≤ MAX_SAFE_INTEGER ∧ total r * b ≤ MAX_SAFE_INTEGER)%Z ∧
  (∀ items', length items' = length items →
     length (ids_with Succeeded items) ≤ length (ids_with Succeeded items') →
     satisfied r = true → satisfied (barrier_result items' policy) = true).
Proof.
  intros Hlen Hpol r. subst r. simpl.
  assert (length (ids_with Succeeded items) + length (ids_with Failed items) + length (ids_with Missing items) +
    length (ids_with TimedOut items) = length items) as Hsum.
  { unfold ids_with. rewrite !length_fmap. induction items as [|[id st] items IH]; [done|].
    rewrite !filter_cons. simpl in Hlen. specialize (IH ltac:(lia)). destruct st; simpl; lia. }
  assert (∀ l, length (ids_with Succeeded l) = length l ↔ Forall (λ i, item_status i = Succeeded) l) as Hall.
  { intros l. unfold ids_with. rewrite length_fmap. induction l as [|i l IH]; [done|].
    rewrite filter_cons, Forall_cons, <- IH.
    pose proof (length_filter (λ i, item_status i = Succeeded) l). case_decide; simpl.
    - split; [intros; split; [done|lia]|intros [_ ?]; lia].
    - split; [lia|by intros [? _]]. }
  split_and!.
  - clear. unfold ids_with. induction items as [|[id st] items IH]; [done|]. rewrite !filter_cons. simpl.
    destruct st; csimpl; rewrite <- IH; [done| | |].
    + by rewrite <- Permutation_middle.
    + by rewrite (app_assoc _ _ (id :: _)), <- Permutation_middle, <- app_assoc.
    + by rewrite !(app_assoc _ _ (id :: _)), <- Permutation_middle, <- !app_assoc.
  - lia.
  - unfold reason. destruct policy as [|m|b]; [rewrite <- Hall|..]; repeat case_match; simpl; bool_hyps;
      (split; [intros Ht; try discriminate Ht; lia|intros [? ?]; try reflexivity; exfalso; lia]).
  - unfold reason. destruct policy as [|m|b]; repeat case_match; simpl; done.
  - intros b ->. specialize (Hpol b eq_refl). unfold MAX_SAFE_INTEGER.
    change (2 ^ 32)%Z with 4294967296%Z in Hlen. split; [lia|]. transitivity (4294967296 * 10000)%Z; [nia|lia].
  - intros items' Hl Hle. assert (length (ids_with Succeeded items') ≤ length items') as Hmax
      by (unfold ids_with; rewrite length_fmap; apply length_filter).
    rewrite Hl in *. unfold reason.
    destruct policy as [|m|b]; repeat case_match; simpl; bool_hyps; intros Hs; try done; exfalso; lia.
Qed.

Lemma barrier_decision_witness :
  let items := [Build_ValidatedItem (js "a") Succeeded; Build_ValidatedItem (js "b") TimedOut] in
  satisfied (barrier_result items (PercentagePolicy 5000)) = true ∧
  (total (barrier_result items (PercentagePolicy 5000)) * 5000 ≤
    succeeded (barrier_result items (PercentagePolicy 5000)) * 10000)%Z.
Proof.
  intros items. split; [vm_compute; reflexivity|].
  apply (barrier_decision items (PercentagePolicy 5000)); [vm_compute; reflexivity| |vm_compute; reflexivity].
  intros b [= <-]. lia.
Defined.
