(* ===== verification/Router.v ===== *)
(** * Route selection (packages/primitives/src/router.ts)

    [evaluateRouteSelection] validates a request and a policy and selects routes in a
    fixed precedence: low confidence, empty request, count limits, unknown routes,
    canonical selection. *)
From S2P Require Import Prelude JsString JsNumber JsValue Canonical Primitives.

(** ** Data *)

Inductive PolicyKind := Single | Multi.
#[export] Instance PolicyKind_eq_dec : EqDecision PolicyKind.
Proof. solve_decision. Defined.

Record ConfidenceSnapshot := { minimumBasisPoints : Z; escalationRoute : jsstr }.

Record RequestSnapshot := {
  requestedRoutes : list jsstr;
  confidenceBasisPoints : option Z;
  request_confidencePresent : bool
}.

Record PolicySnapshot := {
  kind : PolicyKind;
  allowedRoutes : list jsstr;
  defaultRoute : option jsstr;
  confidence : option ConfidenceSnapshot;
  policy_confidencePresent : bool;
  maxMulticast : option Z
}.

Inductive RouteSelectionReasonCode :=
  | REQUESTED_ROUTES_SELECTED | DEFAULT_SELECTED_NO_REQUEST | DEFAULT_SELECTED_UNKNOWN_ROUTE
  | ESCALATION_SELECTED_LOW_CONFIDENCE | NO_REQUESTED_ROUTE | UNKNOWN_ROUTE
  | MULTIPLE_ROUTES_FOR_SINGLE | MULTICAST_LIMIT_EXCEEDED.

Record RouteSelectionResult := {
  routed : bool;
  reasonCode : RouteSelectionReasonCode;
  result_requestedRoutes : list jsstr;
  selectedRoutes : list jsstr;
  unknownRoutes : list jsstr;
  result_confidenceBasisPoints : option Z;
  usedDefault : bool;
  escalated : bool
}.

(** [/^[A-Za-z0-9][A-Za-z0-9._-]{0,127}$/] *)
Definition SAFE_ROUTE_ID (s : jsstr) : bool := matches_ident is_alnum is_ident_char 127 s.
Definition REQUEST_FIELDS : list jsstr := [js "requestedRoutes"; js "confidenceBasisPoints"].
Definition POLICY_FIELDS : list jsstr :=
  [js "kind"; js "allowedRoutes"; js "defaultRoute"; js "confidence"; js "maxMulticast"].
Definition CONFIDENCE_FIELDS : list jsstr := [js "minimumBasisPoints"; js "escalationRoute"].

(** ** Fields *)

Definition dataProperty (value : object) (name path : jsstr) (code : PrimitiveValidationIssueCode) : inspection property :=
  ownDataProperty value name path code (js "expected an enumerable data field").

(** [validRouteId(value)]: the route, if it is one *)
Definition validRouteId (v : value) : option jsstr :=
  match v with
  | VStr s => if SAFE_ROUTE_ID s && negb (bool_decide (s = js ".")) && negb (bool_decide (s = js "..")) then Some s else None
  | _ => None
  end.

(** A safe integer between two bounds. *)
Definition integer_within (v : value) (lo : Z) (hi : option Z) : option Z :=
  match v with
  | VNum n =>
      if num_safe_integer n && (lo <=? num_trunc n)%Z && match hi with Some hi => (num_trunc n <=? hi)%Z | None => true end
      then Some (num_trunc n) else None
  | _ => None
  end.

(** ** Route arrays *)

Record RouteArrayOptions := {
  duplicateCode : PrimitiveValidationIssueCode;
  requireNonEmpty : bool;
  emptyCode : PrimitiveValidationIssueCode;
  emptyMessage : jsstr
}.

(** One iteration of the loop over the index names. *)
Definition validate_route (array : object) (path : jsstr) (options : RouteArrayOptions) (name : jsstr)
    (st : list jsstr * list jsstr) : inspection (list jsstr * list jsstr) :=
  let '(routes, seen) := st in
  let itemPath := child path name in
  match own_descriptor array name with
  | Some (Data v true) =>
      match validRouteId v with
      | None => addIssue itemPath UNSAFE_ID (js "expected a safe route ID");; mret st
      | Some route =>
          if bool_decide (route ∈ seen) then
            addIssue itemPath (duplicateCode options)
              (if bool_decide (duplicateCode options = DUPLICATE_SELECTION)
               then js "duplicate requested route '" ++ route ++ js "'"
               else js "duplicate allowed route '" ++ route ++ js "'");;
            mret (routes ++ [route], seen)
          else mret (routes ++ [route], set_add route seen)
      end
  | _ => addIssue itemPath TYPE (js "expected an enumerable route ID entry");; mret st
  end.

Fixpoint validate_routes (array : object) (path : jsstr) (options : RouteArrayOptions) (names : list jsstr)
    (st : list jsstr * list jsstr) : inspection (list jsstr * list jsstr) :=
  match names with
  | [] => mret st
  | name :: names => st ← validate_route array path options name st; validate_routes array path options names st
  end.

Definition validateRouteArray (h : heap) (v : value) (path : jsstr) (options : RouteArrayOptions)
    : inspection (list jsstr) :=
  let not_array := addIssue path TYPE (js "expected a route ID array");; mret [] in
  match v with
  | VObj l =>
      let o := deref h l in
      if negb (o_array o) then not_array
      else
        touch o;;
        names ← split_names (λ name, addIssue (child path (pointerSegment name)) UNKNOWN_FIELD (js "unknown array field"))
                  (o_length o) (sorted_names o);
        let indexNames := sort_by compare_positions names in
        when (0 <? o_symbols o)%nat (addIssue path UNKNOWN_FIELD (js "symbol fields are not supported"));;
        let expectedIndex := consecutive 0 indexNames.*1 in
        when (negb (expectedIndex =? o_length o)%nat)
          (addIssue (child path (string_of_nat expectedIndex)) TYPE (js "sparse route arrays are not supported"));;
        when (requireNonEmpty options && (o_length o =? 0)%nat) (addIssue path (emptyCode options) (emptyMessage options));;
        st ← validate_routes o path options indexNames.*2 ([], []); mret st.1
  | _ => not_array
  end.

(** ** Requests *)

Definition request_routes : RouteArrayOptions := Build_RouteArrayOptions DUPLICATE_SELECTION false TYPE [].
Definition allowed_routes : RouteArrayOptions :=
  Build_RouteArrayOptions DUPLICATE_ID true INVALID_POLICY (js "allowedRoutes must not be empty").

Definition validateRequest (h : heap) (v : value) : inspection RequestSnapshot :=
  let path := js "#/request" in
  record ← isPlainRecord h v;
  match record with
  | None => addIssue path TYPE (js "expected a plain request object");; mret (Build_RequestSnapshot [] None false)
  | Some value =>
      unknownFields value REQUEST_FIELDS path;;
      let routesPath := child path (js "requestedRoutes") in
      routesProperty ← dataProperty value (js "requestedRoutes") routesPath TYPE;
      requestedRoutes ← match routesProperty with
        | Absent => addIssue routesPath REQUIRED (js "requestedRoutes is required");; mret []
        | Unreadable => mret []
        | Readable v => validateRouteArray h v routesPath request_routes
        end;
      let confidencePath := child path (js "confidenceBasisPoints") in
      confidenceProperty ← dataProperty value (js "confidenceBasisPoints") confidencePath INVALID_CONFIDENCE;
      match confidenceProperty with
      | Absent => mret (Build_RequestSnapshot requestedRoutes None false)
      | Unreadable => mret (Build_RequestSnapshot requestedRoutes None true)
      | Readable v =>
          match integer_within v 0 (Some 10000%Z) with
          | Some c => mret (Build_RequestSnapshot requestedRoutes (Some c) true)
          | None =>
              addIssue confidencePath INVALID_CONFIDENCE (js "confidenceBasisPoints must be a safe integer in [0, 10000]");;
              mret (Build_RequestSnapshot requestedRoutes None true)
          end
      end
  end.

(** ** Policies *)

(** The issues of an inspection and its result: whether it was quiet decides some of
    the flags below. *)
Definition observing {A} (m : inspection A) : inspection (A * bool) :=
  (m.1, (λ a, (a, bool_decide (m.1 = []))) <$> m.2).

Definition validateConfidencePolicy (h : heap) (v : value) (allowed : list jsstr) (allowedRoutesValid : bool)
    : inspection (option ConfidenceSnapshot) :=
  let path := js "#/policy/confidence" in
  record ← isPlainRecord h v;
  match record with
  | None => addIssue path INVALID_POLICY (js "expected a plain confidence policy object");; mret None
  | Some value =>
      unknownFields value CONFIDENCE_FIELDS path;;
      let minimumPath := child path (js "minimumBasisPoints") in
      minimumProperty ← dataProperty value (js "minimumBasisPoints") minimumPath INVALID_CONFIDENCE;
      minimum ← match minimumProperty with
        | Absent => addIssue minimumPath REQUIRED (js "minimumBasisPoints is required");; mret None
        | Unreadable => mret None
        | Readable v =>
            match integer_within v 1 (Some 10000%Z) with
            | Some m => mret (Some m)
            | None =>
                addIssue minimumPath INVALID_CONFIDENCE (js "minimumBasisPoints must be a safe integer in [1, 10000]");;
                mret None
            end
        end;
      let escalationPath := child path (js "escalationRoute") in
      escalationProperty ← dataProperty value (js "escalationRoute") escalationPath INVALID_POLICY;
      escalation ← match escalationProperty with
        | Absent => addIssue escalationPath REQUIRED (js "escalationRoute is required");; mret None
        | Unreadable => mret None
        | Readable v =>
            match validRouteId v with
            | None => addIssue escalationPath UNSAFE_ID (js "expected a safe route ID");; mret None
            | Some route =>
                when (allowedRoutesValid && negb (bool_decide (route ∈ allowed)))
                  (addIssue escalationPath INVALID_POLICY (js "escalationRoute must be declared in allowedRoutes"));;
                mret (Some route)
            end
        end;
      mret (match minimum, escalation with Some m, Some r => Some (Build_ConfidenceSnapshot m r) | _, _ => None end)
  end.

Definition validate_kind (value : object) : inspection (option PolicyKind) :=
  let path := js "#/policy/kind" in
  kindProperty ← dataProperty value (js "kind") path INVALID_POLICY;
  match kindProperty with
  | Absent => addIssue path REQUIRED (js "policy kind is required");; mret None
  | Unreadable => mret None
  | Readable (VStr s) =>
      if bool_decide (s = js "single") then mret (Some Single)
      else if bool_decide (s = js "multi") then mret (Some Multi)
      else addIssue path INVALID_POLICY (js "kind must be 'single' or 'multi'");; mret None
  | Readable _ => addIssue path INVALID_POLICY (js "kind must be 'single' or 'multi'");; mret None
  end.

(** The allowed routes, and whether they are valid. *)
Definition validate_allowed (h : heap) (value : object) : inspection (list jsstr * bool) :=
  let path := js "#/policy/allowedRoutes" in
  routesProperty ← dataProperty value (js "allowedRoutes") path TYPE;
  match routesProperty with
  | Absent => addIssue path REQUIRED (js "allowedRoutes is required");; mret ([], false)
  | Unreadable => mret ([], false)
  | Readable v => observing (validateRouteArray h v path allowed_routes)
  end.

Definition validate_default (value : object) (allowed : list jsstr) (allowedRoutesValid : bool) : inspection (option jsstr) :=
  let path := js "#/policy/defaultRoute" in
  defaultProperty ← dataProperty value (js "defaultRoute") path INVALID_POLICY;
  match defaultProperty with
  | Readable v =>
      match validRouteId v with
      | None => addIssue path UNSAFE_ID (js "expected a safe route ID");; mret None
      | Some route =>
          when (allowedRoutesValid && negb (bool_decide (route ∈ allowed)))
            (addIssue path INVALID_POLICY (js "defaultRoute must be declared in allowedRoutes"));;
          mret (Some route)
      end
  | _ => mret None
  end.

(** The confidence policy and whether one is present. *)
Definition validate_confidence (h : heap) (value : object) (allowed : list jsstr) (allowedRoutesValid : bool)
    : inspection (option ConfidenceSnapshot * bool) :=
  confidenceProperty ← dataProperty value (js "confidence") (js "#/policy/confidence") INVALID_POLICY;
  match confidenceProperty with
  | Absent => mret (None, false)
  | Unreadable => mret (None, true)
  | Readable v =>
      checked ← observing (A := option ConfidenceSnapshot) (validateConfidencePolicy h v allowed allowedRoutesValid);
      mret (if (checked.2 : bool) then checked.1 else None, true)
  end.

Definition validate_maximum (value : object) (kind : option PolicyKind) (allowed : list jsstr) (allowedRoutesValid : bool)
    : inspection (option Z) :=
  let path := js "#/policy/maxMulticast" in
  maxProperty ← dataProperty value (js "maxMulticast") path INVALID_POLICY;
  match kind with
  | Some Single =>
      match maxProperty with
      | Absent => mret None
      | _ => addIssue path INVALID_POLICY (js "single policies must not contain maxMulticast");; mret None
      end
  | Some Multi =>
      match maxProperty with
      | Absent => addIssue path REQUIRED (js "multi policies require maxMulticast");; mret None
      | Unreadable => mret None
      | Readable v =>
          match integer_within v 1 (if allowedRoutesValid then Some (Z.of_nat (length allowed)) else None) with
          | Some m => mret (Some m)
          | None =>
              addIssue path INVALID_POLICY (js "maxMulticast must be a safe integer in [1, allowedRoutes.length]");;
              mret None
          end
      end
  | None => mret None
  end.

Definition validatePolicy (h : heap) (v : value) : inspection PolicySnapshot :=
  let path := js "#/policy" in
  record ← isPlainRecord h v;
  match record with
  | None =>
      addIssue path TYPE (js "expected a plain policy object");;
      mret (Build_PolicySnapshot Single [] None None false None)
  | Some value =>
      unknownFields value POLICY_FIELDS path;;
      kind ← validate_kind value;
      '(allowed, allowedRoutesValid) ← validate_allowed h value;
      default_ ← validate_default value allowed allowedRoutesValid;
      '(confidence, present) ← validate_confidence h value allowed allowedRoutesValid;
      maximum ← validate_maximum value kind allowed allowedRoutesValid;
      mret (Build_PolicySnapshot (default Single kind) allowed default_ confidence present maximum)
  end.

(** ** Selection *)

Definition route_result (reasonCode : RouteSelectionReasonCode) (request : RequestSnapshot)
    (selectedRoutes unknownRoutes : list jsstr) (usedDefault escalated : bool) : RouteSelectionResult :=
  Build_RouteSelectionResult (0 <? length selectedRoutes)%nat reasonCode (requestedRoutes request)
    selectedRoutes unknownRoutes (confidenceBasisPoints request) usedDefault escalated.

(** The part of [evaluate] after validation. *)
Definition select_routes (request : RequestSnapshot) (policy : PolicySnapshot) : RouteSelectionResult :=
  let unknown := filter (.∉ allowedRoutes policy) (requestedRoutes request) in
  let requested := length (requestedRoutes request) in
  let low :=
    match confidence policy, confidenceBasisPoints request with
    | Some c, Some b => if (b <? minimumBasisPoints c)%Z then Some (escalationRoute c) else None
    | _, _ => None
    end in
  match low with
  | Some route => route_result ESCALATION_SELECTED_LOW_CONFIDENCE request [route] unknown false true
  | None =>
      if (requested =? 0)%nat then
        match defaultRoute policy with
        | None => route_result NO_REQUESTED_ROUTE request [] [] false false
        | Some d => route_result DEFAULT_SELECTED_NO_REQUEST request [d] [] true false
        end
      else if bool_decide (kind policy = Single) && (1 <? requested)%nat then
        route_result MULTIPLE_ROUTES_FOR_SINGLE request [] unknown false false
      else if bool_decide (kind policy = Multi) &&
              match maxMulticast policy with Some m => (m <? Z.of_nat requested)%Z | None => false end then
        route_result MULTICAST_LIMIT_EXCEEDED request [] unknown false false
      else if (0 <? length unknown)%nat then
        match defaultRoute policy with
        | None => route_result UNKNOWN_ROUTE request [] unknown false false
        | Some d => route_result DEFAULT_SELECTED_UNKNOWN_ROUTE request [d] unknown true false
        end
      else
        route_result REQUESTED_ROUTES_SELECTED request
          (filter (.∈ requestedRoutes request) (allowedRoutes policy)) [] false false
  end.

(** [evaluateRouteSelection(request, policy)] *)
Definition evaluateRouteSelection (h : heap) (requestValue policyValue : value)
    : result PrimitiveValidationError RouteSelectionResult :=
  let message := js "Route selection input is invalid" in
  let '(issues, outcome) :=
    (request ← validateRequest h requestValue;
     policy ← validatePolicy h policyValue;
     when (policy_confidencePresent policy && negb (request_confidencePresent request))
       (addIssue (js "#/request/confidenceBasisPoints") CONFIDENCE_CONFIGURATION
          (js "confidenceBasisPoints is required when policy confidence is configured"));;
     when (negb (policy_confidencePresent policy) && request_confidencePresent request)
       (addIssue (js "#/request/confidenceBasisPoints") CONFIDENCE_CONFIGURATION
          (js "confidenceBasisPoints requires policy confidence configuration"));;
     mret (request, policy)) in
  match outcome with
  | Some (request, policy) =>
      match issues with
      | [] => Ok (select_routes request policy)
      | _ => Err (Build_PrimitiveValidationError message issues)
      end
  | None =>
      Err (Build_PrimitiveValidationError message
        [Build_PrimitiveValidationIssue (js "#") TYPE (js "route selection input could not be inspected safely")])
  end.
