(* ===== verification/RouterSpec.v ===== *)
(** * What route selection promises

    [request_of] and [policy_of] describe the inputs that are accepted, without
    reference to the validator; validation accepts exactly those.  [justified] says
    which reason a request and a policy give, and [chosen] what is selected for it. *)
From S2P Require Import Prelude JsString JsNumber JsValue Canonical CanonicalSpec Primitives.
From S2P Require Import PrimitivesSpec Router.

(** ** Accepted inputs *)

Definition safe_route (s : jsstr) : Prop := SAFE_ROUTE_ID s = true ∧ s ≠ js "." ∧ s ≠ js "..".

(** A dense array of distinct safe routes. *)
Definition routes_array (h : heap) (v : value) (routes : list jsstr) : Prop :=
  ∃ l, v = VObj l ∧ array_of (deref h l) (VStr <$> routes) ∧ Forall safe_route routes ∧ NoDup routes.

Definition integer_field (o : object) (k : jsstr) (m : Z) : Prop :=
  ∃ n, data_field o k (VNum n) ∧ num_safe_integer n = true ∧ num_trunc n = m.

Definition request_of (h : heap) (v : value) (r : RequestSnapshot) : Prop :=
  ∃ o, plain_record h v o ∧ only_fields o REQUEST_FIELDS ∧
    (∃ w, data_field o (js "requestedRoutes") w ∧ routes_array h w (requestedRoutes r)) ∧
    match confidenceBasisPoints r with
    | None => own_descriptor o (js "confidenceBasisPoints") = None ∧ request_confidencePresent r = false
    | Some c =>
        integer_field o (js "confidenceBasisPoints") c ∧ (0 ≤ c ≤ 10000)%Z ∧ request_confidencePresent r = true
    end.

Definition confidence_of (h : heap) (v : value) (allowed : list jsstr) (c : ConfidenceSnapshot) : Prop :=
  ∃ o, plain_record h v o ∧ only_fields o CONFIDENCE_FIELDS ∧
    integer_field o (js "minimumBasisPoints") (minimumBasisPoints c) ∧ (1 ≤ minimumBasisPoints c ≤ 10000)%Z ∧
    data_field o (js "escalationRoute") (VStr (escalationRoute c)) ∧ safe_route (escalationRoute c) ∧
    escalationRoute c ∈ allowed.

Definition kind_name (k : PolicyKind) : jsstr := match k with Single => js "single" | Multi => js "multi" end.

Definition policy_of (h : heap) (v : value) (p : PolicySnapshot) : Prop :=
  ∃ o, plain_record h v o ∧ only_fields o POLICY_FIELDS ∧
    data_field o (js "kind") (VStr (kind_name (kind p))) ∧
    (∃ w, data_field o (js "allowedRoutes") w ∧ routes_array h w (allowedRoutes p)) ∧ allowedRoutes p ≠ [] ∧
    match defaultRoute p with
    | None => own_descriptor o (js "defaultRoute") = None
    | Some d => data_field o (js "defaultRoute") (VStr d) ∧ safe_route d ∧ d ∈ allowedRoutes p
    end ∧
    match confidence p with
    | None => own_descriptor o (js "confidence") = None ∧ policy_confidencePresent p = false
    | Some c =>
        policy_confidencePresent p = true ∧
        ∃ w, data_field o (js "confidence") w ∧ confidence_of h w (allowedRoutes p) c
    end ∧
    match kind p, maxMulticast p with
    | Single, None => own_descriptor o (js "maxMulticast") = None
    | Multi, Some m => integer_field o (js "maxMulticast") m ∧ (1 ≤ m ≤ Z.of_nat (length (allowedRoutes p)))%Z
    | _, _ => False
    end.

(** ** The validators *)

Lemma validRouteId_Some v s : validRouteId v = Some s ↔ v = VStr s ∧ safe_route s.
Proof.
  unfold validRouteId, safe_route.
  destruct v as [| | | |t| | | |]; try (by split; [|intros [? _]]). split.
  - destruct (SAFE_ROUTE_ID t) eqn:E; [|done]. repeat case_bool_decide; simpl; try done. by intros [= <-].
  - intros ([= <-] & -> & H1 & H2). by rewrite !bool_decide_eq_false_2.
Qed.

Lemma integer_within_Some v lo hi m :
  integer_within v lo hi = Some m ↔
  ∃ n, v = VNum n ∧ num_safe_integer n = true ∧ num_trunc n = m ∧ (lo ≤ m)%Z ∧
    match hi with Some hi => (m ≤ hi)%Z | None => True end.
Proof.
  unfold integer_within. destruct v as [| | |n| | | | |]; try naive_solver. split.
  - destruct (_ && _) eqn:E; [|done]. intros [= <-]. bool_hyps. exists n. split_and!; [done|done|done|lia|].
    destruct hi; bool_hyps; [lia|done].
  - intros (n' & [= <-] & -> & <- & Hlo & Hhi). rewrite (proj2 (Z.leb_le _ _)) by done. simpl.
    destruct hi as [hi|]; [by rewrite (proj2 (Z.leb_le _ _))|done].
Qed.

Lemma readable_quiet o k path code r :
  quiet (dataProperty o k path code) r ↔
  (own_descriptor o k = None ∧ r = Absent) ∨ ∃ v, data_field o k v ∧ r = Readable v.
Proof. apply ownDataProperty_quiet. Qed.

Section routes.
Context (h : heap) (Hwf : heap_wf h) (Hord : ordinary h).

Lemma validate_route_quiet o path options name st st' :
  quiet (validate_route o path options name st) st' ↔
  ∃ s, data_field o name (VStr s) ∧ safe_route s ∧ s ∉ st.2 ∧ st' = (st.1 ++ [s], st.2 ++ [s]).
Proof.
  destruct st as [routes seen]. unfold validate_route, data_field. split.
  - destruct (own_descriptor o name) as [[v []|]|]; intros H; try by apply bind_quiet in H as (? & ? & _).
    destruct (validRouteId v) as [s|] eqn:E; [|by apply bind_quiet in H as (? & ? & _)].
    apply validRouteId_Some in E as [-> Hs]. case_bool_decide; [by apply bind_quiet in H as (? & ? & _)|].
    apply ret_quiet in H as <-. exists s. unfold set_add. by rewrite decide_False.
  - intros (s & -> & Hs & Hnew & ->). rewrite (proj2 (validRouteId_Some _ s) (conj eq_refl Hs)).
    rewrite bool_decide_eq_false_2 by done. unfold set_add. by rewrite decide_False.
Qed.

#[local] Arguments validate_route : simpl never.

Lemma validate_routes_quiet o path options names st st' :
  NoDup st.2 →
  quiet (validate_routes o path options names st) st' ↔
  ∃ routes, Forall2 (data_field o) names (VStr <$> routes) ∧ Forall safe_route routes ∧ NoDup (st.2 ++ routes) ∧
    st' = (st.1 ++ routes, st.2 ++ routes).
Proof.
  revert st. induction names as [|name names IH]; intros [routes seen] Hnd; simpl.
  - rewrite ret_quiet. split.
    + intros <-. exists []. simpl. rewrite !app_nil_r. by repeat constructor.
    + intros (rs & Hrs%Forall2_nil_inv_l & _ & _ & ->). apply fmap_nil_inv in Hrs as ->. simpl. by rewrite !app_nil_r.
  - rewrite bind_quiet. setoid_rewrite validate_route_quiet. simpl in *. split.
    + intros (st & (s & Hd & Hs & Hnew & ->) & H). apply IH in H; simpl.
      2: { apply NoDup_app. split_and!; [done| |apply NoDup_singleton]. set_solver. }
      destruct H as (rs & Hrs & Hsafe & Hnd' & ->). simpl in *. exists (s :: rs). rewrite <- !app_assoc in *. simpl in *.
      split_and!; [by constructor|by constructor|done|done].
    + intros (rs & Hrs & Hsafe & Hnd' & ->). destruct rs as [|s rs]; [by apply Forall2_cons_nil_inv in Hrs|].
      csimpl in Hrs. apply Forall2_cons in Hrs as [Hd Hrs]. apply Forall_cons in Hsafe as [Hs Hsafe].
      exists (routes ++ [s], seen ++ [s]). split.
      * exists s. split_and!; [done|done| |done]. apply NoDup_app in Hnd' as (_ & Hdis & _).
        intros Hin. apply (Hdis _ Hin). left.
      * apply IH; simpl.
        -- change (NoDup (seen ++ [s] ++ rs)) in Hnd'. rewrite app_assoc, NoDup_app in Hnd'. tauto.
        -- exists rs. rewrite <- !app_assoc. by split_and!.
Qed.

(** The validator of a route array. *)
Lemma validateRouteArray_quiet v path options routes :
  quiet (validateRouteArray h v path options) routes ↔
  routes_array h v routes ∧ (requireNonEmpty options = true → routes ≠ []).
Proof.
  unfold validateRouteArray, routes_array.
  destruct v as [| | | | | | | |l];
    try (split; [by intros (? & ? & _)%bind_quiet|by intros [(? & ? & _) _]]).
  destruct (ordinary_deref h l Hord) as (Hproxy & Hthrows & Hproto).
  pose proof (deref_wf h l Hwf) as Ho. set (o := deref h l) in *. destruct (o_array o) eqn:Ha; simpl.
  2: { split; [by intros (? & ? & _)%bind_quiet|]. intros [(l' & [= <-] & (_ & Ha' & _) & _) _]. fold o in Ha'. congruence. }
  set (Q := λ entries : list (nat * jsstr), Forall2 (data_field o) entries.*2 (VStr <$> routes) ∧
    Forall safe_route routes ∧ NoDup routes).
  transitivity (o_symbols o = 0 ∧ (requireNonEmpty options = true → o_length o ≠ 0) ∧
    ∃ ps, quiet (split_names (λ name, addIssue (child path (pointerSegment name)) UNKNOWN_FIELD (js "unknown array field"))
      (o_length o) (sorted_names o)) ps ∧
      consecutive 0 (sort_by compare_positions ps).*1 = o_length o ∧ Q (sort_by compare_positions ps)).
  - rewrite bind_quiet. setoid_rewrite touch_quiet. split.
    + intros (_ & _ & H). apply bind_quiet in H as (ps & Hps & H).
      apply bind_quiet in H as (? & Hsym%when_quiet & H). apply bind_quiet in H as (? & Hlen%when_quiet & H).
      apply bind_quiet in H as (? & Hne%when_quiet & H).
      apply bind_quiet in H as (st & Hst & H). apply ret_quiet in H as <-. bool_hyps. split; [lia|]. split.
      { intros Hr Hz. by rewrite Hr, Hz in Hne. }
      exists ps. split; [done|]. split; [done|].
      apply validate_routes_quiet in Hst as (rs & Hrs & Hsafe & Hnd & ->); [|constructor]. done.
    + intros (Hsym & Hne & ps & Hps & Hlen & Hrs & Hsafe & Hnd). exists tt. split; [done|].
      apply bind_quiet. exists ps. split; [done|]. rewrite Hsym, Hlen, Nat.eqb_refl. simpl.
      apply bind_quiet. exists tt. split; [done|]. apply bind_quiet. exists tt. split; [done|].
      apply bind_quiet. exists tt. split.
      { apply when_quiet. destruct (requireNonEmpty options); [|done]. apply Nat.eqb_neq. by apply Hne. }
      apply bind_quiet. exists (routes, routes). split; [|done].
      apply validate_routes_quiet; [constructor|]. by exists routes.
  - rewrite (scan_array o _ Q Ho Ha) by done. unfold Q, dense_entries. rewrite <- list_fmap_compose.
    assert (Forall2 (data_field o) (string_of_nat <$> seq 0 (o_length o)) (VStr <$> routes) →
      o_length o = length routes) as Hlen.
    { intros H%Forall2_length. by rewrite !length_fmap, length_seq in H. }
    split.
    + intros (Hsym & Hne & Hperm & Hrs & Hsafe & Hnd). specialize (Hlen Hrs). split.
      2: { intros Hr ->. by apply Hne. }
      exists l. split; [done|]. split; [|done]. unfold array_of. fold o.
      split_and!; try done; [by apply Hproto|by rewrite length_fmap|].
      rewrite length_fmap, <- Hlen. apply zip_Permutation; [apply Ho|done|]. apply Forall2_fmap_r.
      eapply Forall2_impl; [exact Hrs|].
      intros k v Hk. simpl. unfold data_field in Hk. rewrite own_descriptor_props in Hk; [done|]. right. intros ->.
      unfold own_descriptor in Hk. by rewrite Ha, bool_decide_eq_true_2 in Hk.
    + intros [(l' & [= <-] & Harr & Hsafe & Hnd) Hne]. pose proof (array_of_entries h l _ Hwf Harr) as He.
      fold o in Harr, He. pose proof Harr as (_ & _ & _ & Hsym & Hl & Hp). rewrite length_fmap in *.
      split; [done|]. split; [intros Hr Hz; apply (Hne Hr), length_zero_iff_nil; lia|]. split.
      * rewrite Hp, fst_zip, Hl; [done|]. by rewrite !length_fmap, length_seq.
      * split; [|done]. rewrite Hl. eapply Forall2_impl; [exact He|]. intros k v Hk. unfold data_field.
        rewrite own_descriptor_props; [done|]. right. intros ->. destruct Ho as (_ & _ & Hlen'). apply (Hlen' Ha).
        by eapply map_get_Some_key.
Qed.
End routes.

(** An issue is never quiet. *)
Ltac quiet_absurd :=
  match goal with
  | H : quiet (addIssue _ _ _ ≫= _) _ |- _ => exfalso; by apply bind_quiet in H as (? & ? & _)
  end.

Section validators.
Context (h : heap) (Hwf : heap_wf h) (Hord : ordinary h).

Lemma validateRequest_quiet v r : quiet (validateRequest h v) r ↔ request_of h v r.
Proof.
  unfold validateRequest, request_of. split.
  - intros (rec & Hrec%isPlainRecord_quiet & H)%bind_quiet. destruct rec as [o|]; [|quiet_absurd].
    exists o. split; [done|]. apply bind_quiet in H as (u & Hf%unknownFields_quiet & H). split; [done|].
    apply bind_quiet in H as (p & Hp%readable_quiet & H). apply bind_quiet in H as (routes & Hroutes & H).
    destruct Hp as [[_ ->]|(w & Hw & ->)]; [quiet_absurd|].
    apply validateRouteArray_quiet in Hroutes as [Hroutes _]; [|done|done].
    apply bind_quiet in H as (p & [[Hn ->]|(c & Hc & ->)]%readable_quiet & H).
    + apply ret_quiet in H as <-. simpl. split; [by exists w|done].
    + destruct (integer_within c 0 (Some 10000%Z)) as [m|] eqn:E; [|quiet_absurd].
      apply ret_quiet in H as <-. simpl. split; [by exists w|].
      apply integer_within_Some in E as (n & -> & Hs & Ht & Hlo & Hhi). split_and!; try done. by exists n.
  - intros (o & Hrec & Hf & (w & Hw & Hroutes) & Hconf).
    apply bind_quiet. exists (Some o). split; [by apply isPlainRecord_plain|].
    apply bind_quiet. exists tt. split; [by apply unknownFields_quiet|].
    apply bind_quiet. exists (Readable w). split; [apply readable_quiet; right; by exists w|].
    apply bind_quiet. exists (requestedRoutes r). split; [by apply validateRouteArray_quiet|].
    apply bind_quiet. destruct r as [routes [c|] present]; simpl in *.
    + destruct Hconf as ((n & Hn & Hs & <-) & Hb & ->). exists (Readable (VNum n)).
      split; [apply readable_quiet; right; by exists (VNum n)|].
      rewrite (proj2 (integer_within_Some (VNum n) 0 (Some 10000%Z) (num_trunc n))); [done|]. exists n. tauto.
    + destruct Hconf as [Hn ->]. exists Absent. split; [apply readable_quiet; by left|done].
Qed.

Lemma validateConfidencePolicy_quiet v allowed c :
  quiet (validateConfidencePolicy h v allowed true) c ↔ ∃ s, c = Some s ∧ confidence_of h v allowed s.
Proof.
  unfold validateConfidencePolicy, confidence_of. split.
  - intros (rec & Hrec%isPlainRecord_quiet & H)%bind_quiet. destruct rec as [o|]; [|quiet_absurd].
    apply bind_quiet in H as (u & Hf%unknownFields_quiet & H).
    apply bind_quiet in H as (p & Hp%readable_quiet & H). apply bind_quiet in H as (minimum & Hm & H).
    destruct Hp as [[_ ->]|(w & Hw & ->)]; [quiet_absurd|].
    destruct (integer_within w 1 (Some 10000%Z)) as [m|] eqn:E; [|quiet_absurd]. apply ret_quiet in Hm as <-.
    apply integer_within_Some in E as (n & -> & Hs & Ht & Hlo & Hhi).
    apply bind_quiet in H as (p & Hp%readable_quiet & H). apply bind_quiet in H as (escalation & He & H).
    destruct Hp as [[_ ->]|(w' & Hw' & ->)]; [quiet_absurd|].
    destruct (validRouteId w') as [route|] eqn:E; [|quiet_absurd]. apply validRouteId_Some in E as [-> Hsafe].
    apply bind_quiet in He as (u' & Hin%when_quiet & He). apply ret_quiet in He as <-. apply ret_quiet in H as <-.
    exists (Build_ConfidenceSnapshot m route). split; [done|]. exists o. simpl in *.
    apply negb_false_iff, bool_decide_eq_true_1 in Hin. split_and!; try done. by exists n.
  - intros (s & -> & o & Hrec & Hf & (n & Hn & Hs & Ht) & Hb & He & Hsafe & Hin).
    apply bind_quiet. exists (Some o). split; [by apply isPlainRecord_plain|].
    apply bind_quiet. exists tt. split; [by apply unknownFields_quiet|].
    apply bind_quiet. exists (Readable (VNum n)). split; [apply readable_quiet; right; by exists (VNum n)|].
    apply bind_quiet. exists (Some (minimumBasisPoints s)). split.
    { rewrite (proj2 (integer_within_Some (VNum n) 1 (Some 10000%Z) (minimumBasisPoints s))); [done|]. exists n. tauto. }
    apply bind_quiet. exists (Readable (VStr (escalationRoute s))). split; [apply readable_quiet; right; by eexists|].
    apply bind_quiet. exists (Some (escalationRoute s)). split.
    { rewrite (proj2 (validRouteId_Some _ (escalationRoute s)) (conj eq_refl Hsafe)). by rewrite bool_decide_eq_true_2. }
    by destruct s.
Qed.

Lemma observing_quiet {A} (m : inspection A) r : quiet (observing m) r ↔ quiet m r.1 ∧ r.2 = true.
Proof.
  unfold observing. destruct r as [a b], m as [[|i issues] [x|]]; simpl; split; try done; naive_solver.
Qed.

Lemma validate_kind_quiet o r :
  quiet (validate_kind o) r ↔ ∃ k, r = Some k ∧ data_field o (js "kind") (VStr (kind_name k)).
Proof.
  unfold validate_kind. split.
  - intros (p & [[Hn ->]|(w & Hw & ->)]%readable_quiet & H)%bind_quiet; [quiet_absurd|].
    destruct w as [| | | |s| | | |]; try quiet_absurd.
    case_bool_decide as H1; [subst s; apply ret_quiet in H as <-; by exists Single|].
    case_bool_decide as H2; [subst s; apply ret_quiet in H as <-; by exists Multi|quiet_absurd].
  - intros (k & -> & Hd). apply bind_quiet. exists (Readable (VStr (kind_name k))).
    split; [apply readable_quiet; right; by eexists|]. by destruct k.
Qed.

Lemma validate_allowed_quiet o r :
  quiet (validate_allowed h o) r ↔
  r.2 = true ∧ r.1 ≠ [] ∧ ∃ w, data_field o (js "allowedRoutes") w ∧ routes_array h w r.1.
Proof.
  unfold validate_allowed. split.
  - intros (p & [[Hn ->]|(w & Hw & ->)]%readable_quiet & H)%bind_quiet; [quiet_absurd|].
    apply observing_quiet in H as [H Hv]. apply validateRouteArray_quiet in H as [H Hne]; [|done|done].
    split; [done|]. split; [by apply Hne|by exists w].
  - intros (Hv & Hne & w & Hw & Hr). apply bind_quiet. exists (Readable w).
    split; [apply readable_quiet; right; by exists w|]. apply observing_quiet. split; [|done].
    by apply validateRouteArray_quiet.
Qed.

Lemma validate_default_quiet o allowed r :
  quiet (validate_default o allowed true) r ↔
  match r with
  | None => own_descriptor o (js "defaultRoute") = None
  | Some d => data_field o (js "defaultRoute") (VStr d) ∧ safe_route d ∧ d ∈ allowed
  end.
Proof.
  unfold validate_default. split.
  - intros (p & [[Hn ->]|(w & Hw & ->)]%readable_quiet & H)%bind_quiet; [by apply ret_quiet in H as <-|].
    destruct (validRouteId w) as [d|] eqn:E; [|quiet_absurd]. apply validRouteId_Some in E as [-> Hs].
    apply bind_quiet in H as (u & Hin%when_quiet & H). apply ret_quiet in H as <-.
    by apply negb_false_iff, bool_decide_eq_true_1 in Hin.
  - intros H. apply bind_quiet. destruct r as [d|].
    + destruct H as (Hd & Hs & Hin). exists (Readable (VStr d)). split; [apply readable_quiet; right; by eexists|].
      rewrite (proj2 (validRouteId_Some _ d) (conj eq_refl Hs)). by rewrite bool_decide_eq_true_2.
    + exists Absent. split; [apply readable_quiet; by left|done].
Qed.

Lemma validate_confidence_quiet o allowed r :
  quiet (validate_confidence h o allowed true) r ↔
  match r.1 with
  | None => own_descriptor o (js "confidence") = None ∧ r.2 = false
  | Some c => r.2 = true ∧ ∃ w, data_field o (js "confidence") w ∧ confidence_of h w allowed c
  end.
Proof.
  unfold validate_confidence. split.
  - intros (p & [[Hn ->]|(w & Hw & ->)]%readable_quiet & H)%bind_quiet; [by apply ret_quiet in H as <-|].
    apply bind_quiet in H as (chk & [Hc Hv]%observing_quiet & H). apply ret_quiet in H as <-. rewrite Hv. simpl.
    apply validateConfidencePolicy_quiet in Hc as (s & -> & Hs). split; [done|]. by exists w.
  - intros H. apply bind_quiet. destruct r as [[c|] b]; simpl in *.
    + destruct H as (-> & w & Hw & Hc). exists (Readable w). split; [apply readable_quiet; right; by exists w|].
      apply bind_quiet. exists (Some c, true). split; [|done]. apply observing_quiet. split; [|done].
      apply validateConfidencePolicy_quiet. by exists c.
    + destruct H as [Hn ->]. exists Absent. split; [apply readable_quiet; by left|done].
Qed.

Lemma validate_maximum_quiet o k allowed r :
  quiet (validate_maximum o (Some k) allowed true) r ↔
  match k, r with
  | Single, None => own_descriptor o (js "maxMulticast") = None
  | Multi, Some m => integer_field o (js "maxMulticast") m ∧ (1 ≤ m ≤ Z.of_nat (length allowed))%Z
  | _, _ => False
  end.
Proof.
  unfold validate_maximum. split.
  - intros (p & Hp%readable_quiet & H)%bind_quiet. destruct k, Hp as [[Hn ->]|(w & Hw & ->)]; try quiet_absurd.
    + by apply ret_quiet in H as <-.
    + destruct (integer_within w 1 _) as [m|] eqn:E; [|quiet_absurd]. apply ret_quiet in H as <-.
      apply integer_within_Some in E as (n & -> & Hs & Ht & Hlo & Hhi). split; [by exists n|done].
  - intros H. apply bind_quiet. destruct k, r as [m|]; try done.
    + exists Absent. split; [apply readable_quiet; by left|done].
    + destruct H as [(n & Hn & Hs & Ht) Hb]. exists (Readable (VNum n)).
      split; [apply readable_quiet; right; by exists (VNum n)|].
      rewrite (proj2 (integer_within_Some (VNum n) 1 (Some (Z.of_nat (length allowed))) m)); [done|]. exists n. tauto.
Qed.
End validators.

Lemma router_policy_quiet h v p :
  heap_wf h → ordinary h → quiet (validatePolicy h v) p ↔ policy_of h v p.
Proof.
  intros Hwf Hord. unfold validatePolicy, policy_of. split.
  - intros (rec & Hrec%isPlainRecord_quiet & H)%bind_quiet. destruct rec as [o|]; [|quiet_absurd].
    exists o. split; [done|]. apply bind_quiet in H as (u & Hf%unknownFields_quiet & H). split; [done|].
    apply bind_quiet in H as (k & (kd & -> & Hk)%validate_kind_quiet & H).
    apply bind_quiet in H as ([allowed ok] & (Hok & Hne & Ha)%(validate_allowed_quiet h Hwf Hord) & H).
    simpl in Hok, Hne, Ha. subst ok. apply bind_quiet in H as (d & Hd%validate_default_quiet & H).
    apply bind_quiet in H as ([c present] & Hc%validate_confidence_quiet & H).
    apply bind_quiet in H as (m & Hm%validate_maximum_quiet & H). apply ret_quiet in H as <-. simpl in *.
    by split_and!.
  - intros (o & Hrec & Hf & Hk & Ha & Hne & Hd & Hc & Hm).
    apply bind_quiet. exists (Some o). split; [by apply isPlainRecord_plain|].
    apply bind_quiet. exists tt. split; [by apply unknownFields_quiet|].
    apply bind_quiet. exists (Some (kind p)). split; [apply validate_kind_quiet; by exists (kind p)|].
    apply bind_quiet. exists (allowedRoutes p, true). split; [by apply validate_allowed_quiet|].
    apply bind_quiet. exists (defaultRoute p). split; [by apply validate_default_quiet|].
    apply bind_quiet. exists (confidence p, policy_confidencePresent p).
    split; [apply validate_confidence_quiet; simpl; destruct (confidence p); tauto|].
    apply bind_quiet. exists (maxMulticast p). split; [by apply validate_maximum_quiet|]. by destruct p.
Qed.

(** ** The contract *)

Definition sample_route_input : heap * value :=
  value_of_json (JArr
    [JObj [(js "requestedRoutes", JArr [JStr (js "b"); JStr (js "a")])];
     JObj [(js "kind", JStr (js "multi")); (js "allowedRoutes", JArr [JStr (js "a"); JStr (js "b"); JStr (js "c")]);
           (js "maxMulticast", JNum (num_of_Z 2))]]).
Definition sample_route_argument (i : nat) : value :=
  match sample_route_input.2 with
  | VObj l => match own_descriptor (deref sample_route_input.1 l) (string_of_nat i) with Some (Data v _) => v | _ => VNull end
  | _ => VNull
  end.



(** What a policy guarantees. *)
Lemma policy_facts h v p :
  policy_of h v p →
  NoDup (allowedRoutes p) ∧ (∀ d, defaultRoute p = Some d → d ∈ allowedRoutes p) ∧
  (∀ c, confidence p = Some c → escalationRoute c ∈ allowedRoutes p) ∧
  (∀ m, maxMulticast p = Some m → 1 ≤ m ∧ kind p = Multi)%Z ∧ (kind p = Multi → is_Some (maxMulticast p)).
Proof.
  intros (o & _ & _ & _ & (w & _ & la & _ & _ & _ & Hnd) & Hne & Hdefault & Hconf & Hmax). split_and!.
  - done.
  - intros d E. rewrite E in Hdefault. tauto.
  - intros c E. rewrite E in Hconf. destruct Hconf as (_ & w2 & _ & o2 & Hrest). tauto.
  - intros m E. rewrite E in Hmax. destruct (kind p); [done|]. destruct Hmax as [_ ?]. split; [lia|done].
  - intros E. rewrite E in Hmax. by destruct (maxMulticast p).
Qed.

Lemma routed_iff (l : list jsstr) : (0 <? length l)%nat = true ↔ l ≠ [].
Proof. by destruct l. Qed.

(** When nothing requested is unknown, the plain selection is the request. *)
Lemma plain_selection (requested allowed : list jsstr) :
  NoDup requested → NoDup allowed → filter (.∉ allowed) requested = [] →
  filter (.∈ requested) allowed ≡ₚ requested.
Proof.
  intros Hr Ha Hnil. apply NoDup_Permutation; [by apply NoDup_filter|done|]. intros s. rewrite list_elem_of_filter.
  split; [tauto|]. intros Hs. split; [done|]. destruct (decide (s ∈ allowed)) as [|Hn]; [done|].
  assert (s ∈ filter (.∉ allowed) requested) as Hin by (by apply list_elem_of_filter).
  rewrite Hnil in Hin. by apply not_elem_of_nil in Hin.
Qed.

(** *** Which reason, and what it selects *)

Section reasons.
Context (request : RequestSnapshot) (policy : PolicySnapshot).

Definition low_confidence : Prop :=
  ∃ c b, confidence policy = Some c ∧ confidenceBasisPoints request = Some b ∧ (b < minimumBasisPoints c)%Z.
Definition all_allowed : Prop := Forall (.∈ allowedRoutes policy) (requestedRoutes request).
(** The number of requested routes is one that the policy admits. *)
Definition within_count : Prop :=
  (kind policy = Single → length (requestedRoutes request) ≤ 1) ∧
  (∀ m, kind policy = Multi → maxMulticast policy = Some m → (Z.of_nat (length (requestedRoutes request)) ≤ m)%Z).

(** When a selection has this reason *)
Definition justified (code : RouteSelectionReasonCode) : Prop :=
  match code with
  | ESCALATION_SELECTED_LOW_CONFIDENCE => low_confidence
  | NO_REQUESTED_ROUTE => ¬ low_confidence ∧ requestedRoutes request = [] ∧ defaultRoute policy = None
  | DEFAULT_SELECTED_NO_REQUEST => ¬ low_confidence ∧ requestedRoutes request = [] ∧ defaultRoute policy ≠ None
  | MULTIPLE_ROUTES_FOR_SINGLE => ¬ low_confidence ∧ kind policy = Single ∧ 1 < length (requestedRoutes request)
  | MULTICAST_LIMIT_EXCEEDED =>
      ¬ low_confidence ∧ kind policy = Multi ∧ requestedRoutes request ≠ [] ∧
      ∃ m, maxMulticast policy = Some m ∧ (m < Z.of_nat (length (requestedRoutes request)))%Z
  | UNKNOWN_ROUTE => ¬ low_confidence ∧ within_count ∧ ¬ all_allowed ∧ defaultRoute policy = None
  | DEFAULT_SELECTED_UNKNOWN_ROUTE => ¬ low_confidence ∧ within_count ∧ ¬ all_allowed ∧ defaultRoute policy ≠ None
  | REQUESTED_ROUTES_SELECTED => ¬ low_confidence ∧ requestedRoutes request ≠ [] ∧ within_count ∧ all_allowed
  end.

(** What is selected for this reason *)
Definition chosen (code : RouteSelectionReasonCode) (selected : list jsstr) : Prop :=
  match code with
  | ESCALATION_SELECTED_LOW_CONFIDENCE => ∃ c, confidence policy = Some c ∧ selected = [escalationRoute c]
  | DEFAULT_SELECTED_NO_REQUEST | DEFAULT_SELECTED_UNKNOWN_ROUTE =>
      ∃ d, defaultRoute policy = Some d ∧ selected = [d]
  | REQUESTED_ROUTES_SELECTED =>
      selected ≡ₚ requestedRoutes request ∧ selected `sublist_of` allowedRoutes policy
  | NO_REQUESTED_ROUTE | UNKNOWN_ROUTE | MULTIPLE_ROUTES_FOR_SINGLE | MULTICAST_LIMIT_EXCEEDED => selected = []
  end.

Lemma allowed_nil : requestedRoutes request = [] → all_allowed.
Proof. unfold all_allowed. by intros ->. Qed.

(** A request and a policy justify one reason. *)
Lemma justified_unique code code' : justified code → justified code' → code = code'.
Proof.
  pose proof allowed_nil. assert (requestedRoutes request = [] → length (requestedRoutes request) = 0) by (by intros ->).
  destruct code, code'; try done; cbn [justified]; unfold within_count; intros; exfalso; destruct_and?; try tauto;
    repeat match goal with
    | H : ∃ _, _ |- _ => destruct H
    | H : _ ∧ _ |- _ => destruct H
    | H : kind policy = Single → _, E : kind policy = Single |- _ => specialize (H E)
    | H : ∀ m, kind policy = Multi → maxMulticast policy = Some m → _, E : kind policy = Multi, M : maxMulticast policy = Some _ |- _ =>
        specialize (H _ E M)
    end; try lia; try congruence; intuition lia.
Qed.

Lemma all_allowed_filter : all_allowed ↔ filter (.∉ allowedRoutes policy) (requestedRoutes request) = [].
Proof.
  unfold all_allowed. induction (requestedRoutes request) as [|s l IH]; [done|]. rewrite Forall_cons, filter_cons.
  destruct (decide (s ∈ allowedRoutes policy)) as [Hs|Hs].
  - rewrite decide_False by tauto. rewrite IH. tauto.
  - rewrite decide_True by done. split; [tauto|done].
Qed.
End reasons.

#[local] Instance reason_eq_dec : EqDecision RouteSelectionReasonCode.
Proof. solve_decision. Defined.

(** The selection of a justified reason keeps to the policy. *)
Lemma selection_ok h v request p r :
  policy_of h v p → NoDup (requestedRoutes request) → justified request p (reasonCode r) →
  chosen request p (reasonCode r) (selectedRoutes r) → routed r = (0 <? length (selectedRoutes r))%nat →
  NoDup (selectedRoutes r) ∧ (∀ s, s ∈ selectedRoutes r → s ∈ allowedRoutes p) ∧
  (kind p = Single → length (selectedRoutes r) ≤ 1) ∧
  (∀ m, maxMulticast p = Some m → Z.of_nat (length (selectedRoutes r)) ≤ m)%Z ∧
  (routed r = true ↔ selectedRoutes r ≠ []).
Proof.
  intros Hp Hnd Hj Hch Hr. destruct (policy_facts h v p Hp) as (_ & Hd & Hc & Hm & _). rewrite Hr.
  enough (NoDup (selectedRoutes r) ∧ (∀ s, s ∈ selectedRoutes r → s ∈ allowedRoutes p) ∧
    (kind p = Single → length (selectedRoutes r) ≤ 1) ∧
    (∀ m, maxMulticast p = Some m → Z.of_nat (length (selectedRoutes r)) ≤ m)%Z)
    by (pose proof (routed_iff (selectedRoutes r)); tauto).
  destruct (decide (reasonCode r = REQUESTED_ROUTES_SELECTED)) as [E|E].
  - rewrite E in Hj, Hch. destruct Hj as (_ & _ & [Hs Hmax] & _), Hch as [Hperm Hsub]. split_and!; [by rewrite Hperm| |by rewrite (Permutation_length Hperm)|].
    + intros s Hs'. by eapply elem_of_sublist.
    + intros m E'. rewrite (Permutation_length Hperm). apply Hmax; [|done]. by apply (Hm m).
  - assert (length (selectedRoutes r) ≤ 1 ∧ ∀ s, s ∈ selectedRoutes r → s ∈ allowedRoutes p) as [Hlen Hin].
    { destruct (reasonCode r); cbn [chosen] in Hch; try done; try (rewrite Hch; split; [simpl; lia|by intros s ?%not_elem_of_nil]);
        destruct Hch as (x & Ex & ->); (split; [done|]); intros s ->%list_elem_of_singleton; auto. }
    split_and!; [|done|done|].
    + destruct (selectedRoutes r) as [|s [|]]; [constructor|apply NoDup_singleton|simpl in Hlen; lia].
    + intros m E'. destruct (Hm m E'). lia.
Qed.

(** The precedence of the code: confidence, no request, the count, unknown routes *)
Lemma select_routes_case request policy :
  NoDup (requestedRoutes request) → NoDup (allowedRoutes policy) →
  let r := select_routes request policy in
  justified request policy (reasonCode r) ∧ chosen request policy (reasonCode r) (selectedRoutes r) ∧
  (usedDefault r = true ↔ reasonCode r = DEFAULT_SELECTED_NO_REQUEST ∨ reasonCode r = DEFAULT_SELECTED_UNKNOWN_ROUTE) ∧
  (escalated r = true ↔ reasonCode r = ESCALATION_SELECTED_LOW_CONFIDENCE) ∧
  unknownRoutes r = filter (.∉ allowedRoutes policy) (requestedRoutes request) ∧
  result_requestedRoutes r = requestedRoutes request ∧
  result_confidenceBasisPoints r = confidenceBasisPoints request ∧
  routed r = (0 <? length (selectedRoutes r))%nat.
Proof.
  intros Hnd Hnda. cbv zeta. unfold select_routes.
  set (low := match confidence policy with Some _ => _ | None => None end).
  assert (low = None ↔ ¬ low_confidence request policy) as Hlow.
  { unfold low, low_confidence. destruct (confidence policy) as [c|], (confidenceBasisPoints request) as [b|]; try naive_solver.
    destruct (Z.ltb_spec b (minimumBasisPoints c)); naive_solver lia. }
  destruct low as [route|] eqn:Elow.
  { unfold low in Elow. repeat case_match; simplify_eq. bool_hyps.
    cbn. split_and!; try naive_solver. eexists _, _. by split_and!. }
  apply proj1 in Hlow. specialize (Hlow eq_refl). clear low Elow.
  set (requested := requestedRoutes request) in *. destruct (Nat.eqb_spec (length requested) 0) as [Ezero|Ezero].
  { apply nil_length_inv in Ezero. destruct (defaultRoute policy) as [d|] eqn:Ed; cbn; rewrite Ed; fold requested; rewrite Ezero;
      split_and!; naive_solver. }
  assert (requested ≠ []) as Hne by (by intros ->). destruct (bool_decide (kind policy = Single) && _) eqn:Esingle.
  { apply andb_true_iff in Esingle as [Hk%bool_decide_eq_true Hl%Nat.ltb_lt]. cbn. split_and!; naive_solver. }
  destruct (bool_decide (kind policy = Multi) && _) eqn:Elimit.
  { apply andb_true_iff in Elimit as [Hk%bool_decide_eq_true Hl]. destruct (maxMulticast policy) as [m|] eqn:Em; [|done].
    apply Z.ltb_lt in Hl. cbn. split_and!; try naive_solver. }
  assert (within_count request policy) as Hcount.
  { split; fold requested.
    - intros Hk. rewrite bool_decide_eq_true_2 in Esingle by done. apply Nat.ltb_ge in Esingle. lia.
    - intros m Hk Em. rewrite bool_decide_eq_true_2, Em in Elimit by done. apply Z.ltb_ge in Elimit. lia. }
  pose proof (all_allowed_filter request policy) as Hall. fold requested in Hall.
  destruct (Nat.ltb_spec 0 (length (filter (.∉ allowedRoutes policy) requested))) as [Hu|Hu].
  { assert (¬ all_allowed request policy) as Hun by (intros H%Hall; rewrite H in Hu; simpl in Hu; lia).
    destruct (defaultRoute policy) as [d|] eqn:Ed; cbn; rewrite Ed; split_and!; naive_solver. }
  assert (filter (.∉ allowedRoutes policy) requested = []) as Hnil by (apply length_zero_iff_nil; lia).
  cbn. rewrite Hnil in *. split_and!; try naive_solver.
  - by apply plain_selection.
  - apply sublist_filter.
Qed.

(** C16. A selection stays inside its policy, and its reason says which it is.  The
    selected routes are distinct and allowed, at most one for a single policy (whatever
    the default or escalation) and within the multicast limit for a multi policy.  The
    reason is the one that the request and the policy justify - [justified] lists the
    cases, of which exactly one applies - and determines the selection: the escalation
    route, the default route, the requested routes in the policy's order, or nothing.
    The unknown routes are those requested and not allowed; the flags and the copied
    fields agree. *)
Theorem select_routes_sound h requestValue policyValue request policy :
  request_of h requestValue request → policy_of h policyValue policy →
  let r := select_routes request policy in
  (NoDup (selectedRoutes r) ∧ (∀ s, s ∈ selectedRoutes r → s ∈ allowedRoutes policy) ∧
   (kind policy = Single → length (selectedRoutes r) ≤ 1) ∧
   (∀ m, maxMulticast policy = Some m → Z.of_nat (length (selectedRoutes r)) ≤ m)%Z ∧
   (routed r = true ↔ selectedRoutes r ≠ [])) ∧
  (∀ code, reasonCode r = code ↔ justified request policy code) ∧
  chosen request policy (reasonCode r) (selectedRoutes r) ∧
  (usedDefault r = true ↔ reasonCode r = DEFAULT_SELECTED_NO_REQUEST ∨ reasonCode r = DEFAULT_SELECTED_UNKNOWN_ROUTE) ∧
  (escalated r = true ↔ reasonCode r = ESCALATION_SELECTED_LOW_CONFIDENCE) ∧
  unknownRoutes r = filter (.∉ allowedRoutes policy) (requestedRoutes request) ∧
  result_requestedRoutes r = requestedRoutes request ∧
  result_confidenceBasisPoints r = confidenceBasisPoints request.
Proof.
  intros Hreq Hp r. pose proof (policy_facts h policyValue policy Hp) as (Hnda & Hd & Hc & Hm & _).
  destruct Hreq as (o & _ & _ & (w & _ & lr & _ & _ & _ & Hnd) & _).
  destruct (select_routes_case request policy Hnd Hnda) as (Hj & Hch & Hrest). fold r in Hj, Hch, Hrest.
  split; [eapply selection_ok; try done; apply Hrest|]. split; [|split; [done|tauto]].
  intros code. split; [by intros <-|]. by apply justified_unique.
Qed.

Definition sample_request : RequestSnapshot := Build_RequestSnapshot [js "b"; js "a"] None false.
Definition sample_policy : PolicySnapshot :=
  Build_PolicySnapshot Multi [js "a"; js "b"; js "c"] None None false (Some 2%Z).
Lemma select_routes_sound_witness :
  request_of sample_route_input.1 (sample_route_argument 0) sample_request ∧
  policy_of sample_route_input.1 (sample_route_argument 1) sample_policy ∧
  selectedRoutes (select_routes sample_request sample_policy) ≡ₚ [js "b"; js "a"].
Proof.
  assert (heap_wf sample_route_input.1) as Hwf by (apply (bool_decide_unpack _); vm_compute; exact I).
  assert (ordinary sample_route_input.1) as Hord by (apply (bool_decide_unpack _); vm_compute; exact I).
  assert (request_of sample_route_input.1 (sample_route_argument 0) sample_request) as Hr
    by (apply (validateRequest_quiet _ Hwf Hord); vm_compute; reflexivity).
  assert (policy_of sample_route_input.1 (sample_route_argument 1) sample_policy) as Hp
    by (apply (router_policy_quiet _ _ _ Hwf Hord); vm_compute; reflexivity).
  split; [exact Hr|]. split; [exact Hp|].
  destruct (select_routes_sound _ _ _ _ _ Hr Hp) as (_ & _ & Hchosen & _).
  assert (reasonCode (select_routes sample_request sample_policy) = REQUESTED_ROUTES_SELECTED) as E by (vm_compute; reflexivity).
  rewrite E in Hchosen. exact (proj1 Hchosen).
Defined.
