(* ===== verification/Stringify.v ===== *)
(** * JSON.stringify

    What [JSON.stringify] prints for a tree: the properties in the order the object
    enumerates them, and [null] for a number that is not finite.  The text reads back
    as the tree and holds no line break. *)
From S2P Require Import Prelude JsString JsNumber JsValue JsonText NumberText Canonical JsonRoundTrip ParsedJson.
#[local] Arguments js : simpl never.

Fixpoint stringify (j : json) : jsstr :=
  match j with
  | JNull => js "null"
  | JBool b => if b then js "true" else js "false"
  | JNum n => if num_finite n then string_of_num n else js "null"
  | JStr s => quote_string s
  | JArr items => js "[" ++ join (js ",") (map stringify items) ++ js "]"
  | JObj props => js "{" ++ join (js ",") (map (λ p, member (p.1, stringify p.2)) props) ++ js "}"
  end.

(** The tree the text denotes: the sign of a zero is lost, and so is an infinity. *)
Fixpoint stringified (j : json) : json :=
  match j with
  | JNum n => if num_finite n then JNum (num_unsign_zero n) else JNull
  | JArr items => JArr (map stringified items)
  | JObj props => JObj (own_order (map (λ p, (p.1, stringified p.2)) props))
  | _ => j
  end.

Lemma stringify_reads j : parsed_ok j → reads_as (stringify j) (stringified j).
Proof.
  induction j as [|b|n|s|items IH|props IH] using json_nested_ind; intros Hok.
  - apply reads_null.
  - apply reads_bool.
  - apply parsed_ok_num in Hok. cbn [stringify stringified].
    destruct (num_finite n) eqn:Hf; [by apply reads_number|apply reads_null].
  - apply parsed_ok_str in Hok. by apply reads_string.
  - apply parsed_ok_arr in Hok. apply reads_array, Forall2_fmap, Forall_Forall2_diag. exact (Forall_mp _ _ _ IH Hok).
  - apply parsed_ok_obj in Hok as (Hnd & Hwf & Hok).
    pose proof (Forall_mp (λ p, parsed_ok p.2) (λ p, reads_as (stringify p.2) (stringified p.2)) _ IH Hok) as Hr.
    cbn [stringify stringified].
    replace (map (λ p, member (p.1, stringify p.2)) props) with
      (member <$> ((λ p : jsstr * json, (p.1, stringify p.2)) <$> props)) by (by rewrite <- list_fmap_compose).
    apply reads_object; [by rewrite map_keys|]. by apply members_read.
Qed.

(** [JSON.parse(JSON.stringify(j))] *)
Lemma json_parse_stringify j : parsed_ok j → json_parse (stringify j) = Some (stringified j).
Proof. intros Hj. by apply json_parse_reads, stringify_reads. Qed.

Lemma stringify_clean j : parsed_ok j → clean (stringify j).
Proof.
  induction j as [|b|n|s|items IH|props IH] using json_nested_ind; intros Hok.
  - by apply clean_lit.
  - by destruct b; apply clean_lit.
  - cbn [stringify]. destruct (num_finite n); [apply printable_clean, string_of_num_printable|by apply clean_lit].
  - apply quote_string_clean. by apply parsed_ok_str.
  - apply parsed_ok_arr in Hok. cbn [stringify]. repeat apply clean_app; [by apply clean_lit| |by apply clean_lit].
    apply join_clean, Forall_fmap. by eapply Forall_mp.
  - apply parsed_ok_obj in Hok as (_ & Hwf & Hok). cbn [stringify].
    repeat apply clean_app; [by apply clean_lit| |by apply clean_lit].
    apply join_clean, Forall_fmap. pose proof (Forall_mp (λ p, parsed_ok p.2) (λ p, clean (stringify p.2)) _ IH Hok) as Hc.
    assert (Forall (λ p, str_wf p.1) props) as Hkeys by (revert Hwf; apply Forall_fmap). clear IH Hok Hwf.
    induction Hc as [|p l Hp Hc IH]; [constructor|]. apply Forall_cons in Hkeys as [Hk Hkeys].
    constructor; [|by apply IH]. apply clean_app; [by apply quote_string_clean|].
    apply clean_app; [by apply clean_lit|exact Hp].
Qed.

(** Objects whose keys are not array indices keep the order they were written in. *)
Lemma own_order_plain {A} (props : list (jsstr * A)) :
  Forall (λ p, is_array_index p.1 = false) props → own_order props = props.
Proof.
  intros H. unfold own_order. rewrite (filter_id (λ p, is_array_index p.1 = false)).
  - assert (filter (λ p : jsstr * A, is_array_index p.1 = true) props = []) as ->; [|done].
    induction H as [|p props Hp _ IH]; [done|]. rewrite filter_cons_False by congruence. done.
  - intros x Hx. rewrite Forall_forall in H. by apply H.
Qed.

(** ** JSON.stringify with an indentation

    [JSON.stringify(j, null, space)]: every item and member on a line of its own. *)
Section indented.
Context (space : jsstr).

Definition line (indent : jsstr) : jsstr := 10%N :: indent.
Fixpoint stringify_indented (indent : jsstr) (j : json) : jsstr :=
  let inner := indent ++ space in
  match j with
  | JArr items =>
      match items with
      | [] => js "[]"
      | _ => js "[" ++ join (js ",") (map (λ item, line inner ++ stringify_indented inner item) items) ++
             line indent ++ js "]"
      end
  | JObj props =>
      match props with
      | [] => js "{}"
      | _ => js "{" ++ join (js ",") (map (λ p, line inner ++ spaced_member (js " ") (p.1, stringify_indented inner p.2)) props) ++
             line indent ++ js "}"
      end
  | _ => stringify j
  end.

Context (space_blank : blank space).

Lemma line_blank indent : blank indent → blank (line indent).
Proof. by constructor. Qed.

Lemma stringify_indented_reads indent j :
  blank indent → parsed_ok j → reads_as (stringify_indented indent j) (stringified j).
Proof.
  revert indent. induction j as [|b|n|s|items IH|props IH] using json_nested_ind; intros indent Hi Hok;
    try by apply stringify_reads.
  - apply parsed_ok_arr in Hok. cbn [stringify_indented stringified].
    assert (blank (indent ++ space)) as Hin by (by apply Forall_app).
    destruct items as [|item items]; [by apply (reads_array [])|]. set (l := item :: items) in *.
    replace (map _ l) with (app (line (indent ++ space)) <$> (stringify_indented (indent ++ space) <$> l))
      by (by rewrite <- list_fmap_compose).
    apply reads_array_in; [by apply line_blank..|]. apply Forall2_fmap, Forall_Forall2_diag.
    apply (Forall_mp parsed_ok _ _); [|done]. eapply Forall_impl; [exact IH|]. intros j Hj Hjok. by apply Hj.
  - apply parsed_ok_obj in Hok as (Hnd & Hwf & Hok). cbn [stringify_indented stringified].
    assert (blank (indent ++ space)) as Hin by (by apply Forall_app).
    destruct props as [|p props]; [by apply (reads_object [])|]. set (l := p :: props) in *.
    replace (map (λ p, line _ ++ _) l) with ((λ t, line (indent ++ space) ++ spaced_member (js " ") t) <$>
      ((λ p : jsstr * json, (p.1, stringify_indented (indent ++ space) p.2)) <$> l))
      by (by rewrite <- list_fmap_compose).
    apply reads_object_in; [by apply line_blank..| |by rewrite map_keys|].
    + by repeat constructor.
    + apply members_read; [done|].
      apply (Forall_mp (λ p, parsed_ok p.2) (λ p, reads_as (stringify_indented (indent ++ space) p.2) (stringified p.2)));
        [|done]. eapply Forall_impl; [exact IH|]. intros q Hq Hqok. by apply Hq.
Qed.
End indented.

(** The indentation is lost in reading. *)
Lemma json_parse_indented space j :
  blank space → parsed_ok j → json_parse (stringify_indented space [] j) = json_parse (stringify j).
Proof.
  intros Hs Hj. rewrite json_parse_stringify by done. by apply json_parse_reads, stringify_indented_reads; [|constructor|].
Qed.

(** ** What the core makes of the text *)

Lemma stringified_ok j : json_ok j → json_ok (stringified j).
Proof.
  induction j as [|b|n|s|items IH|props IH] using json_nested_ind; intros Hok; try done.
  - cbn [stringified]. apply json_ok_num in Hok as [Hn Hf]. rewrite Hf. apply json_ok_num. by destruct n.
  - apply json_ok_arr in Hok. apply json_ok_arr, Forall_fmap. exact (Forall_mp _ _ _ IH Hok).
  - apply json_ok_obj in Hok as (Hnd & Hwf & Hok). cbn [stringified]. change (map ?f props) with (f <$> props).
    apply json_ok_obj. rewrite own_order_keys, own_order_Permutation, !map_keys. split_and!; [done..|].
    apply Forall_fmap. exact (Forall_mp (λ p, json_ok p.2) (λ p, json_ok (stringified p.2)) _ IH Hok).
Qed.

(** Printing and reading keeps the canonical form. *)
Lemma canonical_form_stringified j : json_ok j → canonical_form (stringified j) = canonical_form j.
Proof.
  induction j as [|b|n|s|items IH|props IH] using json_nested_ind; intros Hok; try done.
  - apply json_ok_num in Hok as [_ Hf]. cbn [stringified]. rewrite Hf. by destruct n.
  - apply json_ok_arr in Hok. cbn [stringified]. rewrite !canonical_form_arr. f_equal.
    change (map ?f (map ?g items)) with (f <$> (g <$> items)). rewrite <- list_fmap_compose.
    apply list_fmap_ext. intros i x Hx. rewrite Forall_forall in IH, Hok.
    apply IH; [|apply Hok]; by eapply list_elem_of_lookup_2.
  - apply json_ok_obj in Hok as (Hnd & Hwf & Hok). cbn [stringified canonical_form]. do 2 f_equal.
    change (map ?f ?l) with (f <$> l).
    assert ((λ p : jsstr * json, (p.1, canonical_form p.2)) <$> ((λ p : jsstr * json, (p.1, stringified p.2)) <$> props) =
      (λ p, (p.1, canonical_form p.2)) <$> props) as <-.
    { rewrite <- list_fmap_compose. apply list_fmap_ext. intros i p Hp. unfold compose. cbn [fst snd]. f_equal.
      rewrite Forall_forall in IH, Hok. apply IH; [|apply Hok]; by eapply list_elem_of_lookup_2. }
    apply sort_by_unique; [apply _|by rewrite own_order_Permutation|].
    intros p q. apply compare_keys_antisym; rewrite map_keys, own_order_keys, map_keys; done.
Qed.
