(* ===== verification/Process.v ===== *)
(** * The process and its environment

    What the command line and the MCP server ask of Node.js: streams, files,
    directories, package assets, imports.  A program is a tree of calls and of
    what it does with each answer, so that one definition has two readings: [exec]
    relates a program to the calls it makes under any environment whatsoever, and a
    handler of the calls runs it.  The calls on directories are those of
    node:fs/promises on absolute, normalized paths. *)
From S2P Require Import Prelude JsString JsNumber JsValue.

(** A path: its segments below the root *)
Abbreviation path := (list jsstr).
Definition path_text (p : path) : jsstr := js "/" ++ join (js "/") p.
(** One segment of a path being normalized *)
Definition enter (p : path) (segment : jsstr) : path :=
  if bool_decide (segment = [] ∨ segment = js ".") then p
  else if bool_decide (segment = js "..") then removelast p
  else p ++ [segment].
Fixpoint split_slash (s : jsstr) : list jsstr :=
  match s with
  | [] => [[]]
  | c :: s =>
      if (c =? 47)%N then [] :: split_slash s
      else match split_slash s with segment :: rest => (c :: segment) :: rest | [] => [[c]] end
  end.
(** [resolve(directory)] in a working directory *)
Definition resolve_in (cwd : path) (directory : jsstr) : path := foldl enter cwd (split_slash directory).
(** [resolve(text)], as a text *)
Definition resolved (cwd : path) (text : jsstr) : jsstr :=
  path_text (resolve_in (if starts_with (js "/") text then [] else cwd) text).

(** An [Error] as a catch clause sees it: its [code], if it has one, and its message *)
Record sys_error := SysError { error_code : option jsstr; error_message : jsstr }.

Inductive file_type := RegularFile | DirectoryFile | SymbolicLink | OtherFile.
#[export] Instance file_type_eq_dec : EqDecision file_type.
Proof. solve_decision. Defined.
Record Stats := { dev : N; ino : N; type : file_type }.
#[export] Instance Stats_eq_dec : EqDecision Stats.
Proof. solve_decision. Defined.

Abbreviation handle := N.
Inductive stream := Stdout | Stderr.
#[export] Instance stream_eq_dec : EqDecision stream.
Proof. solve_decision. Defined.

(** The files the packages bring along *)
Inductive asset := GraphSchemaAsset | DiamondFixture | ResearchTemplate.
#[export] Instance asset_eq_dec : EqDecision asset.
Proof. solve_decision. Defined.

(** What [import()] gives: an object that is not a record, or the namespace of a module
    with the function the caller is interested in, if it exports one. *)
Inductive namespace (F : Type) := NotARecord | Exports (function : option F).
Arguments NotARecord {F}.
Arguments Exports {F}.
(** An implementation of [compileGraph] as the caller meets it: it throws a message, or
    returns [valid] and [graphHash]. *)
Definition compile_function : Type := json → result jsstr (bool * option jsstr).

Abbreviation answer A := (result sys_error A) (only parsing).

Inductive call : Type → Type :=
  | Print (s : stream) (text : jsstr) : call ()
  | ReadFile (file : jsstr) : call (answer (list N))
  | ReadStdin : call (answer (list (list N)))
  | ReadAsset (a : asset) : call (answer (list N))
  | NodeVersion : call jsstr
  | ImportCore : call (answer (namespace compile_function))
  | ImportRuntime : call (answer (namespace ()))
  | WorkingDirectory : call path
  | Lstat (p : path) : call (answer Stats)
  | Stat (p : path) : call (answer Stats)
  | Readdir (p : path) : call (answer (list jsstr))
  | Mkdir (p : path) : call (answer ())
  | Rmdir (p : path) : call (answer ())
  | Unlink (p : path) : call (answer ())
  | OpenExclusive (p : path) : call (answer handle)
  | HandleStat (h : handle) : call (answer Stats)
  | HandleWrite (h : handle) (text : jsstr) : call (answer ())
  | HandleSync (h : handle) : call (answer ())
  | HandleClose (h : handle) : call (answer ()).

(** ** Programs *)

Inductive prog (A : Type) : Type :=
  | Ret (a : A)
  | Vis {X : Type} (c : call X) (k : X → prog A).
Arguments Ret {A} a.
Arguments Vis {A X} c k.

Fixpoint prog_bind {A B} (f : A → prog B) (m : prog A) : prog B :=
  match m with
  | Ret a => f a
  | Vis c k => Vis c (λ x, prog_bind f (k x))
  end.
#[export] Instance prog_mret : MRet prog := λ A a, Ret a.
#[export] Instance prog_mbind : MBind prog := λ A B f m, prog_bind f m.

Definition ask {X} (c : call X) : prog X := Vis c Ret.

(** An asynchronous function: a program whose outcome is a value or what it throws *)
Definition async (E A : Type) : Type := prog (result E A).
Definition returns {E A} (a : A) : async E A := Ret (Ok a).
Definition throws {E A} (e : E) : async E A := Ret (Err e).
(** [const a = await m; f(a)] *)
Definition await {E A B} (m : async E A) (f : A → async E B) : async E B :=
  prog_bind (λ r, match r with Ok a => f a | Err e => throws e end) m.
(** [try { m } catch (error) { h(error) }] *)
Definition catch {E F A} (m : async E A) (h : E → async F A) : async F A :=
  prog_bind (λ r, match r with Ok a => returns a | Err e => h e end) m.

Declare Scope async_scope.
Delimit Scope async_scope with async.
Notation "'let*' x := m 'in' k" := (await m (λ x, k))
  (at level 10, x name, m at level 100, k at level 200) : async_scope.
Notation "'let*' '_' := m 'in' k" := (await m (λ _, k))
  (at level 10, m at level 100, k at level 200) : async_scope.

(** ** The calls a program makes *)

Inductive event : Type :=
  | Event {X : Type} (c : call X) (x : X).

(** A call without its answer *)
Inductive request : Type :=
  | Request {X : Type} (c : call X).
Definition request_of (e : event) : request := match e with Event c _ => Request c end.

(** The program makes the calls of the trace, with these answers, and ends with [a]. *)
Fixpoint exec {A} (m : prog A) (t : list event) (a : A) : Prop :=
  match m with
  | Ret b => t = [] ∧ a = b
  | @Vis _ X c k => ∃ (x : X) t', t = Event c x :: t' ∧ exec (k x) t' a
  end.

(** A property of every call, with the history before it, and of every outcome *)
Fixpoint always {A} (allowed : list event → request → Prop) (post : list event → A → Prop)
    (h : list event) (m : prog A) : Prop :=
  match m with
  | Ret a => post h a
  | @Vis _ X c k => allowed h (Request c) ∧ ∀ x, always allowed post (h ++ [Event c x]) (k x)
  end.

(** What the program prints, in order *)
Definition printed_by (e : event) : list (stream * jsstr) :=
  match e with Event (Print s text) _ => [(s, text)] | _ => [] end.
Definition output (t : list event) : list (stream * jsstr) := t ≫= printed_by.

(** ** Running against an environment that has a state *)

Section run.
Context {W : Type} (handler : ∀ X, call X → W → X * W).
Fixpoint run_prog {A} (m : prog A) (w : W) : A * W :=
  match m with
  | Ret a => (a, w)
  | @Vis _ X c k => let '(x, w) := handler X c w in run_prog (k x) w
  end.
(** The calls it makes on the way *)
Fixpoint run_trace {A} (m : prog A) (w : W) : list event :=
  match m with
  | Ret _ => []
  | @Vis _ X c k => let '(x, w) := handler X c w in Event c x :: run_trace (k x) w
  end.
End run.

(** ** Lemmas *)

(** A run is an execution. *)
Lemma exec_run {W A} (handler : ∀ X, call X → W → X * W) (m : prog A) w :
  exec m (run_trace handler m w) (run_prog handler m w).1.
Proof.
  revert w. induction m as [a|X c k IH]; intros w; cbn [exec run_trace run_prog]; [done|].
  destruct (handler X c w) as [x w'] eqn:E. exists x, (run_trace handler (k x) w'). split; [done|apply IH].
Qed.

Lemma exec_bind {A B} (m : prog A) (f : A → prog B) t b :
  exec (prog_bind f m) t b ↔ ∃ t1 t2 a, t = t1 ++ t2 ∧ exec m t1 a ∧ exec (f a) t2 b.
Proof.
  revert t. induction m as [a|X c k IH]; intros t; cbn [prog_bind exec].
  - split; [intros H; by exists [], t, a|]. by intros (? & t2 & a' & -> & [-> ->] & H).
  - split.
    + intros (x & t' & -> & H). apply IH in H as (t1 & t2 & a & -> & H1 & H2).
      exists (Event c x :: t1), t2, a. eauto 10.
    + intros (t1 & t2 & a & -> & (x & t' & -> & H1) & H2). exists x, (t' ++ t2). split; [done|].
      apply IH. eauto 10.
Qed.

Lemma output_app t1 t2 : output (t1 ++ t2) = output t1 ++ output t2.
Proof. apply bind_app. Qed.

Section always.
Context (allowed : list event → request → Prop).

Lemma always_bind {A B} (post : list event → B → Prop) (m : prog A) (f : A → prog B) h :
  always allowed (λ h a, always allowed post h (f a)) h m → always allowed post h (prog_bind f m).
Proof.
  revert h. induction m as [a|X c k IH]; intros h; cbn [prog_bind always]; [done|].
  intros [Hc Hk]. split; [done|]. intros x. apply IH, Hk.
Qed.

Lemma always_mono {A} (post post' : list event → A → Prop) (m : prog A) h :
  always allowed post h m → (∀ h a, post h a → post' h a) → always allowed post' h m.
Proof.
  intros H Hp. revert h H. induction m as [a|X c k IH]; intros h; cbn [always]; [auto|].
  intros [Hc Hk]. split; [done|]. intros x. by apply IH.
Qed.

(** Every call of a run is allowed, and its outcome is as promised. *)
Lemma always_exec {A} (post : list event → A → Prop) (m : prog A) h t a :
  always allowed post h m → exec m t a →
  post (h ++ t) a ∧ ∀ t1 e t2, t = t1 ++ e :: t2 → allowed (h ++ t1) (request_of e).
Proof.
  revert h t. induction m as [b|X c k IH]; intros h t; cbn [always exec].
  - intros Hp [-> ->]. rewrite app_nil_r. split; [done|]. by intros [] ??.
  - intros [Hc Hk] (x & t' & -> & H). destruct (IH x _ _ (Hk x) H) as [Hpost Hall].
    rewrite <- (assoc_L (++)) in Hpost. split; [done|]. intros [|e t1] d t2 E; cbn [app] in E.
    + injection E as <- E. by rewrite app_nil_r.
    + injection E as <- E. specialize (Hall _ _ _ E). by rewrite <- (assoc_L (++)) in Hall.
Qed.
End always.

(** ** What a program says

    [says post h m]: whatever the answers, as long as each is [good], the program ends
    with an outcome and an output of which [post] holds; [h] is what has been printed. *)
Section says.
Context (good : ∀ X, call X → X → Prop).

Definition good_event (e : event) : Prop := match e with Event c x => good _ c x end.
Definition printed {X} (c : call X) : list (stream * jsstr) :=
  match c with Print s text => [(s, text)] | _ => [] end.

Fixpoint says {A} (post : list (stream * jsstr) → A → Prop) (h : list (stream * jsstr)) (m : prog A) : Prop :=
  match m with
  | Ret a => post h a
  | Vis c k => ∀ x, good _ c x → says post (h ++ printed c) (k x)
  end.

Lemma says_bind {A B} (post : list (stream * jsstr) → B → Prop) (m : prog A) (f : A → prog B) h :
  says (λ h a, says post h (f a)) h m → says post h (prog_bind f m).
Proof.
  revert h. induction m as [a|X c k IH]; intros h; cbn [prog_bind says]; [done|]. intros H x Hx. by apply IH, H.
Qed.

Lemma says_mono {A} (post post' : list (stream * jsstr) → A → Prop) (m : prog A) h :
  says post h m → (∀ h a, post h a → post' h a) → says post' h m.
Proof.
  intros H Hp. revert h H. induction m as [a|X c k IH]; intros h; cbn [says]; [auto|]. intros H x Hx. by apply IH, H.
Qed.

Lemma says_exec {A} (post : list (stream * jsstr) → A → Prop) (m : prog A) h t a :
  says post h m → exec m t a → Forall good_event t → post (h ++ output t) a.
Proof.
  revert h t. induction m as [b|X c k IH]; intros h t; cbn [says exec].
  - intros Hp [-> ->] _. by rewrite app_nil_r.
  - intros Hs (x & t' & -> & H) [Hx Ht]%Forall_cons. specialize (IH x _ _ (Hs x Hx) H Ht).
    change (output (Event c x :: t')) with (printed_by (Event c x) ++ output t').
    rewrite (assoc_L (++)). by destruct c.
Qed.

(** The program prints nothing, and its outcome satisfies [P]. *)
Definition silent {A} (P : A → Prop) (m : prog A) : Prop := ∀ h, says (λ h' a, h' = h ∧ P a) h m.

Lemma silent_ret {A} (P : A → Prop) a : P a → silent P (Ret a).
Proof. by intros H h. Qed.
Lemma silent_ask {X} (c : call X) : printed c = [] → silent (good X c) (ask c).
Proof. intros Hc h x Hx. cbn [says]. by rewrite Hc, app_nil_r. Qed.
Lemma silent_bind {A B} (P : A → Prop) (Q : B → Prop) (m : prog A) (f : A → prog B) :
  silent P m → (∀ a, P a → silent Q (f a)) → silent Q (prog_bind f m).
Proof. intros Hm Hf h. apply says_bind. eapply says_mono; [apply Hm|]. intros h' a [-> Ha]. by apply Hf. Qed.
Lemma silent_mono {A} (P Q : A → Prop) (m : prog A) : silent P m → (∀ a, P a → Q a) → silent Q m.
Proof. intros Hm H h. eapply says_mono; [apply Hm|]. intros h' a [-> Ha]. auto. Qed.
(** After a silent part *)
Lemma silent_says {A B} (P : A → Prop) (post : list (stream * jsstr) → B → Prop) (m : prog A) (f : A → prog B) h :
  silent P m → (∀ a, P a → says post h (f a)) → says post h (prog_bind f m).
Proof. intros Hm Hf. apply says_bind. eapply says_mono; [apply Hm|]. intros h' a [-> Ha]. by apply Hf. Qed.

(** An asynchronous function that prints nothing, with its promises on both outcomes *)
Definition settles {E A} (P : A → Prop) (Q : E → Prop) : async E A → Prop :=
  silent (λ r, match r with Ok a => P a | Err e => Q e end).

Lemma settles_returns {E A} (P : A → Prop) (Q : E → Prop) a : P a → settles P Q (returns a).
Proof. intros. by apply silent_ret. Qed.
Lemma settles_throws {E A} (P : A → Prop) (Q : E → Prop) e : Q e → settles P Q (throws e).
Proof. intros. by apply silent_ret. Qed.
Lemma settles_await {E A B} (P : A → Prop) (P' : B → Prop) (Q : E → Prop) (m : async E A) (f : A → async E B) :
  settles P Q m → (∀ a, P a → settles P' Q (f a)) → settles P' Q (await m f).
Proof.
  intros Hm Hf. eapply silent_bind; [exact Hm|]. intros [a|e] H; [by apply Hf|by apply settles_throws].
Qed.
Lemma settles_catch {E F A} (P : A → Prop) (Q : E → Prop) (Q' : F → Prop) (m : async E A) (h : E → async F A) :
  settles P Q m → (∀ e, Q e → settles P Q' (h e)) → settles P Q' (catch m h).
Proof.
  intros Hm Hh. eapply silent_bind; [exact Hm|]. intros [a|e] H; [by apply settles_returns|by apply Hh].
Qed.
Lemma settles_bind {E A B} (P : A → Prop) (P' : B → Prop) (Q' : E → Prop) (m : prog A) (f : A → async E B) :
  silent P m → (∀ a, P a → settles P' Q' (f a)) → settles P' Q' (prog_bind f m).
Proof. apply silent_bind. Qed.
End says.

(** An environment whose answers are good gives good traces. *)
Lemma run_trace_good {W A} (good : ∀ X, call X → X → Prop) (handler : ∀ X, call X → W → X * W) (m : prog A) w :
  (∀ X c w, good X c (handler X c w).1) → Forall (good_event good) (run_trace handler m w).
Proof.
  intros Hg. revert w. induction m as [a|X c k IH]; intros w; cbn [run_trace]; [constructor|].
  pose proof (Hg X c w) as H. destruct (handler X c w) as [x w']. by constructor.
Qed.
