(* ===== verification/Disk.v ===== *)
(** * A disk

    A handler for the calls of [Process]: directories, files and links under absolute
    paths, as node:fs/promises shows them, with a schedule that says which calls fail.
    Entries are keyed by their path.  A link is known by what following it gives; its
    target is not looked up under another name, so two names never share an entry.
    [under] reasons about runs with a budget of failures; the last part has the lemmas
    on well-formed disks and the rules for the calls. *)
From S2P Require Import Prelude JsString JsNumber JsValue Utf8 Process.
#[local] Arguments js : simpl never.

(** An entry: what [lstat] shows, what [stat] shows of a link, and the bytes that reading
    it gives *)
Record entry := Entry { entry_stats : Stats; followed : answer Stats; content : list N }.
(** A call that fails: the error, and how many bytes a failing write still writes *)
Record fault := Fault { fault_error : sys_error; written : nat }.

Record disk := Disk {
  entries : gmap path entry;
  next_ino : N;
  handles : gmap N path;
  directory : path;                       (* the working directory *)
  assets : asset → answer (list N)
}.

Definition sys_code (code : string) : sys_error := SysError (Some (js code)) (js code).
Definition ENOENT : sys_error := sys_code "ENOENT".
Definition ENOTDIR : sys_error := sys_code "ENOTDIR".
Definition EEXIST : sys_error := sys_code "EEXIST".
Definition ENOTEMPTY : sys_error := sys_code "ENOTEMPTY".
Definition EISDIR : sys_error := sys_code "EISDIR".
Definition EBADF : sys_error := sys_code "EBADF".

(** ** Looking *)

(** What [stat] shows *)
Definition follow (e : entry) : answer Stats :=
  if bool_decide (type (entry_stats e) = SymbolicLink) then followed e else Ok (entry_stats e).
(** What reading the entry gives *)
Definition read_entry (e : entry) : answer (list N) :=
  match follow e with
  | Ok s => if bool_decide (type s = DirectoryFile) then Err EISDIR else Ok (content e)
  | Err e => Err e
  end.
(** May paths go through the entry? *)
Definition through (e : entry) : answer () :=
  match follow e with
  | Ok s => if bool_decide (type s = DirectoryFile) then Ok () else Err ENOTDIR
  | Err e => Err e
  end.

(** The entry at [rev up], found by walking down from the root *)
Fixpoint walk (es : gmap path entry) (up : list jsstr) : answer entry :=
  match up with
  | [] => match es !! [] with Some e => Ok e | None => Err ENOENT end
  | name :: up' =>
      parent ← walk es up';
      _ ← through parent;
      match es !! rev up with Some e => Ok e | None => Err ENOENT end
  end.
Definition find_entry (es : gmap path entry) (p : path) : answer entry := walk es (rev p).

(** The names in a directory *)
Definition name_in (p q : path) : option jsstr :=
  match last q with Some name => if bool_decide (q = p ++ [name]) then Some name else None | None => None end.
Definition names (es : gmap path entry) (p : path) : list jsstr := omap (λ x, name_in p x.1) (map_to_list es).
Definition list_names (es : gmap path entry) (p : path) : answer (list jsstr) :=
  e ← find_entry es p;
  _ ← through e;
  Ok (names es p).

(** ** Changes *)

Definition set_entries (es : gmap path entry) (d : disk) : disk :=
  Disk es (next_ino d) (handles d) (directory d) (assets d).
Definition set_handles (hs : gmap N path) (d : disk) : disk :=
  Disk (entries d) (next_ino d) hs (directory d) (assets d).
(** A new entry, with an inode number of its own *)
Definition fresh_entry (t : file_type) (d : disk) : entry := Entry (Build_Stats 0 (next_ino d) t) (Err ENOENT) [].
Definition add_entry (p : path) (t : file_type) (d : disk) : disk :=
  Disk (<[p := fresh_entry t d]> (entries d)) (next_ino d + 1) (handles d) (directory d) (assets d).

Definition create (p : path) (t : file_type) (d : disk) : answer () * disk :=
  match find_entry (entries d) (removelast p) with
  | Err e => (Err e, d)
  | Ok parent =>
      match through parent with
      | Err e => (Err e, d)
      | Ok _ => match entries d !! p with Some _ => (Err EEXIST, d) | None => (Ok (), add_entry p t d) end
      end
  end.

Definition remove_directory (p : path) (d : disk) : answer () * disk :=
  match find_entry (entries d) p with
  | Err e => (Err e, d)
  | Ok e =>
      if negb (bool_decide (type (entry_stats e) = DirectoryFile)) then (Err ENOTDIR, d)
      else if (0 <? length (names (entries d) p))%nat then (Err ENOTEMPTY, d)
      else (Ok (), set_entries (delete p (entries d)) d)
  end.
Definition remove_file (p : path) (d : disk) : answer () * disk :=
  match find_entry (entries d) p with
  | Err e => (Err e, d)
  | Ok e =>
      if bool_decide (type (entry_stats e) = DirectoryFile) then (Err EISDIR, d)
      else (Ok (), set_entries (delete p (entries d)) d)
  end.

(** [open(path, "wx")]; the handle is the inode number of the file. *)
Definition open_exclusive (p : path) (d : disk) : answer handle * disk :=
  match create p RegularFile d with
  | (Ok _, d') => (Ok (next_ino d), set_handles (<[next_ino d := p]> (handles d')) d')
  | (Err e, d') => (Err e, d')
  end.
Definition handle_entry (h : handle) (d : disk) : answer (path * entry) :=
  match handles d !! h with
  | Some p => match entries d !! p with Some e => Ok (p, e) | None => Err EBADF end
  | None => Err EBADF
  end.
(** Bytes at the position of a handle that has only been written through *)
Definition append_bytes (h : handle) (bytes : list N) (d : disk) : disk :=
  match handle_entry h d with
  | Ok (p, e) => set_entries (<[p := Entry (entry_stats e) (followed e) (content e ++ bytes)]> (entries d)) d
  | Err _ => d
  end.

(** ** The handler *)

(** The path that a text names *)
Definition absolute (d : disk) (text : jsstr) : path :=
  resolve_in (if starts_with (js "/") text then [] else directory d) text.

(** A call that works *)
Definition perform (X : Type) (c : call X) : disk → X * disk :=
  match c in call X return disk → X * disk with
  | Print _ _ => λ d, (tt, d)
  | ReadFile file => λ d, ((e ← find_entry (entries d) (absolute d file); read_entry e), d)
  | ReadStdin => λ d, (Ok [], d)
  | ReadAsset a => λ d, (assets d a, d)
  | NodeVersion => λ d, (js "v20.1.0", d)
  | ImportCore => λ d, (Err ENOENT, d)
  | ImportRuntime => λ d, (Err ENOENT, d)
  | WorkingDirectory => λ d, (directory d, d)
  | Lstat p => λ d, (entry_stats <$> find_entry (entries d) p, d)
  | Stat p => λ d, ((e ← find_entry (entries d) p; follow e), d)
  | Readdir p => λ d, (list_names (entries d) p, d)
  | Mkdir p => create p DirectoryFile
  | Rmdir p => remove_directory p
  | Unlink p => remove_file p
  | OpenExclusive p => open_exclusive p
  | HandleStat h => λ d, ((λ x, entry_stats x.2) <$> handle_entry h d, d)
  | HandleWrite h text => λ d,
      match handle_entry h d with Ok _ => (Ok (), append_bytes h (utf8_encode text) d) | Err e => (Err e, d) end
  | HandleSync h => λ d, ((λ _, ()) <$> handle_entry h d, d)
  | HandleClose h => λ d,
      match handles d !! h with Some _ => (Ok (), set_handles (delete h (handles d)) d) | None => (Err EBADF, d) end
  end.

(** A call that fails: it changes nothing, except that a write may have begun. *)
Definition fail (X : Type) (c : call X) (f : fault) : disk → option (X * disk) :=
  match c in call X return disk → option (X * disk) with
  | ReadFile _ => λ d, Some (Err (fault_error f), d)
  | Lstat _ | Stat _ => λ d, Some (Err (fault_error f), d)
  | Readdir _ => λ d, Some (Err (fault_error f), d)
  | Mkdir _ | Rmdir _ | Unlink _ => λ d, Some (Err (fault_error f), d)
  | OpenExclusive _ => λ d, Some (Err (fault_error f), d)
  | HandleStat _ => λ d, Some (Err (fault_error f), d)
  | HandleWrite h text => λ d, Some (Err (fault_error f), append_bytes h (take (written f) (utf8_encode text)) d)
  | HandleSync _ | HandleClose _ => λ d, Some (Err (fault_error f), d)
  | _ => λ _, None
  end.

(** A disk with the schedule of what will fail.  Every call uses up one item of the
    schedule; a call that cannot fail works. *)
Definition disk_handler (X : Type) (c : call X) (w : disk * list (option fault)) : X * (disk * list (option fault)) :=
  let '(d, fs) := w in
  let '(x, d') := match head fs with
                  | Some (Some f) => default (perform X c d) (fail X c f d)
                  | _ => perform X c d
                  end in
  (x, (d', tail fs)).
Definition fault_count (fs : list (option fault)) : nat := length (omap id fs).

(** ** Runs with a budget of failures

    [under n Q m d]: however the calls of [m] fail, at most [n] of them, the run from
    [d] ends with an outcome, a rest of the budget and a disk of which [Q] holds. *)
Fixpoint under {A} (n : nat) (Q : A → nat → disk → Prop) (m : prog A) (d : disk) : Prop :=
  match m with
  | Ret a => Q a n d
  | @Vis _ X c k =>
      (let r := perform X c d in under n Q (k r.1) r.2) ∧
      match n with
      | O => True
      | S n => ∀ f x d', fail X c f d = Some (x, d') → under n Q (k x) d'
      end
  end.

Lemma under_bind {A B} n (Q : B → nat → disk → Prop) (m : prog A) (f : A → prog B) d :
  under n (λ a n d, under n Q (f a) d) m d → under n Q (prog_bind f m) d.
Proof.
  revert n d. induction m as [a|X c k IH]; intros n d; cbn [prog_bind under]; [done|].
  intros [Hw Hf]. split; [by apply IH|]. destruct n; [done|]. intros. by eapply IH, Hf.
Qed.
Lemma under_mono {A} n (Q Q' : A → nat → disk → Prop) (m : prog A) d :
  under n Q m d → (∀ a n d, Q a n d → Q' a n d) → under n Q' m d.
Proof.
  intros H HQ. revert n d H. induction m as [a|X c k IH]; intros n d; cbn [under]; [apply HQ|].
  intros [Hw Hf]. split; [by apply IH|]. destruct n; [done|]. intros. by eapply IH, Hf.
Qed.
Lemma under_and {A} n (Q Q' : A → nat → disk → Prop) (m : prog A) d :
  under n Q m d → under n Q' m d → under n (λ a n d, Q a n d ∧ Q' a n d) m d.
Proof.
  revert n d. induction m as [a|X c k IH]; intros n d; cbn [under]; [done|].
  intros [Hw Hf] [Hw' Hf']. split; [by apply IH|]. destruct n as [|n]; [done|]. intros f x d' Hx.
  apply IH; [by eapply Hf|by eapply Hf'].
Qed.
(** The budget only shrinks. *)
Lemma under_budget {A} n (Q : A → nat → disk → Prop) (m : prog A) d :
  under n Q m d → under n (λ a n' d', n' ≤ n ∧ Q a n' d') m d.
Proof.
  revert n d. induction m as [a|X c k IH]; intros n d; cbn [under]; [done|].
  intros [Hw Hf]. split; [by apply IH|]. destruct n as [|n]; [done|]. intros f x d' Hx.
  eapply under_mono; [by eapply IH, Hf|]. intros a n' d'' [Hn HQ]. split; [lia|done].
Qed.

Lemma under_le {A} n (m : prog A) d : under n (λ _ n' _, n' ≤ n) m d.
Proof.
  apply (under_mono _ (λ _ n' _, n' ≤ n ∧ True)); [|tauto]. apply under_budget.
  revert n d. induction m as [a|X c k IH]; intros n d; cbn [under]; [done|]. split; [apply IH|]. destruct n; [done|]. intros. apply IH.
Qed.

(** What holds under the budget holds of the run with a schedule within it. *)
Lemma under_run {A} n (Q : A → nat → disk → Prop) (m : prog A) d fs :
  under n Q m d → fault_count fs ≤ n →
  ∃ n', n - fault_count fs ≤ n' ≤ n ∧ Q (run_prog disk_handler m (d, fs)).1 n' (run_prog disk_handler m (d, fs)).2.1.
Proof.
  revert n d fs. induction m as [a|X c k IH]; intros n d fs; cbn [under run_prog]; [intros; exists n; split; [lia|done]|].
  intros [Hw Hf] Hn. unfold disk_handler. destruct fs as [|[f|] fs]; cbn [head tail].
  - destruct (perform X c d) as [x d'] eqn:E. by apply IH.
  - unfold fault_count in Hn. cbn in Hn. fold (fault_count fs) in Hn. destruct n as [|n]; [lia|].
    change (fault_count (Some f :: fs)) with (S (fault_count fs)).
    destruct (fail X c f d) as [[x d']|] eqn:E; cbn [default].
    + destruct (IH x n d' fs (Hf f x d' E)) as (n' & Hn' & HQ); [lia|]. exists n'. split; [lia|done].
    + destruct (perform X c d) as [x d'] eqn:E'. destruct (IH x (S n) d' fs Hw) as (n' & Hn' & HQ); [lia|].
      exists n'. split; [lia|done].
  - destruct (perform X c d) as [x d'] eqn:E. apply (IH x n d' fs Hw Hn).
Qed.

(** * What calls do on a disk *)

(** ** Well-formed disks *)

(** The root can be passed, and so can every entry that has an entry below it. *)
Record disk_ok (es : gmap path entry) : Prop := {
  root_ok : ∃ e, es !! [] = Some e ∧ through e = Ok ();
  parents_ok : ∀ p s, is_Some (es !! (p ++ [s])) → ∃ e, es !! p = Some e ∧ through e = Ok ()
}.

Definition is_directory (e : entry) : Prop := type (entry_stats e) = DirectoryFile.
Lemma directory_through e : is_directory e → through e = Ok ().
Proof.
  unfold is_directory, through, follow. intros He. rewrite (bool_decide_eq_false_2 (_ = SymbolicLink)) by congruence.
  by rewrite bool_decide_eq_true_2.
Qed.

Section entries.
Context (es : gmap path entry) (Hok : disk_ok es).

Lemma find_snoc p s :
  find_entry es (p ++ [s]) =
  (parent ← find_entry es p; _ ← through parent; match es !! (p ++ [s]) with Some e => Ok e | None => Err ENOENT end).
Proof.
  unfold find_entry. rewrite rev_unit. cbn [walk]. change (rev (s :: rev p)) with (rev (rev p) ++ [s]).
  by rewrite rev_involutive.
Qed.
Lemma find_some p e : es !! p = Some e → find_entry es p = Ok e.
Proof using Hok.
  revert e. induction p as [|s p IH] using rev_ind; intros e He.
  - unfold find_entry. cbn [rev walk]. by rewrite He.
  - rewrite find_snoc. destruct (parents_ok _ Hok p s) as (parent & Hp & Ht); [by eexists|].
    rewrite (IH _ Hp). csimpl. rewrite Ht. csimpl. by rewrite He.
Qed.
Lemma find_ok p e : find_entry es p = Ok e → es !! p = Some e.
Proof.
  destruct p as [|s p _] using rev_ind.
  - unfold find_entry. cbn [rev walk]. case_match; [|done]. by intros [= ->].
  - rewrite find_snoc. destruct (find_entry es p); [|done]. csimpl. destruct (through _); [|done]. csimpl.
    case_match; [|done]. by intros [= ->].
Qed.
Lemma find_none p : es !! p = None → ∃ x, find_entry es p = Err x.
Proof. intros Hp. destruct (find_entry es p) eqn:E; [|by eexists]. apply find_ok in E. congruence. Qed.

Lemma name_in_spec p q s : name_in p q = Some s ↔ q = p ++ [s].
Proof.
  unfold name_in. destruct q as [|t q _] using rev_ind; [split; [done|]; by destruct p|]. rewrite last_snoc.
  case_bool_decide as E.
  - apply app_inj_2 in E as [-> _]; [|done]. split; [by intros [= ->]|]. intros E. by apply app_inj_2 in E as [_ [= ->]].
  - split; [done|]. intros E'. apply app_inj_2 in E' as [-> [= ->]]; [|done]. done.
Qed.
Lemma elem_of_names p s : s ∈ names es p ↔ is_Some (es !! (p ++ [s])).
Proof.
  unfold names. rewrite list_elem_of_omap. split.
  - intros ([q e] & Hq & Hn). apply elem_of_map_to_list in Hq. cbn in Hn. apply name_in_spec in Hn as ->. by eexists.
  - intros [e He]. exists (p ++ [s], e). split; [by apply elem_of_map_to_list|]. by apply name_in_spec.
Qed.
Lemma names_nil p : names es p = [] ↔ ∀ s, es !! (p ++ [s]) = None.
Proof.
  split.
  - intros E s. destruct (es !! (p ++ [s])) eqn:He; [|done]. assert (s ∈ names es p) as H by (by apply elem_of_names; eexists).
    rewrite E in H. by apply not_elem_of_nil in H.
  - intros H. destruct (names es p) as [|s l] eqn:E; [done|]. assert (s ∈ names es p) as Hs by (rewrite E; left).
    apply elem_of_names in Hs as [e He]. congruence.
Qed.

(** Nothing is below a missing entry. *)
Lemma absent_child p s : es !! p = None → es !! (p ++ [s]) = None.
Proof using Hok.
  intros Hp. destruct (es !! (p ++ [s])) as [e'|] eqn:E; [|done].
  destruct (parents_ok _ Hok p s) as (e & He & _); [by eexists|congruence].
Qed.
Lemma absent_below p q : es !! p = None → p `prefix_of` q → es !! q = None.
Proof using Hok.
  intros Hp [k ->]. induction k as [|s k IH] using rev_ind; [by rewrite app_nil_r|].
  rewrite (assoc_L (++)). by apply absent_child.
Qed.
Lemma no_names p : es !! p = None → names es p = [].
Proof using Hok. intros Hp. apply names_nil. intros s. by apply absent_child. Qed.

(** A new entry in a directory *)
Context (p : path) (parent : entry) (Hparent : es !! p = Some parent) (Hthrough : through parent = Ok ()) (s : jsstr)
  (Hnew : es !! (p ++ [s]) = None).

Lemma create_new t d : entries d = es → create (p ++ [s]) t d = (Ok (), add_entry (p ++ [s]) t d).
Proof using Hok Hparent Hthrough Hnew.
  intros E. unfold create. rewrite removelast_last, E, (find_some _ _ Hparent), Hthrough, Hnew. done.
Qed.
Lemma snoc_neq {A} (l : list A) x : l ≠ l ++ [x].
Proof. intros E. apply (f_equal length) in E. rewrite length_app in E. cbn in E. lia. Qed.
Lemma disk_ok_insert new : disk_ok (<[p ++ [s] := new]> es).
Proof using Hok Hparent Hthrough Hnew.
  split.
  - destruct (root_ok _ Hok) as (r & Hr & Ht). exists r. split; [|done]. rewrite lookup_insert_ne; [done|]. by destruct p.
  - intros q t Hq. assert (is_Some (es !! (q ++ [t])) ∨ q = p) as Hcases.
    { destruct (decide (p ++ [s] = q ++ [t])) as [E|E]; [right; by apply app_inj_2 in E as [-> _]|].
      left. by rewrite lookup_insert_ne in Hq. }
    assert (∃ e', es !! q = Some e' ∧ through e' = Ok ()) as (e' & He' & Ht)
      by (destruct Hcases as [H| ->]; [by apply (parents_ok _ Hok q t)|by exists parent]).
    exists e'. split; [|done]. rewrite lookup_insert_ne; [done|]. intros E. congruence.
Qed.
Lemma names_insert new : names es p = [] → names (<[p ++ [s] := new]> es) p = [s].
Proof using Hnew.
  intros E. apply Permutation_singleton_r. unfold names. rewrite map_to_list_insert by exact Hnew. cbn [omap list_omap fst].
  assert (name_in p (p ++ [s]) = Some s) as -> by (by apply name_in_spec). by rewrite <- E.
Qed.
End entries.

Lemma create_exists es p e t d : disk_ok es → es !! p = Some e → entries d = es → create p t d = (Err EEXIST, d).
Proof.
  intros Hok Hp E. unfold create. rewrite E. destruct p as [|s p _] using rev_ind.
  - cbn [removelast]. rewrite (find_some _ Hok _ _ Hp). destruct (root_ok _ Hok) as (r & Hr & Ht).
    assert (e = r) as -> by congruence. by rewrite Ht, Hr.
  - rewrite removelast_last. destruct (parents_ok _ Hok p s) as (r & Hr & Ht); [by eexists|].
    by rewrite (find_some _ Hok _ _ Hr), Ht, Hp.
Qed.

(** ** Rules *)

Section rules.
Context {B : Type} (n : nat) (Q : B → nat → disk → Prop) (d : disk).

Lemma under_ask {X} (c : call X) (f : X → prog B) :
  (under n Q (f (perform X c d).1) (perform X c d).2) →
  (∀ n' g x d', n = S n' → fail X c g d = Some (x, d') → under n' Q (f x) d') →
  under n Q (prog_bind f (ask c)) d.
Proof. intros Hw Hf. cbn [prog_bind ask under]. split; [exact Hw|]. destruct n; [done|]. intros. by eapply Hf. Qed.

(** A call that only looks either works or fails with some error. *)
Definition looks_at {A} (c : call (answer A)) (r : answer A) : Prop :=
  perform _ c d = (r, d) ∧ ∀ g, fail _ c g d = Some (Err (fault_error g), d).
Lemma under_look {A} (c : call (answer A)) r (f : answer A → prog B) :
  looks_at c r → under n Q (f r) d → (∀ n' x, n = S n' → under n' Q (f (Err x)) d) →
  under n Q (prog_bind f (ask c)) d.
Proof.
  intros [Hp Hf] Hw He. apply under_ask; [by rewrite Hp|]. intros n' g x d' Hn. rewrite Hf. intros [= <- <-]. by apply He.
Qed.
Lemma lstat_looks p : looks_at (Lstat p) (entry_stats <$> find_entry (entries d) p).
Proof. done. Qed.
Lemma stat_looks p : looks_at (Stat p) (e ← find_entry (entries d) p; follow e).
Proof. done. Qed.
Lemma readdir_looks p : looks_at (Readdir p) (list_names (entries d) p).
Proof. done. Qed.

Context (Hok : disk_ok (entries d)).
Lemma under_lstat p (f : answer Stats → prog B) :
  (∀ e, entries d !! p = Some e → under n Q (f (Ok (entry_stats e))) d) →
  (∀ n' x, (n' = n ∧ entries d !! p = None ∧ find_entry (entries d) p = Err x) ∨ n = S n' → under n' Q (f (Err x)) d) →
  under n Q (prog_bind f (ask (Lstat p))) d.
Proof using Hok.
  intros Hsome Hnone. eapply under_look; [apply lstat_looks| |by eauto].
  destruct (entries d !! p) as [e|] eqn:E.
  - rewrite (find_some _ Hok _ _ E). by apply Hsome.
  - destruct (find_none _ _ E) as [x Hx]. rewrite Hx. by apply Hnone; left.
Qed.
Lemma under_readdir p e (f : answer (list jsstr) → prog B) :
  entries d !! p = Some e → is_directory e →
  under n Q (f (Ok (names (entries d) p))) d → (∀ n' x, n = S n' → under n' Q (f (Err x)) d) →
  under n Q (prog_bind f (ask (Readdir p))) d.
Proof using Hok.
  intros He Hd Hw Hf. eapply under_look; [apply readdir_looks| |exact Hf].
  unfold list_names. rewrite (find_some _ Hok _ _ He). csimpl. by rewrite directory_through.
Qed.
End rules.
