(* ===== verification/Fixtures.v ===== *)
(** * The fixture check (scripts/validate-fixtures.mjs)

    The script that guards the conformance fixtures has a canonical JSON of its own: it
    rebuilds every object with sorted keys and prints it.  The text denotes the same tree
    as that of the core, and is the same text unless a key is an array index, which an
    object enumerates first.  The script is a program over the calls of [Process];
    [accepts] says when it ends well while the files stay what they are. *)
From S2P Require Import Prelude JsString JsNumber JsValue JsonText NumberText Canonical CanonicalSpec JsonRoundTrip.
From S2P Require Import ParsedJson JsonValues Stringify Utf8 Process Disk.
#[local] Arguments js : simpl never.
#[local] Open Scope async_scope.

(** ** Canonical text *)

(** [compareUnicodeCodePoints(left, right)] of the script *)
Definition compareUnicodeCodePoints (left right : jsstr) : Z :=
  let leftPoints := code_points left in
  let rightPoints := code_points right in
  default (Z.of_nat (length leftPoints) - Z.of_nat (length rightPoints))%Z
    (head (filter (λ difference, difference ≠ 0%Z) (zip_with (λ l r, (Z.of_N l - Z.of_N r)%Z) leftPoints rightPoints))).

(** [Object.fromEntries(entries)] *)
Definition fromEntries (entries : list (jsstr * json)) : json :=
  JObj (own_order (foldl (λ o entry, map_set entry.1 entry.2 o) [] entries)).

Fixpoint canonicalize (value : json) : json :=
  match value with
  | JArr items => JArr (map canonicalize items)
  | JObj props =>
      fromEntries (sort_by (λ p q, compareUnicodeCodePoints p.1 q.1) (map (λ p, (p.1, canonicalize p.2)) props))
  | _ => value
  end.

(** What is hashed *)
Definition serialized (value : json) : jsstr := stringify (canonicalize value).

(** *** The same order as the core's *)

Lemma compare_points_first left right :
  compare_points left right =
  default (Z.of_nat (length left) - Z.of_nat (length right))%Z
    (head (filter (λ difference, difference ≠ 0%Z) (zip_with (λ l r, (Z.of_N l - Z.of_N r)%Z) left right))).
Proof.
  revert right. induction left as [|x left IH]; intros [|y right]; try done. cbn [compare_points zip_with]. cbv zeta.
  rewrite filter_cons. destruct (Z.eqb_spec (Z.of_N x - Z.of_N y) 0) as [E|E].
  - rewrite decide_False by (intros H; by apply H). rewrite IH. cbn [length]. f_equal. lia.
  - by rewrite decide_True by done.
Qed.
Lemma compare_agrees left right : compareUnicodeCodePoints left right = JsString.compareUnicodeCodePoints left right.
Proof. unfold compareUnicodeCodePoints, JsString.compareUnicodeCodePoints. by rewrite compare_points_first. Qed.

Lemma sort_by_ext {A} (cmp cmp' : A → A → Z) l : (∀ x y, cmp x y = cmp' x y) → sort_by cmp l = sort_by cmp' l.
Proof. intros H. pose proof (sort_by_fmap id cmp' cmp l ltac:(done)) as E. by rewrite !list_fmap_id in E. Qed.

Lemma own_order_fmap {A B} (f : A → B) (m : list (jsstr * A)) :
  own_order ((λ p, (p.1, f p.2)) <$> m) = (λ p, (p.1, f p.2)) <$> own_order m.
Proof. unfold own_order. rewrite fmap_app, !filter_fmap. f_equal. symmetry. by apply sort_by_fmap. Qed.

#[local] Instance compare_index_comparator {A} : Comparator (λ p q : jsstr * A, compare_index p.1 q.1).
Proof. split; unfold cmp_le, compare_index; lia. Qed.
Lemma own_order_idem {A} (m : list (jsstr * A)) : own_order (own_order m) = own_order m.
Proof.
  unfold own_order at 2 3. set (a := sort_by _ _). set (b := filter _ m).
  assert (∀ p, p ∈ a → is_array_index p.1 = true) as Ha by (intros p Hp; apply elem_of_sort_by, list_elem_of_filter in Hp; by destruct Hp).
  assert (∀ p, p ∈ b → is_array_index p.1 = false) as Hb by (intros p Hp; apply list_elem_of_filter in Hp; by destruct Hp).
  unfold own_order. rewrite !filter_app, (filter_id _ a Ha), (filter_id _ b Hb), (filter_none _ a), (filter_none _ b), app_nil_r.
  - cbn [app]. f_equal. apply sort_by_sorted_id, sort_by_sorted, _.
  - intros p Hp. by rewrite (Hb p Hp).
  - intros p Hp. by rewrite (Ha p Hp).
Qed.

(** *** The same tree *)

Lemma canonicalize_obj props :
  NoDup props.*1 →
  canonicalize (JObj props) = JObj (own_order (sort_by compare_keys ((λ p, (p.1, canonicalize p.2)) <$> props))).
Proof.
  intros Hnd. cbn [canonicalize]. change (map ?f props) with (f <$> props).
  rewrite (sort_by_ext _ compare_keys) by (intros; apply compare_agrees). unfold fromEntries.
  rewrite foldl_map_set; [done|]. cbn [app]. by rewrite sort_by_Permutation, map_keys.
Qed.

Lemma canonicalize_ok j : json_ok j → json_ok (canonicalize j).
Proof.
  induction j as [|b|n|s|items IH|props IH] using json_nested_ind; intros Hok; try done.
  - apply json_ok_arr in Hok. apply json_ok_arr, Forall_fmap. exact (Forall_mp _ _ _ IH Hok).
  - apply json_ok_obj in Hok as (Hnd & Hwf & Hok). rewrite canonicalize_obj by done. apply json_ok_obj.
    rewrite own_order_keys, own_order_Permutation, !sort_by_Permutation, !map_keys. split_and!; [done..|].
    apply Forall_fmap. exact (Forall_mp (λ p, json_ok p.2) (λ p, json_ok (canonicalize p.2)) _ IH Hok).
Qed.

Lemma stringified_canonicalize j : json_ok j → stringified (canonicalize j) = canonical_form j.
Proof.
  induction j as [|b|n|s|items IH|props IH] using json_nested_ind; intros Hok; try done.
  - apply json_ok_num in Hok as [_ Hf]. cbn [canonicalize stringified canonical_form]. by rewrite Hf.
  - apply json_ok_arr in Hok. cbn [canonicalize stringified]. rewrite canonical_form_arr. f_equal.
    change (map ?f (map ?g items)) with (f <$> (g <$> items)). rewrite <- list_fmap_compose.
    apply list_fmap_ext. intros i x Hx. rewrite Forall_forall in IH, Hok.
    apply IH; [|apply Hok]; by eapply list_elem_of_lookup_2.
  - apply json_ok_obj in Hok as (Hnd & Hwf & Hok). rewrite canonicalize_obj by done. cbn [stringified canonical_form].
    change (map ?f ?l) with (f <$> l). rewrite <- own_order_fmap, own_order_idem. do 2 f_equal.
    rewrite (sort_by_fmap _ compare_keys compare_keys) by done. f_equal. rewrite <- list_fmap_compose.
    apply list_fmap_ext. intros i q Hq. unfold compose. cbn [fst snd]. f_equal.
    rewrite Forall_forall in IH, Hok. apply IH; [|apply Hok]; by eapply list_elem_of_lookup_2.
Qed.

(** The text reads back as the tree that the core's text denotes. *)
Lemma serialized_reads_back j : json_ok j → json_parse (serialized j) = json_parse (serializeCaptured j).
Proof.
  intros Hok. unfold serialized. rewrite json_parse_stringify by (by apply json_ok_parsed, canonicalize_ok).
  by rewrite stringified_canonicalize, json_parse_serialize.
Qed.

(** *** The same text *)

(** No key of the tree is an array index. *)
Fixpoint named_keys (j : json) : bool :=
  match j with
  | JArr items => forallb named_keys items
  | JObj props => forallb (λ p, negb (is_array_index p.1) && named_keys p.2) props
  | _ => true
  end.

Lemma serialized_canonical j : json_ok j → named_keys j = true → serialized j = serializeCaptured j.
Proof.
  unfold serialized. induction j as [|b|n|s|items IH|props IH] using json_nested_ind; intros Hok Hn; try done.
  - apply json_ok_num in Hok as [_ Hf]. cbn [canonicalize stringify serializeCaptured]. by rewrite Hf.
  - apply json_ok_arr in Hok. cbn [named_keys] in Hn. rewrite forallb_Forall in Hn. cbn [canonicalize stringify serializeCaptured].
    do 3 f_equal. change (map ?f (map ?g items)) with (f <$> (g <$> items)). rewrite <- list_fmap_compose.
    apply list_fmap_ext. intros i x Hx. apply list_elem_of_lookup_2 in Hx. rewrite Forall_forall in IH, Hok, Hn.
    by apply IH; [|apply Hok|apply Hn].
  - apply json_ok_obj in Hok as (Hnd & Hwf & Hok). cbn [named_keys] in Hn. rewrite forallb_Forall in Hn.
    rewrite canonicalize_obj, serialize_obj by done. rewrite own_order_plain.
    2: { rewrite sort_by_Permutation. apply Forall_fmap. eapply Forall_impl; [exact Hn|]. intros q Hq. cbv beta in Hq.
      apply andb_true_iff in Hq as [Hq _]. by apply negb_true_iff in Hq. }
    cbn [stringify]. do 3 f_equal. change (map ?f ?l) with (f <$> l).
    rewrite <- (sort_by_fmap _ compare_keys compare_keys), <- list_fmap_compose by done.
    apply list_fmap_ext. intros i q Hq. unfold compose, member, member_text. cbn [fst snd]. do 3 f_equal.
    apply list_elem_of_lookup_2, elem_of_sort_by in Hq. rewrite Forall_forall in IH, Hok, Hn.
    apply IH; [done|by apply Hok|]. specialize (Hn q Hq). cbv beta in Hn. by apply andb_true_iff in Hn as [_ Hn].
Qed.

(** Keys that are array indices come out in the order of an object, not of code points. *)
Example index_keys :
  let j := JObj [(js "9", JNull); (js "10", JNull)] in
  serialized j = jsq "{'9':null,'10':null}" ∧ serializeCaptured j = jsq "{'10':null,'9':null}".
Proof. vm_compute. done. Qed.

(** ** The script *)

#[local] Instance sys_error_eq_dec : EqDecision sys_error.
Proof. solve_decision. Defined.
#[local] Instance answer_eq_dec {A} `{EqDecision A} : EqDecision (answer A).
Proof. solve_decision. Defined.

(** What ends the script early *)
Inductive failure :=
  | Unreadable (error : sys_error)
  | SyntaxError
  | TypeError
  | AssertionError.

(** [value.key] for a key that no prototype has *)
Definition property (key : string) (value : json) : result failure (option json) :=
  match value with
  | JNull => Err TypeError
  | JObj props => Ok (get_own (js key) props)
  | _ => Ok None
  end.

(** [Object.entries(value)] *)
Definition entries_of (value : option json) : result failure (list (jsstr * json)) :=
  match value with
  | None | Some JNull => Err TypeError
  | Some (JObj props) => Ok (own_order props)
  | Some (JArr items) => Ok (imap (λ i item, (string_of_nat i, item)) items)
  | Some (JStr s) => Ok (imap (λ i c, (string_of_nat i, JStr [c])) s)
  | Some (JBool _ | JNum _) => Ok []
  end.

(** [value ?? {}] *)
Definition or_empty (value : option json) : option json :=
  match value with None | Some JNull => Some (JObj []) | _ => value end.

(** [Object.is] and [SameValueZero] of values that were parsed: two objects never are the same. *)
Definition primitive (value : json) : bool := match value with JArr _ | JObj _ => false | _ => true end.
Definition object_is (left right : option json) : bool :=
  bool_decide (left = right) && match left with Some value => primitive value | None => true end.
Definition same_value_zero (left right : option json) : bool :=
  object_is left right || match left, right with Some (JNum x), Some (JNum y) => num_eqb x y | _, _ => false end.

(** [new Set(values).size] *)
Definition set_size (values : list (option json)) : nat :=
  length (foldl (λ kept value, if existsb (same_value_zero value) kept then kept else kept ++ [value]) [] values).

(** [values.map(({ id }) => id)] *)
Definition ids_of (values : option json) : result failure (list (option json)) :=
  match values with
  | Some (JArr items) => traverse (property "id") items
  | _ => Err TypeError
  end.

Definition ends_with (suffix text : jsstr) : bool := bool_decide (drop (length text - length suffix) text = suffix).

(** [path.join] of an absolute path and a name *)
Definition join_name (root : path) (name : jsstr) : jsstr :=
  path_text (resolve_in root name) ++
  (if ends_with (js "/") name && negb (bool_decide (resolve_in root name = [])) then js "/" else []).

Definition assert (holds : bool) : async failure () := if holds then returns tt else throws AssertionError.
Definition lift {A} (r : result failure A) : async failure A := Ret r.
Fixpoint for_each {A} (body : A → async failure ()) (l : list A) : async failure () :=
  match l with [] => returns tt | x :: l => let* _ := body x in for_each body l end.

Section script.
Context (sha256 : list N → jsstr) (fixtureRoot : path).

Definition hash (value : json) : jsstr := sha256 (utf8_encode (serialized value)).

Definition loadJson (name : jsstr) : async failure json :=
  let* bytes := catch (ask (ReadFile (join_name fixtureRoot name))) (λ error, throws (Unreadable error)) in
  match json_parse (utf8_text bytes) with Some value => returns value | None => throws SyntaxError end.

Definition check_canonicalization (entry : jsstr * json) : async failure () :=
  let* value := loadJson entry.1 in
  let* sha := lift (property "sha256" entry.2) in
  assert (object_is (Some (JStr (hash value))) sha).

Definition check_checkpoint (entry : jsstr * json) : async failure () :=
  let* checkpoint := loadJson entry.1 in
  let* contentHash := lift (property "contentHash" checkpoint) in
  let* members := lift (entries_of (Some checkpoint)) in
  let body := JObj (filter (λ p, p.1 ≠ js "contentHash") members) in
  let* expected := lift (property "contentHash" entry.2) in
  let* _ := assert (object_is contentHash expected) in
  assert (object_is (Some (JStr (hash body))) expected).

Definition check_diamond : async failure () :=
  let* diamond := loadJson (js "diamond.graph.json") in
  let* apiVersion := lift (property "apiVersion" diamond) in
  let* _ := assert (object_is apiVersion (Some (JStr (js "graphengineering.reacher-z.github.io/v1alpha1")))) in
  let* kind := lift (property "kind" diamond) in
  let* _ := assert (object_is kind (Some (JStr (js "Graph")))) in
  let* nodes := lift (property "nodes" diamond) in
  let* nodeIds := lift (ids_of nodes) in
  let* _ := assert (set_size nodeIds =? length nodeIds)%nat in
  let* edges := lift (property "edges" diamond) in
  let* edgeIds := lift (ids_of edges) in
  assert (set_size edgeIds =? length edgeIds)%nat.

Definition validateFixtures : async failure () :=
  let* expected := loadJson (js "expected.json") in
  let* names := catch (ask (Readdir fixtureRoot)) (λ error, throws (Unreadable error)) in
  let fixtureNames := filter (λ name, ends_with (js ".json") name = true) names in
  let* _ := for_each (λ name, let* _ := loadJson name in returns tt) fixtureNames in
  let* canonicalization := lift (property "canonicalization" expected) in
  let* hashes := lift (entries_of canonicalization) in
  let* _ := for_each check_canonicalization hashes in
  let* checkpoints := lift (property "checkpoints" expected) in
  let* contentHashes := lift (entries_of (or_empty checkpoints)) in
  let* _ := for_each check_checkpoint contentHashes in
  let* _ := check_diamond in
  prog_bind (λ _, returns tt) (ask (Print Stdout
    (js "Validated " ++ string_of_nat (length fixtureNames) ++ js " JSON fixtures, " ++
     string_of_nat (length hashes) ++ js " graph hash, and " ++ string_of_nat (length contentHashes) ++
     js " checkpoint hash." ++ [10%N]))).
End script.

(** ** What the script establishes

    [accepts m P]: while the files stay what they are, [m] returns exactly the values of
    which [P] holds. *)
Section files.
Context (files : jsstr → answer (list N)) (listing : list jsstr).

Definition answered (e : event) : Prop :=
  match e with
  | Event c x =>
      match c in call X return X → Prop with
      | ReadFile file => λ bytes, bytes = files file
      | Readdir _ => λ names, names = Ok listing
      | _ => λ _, True
      end x
  end.

#[export] Instance answered_dec e : Decision (answered e).
Proof. destruct e as [X c x]. destruct c; cbn [answered]; apply _. Defined.

Definition accepts {E A} (m : async E A) (P : A → Prop) : Prop :=
  ∀ t r, Forall answered t → exec m t r → ∀ a, r = Ok a ↔ P a.

Lemma accepts_lift {A} (r : result failure A) : accepts (lift r) (λ a, r = Ok a).
Proof. by intros t r' _ [_ ->] a. Qed.
Lemma accepts_returns {E A} (a : A) : accepts (E := E) (returns a) (λ b, b = a).
Proof. intros t r _ [_ ->] b. split; [by intros [= ->]|by intros ->]. Qed.
Lemma accepts_mono {E A} (m : async E A) (P Q : A → Prop) : accepts m P → (∀ a, P a ↔ Q a) → accepts m Q.
Proof. intros H HPQ t r Ht Hr a. rewrite <- HPQ. by eapply H. Qed.

Lemma accepts_await {E A B} (m : async E A) (f : A → async E B) (P : A → Prop) (Q : A → B → Prop) :
  accepts m P → (∀ a, P a → accepts (f a) (Q a)) → accepts (await m f) (λ b, ∃ a, P a ∧ Q a b).
Proof.
  intros Hm Hf t r Ht Hr b. apply exec_bind in Hr as (t1 & t2 & ra & -> & H1 & H2).
  apply Forall_app in Ht as [Ht1 Ht2]. pose proof (Hm _ _ Ht1 H1) as Ha. destruct ra as [a|e].
  - pose proof (proj1 (Ha a) eq_refl) as HP. rewrite (Hf a HP _ _ Ht2 H2 b). split; [by eauto|].
    intros (a' & HP' & HQ). apply Ha in HP' as [= ->]. done.
  - destruct H2 as [_ ->]. split; [done|]. intros (a & HP & _). by apply Ha in HP.
Qed.

Lemma accepts_assert holds : accepts (assert holds) (λ _, holds = true).
Proof. intros t r _. unfold assert. destruct holds; intros [_ ->] []; (split; [done|]); done. Qed.

Lemma accepts_for_each {A} (body : A → async failure ()) (P : A → Prop) l :
  (∀ x, accepts (body x) (λ _, P x)) → accepts (for_each body l) (λ _, Forall P l).
Proof.
  intros H. induction l as [|x l IH]; cbn [for_each].
  - eapply accepts_mono; [apply accepts_returns|]. intros []. by rewrite Forall_nil.
  - eapply accepts_mono; [apply accepts_await; [apply H|intros a _; exact IH]|].
    intros []. cbv beta. rewrite Forall_cons. split; [by intros ([] & ? & ?)|]. intros [? ?]. by exists tt.
Qed.

Context (sha256 : list N → jsstr) (fixtureRoot : path).

(** The file [name] of the directory holds the text of [value]. *)
Definition fixture (name : jsstr) (value : json) : Prop :=
  ∃ bytes, files (join_name fixtureRoot name) = Ok bytes ∧ json_parse (utf8_text bytes) = Some value.

Lemma accepts_load name : accepts (loadJson fixtureRoot name) (fixture name).
Proof.
  intros t r Ht Hr value. apply exec_bind in Hr as (t1 & t2 & ra & -> & H1 & H2).
  apply exec_bind in H1 as (t3 & t4 & rb & -> & (x & t' & -> & [-> ->]) & H4).
  do 2 apply Forall_app in Ht as [Ht _]. apply Forall_cons in Ht as [-> _]. unfold fixture.
  destruct (files (join_name fixtureRoot name)) as [bytes|error]; destruct H4 as [_ ->]; cbv beta iota in H2.
  - destruct (json_parse (utf8_text bytes)) as [v|] eqn:E; destruct H2 as [_ ->].
    + split; [intros [= ->]; eauto|]. intros (? & [= <-] & E'). by rewrite E in E'; injection E' as ->.
    + split; [done|]. intros (? & [= <-] & E'). by rewrite E in E'.
  - destruct H2 as [_ ->]. split; [done|]. by intros (? & ? & _).
Qed.

(** [value.key] is the text. *)
Definition says_text (key : string) (value : json) (text : jsstr) : Prop :=
  ∃ props, value = JObj props ∧ get_own (js key) props = Some (JStr text).

Lemma object_is_text value text : object_is value (Some (JStr text)) = true ↔ value = Some (JStr text).
Proof.
  unfold object_is. rewrite andb_true_iff, bool_decide_eq_true. split; [by intros [? _]|]. by intros ->.
Qed.
Lemma property_text key value text : property key value = Ok (Some (JStr text)) ↔ says_text key value text.
Proof.
  unfold property, says_text. destruct value as [| | | | |props].
  6: { split; [intros [= E]; by exists props|]. intros (p & E & H). injection E as <-. by rewrite H. }
  all: split; [done|by intros (? & ? & ?)].
Qed.

(** The ids of the items are different values. *)
Definition distinct_ids (items : list json) : Prop :=
  ∃ ids, Forall2 (λ item id, property "id" item = Ok id) items ids ∧
    StronglySorted (λ x y, same_value_zero y x = false) ids.

Lemma set_size_bound kept values :
  length (foldl (λ kept value, if existsb (same_value_zero value) kept then kept else kept ++ [value]) kept values) ≤
  length kept + length values.
Proof.
  revert kept. induction values as [|v values IH]; intros kept; cbn [foldl length]; [lia|].
  etrans; [apply IH|]. destruct (existsb _ kept); [|rewrite length_app]; cbn [length]; lia.
Qed.
Lemma set_size_all kept values :
  length (foldl (λ kept value, if existsb (same_value_zero value) kept then kept else kept ++ [value]) kept values) =
    length kept + length values ↔
  Forall (λ v, existsb (same_value_zero v) kept = false) values ∧
  StronglySorted (λ x y, same_value_zero y x = false) values.
Proof.
  revert kept. induction values as [|v values IH]; intros kept; cbn [foldl length].
  { split; [by repeat constructor|lia]. }
  rewrite Forall_cons. destruct (existsb (same_value_zero v) kept) eqn:E.
  - pose proof (set_size_bound kept values). split; [lia|by intros [[] ?]].
  - transitivity (Forall (λ y, existsb (same_value_zero y) (kept ++ [v]) = false) values ∧
      StronglySorted (λ x y, same_value_zero y x = false) values).
    { rewrite <- IH, length_app. cbn [length]. lia. }
    assert (Forall (λ y, existsb (same_value_zero y) (kept ++ [v]) = false) values ↔
      Forall (λ y, existsb (same_value_zero y) kept = false) values ∧ Forall (λ y, same_value_zero y v = false) values) as ->.
    { rewrite <- Forall_and. apply Forall_iff. intros y. rewrite existsb_app, orb_false_iff. cbn [existsb]. by rewrite orb_false_r. }
    split; [intros [[? ?] ?]; split; [done|by constructor]|]. intros [[_ ?] Hs]. by apply StronglySorted_cons in Hs as [? ?].
Qed.

Lemma set_size_distinct ids :
  (set_size ids =? length ids)%nat = true ↔ StronglySorted (λ x y, same_value_zero y x = false) ids.
Proof.
  unfold set_size. rewrite Nat.eqb_eq, (set_size_all [] ids). split; [by intros [_ H]|]. by split; [apply Forall_true|].
Qed.

(** The file named by an entry has the hash that the entry promises. *)
Definition hash_kept (entry : jsstr * json) : Prop :=
  ∃ value, fixture entry.1 value ∧ says_text "sha256" entry.2 (hash sha256 value).
Definition checkpoint_kept (entry : jsstr * json) : Prop :=
  ∃ props, fixture entry.1 (JObj props) ∧
    let sha := hash sha256 (JObj (filter (λ p, p.1 ≠ js "contentHash") (own_order props))) in
    says_text "contentHash" (JObj props) sha ∧ says_text "contentHash" entry.2 sha.
Definition diamond_kept : Prop :=
  ∃ diamond nodes edges, fixture (js "diamond.graph.json") diamond ∧
    says_text "apiVersion" diamond (js "graphengineering.reacher-z.github.io/v1alpha1") ∧
    says_text "kind" diamond (js "Graph") ∧
    property "nodes" diamond = Ok (Some (JArr nodes)) ∧ distinct_ids nodes ∧
    property "edges" diamond = Ok (Some (JArr edges)) ∧ distinct_ids edges.

Lemma accepts_canonicalization entry :
  accepts (check_canonicalization sha256 fixtureRoot entry) (λ _, hash_kept entry).
Proof.
  eapply accepts_mono.
  - apply accepts_await; [apply accepts_load|]. intros value _. apply accepts_await; [apply accepts_lift|].
    intros sha _. apply accepts_assert.
  - intros []. unfold hash_kept. split.
    + intros (value & Hv & sha & Hs & E). exists value. split; [done|]. apply property_text.
      unfold object_is in E. apply andb_true_iff in E as [E%bool_decide_eq_true _]. by rewrite Hs, <- E.
    + intros (value & Hv & Hs). exists value. split; [done|]. apply property_text in Hs. eexists. split; [exact Hs|].
      by apply object_is_text.
Qed.

Lemma accepts_checkpoint entry : accepts (check_checkpoint sha256 fixtureRoot entry) (λ _, checkpoint_kept entry).
Proof.
  eapply accepts_mono.
  - apply accepts_await; [apply accepts_load|]. intros checkpoint _. apply accepts_await; [apply accepts_lift|].
    intros contentHash _. apply accepts_await; [apply accepts_lift|]. intros members _.
    apply accepts_await; [apply accepts_lift|]. intros expected _.
    apply accepts_await; [apply accepts_assert|]. intros a _. apply accepts_assert.
  - intros []. unfold checkpoint_kept. split.
    + intros (checkpoint & Hc & contentHash & Hh & members & Hm & expected & He & _ & E1 & E2).
      unfold object_is in E1, E2. apply andb_true_iff in E1 as [->%bool_decide_eq_true _].
      apply andb_true_iff in E2 as [<-%bool_decide_eq_true _]. apply property_text in Hh, He.
      destruct Hh as (props & -> & Hp). injection Hm as <-. exists props. split; [done|]. by split; [exists props|].
    + intros (props & Hc & Hp & He). apply property_text in Hp, He. exists (JObj props). split; [done|].
      eexists. split; [exact Hp|]. eexists. split; [done|]. eexists. split; [exact He|]. exists tt.
      by rewrite !object_is_text.
Qed.

Lemma ids_of_arr values ids :
  ids_of values = Ok ids ↔ ∃ items, values = Some (JArr items) ∧ Forall2 (λ item id, property "id" item = Ok id) items ids.
Proof.
  unfold ids_of. split.
  - destruct values as [[]|]; try done. intros H. eexists. split; [done|]. by apply traverse_Forall2.
  - intros (items & -> & H). induction H as [|item id items ids Hi _ IH]; [done|]. cbn [traverse]. by rewrite Hi, IH.
Qed.

Lemma accepts_diamond : accepts (check_diamond fixtureRoot) (λ _, diamond_kept).
Proof.
  eapply accepts_mono.
  - apply accepts_await; [apply accepts_load|]. intros diamond _.
    apply accepts_await; [apply accepts_lift|]. intros apiVersion _. apply accepts_await; [apply accepts_assert|]. intros a _.
    apply accepts_await; [apply accepts_lift|]. intros kind _. apply accepts_await; [apply accepts_assert|]. intros b _.
    apply accepts_await; [apply accepts_lift|]. intros nodes _. apply accepts_await; [apply accepts_lift|]. intros nodeIds _.
    apply accepts_await; [apply accepts_assert|]. intros c _.
    apply accepts_await; [apply accepts_lift|]. intros edges _. apply accepts_await; [apply accepts_lift|]. intros edgeIds _.
    apply accepts_assert.
  - intros []. unfold diamond_kept, distinct_ids. setoid_rewrite object_is_text. setoid_rewrite ids_of_arr.
    setoid_rewrite set_size_distinct. setoid_rewrite <- property_text. split.
    + intros (d & Hd & v & Hv & _ & -> & k & Hk & _ & -> & n & Hn & ns & (nodes & -> & Hns) & _ & Hnd & e & He & es &
        (edges & -> & Hes) & Hed). exists d, nodes, edges. eauto 15.
    + intros (d & nodes & edges & Hd & Hv & Hk & Hn & (ns & Hns & Hnd) & He & (es & Hes & Hed)).
      exists d. split; [done|]. do 2 (eexists; split; [eassumption|]; exists tt; split; [done|]).
      eexists. split; [eassumption|]. exists ns. split; [by eauto|]. exists tt. split; [done|].
      eexists. split; [eassumption|]. exists es. by eauto.
Qed.

(** The fixtures are what [expected.json] says they are. *)
Record consistent : Prop := {
  every_fixture_parses : ∀ name, name ∈ listing → ends_with (js ".json") name = true → ∃ value, fixture name value;
  expected_kept : ∃ props canonicalization hashes contentHashes,
    fixture (js "expected.json") (JObj props) ∧
    get_own (js "canonicalization") props = Some canonicalization ∧
    entries_of (Some canonicalization) = Ok hashes ∧ Forall hash_kept hashes ∧
    entries_of (or_empty (get_own (js "checkpoints") props)) = Ok contentHashes ∧ Forall checkpoint_kept contentHashes;
  the_diamond : diamond_kept
}.

Lemma accepts_listing :
  accepts (catch (ask (Readdir fixtureRoot)) (λ error, throws (Unreadable error))) (λ names, names = listing).
Proof.
  intros t r Ht Hr names. apply exec_bind in Hr as (t1 & t2 & ra & -> & (x & t' & -> & [-> ->]) & H2).
  apply Forall_app in Ht as [Ht _]. apply Forall_cons in Ht as [-> _]. destruct H2 as [_ ->].
  split; [by intros [= ->]|by intros ->].
Qed.
Lemma accepts_print (text : jsstr) :
  accepts (E := failure) (prog_bind (λ _, returns tt) (ask (Print Stdout text))) (λ _, True).
Proof. intros t r _ ([] & t' & -> & _ & ->) []. done. Qed.

Lemma accepts_fixtures names :
  accepts (for_each (λ name, let* _ := loadJson fixtureRoot name in returns tt) names)
    (λ _, Forall (λ name, ∃ value, fixture name value) names).
Proof.
  apply accepts_for_each. intros name. eapply accepts_mono.
  - apply accepts_await; [apply accepts_load|]. intros value _. apply accepts_returns.
  - intros []. split; [intros (v & Hv & _); by exists v|]. intros (v & Hv). by exists v.
Qed.

Lemma accepts_script : accepts (validateFixtures sha256 fixtureRoot) (λ _, consistent).
Proof.
  eapply accepts_mono.
  - apply accepts_await; [apply accepts_load|]. intros expected _. apply accepts_await; [apply accepts_listing|]. intros names _.
    apply accepts_await; [apply accepts_fixtures|]. intros a _. apply accepts_await; [apply accepts_lift|].
    intros canonicalization _. apply accepts_await; [apply accepts_lift|]. intros hashes _.
    apply accepts_await; [apply accepts_for_each, accepts_canonicalization|]. intros b _.
    apply accepts_await; [apply accepts_lift|]. intros checkpoints _. apply accepts_await; [apply accepts_lift|].
    intros contentHashes _. apply accepts_await; [apply accepts_for_each, accepts_checkpoint|]. intros c _.
    apply accepts_await; [apply accepts_diamond|]. intros d _. apply accepts_print.
  - intros []. split.
    + intros (e & He & _ & -> & _ & Hf & canon & Hc & hs & Hhs & _ & Hh & cp & Hcp & cs & Hcs & _ & Hck & _ & Hd & _).
      split; [|destruct e as [| | | | |props]; cbn [property] in Hc, Hcp; (try done); injection Hc as <-; try done|done].
      * intros name Hn Hj. rewrite Forall_forall in Hf. apply Hf. by apply list_elem_of_filter.
      * injection Hcp as <-. destruct (get_own (js "canonicalization") props) as [canon|] eqn:E; [|done].
        by exists props, canon, hs, cs.
    + intros [Hf (props & canon & hs & cs & He & Hc & Hhs & Hh & Hcs & Hck) Hd]. exists (JObj props). split; [done|].
      exists listing. split; [done|]. exists tt. split.
      { apply Forall_forall. intros name Hn. apply list_elem_of_filter in Hn as [Hj Hn]. by apply Hf. }
      cbn [property]. exists (Some canon). split; [by rewrite Hc|]. exists hs. split; [done|]. exists tt. split; [done|].
      eexists. split; [done|]. exists cs. split; [done|]. exists tt. split; [done|]. by exists tt.
Qed.
End files.

(** While the files of the fixture directory stay what they are, the script ends
    without an error exactly when they are what [expected.json] says: every JSON file of
    the directory parses, every file listed under [canonicalization] has the promised
    hash, every listed checkpoint carries, and its other members hash to, the promised
    one, and [diamond.graph.json] is a graph of this version with distinct ids.  A hash
    promised for a tree without array-index keys is that of the core's canonical text. *)
Theorem fixtures_checked (sha256 : list N → jsstr) fixtureRoot files listing t r :
  Forall (answered files listing) t → exec (validateFixtures sha256 fixtureRoot) t r →
  (r = Ok () ↔ consistent files listing sha256 fixtureRoot) ∧
  ∀ entry value, hash_kept files sha256 fixtureRoot entry → fixture files fixtureRoot entry.1 value →
    json_ok value → named_keys value = true →
    says_text "sha256" entry.2 (sha256 (utf8_encode (serializeCaptured value))).
Proof.
  intros Ht Hr. split; [by eapply accepts_script|].
  intros entry value (value' & Hv' & Hs) Hv Hok Hn. unfold fixture in Hv, Hv'. destruct Hv as (? & E & Hv), Hv' as (? & E' & Hv').
  rewrite E in E'. injection E' as <-. rewrite Hv in Hv'. injection Hv' as <-. unfold hash in Hs.
  by rewrite serialized_canonical in Hs.
Qed.

(** A directory of fixtures, hashed by a function that only counts the bytes *)
Definition text_entry (i : N) (text : string) : entry := Entry (Build_Stats 0 i RegularFile) (Err ENOENT) (utf8_encode (jsq text)).
Definition folder_entry (i : N) : entry := Entry (Build_Stats 0 i DirectoryFile) (Err ENOENT) [].
Definition fixture_disk : disk := Disk
  (list_to_map [([], folder_entry 1); ([js "f"], folder_entry 2);
    ([js "f"; js "expected.json"], text_entry 3
      "{'canonicalization':{'a.json':{'sha256':'13'}},'checkpoints':{'c.json':{'contentHash':'7'}}}");
    ([js "f"; js "a.json"], text_entry 4 "{ 'b': 1, 'a': 2 }");
    ([js "f"; js "c.json"], text_entry 5 "{'x':0,'contentHash':'7'}");
    ([js "f"; js "notes.txt"], text_entry 6 "no JSON");
    ([js "f"; js "diamond.graph.json"], text_entry 7
      "{'apiVersion':'graphengineering.reacher-z.github.io/v1alpha1','kind':'Graph','nodes':[{'id':'a'},{'id':'b'}],'edges':[]}")])
  8 ∅ [] (λ _, Err ENOENT).
Definition byte_count (bytes : list N) : jsstr := string_of_nat (length bytes).

Lemma fixtures_checked_witness :
  let files file := (perform _ (ReadFile file) fixture_disk).1 in
  let listing := names (entries fixture_disk) [js "f"] in
  consistent files listing byte_count [js "f"].
Proof.
  intros files listing.
  refine (proj1 (proj1 (fixtures_checked byte_count [js "f"] files listing
    (run_trace disk_handler (validateFixtures byte_count [js "f"]) (fixture_disk, [])) _ _ (exec_run _ _ _))) _).
  - apply (bool_decide_unpack _). vm_compute. exact I.
  - vm_compute. reflexivity.
Defined.
