(* ===== verification/GraphReading.v ===== *)
(** * Reading a document and reading its canonical form

    The compiler reads the tree it captured, which is the document in canonical form;
    its callers read the document itself.  Both readings give the same graph, up to
    the order of properties and the sign of zeros. *)
From S2P Require Import Prelude JsString JsNumber JsValue Canonical CanonicalSpec NumberText.
From S2P Require Import JsonRoundTrip JsonValues SchemaValidation GraphIR Compiler CompilerSpec.
#[local] Arguments js : simpl never.
#[local] Arguments field : simpl never.
#[local] Arguments opt_field : simpl never.

(** ** Canonical graphs *)

(** A map with its entries in canonical order *)
Definition canonical_map {A} (f : A → A) (m : list (jsstr * A)) : list (jsstr * A) :=
  own_order (sort_by compare_keys ((λ p, (p.1, f p.2)) <$> m)).

Definition canonical_metadata (m : GraphMetadata) : GraphMetadata :=
  Build_GraphMetadata (metadata_name m) (metadata_version m) (metadata_description m)
    (canonical_map id <$> metadata_labels m).
Definition canonical_retry (r : RetryPolicy) : RetryPolicy :=
  Build_RetryPolicy (retry_maxAttempts r) (retry_initialDelayMs r) (retry_maxDelayMs r)
    (num_unsign_zero <$> retry_backoffMultiplier r) (retry_jitter r).
Definition canonical_node (n : NodeSpec) : NodeSpec :=
  Build_NodeSpec (node_id n) (node_kind n) (canonical_props (node_inputSchema n))
    (canonical_props (node_outputSchema n)) (canonical_form (node_config n))
    (canonical_retry <$> node_retry n) (node_timeoutMs n) (canonical_props <$> node_cache n)
    (canonical_props <$> node_resources n) (canonical_props <$> node_isolation n) (node_sideEffects n).
Definition canonical_edge (e : EdgeSpec) : EdgeSpec :=
  Build_EdgeSpec (edge_id e) (edge_from e) (edge_to e) (canonical_props <$> edge_map e)
    (canonical_props <$> edge_condition e) (edge_mode e) (canonical_props <$> edge_schema e).
Definition canonical_policies (p : GraphPolicies) : GraphPolicies :=
  Build_GraphPolicies (policy_maxConcurrency p) (policy_maxDynamicNodes p) (policy_maxDepth p)
    (policy_maxFanOut p) (policy_maxTotalAttempts p) (policy_maxDurationMs p)
    (num_unsign_zero <$> policy_maxCostUsd p).
Definition canonical_graph (g : GraphSpec) : GraphSpec :=
  Build_GraphSpec (canonical_metadata (graph_metadata g)) (canonical_props (graph_inputSchema g))
    (canonical_props (graph_outputSchema g)) (canonical_props <$> graph_stateSchema g) (graph_entrypoints g)
    (canonical_map id (graph_outputs g)) (canonical_node <$> graph_nodes g)
    (canonical_edge <$> graph_edges g) (canonical_policies <$> graph_policies g).

(** ** Decoders that commute with the canonical form *)

Class Reads {A} (dec : json → option A) (canon : A → A) : Prop :=
  reads_canonical j : json_ok j → dec (canonical_form j) = canon <$> dec j.

#[export] Instance reads_as_string : Reads as_string id.
Proof. by intros []. Qed.
#[export] Instance reads_as_bool : Reads as_bool id.
Proof. by intros []. Qed.
#[export] Instance reads_as_num : Reads as_num num_unsign_zero.
Proof. by intros []. Qed.
#[export] Instance reads_as_integer : Reads as_integer id.
Proof.
  intros [| |n| | |] _; try done. cbn [canonical_form]. destruct n as [[]|s| |s m e]; try done.
  cbn [num_unsign_zero]. by destruct (as_integer _).
Qed.
#[export] Instance reads_as_enum {A} (table : list (jsstr * A)) : Reads (as_enum table) id.
Proof. intros [| | |s| |] _; try done. cbn. by destruct (map_get s table). Qed.
#[export] Instance reads_constant s : Reads (as_constant s) id.
Proof. unfold as_constant. intros [| | |t| |] _; try done; cbn [canonical_form]; repeat case_decide; done. Qed.
#[export] Instance reads_record : Reads record canonical_props.
Proof. by intros []. Qed.
#[export] Instance reads_any : Reads Some canonical_form.
Proof. done. Qed.

(** Entries of an object, in any order *)
Lemma json_ok_entries props : json_ok (JObj props) → NoDup props.*1 ∧ Forall (λ p, json_ok p.2) props.
Proof. intros (? & _ & ?)%json_ok_obj. done. Qed.

Lemma json_ok_entry k props j : json_ok (JObj props) → get_own k props = Some j → json_ok j.
Proof.
  intros [_ H]%json_ok_entries Hk. apply map_get_Some_elem in Hk. rewrite Forall_forall in H. exact (H _ Hk).
Qed.

Lemma sort_insert_Forall2 {A B} (R : A → B → Prop) cmpA cmpB x y l k :
  (∀ x y x' y', R x x' → R y y' → cmpB x' y' = cmpA x y) → R x y → Forall2 R l k →
  Forall2 R (sort_insert cmpA x l) (sort_insert cmpB y k).
Proof.
  intros Hc Hxy Hl. induction Hl as [|a b l k Hab Hl IH]; simpl; [by repeat constructor|].
  rewrite (Hc x a y b Hxy Hab). destruct (cmpA x a <=? 0)%Z; by repeat constructor.
Qed.
Lemma sort_by_Forall2 {A B} (R : A → B → Prop) cmpA cmpB l k :
  (∀ x y x' y', R x x' → R y y' → cmpB x' y' = cmpA x y) → Forall2 R l k →
  Forall2 R (sort_by cmpA l) (sort_by cmpB k).
Proof. intros Hc Hl. induction Hl; simpl; [constructor|by apply sort_insert_Forall2]. Qed.
Lemma filter_Forall2 {A B} (R : A → B → Prop) (P : A → Prop) (Q : B → Prop)
    `{∀ x, Decision (P x)} `{∀ x, Decision (Q x)} l k :
  (∀ x y, R x y → P x ↔ Q y) → Forall2 R l k → Forall2 R (filter P l) (filter Q k).
Proof.
  intros Hi Hl. induction Hl as [|x y l k Hxy Hl IH]; [constructor|].
  destruct (decide (P x)) as [Hp|Hp].
  - rewrite filter_cons_True, (filter_cons_True Q) by (try done; by apply (Hi x y)). by constructor.
  - rewrite filter_cons_False, (filter_cons_False Q) by (try done; by intros ?%(Hi x y)). done.
Qed.

(** Reordering by keys commutes with what happens to the values. *)
Lemma canonical_order_Forall2 {A B} (R : A → B → Prop) (m : list (jsstr * A)) (m' : list (jsstr * B)) :
  Forall2 (λ p q, p.1 = q.1 ∧ R p.2 q.2) m m' →
  Forall2 (λ p q, p.1 = q.1 ∧ R p.2 q.2) (own_order (sort_by compare_keys m)) (own_order (sort_by compare_keys m')).
Proof.
  intros H.
  assert (Forall2 (λ p q, p.1 = q.1 ∧ R p.2 q.2) (sort_by compare_keys m) (sort_by compare_keys m')) as Hs.
  { apply sort_by_Forall2; [|done]. intros p q p' q' [Hp _] [Hq _]. unfold compare_keys. by rewrite Hp, Hq. }
  unfold own_order. apply Forall2_app.
  - apply sort_by_Forall2; [intros p q p' q' [-> _] [-> _]; done|].
    apply filter_Forall2; [|done]. by intros p q [-> _].
  - apply filter_Forall2; [|done]. by intros p q [-> _].
Qed.

Lemma mapM_None_in {A B} (f : A → option B) l x : x ∈ l → f x = None → mapM f l = None.
Proof.
  intros Hx Hf. destruct (mapM f l) as [k|] eqn:E; [|done]. apply mapM_Some in E.
  apply list_elem_of_lookup in Hx as [i Hi]. destruct (Forall2_lookup_l _ _ _ _ _ E Hi) as (y & _ & ?). congruence.
Qed.

#[export] Instance reads_as_map {A} (dec : json → option A) canon :
  Reads dec canon → Reads (as_map dec) (canonical_map canon).
Proof.
  intros Hdec [| | | | |props] Hj; try done. apply json_ok_entries in Hj as [_ Hall].
  unfold as_map. change (record (canonical_form (JObj props))) with (Some (canonical_props props)).
  cbn [record mbind option_bind]. unfold canonical_props.
  set (f := λ p : jsstr * json, x ← dec p.2; Some (p.1, x)).
  destruct (mapM f props) as [m|] eqn:E; cbn [fmap option_fmap option_map].
  - apply mapM_Some in E. apply mapM_Some.
    assert (Forall2 (λ p q : jsstr * _, p.1 = q.1 ∧ dec p.2 = Some q.2)
      (map (λ p, (p.1, canonical_form p.2)) props) ((λ p, (p.1, canon p.2)) <$> m)) as H.
    { change (map ?g props) with (g <$> props). apply Forall2_fmap. revert Hall.
      induction E as [|p q props m Hpq _ IH]; intros Hall; [constructor|]. apply Forall_cons in Hall as [Hp Hall].
      constructor; [|by apply IH]. unfold f in Hpq. destruct (dec p.2) as [x|] eqn:Hd; [|done].
      injection Hpq as <-. cbn [fst snd]. split; [done|]. by rewrite (reads_canonical (Reads := Hdec)), Hd. }
    apply (canonical_order_Forall2 (λ j x, dec j = Some x)) in H. eapply Forall2_impl; [exact H|]. intros [k j] [k' x] [Hk Hd].
    simpl in *. subst k'. unfold f. cbn [fst snd]. by rewrite Hd.
  - apply mapM_None, Exists_exists in E as (p & Hp & Hf). unfold f in Hf.
    assert ((p.1, canonical_form p.2) ∈ canonical_props props) as Hin.
    { rewrite canonical_props_perm. change (map ?g props) with (g <$> props).
      apply list_elem_of_fmap. by exists p. }
    apply (mapM_None_in _ _ _ Hin). unfold f. cbn [fst snd].
    rewrite Forall_forall in Hall. rewrite (reads_canonical (Reads := Hdec)) by (by apply Hall).
    by destruct (dec p.2).
Qed.

#[export] Instance reads_array {A} (dec : json → option A) canon :
  Reads dec canon → Reads (A:=list A) (λ v, as_array v ≫= mapM dec) (fmap (M:=list) canon).
Proof.
  intros Hdec [| | | |items|] Hj; try done. apply json_ok_arr in Hj. cbn [canonical_form as_array mbind option_bind].
  induction Hj as [|j items Hj _ IH]; [done|]. cbn [map mapM]. rewrite (reads_canonical (Reads := Hdec)), IH by done.
  destruct (dec j), (mapM dec items); done.
Qed.

(** ** Fields and records *)

Lemma field_reads {A} k (dec : json → option A) canon props :
  Reads dec canon → json_ok (JObj props) → field k dec (canonical_props props) = canon <$> field k dec props.
Proof.
  intros Hdec Hj. unfold field. rewrite get_own_canonical by (by apply json_ok_entries).
  destruct (get_own k props) as [j|] eqn:E; [|done]. cbn. apply (reads_canonical (Reads := Hdec)).
  by eapply json_ok_entry.
Qed.

Lemma opt_field_reads {A} k (dec : json → option A) canon props :
  Reads dec canon → json_ok (JObj props) →
  opt_field k dec (canonical_props props) = (λ o : option A, canon <$> o) <$> opt_field k dec props.
Proof.
  intros Hdec Hj. unfold opt_field. rewrite get_own_canonical by (by apply json_ok_entries).
  destruct (get_own k props) as [j|] eqn:E; [|done]. cbn.
  rewrite (reads_canonical (Reads := Hdec)) by (by eapply json_ok_entry). by destruct (dec j).
Qed.

Lemma as_record_reads {A} allowed (body : list (jsstr * json) → option A) canon :
  (∀ props, json_ok (JObj props) → body (canonical_props props) = canon <$> body props) →
  Reads (λ v, props ← as_record allowed v; body props) canon.
Proof.
  intros H [| | | | |props] Hj; try done. unfold as_record.
  change (record (canonical_form (JObj props))) with (Some (canonical_props props)). cbn [record mbind option_bind].
  assert (forallb (λ k, bool_decide (k ∈ allowed)) (canonical_props props).*1 =
    forallb (λ k, bool_decide (k ∈ allowed)) props.*1) as ->.
  { apply eq_true_iff_eq. rewrite !forallb_Forall. by rewrite canonical_props_keys. }
  destruct (forallb _ props.*1); [by apply H|done].
Qed.

Ltac read_fields Hj :=
  rewrite ?(field_reads _ _ _ _ _ Hj), ?(opt_field_reads _ _ _ _ _ Hj);
  repeat match goal with
  | |- context [field ?k ?d ?p] => destruct (field k d p); cbn [fmap option_fmap option_map mbind option_bind]; [|done]
  | |- context [opt_field ?k ?d ?p] => destruct (opt_field k d p); cbn [fmap option_fmap option_map mbind option_bind]; [|done]
  end.

Lemma option_fmap_id' {A} (o : option A) : id <$> o = o.
Proof. by destruct o. Qed.

#[export] Instance reads_metadata : Reads metadata_of_json canonical_metadata.
Proof. apply as_record_reads. intros props Hj. read_fields Hj. unfold canonical_metadata. by rewrite !option_fmap_id'. Qed.
#[export] Instance reads_endpoint : Reads endpoint_of_json id.
Proof. apply as_record_reads. intros props Hj. read_fields Hj. by rewrite !option_fmap_id'. Qed.
#[export] Instance reads_retry : Reads retry_of_json canonical_retry.
Proof. apply as_record_reads. intros props Hj. read_fields Hj. unfold canonical_retry. by rewrite !option_fmap_id'. Qed.
#[export] Instance reads_node : Reads node_of_json canonical_node.
Proof. apply as_record_reads. intros props Hj. read_fields Hj. unfold canonical_node. by rewrite !option_fmap_id'. Qed.
#[export] Instance reads_edge : Reads edge_of_json canonical_edge.
Proof. apply as_record_reads. intros props Hj. read_fields Hj. unfold canonical_edge. by rewrite !option_fmap_id'. Qed.
#[export] Instance reads_policies : Reads policies_of_json canonical_policies.
Proof.
  intros [| | | | |props] Hj; try done. unfold policies_of_json.
  change (record (canonical_form (JObj props))) with (Some (canonical_props props)). cbn [record mbind option_bind].
  read_fields Hj. unfold canonical_policies. by rewrite !option_fmap_id'.
Qed.

Lemma fmap_id' {A} (l : list A) : id <$> l = l.
Proof. apply list_fmap_id. Qed.

(** The graph of the canonical form is the graph of the document, in canonical form. *)
Lemma graph_of_json_canonical j :
  json_ok j → graph_of_json (canonical_form j) = canonical_graph <$> graph_of_json j.
Proof.
  assert (Reads graph_of_json canonical_graph) as H; [|apply H].
  apply as_record_reads. intros props Hj. read_fields Hj. unfold canonical_graph. by rewrite fmap_id'.
Qed.
