(* ===== verification/CliValidation.v ===== *)
(** * Validation and planning for the tools (packages/cli/src/validation.ts, planner.ts)

    The command line's view of a core compilation, and the plan of a valid graph.
    The graph of a valid document is the typed reading of the document itself, not of
    the copy the core captured: its outputs keep the order of the document. *)
From S2P Require Import Prelude JsString JsNumber JsValue Canonical CanonicalSpec NumberText.
From S2P Require Import JsonRoundTrip ParsedJson JsonValues SchemaValidation GraphIR Compiler CompilerSpec GraphReading.
#[local] Arguments js : simpl never.

Record ValidationResult := {
  v_valid : bool;
  v_graph : option GraphSpec;
  v_graphName : option jsstr;
  v_canonicalSha256 : option jsstr;
  v_canonicalGraph : option jsstr;
  v_topologicalLayers : list (list jsstr);
  v_diagnostics : list CompilerDiagnostic;
  v_diagnosticCodes : list DiagnosticCode
}.

Record GraphPlan := {
  plan_graphName : jsstr;
  plan_canonicalSha256 : jsstr;
  plan_nodeCount : nat;
  plan_edgeCount : nat;
  plan_layerCount : nat;
  plan_maxParallelWidth : nat;
  plan_configuredMaxConcurrency : option Z;
  plan_topologicalLayers : list (list jsstr)
}.

(** [[...new Set(diagnostics.map((item) => item.code))]] *)
Definition uniqueCodes (diagnostics : list CompilerDiagnostic) : list DiagnosticCode :=
  set_of_list (code <$> diagnostics).

Section validation.
Context (hash : jsstr → jsstr).

(** [compileGraph] of a value that [JSON.parse] returned *)
Definition compile_json (value : json) : CompilationResult :=
  let '(h, v) := value_of_json value in compileGraph hash h v.

Definition validateGraphDocument (value : json) : ValidationResult :=
  let compilation := compile_json value in
  let graph := if valid compilation then graph_of_json value else None in
  Build_ValidationResult (valid compilation) graph ((λ g, metadata_name (graph_metadata g)) <$> graph)
    (graphHash compilation) (canonicalGraph compilation) (topologicalLayers compilation)
    (diagnostics compilation) (uniqueCodes (diagnostics compilation)).
End validation.

(** [Math.max(0, ...lengths)] *)
Definition maximum (l : list nat) : nat := foldr Nat.max 0 l.

(** [planGraph(graph, validation)]; the error it throws is its message. *)
Definition planGraph (graph : GraphSpec) (validation : ValidationResult) : result jsstr GraphPlan :=
  match v_valid validation, v_canonicalSha256 validation with
  | true, Some canonicalSha256 =>
      let layers := v_topologicalLayers validation in
      Ok (Build_GraphPlan (metadata_name (graph_metadata graph)) canonicalSha256
            (length (graph_nodes graph)) (length (graph_edges graph)) (length layers)
            (maximum (length <$> layers)) (graph_policies graph ≫= policy_maxConcurrency) layers)
  | _, _ => Err (js "cannot plan an invalid graph")
  end.

(** ** Reading and its canonical form *)

Lemma canonical_graph_ids g : graph_ids (canonical_graph g) = graph_ids g.
Proof. unfold graph_ids. cbn [canonical_graph graph_nodes]. by rewrite <- list_fmap_compose. Qed.
Lemma canonical_graph_pairs g : graph_pairs (canonical_graph g) = graph_pairs g.
Proof. unfold graph_pairs, edge_pairs. cbn [canonical_graph graph_edges]. by rewrite <- list_fmap_compose. Qed.
Lemma canonical_map_id_perm {A} (m : list (jsstr * A)) : canonical_map id m ≡ₚ m.
Proof.
  unfold canonical_map. rewrite own_order_Permutation, sort_by_Permutation.
  apply reflexive_eq. rewrite <- (list_fmap_id m) at 2. apply list_fmap_ext. by intros i [].
Qed.

Lemma canonical_policies_same g :
  (graph_policies (canonical_graph g) ≫= policy_maxFanOut) = (graph_policies g ≫= policy_maxFanOut) ∧
  (graph_policies (canonical_graph g) ≫= policy_maxDepth) = (graph_policies g ≫= policy_maxDepth).
Proof. cbn [canonical_graph graph_policies]. by destruct (graph_policies g). Qed.

Lemma references_canonical g : references_ok (canonical_graph g) ↔ references_ok g.
Proof.
  assert (edge_id <$> graph_edges (canonical_graph g) = edge_id <$> graph_edges g) as He.
  { cbn [canonical_graph graph_edges]. by rewrite <- list_fmap_compose. }
  assert (Forall (λ p, endpoint_node p.2 ∈ graph_ids g) (graph_outputs (canonical_graph g)) ↔
    Forall (λ p, endpoint_node p.2 ∈ graph_ids g) (graph_outputs g)) as Ho.
  { cbn [canonical_graph graph_outputs]. by rewrite canonical_map_id_perm. }
  split; intros [H1 H2 H3 H4 H5]; rewrite ?canonical_graph_ids, ?canonical_graph_pairs in *;
    (split; rewrite ?canonical_graph_ids, ?canonical_graph_pairs; try done; try (by rewrite He in *); by apply Ho).
Qed.

(** The canonical form has the same references, cycles, reachability and policies. *)
Lemma well_formed_canonical g : well_formed (canonical_graph g) ↔ well_formed g.
Proof.
  destruct (canonical_policies_same g) as [Hf Hd].
  split; intros [H1 H2 H3 H4 H5 H6]; rewrite ?canonical_graph_ids, ?canonical_graph_pairs, ?Hf, ?Hd in *;
    (split; rewrite ?canonical_graph_ids, ?canonical_graph_pairs, ?Hf, ?Hd; try done; by apply references_canonical).
Qed.

Lemma at_least_unsigned lo x : num_at_least lo (num_unsign_zero x) ↔ num_at_least lo x.
Proof. unfold num_at_least. by destruct x as [[]| | |]. Qed.

Lemma when_present_fmap {A B} (f : A → B) P (o : option A) : when_present P (f <$> o) ↔ when_present (P ∘ f) o.
Proof. by destruct o. Qed.
Lemma when_present_iff {A} (P Q : A → Prop) o : (∀ x, P x ↔ Q x) → when_present P o ↔ when_present Q o.
Proof. intros H. by destruct o; simpl. Qed.

Lemma node_ok_canonical n : node_ok (canonical_node n) ↔ node_ok n.
Proof.
  unfold node_ok. cbn [canonical_node node_id node_retry node_timeoutMs]. rewrite when_present_fmap.
  rewrite (when_present_iff (retry_ok ∘ canonical_retry) retry_ok); [done|]. intros r. unfold compose, retry_ok.
  cbn [canonical_retry retry_maxAttempts retry_initialDelayMs retry_maxDelayMs retry_backoffMultiplier].
  rewrite when_present_fmap. rewrite (when_present_iff (num_at_least 1 ∘ num_unsign_zero) (num_at_least 1)); [done|].
  intros x. apply at_least_unsigned.
Qed.

Lemma policies_ok_canonical p : policies_ok (canonical_policies p) ↔ policies_ok p.
Proof.
  unfold policies_ok.
  cbn [canonical_policies policy_maxConcurrency policy_maxDynamicNodes policy_maxDepth policy_maxFanOut
    policy_maxTotalAttempts policy_maxDurationMs policy_maxCostUsd].
  rewrite when_present_fmap.
  rewrite (when_present_iff ((λ c, num_finite c = true ∧ num_at_least 0 c) ∘ num_unsign_zero)
    (λ c, num_finite c = true ∧ num_at_least 0 c)); [done|].
  intros x. unfold compose. rewrite at_least_unsigned. by destruct x.
Qed.

Lemma graph_ok_canonical g : graph_ok (canonical_graph g) ↔ graph_ok g.
Proof.
  unfold graph_ok.
  cbn [canonical_graph graph_metadata graph_entrypoints graph_outputs graph_nodes graph_edges graph_policies].
  unfold metadata_ok. cbn [canonical_metadata metadata_name metadata_version].
  rewrite !Forall_fmap, when_present_fmap.
  assert (canonical_map id (graph_outputs g) ≠ [] ↔ graph_outputs g ≠ []) as ->.
  { split; intros H E; apply H; [by rewrite E|].
    pose proof (canonical_map_id_perm (graph_outputs g)) as Hp. rewrite E in Hp. symmetry. by apply Permutation_nil_l. }
  assert (Forall (λ p, endpoint_ok p.2) (canonical_map id (graph_outputs g)) ↔
    Forall (λ p, endpoint_ok p.2) (graph_outputs g)) as -> by (by rewrite canonical_map_id_perm).
  rewrite (when_present_iff (policies_ok ∘ canonical_policies) policies_ok) by apply policies_ok_canonical.
  assert (Forall (node_ok ∘ canonical_node) (graph_nodes g) ↔ Forall node_ok (graph_nodes g)) as ->
    by (apply Forall_iff; intros; apply node_ok_canonical).
  done.
Qed.

(** ** What the core makes of a parsed document *)

Definition encodes (j : json) (g : GraphSpec) : Prop :=
  json_ok j ∧ interoperable j ∧ graph_of_json j = Some g ∧ graph_ok g.

Lemma encodes_functional j g g' : encodes j g → encodes j g' → g = g'.
Proof. intros (_ & _ & H & _) (_ & _ & H' & _). congruence. Qed.

(** A document either encodes a graph, which is analysed, or is rejected with one
    diagnostic and nothing else. *)
Lemma compile_json_cases hash j :
  parsed_ok j →
  (∃ g, encodes j g ∧
     compile_json hash j =
       compile_graph (canonical_graph g) (Some (hash (serializeCaptured j))) (Some (serializeCaptured j))) ∨
  ((∀ g, ¬ encodes j g) ∧ ∃ message, compile_json hash j = invalid_result message).
Proof.
  intros Hj. pose proof (captured_document j Hj) as Hcap. unfold compile_json.
  destruct (value_of_json j) as [h v]. destruct Hcap as [Hh Hport]. unfold compileGraph.
  destruct (captureCanonicalJson_cases h v Hh) as [(j' & Hj' & ->)|[(message & path & ->) Hn]].
  - apply Hport in Hj' as (Hok & Hi & ->). rewrite serialize_canonical by done.
    destruct (SchemaValidation.validateGraphDocument (canonical_form j)) as [|issue issues] eqn:Hissues.
    + apply validateGraphDocument_nil in Hissues as (g' & Hg' & Hgok). left. rewrite Hg'.
      rewrite graph_of_json_canonical in Hg' by done. apply fmap_Some in Hg' as (g & Hg & ->).
      apply (graph_ok_canonical g) in Hgok. by exists g.
    + right. split; [|by eexists]. intros g (_ & _ & Hg & Hgok). apply graph_ok_canonical in Hgok.
      assert (SchemaValidation.validateGraphDocument (canonical_form j) = []) as E; [|by rewrite E in Hissues].
      apply validateGraphDocument_nil. exists (canonical_graph g). by rewrite graph_of_json_canonical, Hg.
  - right. split; [|by eexists]. intros g (Hok & Hi & _). apply (Hn (canonical_form j)). by apply Hport.
Qed.

Lemma encodes_policies j g : encodes j g → when_present policies_ok (graph_policies (canonical_graph g)).
Proof. intros (_ & _ & _ & Hok). apply graph_ok_canonical in Hok. unfold graph_ok in Hok. tauto. Qed.

(** A document is valid exactly when it encodes a well-formed graph. *)
Lemma compile_json_valid hash j :
  parsed_ok j → valid (compile_json hash j) = true ↔ ∃ g, encodes j g ∧ well_formed g.
Proof.
  intros Hj. destruct (compile_json_cases hash j Hj) as [(g & Hg & ->)|[Hn (m & ->)]].
  - rewrite compile_graph_valid_iff by (by eapply encodes_policies). rewrite well_formed_canonical.
    split; [by exists g|]. intros (g' & Hg' & Hwf). by rewrite (encodes_functional j g g').
  - split; [done|]. intros (g & Hg & _). by destruct (Hn g).
Qed.

(** The fields of a compilation that come from the document *)
Lemma compile_graph_texts g hash canonical :
  graphHash (compile_graph g hash canonical) = hash ∧ canonicalGraph (compile_graph g hash canonical) = canonical.
Proof.
  unfold compile_graph. destruct (index_nodes _ _ _ _). destruct (check_edges _ _ _ _).
  destruct (0 <? _); [done|]. cbv zeta. destruct (layer_loop _ _ _ _ _ _). by destruct (0 <? _).
Qed.

(** What a valid result says, read from the document itself *)
Lemma validateGraphDocument_valid hash j :
  parsed_ok j → v_valid (validateGraphDocument hash j) = true →
  ∃ g, encodes j g ∧ well_formed g ∧ v_graph (validateGraphDocument hash j) = Some g ∧
    v_graphName (validateGraphDocument hash j) = Some (metadata_name (graph_metadata g)) ∧
    v_canonicalSha256 (validateGraphDocument hash j) = Some (hash (serializeCaptured j)) ∧
    v_canonicalGraph (validateGraphDocument hash j) = Some (serializeCaptured j).
Proof.
  intros Hj Hv. pose proof Hv as Hv'. unfold validateGraphDocument in Hv |- *. cbn [v_valid] in Hv.
  cbn [v_graph v_graphName v_canonicalSha256 v_canonicalGraph]. rewrite Hv.
  destruct (compile_json_cases hash j Hj) as [(g & Hg & E)|[Hn (m & E)]]; rewrite E in Hv |- *; [|done].
  destruct (compile_graph_texts (canonical_graph g) (Some (hash (serializeCaptured j))) (Some (serializeCaptured j))) as [-> ->].
  apply compile_graph_valid_iff in Hv; [|by eapply encodes_policies]. apply (well_formed_canonical g) in Hv.
  pose proof Hg as (_ & _ & Hread & _). rewrite Hread. by exists g.
Qed.

(** The layers of a valid document: its plan *)
Lemma planGraph_valid hash j :
  parsed_ok j → v_valid (validateGraphDocument hash j) = true →
  ∃ g plan, encodes j g ∧ v_graph (validateGraphDocument hash j) = Some g ∧
    planGraph g (validateGraphDocument hash j) = Ok plan ∧
    plan = Build_GraphPlan (metadata_name (graph_metadata g)) (hash (serializeCaptured j))
      (length (graph_nodes g)) (length (graph_edges g)) (length (topologicalLayers (compile_json hash j)))
      (maximum (length <$> topologicalLayers (compile_json hash j)))
      (graph_policies g ≫= policy_maxConcurrency) (topologicalLayers (compile_json hash j)).
Proof.
  intros Hj Hv. destruct (validateGraphDocument_valid hash j Hj Hv) as (g & Hg & _ & Hgraph & _ & Hhash & _).
  exists g. eexists. split_and!; [done|done| |reflexivity]. unfold planGraph. by rewrite Hv, Hhash.
Qed.

(** A digest for examples *)
Definition zero_hash (text : jsstr) : jsstr := js "00".
