(* ===== verification/Visualize.v ===== *)
(** * Diagrams of a graph (packages/cli/src/visualize.ts)

    [visualizeGraph] renders a compiled graph as a Mermaid flowchart or as a DOT
    graph, one line per node and per edge, with every text of the document escaped. *)
From S2P Require Import Prelude JsString JsNumber JsValue SchemaValidation GraphIR.
#[local] Arguments js : simpl never.

Inductive VisualizationFormat := mermaid | dot.
#[export] Instance VisualizationFormat_eq_dec : EqDecision VisualizationFormat.
Proof. solve_decision. Defined.

Record VisualizationResult := {
  vis_format : VisualizationFormat;
  vis_content : jsstr;
  vis_nodeCount : nat;
  vis_edgeCount : nat
}.

Record NamedOutput := { output_name : jsstr; output_endpoint : Endpoint }.

(** The texts of the enumerations in a document *)
Definition node_kind_text (kind : NodeKind) : jsstr :=
  match kind with
  | Agent => js "agent" | Model => js "model" | Tool => js "tool" | Transform => js "transform"
  | Subgraph => js "subgraph" | Router => js "router" | Barrier => js "barrier"
  | Validator => js "validator" | Human => js "human"
  end.
Definition edge_mode_text (mode : EdgeMode) : jsstr :=
  match mode with
  | ValueMode => js "value" | StreamMode => js "stream" | ArtifactRefMode => js "artifact-ref"
  end.

(** ** Labels *)

(** The characters a label shows as they are: letters, digits, space and [._-] *)
Definition display_safe (c : N) : bool :=
  is_digit c || is_upper c || is_lower c || (c =? 32)%N || (c =? 46)%N || (c =? 95)%N || (c =? 45)%N.

Definition escapeDiagramText (value : jsstr) (entityPrefix : jsstr) : jsstr :=
  code_points value ≫= λ c,
    if display_safe c then encode_point c else entityPrefix ++ string_of_N c ++ js ";".

Definition entity_prefix (format : VisualizationFormat) : jsstr :=
  match format with mermaid => js "#" | dot => js "&#" end.
(** [escapeMermaidText], [escapeDotText] *)
Definition escape_text (format : VisualizationFormat) (value : jsstr) : jsstr :=
  escapeDiagramText value (entity_prefix format).

Definition outputsByNode (graph : GraphSpec) : list (jsstr * list NamedOutput) :=
  foldl (λ result p,
    let output := Build_NamedOutput p.1 p.2 in
    match map_get (endpoint_node p.2) result with
    | None => map_set (endpoint_node p.2) [output] result
    | Some existing => map_set (endpoint_node p.2) (existing ++ [output]) result
    end) [] (graph_outputs graph).

Section labels.
Context (escape : jsstr → jsstr).

Definition namedOutputLabel (output : NamedOutput) : jsstr :=
  match endpoint_port (output_endpoint output) with
  | None => escape (output_name output)
  | Some port => escape (output_name output) ++ js " at " ++ escape port
  end.

Definition nodeLabel (id kind : jsstr) (entrypoint : bool) (outputs : list NamedOutput) : jsstr :=
  join (js "; ")
    ([js "id=" ++ escape id; js "kind=" ++ escape kind] ++
     (if entrypoint then [js "entrypoint"] else []) ++
     (if (0 <? length outputs)%nat
      then [js "outputs=" ++ join (js ", ") (namedOutputLabel <$> outputs)] else [])).

Definition edgeLabel (id : jsstr) (fromPort toPort mode : option jsstr) : jsstr :=
  let shown value := match value with None => js "default" | Some text => escape text end in
  join (js "; ")
    [js "id=" ++ escape id; js "fromPort=" ++ shown fromPort; js "toPort=" ++ shown toPort;
     js "mode=" ++ shown mode].
End labels.

(** ** Lines *)

(** [new Map(graph.nodes.map((node, index) => [node.id, `n${index}`]))] *)
Definition aliases (graph : GraphSpec) : list (jsstr * jsstr) :=
  foldl (λ m p, map_set p.1 p.2 m) []
    (imap (λ index node, (node_id node, js "n" ++ string_of_nat index)) (graph_nodes graph)).

Definition endpointAlias (nodeAliases : list (jsstr * jsstr)) (endpoint : Endpoint) : result jsstr jsstr :=
  match map_get (endpoint_node endpoint) nodeAliases with
  | None => Err (js "visualizeGraph requires a canonically compiled, valid Graph IR")
  | Some alias => Ok alias
  end.

(** The label of a node and of an edge in a format *)
Definition node_label (format : VisualizationFormat) (graph : GraphSpec) (node : NodeSpec) : jsstr :=
  nodeLabel (escape_text format) (node_id node) (node_kind_text (node_kind node))
    (bool_decide (node_id node ∈ graph_entrypoints graph))
    (default [] (map_get (node_id node) (outputsByNode graph))).
Definition edge_label (format : VisualizationFormat) (edge : EdgeSpec) : jsstr :=
  edgeLabel (escape_text format) (edge_id edge) (endpoint_port (edge_from edge)) (endpoint_port (edge_to edge))
    (edge_mode_text <$> edge_mode edge).

Definition mermaid_node (index : nat) (label : jsstr) : jsstr :=
  js "  n" ++ string_of_nat index ++ jsq "['" ++ label ++ jsq "']".
Definition mermaid_edge (index : nat) (from to label : jsstr) : jsstr :=
  js "  " ++ from ++ js " e" ++ string_of_nat index ++ jsq "@-->|'" ++ label ++ jsq "'| " ++ to.
Definition dot_node (index : nat) (label : jsstr) : jsstr :=
  js "  n" ++ string_of_nat index ++ jsq " [label='" ++ label ++ jsq "'];".
Definition dot_edge (index : nat) (from to label : jsstr) : jsstr :=
  js "  " ++ from ++ js " -> " ++ to ++ jsq " [id='e" ++ string_of_nat index ++ jsq "', label='" ++ label ++ jsq "'];".

(** The loop over the edges; a missing endpoint throws. *)
Definition edge_lines (format : VisualizationFormat) (graph : GraphSpec)
    (line : nat → jsstr → jsstr → jsstr → jsstr) : result jsstr (list jsstr) :=
  let nodeAliases := aliases graph in
  itraverse (λ index edge,
    from ← endpointAlias nodeAliases (edge_from edge);
    to ← endpointAlias nodeAliases (edge_to edge);
    Ok (line index from to (edge_label format edge))) (graph_edges graph).

Definition renderMermaid (graph : GraphSpec) : result jsstr jsstr :=
  edges ← edge_lines mermaid graph mermaid_edge;
  Ok (join [10%N] ([js "flowchart TD"] ++
        imap (λ index node, mermaid_node index (node_label mermaid graph node)) (graph_nodes graph) ++
        edges) ++ [10%N]).

Definition renderDot (graph : GraphSpec) : result jsstr jsstr :=
  edges ← edge_lines dot graph dot_edge;
  Ok (join [10%N] ([js "digraph GraphEngineering {"; js "  rankdir=TB;"; js "  node [shape=box];"] ++
        imap (λ index node, dot_node index (node_label dot graph node)) (graph_nodes graph) ++
        edges ++ [js "}"]) ++ [10%N]).

Definition visualizeGraph (graph : GraphSpec) (format : VisualizationFormat) : result jsstr VisualizationResult :=
  content ← match format with mermaid => renderMermaid graph | dot => renderDot graph end;
  Ok (Build_VisualizationResult format content (length (graph_nodes graph)) (length (graph_edges graph))).
