(* ===== verification/Doctor.v ===== *)
(** * The doctor (packages/cli/src/doctor.ts)

    Five checks of the installation: the version of Node.js, the two assets of the
    package and its two dependencies.  Reading and importing are calls; an attempt
    that throws is a failed check.  The four attempts of [Promise.all] do not
    interact, so their order does not matter. *)
From S2P Require Import Prelude JsString JsNumber JsValue JsonText SchemaValidation Utf8 Process.
#[local] Arguments js : simpl never.
#[local] Open Scope async_scope.

Definition DIAMOND_HASH : jsstr := js "24819fe69f3b9449c79bcdd85b2049000c7cc8f313aab5957657a6078a80d288".

Inductive DoctorCheckId :=
  | NodeVersionId | GraphSchemaId | DiamondFixtureId | CoreId | RuntimeId.
#[export] Instance DoctorCheckId_eq_dec : EqDecision DoctorCheckId.
Proof. solve_decision. Defined.
Definition check_id_text (id : DoctorCheckId) : jsstr :=
  match id with
  | NodeVersionId => js "node.version"
  | GraphSchemaId => js "asset.graph-schema"
  | DiamondFixtureId => js "asset.diamond-fixture"
  | CoreId => js "dependency.core"
  | RuntimeId => js "dependency.runtime"
  end.

Record DoctorCheck := {
  check_id : DoctorCheckId;
  check_passed : bool;
  check_summary : jsstr;
  check_detail : jsstr
}.
Definition status_text (passed : bool) : jsstr := if passed then js "pass" else js "fail".

Record DoctorReport := {
  healthy : bool;
  checks : list DoctorCheck;
  report_remediations : list jsstr
}.

(** ** Texts *)

(** White space of a regular expression, of [trim] and of [parseInt] *)
Definition is_white (c : N) : bool :=
  ((9 <=? c) && (c <=? 13) || (c =? 32) || (c =? 160) || (c =? 5760) || (8192 <=? c) && (c <=? 8202) ||
   (c =? 8232) || (c =? 8233) || (c =? 8239) || (c =? 8287) || (c =? 12288) || (c =? 65279))%N.

Fixpoint trim_start (s : jsstr) : jsstr :=
  match s with
  | c :: s' => if is_white c then trim_start s' else s
  | [] => []
  end.
Definition trim (s : jsstr) : jsstr := rev (trim_start (rev (trim_start s))).

(** [message.replace(/\s+/g, " ")]; [inside] says that a run of white space has begun. *)
Fixpoint collapse (inside : bool) (s : jsstr) : jsstr :=
  match s with
  | [] => []
  | c :: s => if is_white c then if inside then collapse true s else 32%N :: collapse true s else c :: collapse false s
  end.

(** [errorMessage(error)] of an error with this message *)
Definition errorMessage (message : jsstr) : jsstr :=
  let text := trim (collapse false message) in if (length text =? 0)%nat then js "unknown error" else text.

(** [Number.parseInt(text, 10)] *)
Definition parse_int (text : jsstr) : num :=
  let '(neg, text) :=
    match trim_start text with
    | 43%N :: rest => (false, rest)
    | 45%N :: rest => (true, rest)
    | text => (false, text)
    end in
  match (span_digits text).1 with
  | [] => SpecFloat.S754_nan
  | digits => num_of_decimal neg (digits_value digits) 0
  end.

(** [version.replace(/^v/, "").split(".")[0]] *)
Definition major_text (version : jsstr) : jsstr :=
  let version := match version with 118%N :: rest => rest | _ => version end in
  fst (span_until 46 version).

(** ** Checks *)

Definition check (id : DoctorCheckId) (summary : jsstr) (ok : bool) (detail : jsstr) : DoctorCheck :=
  Build_DoctorCheck id ok summary detail.

Definition nodeVersionCheck (version : jsstr) : DoctorCheck :=
  let major := parse_int (major_text version) in
  if num_integer major && num_leb (num_of_Z 20) major
  then check NodeVersionId (js "Node.js 20 or newer") true (js "Node.js " ++ version)
  else check NodeVersionId (js "Node.js 20 or newer") false
         (js "Detected Node.js " ++ version ++ js "; version 20 or newer is required.").

(** A property of a parsed value, when it is a record *)
Definition record_property (key : jsstr) (value : json) : option json :=
  props ← record value; get_own key props.

Definition schemaCheck (result : result jsstr json) : DoctorCheck :=
  let summary := js "Bundled canonical Graph IR schema" in
  match result with
  | Err message => check GraphSchemaId summary false message
  | Ok value =>
      let apiVersion :=
        properties ← record_property (js "properties") value;
        declared ← record_property (js "apiVersion") properties;
        record_property (js "const") declared in
      if bool_decide (apiVersion = Some (JStr API_VERSION))
      then check GraphSchemaId summary true (js "Readable schema for " ++ API_VERSION ++ js ".")
      else check GraphSchemaId summary false
             (js "Schema is readable but does not declare the supported API version.")
  end.

Definition coreCompiler {F} (moduleValue : namespace F) : option F :=
  match moduleValue with Exports function => function | NotARecord => None end.

Definition coreCheck (result : result jsstr (namespace compile_function)) : DoctorCheck :=
  let summary := js "Canonical core compiler" in
  match result with
  | Err message => check CoreId summary false message
  | Ok moduleValue =>
      match coreCompiler moduleValue with
      | None => check CoreId summary false (js "@graph-engineering/core does not export compileGraph.")
      | Some _ => check CoreId summary true (js "@graph-engineering/core exports compileGraph.")
      end
  end.

Definition fixtureCheck (fixture : result jsstr json) (core : result jsstr (namespace compile_function)) : DoctorCheck :=
  let verdict := check DiamondFixtureId (js "Bundled diamond conformance fixture") in
  match fixture with
  | Err message => verdict false message
  | Ok value =>
      if bool_decide (record_property (js "kind") value = Some (JStr (js "Graph"))) then
        match match core with Ok moduleValue => coreCompiler moduleValue | Err _ => None end with
        | None => verdict true
            (js "Fixture is readable; canonical compilation is covered by the core dependency check.")
        | Some compiler =>
            match compiler value with
            | Ok (valid, graphHash) =>
                if valid && bool_decide (graphHash = Some DIAMOND_HASH)
                then verdict true (js "Canonical fixture hash " ++ DIAMOND_HASH ++ js ".")
                else verdict false (js "Fixture did not compile to the canonical diamond hash.")
            | Err message => verdict false (errorMessage message)
            end
        end
      else verdict false (js "Fixture is readable but is not a Graph document.")
  end.

Definition runtimeCheck (result : result jsstr (namespace ())) : DoctorCheck :=
  let summary := js "Graph runtime package" in
  match result with
  | Err message => check RuntimeId summary false message
  | Ok moduleValue =>
      match coreCompiler moduleValue with
      | Some _ => check RuntimeId summary true (js "@graph-engineering/runtime exports runGraph.")
      | None => check RuntimeId summary false (js "@graph-engineering/runtime does not export runGraph.")
      end
  end.

Definition remediations (checks : list DoctorCheck) : list jsstr :=
  let failed := set_of_list (check_id <$> filter (λ item, check_passed item = false) checks) in
  take 3
    ((if bool_decide (NodeVersionId ∈ failed) then [js "Install Node.js 20 or newer and rerun graph doctor."] else []) ++
     (if bool_decide (GraphSchemaId ∈ failed) || bool_decide (DiamondFixtureId ∈ failed)
      then [js "Reinstall @graph-engineering/cli so its bundled Graph IR assets are restored."] else []) ++
     (if bool_decide (CoreId ∈ failed) || bool_decide (RuntimeId ∈ failed)
      then [js "Reinstall package dependencies and rebuild @graph-engineering/core and @graph-engineering/runtime."]
      else [])).

(** ** [runDoctor] *)

Section doctor.
(** The engine's message for a text that is not JSON *)
Context (syntax_message : jsstr → jsstr).

(** [attempt(async () => JSON.parse(await readText(url)))] *)
Definition attempt_json (answer : result sys_error (list N)) : result jsstr json :=
  match answer with
  | Err e => Err (errorMessage (error_message e))
  | Ok bytes =>
      match json_parse (utf8_text bytes) with
      | Some value => Ok value
      | None => Err (errorMessage (syntax_message (utf8_text bytes)))
      end
  end.
(** [attempt(importCore)] *)
Definition attempt_import {F} (answer : result sys_error (namespace F)) : result jsstr (namespace F) :=
  match answer with Ok moduleValue => Ok moduleValue | Err e => Err (errorMessage (error_message e)) end.

Definition doctor_report (version : jsstr) (schema fixture : result jsstr json)
    (core : result jsstr (namespace compile_function)) (runtime : result jsstr (namespace ())) : DoctorReport :=
  let checks :=
    [nodeVersionCheck version; schemaCheck schema; fixtureCheck fixture core; coreCheck core; runtimeCheck runtime] in
  Build_DoctorReport (forallb check_passed checks) checks (remediations checks).

Definition runDoctor : prog DoctorReport :=
  schema ← ask (ReadAsset GraphSchemaAsset);
  fixture ← ask (ReadAsset DiamondFixture);
  core ← ask ImportCore;
  runtime ← ask ImportRuntime;
  version ← ask NodeVersion;
  Ret (doctor_report version (attempt_json schema) (attempt_json fixture) (attempt_import core)
         (attempt_import runtime)).
End doctor.
