(* ===== verification/Init.v ===== *)
(** * Safe initialization (packages/cli/src/init.ts)

    [initializeGraphProject] creates a directory and one file in it, without ever
    overwriting: directories are made one by one, the file is opened exclusively, every
    inspection compares identities, and a failure is followed by the removal of what
    this invocation created.  Paths are absolute and normalized, as [resolve] returns
    them; the loops go up the path, segment by segment. *)
From S2P Require Import Prelude JsString JsNumber JsValue JsonText Utf8 Compiler CliValidation Process.
#[local] Arguments js : simpl never.
#[local] Open Scope async_scope.

Definition TEMPLATE_NAME : jsstr := js "quickstart/research-diamond.graph.json".
Definition OUTPUT_FILE : jsstr := js "graph.json".

Record InitReport := {
  targetDirectory : jsstr;
  report_dryRun : bool;
  created : bool;
  directoryCreated : bool;
  report_wouldCreateDirectory : bool;
  report_files : list jsstr;
  report_template : jsstr;
  report_graphHash : jsstr
}.

(** What the functions throw: an [InitError], or any other error *)
Inductive thrown :=
  | InitError (code message : jsstr)
  | OtherError (e : sys_error).
Definition plain_error (message : jsstr) : thrown := OtherError (SysError None message).

Record Template := { template_source : jsstr; template_graphHash : jsstr }.
Record OwnedDirectory := { owned_path : path; owned_identity : Stats }.

(** [errorCode(error)], [errorMessage(error)] *)
Definition errorCode (e : thrown) : option jsstr :=
  match e with InitError code _ => Some code | OtherError e => error_code e end.
Definition errorMessage (e : thrown) : jsstr :=
  match e with InitError _ message => message | OtherError e => error_message e end.

Definition sameIdentity (left right : Stats) : bool := (dev left =? dev right)%N && (ino left =? ino right)%N.
Definition isSymbolicLink (s : Stats) : bool := bool_decide (type s = SymbolicLink).
Definition isDirectory (s : Stats) : bool := bool_decide (type s = DirectoryFile).
Definition isFile (s : Stats) : bool := bool_decide (type s = RegularFile).

(** ** Paths *)

Definition resolve {E} (directory : jsstr) : async E path :=
  if starts_with (js "/") directory then returns (resolve_in [] directory)
  else prog_bind (λ cwd, returns (resolve_in cwd directory)) (ask WorkingDirectory).
(** [dirname(path)], [join(target, name)] *)
Definition dirname (p : path) : path := removelast p.
Definition join_name (target : path) (name : jsstr) : path := target ++ [name].

(** A call that throws its error *)
Definition sys {A} (c : call (answer A)) : async thrown A :=
  prog_bind (λ r, match r with Ok a => returns a | Err e => throws (OtherError e) end) (ask c).

(** ** The template *)

Section init.
Context (hash : jsstr → jsstr) (syntax_message : jsstr → jsstr).

Definition loadTemplate : async thrown Template :=
  let* bytes := sys (ReadAsset ResearchTemplate) in
  let source := utf8_text bytes in
  match json_parse source with
  | None => throws (plain_error (js "bundled init template is not JSON: " ++ syntax_message source))
  | Some document =>
      let compilation := compile_json hash document in
      match valid compilation, graphHash compilation with
      | true, Some graphHash => returns (Build_Template source graphHash)
      | _, _ =>
          let codes := join (js ", ") ((λ item, code_text (code item)) <$> diagnostics compilation) in
          throws (plain_error (js "bundled init template violates the Graph IR contract: " ++
            (if (length codes =? 0)%nat then js "unknown" else codes)))
      end
  end.

(** ** Inspection *)

Definition parent_not_directory (target : path) : thrown :=
  InitError (js "GECLI_INIT_PARENT_NOT_DIRECTORY")
    (js "cannot create " ++ path_text target ++ js ": parent path is not a directory").
Definition refuse_symlink (target : path) : thrown :=
  InitError (js "GECLI_INIT_TARGET_SYMLINK") (js "refusing symlink init target " ++ path_text target).
Definition refuse_non_directory (target : path) : thrown :=
  InitError (js "GECLI_INIT_TARGET_NOT_DIRECTORY")
    (js "refusing existing non-directory init target " ++ path_text target).

(** The [try] block of the loops over ancestors: is the candidate a directory, or a
    link to one?  [refuse_link] says what to throw for a link that is not followed. *)
Definition inspect_ancestor (target candidate : path) (refuse_link : option thrown) : async thrown () :=
  let* candidateState := sys (Lstat candidate) in
  if isSymbolicLink candidateState then
    match refuse_link with
    | Some e => throws e
    | None =>
        let* followed := sys (Stat candidate) in
        if isDirectory followed then returns () else throws (parent_not_directory target)
    end
  else if isDirectory candidateState then returns () else throws (parent_not_directory target).

(** The loop of [assertExistingAncestorIsDirectory]; the candidate is [rev up]. *)
Fixpoint assert_ancestor (target : path) (up : list jsstr) : async thrown () :=
  catch (inspect_ancestor target (rev up) None) (λ error,
    match error with
    | InitError _ _ => throws error
    | OtherError e =>
        if bool_decide (error_code e = Some (js "ENOENT")) then
          match up with
          | [] => throws (InitError (js "GECLI_INIT_TARGET_ACCESS")
                    (js "cannot find a directory ancestor for " ++ path_text target))
          | _ :: up => assert_ancestor target up
          end
        else throws (InitError (js "GECLI_INIT_TARGET_ACCESS")
               (js "cannot inspect parent of " ++ path_text target ++ js ": " ++ error_message e))
    end).
Definition assertExistingAncestorIsDirectory (target : path) : async thrown () :=
  assert_ancestor target (rev (dirname target)).

(** [entries = await readdir(target); after = await lstat(target)] with its catch clause *)
Definition read_entries (target : path) : async thrown (list jsstr * Stats) :=
  catch (let* entries := sys (Readdir target) in
         let* after := sys (Lstat target) in returns (entries, after)) (λ error,
    throws (InitError (js "GECLI_INIT_TARGET_ACCESS")
      (js "cannot inspect init target " ++ path_text target ++ js ": " ++ errorMessage error))).

(** The checks that [inspectTarget] and [requireEmptyStableDirectory] share, on a
    target found as [before] *)
Definition stable_and_empty (target : path) (before : Stats) (changed : jsstr) : async thrown Stats :=
  if isSymbolicLink before then throws (refuse_symlink target)
  else if negb (isDirectory before) then throws (refuse_non_directory target)
  else
    let* inspected := read_entries target in
    let after := snd inspected in
    if isSymbolicLink after || negb (isDirectory after) || negb (sameIdentity before after) then
      throws (InitError (js "GECLI_INIT_TARGET_CHANGED") (changed ++ path_text target))
    else if (0 <? length (fst inspected))%nat then
      throws (InitError (js "GECLI_INIT_TARGET_NOT_EMPTY") (js "refusing non-empty init target " ++ path_text target))
    else returns after.

(** [inspectTarget(target)]: whether it exists *)
Definition inspectTarget (target : path) : async thrown bool :=
  prog_bind (λ before,
    match before with
    | Err e =>
        if bool_decide (error_code e = Some (js "ENOENT")) then
          let* _ := assertExistingAncestorIsDirectory target in returns false
        else throws (InitError (js "GECLI_INIT_TARGET_ACCESS")
               (js "cannot inspect init target " ++ path_text target ++ js ": " ++ error_message e))
    | Ok before =>
        let* _ := stable_and_empty target before (js "init target changed while it was being inspected: ") in
        returns true
    end) (ask (Lstat target)).

Definition requireEmptyStableDirectory (target : path) : async thrown Stats :=
  prog_bind (λ before,
    match before with
    | Err e => throws (InitError (js "GECLI_INIT_TARGET_CHANGED")
        (js "init target disappeared before creation: " ++ path_text target ++ js ": " ++ error_message e))
    | Ok before => stable_and_empty target before (js "init target changed before file creation: ")
    end) (ask (Lstat target)).

(** ** Cleanup *)

(** The loop of [cleanupCreatedDirectories], over the reversed list *)
Fixpoint remove_directories (created : list OwnedDirectory) : prog () :=
  match created with
  | [] => Ret ()
  | owned :: created =>
      current ← ask (Lstat (owned_path owned));
      match current with
      | Ok current =>
          if isSymbolicLink current || negb (isDirectory current) || negb (sameIdentity current (owned_identity owned))
          then remove_directories created
          else _ ← ask (Rmdir (owned_path owned)); remove_directories created
      | Err _ => remove_directories created
      end
  end.
Definition cleanupCreatedDirectories (created : list OwnedDirectory) : prog () := remove_directories (rev created).

Definition cleanupOwnedFile (target outputPath : path) (directoryIdentity fileIdentity : Stats) : prog () :=
  currentDirectory ← ask (Lstat target);
  match currentDirectory with
  | Ok currentDirectory =>
      if isSymbolicLink currentDirectory || negb (isDirectory currentDirectory) ||
         negb (sameIdentity currentDirectory directoryIdentity)
      then Ret ()
      else
        currentFile ← ask (Lstat outputPath);
        match currentFile with
        | Ok currentFile =>
            if isSymbolicLink currentFile || negb (isFile currentFile) || negb (sameIdentity currentFile fileIdentity)
            then Ret ()
            else _ ← ask (Unlink outputPath); Ret ()
        | Err _ => Ret ()
        end
  | Err _ => Ret ()
  end.

(** Clean up, then throw. *)
Definition cleanup_and_throw {A} (created : list OwnedDirectory) (e : thrown) : async thrown A :=
  prog_bind (λ _, throws e) (cleanupCreatedDirectories created).

(** ** Directories *)

(** The first loop of [createTargetDirectories]; the candidate is [rev up]. *)
Fixpoint find_missing (target : path) (up : list jsstr) (missing : list path) : async thrown (list path) :=
  let candidate := rev up in
  prog_bind (λ r,
    match r with
    | Ok _ => returns missing
    | Err (InitError code message) => throws (InitError code message)
    | Err (OtherError e) =>
        if bool_decide (error_code e = Some (js "ENOENT")) then
          match up with
          | [] => throws (InitError (js "GECLI_INIT_CREATE_DIRECTORY")
                    (js "cannot find a directory ancestor for " ++ path_text target))
          | _ :: up => find_missing target up (candidate :: missing)
          end
        else throws (InitError (js "GECLI_INIT_CREATE_DIRECTORY")
               (js "cannot inspect directory path " ++ path_text candidate ++ js ": " ++ error_message e))
    end)
    (inspect_ancestor target candidate
       (if bool_decide (candidate = target) then Some (refuse_symlink target) else None)).

(** The [try] block for one directory *)
Definition create_directory (p : path) : async thrown Stats :=
  let* _ := sys (Mkdir p) in
  let* found := sys (Lstat p) in
  if isSymbolicLink found || negb (isDirectory found) then
    throws (InitError (js "GECLI_INIT_TARGET_CHANGED")
      (js "created directory changed before it could be verified: " ++ path_text p))
  else returns found.

Fixpoint create_directories (missing : list path) (created : list OwnedDirectory)
    : async thrown (list OwnedDirectory) :=
  match missing with
  | [] => returns created
  | p :: missing =>
      prog_bind (λ r,
        match r with
        | Ok found => create_directories missing (created ++ [Build_OwnedDirectory p found])
        | Err (InitError code message) => cleanup_and_throw created (InitError code message)
        | Err (OtherError e) =>
            let failure := cleanup_and_throw created
              (InitError (js "GECLI_INIT_CREATE_DIRECTORY")
                 (js "cannot exclusively create directory " ++ path_text p ++ js ": " ++ error_message e)) in
            if bool_decide (error_code e = Some (js "EEXIST")) then
              prog_bind (λ raced,
                match raced with
                | Ok raced =>
                    if negb (isSymbolicLink raced) && isDirectory raced then create_directories missing created
                    else failure
                | Err _ => failure
                end) (ask (Lstat p))
            else failure
        end) (create_directory p)
  end.

Definition createTargetDirectories (target : path) : async thrown (list OwnedDirectory) :=
  let* missing := find_missing target (rev target) [] in
  create_directories missing [].

(** ** The file *)

(** What the catch clause of [createGraphFile] sees: the error, [fileIdentity] and [closed] *)
Definition write_failure : Type := thrown * option Stats * bool.
Definition stage {A} (fileIdentity : option Stats) (closed : bool) (c : call (answer A)) : async write_failure A :=
  catch (sys c) (λ e, throws (e, fileIdentity, closed)).

(** The [try] block after the file is open *)
Definition write_graph_file (target : path) (outputPath : path) (source : jsstr) (directoryIdentity : Stats)
    (h : handle) : async write_failure () :=
  let* fileIdentity := stage None false (HandleStat h) in
  let* _ := stage (Some fileIdentity) false (HandleWrite h source) in
  let* _ := stage (Some fileIdentity) false (HandleSync h) in
  let* _ := stage (Some fileIdentity) false (HandleClose h) in
  let* beforeEntries := stage (Some fileIdentity) true (Lstat target) in
  let* entries := stage (Some fileIdentity) true (Readdir target) in
  let* afterEntries := stage (Some fileIdentity) true (Lstat target) in
  let* currentFile := stage (Some fileIdentity) true (Lstat outputPath) in
  let stableDirectory :=
    negb (isSymbolicLink beforeEntries) && isDirectory beforeEntries &&
    sameIdentity beforeEntries directoryIdentity && sameIdentity afterEntries directoryIdentity in
  let stableFile :=
    negb (isSymbolicLink currentFile) && isFile currentFile && sameIdentity currentFile fileIdentity in
  if stableDirectory && stableFile && bool_decide (entries = [OUTPUT_FILE]) then returns ()
  else throws (InitError (js "GECLI_INIT_TARGET_CHANGED")
    (js "init target changed while " ++ OUTPUT_FILE ++ js " was being created: " ++ path_text target),
    Some fileIdentity, true).

Definition write_failed (target outputPath : path) (directoryIdentity : Stats)
    (createdDirectories : list OwnedDirectory) (h : handle) (failure : write_failure) : async thrown () :=
  let '(error, fileIdentity, closed) := failure in
  prog_bind (λ _,
    prog_bind (λ _,
      cleanup_and_throw createdDirectories
        match error with
        | InitError _ _ => error
        | OtherError e => InitError (js "GECLI_INIT_WRITE_FILE")
            (js "failed while writing " ++ path_text outputPath ++ js ": " ++ error_message e)
        end)
      match fileIdentity with
      | Some fileIdentity => cleanupOwnedFile target outputPath directoryIdentity fileIdentity
      | None => Ret ()
      end)
    (if closed then Ret () else prog_bind (λ _, Ret ()) (ask (HandleClose h))).

Definition createGraphFile (target : path) (template : Template) (directoryIdentity : Stats)
    (createdDirectories : list OwnedDirectory) : async thrown () :=
  let outputPath := join_name target OUTPUT_FILE in
  prog_bind (λ opened,
    match opened with
    | Err e =>
        cleanup_and_throw createdDirectories
          (if bool_decide (error_code e = Some (js "EEXIST") ∨ error_code e = Some (js "ELOOP"))
           then InitError (js "GECLI_INIT_EXCLUSIVE_CREATE")
                  (js "refusing to overwrite an existing init file at " ++ path_text outputPath)
           else InitError (js "GECLI_INIT_CREATE_FILE")
                  (js "cannot exclusively create " ++ path_text outputPath ++ js ": " ++ error_message e))
    | Ok h =>
        catch (write_graph_file target outputPath (template_source template) directoryIdentity h)
          (write_failed target outputPath directoryIdentity createdDirectories h)
    end) (ask (OpenExclusive outputPath)).

(** ** [initializeGraphProject] *)

Definition initializeGraphProject (directory : jsstr) (dryRun : bool) : async thrown InitReport :=
  let* target := resolve directory in
  let* template := loadTemplate in
  let* exists_ := inspectTarget target in
  if dryRun then
    returns (Build_InitReport (path_text target) true false false (negb exists_) [OUTPUT_FILE] TEMPLATE_NAME
               (template_graphHash template))
  else
    let* createdDirectories := (if exists_ then returns [] else createTargetDirectories target) in
    let* directoryIdentity := catch (requireEmptyStableDirectory target) (cleanup_and_throw createdDirectories) in
    let* _ := createGraphFile target template directoryIdentity createdDirectories in
    returns (Build_InitReport (path_text target) false true
               (existsb (λ item, bool_decide (owned_path item = target)) createdDirectories)
               (negb exists_) [OUTPUT_FILE] TEMPLATE_NAME (template_graphHash template)).
End init.
