(* ===== verification/Cli.v ===== *)
(** * The command line (packages/cli/src/cli.ts)

    [run] parses the arguments, does the work of one command through calls to its
    environment, and writes either text for a reader or one JSON document.  Errors are
    values: a [CliError] carries its exit code, anything else is an internal error. *)
From S2P Require Import Prelude JsString JsNumber JsValue JsonText Stringify Utf8 GraphIR Compiler.
From S2P Require Import CliValidation Visualize Process.
From S2P Require Doctor Init.
#[local] Arguments js : simpl never.
#[local] Open Scope async_scope.

Definition VERSION : jsstr := js "0.1.0-alpha.1".
Definition MACHINE_SCHEMA_VERSION : jsstr := js "graph-engineering.cli/v1alpha1".

(** [EXIT_CODES] *)
Inductive CliExitCode := success | invalidGraph | input | unhealthy | internal.
#[export] Instance CliExitCode_eq_dec : EqDecision CliExitCode.
Proof. solve_decision. Defined.
Definition exit_code (c : CliExitCode) : Z :=
  match c with success => 0 | invalidGraph => 1 | input => 2 | unhealthy => 3 | internal => 70 end.

Inductive CommandName := validate | plan | compile | visualize | doctor | init.
#[export] Instance CommandName_eq_dec : EqDecision CommandName.
Proof. solve_decision. Defined.
Definition command_text (c : CommandName) : jsstr :=
  match c with
  | validate => js "validate" | plan => js "plan" | compile => js "compile"
  | visualize => js "visualize" | doctor => js "doctor" | init => js "init"
  end.
Definition command_of (s : jsstr) : option CommandName :=
  list_find (λ c, command_text c = s) [validate; plan; compile; visualize; doctor; init] ≫= λ p, Some p.2.

Record MachineEnvelope := {
  envelope_command : option CommandName;
  envelope_exitCode : CliExitCode;
  envelope_data : option json;
  envelope_error : option (jsstr * jsstr)
}.

Record ParsedCommand := {
  parsed_command : CommandName;
  parsed_file : option jsstr;
  parsed_json : bool;
  parsed_dryRun : bool;
  parsed_format : option VisualizationFormat
}.
Inductive Arguments := Command (c : ParsedCommand) | Help | Version.

Record CliError := { cli_code : jsstr; cli_message : jsstr; cli_exitCode : CliExitCode }.
(** What [run] catches: a [CliError], or another error with its message *)
Inductive failure := CliFailure (e : CliError) | OtherFailure (message : jsstr).

Definition usage_error (message : jsstr) : CliError := Build_CliError (js "GECLI_USAGE") message input.

Definition usage : jsstr :=
  join [10%N]
    [js "Graph Engineering CLI " ++ VERSION;
     [];
     js "Usage:";
     js "  graph validate <graph.json|-> [--json]";
     js "  graph plan <graph.json|-> [--json]";
     js "  graph compile <graph.json|-> [--json]";
     js "  graph visualize <graph.json|-> [--format mermaid|dot] [--json]";
     js "  graph doctor [--json]";
     js "  graph init [directory] [--dry-run] [--json]";
     js "  graph --version";
     js "  graph --help";
     [];
     js "Commands:";
     js "  validate  Compile Graph IR and report stable diagnostics";
     js "  plan      Show deterministic topological layers without executing nodes";
     js "  compile   Return core-owned canonical Graph IR and SHA-256 without writing files";
     js "  visualize Render a read-only Mermaid (default) or DOT topology after compilation";
     js "  doctor    Run bounded, read-only local installation checks";
     js "  init      Safely create graph.json from the bundled research-diamond template";
     [];
     js "Exit codes:";
     js "  0 success/healthy";
     js "  1 invalid Graph IR";
     js "  2 usage/input error or refused safe initialization";
     js "  3 doctor found an unhealthy local installation";
     js "  70 unexpected internal error"].

(** ** Arguments *)

Definition includes (s : string) (argv : list jsstr) : bool := bool_decide (js s ∈ argv).
Definition count (s : string) (argv : list jsstr) : nat := length (filter (λ a, a = js s) argv).

Definition requestedJson (argv : list jsstr) : bool := includes "--json" argv.

(** [argv.find(isCommand) ?? null] *)
Definition inferCommand (argv : list jsstr) : option CommandName := head (omap command_of argv).

(** What the loop over the arguments collects *)
Record scanned := Scanned { formatValue : option jsstr; formatCount : nat; positionals : list jsstr }.

Fixpoint scan (argv : list jsstr) (s : scanned) : result CliError scanned :=
  match argv with
  | [] => Ok s
  | argument :: argv =>
      if bool_decide (argument = js "--json" ∨ argument = js "--dry-run") then scan argv s
      else if bool_decide (argument = js "--format") then
        match argv with
        | [] => Err (usage_error (js "--format requires mermaid or dot"))
        | value :: argv =>
            if starts_with (js "-") value then Err (usage_error (js "--format requires mermaid or dot"))
            else scan argv (Scanned (Some value) (S (formatCount s)) (positionals s))
        end
      else if starts_with (js "--format=") argument then
        scan argv (Scanned (Some (drop 9 argument)) (S (formatCount s)) (positionals s))
      else scan argv (Scanned (formatValue s) (formatCount s) (positionals s ++ [argument]))
  end.

(** The format of a [visualize] command; [None] when it is not supported *)
Definition format_of (formatValue : option jsstr) : option VisualizationFormat :=
  match formatValue with
  | None => Some mermaid
  | Some value =>
      if bool_decide (value = js "mermaid") then Some mermaid
      else if bool_decide (value = js "dot") then Some dot else None
  end.

(** The rest of [parseArguments], on what the loop collected *)
Definition interpret (json dryRun : bool) (s : scanned) : result CliError Arguments :=
  if (1 <? formatCount s)%nat then Err (usage_error (js "--format may be specified at most once"))
  else
    match (rawCommand ← head (positionals s); command_of rawCommand) with
    | None => Err (usage_error (js "expected command validate, plan, compile, visualize, doctor, or init"))
    | Some command =>
        let operands := tail (positionals s) in
        if dryRun && bool_decide (command ≠ init) then
          Err (usage_error (js "--dry-run is supported only by init"))
        else if (0 <? formatCount s)%nat && bool_decide (command ≠ visualize) then
          Err (usage_error (js "--format is supported only by visualize"))
        else
          let format := if bool_decide (command = visualize) then format_of (formatValue s) else None in
          if bool_decide (command = visualize) && bool_decide (format = None) then
            Err (usage_error (js "unsupported visualization format " ++ default (js "null") (formatValue s) ++
                   js "; expected mermaid or dot"))
          else
            match command with
            | doctor =>
                if (0 <? length operands)%nat
                then Err (usage_error (js "doctor does not accept a file or other operand"))
                else Ok (Command (Build_ParsedCommand doctor None json false None))
            | init =>
                if (1 <? length operands)%nat
                then Err (usage_error (js "init accepts at most one target directory"))
                else
                  let directory := default (js ".") (head operands) in
                  if starts_with (js "-") directory && bool_decide (directory ≠ js "-") then
                    Err (usage_error (js "unknown option " ++ directory ++
                           js "; prefix a directory name with ./ if it begins with '-'"))
                  else Ok (Command (Build_ParsedCommand init (Some directory) json dryRun None))
            | _ =>
                match operands with
                | [file] =>
                    if (length file =? 0)%nat
                    then Err (usage_error (command_text command ++ js " requires exactly one Graph IR JSON file"))
                    else Ok (Command (Build_ParsedCommand command (Some file) json false format))
                | _ => Err (usage_error (command_text command ++ js " requires exactly one Graph IR JSON file"))
                end
            end
    end.

Definition parseArguments (argv : list jsstr) : result CliError Arguments :=
  if includes "--help" argv || includes "-h" argv then Ok Help
  else if includes "--version" argv || includes "-v" argv then Ok Version
  else if (1 <? count "--json" argv)%nat then Err (usage_error (js "--json may be specified at most once"))
  else if (1 <? count "--dry-run" argv)%nat then Err (usage_error (js "--dry-run may be specified at most once"))
  else
    let json := (count "--json" argv =? 1)%nat in
    let dryRun := (count "--dry-run" argv =? 1)%nat in
    s ← scan argv (Scanned None 0 []);
    interpret json dryRun s.

(** ** Machine output *)

Definition json_nat (n : nat) : json := JNum (num_of_Z (Z.of_nat n)).
Definition json_option {A} (f : A → json) (o : option A) : json := match o with Some a => f a | None => JNull end.
Definition json_strings (l : list jsstr) : json := JArr (JStr <$> l).

(** A diagnostic, with the fields in the order in which the compiler creates them *)
Definition json_diagnostic (d : CompilerDiagnostic) : json :=
  JObj ([(js "code", JStr (code_text (code d))); (js "severity", JStr (severity_text (severity d)));
         (js "message", JStr (message d))] ++
        match diagnostic_path d with Some p => [(js "path", JStr p)] | None => [] end ++
        match edgeId d with Some e => [(js "edgeId", JStr e)] | None => [] end ++
        match nodeIds d with Some ids => [(js "nodeIds", json_strings ids)] | None => [] end).

Definition json_codes (codes : list DiagnosticCode) : json := json_strings (code_text <$> codes).

Definition validationData (file : jsstr) (result : ValidationResult) : json :=
  JObj [(js "file", JStr file); (js "valid", JBool (v_valid result));
        (js "graphName", json_option JStr (v_graphName result));
        (js "graphHash", json_option JStr (v_canonicalSha256 result));
        (js "diagnosticCodes", json_codes (v_diagnosticCodes result));
        (js "diagnostics", JArr (json_diagnostic <$> v_diagnostics result))].

Definition planData (file : jsstr) (p : GraphPlan) : json :=
  JObj [(js "file", JStr file); (js "valid", JBool true); (js "graphName", JStr (plan_graphName p));
        (js "graphHash", JStr (plan_canonicalSha256 p)); (js "nodeCount", json_nat (plan_nodeCount p));
        (js "edgeCount", json_nat (plan_edgeCount p)); (js "layerCount", json_nat (plan_layerCount p));
        (js "maxParallelWidth", json_nat (plan_maxParallelWidth p));
        (js "configuredMaxConcurrency", json_option (λ n, JNum (num_of_Z n)) (plan_configuredMaxConcurrency p));
        (js "topologicalLayers", JArr (json_strings <$> plan_topologicalLayers p))].

Definition compileData (file : jsstr) (result : ValidationResult) : json :=
  JObj [(js "file", JStr file); (js "valid", JBool (v_valid result));
        (js "graphName", json_option JStr (v_graphName result));
        (js "graphHash", json_option JStr (v_canonicalSha256 result));
        (js "canonicalGraph", json_option JStr (v_canonicalGraph result));
        (js "canonicalBytes", json_option (λ text, json_nat (length (utf8_encode text))) (v_canonicalGraph result));
        (js "diagnosticCodes", json_codes (v_diagnosticCodes result));
        (js "diagnostics", JArr (json_diagnostic <$> v_diagnostics result))].

Definition format_text (format : VisualizationFormat) : jsstr :=
  match format with mermaid => js "mermaid" | dot => js "dot" end.
Definition visualizationData (graphHash : jsstr) (result : VisualizationResult) : json :=
  JObj [(js "graphHash", JStr graphHash); (js "format", JStr (format_text (vis_format result)));
        (js "content", JStr (vis_content result)); (js "nodeCount", json_nat (vis_nodeCount result));
        (js "edgeCount", json_nat (vis_edgeCount result))].

Definition json_check (item : Doctor.DoctorCheck) : json :=
  JObj [(js "id", JStr (Doctor.check_id_text (Doctor.check_id item)));
        (js "status", JStr (Doctor.status_text (Doctor.check_passed item)));
        (js "summary", JStr (Doctor.check_summary item)); (js "detail", JStr (Doctor.check_detail item))].
Definition doctorData (report : Doctor.DoctorReport) : json :=
  JObj [(js "healthy", JBool (Doctor.healthy report)); (js "checks", JArr (json_check <$> Doctor.checks report));
        (js "remediations", json_strings (Doctor.report_remediations report))].

Definition initData (report : Init.InitReport) : json :=
  JObj [(js "targetDirectory", JStr (Init.targetDirectory report)); (js "dryRun", JBool (Init.report_dryRun report));
        (js "created", JBool (Init.created report)); (js "directoryCreated", JBool (Init.directoryCreated report));
        (js "wouldCreateDirectory", JBool (Init.report_wouldCreateDirectory report));
        (js "files", json_strings (Init.report_files report)); (js "template", JStr (Init.report_template report));
        (js "graphHash", JStr (Init.report_graphHash report))].

Definition json_envelope (e : MachineEnvelope) : json :=
  JObj [(js "schemaVersion", JStr MACHINE_SCHEMA_VERSION);
        (js "command", json_option (λ c, JStr (command_text c)) (envelope_command e));
        (js "ok", JBool (bool_decide (envelope_exitCode e = success)));
        (js "exitCode", JNum (num_of_Z (exit_code (envelope_exitCode e))));
        (js "data", default JNull (envelope_data e));
        (js "error", json_option (λ p, JObj [(js "code", JStr p.1); (js "message", JStr p.2)]) (envelope_error e))].

(** ** Writing *)

(** [message.endsWith("\n") ? message : message + "\n"] *)
Definition terminated (message : jsstr) : jsstr :=
  if bool_decide (last message = Some 10%N) then message else message ++ [10%N].
Definition writeStdout (message : jsstr) : prog () := ask (Print Stdout (terminated message)).
Definition writeStderr (message : jsstr) : prog () := ask (Print Stderr (terminated message)).

Definition isTerminalControl (codePoint : N) : bool :=
  ((codePoint <=? 31) || (127 <=? codePoint) && (codePoint <=? 159) || (codePoint =? 1564) ||
   (codePoint =? 8206) || (codePoint =? 8207) || (8234 <=? codePoint) && (codePoint <=? 8238) ||
   (codePoint =? 8232) || (codePoint =? 8233) || (8294 <=? codePoint) && (codePoint <=? 8297))%N.

(** [codePoint.toString(16).toUpperCase()] *)
Definition upper_hex_digit (d : N) : N := if (d <? 10)%N then (48 + d)%N else (55 + d)%N.
Fixpoint upper_hex (fuel : nat) (n : N) (acc : jsstr) : jsstr :=
  match fuel with
  | 0 => acc
  | S fuel =>
      let acc := upper_hex_digit (n `mod` 16) :: acc in
      if (n <? 16)%N then acc else upper_hex fuel (n `div` 16)%N acc
  end.

(** Six hexadecimal digits are enough for a code point. *)
Definition terminalSafeText (value : jsstr) : jsstr :=
  code_points value ≫= λ codePoint,
    if isTerminalControl codePoint
    then js "\u{" ++ pad_start 4 48 (upper_hex 6 codePoint []) ++ js "}"
    else encode_point codePoint.

Definition writeEnvelope (command : option CommandName) (exitCode : CliExitCode) (data : option json)
    (error : option (jsstr * jsstr)) : prog () :=
  writeStdout (stringify (json_envelope (Build_MachineEnvelope command exitCode data error))).

(** [basename(file)] of node:path *)
Fixpoint drop_slashes (s : jsstr) : jsstr :=
  match s with c :: s' => if (c =? 47)%N then drop_slashes s' else s | [] => [] end.
Definition basename (file : jsstr) : jsstr := rev (span_until 47 (drop_slashes (rev file))).1.

Definition tick : jsstr := [10003%N].
Definition cross : jsstr := [10007%N].
Definition middle_dot : jsstr := [183%N].

(** [value || fallback] of a string *)
Definition non_empty_or (value fallback : jsstr) : jsstr := if (length value =? 0)%nat then fallback else value.

Definition diagnostic_line (item : CompilerDiagnostic) : jsstr :=
  let location :=
    match diagnostic_path item with
    | Some p => Some p
    | None => match nodeIds item with Some ids => Some (join (js ",") ids) | None => edgeId item end
    end in
  [10%N] ++ js "  " ++ code_text (code item) ++
  match location with
  | Some l => if (length l =? 0)%nat then [] else js " [" ++ terminalSafeText l ++ js "]"
  | None => []
  end ++ js ": " ++ terminalSafeText (message item).

Definition printValidationHuman (file : jsstr) (result : ValidationResult) : prog () :=
  if v_valid result then
    writeStdout (tick ++ js " " ++ terminalSafeText (basename file) ++ js " is a valid Graph Engineering graph" ++
      [10%N] ++ js "  sha256 " ++ default (js "unavailable") (v_canonicalSha256 result))
  else
    writeStderr (cross ++ js " " ++ terminalSafeText (basename file) ++ js " is invalid (" ++
      string_of_nat (length (v_diagnostics result)) ++ js " diagnostic(s))" ++
      (v_diagnostics result ≫= diagnostic_line)).

Definition printPlanHuman (file : jsstr) (p : GraphPlan) : prog () :=
  writeStdout (
    js "Graph plan: " ++ terminalSafeText (non_empty_or (plan_graphName p) (basename file)) ++
    [10%N] ++ js "  " ++ string_of_nat (plan_nodeCount p) ++ js " nodes " ++ middle_dot ++ js " " ++
    string_of_nat (plan_edgeCount p) ++ js " edges " ++ middle_dot ++ js " " ++
    string_of_nat (plan_layerCount p) ++ js " layers" ++
    [10%N] ++ js "  max parallel width " ++ string_of_nat (plan_maxParallelWidth p) ++ js " " ++ middle_dot ++
    js " concurrency " ++
    match plan_configuredMaxConcurrency p with
    | Some n => string_of_num (num_of_Z n)
    | None => js "unbounded by graph policy"
    end ++
    concat (imap (λ index layer,
      [10%N] ++ js "  " ++ string_of_nat (index + 1) ++ js ". " ++ join (js " | ") (terminalSafeText <$> layer))
      (plan_topologicalLayers p))).

Definition printCompileHuman (file : jsstr) (result : ValidationResult) : prog () :=
  if v_valid result then
    let canonicalBytes :=
      match v_canonicalGraph result with
      | None => js "unavailable"
      | Some text => string_of_nat (length (utf8_encode text))
      end in
    writeStdout (tick ++ js " Compiled " ++ terminalSafeText (basename file) ++
      [10%N] ++ js "  sha256 " ++ default (js "unavailable") (v_canonicalSha256 result) ++
      [10%N] ++ js "  canonical bytes " ++ canonicalBytes)
  else printValidationHuman file result.

Definition check_line (item : Doctor.DoctorCheck) : jsstr :=
  [10%N] ++ js "  " ++ (if Doctor.check_passed item then tick else cross) ++ js " " ++
  terminalSafeText (Doctor.check_summary item) ++ js ": " ++ terminalSafeText (Doctor.check_detail item).
Definition printDoctorHuman (report : Doctor.DoctorReport) : prog () :=
  writeStdout (
    js "Graph Engineering doctor: " ++ (if Doctor.healthy report then js "healthy" else js "unhealthy") ++
    (Doctor.checks report ≫= check_line) ++
    (if (0 <? length (Doctor.report_remediations report))%nat then
       [10%N] ++ js "Remediation:" ++
       concat (imap (λ index item,
         [10%N] ++ js "  " ++ string_of_nat (index + 1) ++ js ". " ++ terminalSafeText item)
         (Doctor.report_remediations report))
     else [])).

Definition printInitHuman (report : Init.InitReport) : prog () :=
  let files := join (js ", ") (terminalSafeText <$> Init.report_files report) in
  if Init.report_dryRun report then
    writeStdout (
      js "Dry run: " ++ terminalSafeText (Init.targetDirectory report) ++ [10%N] ++
      (if Init.report_wouldCreateDirectory report then js "  create target directory" ++ [10%N] else []) ++
      js "  create " ++ files ++ [10%N] ++ js "  template " ++ terminalSafeText (Init.report_template report))
  else
    writeStdout (
      tick ++ js " Initialized Graph Engineering project in " ++ terminalSafeText (Init.targetDirectory report) ++
      [10%N] ++ js "  created " ++ files ++ [10%N] ++ js "  sha256 " ++ Init.report_graphHash report).

Definition emitCliError (error : CliError) (command : option CommandName) (json : bool) : prog CliExitCode :=
  _ ← (if json then writeEnvelope command (cli_exitCode error) None (Some (cli_code error, cli_message error))
       else writeStderr (js "graph: " ++ terminalSafeText (cli_message error) ++
              (if bool_decide (cli_code error = js "GECLI_USAGE")
               then [10%N] ++ js "Run graph --help for usage." else [])));
  Ret (cli_exitCode error).

Definition emitInternalError (message : jsstr) (command : option CommandName) (json : bool) : prog CliExitCode :=
  _ ← (if json then writeEnvelope command internal None
              (Some (js "GECLI_INTERNAL", js "unexpected internal error: " ++ message))
       else writeStderr (js "graph: unexpected internal error: " ++ terminalSafeText message));
  Ret internal.

Definition emit_failure (f : failure) (command : option CommandName) (json : bool) : prog CliExitCode :=
  match f with
  | CliFailure e => emitCliError e command json
  | OtherFailure message => emitInternalError message command json
  end.

(** ** [run] *)

Section run.
Context (hash : jsstr → jsstr) (syntax_message : jsstr → jsstr).

Definition input_error (code message : jsstr) : failure := CliFailure (Build_CliError code message input).

(** [readGraph(path)], with [readStandardInput] *)
Definition readGraph (file : jsstr) : async failure json :=
  let unreadable (e : sys_error) :=
    input_error (js "GECLI_INPUT_READ") (js "cannot read " ++ file ++ js ": " ++ error_message e) in
  let* source :=
    if bool_decide (file = js "-")
    then prog_bind (λ r, match r with Ok chunks => returns (utf8_text (concat chunks)) | Err e => throws (unreadable e) end)
           (ask ReadStdin)
    else prog_bind (λ r, match r with Ok bytes => returns (utf8_text bytes) | Err e => throws (unreadable e) end)
           (ask (ReadFile file)) in
  match json_parse source with
  | Some document => returns document
  | None => throws (input_error (js "GECLI_INPUT_JSON") (js "invalid JSON in " ++ file ++ js ": " ++ syntax_message source))
  end.

(** A print that cannot throw, and the exit code *)
Definition print_and_return (p : prog ()) (c : CliExitCode) : async failure CliExitCode :=
  prog_bind (λ _, returns c) p.

Definition run_init (parsed : ParsedCommand) (directory : jsstr) : async failure CliExitCode :=
  prog_bind (λ r,
    match r with
    | Err (Init.InitError code message) => throws (input_error code message)
    | Err (Init.OtherError e) => throws (OtherFailure (error_message e))
    | Ok report =>
        print_and_return
          (if parsed_json parsed then writeEnvelope (Some init) success (Some (initData report)) None
           else printInitHuman report) success
    end) (Init.initializeGraphProject hash syntax_message directory (parsed_dryRun parsed)).

Definition run_doctor (parsed : ParsedCommand) : async failure CliExitCode :=
  prog_bind (λ report,
    let exitCode := if Doctor.healthy report then success else unhealthy in
    print_and_return
      (if parsed_json parsed then writeEnvelope (Some doctor) exitCode (Some (doctorData report)) None
       else printDoctorHuman report) exitCode) (Doctor.runDoctor syntax_message).

(** The result of a validation, for the commands that stop there *)
Definition report_validation (parsed : ParsedCommand) (file : jsstr) (validation : ValidationResult)
    (exitCode : CliExitCode) : async failure CliExitCode :=
  print_and_return
    (if parsed_json parsed
     then writeEnvelope (Some (parsed_command parsed)) exitCode (Some (validationData file validation)) None
     else printValidationHuman file validation) exitCode.

Definition run_graph (parsed : ParsedCommand) (file : jsstr) : async failure CliExitCode :=
  let* document := readGraph file in
  let validation := validateGraphDocument hash document in
  let exitCode := if v_valid validation then success else invalidGraph in
  match parsed_command parsed with
  | validate => report_validation parsed file validation exitCode
  | compile =>
      print_and_return
        (if parsed_json parsed
         then writeEnvelope (Some compile) exitCode (Some (compileData file validation)) None
         else printCompileHuman file validation) exitCode
  | visualize =>
      match v_valid validation, v_graph validation with
      | true, Some graph =>
          match v_canonicalSha256 validation, parsed_format parsed with
          | Some canonicalSha256, Some format =>
              match visualizeGraph graph format with
              | Ok visualization =>
                  print_and_return
                    (if parsed_json parsed
                     then writeEnvelope (Some visualize) success
                            (Some (visualizationData canonicalSha256 visualization)) None
                     else writeStdout (vis_content visualization)) success
              | Err message => throws (OtherFailure message)
              end
          | _, _ => throws (OtherFailure (js "valid visualization unexpectedly lacks a graph hash or format"))
          end
      | _, _ => report_validation parsed file validation exitCode
      end
  | _ =>
      match v_valid validation, v_graph validation with
      | true, Some graph =>
          match planGraph graph validation with
          | Ok p =>
              print_and_return
                (if parsed_json parsed
                 then writeEnvelope (Some (parsed_command parsed)) success (Some (planData file p)) None
                 else printPlanHuman file p) success
          | Err message => throws (OtherFailure message)
          end
      | _, _ => report_validation parsed file validation exitCode
      end
  end.

(** The [try] block of [run] *)
Definition run_command (parsed : ParsedCommand) : async failure CliExitCode :=
  match parsed_command parsed, parsed_file parsed with
  | init, Some directory => run_init parsed directory
  | init, None => throws (OtherFailure (js "init unexpectedly has no target directory"))
  | doctor, _ => run_doctor parsed
  | _, Some file => run_graph parsed file
  | command, None => throws (OtherFailure (command_text command ++ js " unexpectedly has no input file"))
  end.

Definition run (argv : list jsstr) : prog CliExitCode :=
  match parseArguments argv with
  | Err e => emitCliError e (inferCommand argv) (requestedJson argv)
  | Ok Help => _ ← writeStdout usage; Ret success
  | Ok Version => _ ← writeStdout VERSION; Ret success
  | Ok (Command parsed) =>
      prog_bind (λ r,
        match r with
        | Ok c => Ret c
        | Err f => emit_failure f (Some (parsed_command parsed)) (parsed_json parsed)
        end) (run_command parsed)
  end.

(** ** The entry point *)

(** [isEntrypoint()], given the file system's [realpath]: when a link cannot be resolved, the
    paths are compared as they are. *)
Definition isEntrypoint (realpath : jsstr → answer jsstr) (cwd : path) (module_path : jsstr)
    (argument : option jsstr) : bool :=
  match argument with
  | None => false
  | Some argument =>
      match realpath module_path, realpath (resolved cwd argument) with
      | Ok modulePath, Ok argumentPath => bool_decide (modulePath = argumentPath)
      | _, _ => bool_decide (module_path = resolved cwd argument)
      end
  end.
(** The module's own code: the exit status that it sets, if it is the entry point *)
Definition main (realpath : jsstr → answer jsstr) (cwd : path) (module_path : jsstr) (argv : list jsstr) :
    prog (option CliExitCode) :=
  if isEntrypoint realpath cwd module_path (argv !! 1)
  then prog_bind (λ c, Ret (Some c)) (run (drop 2 argv))
  else Ret None.
End run.
