(* ===== verification/Messages.v ===== *)
(** * The texts of a compilation

    Every text in the result of a compilation is a string of code units, when those
    of the document are: messages are put together from literals, numerals and the
    document's own names. *)
From S2P Require Import Prelude JsString JsNumber JsValue JsonText Canonical CanonicalSpec NumberText.
From S2P Require Import JsonRoundTrip ParsedJson JsonValues SchemaValidation Dag GraphIR Compiler CompilerSpec.
From S2P Require Import GraphReading CliValidation Utf8.
#[local] Arguments js : simpl never.

Create HintDb wf.

(** ** Strings *)

Lemma jsq_wf s : str_wf (jsq s).
Proof.
  unfold jsq, str_wf. pose proof (js_wf s) as H. apply Forall_fmap. eapply Forall_impl; [exact H|].
  intros c Hc. unfold compose. destruct (c =? 39)%N; [lia|done].
Qed.
Lemma str_wf_append s t : str_wf s → str_wf t → str_wf (s ++ t).
Proof. intros. by apply str_wf_app. Qed.
Lemma string_of_nat_wf n : str_wf (string_of_nat n).
Proof. apply string_of_N_wf. Qed.
Lemma string_of_Z_wf z : str_wf (string_of_Z z).
Proof. unfold string_of_Z. destruct (z <? 0)%Z; [constructor; [lia|]|]; apply string_of_N_wf. Qed.
Lemma join_wf sep l : str_wf sep → Forall str_wf l → str_wf (join sep l).
Proof.
  intros Hs H. induction H as [|s l Hl H IH]; [constructor|]. destruct l as [|s' l]; [done|].
  change (join sep (s :: s' :: l)) with (s ++ sep ++ join sep (s' :: l)). auto using str_wf_append.
Qed.
#[export] Hint Resolve js_wf jsq_wf str_wf_append string_of_nat_wf string_of_N_wf string_of_Z_wf join_wf : wf.
#[export] Hint Extern 1 (str_wf API_VERSION) => apply js_wf : wf.

(** ** Issues of the structural validator *)

Lemma issue_unless_wf ok issue : str_wf issue → Forall str_wf (issue_unless ok issue).
Proof. intros. destruct ok; by repeat constructor. Qed.
Lemma bind_wf {A B} (P : A → Prop) (Q : B → Prop) (f : A → list B) l :
  Forall P l → (∀ x, P x → Forall Q (f x)) → Forall Q (l ≫= f).
Proof.
  intros Hl Hf. induction Hl as [|x l Hx Hl IH]; [constructor|]. rewrite bind_cons. apply Forall_app. auto.
Qed.
Lemma Forall_app_2 {A} (P : A → Prop) l k : Forall P l → Forall P k → Forall P (l ++ k).
Proof. intros. by apply Forall_app. Qed.
Lemma Forall_one {A} (P : A → Prop) x : P x → Forall P [x].
Proof. by repeat constructor. Qed.
#[export] Hint Resolve issue_unless_wf Forall_app_2 Forall_one Forall_nil_2 Forall_cons_2 : wf.

Lemma unknownKeys_wf props allowed path : Forall str_wf props.*1 → str_wf path → Forall str_wf (unknownKeys props allowed path).
Proof. intros Hk Hp. apply (bind_wf str_wf); [done|]. intros; auto 7 with wf. Qed.
Lemma required_wf props keys path : Forall str_wf keys → str_wf path → Forall str_wf (required props keys path).
Proof. intros Hk Hp. apply (bind_wf str_wf); [done|]. intros; auto 7 with wf. Qed.
Lemma names_wf (keys : list jsstr) f : Forall str_wf keys → (∀ k, str_wf k → Forall str_wf (f k)) → Forall str_wf (keys ≫= f).
Proof. apply (bind_wf str_wf). Qed.
#[local] Hint Resolve unknownKeys_wf required_wf : wf.

(** The properties of a record of a tree *)
Lemma record_keys j props : json_ok j → record j = Some props → json_ok (JObj props) ∧ Forall str_wf props.*1.
Proof. destruct j; simpl; try done. intros Hj [= <-]. split; [done|]. by apply json_ok_obj in Hj as (_ & ? & _). Qed.

Lemma validateEndpoint_wf value path :
  when_present json_ok value → str_wf path → Forall str_wf (validateEndpoint value path).
Proof.
  intros Hv Hp. unfold validateEndpoint. destruct (value ≫= record) as [props|] eqn:E; [|auto with wf].
  apply bind_Some in E as (j & -> & Hr). destruct (record_keys j props Hv Hr) as [_ Hk]. auto 10 with wf.
Qed.

Lemma get_own_present k props : json_ok (JObj props) → when_present json_ok (get_own k props).
Proof. intros Hj. destruct (get_own k props) eqn:E; [|done]. by eapply json_ok_entry. Qed.
#[local] Hint Resolve validateEndpoint_wf get_own_present : wf.

Lemma validateMetadata_wf value : when_present json_ok value → Forall str_wf (validateMetadata value).
Proof.
  intros Hv. unfold validateMetadata. destruct (value ≫= record) as [props|] eqn:E; [|auto with wf].
  apply bind_Some in E as (j & -> & Hr). destruct (record_keys j props Hv Hr) as [_ Hk]. auto 10 with wf.
Qed.

Lemma validateRetry_wf retry path : json_ok retry → str_wf path → Forall str_wf (validateRetry retry path).
Proof.
  intros Hv Hp. unfold validateRetry. destruct (record retry) as [props|] eqn:E; [|auto with wf].
  destruct (record_keys _ props Hv E) as [_ Hk].
  repeat apply Forall_app_2; auto 12 with wf.
Qed.

Lemma validateNode_wf i value : json_ok value → Forall str_wf (validateNode i value).
Proof.
  intros Hv. unfold validateNode. destruct (record value) as [props|] eqn:E; [|auto with wf].
  destruct (record_keys _ props Hv E) as [Hj Hk].
  repeat apply Forall_app_2; try (auto 12 with wf).
  pose proof (get_own_present (js "retry") props Hj) as Hr. destruct (get_own (js "retry") props); [|auto with wf].
  apply validateRetry_wf; auto with wf.
Qed.

Lemma validateEdge_wf i value : json_ok value → Forall str_wf (validateEdge i value).
Proof.
  intros Hv. unfold validateEdge. destruct (record value) as [props|] eqn:E; [|auto with wf].
  destruct (record_keys _ props Hv E) as [Hj Hk].
  repeat apply Forall_app_2; auto 12 with wf.
Qed.

Lemma validateItems_wf value (f : nat → json → list jsstr) issue :
  when_present json_ok value → str_wf issue → (∀ i j, json_ok j → Forall str_wf (f i j)) →
  Forall str_wf (validateItems value f issue).
Proof.
  intros Hv Hi Hf. unfold validateItems. destruct value as [[| | | |items|]|]; try (auto with wf).
  apply json_ok_arr in Hv. revert f Hf. induction Hv as [|j items Hj _ IH]; intros f Hf; [constructor|].
  cbn [imap concat]. apply Forall_app_2; [by apply Hf|]. apply (IH (f ∘ S)). intros; by apply Hf.
Qed.

Lemma validateOutputs_wf value : when_present json_ok value → Forall str_wf (validateOutputs value).
Proof.
  intros Hv. unfold validateOutputs. destruct (value ≫= record) as [props|] eqn:E; [|auto with wf].
  apply bind_Some in E as (j & -> & Hr). destruct (record_keys j props Hv Hr) as [Hj Hk].
  destruct props as [|p props]; [auto with wf|].
  apply (bind_wf (λ p : jsstr * json, str_wf p.1 ∧ json_ok p.2)).
  - apply json_ok_obj in Hj as (_ & Hw & Ha). apply (Forall_fmap fst str_wf) in Hw.
    apply Forall_and. split; [exact Hw|exact Ha].
  - intros q [Hq Hjq]. apply validateEndpoint_wf; [done|auto with wf].
Qed.

Lemma validatePolicies_wf value : json_ok value → Forall str_wf (validatePolicies value).
Proof.
  intros Hv. unfold validatePolicies. destruct (record value) as [props|] eqn:E; [|auto with wf].
  repeat apply Forall_app_2; auto 12 with wf.
Qed.

Lemma validateGraphDocument_wf j : json_ok j → Forall str_wf (SchemaValidation.validateGraphDocument j).
Proof.
  intros Hj. unfold SchemaValidation.validateGraphDocument. destruct (record j) as [props|] eqn:E; [|auto with wf].
  destruct (record_keys _ props Hj E) as [Hjp Hk].
  repeat apply Forall_app_2; try (auto 12 with wf).
  - by apply validateMetadata_wf, get_own_present.
  - unfold validateEntrypoints. repeat case_match; auto with wf.
  - by apply validateOutputs_wf, get_own_present.
  - apply validateItems_wf; [by apply get_own_present|auto with wf|apply validateNode_wf].
  - apply validateItems_wf; [by apply get_own_present|auto with wf|apply validateEdge_wf].
  - pose proof (get_own_present (js "policies") props Hjp) as Hp.
    destruct (get_own (js "policies") props); [by apply validatePolicies_wf|auto with wf].
Qed.

(** ** Errors of the capture *)

Definition error_wf {A} (r : result capture_error A) : Prop :=
  match r with Err (CanonicalizationError message _) => str_wf message | _ => True end.

Lemma error_wf_bind {A B} (m : result capture_error A) (f : A → result capture_error B) :
  error_wf m → (∀ a, m = Ok a → error_wf (f a)) → error_wf (m ≫= f).
Proof. intros Hm Hf. destruct m as [a|e]; [by apply Hf|exact Hm]. Qed.

Lemma error_wf_traverse {A B} (f : A → result capture_error B) l :
  (∀ x, x ∈ l → error_wf (f x)) → error_wf (traverse f l).
Proof.
  induction l as [|x l IH]; intros Hf; [done|]. cbn [traverse]. apply error_wf_bind; [apply Hf; left|].
  intros y _. apply error_wf_bind; [|done]. apply IH. intros z Hz. apply Hf. by right.
Qed.

Lemma invalid_wf {A} message path : str_wf message → str_wf path → error_wf (invalid (A := A) message path).
Proof. intros. unfold invalid, error_wf. auto with wf. Qed.

Lemma replace_unit_wf u r s : str_wf r → str_wf s → str_wf (replace_unit u r s).
Proof.
  intros Hr Hs. apply (bind_wf (λ c, c < 65536)%N); [done|]. intros c Hc. destruct (c =? u)%N; [done|by repeat constructor].
Qed.
Lemma pointerSegment_wf s : str_wf s → str_wf (pointerSegment s).
Proof. intros. unfold pointerSegment. auto using replace_unit_wf with wf. Qed.
Lemma child_wf path s : str_wf path → str_wf s → str_wf (child path s).
Proof. intros. unfold child. auto with wf. Qed.
#[local] Hint Resolve invalid_wf child_wf pointerSegment_wf : wf.

Lemma own_names_wf h l name : heap_wf h → name ∈ own_names (deref h l) → str_wf name.
Proof.
  intros Hh. destruct (deref_wf h l Hh) as (_ & Hk & _). unfold own_names. rewrite elem_of_app.
  intros [H|H]; [by apply (proj1 (Forall_forall _ _) Hk)|].
  destruct (o_array _); [|by apply not_elem_of_nil in H]. apply list_elem_of_singleton in H as ->. apply js_wf.
Qed.

Lemma dataDescriptor_wf o key path : str_wf path → error_wf (dataDescriptor o key path).
Proof. intros. unfold dataDescriptor. repeat case_match; try done; auto with wf. Qed.

Lemma index_names_wf n path names :
  str_wf path → Forall str_wf names →
  error_wf (index_names n path names) ∧ ∀ l, index_names n path names = Ok l → Forall (λ p, str_wf p.2) l.
Proof.
  intros Hp Hn. induction Hn as [|name names Hname Hn [IH1 IH2]]; cbn [index_names].
  - split; [done|]. intros l [= <-]. constructor.
  - case_bool_decide; [done|]. destruct (index_name n name) as [i|].
    + split; [by apply error_wf_bind|]. intros l H0. inv_ok. constructor; [done|by apply IH2].
    + split; [auto with wf|done].
Qed.

Lemma type_of_wf v : str_wf (type_of v).
Proof. destruct v; apply js_wf. Qed.
#[local] Hint Resolve type_of_wf : wf.

Lemma captureValue_wf h fuel v path ancestors :
  heap_wf h → str_wf path → error_wf (captureValue h fuel v path ancestors).
Proof.
  intros Hh. revert v path ancestors. induction fuel as [|fuel IH]; intros v path ancestors Hp.
  { destruct v; cbn [captureValue]; repeat case_match; done || auto with wf. }
  destruct v as [| |b|n|s|z| | |l]; cbn [captureValue]; try done; try (auto with wf; fail).
  { repeat case_match; done || auto with wf. }
  case_match; [auto with wf|]. case_match; [auto with wf|]. destruct (o_array (deref h l)).
  - unfold captureArray. do 2 (case_match; [by auto with wf|]).
    destruct (index_names_wf (o_length (deref h l)) path (own_names (deref h l)) Hp) as [Hix Hnm].
    { apply Forall_forall. intros name. by apply own_names_wf. }
    apply error_wf_bind; [done|]. intros names Hnames. case_match; [by auto with wf|].
    apply error_wf_bind; [|done]. apply error_wf_traverse. intros name Hname.
    assert (str_wf name).
    { apply list_elem_of_fmap in Hname as (p & -> & Hin). rewrite elem_of_sort_by in Hin.
      by apply (proj1 (Forall_forall _ _) (Hnm _ Hnames)). }
    apply error_wf_bind; [by apply dataDescriptor_wf; auto with wf|]. intros w _. apply IH. auto with wf.
  - unfold captureObject. do 2 (case_match; [by auto with wf|]).
    apply error_wf_bind; [|done]. apply error_wf_traverse. intros name Hname.
    rewrite elem_of_sort_by in Hname. apply own_names_wf in Hname; [|done].
    apply error_wf_bind; [by apply dataDescriptor_wf; auto with wf|]. intros w _.
    apply error_wf_bind; [|done]. apply IH. auto with wf.
Qed.

(** ** The strings of a graph *)

Definition endpoint_wf (e : Endpoint) : Prop := str_wf (endpoint_node e) ∧ when_present str_wf (endpoint_port e).
Record graph_wf (g : GraphSpec) : Prop := {
  wf_name : str_wf (metadata_name (graph_metadata g));
  wf_entrypoints : Forall str_wf (graph_entrypoints g);
  wf_outputs : Forall (λ p, str_wf p.1 ∧ endpoint_wf p.2) (graph_outputs g);
  wf_nodes : Forall (λ n, str_wf (node_id n)) (graph_nodes g);
  wf_edges : Forall (λ e, str_wf (edge_id e) ∧ endpoint_wf (edge_from e) ∧ endpoint_wf (edge_to e)) (graph_edges g)
}.

(** A decoder that returns something good from every tree *)
Class Decodes {A} (dec : json → option A) (good : A → Prop) : Prop :=
  decodes_good j x : json_ok j → dec j = Some x → good x.

#[export] Instance decodes_string : Decodes as_string str_wf.
Proof. intros [| | |s| |] x Hj [= <-]. by apply json_ok_str. Qed.
#[export] Instance decodes_array {A} (dec : json → option A) good :
  Decodes dec good → Decodes (A := list A) (λ v, as_array v ≫= mapM dec) (Forall good).
Proof.
  intros Hdec [| | | |items|] l Hj H; try done. cbn [as_array mbind option_bind] in H. apply json_ok_arr in Hj.
  apply mapM_Some in H. induction H as [|j x items l Hx _ IH]; [constructor|].
  apply Forall_cons in Hj as [Hj Hjs]. constructor; [by eapply Hdec|by apply IH].
Qed.
#[export] Instance decodes_map {A} (dec : json → option A) good :
  Decodes dec good → Decodes (as_map dec) (Forall (λ p, str_wf p.1 ∧ good p.2)).
Proof.
  intros Hdec [| | | | |props] l Hj H; try done. unfold as_map in H. cbn [record mbind option_bind] in H.
  apply json_ok_obj in Hj as (_ & Hk & Hj). apply (Forall_fmap fst str_wf) in Hk. apply mapM_Some in H.
  induction H as [|[k j] p props l Hp _ IH]; [constructor|].
  apply Forall_cons in Hk as [Hk Hks]. apply Forall_cons in Hj as [Hj Hjs]. cbn [fst snd] in Hp.
  destruct (dec j) as [x|] eqn:E; [|done]. injection Hp as <-.
  constructor; [split; [done|by eapply Hdec]|by apply IH].
Qed.

Lemma field_decodes {A} k (dec : json → option A) good props x :
  Decodes dec good → json_ok (JObj props) → field k dec props = Some x → good x.
Proof.
  intros Hdec Hj H. unfold field in H. apply bind_Some in H as (j & Hk & H). eapply Hdec; [|exact H]. by eapply json_ok_entry.
Qed.
Lemma opt_field_decodes {A} k (dec : json → option A) good props o :
  Decodes dec good → json_ok (JObj props) → opt_field k dec props = Some o → when_present good o.
Proof.
  intros Hdec Hj H. unfold opt_field in H. destruct (get_own k props) as [j|] eqn:Hk; [|by injection H as <-].
  apply bind_Some in H as (x & H & [= <-]). eapply Hdec; [|exact H]. by eapply json_ok_entry.
Qed.
#[local] Arguments field : simpl never.
#[local] Arguments opt_field : simpl never.

Lemma as_record_props allowed j props : as_record allowed j = Some props → j = JObj props.
Proof. unfold as_record. destruct j; simpl; try done. intros H. by case_match; simplify_eq. Qed.

(** Open the fields of a decoded record, and use the decoder of one. *)
Ltac decoded_fields H :=
  simplify_option_eq; repeat match goal with
  | E : as_record _ _ = Some _ |- _ => apply as_record_props in E; subst
  end.
Ltac decoded good :=
  first [ eapply (field_decodes _ _ good); [apply _|eassumption|eassumption]
        | eapply (opt_field_decodes _ _ good); [apply _|eassumption|eassumption] ].

#[export] Instance decodes_endpoint : Decodes endpoint_of_json endpoint_wf.
Proof. intros j e Hj H. unfold endpoint_of_json in H. decoded_fields H. split; decoded str_wf. Qed.
#[export] Instance decodes_node : Decodes node_of_json (λ n, str_wf (node_id n)).
Proof. intros j n Hj H. unfold node_of_json in H. decoded_fields H. cbn [node_id]. decoded str_wf. Qed.
Definition edge_texts_wf (e : EdgeSpec) : Prop := str_wf (edge_id e) ∧ endpoint_wf (edge_from e) ∧ endpoint_wf (edge_to e).
#[export] Instance decodes_edge : Decodes edge_of_json edge_texts_wf.
Proof.
  intros j e Hj H. unfold edge_of_json in H. decoded_fields H. unfold edge_texts_wf. cbn [edge_id edge_from edge_to].
  split_and!; [decoded str_wf|decoded endpoint_wf..].
Qed.
#[export] Instance decodes_metadata : Decodes metadata_of_json (λ m, str_wf (metadata_name m)).
Proof. intros j m Hj H. unfold metadata_of_json in H. decoded_fields H. cbn [metadata_name]. decoded str_wf. Qed.
#[export] Instance decodes_graph : Decodes graph_of_json graph_wf.
Proof.
  intros j g Hj H. unfold graph_of_json in H. decoded_fields H.
  split; cbn [graph_metadata graph_entrypoints graph_outputs graph_nodes graph_edges].
  - decoded (λ m, str_wf (metadata_name m)).
  - decoded (Forall str_wf).
  - decoded (Forall (λ p : jsstr * Endpoint, str_wf p.1 ∧ endpoint_wf p.2)).
  - decoded (Forall (λ n, str_wf (node_id n))).
  - decoded (Forall edge_texts_wf).
Qed.

(** ** Diagnostics *)

Definition diagnostic_wf (d : CompilerDiagnostic) : Prop :=
  str_wf (message d) ∧ when_present str_wf (diagnostic_path d) ∧ when_present (Forall str_wf) (nodeIds d) ∧
  when_present str_wf (edgeId d).

Lemma diagnostic_good code message path nodeIds edgeId :
  str_wf message → when_present str_wf path → when_present (Forall str_wf) nodeIds → when_present str_wf edgeId →
  diagnostic_wf (diagnostic code message path nodeIds edgeId).
Proof. done. Qed.
Lemma present_Some {A} (P : A → Prop) x : P x → when_present P (Some x).
Proof. done. Qed.
Lemma present_None {A} (P : A → Prop) : when_present P None.
Proof. done. Qed.
#[local] Hint Resolve diagnostic_good present_Some present_None : wf.

Lemma index_nodes_wf i nodes m0 d0 :
  Forall (λ n, str_wf (node_id n)) nodes → Forall diagnostic_wf d0 → Forall str_wf m0.*1 →
  Forall diagnostic_wf (index_nodes i nodes m0 d0).2 ∧ Forall str_wf (index_nodes i nodes m0 d0).1.*1.
Proof.
  intros Hn. revert i m0 d0. induction Hn as [|n nodes Hn _ IH]; intros i m0 d0 Hd Hm; cbn [index_nodes]; [done|].
  destruct (map_has (node_id n) m0); apply IH; auto 12 with wf.
  apply Forall_forall. intros x [->|Hx]%map_set_keys_elem; [done|]. by apply (proj1 (Forall_forall _ _) Hm).
Qed.

Lemma edge_diagnostics_wf m seen i e :
  str_wf (edge_id e) → endpoint_wf (edge_from e) → endpoint_wf (edge_to e) →
  Forall diagnostic_wf (edge_diagnostics m seen i e).
Proof. intros He [Hf _] [Ht _]. unfold edge_diagnostics. repeat apply Forall_app_2; case_match; auto 15 with wf. Qed.

Lemma check_edges_wf m seen i edges :
  Forall (λ e, str_wf (edge_id e) ∧ endpoint_wf (edge_from e) ∧ endpoint_wf (edge_to e)) edges →
  Forall diagnostic_wf (check_edges m seen i edges).2.
Proof.
  intros He. revert seen i. induction He as [|e edges (H1 & H2 & H3) _ IH]; intros seen i; cbn [check_edges]; [constructor|].
  specialize (IH (set_add (edge_id e) seen) (S i)). destruct (check_edges _ _ _ edges). cbn [snd] in *.
  apply Forall_app_2; [by apply edge_diagnostics_wf|done].
Qed.

Lemma imap_wf {A B} (P : A → Prop) (Q : B → Prop) (f : nat → A → list B) l :
  Forall P l → (∀ i x, P x → Forall Q (f i x)) → Forall Q (concat (imap f l)).
Proof.
  intros Hl. revert f. induction Hl as [|x l Hx _ IH]; intros f Hf; [constructor|].
  cbn [imap concat]. apply Forall_app_2; [by apply Hf|]. apply (IH (f ∘ S)). intros; by apply Hf.
Qed.

(** The members of a filtered list *)
Lemma filter_wf {A} (P Q : A → Prop) `{∀ x, Decision (P x)} l : Forall Q l → Forall Q (filter P l).
Proof. intros Hl. apply Forall_forall. intros x [_ Hx]%list_elem_of_filter. by apply (proj1 (Forall_forall _ _) Hl). Qed.
#[local] Hint Resolve filter_wf : wf.

Lemma compile_graph_wf g hash canonical :
  graph_wf g → Forall diagnostic_wf (diagnostics (compile_graph g hash canonical)).
Proof.
  intros [_ He Ho Hn Hed]. unfold compile_graph.
  pose proof (index_nodes_wf 0 (graph_nodes g) [] [] Hn (Forall_nil_2 _) (Forall_nil_2 _)) as [Hd Hids].
  destruct (index_nodes 0 (graph_nodes g) [] []) as [nodesById duplicates]. cbn [fst snd] in *.
  pose proof (check_edges_wf nodesById [] 0 (graph_edges g) Hed) as Hedges.
  destruct (check_edges nodesById [] 0 (graph_edges g)) as [validEdges edge_issues]. cbn [snd] in Hedges. cbv zeta.
  set (structural := duplicates ++ _). destruct (0 <? length structural).
  { cbn [diagnostics]. unfold structural. repeat apply Forall_app_2; [done|done| |].
    - apply (imap_wf str_wf); [done|]. intros i x Hx. case_match; auto 12 with wf.
    - unfold check_outputs. apply (bind_wf (λ p : jsstr * Endpoint, str_wf p.1 ∧ endpoint_wf p.2)).
      + by rewrite sort_by_Permutation.
      + intros p [Hp [Hpe _]]. case_match; auto 15 with wf. }
  destruct (layer_loop _ _ _ _ _ _) as [layers processed].
  set (cycleNodes := filter _ nodesById.*1). destruct (0 <? length cycleNodes); cbn [diagnostics].
  { assert (Forall str_wf cycleNodes) by (by apply filter_wf). auto 12 with wf. }
  repeat apply Forall_app_2.
  - apply (imap_wf str_wf); [done|]. intros i x Hx. case_match; auto 12 with wf.
  - unfold unreachable_diagnostics. apply Forall_fmap. eapply Forall_impl; [by apply filter_wf|].
    intros x Hx. unfold compose. cbv beta in Hx. auto 12 with wf.
  - unfold fan_out_diagnostics. case_match; [|auto with wf]. apply (bind_wf str_wf); [done|].
    intros x Hx. case_match; auto 15 with wf.
  - unfold depth_diagnostics. repeat case_match; auto 15 with wf.
Qed.

(** The layers are made of the graph's nodes. *)
Lemma compile_graph_layers_wf g hash canonical :
  graph_wf g → Forall (Forall str_wf) (topologicalLayers (compile_graph g hash canonical)).
Proof.
  intros [_ _ _ Hn _]. destruct (compile_graph_cases g hash canonical) as [(_ & _ & -> & _)|(_ & d & Ha)]; [constructor|].
  assert (topologicalLayers (compile_graph g hash canonical) = level (graph_ids g) (graph_pairs g) <$> seq 0 d) as ->.
  { destruct Ha as (_ & _ & _ & [[_ ->]|(_ & adjacency & reachable & _ & _ & ->)]); done. }
  apply Forall_fmap, Forall_true. intros i. apply filter_wf. unfold graph_ids. by apply Forall_fmap.
Qed.

(** ** The result of a compilation *)

Record compilation_wf (r : CompilationResult) : Prop := {
  wf_hash : when_present str_wf (graphHash r);
  wf_canonical : when_present str_wf (canonicalGraph r);
  wf_layers : Forall (Forall str_wf) (topologicalLayers r);
  wf_diagnostics : Forall diagnostic_wf (diagnostics r)
}.

Lemma serialize_wf j : json_ok j → str_wf (serializeCaptured j).
Proof. intros Hj. by apply clean_wf, serialize_clean. Qed.

Lemma invalid_result_wf message : str_wf message → compilation_wf (invalid_result message).
Proof. intros Hm. split; [done..|constructor|]. unfold invalid_result. cbn [diagnostics]. auto 12 with wf. Qed.

Lemma compile_json_wf hash j : (∀ s, str_wf (hash s)) → parsed_ok j → compilation_wf (compile_json hash j).
Proof.
  intros Hhash Hj. pose proof (captured_document j Hj) as Hcap. unfold compile_json.
  destruct (value_of_json j) as [h v]. destruct Hcap as [Hh Hport]. unfold compileGraph.
  destruct (captureCanonicalJson h v) as [[captured serialized]|[message path|]] eqn:E.
  - unfold captureCanonicalJson in E. inv_ok.
    destruct (captureCanonicalJson_cases h v Hh) as [(j' & Hj' & E')|[(message & path & E') _]];
      unfold captureCanonicalJson in E'; rewrite E0 in E'; [|done]. injection E' as ->.
    apply Hport in Hj' as (Hok & _ & ->). pose proof (canonical_form_ok j Hok) as Hcok.
    destruct (SchemaValidation.validateGraphDocument (canonical_form j)) as [|issue issues] eqn:Hi.
    + destruct (graph_of_json (canonical_form j)) as [g|] eqn:Hg; [|apply invalid_result_wf, js_wf].
      apply (decodes_good (Decodes := decodes_graph)) in Hg; [|done].
      destruct (compile_graph_texts g (Some (hash (serializeCaptured (canonical_form j)))) (Some (serializeCaptured (canonical_form j)))) as [Eh Ec].
      split; rewrite ?Eh, ?Ec; [apply Hhash|by apply serialize_wf|by apply compile_graph_layers_wf|by apply compile_graph_wf].
    + apply invalid_result_wf, join_wf; [apply js_wf|]. rewrite <- Hi. by apply validateGraphDocument_wf.
  - apply invalid_result_wf. pose proof (captureValue_wf h (S (size h)) v (js "#") [] Hh (js_wf _)) as Hm.
    unfold captureCanonicalJson in E. destruct (captureValue _ _ _ _ _) as [c|e]; [done|].
    injection E as ->. exact Hm.
  - apply invalid_result_wf, js_wf.
Qed.

(** ** Records of results *)

Lemma code_text_wf c : str_wf (code_text c).
Proof. destruct c; apply js_wf. Qed.
Lemma severity_text_wf s : str_wf (severity_text s).
Proof. destruct s; apply js_wf. Qed.
#[export] Hint Resolve code_text_wf severity_text_wf : wf.

(** The literal keys of an object: distinct, and of code units *)
Definition keys_ok (keys : list jsstr) : bool :=
  bool_decide (NoDup keys) && bool_decide (Forall (Forall (λ u, u < 65536)%N) keys).
