(* ===== verification/VisualizeSpec.v ===== *)
(** * What a diagram shows

    A reader of the two diagram languages, which knows only where a label ends: at
    the first quotation mark.  It reads back from a rendered graph one node per node
    and one edge per edge, with the positions of the edge's endpoints, so that no text
    of the document can add, remove or bend a line.  Escaping is undone by reading the
    entities, and a label is taken apart at its separators, into the fields of a node or
    of an edge. *)
From S2P Require Import Prelude JsString JsNumber JsValue JsonText NumberText SchemaValidation Dag GraphIR.
From S2P Require Import JsonRoundTrip ParsedJson JsonValues Compiler CompilerSpec GraphReading CliValidation Messages Visualize.
#[local] Arguments js : simpl never.

(** ** Reading labels *)

(** A label as it is displayed: characters, those of entities among them, and the
    punctuation between its parts *)
Inductive piece := Shown (c : N) | Mark (c : N).
#[export] Instance piece_eq_dec : EqDecision piece.
Proof. solve_decision. Defined.

Fixpoint read_pieces (fuel : nat) (prefix s : jsstr) : option (list piece) :=
  match fuel, s with
  | _, [] => Some []
  | 0, _ => None
  | S fuel, c :: rest =>
      if starts_with prefix s then
        let '(digits, rest) := span_digits (drop (length prefix) s) in
        match rest with
        | 59%N :: rest => cons (Shown (digits_value digits)) <$> read_pieces fuel prefix rest
        | _ => None
        end
      else cons (if display_safe c then Shown c else Mark c) <$> read_pieces fuel prefix rest
  end.
Definition label_pieces (format : VisualizationFormat) (s : jsstr) : option (list piece) :=
  read_pieces (length s) (entity_prefix format) s.

(** Text without punctuation *)
Definition shown_char (p : piece) : option N := match p with Shown c => Some c | Mark _ => None end.
Definition shown_text (ps : list piece) : option jsstr := (λ cs, cs ≫= encode_point) <$> mapM shown_char ps.
Definition unescape_text (format : VisualizationFormat) (s : jsstr) : option jsstr :=
  label_pieces format s ≫= shown_text.

(** *** The parts of a label *)

(** Pieces split at a punctuation character *)
Fixpoint split_mark (m : N) (ps : list piece) : list (list piece) :=
  match ps with
  | [] => [[]]
  | p :: ps =>
      if bool_decide (p = Mark m) then [] :: split_mark m ps
      else match split_mark m ps with part :: parts => (p :: part) :: parts | [] => [[p]] end
  end.
(** Parts that are separated by the character and a space *)
Definition strip_space (part : list piece) : option (list piece) :=
  match part with Shown 32%N :: part => Some part | _ => None end.
Definition read_list (m : N) (ps : list piece) : option (list (list piece)) :=
  match split_mark m ps with
  | [] => None
  | part :: parts => cons part <$> mapM strip_space parts
  end.
(** The pieces of a text of the program itself *)
Definition literal (s : string) : list piece := (λ c, if display_safe c then Shown c else Mark c) <$> js s.
Definition read_value (key : string) (part : list piece) : option (list piece) :=
  let prefix := literal key ++ [Mark 61] in
  if bool_decide (take (length prefix) part = prefix) then Some (drop (length prefix) part) else None.

(** What the label of a node says, and that of an edge; a port is a text, [default] if
    the edge names none, and an output is its name, with [ at ] and its port if it has one. *)
Record drawn_node := DrawnNode {
  drawn_id : jsstr; drawn_kind : NodeKind; drawn_entrypoint : bool; drawn_outputs : list jsstr }.
Record drawn_edge := DrawnEdge {
  drawn_edge_id : jsstr; drawn_fromPort : jsstr; drawn_toPort : jsstr; drawn_mode : option EdgeMode }.

Definition read_text (key : string) (part : list piece) : option jsstr := read_value key part ≫= shown_text.
Definition read_outputs (parts : list (list piece)) : option (list jsstr) :=
  match parts with
  | [] => Some []
  | [part] => names ← (value ← read_value "outputs" part; read_list 44 value); mapM shown_text names
  | _ => None
  end.
Definition read_entrypoint (parts : list (list piece)) : bool * list (list piece) :=
  match parts with
  | part :: rest => if bool_decide (part = literal "entrypoint") then (true, rest) else (false, parts)
  | [] => (false, [])
  end.
Definition read_node (ps : list piece) : option drawn_node :=
  parts ← read_list 59 ps;
  match parts return option drawn_node with
  | id :: kind :: rest =>
      id ← read_text "id" id;
      kind ← read_text "kind" kind;
      kind ← map_get kind NODE_KIND_TABLE;
      let '(entrypoint, rest) := read_entrypoint rest in
      outputs ← read_outputs rest;
      Some (DrawnNode id kind entrypoint outputs)
  | _ => None
  end.

Definition read_mode (s : jsstr) : option (option EdgeMode) :=
  if bool_decide (s = js "default") then Some None else Some <$> map_get s EDGE_MODE_TABLE.
Definition read_edge (ps : list piece) : option drawn_edge :=
  parts ← read_list 59 ps;
  match parts return option drawn_edge with
  | [id; from; to; mode] =>
      id ← read_text "id" id;
      from ← read_text "fromPort" from;
      to ← read_text "toPort" to;
      mode ← read_text "mode" mode;
      mode ← read_mode mode;
      Some (DrawnEdge id from to mode)
  | _ => None
  end.

(** The characters a label may hold: the displayed ones, entities and separators *)
Definition label_unit (c : N) : bool := display_safe c || bool_decide (c ∈ [35; 38; 59; 61; 44]%N).
Definition label_text (s : jsstr) : Prop := Forall (λ c, label_unit c = true) s.

(** ** Reading lines *)

Definition expect (prefix s : jsstr) : option jsstr :=
  if starts_with prefix s then Some (drop (length prefix) s) else None.
Definition read_number (s : jsstr) : option (nat * jsstr) :=
  let '(digits, rest) := span_digits s in
  match digits with [] => None | _ => Some (N.to_nat (digits_value digits), rest) end.
Fixpoint read_label (s : jsstr) : option (jsstr * jsstr) :=
  match s with
  | [] => None
  | c :: s => if (c =? 34)%N then Some ([], s) else '(label, rest) ← read_label s; Some (c :: label, rest)
  end.
Definition finished (s : jsstr) : option () := match s with [] => Some () | _ => None end.

(** A node: its number and its label.  An edge: the numbers of its ends, its own
    number, and its label. *)
Inductive diagram_line :=
  | NodeLine (index : nat) (label : jsstr)
  | EdgeLine (from to index : nat) (label : jsstr).

Definition read_mermaid (s : jsstr) : option diagram_line :=
  s ← expect (js "  n") s; '(i, s) ← read_number s;
  match expect (jsq "['") s with
  | Some s => '(label, s) ← read_label s; s ← expect (js "]") s; _ ← finished s; Some (NodeLine i label)
  | None =>
      s ← expect (js " e") s; '(k, s) ← read_number s; s ← expect (jsq "@-->|'") s;
      '(label, s) ← read_label s; s ← expect (js "| n") s; '(j, s) ← read_number s; _ ← finished s;
      Some (EdgeLine i j k label)
  end.
Definition read_dot (s : jsstr) : option diagram_line :=
  s ← expect (js "  n") s; '(i, s) ← read_number s;
  match expect (jsq " [label='") s with
  | Some s => '(label, s) ← read_label s; s ← expect (js "];") s; _ ← finished s; Some (NodeLine i label)
  | None =>
      s ← expect (js " -> n") s; '(j, s) ← read_number s; s ← expect (jsq " [id='e") s;
      '(k, s) ← read_number s; s ← expect (jsq "', label='") s;
      '(label, s) ← read_label s; s ← expect (js "];") s; _ ← finished s; Some (EdgeLine i j k label)
  end.

(** A diagram: the lines between the header and the footer of the format *)
Definition read_line (format : VisualizationFormat) : jsstr → option diagram_line :=
  match format with mermaid => read_mermaid | dot => read_dot end.
Definition header (format : VisualizationFormat) : list jsstr :=
  match format with
  | mermaid => [js "flowchart TD"]
  | dot => [js "digraph GraphEngineering {"; js "  rankdir=TB;"; js "  node [shape=box];"]
  end.
Definition footer (format : VisualizationFormat) : list jsstr :=
  match format with mermaid => [] | dot => [js "}"] end.
Definition read_diagram (format : VisualizationFormat) (content : jsstr) : option (list diagram_line) :=
  let lines := split_lines content in
  let body := drop (length (header format)) lines in
  if bool_decide (take (length (header format)) lines = header format ∧
       drop (length body - length (footer format) - 1) body = footer format ++ [[]])
  then mapM (read_line format) (take (length body - length (footer format) - 1) body)
  else None.

(** ** Escaping *)

Lemma display_safe_small c : display_safe c = true → (32 ≤ c < 123)%N ∧ c ≠ 34%N ∧ c ≠ 35%N ∧ c ≠ 38%N ∧ c ≠ 59%N.
Proof.
  unfold display_safe, is_digit, is_upper, is_lower. rewrite !orb_true_iff, !andb_true_iff, !N.leb_le, !N.eqb_eq. lia.
Qed.

Lemma digits_label ds : digits ds → label_text ds.
Proof.
  intros H. eapply Forall_impl; [exact H|]. intros c Hc. cbv beta in Hc. unfold label_unit, display_safe. by rewrite Hc.
Qed.

Lemma label_text_app s t : label_text s → label_text t → label_text (s ++ t).
Proof. intros. by apply Forall_app. Qed.
Lemma label_text_lit s : forallb label_unit s = true → label_text s.
Proof. by rewrite forallb_Forall. Qed.
Create HintDb labels.
#[local] Hint Extern 1 (label_text (js _)) => (apply label_text_lit; vm_compute; reflexivity) : labels.
#[local] Hint Resolve label_text_app : labels.

Lemma entity_prefix_label format : label_text (entity_prefix format).
Proof. by destruct format; apply label_text_lit. Qed.
#[local] Hint Resolve entity_prefix_label : labels.

Lemma escape_label format value : label_text (escape_text format value).
Proof.
  unfold escape_text, escapeDiagramText. induction (code_points value) as [|c cs IH]; [constructor|].
  rewrite bind_cons. apply label_text_app; [|done]. destruct (display_safe c) eqn:E.
  - pose proof (display_safe_small c E). unfold encode_point. rewrite (proj2 (N.ltb_lt _ _)) by lia.
    constructor; [|constructor]. unfold label_unit. by rewrite E.
  - apply label_text_app; [auto with labels|]. apply label_text_app; [|auto with labels].
    apply digits_label, string_of_N_digits.
Qed.
#[local] Hint Resolve escape_label : labels.

Lemma join_label sep l : label_text sep → Forall label_text l → label_text (join sep l).
Proof.
  intros Hs H. induction H as [|s l Hl H IH]; [constructor|]. destruct l as [|s' l]; [done|].
  change (join sep (s :: s' :: l)) with (s ++ sep ++ join sep (s' :: l)). auto using label_text_app.
Qed.

Lemma node_label_text format graph node : label_text (node_label format graph node).
Proof.
  unfold node_label, nodeLabel. apply join_label; [auto with labels|].
  rewrite !Forall_app, !Forall_cons, Forall_nil. split_and!; auto with labels.
  - case_match; rewrite ?Forall_cons, Forall_nil; auto with labels.
  - case_match; rewrite ?Forall_cons, Forall_nil; [|done]. split; [|done]. apply label_text_app; [auto with labels|].
    apply join_label; [auto with labels|]. apply Forall_fmap, Forall_true. intros output.
    unfold compose, namedOutputLabel. case_match; auto 6 with labels.
Qed.

Lemma edge_label_text format edge : label_text (edge_label format edge).
Proof.
  unfold edge_label, edgeLabel. apply join_label; [auto with labels|].
  rewrite !Forall_cons, Forall_nil. split_and!; [auto with labels| | | |done];
    (apply label_text_app; [auto with labels|]); case_match; auto with labels.
Qed.

Lemma label_no_quote s : label_text s → 34%N ∉ s ∧ 10%N ∉ s.
Proof.
  intros H. split; intros Hin; by pose proof (proj1 (Forall_forall _ _) H _ Hin).
Qed.

(** *** Reading pieces

    [lexes_as t ps]: in front of any text that can be read, the label text [t] reads as [ps]. *)
Definition reads_pieces (format : VisualizationFormat) (s : jsstr) (ps : list piece) : Prop :=
  ∀ fuel, length s ≤ fuel → read_pieces fuel (entity_prefix format) s = Some ps.
Definition lexes_as (format : VisualizationFormat) (t : jsstr) (ps : list piece) : Prop :=
  ∀ s qs, reads_pieces format s qs → reads_pieces format (t ++ s) (ps ++ qs).

Lemma lexes_app format t ps u qs : lexes_as format t ps → lexes_as format u qs → lexes_as format (t ++ u) (ps ++ qs).
Proof. intros Ht Hu s rs Hs. rewrite <- !(assoc_L (++)). by apply Ht, Hu. Qed.
Lemma lexes_nil format : lexes_as format [] [].
Proof. by intros s qs Hs. Qed.

(** A character that starts no entity is read by itself. *)
Lemma lexes_char format c :
  c ≠ 35%N → c ≠ 38%N → lexes_as format [c] [if display_safe c then Shown c else Mark c].
Proof.
  intros H35 H38 s qs Hs fuel Hfuel. cbn [app length] in Hfuel |- *. destruct fuel as [|fuel]; [lia|].
  assert (starts_with (entity_prefix format) (c :: s) = false) as E.
  { destruct format; change (entity_prefix mermaid) with [35%N] || change (entity_prefix dot) with [38; 35]%N;
      cbn [starts_with]; by rewrite (proj2 (N.eqb_neq _ c)) by done. }
  cbn [read_pieces]. rewrite E, Hs by lia. done.
Qed.
Lemma lexes_entity format n :
  lexes_as format (entity_prefix format ++ string_of_N n ++ js ";") [Shown n].
Proof.
  intros s qs Hs fuel Hfuel. rewrite <- !(assoc_L (++)) in Hfuel |- *.
  assert (starts_with (entity_prefix format) (entity_prefix format ++ string_of_N n ++ js ";" ++ s) = true) as Hp
    by (by destruct format).
  assert (drop (length (entity_prefix format)) (entity_prefix format ++ string_of_N n ++ js ";" ++ s) =
    string_of_N n ++ js ";" ++ s) as Hd by apply drop_app_length.
  rewrite !length_app in Hfuel. assert (0 < length (entity_prefix format)) by (destruct format; simpl; lia).
  destruct (entity_prefix format ++ string_of_N n ++ js ";" ++ s) as [|u rest] eqn:Eu; [by destruct format|].
  destruct fuel as [|fuel]; [lia|]. cbn [read_pieces]. rewrite Hp, Hd.
  rewrite span_digits_app by (done || apply string_of_N_digits).
  change (js ";" ++ s) with (59%N :: s). cbv iota beta. rewrite digits_value_string, Hs by (simpl in Hfuel; lia). done.
Qed.

Lemma lexes_escape format value : lexes_as format (escape_text format value) (Shown <$> code_points value).
Proof.
  unfold escape_text, escapeDiagramText. induction (code_points value) as [|c cs IH]; [apply lexes_nil|].
  rewrite bind_cons. change (Shown <$> c :: cs) with ([Shown c] ++ (Shown <$> cs)). apply lexes_app; [|done].
  destruct (display_safe c) eqn:E; [|apply lexes_entity].
  pose proof (display_safe_small c E) as (Hc & _ & H35 & H38 & _). unfold encode_point. rewrite (proj2 (N.ltb_lt _ _)) by lia.
  pose proof (lexes_char format c H35 H38) as H. by rewrite E in H.
Qed.
Lemma lexes_literal format (s : string) :
  forallb (λ c, negb ((c =? 35) || (c =? 38))%N) (js s) = true → lexes_as format (js s) (literal s).
Proof.
  unfold literal. induction (js s) as [|c t IH]; intros H; [apply lexes_nil|]. cbn [forallb] in H.
  apply andb_true_iff in H as [Hc Ht]. apply negb_true_iff, orb_false_iff in Hc as [H35%N.eqb_neq H38%N.eqb_neq].
  apply (lexes_app _ [c] [_] t); [by apply lexes_char|by apply IH].
Qed.
Lemma lexes_label format t ps : lexes_as format t ps → label_pieces format t = Some ps.
Proof.
  intros H. assert (reads_pieces format [] []) as Hnil by (by intros [|fuel]).
  specialize (H [] [] Hnil (length t)). rewrite !app_nil_r in H. by apply H.
Qed.

(** *** Reading parts *)

Lemma mapM_shown cs : mapM shown_char (Shown <$> cs) = Some cs.
Proof. apply mapM_Some. induction cs as [|c cs IH]; by constructor. Qed.
Lemma shown_shown value : str_wf value → shown_text (Shown <$> code_points value) = Some value.
Proof. intros Hv. unfold shown_text. rewrite mapM_shown. cbn [fmap option_fmap option_map]. by rewrite encode_code_points. Qed.

(** Parts, separated *)
Fixpoint separated (m : N) (parts : list (list piece)) : list piece :=
  match parts with
  | [] => []
  | [part] => part
  | part :: parts => part ++ [Mark m; Shown 32] ++ separated m parts
  end.
Lemma split_mark_part m part rest : Mark m ∉ part → split_mark m (part ++ Mark m :: rest) = part :: split_mark m rest.
Proof.
  induction part as [|p part IH]; intros H; cbn [app split_mark]; [by rewrite bool_decide_eq_true_2|].
  apply not_elem_of_cons in H as [Hp H]. rewrite bool_decide_eq_false_2 by congruence. by rewrite IH.
Qed.
Lemma split_mark_last m part : Mark m ∉ part → split_mark m part = [part].
Proof.
  induction part as [|p part IH]; intros H; [done|]. apply not_elem_of_cons in H as [Hp H]. cbn [split_mark].
  rewrite bool_decide_eq_false_2 by congruence. by rewrite IH.
Qed.
Lemma read_list_separated m part parts :
  Forall (λ part, Mark m ∉ part) (part :: parts) → read_list m (separated m (part :: parts)) = Some (part :: parts).
Proof.
  intros H. unfold read_list.
  assert (split_mark m (separated m (part :: parts)) = part :: ((λ part, Shown 32 :: part) <$> parts)) as ->.
  { revert part H. induction parts as [|part' parts IH]; intros part [Hp H]%Forall_cons; [by apply split_mark_last|].
    change (separated m (part :: part' :: parts)) with (part ++ Mark m :: [Shown 32] ++ separated m (part' :: parts)).
    rewrite split_mark_part by done. cbn [app split_mark]. rewrite bool_decide_eq_false_2 by done. by rewrite IH. }
  assert (mapM strip_space ((λ part, Shown 32 :: part) <$> parts) = Some parts) as ->; [|done].
  apply mapM_Some. clear. induction parts as [|p parts IH]; by constructor.
Qed.

Lemma lexes_separated format (sep : string) m ts pss :
  lexes_as format (js sep) [Mark m; Shown 32] → Forall2 (lexes_as format) ts pss →
  lexes_as format (join (js sep) ts) (separated m pss).
Proof.
  intros Hsep H. induction H as [|t ps ts pss Ht Hts IH]; [apply lexes_nil|].
  destruct Hts as [|t' ps' ts pss Ht' Hts]; [exact Ht|].
  change (join (js sep) (t :: t' :: ts)) with (t ++ js sep ++ join (js sep) (t' :: ts)).
  change (separated m (ps :: ps' :: pss)) with (ps ++ [Mark m; Shown 32] ++ separated m (ps' :: pss)).
  by repeat apply lexes_app.
Qed.

Lemma read_value_key key ps : read_value key (literal key ++ [Mark 61] ++ ps) = Some ps.
Proof.
  unfold read_value. cbv zeta. rewrite (assoc_L (++)), take_app_length, drop_app_length. by rewrite bool_decide_eq_true_2.
Qed.

(** ** Reading the lines back *)

Lemma expect_app prefix s : expect prefix (prefix ++ s) = Some s.
Proof.
  unfold expect. assert (starts_with prefix (prefix ++ s) = true) as ->.
  { induction prefix as [|c p IH]; [done|]. cbn [app starts_with]. by rewrite N.eqb_refl, IH. }
  f_equal. apply drop_app_length.
Qed.

Lemma read_number_string n s : no_digit s → read_number (string_of_nat n ++ s) = Some (n, s).
Proof.
  intros Hs. unfold read_number, string_of_nat. rewrite span_digits_app by (done || apply string_of_N_digits).
  rewrite digits_value_string, Nat2N.id.
  destruct (string_of_N (N.of_nat n)) eqn:E; [|done]. pose proof (string_of_N_integer (N.of_nat n)) as H.
  rewrite E in H. by destruct H as (? & ? & ?).
Qed.

Lemma read_label_text label s : label_text label → read_label (label ++ 34%N :: s) = Some (label, s).
Proof.
  intros [H _]%label_no_quote. induction label as [|c label IH]; [done|]. apply not_elem_of_cons in H as [Hc H].
  cbn [app read_label]. rewrite (proj2 (N.eqb_neq c 34)) by done. by rewrite IH.
Qed.

(** Read the parts of a line, one after the other. *)
Ltac read_parts :=
  repeat ((rewrite expect_app || (rewrite read_number_string by done) || (rewrite read_label_text by done));
          cbn [mbind option_bind]).

Lemma mermaid_node_reads i label : label_text label → read_mermaid (mermaid_node i label) = Some (NodeLine i label).
Proof.
  intros Hl. unfold read_mermaid, mermaid_node. read_parts.
  change (jsq "']") with (34%N :: js "]"). read_parts. done.
Qed.

Lemma mermaid_edge_reads i j k label :
  label_text label →
  read_mermaid (mermaid_edge k (js "n" ++ string_of_nat i) (js "n" ++ string_of_nat j) label) = Some (EdgeLine i j k label).
Proof.
  intros Hl. unfold read_mermaid, mermaid_edge.
  change (js "  " ++ (js "n" ++ string_of_nat i) ++ ?s) with (js "  n" ++ string_of_nat i ++ s). read_parts.
  change (expect (jsq "['") (js " e" ++ ?s)) with (@None jsstr). cbv iota beta. read_parts.
  change (jsq "'| " ++ ?s) with (34%N :: js "| " ++ s). read_parts.
  change (js "| " ++ js "n" ++ ?s) with (js "| n" ++ s). read_parts.
  rewrite <- (app_nil_r (string_of_nat j)). read_parts. done.
Qed.

Lemma dot_node_reads i label : label_text label → read_dot (dot_node i label) = Some (NodeLine i label).
Proof.
  intros Hl. unfold read_dot, dot_node. read_parts.
  change (jsq "'];") with (34%N :: js "];"). read_parts. done.
Qed.

Lemma dot_edge_reads i j k label :
  label_text label →
  read_dot (dot_edge k (js "n" ++ string_of_nat i) (js "n" ++ string_of_nat j) label) = Some (EdgeLine i j k label).
Proof.
  intros Hl. unfold read_dot, dot_edge.
  change (js "  " ++ (js "n" ++ string_of_nat i) ++ ?s) with (js "  n" ++ string_of_nat i ++ s). read_parts.
  change (expect (jsq " [label='") (js " -> " ++ ?s)) with (@None jsstr). cbv iota beta.
  change (js " -> " ++ (js "n" ++ string_of_nat j) ++ ?s) with (js " -> n" ++ string_of_nat j ++ s). read_parts.
  change (jsq "'];") with (34%N :: js "];"). read_parts. done.
Qed.

(** The texts of the lines of a format *)
Definition node_text (format : VisualizationFormat) : nat → jsstr → jsstr :=
  match format with mermaid => mermaid_node | dot => dot_node end.
Definition edge_text (format : VisualizationFormat) : nat → jsstr → jsstr → jsstr → jsstr :=
  match format with mermaid => mermaid_edge | dot => dot_edge end.

Lemma node_text_reads format i label :
  label_text label → read_line format (node_text format i label) = Some (NodeLine i label).
Proof. destruct format; [apply mermaid_node_reads|apply dot_node_reads]. Qed.
Lemma edge_text_reads format i j k label :
  label_text label →
  read_line format (edge_text format k (js "n" ++ string_of_nat i) (js "n" ++ string_of_nat j) label) =
  Some (EdgeLine i j k label).
Proof. destruct format; [apply mermaid_edge_reads|apply dot_edge_reads]. Qed.

(** ** The whole diagram *)

(** The position of a node *)
Definition position (ids : list jsstr) (id : jsstr) : nat := default 0 (fst <$> list_find (.= id) ids).

(** What a diagram of a graph says: its nodes in order, then its edges in order, between
    the positions of their ends *)
Definition diagram (format : VisualizationFormat) (g : GraphSpec) : list diagram_line :=
  imap (λ i node, NodeLine i (node_label format g node)) (graph_nodes g) ++
  imap (λ k edge, EdgeLine (position (graph_ids g) (edge_source edge)) (position (graph_ids g) (edge_target edge)) k
    (edge_label format edge)) (graph_edges g).

Lemma lookup_position ids id : id ∈ ids → ids !! position ids id = Some id.
Proof.
  intros H. unfold position. destruct (list_find (.= id) ids) as [[i x]|] eqn:E.
  - apply list_find_Some in E as (Hi & -> & _). done.
  - apply list_find_None in E. rewrite Forall_forall in E. by destruct (E id H).
Qed.

Lemma aliases_get g id :
  NoDup (graph_ids g) → id ∈ graph_ids g →
  map_get id (aliases g) = Some (js "n" ++ string_of_nat (position (graph_ids g) id)).
Proof.
  intros Hnd Hid. unfold aliases. set (ms := imap _ _).
  assert (ms.*1 = graph_ids g) as Hk.
  { unfold ms, graph_ids. rewrite fmap_imap. apply list_eq. intros i. by rewrite list_lookup_imap, list_lookup_fmap. }
  rewrite foldl_map_set by (by rewrite app_nil_l, Hk). rewrite app_nil_l.
  apply map_get_NoDup; [by rewrite Hk|]. pose proof (lookup_position _ _ Hid) as Hp.
  unfold graph_ids in Hp. rewrite list_lookup_fmap in Hp. apply fmap_Some in Hp as (n & Hn & ->).
  apply list_elem_of_lookup. exists (position (graph_ids g) (node_id n)).
  unfold ms, graph_ids. by rewrite list_lookup_imap, Hn.
Qed.

Lemma endpointAlias_Ok g e :
  NoDup (graph_ids g) → endpoint_node e ∈ graph_ids g →
  endpointAlias (aliases g) e = Ok (js "n" ++ string_of_nat (position (graph_ids g) (endpoint_node e))).
Proof. intros. unfold endpointAlias. by rewrite aliases_get. Qed.

Lemma edge_lines_Ok format g line :
  references_ok g →
  edge_lines format g line = Ok (imap (λ k edge,
    line k (js "n" ++ string_of_nat (position (graph_ids g) (edge_source edge)))
      (js "n" ++ string_of_nat (position (graph_ids g) (edge_target edge))) (edge_label format edge)) (graph_edges g)).
Proof.
  intros [Hnd _ Hclosed _ _]. unfold edge_lines, itraverse.
  assert (Forall (λ e, edge_source e ∈ graph_ids g ∧ edge_target e ∈ graph_ids g) (graph_edges g)) as Hall.
  { apply Forall_forall. intros e He. apply (Hclosed (edge_source e) (edge_target e)).
    unfold graph_pairs, edge_pairs. apply list_elem_of_fmap. by exists e. }
  assert (H : ∀ k, itraverse_from k (λ index edge,
      from ← endpointAlias (aliases g) (edge_from edge); to ← endpointAlias (aliases g) (edge_to edge);
      Ok (line index from to (edge_label format edge))) (graph_edges g) =
    Ok (imap (λ i edge,
      line (k + i) (js "n" ++ string_of_nat (position (graph_ids g) (edge_source edge)))
        (js "n" ++ string_of_nat (position (graph_ids g) (edge_target edge))) (edge_label format edge)) (graph_edges g))).
  { induction Hall as [|e es [Hs Ht] _ IH]; intros k; [done|]. cbn [itraverse_from imap].
    rewrite (endpointAlias_Ok g (edge_from e)), (endpointAlias_Ok g (edge_to e)) by done. cbn [mbind result_bind]. rewrite IH. cbn [mbind result_bind].
    do 2 f_equal; [by rewrite Nat.add_0_r|]. apply imap_ext. intros i e' _. cbn. by rewrite Nat.add_succ_r. }
  exact (H 0).
Qed.


Lemma label_string_of_nat n : label_text (string_of_nat n).
Proof. apply digits_label, string_of_N_digits. Qed.

Lemma no_newline_app s t : 10%N ∉ s → 10%N ∉ t → 10%N ∉ s ++ t.
Proof. rewrite elem_of_app. tauto. Qed.
Lemma label_newline s : label_text s → 10%N ∉ s.
Proof. intros H. by apply label_no_quote. Qed.
#[local] Hint Resolve no_newline_app label_newline label_string_of_nat node_label_text edge_label_text : labels.
#[local] Hint Extern 1 (10%N ∉ js _) => (apply (bool_decide_unpack _); vm_compute; exact I) : labels.
#[local] Hint Extern 1 (10%N ∉ jsq _) => (apply (bool_decide_unpack _); vm_compute; exact I) : labels.

Lemma node_text_newline format i label : label_text label → 10%N ∉ node_text format i label.
Proof. intros H. destruct format; unfold node_text, mermaid_node, dot_node; auto 10 with labels. Qed.
Lemma edge_text_newline format k i j label :
  label_text label → 10%N ∉ edge_text format k (js "n" ++ string_of_nat i) (js "n" ++ string_of_nat j) label.
Proof. intros H. destruct format; unfold edge_text, mermaid_edge, dot_edge; auto 20 with labels. Qed.

(** The lines of the body *)
Definition body_lines (format : VisualizationFormat) (g : GraphSpec) : list jsstr :=
  imap (λ i node, node_text format i (node_label format g node)) (graph_nodes g) ++
  imap (λ k edge, edge_text format k (js "n" ++ string_of_nat (position (graph_ids g) (edge_source edge)))
    (js "n" ++ string_of_nat (position (graph_ids g) (edge_target edge))) (edge_label format edge)) (graph_edges g).

Lemma Forall_imap' {A B} (f : nat → A → B) (P : B → Prop) l : (∀ i x, P (f i x)) → Forall P (imap f l).
Proof.
  intros H. apply Forall_lookup. intros i y Hy. rewrite list_lookup_imap in Hy. apply fmap_Some in Hy as (x & _ & ->). apply H.
Qed.

Lemma body_lines_read format g : mapM (read_line format) (body_lines format g) = Some (diagram format g).
Proof.
  apply mapM_Some. unfold body_lines, diagram. apply Forall2_app; apply Forall2_same_length_lookup;
    (split; [by rewrite !length_imap|]); intros i x y Hx Hy; rewrite list_lookup_imap in Hx; rewrite list_lookup_imap in Hy;
    apply fmap_Some in Hx as (z & Hz & ->); rewrite Hz in Hy; injection Hy as <-.
  - apply node_text_reads, node_label_text.
  - apply edge_text_reads, edge_label_text.
Qed.

Lemma body_lines_newline format g : Forall (λ l, 10%N ∉ l) (body_lines format g).
Proof.
  apply Forall_app. split; apply Forall_imap'; intros i x.
  - apply node_text_newline, node_label_text.
  - apply edge_text_newline, edge_label_text.
Qed.

Lemma header_footer_newline format : Forall (λ l, 10%N ∉ l) (header format ++ footer format).
Proof. destruct format; rewrite Forall_app; split; repeat (apply Forall_cons_2; [auto with labels|]); apply Forall_nil_2. Qed.

(** The content is the lines of header, body and footer. *)
Lemma visualizeGraph_lines format g :
  references_ok g →
  visualizeGraph g format = Ok (Build_VisualizationResult format
    (join [10%N] (header format ++ body_lines format g ++ footer format) ++ [10%N])
    (length (graph_nodes g)) (length (graph_edges g))).
Proof.
  intros Hg. unfold visualizeGraph. destruct format; unfold renderMermaid, renderDot;
    rewrite edge_lines_Ok by done; cbn [mbind result_bind]; unfold body_lines.
  - by rewrite app_nil_r.
  - by rewrite <- (assoc_L (++)).
Qed.

Lemma read_diagram_lines format g :
  read_diagram format (join [10%N] (header format ++ body_lines format g ++ footer format) ++ [10%N]) =
  Some (diagram format g).
Proof.
  unfold read_diagram. rewrite split_lines_join.
  - rewrite <- !(assoc_L (++)). rewrite drop_app_length, take_app_length.
    set (body := body_lines format g). set (end_ := footer format ++ [[]]).
    assert (length (body ++ end_) - length (footer format) - 1 = length body) as ->.
    { unfold end_. rewrite !length_app. simpl. lia. }
    rewrite drop_app_length, take_app_length, bool_decide_eq_true_2 by done. apply body_lines_read.
  - pose proof (header_footer_newline format) as [H1 H2]%Forall_app. rewrite !Forall_app.
    split_and!; [done|apply body_lines_newline|done].
  - by destruct format.
Qed.

(** ** What the labels say *)

(** A diagram whose labels are read, too *)
Inductive picture_item :=
  | PictureNode (index : nat) (node : drawn_node)
  | PictureEdge (from to index : nat) (edge : drawn_edge).
Definition read_item (format : VisualizationFormat) (line : diagram_line) : option picture_item :=
  match line with
  | NodeLine i label => ps ← label_pieces format label; PictureNode i <$> read_node ps
  | EdgeLine i j k label => ps ← label_pieces format label; PictureEdge i j k <$> read_edge ps
  end.
Definition read_picture (format : VisualizationFormat) (content : jsstr) : option (list picture_item) :=
  lines ← read_diagram format content; mapM (read_item format) lines.

(** What is to be drawn of a graph *)
Definition shown_output (output : jsstr * Endpoint) : jsstr :=
  output.1 ++ match endpoint_port output.2 with Some port => js " at " ++ port | None => [] end.
Definition node_drawing (g : GraphSpec) (node : NodeSpec) : drawn_node :=
  DrawnNode (node_id node) (node_kind node) (bool_decide (node_id node ∈ graph_entrypoints g))
    (shown_output <$> filter (λ output, endpoint_node output.2 = node_id node) (graph_outputs g)).
Definition edge_drawing (edge : EdgeSpec) : drawn_edge :=
  DrawnEdge (edge_id edge) (default (js "default") (endpoint_port (edge_from edge)))
    (default (js "default") (endpoint_port (edge_to edge))) (edge_mode edge).
Definition picture (g : GraphSpec) : list picture_item :=
  imap (λ i node, PictureNode i (node_drawing g node)) (graph_nodes g) ++
  imap (λ k edge, PictureEdge (position (graph_ids g) (edge_source edge)) (position (graph_ids g) (edge_target edge)) k
    (edge_drawing edge)) (graph_edges g).

(** The map of the outputs has the outputs of each node, in order. *)
Lemma outputsByNode_get g id :
  default [] (map_get id (outputsByNode g)) =
  (λ p : jsstr * Endpoint, Build_NamedOutput p.1 p.2) <$> filter (λ p, endpoint_node p.2 = id) (graph_outputs g).
Proof.
  unfold outputsByNode. set (f := λ result (p : jsstr * Endpoint), _).
  assert (∀ m, default [] (map_get id (foldl f m (graph_outputs g))) = default [] (map_get id m) ++
    ((λ p : jsstr * Endpoint, Build_NamedOutput p.1 p.2) <$> filter (λ p, endpoint_node p.2 = id) (graph_outputs g))) as ->; [|done].
  induction (graph_outputs g) as [|p outputs IH]; intros m; [by rewrite app_nil_r|]. cbn [foldl]. rewrite IH, filter_cons.
  assert (default [] (map_get id (f m p)) = default [] (map_get id m) ++
    (if decide (endpoint_node p.2 = id) then [Build_NamedOutput p.1 p.2] else [])) as ->.
  { unfold f. destruct (decide (endpoint_node p.2 = id)) as [<-|Hne].
    - destruct (map_get (endpoint_node p.2) m); by rewrite map_get_set, decide_True.
    - rewrite app_nil_r. destruct (map_get (endpoint_node p.2) m); by rewrite map_get_set, decide_False by done. }
  rewrite <- (assoc_L (++)). by case_decide.
Qed.

(** *** The parts of a label *)

Definition shown (value : jsstr) : list piece := Shown <$> code_points value.
Definition part (key : string) (ps : list piece) : list piece := literal key ++ [Mark 61] ++ ps.
Definition output_pieces (output : jsstr * Endpoint) : list piece :=
  shown output.1 ++ match endpoint_port output.2 with Some port => literal " at " ++ shown port | None => [] end.
Definition node_parts (node : drawn_node) (kind : jsstr) (outputs : list (jsstr * Endpoint)) : list (list piece) :=
  [part "id" (shown (drawn_id node)); part "kind" (shown kind)] ++
  (if drawn_entrypoint node then [literal "entrypoint"] else []) ++
  match outputs with [] => [] | _ => [part "outputs" (separated 44 (output_pieces <$> outputs))] end.
Definition edge_parts (edge : drawn_edge) (mode : jsstr) : list (list piece) :=
  [part "id" (shown (drawn_edge_id edge)); part "fromPort" (shown (drawn_fromPort edge));
   part "toPort" (shown (drawn_toPort edge)); part "mode" (shown mode)].

Lemma lexes_part format (key text : string) t ps :
  js text = js key ++ js "=" → forallb (λ c, negb ((c =? 35) || (c =? 38))%N) (js key) = true →
  lexes_as format t ps → lexes_as format (js text ++ t) (part key ps).
Proof.
  intros -> Hkey Ht. unfold part. rewrite <- (assoc_L (++)). apply lexes_app; [by apply lexes_literal|].
  apply lexes_app; [exact (lexes_literal format "=" eq_refl)|done].
Qed.
Lemma lexes_output format output :
  lexes_as format (namedOutputLabel (escape_text format) (Build_NamedOutput output.1 output.2)) (output_pieces output).
Proof.
  unfold namedOutputLabel, output_pieces. cbn [output_name output_endpoint].
  destruct (endpoint_port output.2) as [port|]; [|rewrite app_nil_r; apply lexes_escape].
  apply lexes_app; [apply lexes_escape|]. apply lexes_app; [by apply lexes_literal|apply lexes_escape].
Qed.

Lemma lexes_node format g node :
  let outputs := filter (λ output, endpoint_node output.2 = node_id node) (graph_outputs g) in
  lexes_as format (node_label format g node)
    (separated 59 (node_parts (node_drawing g node) (node_kind_text (node_kind node)) outputs)).
Proof.
  intros outputs. unfold node_label, nodeLabel. rewrite outputsByNode_get. fold outputs.
  apply lexes_separated; [exact (lexes_literal format "; " eq_refl)|]. unfold node_parts, node_drawing.
  cbn [drawn_id drawn_entrypoint]. apply Forall2_app; [|apply Forall2_app].
  - constructor; [by apply lexes_part, lexes_escape|]. constructor; [by apply lexes_part, lexes_escape|constructor].
  - case_bool_decide; [|constructor]. constructor; [by apply lexes_literal|constructor].
  - rewrite length_fmap. destruct outputs as [|output outputs]; [constructor|]. constructor; [|constructor].
    apply lexes_part; [done..|]. apply lexes_separated; [exact (lexes_literal format ", " eq_refl)|].
    rewrite <- list_fmap_compose. apply Forall2_fmap, Forall_Forall2_diag, Forall_true. intros x. apply lexes_output.
Qed.
Lemma lexes_shown format value :
  lexes_as format (match value with None => js "default" | Some text => escape_text format text end)
    (shown (default (js "default") value)).
Proof. destruct value as [text|]; [apply lexes_escape|]. exact (lexes_literal format "default" eq_refl). Qed.

Definition mode_text (mode : option EdgeMode) : jsstr := default (js "default") (edge_mode_text <$> mode).
Lemma lexes_edge format edge :
  lexes_as format (edge_label format edge) (separated 59 (edge_parts (edge_drawing edge) (mode_text (edge_mode edge)))).
Proof.
  unfold edge_label, edgeLabel. apply lexes_separated; [exact (lexes_literal format "; " eq_refl)|].
  constructor; [by apply lexes_part, lexes_escape|]. unfold edge_drawing. cbn [drawn_fromPort drawn_toPort].
  repeat (constructor; [by apply lexes_part, lexes_shown|]). constructor.
Qed.

(** *** Reading the parts *)

Lemma shown_no_mark m value : Mark m ∉ shown value.
Proof. unfold shown. by intros (c & [=] & _)%list_elem_of_fmap. Qed.
Lemma no_mark_app m ps qs : Mark m ∉ ps → Mark m ∉ qs → Mark m ∉ ps ++ qs.
Proof. rewrite elem_of_app. tauto. Qed.
#[local] Hint Resolve shown_no_mark no_mark_app : labels.
#[local] Hint Extern 1 (Mark _ ∉ literal _) => (apply (bool_decide_unpack _); vm_compute; exact I) : labels.
#[local] Hint Extern 1 (Mark _ ∉ [Mark _]) => (apply (bool_decide_unpack _); vm_compute; exact I) : labels.
#[local] Hint Extern 1 (Mark _ ∉ [Mark _; Shown _]) => (apply (bool_decide_unpack _); vm_compute; exact I) : labels.

Lemma output_no_mark m output : Mark m ∉ output_pieces output.
Proof.
  unfold output_pieces. destruct (endpoint_port output.2) as [port|]; [|rewrite app_nil_r; apply shown_no_mark].
  change (literal " at ") with (shown (js " at ")). auto with labels.
Qed.
Lemma separated_no_mark m n parts : m ≠ n → Forall (Mark m ∉.) parts → Mark m ∉ separated n parts.
Proof.
  intros Hmn H. induction H as [|part parts Hp Hps IH]; [by apply not_elem_of_nil|]. destruct parts as [|part' parts]; [done|].
  change (separated n (part :: part' :: parts)) with (part ++ [Mark n; Shown 32] ++ separated n (part' :: parts)).
  apply no_mark_app; [done|]. apply no_mark_app; [|done]. rewrite !not_elem_of_cons. split_and!; [congruence|done|apply not_elem_of_nil].
Qed.

Lemma read_text_part key value : str_wf value → read_text key (part key (shown value)) = Some value.
Proof. intros Hv. unfold read_text, part. rewrite read_value_key. by apply shown_shown. Qed.

Definition output_wf (output : jsstr * Endpoint) : Prop := str_wf output.1 ∧ endpoint_wf output.2.
Lemma read_output output : output_wf output → shown_text (output_pieces output) = Some (shown_output output).
Proof.
  intros [Hn [_ Hp]]. unfold output_pieces, shown_output. destruct (endpoint_port output.2) as [port|].
  - change (literal " at ") with (shown (js " at ")). unfold shown, shown_text. rewrite <- !fmap_app, mapM_shown.
    cbn [fmap option_fmap option_map]. rewrite !bind_app, !encode_code_points by (done || apply js_wf). done.
  - rewrite !app_nil_r. by apply shown_shown.
Qed.
Lemma read_outputs_part outputs :
  Forall output_wf outputs →
  read_outputs match outputs with [] => [] | _ => [part "outputs" (separated 44 (output_pieces <$> outputs))] end =
  Some (shown_output <$> outputs).
Proof.
  intros H. destruct outputs as [|output outputs]; [done|]. unfold read_outputs, part. rewrite read_value_key.
  cbn [mbind option_bind]. change (output_pieces <$> output :: outputs) with (output_pieces output :: (output_pieces <$> outputs)).
  rewrite read_list_separated.
  - cbn [mbind option_bind]. apply mapM_Some. change (shown_output <$> output :: outputs) with (shown_output output :: (shown_output <$> outputs)).
    apply Forall_cons in H as [Ho H]. constructor; [by apply read_output|].
    apply Forall2_fmap, Forall_Forall2_diag. eapply Forall_impl; [exact H|]. apply read_output.
  - change (output_pieces output :: (output_pieces <$> outputs)) with (output_pieces <$> output :: outputs).
    apply Forall_fmap, Forall_true. intros x. apply output_no_mark.
Qed.

Lemma read_node_parts node kind outputs :
  str_wf (drawn_id node) → str_wf kind → map_get kind NODE_KIND_TABLE = Some (drawn_kind node) →
  Forall output_wf outputs → drawn_outputs node = shown_output <$> outputs →
  read_node (separated 59 (node_parts node kind outputs)) = Some node.
Proof.
  intros Hid Hkind Hget Houts Hshown. unfold read_node, node_parts. cbn [app]. rewrite read_list_separated.
  - cbn [mbind option_bind]. rewrite !read_text_part by done. cbn [mbind option_bind]. rewrite Hget. cbn [mbind option_bind].
    destruct node as [id k entrypoint names]. cbn [drawn_id drawn_kind drawn_entrypoint drawn_outputs] in *.
    set (rest := match outputs with [] => [] | _ => _ end).
    assert (read_entrypoint ((if entrypoint then [literal "entrypoint"] else []) ++ rest) = (entrypoint, rest)) as ->.
    { destruct entrypoint; [done|]. unfold rest. destruct outputs as [|output outputs]; [done|]. cbn [app read_entrypoint].
      rewrite bool_decide_eq_false_2; [done|]. intros E. apply (f_equal head) in E. vm_compute in E. discriminate E. }
    unfold rest. rewrite read_outputs_part by done. cbn [mbind option_bind]. by rewrite Hshown.
  - unfold part. repeat (apply Forall_cons_2; [auto with labels|]). apply Forall_app. split.
    + destruct (drawn_entrypoint node); [|constructor]. repeat constructor. auto with labels.
    + destruct outputs as [|output outputs]; [constructor|]. apply Forall_singleton.
      apply no_mark_app; [auto with labels|]. apply no_mark_app; [auto with labels|].
      apply separated_no_mark; [done|]. apply Forall_fmap, Forall_true. intros x. apply output_no_mark.
Qed.

Lemma read_edge_parts edge mode :
  str_wf (drawn_edge_id edge) → str_wf (drawn_fromPort edge) → str_wf (drawn_toPort edge) → str_wf mode →
  read_mode mode = Some (drawn_mode edge) → read_edge (separated 59 (edge_parts edge mode)) = Some edge.
Proof.
  intros Hid Hf Ht Hm Hmode. unfold read_edge, edge_parts. rewrite read_list_separated.
  - cbn [mbind option_bind]. rewrite !read_text_part by done. cbn [mbind option_bind]. rewrite Hmode. by destruct edge.
  - unfold part. repeat (apply Forall_cons_2; [auto with labels|]). apply Forall_nil_2.
Qed.

Lemma node_kind_reads kind : map_get (node_kind_text kind) NODE_KIND_TABLE = Some kind.
Proof. by destruct kind. Qed.
Lemma mode_reads mode : read_mode (mode_text mode) = Some mode.
Proof. by destruct mode as [[]|]. Qed.

(** *** The picture *)

Lemma read_node_item format g node :
  graph_wf g → node ∈ graph_nodes g → label_pieces format (node_label format g node) ≫= read_node = Some (node_drawing g node).
Proof.
  intros Hg Hnode. rewrite (lexes_label _ _ _ (lexes_node format g node)). cbn [mbind option_bind]. apply read_node_parts.
  - exact (proj1 (Forall_forall _ _) (wf_nodes g Hg) node Hnode).
  - by destruct (node_kind node); apply js_wf.
  - apply node_kind_reads.
  - apply Forall_forall. intros x [_ Hx]%list_elem_of_filter. exact (proj1 (Forall_forall _ _) (wf_outputs g Hg) x Hx).
  - done.
Qed.
Lemma read_edge_item format g edge :
  graph_wf g → edge ∈ graph_edges g → label_pieces format (edge_label format edge) ≫= read_edge = Some (edge_drawing edge).
Proof.
  intros Hg Hedge. pose proof (proj1 (Forall_forall _ _) (wf_edges g Hg) edge Hedge) as (Hid & [_ Hf] & [_ Ht]).
  rewrite (lexes_label _ _ _ (lexes_edge format edge)). cbn [mbind option_bind]. apply read_edge_parts.
  - exact Hid.
  - unfold edge_drawing. cbn [drawn_fromPort]. destruct (endpoint_port (edge_from edge)); [done|apply js_wf].
  - unfold edge_drawing. cbn [drawn_toPort]. destruct (endpoint_port (edge_to edge)); [done|apply js_wf].
  - unfold mode_text. destruct (edge_mode edge) as [[]|]; apply js_wf.
  - apply mode_reads.
Qed.

Lemma picture_reads format g : graph_wf g → mapM (read_item format) (diagram format g) = Some (picture g).
Proof.
  intros Hg. apply mapM_Some. unfold diagram, picture. apply Forall2_app; apply Forall2_same_length_lookup;
    (split; [by rewrite !length_imap|]); intros i x y Hx Hy; rewrite list_lookup_imap in Hx; rewrite list_lookup_imap in Hy;
    apply fmap_Some in Hx as (z & Hz & ->); rewrite Hz in Hy; injection Hy as <-; apply list_elem_of_lookup_2 in Hz.
  - pose proof (read_node_item format g z Hg Hz) as H. cbn [read_item].
    apply bind_Some in H as (ps & -> & H). cbn [mbind option_bind]. by rewrite H.
  - pose proof (read_edge_item format g z Hg Hz) as H. cbn [read_item].
    apply bind_Some in H as (ps & -> & H). cbn [mbind option_bind]. by rewrite H.
Qed.

(** C25. A valid document can be drawn in both formats, and the drawing reads back as
    its picture: [read_picture] knows the syntax of the two languages and of the labels,
    [picture] only the graph.  In order, each node with its identifier, kind, whether it
    is an entrypoint and its outputs, then each edge with its identifier, ports and mode,
    between the positions of the nodes it names - whatever characters the texts of the
    document contain.  (A port that is called default is drawn as no port is, and an
    output is one text, its name and its port.) *)
Theorem visualizeGraph_reads_back hash j format :
  parsed_ok j → v_valid (validateGraphDocument hash j) = true →
  ∃ g r, graph_of_json j = Some g ∧ v_graph (validateGraphDocument hash j) = Some g ∧ visualizeGraph g format = Ok r ∧
    vis_format r = format ∧ vis_nodeCount r = length (graph_nodes g) ∧ vis_edgeCount r = length (graph_edges g) ∧
    read_picture format (vis_content r) = Some (picture g) ∧
    ∀ edge, edge ∈ graph_edges g →
      graph_ids g !! position (graph_ids g) (edge_source edge) = Some (edge_source edge) ∧
      graph_ids g !! position (graph_ids g) (edge_target edge) = Some (edge_target edge).
Proof.
  intros Hj Hv. destruct (validateGraphDocument_valid hash j Hj Hv) as (g & (Hok & _ & Hread & _) & [Href _] & Hg & _).
  exists g. eexists. split; [done|]. split; [done|]. split; [by apply visualizeGraph_lines|].
  split_and!; [done..| |].
  - unfold read_picture. cbn [vis_content]. rewrite read_diagram_lines. cbn [mbind option_bind].
    apply picture_reads. exact (decodes_graph j g Hok Hread).
  - intros e He. destruct Href as [_ _ Hc _ _]. destruct (Hc (edge_source e) (edge_target e)) as [Hs Ht].
    { unfold graph_pairs, edge_pairs. apply list_elem_of_fmap. by exists e. }
    split; by apply lookup_position.
Qed.

Lemma visualizeGraph_reads_back_witness :
  let j := diamond_document in
  parsed_ok j ∧ v_valid (validateGraphDocument zero_hash j) = true ∧
  ∃ g r, v_graph (validateGraphDocument zero_hash j) = Some g ∧ visualizeGraph g dot = Ok r ∧ vis_edgeCount r = 4.
Proof.
  assert (parsed_ok diamond_document) as Hj by (apply (bool_decide_unpack _); vm_compute; exact I).
  assert (v_valid (validateGraphDocument zero_hash diamond_document) = true) as Hv by (vm_compute; reflexivity).
  split; [exact Hj|]. split; [exact Hv|].
  destruct (visualizeGraph_reads_back zero_hash diamond_document dot Hj Hv) as (g & r & _ & Hg & Hr & _ & _ & Hc & _).
  exists g, r. split; [exact Hg|]. split; [exact Hr|]. rewrite Hc.
  assert (Some g = v_graph (validateGraphDocument zero_hash diamond_document)) as E by (symmetry; exact Hg).
  vm_compute in E. injection E as ->. reflexivity.
Defined.

(** An escaped text holds only letters, digits, spaces, [._-] and entities, and
    reading the entities gives the text back. *)
Theorem escape_text_round_trip format value :
  str_wf value →
  unescape_text format (escape_text format value) = Some value ∧ label_text (escape_text format value).
Proof.
  intros Hv. split; [|apply escape_label]. unfold unescape_text.
  rewrite (lexes_label _ _ _ (lexes_escape format value)). by apply shown_shown.
Qed.

Lemma escape_text_round_trip_witness :
  let value := jsq "n0 --> evil; <script>'" in
  str_wf value ∧ unescape_text mermaid (escape_text mermaid value) = Some value.
Proof.
  assert (str_wf (jsq "n0 --> evil; <script>'")) as H by (apply (bool_decide_unpack _); vm_compute; exact I).
  split; [exact H|]. exact (proj1 (escape_text_round_trip mermaid _ H)).
Defined.
