(* ===== verification/CliOutput.v ===== *)
(** * What the command line prints

    In machine mode a command prints one line on standard output, which reads back as
    its envelope; in human mode nothing it prints can move a terminal.  Both are proved
    for every environment that answers with strings of code units and with bytes. *)
From S2P Require Import Prelude JsString JsNumber JsValue JsonText Canonical CanonicalSpec NumberText JsonRoundTrip ParsedJson.
From S2P Require Import ParsedJson Stringify JsonValues Utf8 GraphIR Compiler CompilerSpec GraphReading.
From S2P Require Import CliValidation Visualize VisualizeSpec Process Messages Cli.
From S2P Require Doctor Init.
#[local] Arguments js : simpl never.
#[local] Open Scope async_scope.

(** ** The environment answers with texts *)

Definition answer_text {A} (r : answer A) (P : A → Prop) : Prop :=
  match r with Ok a => P a | Err e => str_wf (error_message e) end.
Definition bytes_ok (bytes : list N) : Prop := Forall (λ b, b < 256)%N bytes.
(** A compiler throws and returns texts. *)
Definition compiler_text (f : compile_function) : Prop :=
  ∀ j, match f j with Err message => str_wf message | Ok _ => True end.
Definition text_answer (X : Type) (c : call X) : X → Prop :=
  match c in call X return X → Prop with
  | Print _ _ => λ _, True
  | ReadFile _ => λ r, answer_text r bytes_ok
  | ReadStdin => λ r, answer_text r (Forall bytes_ok)
  | ReadAsset _ => λ r, answer_text r bytes_ok
  | NodeVersion => str_wf
  | ImportCore => λ r, answer_text r (λ m, match m with Exports (Some f) => compiler_text f | _ => True end)
  | ImportRuntime => λ r, answer_text r (λ _, True)
  | WorkingDirectory => Forall str_wf
  | Lstat _ => λ r, answer_text r (λ _, True)
  | Stat _ => λ r, answer_text r (λ _, True)
  | Readdir _ => λ r, answer_text r (λ _, True)
  | Mkdir _ => λ r, answer_text r (λ _, True)
  | Rmdir _ => λ r, answer_text r (λ _, True)
  | Unlink _ => λ r, answer_text r (λ _, True)
  | OpenExclusive _ => λ r, answer_text r (λ _, True)
  | HandleStat _ => λ r, answer_text r (λ _, True)
  | HandleWrite _ _ => λ r, answer_text r (λ _, True)
  | HandleSync _ => λ r, answer_text r (λ _, True)
  | HandleClose _ => λ r, answer_text r (λ _, True)
  end.

(** ** Texts of the doctor *)

Lemma removed_wf (s t : jsstr) : (∀ c, c ∈ t → c ∈ s) → str_wf s → str_wf t.
Proof. intros H Hs. apply Forall_forall. intros c Hc. by apply (proj1 (Forall_forall _ _) Hs), H. Qed.

Lemma trim_start_wf s : str_wf s → str_wf (Doctor.trim_start s).
Proof.
  intros Hs. induction Hs as [|c s Hc Hs IH]; [constructor|]. cbn [Doctor.trim_start].
  destruct (Doctor.is_white c); [done|by constructor].
Qed.
Lemma rev_wf (s : jsstr) : str_wf s → str_wf (rev s).
Proof. apply removed_wf. intros c. by rewrite list_elem_of_In, <- in_rev, <- list_elem_of_In. Qed.
Lemma collapse_wf b s : str_wf s → str_wf (Doctor.collapse b s).
Proof.
  intros Hs. revert b. induction Hs as [|c s Hc Hs IH]; intros b; [constructor|]. cbn [Doctor.collapse].
  repeat case_match; first [apply IH|constructor; [done || lia|apply IH]].
Qed.
Lemma doctor_message_wf s : str_wf s → str_wf (Doctor.errorMessage s).
Proof.
  intros Hs. unfold Doctor.errorMessage. case_match; [apply js_wf|].
  unfold Doctor.trim. by apply rev_wf, trim_start_wf, rev_wf, trim_start_wf, collapse_wf.
Qed.
#[export] Hint Resolve doctor_message_wf : wf.

Definition check_wf (item : Doctor.DoctorCheck) : Prop :=
  str_wf (Doctor.check_summary item) ∧ str_wf (Doctor.check_detail item).
Definition report_wf (report : Doctor.DoctorReport) : Prop :=
  Forall check_wf (Doctor.checks report) ∧ Forall str_wf (Doctor.report_remediations report).

(** An attempt that failed, failed with a text. *)
Definition attempt_wf {A} (P : A → Prop) (r : result jsstr A) : Prop :=
  match r with Ok a => P a | Err message => str_wf message end.

Lemma check_good id summary ok detail : str_wf summary → str_wf detail → check_wf (Doctor.check id summary ok detail).
Proof. done. Qed.
#[local] Hint Resolve check_good : wf.
#[local] Hint Extern 1 (str_wf Doctor.DIAMOND_HASH) => apply js_wf : wf.

Lemma doctor_report_wf version schema fixture core runtime :
  str_wf version → attempt_wf (λ _, True) schema → attempt_wf (λ _, True) fixture →
  attempt_wf (λ m, match m with Exports (Some f) => compiler_text f | _ => True end) core →
  attempt_wf (λ _, True) runtime →
  report_wf (Doctor.doctor_report version schema fixture core runtime).
Proof.
  intros Hv Hs Hf Hc Hr. split.
  - cbn [Doctor.checks Doctor.doctor_report]. repeat apply Forall_cons_2; [..|constructor].
    + unfold Doctor.nodeVersionCheck. case_match; auto 12 with wf.
    + unfold Doctor.schemaCheck. destruct schema; [case_match|]; auto 12 with wf.
    + unfold Doctor.fixtureCheck. destruct fixture as [value|]; [|auto 12 with wf]. case_match; [|auto 12 with wf].
      destruct core as [[|[f|]]|]; cbn [Doctor.coreCompiler]; [auto 12 with wf| |auto 12 with wf..].
      specialize (Hc value). destruct (f value) as [[]|]; [case_match|]; auto 12 with wf.
    + unfold Doctor.coreCheck. destruct core; [case_match|]; auto 12 with wf.
    + unfold Doctor.runtimeCheck. destruct runtime; [case_match|]; auto 12 with wf.
  - cbn [Doctor.report_remediations Doctor.doctor_report]. unfold Doctor.remediations. apply Forall_take.
    repeat apply Forall_app_2; case_match; auto with wf.
Qed.

Abbreviation silently := (silent text_answer).
Abbreviation async_silently := (settles text_answer).

(** A call that prints nothing, with what is known of its answer *)
Lemma silently_ask {X} (c : call X) : printed c = [] → silently (text_answer X c) (ask c).
Proof. apply silent_ask. Qed.

(** Step through a silent program: a call, then the rest. *)
Ltac ask_call x Hx := first [eapply settles_bind|eapply silent_bind]; [by apply silently_ask|]; intros x Hx; cbn [text_answer] in Hx.

Lemma attempt_json_wf syntax_message (answer : answer (list N)) :
  (∀ s, str_wf s → str_wf (syntax_message s)) → answer_text answer bytes_ok →
  attempt_wf (λ _, True) (Doctor.attempt_json syntax_message answer).
Proof.
  intros Hs Ha. unfold Doctor.attempt_json. destruct answer as [bytes|e]; cbn [answer_text] in Ha.
  - case_match; [done|]. by apply doctor_message_wf, Hs, utf8_text_wf.
  - by apply doctor_message_wf.
Qed.
Lemma attempt_import_wf {F} (P : namespace F → Prop) (answer : answer (namespace F)) :
  answer_text answer P → attempt_wf P (Doctor.attempt_import answer).
Proof. destruct answer; [done|]. apply doctor_message_wf. Qed.

Lemma runDoctor_silent syntax_message :
  (∀ s, str_wf s → str_wf (syntax_message s)) → silently report_wf (Doctor.runDoctor syntax_message).
Proof.
  intros Hs. unfold Doctor.runDoctor.
  ask_call schema Hschema. ask_call fixture Hfixture. ask_call core Hcore. ask_call runtime Hruntime. ask_call version Hversion.
  apply silent_ret, doctor_report_wf; [done|by apply attempt_json_wf..|by apply attempt_import_wf|by apply attempt_import_wf].
Qed.

(** ** Texts of the initialization *)

Lemma path_text_wf (p : path) : Forall str_wf p → str_wf (path_text p).
Proof. intros. unfold path_text. auto with wf. Qed.
Lemma removelast_wf {A} (P : A → Prop) l : Forall P l → Forall P (removelast l).
Proof.
  induction 1 as [|x l Hx Hl IH]; [constructor|]. cbn [removelast]. destruct l; [constructor|by constructor].
Qed.
Lemma split_slash_wf s : str_wf s → Forall str_wf (split_slash s).
Proof.
  induction 1 as [|c s Hc _ IH]; [by repeat constructor|]. cbn [split_slash].
  destruct (c =? 47)%N; [by constructor; [constructor|]|]. destruct (split_slash s); [by repeat constructor|].
  apply Forall_cons in IH as [Hs Hr]. constructor; [by constructor|done].
Qed.
Lemma enter_wf p segment : Forall str_wf p → str_wf segment → Forall str_wf (enter p segment).
Proof. intros. unfold enter. repeat case_match; auto using removelast_wf with wf. Qed.
Lemma resolve_in_wf cwd directory : Forall str_wf cwd → str_wf directory → Forall str_wf (resolve_in cwd directory).
Proof.
  intros Hc Hd%split_slash_wf. unfold resolve_in. revert cwd Hc.
  induction Hd as [|s l Hs _ IH]; intros cwd Hc; [done|]. cbn [foldl]. by apply IH, enter_wf.
Qed.
#[local] Hint Resolve path_text_wf : wf.

Definition thrown_wf (e : Init.thrown) : Prop :=
  match e with
  | Init.InitError code message => str_wf code ∧ str_wf message
  | Init.OtherError e => str_wf (error_message e)
  end.
Lemma init_error_wf code message : str_wf code → str_wf message → thrown_wf (Init.InitError code message).
Proof. done. Qed.
Lemma plain_error_wf message : str_wf message → thrown_wf (Init.plain_error message).
Proof. done. Qed.
Lemma thrown_message_wf e : thrown_wf e → str_wf (Init.errorMessage e).
Proof. destruct e; [by intros []|done]. Qed.
Lemma other_error_wf e : str_wf (error_message e) → thrown_wf (Init.OtherError e).
Proof. done. Qed.
#[local] Hint Resolve init_error_wf plain_error_wf thrown_message_wf other_error_wf settles_throws settles_returns : wf.
#[local] Hint Extern 1 (str_wf Init.OUTPUT_FILE) => apply js_wf : wf.
#[local] Hint Extern 1 (str_wf Init.TEMPLATE_NAME) => apply js_wf : wf.
#[local] Hint Extern 1 (str_wf MACHINE_SCHEMA_VERSION) => apply js_wf : wf.

Lemma sys_settles {A} (c : call (answer A)) (P : A → Prop) :
  printed c = [] → (∀ r, text_answer _ c r → answer_text r P) → async_silently P thrown_wf (Init.sys c).
Proof.
  intros Hc Hp. unfold Init.sys. eapply settles_bind; [by apply silently_ask|]. intros r Hr. apply Hp in Hr.
  destruct r; [by apply settles_returns|by apply settles_throws].
Qed.
(** Calls of which only the error matters *)
Ltac sys_call := apply sys_settles; [done|by intros ? ?].
Abbreviation anything := (λ _, True) (only parsing).

Section init.
Context (hash : jsstr → jsstr) (syntax_message : jsstr → jsstr).
Hypothesis hash_wf : ∀ s, str_wf (hash s).
Hypothesis syntax_wf : ∀ s, str_wf s → str_wf (syntax_message s).

Lemma resolve_settles directory : str_wf directory → async_silently (Forall str_wf) thrown_wf (Init.resolve directory).
Proof.
  intros Hd. unfold Init.resolve. case_match; [apply settles_returns, resolve_in_wf; [constructor|done]|].
  eapply settles_bind; [by apply silently_ask|]. intros cwd Hc. by apply settles_returns, resolve_in_wf.
Qed.

Lemma compile_json_hash value h : graphHash (compile_json hash value) = Some h → ∃ s, h = hash s.
Proof.
  unfold compile_json, compileGraph. destruct (value_of_json value). repeat case_match; try done.
  rewrite (proj1 (compile_graph_texts _ _ _)). intros [= <-]. by eexists.
Qed.

Definition template_wf (t : Init.Template) : Prop := ∃ s, Init.template_graphHash t = hash s.
Lemma loadTemplate_settles : async_silently template_wf thrown_wf (Init.loadTemplate hash syntax_message).
Proof.
  unfold Init.loadTemplate. eapply settles_await; [by apply sys_settles|]. cbv beta. intros bytes Hb.
  pose proof (utf8_text_wf _ Hb) as Hs. destruct (json_parse (utf8_text bytes)) as [document|] eqn:Hj; [|auto 12 with wf].
  apply json_parse_ok in Hj; [|done]. pose proof (compile_json_wf hash document hash_wf Hj) as [Hhash _ _ Hd].
  cbv zeta. pose proof (compile_json_hash document) as Hh.
  assert (str_wf (join (js ", ") ((λ item, code_text (code item)) <$> diagnostics (compile_json hash document)))).
  { apply join_wf; [apply js_wf|]. apply Forall_fmap, Forall_true. intros item. apply code_text_wf. }
  repeat case_match; try (auto 12 with wf). apply settles_returns. destruct (Hh _ eq_refl) as [s ->]. by exists s.
Qed.

(** The functions on a target whose path is a text *)
Section target.
Context (target : path).
Hypothesis target_wf : Forall str_wf target.

Lemma refusals_wf :
  thrown_wf (Init.parent_not_directory target) ∧ thrown_wf (Init.refuse_symlink target) ∧
  thrown_wf (Init.refuse_non_directory target).
Proof. split_and!; apply init_error_wf; auto 12 with wf. Qed.

Lemma inspect_ancestor_settles candidate refuse_link :
  when_present thrown_wf refuse_link →
  async_silently anything thrown_wf (Init.inspect_ancestor target candidate refuse_link).
Proof.
  intros Hr. destruct refusals_wf as (Hp & _ & _). unfold Init.inspect_ancestor.
  eapply settles_await; [sys_call|]. intros found _.
  case_match; [destruct refuse_link; [by apply settles_throws|]|]; [|case_match; auto with wf].
  eapply settles_await; [sys_call|]. intros followed _. case_match; auto with wf.
Qed.

Lemma assert_ancestor_settles up : async_silently anything thrown_wf (Init.assert_ancestor target up).
Proof.
  induction up as [|s up IH]; cbn [Init.assert_ancestor];
    (eapply settles_catch; [by apply inspect_ancestor_settles|]; intros [code message|e] He;
       [by apply settles_throws|cbn [thrown_wf] in He; case_match; auto 15 with wf]).
Qed.

Lemma read_entries_settles : async_silently anything thrown_wf (Init.read_entries target).
Proof.
  unfold Init.read_entries. apply (settles_catch _ anything thrown_wf); [|intros e He; auto 15 with wf].
  eapply settles_await; [sys_call|]. intros entries _. eapply settles_await; [sys_call|]. intros after _. by apply settles_returns.
Qed.

Lemma stable_and_empty_settles before changed :
  str_wf changed → async_silently anything thrown_wf (Init.stable_and_empty target before changed).
Proof.
  intros Hc. destruct refusals_wf as (_ & Hl & Hd). unfold Init.stable_and_empty. case_match; [by apply settles_throws|].
  case_match; [by apply settles_throws|]. eapply settles_await; [apply read_entries_settles|].
  intros [entries after] _. cbv zeta. repeat case_match; auto 12 with wf.
Qed.

Lemma inspectTarget_settles : async_silently anything thrown_wf (Init.inspectTarget target).
Proof.
  unfold Init.inspectTarget. ask_call before Hb. destruct before as [before|e]; cbn [answer_text] in Hb.
  - eapply settles_await; [apply stable_and_empty_settles, js_wf|]. intros ? _. by apply settles_returns.
  - case_match; [|auto 12 with wf]. eapply settles_await; [apply assert_ancestor_settles|]. intros ? _. by apply settles_returns.
Qed.

Lemma require_settles : async_silently anything thrown_wf (Init.requireEmptyStableDirectory target).
Proof.
  unfold Init.requireEmptyStableDirectory. ask_call before Hb. destruct before; [|auto 12 with wf].
  apply stable_and_empty_settles, js_wf.
Qed.

Lemma remove_directories_silent created : silently anything (Init.remove_directories created).
Proof.
  induction created as [|owned created IH]; cbn [Init.remove_directories]; [by apply silent_ret|].
  ask_call current Hc. destruct current; [case_match|]; [done| |done]. by ask_call removed Hr.
Qed.
Lemma cleanup_and_throw_settles {A} (P : A → Prop) created e :
  thrown_wf e → async_silently P thrown_wf (Init.cleanup_and_throw created e).
Proof. intros He. eapply settles_bind; [apply remove_directories_silent|]. intros _ _. by apply settles_throws. Qed.

Lemma cleanupOwnedFile_silent outputPath directoryIdentity fileIdentity :
  silently anything (Init.cleanupOwnedFile target outputPath directoryIdentity fileIdentity).
Proof.
  unfold Init.cleanupOwnedFile. ask_call d Hd. destruct d; [|by apply silent_ret]. case_match; [by apply silent_ret|].
  ask_call f Hf. destruct f; [|by apply silent_ret]. case_match; [by apply silent_ret|]. ask_call u Hu. by apply silent_ret.
Qed.

Definition paths_wf (l : list path) : Prop := Forall (Forall str_wf) l.

Lemma find_missing_settles up missing :
  Forall str_wf up → paths_wf missing → async_silently paths_wf thrown_wf (Init.find_missing target up missing).
Proof.
  intros Hu. revert missing. destruct refusals_wf as (_ & Hl & _).
  assert (∀ segments, when_present thrown_wf
    (if bool_decide (rev segments = target) then Some (Init.refuse_symlink target) else None)) as Hlink
    by (intros; by case_match).
  assert (∀ segments : list jsstr, Forall str_wf segments → Forall str_wf (rev segments)) as Hrev.
  { intros l Hl'. apply Forall_forall. intros x. rewrite list_elem_of_In, <- in_rev, <- list_elem_of_In.
    by apply (proj1 (Forall_forall _ _) Hl'). }
  induction Hu as [|s up Hs Hu IH]; intros missing Hm; cbn [Init.find_missing];
    (eapply settles_bind; [by apply inspect_ancestor_settles|]; intros [?|[code message|e]] He;
       [by apply settles_returns|by apply settles_throws|]; cbn [thrown_wf] in He);
    (case_match; [|apply settles_throws, init_error_wf; auto 12 using Hrev with wf]).
  - auto 12 with wf.
  - apply IH. constructor; [|done]. by apply Hrev; constructor.
Qed.

Lemma create_directory_settles p :
  Forall str_wf p → async_silently anything thrown_wf (Init.create_directory p).
Proof.
  intros Hp. unfold Init.create_directory. eapply settles_await; [sys_call|]. intros ? _.
  eapply settles_await; [sys_call|]. intros found _. case_match; auto 12 with wf.
Qed.

Lemma create_directories_settles missing created :
  paths_wf missing → async_silently anything thrown_wf (Init.create_directories missing created).
Proof.
  intros Hm. revert created. induction Hm as [|p missing Hp Hm IH]; intros created; cbn [Init.create_directories];
    [by apply settles_returns|].
  eapply settles_bind; [by apply create_directory_settles|]. intros [found|[code message|e]] He;
    [apply IH|by apply cleanup_and_throw_settles|]. cbn [thrown_wf] in He. cbv zeta.
  assert (async_silently (anything : list Init.OwnedDirectory → Prop) thrown_wf (Init.cleanup_and_throw created
    (Init.InitError (js "GECLI_INIT_CREATE_DIRECTORY")
       (js "cannot exclusively create directory " ++ path_text p ++ js ": " ++ error_message e)))) as Hf
    by (apply cleanup_and_throw_settles, init_error_wf; auto 12 with wf).
  case_match; [|done]. ask_call raced Hr. destruct raced; [case_match; [apply IH|done]|done].
Qed.

Definition failure_wf (f : Init.write_failure) : Prop := thrown_wf f.1.1.
Lemma stage_settles {A} identity closed (c : call (answer A)) :
  printed c = [] → (∀ r, text_answer _ c r → answer_text r anything) →
  async_silently anything failure_wf (Init.stage identity closed c).
Proof.
  intros Hc Hp. unfold Init.stage. eapply settles_catch; [by apply sys_settles|]. intros e He. by apply settles_throws.
Qed.
Ltac stage_call := eapply settles_await; [apply stage_settles; [done|by intros ? ?]|]; intros ? _.

Lemma createGraphFile_settles template directoryIdentity created :
  async_silently anything thrown_wf (Init.createGraphFile target template directoryIdentity created).
Proof.
  unfold Init.createGraphFile, Init.join_name. cbv zeta.
  assert (Forall str_wf (target ++ [Init.OUTPUT_FILE])) as Ho by (apply Forall_app_2; auto with wf).
  ask_call opened Hopen. destruct opened as [h|e]; cbn [answer_text] in Hopen.
  - eapply settles_catch.
    + unfold Init.write_graph_file. do 8 stage_call. cbv zeta. case_match; [by apply settles_returns|].
      apply settles_throws. unfold failure_wf. cbn [fst]. auto 12 with wf.
    + intros [[error identity] closed] He. unfold failure_wf in He. cbn [fst] in He. cbn [Init.write_failed].
      assert (silently anything (if closed then Ret () else prog_bind (λ _, Ret ()) (ask (HandleClose h)))) as Hclose.
      { destruct closed; [by apply silent_ret|]. ask_call x Hx. by apply silent_ret. }
      eapply settles_bind; [exact Hclose|]. intros _ _. eapply settles_bind.
      { destruct identity; [apply cleanupOwnedFile_silent|by apply silent_ret]. }
      intros _ _. apply cleanup_and_throw_settles. destruct error; [done|]. cbn [thrown_wf] in He. auto 12 with wf.
  - apply cleanup_and_throw_settles. case_match; auto 12 with wf.
Qed.
End target.

Definition init_report_wf (report : Init.InitReport) : Prop :=
  str_wf (Init.targetDirectory report) ∧ Init.report_files report = [Init.OUTPUT_FILE] ∧
  Init.report_template report = Init.TEMPLATE_NAME ∧ ∃ s, Init.report_graphHash report = hash s.

Lemma initializeGraphProject_settles directory dryRun :
  str_wf directory →
  async_silently init_report_wf thrown_wf (Init.initializeGraphProject hash syntax_message directory dryRun).
Proof.
  intros Hd. unfold Init.initializeGraphProject. eapply settles_await; [by apply resolve_settles|]. intros target Ht.
  cbv beta in Ht. eapply settles_await; [by apply loadTemplate_settles|]. intros template Htemplate. cbv beta in Htemplate.
  eapply settles_await; [by apply inspectTarget_settles|]. intros exists_ _.
  destruct dryRun.
  { apply settles_returns. unfold init_report_wf. cbn. auto with wf. }
  eapply (settles_await _ (anything)).
  { destruct exists_; [by apply settles_returns|]. unfold Init.createTargetDirectories.
    eapply settles_await; [apply (find_missing_settles target Ht); [|constructor]|].
    - apply Forall_forall. intros x. rewrite list_elem_of_In, <- in_rev, <- list_elem_of_In.
      by apply (proj1 (Forall_forall _ _) Ht).
    - intros missing Hm. by apply create_directories_settles. }
  intros created _. eapply settles_await.
  { eapply settles_catch; [by apply require_settles|]. intros e He. by apply cleanup_and_throw_settles. }
  intros identity _. eapply settles_await; [by apply createGraphFile_settles|]. intros ? _.
  apply settles_returns. unfold init_report_wf. cbn. auto with wf.
Qed.
End init.

(** ** Trees of the envelope *)

Create HintDb tree.

Lemma tree_object props : keys_ok props.*1 = true → Forall (λ p, parsed_ok p.2) props → parsed_ok (JObj props).
Proof.
  unfold keys_ok. rewrite andb_true_iff, !bool_decide_eq_true. intros [Hn Hk] H. by apply parsed_ok_obj.
Qed.
Lemma tree_string s : str_wf s → parsed_ok (JStr s).
Proof. apply parsed_ok_str. Qed.
Lemma tree_array items : Forall parsed_ok items → parsed_ok (JArr items).
Proof. apply parsed_ok_arr. Qed.
Lemma tree_array_map {A} (P : A → Prop) (f : A → json) l :
  Forall P l → (∀ x, P x → parsed_ok (f x)) → parsed_ok (JArr (f <$> l)).
Proof. intros H Hf. apply tree_array, Forall_fmap. eapply Forall_impl; [exact H|exact Hf]. Qed.
Lemma tree_strings l : Forall str_wf l → parsed_ok (json_strings l).
Proof. intros H. by apply (tree_array_map str_wf), tree_string. Qed.
Lemma tree_number z : parsed_ok (JNum (num_of_Z z)).
Proof. apply parsed_ok_num, num_of_Z_ok. Qed.
Lemma tree_nat n : parsed_ok (json_nat n).
Proof. apply tree_number. Qed.
Lemma tree_option {A} (f : A → json) o : when_present (λ x, parsed_ok (f x)) o → parsed_ok (json_option f o).
Proof. by destruct o. Qed.
Lemma tree_bool b : parsed_ok (JBool b).
Proof. done. Qed.
Lemma tree_entry (k : jsstr) j : parsed_ok j → (λ p : jsstr * json, parsed_ok p.2) (k, j).
Proof. done. Qed.
#[local] Hint Resolve tree_string tree_strings tree_number tree_nat tree_bool : tree.

(** An object with literal keys: check the keys, then each value. *)
Ltac tree_fields := apply tree_object; [vm_compute; reflexivity|repeat apply Forall_cons_2; [..|apply Forall_nil_2]; cbn [snd]].

Lemma tree_optional_string o : when_present str_wf o → parsed_ok (json_option JStr o).
Proof. intros H. apply tree_option. destruct o; [by apply tree_string|done]. Qed.
#[local] Hint Resolve tree_optional_string : tree.

Lemma tree_codes codes : parsed_ok (json_codes codes).
Proof. apply tree_strings, Forall_fmap, Forall_true. intros c. apply code_text_wf. Qed.
#[local] Hint Resolve tree_codes code_text_wf severity_text_wf : tree wf.

Lemma tree_diagnostic d : diagnostic_wf d → parsed_ok (json_diagnostic d).
Proof.
  intros (Hm & Hp & Hn & He). unfold json_diagnostic.
  destruct (diagnostic_path d), (edgeId d), (nodeIds d); cbn [app when_present] in *;
    tree_fields; auto with tree wf.
Qed.
Lemma tree_diagnostics l : Forall diagnostic_wf l → parsed_ok (JArr (json_diagnostic <$> l)).
Proof. intros H. by apply (tree_array_map diagnostic_wf), tree_diagnostic. Qed.
#[local] Hint Resolve tree_diagnostics : tree.

(** The texts of a validation *)
Record validation_wf (v : ValidationResult) : Prop := {
  vw_name : when_present str_wf (v_graphName v);
  vw_hash : when_present str_wf (v_canonicalSha256 v);
  vw_canonical : when_present str_wf (v_canonicalGraph v);
  vw_layers : Forall (Forall str_wf) (v_topologicalLayers v);
  vw_diagnostics : Forall diagnostic_wf (v_diagnostics v)
}.

Lemma validation_texts hash j :
  (∀ s, str_wf (hash s)) → parsed_ok j → validation_wf (validateGraphDocument hash j).
Proof.
  intros Hhash Hj. pose proof (compile_json_wf hash j Hhash Hj) as [H1 H2 H3 H4]. split; [|done..].
  destruct (v_valid (validateGraphDocument hash j)) eqn:Hv.
  - destruct (validateGraphDocument_valid hash j Hj Hv) as (g & (Hok & _ & Hg & _) & _ & _ & -> & _).
    cbn [when_present]. by apply (wf_name g), (decodes_good j).
  - unfold validateGraphDocument in Hv |- *. cbn [v_valid v_graphName] in *. by rewrite Hv.
Qed.

Lemma tree_validation file v : str_wf file → validation_wf v → parsed_ok (validationData file v).
Proof. intros Hf []. unfold validationData. tree_fields; auto with tree wf. Qed.

Lemma tree_compile file v : str_wf file → validation_wf v → parsed_ok (compileData file v).
Proof.
  intros Hf []. unfold compileData. tree_fields; auto with tree wf.
  apply tree_option. destruct (v_canonicalGraph v); [apply tree_nat|done].
Qed.

Lemma tree_plan file p :
  str_wf file → str_wf (plan_graphName p) → str_wf (plan_canonicalSha256 p) →
  Forall (Forall str_wf) (plan_topologicalLayers p) → parsed_ok (planData file p).
Proof.
  intros Hf Hn Hh Hl. unfold planData. tree_fields; auto with tree wf.
  - apply tree_option. destruct (plan_configuredMaxConcurrency p); [apply tree_number|done].
  - by apply (tree_array_map (Forall str_wf)), tree_strings.
Qed.

Lemma tree_visualization h r : str_wf h → str_wf (vis_content r) → parsed_ok (visualizationData h r).
Proof.
  intros Hh Hc. unfold visualizationData. tree_fields; auto with tree wf.
  apply tree_string. destruct (vis_format r); apply js_wf.
Qed.

Lemma tree_doctor report : report_wf report → parsed_ok (doctorData report).
Proof.
  intros [Hc Hr]. unfold doctorData. tree_fields; auto with tree wf.
  apply (tree_array_map check_wf); [done|]. intros item [Hs Hd]. unfold json_check. tree_fields; auto with tree wf.
  - apply tree_string. destruct (Doctor.check_id item); apply js_wf.
  - apply tree_string. destruct (Doctor.check_passed item); apply js_wf.
Qed.

Lemma tree_init hash report :
  (∀ s, str_wf (hash s)) → init_report_wf hash report → parsed_ok (initData report).
Proof.
  intros Hhash (Ht & Hf & Htemplate & s & Hs). unfold initData. rewrite Hf, Htemplate, Hs.
  tree_fields; auto with tree wf.
Qed.

(** ** The envelope *)

Record envelope_wf (e : MachineEnvelope) : Prop := {
  ew_data : when_present parsed_ok (envelope_data e);
  ew_error : when_present (λ p, str_wf p.1 ∧ str_wf p.2) (envelope_error e)
}.

Lemma tree_envelope e : envelope_wf e → parsed_ok (json_envelope e).
Proof.
  intros [Hd He]. unfold json_envelope. tree_fields; auto with tree wf.
  - apply tree_option. destruct (envelope_command e) as [c|]; [|done]. apply tree_string. destruct c; apply js_wf.
  - by destruct (envelope_data e).
  - apply tree_option. destruct (envelope_error e) as [[c m]|]; [|done]. destruct He. cbn [when_present].
    tree_fields; auto with tree wf.
Qed.

(** What a reader of the line gets *)
Definition envelope_read (e : MachineEnvelope) : MachineEnvelope :=
  Build_MachineEnvelope (envelope_command e) (envelope_exitCode e) (stringified <$> envelope_data e) (envelope_error e).

Lemma stringified_envelope e : stringified (json_envelope e) = json_envelope (envelope_read e).
Proof.
  destruct e as [command code data error]. unfold json_envelope, envelope_read.
  cbn [envelope_command envelope_exitCode envelope_data envelope_error].
  change (stringified (JObj ?l)) with (JObj (own_order (map (λ p, (p.1, stringified p.2)) l))).
  rewrite own_order_plain by (repeat constructor). cbn [map fst snd]. f_equal.
  assert (stringified (JNum (num_of_Z (exit_code code))) = JNum (num_of_Z (exit_code code))) as -> by (by destruct code).
  assert (stringified (json_option (λ c, JStr (command_text c)) command) = json_option (λ c, JStr (command_text c)) command)
    as -> by (by destruct command).
  assert (stringified (default JNull data) = default JNull (stringified <$> data)) as -> by (by destruct data).
  assert (stringified (json_option (λ p, JObj [(js "code", JStr p.1); (js "message", JStr p.2)]) error) =
    json_option (λ p, JObj [(js "code", JStr p.1); (js "message", JStr p.2)]) error) as ->; [|done].
  destruct error as [[c m]|]; [|done]. cbn [json_option].
  change (stringified (JObj ?l)) with (JObj (own_order (map (λ p, (p.1, stringified p.2)) l))).
  by rewrite own_order_plain by (repeat constructor).
Qed.

(** ** Terminal-safe text *)

(** What Unicode knows about single units: the general category Cc, the property
    [Bidi_Control], and the line and paragraph separators *)
Definition control_character (c : N) : Prop := (c < 32 ∨ 127 ≤ c < 160)%N.
Definition bidi_controls : list N :=
  [1564; 8206; 8207; 8234; 8235; 8236; 8237; 8238; 8294; 8295; 8296; 8297]%N.
Definition separators : list N := [8232; 8233]%N.
Definition unsafe (c : N) : Prop := control_character c ∨ c ∈ bidi_controls ∨ c ∈ separators.
#[export] Instance unsafe_dec c : Decision (unsafe c).
Proof. unfold unsafe, control_character. apply _. Defined.
(** A character a terminal shows, or the end of a line *)
Definition shown (c : N) : bool := (c =? 10)%N || bool_decide (¬ unsafe c).
Definition safe (s : jsstr) : Prop := Forall (λ c, shown c = true) s.

Create HintDb safe.
Lemma safe_app s t : safe s → safe t → safe (s ++ t).
Proof. intros. by apply Forall_app. Qed.
Lemma safe_lit s : forallb shown s = true → safe s.
Proof. by rewrite forallb_Forall. Qed.
Ltac safe_literal := apply safe_lit; vm_compute; reflexivity.
#[local] Hint Extern 1 (safe (js _)) => safe_literal : safe.
#[local] Hint Extern 1 (safe [_]) => safe_literal : safe.
#[local] Hint Extern 1 (safe []) => safe_literal : safe.
(** Take a text apart into pieces that are known to be safe. *)
Ltac safe_text :=
  repeat match goal with
  | |- safe (_ ++ _) => apply safe_app
  | |- safe (if ?b then _ else _) => destruct b
  | |- safe (match ?o with _ => _ end) => destruct o
  | |- safe _ => solve [auto 4 with safe]
  end.

Lemma unsafe_below c : unsafe c → (c < 32 ∨ 127 ≤ c < 160 ∨ 1564 ≤ c ≤ 8297)%N.
Proof.
  unfold unsafe, control_character, bidi_controls, separators. rewrite !elem_of_cons, elem_of_nil. lia.
Qed.
Lemma isTerminalControl_unsafe c : isTerminalControl c = false → ¬ unsafe c.
Proof.
  unfold isTerminalControl, unsafe, control_character, bidi_controls, separators.
  rewrite !orb_false_iff, !andb_false_iff, !N.leb_gt, !N.eqb_neq, !elem_of_cons, elem_of_nil. lia.
Qed.

(** Printable ASCII, and line ends *)
Definition ascii_text (s : jsstr) : Prop := Forall (λ c, 32 ≤ c < 127 ∨ c = 10)%N s.
Lemma ascii_safe s : ascii_text s → safe s.
Proof.
  intros H. eapply Forall_impl; [exact H|]. intros c Hc. cbv beta in *. unfold shown.
  destruct Hc as [Hc| ->]; [|done]. rewrite bool_decide_eq_true_2; [apply orb_true_r|]. intros H'%unsafe_below. lia.
Qed.
Lemma ascii_wf s : ascii_text s → str_wf s.
Proof. intros H. eapply Forall_impl; [exact H|]. intros c Hc. cbv beta in *. lia. Qed.
Lemma digits_ascii s : digits s → ascii_text s.
Proof. intros H. eapply Forall_impl; [exact H|]. intros c Hc. cbv beta in *. unfold is_digit in Hc. bool_hyps. lia. Qed.
Lemma safe_string_of_nat n : safe (string_of_nat n).
Proof. apply ascii_safe, digits_ascii, string_of_N_digits. Qed.
#[local] Hint Resolve safe_string_of_nat : safe.

(** Above the controls of Unicode, every unit is shown. *)
Lemma shown_high c : (8297 < c)%N → shown c = true.
Proof.
  intros Hc. unfold shown. rewrite bool_decide_eq_true_2; [apply orb_true_r|]. intros H%unsafe_below. lia.
Qed.
Lemma encode_point_safe c : isTerminalControl c = false → safe (encode_point c).
Proof.
  intros Hc. unfold encode_point. destruct (c <? 65536)%N; repeat constructor.
  - unfold shown. rewrite bool_decide_eq_true_2; [apply orb_true_r|]. by apply isTerminalControl_unsafe.
  - apply shown_high. pose proof (N.le_0_l ((c - 65536) `div` 1024)). lia.
  - apply shown_high. pose proof (N.le_0_l ((c - 65536) `mod` 1024)). lia.
Qed.
Lemma upper_hex_ascii fuel n acc : ascii_text acc → ascii_text (upper_hex fuel n acc).
Proof.
  revert n acc. induction fuel as [|fuel IH]; intros n acc Ha; [done|]. cbn [upper_hex]. cbv zeta.
  assert (ascii_text (upper_hex_digit (n `mod` 16) :: acc)) as H.
  { constructor; [|done]. unfold upper_hex_digit. assert (n `mod` 16 < 16)%N as Hm by (by apply N.mod_lt).
    cbv beta. generalize dependent (n `mod` 16)%N. intros m Hm. destruct (m <? 10)%N; left; lia. }
  destruct (n <? 16)%N; [done|by apply IH].
Qed.
Lemma pad_start_ascii n c s : (32 ≤ c < 127)%N → ascii_text s → ascii_text (pad_start n c s).
Proof. intros Hc Hs. unfold pad_start. apply Forall_app. split; [|done]. apply Forall_replicate. by left. Qed.

Lemma terminalSafeText_safe value : safe (terminalSafeText value).
Proof.
  unfold terminalSafeText. induction (code_points value) as [|c cs IH]; [constructor|]. rewrite bind_cons.
  apply safe_app; [|done]. destruct (isTerminalControl c) eqn:E; [|by apply encode_point_safe].
  safe_text. apply ascii_safe, pad_start_ascii; [lia|]. apply upper_hex_ascii; constructor.
Qed.
#[local] Hint Resolve terminalSafeText_safe : safe.

Lemma safe_join sep l : safe sep → Forall safe l → safe (join sep l).
Proof.
  intros Hs H. induction H as [|s l Hl H IH]; [constructor|]. destruct l as [|s' l]; [done|].
  change (join sep (s :: s' :: l)) with (s ++ sep ++ join sep (s' :: l)). auto using safe_app.
Qed.
Lemma safe_bind {A} (f : A → jsstr) l : (∀ x, safe (f x)) → safe (l ≫= f).
Proof. intros H. induction l as [|x l IH]; [constructor|]. rewrite bind_cons. auto using safe_app. Qed.
Lemma safe_imap {A} (f : nat → A → jsstr) l : (∀ i x, safe (f i x)) → safe (concat (imap f l)).
Proof.
  intros H. revert f H. induction l as [|x l IH]; intros f H; [constructor|]. cbn [imap concat].
  apply safe_app; [apply H|]. apply (IH (f ∘ S)). intros; apply H.
Qed.
Lemma safe_code c : safe (code_text c).
Proof. destruct c; safe_literal. Qed.
Lemma safe_texts l : Forall safe (terminalSafeText <$> l).
Proof. apply Forall_fmap, Forall_true. intros s. apply terminalSafeText_safe. Qed.
#[local] Hint Resolve safe_join safe_bind safe_imap safe_code safe_texts : safe.

(** ** What is printed for a reader *)

Definition prints_safe (p : prog ()) : Prop := ∃ s text, p = ask (Print s text) ∧ safe text.
Lemma terminated_safe text : safe text → safe (terminated text).
Proof. intros H. unfold terminated. safe_text. Qed.
Lemma writeStdout_safe text : safe text → prints_safe (writeStdout text).
Proof. intros H%terminated_safe. by exists Stdout, (terminated text). Qed.
Lemma writeStderr_safe text : safe text → prints_safe (writeStderr text).
Proof. intros H%terminated_safe. by exists Stderr, (terminated text). Qed.

Lemma safe_number z : safe (string_of_num (num_of_Z z)).
Proof.
  apply ascii_safe. eapply Forall_impl; [apply string_of_num_printable|]. intros c Hc. by left.
Qed.
Lemma safe_default o : when_present safe o → safe (default (js "unavailable") o).
Proof. intros H. destruct o; [done|]. apply safe_lit. by vm_compute. Qed.
#[local] Hint Resolve safe_number safe_default : safe.

Lemma safe_diagnostic_line item : safe (diagnostic_line item).
Proof. unfold diagnostic_line. cbv zeta. safe_text. Qed.
#[local] Hint Resolve safe_diagnostic_line : safe.

Lemma printValidationHuman_safe file v :
  when_present safe (v_canonicalSha256 v) → prints_safe (printValidationHuman file v).
Proof.
  intros H. unfold printValidationHuman.
  destruct (v_valid v); [apply writeStdout_safe|apply writeStderr_safe]; unfold tick, cross; safe_text.
Qed.

Lemma safe_layers layers :
  safe (concat (imap (λ index layer,
    [10%N] ++ js "  " ++ string_of_nat (index + 1) ++ js ". " ++ join (js " | ") (terminalSafeText <$> layer)) layers)).
Proof. apply safe_imap. intros i layer. safe_text. Qed.
#[local] Hint Resolve safe_layers : safe.

Lemma printPlanHuman_safe file p : prints_safe (printPlanHuman file p).
Proof. unfold printPlanHuman, middle_dot. apply writeStdout_safe. safe_text. Qed.

Lemma printCompileHuman_safe file v :
  when_present safe (v_canonicalSha256 v) → prints_safe (printCompileHuman file v).
Proof.
  intros H. unfold printCompileHuman, tick. destruct (v_valid v); [|by apply printValidationHuman_safe].
  cbv zeta. apply writeStdout_safe. safe_text.
Qed.

Lemma safe_remediations items :
  safe (concat (imap (λ index item,
    [10%N] ++ js "  " ++ string_of_nat (index + 1) ++ js ". " ++ terminalSafeText item) items)).
Proof. apply safe_imap. intros i item. safe_text. Qed.
Lemma safe_check_lines items : safe (items ≫= check_line).
Proof. apply safe_bind. intros item. unfold check_line, tick, cross. safe_text. Qed.
#[local] Hint Resolve safe_remediations safe_check_lines : safe.

Lemma printDoctorHuman_safe report : prints_safe (printDoctorHuman report).
Proof. unfold printDoctorHuman. apply writeStdout_safe. safe_text. Qed.

Lemma printInitHuman_safe report : safe (Init.report_graphHash report) → prints_safe (printInitHuman report).
Proof.
  intros H. unfold printInitHuman, tick. cbv zeta. destruct (Init.report_dryRun report); apply writeStdout_safe; safe_text.
Qed.

(** A diagram is ASCII. *)
Lemma label_ascii s : label_text s → ascii_text s.
Proof.
  intros H. eapply Forall_impl; [exact H|]. intros c Hc. cbv beta in *. unfold label_unit in Hc.
  rewrite orb_true_iff, bool_decide_eq_true in Hc. destruct Hc as [Hc|Hc].
  - apply display_safe_small in Hc. lia.
  - left. repeat (apply elem_of_cons in Hc as [->|Hc]; [lia|]). by apply not_elem_of_nil in Hc.
Qed.
Lemma ascii_app s t : ascii_text s → ascii_text t → ascii_text (s ++ t).
Proof. intros. by apply Forall_app. Qed.
Lemma ascii_lit s : forallb (λ c, (32 <=? c) && (c <? 127) || (c =? 10))%N s = true → ascii_text s.
Proof.
  rewrite forallb_Forall. intros H. eapply Forall_impl; [exact H|]. intros c Hc. cbv beta in *.
  rewrite orb_true_iff, andb_true_iff, N.leb_le, N.ltb_lt, N.eqb_eq in Hc. lia.
Qed.
Lemma ascii_join sep l : ascii_text sep → Forall ascii_text l → ascii_text (join sep l).
Proof.
  intros Hs H. induction H as [|s l Hl H IH]; [constructor|]. destruct l as [|s' l]; [done|].
  change (join sep (s :: s' :: l)) with (s ++ sep ++ join sep (s' :: l)). auto using ascii_app.
Qed.
Lemma ascii_nat n : ascii_text (string_of_nat n).
Proof. apply digits_ascii, string_of_N_digits. Qed.
#[local] Hint Resolve ascii_app ascii_nat label_ascii node_label_text edge_label_text : safe.
#[local] Hint Extern 1 (ascii_text (js _)) => (apply ascii_lit; vm_compute; reflexivity) : safe.
#[local] Hint Extern 1 (ascii_text (jsq _)) => (apply ascii_lit; vm_compute; reflexivity) : safe.
#[local] Hint Extern 1 (ascii_text [10%N]) => (apply ascii_lit; vm_compute; reflexivity) : safe.

Lemma diagram_ascii g format r : references_ok g → visualizeGraph g format = Ok r → ascii_text (vis_content r).
Proof.
  intros Hg. rewrite (visualizeGraph_lines format g Hg). intros [= <-]. cbn [vis_content].
  apply ascii_app; [|auto with safe]. apply ascii_join; [auto with safe|]. rewrite !Forall_app. split_and!.
  - destruct format; repeat (apply Forall_cons_2; [auto with safe|]); apply Forall_nil_2.
  - apply Forall_app. split; apply Forall_imap'; intros i x; destruct format;
      unfold node_text, edge_text, mermaid_node, dot_node, mermaid_edge, dot_edge; auto 30 with safe.
  - destruct format; repeat (apply Forall_cons_2; [auto with safe|]); apply Forall_nil_2.
Qed.

(** ** A run *)

(** The output of machine mode: one line with an envelope that agrees with the exit code *)
Definition machine_output (h : list (stream * jsstr)) (c : CliExitCode) : Prop :=
  ∃ e, h = [(Stdout, stringify (json_envelope e) ++ [10%N])] ∧ envelope_wf e ∧ envelope_exitCode e = c ∧
    (envelope_data e = None ↔ is_Some (envelope_error e)).
Definition human_output (h : list (stream * jsstr)) : Prop := Forall (λ p, safe p.2) h.
Definition run_output (json : bool) (h : list (stream * jsstr)) (c : CliExitCode) : Prop :=
  if json then machine_output h c else human_output h.

Definition failure_text (f : failure) : Prop :=
  match f with
  | CliFailure e => str_wf (cli_code e) ∧ str_wf (cli_message e)
  | OtherFailure message => str_wf message
  end.
(** The body of a command has printed its result, or nothing if it throws. *)
Definition command_output (json : bool) (h : list (stream * jsstr)) (r : result failure CliExitCode) : Prop :=
  match r with Ok c => run_output json h c | Err f => h = [] ∧ failure_text f end.

Lemma terminated_line s : terminated (s ++ js "}") = (s ++ js "}") ++ [10%N].
Proof. unfold terminated. change (js "}") with [125%N]. by rewrite last_snoc. Qed.
Lemma stringify_envelope_end e : ∃ s, stringify (json_envelope e) = s ++ js "}".
Proof. eexists (js "{" ++ _). cbn [json_envelope stringify]. by rewrite <- (assoc_L (++)). Qed.

Lemma writeEnvelope_says command code data error :
  envelope_wf (Build_MachineEnvelope command code data error) → (data = None ↔ is_Some error) →
  says text_answer (λ h _, machine_output h code) [] (writeEnvelope command code data error).
Proof.
  intros Hw Hd. unfold writeEnvelope, writeStdout. cbn [says]. intros [] _. cbn [app printed].
  exists (Build_MachineEnvelope command code data error). split_and!; [|done..].
  destruct (stringify_envelope_end (Build_MachineEnvelope command code data error)) as [s ->].
  by rewrite terminated_line.
Qed.

Lemma prints_safe_says p : prints_safe p → says text_answer (λ h _, human_output h) [] p.
Proof. intros (s & text & -> & H). cbn [says]. intros [] _. by repeat constructor. Qed.

(** The last step of a command: data in machine mode, a text otherwise *)
Lemma report_says (json : bool) command code data p :
  parsed_ok data → prints_safe p →
  says text_answer (command_output json) []
    (print_and_return (if json then writeEnvelope command code (Some data) None else p) code).
Proof.
  intros Hd Hp. unfold print_and_return. apply says_bind. destruct json.
  - eapply says_mono; [by apply writeEnvelope_says|]. by intros h [] H.
  - eapply says_mono; [by apply prints_safe_says|]. by intros h [] H.
Qed.
Lemma throw_says json f : failure_text f → says text_answer (command_output json) [] (throws f).
Proof. done. Qed.

Lemma emit_failure_says f command (json : bool) :
  failure_text f → says text_answer (run_output json) [] (emit_failure f command json).
Proof.
  intros Hf. destruct f as [e|message]; cbn [emit_failure failure_text] in *; unfold emitCliError, emitInternalError;
    apply says_bind; destruct json.
  - by apply writeEnvelope_says.
  - eapply says_mono; [apply prints_safe_says, writeStderr_safe; safe_text|]. by intros h [] H.
  - apply writeEnvelope_says; [|done]. split; [done|]. cbn [envelope_error when_present fst snd]. auto with wf.
  - eapply says_mono; [apply prints_safe_says, writeStderr_safe; safe_text|]. by intros h [] H.
Qed.

Section run.
Context (hash : jsstr → jsstr) (syntax_message : jsstr → jsstr).
(** A digest is written with digits and lower-case letters; a message is a text. *)
Hypothesis hash_digest : ∀ s, printable (hash s).
Hypothesis syntax_wf : ∀ s, str_wf s → str_wf (syntax_message s).

Lemma hash_ascii s : ascii_text (hash s).
Proof. eapply Forall_impl; [apply hash_digest|]. intros c Hc. by left. Qed.
Lemma hash_text_wf s : str_wf (hash s).
Proof. apply ascii_wf, hash_ascii. Qed.

Lemma input_error_text code message : str_wf code → str_wf message → failure_text (input_error code message).
Proof. done. Qed.
#[local] Hint Resolve input_error_text : wf.

Lemma readGraph_settles file :
  str_wf file → async_silently parsed_ok failure_text (readGraph syntax_message file).
Proof.
  intros Hf. unfold readGraph. cbv zeta. eapply (settles_await _ str_wf).
  - case_bool_decide; ask_call r Hr; destruct r as [bytes|e]; cbn [answer_text] in Hr;
      (apply settles_returns, utf8_text_wf || (apply settles_throws; auto 12 with wf)).
    + by apply Forall_concat.
    + done.
  - intros source Hs. destruct (json_parse source) as [document|] eqn:E.
    + apply settles_returns. by eapply json_parse_ok.
    + apply settles_throws. auto 12 with wf.
Qed.

Lemma validation_hash_safe j : when_present safe (v_canonicalSha256 (validateGraphDocument hash j)).
Proof.
  unfold validateGraphDocument. cbn [v_canonicalSha256]. destruct (graphHash (compile_json hash j)) eqn:E; [|done].
  apply compile_json_hash in E as [s ->]. apply ascii_safe, hash_ascii.
Qed.

Lemma run_graph_says parsed file :
  str_wf file → says text_answer (command_output (parsed_json parsed)) [] (run_graph hash syntax_message parsed file).
Proof.
  intros Hf. unfold run_graph. eapply silent_says; [by apply readGraph_settles|]. intros [j|f] Hj; [|by apply throw_says].
  cbv zeta. pose proof (validation_texts hash j hash_text_wf Hj) as Hv.
  pose proof (validation_hash_safe j) as Hh.
  assert (∀ code, says text_answer (command_output (parsed_json parsed)) []
    (report_validation parsed file (validateGraphDocument hash j) code)) as Hreport.
  { intros code. apply report_says; [by apply tree_validation|by apply printValidationHuman_safe]. }
  assert (says text_answer (command_output (parsed_json parsed)) []
    match v_valid (validateGraphDocument hash j), v_graph (validateGraphDocument hash j) with
    | true, Some graph =>
        match planGraph graph (validateGraphDocument hash j) with
        | Ok p => print_and_return (if parsed_json parsed
            then writeEnvelope (Some (parsed_command parsed)) success (Some (planData file p)) None
            else printPlanHuman file p) success
        | Err message => throws (OtherFailure message)
        end
    | _, _ => report_validation parsed file (validateGraphDocument hash j)
        (if v_valid (validateGraphDocument hash j) then success else invalidGraph)
    end) as Hplan.
  { destruct (v_valid (validateGraphDocument hash j)) eqn:Hvalid; [|apply Hreport].
    destruct (planGraph_valid hash j Hj Hvalid) as (g & p & Hg & -> & -> & ->).
    apply report_says; [|apply printPlanHuman_safe].
    apply tree_plan; cbn [plan_graphName plan_canonicalSha256 plan_topologicalLayers]; [done| |apply hash_text_wf|apply Hv].
    destruct Hg as (Hok & _ & Hread & _). by apply (wf_name g), (decodes_good j). }
  destruct (parsed_command parsed); try exact Hplan; [apply Hreport|..].
  - apply report_says; [by apply tree_compile|by apply printCompileHuman_safe].
  - clear Hplan. destruct (v_valid (validateGraphDocument hash j)) eqn:Hvalid; [|apply Hreport].
    destruct (validateGraphDocument_valid hash j Hj Hvalid) as (g & Hg & Hwf & -> & _ & -> & _).
    destruct (parsed_format parsed) as [format|]; [|apply throw_says, js_wf].
    pose proof (diagram_ascii g format) as Hascii. destruct (visualizeGraph g format) as [r|message] eqn:E.
    + pose proof (Hascii r (wf_references _ Hwf) eq_refl). apply report_says.
      * apply tree_visualization; [apply hash_text_wf|by apply ascii_wf].
      * by apply writeStdout_safe, ascii_safe.
    + by rewrite (visualizeGraph_lines format g (wf_references _ Hwf)) in E.
Qed.

Lemma run_init_says parsed directory :
  str_wf directory →
  says text_answer (command_output (parsed_json parsed)) [] (run_init hash syntax_message parsed directory).
Proof.
  intros Hd. unfold run_init.
  eapply silent_says; [by apply (initializeGraphProject_settles hash syntax_message hash_text_wf syntax_wf)|].
  intros [report|[code message|e]] Hr.
  - pose proof Hr as (_ & _ & _ & s & Hs).
    apply report_says; [by eapply tree_init; [apply hash_text_wf|]|]. apply printInitHuman_safe. rewrite Hs. apply ascii_safe, hash_ascii.
  - by apply throw_says.
  - by apply throw_says.
Qed.

Lemma run_doctor_says parsed :
  says text_answer (command_output (parsed_json parsed)) [] (run_doctor syntax_message parsed).
Proof.
  unfold run_doctor. eapply silent_says; [by apply runDoctor_silent|]. intros report Hr. cbv zeta.
  apply report_says; [by apply tree_doctor|apply printDoctorHuman_safe].
Qed.

Lemma run_command_says parsed :
  when_present str_wf (parsed_file parsed) →
  says text_answer (command_output (parsed_json parsed)) [] (run_command hash syntax_message parsed).
Proof.
  intros Hf. unfold run_command.
  destruct (parsed_command parsed), (parsed_file parsed) as [file|];
    first [by apply run_graph_says|by apply run_init_says|by apply run_doctor_says|apply throw_says; cbn [failure_text]; auto with wf].
  all: apply str_wf_append; apply js_wf.
Qed.

End run.

(** What [parseArguments] passes on *)
Lemma scan_wf argv s s' :
  Forall str_wf argv → Forall str_wf (positionals s) → when_present str_wf (formatValue s) → scan argv s = Ok s' →
  Forall str_wf (positionals s') ∧ when_present str_wf (formatValue s').
Proof.
  assert (∀ n argv s, length argv ≤ n → Forall str_wf argv → Forall str_wf (positionals s) →
    when_present str_wf (formatValue s) → scan argv s = Ok s' →
    Forall str_wf (positionals s') ∧ when_present str_wf (formatValue s')) as H; [|intros; by eapply (H (length argv) argv s)].
  clear. intros n. induction n as [|n IH]; intros [|argument argv] s Hn Ha Hp Hv; cbn [scan length] in *;
    try (intros [= <-]; done); [lia|]. apply Forall_cons in Ha as [Harg Ha].
  case_bool_decide; [apply IH; done || lia|]. case_bool_decide.
  - destruct argv as [|value argv]; [done|]. apply Forall_cons in Ha as [Hvalue Ha].
    destruct (starts_with _ value); [done|]. apply IH; cbn [length positionals formatValue when_present] in *; done || lia.
  - case_match.
    + apply IH; cbn [length positionals formatValue when_present] in *; [lia|done|done|by apply Forall_drop].
    + apply IH; cbn [length positionals formatValue when_present] in *; [lia|done| |done]. by apply Forall_app_2, Forall_one.
Qed.

Lemma count_includes s argv : includes s argv = true → 0 < count s argv.
Proof.
  unfold includes, count. rewrite bool_decide_eq_true. intros Hin.
  destruct (filter (λ a, a = js s) argv) eqn:E; [|simpl; lia]. exfalso.
  apply (filter_nil_not_elem_of _ _ _ E eq_refl Hin).
Qed.
