(* ===== verification/CliSpec.v ===== *)
(** * The command line's contract

    The arguments: a grammar with one form per usage line, which [parseArguments]
    decides.  The runs: what machine mode and human mode print, and the exit code of
    the commands that read a graph. *)
From S2P Require Import Prelude JsString JsNumber JsValue JsonText Canonical CanonicalSpec NumberText JsonRoundTrip ParsedJson.
From S2P Require Import Stringify Utf8 GraphIR Compiler CompilerSpec GraphReading CliValidation Visualize VisualizeSpec.
From S2P Require Import Process Messages Cli CliOutput.
#[local] Arguments js : simpl never.

(** ** The grammar of the arguments *)

Inductive token := JsonFlag | DryRunFlag | FormatOption (value : jsstr) | Operand (text : jsstr).

(** The tokens a list of arguments spells *)
Inductive spells : list jsstr → list token → Prop :=
  | spells_nil : spells [] []
  | spells_json argv ts : spells argv ts → spells (js "--json" :: argv) (JsonFlag :: ts)
  | spells_dry_run argv ts : spells argv ts → spells (js "--dry-run" :: argv) (DryRunFlag :: ts)
  | spells_format value argv ts :
      starts_with (js "-") value = false → spells argv ts →
      spells (js "--format" :: value :: argv) (FormatOption value :: ts)
  | spells_format_equals value argv ts :
      spells argv ts → spells ((js "--format=" ++ value) :: argv) (FormatOption value :: ts)
  | spells_operand text argv ts :
      text ∉ [js "--json"; js "--dry-run"; js "--format"] → starts_with (js "--format=") text = false →
      spells argv ts → spells (text :: argv) (Operand text :: ts).

#[export] Instance token_eq_dec : EqDecision token.
Proof. solve_decision. Defined.
Definition flags (flag : token) (ts : list token) : nat := length (filter (.= flag) ts).
Definition formats (ts : list token) : list jsstr := omap (λ t, match t with FormatOption v => Some v | _ => None end) ts.
Definition operands (ts : list token) : list jsstr := omap (λ t, match t with Operand s => Some s | _ => None end) ts.

(** The usage lines: the command and its operands, whether [--dry-run] is given, the
    [--format] values; and the file and the format the command gets. *)
Inductive usage_form : CommandName → list jsstr → bool → list jsstr → option jsstr → option VisualizationFormat → Prop :=
  | form_graph command file :
      command ∈ [validate; plan; compile] → file ≠ [] → usage_form command [file] false [] (Some file) None
  | form_visualize file : file ≠ [] → usage_form visualize [file] false [] (Some file) (Some mermaid)
  | form_visualize_mermaid file :
      file ≠ [] → usage_form visualize [file] false [js "mermaid"] (Some file) (Some mermaid)
  | form_visualize_dot file : file ≠ [] → usage_form visualize [file] false [js "dot"] (Some file) (Some dot)
  | form_doctor : usage_form doctor [] false [] None None
  | form_init dryRun : usage_form init [] dryRun [] (Some (js ".")) None
  | form_init_directory directory dryRun :
      starts_with (js "-") directory = false ∨ directory = js "-" →
      usage_form init [directory] dryRun [] (Some directory) None.

(** The command a list of tokens denotes; each flag is given at most once. *)
Definition denotes (ts : list token) (p : ParsedCommand) : Prop :=
  flags JsonFlag ts = (if parsed_json p then 1 else 0) ∧
  flags DryRunFlag ts = (if parsed_dryRun p then 1 else 0) ∧
  ∃ rest, operands ts = command_text (parsed_command p) :: rest ∧
    usage_form (parsed_command p) rest (parsed_dryRun p) (formats ts) (parsed_file p) (parsed_format p).

(** ** The scan *)

Definition collect (ts : list token) (s : scanned) : scanned :=
  Scanned (match last (formats ts) with Some v => Some v | None => formatValue s end)
    (formatCount s + length (formats ts)) (positionals s ++ operands ts).

Lemma starts_with_split p s : starts_with p s = true → s = p ++ drop (length p) s.
Proof.
  revert s. induction p as [|c p IH]; intros [|d s] H; try done. cbn [starts_with] in H.
  apply andb_true_iff in H as [->%N.eqb_eq H]. cbn [length drop app]. by rewrite <- (IH s).
Qed.
Lemma starts_with_app p s : starts_with p (p ++ s) = true.
Proof. induction p as [|c p IH]; [done|]. cbn [starts_with app]. by rewrite N.eqb_refl, IH. Qed.

Definition collect_token (t : token) (s : scanned) : scanned :=
  match t with
  | FormatOption value => Scanned (Some value) (S (formatCount s)) (positionals s)
  | Operand text => Scanned (formatValue s) (formatCount s) (positionals s ++ [text])
  | _ => s
  end.
Lemma collect_nil s : collect [] s = s.
Proof. destruct s. unfold collect. cbn. by rewrite Nat.add_0_r, app_nil_r. Qed.
Lemma collect_cons t ts s : collect (t :: ts) s = collect ts (collect_token t s).
Proof.
  destruct s as [v n l], t as [| |value|text]; try done; unfold collect, collect_token; cbn [formatValue formatCount positionals].
  - change (formats (FormatOption value :: ts)) with (value :: formats ts).
    change (operands (FormatOption value :: ts)) with (operands ts).
    f_equal; [|cbn [length]; lia]. rewrite last_cons. by destruct (last (formats ts)).
  - change (formats (Operand text :: ts)) with (formats ts).
    change (operands (Operand text :: ts)) with (text :: operands ts). by rewrite <- (assoc_L (++)).
Qed.

(** The scan reads exactly the tokens. *)
Lemma scan_spells argv s s' : scan argv s = Ok s' ↔ ∃ ts, spells argv ts ∧ s' = collect ts s.
Proof.
  split.
  - enough (H : ∀ n argv s, length argv ≤ n → scan argv s = Ok s' → ∃ ts, spells argv ts ∧ s' = collect ts s)
      by (intros; by apply (H (length argv))).
    clear. intros n. induction n as [|n IH]; intros [|argument argv] s Hn H; cbn [scan length] in *;
      try (injection H as <-; exists []; split; [constructor|by rewrite collect_nil]);
      [lia|]. case_bool_decide as Hflag.
    + apply IH in H as (ts & Hts & ->); [|lia].
      destruct Hflag as [->| ->]; [exists (JsonFlag :: ts)|exists (DryRunFlag :: ts)];
        (split; [by constructor|by rewrite collect_cons]).
    + case_bool_decide as Hformat; [|destruct (starts_with (js "--format=") argument) eqn:He].
      * destruct argv as [|value argv]; [done|]. destruct (starts_with _ value) eqn:Hv; [done|].
        apply IH in H as (ts & Hts & ->); [|cbn [length] in Hn; lia]. subst argument. exists (FormatOption value :: ts).
        split; [by constructor|by rewrite collect_cons].
      * apply starts_with_split in He. apply IH in H as (ts & Hts & ->); [|lia]. rewrite He.
        exists (FormatOption (drop 9 argument) :: ts). split; [by constructor|by rewrite collect_cons].
      * apply IH in H as (ts & Hts & ->); [|lia]. exists (Operand argument :: ts). split.
        { constructor; [|done..]. rewrite !elem_of_cons. intros [?|[?|[?|[]%not_elem_of_nil]]]; tauto. }
        by rewrite collect_cons.
  - intros (ts & Hts & ->). revert s. induction Hts; intros s; cbn [scan].
    + by rewrite collect_nil.
    + rewrite bool_decide_eq_true_2 by tauto. by rewrite IHHts, collect_cons.
    + rewrite bool_decide_eq_true_2 by tauto. by rewrite IHHts, collect_cons.
    + change (bool_decide (js "--format" = js "--json" ∨ js "--format" = js "--dry-run")) with false. cbn match.
      rewrite bool_decide_eq_true_2, H by done. by rewrite IHHts, collect_cons.
    + rewrite bool_decide_eq_false_2 by (by intros []). rewrite bool_decide_eq_false_2 by done.
      by rewrite starts_with_app, IHHts, collect_cons.
    + rewrite !not_elem_of_cons in H. destruct H as (H1 & H2 & H3 & _).
      rewrite bool_decide_eq_false_2 by tauto. rewrite bool_decide_eq_false_2 by done.
      by rewrite H0, IHHts, collect_cons.
Qed.

Lemma count_cons s a argv : count s (a :: argv) = (if bool_decide (a = js s) then 1 else 0) + count s argv.
Proof.
  unfold count. case_bool_decide; [by rewrite filter_cons_True|by rewrite filter_cons_False].
Qed.
Lemma flags_cons flag t ts : flags flag (t :: ts) = (if bool_decide (t = flag) then 1 else 0) + flags flag ts.
Proof.
  unfold flags. case_bool_decide; [by rewrite filter_cons_True|by rewrite filter_cons_False].
Qed.
(** No value is counted as a flag. *)
Lemma spells_count argv ts :
  spells argv ts → count "--json" argv = flags JsonFlag ts ∧ count "--dry-run" argv = flags DryRunFlag ts.
Proof.
  induction 1 as [|argv ts _ [E1 E2]|argv ts _ [E1 E2]|value argv ts Hv _ [E1 E2]|value argv ts _ [E1 E2]|text argv ts Hn _ _ [E1 E2]];
    [done|..]; rewrite !count_cons, !flags_cons, E1, E2; try done.
  - rewrite !(bool_decide_eq_false_2 (value = _)) by (intros ->; done). done.
  - rewrite !not_elem_of_cons in Hn. destruct Hn as (H1 & H2 & _). by rewrite !(bool_decide_eq_false_2 (text = _)).
Qed.

Lemma command_of_text c : command_of (command_text c) = Some c.
Proof. by destruct c; vm_compute. Qed.
Lemma command_of_inv s c : command_of s = Some c → s = command_text c.
Proof.
  unfold command_of. intros H. apply bind_Some in H as ([i c'] & H & [= ->]). by apply list_find_Some in H as (_ & -> & _).
Qed.
Lemma format_of_inv v f : format_of (Some v) = Some f → v = match f with mermaid => js "mermaid" | dot => js "dot" end.
Proof. unfold format_of. repeat case_bool_decide; intros [= <-]; done. Qed.

Definition asks_for_help (argv : list jsstr) : Prop := js "--help" ∈ argv ∨ js "-h" ∈ argv.
Definition asks_for_version (argv : list jsstr) : Prop := js "--version" ∈ argv ∨ js "-v" ∈ argv.

Lemma at_most_once n : (1 <? n)%nat = false → n = if (n =? 1)%nat then 1 else 0.
Proof. destruct n as [|[|n]]; [done..|]. by intros ?%Nat.ltb_ge; lia. Qed.

(** Without a request for help or the version, the parser interprets the tokens. *)
Lemma parse_spells argv ts :
  ¬ asks_for_help argv → ¬ asks_for_version argv → spells argv ts →
  parseArguments argv =
    if (1 <? flags JsonFlag ts)%nat then Err (usage_error (js "--json may be specified at most once"))
    else if (1 <? flags DryRunFlag ts)%nat then Err (usage_error (js "--dry-run may be specified at most once"))
    else interpret (flags JsonFlag ts =? 1)%nat (flags DryRunFlag ts =? 1)%nat
           (Scanned (last (formats ts)) (length (formats ts)) (operands ts)).
Proof.
  intros Hh Hv Hts. unfold asks_for_help, asks_for_version in *. unfold parseArguments, includes.
  rewrite !bool_decide_eq_false_2 by tauto. cbn [orb]. destruct (spells_count argv ts Hts) as [-> ->].
  rewrite (proj2 (scan_spells argv _ (collect ts (Scanned None 0 [])))) by (by exists ts).
  unfold collect. cbn [formatValue formatCount positionals app mbind result_bind]. rewrite Nat.add_0_l.
  by destruct (last (formats ts)).
Qed.

(** Decide the comparisons between literal commands and formats. *)
Ltac compare_literals :=
  repeat match goal with
  | |- context [@bool_decide ?P ?d] =>
      lazymatch P with context [@eq ?T _ _] => lazymatch T with CommandName => idtac | option VisualizationFormat => idtac end end;
      let b := eval vm_compute in (@bool_decide P d) in
      lazymatch b with true => idtac | false => idtac end;
      change (@bool_decide P d) with b; cbn beta iota match delta [andb]
  end.

#[local] Arguments format_of : simpl never.
Lemma not_an_option directory :
  starts_with (js "-") directory && bool_decide (directory ≠ js "-") = false →
  starts_with (js "-") directory = false ∨ directory = js "-".
Proof.
  rewrite andb_false_iff, bool_decide_eq_false. intros [H|H]; [by left|]. right. by apply dec_stable.
Qed.

(** An accepted command has the form of a usage line. *)
Ltac accept :=
  repeat match goal with |- (if ?b then Err _ else _) = _ → _ => destruct b eqn:?; [done|] end;
  intros [= <-]; split; [done|]; eexists; split_and!; [reflexivity|done|];
  cbn [parsed_command parsed_file parsed_format];
  first [ apply form_doctor | apply form_init
        | apply form_graph; [set_solver|by intros ->]
        | apply form_visualize; by intros ->
        | by apply form_init_directory, not_an_option
        | idtac ].

(** The forms of the usage text are exactly what is accepted. *)
Lemma interpret_forms json dryRun formats operands p :
  interpret json dryRun (Scanned (last formats) (length formats) operands) = Ok (Command p) ↔
  parsed_json p = json ∧ ∃ rest, operands = command_text (parsed_command p) :: rest ∧
    parsed_dryRun p = dryRun ∧
    usage_form (parsed_command p) rest dryRun formats (parsed_file p) (parsed_format p).
Proof.
  unfold interpret. cbn [formatValue formatCount positionals]. split.
  - destruct operands as [|raw rest]; [by case_match|]. cbn [head mbind option_bind tail].
    destruct (command_of raw) as [c|] eqn:Hc; [|by case_match]. apply command_of_inv in Hc as ->.
    destruct formats as [|v [|v' formats]]; [| |done]; cbn [length last].
    + destruct c, dryRun, rest as [|file [|file' rest]]; cbn; compare_literals; try done; accept.
    + destruct c, dryRun, rest as [|file [|file' rest]]; cbn; compare_literals; try done;
        destruct (format_of (Some v)) as [f|] eqn:Hf; compare_literals; try done; accept;
        apply format_of_inv in Hf as ->; destruct f; constructor; by intros ->.
  - intros (Hj & rest & -> & Hd & Hform). destruct p as [command file json' dryRun' format]. cbn in Hj, Hd, Hform. subst json' dryRun'.
    cbn [parsed_command parsed_file parsed_format head mbind option_bind tail]. rewrite command_of_text.
    destruct Hform as [command file Hc Hf|file Hf|file Hf|file Hf| |dryRun|directory dryRun Hs]; cbn; compare_literals.
    + rewrite (proj2 (Nat.eqb_neq (length file) 0)) by (by destruct file).
      rewrite !elem_of_cons in Hc. by destruct Hc as [->|[->|[->|[]%not_elem_of_nil]]].
    + by rewrite (proj2 (Nat.eqb_neq (length file) 0)) by (by destruct file).
    + by rewrite (proj2 (Nat.eqb_neq (length file) 0)) by (by destruct file).
    + by rewrite (proj2 (Nat.eqb_neq (length file) 0)) by (by destruct file).
    + done.
    + by destruct dryRun.
    + assert (starts_with (js "-") directory && bool_decide (directory ≠ js "-") = false) as ->.
      { apply andb_false_iff. destruct Hs as [Hs| ->]; [by left|by right]. }
      by destruct dryRun.
Qed.

(** The parser accepts the tokens of a usage line, and nothing else. *)
Lemma parse_command argv ts p :
  ¬ asks_for_help argv → ¬ asks_for_version argv → spells argv ts →
  parseArguments argv = Ok (Command p) ↔ denotes ts p.
Proof.
  intros Hh Hv Hts. rewrite (parse_spells argv ts Hh Hv Hts). unfold denotes.
  destruct (1 <? flags JsonFlag ts)%nat eqn:Ej.
  { split; [done|]. intros (E & _). apply Nat.ltb_lt in Ej. destruct (parsed_json p); lia. }
  destruct (1 <? flags DryRunFlag ts)%nat eqn:Ed.
  { split; [done|]. intros (_ & E & _). apply Nat.ltb_lt in Ed. destruct (parsed_dryRun p); lia. }
  apply at_most_once in Ej, Ed. rewrite interpret_forms.
  destruct (flags JsonFlag ts =? 1)%nat, (flags DryRunFlag ts =? 1)%nat, p as [c file [] [] format]; rewrite Ej, Ed; cbn;
    split; try (intros (?&?); lia); try (intros (?&?&?); lia); try (intros (?&?&?&?&?); done); naive_solver.
Qed.

Definition is_usage_error (e : CliError) : Prop := cli_code e = js "GECLI_USAGE" ∧ cli_exitCode e = input.
Lemma scan_error argv s e : scan argv s = Err e → is_usage_error e ∧ str_wf (cli_message e).
Proof.
  enough (H : ∀ n argv s, length argv ≤ n → scan argv s = Err e → e = usage_error (js "--format requires mermaid or dot")).
  { intros E. rewrite (H _ _ _ (le_n _) E). split; [done|apply js_wf]. }
  clear. intros n. induction n as [|n IH]; intros [|argument argv] s Hn H; cbn [scan length] in *; try done; [lia|].
  case_bool_decide; [eapply IH; [|exact H]; lia|]. case_bool_decide.
  - destruct argv as [|value argv]; [by injection H|]. destruct (starts_with _ value); [by injection H|].
    eapply IH; [|exact H]. cbn [length] in Hn. lia.
  - case_match; (eapply IH; [|exact H]; lia).
Qed.

Lemma default_wf (d : jsstr) o : str_wf d → when_present str_wf o → str_wf (default d o).
Proof. by destruct o. Qed.
Lemma head_tail_wf (l : list jsstr) : Forall str_wf l → when_present str_wf (head (tail l)).
Proof. destruct l as [|x [|y l]]; [done..|]. by intros [_ [H _]%Forall_cons]%Forall_cons. Qed.
#[local] Hint Resolve default_wf head_tail_wf : wf.

Lemma interpret_outcome json dryRun s :
  match interpret json dryRun s with
  | Ok (Command p) => True
  | Ok _ => False
  | Err e => is_usage_error e ∧
      (Forall str_wf (positionals s) → when_present str_wf (formatValue s) → str_wf (cli_message e))
  end.
Proof.
  assert (∀ m : jsstr, (Forall str_wf (positionals s) → when_present str_wf (formatValue s) → str_wf m) →
    is_usage_error (usage_error m) ∧
    (Forall str_wf (positionals s) → when_present str_wf (formatValue s) → str_wf (cli_message (usage_error m)))) as Hm by done.
  assert (∀ c, str_wf (command_text c)) as Hc by (intros []; apply js_wf).
  unfold interpret. cbv zeta.
  repeat match goal with
  | |- context [if ?b then _ else _] =>
      lazymatch type of b with bool => destruct b eqn:? | sumbool _ _ => fail end
  | |- match (match ?x with _ => _ end) with _ => _ end => destruct x eqn:?
  end; try done; apply Hm; intros Hp Hf; auto with wf.
Qed.

Lemma parse_help argv : asks_for_help argv → parseArguments argv = Ok Help.
Proof.
  intros H. unfold parseArguments. assert (includes "--help" argv || includes "-h" argv = true) as ->; [|done].
  unfold includes. by rewrite orb_true_iff, !bool_decide_eq_true.
Qed.
Lemma parse_version argv : ¬ asks_for_help argv → asks_for_version argv → parseArguments argv = Ok Version.
Proof.
  intros Hh Hv. unfold asks_for_help in Hh. unfold parseArguments, includes.
  rewrite (bool_decide_eq_false_2 (js "--help" ∈ argv)), (bool_decide_eq_false_2 (js "-h" ∈ argv)) by tauto. cbn [orb].
  assert (bool_decide (js "--version" ∈ argv) || bool_decide (js "-v" ∈ argv) = true) as ->; [|done].
  by rewrite orb_true_iff, !bool_decide_eq_true.
Qed.
(** What the parser returns when it is not asked for help or the version *)
Lemma parse_outcome argv :
  ¬ asks_for_help argv → ¬ asks_for_version argv →
  match parseArguments argv with
  | Ok (Command p) => ∃ ts, spells argv ts
  | Ok _ => False
  | Err e => is_usage_error e ∧ (Forall str_wf argv → str_wf (cli_message e))
  end.
Proof.
  intros Hh Hv. unfold asks_for_help, asks_for_version in *. unfold parseArguments, includes.
  rewrite !bool_decide_eq_false_2 by tauto. cbn [orb].
  destruct (1 <? count "--json" argv)%nat; [split; [done|]; intros; apply js_wf|].
  destruct (1 <? count "--dry-run" argv)%nat; [split; [done|]; intros; apply js_wf|].
  cbv zeta. destruct (scan argv (Scanned None 0 [])) as [s|e] eqn:Hs.
  - cbn [mbind result_bind]. pose proof (interpret_outcome (count "--json" argv =? 1)%nat (count "--dry-run" argv =? 1)%nat s) as H.
    destruct (interpret _ _ s) as [[p| |]|e]; [|done..|].
    + apply scan_spells in Hs as (ts & Hts & _). by exists ts.
    + destruct H as [Hu Hm]. split; [done|]. intros Ha.
      destruct (scan_wf argv (Scanned None 0 []) s Ha (Forall_nil_2 _) I Hs) as [Hp Hf]. by apply Hm.
  - destruct (scan_error _ _ _ Hs) as [Hu Hm]. by split.
Qed.

(** C26. The arguments of the command line are decided by a grammar.  A request for help
    wins over a request for the version, and both win over everything else.  Otherwise
    a command is returned exactly when the arguments spell the tokens of one of the
    usage lines, in any order, with each flag and [--format] at most once; the command
    is then determined.  Everything else is a usage error, with exit code 2. *)
Theorem parseArguments_grammar argv :
  match parseArguments argv with
  | Ok Help => asks_for_help argv
  | Ok Version => ¬ asks_for_help argv ∧ asks_for_version argv
  | Ok (Command p) => ¬ asks_for_help argv ∧ ¬ asks_for_version argv ∧
      ∃ ts, spells argv ts ∧ denotes ts p ∧ ∀ ts' p', spells argv ts' → denotes ts' p' → p' = p
  | Err e => ¬ asks_for_help argv ∧ ¬ asks_for_version argv ∧ is_usage_error e ∧
      ∀ ts p, spells argv ts → ¬ denotes ts p
  end.
Proof.
  destruct (decide (asks_for_help argv)) as [Hh|Hh]; [by rewrite parse_help|].
  destruct (decide (asks_for_version argv)) as [Hv|Hv]; [by rewrite parse_version|].
  pose proof (parse_outcome argv Hh Hv) as Hout.
  assert (∀ ts p, spells argv ts → denotes ts p → parseArguments argv = Ok (Command p)) as Hcommand
    by (intros ts p Hts Hp; by apply (parse_command argv ts p)).
  destruct (parseArguments argv) as [[p| |]|e] eqn:E; [|done..|].
  - destruct Hout as (ts & Hts). split_and!; [done..|]. exists ts. split_and!; [done|by apply (parse_command argv ts p)|].
    intros ts' p' Hts' Hp'. specialize (Hcommand _ _ Hts' Hp'). congruence.
  - destruct Hout as [Hu _]. do 3 (split; [done|]). intros ts p Hts Hp. by specialize (Hcommand _ _ Hts Hp).
Qed.

(** ** Machine mode and human mode *)

Lemma operands_wf argv ts : spells argv ts → Forall str_wf argv → Forall str_wf (operands ts).
Proof.
  induction 1; intros Ha; [constructor|..]; repeat (apply Forall_cons in Ha as [? Ha]); try (by apply IHspells).
  change (operands (Operand text :: ts)) with (text :: operands ts). constructor; [done|by apply IHspells].
Qed.

Lemma usage_form_file c rest dryRun fs file format :
  usage_form c rest dryRun fs file format → Forall str_wf rest → when_present str_wf file.
Proof. destruct 1; intros Hr; try done; try apply js_wf; by apply Forall_cons in Hr as [? _]. Qed.

(** The command a list of texts denotes: its file is a text, and its mode is the one
    that was requested. *)
Lemma parse_command_texts argv p :
  ¬ asks_for_help argv → ¬ asks_for_version argv → parseArguments argv = Ok (Command p) → Forall str_wf argv →
  parsed_json p = requestedJson argv ∧ when_present str_wf (parsed_file p).
Proof.
  intros Hh Hv E Ha. pose proof (parse_outcome argv Hh Hv) as Hout. rewrite E in Hout. destruct Hout as (ts & Hts).
  apply (parse_command argv ts p Hh Hv Hts) in E as (Hj & _ & rest & Hrest & Hform). split.
  - destruct (spells_count argv ts Hts) as [Hc _]. unfold requestedJson. rewrite Hj in Hc.
    destruct (includes "--json" argv) eqn:Hi.
    + apply count_includes in Hi. destruct (parsed_json p); [done|lia].
    + destruct (parsed_json p); [|done]. exfalso. unfold includes in Hi. apply bool_decide_eq_false in Hi. apply Hi.
      unfold count in Hc. destruct (filter (λ a, a = js "--json") argv) as [|a l] eqn:Ef; [done|].
      assert (a ∈ filter (λ a, a = js "--json") argv) as Hin by (rewrite Ef; left).
      by apply list_elem_of_filter in Hin as [-> ?].
  - pose proof (operands_wf argv ts Hts Ha) as Ho. rewrite Hrest in Ho. apply Forall_cons in Ho as [_ Ho].
    by eapply usage_form_file.
Qed.

Lemma parse_command_form argv p :
  parseArguments argv = Ok (Command p) →
  ∃ rest dry fs, usage_form (parsed_command p) rest dry fs (parsed_file p) (parsed_format p).
Proof.
  intros E. destruct (decide (asks_for_help argv)) as [Hh|Hh]; [by rewrite parse_help in E|].
  destruct (decide (asks_for_version argv)) as [Hv|Hv]; [by rewrite parse_version in E|].
  pose proof (parse_outcome argv Hh Hv) as Hout. rewrite E in Hout. destruct Hout as (ts & Hts).
  apply (parse_command argv ts p Hh Hv Hts) in E as (_ & _ & rest & _ & Hform). eauto.
Qed.

Section run.
Context (hash : jsstr → jsstr) (syntax_message : jsstr → jsstr).
Hypothesis hash_digest : ∀ s, printable (hash s).
Hypothesis syntax_wf : ∀ s, str_wf s → str_wf (syntax_message s).

Lemma emitCliError_failure e command json : emitCliError e command json = emit_failure (CliFailure e) command json.
Proof. done. Qed.

(** The output of every run, in the mode that was requested *)
Lemma run_says argv :
  ¬ asks_for_help argv → ¬ asks_for_version argv → Forall str_wf argv →
  says text_answer (run_output (requestedJson argv)) [] (run hash syntax_message argv).
Proof.
  intros Hh Hv Ha. unfold run. pose proof (parse_outcome argv Hh Hv) as Hout.
  destruct (parseArguments argv) as [[p| |]|e] eqn:E; [|done..|].
  - destruct (parse_command_texts argv p Hh Hv E Ha) as [<- Hf]. apply says_bind.
    eapply says_mono; [by apply run_command_says|]. intros h [c|f]; [done|]. intros [-> Hfail]. by apply emit_failure_says.
  - destruct Hout as [[Hc _] Hm]. rewrite emitCliError_failure. apply emit_failure_says. split; [|by apply Hm].
    rewrite Hc. apply js_wf.
Qed.

(** Help and version win over everything, --json included: usage and VERSION are printed,
    and nothing is looked at. *)
Lemma run_asked argv t c :
  asks_for_help argv ∨ asks_for_version argv → exec (run hash syntax_message argv) t c →
  output t = [(Stdout, terminated (if bool_decide (asks_for_help argv) then usage else VERSION))] ∧ c = success.
Proof.
  intros Hask Hexec.
  assert (parseArguments argv = Ok (if bool_decide (asks_for_help argv) then Help else Version)) as E.
  { case_bool_decide as Hh; [by apply parse_help|]. apply parse_version; tauto. }
  unfold run in Hexec. rewrite E in Hexec.
  case_bool_decide; by destruct Hexec as ([] & t' & -> & -> & ->).
Qed.

(** C27. In machine mode, whatever the environment answers, a run prints one text on
    standard output and nothing else.  Unless the arguments ask for help or for the
    version, it is one line, the JSON text of an envelope whose exit code is the code of
    the run and which has either data or an error; [JSON.parse] of the line gives the
    envelope back, with the data as [JSON.stringify] preserves it.  With --help or
    --version it is the usage or the version: no JSON, in spite of --json. *)
Theorem run_machine_mode argv t c :
  requestedJson argv = true → Forall str_wf argv →
  exec (run hash syntax_message argv) t c → Forall (good_event text_answer) t →
  if bool_decide (asks_for_help argv ∨ asks_for_version argv) then
    ∃ text, output t = [(Stdout, text)] ∧ c = success ∧
      text = terminated (if bool_decide (asks_for_help argv) then usage else VERSION) ∧ json_parse text = None
  else
    ∃ e, output t = [(Stdout, stringify (json_envelope e) ++ [10%N])] ∧ 10%N ∉ stringify (json_envelope e) ∧
      envelope_exitCode e = c ∧ (envelope_data e = None ↔ is_Some (envelope_error e)) ∧
      json_parse (stringify (json_envelope e)) = Some (json_envelope (envelope_read e)).
Proof.
  intros Hj Ha Hexec Ht. case_bool_decide as Hask.
  { apply run_asked in Hexec as [Hout ->]; [|done]. eexists. split_and!; [exact Hout|done..|]. by case_bool_decide. }
  assert (¬ asks_for_help argv ∧ ¬ asks_for_version argv) as [Hh Hv] by tauto.
  pose proof (says_exec _ _ _ _ _ _ (run_says argv Hh Hv Ha) Hexec Ht) as Hout.
  rewrite Hj in Hout. destruct Hout as (e & Hout & Hwf & Hc & Hd). exists e. apply tree_envelope in Hwf.
  split_and!; [done| |done|done|].
  - by apply clean_no_newline, stringify_clean.
  - by rewrite json_parse_stringify, stringified_envelope.
Qed.

(** C28. In human mode - also for help, for the version, and for errors - every
    character that a run prints is a line end or a character that no terminal takes for
    a control or for a change of the writing direction, whatever the files, the
    directory names, the arguments and the messages contain. *)
Theorem run_human_mode argv t c :
  requestedJson argv = false ∨ asks_for_help argv ∨ asks_for_version argv → Forall str_wf argv →
  exec (run hash syntax_message argv) t c → Forall (good_event text_answer) t →
  Forall (λ p, safe p.2) (output t).
Proof.
  intros Hmode Ha Hexec Ht.
  destruct (decide (asks_for_help argv ∨ asks_for_version argv)) as [Hask|Hask].
  - apply run_asked in Hexec as [-> _]; [|done]. constructor; [|constructor].
    case_bool_decide; apply terminated_safe, safe_lit; by vm_compute.
  - assert (¬ asks_for_help argv ∧ ¬ asks_for_version argv) as [Hh Hv] by tauto.
    pose proof (says_exec _ _ _ _ _ _ (run_says argv Hh Hv Ha) Hexec Ht) as Hout.
    assert (requestedJson argv = false) as Hj by tauto. by rewrite Hj in Hout.
Qed.
End run.

(** ** The exit code of a command that reads a graph *)

(** The first call of the run reads the file, or standard input for [-], and gives this
    text; [None] when it cannot be read. *)
Definition reads_source (file : jsstr) (e : event) (source : option jsstr) : Prop :=
  (file = js "-" ∧ ∃ r, e = Event ReadStdin r ∧
     source = match r with Ok chunks => Some (utf8_text (concat chunks)) | Err _ => None end) ∨
  (file ≠ js "-" ∧ ∃ r, e = Event (ReadFile file) r ∧
     source = match r with Ok bytes => Some (utf8_text bytes) | Err _ => None end).

(** What the exit code says of the text *)
Inductive verdict : option jsstr → CliExitCode → Prop :=
  | verdict_unreadable : verdict None input
  | verdict_not_json source : json_parse source = None → verdict (Some source) input
  | verdict_valid source j g :
      json_parse source = Some j → encodes j g → well_formed g → verdict (Some source) success
  | verdict_invalid source j :
      json_parse source = Some j → (∀ g, encodes j g → ¬ well_formed g) → verdict (Some source) invalidGraph.

(** A print on the stream that fits: errors and verdicts for a reader on standard error *)
Definition one_print (json : bool) (c : CliExitCode) (t : list event) : Prop :=
  ∃ text, t = [Event (Print (if json || bool_decide (c = success) then Stdout else Stderr) text) ()].

Section exit.
Context (hash : jsstr → jsstr) (syntax_message : jsstr → jsstr).

Lemma writeEnvelope_print command code data error t u : 
  exec (writeEnvelope command code data error) t u → ∃ text, t = [Event (Print Stdout text) ()].
Proof. intros ([] & t' & -> & -> & _). by eexists. Qed.

Lemma emit_failure_exit code message command json t c :
  exec (emit_failure (input_error code message) command json) t c → c = input ∧ one_print json input t.
Proof.
  cbn [emit_failure input_error]. unfold emitCliError. intros (t1 & t2 & u & -> & H & -> & ->)%exec_bind.
  split; [done|]. rewrite app_nil_r. unfold one_print. destruct json.
  - by apply writeEnvelope_print in H.
  - destruct H as ([] & t' & -> & -> & _). by eexists.
Qed.

(** A print and its exit code *)
Definition prints_on (s : stream) (p : prog ()) : Prop := ∃ text, p = ask (Print s text).
Lemma report_exit (json : bool) command code data p t r :
  prints_on (if bool_decide (code = success) then Stdout else Stderr) p →
  exec (print_and_return (if json then writeEnvelope command code data None else p) code) t r →
  r = Ok code ∧ one_print json code t.
Proof.
  intros [text ->]. unfold print_and_return. intros (t1 & t2 & u & -> & H & -> & ->)%exec_bind. split; [done|].
  rewrite app_nil_r. unfold one_print. destruct json.
  - by apply writeEnvelope_print in H.
  - destruct H as ([] & t' & -> & -> & _). by eexists.
Qed.

Lemma validation_prints file v :
  prints_on (if v_valid v then Stdout else Stderr) (printValidationHuman file v).
Proof. unfold printValidationHuman. destruct (v_valid v); by eexists. Qed.
Lemma compile_prints file v : prints_on (if v_valid v then Stdout else Stderr) (printCompileHuman file v).
Proof. unfold printCompileHuman. destruct (v_valid v) eqn:E; [by eexists|]. pose proof (validation_prints file v) as H. by rewrite E in H. Qed.

(** Reading the graph: the source, and the document or the failure *)
Lemma readGraph_exec file t r :
  exec (readGraph syntax_message file) t r →
  ∃ e source, t = [e] ∧ reads_source file e source ∧
    match r with
    | Ok j => ∃ text, source = Some text ∧ json_parse text = Some j
    | Err f => (source = None ∨ ∃ text, source = Some text ∧ json_parse text = None) ∧ ∃ code message, f = input_error code message
    end.
Proof.
  unfold readGraph. cbv zeta. intros (t1 & t2 & s & -> & H1 & H2)%exec_bind.
  assert (∃ e source, t1 = [e] ∧ reads_source file e source ∧
    match s with Ok text => source = Some text | Err f => source = None ∧ ∃ code message, f = input_error code message end)
    as (e & source & -> & Hr & Hs).
  { case_bool_decide as Hf; apply exec_bind in H1 as (t3 & t4 & a & -> & (x & t' & -> & -> & ->) & H1);
      destruct x as [bytes|err], H1 as [-> ->]; do 2 eexists; (split; [done|]);
      (split; [first [left; by eauto | right; by eauto]|]); eauto. }
  exists e, source. destruct s as [text|f].
  - destruct (json_parse text) as [j|] eqn:Hj; destruct H2 as [-> ->]; (split; [done|]); (split; [done|]); [by exists text|].
    split; [right; by exists text|by do 2 eexists].
  - destruct H2 as [-> ->], Hs as [-> Hf]. split_and!; [done..|by left|done].
Qed.
(** The source that was read is a text. *)
Lemma reads_source_wf file e text : reads_source file e (Some text) → good_event text_answer e → str_wf text.
Proof.
  intros [(_ & r & -> & E)|(_ & r & -> & E)] Hg; destruct r as [bytes|err]; try done; injection E as ->; cbn in Hg;
    apply utf8_text_wf; [by apply Forall_concat|done].
Qed.

(** The verdict on a document *)
Lemma document_verdict text j :
  str_wf text → json_parse text = Some j →
  verdict (Some text) (if v_valid (validateGraphDocument hash j) then success else invalidGraph).
Proof.
  intros Hw Hj. pose proof (compile_json_valid hash j (json_parse_ok text j Hw Hj)) as Hvalid.
  change (v_valid (validateGraphDocument hash j)) with (valid (compile_json hash j)).
  destruct (valid (compile_json hash j)).
  - destruct (proj1 Hvalid eq_refl) as (g & Hg & Hwf). by eapply verdict_valid.
  - apply (verdict_invalid text j Hj). intros g Hg Hwf. discriminate (proj2 Hvalid). by exists g.
Qed.

Lemma run_graph_exit p file t r :
  (parsed_command p = visualize → is_Some (parsed_format p)) →
  exec (run_graph hash syntax_message p file) t r → Forall (good_event text_answer) t →
  ∃ e source rest, t = e :: rest ∧ reads_source file e source ∧
    match r with
    | Ok c => verdict source c ∧ one_print (parsed_json p) c rest
    | Err f => rest = [] ∧ verdict source input ∧ ∃ code message, f = input_error code message
    end.
Proof.
  intros Hformat. unfold run_graph. intros (t1 & t2 & d & -> & H1 & H2)%exec_bind Ht.
  apply readGraph_exec in H1 as (e & source & -> & Hr & Hd). exists e, source, t2. split; [done|]. split; [done|].
  apply Forall_cons in Ht as [He _].
  destruct d as [j|f].
  2: { destruct H2 as [-> ->], Hd as [Hs Hf]. split_and!; [done| |done].
       destruct Hs as [->|(text & -> & Hs)]; [constructor|by constructor]. }
  destruct Hd as (text & -> & Hj). pose proof (reads_source_wf _ _ _ Hr He) as Hw.
  pose proof (document_verdict text j Hw Hj) as Hv. apply json_parse_ok in Hj; [|done]. cbv zeta in H2.
  set (v := validateGraphDocument hash j) in *. set (exitCode := if v_valid v then success else invalidGraph) in *.
  assert (∀ command data q, prints_on (if v_valid v then Stdout else Stderr) q →
    exec (print_and_return (if parsed_json p then writeEnvelope command exitCode data None else q) exitCode) t2 r →
    match r with
    | Ok c => verdict (Some text) c ∧ one_print (parsed_json p) c t2
    | Err f => t2 = [] ∧ verdict (Some text) input ∧ ∃ code message, f = input_error code message
    end) as Hreport.
  { intros command data q Hq Hexec. apply report_exit in Hexec as [-> Hprint]; [done|].
    unfold exitCode. by destruct (v_valid v). }
  assert (v_valid v = true → exitCode = success) as Hsuccess by (intros Hvalid; unfold exitCode; by rewrite Hvalid).
  pose proof (validation_prints file v) as Hp. destruct (parsed_command p) eqn:Hc.
  1: by eapply Hreport, H2.
  2: eapply Hreport, H2; apply compile_prints.
  all: destruct (v_valid v) eqn:Hvalid; [|by eapply Hreport, H2]; rewrite <- (Hsuccess eq_refl) in H2.
  2: { destruct (validateGraphDocument_valid hash j Hj Hvalid) as (g & _ & Hwf & Eg & _ & Eh & _). fold v in Eg, Eh.
       rewrite Eg, Eh in H2. destruct (Hformat eq_refl) as [format Ef]. rewrite Ef in H2.
       rewrite (visualizeGraph_lines format g (wf_references _ Hwf)) in H2. eapply Hreport, H2. by eexists. }
  all: destruct (planGraph_valid hash j Hj Hvalid) as (g & q & _ & Eg & Eq & _); fold v in Eg, Eq; rewrite Eg, Eq in H2;
    eapply Hreport, H2; by eexists.
Qed.

(** C29. A command that reads a graph - [validate], [plan], [compile] or [visualize] -
    makes two calls, whatever the environment: it reads its file, or standard input for
    [-], and prints once.  Its exit code is 0 exactly when the text is the JSON of a
    document that encodes a well-formed graph, 1 when it is JSON that does not, and 2
    when it cannot be read or is not JSON; no internal error is possible.  Errors and
    verdicts for a reader go to standard error, everything else to standard output. *)
Theorem graph_command_exit argv p file t c :
  parseArguments argv = Ok (Command p) → parsed_command p ∈ [validate; plan; compile; visualize] →
  parsed_file p = Some file →
  exec (run hash syntax_message argv) t c → Forall (good_event text_answer) t →
  ∃ e source rest, t = e :: rest ∧ reads_source file e source ∧ verdict source c ∧ one_print (parsed_json p) c rest.
Proof.
  intros Hparse Hcommand Hfile Hexec Ht. unfold run in Hexec. rewrite Hparse in Hexec.
  apply exec_bind in Hexec as (t1 & t2 & r & -> & H1 & H2). apply Forall_app in Ht as [Ht1 _].
  assert (exec (run_graph hash syntax_message p file) t1 r) as Hgraph.
  { unfold run_command in H1. rewrite Hfile in H1. rewrite !elem_of_cons in Hcommand.
    by destruct Hcommand as [E|[E|[E|[E|[]%not_elem_of_nil]]]]; rewrite E in H1. }
  apply run_graph_exit in Hgraph as (e & source & rest & -> & Hr & Hout); [| |done].
  - destruct r as [c'|f].
    + destruct H2 as [-> ->], Hout as [Hv Hp]. exists e, source, rest. by rewrite app_nil_r.
    + destruct Hout as (-> & Hv & code & message & ->). apply emit_failure_exit in H2 as [-> Hp].
      by exists e, source, t2.
  - intros Hc. destruct (parse_command_form argv p Hparse) as (rest' & dry & fs & Hform). rewrite Hc in Hform.
    inversion Hform as [? ? Hin|?|?|?| | |]; subst; try by eexists.
    by repeat (apply elem_of_cons in Hin as [Hin|Hin]; [done|]); apply not_elem_of_nil in Hin.
Qed.
End exit.

(** ** Sample runs *)

(** An environment with one graph, a working directory, and nothing else *)
Definition no_entry : sys_error := SysError (Some (js "ENOENT")) (js "ENOENT: no such file or directory").
Definition sample_environment (X : Type) (c : call X) : () → X * () :=
  match c in call X return () → X * () with
  | Print _ _ => λ w, (tt, w)
  | ReadFile file => λ w, (if bool_decide (file = js "g.json") then Ok (utf8_encode (stringify diamond_document)) else Err no_entry, w)
  | ReadStdin => λ w, (Ok [], w)
  | ReadAsset _ => λ w, (Err no_entry, w)
  | NodeVersion => λ w, (js "v20.1.0", w)
  | ImportCore => λ w, (Err no_entry, w)
  | ImportRuntime => λ w, (Ok NotARecord, w)
  | WorkingDirectory => λ w, ([js "home"], w)
  | Lstat _ => λ w, (Err no_entry, w)
  | Stat _ => λ w, (Err no_entry, w)
  | Readdir _ => λ w, (Err no_entry, w)
  | Mkdir _ => λ w, (Err no_entry, w)
  | Rmdir _ => λ w, (Err no_entry, w)
  | Unlink _ => λ w, (Err no_entry, w)
  | OpenExclusive _ => λ w, (Err no_entry, w)
  | HandleStat _ => λ w, (Err no_entry, w)
  | HandleWrite _ _ => λ w, (Err no_entry, w)
  | HandleSync _ => λ w, (Err no_entry, w)
  | HandleClose _ => λ w, (Err no_entry, w)
  end.
Definition sample_syntax_message (text : jsstr) : jsstr := js "Unexpected token".
Definition sample_run (argv : list jsstr) : prog CliExitCode := run zero_hash sample_syntax_message argv.
Definition sample_trace (argv : list jsstr) : list event := run_trace sample_environment (sample_run argv) ().

Lemma sample_texts :
  (∀ s, printable (zero_hash s)) ∧ (∀ s, str_wf s → str_wf (sample_syntax_message s)).
Proof. split; intros s; [|intros _; apply js_wf]. unfold zero_hash. by apply printable_lit. Qed.

Lemma sample_answers X c w : text_answer X c (sample_environment X c w).1.
Proof.
  assert (str_wf (error_message no_entry)) as He by apply js_wf.
  destruct c; cbn [sample_environment fst text_answer answer_text]; try done; try apply js_wf.
  - case_match; [|done]. apply (bool_decide_unpack _). vm_compute. exact I.
  - by repeat constructor.
Qed.
Lemma sample_exec argv : exec (sample_run argv) (sample_trace argv) (run_prog sample_environment (sample_run argv) ()).1.
Proof. apply exec_run. Qed.
Lemma sample_trace_good argv : Forall (good_event text_answer) (sample_trace argv).
Proof. apply run_trace_good, sample_answers. Qed.

Lemma run_machine_mode_witness :
  let argv := [js "validate"; js "g.json"; js "--json"] in
  (run_prog sample_environment (sample_run argv) ()).1 = success ∧
  ∃ e, output (sample_trace argv) = [(Stdout, stringify (json_envelope e) ++ [10%N])] ∧ envelope_exitCode e = success.
Proof.
  set (argv := [js "validate"; js "g.json"; js "--json"]). cbv zeta.
  assert ((run_prog sample_environment (sample_run argv) ()).1 = success) as Hc by (vm_compute; reflexivity).
  split; [exact Hc|]. pose proof (sample_exec argv) as Hexec. rewrite Hc in Hexec.
  assert (requestedJson argv = true) as Hj by (vm_compute; reflexivity).
  assert (Forall str_wf argv) as Ha by (apply (bool_decide_unpack _); vm_compute; exact I).
  pose proof (run_machine_mode zero_hash sample_syntax_message (proj1 sample_texts) (proj2 sample_texts) argv
    (sample_trace argv) success Hj Ha Hexec (sample_trace_good argv)) as H.
  assert (bool_decide (asks_for_help argv ∨ asks_for_version argv) = false) as Hask by (vm_compute; reflexivity).
  rewrite Hask in H. destruct H as (e & Hout & _ & He & _).
  exists e. split; [exact Hout|exact He].
Defined.

Lemma run_human_mode_witness :
  let argv := [js "visualize"; js "g.json"; js "--format=dot"] in
  (run_prog sample_environment (sample_run argv) ()).1 = success ∧ Forall (λ p, safe p.2) (output (sample_trace argv)).
Proof.
  set (argv := [js "visualize"; js "g.json"; js "--format=dot"]). cbv zeta.
  assert ((run_prog sample_environment (sample_run argv) ()).1 = success) as Hc by (vm_compute; reflexivity).
  split; [exact Hc|]. pose proof (sample_exec argv) as Hexec. rewrite Hc in Hexec.
  assert (requestedJson argv = false) as Hj by (vm_compute; reflexivity).
  assert (Forall str_wf argv) as Ha by (apply (bool_decide_unpack _); vm_compute; exact I).
  exact (run_human_mode zero_hash sample_syntax_message (proj1 sample_texts) (proj2 sample_texts) argv
    (sample_trace argv) success (or_introl Hj) Ha Hexec (sample_trace_good argv)).
Defined.

Lemma graph_command_exit_witness :
  let argv := [js "plan"; js "g.json"] in
  (run_prog sample_environment (sample_run argv) ()).1 = success ∧
  ∃ e source rest, sample_trace argv = e :: rest ∧ reads_source (js "g.json") e source ∧ verdict source success ∧
    one_print false success rest.
Proof.
  set (argv := [js "plan"; js "g.json"]). cbv zeta.
  assert ((run_prog sample_environment (sample_run argv) ()).1 = success) as Hc by (vm_compute; reflexivity).
  split; [exact Hc|]. pose proof (sample_exec argv) as Hexec. rewrite Hc in Hexec.
  set (p := Build_ParsedCommand plan (Some (js "g.json")) false false None).
  assert (parseArguments argv = Ok (Command p)) as Hp by (vm_compute; reflexivity).
  assert (parsed_command p ∈ [validate; plan; compile; visualize]) as Hin by (apply (bool_decide_unpack _); vm_compute; exact I).
  exact (graph_command_exit zero_hash sample_syntax_message argv p (js "g.json") (sample_trace argv) success Hp Hin eq_refl
    Hexec (sample_trace_good argv)).
Defined.
