(* ===== verification/DoctorSpec.v ===== *)
(** * What the doctor promises

    When each part of an installation is in order, that each check says so of its part,
    what is advised, and the exit code of the command. *)
From S2P Require Import Prelude JsString JsNumber JsValue JsonText JsonRoundTrip ParsedJson SchemaValidation Canonical.
From S2P Require Import GraphIR Compiler CompilerSpec CliValidation Utf8 Process Doctor.
From S2P Require Cli CliOutput CliSpec.
#[local] Arguments js : simpl never.

Section doctor.
Context (hash syntax_message : jsstr → jsstr).

(** A JSON document in an asset *)
Definition asset_document (a : answer (list N)) (j : json) : Prop :=
  ∃ bytes, a = Ok bytes ∧ json_parse (utf8_text bytes) = Some j.

(** The parts of an installation: Node.js 20 or newer, *)
Definition node_ok (version : jsstr) : Prop :=
  num_integer (parse_int (major_text version)) = true ∧ num_leb (num_of_Z 20) (parse_int (major_text version)) = true.
(** a schema that declares the API version, *)
Definition schema_ok (schema : answer (list N)) : Prop :=
  ∃ j properties declared, asset_document schema j ∧
    record_property (js "properties") j = Some properties ∧
    record_property (js "apiVersion") properties = Some declared ∧
    record_property (js "const") declared = Some (JStr API_VERSION).
(** the packages, with the function that is needed of each, *)
Definition package_ok {F} (package : answer (namespace F)) : Prop := ∃ f, package = Ok (Exports (Some f)).
(** and a fixture that is a graph and that the core, if it is there, compiles to the known
    hash. *)
Definition fixture_ok (fixture : answer (list N)) (core : answer (namespace compile_function)) : Prop :=
  ∃ j, asset_document fixture j ∧ record_property (js "kind") j = Some (JStr (js "Graph")) ∧
    ∀ compileGraph, core = Ok (Exports (Some compileGraph)) → compileGraph j = Ok (true, Some DIAMOND_HASH).

Section installation.
Context (version : jsstr) (schema fixture : answer (list N)) (core : answer (namespace compile_function))
  (runtime : answer (namespace ())).
(** What a check is about *)
Definition part_ok (id : DoctorCheckId) : Prop :=
  match id with
  | NodeVersionId => node_ok version
  | GraphSchemaId => schema_ok schema
  | DiamondFixtureId => fixture_ok fixture core
  | CoreId => package_ok core
  | RuntimeId => package_ok runtime
  end.
Definition sound : Prop := ∀ id, part_ok id.
End installation.

Lemma attempt_json_Ok a j : attempt_json syntax_message a = Ok j ↔ asset_document a j.
Proof.
  unfold attempt_json, asset_document. destruct a as [bytes|e].
  - destruct (json_parse (utf8_text bytes)) as [j'|] eqn:E.
    + split; [intros [= ->]; by exists bytes|]. intros (b & [= <-] & H). congruence.
    + split; [done|]. intros (b & [= <-] & H). congruence.
  - split; [done|]. by intros (b & ? & _).
Qed.

Lemma attempt_import_Ok {F} (a : answer (namespace F)) m : attempt_import a = Ok m ↔ a = Ok m.
Proof. unfold attempt_import. destruct a; naive_solver. Qed.

(** *** Each check passes exactly when its part is in order. *)

Lemma node_passed version : check_passed (nodeVersionCheck version) = true ↔ node_ok version.
Proof. unfold nodeVersionCheck, node_ok. cbv zeta. rewrite <- andb_true_iff. by destruct (_ && _). Qed.

Lemma schema_passed a : check_passed (schemaCheck (attempt_json syntax_message a)) = true ↔ schema_ok a.
Proof.
  unfold schemaCheck, schema_ok. setoid_rewrite <- attempt_json_Ok. destruct (attempt_json syntax_message a) as [j|m];
    [|split; [done|by intros (?&?&?&?&_)]]. cbv zeta. case_bool_decide as H; split; try done.
  - intros _. apply bind_Some in H as (properties & Hp & H). apply bind_Some in H as (declared & Hd & H). eauto 10.
  - intros (j' & properties & declared & [= <-] & Hp & Hd & Hc). exfalso. apply H. by rewrite Hp; cbn; rewrite Hd.
Qed.

Lemma core_passed a : check_passed (coreCheck (attempt_import a)) = true ↔ package_ok a.
Proof.
  unfold coreCheck, package_ok. setoid_rewrite <- attempt_import_Ok.
  destruct (attempt_import a) as [[|[f|]]|m]; cbn; (split; [|naive_solver]); try done. by exists f.
Qed.
Lemma runtime_passed a : check_passed (runtimeCheck (attempt_import a)) = true ↔ package_ok a.
Proof.
  unfold runtimeCheck, package_ok. setoid_rewrite <- attempt_import_Ok.
  destruct (attempt_import a) as [[|[f|]]|m]; cbn; (split; [|naive_solver]); try done. by exists f.
Qed.
Lemma fixture_passed a core :
  check_passed (fixtureCheck (attempt_json syntax_message a) (attempt_import core)) = true ↔ fixture_ok a core.
Proof.
  unfold fixtureCheck, fixture_ok. setoid_rewrite <- attempt_json_Ok. setoid_rewrite <- attempt_import_Ok.
  destruct (attempt_json syntax_message a) as [j|m']; [|split; [done|by intros (?&?&_)]].
  case_bool_decide as Hk; [|split; [done|by intros (?&[= <-]&?&_)]].
  destruct (attempt_import core) as [[|[f|]]|m]; cbn [coreCompiler]; try (split; [intros _; by exists j|done]).
  destruct (f j) as [[v h]|m] eqn:Ef.
  2: { split; [done|]. intros (?&[= <-]&_&H). by rewrite (H f eq_refl) in Ef. }
  destruct (v && bool_decide (h = Some DIAMOND_HASH)) eqn:E; split; try done.
  - intros _. apply andb_true_iff in E as [-> ->%bool_decide_eq_true]. exists j. split_and!; [done..|]. by intros g [= <-].
  - intros (j' & [= <-] & _ & H). specialize (H f eq_refl). rewrite Ef in H. injection H as -> ->. by rewrite bool_decide_eq_true_2 in E.
Qed.

Lemma check_ids version schema fixture core runtime :
  check_id <$> checks (doctor_report version schema fixture core runtime) =
  [NodeVersionId; GraphSchemaId; DiamondFixtureId; CoreId; RuntimeId].
Proof.
  assert (check_id (nodeVersionCheck version) = NodeVersionId) as E1 by (unfold nodeVersionCheck; cbv zeta; by case_match).
  assert (check_id (schemaCheck schema) = GraphSchemaId) as E2 by (unfold schemaCheck; by repeat case_match).
  assert (check_id (fixtureCheck fixture core) = DiamondFixtureId) as E3 by (unfold fixtureCheck; by repeat case_match).
  assert (check_id (coreCheck core) = CoreId) as E4 by (unfold coreCheck; by repeat case_match).
  assert (check_id (runtimeCheck runtime) = RuntimeId) as E5 by (unfold runtimeCheck; by repeat case_match).
  cbn [checks doctor_report fmap list_fmap]. by rewrite E1, E2, E3, E4, E5.
Qed.

(** *** The report *)

(** The advice for an installation whose parts are as [P] says *)
Definition node_advice : jsstr := js "Install Node.js 20 or newer and rerun graph doctor.".
Definition asset_advice : jsstr := js "Reinstall @graph-engineering/cli so its bundled Graph IR assets are restored.".
Definition package_advice : jsstr :=
  js "Reinstall package dependencies and rebuild @graph-engineering/core and @graph-engineering/runtime.".
Definition advises (P : DoctorCheckId → Prop) (advice : list jsstr) : Prop :=
  advice `sublist_of` [node_advice; asset_advice; package_advice] ∧
  (node_advice ∈ advice ↔ ¬ P NodeVersionId) ∧
  (asset_advice ∈ advice ↔ ¬ (P GraphSchemaId ∧ P DiamondFixtureId)) ∧
  (package_advice ∈ advice ↔ ¬ (P CoreId ∧ P RuntimeId)).

Lemma remediations_advise l (P : DoctorCheckId → Prop) :
  check_id <$> l = [NodeVersionId; GraphSchemaId; DiamondFixtureId; CoreId; RuntimeId] →
  Forall (λ item, check_passed item = true ↔ P (check_id item)) l →
  (forallb check_passed l = true ↔ ∀ id, P id) ∧ advises P (remediations l) ∧ (remediations l = [] ↔ forallb check_passed l = true).
Proof.
  intros H HP. destruct l as [|[i1 b1 s1 d1] [|[i2 b2 s2 d2] [|[i3 b3 s3 d3] [|[i4 b4 s4 d4] [|[i5 b5 s5 d5] [|]]]]]]; try done.
  cbn in H. injection H as -> -> -> -> ->. rewrite !Forall_cons in HP. cbn in HP. destruct HP as (H1 & H2 & H3 & H4 & H5 & _).
  assert (∀ a b : jsstr, bool_decide (a = b) = false → a ≠ b) as Hne by (intros a b E; by apply bool_decide_eq_false in E).
  pose proof (Hne node_advice asset_advice eq_refl). pose proof (Hne node_advice package_advice eq_refl).
  pose proof (Hne asset_advice package_advice eq_refl).
  assert (remediations [Build_DoctorCheck NodeVersionId b1 s1 d1; Build_DoctorCheck GraphSchemaId b2 s2 d2;
      Build_DoctorCheck DiamondFixtureId b3 s3 d3; Build_DoctorCheck CoreId b4 s4 d4; Build_DoctorCheck RuntimeId b5 s5 d5] =
    (if b1 then [] else [node_advice]) ++ (if b2 && b3 then [] else [asset_advice]) ++ (if b4 && b5 then [] else [package_advice]))
    as -> by (by destruct b1, b2, b3, b4, b5).
  split; [|split].
  - cbn. rewrite !andb_true_iff, H1, H2, H3, H4, H5. split; [intros ? []; tauto|]. intros Hall. split_and!; by try apply Hall.
  - unfold advises. rewrite <- H1, <- H2, <- H3, <- H4, <- H5, <- !andb_true_iff, !elem_of_app.
    split; [destruct b1, (b2 && b3), (b4 && b5); cbn; by repeat constructor|].
    destruct b1, (b2 && b3), (b4 && b5); rewrite ?elem_of_nil, ?list_elem_of_singleton; intuition congruence.
  - cbn. by destruct b1, b2, b3, b4, b5.
Qed.

Section report.
Context (version : jsstr) (schema fixture : answer (list N)) (core : answer (namespace compile_function))
  (runtime : answer (namespace ())).
Abbreviation report := (doctor_report version (attempt_json syntax_message schema) (attempt_json syntax_message fixture)
  (attempt_import core) (attempt_import runtime)).
Abbreviation in_order := (part_ok version schema fixture core runtime).

(** The checks, one for each part, say whether the part is in order. *)
Lemma report_checks :
  check_id <$> checks report = [NodeVersionId; GraphSchemaId; DiamondFixtureId; CoreId; RuntimeId] ∧
  Forall (λ item, check_passed item = true ↔ in_order (check_id item)) (checks report).
Proof.
  split; [apply check_ids|].
  pose proof (check_ids version (attempt_json syntax_message schema) (attempt_json syntax_message fixture)
    (attempt_import core) (attempt_import runtime)) as H. cbn [checks doctor_report fmap list_fmap] in H |- *.
  injection H as E1 E2 E3 E4 E5. rewrite !Forall_cons, Forall_nil, E1, E2, E3, E4, E5. cbn [part_ok].
  split_and!; [apply node_passed|apply schema_passed|apply fixture_passed|apply core_passed|apply runtime_passed|done].
Qed.
End report.

(** C30. [graph doctor] looks at five things and touches nothing: its trace is the two
    assets, the two imports, the version, and one print.  It reports one check for each
    part of the installation, which passes exactly when the part is in order, and is
    healthy exactly when all are.  Its advice is at most three different lines: one for
    Node.js, one for the bundled assets (schema, fixture) and one for the packages (core,
    runtime), each there exactly when a check of its group fails - so a line may stand
    for two failing checks.  The exit code is 0 or 3 accordingly. *)
Theorem doctor_sound argv p t c :
  Cli.parseArguments argv = Ok (Cli.Command p) → Cli.parsed_command p = Cli.doctor →
  exec (Cli.run hash syntax_message argv) t c →
  ∃ schema fixture core runtime version stream text,
    t = [Event (ReadAsset GraphSchemaAsset) schema; Event (ReadAsset DiamondFixture) fixture;
         Event ImportCore core; Event ImportRuntime runtime; Event NodeVersion version;
         Event (Print stream text) ()] ∧
    let report := doctor_report version (attempt_json syntax_message schema) (attempt_json syntax_message fixture)
                    (attempt_import core) (attempt_import runtime) in
    check_id <$> checks report = [NodeVersionId; GraphSchemaId; DiamondFixtureId; CoreId; RuntimeId] ∧
    Forall (λ item, check_passed item = true ↔ part_ok version schema fixture core runtime (check_id item)) (checks report) ∧
    (healthy report = true ↔ sound version schema fixture core runtime) ∧
    advises (part_ok version schema fixture core runtime) (report_remediations report) ∧
    (report_remediations report = [] ↔ healthy report = true) ∧
    c = if healthy report then Cli.success else Cli.unhealthy.
Proof.
  intros Hparse Hdoctor Hexec. unfold Cli.run in Hexec. rewrite Hparse in Hexec.
  apply exec_bind in Hexec as (t1 & t2 & r & -> & H1 & H2). unfold Cli.run_command in H1. rewrite Hdoctor in H1.
  apply exec_bind in H1 as (t3 & t4 & report & -> & H3 & H4).
  destruct H3 as (schema & ? & -> & fixture & ? & -> & core & ? & -> & runtime & ? & -> & version & ? & -> & -> & ->).
  apply exec_bind in H4 as (t5 & t6 & u & -> & H5 & -> & ->). destruct H2 as [-> ->].
  assert (∃ stream text, t5 = [Event (Print stream text) ()]) as (stream & text & ->).
  { destruct (Cli.parsed_json p); destruct H5 as ([] & ? & -> & -> & _); by do 2 eexists. }
  exists schema, fixture, core, runtime, version, stream, text. split; [done|]. cbv zeta.
  destruct (report_checks version schema fixture core runtime) as [Hids Hparts].
  destruct (remediations_advise _ _ Hids Hparts) as (Hh & Ha & Hn). split_and!; try done; apply Hn.
Qed.
End doctor.

(** A sound installation *)
Definition sound_schema_document : json :=
  JObj [(js "$id", JStr (js "urn:graph-schema")); (js "properties", JObj [(js "apiVersion", JObj [(js "const", JStr API_VERSION)])])].
Definition sound_environment (X : Type) (c : call X) : () → X * () :=
  match c in call X return () → X * () with
  | ReadAsset a => λ w,
      (Ok (Utf8.utf8_encode (Stringify.stringify
         match a with GraphSchemaAsset => sound_schema_document | _ => diamond_document end)), w)
  | ImportCore => λ w, (Ok (Exports (Some (λ _, Ok (true, Some DIAMOND_HASH)))), w)
  | ImportRuntime => λ w, (Ok (Exports (Some tt)), w)
  | c => CliSpec.sample_environment _ c
  end.

Lemma doctor_sound_witness :
  let argv := [js "doctor"] in
  let m := CliSpec.sample_run argv in
  (run_prog sound_environment m ()).1 = Cli.success ∧
  ∃ schema fixture core runtime version, sound version schema fixture core runtime ∧
    Event (ReadAsset GraphSchemaAsset) schema ∈ run_trace sound_environment m ().
Proof.
  cbv zeta. set (argv := [js "doctor"]).
  assert ((run_prog sound_environment (CliSpec.sample_run argv) ()).1 = Cli.success) as Hc by (vm_compute; reflexivity).
  split; [exact Hc|]. pose proof (exec_run sound_environment (CliSpec.sample_run argv) ()) as Hexec. rewrite Hc in Hexec.
  set (p := Cli.Build_ParsedCommand Cli.doctor None false false None).
  assert (Cli.parseArguments argv = Ok (Cli.Command p)) as Hp by (vm_compute; reflexivity).
  destruct (doctor_sound zero_hash CliSpec.sample_syntax_message argv p _ _ Hp eq_refl Hexec)
    as (schema & fixture & core & runtime & version & stream & text & Ht & _ & _ & Hs & _ & _ & Hexit).
  exists schema, fixture, core, runtime, version. split.
  - apply Hs. destruct (healthy _); [reflexivity|discriminate Hexit].
  - rewrite Ht. left.
Defined.
