(* ===== verification/InitDisk.v ===== *)
(** * Safe initialization on a disk

    What a run of [initializeGraphProject] leaves on the disk of [Disk] when at most one
    of its calls fails.  The lemmas follow the functions of [Init]: each says what the
    function returns and what the entries are then, with the failure spent or not: the
    directories and their cleanup, the inspection of the target with the error it
    reports, the way to a missing target, and the creation of the file. *)
From S2P Require Import Prelude JsString JsNumber JsValue JsonText Utf8 Stringify Compiler CliValidation Process Disk Init.
#[local] Arguments js : simpl never.
#[local] Open Scope async_scope.

(** An error with a code of its own *)
Definition init_error (code : jsstr) (e : thrown) : Prop := ∃ message, e = InitError code message.
Lemma init_error_intro code message : init_error code (InitError code message).
Proof. by eexists. Qed.

(** ** Directories that a run has made *)

Definition empty_entry (s : Stats) : entry := Entry s (Err ENOENT) [].

(** The entries after the directories were made one below the other in [es0] *)
Inductive grown (es0 : gmap path entry) : list OwnedDirectory → gmap path entry → Prop :=
  | grown_nil : grown es0 [] es0
  | grown_snoc made es p s parent i :
      grown es0 made es → es !! p = Some parent → through parent = Ok () → es !! (p ++ [s]) = None →
      (∀ o, last made = Some o → owned_path o = p) → type i = DirectoryFile →
      grown es0 (made ++ [Build_OwnedDirectory (p ++ [s]) i]) (<[p ++ [s] := empty_entry i]> es).

Section grown.
Context (es0 : gmap path entry) (Hok : disk_ok es0).

Lemma grown_ok made es : grown es0 made es → disk_ok es.
Proof using Hok. induction 1; [done|]. by eapply disk_ok_insert. Qed.
Lemma grown_old made es p e : grown es0 made es → es0 !! p = Some e → es !! p = Some e.
Proof. intros H Hp. induction H; [done|]. rewrite lookup_insert_ne; [done|]. intros E. congruence. Qed.
Lemma grown_new made es p e :
  grown es0 made es → es !! p = Some e →
  es0 !! p = Some e ∨ ∃ i, Build_OwnedDirectory p i ∈ made ∧ e = empty_entry i ∧ es0 !! p = None.
Proof.
  intros H. induction H as [|made es q s parent i H IH Hq Ht Hn Hl Hi]; [by left|].
  destruct (decide (q ++ [s] = p)) as [<-|Hne].
  - rewrite lookup_insert_eq. intros [= <-]. right. exists i. split; [apply elem_of_app; right; left|]. split; [done|].
    destruct (es0 !! (q ++ [s])) as [e|] eqn:E; [|done]. apply (grown_old made es) in E; [congruence|done].
  - rewrite lookup_insert_ne by done. intros He. destruct (IH He) as [|(j & Hj & ? & ?)]; [by left|].
    right. exists j. split; [apply elem_of_app; by left|done].
Qed.
Lemma grown_made made es o :
  grown es0 made es → o ∈ made → es !! owned_path o = Some (empty_entry (owned_identity o)) ∧
    es0 !! owned_path o = None ∧ type (owned_identity o) = DirectoryFile.
Proof.
  intros H. induction H as [|made es q s parent i H IH Hq Ht Hn Hl Hi]; [by intros ?%not_elem_of_nil|].
  intros [Ho| ->%list_elem_of_singleton]%elem_of_app.
  - destruct (IH Ho) as (He & H0 & Hd). split_and!; [|done..]. rewrite lookup_insert_ne; [done|]. intros E. congruence.
  - cbn [owned_path owned_identity]. rewrite lookup_insert_eq. split_and!; [done| |done].
    destruct (es0 !! (q ++ [s])) as [e|] eqn:E; [|done]. apply (grown_old made es) in E; [congruence|done].
Qed.
End grown.

(** ** Cleanup, with no failure left *)

Lemma sameIdentity_refl s : sameIdentity s s = true.
Proof. unfold sameIdentity. by rewrite !N.eqb_refl. Qed.
Lemma unchanged_directory s : type s = DirectoryFile → isSymbolicLink s || negb (isDirectory s) || negb (sameIdentity s s) = false.
Proof. unfold isSymbolicLink, isDirectory. intros ->. by rewrite sameIdentity_refl. Qed.
Lemma unchanged_file s : type s = RegularFile → isSymbolicLink s || negb (isFile s) || negb (sameIdentity s s) = false.
Proof. unfold isSymbolicLink, isFile. intros ->. by rewrite sameIdentity_refl. Qed.

(** One directory of the loop, when it is there: it is removed if it is empty. *)
Lemma remove_one_under {Q : () → nat → disk → Prop} o rest d :
  disk_ok (entries d) → entries d !! owned_path o = Some (empty_entry (owned_identity o)) →
  type (owned_identity o) = DirectoryFile →
  (names (entries d) (owned_path o) = [] →
   under 0 Q (remove_directories rest) (set_entries (delete (owned_path o) (entries d)) d)) →
  (names (entries d) (owned_path o) ≠ [] → under 0 Q (remove_directories rest) d) →
  under 0 Q (remove_directories (o :: rest)) d.
Proof.
  intros Hok Ho Ht Hempty Hfull. cbn [remove_directories]. apply under_lstat; [done| |].
  - intros e He. rewrite Ho in He. injection He as <-. cbn [entry_stats empty_entry]. rewrite unchanged_directory by done.
    apply under_ask; [|done]. cbn [perform]. unfold remove_directory. rewrite (find_some _ Hok _ _ Ho).
    cbn [entry_stats empty_entry]. rewrite bool_decide_eq_true_2 by done. cbn [negb].
    destruct (names (entries d) (owned_path o)) as [|s l]; cbn [length Nat.ltb Nat.leb fst snd]; auto.
  - intros n' x [(_ & Hnone & _)|]; [congruence|done].
Qed.

Lemma remove_directories_under es0 made d :
  disk_ok es0 → grown es0 made (entries d) → under 0 (λ _ _ d', entries d' = es0) (remove_directories (rev made)) d.
Proof.
  intros Hok H. remember (entries d) as es eqn:E. revert d E.
  induction H as [|made es p s parent i H IH Hp Ht Hn Hl Hi]; intros d E; [done|].
  pose proof (grown_ok _ Hok _ _ H) as Hes. rewrite rev_unit. apply remove_one_under; rewrite <- ?E.
  - by eapply disk_ok_insert.
  - apply lookup_insert_eq.
  - done.
  - intros _. apply IH. cbn [entries set_entries owned_path]. by rewrite delete_insert_id.
  - intros Hne. destruct Hne. apply names_nil. intros t. cbn [owned_path].
    rewrite lookup_insert_ne by apply snoc_neq. by apply absent_child.
Qed.

(** With something left in the deepest directory, nothing is removed. *)
Lemma keep_directories_under es0 made es d :
  disk_ok es0 → disk_ok (entries d) → grown es0 made es → es ⊆ entries d →
  (∀ o, last made = Some o → names (entries d) (owned_path o) ≠ []) →
  under 0 (λ _ _ d', d' = d) (remove_directories (rev made)) d.
Proof.
  intros Hok Hd H. induction H as [|made es p s parent i H IH Hp Ht Hn Hl Hi]; intros Hsub Hfull; [done|].
  assert (entries d !! (p ++ [s]) = Some (empty_entry i)) as Hps by (eapply lookup_weaken; [apply lookup_insert_eq|done]).
  rewrite rev_unit. apply remove_one_under; [done..| |].
  - intros E. destruct (Hfull (Build_OwnedDirectory (p ++ [s]) i)); [by rewrite last_snoc|done].
  - intros _. apply IH.
    + etrans; [|exact Hsub]. by apply insert_subseteq.
    + intros o Ho E. rewrite (Hl _ Ho) in E. assert (s ∈ names (entries d) p) as Hin by (apply elem_of_names; by eexists).
      rewrite E in Hin. by apply not_elem_of_nil in Hin.
Qed.

Lemma cleanup_under {A} n es0 made created e d :
  disk_ok es0 → grown es0 made (entries d) → (n = 0 ∧ created = made ∨ created = [] ∧ made = []) →
  under n (λ (r : result thrown A) n' d', n' = n ∧ r = Err e ∧ entries d' = es0) (cleanup_and_throw created e) d.
Proof.
  intros Hok H Hcases. unfold cleanup_and_throw, cleanupCreatedDirectories. apply under_bind.
  destruct Hcases as [[-> ->]|[-> ->]].
  - eapply under_mono; [apply under_budget; by apply remove_directories_under|].
    intros a n' d' [Hn HQ]. split_and!; [lia|done..].
  - inversion H as [E|made]; [|by destruct made]. by cbn.
Qed.

(** ** The directories *)

Section directories.
Context (target : path).

(** Each path is that of an entry in the one before, from [p] to the target. *)
Fixpoint consecutive (p : path) (missing : list path) : Prop :=
  match missing with
  | [] => p = target
  | q :: rest => (∃ s, q = p ++ [s]) ∧ consecutive q rest
  end.
Lemma consecutive_prefix p missing : consecutive p missing → p `prefix_of` target.
Proof.
  revert p. induction missing as [|q missing IH]; intros p; cbn [consecutive]; [by intros ->|].
  intros [[s ->] H]. etrans; [by apply prefix_app_r|by apply IH].
Qed.

Lemma inspect_ancestor_under n candidate link d :
  disk_ok (entries d) →
  under n (λ r _ d', d' = d ∧ (r = Ok () → ∃ e, entries d !! candidate = Some e ∧ through e = Ok () ∧
    (link ≠ None → is_directory e))) (inspect_ancestor target candidate link) d.
Proof.
  intros Hok. unfold inspect_ancestor. apply under_bind, under_bind, under_lstat; [done| |by intros n' x _].
  intros e He. cbn [under returns]. unfold isSymbolicLink, isDirectory. case_bool_decide as Hlink.
  - destruct link as [link|]; [done|]. apply under_bind, under_bind. eapply under_look; [apply stat_looks| |by intros].
    rewrite (find_some _ Hok _ _ He). csimpl. destruct (follow e) as [s|x] eqn:Ef; cbn [under returns throws]; [|done].
    case_bool_decide as Hs; cbn [under returns throws]; [|done]. split; [done|]. intros _. exists e.
    split_and!; [done| |done]. unfold through. by rewrite Ef, bool_decide_eq_true_2.
  - case_bool_decide as Hd; cbn [under returns throws]; [|done]. split; [done|]. intros _. exists e.
    split_and!; [done| |done]. by apply directory_through.
Qed.

Lemma find_missing_under n up missing d :
  disk_ok (entries d) → consecutive (rev up) missing →
  under n (λ r _ d', d' = d ∧ ∀ l, r = Ok l → ∃ p e, entries d !! p = Some e ∧ through e = Ok () ∧
    consecutive p l ∧ (l = [] → is_directory e)) (find_missing target up missing) d.
Proof.
  intros Hok. revert n missing. induction up as [|s up IH]; intros n missing Hc; cbn [find_missing]; apply under_bind;
    (eapply under_mono; [by apply inspect_ancestor_under|]); intros r n' d' [-> Hr]; destruct r as [[]|[code m|e]]; try done.
  1, 3: cbn [under returns]; split; [done|]; intros l [= <-]; destruct (Hr eq_refl) as (e & He & Ht & Hd);
    eexists; exists e; split; [exact He|]; split; [exact Ht|]; split; [exact Hc|]; intros ->; apply Hd;
    rewrite bool_decide_eq_true_2 by exact Hc; done.
  - by destruct (bool_decide (error_code e = _)).
  - destruct (bool_decide (error_code e = _)); [|done]. apply IH. split; [by exists s|done].
Qed.

(** Nothing is below the directory made last. *)
Lemma grown_last es0 made es o s :
  disk_ok es0 → grown es0 made es → last made = Some o → es !! (owned_path o ++ [s]) = None.
Proof.
  intros Hok H. inversion H as [|made' es' p t parent i H' Hp Ht Hn Hl Hi E]; [done|]. rewrite last_snoc.
  intros [= <-]. cbn [owned_path]. rewrite lookup_insert_ne by apply snoc_neq. apply absent_child; [|done].
  by eapply grown_ok.
Qed.

(** The directories made so far: on the way to the target, the last one the current one *)
Record progress (es0 : gmap path entry) (made : list OwnedDirectory) (p : path) (es : gmap path entry) : Prop := {
  progress_grown : grown es0 made es;
  progress_last : ∀ o, last made = Some o → owned_path o = p;
  progress_way : Forall (λ o, owned_path o `prefix_of` target) made
}.
(** What is owned is what was made, unless a failure is spent. *)
Definition accounted (n : nat) (created made : list OwnedDirectory) : Prop := created = made ∨ n = 0 ∧ made ≠ [].

(** The failure that leaves directories behind: right after one was made *)
Definition left_directories (es0 es : gmap path entry) : Prop :=
  ∃ made, made ≠ [] ∧ grown es0 made es ∧ Forall (λ o, owned_path o `prefix_of` target) made.

Lemma progress_ok es0 made p es : disk_ok es0 → progress es0 made p es → disk_ok es.
Proof. intros Hok []. by eapply grown_ok. Qed.
(** An entry below the current directory is one of before, and nothing was made yet. *)
Lemma progress_old es0 made p es s :
  disk_ok es0 → progress es0 made p es → is_Some (es !! (p ++ [s])) → made = [] ∧ es = es0.
Proof.
  intros Hok [Hg Hl _] [e He]. destruct (last made) as [o|] eqn:E.
  - rewrite <- (Hl o eq_refl) in He. rewrite (grown_last _ _ _ _ s Hok Hg E) in He. done.
  - apply last_None in E as ->. split; [done|]. inversion Hg as [|made]; [done|]. by destruct made.
Qed.
Lemma progress_more es0 made p es s parent i :
  progress es0 made p es → es !! p = Some parent → through parent = Ok () → es !! (p ++ [s]) = None →
  p ++ [s] `prefix_of` target → type i = DirectoryFile →
  progress es0 (made ++ [Build_OwnedDirectory (p ++ [s]) i]) (p ++ [s]) (<[p ++ [s] := empty_entry i]> es).
Proof.
  intros [Hg Hl Hw] Hp Ht Hn Hpre Hi. split.
  - by eapply grown_snoc.
  - intros o. rewrite last_snoc. by intros [= <-].
  - apply Forall_app. split; [done|]. by apply Forall_singleton.
Qed.
Lemma progress_down es0 p q es : es0 = es → progress es0 [] p es → progress es0 [] q es.
Proof. intros -> [Hg _ _]. by split. Qed.
Lemma accounted_more n created made o : accounted n created made → accounted n (created ++ [o]) (made ++ [o]).
Proof. intros [->|[-> Hne]]; [by left|]. right. split; [done|]. by destruct made. Qed.

Definition directories_made (es0 : gmap path entry) (n : nat) (created : list OwnedDirectory) (d : disk) : Prop :=
  ∃ made e, progress es0 made target (entries d) ∧ accounted n created made ∧
    entries d !! target = Some e ∧ is_directory e.
(** What a run that ended in an error leaves: nothing, or else a failure was spent *)
Definition directories_failed (es0 : gmap path entry) (n n' : nat) (d : disk) : Prop :=
  entries d = es0 ∨ n' < n ∧ left_directories es0 (entries d).
(** The only reason without a failure: something that is no directory is in the way. *)
Definition in_the_way (es0 : gmap path entry) (missing : list path) (x : thrown) : Prop :=
  (∃ q, q ∈ missing ∧ is_Some (es0 !! q)) ∧ init_error (js "GECLI_INIT_CREATE_DIRECTORY") x.
Definition created_directories (es0 : gmap path entry) (n : nat) (missing : list path)
    (r : result thrown (list OwnedDirectory)) (n' : nat) (d : disk) : Prop :=
  match r with
  | Ok created => directories_made es0 n' created d
  | Err x => directories_failed es0 n n' d ∧ (n' < n ∨ in_the_way es0 missing x)
  end.

Lemma created_directories_mono es0 n n' q missing r k d :
  n' ≤ n → created_directories es0 n' missing r k d → created_directories es0 n (q :: missing) r k d.
Proof.
  intros Hn. destruct r; [done|]. intros [Hf Hw]. split.
  - destruct Hf as [E|[Hk H]]; [by left|right]. split; [lia|done].
  - destruct Hw as [?|[(q' & Hq & ?) ?]]; [left; lia|right]. split; [|done]. exists q'. split; [by right|done].
Qed.

(** Giving up with everything accounted for *)
Lemma give_up_under es0 n n' missing created made p e d :
  disk_ok es0 → progress es0 made p (entries d) → accounted n created made → n ≤ 1 →
  (n' < n ∨ n' ≤ n ∧ made = [] ∧ in_the_way es0 missing e) →
  under n' (created_directories es0 n missing) (cleanup_and_throw created e) d.
Proof.
  intros Hok Hp Ha Hn Hcases. assert (created = made ∧ (n' = 0 ∨ made = [])) as [-> Hn'].
  { destruct Ha as [->|[-> Hne]]; [split; [done|]|destruct Hcases as [|(_ & ? & _)]; [lia|done]].
    destruct Hcases as [|(_ & ? & _)]; [left; lia|by right]. }
  eapply under_mono; [eapply (cleanup_under n' es0 made made)|]; [done|by destruct Hp| |].
  - destruct Hn' as [->| ->]; [by left|by right].
  - intros r k d' (-> & -> & E). split; [by left|]. destruct Hcases as [?|(_ & _ & ?)]; [by left|by right].
Qed.

(** The look at a directory just made fails: everything made so far stays. *)
Lemma failed_after_mkdir es0 missing made created p s parent i e d d' :
  disk_ok es0 → progress es0 made p (entries d) → accounted 1 created made →
  entries d !! p = Some parent → through parent = Ok () → entries d !! (p ++ [s]) = None →
  p ++ [s] `prefix_of` target → entries d' = <[p ++ [s] := empty_entry i]> (entries d) → type i = DirectoryFile →
  under 0 (created_directories es0 1 missing) (cleanup_and_throw created e) d'.
Proof.
  intros Hok Hprog Ha Hp Ht Hnew Hpre E Hi. destruct Ha as [->|[? _]]; [|done].
  pose proof (progress_ok _ _ _ _ Hok Hprog) as Hd. pose proof (progress_grown _ _ _ _ Hprog) as Hg.
  unfold cleanup_and_throw, cleanupCreatedDirectories. apply under_bind. eapply under_mono.
  - apply under_budget. eapply keep_directories_under; [exact Hok| |exact Hg| |].
    + rewrite E. by eapply disk_ok_insert.
    + rewrite E. by apply insert_subseteq.
    + intros o Ho Hnil. assert (s ∈ names (entries d') (owned_path o)) as Hin; [|rewrite Hnil in Hin; by apply not_elem_of_nil in Hin].
      apply elem_of_names. rewrite (progress_last _ _ _ _ Hprog _ Ho), E, lookup_insert_eq. by eexists.
  - intros a k d'' [Hk ->]. split; [|left; lia]. right. split; [lia|]. rewrite E.
    pose proof (progress_more _ _ _ _ _ _ _ Hprog Hp Ht Hnew Hpre Hi) as [Hg' _ Hw'].
    eexists. split; [|split; [exact Hg'|exact Hw']]. by destruct made.
Qed.

Lemma create_directory_under n p s parent d :
  disk_ok (entries d) → entries d !! p = Some parent → through parent = Ok () →
  under n (λ r n' d', n' ≤ n ∧
    let q := p ++ [s] in
    let added i := entries d' = <[q := empty_entry i]> (entries d) ∧ entries d !! q = None ∧ type i = DirectoryFile in
    match r with
    | Ok found => n' = n ∧ added found
    | Err (InitError _ _) => False
    | Err (OtherError e) =>
        entries d' = entries d ∧ (n' < n ∨ is_Some (entries d !! q) ∧ error_code e = Some (js "EEXIST")) ∨
        n' < n ∧ ∃ i, added i
    end) (create_directory (p ++ [s])) d.
Proof.
  intros Hok Hp Ht. unfold create_directory. apply under_bind, under_bind, under_ask.
  - cbn [perform]. destruct (entries d !! (p ++ [s])) as [e|] eqn:Hq.
    + rewrite (create_exists _ _ _ _ _ Hok Hq eq_refl). cbn [fst snd under throws]. split; [lia|]. left. split; [done|].
      right. split; [by eexists|done].
    + rewrite (create_new _ Hok _ _ Hp Ht _ Hq _ _ eq_refl). cbn [fst snd under returns].
      apply under_bind, under_bind, under_lstat.
      * by eapply disk_ok_insert.
      * intros e. cbn [entries add_entry]. rewrite lookup_insert_eq. intros [= <-]. cbn [under returns]. split; [done|].
        split_and!; done.
      * intros n' x [(_ & H & _)|Hn]; [cbn [entries add_entry] in H; by rewrite lookup_insert_eq in H|]. cbn [under throws]. split; [lia|].
        right. split; [lia|]. by exists (Build_Stats 0 (next_ino d) DirectoryFile).
  - intros n' g x d' Hn [= <- <-]. cbn [under throws]. split; [lia|]. left. split; [done|]. left. lia.
Qed.

(** What the loop does on a list of missing directories, and on a list with one more
    that is now there *)
Definition loop_ok (es0 : gmap path entry) (missing : list path) : Prop :=
  ∀ n created made p parent d,
    n ≤ 1 → progress es0 made p (entries d) → accounted n created made →
    entries d !! p = Some parent → through parent = Ok () → consecutive p missing → (missing = [] → is_directory parent) →
    under n (created_directories es0 n missing) (create_directories missing created) d.
Lemma continue_under es0 missing n n' created made q e d :
  loop_ok es0 missing → n' ≤ n → n ≤ 1 → progress es0 made q (entries d) → accounted n' created made →
  entries d !! q = Some e → is_directory e → consecutive q missing →
  under n' (created_directories es0 n (q :: missing)) (create_directories missing created) d.
Proof.
  intros Hloop Hn' Hn Hp Ha He Hd Hc. eapply under_mono.
  - eapply (Hloop n' created made q e); [lia|done|done|done|by apply directory_through|done|done].
  - intros r k d' H. by eapply created_directories_mono.
Qed.

(** [EEXIST]: is it a directory that someone else made? *)
Lemma raced_under es0 missing n n' created made p s parent x d :
  disk_ok es0 → loop_ok es0 missing → n' ≤ n → n ≤ 1 → progress es0 made p (entries d) → accounted n created made →
  entries d !! p = Some parent → consecutive (p ++ [s]) missing → init_error (js "GECLI_INIT_CREATE_DIRECTORY") x →
  (n' < n ∨ is_Some (entries d !! (p ++ [s]))) →
  let failure := cleanup_and_throw created x in
  under n' (created_directories es0 n ((p ++ [s]) :: missing)) failure d ∧
  under n' (created_directories es0 n ((p ++ [s]) :: missing))
    (prog_bind (λ raced,
      match raced with
      | Ok raced =>
          if negb (isSymbolicLink raced) && isDirectory raced then create_directories missing created else failure
      | Err _ => failure
      end) (ask (Lstat (p ++ [s])))) d.
Proof.
  intros Hok Hloop Hn' Hn Hprog Hacc Hparent Hc Hx Hq. pose proof (progress_ok _ _ _ _ Hok Hprog) as Hd.
  assert (∀ k, k < n ∨ k ≤ n ∧ is_Some (entries d !! (p ++ [s])) →
    under k (created_directories es0 n ((p ++ [s]) :: missing)) (cleanup_and_throw created x) d) as Hfail.
  { intros k Hk. eapply give_up_under; [done..|]. destruct Hk as [?|[? Hs]]; [by left|right].
    destruct (progress_old _ _ _ _ s Hok Hprog Hs) as [-> E0]. split_and!; [done..|]. split; [|done].
    exists (p ++ [s]). rewrite <- E0. split; [left|done]. }
  split; [apply Hfail; tauto|]. apply under_lstat; [done|..].
  - intros raced Hr. destruct (progress_old _ _ _ _ s Hok Hprog (ltac:(by eexists))) as [-> E0].
    unfold isSymbolicLink, isDirectory. case_bool_decide; [apply Hfail; right; split; [done|by eexists]|].
    case_bool_decide; [|apply Hfail; right; split; [done|by eexists]].
    destruct Hacc as [->|[_ []]]; [|done].
    eapply (continue_under _ _ _ _ _ []); [exact Hloop|done|done|by eapply progress_down|by left|done..].
  - intros k y [(-> & Hnone & _)|Hk]; apply Hfail; [|left; lia]. destruct Hq as [?|[e He]]; [by left|congruence].
Qed.

Lemma create_directories_under es0 missing : disk_ok es0 → loop_ok es0 missing.
Proof.
  intros Hok. induction missing as [|q missing IH];
    intros n created made p parent d Hn Hprog Hacc Hparent Ht Hc Hdir; cbn [create_directories].
  { cbn [consecutive] in Hc. subst p. exists made, parent. auto. }
  destruct Hc as [[s ->] Hc]. pose proof (progress_ok _ _ _ _ Hok Hprog) as Hd.
  pose proof (consecutive_prefix _ _ Hc) as Hpre.
  (* the rest of the loop, after the directory was added *)
  assert (∀ n' created' i d', n' ≤ n → accounted n' created' (made ++ [Build_OwnedDirectory (p ++ [s]) i]) →
    entries d' = <[p ++ [s] := empty_entry i]> (entries d) → entries d !! (p ++ [s]) = None → type i = DirectoryFile →
    under n' (created_directories es0 n ((p ++ [s]) :: missing)) (create_directories missing created') d') as Hadded.
  { intros n' created' i d' Hn' Ha E Hnew Hi.
    eapply (continue_under _ _ _ _ _ _ _ (empty_entry i)); rewrite ?E; [exact IH|done|done|by eapply progress_more|done|apply lookup_insert_eq|done|done]. }
  apply under_bind. eapply under_mono; [by eapply create_directory_under|].
  intros r n' d' [Hn' Hr]. cbv zeta in Hr. destruct r as [found|[code message|e]]; [|done|].
  { destruct Hr as (-> & E & Hnew & Hi). apply (Hadded n _ found); [done|by apply accounted_more|done..]. }
  cbv zeta. destruct Hr as [[E Hr]|(Hlt & i & E & Hnew & Hi)].
  - assert (n' < n ∨ is_Some (entries d' !! (p ++ [s]))) as Hq by (rewrite E; tauto). rewrite <- E in Hprog, Hparent.
    destruct (bool_decide (error_code e = _)); [eapply proj2|eapply proj1];
      by apply (raced_under es0 missing n n' created made p s parent); eauto using init_error_intro.
  - assert (n = 1 ∧ n' = 0) as [-> ->] by lia.
    destruct (bool_decide (error_code e = _)); [|eapply failed_after_mkdir; eauto].
    apply under_lstat; [rewrite E; by eapply disk_ok_insert|..]; rewrite E.
    + intros raced. rewrite lookup_insert_eq. intros [= <-]. unfold isSymbolicLink, isDirectory. cbn [entry_stats empty_entry].
      rewrite Hi. cbn. apply (Hadded 0 _ i); [lia| |done..]. right. split; [done|]. by destruct made.
    + intros n'' x [(-> & Hq & _)|?]; [by rewrite lookup_insert_eq in Hq|done].
Qed.

End directories.

(** * The target and the file *)

(** ** The target *)

(** The error code for a target that is there, unless it is an empty directory *)
Definition directory_error (es : gmap path entry) (target : path) (e : entry) : option jsstr :=
  if isSymbolicLink (entry_stats e) then Some (js "GECLI_INIT_TARGET_SYMLINK")
  else if negb (isDirectory (entry_stats e)) then Some (js "GECLI_INIT_TARGET_NOT_DIRECTORY")
  else if (0 <? length (names es target))%nat then Some (js "GECLI_INIT_TARGET_NOT_EMPTY")
  else None.
Lemma directory_error_none es target e : directory_error es target e = None ↔ is_directory e ∧ names es target = [].
Proof.
  unfold directory_error, isSymbolicLink, isDirectory, is_directory. split.
  - repeat case_bool_decide; try done. cbn [negb]. by destruct (names es target).
  - intros [-> ->]. done.
Qed.
Section target.
Context (target : path).

Lemma stable_and_empty_under n e changed d :
  disk_ok (entries d) → entries d !! target = Some e →
  under n (λ r n' d', d' = d ∧ match r with
    | Ok s => s = entry_stats e ∧ directory_error (entries d) target e = None
    | Err x => n' < n ∨ ∃ code, directory_error (entries d) target e = Some code ∧ init_error code x
    end) (stable_and_empty target (entry_stats e) changed) d.
Proof.
  intros Hok He. unfold stable_and_empty, directory_error.
  destruct (isSymbolicLink (entry_stats e)) eqn:Hl; [cbn [under throws]; eauto 8 using init_error_intro|].
  destruct (isDirectory (entry_stats e)) eqn:Hd; cbn [negb]; [|cbn [under throws]; eauto 8 using init_error_intro].
  pose proof Hd as Hdir. unfold isDirectory in Hdir. apply bool_decide_eq_true in Hdir.
  unfold read_entries. do 4 apply under_bind. eapply under_readdir; [done..| |].
  - cbn [under returns]. apply under_bind, under_bind, under_lstat; [done| |].
    + intros e'. rewrite He. intros [= <-]. cbn [under returns fst snd]. rewrite unchanged_directory by done.
      destruct (0 <? length _)%nat; cbn [under returns throws]; eauto 8 using init_error_intro.
    + intros n' x [(_ & ? & _)|?]; [congruence|]. cbn. split; [done|]. left. lia.
  - intros n' x Hn. cbn. split; [done|]. left. lia.
Qed.

Lemma requireEmptyStableDirectory_under n e d :
  disk_ok (entries d) → entries d !! target = Some e →
  under n (λ r n' d', d' = d ∧ match r with
    | Ok s => s = entry_stats e ∧ directory_error (entries d) target e = None
    | Err x => n' < n ∨ ∃ code, directory_error (entries d) target e = Some code ∧ init_error code x
    end) (requireEmptyStableDirectory target) d.
Proof.
  intros Hok He. unfold requireEmptyStableDirectory. apply under_lstat; [done| |].
  - intros e'. rewrite He. intros [= <-]. by apply stable_and_empty_under.
  - intros n' x [(_ & ? & _)|?]; [congruence|]. cbn. split; [done|]. left. lia.
Qed.

(** A target that was made is empty. *)
Lemma made_empty es0 made es o : disk_ok es0 → progress target es0 made target es → last made = Some o → names es target = [].
Proof.
  intros Hok [Hg Hl _] Ho. apply names_nil. intros s. rewrite <- (Hl o Ho). by eapply grown_last.
Qed.

(** ** The file *)

Definition out : path := join_name target OUTPUT_FILE.
Definition file_entry (i : Stats) (bytes : list N) : entry := Entry i (Err ENOENT) bytes.

Section file.
Context (es1 : gmap path entry) (e : entry) (Hok : disk_ok es1) (He : es1 !! target = Some e) (Hd : is_directory e)
  (Hnames : names es1 target = []) (i : Stats) (Hi : type i = RegularFile).

Lemma out_new : es1 !! out = None.
Proof using Hnames. by apply names_nil. Qed.
Lemma with_file_ok c : disk_ok (<[out := file_entry i c]> es1).
Proof using Hok He Hd Hnames. eapply disk_ok_insert; [done..|by apply directory_through|by apply out_new]. Qed.
Lemma with_file_target c : (<[out := file_entry i c]> es1) !! target = Some e.
Proof using He. rewrite lookup_insert_ne; [done|]. intros E. by apply (snoc_neq target OUTPUT_FILE). Qed.
Lemma with_file_names c : names (<[out := file_entry i c]> es1) target = [OUTPUT_FILE].
Proof using Hnames. by apply names_insert; [apply out_new|]. Qed.

Lemma stage_under {A B} n (Q : result write_failure B → nat → disk → Prop) (c : call (answer A)) fid closed a d d1
    (f : A → async write_failure B) :
  perform _ c d = (Ok a, d1) → under n Q (f a) d1 →
  (∀ n' g r d', n = S n' → fail _ c g d = Some (r, d') → ∃ x, r = Err x ∧ Q (Err (OtherError x, fid, closed)) n' d') →
  under n Q (await (stage fid closed c) f) d.
Proof.
  intros Hp Hf Hx. unfold stage. apply under_bind, under_bind, under_bind, under_ask; [by rewrite Hp|].
  intros n' g r d' Hn Hg. destruct (Hx _ _ _ _ Hn Hg) as (x & -> & H). exact H.
Qed.

(** The entries while the file is written: what a failure then leaves *)
Definition with_file (c : list N) (d : disk) : Prop := entries d = <[out := file_entry i c]> es1.
Definition written (source : jsstr) (n : nat) (r : result write_failure ()) (n' : nat) (d : disk) : Prop :=
  match r with
  | Ok _ => with_file (utf8_encode source) d
  | Err (_, Some j, _) => n' < n ∧ j = i ∧ ∃ c, with_file c d
  | Err (_, None, _) => n' < n ∧ with_file [] d
  end.

Lemma handle_file h c d : with_file c d → handles d !! h = Some out → handle_entry h d = Ok (out, file_entry i c).
Proof. unfold with_file, handle_entry. intros E ->. by rewrite E, lookup_insert_eq. Qed.
Lemma append_file h c bytes d :
  with_file c d → handles d !! h = Some out →
  with_file (c ++ bytes) (append_bytes h bytes d) ∧ handles (append_bytes h bytes d) = handles d.
Proof.
  intros E Hh. unfold append_bytes. rewrite (handle_file _ _ _ E Hh). split; [|done].
  unfold with_file in *. cbn [entries set_entries entry_stats followed content file_entry]. by rewrite E, insert_insert_eq.
Qed.

Lemma write_graph_file_under n source directoryIdentity h d :
  with_file [] d → handles d !! h = Some out → directoryIdentity = entry_stats e →
  under n (written source n) (write_graph_file target out source directoryIdentity h) d.
Proof using Hok He Hd Hnames Hi.
  intros E Hh ->. unfold write_graph_file. eapply stage_under.
  { cbn [perform]. rewrite (handle_file _ _ _ E Hh). csimpl. done. }
  2: { intros n' g r d' -> [= <- <-]. eexists. split; [done|]. split; [lia|done]. }
  destruct (append_file h [] (utf8_encode source) d E Hh) as [E' Hh']. eapply stage_under.
  { cbn [perform]. rewrite (handle_file _ _ _ E Hh). done. }
  2: { intros n' g r d' -> [= <- <-]. eexists. split; [done|]. split; [lia|]. split; [done|].
       eexists. by apply (append_file h [] _ d). }
  rewrite <- Hh' in Hh. clear E Hh'. revert E' Hh. cbn [app]. generalize (append_bytes h (utf8_encode source) d). clear d.
  intros d E Hh.
  assert (∀ n' x closed d', n = S n' → entries d' = entries d → written source n (Err (x, Some i, closed)) n' d') as Hfail.
  { intros n' x closed d' -> Ed. split; [lia|]. split; [done|]. eexists. unfold with_file. by rewrite Ed. }
  eapply stage_under.
  { cbn [perform]. rewrite (handle_file _ _ _ E Hh). csimpl. done. }
  2: { intros n' g r d' Hn [= <- <-]. eexists. split; [done|]. by apply Hfail. }
  eapply stage_under.
  { cbn [perform]. rewrite Hh. done. }
  2: { intros n' g r d' Hn [= <- <-]. eexists. split; [done|]. by apply Hfail. }
  set (d1 := set_handles _ d). assert (with_file (utf8_encode source) d1) as E1 by exact E.
  assert (find_entry (entries d1) target = Ok e) as Ft by (rewrite E1; apply find_some; [apply with_file_ok|apply with_file_target]).
  assert (find_entry (entries d1) out = Ok (file_entry i (utf8_encode source))) as Fo
    by (rewrite E1; apply find_some; [apply with_file_ok|apply lookup_insert_eq]).
  eapply stage_under; [cbn [perform]; rewrite Ft; done| |].
  2: { intros n' g r d' Hn [= <- <-]. eexists. split; [done|]. by apply Hfail. }
  eapply stage_under.
  { cbn [perform]. unfold list_names. rewrite Ft. csimpl. rewrite directory_through by done. csimpl. done. }
  2: { intros n' g r d' Hn [= <- <-]. eexists. split; [done|]. by apply Hfail. }
  eapply stage_under; [cbn [perform]; rewrite Ft; done| |].
  2: { intros n' g r d' Hn [= <- <-]. eexists. split; [done|]. by apply Hfail. }
  eapply stage_under; [cbn [perform]; rewrite Fo; done| |].
  2: { intros n' g r d' Hn [= <- <-]. eexists. split; [done|]. by apply Hfail. }
  rewrite E, with_file_names. unfold isSymbolicLink, isDirectory, isFile. cbn [entry_stats file_entry].
  rewrite Hd, Hi, !sameIdentity_refl. rewrite (bool_decide_eq_true_2 ([OUTPUT_FILE] = _)) by done. exact E1.
Qed.
End file.

(** The directories are there, and the target is one of them, and empty. *)
Record ready (es0 : gmap path entry) (made : list OwnedDirectory) (es1 : gmap path entry) : Prop := {
  ready_progress : progress target es0 made target es1;
  ready_target : ∃ e, es1 !! target = Some e ∧ is_directory e;
  ready_empty : names es1 target = []
}.

(** The other failure that leaves something behind: the look through the new handle *)
Definition left_file (es0 es : gmap path entry) : Prop :=
  ∃ made es1 i, ready es0 made es1 ∧ type i = RegularFile ∧ es = <[out := file_entry i []]> es1.
Definition installed (es0 : gmap path entry) (bytes : list N) (es : gmap path entry) : Prop :=
  ∃ made es1 i, ready es0 made es1 ∧ type i = RegularFile ∧ es = <[out := file_entry i bytes]> es1.

Section create.
Context (es0 es1 : gmap path entry) (made : list OwnedDirectory) (e : entry) (Hok : disk_ok es0)
  (Hprog : progress target es0 made target es1) (He : es1 !! target = Some e) (Hd : is_directory e)
  (Hnames : names es1 target = []).

Lemma es1_ok : disk_ok es1.
Proof using Hok Hprog. by eapply progress_ok. Qed.

Definition gave_up (r : result thrown ()) (n' : nat) (d : disk) : Prop :=
  match r with Ok _ => False | Err _ => entries d = es0 ∨ left_file es0 (entries d) end.

Lemma cleanupOwnedFile_under i c d :
  type i = RegularFile → with_file es1 i c d →
  under 0 (λ _ n' d', n' ≤ 0 ∧ entries d' = es1) (cleanupOwnedFile target out (entry_stats e) i) d.
Proof using Hok Hprog He Hd Hnames.
  intros Hi E. pose proof es1_ok as Hok1. pose proof (with_file_ok es1 e Hok1 He Hd Hnames i c) as Hok2.
  apply under_budget. unfold cleanupOwnedFile. unfold with_file in E. apply under_lstat; [by rewrite E|..]; rewrite E.
  - intros e'. rewrite (with_file_target es1 e He). intros [= <-]. rewrite unchanged_directory by done.
    apply under_lstat; [by rewrite E|..]; rewrite E.
    + intros e'. rewrite lookup_insert_eq. intros [= <-]. cbn [entry_stats file_entry]. rewrite unchanged_file by done.
      apply under_ask; [|done]. cbn [perform]. unfold remove_file.
      rewrite E, (find_some _ Hok2 _ _ (lookup_insert_eq _ _ _)). cbn [entry_stats file_entry]. rewrite Hi. cbn.
      rewrite delete_insert_id; [done|]. by apply out_new.
    + intros n' x [(_ & H & _)|]; [by rewrite lookup_insert_eq in H|done].
  - intros n' x [(_ & H & _)|]; [|done]. by rewrite (with_file_target es1 e He) in H.
Qed.

Lemma keep_file_under i x d :
  type i = RegularFile → with_file es1 i [] d → under 0 gave_up (cleanup_and_throw made x) d.
Proof using Hok Hprog He Hd Hnames.
  intros Hi E. unfold cleanup_and_throw, cleanupCreatedDirectories. apply under_bind. eapply under_mono.
  - eapply (keep_directories_under es0 made es1); unfold with_file in E; rewrite ?E.
    + done.
    + by apply (with_file_ok es1 e es1_ok He Hd Hnames).
    + by destruct Hprog.
    + apply insert_subseteq. by apply out_new.
    + intros o Ho. rewrite (progress_last _ _ _ _ _ Hprog _ Ho), (with_file_names es1 Hnames). done.
  - intros a k d' ->. right. exists made, es1, i. split; [|done]. split; [done|by exists e|done].
Qed.

Lemma write_failed_under i failure d :
  type i = RegularFile →
  match failure with (_, Some j, _) => j = i ∧ ∃ c, with_file es1 i c d | (_, None, _) => with_file es1 i [] d end →
  ∀ h, under 0 gave_up (write_failed target out (entry_stats e) made h failure) d.
Proof using Hok Hprog He Hd Hnames.
  intros Hi Hf h. destruct failure as [[x fid] closed]. unfold write_failed. apply under_bind.
  eapply (under_mono _ (λ _ n' d', n' = 0 ∧ entries d' = entries d)).
  { destruct closed; [done|]. apply under_ask; [|done]. cbn [perform]. by destruct (handles d !! h). }
  intros _ n' d' [-> Ed]. apply under_bind. destruct fid as [j|].
  - destruct Hf as [-> [c Hc]]. eapply under_mono; [eapply (cleanupOwnedFile_under i c); [done|]|].
    + unfold with_file in *. by rewrite Ed.
    + intros _ n' d'' [Hn' E]. assert (n' = 0) as -> by lia. eapply under_mono; [eapply (cleanup_under 0 es0 made made)|].
      * done.
      * rewrite E. by destruct Hprog.
      * by left.
      * intros r k d3 (_ & -> & E3). by left.
  - cbn [under]. eapply keep_file_under; [done|]. unfold with_file in *. by rewrite Ed.
Qed.

Lemma createGraphFile_under n template created d :
  n ≤ 1 → accounted n created made → entries d = es1 →
  under n (λ r n' d', match r with
    | Ok _ => installed es0 (utf8_encode (template_source template)) (entries d')
    | Err _ => n' < n ∧ (entries d' = es0 ∨ left_file es0 (entries d'))
    end) (createGraphFile target template (entry_stats e) created) d.
Proof using Hok Hprog He Hd Hnames.
  intros Hn Ha E. pose proof es1_ok as Hok1. unfold createGraphFile. fold out.
  assert (∀ n', n = S n' → n' = 0 ∧ created = made) as Hspent.
  { intros n' ->. destruct Ha as [->|[? _]]; [|done]. split; [lia|done]. }
  apply under_ask.
  - cbn [perform]. unfold open_exclusive. unfold out, join_name.
    rewrite (create_new es1 Hok1 target e He (directory_through _ Hd) OUTPUT_FILE (out_new es1 Hnames) _ _ E).
    cbn [fst snd]. set (d1 := set_handles _ _). set (i := Build_Stats 0 (next_ino d) RegularFile).
    assert (with_file es1 i [] d1) as E1 by (unfold d1, with_file; cbn [entries set_handles add_entry]; by rewrite E).
    apply under_bind. eapply under_mono.
    + apply under_budget. eapply (write_graph_file_under es1 e Hok1 He Hd Hnames i eq_refl); [exact E1| |done].
      cbn [handles set_handles d1]. apply lookup_insert_eq.
    + intros r n' d' [Hn' Hr]. destruct r as [[]|[[x fid] closed]].
      * exists made, es1, i. split; [|done]. split; [done|by exists e|done].
      * cbn [written] in Hr. assert (n' < n) as Hlt by (destruct fid; tauto). destruct (Hspent (n - 1)) as [Hz ->]; [lia|].
        assert (n' = 0) as -> by lia. eapply under_mono; [apply under_budget; eapply (write_failed_under i)|].
        -- done.
        -- destruct fid; tauto.
        -- intros r k d'' [Hk Hg]. destruct r; [done|]. split; [lia|exact Hg].
  - intros n' g x d' Hn' [= <- <-]. destruct (Hspent _ Hn') as [-> ->]. eapply under_mono.
    + eapply (cleanup_under 0 es0 made made); [done|rewrite E; by destruct Hprog|by left].
    + intros r k d'' (-> & -> & E'). split; [lia|by left].
Qed.
End create.

(** ** The way to the target *)

Definition enoent (x : sys_error) : Prop := error_code x = Some (js "ENOENT").

(** What a look at a path on the way to a missing target finds: nothing, or a directory,
    or a link to one or to nothing *)
Definition passable (es : gmap path entry) (p : path) : Prop :=
  (∃ x, find_entry es p = Err x ∧ enoent x) ∨
  ∃ e, es !! p = Some e ∧ (through e = Ok () ∨ ∃ x, through e = Err x ∧ enoent x).

Lemma passable_up es p s : disk_ok es → passable es (p ++ [s]) → passable es p.
Proof.
  intros Hok [(x & Hx & Hc)|(e & He & _)].
  - rewrite find_snoc in Hx. destruct (find_entry es p) as [e|y] eqn:E; csimpl in Hx.
    + apply find_ok in E. right. exists e. split; [done|]. destruct (through e) as [[]|y]; [by left|].
      right. csimpl in Hx. injection Hx as ->. by exists x.
    + injection Hx as ->. left. by exists x.
  - destruct (parents_ok _ Hok p s) as (parent & Hp & Ht); [by eexists|]. right. exists parent. auto.
Qed.
Lemma passable_root es : disk_ok es → ∃ e, es !! [] = Some e ∧ through e = Ok ().
Proof. by intros [? _]. Qed.

(** Without a failure, the look goes on exactly at a missing path and at a link to nothing. *)
Lemma inspect_ancestor_passes n candidate link d :
  disk_ok (entries d) → passable (entries d) candidate → (link ≠ None → entries d !! candidate = None) →
  under n (λ r n' _, ∀ x, r = Err x → n' < n ∨ ∃ y, x = OtherError y ∧ enoent y ∧
    ∀ e, entries d !! candidate = Some e → through e ≠ Ok ()) (inspect_ancestor target candidate link) d.
Proof.
  intros Hok Hp Hlink. unfold inspect_ancestor. apply under_bind, under_bind, under_lstat; [done| |].
  - intros e He. cbn [under returns]. unfold isSymbolicLink, isDirectory.
    assert (through e = Ok () ∨ ∃ x, through e = Err x ∧ enoent x) as Ht.
    { destruct Hp as [(x & Hx & _)|(e' & He' & ?)]; [by rewrite (find_some _ Hok _ _ He) in Hx|]. by simplify_eq. }
    case_bool_decide as Hl.
    + destruct link as [link|]; [by specialize (Hlink ltac:(done)); simplify_eq|].
      apply under_bind, under_bind. eapply under_look; [apply stat_looks| |intros n' x Hn x' _; left; lia].
      rewrite (find_some _ Hok _ _ He). csimpl. unfold through in Ht. destruct (follow e) as [s|y] eqn:Ef.
      * cbn [under returns]. case_bool_decide as Hs; [done|]. destruct Ht as [Ht|(x & [= <-] & Hx)]; done.
      * cbn [under throws]. intros x [= <-]. right. exists y. destruct Ht as [Ht|(x & [= <-] & Hc)]; [done|].
        split_and!; [done..|]. intros e'. rewrite He. intros [= <-]. unfold through. by rewrite Ef.
    + case_bool_decide as Hd; [done|]. exfalso. unfold through, follow in Ht.
      rewrite bool_decide_eq_false_2 in Ht by done. rewrite bool_decide_eq_false_2 in Ht by done.
      destruct Ht as [Ht|(x & [= <-] & Hx)]; done.
  - intros n' x Hx. cbn [under throws]. intros x' [= <-]. destruct Hx as [(-> & Hnone & Hf)|?]; [right|left; lia].
    exists x. split; [done|]. split; [|intros e He; congruence].
    destruct Hp as [(y & Hy & Hc)|(e & He & _)]; [|congruence]. rewrite Hf in Hy. injection Hy as <-. exact Hc.
Qed.

Lemma assert_ancestor_under n up d :
  disk_ok (entries d) → under n (λ _ _ d', d' = d) (assert_ancestor target up) d.
Proof.
  intros Hok. revert n. induction up as [|s up IH]; intros n; cbn [assert_ancestor]; apply under_bind;
    (eapply under_mono; [by apply inspect_ancestor_under|]); intros r n' d' [-> _]; destruct r as [[]|[code m|e]]; try done;
    destruct (bool_decide (error_code e = _)); try done.
Qed.
Lemma assert_ancestor_passes n up d :
  disk_ok (entries d) → passable (entries d) (rev up) →
  under n (λ r n' d', d' = d ∧ ∀ x, r = Err x → n' < n) (assert_ancestor target up) d.
Proof.
  intros Hok. revert n. induction up as [|s up IH]; intros n Hp; cbn [assert_ancestor]; apply under_bind;
    (eapply under_mono; [apply under_budget, under_and; [by apply inspect_ancestor_under|by apply inspect_ancestor_passes]|]);
    intros r n' d' (Hn & [-> Hok'] & Hr); destruct r as [[]|x]; try done; specialize (Hr x eq_refl).
  - assert (n' < n) as Hlt.
    { destruct Hr as [?|(y & -> & _ & Hno)]; [done|]. destruct (passable_root _ Hok) as (e & He & Ht).
      by destruct (Hno e He). }
    destruct x as [code m|e]; [by split|]. by destruct (bool_decide (error_code e = _)).
  - destruct x as [code m|e]; [split; [done|]; intros x [= <-]; by destruct Hr as [?|(y & [=] & _)]|].
    case_bool_decide as Hc.
    + eapply under_mono; [apply under_budget, IH; by eapply passable_up|].
      intros r k d' (Hk & -> & Hr'). split; [done|]. intros x ->. specialize (Hr' x eq_refl). lia.
    + split; [done|]. intros x [= <-]. destruct Hr as [?|(y & [= <-] & ? & _)]; done.
Qed.

(** What the inspection of the target reports *)
Definition target_error (es : gmap path entry) : option jsstr :=
  match find_entry es target with
  | Ok e => directory_error es target e
  | Err x => if bool_decide (error_code x = Some (js "ENOENT")) then None else Some (js "GECLI_INIT_TARGET_ACCESS")
  end.

Lemma target_below es x : disk_ok es → find_entry es target = Err x → ∃ p s, target = p ++ [s].
Proof.
  intros Hok Hx. destruct target as [|s p _] using rev_ind; [|by exists p, s].
  destruct (passable_root _ Hok) as (e & He & _). by rewrite (find_some _ Hok _ _ He) in Hx.
Qed.

Lemma inspectTarget_under n d :
  disk_ok (entries d) →
  under n (λ r n' d', d' = d ∧ match r with
    | Ok true => ∃ e, entries d !! target = Some e ∧ directory_error (entries d) target e = None
    | Ok false => n' < n ∨ ∃ x, find_entry (entries d) target = Err x ∧ enoent x
    | Err x => n' < n ∨ ∃ code, target_error (entries d) = Some code ∧ init_error code x
    end) (inspectTarget target) d.
Proof.
  intros Hok. unfold inspectTarget, target_error. apply under_lstat; [done| |].
  - intros e He. rewrite (find_some _ Hok _ _ He). apply under_bind. eapply under_mono; [by apply stable_and_empty_under|].
    intros r n' d' [-> Hr]. destruct r as [i|x]; [|by split]. split; [done|]. exists e. split; [done|]. by destruct Hr.
  - intros n' x Hx. case_bool_decide as Hc.
    + apply under_bind. unfold assertExistingAncestorIsDirectory.
      destruct Hx as [(-> & Hnone & Hf)| ->].
      * destruct (target_below _ _ Hok Hf) as (p & s & E). eapply under_mono; [apply assert_ancestor_passes; [done|]|].
        -- rewrite rev_involutive. unfold dirname. rewrite E, removelast_last. apply (passable_up _ p s); [done|].
           left. exists x. by rewrite <- E.
        -- intros r k d' [-> Hr]. destruct r; (split; [done|]); [right; by exists x|left; by eapply Hr].
      * eapply under_mono; [apply under_budget, assert_ancestor_under; done|].
        intros r k d' [Hk ->]. destruct r; (split; [done|]); left; lia.
    + cbn [under throws]. split; [done|]. destruct Hx as [(-> & _ & Hf)| ->]; [right|left; lia].
      rewrite Hf, bool_decide_eq_false_2 by done. eauto using init_error_intro.
Qed.

(** Something on the way to the target that no path may pass *)
Definition blocked (es : gmap path entry) : bool :=
  existsb (λ k, match es !! take k target with
                | Some e => match through e with Ok _ => false | Err _ => true end
                | None => false
                end) (seq 0 (length target)).
Lemma blocked_spec es :
  blocked es = true ↔ ∃ p e, p `prefix_of` target ∧ p ≠ target ∧ es !! p = Some e ∧ through e ≠ Ok ().
Proof.
  unfold blocked. rewrite existsb_exists. split.
  - intros (k & Hk%in_seq & H). destruct (es !! take k target) as [e|] eqn:E; [|done]. exists (take k target), e.
    split_and!; [apply prefix_take| |done|by destruct (through e)].
    intros Et. apply (f_equal length) in Et. rewrite length_take in Et. lia.
  - intros (p & e & [q Hq] & Hne & He & Ht). exists (length p). split.
    + apply in_seq. rewrite Hq, length_app. destruct q; [by rewrite app_nil_r in Hq|]. cbn [length]. lia.
    + rewrite Hq, take_app_length, He. destruct (through e) as [[]|]; done.
Qed.

Definition obstacles (es : gmap path entry) (l : list path) : Prop :=
  Forall (λ q, ∀ e, es !! q = Some e → through e ≠ Ok ()) l.

Lemma find_missing_passes n up missing d :
  disk_ok (entries d) → passable (entries d) (rev up) → (rev up = target → entries d !! target = None) →
  rev up `prefix_of` target → obstacles (entries d) missing →
  under n (λ r n' _, n' < n ∨ ∃ l, r = Ok l ∧ obstacles (entries d) l) (find_missing target up missing) d.
Proof.
  intros Hok. revert n missing. induction up as [|s up IH]; intros n missing Hp Ht Hpre Hm; cbn [find_missing]; apply under_bind;
    (eapply under_mono; [apply under_budget, under_and; [by apply inspect_ancestor_under|apply inspect_ancestor_passes; [done..|]]|]);
    try (case_bool_decide as E; [by intros _; rewrite E; auto|done]);
    intros r n' d' (Hn & [-> Hok'] & Hr); (destruct r as [[]|x]; [cbn [under returns]; by right; eexists|]); specialize (Hr x eq_refl).
  - destruct Hr as [Hlt|(y & -> & _ & Hno)]; [|by destruct (passable_root _ Hok) as (e & He & Hte); destruct (Hno e He)].
    eapply under_mono; [apply under_le|]. intros a k d' Hk. cbv beta in Hk. left. lia.
  - destruct Hr as [Hlt|(y & -> & Hy & Hno)]; [eapply under_mono; [apply under_le|]; intros a k d' Hk; cbv beta in Hk; left; lia|].
    rewrite bool_decide_eq_true_2 by exact Hy. eapply under_mono; [eapply IH|].
    + by eapply passable_up.
    + intros E. exfalso. apply prefix_length in Hpre. rewrite <- E in Hpre. cbn [rev] in Hpre.
      rewrite length_app in Hpre. cbn [length] in Hpre. lia.
    + etrans; [|exact Hpre]. cbn [rev]. by apply prefix_app_r.
    + by constructor.
    + intros a k d' [?|?]; [left; lia|by right].
Qed.

(** A directory that was made is reached by no path that was blocked before. *)
Lemma made_not_blocked es0 made es e :
  disk_ok es0 → progress target es0 made target es → es !! target = Some e → blocked es0 = false.
Proof.
  intros Hok Hprog He. apply not_true_is_false. intros (p & e' & [q Hq] & Hne & He' & Ht)%blocked_spec.
  pose proof (progress_ok _ _ _ _ _ Hok Hprog) as Hes. eapply (grown_old es0 made es) in He'; [|by destruct Hprog].
  destruct q as [|s q]; [by rewrite app_nil_r in Hq|].
  assert (is_Some (es !! (p ++ [s]))) as Hs.
  { destruct (es !! (p ++ [s])) eqn:E; [by eexists|]. apply (absent_below _ Hes _ target) in E; [congruence|].
    exists q. by rewrite Hq, <- (assoc_L (++)). }
  destruct (parents_ok _ Hes _ _ Hs) as (e'' & He'' & Ht''). congruence.
Qed.

Lemma consecutive_below p missing q : consecutive target p missing → q ∈ missing → q `prefix_of` target.
Proof.
  revert p. induction missing as [|q' missing IH]; intros p Hc Hq; [by apply not_elem_of_nil in Hq|].
  destruct Hc as [_ Hc]. apply elem_of_cons in Hq as [->|Hq]; [by eapply consecutive_prefix|by eapply IH].
Qed.

(** Is the target merely missing? *)
Definition absent (es : gmap path entry) : bool :=
  match find_entry es target with Err x => bool_decide (error_code x = Some (js "ENOENT")) | Ok _ => false end.
Lemma absent_spec es : absent es = true ↔ ∃ x, find_entry es target = Err x ∧ enoent x.
Proof.
  unfold absent. destruct (find_entry es target) as [e|x]; [split; [done|by intros (x & [=] & _)]|].
  rewrite bool_decide_eq_true. split; [by exists x|]. by intros (y & [= ->] & ?).
Qed.

(** The directories are made unless something is in the way. *)
Lemma createTargetDirectories_under n d :
  disk_ok (entries d) → n ≤ 1 →
  under n (λ r n' d', match r with
    | Ok created => directories_made target (entries d) n' created d'
    | Err e => directories_failed target (entries d) n n' d' ∧
        (absent (entries d) = true → n' < n ∨ blocked (entries d) = true ∧ init_error (js "GECLI_INIT_CREATE_DIRECTORY") e)
    end) (createTargetDirectories target) d.
Proof.
  intros Hok Hn. unfold createTargetDirectories. apply under_bind.
  assert (under n (λ r n' _, absent (entries d) = true →
    n' < n ∨ ∃ l, r = Ok l ∧ obstacles (entries d) l) (find_missing target (rev target) []) d) as Hpasses.
  { destruct (absent (entries d)) eqn:Ha; [|eapply under_mono; [apply under_le|done]].
    apply absent_spec in Ha as (x & Hx & Hc). eapply under_mono; [apply find_missing_passes; rewrite ?rev_involutive|].
    - done.
    - left. by exists x.
    - intros _. destruct (entries d !! target) as [e|] eqn:E; [|done]. by rewrite (find_some _ Hok _ _ E) in Hx.
    - done.
    - constructor.
    - auto. }
  eapply under_mono; [apply under_budget, under_and; [apply find_missing_under; [done|apply rev_involutive]|exact Hpasses]|].
  intros r n' d' (Hn' & [-> Hr] & Hobst). destruct r as [missing|e].
  2: { split; [by left|]. intros Ha. left. by destruct (Hobst Ha) as [?|(l & [=] & _)]. }
  destruct (Hr missing eq_refl) as (p & e & He & Ht & Hc & Hd). eapply under_mono.
  { apply under_budget. eapply (create_directories_under target (entries d) missing Hok n' [] [] p e); [lia| |by left|done..].
    split; [constructor|done|constructor]. }
  intros r k d' [Hk H]. destruct r as [created|e']; [done|]. destruct H as [Hf Hw]. split.
  - destruct Hf as [?|[? ?]]; [by left|right]. split; [lia|done].
  - intros Ha. destruct Hw as [?|[(q & Hq & e'' & He'') Hcode]]; [left; lia|].
    destruct (Hobst Ha) as [?|(l & [= <-] & Hall)]; [left; lia|right; split; [|done]].
    apply blocked_spec. exists q, e''. split_and!; [by eapply consecutive_below| |done|].
    + intros ->. apply absent_spec in Ha as (x & Hx & _). by rewrite (find_some _ Hok _ _ He'') in Hx.
    + unfold obstacles in Hall. rewrite Forall_forall in Hall. by eapply Hall.
Qed.

Definition directories_made_as (es0 : gmap path entry) (n : nat) (created made : list OwnedDirectory) (e : entry) (d : disk) : Prop :=
  progress target es0 made target (entries d) ∧ accounted n created made ∧ entries d !! target = Some e ∧ is_directory e.
Lemma progress_nil es0 p es : progress target es0 [] p es → es = es0.
Proof. intros [H _ _]. inversion H as [|made]; [done|]. by destruct made. Qed.

(** ** The file in the target *)

Lemma install_under es0 n template created made e (report : InitReport) d :
  disk_ok es0 → n ≤ 1 → directories_made_as es0 n created made e d →
  under n (λ r n' d', match r with
    | Ok report' => report' = report ∧ installed es0 (utf8_encode (template_source template)) (entries d')
    | Err x => (entries d' = es0 ∨ n' < n ∧ left_file es0 (entries d')) ∧
        (n' < n ∨ ∃ code, target_error es0 = Some code ∧ init_error code x)
    end)
    (let* directoryIdentity := catch (requireEmptyStableDirectory target) (cleanup_and_throw created) in
     let* _ := createGraphFile target template directoryIdentity created in
     returns report) d.
Proof.
  intros Hok Hn (Hprog & Ha & He & Hd). pose proof (progress_ok _ _ _ _ _ Hok Hprog) as Hok1.
  apply under_bind, under_bind. eapply under_mono; [apply under_budget, requireEmptyStableDirectory_under; done|].
  intros r n1 d' (Hn1 & -> & Hr). destruct r as [i|x].
  - destruct Hr as [-> [_ Hnames]%directory_error_none]. cbn [under returns]. apply under_bind.
    assert (accounted n1 created made) as Ha1.
    { destruct Ha as [->|[-> ?]]; [by left|right]. split; [lia|done]. }
    eapply under_mono; [apply under_budget; eapply (createGraphFile_under es0 _ made e Hok Hprog He Hd Hnames); [lia|done..]|].
    intros r n2 d2 [Hn2 Hr]. destruct r as [[]|x]; [done|]. destruct Hr as [Hlt Hr]. cbn [under throws]. split; [|left; lia].
    destruct Hr as [?|?]; [by left|right]. split; [lia|done].
  - assert (n1 < n ∧ (n1 = 0 ∧ created = made ∨ created = [] ∧ made = []) ∨
      (created = [] ∧ made = []) ∧ ∃ code, target_error es0 = Some code ∧ init_error code x) as Hcases.
    { destruct (last made) as [o|] eqn:Ho.
      - pose proof (made_empty _ _ _ _ Hok Hprog Ho) as Hnames. left.
        destruct Hr as [Hlt|(code & Hcode & _)]; [|by rewrite (proj2 (directory_error_none _ _ _) (conj Hd Hnames)) in Hcode].
        split; [done|]. left. destruct Ha as [->|[-> _]]; [split; [lia|done]|lia].
      - apply last_None in Ho as ->. assert (created = []) as -> by (by destruct Ha as [|[_ []]]).
        destruct Hr as [Hlt|(code & Hcode & Hx)]; [left; auto|right]. split; [done|]. exists code. split; [|done].
        unfold target_error. rewrite <- (progress_nil _ _ _ Hprog). by rewrite (find_some _ Hok1 _ _ He). }
    eapply under_mono; [apply (cleanup_under n1 es0 made created x); [done|by destruct Hprog|tauto]|].
    intros r n2 d2 (-> & -> & E). cbn [under throws]. split; [by left|]. destruct Hcases as [[? _]|[_ ?]]; [by left|by right].
Qed.
End target.
