(* ===== verification/InitAtomic.v ===== *)
(** * Safe initialization on a disk: the contract

    With at most one failing call, a run of init installs the file completely or leaves
    the disk as it was, but for two failures; without a failure the disk decides its
    outcome. *)
From S2P Require Import Prelude JsString JsNumber JsValue JsonText CompilerSpec Stringify Utf8 Compiler CliValidation Process Disk Init InitDisk.
#[local] Arguments js : simpl never.
#[local] Open Scope async_scope.

(** The error code of a run without a failure; [None]: it succeeds. *)
Definition init_code (es : gmap path entry) (target : path) (dryRun : bool) : option jsstr :=
  match target_error target es with
  | Some code => Some code
  | None => if absent target es && negb dryRun && blocked target es then Some (js "GECLI_INIT_CREATE_DIRECTORY") else None
  end.

Section init.
Context (hash : jsstr → jsstr) (syntax_message : jsstr → jsstr).

(** What the packaged template gives *)
Definition template_of (d : disk) : result thrown Template :=
  (run_prog disk_handler (loadTemplate hash syntax_message) (d, [])).1.
Lemma loadTemplate_under n d :
  under n (λ r n' d', n' = n ∧ d' = d ∧ r = template_of d) (loadTemplate hash syntax_message) d.
Proof.
  unfold template_of, loadTemplate. apply under_bind, under_bind, under_ask; [|done]. cbn [perform fst snd].
  cbn [run_prog prog_bind ask disk_handler head tail perform await sys].
  destruct (assets d ResearchTemplate) as [bytes|e]; cbn [under returns throws prog_bind]; [|done]. cbv zeta.
  destruct (json_parse (utf8_text bytes)) as [document|]; [|done].
  destruct (valid _); [|done]. by destruct (graphHash _).
Qed.

Definition residue (target : path) (es0 es : gmap path entry) : Prop :=
  left_directories target es0 es ∨ left_file target es0 es.
Definition outcome (target : path) (dryRun : bool) (d : disk) (n : nat) (r : result thrown InitReport) (n' : nat) (d' : disk) : Prop :=
  match r with
  | Ok report => created report = negb dryRun ∧ targetDirectory report = path_text target ∧
      if dryRun then entries d' = entries d
      else ∃ template, template_of d = Ok template ∧ report_graphHash report = template_graphHash template ∧
        installed target (entries d) (utf8_encode (template_source template)) (entries d')
  | Err _ => entries d' = entries d ∨ n' < n ∧ dryRun = false ∧ residue target (entries d) (entries d')
  end ∧
  (n' < n ∨
   match template_of d, init_code (entries d) target dryRun with
   | Err e, _ => r = Err e
   | Ok _, None => ∃ report, r = Ok report
   | Ok _, Some code => ∃ e, r = Err e ∧ init_error code e
   end).

(** After the directories are there, or could not be made *)
Lemma made_under target n n1 exists_ d :
  disk_ok (entries d) → n ≤ 1 → n1 ≤ n →
  (if exists_ : bool then ∃ e, entries d !! target = Some e ∧ directory_error (entries d) target e = None else True) →
  under n1 (λ r n' d', n' ≤ n1 ∧ match r with
    | Ok created => ∃ made e, directories_made_as target (entries d) n' created made e d' ∧ blocked target (entries d) = false
    | Err x => exists_ = false ∧ directories_failed target (entries d) n n' d' ∧
        (n' < n ∨ absent target (entries d) = false ∨
         blocked target (entries d) = true ∧ init_error (js "GECLI_INIT_CREATE_DIRECTORY") x)
    end) (if exists_ then returns [] else createTargetDirectories target : async thrown (list OwnedDirectory)) d.
Proof.
  intros Hok Hn Hn1 Hex. apply under_budget. destruct exists_.
  - destruct Hex as (e & He & [Hd _]%directory_error_none). cbn [under returns]. exists [], e.
    assert (progress target (entries d) [] target (entries d)) as Hp by (split; [constructor|done|constructor]).
    split; [split_and!; [done|by left|done..]|]. by eapply made_not_blocked.
  - eapply under_mono; [apply createTargetDirectories_under; [done|lia]|]. intros r n' d' Hr. destruct r as [created|x].
    + destruct Hr as (made & e & Hp & Ha & He & Hd). exists made, e. split; [done|]. by eapply made_not_blocked.
    + destruct Hr as [Hf Hcode]. split; [done|]. split.
      * destruct Hf as [?|[? ?]]; [by left|right]. split; [lia|done].
      * destruct (absent target (entries d)); [|by right; left]. destruct (Hcode eq_refl) as [?|?]; [left; lia|by right; right].
Qed.

Lemma initialize_under n target dryRun d :
  disk_ok (entries d) → n ≤ 1 →
  under n (outcome target dryRun d n)
    (let* template := loadTemplate hash syntax_message in
     let* exists_ := inspectTarget target in
     if dryRun then
       returns (Build_InitReport (path_text target) true false false (negb exists_) [OUTPUT_FILE] TEMPLATE_NAME
                  (template_graphHash template))
     else
       let* createdDirectories := (if exists_ then returns [] else createTargetDirectories target) in
       let* directoryIdentity := catch (requireEmptyStableDirectory target) (cleanup_and_throw createdDirectories) in
       let* _ := createGraphFile target template directoryIdentity createdDirectories in
       returns (Build_InitReport (path_text target) false true
                  (existsb (λ item, bool_decide (owned_path item = target)) createdDirectories)
                  (negb exists_) [OUTPUT_FILE] TEMPLATE_NAME (template_graphHash template))) d.
Proof.
  intros Hok Hn. apply under_bind. eapply under_mono; [apply loadTemplate_under|]. intros r n0 d0 (-> & -> & Ht).
  unfold outcome. rewrite <- Ht. destruct r as [template|e]; [|cbn [under throws]; split; [by left|by right]].
  apply under_bind. eapply under_mono; [apply under_budget, inspectTarget_under; done|].
  intros r n1 d1 (Hn1 & -> & Hr). unfold init_code. destruct r as [exists_|x].
  2: { cbn [under throws]. split; [by left|]. destruct Hr as [?|(code & -> & ?)]; [by left|right; by eexists]. }
  assert (n1 < n ∨ target_error target (entries d) = None ∧ absent target (entries d) = negb exists_) as Hin.
  { destruct exists_; [right|destruct Hr as [?|(x & Hx & Hc)]; [by left|right]].
    - destruct Hr as (e & He & Hnone). unfold target_error, absent. by rewrite (find_some _ Hok _ _ He).
    - split; [|apply absent_spec; by exists x]. unfold target_error. by rewrite Hx, bool_decide_eq_true_2. }
  destruct dryRun.
  { cbn [under returns]. split; [done|]. destruct Hin as [?|[-> _]]; [by left|right].
    rewrite andb_false_r. by eexists. }
  apply under_bind. eapply under_mono; [apply (made_under _ n _ exists_); [done..|by destruct exists_]|].
  intros r n2 d2 [Hn2 Hmade]. destruct r as [createdDirectories|x]; cbv beta in Hmade.
  - destruct Hmade as (made & e & Has & Hfree). cbn beta.
    eapply under_mono; [apply under_budget; eapply install_under; [done|lia|exact Has]|].
    intros r n3 d3 [Hn3 Hres]. destruct r as [report|x].
    + destruct Hres as [-> Hinst]. split; [split_and!; [done..|by exists template]|].
      destruct Hin as [?|[-> _]]; [left; lia|]. right. rewrite Hfree, andb_false_r. by eexists.
    + destruct Hres as [Hleft Hcode]. split.
      * destruct Hleft as [?|[? ?]]; [by left|right]. split_and!; [lia|done|by right].
      * destruct Hcode as [?|(code & -> & ?)]; [left; lia|right; by eexists].
  - destruct Hmade as (-> & Hf & Hcode). split.
    + destruct Hf as [?|[? ?]]; [by left|right]. split_and!; [lia|done|by left].
    + destruct Hin as [?|[-> Ha]]; [left; lia|]. destruct Hcode as [?|Hcode]; [by left|right].
      rewrite Ha in Hcode |- *. destruct Hcode as [|[-> Hx]]; [done|]. by eexists.
Qed.

(** Whatever was there is still there, unchanged. *)
Lemma grown_sub es0 made es : grown es0 made es → es0 ⊆ es.
Proof. intros H. apply map_subseteq_spec. intros p e. by eapply grown_old. Qed.
Lemma with_file_sub target es0 made es1 e : ready target es0 made es1 → es0 ⊆ <[out target := e]> es1.
Proof.
  intros [[H _ _] _ Hn]. etrans; [by eapply grown_sub|]. by apply insert_subseteq, out_new.
Qed.
Lemma outcome_sub target dryRun d n r n' d' : outcome target dryRun d n r n' d' → entries d ⊆ entries d'.
Proof.
  intros [H _]. destruct r as [report|x].
  - destruct H as (_ & _ & H). destruct dryRun; [by rewrite H|].
    destruct H as (template & _ & _ & made & es1 & i & Hr & _ & ->). by eapply with_file_sub.
  - destruct H as [->|(_ & _ & [(made & _ & Hg & _)|(made & es1 & i & Hr & _ & ->)])]; [done|by eapply grown_sub|].
    by eapply with_file_sub.
Qed.


Lemma init_run dir dryRun d fs :
  disk_ok (entries d) → fault_count fs ≤ 1 →
  let run := run_prog disk_handler (initializeGraphProject hash syntax_message dir dryRun) (d, fs) in
  ∃ n', n' ≤ fault_count fs ∧ outcome (absolute d dir) dryRun d (fault_count fs) run.1 n' run.2.1.
Proof.
  intros Hok Hfs. cbv zeta. destruct (under_run (fault_count fs) (outcome (absolute d dir) dryRun d (fault_count fs))
    (initializeGraphProject hash syntax_message dir dryRun) d fs) as (n' & Hn' & H); [|done|exists n'; split; [lia|exact H]].
  unfold initializeGraphProject, resolve, absolute. destruct (starts_with (js "/") dir).
  - by apply initialize_under.
  - apply under_bind, under_ask; [|done]. by apply initialize_under.
Qed.

(** C31. Safe initialization is atomic up to a single failure.  On every well-formed disk
    and for every schedule in which at most one call fails, nothing that was on the disk
    is changed or removed, and afterwards: a dry run has changed nothing; a successful
    run has added exactly the missing directories on the way to the target and the file
    with the packaged template; and a failed run has added nothing - unless the call that
    failed was a look at a directory just made, which leaves directories, or the look
    through the handle of the new file, which leaves an empty file. *)
Theorem init_atomic dir dryRun d fs :
  disk_ok (entries d) → fault_count fs ≤ 1 →
  let run := run_prog disk_handler (initializeGraphProject hash syntax_message dir dryRun) (d, fs) in
  let d' := run.2.1 in
  entries d ⊆ entries d' ∧
  match run.1 with
  | Ok report => created report = negb dryRun ∧ targetDirectory report = path_text (absolute d dir) ∧
      if dryRun then entries d' = entries d
      else ∃ template, template_of d = Ok template ∧ report_graphHash report = template_graphHash template ∧
        installed (absolute d dir) (entries d) (utf8_encode (template_source template)) (entries d')
  | Err _ => entries d' = entries d ∨
      fault_count fs = 1 ∧ dryRun = false ∧ residue (absolute d dir) (entries d) (entries d')
  end.
Proof.
  intros Hok Hfs. destruct (init_run dir dryRun d fs Hok Hfs) as (n' & Hn' & H). cbv zeta.
  split; [by eapply outcome_sub|]. destruct H as [H _].
  destruct (run_prog _ _ _).1 as [report|x]; [done|]. destruct H as [?|(? & ? & ?)]; [by left|right].
  split_and!; [lia|done..].
Qed.

(** C32. Without a failing call the disk decides the outcome of init, and which error it
    reports: that of the packaged template; a target that is a link, is no directory or
    is not empty; a target that cannot be looked at; or a link to nothing on the way to
    a missing target, which only a real run notices.  In every other case it succeeds. *)
Theorem init_decides dir dryRun d fs :
  disk_ok (entries d) → fault_count fs = 0 →
  let r := (run_prog disk_handler (initializeGraphProject hash syntax_message dir dryRun) (d, fs)).1 in
  match template_of d, init_code (entries d) (absolute d dir) dryRun with
  | Err e, _ => r = Err e
  | Ok _, None => ∃ report, r = Ok report
  | Ok _, Some code => ∃ message, r = Err (InitError code message)
  end.
Proof.
  intros Hok Hfs. destruct (init_run dir dryRun d fs Hok) as (n' & Hn' & [_ H]); [lia|]. cbv zeta.
  destruct H as [?|H]; [lia|]. destruct (template_of d); [|done]. destruct (init_code _ _ _); [|done].
  destruct H as (e & -> & message & ->). by exists message.
Qed.
End init.

(** ** Samples *)

Definition directory_entry (i : N) : entry := Entry (Build_Stats 0 i DirectoryFile) (Err ENOENT) [].
Definition dangling_link (i : N) : entry := Entry (Build_Stats 0 i SymbolicLink) (Err ENOENT) [].
(** A home directory with a link to nothing *)
Definition sample_disk : disk :=
  Disk (<[[js "home"; js "link"] := dangling_link 3]> (<[[js "home"] := directory_entry 2]> {[ [] := directory_entry 1 ]}))
    4 ∅ [js "home"] (λ _, Ok (utf8_encode (stringify diamond_document))).
Definition sample_init (dir : string) (dryRun : bool) : async thrown InitReport :=
  initializeGraphProject zero_hash (λ _, []) (js dir) dryRun.
Lemma sample_disk_ok : disk_ok (entries sample_disk).
Proof.
  split; [by eexists|]. intros p s [e He]. cbn [entries sample_disk] in *.
  apply lookup_insert_Some in He as [[E _]|[_ He]].
  - change [js "home"; js "link"] with ([js "home"] ++ [js "link"]) in E. apply app_inj_2 in E as [<- _]; [|done].
    by eexists.
  - apply lookup_insert_Some in He as [[E _]|[_ He]].
    + change [js "home"] with ([] ++ [js "home"]) in E. apply app_inj_2 in E as [<- _]; [|done]. by eexists.
    + apply lookup_singleton_Some in He as [E _]. by destruct p.
Qed.

(** The 17th call of this run is the look through the handle. *)
Definition handle_stat_fails : list (option fault) := replicate 16 None ++ [Some (Fault (sys_code "EIO") 0)].

Lemma init_atomic_witness :
  let run := run_prog disk_handler (sample_init "a/b" false) (sample_disk, handle_stat_fails) in
  (∃ x, run.1 = Err x) ∧ residue [js "home"; js "a"; js "b"] (entries sample_disk) (entries run.2.1).
Proof.
  cbv zeta. set (run := run_prog _ _ _).
  assert (∃ x, run.1 = Err x) as [x Hx] by (eexists; vm_compute; reflexivity). split; [by exists x|].
  assert (fault_count handle_stat_fails ≤ 1) as Hf by (vm_compute; lia).
  destruct (init_atomic zero_hash (λ _, []) (js "a/b") false sample_disk handle_stat_fails sample_disk_ok Hf) as [_ H].
  fold (sample_init "a/b" false) in H. fold run in H. rewrite Hx in H. destruct H as [H|(_ & _ & H)]; [|exact H].
  assert (entries run.2.1 !! [js "home"; js "a"] ≠ entries sample_disk !! [js "home"; js "a"]) as Hne
    by (vm_compute; discriminate).
  destruct Hne. by rewrite H.
Defined.

Lemma init_decides_witness :
  let m dryRun := (run_prog disk_handler (sample_init "link/a" dryRun) (sample_disk, [])).1 in
  (∃ report, m true = Ok report) ∧ ∃ message, m false = Err (InitError (js "GECLI_INIT_CREATE_DIRECTORY") message).
Proof.
  cbv zeta. assert (∃ t, template_of zero_hash (λ _, []) sample_disk = Ok t) as [t Ht] by (eexists; vm_compute; reflexivity).
  pose proof (init_decides zero_hash (λ _, []) (js "link/a") true sample_disk [] sample_disk_ok eq_refl) as Hdry.
  pose proof (init_decides zero_hash (λ _, []) (js "link/a") false sample_disk [] sample_disk_ok eq_refl) as Hrun.
  assert (init_code (entries sample_disk) (absolute sample_disk (js "link/a")) true = None) as E1 by (vm_compute; reflexivity).
  assert (init_code (entries sample_disk) (absolute sample_disk (js "link/a")) false =
    Some (js "GECLI_INIT_CREATE_DIRECTORY")) as E2 by (vm_compute; reflexivity).
  cbv zeta in Hdry, Hrun. rewrite Ht, E1 in Hdry. rewrite Ht, E2 in Hrun. split; [exact Hdry|exact Hrun].
Defined.

(** A target that is not there is installed with its directories. *)
Example install_sample :
  let run := run_prog disk_handler (sample_init "a/b" false) (sample_disk, []) in
  content <$> entries run.2.1 !! [js "home"; js "a"; js "b"; js "graph.json"] = Some (utf8_encode (stringify diamond_document)).
Proof. vm_compute. reflexivity. Qed.
