(* ===== verification/CliWorkflow.v ===== *)
(** * Commands one after the other

    What a command leaves on the disk of [Disk], a later command finds: the file that
    init writes is a graph that [graph validate --json] accepts, with the hash that init
    reported, and a second init refuses the directory. *)
From S2P Require Import Prelude JsString JsNumber JsValue JsonText NumberText Canonical CompilerSpec Stringify Utf8 Compiler.
From S2P Require Import CliValidation Process Disk Init InitDisk InitAtomic.
From S2P Require Cli.
#[local] Arguments js : simpl never.
#[local] Open Scope async_scope.

(** ** Paths and their texts *)

(** A segment that a path can have: not empty, not a dot or two, no slash *)
Definition plain (s : jsstr) : Prop := s ≠ [] ∧ s ≠ js "." ∧ s ≠ js ".." ∧ Forall (λ c, c ≠ 47%N) s.
#[export] Instance plain_dec s : Decision (plain s).
Proof. unfold plain. apply _. Defined.

Lemma enter_plain p s : plain s → enter p s = p ++ [s].
Proof. intros (H1 & H2 & H3 & _). unfold enter. rewrite !bool_decide_eq_false_2; [done|done|]. by intros [?|?]. Qed.

Lemma split_slash_app s t : Forall (λ c, c ≠ 47%N) s → split_slash (s ++ 47%N :: t) = s :: split_slash t.
Proof.
  induction 1 as [|c s Hc _ IH]; [done|]. cbn [app split_slash]. rewrite (proj2 (N.eqb_neq _ _) Hc).
  by rewrite IH.
Qed.
Lemma split_slash_plain s : Forall (λ c, c ≠ 47%N) s → split_slash s = [s].
Proof. induction 1 as [|c s Hc _ IH]; [done|]. cbn [split_slash]. by rewrite (proj2 (N.eqb_neq _ _) Hc), IH. Qed.

Lemma split_slash_segments s : Forall (Forall (λ c, c ≠ 47%N)) (split_slash s).
Proof.
  induction s as [|c s IH]; cbn [split_slash]; [by repeat constructor|].
  destruct (c =? 47)%N eqn:E; [by constructor|]. apply N.eqb_neq in E.
  destruct (split_slash s) as [|segment rest]; [by repeat constructor|].
  apply Forall_cons in IH as [? ?]. by repeat constructor.
Qed.

Lemma resolve_plain cwd text : Forall plain cwd → Forall plain (resolve_in cwd text).
Proof.
  intros Hcwd. unfold resolve_in. pose proof (split_slash_segments text) as Hs. revert cwd Hcwd.
  induction Hs as [|s segments Hs _ IH]; intros cwd Hcwd; [done|]. cbn [foldl]. apply IH. unfold enter.
  case_bool_decide as H1; [done|]. case_bool_decide as H2.
  - destruct cwd as [|s' cwd _] using rev_ind; [done|]. rewrite removelast_last. by apply Forall_app in Hcwd as [? _].
  - apply Forall_app. split; [done|]. apply Forall_singleton. split_and!; [tauto..|done].
Qed.

Lemma resolve_join q p name :
  Forall plain p → plain name → foldl enter q (split_slash (join (js "/") p ++ 47%N :: name)) = q ++ p ++ [name].
Proof.
  intros Hp Hname. assert (Forall (λ c, c ≠ 47%N) name) as Hn by apply Hname.
  revert q. induction Hp as [|s p Hs Hp IH]; intros q.
  - change (foldl enter (enter q []) (split_slash name) = q ++ [name]). rewrite split_slash_plain by done.
    by apply enter_plain.
  - assert (Forall (λ c, c ≠ 47%N) s) as Hsl by apply Hs. destruct p as [|s' p].
    + change (join (js "/") [s]) with s. rewrite split_slash_app, split_slash_plain by done.
      cbn [foldl]. rewrite !enter_plain by done. by rewrite <- (assoc_L (++)).
    + change (join (js "/") (s :: s' :: p)) with (s ++ js "/" ++ join (js "/") (s' :: p)).
      rewrite <- !(assoc_L (++)). change (js "/" ++ ?t) with (47%N :: t). rewrite split_slash_app by done.
      cbn [foldl]. rewrite enter_plain, IH by done. by rewrite <- (assoc_L (++)).
Qed.

(** The text of a path with a name below it, as an absolute path *)
Lemma resolve_text p name :
  Forall plain p → plain name → resolve_in [] (path_text p ++ js "/" ++ name) = p ++ [name].
Proof.
  intros Hp Hname. unfold resolve_in, path_text. rewrite <- (assoc_L (++)).
  change (js "/" ++ ?t) with (47%N :: t). change (split_slash (47%N :: ?t)) with ([] :: split_slash t).
  cbn [foldl]. by apply (resolve_join []).
Qed.

(** ** What init leaves *)

Lemma installed_disk target es0 bytes es :
  disk_ok es0 → installed target es0 bytes es →
  disk_ok es ∧ names es target = [OUTPUT_FILE] ∧
  (∃ i, type i = RegularFile ∧ es !! out target = Some (file_entry i bytes)) ∧
  ∃ e, es !! target = Some e ∧ is_directory e.
Proof.
  intros Hok (made & es1 & i & [Hp (e & He & Hd) Hn] & Hi & ->). pose proof (progress_ok _ _ _ _ _ Hok Hp) as Hok1.
  split_and!.
  - by eapply with_file_ok.
  - by apply with_file_names.
  - exists i. split; [done|]. apply lookup_insert_eq.
  - exists e. split; [by apply with_file_target|done].
Qed.

(** The working directory and the assets stay what they are. *)
Definition keeps (d d' : disk) : Prop := directory d' = directory d ∧ assets d' = assets d.
Lemma append_keeps h bytes d : keeps d (append_bytes h bytes d).
Proof. unfold append_bytes. by destruct (handle_entry h d) as [[p e]|]. Qed.
Lemma perform_keeps X (c : call X) d : keeps d (perform X c d).2.
Proof.
  destruct c; cbn [perform]; unfold open_exclusive, create, remove_directory, remove_file; repeat case_match; simplify_eq/=;
    try done; apply append_keeps.
Qed.
Lemma fail_keeps X (c : call X) f d x d' : fail X c f d = Some (x, d') → keeps d d'.
Proof. destruct c; cbn [fail]; intros H; simplify_eq; try done; apply append_keeps. Qed.
Lemma run_keeps {A} (m : prog A) d fs : keeps d (run_prog disk_handler m (d, fs)).2.1.
Proof.
  revert d fs. induction m as [a|X c k IH]; intros d fs; cbn [run_prog]; [done|].
  destruct (disk_handler X c (d, fs)) as [x [d1 fs1]] eqn:E. destruct (IH x d1 fs1) as [H1 H2].
  assert (keeps d d1) as [H3 H4]; [|split; congruence].
  unfold disk_handler in E. destruct (head fs) as [[f|]|].
  - destruct (fail X c f d) as [[y d2]|] eqn:Ef; cbn [default] in E.
    + injection E as <- <- <-. by eapply fail_keeps.
    + pose proof (perform_keeps X c d) as H. destruct (perform X c d) as [y d2]. by injection E as <- <- <-.
  - pose proof (perform_keeps X c d) as H. destruct (perform X c d) as [y d2]. by injection E as <- <- <-.
  - pose proof (perform_keeps X c d) as H. destruct (perform X c d) as [y d2]. by injection E as <- <- <-.
Qed.

Section workflow.
Context (hash : jsstr → jsstr) (syntax_message : jsstr → jsstr).

(** An accepted template is the text of the asset, and a valid graph. *)
Lemma template_of_ok d template :
  template_of hash syntax_message d = Ok template →
  ∃ bytes document, assets d ResearchTemplate = Ok bytes ∧ template_source template = utf8_text bytes ∧
    json_parse (template_source template) = Some document ∧
    valid (compile_json hash document) = true ∧
    graphHash (compile_json hash document) = Some (template_graphHash template).
Proof.
  unfold template_of, loadTemplate. cbn [run_prog prog_bind ask disk_handler head tail perform await sys].
  destruct (assets d ResearchTemplate) as [bytes|e]; cbn [run_prog prog_bind returns throws]; [|done]. cbv zeta.
  destruct (json_parse (utf8_text bytes)) as [document|] eqn:Hparse; [|done].
  destruct (valid _) eqn:Hv; [|done]. destruct (graphHash _) as [h|] eqn:Hh; [|done].
  intros [= <-]. exists bytes, document. by split_and!.
Qed.

Lemma template_of_assets d d' :
  assets d' = assets d → template_of hash syntax_message d' = template_of hash syntax_message d.
Proof.
  intros Has. unfold template_of, loadTemplate. cbn [run_prog prog_bind ask disk_handler head tail perform await sys].
  rewrite Has. destruct (assets d ResearchTemplate) as [bytes|e]; cbn [run_prog prog_bind returns throws]; [|done].
  cbv zeta. destruct (json_parse (utf8_text bytes)) as [document|]; [|done].
  destruct (valid _); [|done]. by destruct (graphHash _).
Qed.

(** ** A graph command on a file of the disk *)

Lemma read_file_run d file i bytes :
  disk_ok (entries d) → entries d !! absolute d file = Some (file_entry i bytes) → type i = RegularFile →
  perform _ (ReadFile file) d = (Ok bytes, d).
Proof.
  intros Hok He Hi. cbn [perform]. rewrite (find_some _ Hok _ _ He). csimpl.
  unfold read_entry, follow. cbn [entry_stats file_entry content].
  rewrite (bool_decide_eq_false_2 (_ = SymbolicLink)) by congruence. by rewrite bool_decide_eq_false_2 by congruence.
Qed.

Lemma parse_validate rest :
  Cli.parseArguments [js "validate"; 47%N :: rest; js "--json"] =
  Ok (Cli.Command (Cli.Build_ParsedCommand Cli.validate (Some (47%N :: rest)) true false None)).
Proof. reflexivity. Qed.

Lemma validate_run d rest i bytes document :
  let file := 47%N :: rest in
  let m := Cli.run hash syntax_message [js "validate"; file; js "--json"] in
  let validation := validateGraphDocument hash document in
  disk_ok (entries d) → entries d !! absolute d file = Some (file_entry i bytes) → type i = RegularFile →
  json_parse (utf8_text bytes) = Some document → v_valid validation = true →
  (run_prog disk_handler m (d, [])).1 = Cli.success ∧
  output (run_trace disk_handler m (d, [])) =
    [(Stdout, Cli.terminated (stringify (Cli.json_envelope
       (Cli.Build_MachineEnvelope (Some Cli.validate) Cli.success (Some (Cli.validationData file validation)) None))))].
Proof.
  intros file m validation Hok He Hi Hparse Hv.
  assert (∃ k, m = Vis (ReadFile file) k ∧ k (Ok bytes) = Vis (Print Stdout (Cli.terminated (stringify (Cli.json_envelope
    (Cli.Build_MachineEnvelope (Some Cli.validate) Cli.success (Some (Cli.validationData file validation)) None)))))
    (λ _, Ret Cli.success)) as (k & -> & Hk).
  { unfold m, Cli.run, file. rewrite parse_validate. fold file. eexists. split; [reflexivity|].
    cbn [prog_bind ask await returns]. rewrite Hparse. cbn [prog_bind returns]. cbn [Cli.parsed_command Cli.parsed_json].
    fold validation. rewrite Hv. reflexivity. }
  pose proof (read_file_run d file i bytes Hok He Hi) as Hread.
  cbn [run_prog run_trace disk_handler head tail]. rewrite Hread, Hk. by split.
Qed.

Lemma installed_file_bytes template bytes document d target es0 :
  disk_ok es0 → Forall (λ b, b < 256)%N bytes → template_source template = utf8_text bytes →
  json_parse (template_source template) = Some document → Forall plain target →
  installed target es0 (utf8_encode (template_source template)) (entries d) →
  disk_ok (entries d) ∧ names (entries d) target = [OUTPUT_FILE] ∧
  (∃ e, entries d !! target = Some e ∧ is_directory e) ∧
  ∃ i stored, type i = RegularFile ∧ entries d !! absolute d (path_text target ++ js "/" ++ OUTPUT_FILE) = Some (file_entry i stored) ∧
    json_parse (utf8_text stored) = Some document.
Proof.
  intros Hok Hbytes Hsource Hparse Htarget Hinst. apply installed_disk in Hinst as (Hok' & Hn & (i & Hi & He) & Hdir); [|done].
  split_and!; [done..|]. exists i, (utf8_encode (template_source template)). split; [done|]. split.
  - unfold absolute. change (starts_with (js "/") _) with true. cbn match. rewrite resolve_text; [done..|].
    apply (bool_decide_unpack _). vm_compute. exact I.
  - rewrite utf8_text_encode; [done|]. rewrite Hsource. by apply utf8_text_utf16.
Qed.

(** C33. What init installs, [graph validate --json] accepts.  After a successful run of
    init - on any well-formed disk, with at most one failing call - [graph validate
    --json] on the file that the report names succeeds and prints one envelope, with a
    valid graph and the very hash that init reported; and another init in the same place
    is refused as not empty, and changes nothing. *)
Theorem init_then_validate dir d fs report :
  disk_ok (entries d) → Forall plain (directory d) → fault_count fs ≤ 1 →
  (∀ bytes, assets d ResearchTemplate = Ok bytes → Forall (λ b, b < 256)%N bytes) →
  let init w := run_prog disk_handler (initializeGraphProject hash syntax_message dir false) w in
  (init (d, fs)).1 = Ok report →
  let d' := (init (d, fs)).2.1 in
  let file := targetDirectory report ++ js "/" ++ OUTPUT_FILE in
  let m := Cli.run hash syntax_message [js "validate"; file; js "--json"] in
  (∃ document, let validation := validateGraphDocument hash document in
    v_valid validation = true ∧ v_canonicalSha256 validation = Some (report_graphHash report) ∧
    (run_prog disk_handler m (d', [])).1 = Cli.success ∧
    output (run_trace disk_handler m (d', [])) =
      [(Stdout, Cli.terminated (stringify (Cli.json_envelope
         (Cli.Build_MachineEnvelope (Some Cli.validate) Cli.success (Some (Cli.validationData file validation)) None))))]) ∧
  (∃ message, (init (d', [])).1 = Err (InitError (js "GECLI_INIT_TARGET_NOT_EMPTY") message)) ∧
  entries (init (d', [])).2.1 = entries d'.
Proof.
  intros Hok Hdir Hfs Hassets init Hr d' file m. unfold init in Hr.
  destruct (init_run hash syntax_message dir false d fs Hok Hfs) as (n & _ & [Hout _]). cbv zeta in Hout. rewrite Hr in Hout.
  destruct Hout as (_ & Ht & template & Htemplate & Hhash & Hinst).
  destruct (template_of_ok _ _ Htemplate) as (bytes & document & Hasset & Hsource & Hparse & Hvalid & Hgraph).
  destruct (run_keeps (initializeGraphProject hash syntax_message dir false) d fs) as [Hcwd Has].
  change (run_prog disk_handler (initializeGraphProject hash syntax_message dir false) (d, fs)).2.1 with d' in Hinst, Hcwd, Has.
  set (target := absolute d dir) in *.
  assert (Forall plain target) as Hplain by (apply resolve_plain; by case_match).
  destruct (installed_file_bytes template bytes document d' target (entries d) Hok (Hassets _ Hasset) Hsource Hparse Hplain Hinst)
    as (Hok' & Hnames & (e & He & Hd) & i & stored & Hi & Hfile & Hstored).
  assert (file = path_text target ++ js "/" ++ OUTPUT_FILE) as Ef by (unfold file; by rewrite Ht).
  split; [|].
  - exists document. cbv zeta. split; [done|]. split; [by rewrite Hhash|].
    unfold m. rewrite Ef in *. by eapply (validate_run d' _ i stored document).
  - destruct (init_run hash syntax_message dir false d' [] Hok') as (n' & Hn' & [Hout' Hcode]); [by apply Nat.le_0_l|].
    cbv zeta in Hout', Hcode. fold (init (d', [])) in Hout', Hcode. destruct Hcode as [Hlt|Hcode]; [by apply Nat.nlt_0_r in Hlt|].
    assert (template_of hash syntax_message d' = template_of hash syntax_message d) as Et by (by apply template_of_assets).
    assert (absolute d' dir = target) as Ea by (unfold target, absolute; by rewrite Hcwd).
    rewrite Et, Htemplate, Ea in Hcode. unfold init_code, target_error in Hcode. rewrite (find_some _ Hok' _ _ He) in Hcode.
    unfold directory_error in Hcode. rewrite Hnames in Hcode. unfold isSymbolicLink, isDirectory in Hcode.
    rewrite Hd in Hcode. cbn in Hcode. destruct Hcode as (x & Hx & message & ->). split; [by exists message|].
    rewrite Hx in Hout'. by destruct Hout' as [|(Hlt & _)]; [|apply Nat.nlt_0_r in Hlt].
Qed.
End workflow.

(** A run that nothing disturbs, in a directory that is not there yet *)
Lemma init_then_validate_witness :
  let init w := run_prog disk_handler (initializeGraphProject zero_hash (λ _, []) (js "a/b") false) w in
  (∃ report, (init (sample_disk, [])).1 = Ok report) ∧
  ∃ message, (init ((init (sample_disk, [])).2.1, [])).1 = Err (InitError (js "GECLI_INIT_TARGET_NOT_EMPTY") message).
Proof.
  assert (∃ report, (run_prog disk_handler (initializeGraphProject zero_hash (λ _, []) (js "a/b") false) (sample_disk, [])).1 =
    Ok report) as [report Hr] by (eexists; vm_compute; reflexivity).
  assert (Forall plain (directory sample_disk)) as Hd by (apply (bool_decide_unpack _); vm_compute; exact I).
  assert (Forall (λ b, b < 256)%N (utf8_encode (stringify diamond_document))) as Hb
    by (apply (bool_decide_unpack _); vm_compute; exact I).
  assert (∀ bytes, assets sample_disk ResearchTemplate = Ok bytes → Forall (λ b, b < 256)%N bytes) as Ha
    by (intros bytes E; exact (eq_ind _ (Forall _) Hb _ (f_equal (λ r, match r with Ok b => b | Err _ => [] end) E))).
  pose proof (init_then_validate zero_hash (λ _, []) (js "a/b") sample_disk [] report sample_disk_ok Hd (Nat.le_0_l 1) Ha) as H.
  cbv zeta in H. specialize (H Hr). split; [exists report; exact Hr|]. exact (proj1 (proj2 H)).
Defined.
