(* ===== verification/InitSpec.v ===== *)
(** * What safe initialization may do

    The calls that [initializeGraphProject] makes, under any environment whatsoever -
    other processes may change the disk between two calls, and any call may fail.  What
    it may do is stated on the history before the call: the removal of a directory is
    requested only after this run made it and looked at it again, the file is only ever
    written through the handle that created it, and a dry run only looks. *)
From S2P Require Import Prelude JsString JsNumber JsValue JsonText Utf8 Compiler CliValidation Process Disk Init.
From S2P Require InitAtomic.
#[local] Arguments js : simpl never.
#[local] Open Scope async_scope.

(** ** The contract *)

(** The calls that only look *)
Definition looks (r : request) : bool :=
  match r with
  | Request (ReadAsset _) | Request WorkingDirectory | Request (Lstat _) | Request (Stat _) | Request (Readdir _) => true
  | _ => false
  end.

(** This run made the directory and right after found it with this identity. *)
Definition made (h : list event) (p : path) (id : Stats) : Prop :=
  type id = DirectoryFile ∧ ∃ h1 h2, h = h1 ++ Event (Mkdir p) (Ok ()) :: Event (Lstat p) (Ok id) :: h2.
(** This run created the file, and the handle has this identity. *)
Definition made_file (h : list event) (p : path) (fd : handle) (id : Stats) : Prop :=
  Event (OpenExclusive p) (Ok fd) ∈ h ∧ Event (HandleStat fd) (Ok id) ∈ h.

(** A look at the path found no entry, or a link to nothing. *)
Definition missing_entry (h : list event) (p : path) : Prop :=
  ∃ e, (Event (Lstat p) (Err e) ∈ h ∨ Event (Stat p) (Err e) ∈ h) ∧ error_code e = Some (js "ENOENT").

Definition same (a b : Stats) : Prop := dev a = dev b ∧ ino a = ino b.

(** The directory was just found twice, unchanged, and empty in between. *)
Definition just_empty (h : list event) (p : path) (id : Stats) : Prop :=
  ∃ h' before, h = h' ++ [Event (Lstat p) (Ok before); Event (Readdir p) (Ok []); Event (Lstat p) (Ok id)] ∧
    type before = DirectoryFile ∧ type id = DirectoryFile ∧ same before id.

Section contract.
Context (target : path) (dryRun : bool).
Definition output_path : path := join_name target OUTPUT_FILE.

Inductive allowed (h : list event) : request → Prop :=
  | allow_look r : looks r = true → allowed h r
  | allow_mkdir p :
      dryRun = false → p `prefix_of` target →
      missing_entry h p → allowed h (Request (Mkdir p))
  | allow_rmdir p id now :
      made h p id → last h = Some (Event (Lstat p) (Ok now)) → type now = DirectoryFile → same now id →
      allowed h (Request (Rmdir p))
  | allow_open id : dryRun = false → just_empty h target id → allowed h (Request (OpenExclusive output_path))
  | allow_stat fd : Event (OpenExclusive output_path) (Ok fd) ∈ h → allowed h (Request (HandleStat fd))
  | allow_write fd bytes :
      Event (OpenExclusive output_path) (Ok fd) ∈ h → Event (ReadAsset ResearchTemplate) (Ok bytes) ∈ h →
      allowed h (Request (HandleWrite fd (utf8_text bytes)))
  | allow_sync fd : Event (OpenExclusive output_path) (Ok fd) ∈ h → allowed h (Request (HandleSync fd))
  | allow_close fd : Event (OpenExclusive output_path) (Ok fd) ∈ h → allowed h (Request (HandleClose fd))
  | allow_unlink h' fd id directory now :
      made_file h output_path fd id →
      h = h' ++ [Event (Lstat target) (Ok directory); Event (Lstat output_path) (Ok now)] →
      type directory = DirectoryFile → type now = RegularFile → same now id →
      allowed h (Request (Unlink output_path)).
End contract.

(** What a successful run that is not dry has done and seen: the file was created,
    written, synchronized and closed, and afterwards the target was the directory in
    which it was created and held this file and nothing else. *)
Definition completed (target : path) (h : list event) : Prop :=
  ∃ bytes fd id directory before after now,
    Event (ReadAsset ResearchTemplate) (Ok bytes) ∈ h ∧ made_file h (output_path target) fd id ∧
    Event (HandleWrite fd (utf8_text bytes)) (Ok ()) ∈ h ∧ Event (HandleSync fd) (Ok ()) ∈ h ∧
    (∃ h', h = h' ++ [Event (HandleClose fd) (Ok ()); Event (Lstat target) (Ok before);
       Event (Readdir target) (Ok [OUTPUT_FILE]); Event (Lstat target) (Ok after);
       Event (Lstat (output_path target)) (Ok now)]) ∧
    (∃ h1 h2, h = h1 ++ h2 ∧ just_empty h1 target directory) ∧
    type before = DirectoryFile ∧ same before directory ∧ same after directory ∧
    type now = RegularFile ∧ same now id.

(** ** Steps *)

Section steps.
Context (target : path) (dryRun : bool).
Abbreviation may := (always (allowed target dryRun)).

Lemma may_ask {X} (c : call X) (post : list event → X → Prop) h :
  allowed target dryRun h (Request c) → (∀ x, post (h ++ [Event c x]) x) → may post h (ask c).
Proof. done. Qed.
Lemma may_then {A B} (post : list event → B → Prop) (m : prog A) (f : A → prog B) h :
  may (λ h a, may post h (f a)) h m → may post h (prog_bind f m).
Proof. apply always_bind. Qed.
Lemma may_call {X B} (c : call X) (post : list event → B → Prop) (f : X → prog B) h :
  allowed target dryRun h (Request c) → (∀ x, may post (h ++ [Event c x]) (f x)) → may post h (prog_bind f (ask c)).
Proof. intros Hc Hf. by apply may_then, may_ask. Qed.

(** A program that only looks; it extends the history. *)
Fixpoint only_looks {A} (m : prog A) : Prop :=
  match m with Ret _ => True | Vis c k => looks (Request c) = true ∧ ∀ x, only_looks (k x) end.
Lemma only_looks_bind {A B} (m : prog A) (f : A → prog B) :
  only_looks m → (∀ a, only_looks (f a)) → only_looks (prog_bind f m).
Proof. intros Hm Hf. induction m as [a|X c k IH]; [apply Hf|]. destruct Hm as [Hc Hk]. split; [done|]. intros x. by apply IH. Qed.
Lemma only_looks_always {A} (m : prog A) h : only_looks m → may (λ h' _, h `prefix_of` h') h m.
Proof.
  revert h. induction m as [a|X c k IH]; intros h Hm; cbn [always]; [done|]. destruct Hm as [Hc Hk].
  split; [by apply allow_look|]. intros x. eapply always_mono; [by apply IH|].
  intros h' a Hh'. etrans; [by eexists|exact Hh'].
Qed.
Lemma only_looks_then {A B} (post : list event → B → Prop) (m : prog A) (f : A → prog B) h :
  only_looks m → (∀ a h', h `prefix_of` h' → may post h' (f a)) → may post h (prog_bind f m).
Proof.
  intros Hm Hf. apply may_then. eapply always_mono; [by apply only_looks_always|]. intros h' a Hh'. by apply Hf.
Qed.

(** ** Inspection only looks *)

Lemma looks_ask {X B} (c : call X) (f : X → prog B) :
  looks (Request c) = true → (∀ x, only_looks (f x)) → only_looks (prog_bind f (ask c)).
Proof. done. Qed.
Lemma looks_sys {A} (c : call (answer A)) : looks (Request c) = true → only_looks (sys c).
Proof. intros Hc. split; [done|]. by intros []. Qed.
Lemma looks_await {E A B} (m : async E A) (f : A → async E B) :
  only_looks m → (∀ a, only_looks (f a)) → only_looks (await m f).
Proof. intros Hm Hf. apply only_looks_bind; [done|]. intros []; [apply Hf|done]. Qed.
Lemma looks_catch {E F A} (m : async E A) (f : E → async F A) :
  only_looks m → (∀ e, only_looks (f e)) → only_looks (catch m f).
Proof. intros Hm Hf. apply only_looks_bind; [done|]. intros []; [done|apply Hf]. Qed.

Lemma inspect_ancestor_looks t candidate link : only_looks (inspect_ancestor t candidate link).
Proof.
  unfold inspect_ancestor. apply looks_await; [by apply looks_sys|]. intros found. destruct (isSymbolicLink found).
  - destruct link; [done|]. apply looks_await; [by apply looks_sys|]. intros followed. by case_match.
  - by case_match.
Qed.
Lemma assert_ancestor_looks t up : only_looks (assert_ancestor t up).
Proof.
  induction up as [|s up IH]; cbn [assert_ancestor]; apply looks_catch; try apply inspect_ancestor_looks;
    intros []; try done; by case_match.
Qed.
Lemma read_entries_looks t : only_looks (read_entries t).
Proof.
  unfold read_entries. apply looks_catch; [|done]. apply looks_await; [by apply looks_sys|]. intros entries.
  apply looks_await; [by apply looks_sys|done].
Qed.
Lemma stable_and_empty_looks t before changed : only_looks (stable_and_empty t before changed).
Proof.
  unfold stable_and_empty. case_match; [done|]. case_match; [done|]. apply looks_await; [apply read_entries_looks|].
  intros [entries after]. cbv zeta. by repeat case_match.
Qed.
Lemma inspectTarget_looks t : only_looks (inspectTarget t).
Proof.
  unfold inspectTarget. apply looks_ask; [done|]. intros [before|e].
  - by apply looks_await; [apply stable_and_empty_looks|].
  - case_match; [|done]. by apply looks_await; [apply assert_ancestor_looks|].
Qed.

(** ** What the history keeps *)

Lemma prefix_elem (h h' : list event) e : h `prefix_of` h' → e ∈ h → e ∈ h'.
Proof. intros [k ->] H. apply elem_of_app. by left. Qed.
Lemma made_mono h h' p id : h `prefix_of` h' → made h p id → made h' p id.
Proof.
  intros [k ->] (Ht & h1 & h2 & ->). split; [done|]. exists h1, (h2 ++ k). by rewrite <- (assoc_L (++)).
Qed.
Lemma missing_mono h h' p : h `prefix_of` h' → missing_entry h p → missing_entry h' p.
Proof. intros Hh (e & H & He). exists e. split; [|done]. destruct H; [left|right]; by eapply prefix_elem. Qed.
Lemma prefix_snoc (h : list event) e : h `prefix_of` h ++ [e].
Proof. by eexists. Qed.
Lemma snoc_elem (h : list event) e : e ∈ h ++ [e].
Proof. apply elem_of_app. right. left. Qed.

Definition all_made (h : list event) (created : list OwnedDirectory) : Prop :=
  Forall (λ o, made h (owned_path o) (owned_identity o)) created.
Lemma all_made_mono h h' created : h `prefix_of` h' → all_made h created → all_made h' created.
Proof. intros Hh H. eapply Forall_impl; [exact H|]. intros o. by apply made_mono. Qed.

Lemma plain_directory s : isSymbolicLink s || negb (isDirectory s) = false ↔ type s = DirectoryFile.
Proof.
  unfold isSymbolicLink, isDirectory. rewrite orb_false_iff, negb_false_iff, bool_decide_eq_false, bool_decide_eq_true.
  split; [by intros []|]. intros ->. done.
Qed.
Lemma sameIdentity_same a b : sameIdentity a b = true ↔ same a b.
Proof. unfold sameIdentity, same. by rewrite andb_true_iff, !N.eqb_eq. Qed.
Lemma changed_directory a b :
  isSymbolicLink a || negb (isDirectory a) || negb (sameIdentity a b) = false ↔ type a = DirectoryFile ∧ same a b.
Proof. by rewrite orb_false_iff, plain_directory, negb_false_iff, sameIdentity_same. Qed.
Lemma changed_file a b :
  isSymbolicLink a || negb (isFile a) || negb (sameIdentity a b) = false ↔ type a = RegularFile ∧ same a b.
Proof.
  rewrite !orb_false_iff, !negb_false_iff, sameIdentity_same. unfold isSymbolicLink, isFile.
  rewrite bool_decide_eq_false, bool_decide_eq_true. split; [tauto|]. intros [-> ?]. done.
Qed.

(** ** Directories *)

Abbreviation extends h := (λ h' _, h `prefix_of` h').

(** One more event: the rest extends the history before it, too. *)
Lemma may_extend {A} (h : list event) e (P : list event → A → Prop) (m : prog A) :
  may (λ h' a, h ++ [e] `prefix_of` h' ∧ P h' a) (h ++ [e]) m → may (λ h' a, h `prefix_of` h' ∧ P h' a) (h ++ [e]) m.
Proof.
  intros H. eapply always_mono; [exact H|]. intros h' a [Hh Ha]. split; [|done]. etrans; [apply prefix_snoc|exact Hh].
Qed.
Lemma may_weaken {A} (h h0 : list event) (P : list event → A → Prop) (m : prog A) :
  h `prefix_of` h0 → may (λ h' a, h0 `prefix_of` h' ∧ P h' a) h0 m → may (λ h' a, h `prefix_of` h' ∧ P h' a) h0 m.
Proof. intros Hh H. eapply always_mono; [exact H|]. intros h' a [? Ha]. split; [|done]. by etrans. Qed.

Lemma remove_directories_may created h :
  all_made h created → may (λ h' _, h `prefix_of` h' ∧ True) h (remove_directories created).
Proof.
  revert h. induction created as [|o created IH]; intros h Hm; cbn [remove_directories]; [done|].
  apply Forall_cons in Hm as [Ho Hm]. apply may_call; [by apply allow_look|]. intros [current|e].
  - destruct (isSymbolicLink current || _ || _) eqn:Hc.
    + apply may_extend, IH. by eapply all_made_mono; [apply prefix_snoc|].
    + apply changed_directory in Hc as [Ht Hs]. apply may_call.
      * apply (allow_rmdir _ _ _ _ (owned_identity o) current); [|by rewrite last_snoc|done..].
        by eapply made_mono; [apply prefix_snoc|].
      * intros removed. apply (may_weaken h); [by do 2 eapply prefix_app_r|]. apply IH.
        eapply all_made_mono; [|exact Hm]. by do 2 eapply prefix_app_r.
  - apply may_extend, IH. by eapply all_made_mono; [apply prefix_snoc|].
Qed.

Lemma cleanup_and_throw_may {A} (P : list event → result thrown A → Prop) created e h :
  all_made h created → (∀ h', P h' (Err e)) →
  may (λ h' r, h `prefix_of` h' ∧ P h' r) h (cleanup_and_throw created e).
Proof.
  intros Hm HP. unfold cleanup_and_throw, cleanupCreatedDirectories. apply may_then.
  eapply always_mono; [apply remove_directories_may|].
  - by apply List.Forall_rev.
  - intros h' u [Hh _]. by split.
Qed.

(** An error of the inspection is the error of a look at the candidate. *)
Lemma inspect_ancestor_may candidate link h :
  (∀ e, link ≠ Some (OtherError e)) →
  may (λ h' r, h `prefix_of` h' ∧
    ∀ e, r = Err (OtherError e) → Event (Lstat candidate) (Err e) ∈ h' ∨ Event (Stat candidate) (Err e) ∈ h')
    h (inspect_ancestor target candidate link).
Proof.
  intros Hlink. unfold inspect_ancestor. apply may_then, may_call; [by apply allow_look|].
  intros [found|e]; cbn [always returns throws]; [|split; [apply prefix_snoc|]; intros e' [= <-]; left; apply snoc_elem].
  destruct (isSymbolicLink found).
  - destruct link as [e|]; [split; [apply prefix_snoc|]; intros e' [= ->]; by destruct (Hlink e')|].
    apply may_then, may_call; [by apply allow_look|].
    intros [followed|e]; cbn [always returns throws].
    + case_match; (split; [by do 2 eapply prefix_app_r|done]).
    + split; [by do 2 eapply prefix_app_r|]. intros e' [= <-]. right. apply snoc_elem.
  - case_match; (split; [apply prefix_snoc|done]).
Qed.

Definition all_missing (h : list event) (missing : list path) : Prop :=
  Forall (λ p, p `prefix_of` target ∧ missing_entry h p) missing.
Lemma all_missing_mono h h' missing : h `prefix_of` h' → all_missing h missing → all_missing h' missing.
Proof. intros Hh H. eapply Forall_impl; [exact H|]. intros p [Hp Hm]. split; [done|]. by eapply missing_mono. Qed.

Lemma rev_cons_prefix (s : jsstr) up : rev (s :: up) `prefix_of` target → rev up `prefix_of` target.
Proof. cbn [rev]. intros [k ->]. rewrite <- (assoc_L (++)). by eexists. Qed.

Lemma find_missing_may up missing h :
  rev up `prefix_of` target → all_missing h missing →
  may (λ h' r, h `prefix_of` h' ∧ ∀ l, r = Ok l → all_missing h' l) h (find_missing target up missing).
Proof.
  revert missing h. induction up as [|s up IH]; intros missing h Hup Hm; cbn [find_missing]; cbv zeta;
    apply may_then; (eapply always_mono; [apply inspect_ancestor_may; intros e; by case_match|]);
    intros h' [[]|[code message|e]] [Hh Hev]; cbn [always returns throws];
    try (split; [done|]; intros l [= <-]; by eapply all_missing_mono); try done;
    (case_bool_decide as He; [|done]); [done|].
  eapply may_weaken; [exact Hh|]. apply IH; [by eapply rev_cons_prefix|]. constructor.
  - split; [done|]. exists e. split; [|done]. by apply Hev.
  - by eapply all_missing_mono.
Qed.

Lemma create_directory_may p h :
  dryRun = false → p `prefix_of` target → missing_entry h p →
  may (λ h' r, h `prefix_of` h' ∧ ∀ id, r = Ok id → made h' p id) h (create_directory p).
Proof.
  intros Hd Hp Hm. unfold create_directory. apply may_then, may_call; [by apply allow_mkdir|].
  intros [[]|e]; cbn [always returns throws]; [|split; [apply prefix_snoc|done]].
  apply may_then, may_call; [by apply allow_look|].
  intros [found|e]; cbn [always returns throws]; [|split; [by do 2 eapply prefix_app_r|done]].
  destruct (isSymbolicLink found || negb (isDirectory found)) eqn:Hf; cbn [always returns throws];
    (split; [by do 2 eapply prefix_app_r|]); [done|]. apply plain_directory in Hf. intros id [= <-]. split; [done|].
  exists h, []. by rewrite <- (assoc_L (++)).
Qed.

Lemma create_directories_may missing created h :
  dryRun = false → all_missing h missing → all_made h created →
  may (λ h' r, h `prefix_of` h' ∧ ∀ l, r = Ok l → all_made h' l) h (create_directories missing created).
Proof.
  intros Hd. revert created h. induction missing as [|p missing IH]; intros created h Hm Hc; cbn [create_directories].
  { cbn [always returns]. split; [done|]. by intros l [= <-]. }
  apply Forall_cons in Hm as [[Hp Hmissing] Hm]. apply may_then.
  eapply always_mono; [by apply create_directory_may|]. intros h' [found|[code message|e]] [Hh Hmade].
  - eapply may_weaken; [exact Hh|]. apply IH; [by eapply all_missing_mono|]. apply Forall_app. split.
    + by eapply all_made_mono.
    + constructor; [|done]. by apply Hmade.
  - eapply may_weaken; [exact Hh|]. apply cleanup_and_throw_may; [by eapply all_made_mono|done].
  - cbv zeta. case_bool_decide.
    + eapply may_weaken; [exact Hh|]. apply may_call; [by apply allow_look|].
      intros [raced|e'].
      * case_match; apply may_extend; [apply IH|apply cleanup_and_throw_may; [|done]];
          try (eapply all_missing_mono; [|exact Hm]; by eapply prefix_app_r);
          (eapply all_made_mono; [|exact Hc]; by eapply prefix_app_r).
      * apply may_extend, cleanup_and_throw_may; [|done]. eapply all_made_mono; [|exact Hc]. by eapply prefix_app_r.
    + eapply may_weaken; [exact Hh|]. apply cleanup_and_throw_may; [by eapply all_made_mono|done].
Qed.

(** ** The file *)

Lemma negated_directory s : isSymbolicLink s = false → negb (isDirectory s) = false → type s = DirectoryFile.
Proof. intros Hl Hd. apply plain_directory. by rewrite Hl, Hd. Qed.

Lemma require_may h :
  may (λ h' r, h `prefix_of` h' ∧ ∀ id, r = Ok id → just_empty h' target id) h (requireEmptyStableDirectory target).
Proof.
  unfold requireEmptyStableDirectory. apply may_call; [by apply allow_look|].
  intros [before|e]; cbn [always throws]; [|split; [apply prefix_snoc|done]]. unfold stable_and_empty.
  destruct (isSymbolicLink before) eqn:Hl; cbn [always throws]; [split; [apply prefix_snoc|done]|].
  destruct (negb (isDirectory before)) eqn:Hd; cbn [always throws]; [split; [apply prefix_snoc|done]|].
  unfold read_entries. apply may_then. unfold catch. apply may_then, may_then, may_call; [by apply allow_look|].
  assert (∀ e1 e2, h `prefix_of` ((h ++ [e1]) ++ [e2])) as H2 by (intros; by do 2 eapply prefix_app_r).
  assert (∀ e1 e2 e3, h `prefix_of` (((h ++ [e1]) ++ [e2]) ++ [e3])) as H3 by (intros; by do 3 eapply prefix_app_r).
  intros [entries|e]; cbn [always throws returns]; [|by split].
  apply may_then, may_call; [by apply allow_look|]. intros [after|e]; cbn [always throws returns]; [|by split].
  cbv zeta. cbn [fst snd].
  destruct (isSymbolicLink after || negb (isDirectory after) || negb (sameIdentity before after)) eqn:Ha; cbn [always throws]; [by split|].
  destruct entries as [|entry entries]; cbn [length]; [|by split].
  apply orb_false_iff in Ha as [Ha Hs%negb_false_iff]. apply plain_directory in Ha. apply sameIdentity_same in Hs.
  change (0 <? 0) with false. cbn [always returns]. split; [done|]. intros id [= <-]. exists h, before.
  split; [by rewrite <- !(assoc_L (++))|]. split; [by apply negated_directory|by split].
Qed.

Section write.
Context (template : Template) (directory : Stats) (created : list OwnedDirectory) (bytes : list N) (h0 : list event).
Hypothesis not_dry : dryRun = false.
Hypothesis source : template_source template = utf8_text bytes.
Hypothesis asset : Event (ReadAsset ResearchTemplate) (Ok bytes) ∈ h0.
Hypothesis empty : just_empty h0 target directory.
Hypothesis dirs : all_made h0 created.

(** After the file is open: what the catch clause learns *)
Definition known (h : list event) (fd : handle) (failure : write_failure) : Prop :=
  let '(error, fileIdentity, closed) := failure in
  ∀ id, fileIdentity = Some id → Event (HandleStat fd) (Ok id) ∈ h.

(** One stage: it fails with what is known, or goes on. *)
Lemma stage_may {A B} identity closed (c : call (answer A)) (f : A → async write_failure B)
    (P : list event → result write_failure B → Prop) h :
  allowed target dryRun h (Request c) →
  (∀ e, P (h ++ [Event c (Err e)]) (Err (OtherError e, identity, closed))) →
  (∀ a, may (λ h' r, h ++ [Event c (Ok a)] `prefix_of` h' ∧ P h' r) (h ++ [Event c (Ok a)]) (f a)) →
  may (λ h' r, h `prefix_of` h' ∧ P h' r) h (await (stage identity closed c) f).
Proof.
  intros Hc He Hf. apply may_then. unfold stage. apply may_then, may_then, may_call; [done|].
  intros [a|e]; cbn [always returns throws].
  - apply may_extend, Hf.
  - split; [apply prefix_snoc|apply He].
Qed.

Lemma cleanupOwnedFile_may fd id h :
  made_file h (output_path target) fd id →
  may (λ h' _, h `prefix_of` h' ∧ True) h (cleanupOwnedFile target (output_path target) directory id).
Proof.
  intros [Ho Hs]. unfold cleanupOwnedFile. apply may_call; [by apply allow_look|].
  intros [d|e]; [|split; [apply prefix_snoc|done]].
  destruct (isSymbolicLink d || _ || _) eqn:Hd; [split; [apply prefix_snoc|done]|]. apply changed_directory in Hd as [Hd _].
  apply may_call; [by apply allow_look|]. intros [f|e]; [|split; [by do 2 eapply prefix_app_r|done]].
  destruct (isSymbolicLink f || _ || _) eqn:Hf; [split; [by do 2 eapply prefix_app_r|done]|].
  apply changed_file in Hf as [Hf Hid]. apply may_call.
  - eapply (allow_unlink _ _ _ h fd id d f); [|by rewrite <- (assoc_L (++))|done..].
    split; (eapply prefix_elem; [|eassumption]); by do 2 eapply prefix_app_r.
  - intros [[]|e]; (split; [by do 3 eapply prefix_app_r|done]).
Qed.

Lemma write_failed_may fd failure h :
  h0 `prefix_of` h → Event (OpenExclusive (output_path target)) (Ok fd) ∈ h → known h fd failure →
  may (λ h' r, h `prefix_of` h' ∧ r ≠ Ok ()) h (write_failed target (output_path target) directory created fd failure).
Proof.
  intros Hh Ho Hk. destruct failure as [[error fileIdentity] closed]. cbn [write_failed known] in *. apply may_then.
  assert (may (λ h' _, h `prefix_of` h' ∧ True) h (if closed then Ret () else prog_bind (λ _, Ret ()) (ask (HandleClose fd)))) as Hclose.
  { destruct closed; [done|]. apply may_call; [by apply allow_close|]. intros x. split; [apply prefix_snoc|done]. }
  eapply always_mono; [exact Hclose|]. intros h1 [] [H1 _]. apply may_then.
  assert (may (λ h' _, h1 `prefix_of` h' ∧ True) h1
    match fileIdentity with
    | Some id => cleanupOwnedFile target (output_path target) directory id
    | None => Ret ()
    end) as Hfile.
  { destruct fileIdentity as [id|]; [|done]. apply (cleanupOwnedFile_may fd).
    split; (eapply prefix_elem; [exact H1|]); [done|by apply Hk]. }
  eapply always_mono; [exact Hfile|]. intros h2 [] [H2 _].
  eapply may_weaken; [by etrans|]. apply cleanup_and_throw_may; [|done].
  eapply all_made_mono; [|exact dirs]. etrans; [exact Hh|]. by etrans.
Qed.

Definition written (fd : handle) (h : list event) (r : result write_failure ()) : Prop :=
  match r with Err failure => known h fd failure | Ok _ => completed target h end.

Lemma write_graph_file_may fd h :
  h0 `prefix_of` h → Event (OpenExclusive (output_path target)) (Ok fd) ∈ h →
  may (λ h' r, h `prefix_of` h' ∧ written fd h' r) h
    (write_graph_file target (output_path target) (template_source template) directory fd).
Proof.
  intros Hh Ho. unfold write_graph_file. rewrite source.
  assert (∀ k e id closed, Event (HandleStat fd) (Ok id) ∈ k →
    written fd k (Err (OtherError e, Some id, closed))) as Hknown by (intros k e id closed Hk id' [= <-]; done).
  apply stage_may; [by apply allow_stat|done|]. intros id.
  set (h1 := h ++ [_]). assert (Event (HandleStat fd) (Ok id) ∈ h1) as Hid1 by apply snoc_elem.
  assert (Event (OpenExclusive (output_path target)) (Ok fd) ∈ h1) as Ho1 by (by eapply prefix_elem; [apply prefix_snoc|]).
  assert (h0 `prefix_of` h1) as Hh1 by (etrans; [exact Hh|apply prefix_snoc]).
  assert (∀ (k : list event) e, Event (HandleStat fd) (Ok id) ∈ k → Event (HandleStat fd) (Ok id) ∈ k ++ [e]) as Hstep
    by (intros k e Hk; eapply prefix_elem; [apply prefix_snoc|exact Hk]).
  apply stage_may; [|intros; apply Hknown; auto|].
  { apply allow_write; [done|]. by eapply prefix_elem. }
  intros []. set (h2 := h1 ++ [_]). assert (Event (HandleStat fd) (Ok id) ∈ h2) as Hid2 by (by apply Hstep).
  assert (h1 `prefix_of` h2) as Hh2 by apply prefix_snoc.
  apply stage_may; [apply allow_sync; by eapply prefix_elem|intros; apply Hknown; auto|].
  intros []. set (h3 := h2 ++ [_]). assert (Event (HandleStat fd) (Ok id) ∈ h3) as Hid3 by (by apply Hstep).
  assert (h2 `prefix_of` h3) as Hh3 by apply prefix_snoc.
  apply stage_may; [apply allow_close; eapply prefix_elem; [exact Hh3|]; by eapply prefix_elem|intros; apply Hknown; auto|].
  intros []. apply stage_may; [by apply allow_look|intros; apply Hknown; auto|]. intros before.
  apply stage_may; [by apply allow_look|intros; apply Hknown; auto|]. intros entries.
  apply stage_may; [by apply allow_look|intros; apply Hknown; auto 10|]. intros after.
  apply stage_may; [by apply allow_look|intros; apply Hknown; auto 10|]. intros now. cbv zeta.
  destruct (_ && bool_decide (entries = [OUTPUT_FILE])) eqn:Hstable; cbn [always returns throws]; (split; [done|]).
  2: { intros id' [= <-]. auto 20. }
  apply andb_true_iff in Hstable as [Hstable ->%bool_decide_eq_true].
  apply andb_true_iff in Hstable as [Hdir Hfile].
  apply andb_true_iff in Hdir as [[[_ Hd]%andb_true_iff Hbefore]%andb_true_iff Hafter].
  apply andb_true_iff in Hfile as [[_ Hf]%andb_true_iff Hnow].
  unfold isDirectory, isFile in Hd, Hf. apply bool_decide_eq_true in Hd, Hf.
  apply sameIdentity_same in Hbefore, Hafter, Hnow.
  exists bytes, fd, id, directory, before, after, now.
  assert (∀ e, e ∈ h3 → e ∈ ((((h3 ++ [Event (HandleClose fd) (Ok ())]) ++ [Event (Lstat target) (Ok before)]) ++
    [Event (Readdir target) (Ok [OUTPUT_FILE])]) ++ [Event (Lstat target) (Ok after)]) ++
    [Event (Lstat (output_path target)) (Ok now)]) as Hlift by (intros e He; rewrite !elem_of_app; tauto).
  split_and!; try done.
  - apply Hlift. eapply prefix_elem; [|exact asset]. etrans; [exact Hh1|]. by etrans.
  - split; apply Hlift; [|done]. eapply prefix_elem; [exact Hh3|]. by eapply prefix_elem.
  - apply Hlift. eapply prefix_elem; [exact Hh3|]. apply snoc_elem.
  - apply Hlift. apply snoc_elem.
  - exists h3. by rewrite <- !(assoc_L (++)).
  - destruct Hh1 as [k Hk]. eexists h0, _. split; [|exact empty]. unfold h3, h2. rewrite Hk, <- !(assoc_L (++)). reflexivity.
Qed.

Lemma createGraphFile_may :
  may (λ h' r, h0 `prefix_of` h' ∧ (r = Ok () → completed target h')) h0
    (createGraphFile target template directory created).
Proof.
  unfold createGraphFile. cbv zeta. fold (output_path target). apply may_call; [by eapply allow_open|].
  intros [fd|e].
  - apply may_then. set (h1 := h0 ++ [_]).
    assert (h0 `prefix_of` h1) as Hh1 by apply prefix_snoc.
    assert (Event (OpenExclusive (output_path target)) (Ok fd) ∈ h1) as Ho by apply snoc_elem.
    eapply always_mono; [by apply write_graph_file_may|]. intros h2 [[]|failure] [Hh2 Hw]; cbn [written] in Hw.
    + cbn [always returns]. split; [by etrans|done].
    + eapply may_weaken; [by etrans|]. eapply always_mono.
      * apply (write_failed_may fd); [by etrans|by eapply prefix_elem|done].
      * intros h3 r [Hh3 Hr]. split; [done|]. by intros ->.
  - apply may_extend, cleanup_and_throw_may; [|done]. eapply all_made_mono; [apply prefix_snoc|exact dirs].
Qed.
End write.
End steps.

(** ** The whole run *)

(** The target, in the working directory that the run asked for *)
Definition resolved (directory : jsstr) (t : list event) (target : path) : Prop :=
  if starts_with (js "/") directory then target = resolve_in [] directory
  else ∃ cwd t', t = Event WorkingDirectory cwd :: t' ∧ target = resolve_in cwd directory.

Section init.
Context (hash : jsstr → jsstr) (syntax_message : jsstr → jsstr).

Lemma loadTemplate_may target dryRun h :
  always (allowed target dryRun) (λ h' r, h `prefix_of` h' ∧ ∀ template, r = Ok template →
    ∃ bytes, Event (ReadAsset ResearchTemplate) (Ok bytes) ∈ h' ∧ template_source template = utf8_text bytes)
    h (loadTemplate hash syntax_message).
Proof.
  unfold loadTemplate. apply may_then, may_call; [by apply allow_look|].
  intros [bytes|e]; cbn [always returns throws]; [|split; [apply prefix_snoc|done]]. cbv zeta.
  repeat case_match; cbn [always returns throws]; (split; [apply prefix_snoc|]); try done.
  intros template [= <-]. exists bytes. split; [apply snoc_elem|done].
Qed.

(** The run after the target is known *)
Definition initialize (target : path) (dryRun : bool) : async thrown InitReport :=
  let* template := loadTemplate hash syntax_message in
  let* exists_ := inspectTarget target in
  if dryRun then
    returns (Build_InitReport (path_text target) true false false (negb exists_) [OUTPUT_FILE] TEMPLATE_NAME
               (template_graphHash template))
  else
    let* createdDirectories := (if exists_ then returns [] else createTargetDirectories target) in
    let* directoryIdentity := catch (requireEmptyStableDirectory target) (cleanup_and_throw createdDirectories) in
    let* _ := createGraphFile target template directoryIdentity createdDirectories in
    returns (Build_InitReport (path_text target) false true
               (existsb (λ item, bool_decide (owned_path item = target)) createdDirectories)
               (negb exists_) [OUTPUT_FILE] TEMPLATE_NAME (template_graphHash template)).

Definition outcome (target : path) (dryRun : bool) (h : list event) (r : result thrown InitReport) : Prop :=
  ∀ report, r = Ok report → created report = negb dryRun ∧ (dryRun = false → completed target h).

Lemma initialize_may target dryRun h :
  always (allowed target dryRun) (outcome target dryRun) h (initialize target dryRun).
Proof.
  unfold initialize. apply may_then. eapply always_mono; [apply loadTemplate_may|].
  intros h1 [template|e] [_ Htemplate]; [|done]. destruct (Htemplate template eq_refl) as (bytes & Hasset & Hsource).
  apply only_looks_then; [apply inspectTarget_looks|]. intros [exists_|e] h2 Hh2; [|done].
  destruct dryRun eqn:Hd; [by intros report [= <-]|].
  apply may_then. eapply (always_mono _ (λ h' r, h2 `prefix_of` h' ∧ ∀ l, r = Ok l → all_made h' l)).
  { destruct exists_; [split; [done|]; intros l [= <-]; constructor|]. unfold createTargetDirectories. apply may_then.
    eapply always_mono; [apply find_missing_may; [by rewrite rev_involutive|constructor]|].
    intros h3 [missing|e] [Hh3 Hm]; [|by split]. eapply may_weaken; [exact Hh3|].
    apply create_directories_may; [done|by apply Hm|constructor]. }
  intros h3 [createdDirectories|e] [Hh3 Hmade]; [|done]. specialize (Hmade _ eq_refl).
  apply may_then, may_then. eapply always_mono; [apply require_may|].
  intros h4 [directory|e] [Hh4 Hempty].
  - apply may_then. eapply always_mono.
    + eapply (createGraphFile_may target false template directory createdDirectories bytes); [done|done| |by apply Hempty|].
      * eapply prefix_elem; [|exact Hasset]. etrans; [exact Hh2|]. by etrans.
      * by eapply all_made_mono.
    + intros h5 [[]|e] [_ Hdone]; [|done]. intros report [= <-]. split; [done|]. intros _. by apply Hdone.
  - eapply always_mono.
    + apply (cleanup_and_throw_may _ _ (λ _ r, r = Err e)); [by eapply all_made_mono|done].
    + by intros h5 r [_ ->].
Qed.

(** C34. Safe initialization, under any environment: whatever other processes do between
    two calls, and whichever calls fail, every call of the run is allowed by the
    contract on the calls before it.  A dry run only looks.  A directory is made only on
    the way to the target and where no entry, or a link to nothing, was found.  The file is created only
    exclusively and only in a directory just seen to be empty, and is written only
    through that handle and only with the template.  A removal is requested only of a
    path at which this run made a directory or created the file, and only if the look
    right before the request found there the type and the identity that it noted after
    making it; what another process puts there between that look and the removal is
    removed all the same ([replaced_file_removed]).  A run that reports success has written and synchronized
    the file and then found it alone in the unchanged directory. *)
Theorem init_footprint directory dryRun t r :
  exec (initializeGraphProject hash syntax_message directory dryRun) t r →
  ∃ target, resolved directory t target ∧
    (∀ t1 e t2, t = t1 ++ e :: t2 → allowed target dryRun t1 (request_of e)) ∧
    outcome target dryRun t r.
Proof.
  intros Hexec. unfold initializeGraphProject, resolve in Hexec. unfold resolved. destruct (starts_with (js "/") directory).
  - exists (resolve_in [] directory). split; [done|].
    destruct (always_exec _ _ _ _ _ _ (initialize_may (resolve_in [] directory) dryRun []) Hexec) as [Hpost Hall]. by split.
  - destruct Hexec as (cwd & t' & -> & Hexec). exists (resolve_in cwd directory). split; [by exists cwd, t'|].
    destruct (always_exec _ _ _ _ _ _ (initialize_may (resolve_in cwd directory) dryRun [Event WorkingDirectory cwd]) Hexec)
      as [Hpost Hall]. split; [|exact Hpost]. intros [|e1 t1] e t2 E; injection E as <- E; [by apply allow_look|].
    apply (Hall _ _ _ E).
Qed.
End init.

Abbreviation sample_disk := InitAtomic.sample_disk.
Abbreviation sample_init := InitAtomic.sample_init.

Lemma init_footprint_witness :
  let t := run_trace disk_handler (sample_init "a/b" false) (sample_disk, []) in
  ∃ report, (run_prog disk_handler (sample_init "a/b" false) (sample_disk, [])).1 = Ok report ∧
    completed [js "home"; js "a"; js "b"] t.
Proof.
  cbv zeta. pose proof (exec_run disk_handler (sample_init "a/b" false) (sample_disk, [])) as Hexec.
  assert (∃ report, (run_prog disk_handler (sample_init "a/b" false) (sample_disk, [])).1 = Ok report) as [report Hr]
    by (eexists; vm_compute; reflexivity).
  exists report. split; [exact Hr|]. rewrite Hr in Hexec.
  pose proof (init_footprint zero_hash (λ _, []) (js "a/b") false _ _ Hexec) as (target & Ht & _ & Ho).
  destruct (Ho report eq_refl) as [_ Hdone]. specialize (Hdone eq_refl).
  change (∃ cwd t', run_trace disk_handler (sample_init "a/b" false) (sample_disk, []) = Event WorkingDirectory cwd :: t' ∧
    target = resolve_in cwd (js "a/b")) in Ht.
  destruct Ht as (cwd & t' & E & ->).
  assert (match head (run_trace disk_handler (sample_init "a/b" false) (sample_disk, [])) with
          | Some (Event WorkingDirectory x) => x = [js "home"] | _ => True end) as Ecwd by reflexivity.
  rewrite E in Ecwd. cbn [head] in Ecwd. rewrite Ecwd in Hdone. exact Hdone.
Defined.

(** ** The window between a look and a removal *)

(** A file of another process *)
Definition users_file : entry := Entry (Build_Stats 0 99 RegularFile) (Err ENOENT) [1%N].
(** The sample disk beside a process that replaces a file right before its removal *)
Definition racing_handler (X : Type) (c : call X) (w : disk * list (option fault)) : X * (disk * list (option fault)) :=
  let '(d, fs) := w in
  disk_handler X c (match c with Unlink p => set_entries (<[p := users_file]> (entries d)) d | _ => d end, fs).
(** The 18th call is the write. *)
Definition write_fails : list (option fault) := replicate 17 None ++ [Some (Fault (sys_code "ENOSPC") 0)].

(** The cleanup after a failed write removes a file that this run did not make. *)
Example replaced_file_removed :
  let file := [js "home"; js "a"; js "b"; js "graph.json"] in
  let run := run_prog racing_handler (sample_init "a/b" false) (sample_disk, write_fails) in
  Event (Unlink file) (Ok ()) ∈ run_trace racing_handler (sample_init "a/b" false) (sample_disk, write_fails) ∧
  entries run.2.1 !! file = None.
Proof.
  split; [|vm_compute; reflexivity]. apply (list_elem_of_lookup_2 _ 21). vm_compute. reflexivity.
Qed.
