(* ===== verification/McpLimits.v ===== *)
(** * Bounded compilation (packages/mcp-server/src/limits.ts, constants.ts)

    The limits on a graph that a client sends, and the race of [compileGraphBounded]:
    the worker's message, its failure, its exit, the timer and the abort signal each
    have a listener, and the first one that applies settles the promise.  The events are
    a list, in the order in which they are delivered. *)
From S2P Require Import Prelude JsString JsNumber JsValue JsonText Stringify Utf8 SchemaValidation GraphIR Compiler.
#[local] Arguments js : simpl never.

Definition STRUCTURED_CONTENT_VERSION : jsstr := js "graph-engineering.mcp/v1alpha1".
Definition GRAPH_SCHEMA_URI : jsstr := js "graph-engineering://schemas/v1alpha1/graph".
Definition MAX_GRAPH_BYTES : N := 524288.
Definition MAX_GRAPH_NODES : N := 2048.
Definition MAX_GRAPH_EDGES : N := 8192.
Definition TOOL_TIMEOUT_MS : num := num_of_Z 2000.

Inductive McpIssueCode :=
  | MCP_INPUT_TOO_LARGE | MCP_GRAPH_TOO_LARGE | MCP_TOOL_TIMEOUT | MCP_REQUEST_CANCELLED | MCP_INTERNAL_ERROR.
#[export] Instance McpIssueCode_eq_dec : EqDecision McpIssueCode.
Proof. solve_decision. Defined.
Record McpIssue := { issue_code : McpIssueCode; issue_message : jsstr }.

Inductive BoundedCompilation :=
  | Compiled (compilation : CompilationResult)
  | Refused (issue : McpIssue).

(** ** Limits *)

(** [Array.isArray(graph.nodes) ? graph.nodes.length : 0] *)
Definition items_of (key : jsstr) (props : list (jsstr * json)) : N :=
  match get_own key props with Some (JArr items) => N.of_nat (length items) | _ => 0 end.

(** [inputLimitIssue(graph)]; [None] is [undefined]. *)
Definition inputLimitIssue (graph : option json) : option McpIssue :=
  match graph with
  | None => Some (Build_McpIssue MCP_INTERNAL_ERROR (js "Graph input is not a JSON value"))
  | Some graph =>
      if (MAX_GRAPH_BYTES <? N.of_nat (length (utf8_encode (stringify graph))))%N then
        Some (Build_McpIssue MCP_INPUT_TOO_LARGE
          (js "Graph input exceeds the " ++ string_of_N MAX_GRAPH_BYTES ++ js "-byte limit"))
      else
        match record graph with
        | Some props =>
            let nodes := items_of (js "nodes") props in
            let edges := items_of (js "edges") props in
            if ((MAX_GRAPH_NODES <? nodes) || (MAX_GRAPH_EDGES <? edges))%N then
              Some (Build_McpIssue MCP_GRAPH_TOO_LARGE
                (js "Graph exceeds structural limits (" ++ string_of_N MAX_GRAPH_NODES ++ js " nodes, " ++
                 string_of_N MAX_GRAPH_EDGES ++ js " edges); received " ++ string_of_N nodes ++ js " nodes and " ++
                 string_of_N edges ++ js " edges"))
            else None
        | None => None
        end
  end.

(** ** The race *)

Inductive worker_event :=
  | Message (compilation : CompilationResult)
  | WorkerError (message : jsstr)
  | Exit (code : Z)
  | TimerFires
  | AbortSignal.

(** The promise, the timer, the listeners, and whether the worker was told to stop *)
Record race := Race {
  settled : option BoundedCompilation;
  timer : bool;
  abort_listener : bool;
  message_listener : bool;
  error_listener : bool;
  exit_listener : bool;
  worker_terminated : bool
}.

Definition finish (value : BoundedCompilation) (terminate : bool) (s : race) : race :=
  match settled s with
  | Some _ => s
  | None => Race (Some value) false false false false false (terminate || worker_terminated s)
  end.

Definition refuse (code : McpIssueCode) (message : jsstr) : BoundedCompilation :=
  Refused (Build_McpIssue code message).

Definition onAbort (s : race) : race :=
  finish (refuse MCP_REQUEST_CANCELLED (js "MCP request was cancelled")) true s.
Definition onTimeout (timeoutMs : num) (s : race) : race :=
  finish (refuse MCP_TOOL_TIMEOUT
    (js "Graph compilation exceeded the " ++ string_of_num timeoutMs ++ js "-ms limit")) true s.

(** The delivery of an event: its listener, which [once] removes first *)
Definition deliver (timeoutMs : num) (s : race) (e : worker_event) : race :=
  let '(Race v t a m r x w) := s in
  match e with
  | Message compilation => if m then finish (Compiled compilation) false (Race v t a false r x w) else s
  | WorkerError message =>
      if r then finish (refuse MCP_INTERNAL_ERROR (js "Compiler worker failed: " ++ message)) true (Race v t a m false x w)
      else s
  | Exit code =>
      if x then
        let s := Race v t a m r false w in
        if (code =? 0)%Z then s
        else finish (refuse MCP_INTERNAL_ERROR (js "Compiler worker exited with code " ++ string_of_Z code)) false s
      else s
  | TimerFires => if t then onTimeout timeoutMs (Race v false a m r x w) else s
  | AbortSignal => if a then onAbort (Race v t false m r x w) else s
  end.

(** The signal of the request: is it aborted at the call, and when the listener is added? *)
Record AbortSignalState := { aborted_at_call : bool; aborted_at_listen : bool }.

(** The state when the function passed to [new Promise] returns *)
Definition start_race (signal : option AbortSignalState) : race :=
  let listening := match signal with Some _ => true | None => false end in
  let s := Race None true listening false false false false in
  if match signal with Some a => aborted_at_listen a | None => false end then onAbort s
  else Race None true listening true true true false.

(** What the world does to one call: the signal, the worker's start, the events *)
Record bounded_world := {
  world_signal : option AbortSignalState;
  world_start : result jsstr ();
  world_events : list worker_event
}.

(** [compileGraphBounded(graph, signal, timeoutMs)]; [None] while the promise is pending *)
Definition compileGraphBounded (graph : option json) (world : bounded_world) (timeoutMs : num)
    : option BoundedCompilation :=
  match inputLimitIssue graph with
  | Some limitIssue => Some (Refused limitIssue)
  | None =>
      if match world_signal world with Some a => aborted_at_call a | None => false end then
        Some (refuse MCP_REQUEST_CANCELLED (js "MCP request was cancelled before compilation"))
      else if negb (num_finite timeoutMs) || num_ltb timeoutMs (num_of_Z 1) then
        Some (refuse MCP_INTERNAL_ERROR (js "Compiler timeout must be a positive finite number"))
      else
        match world_start world with
        | Err message => Some (refuse MCP_INTERNAL_ERROR (js "Could not start compiler worker: " ++ message))
        | Ok _ => settled (foldl (deliver timeoutMs) (start_race (world_signal world)) (world_events world))
        end
  end.

(** * The race *)

(** What the first event that applies makes of the promise, and whether the worker has
    to be stopped.  The worker exits at most once: [exited] says that it did. *)
Fixpoint first_outcome (timeoutMs : num) (listening exited : bool) (events : list worker_event)
    : option (BoundedCompilation * bool) :=
  match events with
  | [] => None
  | Message compilation :: _ => Some (Compiled compilation, false)
  | WorkerError message :: _ =>
      Some (refuse MCP_INTERNAL_ERROR (js "Compiler worker failed: " ++ message), true)
  | Exit code :: events =>
      if exited || (code =? 0)%Z then first_outcome timeoutMs listening true events
      else Some (refuse MCP_INTERNAL_ERROR (js "Compiler worker exited with code " ++ string_of_Z code), false)
  | TimerFires :: _ =>
      Some (refuse MCP_TOOL_TIMEOUT (js "Graph compilation exceeded the " ++ string_of_num timeoutMs ++ js "-ms limit"), true)
  | AbortSignal :: events =>
      if listening then Some (refuse MCP_REQUEST_CANCELLED (js "MCP request was cancelled"), true)
      else first_outcome timeoutMs listening exited events
  end.

(** A settled race: nothing listens and no timer runs. *)
Definition over (value : BoundedCompilation) (terminated : bool) : race :=
  Race (Some value) false false false false false terminated.
Definition waiting (listening exited : bool) : race := Race None true listening true true (negb exited) false.

Lemma over_stays timeoutMs value terminated events :
  foldl (deliver timeoutMs) (over value terminated) events = over value terminated.
Proof. induction events as [|e events IH]; [done|]. cbn [foldl]. by destruct e. Qed.

Lemma race_outcome timeoutMs listening exited events :
  foldl (deliver timeoutMs) (waiting listening exited) events =
  match first_outcome timeoutMs listening exited events with
  | Some (value, terminate) => over value terminate
  | None => waiting listening (exited || existsb (λ e, match e with Exit _ => true | _ => false end) events)
  end.
Proof.
  revert exited. induction events as [|e events IH]; intros exited; [by rewrite orb_false_r|].
  cbn [foldl]. destruct e as [c|m|code| |]; cbn [first_outcome existsb].
  - apply over_stays.
  - apply over_stays.
  - destruct exited; cbn [orb].
    + apply (IH true).
    + change (deliver timeoutMs (waiting listening false) (Exit code)) with
        (if (code =? 0)%Z then waiting listening true
         else over (refuse MCP_INTERNAL_ERROR (js "Compiler worker exited with code " ++ string_of_Z code)) false).
      destruct (code =? 0)%Z; [apply (IH true)|apply over_stays].
  - apply over_stays.
  - destruct listening; [apply over_stays|]. apply (IH exited).
Qed.

Lemma first_outcome_app timeoutMs listening exited events more value :
  first_outcome timeoutMs listening exited events = Some value →
  first_outcome timeoutMs listening exited (events ++ more) = Some value.
Proof.
  revert exited. induction events as [|[c|m|code| |] events IH]; intros exited; cbn [first_outcome app]; try done.
  - case_match; [apply IH|done].
  - case_match; [done|apply IH].
Qed.

Lemma first_outcome_timer timeoutMs listening exited events :
  TimerFires ∈ events → is_Some (first_outcome timeoutMs listening exited events).
Proof.
  revert exited. induction events as [|[c|m|code| |] events IH]; intros exited H; cbn [first_outcome];
    try (by eexists); try (by apply not_elem_of_nil in H); apply elem_of_cons in H as [H|H]; try done.
  - case_match; [by apply IH|by eexists].
  - case_match; [by eexists|by apply IH].
Qed.

(** C35. Once the worker runs, the promise of [compileGraphBounded] settles exactly once:
    with the value of the first event that applies, which no later event changes.
    After that no listener and no timer is left, and the worker was told to stop exactly
    when it may still be running: after a failure, the timer, or an abort.  The timer
    always settles it.  A signal that is aborted when its listener is added refuses at
    once. *)
Theorem race_settles_once timeoutMs signal events :
  let listening := match signal with Some _ => true | None => false end in
  let s := foldl (deliver timeoutMs) (start_race signal) events in
  match signal with
  | Some (Build_AbortSignalState _ true) =>
      s = over (refuse MCP_REQUEST_CANCELLED (js "MCP request was cancelled")) true
  | _ =>
      match first_outcome timeoutMs listening false events with
      | Some (value, terminate) =>
          s = over value terminate ∧ ∀ more, foldl (deliver timeoutMs) (start_race signal) (events ++ more) = s
      | None => settled s = None ∧ timer s = true ∧ TimerFires ∉ events
      end
  end.
Proof.
  cbv zeta.
  assert (∀ listening, start_race signal = waiting listening false →
    match first_outcome timeoutMs listening false events with
    | Some (value, terminate) =>
        foldl (deliver timeoutMs) (start_race signal) events = over value terminate ∧
        ∀ more, foldl (deliver timeoutMs) (start_race signal) (events ++ more) =
                foldl (deliver timeoutMs) (start_race signal) events
    | None =>
        settled (foldl (deliver timeoutMs) (start_race signal) events) = None ∧
        timer (foldl (deliver timeoutMs) (start_race signal) events) = true ∧ TimerFires ∉ events
    end) as Hrace.
  { intros listening ->. rewrite !race_outcome.
    destruct (first_outcome timeoutMs listening false events) as [[value terminate]|] eqn:E.
    - split; [done|]. intros more. by rewrite race_outcome, (first_outcome_app _ _ _ _ _ _ E).
    - split_and!; [done..|]. intros Hin. destruct (first_outcome_timer timeoutMs listening false events Hin). congruence. }
  destruct signal as [[at_call [|]]|]; [apply over_stays|by apply Hrace..].
Qed.
