(* ===== verification/McpTools.v ===== *)
(** * The tools of the MCP server (packages/mcp-server/src/tools.ts, schema.ts, compile-worker.ts)

    The results of the three tools: structured content, and its canonical JSON as text.
    Plans are read from the graph that was sent; a property that is not there is a
    [TypeError], which the types of the source rule out and the theorems here, too. *)
From S2P Require Import Prelude JsString JsNumber JsValue JsonText Canonical SchemaValidation Utf8 GraphIR Compiler.
From S2P Require Import CliValidation Process McpLimits.
#[local] Arguments js : simpl never.

(** ** Input and output schemas *)

(** The zod schemas that the tools are registered with *)
Inductive zod :=
  | ZString | ZBoolean | ZUnknown
  | ZLiteral (text : jsstr)
  | ZEnum (texts : list jsstr)
  | ZNonNegativeInt | ZPositiveInt
  | ZNullable (z : zod)
  | ZArray (z : zod)
  | ZRecord (z : zod)
  | ZObject (fields : list (jsstr * zod))
  | ZStrictObject (fields : list (jsstr * zod)).

Definition issueSchema : zod :=
  ZNullable (ZObject
    [(js "code", ZEnum [js "MCP_INPUT_TOO_LARGE"; js "MCP_GRAPH_TOO_LARGE"; js "MCP_TOOL_TIMEOUT";
                        js "MCP_REQUEST_CANCELLED"; js "MCP_INTERNAL_ERROR"]);
     (js "message", ZString)]).

Definition diagnosticSchema : zod :=
  ZObject
    [(js "code", ZString); (js "severity", ZEnum [js "error"; js "warning"]); (js "message", ZString);
     (js "path", ZNullable ZString); (js "nodeIds", ZArray ZString); (js "edgeId", ZNullable ZString)].

Definition graphInputSchema : zod := ZStrictObject [(js "graph", ZUnknown)].
Definition emptyInputSchema : zod := ZStrictObject [].

Definition validationOutputSchema : zod :=
  ZObject
    [(js "schemaVersion", ZLiteral STRUCTURED_CONTENT_VERSION); (js "valid", ZBoolean);
     (js "graphHash", ZNullable ZString); (js "diagnosticCodes", ZArray ZString);
     (js "diagnostics", ZArray diagnosticSchema); (js "issue", issueSchema)].

Definition planOutputSchema : zod :=
  ZObject
    [(js "schemaVersion", ZLiteral STRUCTURED_CONTENT_VERSION); (js "valid", ZBoolean);
     (js "graphHash", ZNullable ZString); (js "graphName", ZNullable ZString);
     (js "nodeCount", ZNonNegativeInt); (js "edgeCount", ZNonNegativeInt); (js "layerCount", ZNonNegativeInt);
     (js "maxParallelWidth", ZNonNegativeInt); (js "configuredMaxConcurrency", ZNullable ZPositiveInt);
     (js "topologicalLayers", ZArray (ZArray ZString)); (js "diagnosticCodes", ZArray ZString);
     (js "diagnostics", ZArray diagnosticSchema); (js "issue", issueSchema)].

Definition schemaOutputSchema : zod :=
  ZObject
    [(js "schemaVersion", ZLiteral STRUCTURED_CONTENT_VERSION); (js "apiVersion", ZNullable ZString);
     (js "uri", ZNullable ZString); (js "schemaId", ZNullable ZString); (js "canonicalSha256", ZNullable ZString);
     (js "schema", ZNullable (ZRecord ZUnknown)); (js "issue", issueSchema)].

(** ** Records *)

Definition json_null_or {A} (f : A → json) (o : option A) : json := match o with Some a => f a | None => JNull end.
Definition json_texts (l : list jsstr) : json := JArr (JStr <$> l).
Definition json_count (n : nat) : json := JNum (num_of_Z (Z.of_nat n)).

Definition issue_code_text (c : McpIssueCode) : jsstr :=
  match c with
  | MCP_INPUT_TOO_LARGE => js "MCP_INPUT_TOO_LARGE" | MCP_GRAPH_TOO_LARGE => js "MCP_GRAPH_TOO_LARGE"
  | MCP_TOOL_TIMEOUT => js "MCP_TOOL_TIMEOUT" | MCP_REQUEST_CANCELLED => js "MCP_REQUEST_CANCELLED"
  | MCP_INTERNAL_ERROR => js "MCP_INTERNAL_ERROR"
  end.
Definition json_issue (i : McpIssue) : json :=
  JObj [(js "code", JStr (issue_code_text (issue_code i))); (js "message", JStr (issue_message i))].

Definition normalizeDiagnostics (diagnostics : list CompilerDiagnostic) : json :=
  JArr ((λ diagnostic, JObj
    [(js "code", JStr (code_text (code diagnostic))); (js "severity", JStr (severity_text (severity diagnostic)));
     (js "message", JStr (message diagnostic)); (js "path", json_null_or JStr (diagnostic_path diagnostic));
     (js "nodeIds", json_texts (default [] (nodeIds diagnostic)));
     (js "edgeId", json_null_or JStr (edgeId diagnostic))]) <$> diagnostics).

Definition diagnosticCodes (diagnostics : list CompilerDiagnostic) : json :=
  json_texts (code_text <$> uniqueCodes diagnostics).

Record CallToolResult := { content_text : jsstr; structuredContent : json; isError : bool }.

(** [toolResult(structuredContent, isError)]; what [canonicalSerialize] throws is its message. *)
Definition toolResult (structuredContent : json) (isError : bool) : result jsstr CallToolResult :=
  let '(h, v) := value_of_json structuredContent in
  match canonicalSerialize h v with
  | Ok text => Ok (Build_CallToolResult text structuredContent isError)
  | Err (CanonicalizationError message _) => Err message
  | Err OutOfFuel => Err (js "Maximum call stack size exceeded")
  end.

Definition validation_props (compilation : CompilationResult) : list (jsstr * json) :=
  [(js "schemaVersion", JStr STRUCTURED_CONTENT_VERSION); (js "valid", JBool (valid compilation));
   (js "graphHash", json_null_or JStr (graphHash compilation));
   (js "diagnosticCodes", diagnosticCodes (diagnostics compilation));
   (js "diagnostics", normalizeDiagnostics (diagnostics compilation)); (js "issue", JNull)].
Definition validationRecord (compilation : CompilationResult) : json := JObj (validation_props compilation).

Definition issue_props (issue : McpIssue) : list (jsstr * json) :=
  [(js "schemaVersion", JStr STRUCTURED_CONTENT_VERSION); (js "valid", JBool false); (js "graphHash", JNull);
   (js "diagnosticCodes", JArr []); (js "diagnostics", JArr []); (js "issue", json_issue issue)].
Definition compilationIssueRecord (issue : McpIssue) : json := JObj (issue_props issue).

(** The fields of a plan, and those of no plan *)
Definition plan_props (graphName : json) (nodeCount edgeCount layerCount maxParallelWidth : nat)
    (configuredMaxConcurrency : json) (topologicalLayers : list (list jsstr)) : list (jsstr * json) :=
  [(js "graphName", graphName); (js "nodeCount", json_count nodeCount); (js "edgeCount", json_count edgeCount);
   (js "layerCount", json_count layerCount); (js "maxParallelWidth", json_count maxParallelWidth);
   (js "configuredMaxConcurrency", configuredMaxConcurrency);
   (js "topologicalLayers", JArr (json_texts <$> topologicalLayers))].
Definition no_plan : list (jsstr * json) := plan_props JNull 0 0 0 0 JNull [].

(** ** [graph_validate] and [graph_plan] *)

(** A property of an object; of anything else it is a [TypeError] or [undefined]. *)
Definition property (key : string) (j : json) : option json := props ← record j; get_own (js key) props.
Definition array_length (j : json) : option nat := match j with JArr items => Some (length items) | _ => None end.

(** [value.policies?.maxConcurrency ?? null] *)
Definition configured_concurrency (value : json) : json :=
  match property "policies" value with
  | Some policies => default JNull (property "maxConcurrency" policies)
  | None => JNull
  end.

Definition type_error : jsstr := js "TypeError".

(** What the tools return when the bounded compilation is there *)
Definition validation_result (bounded : BoundedCompilation) : result jsstr CallToolResult :=
  match bounded with
  | Compiled compilation => toolResult (validationRecord compilation) false
  | Refused issue => toolResult (compilationIssueRecord issue) true
  end.

Definition plan_result (graph : option json) (bounded : BoundedCompilation) : result jsstr CallToolResult :=
  match bounded with
  | Refused issue => toolResult (JObj (issue_props issue ++ no_plan)) true
  | Compiled compilation =>
      if negb (valid compilation) then toolResult (JObj (validation_props compilation ++ no_plan)) false
      else
        let layers := topologicalLayers compilation in
        match (value ← graph; graphName ← property "metadata" value ≫= property "name";
               nodes ← property "nodes" value ≫= array_length;
               edges ← property "edges" value ≫= array_length;
               Some (graphName, nodes, edges, configured_concurrency value))
        with
        | Some (graphName, nodes, edges, concurrency) =>
            toolResult (JObj (validation_props compilation ++
              plan_props graphName nodes edges (length layers) (maximum (length <$> layers)) concurrency layers)) false
        | None => Err type_error
        end
  end.

(** The tools; [None] while the compilation is pending *)
Definition graphValidate (graph : option json) (world : bounded_world) : option (result jsstr CallToolResult) :=
  validation_result <$> compileGraphBounded graph world TOOL_TIMEOUT_MS.
Definition graphPlan (graph : option json) (world : bounded_world) : option (result jsstr CallToolResult) :=
  plan_result graph <$> compileGraphBounded graph world TOOL_TIMEOUT_MS.

(** The worker: it posts the compilation of the graph it was given. *)
Definition compile_worker (hash : jsstr → jsstr) (workerData : json) : worker_event :=
  Message (compile_json hash workerData).

(** ** [graph_get_schema] *)

Record BundledSchema := {
  bundled_apiVersion : jsstr;
  bundled_uri : jsstr;
  bundled_schemaId : jsstr;
  bundled_canonicalSha256 : jsstr;
  bundled_schema : json
}.

Section schema.
Context (hash syntax_message : jsstr → jsstr).

(** [readBundledSchema()], after the read *)
Definition bundle_schema (source : jsstr) : result jsstr BundledSchema :=
  match json_parse source with
  | None => Err (syntax_message source)
  | Some parsed =>
      match record parsed with
      | None => Err (js "Bundled Graph IR schema is not an object")
      | Some props =>
          match get_own (js "$id") props with
          | Some (JStr schemaId) =>
              let '(h, v) := value_of_json parsed in
              match canonicalHash hash h v with
              | Ok canonicalSha256 =>
                  Ok (Build_BundledSchema API_VERSION GRAPH_SCHEMA_URI schemaId canonicalSha256 parsed)
              | Err (CanonicalizationError message _) => Err message
              | Err OutOfFuel => Err (js "Maximum call stack size exceeded")
              end
          | _ => Err (js "Bundled Graph IR schema has no $id")
          end
      end
  end.
Definition readBundledSchema : async jsstr BundledSchema :=
  prog_bind (λ r, match r with Ok bytes => Ret (bundle_schema (utf8_text bytes)) | Err e => throws (error_message e) end)
    (ask (ReadAsset GraphSchemaAsset)).

(** [cachedSchema]: the promise of the first call, fulfilled or rejected *)
Definition schema_cache : Type := option (result jsstr BundledSchema).

Definition getBundledGraphSchema (cachedSchema : schema_cache) : prog (result jsstr BundledSchema * schema_cache) :=
  match cachedSchema with
  | Some outcome => Ret (outcome, Some outcome)
  | None => outcome ← readBundledSchema; Ret (outcome, Some outcome)
  end.

Definition schema_content (bundled : BundledSchema) : json :=
  JObj [(js "schemaVersion", JStr STRUCTURED_CONTENT_VERSION); (js "apiVersion", JStr (bundled_apiVersion bundled));
        (js "uri", JStr (bundled_uri bundled)); (js "schemaId", JStr (bundled_schemaId bundled));
        (js "canonicalSha256", JStr (bundled_canonicalSha256 bundled)); (js "schema", bundled_schema bundled);
        (js "issue", JNull)].
Definition no_schema_content (message : jsstr) : json :=
  JObj [(js "schemaVersion", JStr STRUCTURED_CONTENT_VERSION); (js "apiVersion", JNull); (js "uri", JNull);
        (js "schemaId", JNull); (js "canonicalSha256", JNull); (js "schema", JNull);
        (js "issue", json_issue (Build_McpIssue MCP_INTERNAL_ERROR message))].

Definition graphGetSchema (cachedSchema : schema_cache) : prog (result jsstr CallToolResult * schema_cache) :=
  '(outcome, cachedSchema) ← getBundledGraphSchema cachedSchema;
  let attempt :=
    match outcome with
    | Ok bundled => toolResult (schema_content bundled) false
    | Err message => Err message
    end in
  Ret (match attempt with
       | Ok result => Ok result
       | Err message => toolResult (no_schema_content message) true
       end, cachedSchema).
End schema.
