(* ===== verification/McpSpec.v ===== *)
(** * What the MCP server promises

    The tools always return a result, which conforms to its output schema and whose text
    is the canonical JSON of its content; a plan is the plan of the command line; the
    bundled schema is read once. *)
From S2P Require Import Prelude JsString JsNumber JsValue JsonText Canonical CanonicalSpec NumberText JsonRoundTrip ParsedJson.
From S2P Require Import ParsedJson Stringify JsonValues SchemaValidation Utf8 Dag GraphIR Compiler CompilerSpec GraphReading.
From S2P Require Import CliValidation Messages Process McpLimits McpTools.
From S2P Require CliSpec DoctorSpec.
#[local] Arguments js : simpl never.

(** ** What zod accepts *)

(** The documented meaning of the schema constructors, as far as the results need it *)
Class Zod (accepts : zod → json → Prop) := {
  zod_string s : accepts ZString (JStr s);
  zod_boolean b : accepts ZBoolean (JBool b);
  zod_unknown j : accepts ZUnknown j;
  zod_literal s : accepts (ZLiteral s) (JStr s);
  zod_enum texts s : s ∈ texts → accepts (ZEnum texts) (JStr s);
  zod_non_negative n : num_safe_integer n = true → (0 ≤ num_trunc n)%Z → accepts ZNonNegativeInt (JNum n);
  zod_positive n : num_safe_integer n = true → (1 ≤ num_trunc n)%Z → accepts ZPositiveInt (JNum n);
  zod_null z : accepts (ZNullable z) JNull;
  zod_nullable z j : accepts z j → accepts (ZNullable z) j;
  zod_array z items : Forall (accepts z) items → accepts (ZArray z) (JArr items);
  zod_record z props : Forall (λ p, accepts z p.2) props → accepts (ZRecord z) (JObj props);
  zod_object fields props :
    Forall (λ f : jsstr * zod, ∃ j, get_own f.1 props = Some j ∧ accepts f.2 j) fields →
    accepts (ZObject fields) (JObj props);
  zod_strict fields props : accepts (ZStrictObject fields) (JObj props) → props.*1 ⊆ fields.*1
}.

(** A checker with this meaning *)
Fixpoint zod_check (z : zod) (j : json) : bool :=
  match z with
  | ZString => match j with JStr _ => true | _ => false end
  | ZBoolean => match j with JBool _ => true | _ => false end
  | ZUnknown => true
  | ZLiteral text => match j with JStr s => bool_decide (s = text) | _ => false end
  | ZEnum texts => match j with JStr s => bool_decide (s ∈ texts) | _ => false end
  | ZNonNegativeInt => match j with JNum n => num_safe_integer n && (0 <=? num_trunc n)%Z | _ => false end
  | ZPositiveInt => match j with JNum n => num_safe_integer n && (1 <=? num_trunc n)%Z | _ => false end
  | ZNullable z => match j with JNull => true | _ => zod_check z j end
  | ZArray z => match j with JArr items => forallb (zod_check z) items | _ => false end
  | ZRecord z => match j with JObj props => forallb (λ p, zod_check z p.2) props | _ => false end
  | ZObject fields =>
      match j with
      | JObj props => forallb (λ f, match get_own f.1 props with Some j => zod_check f.2 j | None => false end) fields
      | _ => false
      end
  | ZStrictObject fields =>
      match j with
      | JObj props =>
          bool_decide (props.*1 ⊆ fields.*1) &&
          forallb (λ f, match get_own f.1 props with Some j => zod_check f.2 j | None => match f.2 with ZUnknown => true | _ => false end end) fields
      | _ => false
      end
  end.
#[export] Instance zod_check_meaning : Zod zod_check.
Proof.
  split; simpl; try done.
  - intros s. by rewrite bool_decide_eq_true_2.
  - intros texts s H. by rewrite bool_decide_eq_true_2.
  - intros n -> H. cbn [Is_true andb]. by rewrite (proj2 (Z.leb_le _ _)).
  - intros n -> H. cbn [Is_true andb]. by rewrite (proj2 (Z.leb_le _ _)).
  - intros z j H. by destruct j.
  - intros z items H. apply Is_true_true, forallb_Forall. eapply Forall_impl; [exact H|]. by intros j ?%Is_true_true.
  - intros z props H. apply Is_true_true, forallb_Forall. eapply Forall_impl; [exact H|]. by intros j ?%Is_true_true.
  - intros fields props H. apply Is_true_true, forallb_Forall. eapply Forall_impl; [exact H|].
    intros f (j & -> & Hj). by apply Is_true_true.
  - intros fields props [H _]%Is_true_true%andb_true_iff. by apply bool_decide_eq_true in H.
Qed.

(** ** Content that can be delivered *)

(** The core serializes the tree, and the schema accepts it. *)
Section delivers.
Context {accepts : zod → json → Prop} `{!Zod accepts}.

Record delivers (z : zod) (j : json) : Prop := {
  delivers_ok : json_ok j;
  delivers_interoperable : interoperable j;
  delivers_accepts : accepts z j
}.

Lemma delivers_string s : str_wf s → delivers ZString (JStr s).
Proof. intros H. split; [by apply json_ok_str|done|apply zod_string]. Qed.
Lemma delivers_literal s : str_wf s → delivers (ZLiteral s) (JStr s).
Proof. intros H. split; [by apply json_ok_str|done|apply zod_literal]. Qed.
Lemma delivers_enum texts s : s ∈ texts → str_wf s → delivers (ZEnum texts) (JStr s).
Proof. intros Hs H. split; [by apply json_ok_str|done|by apply zod_enum]. Qed.
Lemma delivers_boolean b : delivers ZBoolean (JBool b).
Proof. split; [done..|apply zod_boolean]. Qed.
Lemma delivers_null z : delivers (ZNullable z) JNull.
Proof. split; [done..|apply zod_null]. Qed.
Lemma delivers_nullable z j : delivers z j → delivers (ZNullable z) j.
Proof. intros []. split; [done..|by apply zod_nullable]. Qed.
Lemma delivers_optional {A} z (f : A → json) o :
  when_present (λ x, delivers z (f x)) o → delivers (ZNullable z) (json_null_or f o).
Proof. destruct o; [apply delivers_nullable|intros _; apply delivers_null]. Qed.

Lemma safe_integer_content n : num_ok n → num_safe_integer n = true → json_ok (JNum n) ∧ interoperable (JNum n).
Proof.
  intros Hn Hs. split.
  - apply json_ok_num. split; [done|]. apply num_safe_integer_integer in Hs. by destruct n.
  - unfold interoperable. cbn [interoperable_b]. by rewrite Hs, orb_true_r.
Qed.
Lemma delivers_count n : (Z.of_nat n <= MAX_SAFE_INTEGER)%Z → delivers ZNonNegativeInt (json_count n).
Proof.
  intros Hn. unfold json_count. assert (num_safe_integer (num_of_Z (Z.of_nat n)) = true) as Hs
    by (apply num_of_Z_safe; rewrite Z.abs_eq; lia).
  destruct (safe_integer_content _ (num_of_Z_ok _) Hs). split; [done..|]. apply zod_non_negative; [done|].
  rewrite num_of_Z_trunc by (rewrite Z.abs_eq; lia). lia.
Qed.

Lemma delivers_array z items : Forall (delivers z) items → delivers (ZArray z) (JArr items).
Proof.
  intros H. split.
  - apply json_ok_arr. eapply Forall_impl; [exact H|]. by intros j [].
  - apply interoperable_arr. eapply Forall_impl; [exact H|]. by intros j [].
  - apply zod_array. eapply Forall_impl; [exact H|]. by intros j [].
Qed.
Lemma delivers_map {A} (P : A → Prop) z (f : A → json) l :
  Forall P l → (∀ x, P x → delivers z (f x)) → delivers (ZArray z) (JArr (f <$> l)).
Proof. intros H Hf. apply delivers_array, Forall_fmap. eapply Forall_impl; [exact H|exact Hf]. Qed.
Lemma delivers_texts l : Forall str_wf l → delivers (ZArray ZString) (json_texts l).
Proof. intros H. by apply (delivers_map str_wf), delivers_string. Qed.

(** An object that has the fields of the schema, with their keys in any order *)
Lemma delivers_object fields props :
  keys_ok props.*1 = true → props.*1 ⊆ fields.*1 →
  Forall (λ f, ∃ j, get_own f.1 props = Some j ∧ delivers f.2 j) fields →
  delivers (ZObject fields) (JObj props).
Proof.
  unfold keys_ok. rewrite andb_true_iff, !bool_decide_eq_true. intros [Hn Hk] Hsub H.
  assert (∀ p, p ∈ props → json_ok p.2 ∧ interoperable p.2) as Hp.
  { intros [k j] Hp. assert (k ∈ fields.*1) as Hf.
    { apply Hsub. apply list_elem_of_fmap. by exists (k, j). }
    apply list_elem_of_fmap in Hf as ([k' z] & -> & Hf). rewrite Forall_forall in H.
    destruct (H _ Hf) as (j' & Hj' & Hd). cbn [fst snd] in *.
    assert (get_own k' props = Some j) as E by (by apply map_get_NoDup). rewrite E in Hj'. injection Hj' as <-. by destruct Hd. }
  split.
  - apply json_ok_obj. split_and!; [done..|]. apply Forall_forall. intros p Hin. by apply Hp.
  - unfold interoperable. cbn [interoperable_b]. apply forallb_Forall, Forall_forall. intros p Hin. by apply Hp.
  - apply zod_object. eapply Forall_impl; [exact H|]. intros f (j & Hj & []). by exists j.
Qed.

(** ** The records of the tools *)

Create HintDb content.
#[local] Hint Resolve delivers_string delivers_literal delivers_boolean delivers_null delivers_texts : content.
#[local] Hint Extern 1 (str_wf STRUCTURED_CONTENT_VERSION) => apply js_wf : wf.
#[local] Hint Extern 1 (str_wf GRAPH_SCHEMA_URI) => apply js_wf : wf.

(** An object of literal keys: check the keys, then find each field. *)
Ltac content_fields :=
  apply delivers_object;
    [ vm_compute; reflexivity
    | apply (bool_decide_unpack _); vm_compute; exact I
    | repeat (apply Forall_cons_2; [eexists; split; [reflexivity|]; cbn [fst snd]|]); [..|apply Forall_nil_2] ].

Lemma delivers_issue i : str_wf (issue_message i) → delivers issueSchema (json_issue i).
Proof.
  intros Hm. unfold issueSchema, json_issue. apply delivers_nullable. content_fields; [|auto with content].
  apply delivers_enum; [|destruct (issue_code i); apply js_wf].
  destruct (issue_code i); apply (bool_decide_unpack _); vm_compute; exact I.
Qed.

Lemma delivers_diagnostic d :
  diagnostic_wf d →
  delivers diagnosticSchema (JObj
    [(js "code", JStr (code_text (code d))); (js "severity", JStr (severity_text (severity d)));
     (js "message", JStr (message d)); (js "path", json_null_or JStr (diagnostic_path d));
     (js "nodeIds", json_texts (default [] (nodeIds d))); (js "edgeId", json_null_or JStr (edgeId d))]).
Proof.
  intros (Hm & Hp & Hn & He). unfold diagnosticSchema. content_fields; auto with content wf.
  - apply delivers_enum; [|apply severity_text_wf]. destruct (severity d); apply (bool_decide_unpack _); vm_compute; exact I.
  - apply delivers_optional. destruct (diagnostic_path d); [by apply delivers_string|done].
  - apply delivers_texts. destruct (nodeIds d); [done|constructor].
  - apply delivers_optional. destruct (edgeId d); [by apply delivers_string|done].
Qed.

Lemma delivers_diagnostics l : Forall diagnostic_wf l → delivers (ZArray diagnosticSchema) (normalizeDiagnostics l).
Proof. intros H. by apply (delivers_map diagnostic_wf), delivers_diagnostic. Qed.
Lemma delivers_codes l : delivers (ZArray ZString) (diagnosticCodes l).
Proof. apply delivers_texts, Forall_fmap, Forall_true. intros c. apply code_text_wf. Qed.
Lemma delivers_hash o : when_present str_wf o → delivers (ZNullable ZString) (json_null_or JStr o).
Proof. intros H. apply delivers_optional. destruct o; [by apply delivers_string|done]. Qed.
Lemma delivers_no_issue : delivers issueSchema JNull.
Proof. apply delivers_null. Qed.
#[local] Hint Resolve delivers_diagnostics delivers_codes delivers_hash delivers_no_issue delivers_issue : content.

Lemma delivers_validation c : compilation_wf c → delivers validationOutputSchema (validationRecord c).
Proof. intros [H1 _ _ H4]. unfold validationOutputSchema, validationRecord, validation_props. content_fields; auto with content wf. Qed.
Lemma delivers_refusal i : str_wf (issue_message i) → delivers validationOutputSchema (compilationIssueRecord i).
Proof.
  intros Hm. unfold validationOutputSchema, compilationIssueRecord, issue_props. content_fields; auto with content wf.
  - apply (delivers_texts []), Forall_nil_2.
  - apply delivers_array, Forall_nil_2.
Qed.

(** The fields of a plan *)
Record plan_fields (graphName : json) (counts : list nat) (concurrency : json) (layers : list (list jsstr)) : Prop := {
  pf_name : delivers (ZNullable ZString) graphName;
  pf_counts : Forall (λ n, Z.of_nat n <= MAX_SAFE_INTEGER)%Z counts;
  pf_concurrency : delivers (ZNullable ZPositiveInt) concurrency;
  pf_layers : Forall (Forall str_wf) layers
}.

Lemma delivers_layers layers :
  Forall (Forall str_wf) layers → delivers (ZArray (ZArray ZString)) (JArr (json_texts <$> layers)).
Proof. intros H. by apply (delivers_map (Forall str_wf)), delivers_texts. Qed.

Lemma delivers_plan c name n e l w concurrency layers :
  compilation_wf c → plan_fields name [n; e; l; w] concurrency layers →
  delivers planOutputSchema (JObj (validation_props c ++ plan_props name n e l w concurrency layers)).
Proof.
  intros [H1 _ _ H4] [Hname Hcounts Hconc Hlayers].
  apply Forall_cons in Hcounts as [Hn Hcounts]. apply Forall_cons in Hcounts as [He Hcounts].
  apply Forall_cons in Hcounts as [Hl Hcounts]. apply Forall_cons in Hcounts as [Hw _].
  unfold planOutputSchema, validation_props, plan_props. cbn [app].
  content_fields; auto using delivers_count, delivers_layers with content wf.
Qed.
Lemma delivers_refused_plan i :
  str_wf (issue_message i) → delivers planOutputSchema (JObj (issue_props i ++ no_plan)).
Proof.
  intros Hm. unfold planOutputSchema, issue_props, no_plan, plan_props. cbn [app].
  assert (delivers ZNonNegativeInt (json_count 0)) as H0 by (by apply delivers_count).
  content_fields; auto with content wf.
  - apply (delivers_layers []), Forall_nil_2.
  - apply (delivers_texts []), Forall_nil_2.
  - apply delivers_array, Forall_nil_2.
Qed.
Lemma no_plan_fields : plan_fields JNull [0; 0; 0; 0] JNull [].
Proof. split; [apply delivers_null|by repeat constructor|apply delivers_null|constructor]. Qed.

(** A result: its text is the canonical JSON of its content. *)
Definition delivered (z : zod) (content : json) (failed : bool) (r : CallToolResult) : Prop :=
  structuredContent r = content ∧ isError r = failed ∧ accepts z content ∧
  json_parse (content_text r) = Some (canonical_form content) ∧ 10%N ∉ content_text r.

Lemma toolResult_delivers z content failed :
  delivers z content → ∃ r, toolResult content failed = Ok r ∧ delivered z content failed r.
Proof.
  intros [Hok Hi Ha]. pose proof (captured_document content (json_ok_parsed _ Hok)) as Hcap. unfold toolResult.
  destruct (value_of_json content) as [h v]. destruct Hcap as [Hh Hport]. unfold canonicalSerialize.
  destruct (captureCanonicalJson_cases h v Hh) as [(j & Hj & ->)|[_ Hn]].
  - apply Hport in Hj as (_ & _ & ->). cbn [fmap result_fmap snd]. eexists. split; [reflexivity|].
    unfold delivered. cbn [structuredContent isError content_text]. rewrite serialize_canonical by done.
    split_and!; [done..|by apply json_parse_serialize|]. by apply clean_no_newline, serialize_clean.
  - exfalso. apply (Hn (canonical_form content)). by apply Hport.
Qed.
End delivers.

(** ** Reading a plan from the graph that was sent *)

Lemma field_value {A} k (dec : json → option A) props x :
  field k dec props = Some x → ∃ j, get_own k props = Some j ∧ dec j = Some x.
Proof. unfold field. intros (j & H & E)%bind_Some. by exists j. Qed.
Lemma opt_field_value {A} k (dec : json → option A) props o :
  opt_field k dec props = Some o →
  match get_own k props with Some j => ∃ x, dec j = Some x ∧ o = Some x | None => o = None end.
Proof.
  unfold opt_field. destruct (get_own k props) as [j|]; [|by intros [= <-]].
  intros (x & H & [= <-])%bind_Some. by exists x.
Qed.
Lemma items_length {A} (dec : json → option A) j l :
  as_array j ≫= mapM dec = Some l → array_length j = Some (length l).
Proof.
  destruct j as [| | | |items|]; try done. cbn [as_array mbind option_bind array_length]. intros H%mapM_Some.
  by rewrite (Forall2_length _ _ _ H).
Qed.

(** The properties that a plan reads are those of the graph. *)
Lemma raw_graph j g :
  graph_of_json j = Some g →
  property "metadata" j ≫= property "name" = Some (JStr (metadata_name (graph_metadata g))) ∧
  property "nodes" j ≫= array_length = Some (length (graph_nodes g)) ∧
  property "edges" j ≫= array_length = Some (length (graph_edges g)) ∧
  match graph_policies g ≫= policy_maxConcurrency with
  | Some z => ∃ n, configured_concurrency j = JNum n ∧ num_integer n = true ∧ num_trunc n = z ∧
      ∃ policies, property "policies" j = Some policies ∧ property "maxConcurrency" policies = Some (JNum n)
  | None => configured_concurrency j = JNull
  end.
Proof.
  intros H. unfold graph_of_json in H. apply bind_Some in H as (props & Hprops & H). apply as_record_props in Hprops as ->.
  repeat (apply bind_Some in H as (? & ? & H)). injection H as <-.
  cbn [graph_metadata graph_nodes graph_edges graph_policies]. unfold configured_concurrency, property. cbn [record mbind option_bind].
  repeat match goal with E : field _ _ _ = Some _ |- _ => apply field_value in E as (? & ? & ?) end.
  repeat match goal with E : get_own _ props = Some _ |- _ => rewrite E; clear E end. cbn [mbind option_bind].
  split_and!; [|by eapply items_length|by eapply items_length|].
  - match goal with E : metadata_of_json ?m = Some _ |- _ => rename E into Em end. unfold metadata_of_json in Em.
    apply bind_Some in Em as (mprops & Hm & Em). apply as_record_props in Hm as ->.
    repeat (apply bind_Some in Em as (? & ? & Em)). injection Em as <-. cbn [metadata_name record mbind option_bind].
    match goal with E : field (js "name") _ _ = Some _ |- _ => apply field_value in E as (v & -> & Ev) end.
    by destruct v as [| | |s| |]; try done; injection Ev as ->.
  - match goal with E : opt_field (js "policies") _ _ = Some _ |- _ => apply opt_field_value in E; rename E into Ep end.
    destruct (get_own (js "policies") props) as [policies|]; [|by rewrite Ep]. destruct Ep as (p & Hp & ->).
    unfold policies_of_json in Hp. apply bind_Some in Hp as (pprops & Hr & Hp). destruct policies as [| | | | |pprops']; try done.
    injection Hr as ->. apply bind_Some in Hp as (mc & Hmc & Hp). repeat (apply bind_Some in Hp as (? & ? & Hp)). injection Hp as <-.
    cbn [record mbind option_bind policy_maxConcurrency]. apply opt_field_value in Hmc.
    destruct (get_own (js "maxConcurrency") pprops) as [v|] eqn:Ev; [|by rewrite Hmc]. destruct Hmc as (z & Hz & ->).
    destruct v as [| |n| | |]; try done. cbn [as_integer] in Hz. destruct (num_integer n) eqn:Hn; [|done]. injection Hz as <-.
    exists n. split_and!; [done..|]. eexists. split; [reflexivity|]. cbn [record mbind option_bind]. done.
Qed.

(** ** Bounds *)

Lemma limits_graph j g :
  inputLimitIssue (Some j) = None → graph_of_json j = Some g →
  (N.of_nat (length (graph_nodes g)) <= 2048 ∧ N.of_nat (length (graph_edges g)) <= 8192)%N.
Proof.
  intros Hl Hg. destruct (raw_graph j g Hg) as (_ & Hn & He & _). unfold inputLimitIssue in Hl.
  destruct (_ <? _)%N; [done|]. unfold property in Hn, He.
  destruct (record j) as [props|]; [|done]. cbn [mbind option_bind] in Hn, He. cbv zeta in Hl.
  destruct ((MAX_GRAPH_NODES <? _) || _)%N eqn:E; [done|]. apply orb_false_iff in E as [En Ee].
  apply N.ltb_ge in En, Ee. unfold items_of in En, Ee.
  destruct (get_own (js "nodes") props) as [[| | | |nodes|]|]; try done. injection Hn as Hn.
  destruct (get_own (js "edges") props) as [[| | | |edges|]|]; try done. injection He as He.
  by rewrite <- Hn, <- He.
Qed.

Lemma maximum_bound l k : Forall (λ n, n ≤ k) l → maximum l ≤ k.
Proof. induction 1 as [|n l Hn Hl IH]; cbn [maximum foldr]; [lia|]. unfold maximum in IH. lia. Qed.

(** There are no more layers than nodes, and no layer is wider. *)
Lemma layers_bounds g hash canonical :
  let layers := topologicalLayers (compile_graph g hash canonical) in
  length layers ≤ length (graph_nodes g) ∧ maximum (length <$> layers) ≤ length (graph_nodes g).
Proof.
  cbv zeta. assert (length (graph_ids g) = length (graph_nodes g)) as Hids by (unfold graph_ids; by rewrite length_fmap).
  destruct (compile_graph_cases g hash canonical) as [(_ & _ & -> & _)|(_ & d & Ha)]; [cbn; lia|].
  assert (d ≤ length (graph_ids g) ∧
    topologicalLayers (compile_graph g hash canonical) = level (graph_ids g) (graph_pairs g) <$> seq 0 d) as [Hd ->].
  { destruct Ha as (Hd & _ & _ & [[_ ->]|(_ & adjacency & reachable & _ & _ & ->)]); done. }
  rewrite length_fmap, length_seq. split; [lia|]. apply maximum_bound. rewrite <- list_fmap_compose.
  apply Forall_fmap, Forall_true. intros i. unfold compose. rewrite <- Hids. apply length_filter.
Qed.

Lemma interoperable_entry k props j : interoperable (JObj props) → get_own k props = Some j → interoperable j.
Proof.
  unfold interoperable. cbn [interoperable_b]. rewrite forallb_Forall, Forall_forall. intros H E.
  apply map_get_Some_elem in E. apply (H _ E).
Qed.

(** The concurrency of a policy is a positive safe integer. *)
Lemma policy_number j policies n :
  json_ok j → interoperable j → property "policies" j = Some policies →
  property "maxConcurrency" policies = Some (JNum n) → num_ok n ∧ (num_integer n = true → num_safe_integer n = true).
Proof.
  intros Hok Hi Hp Hn. unfold property in Hp, Hn. destruct j as [| | | | |props]; try done. cbn [record mbind option_bind] in Hp.
  pose proof (json_ok_entry _ _ _ Hok Hp) as Hpok. pose proof (interoperable_entry _ _ _ Hi Hp) as Hpi.
  destruct policies as [| | | | |pprops]; try done. cbn [record mbind option_bind] in Hn.
  pose proof (json_ok_entry _ _ _ Hpok Hn) as Hnok. pose proof (interoperable_entry _ _ _ Hpi Hn) as Hni.
  apply json_ok_num in Hnok as [Hnok _]. split; [done|]. intros Hint. unfold interoperable in Hni. cbn [interoperable_b] in Hni.
  by rewrite Hint in Hni.
Qed.

(** ** The tools *)

(** The world of one call: the worker posts the compilation of the graph it was given,
    and messages are texts. *)
Definition honest (hash : jsstr → jsstr) (graph : option json) (world : bounded_world) : Prop :=
  (∀ c j, Message c ∈ world_events world → graph = Some j → Message c = compile_worker hash j) ∧
  (∀ m, WorkerError m ∈ world_events world → str_wf m) ∧ (∀ m, world_start world = Err m → str_wf m).

Section results.
Context (hash : jsstr → jsstr).
Hypothesis hash_wf : ∀ s, str_wf (hash s).

Lemma string_of_num_wf n : str_wf (string_of_num n).
Proof. apply clean_wf, printable_clean, string_of_num_printable. Qed.
#[local] Hint Resolve string_of_num_wf : wf.

Lemma limit_issue_wf graph i : inputLimitIssue graph = Some i → str_wf (issue_message i).
Proof.
  unfold inputLimitIssue. destruct graph as [j|]; [|intros <-%(inj Some); apply js_wf].
  destruct (_ <? _)%N; [intros <-%(inj Some); cbn [issue_message]; auto 12 with wf|]. destruct (record j); [|done]. cbv zeta.
  destruct (_ || _); [|done]. intros <-%(inj Some). cbn [issue_message]. auto 20 with wf.
Qed.

Definition outcome_wf (P : CompilationResult → Prop) (b : BoundedCompilation) : Prop :=
  match b with Compiled c => P c | Refused i => str_wf (issue_message i) end.
Lemma refuse_wf P code message : str_wf message → outcome_wf P (refuse code message).
Proof. done. Qed.
Lemma finish_wf P value terminate s :
  outcome_wf P value → when_present (outcome_wf P) (settled s) → when_present (outcome_wf P) (settled (finish value terminate s)).
Proof. intros Hv Hs. unfold finish. by destruct (settled s) eqn:E; [rewrite E|]. Qed.

(** Every outcome of the race is an event's. *)
Lemma race_wf P timeoutMs events s :
  when_present (outcome_wf P) (settled s) →
  (∀ c, Message c ∈ events → P c) → (∀ m, WorkerError m ∈ events → str_wf m) →
  when_present (outcome_wf P) (settled (foldl (deliver timeoutMs) s events)).
Proof.
  revert s. induction events as [|e events IH]; intros s Hs Hc Hm; [done|]. cbn [foldl]. apply IH.
  - destruct s as [v t a m r x w]. destruct e as [c|message|code| |]; cbn [deliver]; [destruct m|destruct r|destruct x|destruct t|destruct a];
      try done; try case_match; try done; apply finish_wf; try done; try (apply refuse_wf; auto 12 with wf).
    + apply Hc. left.
    + apply str_wf_append; [apply js_wf|]. apply Hm. left.
  - intros c Hin. apply Hc. by right.
  - intros m Hin. apply Hm. by right.
Qed.

Lemma bounded_wf graph world timeoutMs b :
  honest hash graph world → compileGraphBounded graph world timeoutMs = Some b →
  match b with
  | Compiled c => ∃ j, graph = Some j ∧ inputLimitIssue graph = None ∧ c = compile_json hash j
  | Refused i => str_wf (issue_message i)
  end.
Proof.
  intros (Hmessage & Herror & Hstart). unfold compileGraphBounded.
  destruct (inputLimitIssue graph) as [i|] eqn:Hi; [intros <-%(inj Some); by eapply limit_issue_wf|].
  destruct graph as [j|]; [|done].
  destruct (match world_signal world with Some a => aborted_at_call a | None => false end); [intros <-%(inj Some); apply js_wf|].
  destruct (_ || _); [intros <-%(inj Some); apply js_wf|].
  destruct (world_start world) as [[]|m]; [|intros <-%(inj Some); cbn [refuse issue_message]; by auto with wf]. intros Hb.
  pose proof (race_wf (λ c, c = compile_json hash j) timeoutMs (world_events world) (start_race (world_signal world))) as Hrace.
  rewrite Hb in Hrace. assert (outcome_wf (λ c, c = compile_json hash j) b) as Hout.
  { apply Hrace; [|intros c Hc; specialize (Hmessage c j Hc eq_refl); by injection Hmessage|exact Herror].
    unfold start_race. destruct (world_signal world) as [[? []]|]; [apply js_wf|done..]. }
  destruct b as [c|i]; [|exact Hout]. by exists j.
Qed.

(** The content of a plan: that of the command line's plan of the same document *)
Definition plan_content (c : CompilationResult) (p : option GraphPlan) (concurrency : json) : json :=
  JObj (validation_props c ++
    match p with
    | Some p => plan_props (JStr (plan_graphName p)) (plan_nodeCount p) (plan_edgeCount p) (plan_layerCount p)
        (plan_maxParallelWidth p) concurrency (plan_topologicalLayers p)
    | None => no_plan
    end).
(** The number that stands for an optional limit *)
Definition shows_limit (o : option Z) (j : json) : Prop :=
  match o with Some z => ∃ n, j = JNum n ∧ num_safe_integer n = true ∧ num_trunc n = z | None => j = JNull end.

Section tools.
Context {accepts : zod → json → Prop} `{!Zod accepts}.
Abbreviation delivers := (delivers (accepts := accepts)).
Abbreviation delivered := (delivered (accepts := accepts)).

(** A valid compilation within the limits: the raw reading is the plan. *)
Lemma valid_plan j :
  parsed_ok j → inputLimitIssue (Some j) = None → valid (compile_json hash j) = true →
  ∃ g p, v_graph (validateGraphDocument hash j) = Some g ∧ planGraph g (validateGraphDocument hash j) = Ok p ∧
    shows_limit (plan_configuredMaxConcurrency p) (configured_concurrency j) ∧
    delivers planOutputSchema (plan_content (compile_json hash j) (Some p) (configured_concurrency j)) ∧
    plan_result (Some j) (Compiled (compile_json hash j)) =
      toolResult (plan_content (compile_json hash j) (Some p) (configured_concurrency j)) false.
Proof.
  intros Hj Hl Hv. destruct (planGraph_valid hash j Hj Hv) as (g & p & Hg & Hgraph & Hp & Ep).
  exists g, p. split; [done|]. split; [done|]. pose proof Hg as (Hok & Hi & Hread & Hgok).
  destruct (raw_graph j g Hread) as (Hname & Hnodes & Hedges & Hconc).
  destruct (limits_graph j g Hl Hread) as [Bn Be].
  assert (let layers := topologicalLayers (compile_json hash j) in
    length layers ≤ length (graph_nodes g) ∧ maximum (length <$> layers) ≤ length (graph_nodes g)) as [Bl Bw].
  { destruct (compile_json_cases hash j Hj) as [(g' & Hg' & ->)|[Hn _]]; [|by destruct (Hn g)].
    rewrite (encodes_functional j g g' Hg Hg').
    pose proof (layers_bounds (canonical_graph g') (Some (hash (serializeCaptured j))) (Some (serializeCaptured j))) as Hb.
    cbn [canonical_graph graph_nodes] in Hb. by rewrite length_fmap in Hb. }
  assert (shows_limit (plan_configuredMaxConcurrency p) (configured_concurrency j) ∧
    delivers (ZNullable ZPositiveInt) (configured_concurrency j)) as [Hshow Hpositive].
  { rewrite Ep. cbn [plan_configuredMaxConcurrency]. destruct (graph_policies g ≫= policy_maxConcurrency) as [z|] eqn:Ez.
    - destruct Hconc as (n & Hn & Hint & Htrunc & policies & Hpol & Hmax).
      destruct (policy_number j policies n Hok Hi Hpol Hmax) as [Hnok Hsafe]. specialize (Hsafe Hint).
      split; [by exists n|]. rewrite Hn. apply delivers_nullable. destruct (safe_integer_content n Hnok Hsafe).
      split; [done..|]. apply zod_positive; [done|]. rewrite Htrunc. unfold graph_ok in Hgok.
      apply bind_Some in Ez as (q & Eq & Ez). rewrite Eq in Hgok. cbn [when_present] in Hgok.
      destruct Hgok as (_ & _ & _ & _ & _ & _ & _ & _ & Hq). unfold policies_ok in Hq. rewrite Ez in Hq. apply Hq.
    - rewrite Hconc. split; [done|apply delivers_null]. }
  pose proof (compile_json_wf hash j hash_wf Hj) as Hwf. pose proof Hwf as [_ _ Hlayers _].
  split; [done|]. split.
  - rewrite Ep. apply delivers_plan; [done|]. cbn [plan_graphName plan_nodeCount plan_edgeCount plan_layerCount plan_maxParallelWidth plan_topologicalLayers].
    split; [|repeat apply Forall_cons_2; [unfold MAX_SAFE_INTEGER; lia..|apply Forall_nil_2]|done|done].
    apply delivers_nullable, delivers_string. by apply (wf_name g), (decodes_good j).
  - cbn [plan_result]. rewrite Hv. cbn [negb mbind option_bind]. rewrite Hname, Hnodes, Hedges. cbn [mbind option_bind].
    unfold plan_content. by rewrite Ep.
Qed.

Lemma plan_result_delivers graph world timeoutMs b :
  when_present parsed_ok graph → honest hash graph world → compileGraphBounded graph world timeoutMs = Some b →
  ∃ result content, plan_result graph b = Ok result ∧
    delivered planOutputSchema content (match b with Compiled _ => false | Refused _ => true end) result.
Proof.
  intros Hgraph Hworld Hb. pose proof (bounded_wf graph world timeoutMs b Hworld Hb) as Hout.
  assert (∀ content failed, delivers planOutputSchema content →
    ∃ result content', toolResult content failed = Ok result ∧ delivered planOutputSchema content' failed result) as Hd.
  { intros content failed Hd. destruct (toolResult_delivers _ content failed Hd) as (r & Hr & Hdel). by exists r, content. }
  destruct b as [c|i].
  - destruct Hout as (j & -> & Hl & ->). cbn [when_present] in Hgraph.
    destruct (valid (compile_json hash j)) eqn:Hv.
    + destruct (valid_plan j Hgraph Hl Hv) as (g & p & _ & _ & _ & Hdel & ->). by apply Hd.
    + cbn [plan_result]. rewrite Hv. cbn [negb]. apply Hd, delivers_plan; [by apply compile_json_wf|apply no_plan_fields].
  - by apply Hd, delivers_refused_plan.
Qed.

Lemma validation_result_delivers graph world timeoutMs b :
  when_present parsed_ok graph → honest hash graph world → compileGraphBounded graph world timeoutMs = Some b →
  ∃ result content, validation_result b = Ok result ∧
    delivered validationOutputSchema content (match b with Compiled _ => false | Refused _ => true end) result.
Proof.
  intros Hgraph Hworld Hb. pose proof (bounded_wf graph world timeoutMs b Hworld Hb) as Hout.
  destruct b as [c|i]; cbn [validation_result].
  - destruct Hout as (j & -> & Hl & ->).
    destruct (toolResult_delivers _ _ false (delivers_validation _ (compile_json_wf hash j hash_wf Hgraph))) as (r & Hr & Hdel).
    by exists r, (validationRecord (compile_json hash j)).
  - destruct (toolResult_delivers _ _ true (delivers_refusal i Hout)) as (r & Hr & Hdel). by exists r, (compilationIssueRecord i).
Qed.

(** The tools [graph_validate] and [graph_plan], for every input that a client can
    send and whatever happens to the worker: once the bounded compilation has settled,
    the tool returns a result and does not throw.  The result conforms to the output
    schema the tool is registered with, its text is one line that [JSON.parse] reads
    back as the structured content, and it is marked as an error exactly when the
    compilation was refused. *)
Theorem mcp_tools_conform graph world :
  when_present parsed_ok graph → honest hash graph world →
  match compileGraphBounded graph world TOOL_TIMEOUT_MS with
  | None => graphValidate graph world = None ∧ graphPlan graph world = None
  | Some bounded =>
      let failed := match bounded with Compiled _ => false | Refused _ => true end in
      (∃ result content, graphValidate graph world = Some (Ok result) ∧
         delivered validationOutputSchema content failed result) ∧
      (∃ result content, graphPlan graph world = Some (Ok result) ∧ delivered planOutputSchema content failed result)
  end.
Proof.
  intros Hgraph Hworld. unfold graphValidate, graphPlan.
  destruct (compileGraphBounded graph world TOOL_TIMEOUT_MS) as [b|] eqn:Hb; [|done]. cbv zeta. split.
  - destruct (validation_result_delivers graph world _ b Hgraph Hworld Hb) as (r & content & Hr & Hd).
    exists r, content. cbn [fmap option_fmap option_map]. by rewrite Hr.
  - destruct (plan_result_delivers graph world _ b Hgraph Hworld Hb) as (r & content & Hr & Hd).
    exists r, content. cbn [fmap option_fmap option_map]. by rewrite Hr.
Qed.

End tools.

(** C37. The plan of the MCP server is the plan of the command line: when the worker
    compiles the document, the content is that of [planGraph] on the command line's
    validation of the same document, and without a plan when that validation fails.
    The counts are within the limits on nodes and edges. *)
Theorem graph_plan_agrees j world c :
  parsed_ok j → honest hash (Some j) world →
  compileGraphBounded (Some j) world TOOL_TIMEOUT_MS = Some (Compiled c) →
  let v := validateGraphDocument hash j in
  ∃ result, graphPlan (Some j) world = Some (Ok result) ∧
    if v_valid v
    then ∃ g p concurrency, v_graph v = Some g ∧ planGraph g v = Ok p ∧
           structuredContent result = plan_content (compile_json hash j) (Some p) concurrency ∧
           shows_limit (plan_configuredMaxConcurrency p) concurrency ∧
           (N.of_nat (length (graph_nodes g)) <= MAX_GRAPH_NODES)%N ∧ (N.of_nat (length (graph_edges g)) <= MAX_GRAPH_EDGES)%N
    else structuredContent result = plan_content (compile_json hash j) None JNull.
Proof.
  intros Hj Hworld Hb. cbv zeta. destruct (bounded_wf _ _ _ _ Hworld Hb) as (j' & [= <-] & Hl & ->).
  unfold graphPlan. rewrite Hb. cbn [fmap option_fmap option_map].
  change (v_valid (validateGraphDocument hash j)) with (valid (compile_json hash j)).
  destruct (valid (compile_json hash j)) eqn:Hv.
  - destruct (valid_plan (accepts := zod_check) j Hj Hl Hv) as (g & p & Hg & Hp & Hshow & Hdel & ->).
    destruct (toolResult_delivers _ _ false Hdel) as (r & -> & Hcontent & _). exists r. split; [done|].
    exists g, p, (configured_concurrency j). split_and!; try done.
    all: destruct (planGraph_valid hash j Hj Hv) as (g' & p' & (_ & _ & Hread & _) & Hg' & _);
      rewrite Hg in Hg'; injection Hg' as <-; by apply (limits_graph j g).
  - cbn [plan_result]. rewrite Hv. cbn [negb].
    destruct (toolResult_delivers (accepts := zod_check) planOutputSchema (plan_content (compile_json hash j) None JNull) false) as (r & Hr & Hcontent & _).
    { apply delivers_plan; [by apply compile_json_wf|apply no_plan_fields]. }
    exists r. split; [by f_equal|done].
Qed.
End results.

(** ** The schema tool *)

Section schema.
Context (hash syntax_message : jsstr → jsstr).
Hypothesis hash_wf : ∀ s, str_wf (hash s).
Hypothesis syntax_wf : ∀ s, str_wf s → str_wf (syntax_message s).
Context {accepts : zod → json → Prop} `{!Zod accepts}.
Abbreviation delivers := (delivers (accepts := accepts)).
Abbreviation delivered := (delivered (accepts := accepts)).

(** Calls of the tool, one after the other, in one process *)
Fixpoint schema_calls (n : nat) (cachedSchema : schema_cache) : prog (list (result jsstr CallToolResult)) :=
  match n with
  | 0 => Ret []
  | S n =>
      '(r, cachedSchema) ← graphGetSchema hash syntax_message cachedSchema;
      rs ← schema_calls n cachedSchema;
      Ret (r :: rs)
  end.

Lemma bundled_delivers id sha schema props :
  str_wf id → str_wf sha → schema = JObj props → json_ok schema → interoperable schema →
  delivers schemaOutputSchema (schema_content (Build_BundledSchema API_VERSION GRAPH_SCHEMA_URI id sha schema)).
Proof.
  intros Hid Hsha -> Hok Hi. unfold schemaOutputSchema, schema_content.
  assert (str_wf STRUCTURED_CONTENT_VERSION ∧ str_wf GRAPH_SCHEMA_URI) as [Hv Hu] by (split; apply js_wf).
  apply delivers_object; [vm_compute; reflexivity|apply (bool_decide_unpack _); vm_compute; exact I|].
  repeat (apply Forall_cons_2; [eexists; split; [reflexivity|]; cbn [fst snd]|]); [..|apply Forall_nil_2].
  - by apply delivers_literal.
  - apply delivers_nullable, delivers_string, js_wf.
  - by apply delivers_nullable, delivers_string.
  - by apply delivers_nullable, delivers_string.
  - by apply delivers_nullable, delivers_string.
  - apply delivers_nullable. split; [done..|]. apply zod_record, Forall_true. intros p. apply zod_unknown.
  - apply delivers_null.
Qed.
Lemma no_schema_delivers m : str_wf m → delivers schemaOutputSchema (no_schema_content m).
Proof.
  intros Hm. unfold schemaOutputSchema, no_schema_content.
  apply delivers_object; [vm_compute; reflexivity|apply (bool_decide_unpack _); vm_compute; exact I|].
  repeat (apply Forall_cons_2; [eexists; split; [reflexivity|]; cbn [fst snd]|]); [..|apply Forall_nil_2];
    try apply delivers_null; [apply delivers_literal, js_wf|by apply delivers_issue].
Qed.

Lemma canonicalHash_json j :
  parsed_ok j →
  match (let '(h, v) := value_of_json j in canonicalHash hash h v) with
  | Ok sha => json_ok j ∧ interoperable j ∧ sha = hash (serializeCaptured j)
  | Err (CanonicalizationError message _) => str_wf message ∧ ¬ (json_ok j ∧ interoperable j)
  | Err OutOfFuel => False
  end.
Proof.
  intros Hj. pose proof (captured_document j Hj) as Hcap. destruct (value_of_json j) as [h v]. destruct Hcap as [Hh Hport].
  unfold canonicalHash. destruct (captureCanonicalJson_cases h v Hh) as [(j' & Hj' & ->)|[(message & path & E) Hn]].
  - apply Hport in Hj' as (Hok & Hi & ->). cbn [fmap result_fmap snd]. by rewrite serialize_canonical.
  - rewrite E. cbn [fmap result_fmap]. split.
    + pose proof (captureValue_wf h (S (size h)) v (js "#") [] Hh (js_wf _)) as Hm. unfold captureCanonicalJson in E.
      destruct (captureValue _ _ _ _ _) as [c|e]; [done|]. injection E as ->. exact Hm.
    + intros [Hok Hi]. apply (Hn (canonical_form j)). by apply Hport.
Qed.

(** A document can be used when it is an object with an [$id] that the core serializes. *)
Definition usable_document (source : jsstr) (schema : json) : Prop :=
  json_parse source = Some schema ∧ (∃ schemaId, property "$id" schema = Some (JStr schemaId)) ∧
  json_ok schema ∧ interoperable schema.

Lemma bundle_schema_ok source :
  str_wf source →
  match bundle_schema hash syntax_message source with
  | Ok b => delivers schemaOutputSchema (schema_content b) ∧ usable_document source (bundled_schema b) ∧
            bundled_canonicalSha256 b = hash (serializeCaptured (bundled_schema b))
  | Err message => str_wf message ∧ ∀ schema, ¬ usable_document source schema
  end.
Proof.
  intros Hs. unfold bundle_schema, usable_document, property.
  destruct (json_parse source) as [parsed|] eqn:Hp; [|split; [by apply syntax_wf|by intros ? [? _]]].
  apply json_parse_ok in Hp; [|done]. destruct (record parsed) as [props|] eqn:Hr.
  2: { split; [apply js_wf|]. intros schema ([= <-] & (id & Hid) & _). by rewrite Hr in Hid. }
  pose proof (canonicalHash_json parsed Hp) as Hhash.
  destruct (get_own (js "$id") props) as [[| | |id| |]|] eqn:Hget;
    try (split; [apply js_wf|]; intros schema ([= <-] & (id' & Hid) & _); rewrite Hr in Hid; cbn [mbind option_bind] in Hid; congruence).
  destruct (value_of_json parsed) as [h v]. destruct (canonicalHash hash h v) as [sha|[message path|]]; [| |done].
  - destruct Hhash as (Hok & Hi & ->). destruct parsed as [| | | | |props']; try done. injection Hr as ->. split.
    + eapply bundled_delivers; [|apply hash_wf|done..]. apply (json_ok_entry _ _ _ Hok) in Hget. by apply json_ok_str.
    + split; [|done]. split; [done|]. split; [by exists id|done].
  - destruct Hhash as [Hm Hn]. split; [done|]. by intros schema ([= <-] & _ & H).
Qed.

(** The answer to the read of the asset: its text, if it can be used *)
Definition usable_asset (a : answer (list N)) : Prop :=
  ∃ bytes schema, a = Ok bytes ∧ usable_document (utf8_text bytes) schema.
Definition answer_ok (a : answer (list N)) : Prop :=
  match a with Ok bytes => Forall (λ b, b < 256)%N bytes | Err e => str_wf (error_message e) end.

(** The result of the tool for an outcome of the read *)
Definition schema_result (outcome : result jsstr BundledSchema) : result jsstr CallToolResult :=
  match match outcome with Ok bundled => toolResult (schema_content bundled) false | Err message => Err message end with
  | Ok result => Ok result
  | Err message => toolResult (no_schema_content message) true
  end.

Lemma cached_calls n outcome t rs :
  exec (schema_calls n (Some outcome)) t rs → t = [] ∧ rs = replicate n (schema_result outcome).
Proof.
  revert t rs. induction n as [|n IH]; intros t rs; cbn [schema_calls].
  - by intros [-> ->].
  - intros (t1 & t2 & rc & -> & [-> ->] & Hrest)%exec_bind.
    apply exec_bind in Hrest as (t3 & t4 & rs' & -> & Hcalls & -> & ->). by apply IH in Hcalls as [-> ->].
Qed.

Lemma schema_result_delivers source :
  str_wf source →
  ∃ result content failed, schema_result (bundle_schema hash syntax_message source) = Ok result ∧
    delivered schemaOutputSchema content failed result ∧ (failed = false ↔ ∃ schema, usable_document source schema).
Proof.
  intros Hs. pose proof (bundle_schema_ok source Hs) as Hb. unfold schema_result.
  destruct (bundle_schema hash syntax_message source) as [b|message].
  - destruct Hb as (Hd & Hu & _). destruct (toolResult_delivers _ _ false Hd) as (r & -> & Hr).
    exists r, (schema_content b), false. split_and!; [done..|]. split; [by eexists|done].
  - destruct Hb as [Hm Hn]. destruct (toolResult_delivers _ _ true (no_schema_delivers message Hm)) as (r & -> & Hr).
    exists r, (no_schema_content message), true. split_and!; [done..|]. split; [done|]. by intros (schema & Hu%Hn).
Qed.

(** The MCP server reads its bundled schema once.  However often [graph_get_schema]
    is called in one process, the trace is a single read of the asset, all calls return
    the same result - also when the first read failed - and the result conforms to its
    output schema; it is an error exactly when the asset cannot be read, or is not a JSON
    object with an [$id] that the core can serialize. *)
Theorem schema_read_once n t rs :
  exec (schema_calls (S n) None) t rs →
  ∃ a, t = [Event (ReadAsset GraphSchemaAsset) a] ∧
    (answer_ok a →
     ∃ result content failed, rs = replicate (S n) (Ok result) ∧
       delivered schemaOutputSchema content failed result ∧ (failed = false ↔ usable_asset a)).
Proof.
  cbn [schema_calls]. intros (t1 & t2 & [r c] & -> & H1 & H2)%exec_bind.
  apply exec_bind in H2 as (t3 & t4 & rs' & -> & H2 & -> & ->).
  apply exec_bind in H1 as (t5 & t6 & [outcome c'] & -> & H1 & -> & Erc). injection Erc as -> ->.
  apply exec_bind in H1 as (t7 & t8 & o & -> & (a & t' & -> & H1) & -> & Eo). injection Eo as -> ->.
  apply cached_calls in H2 as [-> ->]. fold (schema_result o).
  exists a. destruct a as [bytes|e]; destruct H1 as [-> ->]; (split; [done|]); intros Ha; cbn [answer_ok] in Ha.
  - destruct (schema_result_delivers _ (utf8_text_wf _ Ha)) as (result & content & failed & -> & Hd & Hf).
    exists result, content, failed. split_and!; [done..|]. rewrite Hf. unfold usable_asset. split.
    + intros (schema & Hu). by exists bytes, schema.
    + intros (b & schema & [= <-] & Hu). by exists schema.
  - destruct (toolResult_delivers _ _ true (no_schema_delivers _ Ha)) as (r & Hr & Hd).
    unfold schema_result. rewrite Hr. exists r, (no_schema_content (error_message e)), true. split_and!; [done..|].
    split; [done|]. by intros (b & schema & ? & _).
Qed.
End schema.

(** ** Samples *)

Definition sample_world : bounded_world :=
  Build_bounded_world (Some (Build_AbortSignalState false false)) (Ok ()) [compile_worker zero_hash diamond_document; Exit 0].

Lemma sample_honest : honest zero_hash (Some diamond_document) sample_world.
Proof.
  split; [|split].
  - intros c j Hc [= <-]. apply elem_of_cons in Hc as [->|Hc]; [done|]. by apply list_elem_of_singleton in Hc.
  - intros m Hm. apply elem_of_cons in Hm as [?|Hm]; [done|]. by apply list_elem_of_singleton in Hm.
  - done.
Qed.
Lemma zero_hash_wf s : str_wf (zero_hash s).
Proof. apply js_wf. Qed.

Lemma mcp_tools_conform_witness :
  ∃ result content, graphPlan (Some diamond_document) sample_world = Some (Ok result) ∧
    delivered (accepts := zod_check) planOutputSchema content false result.
Proof.
  assert (when_present parsed_ok (Some diamond_document)) as Hj by (apply (bool_decide_unpack _); vm_compute; exact I).
  pose proof (mcp_tools_conform zero_hash zero_hash_wf (accepts := zod_check) (Some diamond_document) sample_world Hj sample_honest) as H.
  assert (∃ c, compileGraphBounded (Some diamond_document) sample_world TOOL_TIMEOUT_MS = Some (Compiled c)) as [c Hc]
    by (eexists; vm_compute; reflexivity).
  rewrite Hc in H. exact (proj2 H).
Defined.

Lemma graph_plan_agrees_witness :
  ∃ result g p concurrency, graphPlan (Some diamond_document) sample_world = Some (Ok result) ∧
    planGraph g (validateGraphDocument zero_hash diamond_document) = Ok p ∧
    structuredContent result = plan_content (compile_json zero_hash diamond_document) (Some p) concurrency.
Proof.
  assert (parsed_ok diamond_document) as Hj by (apply (bool_decide_unpack _); vm_compute; exact I).
  assert (compileGraphBounded (Some diamond_document) sample_world TOOL_TIMEOUT_MS =
    Some (Compiled (compile_json zero_hash diamond_document))) as Hc by (vm_compute; reflexivity).
  destruct (graph_plan_agrees zero_hash zero_hash_wf diamond_document sample_world _ Hj sample_honest Hc) as (r & Hr & Hplan).
  assert (v_valid (validateGraphDocument zero_hash diamond_document) = true) as Hv by (vm_compute; reflexivity).
  rewrite Hv in Hplan. destruct Hplan as (g & p & concurrency & _ & Hp & Hs & _). exists r, g, p, concurrency.
  split; [exact Hr|]. split; [exact Hp|exact Hs].
Defined.

Lemma schema_read_once_witness :
  let m := schema_calls zero_hash CliSpec.sample_syntax_message 3 None in
  ∃ a result, run_trace DoctorSpec.sound_environment m () = [Event (ReadAsset GraphSchemaAsset) a] ∧
    (run_prog DoctorSpec.sound_environment m ()).1 = replicate 3 (Ok result).
Proof.
  cbv zeta. pose proof (exec_run DoctorSpec.sound_environment (schema_calls zero_hash CliSpec.sample_syntax_message 3 None) ()) as Hexec.
  destruct (schema_read_once zero_hash CliSpec.sample_syntax_message zero_hash_wf (proj2 CliSpec.sample_texts)
    (accepts := zod_check) 2 _ _ Hexec) as (a & Ht & Ha).
  assert (answer_ok a) as Hok.
  { assert ([Event (ReadAsset GraphSchemaAsset) a] =
      [Event (ReadAsset GraphSchemaAsset) (Ok (utf8_encode (stringify DoctorSpec.sound_schema_document)))]) as E
      by (rewrite <- Ht; reflexivity).
    assert (∀ e, [Event (ReadAsset GraphSchemaAsset) a] = [e] →
      match e with Event (ReadAsset _) x => answer_ok x | _ => True end → answer_ok a) as Hinv by (intros e [= <-] H; exact H).
    apply (Hinv _ E). apply (bool_decide_unpack _). vm_compute. exact I. }
  destruct (Ha Hok) as (result & content & failed & Hrs & _). exists a, result. split; [exact Ht|exact Hrs].
Defined.
