(* ===== verification/McpServer.v ===== *)
(** * The MCP server (packages/mcp-server/src/server.ts, stdio.ts)

    The tools and the resource the server registers, each with its schemas and its
    handler, and the process around it: how it is started, and how signals end it.  What
    the SDK does with a registration - the protocol, and parsing the arguments with the
    input schema - is not code of the repository: the theorems here hold for whatever
    requests it passes to the handlers. *)
From S2P Require Import Prelude JsString JsNumber JsValue JsonText Canonical CanonicalSpec NumberText JsonRoundTrip.
From S2P Require Import ParsedJson Stringify JsonValues SchemaValidation Utf8 GraphIR Compiler CompilerSpec CliValidation Process Messages.
From S2P Require Import McpLimits McpTools McpSpec.
From S2P Require Cli CliSpec DoctorSpec.
#[local] Arguments js : simpl never.

(** ** What is registered *)

Record ToolAnnotations := {
  readOnlyHint : bool;
  destructiveHint : bool;
  idempotentHint : bool;
  openWorldHint : bool
}.
Definition readOnlyAnnotations : ToolAnnotations :=
  {| readOnlyHint := true; destructiveHint := false; idempotentHint := true; openWorldHint := false |}.

(** What a handler is called with: the parsed arguments, and what happens to the request -
    its signal among it.  A handler also sees the variables of the process, which are the
    cached schema; [None] is a promise that does not settle. *)
Record tool_input := { arguments : list (jsstr * json); extra : bounded_world }.
Definition tool_handler : Type :=
  tool_input → schema_cache → prog (option (result jsstr CallToolResult) * schema_cache).

Record RegisteredTool := {
  tool_name : jsstr;
  tool_title : jsstr;
  tool_description : jsstr;
  tool_inputSchema : zod;
  tool_outputSchema : zod;
  tool_annotations : ToolAnnotations;
  tool_handle : tool_handler
}.

Record ResourceContents := { contents_uri : jsstr; contents_mimeType : jsstr; contents_text : jsstr }.
Definition resource_handler : Type :=
  jsstr → schema_cache → prog (result jsstr (list ResourceContents) * schema_cache).

Record RegisteredResource := {
  resource_name : jsstr;
  resource_uri : jsstr;
  resource_title : jsstr;
  resource_description : jsstr;
  resource_mimeType : jsstr;
  resource_read : resource_handler
}.

Record McpServer := {
  server_name : jsstr;
  server_version : jsstr;
  server_instructions : jsstr;
  server_tools : list RegisteredTool;
  server_resources : list RegisteredResource
}.

Definition SERVER_NAME : jsstr := js "graph-engineering-readonly".
Definition SERVER_VERSION : jsstr := js "0.1.0-alpha.1".

(** [JSON.stringify(value, null, 2)] *)
Definition stringify_two (j : json) : jsstr := stringify_indented (js "  ") [] j.

Section server.
Context (hash syntax_message : jsstr → jsstr).

Definition graph_argument (input : tool_input) : option json := get_own (js "graph") (arguments input).

Definition graph_validate : RegisteredTool :=
  {| tool_name := js "graph_validate";
     tool_title := js "Validate Graph IR";
     tool_description := js "Compile supplied Graph IR and return the canonical core hash and diagnostics without executing it.";
     tool_inputSchema := graphInputSchema;
     tool_outputSchema := validationOutputSchema;
     tool_annotations := readOnlyAnnotations;
     tool_handle := λ input cachedSchema, Ret (graphValidate (graph_argument input) (extra input), cachedSchema) |}.

Definition graph_plan : RegisteredTool :=
  {| tool_name := js "graph_plan";
     tool_title := js "Plan Graph IR";
     tool_description :=
       js "For valid supplied Graph IR, return deterministic core layers, parallel width, and configured concurrency without execution.";
     tool_inputSchema := graphInputSchema;
     tool_outputSchema := planOutputSchema;
     tool_annotations := readOnlyAnnotations;
     tool_handle := λ input cachedSchema, Ret (graphPlan (graph_argument input) (extra input), cachedSchema) |}.

Definition graph_get_schema : RegisteredTool :=
  {| tool_name := js "graph_get_schema";
     tool_title := js "Get Graph IR Schema";
     tool_description :=
       js "Return the bundled, versioned v1alpha1 Graph IR schema. This tool accepts no path or URI argument.";
     tool_inputSchema := emptyInputSchema;
     tool_outputSchema := schemaOutputSchema;
     tool_annotations := readOnlyAnnotations;
     tool_handle := λ _ cachedSchema,
       '(r, cachedSchema) ← graphGetSchema hash syntax_message cachedSchema; Ret (Some r, cachedSchema) |}.

Definition schema_resource : RegisteredResource :=
  {| resource_name := js "graph-schema-v1alpha1";
     resource_uri := GRAPH_SCHEMA_URI;
     resource_title := js "Graph Engineering Graph IR v1alpha1 schema";
     resource_description := js "Bundled read-only JSON Schema for the supported Graph IR version";
     resource_mimeType := js "application/schema+json";
     resource_read := λ href cachedSchema,
       '(outcome, cachedSchema) ← getBundledGraphSchema hash syntax_message cachedSchema;
       Ret (match outcome with
            | Ok bundled => Ok [Build_ResourceContents href (js "application/schema+json") (stringify_two (bundled_schema bundled))]
            | Err message => Err message
            end, cachedSchema) |}.

Definition createGraphEngineeringMcpServer : McpServer :=
  {| server_name := SERVER_NAME;
     server_version := SERVER_VERSION;
     server_instructions :=
       js "Read-only Graph Engineering pre-alpha server. It validates and plans supplied Graph IR " ++
       js "and returns one bundled schema. It cannot execute graphs, call models, access arbitrary " ++
       js "paths, run shell commands, persist runs, or mutate state.";
     server_tools := [graph_validate; graph_plan; graph_get_schema];
     server_resources := [schema_resource] |}.

(** ** Requests to one process *)

(** A request that reaches a handler of the server *)
Inductive client_request :=
  | CallTool (tool : RegisteredTool) (input : tool_input)
  | ReadResource (resource : RegisteredResource) (href : jsstr).
Inductive server_answer :=
  | ToolAnswer (o : option (result jsstr CallToolResult))
  | ResourceAnswer (r : result jsstr (list ResourceContents)).

Definition serve (r : client_request) (cachedSchema : schema_cache) : prog (server_answer * schema_cache) :=
  match r with
  | CallTool tool input => '(o, cachedSchema) ← tool_handle tool input cachedSchema; Ret (ToolAnswer o, cachedSchema)
  | ReadResource resource href =>
      '(r, cachedSchema) ← resource_read resource href cachedSchema; Ret (ResourceAnswer r, cachedSchema)
  end.
(** What the handler answers without a call of its own *)
Definition respond (r : client_request) (cachedSchema : schema_cache) : option server_answer :=
  match serve r cachedSchema with Ret (a, _) => Some a | Vis _ _ => None end.

(** Requests overlap: a handler that awaits the schema lets others run.  The variable
    [cachedSchema] holds a promise, which all that come before it settles share. *)
Inductive schema_promise := Pending | Settled (outcome : result jsstr BundledSchema).
Record process := {
  cachedSchema : option schema_promise;
  asset_reads : nat;
  arrived : nat;
  waiting : list (nat * client_request);
  answers : list (nat * server_answer)
}.
Definition start : process := {| cachedSchema := None; asset_reads := 0; arrived := 0; waiting := []; answers := [] |}.
Definition settled_schema (p : process) : schema_cache :=
  match cachedSchema p with Some (Settled outcome) => Some outcome | _ => None end.

(** The outcome of the read of the asset *)
Definition outcome_of (a : answer (list N)) : result jsstr BundledSchema :=
  match a with
  | Ok bytes => bundle_schema hash syntax_message (utf8_text bytes)
  | Err e => Err (error_message e)
  end.

Inductive process_event :=
  | Arrives (r : client_request)
  | AssetRead (a : answer (list N)).

Definition process_step (p : process) (e : process_event) : process :=
  let '(Build_process c n k w l) := p in
  match e with
  | Arrives r =>
      match respond r (settled_schema p), c with
      | Some a, _ => Build_process c n (S k) w (l ++ [(k, a)])
      | None, None => Build_process (Some Pending) (S n) (S k) (w ++ [(k, r)]) l
      | None, Some _ => Build_process c n (S k) (w ++ [(k, r)]) l
      end
  | AssetRead a =>
      match c with
      | Some Pending =>
          let outcome := outcome_of a in
          Build_process (Some (Settled outcome)) n k []
            (l ++ omap (λ q : nat * client_request, (q.1,.) <$> respond q.2 (Some outcome)) w)
      | _ => p
      end
  end.
Definition run_process (events : list process_event) : process := foldl process_step start events.

Definition arrivals (events : list process_event) : list client_request :=
  omap (λ e, match e with Arrives r => Some r | AssetRead _ => None end) events.

(** ** The handlers share the read *)

(** The names are different, as the SDK demands, and every tool says that it only reads. *)
Lemma server_tools_distinct :
  NoDup (tool_name <$> server_tools createGraphEngineeringMcpServer) ∧
  Forall (λ tool, tool_annotations tool = readOnlyAnnotations) (server_tools createGraphEngineeringMcpServer).
Proof. split; [apply (bool_decide_unpack _); vm_compute; exact I|by repeat constructor]. Qed.
(** [graph_get_schema] takes no argument, and the other tools only [graph]. *)
Lemma server_tools_arguments {accepts : zod → json → Prop} `{!Zod accepts} props :
  (accepts emptyInputSchema (JObj props) → props = []) ∧
  (accepts graphInputSchema (JObj props) → ∀ k, k ∈ props.*1 → k = js "graph").
Proof.
  split; intros H%zod_strict; cbn [fmap list_fmap fst] in H.
  - destruct props as [|p props]; [done|]. destruct (not_elem_of_nil p.1). apply H. left.
  - intros k Hk%H. by apply list_elem_of_singleton in Hk.
Qed.

Definition registered (r : client_request) : Prop :=
  match r with
  | CallTool tool _ => tool ∈ server_tools createGraphEngineeringMcpServer
  | ReadResource resource _ => resource ∈ server_resources createGraphEngineeringMcpServer
  end.
Definition reads_schema (r : client_request) : bool :=
  match r with CallTool tool _ => bool_decide (tool_name tool = js "graph_get_schema") | ReadResource _ _ => true end.

(** A handler answers from the arguments alone, or reads the asset and then answers like
    one that finds the schema read. *)
Lemma serve_shared r :
  registered r →
  if reads_schema r
  then (∃ k, serve r None = Vis (ReadAsset GraphSchemaAsset) k ∧ ∀ a, k a = serve r (Some (outcome_of a))) ∧
       ∀ outcome, ∃ a, serve r (Some outcome) = Ret (a, Some outcome)
  else ∃ a, ∀ cached, serve r cached = Ret (a, cached).
Proof.
  destruct r as [tool input|resource href]; cbn [registered createGraphEngineeringMcpServer server_tools server_resources].
  - rewrite !elem_of_cons. intros [->|[->|[->|H]]]; [| | |by apply not_elem_of_nil in H]; (eexists; done) || split.
    + eexists. split; [reflexivity|]. by intros [bytes|e].
    + intros outcome. by eexists.
  - intros ->%list_elem_of_singleton. split.
    + eexists. split; [reflexivity|]. by intros [bytes|e].
    + intros outcome. by eexists.
Qed.

Lemma respond_cases r cached :
  registered r →
  (reads_schema r = true ∧ cached = None ∧ respond r cached = None) ∨
  ∃ a, respond r cached = Some a ∧ (reads_schema r = true → is_Some cached).
Proof.
  intros H%serve_shared. unfold respond. destruct (reads_schema r).
  - destruct H as [(k & Hk & _) Hs]. destruct cached as [o|]; [|left; by rewrite Hk].
    right. destruct (Hs o) as [a ->]. exists a. split; [done|]. by eexists.
  - destruct H as [a Ha]. right. exists a. by rewrite Ha.
Qed.

(** ** What is promised *)

Hypothesis hash_wf : ∀ s, str_wf (hash s).
Hypothesis syntax_wf : ∀ s, str_wf s → str_wf (syntax_message s).
Context {accepts : zod → json → Prop} `{!Zod accepts}.
Abbreviation delivered := (delivered (accepts := accepts)).

(** A request as the SDK passes it on, and an event of the environment *)
Definition good_request (r : client_request) : Prop :=
  registered r ∧
  match r with
  | CallTool _ input => parsed_ok (JObj (arguments input)) ∧ honest hash (graph_argument input) (extra input)
  | ReadResource _ _ => True
  end.
Definition good_process_event (e : process_event) : Prop :=
  match e with Arrives r => good_request r | AssetRead a => answer_ok a end.

(** The answer to a request, when the schema has been read with this outcome, or not yet *)
Definition promised (schema : schema_cache) (r : client_request) (a : server_answer) : Prop :=
  match r, a with
  | CallTool tool input, ToolAnswer o =>
      if bool_decide (tool_name tool = js "graph_get_schema")
      then ∃ outcome result, schema = Some outcome ∧ o = Some (Ok result) ∧
             match outcome with
             | Ok bundled => delivered (tool_outputSchema tool) (schema_content bundled) false result
             | Err message => delivered (tool_outputSchema tool) (no_schema_content message) true result
             end
      else match compileGraphBounded (graph_argument input) (extra input) TOOL_TIMEOUT_MS with
           | None => o = None
           | Some bounded => ∃ content result, o = Some (Ok result) ∧
               delivered (tool_outputSchema tool) content (match bounded with Compiled _ => false | Refused _ => true end) result
           end
  | ReadResource resource href, ResourceAnswer contents =>
      ∃ outcome, schema = Some outcome ∧
        match outcome with
        | Ok bundled => ∃ text document,
            contents = Ok [Build_ResourceContents href (resource_mimeType resource) text] ∧ json_parse text = Some document ∧
            (let '(h, v) := value_of_json document in canonicalHash hash h v) = Ok (bundled_canonicalSha256 bundled)
        | Err message => contents = Err message
        end
  | _, _ => False
  end.

(** An outcome of the read *)
Definition read_outcome (outcome : result jsstr BundledSchema) : Prop := ∃ a, answer_ok a ∧ outcome = outcome_of a.

Lemma read_outcome_delivers outcome :
  read_outcome outcome →
  match outcome with
  | Ok b => delivers (accepts := accepts) schemaOutputSchema (schema_content b) ∧
      json_ok (bundled_schema b) ∧ interoperable (bundled_schema b) ∧
      bundled_canonicalSha256 b = hash (serializeCaptured (bundled_schema b))
  | Err message => str_wf message
  end.
Proof.
  intros ([bytes|e] & Ha & ->); [|done]. cbn [outcome_of].
  pose proof (bundle_schema_ok hash syntax_message hash_wf syntax_wf (accepts := accepts) _ (utf8_text_wf _ Ha)) as H.
  destruct (bundle_schema _ _ _) as [b|m]; [|by destruct H]. by destruct H as (? & (_ & _ & ? & ?) & ?).
Qed.

(** The indented text is the schema: it reads back with the same canonical hash. *)
Lemma resource_reads_back j :
  json_ok j → interoperable j →
  ∃ document, json_parse (stringify_two j) = Some document ∧
    (let '(h, v) := value_of_json document in canonicalHash hash h v) = Ok (hash (serializeCaptured j)).
Proof.
  intros Hok Hi. exists (stringified j). pose proof (stringified_ok j Hok) as Hs.
  assert (interoperable (stringified j)) as His
    by (apply interoperable_canonical; rewrite canonical_form_stringified by done; by apply interoperable_canonical).
  split.
  - unfold stringify_two. rewrite json_parse_indented, json_parse_stringify; [done|by apply json_ok_parsed| |by apply json_ok_parsed].
    by repeat constructor.
  - pose proof (canonicalHash_json hash _ (json_ok_parsed _ Hs)) as H. destruct (value_of_json (stringified j)) as [h v].
    destruct (canonicalHash hash h v) as [sha|[message path|]]; [|by destruct H as [_ []]|done].
    destruct H as (_ & _ & ->). do 2 f_equal.
    by rewrite <- serialize_canonical, canonical_form_stringified, serialize_canonical.
Qed.

Lemma parsed_ok_entry k props j : parsed_ok (JObj props) → get_own k props = Some j → parsed_ok j.
Proof.
  intros (_ & _ & H)%parsed_ok_obj E%map_get_Some_elem. rewrite Forall_forall in H. by apply (H (k, j)).
Qed.

Lemma promised_graph tool input schema o :
  good_request (CallTool tool input) → tool ∈ [graph_validate; graph_plan] →
  respond (CallTool tool input) schema = Some o → promised schema (CallTool tool input) o.
Proof.
  intros (_ & Hargs & Hworld) Htool Ho.
  assert (when_present parsed_ok (graph_argument input)) as Hgraph.
  { unfold graph_argument. destruct (get_own _ _) eqn:E; [|done]. by eapply parsed_ok_entry. }
  pose proof (mcp_tools_conform hash hash_wf (accepts := accepts) (graph_argument input) (extra input) Hgraph Hworld) as H.
  repeat (apply elem_of_cons in Htool as [->|Htool]); try by apply not_elem_of_nil in Htool.
  all: injection Ho as <-; cbn [promised tool_name graph_validate graph_plan tool_outputSchema].
  all: rewrite bool_decide_eq_false_2 by (vm_compute; discriminate).
  all: destruct (compileGraphBounded _ _ _) as [b|]; [|by destruct H];
    destruct H as [(r1 & c1 & E1 & H1) (r2 & c2 & E2 & H2)].
  - by exists c1, r1.
  - by exists c2, r2.
Qed.

Lemma promised_schema input outcome o :
  read_outcome outcome → respond (CallTool graph_get_schema input) (Some outcome) = Some o →
  promised (Some outcome) (CallTool graph_get_schema input) o.
Proof.
  intros Hout%read_outcome_delivers Ho. injection Ho as <-. cbn [promised tool_name graph_get_schema tool_outputSchema].
  rewrite bool_decide_eq_true_2 by done. exists outcome. destruct outcome as [b|m].
  - destruct Hout as (Hd & _). destruct (toolResult_delivers _ _ false Hd) as (r & -> & Hr). by exists r.
  - destruct (toolResult_delivers _ _ true (no_schema_delivers (accepts := accepts) m Hout)) as (r & Hr & Hd).
    exists r. by rewrite Hr.
Qed.

Lemma promised_resource href outcome o :
  read_outcome outcome → respond (ReadResource schema_resource href) (Some outcome) = Some o →
  promised (Some outcome) (ReadResource schema_resource href) o.
Proof.
  intros Hout%read_outcome_delivers Ho. injection Ho as <-. exists outcome. split; [done|]. destruct outcome as [b|m]; [|done].
  destruct Hout as (_ & Hok & Hi & Hsha). destruct (resource_reads_back _ Hok Hi) as (document & Hd & Hh).
  exists (stringify_two (bundled_schema b)), document. split; [done|]. split; [done|]. by rewrite Hsha.
Qed.

(** Every answer is as promised, *)
Lemma respond_promised r schema a :
  good_request r → when_present read_outcome schema → respond r schema = Some a → promised schema r a.
Proof.
  intros Hr Hs Ha. pose proof Hr as [Hreg _]. destruct (respond_cases r schema Hreg) as [(_ & _ & E)|(a' & _ & Hsome)]; [congruence|].
  destruct r as [tool input|resource href]; cbn [registered createGraphEngineeringMcpServer server_tools server_resources] in Hreg.
  - change [graph_validate; graph_plan; graph_get_schema] with ([graph_validate; graph_plan] ++ [graph_get_schema]) in Hreg.
    apply elem_of_app in Hreg as [Hin|Hin]; [by apply promised_graph|]. apply list_elem_of_singleton in Hin as ->.
    destruct Hsome as [o ->]; [done|]. by apply promised_schema.
  - apply list_elem_of_singleton in Hreg as ->. destruct Hsome as [o ->]; [done|]. by apply promised_resource.
Qed.
(** and stays so when the schema is read. *)
Lemma promised_mono r a schema outcome : promised schema r a → schema = None → promised (Some outcome) r a.
Proof.
  intros H ->. destruct r as [tool input|resource href], a as [o|contents]; cbn [promised] in *; try done.
  - destruct (bool_decide _); [|done]. by destruct H as (? & ? & ? & _).
  - by destruct H as (? & ? & _).
Qed.

(** ** Any interleaving *)

(** What holds of the process after the events *)
Record process_ok (events : list process_event) (p : process) : Prop := {
  po_reads : asset_reads p = match cachedSchema p with None => 0 | Some _ => 1 end;
  po_arrived : arrived p = length (arrivals events);
  po_once : (answers p).*1 ++ (waiting p).*1 ≡ₚ seq 0 (length (arrivals events));
  po_answers : Forall (λ q, ∃ r, arrivals events !! q.1 = Some r ∧ promised (settled_schema p) r q.2) (answers p);
  po_waiting : Forall (λ q, arrivals events !! q.1 = Some q.2 ∧ good_request q.2) (waiting p);
  po_pending : waiting p ≠ [] → cachedSchema p = Some Pending;
  po_settled : ∀ outcome, settled_schema p = Some outcome →
    ∃ a, AssetRead a ∈ events ∧ answer_ok a ∧ outcome = outcome_of a
}.

Lemma arrivals_app l1 l2 : arrivals (l1 ++ l2) = arrivals l1 ++ arrivals l2.
Proof. apply omap_app. Qed.

Lemma arrives_ok events p r :
  process_ok events p → good_request r → process_ok (events ++ [Arrives r]) (process_step p (Arrives r)).
Proof.
  intros [Hreads Harrived Honce Hanswers Hwaiting Hpending Hsettled] Hr. destruct p as [c n k w l].
  cbn [cachedSchema asset_reads arrived waiting answers] in *. cbn [process_step].
  assert (arrivals (events ++ [Arrives r]) = arrivals events ++ [r]) as Ea by apply arrivals_app.
  assert (∀ q : nat, ∀ r', arrivals events !! q = Some r' → (arrivals events ++ [r]) !! q = Some r') as Hkeep
    by (intros q r' H; by apply lookup_app_l_Some).
  assert ((arrivals events ++ [r]) !! k = Some r) as Hnew by (rewrite Harrived; by apply list_lookup_middle).
  assert (∀ outcome, settled_schema (Build_process c n k w l) = Some outcome →
    ∃ a, AssetRead a ∈ events ++ [Arrives r] ∧ answer_ok a ∧ outcome = outcome_of a) as Hset.
  { intros outcome H. destruct (Hsettled _ H) as (a & Hin & ?). exists a. split; [apply elem_of_app; by left|done]. }
  assert (Forall (λ q, ∃ r', (arrivals events ++ [r]) !! q.1 = Some r' ∧
    promised (settled_schema (Build_process c n k w l)) r' q.2) l) as Hl.
  { eapply Forall_impl; [exact Hanswers|]. intros q (r' & ? & ?). eauto. }
  assert (Forall (λ q, (arrivals events ++ [r]) !! q.1 = Some q.2 ∧ good_request q.2) w) as Hw.
  { eapply Forall_impl; [exact Hwaiting|]. intros q [? ?]. eauto. }
  assert (l.*1 ++ w.*1 ++ [k] ≡ₚ seq 0 (length (arrivals events ++ [r]))) as Hone.
  { rewrite length_app, Nat.add_comm. cbn [length Nat.add]. rewrite seq_S, (assoc_L (++)), Honce. by rewrite Harrived. }
  destruct (respond r _) as [a|] eqn:Ha.
  - split; cbn [cachedSchema asset_reads arrived waiting answers]; rewrite ?Ea; try done.
    + rewrite length_app, Harrived. cbn. lia.
    + rewrite fmap_app, <- (assoc_L (++)). cbn [fmap list_fmap fst]. by rewrite (comm (++) [k]).
    + apply Forall_app. split; [done|]. apply Forall_singleton. exists r. split; [done|].
      apply respond_promised; [done| |exact Ha]. destruct (settled_schema _) as [o|]; [|done].
      destruct (Hsettled o eq_refl) as (x & _ & ? & ->). by exists x.
  - destruct (respond_cases r (settled_schema (Build_process c n k w l)) (proj1 Hr)) as [(_ & Hnone & _)|(a & E & _)]; [|congruence].
    destruct c as [[|o]|]; [|done|]; split; cbn [cachedSchema asset_reads arrived waiting answers] in *; rewrite ?Ea, ?fmap_app; try done;
      try (rewrite length_app, Harrived; cbn; lia); try (apply Forall_app; split; [done|by apply Forall_singleton]).
    by rewrite Hreads.
Qed.

Lemma asset_read_ok events p a :
  process_ok events p → answer_ok a → process_ok (events ++ [AssetRead a]) (process_step p (AssetRead a)).
Proof.
  intros [Hreads Harrived Honce Hanswers Hwaiting Hpending Hsettled] Ha. destruct p as [c n k w l].
  cbn [cachedSchema asset_reads arrived waiting answers] in *. cbn [process_step].
  assert (arrivals (events ++ [AssetRead a]) = arrivals events) as Ea by (rewrite arrivals_app; apply app_nil_r).
  assert (∀ outcome, settled_schema (Build_process c n k w l) = Some outcome →
    ∃ x, AssetRead x ∈ events ++ [AssetRead a] ∧ answer_ok x ∧ outcome = outcome_of x) as Hset.
  { intros outcome H. destruct (Hsettled _ H) as (x & Hin & ?). exists x. split; [apply elem_of_app; by left|done]. }
  destruct c as [[|o]|]; [|by split; rewrite ?Ea..]. set (outcome := outcome_of a).
  assert (read_outcome outcome) as Hout by (by exists a).
  set (late := omap _ w). assert (late.*1 = w.*1 ∧ Forall (λ q, ∃ r, arrivals events !! q.1 = Some r ∧
    promised (Some outcome) r q.2) late) as [Hfst Hlate].
  { unfold late. clear Honce Hpending Hset Hsettled Hanswers. induction Hwaiting as [|[i r] w [Hi Hr] _ IH]; [by split|].
    destruct (respond_cases r (Some outcome) (proj1 Hr)) as [(_ & ? & _)|(x & Hx & _)]; [done|]. cbn [omap list_omap fst snd].
    rewrite Hx. cbn [fmap option_fmap option_map list_fmap fst]. destruct IH as [IH1 IH2]. split; [by f_equal|].
    constructor; [|done]. exists r. split; [done|]. by apply respond_promised. }
  split; cbn [cachedSchema asset_reads arrived waiting answers]; rewrite ?Ea, ?fmap_app, ?app_nil_r; try done.
  - by rewrite Hfst.
  - apply Forall_app. split; [|done]. eapply Forall_impl; [exact Hanswers|]. intros q (r & ? & H). exists r. split; [done|].
    by apply (promised_mono _ _ None).
  - intros ? [= <-]. exists a. split; [apply elem_of_app; right; by apply list_elem_of_singleton|done].
Qed.

Lemma start_ok : process_ok [] start.
Proof. split; done || constructor. Qed.
Lemma run_process_ok events : Forall good_process_event events → process_ok events (run_process events).
Proof.
  unfold run_process. induction events as [|e events IH] using rev_ind; [by intros _; apply start_ok|].
  intros [H Hlast]%Forall_app. apply Forall_cons in Hlast as [He _]. rewrite foldl_app. cbn [foldl]. specialize (IH H).
  destruct e; [by apply arrives_ok|by apply asset_read_ok].
Qed.

Lemma outcome_usable a : answer_ok a → (∃ b, outcome_of a = Ok b) ↔ usable_asset a.
Proof.
  unfold usable_asset. destruct a as [bytes|e]; intros Ha; [|by split; [intros [? ?]|intros (? & ? & ? & _)]]. cbn [outcome_of].
  pose proof (bundle_schema_ok hash syntax_message hash_wf syntax_wf (accepts := accepts) _ (utf8_text_wf _ Ha)) as H.
  destruct (bundle_schema _ _ _) as [b|m].
  - destruct H as (_ & Hu & _). split; [|by eexists]. intros _. by exists bytes, (bundled_schema b).
  - destruct H as [_ Hn]. split; [by intros [? ?]|]. intros (b & schema & [= <-] & Hu). by destruct (Hn schema).
Qed.

Lemma settled_final p outcome later :
  settled_schema p = Some outcome → settled_schema (foldl process_step p later) = Some outcome.
Proof.
  revert p. induction later as [|e later IH]; intros p Hp; [done|]. cbn [foldl]. apply IH.
  destruct p as [[[|o]|] n k w l]; try done. destruct e as [r|a]; [|done]. cbn [process_step]. by case_match.
Qed.

(** C36. However the requests to one server process interleave with its read of the bundled
    schema, the asset is read at most once; every request is handed to its handler and
    recorded exactly once, or waits for the read, whose end leaves nobody waiting.  What is
    recorded of a tool is its answer or, while its compilation has not settled, that
    there is none yet ([ToolAnswer None]).  Every answer of a tool conforms to the output
    schema the tool is registered with, its text being the canonical JSON of its content; and a resource is the schema that [graph_get_schema] returns, as a text that
    reads back with the hash which that tool reports.  The tools that need the schema
    fail exactly when the asset cannot be used, and then they fail for good: the outcome
    of the read is final. *)
Theorem server_interleavings events :
  Forall good_process_event events →
  let p := run_process events in
  asset_reads p ≤ 1 ∧
  (answers p).*1 ++ (waiting p).*1 ≡ₚ seq 0 (length (arrivals events)) ∧
  Forall (λ q, ∃ r, arrivals events !! q.1 = Some r ∧ promised (settled_schema p) r q.2) (answers p) ∧
  (waiting p ≠ [] → asset_reads p = 1 ∧ ∀ a, waiting (process_step p (AssetRead a)) = []) ∧
  ∀ outcome, settled_schema p = Some outcome →
    (∃ a, AssetRead a ∈ events ∧ ((∃ bundled, outcome = Ok bundled) ↔ usable_asset a)) ∧
    ∀ later, settled_schema (foldl process_step p later) = Some outcome.
Proof.
  intros H%run_process_ok p. fold p in H. destruct H as [Hreads Harrived Honce Hanswers Hwaiting Hpending Hsettled].
  split_and!; [|done..| |].
  - rewrite Hreads. destruct (cachedSchema p); lia.
  - intros Hw%Hpending. rewrite Hreads, Hw. split; [done|]. intros a. destruct p as [c n k w l]. cbn [cachedSchema] in Hw. by subst c.
  - intros outcome Ho. split; [|intros later; by apply settled_final].
    destruct (Hsettled _ Ho) as (a & Hin & Ha & ->). exists a. split; [done|]. by apply outcome_usable.
Qed.
End server.

(** ** The process (stdio.ts) *)

(** [isStdioEntrypoint(argument)], given the file system's [realpath] *)
Definition isStdioEntrypoint (realpath : jsstr → answer jsstr) (cwd : path) (module_path : jsstr)
    (argument : option jsstr) : bool :=
  match argument with
  | None => false
  | Some argument =>
      match realpath module_path, realpath (resolved cwd argument) with
      | Ok modulePath, Ok argumentPath => bool_decide (modulePath = argumentPath)
      | _, _ => false
      end
  end.

(** The server never starts where the command line would not; the two differ only when a link
    cannot be resolved. *)
Lemma entrypoints_agree realpath cwd module_path argument :
  isStdioEntrypoint realpath cwd module_path argument = true → Cli.isEntrypoint realpath cwd module_path argument = true.
Proof. destruct argument as [argument|]; [|done]. cbn. by repeat case_match. Qed.

Inductive term_signal := SIGINT | SIGTERM.
#[export] Instance term_signal_eq_dec : EqDecision term_signal.
Proof. solve_decision. Defined.

(** What the process does: [server.close()], [process.exit(0)], or - without a listener - what
    the signal does to a process by default *)
Inductive process_effect := CloseServer | Exit (status : Z) | Killed (s : term_signal).

(** [serveStdio], once connected: the listeners that are left, [closing], whether
    [server.close()] is in flight, and whether the process has ended *)
Record stdio := {
  listening : list term_signal;
  closing : bool;
  in_flight : bool;
  ended : bool;
  effects : list process_effect
}.
Definition serveStdio : stdio :=
  {| listening := [SIGINT; SIGTERM]; closing := false; in_flight := false; ended := false; effects := [] |}.

Inductive stdio_event :=
  | Signal (s : term_signal)
  | CloseSettles.

Definition end_with (e : process_effect) (p : stdio) : stdio :=
  Build_stdio (listening p) (closing p) (in_flight p) true (effects p ++ [e]).
(** [close()]: whether its promise is settled at once *)
Definition close (p : stdio) : stdio * bool :=
  if closing p then (p, true)
  else (Build_stdio (listening p) true true (ended p) (effects p ++ [CloseServer]), false).
(** [process.once(s, () => { void close().finally(() => process.exit(0)); })] *)
Definition on_signal (s : term_signal) (p : stdio) : stdio :=
  if bool_decide (s ∈ listening p) then
    let '(p, settled) := close (Build_stdio (filter (λ s', s' ≠ s) (listening p)) (closing p) (in_flight p) (ended p) (effects p)) in
    if settled then end_with (Exit 0) p else p
  else end_with (Killed s) p.
Definition stdio_step (p : stdio) (e : stdio_event) : stdio :=
  if ended p then p
  else match e with
       | Signal s => on_signal s p
       | CloseSettles => if in_flight p then end_with (Exit 0) p else p
       end.

(** The module's own code: nothing unless it is the entry point; otherwise the server, and -
    when connecting to the transport fails - a line on stderr and an exit code.  Stdout
    belongs to the protocol. *)
Definition main (entrypoint : bool) (connected : result jsstr ()) : option (stdio * option (jsstr * Z)) :=
  if entrypoint
  then Some (serveStdio, match connected with
                         | Ok _ => None
                         | Err message => Some (js "graph-engineering-mcp: " ++ message ++ [10%N], 1%Z)
                         end)
  else None.

(** The shutdown of a server, event by event: the first signal closes the server; what
    comes next ends the process - with 0, unless it is that signal again. *)
Definition ending (s : term_signal) (e : stdio_event) : process_effect :=
  match e with
  | CloseSettles => Exit 0
  | Signal s' => if bool_decide (s' = s) then Killed s else Exit 0
  end.
Fixpoint shutdown (events : list stdio_event) : list process_effect :=
  match events with
  | [] => []
  | CloseSettles :: events => shutdown events
  | Signal s :: [] => [CloseServer]
  | Signal s :: e :: _ => [CloseServer; ending s e]
  end.

Lemma stdio_ended p events : ended p = true → foldl stdio_step p events = p.
Proof. intros H. induction events as [|e events IH]; [done|]. cbn [foldl]. unfold stdio_step at 2. by rewrite H. Qed.

(** A server shuts down as specified, whatever signals arrive and however long closing
    takes: nothing happens before a signal; the first one closes the server, once; then the
    end of the closing, or the other signal, exits with status 0, and only the same
    signal again kills the process; nothing happens after that. *)
Theorem stdio_shutdown events : effects (foldl stdio_step serveStdio events) = shutdown events.
Proof.
  induction events as [|[s|] events IH]; [done| |exact IH].
  destruct events as [|e events]; [by destruct s|]. cbn [foldl].
  destruct s, e as [[]|]; by rewrite stdio_ended.
Qed.

(** ** Samples *)

Definition quiet_world : bounded_world := Build_bounded_world None (Ok ()) [].
Definition sample_tool : tool_input := {| arguments := [(js "graph", diamond_document)]; extra := sample_world |}.
Definition sample_events : list process_event :=
  [Arrives (CallTool (graph_get_schema zero_hash CliSpec.sample_syntax_message) {| arguments := []; extra := quiet_world |});
   Arrives (CallTool graph_plan sample_tool);
   AssetRead (Ok (utf8_encode (stringify DoctorSpec.sound_schema_document)));
   Arrives (ReadResource (schema_resource zero_hash CliSpec.sample_syntax_message) GRAPH_SCHEMA_URI)].

Lemma server_interleavings_witness :
  let p := run_process zero_hash CliSpec.sample_syntax_message sample_events in
  asset_reads p ≤ 1 ∧ (answers p).*1 ++ (waiting p).*1 ≡ₚ [0; 1; 2] ∧ (answers p).*1 = [1; 0; 2].
Proof.
  cbv zeta. assert (Forall (good_process_event zero_hash CliSpec.sample_syntax_message) sample_events) as Hgood.
  { apply Forall_cons_2; [|apply Forall_cons_2; [|apply Forall_cons_2; [|apply Forall_cons_2; [|apply Forall_nil_2]]]].
    - split; [right; right; left|]. split; [apply (bool_decide_unpack _); vm_compute; exact I|].
      split; [intros c j Hc; by apply not_elem_of_nil in Hc|]. split; [intros m Hm; by apply not_elem_of_nil in Hm|]. intros m [=].
    - split; [right; left|]. split; [apply (bool_decide_unpack _); vm_compute; exact I|exact sample_honest].
    - change (Forall (λ b, b < 256)%N (utf8_encode (stringify DoctorSpec.sound_schema_document))).
      apply (bool_decide_unpack _). vm_compute. exact I.
    - split; [left|exact I]. }
  destruct (server_interleavings zero_hash CliSpec.sample_syntax_message zero_hash_wf (proj2 CliSpec.sample_texts)
    (accepts := zod_check) sample_events Hgood) as (Hreads & Honce & _).
  split; [exact Hreads|]. split; [exact Honce|]. vm_compute. reflexivity.
Defined.

(** The other signal exits at once; the same signal kills. *)
Example two_signals : shutdown [CloseSettles; Signal SIGINT; Signal SIGTERM; CloseSettles] = [CloseServer; Exit 0].
Proof. reflexivity. Qed.
Example same_signal : shutdown [Signal SIGINT; Signal SIGINT; CloseSettles] = [CloseServer; Killed SIGINT].
Proof. reflexivity. Qed.
